(* ===== verification/_CoqProject ===== *)
-Q . S2P
Prelude.v
Bitset.v
Csr.v
Codec.v
Kinds.v
Props.v
Snapshot.v
Builder.v
Validate.v
SnapshotFile.v
Disk.v
Segment.v
ParseProps.v
View.v
Unique.v
ViewAdj.v
EdgeKinds.v
PropIndex.v
ViewRows.v
ViewKinds.v
Fold.v
FoldGraph.v
PathSink.v
Ledger.v
ChangeSet.v
Apply.v
Candidates.v
Readback.v
ReadbackRuns.v
ReadbackSpec.v
BootGap.v
Engine.v
Sizes.v
Compact.v
WriteThrough.v
LoadNodes.v
Load.v
WriteApply.v
Replica.v
ReplicaSteps.v
Boot.v
Traverse.v
Bfs.v
Enumerate.v
Strategy.v
Answers.v
SmallSide.v
ViewTraverse.v
Rows.v
Values.v
Scan.v
Hops.v
Trails.v
Components.v
Matching.v
ComponentRuns.v
ComponentPaths.v
ComponentTrails.v
Joins.v
JoinRuns.v
Optional.v
Stages.v
Example.v
EngineExample.v
QueryExample.v
FileTheorems.v
StoreTheorems.v
ViewTheorems.v
IndexTheorems.v
TraverseTheorems.v
EngineTheorems.v
QueryTheorems.v
