(* ===== verification/Prelude.v ===== *)
(** * BloodTrail: verification of the in-memory graph replica and its query engines

    BloodTrail (README.md) answers graph queries from a replica of a graph
    that lives in PostgreSQL. The replica is a base snapshot, an immutable set
    of packed arrays, under a list of delta segments, one for every batch of
    changes; a [View] is the two read as one graph. The shortest-path engine
    searches views. The engine around them keeps the replica in step with the
    database: a write says what it touched, the engine reads those rows back and
    publishes a segment for them, under a watermark that says which writes it has
    applied; what it cannot apply makes it fall back until a rebuilt view is
    adopted; from time to time the segments are folded into a new base. Other
    queries are run by an interpreter over the same views: the matches of a
    pattern are found component by component and joined. This library models that core,
    [src/internal/engine/snapshot], [src/internal/engine/traverse], the
    executor of [src/internal/engine/interpret] and the state and steps of
    [src/internal/engine], and proves it right.

    ** How the model reads

    Every file below follows one or two Go files, function by function and under
    the source's names; a method that would clash is prefixed with its type
    ([View_Dense], [Segment_decode]). Structs are records, a pointer that may
    be nil is an option, a Go map is a [gmap] and ranging over it visits
    [map_to_list], which stands for the unspecified order. Unsigned integers are
    [N] and signed ones [Z]; wherever the source converts or may overflow, the
    width is written out ([u16], [u32], [u64], [i8], [i32], [i64] of this file).
    Every index and slice expression is checked: [idx], [upd] and [slice] give
    [None] where Go panics, so a theorem whose conclusion is [Some] says that
    the code does not panic. Code that also returns an error lives in the monad
    [go] of this file, whose values are a panic, or a state with a result or a
    [goerr]; an error leaves behind the state it leaves behind in Go. Loops that
    are not over a slice take fuel, and the theorems about them state the fuel
    that suffices and that it does. Callbacks ([Iterate], the iterators of
    edges) are functions on a state that say whether to go on.

    [GoStd] is what the model takes from Go's library: [sort.Slice] and
    [slices.SortFunc], which return a sorted permutation, and [encoding/json]'s
    decoding of an array and of an object, about which nothing is assumed;
    [JsonStd] and its laws do the same for the decoding of properties.
    [merge_GoStd] of this file is an instance, on which the witnesses run.

    [Cypher] of [Rows.v] is what the query executor asks of an expression,
    whose AST types belong to a package that is not in the repository: its value
    and its truth on a row, and the equalities of properties a [WHERE] holds.
    [CypherLaws] says that it reads only the symbols it mentions,
    [EqualityLaws] that an equality a true [WHERE] holds is one of values.
    [QueryExample.v] has an instance, on which the witnesses run.

    ** The files

    - [Prelude.v] (this file): integers, slices, [go], sorting, binary search,
      iteration with early exit, and the lemmas on lists that are shared.
    - [Bitset.v], [Kinds.v]: [snapshot/bitset.go], [snapshot/kinds.go].
    - [Csr.v]: rows packed in one array with offsets, as a list of rows; the
      counting sort that packs them.
    - [Props.v]: [snapshot/props.go], property names, values and their arena.
    - [Snapshot.v]: [snapshot/snapshot.go], and the reads of [props.go].
    - [Builder.v]: [snapshot/builder.go]: staging, packing, [Build].
    - [Codec.v], [SnapshotFile.v], [Disk.v]: [snapshot/file.go]: bytes and
      CRC32, the format, and how the file gets on the disk.
    - [Validate.v]: [snapshot/validate.go].
    - [Segment.v]: [snapshot/segment.go]: segments, their builder, merging.
    - [View.v], [ViewAdj.v], [ViewRows.v], [ViewKinds.v]: [snapshot/view.go]:
      numbering and nodes; edges; rows as slices; kinds and summaries.
    - [EdgeKinds.v]: [snapshot/edgekindindex.go].
    - [PropIndex.v]: [snapshot/propindex.go] and the strings of
      [snapshot/deltapropindex.go].
    - [Fold.v], [FoldGraph.v]: [snapshot/fold.go]: nodes, then edges.
    - [PathSink.v]: [traverse/pathsink.go].
    - [Traverse.v]: [traverse/traverse.go] and [traverse/bfs.go], definitions.
    - [Bfs.v], [Enumerate.v]: the searches and the enumeration of [bfs.go].
    - [Strategy.v], [Answers.v], [SmallSide.v]: the strategies of
      [traverse.go] and [AllShortestPaths].
    - [ViewTraverse.v]: a view is something the engine can search.
    - [Unique.v]: the representation relations are functions of the data.
    - [ParseProps.v]: the JSON side of [snapshot/props.go].
    - [Ledger.v]: the ledger of [engine/watermark.go].
    - [ChangeSet.v]: [engine/changes.go], [engine/changes_scope.go].
    - [Candidates.v], [Apply.v]: of [engine/apply.go], the rows of the view a
      criterion may hit, and the segment made of what was read back.
    - [Readback.v], [ReadbackRuns.v], [ReadbackSpec.v]: [engine/readback.go]:
      definitions; what the queries return; what the whole tells.
    - [BootGap.v]: [engine/bootgap.go].
    - [Engine.v]: the engine's state, and of [engine.go], [apply.go],
      [watermark.go] and [boot.go] the steps on it.
    - [Sizes.v]: the [ApproxBytes] of every structure.
    - [Compact.v]: [engine/compact.go].
    - [LoadNodes.v], [Load.v]: [engine/load.go]: the pipeline of the node rows
      as a transition system; the whole load.
    - [WriteThrough.v]: what a write's segment does to the graph of the view.
    - [WriteApply.v]: [Engine.Apply], whole.
    - [Replica.v], [ReplicaSteps.v]: the engine beside a database that others
      write, as a step relation; its invariant, kept by every step.
    - [Boot.v]: of [engine/boot.go] and [engine/watermark.go], the adoption of a
      snapshot file at boot.
    - [Rows.v]: rows, plans and the work meter of [interpret/eval.go],
      [interpret/plan.go] and [interpret/exec.go]; the lemmas on running them.
    - [Values.v]: [interpret/value.go], and the keys of [interpret/pipeline.go].
    - [Scan.v], [Hops.v]: of [interpret/exec.go], the choice and the scan of an
      anchor; the edges at a node and the steps along them.
    - [Trails.v]: the variable-length steps of [interpret/expand.go].
    - [Components.v]: of [interpret/exec.go], one component of a pattern.
    - [Matching.v], [ComponentRuns.v], [ComponentPaths.v],
      [ComponentTrails.v]: what a match is, and that each walk finds them.
    - [Joins.v], [JoinRuns.v]: of [interpret/exec.go], the components of a part
      and their joins: definitions; that they find the matches of the part.
    - [Optional.v]: of [interpret/pipeline.go], a part and its [OPTIONAL MATCH].
    - [Stages.v]: of [interpret/pipeline.go], the stages after a match: [WITH] with
      its groups and aggregates, [DISTINCT], [SKIP] and [LIMIT].
    - [Example.v], [EngineExample.v], [QueryExample.v]: a small replica made
      by running the model, an engine that loads it and applies a write, and a
      query on it, for witnesses.
    - [FileTheorems.v], [StoreTheorems.v], [ViewTheorems.v],
      [IndexTheorems.v], [TraverseTheorems.v], [EngineTheorems.v],
      [QueryTheorems.v]: the claims.

    ** What stands for what

    Each layer has an abstract meaning and a representation predicate, and each
    operation's lemma says what it does to the meaning:
    - a [Bitset] or a [KindMask] means a set ([Bitset_has], [Bitset_elems]);
    - a [PropStore] means a bag of property values per node
      ([PropStore_rep]), a bag being a map from name to [pval];
    - a [Snapshot] means a [layout], the rows its arrays stand for
      ([Snapshot_rep]), and a layout means a [graph], nodes with kinds and bags
      and edges with ends and kind, both by database id ([base_graph]);
    - a [Segment] means a [delta], new states by id, [None] for deleted
      ([Segment_rep]), and [apply_delta] applies one to a graph;
    - a [View] means the base's graph with its deltas applied in order
      ([View_rep], [view_graph]).
    - a [database] is the rows of PostgreSQL, and means a graph too
      ([db_graph]); a [watermarkLedger] means the values that were resolved
      ([ledger_rep]).
    The path engine does not see any of this: it works against the class
    [TraverseView], and its theorems assume [TraverseLaws], that both
    directions list the edges of one graph. [View_laws] of [ViewTraverse.v]
    proves them for every represented view, so the composition is a theorem
    too ([AllShortestPaths_on_view]).

    The executor means a set of matches ([Match], [is_match]): nodes for the
    symbols and nodes and edges for the steps of a part. A list of rows stands for
    matches ([covers]): one row for each, none missing. Each walk extends what its
    rows stand for by a step, and a join by a component. [runs] says how a
    computation of the interpreter may end, and composes like a Hoare triple.

    The engine's concurrency is in [Replica.step]. Commits, rebuilds (which begin,
    load and end at different moments), applies, compactions, panics and every
    step that touches neither the view nor the epoch interleave in any order;
    what Go does under [applyMu] is one step. Pointers that the code compares are
    addresses ([ref]) given out in order.

    ** What the theorems show

    - The replica beside its database: in every reachable state, a served row is
      the database's or is named by a committed write that waits to be applied;
      with none waiting the graphs are equal; and from every state a rebuild
      leads to one that serves the database's graph.
    - A write: the read-back tells the truth about every row the write covers,
      applying it changes the view to what was read, or falls back; a compaction
      keeps what the view shows; the stack stays within 32 segments.
    - Loading gives the graph of the database; its pipeline ends, is never stuck
      and stages the rows in order.
    - The watermark: the ledger never claims a value that was not resolved; a
      boot gap called covered is covered.
    - Boot: a snapshot file that is adopted, with the buffered writes replayed on
      it, shows the database.
    - Paths: [AllShortestPaths] returns, for every pair of ends and in order,
      exactly the shortest paths its mode selects, cut at the limit, whichever
      strategy answers; it never panics; a query within the budgets is
      answered; the searches give distances and the enumeration all paths.
    - Queries: the matching of a part with its [WHERE] returns exactly its
      matches, each once, whichever anchor, direction, index or join was chosen;
      with an [OPTIONAL MATCH] it is the left outer join of the two;
      a [WITH] has a row for each different tuple of values, with the aggregates
      of the rows that have it, and a [DISTINCT] keeps the first of each;
      the components of a pattern partition it; a scan, the edges at a node
      and the trails from one are exactly those that qualify; the key of a
      value is the same exactly for equal values.
    - Replica: a fold keeps the visible graph; merging segments is applying
      them in turn; every read of a view (numbering, node contents, edges in
      both directions, edges by id, nodes by kind and by object id, the kind
      table, the summaries) is that of its graph; the merged rows agree with
      the iterators.
    - Indexes: what the index of edge kinds and the lookups of strings offer
      holds every node of the view that qualifies, each once, and on a view
      without segments no other.
    - Store: staging a node adds exactly its bag or reports the error and says
      which state is left; [Build] packs exactly the staged graph; the reverse
      rows are the transpose; properties and ids read back.
    - File: a written snapshot reads back as it was; whatever is read was
      checked, and a checked snapshot is read without a panic; the file on the
      disk is the old one or the new one, whatever call fails.
    - Leaves: bit sets, kind masks, kind table, path sink, scratch buffers,
      memory budget.

    ** Bounds and fuel

    The width limits the code relies on are premises: fewer than [2 ^ 32] nodes
    and edges in a base ([Snapshot_rep] carries them), fewer than [2 ^ 31]
    nodes in a view that is searched, and 16-bit kinds. [AllShortestPaths]
    is given fuel for its level loops and its stacks; the theorems ask for
    more than the number of nodes, resp. of steps an enumeration can take
    before the budget stops it, and prove that the loop ends by then.
    A walk along trails no longer than [d] is given more than
    [(1 + edges) ^ d] rounds ([enough_trails]), and a union-find chain is as long
    as the number of steps at most ([uf_fuel]).
    [search_loop] recurses on the length of the interval it halves. The node
    ids ever handed out number fewer than [2 ^ 31] in the engine's theorems, and
    a counter of the watermark is below [2 ^ 63].

    ** What is assumed of the database

    [database_fine] and [commit_ok] of [Replica.v] say it: ids are 63-bit and
    never used again, edges have their ends, an edge's ends and kind never change,
    names of kinds stay, an objectid stays with its node while the node is there,
    properties are JSON that parses; and a write names every row it changed. A
    node that a waiting upsert found by its objectid is not deleted by criteria
    before that upsert is applied. While one write is read back the database is
    at rest; [answers] may still fail at any query. How PostgreSQL and Go read
    an objectid out of JSON is the parameter [pg_objectid], which has to agree
    with Go's where Go finds one.

    ** Not modelled

    - Concurrency: [sync.Once] fields are functions of what they are computed
      from, which never changes; the workers of the small-side strategy own
      their buffers and write disjoint slots, and are run one after another.
    - Timestamps and log messages, which nothing modelled decides on.
    - Of the property indexes, the postings by value.
    - Of the engine: when snapshot files are saved (their format and adoption are
      modelled), the SQL of the watermark table, and the loops that wait
      between the modelled steps.
    - Of the interpreter: the planner and the evaluation of expressions, which
      recurse on an AST that is not in this repository; the shortest-path step, a
      parameter that a part without such a step does not reach; the projection
      and [ORDER BY]; and the variants that stream rows or match in chunks up to
      a [LIMIT].
    - The query recogniser, the driver and the serving glue work on types of
      packages that are not in this repository. The installer is I/O for the
      most part. *)

From stdpp Require Export base numbers list list_numbers strings gmap sorting fin_maps.
From stdpp Require Import options.
Unset Default Proof Using.
From Stdlib Require Export Lia.

#[global] Open Scope N_scope.

(** ** Machine integers *)

(** Truncations to a fixed width, written where the source converts. *)
Definition u16 (x : N) : N := x mod 2 ^ 16.
Definition u32 (x : N) : N := x mod 2 ^ 32.
Definition u64 (x : N) : N := x mod 2 ^ 64.

(** [int32(x)]. *)
Definition i32 (x : Z) : Z := ((x + 2 ^ 31) mod 2 ^ 32 - 2 ^ 31)%Z.
Lemma i32_small x : (- 2 ^ 31 ≤ x < 2 ^ 31)%Z → i32 x = x.
Proof. intros Hx. unfold i32. rewrite Z.mod_small by lia. lia. Qed.

Lemma u32_small x : x < 2 ^ 32 → u32 x = x.
Proof. apply N.mod_small. Qed.
Lemma u64_small x : x < 2 ^ 64 → u64 x = x.
Proof. apply N.mod_small. Qed.
Lemma u16_small x : x < 2 ^ 16 → u16 x = x.
Proof. apply N.mod_small. Qed.
Lemma u32_lt x : u32 x < 2 ^ 32.
Proof. apply N.mod_lt. lia. Qed.
Lemma u16_lt x : u16 x < 2 ^ 16.
Proof. apply N.mod_lt. lia. Qed.

#[global] Arguments u16 : simpl never.
#[global] Arguments u32 : simpl never.
#[global] Arguments u64 : simpl never.

(** ** Slices

    A Go slice is a list. An index or a slice expression out of range panics,
    which is [None] here; [len] is the built-in [len]. *)

Definition len {A} (l : list A) : N := N.of_nat (length l).
Definition idx {A} (l : list A) (i : N) : option A := l !! N.to_nat i.
Definition upd {A} (l : list A) (i : N) (x : A) : option (list A) :=
  if decide (i < len l) then Some (<[N.to_nat i := x]> l) else None.
Definition slice {A} (l : list A) (lo hi : N) : option (list A) :=
  if decide (lo ≤ hi ∧ hi ≤ len l)
  then Some (take (N.to_nat (hi - lo)) (drop (N.to_nat lo) l)) else None.
(** [make([]T, n)]. *)
Definition mk {A} (n : N) (zero : A) : list A := replicate (N.to_nat n) zero.
(** The indices of [for i := lo; i < hi; i++]. *)
Definition range (lo hi : N) : list N :=
  (λ k, lo + N.of_nat k) <$> seq 0 (N.to_nat (hi - lo)).

#[global] Arguments len : simpl never.
#[global] Arguments idx : simpl never.
#[global] Arguments upd : simpl never.
#[global] Arguments slice : simpl never.
#[global] Arguments range : simpl never.

Lemma len_nil {A} : len (@nil A) = 0.
Proof. done. Qed.
Lemma len_app {A} (l k : list A) : len (l ++ k) = len l + len k.
Proof. unfold len. rewrite length_app. lia. Qed.
Lemma len_cons {A} (x : A) l : len (x :: l) = len l + 1.
Proof. unfold len. simpl. lia. Qed.
Lemma len_fmap {A B} (f : A → B) l : len (f <$> l) = len l.
Proof. unfold len. by rewrite length_fmap. Qed.
Lemma len_mk {A} n (z : A) : len (mk n z) = n.
Proof. unfold len, mk. rewrite length_replicate. lia. Qed.
Lemma len_insert {A} (l : list A) i x : len (<[i := x]> l) = len l.
Proof. unfold len. by rewrite length_insert. Qed.
#[global] Instance len_perm {A} : Proper (Permutation ==> eq) (@len A).
Proof. intros l k Hp. unfold len. by rewrite Hp. Qed.
Create Rewrite HintDb lens.
#[global] Hint Rewrite @len_nil @len_app @len_cons @len_fmap @len_mk @len_insert : lens.

Lemma idx_lt {A} (l : list A) i x : idx l i = Some x → i < len l.
Proof. unfold idx, len. intros H%lookup_lt_Some. lia. Qed.
Lemma idx_is_Some {A} (l : list A) i : i < len l → ∃ x, idx l i = Some x.
Proof. unfold idx, len. intros H. apply lookup_lt_is_Some_2. lia. Qed.
Lemma idx_ge {A} (l : list A) i : len l ≤ i → idx l i = None.
Proof. unfold idx, len. intros H. apply lookup_ge_None_2. lia. Qed.
Lemma idx_nil {A} i : idx (@nil A) i = None.
Proof. apply lookup_nil. Qed.
Lemma idx_mk {A} n (z : A) i : i < n → idx (mk n z) i = Some z.
Proof. intros H. unfold idx, mk. apply lookup_replicate_2. lia. Qed.
Lemma idx_app_l {A} (l k : list A) i : i < len l → idx (l ++ k) i = idx l i.
Proof. unfold idx, len. intros H. apply lookup_app_l. lia. Qed.
Lemma idx_app_r {A} (l k : list A) i : len l ≤ i → idx (l ++ k) i = idx k (i - len l).
Proof.
  unfold idx, len. intros H. rewrite lookup_app_r by lia. f_equal. lia.
Qed.
Lemma idx_snoc {A} (l : list A) x : idx (l ++ [x]) (len l) = Some x.
Proof. rewrite idx_app_r by lia. by rewrite N.sub_diag. Qed.
Lemma idx_elem_of {A} (l : list A) i x : idx l i = Some x → x ∈ l.
Proof. apply list_elem_of_lookup_2. Qed.
Lemma elem_of_idx {A} (l : list A) x : x ∈ l → ∃ i, idx l i = Some x.
Proof.
  intros [i Hi]%list_elem_of_lookup. exists (N.of_nat i).
  unfold idx. by rewrite Nat2N.id.
Qed.
Lemma idx_fmap {A B} (f : A → B) l i : idx (f <$> l) i = f <$> idx l i.
Proof. apply list_lookup_fmap. Qed.
Lemma idx_ext {A} (l k : list A) : (∀ i, idx l i = idx k i) → l = k.
Proof.
  intros H. apply list_eq. intros i. specialize (H (N.of_nat i)).
  unfold idx in H. by rewrite Nat2N.id in H.
Qed.

Lemma idx_cons_succ {A} (x : A) l i : idx (x :: l) (i + 1) = idx l i.
Proof. unfold idx. by replace (N.to_nat (i + 1)) with (S (N.to_nat i)) by lia. Qed.
Lemma idx_cons {A} (x : A) l i :
  idx (x :: l) i = if decide (i = 0) then Some x else idx l (i - 1).
Proof.
  case_decide as E; [by subst|].
  replace i with (i - 1 + 1) at 1 by lia. apply idx_cons_succ.
Qed.

Lemma fmap_by_idx {A B} (f : A → B) l t : len t = len l →
  (∀ p x, idx l p = Some x → idx t p = Some (f x)) → t = f <$> l.
Proof.
  intros Hl H. apply idx_ext. intros p. rewrite idx_fmap.
  destruct (idx l p) as [x|] eqn:E; simpl; [by apply H|].
  apply idx_ge. rewrite Hl. destruct (decide (p < len l)) as [Hp|]; [|lia].
  destruct (idx_is_Some _ _ Hp). congruence.
Qed.

Lemma upd_Some {A} (l : list A) i x :
  i < len l → ∃ l', upd l i x = Some l' ∧ len l' = len l ∧
    ∀ j, idx l' j = if decide (j = i) then Some x else idx l j.
Proof.
  intros H. unfold upd. rewrite decide_True by done. eexists; split; [done|].
  split; [apply len_insert|]. intros j. unfold idx, len in *.
  case_decide as E; [subst j; apply list_lookup_insert_eq; lia|].
  apply list_lookup_insert_ne. lia.
Qed.

Lemma slice_Some {A} (l : list A) lo hi :
  lo ≤ hi → hi ≤ len l →
  ∃ k, slice l lo hi = Some k ∧ len k = hi - lo ∧
    ∀ j, idx k j = if decide (j < hi - lo) then idx l (lo + j) else None.
Proof.
  intros H1 H2. unfold slice. rewrite decide_True by done.
  eexists; split; [done|]. unfold len, idx in *. split.
  - rewrite length_take, length_drop. lia.
  - intros j. case_decide.
    + rewrite lookup_take by lia. rewrite decide_True by lia.
      rewrite lookup_drop. f_equal. lia.
    + rewrite lookup_take. by rewrite decide_False by lia.
Qed.

(** ** Loops *)

Lemma len_range lo hi : len (range lo hi) = hi - lo.
Proof. unfold len, range. rewrite length_fmap, length_seq. lia. Qed.
#[global] Hint Rewrite len_range : lens.
Lemma idx_range lo hi i : i < hi - lo → idx (range lo hi) i = Some (lo + i).
Proof.
  intros H. unfold range. rewrite idx_fmap. unfold idx.
  rewrite lookup_seq_lt by lia. simpl. f_equal. lia.
Qed.
Lemma elem_of_range lo hi i : i ∈ range lo hi ↔ lo ≤ i ∧ i < hi.
Proof.
  unfold range. rewrite list_elem_of_fmap. setoid_rewrite elem_of_seq. split.
  - intros (k & -> & ?). lia.
  - intros ?. exists (N.to_nat (i - lo)). lia.
Qed.
Lemma NoDup_range lo hi : NoDup (range lo hi).
Proof. apply NoDup_fmap_2; [intros ???; lia | apply NoDup_seq]. Qed.
Lemma range_nil lo hi : hi ≤ lo → range lo hi = [].
Proof. intros H. unfold range. by replace (hi - lo) with 0 by lia. Qed.
Lemma range_app lo mid hi : lo ≤ mid → mid ≤ hi →
  range lo hi = range lo mid ++ range mid hi.
Proof.
  intros H1 H2. apply idx_ext. intros i.
  destruct (decide (i < mid - lo)).
  - rewrite idx_app_l by (rewrite len_range; lia). rewrite !idx_range by lia. done.
  - rewrite idx_app_r by (rewrite len_range; lia). rewrite len_range.
    destruct (decide (i < hi - lo)).
    + rewrite !idx_range by lia. f_equal. lia.
    + destruct (idx (range lo hi) i) eqn:E1.
      { apply idx_lt in E1. rewrite len_range in E1. lia. }
      destruct (idx (range mid hi) _) eqn:E2; [|done].
      apply idx_lt in E2. rewrite len_range in E2. lia.
Qed.
Lemma range_one lo : range lo (lo + 1) = [lo].
Proof.
  unfold range. replace (lo + 1 - lo) with 1 by lia. simpl. f_equal. lia.
Qed.
Lemma range_snoc lo hi : lo ≤ hi → range lo (hi + 1) = range lo hi ++ [hi].
Proof. intros H. rewrite (range_app lo hi) by lia. by rewrite range_one. Qed.
Lemma range_cons lo hi : lo < hi → range lo hi = lo :: range (lo + 1) hi.
Proof. intros H. rewrite (range_app lo (lo + 1)) by lia. by rewrite range_one. Qed.

(** Distinct ids below a bound are no more than the bound. *)
Lemma NoDup_len_bound (l : list N) t : NoDup l → (∀ n, n ∈ l → n < t) → len l ≤ t.
Proof.
  intros Hnd Hb. assert (l ⊆+ range 0 t) as Hs.
  { apply NoDup_submseteq; [done|]. intros n Hn. apply elem_of_range. specialize (Hb n Hn). lia. }
  apply submseteq_length in Hs. pose proof (len_range 0 t) as Hr. unfold len in *. lia.
Qed.

Lemma filter_len_le {A} (P : A → Prop) `{!∀ x, Decision (P x)} (k : list A) :
  len (filter P k) ≤ len k.
Proof. unfold len. pose proof (length_filter P k). lia. Qed.

Lemma omap_len_le {A B} (f : A → option B) (k : list A) : len (omap f k) ≤ len k.
Proof.
  induction k as [|x k IH]; csimpl; [done|]. destruct (f x); rewrite !len_cons; lia.
Qed.

Lemma omap_all {A B} (f : A → option B) (g : A → B) (l : list A) :
  (∀ x, x ∈ l → f x = Some (g x)) → omap f l = g <$> l.
Proof.
  induction l as [|x l IH]; intros Hf; csimpl; [done|]. rewrite Hf by left.
  f_equal. apply IH. intros. apply Hf. by right.
Qed.

Lemma option_Forall2_cases {A B} (P : A → B → Prop) mx my : option_Forall2 P mx my →
  (mx = None ∧ my = None) ∨ ∃ x y, mx = Some x ∧ my = Some y ∧ P x y.
Proof. destruct 1; eauto 6. Qed.

Lemma elem_of_zip_range {A} lo (l : list A) i x :
  (i, x) ∈ zip (range lo (lo + len l)) l ↔ ∃ k, idx l k = Some x ∧ i = lo + k.
Proof.
  assert (∀ k, idx (zip (range lo (lo + len l)) l) k = x ← idx l k; Some (lo + k, x)) as Hz.
  { intros k. unfold idx at 1. rewrite lookup_zip_with. fold (idx (range lo (lo + len l)) k) (idx l k).
    destruct (idx l k) as [y|] eqn:E; [|by destruct (idx (range _ _) k)].
    rewrite idx_range by (apply idx_lt in E; lia). done. }
  split.
  - intros [k Hk]%elem_of_idx. rewrite Hz in Hk. destruct (idx l k) eqn:E; [|done].
    simplify_eq/=. eauto.
  - intros (k & Hk & ->). apply (idx_elem_of _ k). by rewrite Hz, Hk.
Qed.

Lemma NoDup_zip_l {A B} (l : list A) (k : list B) : NoDup l → NoDup (zip l k).
Proof.
  intros Hl. revert k. induction Hl as [|x l Hx Hl IH]; intros [|y k]; try by constructor.
  constructor; [|apply IH]. by intros ?%elem_of_zip_l.
Qed.

(** ** Sorted lists *)

Lemma StronglySorted_filter {A} (R : A → A → Prop) (P : A → Prop)
    `{!∀ x, Decision (P x)} (l : list A) :
  StronglySorted R l → StronglySorted R (filter P l).
Proof.
  induction 1 as [|x l Hl IH Hx]; [constructor|].
  rewrite filter_cons. case_decide; [|done]. constructor; [done|].
  apply Forall_forall. intros y [_ Hy]%list_elem_of_filter.
  by eapply Forall_forall in Hx.
Qed.

Lemma StronglySorted_app_2 {A} (R : A → A → Prop) l k :
  (∀ x y, x ∈ l → y ∈ k → R x y) → StronglySorted R l → StronglySorted R k →
  StronglySorted R (l ++ k).
Proof.
  intros H Hl Hk. induction Hl as [|x l Hl IH Hx]; simpl; [done|].
  constructor; [apply IH; intros; apply H; [by right|done]|].
  apply Forall_app. split; [done|]. apply Forall_forall. intros y Hy. apply H; [left|done].
Qed.

Lemma StronglySorted_fmap_in {A B} (R : A → A → Prop) (Q : B → B → Prop) (f : A → B) l :
  (∀ x y, x ∈ l → y ∈ l → R x y → Q (f x) (f y)) →
  StronglySorted R l → StronglySorted Q (f <$> l).
Proof.
  intros H Hl. induction Hl as [|x l Hl IH Hx]; simpl; [constructor|].
  constructor; [apply IH; intros; apply H; [by right..|done]|].
  apply Forall_fmap, Forall_forall. intros y Hy. simpl. apply H; [left|by right|].
  by eapply Forall_forall in Hx.
Qed.

Lemma sorted_adjacent {A} (R : A → A → Prop) `{!Transitive R} l :
  (∀ i a b, idx l i = Some a → idx l (i + 1) = Some b → R a b) → StronglySorted R l.
Proof.
  intros HR. apply Sorted_StronglySorted; [done|]. induction l as [|x l IH]; [constructor|]. constructor.
  - apply IH. intros i a b Ha Hb. apply (HR (i + 1)); by rewrite idx_cons, decide_False, N.add_sub by lia.
  - destruct l as [|y l]; constructor. by apply (HR 0).
Qed.

Lemma StronglySorted_weaken {A} (R Q : A → A → Prop) l :
  (∀ x y, R x y → Q x y) → StronglySorted R l → StronglySorted Q l.
Proof.
  intros HRQ Hl. rewrite <- (list_fmap_id l).
  eapply StronglySorted_fmap_in; [|exact Hl]. intros x y _ _. apply HRQ.
Qed.

Lemma sorted_idx {A} (R : A → A → Prop) l i j x y :
  StronglySorted R l → idx l i = Some x → idx l j = Some y → i < j → R x y.
Proof.
  intros Hl. revert i j. induction Hl as [|z l Hl IH Hz]; intros i j Hi Hj Hlt.
  - by rewrite idx_nil in Hi.
  - rewrite idx_cons in Hi, Hj. rewrite decide_False in Hj by lia.
    case_decide as E.
    + injection Hi as ->. rewrite Forall_forall in Hz. apply Hz. by eapply idx_elem_of.
    + apply (IH (i - 1) (j - 1)); [done..|lia].
Qed.

(** A strictly ascending list is determined by its elements. *)
Lemma sorted_unique_N (l k : list N) :
  StronglySorted N.lt l → StronglySorted N.lt k → (∀ x, x ∈ l ↔ x ∈ k) → l = k.
Proof.
  intros Hl. revert k. induction Hl as [|x l Hl IH Hx]; intros k Hk He.
  - destruct k as [|y k]; [done|]. exfalso. by apply (not_elem_of_nil y), He; left.
  - destruct Hk as [|y k Hk Hy]; [exfalso; by apply (not_elem_of_nil x), He; left|].
    rewrite Forall_forall in Hx. rewrite Forall_forall in Hy.
    assert (x = y) as <-.
    { assert (x ∈ y :: k) as [->|H1]%elem_of_cons by (apply He; left); [done|].
      assert (y ∈ x :: l) as [->|H2]%elem_of_cons by (apply He; left); [done|].
      specialize (Hx _ H2). specialize (Hy _ H1). lia. }
    f_equal. apply IH; [done|]. intros z. specialize (He z). rewrite !elem_of_cons in He.
    split; intros Hz.
    + destruct (proj1 He) as [->|]; auto. specialize (Hx _ Hz). lia.
    + destruct (proj2 He) as [->|]; auto. specialize (Hy _ Hz). lia.
Qed.

Lemma sorted_lt_NoDup (l : list N) : StronglySorted N.lt l → NoDup l.
Proof.
  induction 1 as [|x l Hl IH Hx]; constructor; [|done].
  intros Hin. eapply Forall_forall in Hx; [|done]. lia.
Qed.

(** ** Filters *)

Lemma NoDup_omap_inj {A B} (f : A → option B) (l : list A) : NoDup l →
  (∀ x y z, x ∈ l → y ∈ l → f x = Some z → f y = Some z → x = y) → NoDup (omap f l).
Proof.
  induction 1 as [|x l Hx Hl IH]; intros Hf; csimpl; [constructor|].
  assert (NoDup (omap f l)) as Hn by (apply IH; intros; eapply Hf; eauto using list_elem_of_further).
  destruct (f x) as [z|] eqn:E; [|done]. constructor; [|done].
  intros (y & Hy & Ey)%list_elem_of_omap. apply Hx.
  assert (x = y) as -> by (eapply Hf; eauto using list_elem_of_here, list_elem_of_further). done.
Qed.

Lemma filter_fmap {A B} (f : A → B) (P : B → Prop) `{!∀ x, Decision (P x)} (l : list A) :
  filter P (f <$> l) = f <$> filter (λ x, P (f x)) l.
Proof. induction l as [|x l IH]; csimpl; [done|]. rewrite !filter_cons, IH. by case_decide. Qed.

Lemma zip_fmap_same {A B C} (f : A → B) (g : A → C) (l : list A) :
  zip (f <$> l) (g <$> l) = (λ x, (f x, g x)) <$> l.
Proof. induction l; csimpl; [done|]. by f_equal. Qed.

Lemma filter_nil_none {A} (P : A → Prop) `{!∀ x, Decision (P x)} (l : list A) :
  (∀ x, x ∈ l → ¬ P x) → filter P l = [].
Proof.
  induction l as [|x l IH]; intros Hn; [done|].
  rewrite filter_cons_False by (apply Hn; left). apply IH. intros. apply Hn. by right.
Qed.

Lemma filter_all {A} (P : A → Prop) `{!∀ x, Decision (P x)} (l : list A) :
  (∀ x, x ∈ l → P x) → filter P l = l.
Proof.
  induction l as [|x l IH]; intros Hn; [done|].
  rewrite filter_cons_True by (apply Hn; left). f_equal. apply IH. intros. apply Hn. by right.
Qed.

Lemma filter_ext_in {A} (P Q : A → Prop)
    `{!∀ x, Decision (P x), !∀ x, Decision (Q x)} (l : list A) :
  (∀ x, x ∈ l → P x ↔ Q x) → filter P l = filter Q l.
Proof.
  induction l as [|x l IH]; intros He; [done|].
  assert (filter P l = filter Q l) as E by (apply IH; intros; apply He; by right).
  assert (P x ↔ Q x) as Hx by (apply He; left).
  rewrite !filter_cons, E. do 2 case_decide; tauto.
Qed.

Lemma range_sorted lo hi : StronglySorted N.lt (range lo hi).
Proof.
  unfold range. eapply StronglySorted_fmap_in with (R := lt); [intros; lia|].
  generalize 0%nat. induction (N.to_nat (hi - lo)) as [|n IH]; intros m; simpl; constructor; [done|].
  apply Forall_forall. intros y Hy%elem_of_seq. lia.
Qed.

(** A loop body that may panic, over the elements of a slice. *)
Fixpoint foldM {S A} (f : S → A → option S) (l : list A) (s : S) : option S :=
  match l with
  | [] => Some s
  | x :: l' => s' ← f s x; foldM f l' s'
  end.

Lemma foldM_app {S A} (f : S → A → option S) l k s :
  foldM f (l ++ k) s = s' ← foldM f l s; foldM f k s'.
Proof. revert s. induction l as [|x l IH]; intros s; simpl; [done|].
  destruct (f s x); simpl; [apply IH | done].
Qed.

(** The loop rule: an invariant indexed by the elements already processed,
    that each iteration re-establishes without panicking. *)
Lemma foldM_inv {S A} (P : list A → S → Prop) (f : S → A → option S) l s :
  P [] s →
  (∀ pre x post s0, l = pre ++ x :: post → P pre s0 →
     ∃ s1, f s0 x = Some s1 ∧ P (pre ++ [x]) s1) →
  ∃ s1, foldM f l s = Some s1 ∧ P l s1.
Proof.
  intros H0 Hstep.
  enough (∀ post pre s0, l = pre ++ post → P pre s0 →
            ∃ s1, foldM f post s0 = Some s1 ∧ P l s1) as Hgo
    by (by eapply (Hgo l [])).
  induction post as [|x post IH]; intros pre s0 Hl HP; simpl.
  - rewrite app_nil_r in Hl. subst. eauto.
  - destruct (Hstep _ _ _ _ Hl HP) as (s1 & -> & HP'). simpl.
    apply (IH (pre ++ [x])); [|done]. by rewrite <- app_assoc.
Qed.

(** The same rule for [for i := lo; i < hi; i++]. *)
Lemma for_inv {S} (P : N → S → Prop) (f : S → N → option S) lo hi s :
  lo ≤ hi → P lo s →
  (∀ i s0, lo ≤ i → i < hi → P i s0 → ∃ s1, f s0 i = Some s1 ∧ P (i + 1) s1) →
  ∃ s1, foldM f (range lo hi) s = Some s1 ∧ P hi s1.
Proof.
  intros Hle H0 Hstep.
  destruct (foldM_inv (λ pre s0, P (lo + len pre) s0) f (range lo hi) s)
    as (s1 & ? & HP).
  - by rewrite len_nil, N.add_0_r.
  - intros pre x post s0 Hl HP.
    assert (x = lo + len pre ∧ len pre < hi - lo) as [-> Hlt].
    { assert (idx (range lo hi) (len pre) = Some x) as Hx.
      { rewrite Hl, idx_app_r by lia. by rewrite N.sub_diag. }
      pose proof (idx_lt _ _ _ Hx) as Hl'. rewrite len_range in Hl'.
      rewrite idx_range in Hx by lia. split; [congruence | lia]. }
    destruct (Hstep (lo + len pre) s0) as (s1 & ? & ?); [lia..|done|].
    exists s1. split; [done|]. autorewrite with lens.
    by replace (lo + (len pre + (0 + 1))) with (lo + len pre + 1) by lia.
  - exists s1. split; [done|]. rewrite len_range in HP.
    by replace (lo + (hi - lo)) with hi in HP by lia.
Qed.

(** [for i, k := range ks { m[k] = w(i) }], where [w] is the conversion to the
    value type. *)
Definition index_list `{Countable K} (w : N → N) (ks : list K) : gmap K N :=
  foldl (λ m '(i, k), <[k := w i]> m) ∅ (zip (range 0 (len ks)) ks).

Lemma index_list_snoc `{Countable K} w (ks : list K) k :
  index_list w (ks ++ [k]) = <[k := w (len ks)]> (index_list w ks).
Proof.
  unfold index_list. replace (len (ks ++ [k])) with (len ks + 1) by (autorewrite with lens; lia).
  rewrite range_snoc, zip_with_app, foldl_app; [done| |lia].
  pose proof (len_range 0 (len ks)). unfold len in *. lia.
Qed.

(** With distinct keys the map is the inverse of indexing. *)
Lemma index_list_spec `{Countable K} w (ks : list K) : NoDup ks →
  (∀ i, i < len ks → w i = i) →
  ∀ k i, index_list w ks !! k = Some i ↔ idx ks i = Some k.
Proof.
  induction ks as [|k0 ks IH] using rev_ind; intros Hnd Hw k i.
  { unfold index_list. simpl. by rewrite lookup_empty, idx_nil. }
  apply NoDup_app in Hnd as (Hnd & Hd & _). rewrite len_app, len_cons, len_nil in Hw.
  rewrite index_list_snoc, lookup_insert. rewrite Hw by lia.
  assert (idx ks i = Some k → k ≠ k0) as Hne.
  { intros Hi%idx_elem_of ->. apply (Hd _ Hi). left. }
  case_decide as E.
  - subst k0. split; [intros [= <-]; apply idx_snoc|]. intros Hi.
    destruct (decide (i < len ks)) as [Hl|Hl].
    + rewrite idx_app_l in Hi by done. by apply Hne in Hi.
    + apply idx_lt in Hi. rewrite len_app, len_cons, len_nil in Hi. f_equal. lia.
  - rewrite IH by (done || intros; apply Hw; lia).
    destruct (decide (i < len ks)) as [Hl|Hl]; [by rewrite idx_app_l|].
    rewrite idx_app_r, (idx_ge ks), idx_cons by lia.
    case_decide; [|by rewrite idx_nil]. split; [done|]. by intros [= <-].
Qed.

Lemma foldM_pure {S A} (g : S → A → S) l s :
  foldM (λ s x, Some (g s x)) l s = Some (foldl g s l).
Proof. revert s. induction l; intros; simpl; auto. Qed.

Lemma foldl_ext_in {S A} (f g : S → A → S) l s :
  (∀ s x, x ∈ l → f s x = g s x) → foldl f s l = foldl g s l.
Proof.
  revert s. induction l as [|x l IH]; intros s H; simpl; [done|].
  rewrite H by left. apply IH. intros. apply H. by right.
Qed.

(** A loop that appends the results of [f]. *)
Lemma foldl_omap {A B} (f : A → option B) l acc :
  foldl (λ acc x, match f x with Some y => acc ++ [y] | None => acc end) acc l = acc ++ omap f l.
Proof.
  revert acc. induction l as [|x l IH]; intros acc; csimpl; [by rewrite app_nil_r|].
  rewrite IH. destruct (f x); [by rewrite <- app_assoc|done].
Qed.

Lemma foldl_filter {S A} (P : A → Prop) `{!∀ x, Decision (P x)} (f : S → A → S) l s :
  foldl (λ s x, if decide (P x) then s else f s x) s l = foldl f s (filter (λ x, ¬ P x) l).
Proof.
  revert s. induction l as [|x l IH]; intros s; simpl; [done|]. rewrite filter_cons, IH.
  destruct (decide (P x)); [rewrite decide_False by tauto|rewrite decide_True by done]; done.
Qed.

Lemma foldl_fmap' {S A B} (f : S → B → S) (g : A → B) l s :
  foldl f s (g <$> l) = foldl (λ s x, f s (g x)) s l.
Proof. revert s. induction l as [|x l IH]; intros s; simpl; [done|]. apply IH. Qed.

Lemma foldM_ext {S A} (f g : S → A → option S) l s :
  (∀ s x, x ∈ l → f s x = g s x) → foldM f l s = foldM g l s.
Proof.
  revert s. induction l as [|x l IH]; intros s H; simpl; [done|].
  rewrite H by left. destruct (g s x); simpl; [|done].
  apply IH. intros. apply H. by right.
Qed.

(** An iterator with a callback: [fn x s] runs the callback on [x] with the
    captured variables [s]; its boolean is the callback's result, and a false
    result stops the iteration.  [iter_b] also says whether it ran to the end. *)
Fixpoint iter_b {S A} (fn : A → S → option (S * bool)) (l : list A) (s : S)
  : option (S * bool) :=
  match l with
  | [] => Some (s, true)
  | x :: l' => '(s', cont) ← fn x s; if (cont : bool) then iter_b fn l' s' else Some (s', false)
  end.
Definition iter_until {S A} (fn : A → S → option (S * bool)) (l : list A) (s : S)
  : option S := '(s', _) ← iter_b fn l s; Some s'.

Lemma iter_b_app {S A} (fn : A → S → option (S * bool)) l k s :
  iter_b fn (l ++ k) s =
    '(s', cont) ← iter_b fn l s; if (cont : bool) then iter_b fn k s' else Some (s', false).
Proof.
  revert s. induction l as [|x l IH]; intros s; simpl; [done|].
  destruct (fn x s) as [[s' []]|]; simpl; [apply IH | done | done].
Qed.

(** A walk over the slots of a row that skips some and yields the others. *)
Lemma iter_b_row {S X Y} (r : list X) lo (g : N → X → option Y) (body : N → S → option (S * bool))
    (yield : Y → S → option (S * bool)) s :
  (∀ k x s, idx r k = Some x → body (lo + k) s =
     match g (lo + k) x with Some y => yield y s | None => Some (s, true) end) →
  iter_b body (range lo (lo + len r)) s =
  iter_b yield (omap (λ ix, g (fst ix) (snd ix)) (zip (range lo (lo + len r)) r)) s.
Proof.
  revert lo s. induction r as [|x r IH]; intros lo s Hb.
  { rewrite range_nil by (rewrite len_nil; lia). done. }
  rewrite len_cons, range_cons by lia. simpl.
  assert (∀ s, iter_b body (range (lo + 1) (lo + (len r + 1))) s =
    iter_b yield (omap (λ ix, g (fst ix) (snd ix)) (zip (range (lo + 1) (lo + (len r + 1))) r)) s) as IH'.
  { intros s'. replace (lo + (len r + 1)) with (lo + 1 + len r) by lia. apply IH.
    intros k y s'' Hk. replace (lo + 1 + k) with (lo + (k + 1)) by lia. apply Hb. by rewrite idx_cons_succ. }
  pose proof (Hb 0 x s eq_refl) as H0. rewrite N.add_0_r in H0. rewrite H0.
  destruct (g lo x) as [y|]; simpl; [|apply IH'].
  destruct (yield y s) as [[s' []]|]; simpl; [apply IH'|done|done].
Qed.

Lemma iter_b_fmap {S A B} (fn : B → S → option (S * bool)) (g : A → B) l s :
  iter_b fn (g <$> l) s = iter_b (λ x, fn (g x)) l s.
Proof.
  revert s. induction l as [|x l IH]; intros s; simpl; [done|].
  destruct (fn (g x) s) as [[s' []]|]; simpl; [apply IH | done | done].
Qed.

(** A callback that never asks to stop makes the iterator a loop. *)
Lemma iter_b_foldM {S A} (g : S → A → option S) l s :
  iter_b (λ x s, s' ← g s x; Some (s', true)) l s = s' ← foldM g l s; Some (s', true).
Proof.
  revert s. induction l as [|x l IH]; intros s; simpl; [done|].
  destruct (g s x); simpl; [apply IH | done].
Qed.

Lemma iter_until_foldM {S A} (g : S → A → option S) l s :
  iter_until (λ x s, s' ← g s x; Some (s', true)) l s = foldM g l s.
Proof. unfold iter_until. rewrite iter_b_foldM. by destruct (foldM g l s). Qed.

Lemma iter_b_ext {S A} (f g : A → S → option (S * bool)) l s :
  (∀ x s, x ∈ l → f x s = g x s) → iter_b f l s = iter_b g l s.
Proof.
  revert s. induction l as [|x l IH]; intros s H; simpl; [done|].
  rewrite H by left. destruct (g x s) as [[s' []]|]; simpl; [|done|done].
  apply IH. intros. apply H. by right.
Qed.

Lemma iter_until_ext {S A} (f g : A → S → option (S * bool)) l s :
  (∀ x s, x ∈ l → f x s = g x s) → iter_until f l s = iter_until g l s.
Proof. intros He. unfold iter_until. by rewrite (iter_b_ext f g). Qed.

Lemma iter_until_pure {S A} (g : S → A → S) l s :
  iter_until (λ x s, Some (g s x, true)) l s = Some (foldl g s l).
Proof.
  rewrite <- foldM_pure, <- iter_until_foldM. unfold iter_until.
  by erewrite iter_b_ext by done.
Qed.

Lemma mapM_permutation {A B} (f : A → option B) l l' k :
  l ≡ₚ l' → mapM f l = Some k → ∃ k', mapM f l' = Some k' ∧ k' ≡ₚ k.
Proof.
  intros Hp. revert k. induction Hp as [|x l l' Hp IH|x y l|l1 l2 l3 H1 IH1 H2 IH2]; intros k Hk.
  - eauto.
  - simpl in *. destruct (f x); [|done]. simpl in *. destruct (mapM f l) eqn:E; [|done].
    destruct (IH _ eq_refl) as (k' & -> & Hk'). apply (inj Some) in Hk as <-. eexists. split; [done|].
    by apply perm_skip.
  - simpl in *. destruct (f x), (f y); try done; simpl in *; try (by destruct (mapM f l)).
    destruct (mapM f l); [|done]. apply (inj Some) in Hk as <-. eexists. split; [done|]. apply perm_swap.
  - destruct (IH1 _ Hk) as (k1 & Hk1 & ?). destruct (IH2 _ Hk1) as (k2 & ? & ?).
    eexists. split; [done|]. by etrans.
Qed.

(** ** [sort.Search] *)

(** Binary search for the least index of [0, n) at which [f] holds; [f] may
    panic.  Each round shrinks [j - i], so [n + 1] rounds are enough. *)
Fixpoint search_loop (fuel : nat) (f : N → option bool) (i j : N) : option N :=
  match fuel with
  | O => Some i
  | S fuel =>
      if decide (i < j) then
        let h := (i + j) / 2 in
        b ← f h; if (b : bool) then search_loop fuel f i h else search_loop fuel f (h + 1) j
      else Some i
  end.
Definition search (n : N) (f : N → option bool) : option N :=
  search_loop (S (N.to_nat n)) f 0 n.

Lemma search_loop_spec fuel f (p : N → bool) n i j :
  (∀ k, k < n → f k = Some (p k)) →
  (∀ k k', k ≤ k' → k' < n → p k = true → p k' = true) →
  i ≤ j → j ≤ n → (N.to_nat (j - i) < fuel)%nat →
  (∀ k, k < i → p k = false) → (∀ k, j ≤ k → k < n → p k = true) →
  ∃ r, search_loop fuel f i j = Some r ∧ r ≤ n ∧
    (∀ k, k < r → p k = false) ∧ (∀ k, r ≤ k → k < n → p k = true).
Proof.
  intros Hf Hmono. revert i j.
  induction fuel as [|fuel IH]; intros i j Hij Hjn Hfuel Hlo Hhi; [lia|]. simpl.
  case_decide as Hlt.
  - assert (i ≤ (i + j) / 2) by (apply N.div_le_lower_bound; lia).
    assert ((i + j) / 2 < j) by (apply N.Div0.div_lt_upper_bound; lia).
    rewrite Hf by lia. simpl. destruct (p _) eqn:E.
    + apply IH; [lia..| done |].
      intros k ??. apply (Hmono ((i + j) / 2)); auto; lia.
    + apply IH; [lia..| | done].
      intros k ?. destruct (p k) eqn:E'; [|done].
      rewrite (Hmono k ((i + j) / 2)) in E; [done | lia..| done].
  - assert (i = j) as -> by lia. eauto 6.
Qed.

(** A search whose test never panics does not either. *)
Lemma search_total n f : (∀ k, k < n → is_Some (f k)) → ∃ r, search n f = Some r ∧ r ≤ n.
Proof.
  intros Hf. unfold search. assert (0 ≤ n) as Hi by lia. revert Hi. generalize 0 as i. pose proof (N.le_refl n) as Hj.
  revert Hj. generalize n at 1 3 5 as j. intros j. generalize (S (N.to_nat n)) as fuel. intros fuel. revert j.
  induction fuel as [|fuel IH]; intros j Hj i Hi; simpl; [exists i; split; [done|lia]|]. case_decide as Hlt; [|exists i; split; [done|lia]].
  assert (i ≤ (i + j) / 2) by (apply N.div_le_lower_bound; lia).
  assert ((i + j) / 2 < j) by (apply N.Div0.div_lt_upper_bound; lia).
  destruct (Hf ((i + j) / 2)) as [b ->]; [lia|]. simpl. destruct b; apply IH; lia.
Qed.

Lemma search_spec n f (p : N → bool) :
  (∀ k, k < n → f k = Some (p k)) →
  (∀ k k', k ≤ k' → k' < n → p k = true → p k' = true) →
  ∃ r, search n f = Some r ∧ r ≤ n ∧
    (∀ k, k < r → p k = false) ∧ (∀ k, r ≤ k → k < n → p k = true).
Proof. intros. eapply search_loop_spec; eauto; lia. Qed.

(** ** The parts of Go's standard library the replica relies on

    [sort.Sort] and [sort.Slice] promise a permutation of the input that is
    sorted for [less], and nothing about elements that compare equal.
    [json.Unmarshal] is used on the raw text of a list or an object value. *)

Definition float64 := N.  (* the 64 bits of the number, only ever copied *)

#[warnings="-register-all"]
Inductive any :=
  | ANil
  | ABool (b : bool)
  | AFloat (f : float64)
  | AString (s : string)
  | AArray (l : list any)
  | AObject (m : list (string * any)).

Definition bytes := list Ascii.ascii.

(** [less] is an ordering [sort] accepts. *)
Definition is_less {A} (less : A → A → bool) : Prop :=
  (∀ x y, less x y = true → less y x = false) ∧
  (∀ x y z, less y x = false → less z y = false → less z x = false).
Definition le_of {A} (less : A → A → bool) (x y : A) : Prop := less y x = false.

Class GoStd := {
  go_sort : ∀ {A : Type}, (A → A → bool) → list A → list A;
  go_sort_perm : ∀ {A : Type} (less : A → A → bool) l, go_sort less l ≡ₚ l;
  go_sort_sorted : ∀ {A : Type} (less : A → A → bool) l,
    is_less less → StronglySorted (le_of less) (go_sort less l);
  unmarshal_array : bytes → option (list any);
  unmarshal_object : bytes → option (list (string * any));
}.

(** An instance to compute with: merge sort, and a decoder that knows the two
    empty values. *)
Section merge_std.
Context {A : Type} (less : A → A → bool).
#[local] Instance le_of_dec : RelDecision (le_of less).
Proof. intros x y. unfold le_of. apply _. Defined.
Definition merge_sort_less (l : list A) : list A := merge_sort (le_of less) l.
Lemma merge_sort_less_perm l : merge_sort_less l ≡ₚ l.
Proof. apply merge_sort_Permutation. Qed.
Lemma merge_sort_less_sorted l :
  is_less less → StronglySorted (le_of less) (merge_sort_less l).
Proof.
  intros [Hasym Htrans].
  assert (Transitive (le_of less)) by (intros ???; apply Htrans).
  assert (Total (le_of less)).
  { intros x y. unfold le_of. destruct (less y x) eqn:E; [right | by left].
    by apply Hasym. }
  by apply StronglySorted_merge_sort.
Qed.
End merge_std.

Definition merge_GoStd : GoStd := {|
  go_sort A less l := merge_sort_less less l;
  go_sort_perm A less l := merge_sort_less_perm less l;
  go_sort_sorted A less l := merge_sort_less_sorted less l;
  unmarshal_array b := if decide (b = String.list_ascii_of_string "[]") then Some [] else None;
  unmarshal_object b := if decide (b = String.list_ascii_of_string "{}") then Some [] else None;
|}.

(** *** Text

    A string as its bytes, and [a < b] on strings. *)
Definition text (s : string) : bytes := String.list_ascii_of_string s.
Fixpoint bytes_less (a b : bytes) : bool :=
  match a, b with
  | _, [] => false
  | [], _ :: _ => true
  | x :: a', y :: b' => if Ascii.eqb x y then bytes_less a' b' else Ascii.N_of_ascii x <? Ascii.N_of_ascii y
  end.
Definition str_less (a b : string) : bool := bytes_less (text a) (text b).

Lemma ascii_eq_dec_N x y : Ascii.N_of_ascii x = Ascii.N_of_ascii y → x = y.
Proof. intros E. by rewrite <- (Ascii.ascii_N_embedding x), E, Ascii.ascii_N_embedding. Qed.

Lemma bytes_less_spec : is_less bytes_less.
Proof.
  split.
  - intros x y. revert y. induction x as [|a x IH]; intros [|b y]; simpl; try done.
    rewrite (Ascii.eqb_sym b a). destruct (Ascii.eqb_spec a b) as [->|]; [apply IH|].
    rewrite N.ltb_lt, N.ltb_ge. lia.
  - intros x y z. revert y z. induction x as [|a x IH]; intros [|b y] [|c z]; simpl; try done.
    destruct (Ascii.eqb_spec b a) as [Eba|Hba]; destruct (Ascii.eqb_spec c b) as [Ecb|Hcb];
      destruct (Ascii.eqb_spec c a) as [Eca|Hca]; rewrite ?N.ltb_ge; try congruence.
    + apply IH.
    + intros. exfalso. apply Hba, ascii_eq_dec_N. subst. lia.
    + lia.
Qed.
Lemma bytes_less_total x y : bytes_less x y = false → bytes_less y x = false → x = y.
Proof.
  revert y. induction x as [|a x IH]; intros [|b y]; simpl; try done.
  rewrite (Ascii.eqb_sym b a). destruct (Ascii.eqb_spec a b) as [->|Hab].
  - intros H1 H2. by rewrite (IH _ H1 H2).
  - rewrite !N.ltb_ge. intros. exfalso. apply Hab, ascii_eq_dec_N. lia.
Qed.

Lemma is_less_map {A B} (f : A → B) (less : B → B → bool) : is_less less → is_less (λ x y, less (f x) (f y)).
Proof. intros [H1 H2]. split; intros *; [apply H1|apply H2]. Qed.

Lemma str_less_spec : is_less str_less.
Proof. unfold str_less. apply is_less_map, bytes_less_spec. Qed.

Lemma text_inj a b : text a = text b → a = b.
Proof. intros E. rewrite <- (String.string_of_list_ascii_of_string a). unfold text in E. by rewrite E, String.string_of_list_ascii_of_string. Qed.
Lemma str_less_total a b : str_less a b = false → str_less b a = false → a = b.
Proof. intros H1 H2. by apply text_inj, bytes_less_total. Qed.

(** Orderings given by a key, and by two keys in lexicographic order. *)
Definition less_key {A} (key : A → N) (x y : A) : bool := key x <? key y.

Lemma is_less_key {A} (key : A → N) : is_less (less_key key).
Proof.
  unfold less_key. split.
  - intros x y ?%N.ltb_lt. apply N.ltb_ge. lia.
  - intros x y z ?%N.ltb_ge ?%N.ltb_ge. apply N.ltb_ge. lia.
Qed.

Definition less_key2 {A} (k1 : A → N) (k2 : A → Z) (x y : A) : bool :=
  if negb (k1 x =? k1 y) then k1 x <? k1 y else (k2 x <? k2 y)%Z.

Lemma less_key2_false {A} (k1 : A → N) (k2 : A → Z) x y :
  less_key2 k1 k2 x y = false ↔ k1 y < k1 x ∨ k1 x = k1 y ∧ (k2 y ≤ k2 x)%Z.
Proof.
  unfold less_key2. destruct (N.eqb_spec (k1 x) (k1 y)); simpl;
    rewrite ?Z.ltb_ge, ?N.ltb_ge; lia.
Qed.

Lemma is_less_key2 {A} (k1 : A → N) (k2 : A → Z) : is_less (less_key2 k1 k2).
Proof.
  split; [intros x y | intros x y z]; rewrite ?less_key2_false; [|lia].
  unfold less_key2. destruct (N.eqb_spec (k1 x) (k1 y)); simpl;
    rewrite ?Z.ltb_lt, ?N.ltb_lt; lia.
Qed.

Lemma sorted_key_strict {A} (key : A → N) l : NoDup (key <$> l) →
  StronglySorted (le_of (less_key key)) l → StronglySorted (λ x y, key x < key y) l.
Proof.
  intros Hnd Hs. induction Hs as [|x l Hs IH Hx]; [constructor|].
  apply NoDup_cons in Hnd as [Hnin Hnd]. constructor; [by apply IH|].
  apply Forall_forall. intros y Hy. eapply Forall_forall in Hx; [|done].
  unfold le_of, less_key in Hx. apply N.ltb_ge in Hx.
  assert (key x ≠ key y); [|lia]. intros E. apply Hnin. rewrite E. by apply list_elem_of_fmap_2.
Qed.

Lemma le_of_key {A} (key : A → N) x y : le_of (less_key key) x y ↔ key x ≤ key y.
Proof. unfold le_of, less_key. by rewrite N.ltb_ge. Qed.

Section go_sort_lemmas.
Context `{GoStd}.
Lemma go_sort_length {A} (less : A → A → bool) l : length (go_sort less l) = length l.
Proof. by rewrite go_sort_perm. Qed.
Lemma go_sort_elem {A} (less : A → A → bool) l x : x ∈ go_sort less l ↔ x ∈ l.
Proof. by rewrite go_sort_perm. Qed.
End go_sort_lemmas.

(** ** Errors and state

    A Go function with an error result returns the error as a value, and the
    state it changed stays changed: [go S A] is a computation over a state
    [S] that panics ([None]) or ends with a value or an error. *)

Inductive goerr :=
  | ErrNotAscending (id prev : N)  (* Builder: ids must be strictly ascending *)
  | ErrTooManyProps                (* a PropID, a uint16, would wrap *)
  | ErrArenaFull                   (* a propEntry.ref, a uint32, would wrap *)
  | ErrInternal                    (* an internal invariant is violated *)
  | ErrNotSnapshot | ErrVersionMismatch  (* what a file is not *)
  | ErrCorrupt                     (* a snapshot file's contents are not valid *)
  | ErrIO                          (* the operating system's *)
  | ErrMemoryLimit | ErrTooLarge   (* the path engine's refusals *)
  | ErrDecode                      (* JSON that cannot be read as what it has to be *)
  | ErrUnknownKind (name : string) (* a kind nothing resolves *)
  | ErrNoGraph | ErrQuery | ErrUnnamedKind  (* what reading the database back can meet *)
  | ErrContext                     (* the caller's context is done *)
  | ErrBudget                      (* a query needs more than it is given *)
  | ErrUnsupportedStep | ErrUnboundSymbol | ErrSelfEndpoint  (* what the executor declines *)
  | ErrCollation | ErrRuntimeCast | ErrNotComparable | ErrUnsupported.  (* what the evaluator declines *)

Definition go (S A : Type) : Type := S → option (S * (A + goerr)).

Definition go_ret {S A} (x : A) : go S A := λ s, Some (s, inl x).
Definition go_err {S A} (e : goerr) : go S A := λ s, Some (s, inr e).
Definition go_bind {S A B} (m : go S A) (f : A → go S B) : go S B := λ s,
  '(s', r) ← m s;
  match r with inl x => f x s' | inr e => Some (s', inr e) end.
Definition go_get {S} : go S S := λ s, Some (s, inl s).
Definition go_put {S} (s : S) : go S () := λ _, Some (s, inl ()).
(** A read that may panic. *)
Definition go_lift {S A} (m : option A) : go S A := λ s, x ← m; Some (s, inl x).

Declare Scope go_scope.
Delimit Scope go_scope with go.
Notation "'let!' x ':=' m 'in' k" := (go_bind m (λ x, k))
  (at level 10, x pattern, m at level 100, k at level 200) : go_scope.
Notation "m ';;!' k" := (go_bind m (λ _, k))
  (at level 100, k at level 200, right associativity) : go_scope.

Fixpoint go_for {S A} (f : A → go S ()) (l : list A) : go S () :=
  match l with
  | [] => go_ret ()
  | x :: l' => go_bind (f x) (λ _, go_for f l')
  end.

Lemma go_for_cons {S A} (f : A → go S ()) x l :
  go_for f (x :: l) = go_bind (f x) (λ _, go_for f l).
Proof. done. Qed.
Lemma go_for_app {S A} (f : A → go S ()) l l' s : go_for f (l ++ l') s = go_bind (go_for f l) (λ _, go_for f l') s.
Proof.
  revert s. induction l as [|x l IH]; intros s; [done|]. rewrite <- app_comm_cons, !go_for_cons. unfold go_bind at 1 2 3.
  destruct (f x s) as [[s' [[]|]]|]; simpl; [apply IH|done..].
Qed.
