(* ===== verification/Bitset.v ===== *)
(** * Bit sets over node ids, and masks over kind ids

    [internal/engine/snapshot/bitset.go]: [Bitset], a bit set sized at creation
    with its member count kept on the side, and [KindMask].  The results: a bit
    set behaves as a finite set of the ids below its capacity, its count is its
    size, and iteration visits exactly its members in ascending order. *)

From S2P Require Import Prelude.
From stdpp Require Import options.
Unset Default Proof Using.

Abbreviation NodeID := N (only parsing).
Abbreviation KindID := Z (only parsing).

(** ** Definitions *)

(** [1 << i] and [^x] on a uint64. *)
Definition shl64 (i : N) : N := u64 (N.shiftl 1 i).
Definition not64 (x : N) : N := N.lxor x (N.ones 64).

(** [bits.TrailingZeros64]. *)
Fixpoint pos_ctz (p : positive) : N :=
  match p with xO p => N.succ (pos_ctz p) | _ => 0 end.
Definition TrailingZeros64 (w : N) : N :=
  match w with N0 => 64 | Npos p => pos_ctz p end.

Record Bitset := mkBitset { words : list N; count : N }.

Definition NewBitset (n : N) : Bitset := mkBitset (mk ((n + 63) / 64) 0) 0.

(** The guard compares with [uint32(len(b.words))], so the index that follows
    is in range and the last branch of the inner match is not reached. *)
Definition Bitset_Set (b : Bitset) (i : NodeID) : Bitset :=
  let wordIdx := i / 64 in
  if u32 (len (words b)) <=? wordIdx then b
  else
    let mask := shl64 (i mod 64) in
    match idx (words b) wordIdx with
    | Some w =>
        mkBitset (<[N.to_nat wordIdx := N.lor w mask]> (words b))
          (if N.land w mask =? 0 then count b + 1 else count b)
    | None => b
    end.

Definition Bitset_Has (b : Bitset) (i : NodeID) : bool :=
  let wordIdx := i / 64 in
  if u32 (len (words b)) <=? wordIdx then false
  else
    match idx (words b) wordIdx with
    | Some w => negb (N.land w (shl64 (i mod 64)) =? 0)
    | None => false
    end.

Definition Bitset_Count (b : Bitset) : N := count b.

(** [Iterate]'s inner loop over one word: 64 rounds are enough, since each
    clears a bit.  The boolean tells whether the callback let it finish. *)
Fixpoint iterate_word {S} (fuel : nat) (fn : NodeID → S → option (S * bool))
    (wordIdx word : N) (s : S) : option (S * bool) :=
  match fuel with
  | O => Some (s, true)
  | Datatypes.S fuel =>
      if word =? 0 then Some (s, true)
      else
        let tz := TrailingZeros64 word in
        '(s', cont) ← fn (u32 (wordIdx * 64 + tz)) s;
        if (cont : bool) then iterate_word fuel fn wordIdx (N.land word (not64 (shl64 tz))) s'
        else Some (s', false)
  end.
Fixpoint iterate_words {S} (fn : NodeID → S → option (S * bool))
    (wordIdx : N) (ws : list N) (s : S) : option (S * bool) :=
  match ws with
  | [] => Some (s, true)
  | w :: ws' =>
      '(s', cont) ← iterate_word 64 fn wordIdx w s;
      if (cont : bool) then iterate_words fn (wordIdx + 1) ws' s' else Some (s', false)
  end.
Definition Bitset_Iterate {S} (b : Bitset) (fn : NodeID → S → option (S * bool))
    (s : S) : option S :=
  '(s', _) ← iterate_words fn 0 (words b) s; Some s'.

Record KindMask := mkKindMask { mwords : list N; mmax : KindID }.

(** [make] panics on a negative length; [/] truncates towards zero. *)
Definition NewKindMask (max : KindID) : option KindMask :=
  let numWords := Z.quot (max + 1 + 63) 64 in
  if decide (0 ≤ numWords)%Z then Some (mkKindMask (mk (Z.to_N numWords) 0) max) else None.

Definition KindMask_Set (m : KindMask) (k : KindID) : option KindMask :=
  if decide (k < 0 ∨ k > mmax m)%Z then Some m
  else
    let wordIdx := Z.to_N (k / 64) in
    w ← idx (mwords m) wordIdx;
    ws ← upd (mwords m) wordIdx (N.lor w (shl64 (Z.to_N (k mod 64))));
    Some (mkKindMask ws (mmax m)).

Definition KindMask_Has (m : KindMask) (k : KindID) : option bool :=
  if decide (k < 0 ∨ k > mmax m)%Z then Some false
  else
    w ← idx (mwords m) (Z.to_N (k / 64));
    Some (negb (N.land w (shl64 (Z.to_N (k mod 64))) =? 0)).

Definition KindMask_SetAll (m : KindMask) : option KindMask :=
  let ws := (λ _, N.ones 64) <$> mwords m in
  if decide (0 < len ws) then
    let lastWordBits := (Z.rem (mmax m) 64 + 1)%Z in
    if decide (lastWordBits < 64)%Z then
      w ← idx ws (len ws - 1);
      ws' ← upd ws (len ws - 1) (N.land w (u64 (shl64 (Z.to_N lastWordBits) + 2 ^ 64 - 1)));
      Some (mkKindMask ws' (mmax m))
    else Some (mkKindMask ws (mmax m))
  else Some (mkKindMask ws (mmax m)).

(** ** Words and single bits *)

Lemma shl64_spec i j : i < 64 → N.testbit (shl64 i) j = (i =? j).
Proof.
  intros Hi. unfold shl64, u64. rewrite N.shiftl_1_l, N.mod_small.
  - apply N.pow2_bits_eqb.
  - apply N.pow_lt_mono_r; lia.
Qed.

Lemma land_shl64 w i : i < 64 → negb (N.land w (shl64 i) =? 0) = N.testbit w i.
Proof.
  intros Hi. destruct (N.eqb_spec (N.land w (shl64 i)) 0) as [E|E]; simpl.
  - apply (f_equal (λ x, N.testbit x i)) in E.
    rewrite N.land_spec, shl64_spec, N.eqb_refl, andb_true_r in E by done. by rewrite E.
  - destruct (N.testbit w i) eqn:Hw; [done|]. exfalso. apply E, N.bits_inj. intros j.
    rewrite N.land_spec, shl64_spec, N.bits_0 by done.
    destruct (N.eqb_spec i j) as [->|]; [by rewrite Hw | by rewrite andb_false_r].
Qed.

Lemma lor_shl64 w i j : i < 64 →
  N.testbit (N.lor w (shl64 i)) j = N.testbit w j || (i =? j).
Proof. intros Hi. by rewrite N.lor_spec, shl64_spec. Qed.

Lemma clear_spec w i j : i < 64 → j < 64 →
  N.testbit (N.land w (not64 (shl64 i))) j = N.testbit w j && negb (i =? j).
Proof.
  intros Hi Hj. unfold not64.
  by rewrite N.land_spec, N.lxor_spec, shl64_spec, N.ones_spec_low, xorb_true_r by done.
Qed.

(** The bits of a word, in ascending order. *)
Definition word_bits (w : N) : list N := filter (λ t, N.testbit w t = true) (range 0 64).

Lemma word_bits_zero w : word_bits w = [] → w < 2 ^ 64 → w = 0.
Proof.
  intros H Hw. apply N.bits_inj. intros j. rewrite N.bits_0.
  destruct (decide (j < 64)).
  - destruct (N.testbit w j) eqn:E; [|done]. exfalso.
    assert (j ∈ word_bits w) as Hin.
    { apply list_elem_of_filter. split; [done|]. apply elem_of_range. lia. }
    rewrite H in Hin. by apply not_elem_of_nil in Hin.
  - rewrite <- (N.mod_small w (2 ^ 64)) by done. apply N.mod_pow2_bits_high. lia.
Qed.

Lemma pos_ctz_spec p :
  N.testbit (Npos p) (pos_ctz p) = true ∧ ∀ j, j < pos_ctz p → N.testbit (Npos p) j = false.
Proof.
  induction p as [p _|p [IH1 IH2]|]; simpl pos_ctz; [by split; [|lia]| | by split; [|lia]].
  change (N.pos p~0) with (2 * N.pos p). split.
  - by rewrite N.double_bits_succ.
  - intros j Hj. destruct (decide (j = 0)) as [->|]; [by rewrite N.testbit_even_0|].
    replace j with (N.succ (N.pred j)) by lia. rewrite N.double_bits_succ.
    apply IH2. lia.
Qed.

Lemma TrailingZeros64_spec w : w ≠ 0 → w < 2 ^ 64 →
  TrailingZeros64 w < 64 ∧ N.testbit w (TrailingZeros64 w) = true ∧
  ∀ j, j < TrailingZeros64 w → N.testbit w j = false.
Proof.
  intros H0 Hlt. destruct w as [|p]; [done|]. simpl.
  destruct (pos_ctz_spec p) as [H1 H2]. split; [|done].
  destruct (decide (pos_ctz p < 64)) as [|Hge]; [done|exfalso].
  rewrite <- (N.mod_small _ (2 ^ 64)), N.mod_pow2_bits_high in H1; [done|lia|done].
Qed.

Lemma word_bits_step w : w ≠ 0 → w < 2 ^ 64 →
  word_bits w =
    TrailingZeros64 w :: word_bits (N.land w (not64 (shl64 (TrailingZeros64 w)))).
Proof.
  intros H0 Hlt. destruct (TrailingZeros64_spec w H0 Hlt) as (Ht & Hb & Hlow).
  set (t := TrailingZeros64 w) in *. unfold word_bits.
  rewrite (range_app 0 t 64), (range_cons t 64), !filter_app by lia.
  rewrite (filter_nil_none _ (range 0 t)); [simpl|].
  2: { intros j [_ Hj]%elem_of_range. by rewrite Hlow. }
  rewrite filter_cons_True by done. f_equal.
  rewrite (filter_nil_none _ (range 0 t)); [simpl|].
  2: { intros j [_ Hj]%elem_of_range. rewrite clear_spec, Hlow by lia. done. }
  rewrite filter_cons_False by (by rewrite clear_spec, N.eqb_refl, andb_false_r by lia).
  apply filter_ext_in. intros j Hj%elem_of_range.
  rewrite clear_spec by lia. rewrite (proj2 (N.eqb_neq t j)) by lia.
  by rewrite andb_true_r.
Qed.

(** ** Iteration visits the members in order *)

Fixpoint words_elems (k : N) (ws : list N) : list NodeID :=
  match ws with
  | [] => []
  | w :: ws' => ((λ t, u32 (k * 64 + t)) <$> word_bits w) ++ words_elems (k + 1) ws'
  end.
Definition Bitset_elems (b : Bitset) : list NodeID := words_elems 0 (words b).

Lemma iterate_word_spec {S} fuel (fn : NodeID → S → option (S * bool)) k w s :
  w < 2 ^ 64 → (length (word_bits w) ≤ fuel)%nat →
  iterate_word fuel fn k w s = iter_b fn ((λ t, u32 (k * 64 + t)) <$> word_bits w) s.
Proof.
  revert w s. induction fuel as [|fuel IH]; intros w s Hw Hfuel; simpl.
  - destruct (word_bits w); [done | simpl in Hfuel; lia].
  - destruct (N.eqb_spec w 0) as [->|H0]; [done|].
    rewrite (word_bits_step w) in Hfuel |- * by done. simpl in Hfuel |- *.
    destruct (fn _ s) as [[s' []]|]; simpl; [|done|done].
    apply IH; [|lia]. apply N.le_lt_trans with w; [|done]. apply N.land_le_l.
Qed.

#[global] Arguments iterate_word : simpl never.

Lemma word_bits_length w : (length (word_bits w) ≤ 64)%nat.
Proof.
  unfold word_bits. etrans; [apply length_filter|].
  pose proof (len_range 0 64) as E. unfold len in E. lia.
Qed.

Lemma iterate_words_spec {S} (fn : NodeID → S → option (S * bool)) k ws s :
  Forall (λ w, w < 2 ^ 64) ws → iterate_words fn k ws s = iter_b fn (words_elems k ws) s.
Proof.
  intros Hws. revert k s. induction Hws as [|w ws Hw _ IH]; intros k s; simpl; [done|].
  rewrite iterate_word_spec by (done || apply word_bits_length).
  rewrite iter_b_app. destruct (iter_b fn _ s) as [[s' []]|]; simpl; auto.
Qed.

(** ** Well-formed bit sets *)

Record Bitset_wf (cap : N) (b : Bitset) : Prop := {
  wf_words : Forall (λ w, w < 2 ^ 64) (words b);
  wf_len : len (words b) = (cap + 63) / 64;
  wf_cap : cap < 2 ^ 32;
  wf_bound : ∀ i, Bitset_Has b i = true → i < cap;
  wf_count : count b = len (Bitset_elems b);
}.

Lemma capacity_words cap i : cap < 2 ^ 32 → i < cap → i / 64 < (cap + 63) / 64.
Proof.
  intros Hc Hi. apply N.Div0.div_lt_upper_bound.
  pose proof (N.Div0.div_mod (cap + 63) 64). pose proof (N.mod_lt (cap + 63) 64). lia.
Qed.

Lemma cap_words_small cap : cap < 2 ^ 32 → (cap + 63) / 64 < 2 ^ 26 + 1.
Proof. intros Hc. apply N.Div0.div_lt_upper_bound. lia. Qed.

Lemma Has_words b i : len (words b) < 2 ^ 32 →
  Bitset_Has b i = match idx (words b) (i / 64) with
                   | Some w => N.testbit w (i mod 64) | None => false end.
Proof.
  intros Hl. unfold Bitset_Has. rewrite u32_small by done.
  destruct (N.leb_spec (len (words b)) (i / 64)) as [Hle|Hlt].
  - destruct (idx (words b) (i / 64)) eqn:E; [|done]. apply idx_lt in E. lia.
  - destruct (idx (words b) (i / 64)) eqn:E; [|done].
    apply land_shl64. by apply N.mod_lt.
Qed.

Lemma elem_of_word_bits w t : t ∈ word_bits w ↔ N.testbit w t = true ∧ t < 64.
Proof. unfold word_bits. rewrite list_elem_of_filter, elem_of_range. intuition lia. Qed.

Lemma div64 k t : t < 64 → (k * 64 + t) / 64 = k.
Proof. intros Ht. rewrite N.div_add_l, N.div_small; lia. Qed.
Lemma mod64 k t : t < 64 → (k * 64 + t) mod 64 = t.
Proof. intros Ht. by rewrite N.add_comm, N.Div0.mod_add, N.mod_small. Qed.

Lemma split64 i : i = i / 64 * 64 + i mod 64 ∧ i mod 64 < 64 ∧ 0 ≤ i mod 64.
Proof.
  split_and!; [rewrite N.mul_comm; apply N.Div0.div_mod | by apply N.mod_lt | apply N.le_0_l].
Qed.

Lemma elem_of_words_elems k ws i : (k + len ws) * 64 ≤ 2 ^ 32 →
  i ∈ words_elems k ws ↔
    ∃ j w, idx ws j = Some w ∧ i / 64 = k + j ∧ N.testbit w (i mod 64) = true.
Proof.
  revert k. induction ws as [|w ws IH]; intros k Hk; simpl.
  - split; [by intros ?%not_elem_of_nil|]. by intros (j & w & ? & _).
  - rewrite len_cons in Hk. rewrite elem_of_app, IH by lia.
    rewrite list_elem_of_fmap. setoid_rewrite elem_of_word_bits. split.
    + intros [(t & -> & Ht & Hlt)|(j & w' & Hj & Hi & Hb)].
      * exists 0, w. rewrite u32_small, div64, mod64 by lia. rewrite N.add_0_r. done.
      * exists (j + 1), w'. rewrite idx_cons_succ. split_and!; [done | lia | done].
    + intros (j & w' & Hj & Hi & Hb). destruct (decide (j = 0)) as [->|].
      * left. injection Hj as ->. exists (i mod 64). split_and!.
        -- pose proof (split64 i). rewrite u32_small; lia.
        -- done.
        -- by apply N.mod_lt.
      * right. replace j with (j - 1 + 1) in Hj by lia. rewrite idx_cons_succ in Hj.
        exists (j - 1), w'. split_and!; [done | lia | done].
Qed.

Lemma word_bits_sorted w : StronglySorted N.lt (word_bits w).
Proof. unfold word_bits. apply StronglySorted_filter, range_sorted. Qed.

Lemma words_elems_sorted k ws : (k + len ws) * 64 ≤ 2 ^ 32 →
  StronglySorted N.lt (words_elems k ws).
Proof.
  revert k. induction ws as [|w ws IH]; intros k Hk; simpl; [constructor|].
  rewrite len_cons in Hk. apply StronglySorted_app_2; [| |apply IH; lia].
  - intros x y Hx Hy. apply list_elem_of_fmap in Hx as (t & -> & Ht).
    apply elem_of_word_bits in Ht as [_ Ht].
    apply elem_of_words_elems in Hy as (j & w' & Hj & Hi & _); [|lia].
    pose proof (split64 y). rewrite u32_small; lia.
  - eapply StronglySorted_fmap_in; [|apply word_bits_sorted].
    intros x y [_ Hx]%elem_of_word_bits [_ Hy]%elem_of_word_bits Hlt.
    rewrite !u32_small; lia.
Qed.

Section wf.
Context (cap : N) (b : Bitset) (Hwf : Bitset_wf cap b).

Lemma wf_len_lt : len (words b) * 64 ≤ 2 ^ 32.
Proof.
  rewrite (wf_len _ _ Hwf). pose proof (cap_words_small cap (wf_cap _ _ Hwf)).
  pose proof (wf_cap _ _ Hwf).
  lia.
Qed.

Lemma elem_of_Bitset i : i ∈ Bitset_elems b ↔ Bitset_Has b i = true.
Proof.
  pose proof wf_len_lt as Hl. unfold Bitset_elems.
  rewrite elem_of_words_elems by lia. rewrite Has_words by lia. split.
  - intros (j & w & Hj & -> & Hb). by rewrite N.add_0_l, Hj.
  - destruct (idx _ _) as [w|] eqn:E; [|done]. eauto 6.
Qed.

Lemma Bitset_elems_sorted : StronglySorted N.lt (Bitset_elems b).
Proof. apply words_elems_sorted. apply wf_len_lt. Qed.

Lemma Bitset_Iterate_spec {S} (fn : NodeID → S → option (S * bool)) s :
  Bitset_Iterate b fn s = iter_until fn (Bitset_elems b) s.
Proof.
  unfold Bitset_Iterate, iter_until. rewrite iterate_words_spec; [done|].
  apply (wf_words _ _ Hwf).
Qed.
End wf.

(** Two well-formed sets with the same members list the same ids. *)
Lemma Bitset_elems_ext cap cap' b b' : Bitset_wf cap b → Bitset_wf cap' b' →
  (∀ i, Bitset_Has b i = Bitset_Has b' i) → Bitset_elems b = Bitset_elems b'.
Proof.
  intros Hb Hb' He. apply sorted_unique_N; [by eapply Bitset_elems_sorted..|].
  intros i. rewrite (elem_of_Bitset _ _ Hb), (elem_of_Bitset _ _ Hb'). by rewrite He.
Qed.

Lemma NewBitset_Has cap i : cap < 2 ^ 32 → Bitset_Has (NewBitset cap) i = false.
Proof.
  intros Hc. pose proof (cap_words_small cap Hc). rewrite Has_words; simpl.
  - destruct (decide (i / 64 < (cap + 63) / 64)).
    + by rewrite idx_mk, N.bits_0 by done.
    + destruct (idx _ _) eqn:E; [|done]. apply idx_lt in E. rewrite len_mk in E. lia.
  - rewrite len_mk. lia.
Qed.

Lemma NewBitset_wf cap : cap < 2 ^ 32 → Bitset_wf cap (NewBitset cap).
Proof.
  intros Hc. pose proof (cap_words_small cap Hc). split; simpl.
  - apply Forall_replicate. lia.
  - by rewrite len_mk.
  - done.
  - intros i. by rewrite NewBitset_Has.
  - destruct (Bitset_elems (NewBitset cap)) as [|i l] eqn:E; [done|exfalso].
    assert (i ∈ Bitset_elems (NewBitset cap)) as Hi by (rewrite E; left).
    unfold Bitset_elems in Hi. apply elem_of_words_elems in Hi as (j & w & Hj & _ & Hb).
    + simpl in Hj. pose proof (idx_lt _ _ _ Hj) as Hlt. rewrite len_mk in Hlt.
      rewrite idx_mk in Hj by done. injection Hj as <-. by rewrite N.bits_0 in Hb.
    + simpl. rewrite len_mk. lia.
Qed.

Lemma Set_words b i : len (words b) < 2 ^ 32 → i / 64 < len (words b) →
  ∃ w, idx (words b) (i / 64) = Some w ∧
    Bitset_Set b i = mkBitset (<[N.to_nat (i / 64) := N.lor w (shl64 (i mod 64))]> (words b))
      (if Bitset_Has b i then count b else count b + 1).
Proof.
  intros Hl Hi. destruct (idx_is_Some (words b) (i / 64) Hi) as [w Hw].
  exists w. split; [done|]. rewrite Has_words, Hw by done. unfold Bitset_Set.
  rewrite u32_small, (proj2 (N.leb_gt _ _)) by done. rewrite Hw.
  rewrite <- land_shl64 by (by apply N.mod_lt). f_equal.
  by destruct (N.land w _ =? 0).
Qed.

Lemma Set_Has cap b i j : Bitset_wf cap b → i < cap →
  Bitset_Has (Bitset_Set b i) j = Bitset_Has b j || (i =? j).
Proof.
  intros Hwf Hi. pose proof (wf_len_lt _ _ Hwf) as Hl.
  destruct (Set_words b i) as (w & Hw & ->); [lia| |].
  { rewrite (wf_len _ _ Hwf). apply capacity_words; [apply (wf_cap _ _ Hwf)|done]. }
  rewrite !Has_words by (simpl; rewrite ?len_insert; lia). simpl.
  destruct (split64 i) as (Hi1 & Hi2 & _), (split64 j) as (Hj1 & Hj2 & _).
  destruct (decide (j / 64 = i / 64)) as [E|E].
  - rewrite E, Hw. unfold idx in *. rewrite list_lookup_insert_eq by (by eapply lookup_lt_Some).
    rewrite lor_shl64 by done. f_equal.
    destruct (N.eqb_spec (i mod 64) (j mod 64)), (N.eqb_spec i j); try done; lia.
  - unfold idx. rewrite list_lookup_insert_ne by lia.
    destruct (words b !! _); rewrite (proj2 (N.eqb_neq i j)); try done.
    1: by rewrite orb_false_r. all: congruence.
Qed.

Lemma bits_lt64 w : (∀ j, 64 ≤ j → N.testbit w j = false) → w < 2 ^ 64.
Proof.
  intros H. enough (w = w mod 2 ^ 64) as -> by (by apply N.mod_lt).
  apply N.bits_inj. intros j. destruct (decide (j < 64)).
  - by rewrite N.mod_pow2_bits_low.
  - rewrite N.mod_pow2_bits_high by lia. apply H. lia.
Qed.

Lemma lt64_bits w j : w < 2 ^ 64 → 64 ≤ j → N.testbit w j = false.
Proof.
  intros Hw Hj. rewrite <- (N.mod_small w (2 ^ 64)) by done.
  by apply N.mod_pow2_bits_high.
Qed.

Lemma Set_Forall b i : len (words b) * 64 ≤ 2 ^ 32 → i / 64 < len (words b) →
  Forall (λ w, w < 2 ^ 64) (words b) → Forall (λ w, w < 2 ^ 64) (words (Bitset_Set b i)).
Proof.
  intros Hl Hi HF. destruct (Set_words b i) as (w & Hw & ->); [lia|done|]. simpl.
  apply Forall_insert; [done|]. apply bits_lt64. intros j Hj.
  rewrite lor_shl64, lt64_bits, (proj2 (N.eqb_neq _ _)); try done.
  - pose proof (split64 i). lia.
  - eapply Forall_lookup in HF; [done|]. exact Hw.
  - by apply N.mod_lt.
Qed.

Lemma Set_len b i : len (words (Bitset_Set b i)) = len (words b).
Proof.
  unfold Bitset_Set. destruct (_ <=? _); [done|].
  destruct (idx _ _); simpl; [apply len_insert|done].
Qed.

Lemma Set_wf cap b i : Bitset_wf cap b → i < cap → Bitset_wf cap (Bitset_Set b i).
Proof.
  intros Hwf Hi. pose proof (wf_len_lt _ _ Hwf) as Hl.
  assert (i / 64 < len (words b)) as Hi'.
  { rewrite (wf_len _ _ Hwf). apply capacity_words; [apply (wf_cap _ _ Hwf)|done]. }
  assert (∀ j, j ∈ Bitset_elems (Bitset_Set b i) ↔ j ∈ Bitset_elems b ∨ i = j) as Hel.
  { intros j. rewrite (elem_of_Bitset _ _ Hwf). unfold Bitset_elems.
    rewrite elem_of_words_elems by (rewrite Set_len; lia).
    transitivity (Bitset_Has (Bitset_Set b i) j = true).
    - rewrite Has_words by (rewrite Set_len; lia). split.
      + intros (k & w & Hk & -> & Hb). by rewrite N.add_0_l, Hk.
      + destruct (idx _ _) as [w|] eqn:E; [|done]. eauto 6.
    - by rewrite (Set_Has cap), orb_true_iff, N.eqb_eq. }
  split.
  - apply Set_Forall; [done..|apply (wf_words _ _ Hwf)].
  - rewrite Set_len. apply (wf_len _ _ Hwf).
  - apply (wf_cap _ _ Hwf).
  - intros j. rewrite (Set_Has cap) by done.
    intros [?%(wf_bound _ _ Hwf)| ->%N.eqb_eq]%orb_true_iff; done.
  - assert (NoDup (Bitset_elems (Bitset_Set b i))) as Hnd.
    { apply sorted_lt_NoDup, words_elems_sorted. by rewrite Set_len. }
    assert (NoDup (Bitset_elems b)) as Hnd'
      by (apply sorted_lt_NoDup, Bitset_elems_sorted with cap; done).
    destruct (Set_words b i) as (w & _ & Hs); [lia|done|].
    transitivity (if Bitset_Has b i then count b else count b + 1).
    { by rewrite Hs. }
    rewrite (wf_count _ _ Hwf). destruct (Bitset_Has b i) eqn:E.
    + apply elem_of_Bitset with (cap := cap) in E; [|done].
      assert (Bitset_elems (Bitset_Set b i) ≡ₚ Bitset_elems b) as Hp.
      { apply NoDup_Permutation; [done..|]. intros j. rewrite Hel. naive_solver. }
      unfold len. by rewrite Hp.
    + assert (Bitset_elems (Bitset_Set b i) ≡ₚ i :: Bitset_elems b) as Hp.
      { apply NoDup_Permutation; [done| |].
        - constructor; [|done]. rewrite (elem_of_Bitset _ _ Hwf). by rewrite E.
        - intros j. rewrite Hel, elem_of_cons. naive_solver. }
      unfold len. rewrite Hp. simpl. lia.
Qed.

(** Building a set by setting a list of ids one after the other. *)
Lemma Set_foldl cap b l : Bitset_wf cap b → (∀ i, i ∈ l → i < cap) →
  Bitset_wf cap (foldl Bitset_Set b l) ∧
  ∀ j, Bitset_Has (foldl Bitset_Set b l) j = true ↔ Bitset_Has b j = true ∨ j ∈ l.
Proof.
  revert b. induction l as [|i l IH]; intros b Hwf Hl; simpl.
  - split; [done|]. intros j. rewrite elem_of_nil. tauto.
  - destruct (IH (Bitset_Set b i)) as [H1 H2].
    + apply Set_wf; [done|]. apply Hl. left.
    + intros k Hk. apply Hl. by right.
    + split; [done|]. intros j. rewrite H2, (Set_Has cap), orb_true_iff, elem_of_cons, N.eqb_eq.
      * naive_solver.
      * done.
      * apply Hl. left.
Qed.

(** *** Ids past the size a set was made for

    The words hold a multiple of 64 bits, so an id past the size but within the
    last word is still set; one past the words is dropped. *)

Definition word_cap (n : N) : N := (n + 63) / 64 * 64.

Lemma word_cap_ge n : n ≤ word_cap n.
Proof. unfold word_cap. pose proof (split64 (n + 63)). lia. Qed.
Lemma word_cap_small n : n < 2 ^ 31 → word_cap n < 2 ^ 32.
Proof. unfold word_cap. pose proof (split64 (n + 63)). lia. Qed.
Lemma word_cap_words n : (word_cap n + 63) / 64 = (n + 63) / 64.
Proof. unfold word_cap. apply div64. lia. Qed.

Lemma NewBitset_cap n : n < 2 ^ 31 → Bitset_wf (word_cap n) (NewBitset n).
Proof.
  intros Hn. assert (NewBitset n = NewBitset (word_cap n)) as ->.
  { unfold NewBitset. by rewrite word_cap_words. }
  apply NewBitset_wf. by apply word_cap_small.
Qed.

Lemma Set_past n b i : Bitset_wf (word_cap n) b → word_cap n ≤ i → Bitset_Set b i = b.
Proof.
  intros Hwf Hi. pose proof (wf_len_lt _ _ Hwf) as Hl. unfold Bitset_Set.
  rewrite u32_small by lia. rewrite (wf_len _ _ Hwf), word_cap_words.
  destruct (N.leb_spec ((n + 63) / 64) (i / 64)) as [|Hlt]; [done|exfalso].
  unfold word_cap in Hi. pose proof (split64 i). lia.
Qed.

Lemma Set_foldl_cap n b l : Bitset_wf (word_cap n) b →
  Bitset_wf (word_cap n) (foldl Bitset_Set b l) ∧
  ∀ j, Bitset_Has (foldl Bitset_Set b l) j = true ↔
    Bitset_Has b j = true ∨ (j ∈ l ∧ j < word_cap n).
Proof.
  revert b. induction l as [|i l IH]; intros b Hwf; simpl.
  - split; [done|]. intros j. rewrite elem_of_nil. tauto.
  - setoid_rewrite elem_of_cons. destruct (decide (i < word_cap n)) as [Hi|Hi].
    + destruct (IH (Bitset_Set b i)) as [H1 H2]; [by apply Set_wf|]. split; [done|]. intros j.
      rewrite H2, (Set_Has (word_cap n)), orb_true_iff, N.eqb_eq by done. naive_solver.
    + rewrite (Set_past n) by (done || lia). destruct (IH b Hwf) as [H1 H2]. split; [done|].
      intros j. rewrite H2. naive_solver.
Qed.

(** ** Kind masks *)

Record KindMask_wf (m : KindMask) : Prop := {
  km_max : (0 ≤ mmax m < 2 ^ 15)%Z;
  km_len : len (mwords m) = Z.to_N ((mmax m + 64) / 64);
}.

Lemma NewKindMask_wf max : (0 ≤ max < 2 ^ 15)%Z →
  ∃ m, NewKindMask max = Some m ∧ KindMask_wf m ∧ mmax m = max ∧
    ∀ k, KindMask_Has m k = Some false.
Proof.
  intros Hm. unfold NewKindMask.
  replace (max + 1 + 63)%Z with (max + 64)%Z by lia.
  rewrite Z.quot_div_nonneg by lia.
  assert (0 ≤ (max + 64) / 64)%Z by (apply Z.div_pos; lia).
  rewrite decide_True by done. eexists. split; [done|]. split_and!; [|done|].
  - split; simpl; [done|]. by rewrite len_mk.
  - intros k. unfold KindMask_Has. simpl. case_decide as Hk; [done|].
    rewrite idx_mk; simpl; [|].
    + done.
    + apply Z2N.inj_lt; [apply Z.div_pos; lia | done |].
      apply Z.div_lt_upper_bound; [lia|]. pose proof (Z.div_mod (max + 64) 64).
      pose proof (Z.mod_pos_bound (max + 64) 64). lia.
Qed.

(** The word index of a kind within the mask's range. *)
Lemma KindMask_word m k : KindMask_wf m → (0 ≤ k ≤ mmax m)%Z →
  Z.to_N (k / 64) < len (mwords m) ∧ Z.to_N (k mod 64) < 64.
Proof.
  intros Hwf Hk. rewrite (km_len _ Hwf). split.
  - assert (0 ≤ k / 64)%Z by (apply Z.div_pos; lia).
    assert (k / 64 < (mmax m + 64) / 64)%Z.
    { apply Z.div_lt_upper_bound; [lia|].
      pose proof (Z.div_mod (mmax m + 64) 64). pose proof (Z.mod_pos_bound (mmax m + 64) 64). lia. }
    lia.
  - pose proof (Z.mod_pos_bound k 64). lia.
Qed.

Lemma KindMask_Has_spec m k : KindMask_wf m → (0 ≤ k ≤ mmax m)%Z →
  ∃ w, idx (mwords m) (Z.to_N (k / 64)) = Some w ∧
    KindMask_Has m k = Some (N.testbit w (Z.to_N (k mod 64))).
Proof.
  intros Hwf Hk. destruct (KindMask_word m k Hwf Hk) as [Hw Hb].
  destruct (idx_is_Some _ _ Hw) as [w Hw']. exists w. split; [done|].
  unfold KindMask_Has. rewrite decide_False by lia. rewrite Hw'. simpl.
  by rewrite land_shl64.
Qed.

Lemma KindMask_Set_spec m k : KindMask_wf m →
  ∃ m', KindMask_Set m k = Some m' ∧ KindMask_wf m' ∧ mmax m' = mmax m ∧
    ∀ k', KindMask_Has m' k' =
      if bool_decide (k' = k ∧ 0 ≤ k ≤ mmax m)%Z then Some true else KindMask_Has m k'.
Proof.
  intros Hwf. unfold KindMask_Set. case_decide as Hk.
  - exists m. split_and!; [done..|]. intros k'. rewrite bool_decide_false by lia. done.
  - destruct (KindMask_word m k Hwf) as [Hw Hb]; [lia|].
    destruct (idx_is_Some _ _ Hw) as [w Hw']. rewrite Hw'. simpl.
    destruct (upd_Some (mwords m) (Z.to_N (k / 64)) (N.lor w (shl64 (Z.to_N (k mod 64)))) Hw)
      as (ws & -> & Hlen & Hidx). simpl.
    eexists. split; [done|].
    assert (KindMask_wf (mkKindMask ws (mmax m))) as Hwf'.
    { split; simpl; [apply (km_max _ Hwf)|]. rewrite Hlen. apply (km_len _ Hwf). }
    split_and!; [done..|]. intros k'.
    destruct (decide (k' < 0 ∨ k' > mmax m)%Z) as [Ho|Hi].
    { rewrite bool_decide_false by lia. unfold KindMask_Has. simpl.
      by rewrite !decide_True by done. }
    destruct (KindMask_Has_spec _ k' Hwf') as (w1 & Hw1 & ->); [simpl; lia|].
    destruct (KindMask_Has_spec _ k' Hwf) as (w2 & Hw2 & ->); [lia|].
    simpl in Hw1. rewrite Hidx in Hw1. case_decide as E.
    + assert (k' / 64 = k / 64)%Z as E'.
      { apply Z2N.inj; [apply Z.div_pos; lia..|done]. }
      rewrite E in Hw2. injection Hw1 as <-. simplify_eq.
      rewrite lor_shl64 by done.
      pose proof (Z.div_mod k 64). pose proof (Z.div_mod k' 64).
      pose proof (Z.mod_pos_bound k 64). pose proof (Z.mod_pos_bound k' 64).
      case_bool_decide as Hc.
      * destruct Hc as [-> _]. by rewrite N.eqb_refl, orb_true_r.
      * rewrite (proj2 (N.eqb_neq _ _)); [by rewrite orb_false_r|]. lia.
    + rewrite bool_decide_false; [congruence|]. intros [-> _]. done.
Qed.

Lemma SetAll_bit r i : 0 < r → r ≤ 64 → i < 64 →
  N.testbit (if decide (r < 64) then N.land (N.ones 64) (u64 (shl64 r + 2 ^ 64 - 1))
             else N.ones 64) i = bool_decide (i < r).
Proof.
  intros Hr Hr' Hi. case_decide as Hlt.
  - rewrite N.land_spec, N.ones_spec_low by done. simpl.
    assert (u64 (shl64 r + 2 ^ 64 - 1) = N.ones r) as ->.
    { unfold u64 at 1, shl64, u64. rewrite N.shiftl_1_l.
      assert (2 ^ r < 2 ^ 64) by (apply N.pow_lt_mono_r; lia).
      assert (0 < 2 ^ r) by (apply N.neq_0_lt_0, N.pow_nonzero; lia).
      rewrite (N.mod_small (2 ^ r)) by done.
      replace (2 ^ r + 2 ^ 64 - 1) with (2 ^ r - 1 + 1 * 2 ^ 64) by lia.
      rewrite N.Div0.mod_add, N.mod_small by lia. rewrite N.ones_equiv. lia. }
    case_bool_decide; [by apply N.ones_spec_low | apply N.ones_spec_high; lia].
  - rewrite N.ones_spec_low by done. by rewrite bool_decide_true by lia.
Qed.

(** [SetAll] makes every kind of the mask's range, and no other, a member. *)
Lemma KindMask_SetAll_spec m : KindMask_wf m →
  ∃ m', KindMask_SetAll m = Some m' ∧ KindMask_wf m' ∧ mmax m' = mmax m ∧
    ∀ k, KindMask_Has m' k = Some (bool_decide (0 ≤ k ≤ mmax m)%Z).
Proof.
  intros Hwf. pose proof (km_max _ Hwf) as Hmax. unfold KindMask_SetAll.
  set (ws := (λ _, N.ones 64) <$> mwords m).
  assert (len ws = Z.to_N ((mmax m + 64) / 64)) as Hlen.
  { unfold ws. rewrite len_fmap. apply (km_len _ Hwf). }
  assert (1 ≤ (mmax m + 64) / 64)%Z by (apply Z.div_le_lower_bound; lia).
  rewrite decide_True by lia. rewrite Z.rem_mod_nonneg by lia.
  pose proof (Z.mod_pos_bound (mmax m) 64) as Hmod.
  set (r := Z.to_N (mmax m mod 64 + 1)).
  assert (∀ j w, idx ws j = Some w → w = N.ones 64) as Hones.
  { intros j w. unfold ws. rewrite idx_fmap. by intros (? & ? & ->)%fmap_Some. }
  destruct (idx_is_Some ws (len ws - 1)) as [w Hw]; [lia|].
  rewrite (Hones _ _ Hw) in Hw.
  set (last := if decide (r < 64) then N.land (N.ones 64) (u64 (shl64 r + 2 ^ 64 - 1))
               else N.ones 64).
  assert (∃ m', (if decide (mmax m mod 64 + 1 < 64)%Z then
      w ← idx ws (len ws - 1);
      ws' ← upd ws (len ws - 1) (N.land w (u64 (shl64 r + 2 ^ 64 - 1)));
      Some (mkKindMask ws' (mmax m)) else Some (mkKindMask ws (mmax m))) = Some m' ∧
      mmax m' = mmax m ∧ len (mwords m') = len ws ∧
      ∀ j w, idx (mwords m') j = Some w → w = if decide (j = len ws - 1) then last else N.ones 64)
    as (m' & -> & Hmm & Hml & Hmw).
  { rewrite Hw. simpl. unfold last. case_decide as Hr.
    - rewrite (decide_True (P := r < 64)) by lia.
      destruct (upd_Some ws (len ws - 1) (N.land (N.ones 64) (u64 (shl64 r + 2 ^ 64 - 1))))
        as (ws' & -> & Hl' & Hi'); [lia|]. eexists. split_and!; [done..|].
      simpl. intros j w'. rewrite Hi'. case_decide; [congruence|apply Hones].
    - rewrite (decide_False (P := r < 64)) by lia. eexists. split_and!; [done..|].
      simpl. intros j w' ?%Hones. by case_decide. }
  assert (KindMask_wf m') as Hwf' by (split; rewrite ?Hmm, ?Hml; done).
  exists m'. split_and!; [done..|]. intros k. case_bool_decide as Hk.
  - destruct (KindMask_Has_spec m' k) as (w' & Hw' & ->); [done|by rewrite Hmm|].
    destruct (KindMask_word m' k) as [_ Hb]; [done|by rewrite Hmm|].
    rewrite (Hmw _ _ Hw'). f_equal. case_decide as Hj.
    + unfold last. rewrite SetAll_bit by lia. apply bool_decide_true.
      assert (k / 64 = (mmax m + 64) / 64 - 1)%Z as Hkd.
      { apply Z2N.inj; [apply Z.div_pos; lia|lia|]. rewrite Hj, Hlen. lia. }
      replace (mmax m + 64)%Z with (mmax m + 1 * 64)%Z in Hkd by lia.
      rewrite Z.div_add in Hkd by lia.
      pose proof (Z.div_mod k 64). pose proof (Z.div_mod (mmax m) 64).
      pose proof (Z.mod_pos_bound k 64). lia.
    + by apply N.ones_spec_low.
  - unfold KindMask_Has. rewrite Hmm. by rewrite decide_True by lia.
Qed.
