(* ===== verification/Csr.v ===== *)
(** * Compressed rows

    The replica stores every per-node list (out-edges, in-edges, kinds,
    property entries) as one flat array with an offsets array: row [i] is
    [flat[offsets[i]:offsets[i+1]]].  This file relates that layout to a list
    of rows, and proves the two loops that produce it: the counting sort that
    places items by key, and the loop that sorts each row in place. *)

From S2P Require Import Prelude.
From stdpp Require Import options.
Unset Default Proof Using.

(** Reading row [i]; [j] is the expression the source indexes the end with. *)
Definition row {A} (offsets : list N) (flat : list A) (i j : N) : option (list A) :=
  lo ← idx offsets i; hi ← idx offsets j; slice flat lo hi.

(** The offsets of a list of rows: prefix sums of the row lengths. *)
Definition offs {A} (rows : list (list A)) : list N :=
  (λ k, len (concat (take k rows))) <$> seq 0 (S (length rows)).

#[global] Arguments offs : simpl never.
#[global] Arguments row : simpl never.

Lemma len_offs {A} (rows : list (list A)) : len (offs rows) = len rows + 1.
Proof. unfold offs, len. rewrite length_fmap, length_seq. lia. Qed.

Lemma idx_offs {A} (rows : list (list A)) i : i ≤ len rows →
  idx (offs rows) i = Some (len (concat (take (N.to_nat i) rows))).
Proof.
  intros Hi. unfold offs, idx, len in *.
  rewrite list_lookup_fmap, lookup_seq_lt by lia. simpl. done.
Qed.

Lemma take_S_idx {A} (l : list A) i x : idx l i = Some x →
  take (N.to_nat (i + 1)) l = take (N.to_nat i) l ++ [x].
Proof.
  intros H. replace (N.to_nat (i + 1)) with (S (N.to_nat i)) by lia. by apply take_S_r.
Qed.

Lemma len_concat_le {A} (rows : list (list A)) i :
  len (concat (take i rows)) ≤ len (concat rows).
Proof.
  rewrite <- (take_drop i rows) at 2. rewrite concat_app, len_app. lia.
Qed.

Lemma concat_idx {A} (rows : list (list A)) i r k :
  idx rows i = Some r → k < len r →
  idx (concat rows) (len (concat (take (N.to_nat i) rows)) + k) = idx r k.
Proof.
  intros Hi Hk. rewrite <- (take_drop_middle rows _ _ Hi) at 1.
  rewrite concat_app. simpl. rewrite idx_app_r by lia.
  replace (_ + k - _) with k by lia. by apply idx_app_l.
Qed.

Lemma concat_idx_inv {A} (rows : list (list A)) p x : idx (concat rows) p = Some x →
  ∃ i r k, idx rows i = Some r ∧ idx r k = Some x ∧
    p = len (concat (take (N.to_nat i) rows)) + k.
Proof.
  revert p. induction rows as [|r rows IH]; intros p; simpl.
  - by rewrite idx_nil.
  - destruct (decide (p < len r)).
    + rewrite idx_app_l by done. intros H. exists 0, r, p. by split_and!.
    + rewrite idx_app_r by lia. intros (i & r' & k & Hi & Hk & Hp)%IH.
      exists (i + 1), r', k. rewrite idx_cons_succ. split_and!; [done..|].
      replace (N.to_nat (i + 1)) with (S (N.to_nat i)) by lia. simpl. rewrite len_app. lia.
Qed.

Lemma row_offs {A} (rows : list (list A)) i r : idx rows i = Some r →
  row (offs rows) (concat rows) i (i + 1) = Some r.
Proof.
  intros Hi. pose proof (idx_lt _ _ _ Hi) as Hlt. unfold row.
  rewrite !idx_offs by lia. simpl. rewrite (take_S_idx _ _ _ Hi).
  rewrite concat_app, len_app. simpl. rewrite app_nil_r.
  destruct (slice_Some (concat rows) (len (concat (take (N.to_nat i) rows)))
    (len (concat (take (N.to_nat i) rows)) + len r)) as (k & -> & Hlen & Hk); [lia| |].
  - pose proof (len_concat_le rows (N.to_nat (i + 1))) as Hle.
    rewrite (take_S_idx _ _ _ Hi), concat_app, len_app in Hle. simpl in Hle.
    by rewrite app_nil_r in Hle.
  - f_equal. apply idx_ext. intros j. rewrite Hk. case_decide as Hj.
    + apply concat_idx; [done|lia].
    + destruct (idx r j) eqn:E; [|done]. apply idx_lt in E. lia.
Qed.

(** The same layout seen through a projection of the elements, as the replica
    keeps parallel arrays with common offsets. *)
Lemma concat_fmap {A B} (f : A → B) (rows : list (list A)) :
  concat (fmap (M:=list) f <$> rows) = f <$> concat rows.
Proof. induction rows as [|r rows IH]; csimpl; [done|]. by rewrite fmap_app, IH. Qed.

Lemma offs_fmap {A B} (f : A → B) (rows : list (list A)) :
  offs (fmap (M:=list) f <$> rows) = offs rows.
Proof.
  unfold offs. rewrite length_fmap. apply list_fmap_ext. intros _ k _.
  rewrite <- fmap_take, concat_fmap. by rewrite len_fmap.
Qed.

Lemma row_offs_fmap {A B} (f : A → B) (rows : list (list A)) i r : idx rows i = Some r →
  row (offs rows) (f <$> concat rows) i (i + 1) = Some (f <$> r).
Proof.
  intros Hi. rewrite <- (offs_fmap f), <- concat_fmap. apply row_offs.
  by rewrite idx_fmap, Hi.
Qed.

Lemma offs_snoc {A} (rows : list (list A)) r :
  offs (rows ++ [r]) = offs rows ++ [len (concat rows ++ r)].
Proof.
  apply idx_ext. intros i. destruct (decide (i ≤ len rows)) as [Hi|Hi].
  - rewrite idx_app_l by (rewrite len_offs; lia).
    rewrite !idx_offs by (autorewrite with lens; lia).
    by rewrite take_app_le by (unfold len in *; lia).
  - destruct (decide (i = len rows + 1)) as [->|].
    + rewrite idx_app_r by (rewrite len_offs; lia). rewrite len_offs, N.sub_diag.
      rewrite idx_offs by (autorewrite with lens; lia).
      rewrite take_ge by (rewrite length_app; unfold len; simpl; lia).
      rewrite concat_app. simpl. by rewrite app_nil_r.
    + by rewrite !idx_ge by (autorewrite with lens; rewrite ?len_offs; autorewrite with lens; lia).
Qed.

Lemma offs_nil {A} : offs (@nil (list A)) = [0].
Proof. done. Qed.

(** Offsets that start at 0, never go back and end at the length of the array
    cut it into rows. *)
Record csr_ok (o : list N) (n e : N) : Prop := {
  csr_len : len o = n + 1;
  csr_first : idx o 0 = Some 0;
  csr_mono : ∀ i a b, idx o i = Some a → idx o (i + 1) = Some b → a ≤ b;
  csr_last : idx o n = Some e;
}.

Lemma csr_le o n e i j a b : csr_ok o n e → idx o i = Some a → idx o j = Some b → i ≤ j → a ≤ b.
Proof.
  intros Ho Ha Hb Hij. replace j with (i + (j - i)) in Hb by lia. generalize dependent b.
  induction (j - i) as [|k IH] using N.peano_ind; intros b Hb; [rewrite N.add_0_r in Hb; simplify_eq; lia|].
  destruct (idx_is_Some o (i + k)) as [c Hc]; [apply idx_lt in Hb; lia|]. specialize (IH c Hc).
  replace (i + N.succ k) with (i + k + 1) in Hb by lia. pose proof (csr_mono _ _ _ Ho _ _ _ Hc Hb). lia.
Qed.

Lemma csr_offs {A} (rows : list (list A)) : csr_ok (offs rows) (len rows) (len (concat rows)).
Proof.
  split.
  - apply len_offs.
  - by rewrite idx_offs by lia.
  - intros i a b Ha Hb. pose proof (idx_lt _ _ _ Hb) as Hl. rewrite len_offs in Hl. rewrite idx_offs in Ha, Hb by lia.
    simplify_eq. destruct (idx_is_Some rows i) as [r Hr]; [lia|].
    rewrite (take_S_idx _ _ _ Hr), concat_app, len_app. lia.
  - rewrite idx_offs by done. by rewrite take_ge by (unfold len; lia).
Qed.

Lemma csr_rows {A} (flat : list A) o n : csr_ok o n (len flat) →
  ∃ rows, len rows = n ∧ offs rows = o ∧ concat rows = flat.
Proof.
  revert flat o. induction n as [|n IH] using N.peano_ind; intros flat o [Hl Hf Hm Hla].
  - rewrite Hf in Hla. assert (flat = []) as -> by (destruct flat; [done|]; injection Hla; rewrite len_cons; lia).
    exists []. split_and!; [done| |done]. rewrite offs_nil. apply idx_ext. intros i. destruct (N.eqb_spec i 0) as [->|]; [done|].
    rewrite !idx_ge by (rewrite ?Hl, ?len_cons, ?len_nil; lia). done.
  - destruct (idx_is_Some o n) as [c Hc]; [lia|].
    assert (c ≤ len flat) as Hcl by (eapply (csr_le o (N.succ n) _ n (N.succ n)); [by split|done|done|lia]).
    set (o' := take (N.to_nat (n + 1)) o).
    assert (∀ i, i ≤ n → idx o' i = idx o i) as Ho'. { intros i Hi. unfold o', idx. apply lookup_take_lt. lia. }
    assert (len o' = n + 1) as Hl' by (unfold o', len in *; rewrite length_take; lia).
    assert (len (take (N.to_nat c) flat) = c) as Hlt by (unfold len in *; rewrite length_take; lia).
    destruct (IH (take (N.to_nat c) flat) o') as (rows & Hlr & Hor & Hcr).
    { split; [done|by rewrite Ho' by lia| |by rewrite Ho', Hc, Hlt by lia]. intros i a b Ha Hb.
      pose proof (idx_lt _ _ _ Hb). rewrite Ho' in Ha, Hb by lia. by apply (Hm i). }
    exists (rows ++ [drop (N.to_nat c) flat]). split_and!.
    + rewrite len_app, Hlr, len_cons, len_nil. lia.
    + rewrite offs_snoc, Hor, Hcr, take_drop. trans (o' ++ drop (N.to_nat (n + 1)) o); [|apply take_drop]. f_equal.
      apply idx_ext. intros i. unfold idx at 2. rewrite lookup_drop. destruct (N.eqb_spec i 0) as [->|].
      * simpl. change (Some (len flat) = o !! (N.to_nat (n + 1) + 0)%nat). rewrite Nat.add_0_r.
        rewrite <- N.add_1_r in Hla. by rewrite <- Hla.
      * rewrite idx_ge by (rewrite len_cons, len_nil; lia). symmetry. apply lookup_ge_None. unfold len in *. lia.
    + rewrite concat_app, Hcr. simpl. by rewrite app_nil_r, take_drop.
Qed.

(** ** Placing items by key *)

(** Items with key [i], for the keys of [0, n), as rows. *)
Definition rows_by {A} (key : A → N) (n : N) (l : list A) : list (list A) :=
  (λ i, filter (λ x, key x = i) l) <$> range 0 n.

Lemma idx_rows_by {A} (key : A → N) n l i : i < n →
  idx (rows_by key n l) i = Some (filter (λ x, key x = i) l).
Proof. intros Hi. unfold rows_by. rewrite idx_fmap, idx_range by lia. done. Qed.

Lemma len_rows_by {A} (key : A → N) n (l : list A) : len (rows_by key n l) = n.
Proof. unfold rows_by. autorewrite with lens. lia. Qed.

Lemma rows_by_perm {A} (key : A → N) n (l : list A) :
  (∀ x, x ∈ l → key x < n) → concat (rows_by key n l) ≡ₚ l.
Proof.
  induction l as [|x l IH]; intros Hk.
  - unfold rows_by. induction (range 0 n); [done|]. simpl. done.
  - assert (key x < n) as Hx by (apply Hk; left).
    rewrite <- IH at 2 by (intros; apply Hk; by right). unfold rows_by.
    rewrite (range_app 0 (key x) n), (range_cons (key x) n) by lia.
    rewrite !fmap_app, !concat_app, !fmap_cons. simpl.
    rewrite filter_cons_True by done. simpl.
    assert (∀ lo hi, (hi ≤ key x ∨ key x < lo) →
      (λ i, filter (λ x0, key x0 = i) (x :: l)) <$> range lo hi =
      (λ i, filter (λ x0, key x0 = i) l) <$> range lo hi) as E.
    { intros lo hi Hd. apply list_fmap_ext. intros ? i Hi%list_elem_of_lookup_2%elem_of_range.
      rewrite filter_cons_False by lia. done. }
    rewrite !E by lia. symmetry. apply Permutation_middle.
Qed.

(** One round of the counting sorts' placement loop: the slot [cursor[key]] of
    three parallel arrays is filled, and the cursor advances. *)
Definition place_step {A B C} (key : N) (a : A) (b : B) (c : C)
    (st : list A * list B * list C * list N) : option (list A * list B * list C * list N) :=
  let '(ta, tb, tc, cursor) := st in
  slot ← idx cursor key;
  ta' ← upd ta slot a;
  tb' ← upd tb slot b;
  tc' ← upd tc slot c;
  cursor' ← upd cursor key (slot + 1);
  Some (ta', tb', tc', cursor').

Section place.
Context {X A B C : Type} (key : X → N) (fa : X → A) (fb : X → B) (fc : X → C).
Context (za : A) (zb : B) (zc : C) (n : N) (l : list X).
Hypothesis Hkeys : ∀ x, x ∈ l → key x < n.
Let rows := rows_by key n l.
Let start (i : N) : N := len (concat (take (N.to_nat i) rows)).
Let total := len (concat rows).

(** After the items [pre]: the k-th of them with key [i] sits in slot
    [start i + k], and cursor [i] points past the last one. *)
Let Inv (pre : list X) (st : list A * list B * list C * list N) : Prop :=
  let '(ta, tb, tc, cursor) := st in
  len ta = total ∧ len tb = total ∧ len tc = total ∧ len cursor = n ∧
  (∀ i, i < n → idx cursor i = Some (start i + len (filter (λ x, key x = i) pre))) ∧
  (∀ i k x, i < n → idx (filter (λ x, key x = i) pre) k = Some x →
     idx ta (start i + k) = Some (fa x) ∧ idx tb (start i + k) = Some (fb x) ∧
     idx tc (start i + k) = Some (fc x)).

Lemma start_lt pre x post : l = pre ++ x :: post →
  start (key x) + len (filter (λ y, key y = key x) pre) < total.
Proof.
  intros Hl. assert (key x < n) as Hx by (apply Hkeys; subst; set_solver).
  pose proof (idx_rows_by key n l (key x) Hx) as Hr.
  pose proof (len_concat_le rows (N.to_nat (key x + 1))) as Hle. unfold rows in *.
  rewrite (take_S_idx _ _ _ Hr), concat_app, len_app in Hle. simpl in Hle.
  rewrite app_nil_r, Hl, filter_app, filter_cons_True, len_app, len_cons in Hle by done.
  unfold start, total, rows. rewrite <- Hl in Hle. lia.
Qed.

(** Slots of different keys, or different ranks, are different. *)
Lemma start_inj pre x post i k : l = pre ++ x :: post → i < n →
  k < len (filter (λ y, key y = i) pre) →
  start i + k ≠ start (key x) + len (filter (λ y, key y = key x) pre).
Proof.
  intros Hl Hi Hk E. assert (key x < n) as Hx by (apply Hkeys; subst; set_solver).
  destruct (decide (i = key x)) as [->|Hne]; [lia|].
  assert (∀ j, j < n → start j + len (filter (λ y, key y = j) l) = start (j + 1)) as Hs.
  { intros j Hj. unfold start, rows. rewrite (take_S_idx _ _ _ (idx_rows_by key n l j Hj)).
    rewrite concat_app, len_app. simpl. by rewrite app_nil_r. }
  assert (∀ a b, a ≤ b → start a ≤ start b) as Hmono.
  { intros a b Hab. unfold start. replace (N.to_nat b) with (N.to_nat a + N.to_nat (b - a))%nat by lia.
    rewrite <- (take_take_drop rows). rewrite concat_app, len_app. lia. }
  assert (∀ j, len (filter (λ y, key y = j) pre) ≤ len (filter (λ y, key y = j) l)) as Hpl.
  { intros j. rewrite Hl, filter_app, len_app. lia. }
  assert (len (filter (λ y, key y = key x) pre) < len (filter (λ y, key y = key x) l)).
  { rewrite Hl, filter_app, filter_cons_True, len_app, len_cons by done. lia. }
  pose proof (Hs i Hi). pose proof (Hs (key x) Hx). pose proof (Hpl i).
  destruct (decide (i < key x)).
  - pose proof (Hmono (i + 1) (key x)). lia.
  - pose proof (Hmono (key x + 1) i). lia.
Qed.

Lemma place_step_inv pre x post st : l = pre ++ x :: post → Inv pre st →
  ∃ st', place_step (key x) (fa x) (fb x) (fc x) st = Some st' ∧ Inv (pre ++ [x]) st'.
Proof.
  intros Hl. destruct st as [[[ta tb] tc] cursor]. intros (La & Lb & Lc & Lcur & Hcur & Hval).
  assert (key x < n) as Hx by (apply Hkeys; subst; set_solver).
  pose proof (start_lt _ _ _ Hl) as Hlt. unfold place_step. rewrite (Hcur _ Hx). simpl.
  set (s := start (key x) + _) in *.
  destruct (upd_Some ta s (fa x)) as (ta' & -> & La' & Ia); [lia|]. simpl.
  destruct (upd_Some tb s (fb x)) as (tb' & -> & Lb' & Ib); [lia|]. simpl.
  destruct (upd_Some tc s (fc x)) as (tc' & -> & Lc' & Ic); [lia|]. simpl.
  destruct (upd_Some cursor (key x) (s + 1)) as (cur' & -> & Lcur' & Icur); [lia|]. simpl.
  eexists. split; [done|]. split_and!; [lia..| |].
  - intros i Hi. rewrite Icur, filter_app, len_app. case_decide as E.
    + subst i. rewrite filter_cons_True by done. unfold s. rewrite len_cons, filter_nil, len_nil.
      f_equal. lia.
    + rewrite filter_cons_False, filter_nil, len_nil, N.add_0_r by congruence. by apply Hcur.
  - intros i k y Hi. rewrite filter_app, Ia, Ib, Ic. intros Hk.
    destruct (decide (k < len (filter (λ z, key z = i) pre))) as [Hlt'|Hge].
    + rewrite idx_app_l in Hk by done.
      pose proof (start_inj _ _ _ i k Hl Hi Hlt').
      rewrite !decide_False by done. by apply Hval.
    + rewrite idx_app_r in Hk by lia. destruct (decide (key x = i)) as [<-|Hne].
      * rewrite filter_cons_True in Hk by done.
        pose proof (idx_lt _ _ _ Hk) as Hk1. rewrite len_cons, filter_nil, len_nil in Hk1.
        rewrite !decide_True by lia.
        rewrite idx_cons, decide_True in Hk by lia. by injection Hk as ->.
      * by rewrite filter_cons_False, filter_nil, idx_nil in Hk.
Qed.

Lemma place_spec (cursor : list N) :
  len cursor = n → (∀ i, i < n → idx cursor i = Some (start i)) →
  ∃ cursor',
    foldM (λ st x, place_step (key x) (fa x) (fb x) (fc x) st) l
      (mk total za, mk total zb, mk total zc, cursor) =
    Some (fa <$> concat rows, fb <$> concat rows, fc <$> concat rows, cursor').
Proof.
  intros Hcl Hc.
  destruct (foldM_inv Inv (λ st x, place_step (key x) (fa x) (fb x) (fc x) st) l
    (mk total za, mk total zb, mk total zc, cursor)) as ([[[ta tb] tc] cur] & -> & HI).
  - split_and!; [by rewrite len_mk..|done| |].
    + intros i Hi. rewrite (Hc _ Hi), filter_nil, len_nil. f_equal. lia.
    + intros i k x _ Hk. by rewrite filter_nil, idx_nil in Hk.
  - intros pre x post st. apply place_step_inv.
  - destruct HI as (La & Lb & Lc & _ & _ & Hval). exists cur.
    assert (∀ p x, idx (concat rows) p = Some x →
      idx ta p = Some (fa x) ∧ idx tb p = Some (fb x) ∧ idx tc p = Some (fc x)) as Hp.
    { intros p x (i & r & k & Hi & Hk & ->)%concat_idx_inv.
      pose proof (idx_lt _ _ _ Hi) as Hlt. unfold rows in Hlt. rewrite len_rows_by in Hlt.
      unfold rows in Hi. rewrite idx_rows_by in Hi by done. injection Hi as <-.
      by apply Hval. }
    repeat f_equal; (apply fmap_by_idx; [done|]; intros; by apply Hp).
Qed.
End place.

(** ** Degrees and offsets *)

(** [degree[key]++] for every item, in a [[]uint32]. *)
Definition count_degrees {X} (key : X → N) (n : N) (l : list X) : option (list N) :=
  foldM (λ deg x, d ← idx deg (key x); upd deg (key x) (u32 (d + 1))) l (mk n 0).

(** [offsets[i+1] = offsets[i] + uint64(degree[i])] for i in [0, n). *)
Definition prefix_offsets (n : N) (degree : list N) : option (list N) :=
  foldM (λ off i, o ← idx off i; d ← idx degree i; upd off (i + 1) (u64 (o + d)))
    (range 0 n) (mk (n + 1) 0).

Section degrees.
Context {X : Type} (key : X → N) (n : N) (l : list X).
Hypothesis Hkeys : ∀ x, x ∈ l → key x < n.
Hypothesis Hlen : len l < 2 ^ 32.
Let rows := rows_by key n l.

Lemma count_degrees_spec : ∃ deg, count_degrees key n l = Some deg ∧ len deg = n ∧
  ∀ i, i < n → idx deg i = Some (len (filter (λ x, key x = i) l)).
Proof.
  unfold count_degrees.
  destruct (foldM_inv (λ pre deg, len deg = n ∧
    ∀ i, i < n → idx deg i = Some (len (filter (λ x, key x = i) pre)))
    (λ deg x, d ← idx deg (key x); upd deg (key x) (u32 (d + 1))) l (mk n 0))
    as (deg & -> & ? & ?); [| |by eauto].
  - split; [apply len_mk|]. intros i Hi. by rewrite idx_mk.
  - intros pre x post deg Hl [Hd Hi].
    assert (key x < n) as Hx by (apply Hkeys; subst; set_solver).
    rewrite (Hi _ Hx). simpl.
    destruct (upd_Some deg (key x) (u32 (len (filter (λ y, key y = key x) pre) + 1)))
      as (deg' & -> & Hd' & Hi'); [lia|].
    eexists. split; [done|]. split; [lia|]. intros i Hlt.
    rewrite Hi', filter_app, len_app. case_decide as E.
    + subst i. rewrite filter_cons_True, filter_nil, len_cons, len_nil by done.
      rewrite u32_small; [f_equal; lia|].
      pose proof (filter_len_le (λ y, key y = key x) pre). rewrite Hl, len_app, len_cons in Hlen.
      lia.
    + rewrite filter_cons_False, filter_nil, len_nil, N.add_0_r by congruence. by apply Hi.
Qed.

Lemma concat_rows_len : len (concat rows) = len l.
Proof. unfold len. f_equal. apply Permutation_length. by apply rows_by_perm. Qed.

Lemma prefix_offsets_spec deg : len deg = n →
  (∀ i, i < n → idx deg i = Some (len (filter (λ x, key x = i) l))) →
  prefix_offsets n deg = Some (offs rows).
Proof.
  intros Hd Hdi. unfold prefix_offsets.
  assert (∀ i, len (concat (take i rows)) < 2 ^ 32) as Hb.
  { intros i. pose proof (len_concat_le rows i). rewrite concat_rows_len in *. lia. }
  destruct (for_inv (λ i off, len off = n + 1 ∧
    ∀ j, j ≤ i → idx off j = Some (len (concat (take (N.to_nat j) rows))))
    (λ off i, o ← idx off i; d ← idx deg i; upd off (i + 1) (u64 (o + d))) 0 n (mk (n + 1) 0))
    as (off & -> & Hl & Hi); [lia| | |].
  - split; [apply len_mk|]. intros j Hj. replace j with 0 by lia.
    rewrite idx_mk by lia. done.
  - intros i off _ Hin [Hl Hi]. rewrite Hi by lia. simpl. rewrite Hdi by done. simpl.
    pose proof (take_S_idx rows i _ (idx_rows_by key n l i Hin)) as Ht.
    assert (len (concat (take (N.to_nat i) rows)) + len (filter (λ x, key x = i) l) =
            len (concat (take (N.to_nat (i + 1)) rows))) as ->.
    { rewrite Ht, concat_app, len_app. simpl. by rewrite app_nil_r. }
    rewrite u64_small by (pose proof (Hb (N.to_nat (i + 1))); lia).
    destruct (upd_Some off (i + 1) (len (concat (take (N.to_nat (i + 1)) rows))))
      as (off' & -> & Hl' & Hi'); [lia|].
    eexists. split; [done|]. split; [lia|]. intros j Hj. rewrite Hi'.
    case_decide; [by subst|]. apply Hi. lia.
  - f_equal. apply idx_ext. intros i. destruct (decide (i ≤ n)).
    + rewrite Hi, idx_offs by (done || unfold rows; rewrite len_rows_by; done). done.
    + rewrite !idx_ge; [done| |lia]. rewrite len_offs. unfold rows. rewrite len_rows_by. lia.
Qed.
End degrees.

(** ** Sorting each row in place *)

(** Overwriting [l[lo:lo+len k]] with [k]. *)
Definition splice {A} (l : list A) (lo : N) (k : list A) : list A :=
  take (N.to_nat lo) l ++ k ++ drop (N.to_nat (lo + len k)) l.

Lemma splice_row {A} (rows : list (list A)) i r r' : idx rows i = Some r → len r' = len r →
  splice (concat rows) (len (concat (take (N.to_nat i) rows))) r' =
    concat (<[N.to_nat i := r']> rows).
Proof.
  intros Hi Hr. unfold splice.
  pose proof (take_drop_middle rows _ _ Hi) as Hm.
  set (pre := take (N.to_nat i) rows) in *. set (post := drop (S (N.to_nat i)) rows) in *.
  rewrite <- Hm. rewrite concat_app. simpl. unfold len in *.
  rewrite Nat2N.id, take_app_length, N2Nat.inj_add, !Nat2N.id.
  replace (length r') with (length r) by lia.
  assert (drop (length (concat pre) + length r) (concat pre ++ r ++ concat post) = concat post)
    as -> by (by rewrite <- length_app, app_assoc, drop_app_length).
  assert (N.to_nat i = length pre + 0)%nat as E.
  { unfold pre. rewrite length_take. apply lookup_lt_Some in Hi. lia. }
  rewrite E, insert_app_r. simpl. by rewrite concat_app.
Qed.

(** The loop [for i := range n { sort the slots of row i }], where [f] is what
    one call does to the three slices of a row. *)
Definition sort_rows {A B C} (f : list A → list B → list C → list A * list B * list C)
    (n : N) (offsets : list N) (st : list A * list B * list C)
    : option (list A * list B * list C) :=
  foldM (λ st i, let '(ta, tb, tc) := st in
    lo ← idx offsets i; hi ← idx offsets (i + 1);
    a ← slice ta lo hi; b ← slice tb lo hi; c ← slice tc lo hi;
    let '(a', b', c') := f a b c in
    Some (splice ta lo a', splice tb lo b', splice tc lo c')) (range 0 n) st.

Section sort_rows.
Context {X A B C : Type} (fa : X → A) (fb : X → B) (fc : X → C).
Context (f : list A → list B → list C → list A * list B * list C).
Context (g : list X → list X).
Hypothesis Hlen : ∀ r, len (g r) = len r.
Hypothesis Hf : ∀ r, f (fa <$> r) (fb <$> r) (fc <$> r) = (fa <$> g r, fb <$> g r, fc <$> g r).

Lemma offs_ext {Y Z} (rows : list (list Y)) (rows' : list (list Z)) :
  len rows = len rows' →
  (∀ i r r', idx rows i = Some r → idx rows' i = Some r' → len r = len r') →
  offs rows = offs rows'.
Proof.
  intros Hl Hr. apply idx_ext. intros i. destruct (decide (i ≤ len rows)).
  2: { rewrite !idx_ge; rewrite ?len_offs; [done|lia..]. }
  rewrite !idx_offs by lia. f_equal.
  enough (∀ k, (k ≤ length rows)%nat →
    len (concat (take k rows)) = len (concat (take k rows'))) as E.
  { apply E. unfold len in *. lia. }
  induction k as [|k IH]; intros Hk; [done|].
  destruct (idx_is_Some rows (N.of_nat k)) as [r Hr1]; [unfold len; lia|].
  destruct (idx_is_Some rows' (N.of_nat k)) as [r' Hr2]; [unfold len in *; lia|].
  replace (S k) with (N.to_nat (N.of_nat k + 1)) by lia.
  rewrite (take_S_idx _ _ _ Hr1), (take_S_idx _ _ _ Hr2), !concat_app, !len_app, Nat2N.id.
  rewrite IH by lia. simpl. rewrite !app_nil_r. f_equal. by eapply Hr.
Qed.

(** The rows after the first [i] have been sorted. *)
Let step (rows : list (list X)) (i : N) : list (list X) :=
  (g <$> take (N.to_nat i) rows) ++ drop (N.to_nat i) rows.

Lemma step_next rows i r : idx rows i = Some r →
  idx (step rows i) i = Some r ∧ step rows (i + 1) = <[N.to_nat i := g r]> (step rows i).
Proof.
  intros Hr. pose proof (idx_lt _ _ _ Hr) as Hi.
  assert (length (g <$> take (N.to_nat i) rows) = N.to_nat i) as Hl.
  { rewrite length_fmap, length_take. unfold len in Hi. lia. }
  assert (drop (N.to_nat i) rows = r :: drop (N.to_nat (i + 1)) rows) as Hd.
  { replace (N.to_nat (i + 1)) with (S (N.to_nat i)) by lia. by apply drop_S. }
  unfold step. rewrite (take_S_idx _ _ _ Hr), fmap_app, Hd. split.
  - unfold idx. rewrite lookup_app_r by lia. by rewrite Hl, Nat.sub_diag.
  - rewrite insert_app_r_alt by lia. rewrite Hl, Nat.sub_diag. simpl.
    by rewrite <- app_assoc.
Qed.

Lemma step_len rows i : len (step rows i) = len rows.
Proof.
  unfold step. rewrite len_app, len_fmap, <- len_app. by rewrite take_drop.
Qed.

Lemma step_offs rows i : i ≤ len rows → offs (step rows i) = offs rows.
Proof.
  induction i as [|i IH] using N.peano_ind; intros Hi; [done|].
  replace (N.succ i) with (i + 1) in * by lia.
  destruct (idx_is_Some rows i) as [r Hr]; [lia|].
  destruct (step_next rows i r Hr) as [Hs ->].
  rewrite <- IH by lia. apply offs_ext; [apply len_insert|].
  intros j r1 r2. unfold idx in *. destruct (decide (N.to_nat j = N.to_nat i)) as [E|E].
  - rewrite E, list_lookup_insert_eq by (by eapply lookup_lt_Some). intros [= <-].
    rewrite Hs. intros [= <-]. apply Hlen.
  - rewrite list_lookup_insert_ne by done. congruence.
Qed.

Lemma splice_fmap {Y} (fy : X → Y) l lo k :
  splice (fy <$> l) lo (fy <$> k) = fy <$> splice l lo k.
Proof.
  unfold splice. by rewrite len_fmap, !fmap_app, fmap_take, fmap_drop.
Qed.

Lemma splice_step {Y} (fy : X → Y) rows i r : idx rows i = Some r →
  splice (fy <$> concat (step rows i)) (len (concat (take (N.to_nat i) rows))) (fy <$> g r) =
  fy <$> concat (step rows (i + 1)).
Proof.
  intros Hr. pose proof (idx_lt _ _ _ Hr) as Hi.
  destruct (step_next rows i r Hr) as [Hs ->].
  assert (len (concat (take (N.to_nat i) rows)) =
          len (concat (take (N.to_nat i) (step rows i)))) as ->.
  { pose proof (idx_offs rows i) as E1. pose proof (idx_offs (step rows i) i) as E2.
    rewrite step_offs, E1, step_len in E2 by lia. injection E2; [done|lia]. }
  rewrite splice_fmap. f_equal. apply splice_row with r; [done|apply Hlen].
Qed.

Lemma sort_rows_spec (rows : list (list X)) :
  sort_rows f (len rows) (offs rows) (fa <$> concat rows, fb <$> concat rows, fc <$> concat rows) =
  Some (fa <$> concat (g <$> rows), fb <$> concat (g <$> rows), fc <$> concat (g <$> rows)).
Proof.
  unfold sort_rows.
  edestruct (for_inv (λ i st, st =
    (fa <$> concat (step rows i), fb <$> concat (step rows i), fc <$> concat (step rows i))))
    as (st & -> & ->); [apply N.le_0_l|done| |].
  - intros i st _ Hi ->. destruct (idx_is_Some rows i Hi) as [r Hr].
    destruct (step_next rows i r Hr) as [Hs _].
    pose proof (row_offs_fmap fa _ _ _ Hs) as Ra. pose proof (row_offs_fmap fb _ _ _ Hs) as Rb.
    pose proof (row_offs_fmap fc _ _ _ Hs) as Rc.
    unfold row in *. rewrite step_offs in * by lia. rewrite !idx_offs in * by lia. simpl in *.
    rewrite Ra, Rb, Rc. simpl. rewrite Hf. eexists. split; [done|].
    by rewrite !splice_step.
  - unfold step. rewrite take_ge, drop_ge by (unfold len; lia). by rewrite app_nil_r.
Qed.
End sort_rows.

(** ** Walking all slots

    [slots rows] lists every slot with its row: [(i, j, x)] when slot [j]
    holds [x] and belongs to row [i]. *)
Fixpoint slots_from {A} (i o : N) (rows : list (list A)) : list (N * N * A) :=
  match rows with
  | [] => []
  | r :: rows' =>
      zip_with (λ j x, (i, j, x)) (range o (o + len r)) r ++ slots_from (i + 1) (o + len r) rows'
  end.
Definition slots {A} (rows : list (list A)) : list (N * N * A) := slots_from 0 0 rows.

Lemma idx_zip_with {A B C} (f : A → B → C) l k i :
  idx (zip_with f l k) i = x ← idx l i; y ← idx k i; Some (f x y).
Proof. unfold idx. rewrite lookup_zip_with. by destruct (l !! _), (k !! _). Qed.

Lemma len_zip_with {A B C} (f : A → B → C) l k :
  len l = len k → len (zip_with f l k) = len l.
Proof. unfold len. intros. rewrite length_zip_with. lia. Qed.

(** Slot [j] of the walk is slot [j] of the flat array. *)
Lemma idx_slots_from {A} i o (rows : list (list A)) j :
  match idx (slots_from i o rows) j with
  | Some (i', j', x) => j' = o + j ∧ idx (concat rows) j = Some x ∧
      i ≤ i' ∧ ∃ r k, idx rows (i' - i) = Some r ∧ idx r k = Some x ∧
        j = len (concat (take (N.to_nat (i' - i)) rows)) + k
  | None => idx (concat rows) j = None
  end.
Proof.
  revert i o j. induction rows as [|r rows IH]; intros i o j; simpl; [by rewrite idx_nil|].
  assert (len (zip_with (λ j x, (i, j, x)) (range o (o + len r)) r) = len r) as Hl.
  { rewrite len_zip_with; rewrite len_range; lia. }
  destruct (decide (j < len r)) as [Hj|Hj].
  - rewrite !idx_app_l, idx_zip_with, idx_range by lia. simpl.
    destruct (idx_is_Some r j Hj) as [x Hx]. rewrite Hx. simpl.
    rewrite N.sub_diag. split_and!; [done..|]. exists r, j. done.
  - rewrite !idx_app_r, Hl by lia. specialize (IH (i + 1) (o + len r) (j - len r)).
    destruct (idx (slots_from _ _ _) _) as [[[i' j'] x]|]; [|done].
    destruct IH as (-> & Hx & Hi & r' & k & Hr' & Hk & Hj'). split_and!; [lia|done|lia|].
    exists r', k. split_and!; [|done|].
    + rewrite idx_cons, decide_False by lia. by replace (i' - i - 1) with (i' - (i + 1)) by lia.
    + replace (N.to_nat (i' - i)) with (S (N.to_nat (i' - (i + 1)))) by lia. simpl.
      rewrite len_app. lia.
Qed.

Lemma idx_slots {A} (rows : list (list A)) j i j' x : idx (slots rows) j = Some (i, j', x) →
  j' = j ∧ idx (concat rows) j = Some x ∧ ∃ r k, idx rows i = Some r ∧ idx r k = Some x ∧
    j = len (concat (take (N.to_nat i) rows)) + k.
Proof.
  intros H. pose proof (idx_slots_from 0 0 rows j) as Hs. unfold slots in H. rewrite H in Hs.
  rewrite N.sub_0_r in Hs. destruct Hs as (-> & ? & _ & ?). by split_and!.
Qed.

Lemma elem_of_zip_with {A B C} (f : A → B → C) l k z :
  z ∈ zip_with f l k → ∃ x y, z = f x y ∧ x ∈ l ∧ y ∈ k.
Proof. intros (p & Hp)%list_elem_of_lookup. apply lookup_zip_with_Some in Hp as (x & y & -> & Hx & Hy). exists x, y. split_and!; [done|by eapply list_elem_of_lookup_2..]. Qed.

(** A row is what the walk lists under its number. *)
Lemma slots_row_from {A} i o (rows : list (list A)) k :
  snd <$> filter (λ x : N * N * A, x.1.1 = i + k) (slots_from i o rows) = default [] (idx rows k).
Proof.
  revert i o k. induction rows as [|r rows IH]; intros i o k; [done|]. cbn [slots_from].
  rewrite filter_app, fmap_app, idx_cons. case_decide as Hk.
  - rewrite filter_all by (intros x (j & y & -> & _)%elem_of_zip_with; simpl; lia).
    rewrite filter_nil_none, app_nil_r, fmap_zip_with_r; [done|done|unfold range; rewrite length_fmap, length_seq; unfold len; lia|].
    intros [[i' j] y] (p & Hp)%elem_of_idx. pose proof (idx_slots_from (i + 1) (o + len r) rows p) as Hs.
    rewrite Hp in Hs. simpl in *. lia.
  - rewrite filter_nil_none; [|intros x (j & y & -> & _)%elem_of_zip_with; simpl; lia]. simpl.
    rewrite <- (IH (i + 1) (o + len r) (k - 1)). by replace (i + 1 + (k - 1)) with (i + k) by lia.
Qed.
Lemma slots_row {A} (rows : list (list A)) k r : idx rows k = Some r →
  snd <$> filter (λ x : N * N * A, x.1.1 = k) (slots rows) = r.
Proof. intros Hr. pose proof (slots_row_from 0 0 rows k) as Hs. by rewrite Hr in Hs. Qed.

Lemma len_slots {A} (rows : list (list A)) : len (slots rows) = len (concat rows).
Proof.
  unfold slots. generalize 0 at 2; generalize 0. induction rows as [|r rows IH]; intros i o; simpl; [done|].
  rewrite !len_app, IH, len_zip_with by (rewrite len_range; lia). rewrite len_range. lia.
Qed.

Lemma slots_idx {A} (rows : list (list A)) j x : idx (concat rows) j = Some x →
  ∃ i, idx (slots rows) j = Some (i, j, x).
Proof.
  intros Hx. pose proof (idx_lt _ _ _ Hx) as Hl. rewrite <- len_slots in Hl.
  destruct (idx_is_Some _ _ Hl) as [[[i j'] y] Hy].
  destruct (idx_slots _ _ _ _ _ Hy) as (-> & ? & _). exists i. congruence.
Qed.

(** The slots of row [i] are the run [offsets[i] .. offsets[i+1]). *)
Lemma slot_of_row {A} (rows : list (list A)) i r k x : idx rows i = Some r → idx r k = Some x →
  idx (slots rows) (len (concat (take (N.to_nat i) rows)) + k) =
    Some (i, len (concat (take (N.to_nat i) rows)) + k, x).
Proof.
  intros Hr Hk. pose proof (concat_idx rows i r k Hr (idx_lt _ _ _ Hk)) as Hc.
  rewrite Hk in Hc. destruct (slots_idx _ _ _ Hc) as [i' Hi']. rewrite Hi'.
  destruct (idx_slots _ _ _ _ _ Hi') as (_ & _ & r' & k' & Hr' & Hk' & E).
  enough (i' = i) as -> by done.
  assert (∀ a b ra, idx rows a = Some ra → a < b →
    len (concat (take (N.to_nat a) rows)) + len ra ≤ len (concat (take (N.to_nat b) rows))) as Hm.
  { intros a b ra Ha Hab. transitivity (len (concat (take (N.to_nat (a + 1)) rows))).
    - rewrite (take_S_idx _ _ _ Ha), concat_app, len_app. simpl. rewrite app_nil_r. lia.
    - replace (N.to_nat b) with (N.to_nat (a + 1) + N.to_nat (b - (a + 1)))%nat by lia.
      rewrite <- (take_take_drop rows), concat_app, len_app. lia. }
  apply idx_lt in Hk, Hk'.
  destruct (decide (i < i')); [specialize (Hm i i' r Hr); lia|].
  destruct (decide (i' < i)); [specialize (Hm i' i r' Hr'); lia|]. lia.
Qed.

Lemma take_cons_N {A} k (x : A) l :
  take (N.to_nat (k + 1)) (x :: l) = x :: take (N.to_nat k) l.
Proof. by replace (N.to_nat (k + 1)) with (S (N.to_nat k)) by lia. Qed.

(** The nested loop over rows and their slots is one loop over all slots. *)
Lemma foldM_slots_from {A S} (body : S → N → N → option S) i o (rows : list (list A)) s
    (getlo gethi : N → option N) :
  (∀ k, k < len rows → getlo (i + k) = Some (o + len (concat (take (N.to_nat k) rows))) ∧
     gethi (i + k) = Some (o + len (concat (take (N.to_nat (k + 1)) rows)))) →
  foldM (λ st i, lo ← getlo i; hi ← gethi i; foldM (λ st j, body st i j) (range lo hi) st)
    (range i (i + len rows)) s =
  foldM (λ st '(i, j, _), body st i j) (slots_from i o rows) s.
Proof.
  revert i o s. induction rows as [|r rows IH]; intros i o s H.
  { rewrite len_nil, range_nil by lia. done. }
  rewrite len_cons in *. rewrite range_cons by lia. simpl.
  destruct (H 0) as [Hlo Hhi]; [lia|]. rewrite !N.add_0_r in *. simpl in Hlo, Hhi.
  rewrite app_nil_r in Hhi. rewrite Hlo, Hhi. simpl. rewrite foldM_app.
  assert (foldM (λ st '(i0, j, _), body st i0 j)
            (zip_with (λ j x, (i, j, x)) (range o (o + len r)) r) s =
          foldM (λ st j, body st i j) (range o (o + len r)) s) as ->.
  { clear. revert o s. induction r as [|x r IHr]; intros o s.
    - rewrite range_nil by (rewrite len_nil; lia). done.
    - rewrite len_cons, range_cons by lia. simpl. destruct (body s i o); simpl; [|done].
      replace (o + (len r + 1)) with (o + 1 + len r) by lia. apply IHr. }
  destruct (foldM _ (range o _) s) as [s'|]; simpl; [|done].
  replace (i + (len rows + 1)) with (i + 1 + len rows) by lia. apply IH.
  intros k Hk. destruct (H (k + 1)) as [Hlo' Hhi']; [lia|].
  replace (i + (k + 1)) with (i + 1 + k) in * by lia. rewrite Hlo', Hhi'.
  rewrite !take_cons_N. simpl. rewrite !len_app. split; f_equal; lia.
Qed.

Lemma foldM_slots {A S} (body : S → N → N → option S) (rows : list (list A)) s :
  foldM (λ st i, lo ← idx (offs rows) i; hi ← idx (offs rows) (i + 1);
           foldM (λ st j, body st i j) (range lo hi) st) (range 0 (len rows)) s =
  foldM (λ st '(i, j, _), body st i j) (slots rows) s.
Proof.
  pose proof (foldM_slots_from body 0 0 rows s (λ i, idx (offs rows) i) (λ i, idx (offs rows) (i + 1)))
    as H.
  rewrite N.add_0_l in H. apply H. intros k Hk. rewrite !N.add_0_l.
  split; apply idx_offs; lia.
Qed.
