(* ===== verification/Codec.v ===== *)
(** * Bytes on the wire

    The lower half of [internal/engine/snapshot/file.go]: little-endian
    integers, the running CRC32, and [binWriter] and [binReader], which carry
    the first error along and do nothing once there is one. *)

From S2P Require Import Prelude.
From stdpp Require Import options.
Unset Default Proof Using.
From Stdlib Require Import Ascii.
#[local] Open Scope N_scope.

Lemma to_nat_len {A} (l : list A) : N.to_nat (len l) = length l.
Proof. apply Nat2N.id. Qed.

(** ** Integers as bytes *)

(** [binary.LittleEndian.PutUint16/32/64] and [Uint16/32/64], for [k] bytes. *)
Fixpoint le_bytes (k : nat) (v : N) : bytes :=
  match k with O => [] | S k => ascii_of_N (v mod 256) :: le_bytes k (v / 256) end.
Fixpoint le_value (bs : bytes) : N :=
  match bs with [] => 0 | b :: bs => N_of_ascii b + 256 * le_value bs end.

(** [uint16(v)] of an int16 and back, for [w] bits. *)
Definition to_unsigned (w : N) (z : Z) : N := Z.to_N (z mod 2 ^ Z.of_N w).
Definition to_signed (w n : N) : Z :=
  if n <? 2 ^ (w - 1) then Z.of_N n else (Z.of_N n - 2 ^ Z.of_N w)%Z.

Lemma len_le_bytes k v : len (le_bytes k v) = N.of_nat k.
Proof. revert v. induction k as [|k IH]; intros v; simpl; [done|]. rewrite len_cons, IH. lia. Qed.

Lemma N_ascii v : v < 256 → N_of_ascii (ascii_of_N v) = v.
Proof. apply N_ascii_embedding. Qed.

Lemma le_value_bytes k v : v < 256 ^ N.of_nat k → le_value (le_bytes k v) = v.
Proof.
  revert v. induction k as [|k IH]; intros v Hv; simpl.
  - rewrite N.pow_0_r in Hv. lia.
  - rewrite N_ascii by (apply N.mod_lt; lia). rewrite IH.
    + pose proof (N.div_mod' v 256). lia.
    + apply N.Div0.div_lt_upper_bound. rewrite <- N.pow_succ_r'. by replace (N.succ (N.of_nat k)) with (N.of_nat (S k)) by lia.
Qed.

Lemma to_signed_unsigned w z : 0 < w → (- 2 ^ (Z.of_N w - 1) ≤ z < 2 ^ (Z.of_N w - 1))%Z →
  to_unsigned w z < 2 ^ w ∧ to_signed w (to_unsigned w z) = z.
Proof.
  intros Hw Hz. unfold to_signed, to_unsigned.
  assert (2 ^ Z.of_N w = 2 * 2 ^ (Z.of_N w - 1))%Z as Hp by (rewrite <- Z.pow_succ_r by lia; f_equal; lia).
  pose proof (Z.mod_pos_bound z (2 ^ Z.of_N w) ltac:(lia)) as Hb.
  split.
  { apply N2Z.inj_lt. rewrite Z2N.id, N2Z.inj_pow by lia. lia. }
  assert ((2 ^ Z.of_N w)%Z ≠ 0%Z) by lia.
  destruct (N.ltb_spec (Z.to_N (z mod 2 ^ Z.of_N w)) (2 ^ (w - 1))) as [Hl|Hl]; rewrite Z2N.id by lia.
  - apply N2Z.inj_lt in Hl. rewrite Z2N.id, N2Z.inj_pow, N2Z.inj_sub in Hl by lia. simpl in Hl.
    destruct (decide (0 ≤ z)%Z); [apply Z.mod_small; lia|].
    rewrite <- (Z_mod_plus_full z 1), Z.mod_small in Hl by lia. lia.
  - apply N2Z.inj_le in Hl. rewrite Z2N.id, N2Z.inj_pow, N2Z.inj_sub in Hl by lia. simpl in Hl.
    destruct (decide (0 ≤ z)%Z); [rewrite Z.mod_small in Hl by lia; lia|].
    rewrite <- (Z_mod_plus_full z 1), Z.mod_small by lia. lia.
Qed.

#[global] Arguments le_bytes : simpl never.

(** ** CRC32

    [hash/crc32] with the IEEE polynomial: the table is indexed by a byte, and
    [Sum32] of the bytes written so far is the state itself. *)
Definition crc_poly : N := 3988292384.
Definition crc_bit (c : N) : N :=
  if N.testbit c 0 then N.lxor (N.shiftr c 1) crc_poly else N.shiftr c 1.
Definition crc_table (i : N) : N := Nat.iter 8 crc_bit i.
Definition crc_byte (c : N) (b : ascii) : N :=
  N.lxor (crc_table (N.lxor (c mod 256) (N_of_ascii b))) (N.shiftr c 8).
Definition crc_not (c : N) : N := N.lxor c 4294967295.
Definition crc_update (crc : N) (p : bytes) : N := crc_not (foldl crc_byte (crc_not crc) p).

Example crc_check : crc_update 0 (String.list_ascii_of_string "123456789") = 3421780262.
Proof. vm_compute. reflexivity. Qed.

Lemma crc_not_not c : crc_not (crc_not c) = c.
Proof. unfold crc_not. by rewrite N.lxor_assoc, N.lxor_nilpotent, N.lxor_0_r. Qed.
Lemma crc_update_nil c : crc_update c [] = c.
Proof. apply crc_not_not. Qed.
Lemma crc_update_app c p q : crc_update (crc_update c p) q = crc_update c (p ++ q).
Proof. unfold crc_update. by rewrite crc_not_not, foldl_app. Qed.

(** Every state fits 32 bits. *)
Lemma lxor_lt a b w : a < 2 ^ w → b < 2 ^ w → N.lxor a b < 2 ^ w.
Proof.
  intros Ha Hb. destruct (decide (N.lxor a b = 0)) as [->|Hn]; [lia|].
  apply N.log2_lt_pow2; [lia|]. eapply N.le_lt_trans; [apply N.log2_lxor|].
  destruct (decide (w = 0)) as [->|Hw].
  { rewrite N.pow_0_r in *. replace a with 0 in * by lia. replace b with 0 in * by lia. done. }
  apply N.max_lub_lt.
  - destruct (decide (a = 0)) as [->|]; [simpl; lia|]. apply N.log2_lt_pow2; lia.
  - destruct (decide (b = 0)) as [->|]; [simpl; lia|]. apply N.log2_lt_pow2; lia.
Qed.
Lemma shiftr_lt a k w : a < 2 ^ w → N.shiftr a k < 2 ^ w.
Proof.
  intros Ha. rewrite N.shiftr_div_pow2. eapply N.le_lt_trans; [|exact Ha]. apply N.Div0.div_le_upper_bound.
  assert (1 ≤ 2 ^ k) by (apply N.lt_pred_le, N.neq_0_lt_0, N.pow_nonzero; lia). nia.
Qed.
Lemma crc_bit_lt c : c < 2 ^ 32 → crc_bit c < 2 ^ 32.
Proof. intros Hc. unfold crc_bit. case_match; [apply lxor_lt; [|done]|]; by apply shiftr_lt. Qed.
Lemma crc_byte_lt c b : c < 2 ^ 32 → crc_byte c b < 2 ^ 32.
Proof.
  intros Hc. apply lxor_lt; [|by apply shiftr_lt]. unfold crc_table.
  assert (N.lxor (c mod 256) (N_of_ascii b) < 2 ^ 32) as H0.
  { apply lxor_lt; [|eapply N.lt_trans; [apply N_ascii_bounded|done]].
    eapply N.lt_trans; [apply N.mod_lt; lia|done]. }
  revert H0. generalize (N.lxor (c mod 256) (N_of_ascii b)) as d. intros d Hd.
  do 8 apply crc_bit_lt. done.
Qed.
Lemma crc_update_lt c p : c < 2 ^ 32 → crc_update c p < 2 ^ 32.
Proof.
  intros Hc. unfold crc_update, crc_not. apply lxor_lt; [|done].
  assert (N.lxor c 4294967295 < 2 ^ 32) as Hi by by apply lxor_lt.
  revert Hi. generalize (N.lxor c 4294967295) as d. induction p as [|b p IH]; intros d Hd; simpl; [done|].
  apply IH. by apply crc_byte_lt.
Qed.

(** ** Writing *)

(** An [io.Writer]: the second result says that [Write] returned an error. *)
Class IoWriter (W : Type) := Write : W → bytes → W * bool.

(** [io.MultiWriter(w, h)] for a running checksum [h]: the writers are given
    the bytes in turn, and the first error ends it. *)
#[global] Instance multi_writer `{IoWriter W} : IoWriter (W * N) := λ wh p,
  let '(w, err) := Write wh.1 p in if err then ((w, wh.2), true) else ((w, crc_update wh.2 p), false).

Record binWriter (W : Type) := mkBinWriter { bw_w : W; bw_err : bool }.
#[global] Arguments mkBinWriter {W}.
#[global] Arguments bw_w {W}.
#[global] Arguments bw_err {W}.

Section writer.
Context `{IoWriter W}.

Definition bw_write (p : bytes) (bw : binWriter W) : binWriter W :=
  if bw_err bw then bw else let '(w, err) := Write (bw_w bw) p in mkBinWriter w err.
Definition bw_u8 (v : N) := bw_write (le_bytes 1 v).
Definition bw_u16 (v : N) := bw_write (le_bytes 2 v).
Definition bw_i16 (v : Z) := bw_u16 (to_unsigned 16 v).
Definition bw_u32 (v : N) := bw_write (le_bytes 4 v).
Definition bw_i32 (v : Z) := bw_u32 (to_unsigned 32 v).
Definition bw_u64 (v : N) := bw_write (le_bytes 8 v).
Definition bw_f64 (v : float64) := bw_u64 v.
Definition bw_bytes (p : bytes) := bw_write p.
Definition bw_str (s : string) (bw : binWriter W) : binWriter W :=
  bw_write (String.list_ascii_of_string s) (bw_u32 (u32 (N.of_nat (String.length s))) bw).

(** The arrays, written in one go; an empty one writes nothing. *)
Definition bw_array {A} (enc : A → bytes) (s : list A) (bw : binWriter W) : binWriter W :=
  if bw_err bw || (len s =? 0) then bw else bw_write (concat (enc <$> s)) bw.
Definition bw_u64s := bw_array (le_bytes 8).
Definition bw_u32s := bw_array (le_bytes 4).
Definition bw_i16s := bw_array (λ v, le_bytes 2 (to_unsigned 16 v)).
End writer.

(** [wrote w p w'] says that what left [w] for [w'] is [p]. *)
Class WriterLaws W `{IoWriter W} (wrote : W → bytes → W → Prop) := {
  wrote_nil w : wrote w [] w;
  wrote_app w1 w2 w3 p q : wrote w1 p w2 → wrote w2 q w3 → wrote w1 (p ++ q) w3;
  wrote_Write w p w' : Write w p = (w', false) → wrote w p w';
}.

#[global] Instance multi_laws `{WriterLaws W wrote} :
  WriterLaws (W * N) (λ w p w', wrote w.1 p w'.1 ∧ w'.2 = crc_update w.2 p).
Proof.
  split.
  - intros w. split; [apply wrote_nil|by rewrite crc_update_nil].
  - intros w1 w2 w3 p q [Hp Ep] [Hq Eq]. split; [by eapply wrote_app|]. by rewrite Eq, Ep, crc_update_app.
  - intros [w h] p [w' h'] E. unfold Write, multi_writer in E. simpl in *.
    destruct (Write w p) as [w1 err] eqn:Ew. destruct err; [done|]. simplify_eq. split; [by apply wrote_Write|done].
Qed.

Section writer_spec.
Context `{WriterLaws W wrote}.

(** [f] writes [enc], or ends with an error. *)
Definition puts (f : binWriter W → binWriter W) (enc : bytes) : Prop := ∀ bw,
  bw_err (f bw) = false → bw_err bw = false ∧ wrote (bw_w bw) enc (bw_w (f bw)).

Lemma puts_id : puts (λ bw, bw) [].
Proof. intros bw E. split; [done|apply wrote_nil]. Qed.
Lemma puts_app f g e1 e2 : puts f e1 → puts g e2 → puts (λ bw, g (f bw)) (e1 ++ e2).
Proof.
  intros Hf Hg bw E. destruct (Hg _ E) as [E1 W2]. destruct (Hf _ E1) as [E0 W1].
  split; [done|]. by eapply wrote_app.
Qed.
Lemma puts_write p : puts (bw_write p) p.
Proof.
  intros bw. unfold bw_write. destruct (bw_err bw) eqn:Eb; [by rewrite Eb|].
  destruct (Write (bw_w bw) p) as [w err] eqn:Ew. simpl. intros ->. split; [done|by apply wrote_Write].
Qed.
Lemma puts_array {A} (enc : A → bytes) s : puts (bw_array enc s) (concat (enc <$> s)).
Proof.
  intros bw. unfold bw_array. destruct (bw_err bw) eqn:Eb; simpl; [by rewrite Eb|].
  destruct (N.eqb_spec (len s) 0) as [El|_].
  2: { intros E. destruct (puts_write _ bw E) as [_ ?]. done. }
  intros _.
  assert (s = []) as -> by (destruct s; [done|]; rewrite len_cons in El; lia). split; [done|apply wrote_nil].
Qed.
Lemma puts_fold {A} (f : A → binWriter W → binWriter W) (enc : A → bytes) l :
  (∀ x, x ∈ l → puts (f x) (enc x)) → puts (λ bw, foldl (λ bw x, f x bw) bw l) (concat (enc <$> l)).
Proof.
  induction l as [|x l IH]; intros Hf; simpl; [apply puts_id|].
  apply (puts_app (f x) (λ bw, foldl _ bw l)); [apply Hf; left|apply IH; intros; apply Hf; by right].
Qed.

Definition str_bytes (s : string) : bytes :=
  le_bytes 4 (u32 (N.of_nat (String.length s))) ++ String.list_ascii_of_string s.
Lemma puts_str s : puts (bw_str s) (str_bytes s).
Proof. apply (puts_app (bw_u32 _) (bw_write _)); apply puts_write. Qed.
End writer_spec.

#[global] Arguments puts {W} wrote f enc.

(** ** Reading

    The rest of the file and the checksum of what was read; [br_limited] and
    [br_remaining] are the byte budget. A nil slice is an empty one: it is
    only returned with the error set, which the caller finds. *)

Record binReader := mkBinReader {
  br_data : bytes; br_crc : N; br_err : bool; br_limited : bool; br_remaining : Z }.
Definition rd (A : Type) : Type := binReader → A * binReader.
Definition rd_ret {A} (x : A) : rd A := λ br, (x, br).
Definition rd_bind {A B} (m : rd A) (f : A → rd B) : rd B := λ br, let '(x, br') := m br in f x br'.

Declare Scope rd_scope.
Delimit Scope rd_scope with rd.
Notation "'let*' x ':=' m 'in' k" := (rd_bind m (λ x, k))
  (at level 10, x pattern, m at level 100, k at level 200) : rd_scope.

Definition br_fail (br : binReader) : binReader :=
  mkBinReader (br_data br) (br_crc br) true (br_limited br) (br_remaining br).
(** [br.err = ...]. *)
Definition rd_fail : rd () := λ br, ((), br_fail br).
Definition rd_err : rd bool := λ br, (br_err br, br).

Definition maxReadAlloc : N := 1099511627776.

Definition br_claim (n width : N) : rd bool := λ br,
  if br_err br then (false, br)
  else if negb (br_limited br) then (true, br)
  else if (br_remaining br <? 0)%Z || (Z.to_N (br_remaining br) / width <? n) then (false, br_fail br)
  else (true, br).

(** [io.ReadFull] into [n] bytes; a short read takes what there is. *)
Definition br_read (n : N) : rd (option bytes) := λ br,
  if br_err br then (None, br)
  else if len (br_data br) <? n then
    (None, mkBinReader [] (crc_update (br_crc br) (br_data br)) true (br_limited br) (br_remaining br))
  else
    let buf := take (N.to_nat n) (br_data br) in
    (Some buf, mkBinReader (drop (N.to_nat n) (br_data br)) (crc_update (br_crc br) buf) false
                 (br_limited br) (br_remaining br - Z.of_N n)).

Definition br_uint (k : N) : rd N := λ br,
  let '(b, br') := br_read k br in (match b with None => 0 | Some b => le_value b end, br').
Definition br_u8 : rd N := br_uint 1.
Definition br_u16 : rd N := br_uint 2.
Definition br_i16 : rd Z := (let* v := br_u16 in rd_ret (to_signed 16 v))%rd.
Definition br_u32 : rd N := br_uint 4.
Definition br_i32 : rd Z := (let* v := br_u32 in rd_ret (to_signed 32 v))%rd.
Definition br_u64 : rd N := br_uint 8.
Definition br_f64 : rd float64 := br_u64.

Definition br_bytes (n : N) : rd bytes := λ br,
  if br_err br then ([], br)
  else if maxReadAlloc <? n then ([], br_fail br)
  else
    let '(ok, br) := br_claim n 1 br in
    if negb ok then ([], br) else let '(b, br) := br_read n br in (default [] b, br).
Definition br_str : rd string :=
  (let* n := br_u32 in let* b := br_bytes n in rd_ret (String.string_of_list_ascii b))%rd.

(** The value at every [k]th byte: [out[i] = get(buf[i*k:])]. *)
Fixpoint chunks {A} (get : bytes → A) (k : nat) (n : nat) (buf : bytes) : list A :=
  match n with O => [] | S n => get (take k buf) :: chunks get k n (drop k buf) end.
Definition br_array {A} (get : bytes → A) (k : N) (n : N) : rd (list A) := λ br,
  if br_err br then ([], br)
  else if maxReadAlloc / k <? n then ([], br_fail br)
  else
    let '(ok, br) := br_claim n k br in
    if negb ok then ([], br)
    else if n =? 0 then ([], br)
    else
      let '(b, br) := br_read (n * k) br in
      (match b with None => [] | Some buf => chunks get (N.to_nat k) (N.to_nat n) buf end, br).
Definition br_u64s : N → rd (list N) := br_array le_value 8.
Definition br_u32s : N → rd (list N) := br_array le_value 4.
Definition br_i16s : N → rd (list Z) := br_array (λ b, to_signed 16 (le_value b)) 2.

(** [n] rounds of a loop that fills a slice. *)
Fixpoint rd_times {A} (n : nat) (m : rd A) : rd (list A) :=
  match n with
  | O => rd_ret []
  | S n => (let* x := m in let* l := rd_times n m in rd_ret (x :: l))%rd
  end.

(** *** Reading back what was written *)

(** The reader when [enc] has been read and [rest] is left. *)
Definition br_after (enc rest : bytes) (br : binReader) : binReader :=
  mkBinReader rest (crc_update (br_crc br) enc) false (br_limited br) (br_remaining br - Z.of_N (len enc)).
(** On [enc], [m] gives [x]. *)
Definition reads {A} (m : rd A) (enc : bytes) (x : A) : Prop := ∀ br rest,
  br_data br = enc ++ rest → br_err br = false →
  (br_limited br = true → Z.of_N (len enc) ≤ br_remaining br)%Z → m br = (x, br_after enc rest br).

Lemma reads_ret {A} (x : A) : reads (rd_ret x) [] x.
Proof.
  intros [d c e l r] rest Hd He _. simpl in *. subst. unfold rd_ret, br_after. simpl.
  by rewrite crc_update_nil, Z.sub_0_r.
Qed.
Lemma reads_bind {A B} (m : rd A) (f : A → rd B) e1 e2 x y :
  reads m e1 x → reads (f x) e2 y → reads (rd_bind m f) (e1 ++ e2) y.
Proof.
  intros Hm Hf br rest Hd He Hr. unfold rd_bind. rewrite len_app in Hr.
  rewrite (Hm br (e2 ++ rest)) by (rewrite ?Hd, <- ?(assoc_L (++)); done || (intros Hl; specialize (Hr Hl); lia)).
  rewrite (Hf _ rest); [|done|done|].
  - unfold br_after. simpl. rewrite crc_update_app, len_app. do 2 f_equal. lia.
  - simpl. intros Hl. specialize (Hr Hl). lia.
Qed.
Lemma reads_last {A B} (m : rd A) (f : A → B) e x : reads m e x → reads (rd_bind m (λ x, rd_ret (f x))) e (f x).
Proof. intros Hm. rewrite <- (right_id_L [] (++) e). eapply reads_bind; [done|apply reads_ret]. Qed.
Lemma reads_err {B} (f : bool → rd B) e y : reads (f false) e y → reads (rd_bind rd_err f) e y.
Proof. intros Hf br rest Hd He Hr. unfold rd_bind, rd_err. rewrite He. by apply Hf. Qed.

Lemma br_read_after enc rest br : br_data br = enc ++ rest → br_err br = false →
  br_read (len enc) br = (Some enc, br_after enc rest br).
Proof.
  intros Hd He. unfold br_read, br_after. rewrite Hd, He, len_app.
  rewrite (proj2 (N.ltb_ge _ _)) by lia. unfold len. rewrite !Nat2N.id, take_app_length, drop_app_length. done.
Qed.
Lemma br_claim_ok n k br : br_err br = false → k ≠ 0 →
  (br_limited br = true → Z.of_N (n * k) ≤ br_remaining br)%Z → br_claim n k br = (true, br).
Proof.
  intros He Hk Hr. unfold br_claim. rewrite He. destruct (br_limited br); [|done]. simpl. specialize (Hr eq_refl).
  rewrite (proj2 (Z.ltb_ge _ _)) by lia. rewrite (proj2 (N.ltb_ge _ _)); [done|].
  apply N.div_le_lower_bound; lia.
Qed.

Lemma reads_uint k v : v < 256 ^ N.of_nat k → reads (br_uint (N.of_nat k)) (le_bytes k v) v.
Proof.
  intros Hv br rest Hd He _. unfold br_uint. rewrite <- (len_le_bytes k v) at 1.
  rewrite (br_read_after _ rest) by done. by rewrite le_value_bytes.
Qed.
Lemma reads_bytes b : len b ≤ maxReadAlloc → reads (br_bytes (len b)) b b.
Proof.
  intros Hb br rest Hd He Hr. unfold br_bytes. rewrite He, (proj2 (N.ltb_ge _ _)) by lia.
  rewrite br_claim_ok by (done || rewrite N.mul_1_r; done). simpl. by rewrite (br_read_after _ rest).
Qed.
Lemma chunks_concat {A} (get : bytes → A) (enc : A → bytes) k l :
  (∀ x, x ∈ l → length (enc x) = k ∧ get (enc x) = x) → chunks get k (length l) (concat (enc <$> l)) = l.
Proof.
  induction l as [|x l IH]; intros Hx; csimpl; [done|]. destruct (Hx x) as [Hk Hg]; [left|].
  rewrite take_app_length', drop_app_length', Hg by done. f_equal. apply IH. intros. apply Hx. by right.
Qed.
Lemma len_concat_enc {A} (enc : A → bytes) k l :
  (∀ x, x ∈ l → len (enc x) = k) → len (concat (enc <$> l)) = len l * k.
Proof.
  induction l as [|x l IH]; intros Hx; csimpl; [done|]. rewrite len_app, len_cons, IH, (Hx x); [lia|left|].
  intros. apply Hx. by right.
Qed.
Lemma len_concat_ge {A} (enc : A → bytes) k l : (∀ x, k ≤ len (enc x)) → len l * k ≤ len (concat (enc <$> l)).
Proof. intros Hk. induction l as [|x l IH]; [done|]. rewrite fmap_cons. cbn [concat]. rewrite len_app, len_cons. specialize (Hk x). lia. Qed.
Lemma reads_array {A} (get : bytes → A) (enc : A → bytes) k l : k ≠ 0 → len l ≤ maxReadAlloc / k →
  (∀ x, x ∈ l → len (enc x) = k ∧ get (enc x) = x) → reads (br_array get k (len l)) (concat (enc <$> l)) l.
Proof.
  intros Hk Hl Hx br rest Hd He Hr.
  assert (len (concat (enc <$> l)) = len l * k) as Hc by (apply len_concat_enc; intros; by apply Hx).
  unfold br_array. rewrite He, (proj2 (N.ltb_ge _ _)) by lia. rewrite br_claim_ok by (done || (intros; rewrite <- Hc; auto)).
  simpl. destruct (N.eqb_spec (len l) 0) as [E|_].
  - assert (l = []) as -> by (destruct l; [done|]; rewrite len_cons in E; lia). simpl in *.
    destruct br; simpl in *; subst. unfold br_after. simpl. by rewrite crc_update_nil, Z.sub_0_r.
  - rewrite <- Hc, (br_read_after _ rest) by done. f_equal. unfold len at 1. rewrite Nat2N.id. apply chunks_concat.
    intros x Hin. destruct (Hx x Hin) as [<- Hg]. split; [|done]. unfold len. by rewrite Nat2N.id.
Qed.
Lemma reads_ints k l : (0 < k)%nat → len l ≤ maxReadAlloc / N.of_nat k → (∀ x, x ∈ l → x < 256 ^ N.of_nat k) →
  reads (br_array le_value (N.of_nat k) (len l)) (concat (le_bytes k <$> l)) l.
Proof.
  intros Hk Hl Hx. apply reads_array; [lia|done|]. intros x Hin. split; [apply len_le_bytes|apply le_value_bytes; by apply Hx].
Qed.

Definition is_i16 (z : Z) : Prop := (- 2 ^ 15 ≤ z < 2 ^ 15)%Z.
Lemma reads_i16 z : is_i16 z → reads br_i16 (le_bytes 2 (to_unsigned 16 z)) z.
Proof.
  intros Hz. destruct (to_signed_unsigned 16 z) as [Hlt E]; [done|exact Hz|]. rewrite <- E at 2.
  apply reads_last. by apply (reads_uint 2).
Qed.
Lemma reads_i32 z : (- 2 ^ 31 ≤ z < 2 ^ 31)%Z → reads br_i32 (le_bytes 4 (to_unsigned 32 z)) z.
Proof.
  intros Hz. destruct (to_signed_unsigned 32 z) as [Hlt E]; [done|exact Hz|]. rewrite <- E at 2.
  apply reads_last. by apply (reads_uint 4).
Qed.
Lemma reads_i16s l : len l ≤ maxReadAlloc / 2 → (∀ x, x ∈ l → is_i16 x) →
  reads (br_i16s (len l)) (concat ((λ v, le_bytes 2 (to_unsigned 16 v)) <$> l)) l.
Proof.
  intros Hl Hx. apply reads_array; [done|done|]. intros z Hin.
  destruct (to_signed_unsigned 16 z) as [Hlt E]; [done|exact (Hx z Hin)|].
  split; [apply len_le_bytes|]. by rewrite le_value_bytes.
Qed.
Lemma string_bytes_len s : len (String.list_ascii_of_string s) = N.of_nat (String.length s).
Proof. unfold len. f_equal. induction s; simpl; [done|]. by f_equal. Qed.
Lemma reads_str s : N.of_nat (String.length s) < 2 ^ 32 → reads br_str (str_bytes s) s.
Proof.
  intros Hs. unfold br_str, str_bytes. rewrite u32_small by done.
  eapply reads_bind; [by apply (reads_uint 4)|]. cbn beta. rewrite <- string_bytes_len.
  replace s with (String.string_of_list_ascii (String.list_ascii_of_string s)) at 3
    by apply String.string_of_list_ascii_of_string.
  apply (reads_last _ String.string_of_list_ascii), reads_bytes. rewrite string_bytes_len. unfold maxReadAlloc. lia.
Qed.
Lemma reads_times {A} (m : rd A) (enc : A → bytes) l : (∀ x, x ∈ l → reads m (enc x) x) →
  reads (rd_times (length l) m) (concat (enc <$> l)) l.
Proof.
  induction l as [|x l IH]; intros Hx; csimpl; [apply reads_ret|].
  eapply reads_bind; [apply Hx; left|]. apply (reads_last _ (λ l, x :: l)). apply IH. intros. apply Hx. by right.
Qed.
(** A check that the budget has room for what is about to be read. *)
Lemma reads_claim {B} (f : bool → rd B) n k e y : k ≠ 0 → n * k ≤ len e →
  reads (f true) e y → reads (rd_bind (br_claim n k) f) e y.
Proof.
  intros Hk Hn Hf br rest Hd He Hr. unfold rd_bind. rewrite br_claim_ok; [by apply Hf|done|done|].
  intros Hl. specialize (Hr Hl). lia.
Qed.
