(* ===== verification/Kinds.v ===== *)
(** * The kind table

    [internal/engine/snapshot/kinds.go]: kind id <-> kind name.  [names] is
    dense, with the empty string where no kind has that id; [ids] is the
    reverse map.  A Go map is a [gmap], and ranging over it visits
    [map_to_list] in its order, which stands for the unspecified one. *)

From S2P Require Import Prelude Bitset.
From stdpp Require Import options.
Unset Default Proof Using.

Record KindTable := mkKindTable { kt_names : list string; kt_ids : gmap string KindID }.

Definition kt_maxID (pairs : gmap KindID string) : KindID :=
  foldl (λ maxID p, if bool_decide (p.1 > maxID)%Z then p.1 else maxID) 0%Z (map_to_list pairs).

Definition NewKindTable (pairs : gmap KindID string) : option KindTable :=
  let names := mk (Z.to_N (kt_maxID pairs + 1)) EmptyString in
  foldM (λ t p, let '(id, name) := p in
    names' ← (if bool_decide (0 ≤ id)%Z then upd (kt_names t) (Z.to_N id) name
              else Some (kt_names t));
    Some (mkKindTable names' (<[name := id]> (kt_ids t))))
    (map_to_list pairs) (mkKindTable names ∅).

(** [Name] and [ID]; [None] is the source's second result [false]. *)
Definition KindTable_Name (t : KindTable) (id : KindID) : option string :=
  if bool_decide ((id < 0)%Z ∨ len (kt_names t) ≤ Z.to_N id) then None
  else match idx (kt_names t) (Z.to_N id) with
       | Some name => if String.eqb name EmptyString then None else Some name
       | None => None
       end.
Definition KindTable_ID (t : KindTable) (name : string) : option KindID := kt_ids t !! name.
Definition KindTable_Len (t : KindTable) : N := N.of_nat (size (kt_ids t)).

Lemma kt_maxID_ge pairs : (0 ≤ kt_maxID pairs)%Z ∧
  ∀ id name, pairs !! id = Some name → (id ≤ kt_maxID pairs)%Z.
Proof.
  unfold kt_maxID.
  enough (∀ l m, (m ≤ foldl (λ maxID (p : KindID * string), if bool_decide (p.1 > maxID)%Z
      then p.1 else maxID) m l)%Z ∧
    ∀ p, p ∈ l → (p.1 ≤ foldl (λ maxID (p : KindID * string), if bool_decide (p.1 > maxID)%Z
      then p.1 else maxID) m l)%Z) as Hgo.
  { destruct (Hgo (map_to_list pairs) 0%Z) as [H1 H2]. split; [done|].
    intros id name Hid%elem_of_map_to_list. by apply (H2 (id, name)). }
  induction l as [|p l IH]; intros m; simpl.
  - split; [lia|]. by intros p ?%not_elem_of_nil.
  - destruct (IH (if bool_decide (p.1 > m)%Z then p.1 else m)) as [H1 H2].
    assert ((m ≤ (if bool_decide (p.1 > m) then p.1 else m)) ∧
            (p.1 ≤ (if bool_decide (p.1 > m) then p.1 else m)))%Z by (case_bool_decide; lia).
    split; [lia|]. intros q [->|Hq]%elem_of_cons; [lia|by apply H2].
Qed.

(** *** Building a table *)

(** The table after a prefix [pre] of the pairs, with [n] name slots. *)
Definition table_of (n : N) (pre : list (KindID * string)) (t : KindTable) : Prop :=
  len (kt_names t) = n ∧
  (∀ i, i < n → idx (kt_names t) i =
     Some (default EmptyString ((list_to_map pre : gmap Z string) !! Z.of_N i))) ∧
  (∀ name, kt_ids t !! name = None → ∀ id, (id, name) ∉ pre) ∧
  (∀ name id, kt_ids t !! name = Some id → (id, name) ∈ pre).

Lemma names_snoc (pre : list (Z * string)) id name j : id ∉ pre.*1 →
  list_to_map (M:=gmap Z string) (pre ++ [(id, name)]) !! j =
  if decide (j = id) then Some name else (list_to_map pre : gmap Z string) !! j.
Proof.
  intros Hf. rewrite list_to_map_app, lookup_union. simpl. rewrite insert_empty. case_decide as E.
  - subst j. rewrite not_elem_of_list_to_map_1 by done. by rewrite lookup_singleton_eq.
  - rewrite lookup_singleton_ne by done. by rewrite (right_id None _).
Qed.

Lemma set_name_spec n pre t id name : table_of n pre t → id ∉ pre.*1 → (id < Z.of_N n)%Z →
  ∃ names', (if bool_decide (0 ≤ id)%Z then upd (kt_names t) (Z.to_N id) name
             else Some (kt_names t)) = Some names' ∧ len names' = n ∧
    ∀ i, i < n → idx names' i =
      Some (default EmptyString ((list_to_map (pre ++ [(id, name)]) : gmap Z string) !! Z.of_N i)).
Proof.
  intros (Hlen & Hn & _) Hf Hid. case_bool_decide as H0.
  - destruct (upd_Some (kt_names t) (Z.to_N id) name) as (ns & -> & ? & Hns); [lia|].
    eexists. split_and!; [done|lia|]. intros i Hlt. rewrite Hns, names_snoc by done.
    destruct (decide (i = Z.to_N id)), (decide (Z.of_N i = id)); try lia; [done|by apply Hn].
  - eexists. split_and!; [done..|]. intros i Hlt. rewrite names_snoc, decide_False by (done || lia).
    by apply Hn.
Qed.

Lemma NewKindTable_table pairs : ∃ t, NewKindTable pairs = Some t ∧
  table_of (Z.to_N (kt_maxID pairs + 1)) (map_to_list pairs) t.
Proof.
  unfold NewKindTable. destruct (kt_maxID_ge pairs) as [Hm Hmax].
  set (n := Z.to_N (kt_maxID pairs + 1)). apply (foldM_inv (table_of n)).
  - split_and!; simpl; [apply len_mk| | |].
    + intros i Hi. by rewrite idx_mk.
    + intros name _ id. apply not_elem_of_nil.
    + intros name id. by rewrite lookup_empty.
  - intros pre [id name] post t Hl Ht.
    assert (pairs !! id = Some name) as Hp%Hmax by (apply elem_of_map_to_list; rewrite Hl; set_solver).
    assert (id ∉ pre.*1) as Hfresh.
    { pose proof (NoDup_fst_map_to_list pairs) as Hnd. rewrite Hl, fmap_app in Hnd.
      apply NoDup_app in Hnd as (_ & Hd & _). intros Hin. apply (Hd _ Hin). left. }
    destruct (set_name_spec n pre t id name Ht Hfresh) as (names' & -> & Hlen' & Hn'); [lia|].
    destruct Ht as (_ & _ & Hi & Hi'). simpl. eexists. split; [done|]. split_and!; simpl; [done..| |].
    + intros name' [Hnone Hne']%lookup_insert_None id' [Hin|Hin]%elem_of_app; [by eapply Hi|].
      apply list_elem_of_singleton in Hin. congruence.
    + intros name' id'. rewrite lookup_insert, elem_of_app. case_decide as E; intros H'.
      * simplify_eq. right. by apply list_elem_of_singleton.
      * left. by apply Hi'.
Qed.

(** The names of a built table: the pairs with a non-negative id and a
    non-empty name. *)
Lemma NewKindTable_name pairs t id : NewKindTable pairs = Some t →
  KindTable_Name t id =
    if bool_decide (0 ≤ id)%Z then
      match pairs !! id with
      | Some name => if String.eqb name EmptyString then None else Some name
      | None => None
      end
    else None.
Proof.
  intros Ht. destruct (NewKindTable_table pairs) as (t' & Ht' & Hl & Hn & _). assert (t' = t) as -> by congruence.
  destruct (kt_maxID_ge pairs) as [Hm Hmax]. rewrite list_to_map_to_list in Hn. unfold KindTable_Name.
  case_bool_decide as Ho.
  - case_bool_decide as H0; [|done]. destruct (pairs !! id) eqn:E; [|done].
    specialize (Hmax _ _ E). exfalso. destruct Ho as [Ho|Ho]; [lia|]. rewrite Hl in Ho. lia.
  - rewrite bool_decide_true by lia. rewrite Hn by lia. rewrite Z2N.id by lia. simpl.
    by destruct (pairs !! id) as [name|] eqn:E.
Qed.

(** What a built table holds. *)
Lemma NewKindTable_spec pairs : (∀ id name, pairs !! id = Some name → name ≠ EmptyString) →
  ∃ t, NewKindTable pairs = Some t ∧
    (∀ id, KindTable_Name t id = if bool_decide (0 ≤ id)%Z then pairs !! id else None) ∧
    (∀ name id, KindTable_ID t name = Some id → pairs !! id = Some name) ∧
    (∀ name, KindTable_ID t name = None → ∀ id, pairs !! id ≠ Some name).
Proof.
  intros Hne. destruct (NewKindTable_table pairs) as (t & Ht & Hl & Hn & Hi & Hi'). exists t.
  split_and!; [done| | |].
  - intros id. rewrite (NewKindTable_name _ _ _ Ht). case_bool_decide; [|done].
    destruct (pairs !! id) as [name|] eqn:E; [|done]. destruct (String.eqb_spec name EmptyString); [|done].
    by apply Hne in E.
  - intros name id ?%Hi'. by apply elem_of_map_to_list.
  - intros name Hnone id ?%elem_of_map_to_list. by eapply Hi.
Qed.

(** The named ids of a table, collected in a map. *)
Lemma base_pairs_lookup (names : list string) k :
  foldl (λ (m : gmap Z string) '(i, name), if String.eqb name EmptyString then m else <[Z.of_N i := name]> m) ∅
    (zip (range 0 (len names)) names) !! k =
  KindTable_Name (mkKindTable names ∅) k.
Proof.
  unfold KindTable_Name. simpl. induction names as [|name names IH] using rev_ind.
  { simpl. rewrite lookup_empty. by case_bool_decide. }
  replace (len (names ++ [name])) with (len names + 1) by (autorewrite with lens; lia).
  pose proof (len_range 0 (len names)) as Hr. rewrite N.sub_0_r in Hr.
  rewrite range_snoc, zip_with_app, foldl_app by (unfold len in *; lia). simpl.
  destruct (decide (k = Z.of_N (len names))) as [->|Hne].
  - rewrite bool_decide_false by lia. rewrite N2Z.id, idx_snoc.
    destruct (String.eqb_spec name EmptyString); [|by rewrite lookup_insert_eq].
    rewrite IH. rewrite bool_decide_true by lia. done.
  - assert (∀ o, (if String.eqb name EmptyString then o else <[Z.of_N (len names) := name]> o) !! k = o !! k) as ->.
    { intros o. destruct (String.eqb _ _); [done|]. by rewrite lookup_insert_ne. }
    rewrite IH. repeat case_bool_decide; try lia; [done|]. by rewrite idx_app_l by lia.
Qed.
