(* ===== verification/Props.v ===== *)
(** * Node properties

    [internal/engine/snapshot/props.go]: property names are interned to 16-bit
    ids, every value is a small [propEntry], and strings, lists and objects
    live in one byte arena.  [interner] holds the three fields
    ([propNames]/[propIDs]/[propArena]) that [Builder] and [SegmentBuilder]
    both have; [stage_prop] is one round of the loops that fill them.

    The results relate entries to the abstract bag of a node, a map from
    property name to [pval]: staging a bag yields entries that read back as
    that bag, without disturbing the entries staged before, and the binary
    search by property id finds exactly the bag's values. *)

From S2P Require Import Prelude Bitset Csr.
From stdpp Require Import options.
Unset Default Proof Using.

(** ** Entries *)

Definition propKindNull : N := 0.
Definition propKindFalse : N := 1.
Definition propKindTrue : N := 2.
Definition propKindNumber : N := 3.
Definition propKindString : N := 4.
Definition propKindArray : N := 5.
Definition propKindObject : N := 6.
Definition propKindNumberNonCanonical : N := 7.

Record propEntry := mkPropEntry {
  e_prop : N;  (* PropID, a uint16 *)
  e_kind : N;
  e_num : float64;
  e_ref : N;
  e_len : N;
}.

(** The kinds whose payload is in the arena: the [case propKindString,
    propKindArray, propKindObject] of the staging loops. *)
Definition arena_kind (kind : N) : bool :=
  (kind =? propKindString) || (kind =? propKindArray) || (kind =? propKindObject).

Definition string_of_bytes (bs : bytes) : string := String.string_of_list_ascii bs.

Section decode.
Context `{GoStd}.

(** [unsafe.String(&p.arena[ref], length)]: the index is checked; a range
    that runs past the arena, which Go leaves undefined, is a panic here. *)
Definition stringAt (arena : bytes) (ref length : N) : option string :=
  if length =? 0 then Some EmptyString
  else _ ← idx arena ref; bs ← slice arena ref (ref + length); Some (string_of_bytes bs).

(** The part of [PropStore.decode] and [Segment.decode] that is the same in
    both; they differ in how they read a string. *)
Definition decode_with (str : option string) (arena : bytes) (e : propEntry) : option any :=
  let raw := slice arena (e_ref e) (u32 (e_ref e + e_len e)) in
  if e_kind e =? propKindNull then Some ANil
  else if e_kind e =? propKindFalse then Some (ABool false)
  else if e_kind e =? propKindTrue then Some (ABool true)
  else if (e_kind e =? propKindNumber) || (e_kind e =? propKindNumberNonCanonical)
    then Some (AFloat (e_num e))
  else if e_kind e =? propKindString then s ← str; Some (AString s)
  else if e_kind e =? propKindArray then bs ← raw; v ← unmarshal_array bs; Some (AArray v)
  else if e_kind e =? propKindObject then bs ← raw; v ← unmarshal_object bs; Some (AObject v)
  else Some ANil.

Definition decode (arena : bytes) (e : propEntry) : option any :=
  decode_with (stringAt arena (e_ref e) (e_len e)) arena e.
Definition Segment_decode (arena : bytes) (e : propEntry) : option any :=
  decode_with (bs ← slice arena (e_ref e) (u32 (e_ref e + e_len e)); Some (string_of_bytes bs))
    arena e.
End decode.

(** [sort.Search] for a property id in one node's run of entries, followed by
    the test that it was found: [entries[i].prop >= id], then
    [i >= len(entries) || entries[i].prop != id].  The inner option is the
    source's second result. *)
Definition search_prop (es : list propEntry) (id : N) : option (option propEntry) :=
  i ← search (len es) (λ i, e ← idx es i; Some (id <=? e_prop e));
  if len es <=? i then Some None
  else e ← idx es i; if negb (e_prop e =? id) then Some None else Some (Some e).

(** ** Interning and the arena *)

Record interner := mkInterner {
  in_names : list string;
  in_ids : gmap string N;
  in_arena : bytes;
}.
Definition interner_empty : interner := mkInterner [] ∅ [].

Definition maxPropID : N := 65535.
Definition maxPropArena : N := 4294967295.

Definition internProp (name : string) : go interner N := λ st,
  match in_ids st !! name with
  | Some id => Some (st, inl id)
  | None =>
      if maxPropID <? len (in_names st) then Some (st, inr ErrTooManyProps)
      else
        let id := u16 (len (in_names st)) in
        Some (mkInterner (in_names st ++ [name]) (<[name := id]> (in_ids st)) (in_arena st), inl id)
  end.

Definition appendPropBytes (payload : bytes) : go interner (N * N) := λ st,
  let start := len (in_arena st) in
  if maxPropArena <? start + len payload then Some (st, inr ErrArenaFull)
  else Some (mkInterner (in_names st) (in_ids st) (in_arena st ++ payload),
             inl (u32 start, u32 (len payload))).

(** One round of a staging loop: intern the name, append the payload of an
    arena-backed kind, and make the entry. *)
Definition stage_prop (name : string) (kind : N) (num : float64) (payload : option bytes)
  : go interner propEntry :=
  (let! id := internProp name in
   if arena_kind kind then
     let! bs := go_lift payload in
     let! p := appendPropBytes bs in
     go_ret (mkPropEntry id kind num p.1 p.2)
   else go_ret (mkPropEntry id kind num 0 0))%go.

Fixpoint go_map {S A B} (f : A → go S B) (l : list A) : go S (list B) :=
  match l with
  | [] => go_ret []
  | x :: l' => (let! y := f x in let! ys := go_map f l' in go_ret (y :: ys))%go
  end.

(** A parsed property, and a node's parsed bag ([ParsedProps]). *)
Record parsedProp := mkParsedProp {
  pp_name : string; pp_kind : N; pp_num : float64; pp_bytes : bytes }.

(** Entries encoded against another store's names and arena. *)
Record preparedProps := mkPreparedProps {
  pr_entries : list propEntry; pr_names : list string; pr_arena : bytes }.

(** [sort.Slice(entries, func(i, j int) bool { return entries[i].prop < entries[j].prop })]. *)
Definition sort_entries `{GoStd} (es : list propEntry) : list propEntry :=
  go_sort (less_key e_prop) es.

Definition stage_parsed `{GoStd} (parsed : list parsedProp) : go interner (list propEntry) :=
  (let! es := go_map (λ pp, stage_prop (pp_name pp) (pp_kind pp) (pp_num pp) (Some (pp_bytes pp)))
                parsed in
   go_ret (sort_entries es))%go.

Definition stage_prepared `{GoStd} (props : preparedProps) : go interner (list propEntry) :=
  (let! es := go_map (λ e,
       stage_prop (default EmptyString (idx (pr_names props) (e_prop e))) (e_kind e) (e_num e)
         (slice (pr_arena props) (e_ref e) (u32 (e_ref e + e_len e))))
       (pr_entries props) in
   go_ret (sort_entries es))%go.

(** ** The abstract bag *)

(** What an entry means: its kind, its number and its arena payload. *)
Abbreviation pval := (N * float64 * bytes)%type (only parsing).

Definition decode_pval `{GoStd} (v : pval) : option any :=
  let '(kind, num, bs) := v in
  if kind =? propKindNull then Some ANil
  else if kind =? propKindFalse then Some (ABool false)
  else if kind =? propKindTrue then Some (ABool true)
  else if (kind =? propKindNumber) || (kind =? propKindNumberNonCanonical) then Some (AFloat num)
  else if kind =? propKindString then Some (AString (string_of_bytes bs))
  else if kind =? propKindArray then v ← unmarshal_array bs; Some (AArray v)
  else if kind =? propKindObject then v ← unmarshal_object bs; Some (AObject v)
  else Some ANil.

Definition entry_pval (arena : bytes) (e : propEntry) : option pval :=
  if arena_kind (e_kind e) then
    if decide (e_ref e + e_len e ≤ len arena) then
      bs ← slice arena (e_ref e) (e_ref e + e_len e); Some (e_kind e, e_num e, bs)
    else None
  else Some (e_kind e, e_num e, []).

Definition entry_binding (names : list string) (arena : bytes) (e : propEntry)
  : option (string * pval) :=
  name ← idx names (e_prop e); v ← entry_pval arena e; Some (name, v).

(** A node's run of entries is well formed and means the bindings [bs]. *)
Record row_ok (names : list string) (arena : bytes) (es : list propEntry)
    (bs : list (string * pval)) : Prop := {
  row_bindings : mapM (entry_binding names arena) es = Some bs;
  row_sorted : StronglySorted (λ x y, e_prop x < e_prop y) es;
}.

Record interner_ok (st : interner) : Prop := {
  in_nodup : NoDup (in_names st);
  in_size : len (in_names st) ≤ 2 ^ 16;
  in_ids_ok : ∀ name i, in_ids st !! name = Some i ↔ idx (in_names st) i = Some name;
  in_arena_size : len (in_arena st) < 2 ^ 32;
}.

Definition bag_of (bs : list (string * pval)) : gmap string pval := list_to_map bs.

(** [st'] extends [st]: what was staged before still reads the same. *)
Definition extends (st st' : interner) : Prop :=
  in_names st `prefix_of` in_names st' ∧ in_arena st `prefix_of` in_arena st'.

#[global] Instance extends_po : PreOrder extends.
Proof. split; [by intros|]. intros x y z [] []. split; by etrans. Qed.

(** ** Reading entries *)

Section reading.
Context `{GoStd}.

Lemma slice_bounds {A} (l : list A) lo hi k : slice l lo hi = Some k → hi ≤ len l.
Proof. unfold slice. case_decide; [lia|done]. Qed.

Lemma decode_spec arena e v : len arena < 2 ^ 32 → entry_pval arena e = Some v →
  decode arena e = decode_pval v ∧ Segment_decode arena e = decode_pval v.
Proof.
  intros Ha. unfold entry_pval, decode, Segment_decode, decode_with, decode_pval, arena_kind.
  destruct (e_kind e =? propKindString) eqn:Es; simpl;
    [|destruct (e_kind e =? propKindArray) eqn:Ea; simpl;
      [|destruct (e_kind e =? propKindObject) eqn:Eo; simpl]].
  4: { intros [= <-]. by rewrite Es, Ea, Eo. }
  all: case_decide as Hle; [|done]; rewrite u32_small by lia.
  all: destruct (slice_Some arena (e_ref e) (e_ref e + e_len e)) as (bs & Hs & Hlen & _); [lia..|].
  all: rewrite Hs; simpl; intros [= <-].
  - apply N.eqb_eq in Es. rewrite Es. simpl. split; [|done].
    unfold stringAt. destruct (N.eqb_spec (e_len e) 0) as [E|E]; simpl.
    + replace (e_ref e + e_len e - e_ref e) with 0 in Hlen by lia.
      destruct bs; [done|]. rewrite len_cons in Hlen. lia.
    + destruct (idx_is_Some arena (e_ref e)) as [c ->]; [lia|]. simpl. by rewrite Hs.
  - by rewrite Es, Ea.
  - by rewrite Es, Ea, Eo.
Qed.

Lemma search_prop_spec es id : StronglySorted (λ x y, e_prop x < e_prop y) es →
  ∃ r, search_prop es id = Some r ∧
    match r with Some e => e ∈ es ∧ e_prop e = id | None => ∀ e, e ∈ es → e_prop e ≠ id end.
Proof.
  intros Hs. unfold search_prop.
  set (p i := match idx es i with Some e => id <=? e_prop e | None => false end).
  destruct (search_spec (len es) (λ i, e ← idx es i; Some (id <=? e_prop e)) p)
    as (r & -> & Hr & Hlo & Hhi).
  - intros k Hk. unfold p. destruct (idx_is_Some es k Hk) as [e ->]. done.
  - intros k k' Hkk' Hk'. unfold p. destruct (idx_is_Some es k') as [e' He']; [done|].
    destruct (idx_is_Some es k) as [e He]; [lia|]. rewrite He, He', !N.leb_le.
    destruct (decide (k = k')) as [->|]; [simplify_eq; done|].
    assert (e_prop e < e_prop e') by (apply (sorted_idx _ _ k k' _ _ Hs He He'); lia). lia.
  - simpl. assert (∀ k e, k < r → idx es k = Some e → e_prop e < id) as Hbelow.
    { intros k e Hk He. specialize (Hlo k Hk). unfold p in Hlo. rewrite He in Hlo.
      by apply N.leb_gt in Hlo. }
    destruct (N.leb_spec (len es) r) as [Hle|Hlt].
    + eexists. split; [done|]. intros e [k He]%elem_of_idx.
      pose proof (idx_lt _ _ _ He). specialize (Hbelow k e). intros E. apply Hbelow in He; lia.
    + destruct (idx_is_Some es r Hlt) as [e He]. rewrite He. simpl.
      pose proof (Hhi r (N.le_refl _) Hlt) as Hge. unfold p in Hge. rewrite He in Hge.
      apply N.leb_le in Hge. destruct (N.eqb_spec (e_prop e) id) as [E|E]; simpl.
      * eexists. split; [done|]. split; [by eapply idx_elem_of|done].
      * eexists. split; [done|]. intros e' [k He']%elem_of_idx.
        destruct (decide (k < r)) as [Hk|Hk]; [specialize (Hbelow k e' Hk He'); lia|].
        destruct (decide (k = r)) as [->|Hk']; [congruence|].
        assert (e_prop e < e_prop e') by (apply (sorted_idx _ _ r k _ _ Hs He He'); lia). lia.
Qed.

Lemma names_inj (names : list string) i j nm : NoDup names →
  idx names i = Some nm → idx names j = Some nm → i = j.
Proof. intros Hnd Hi Hj. pose proof (NoDup_lookup _ _ _ _ Hnd Hi Hj). lia. Qed.

Lemma row_nodup names arena es bs : NoDup names → row_ok names arena es bs → NoDup bs.*1.
Proof.
  intros Hnd [Hb Hs]. apply mapM_Some in Hb. apply NoDup_alt. intros i j nm.
  rewrite !list_lookup_fmap. intros ([nm1 v1] & Hi & ->)%fmap_Some ([nm2 v2] & Hj & E)%fmap_Some.
  simpl in *. subst nm2.
  destruct (Forall2_lookup_r _ _ _ _ _ Hb Hi) as (e1 & Hi' & E1).
  destruct (Forall2_lookup_r _ _ _ _ _ Hb Hj) as (e2 & Hj' & E2).
  unfold entry_binding in *. simplify_option_eq.
  assert (e_prop e1 = e_prop e2) as E by (by eapply names_inj).
  destruct (decide (i < j)%nat); [|destruct (decide (j < i)%nat); [|lia]].
  - assert (e_prop e1 < e_prop e2); [|lia].
    apply (sorted_idx _ _ (N.of_nat i) (N.of_nat j) _ _ Hs); unfold idx; rewrite ?Nat2N.id; auto; lia.
  - assert (e_prop e2 < e_prop e1); [|lia].
    apply (sorted_idx _ _ (N.of_nat j) (N.of_nat i) _ _ Hs); unfold idx; rewrite ?Nat2N.id; auto; lia.
Qed.

(** Reading property [name] from a well-formed run: the bag decides. *)
Lemma row_value names (ids : gmap string N) arena es bs name :
  (∀ nm i, ids !! nm = Some i ↔ idx names i = Some nm) → NoDup names →
  row_ok names arena es bs →
  match ids !! name with
  | None => bag_of bs !! name = None
  | Some id => ∃ r, search_prop es id = Some r ∧
      match r with
      | None => bag_of bs !! name = None
      | Some e => ∃ v, entry_pval arena e = Some v ∧ bag_of bs !! name = Some v
      end
  end.
Proof.
  intros Hids Hnd Hrow. pose proof (row_nodup _ _ _ _ Hnd Hrow) as Hbn.
  destruct Hrow as [Hb Hs]. apply mapM_Some in Hb.
  assert (∀ e, e ∈ es → ∃ nm v, idx names (e_prop e) = Some nm ∧ entry_pval arena e = Some v ∧ (nm, v) ∈ bs)
    as Hfwd.
  { intros e [i Hi]%list_elem_of_lookup. destruct (Forall2_lookup_l _ _ _ _ _ Hb Hi) as ([nm v] & Hi' & E).
    unfold entry_binding in E. simplify_option_eq. exists nm, v. split_and!; [done..|].
    by eapply list_elem_of_lookup_2. }
  assert (∀ nm v, (nm, v) ∈ bs → ∃ e, e ∈ es ∧ idx names (e_prop e) = Some nm ∧ entry_pval arena e = Some v)
    as Hbwd.
  { intros nm v [i Hi]%list_elem_of_lookup. destruct (Forall2_lookup_r _ _ _ _ _ Hb Hi) as (e & Hi' & E).
    unfold entry_binding in E. simplify_option_eq. exists e. split_and!; [|done..].
    by eapply list_elem_of_lookup_2. }
  destruct (ids !! name) as [id|] eqn:Hid.
  - apply Hids in Hid. destruct (search_prop_spec es id Hs) as (r & -> & Hr).
    exists r. split; [done|]. destruct r as [e|].
    + destruct Hr as [He <-]. destruct (Hfwd e He) as (nm & v & Hnm & Hv & Hin).
      exists v. split; [done|]. simplify_eq. by apply elem_of_list_to_map_1.
    + apply not_elem_of_list_to_map_1. intros ([nm v] & -> & Hin)%list_elem_of_fmap.
      destruct (Hbwd _ _ Hin) as (e & He & Hnm & _). simpl in *.
      apply (Hr e He). exact (names_inj _ _ _ _ Hnd Hnm Hid).
  - apply not_elem_of_list_to_map_1. intros ([nm v] & -> & Hin)%list_elem_of_fmap.
    destruct (Hbwd _ _ Hin) as (e & He & Hnm & _). simpl in *. apply Hids in Hnm. congruence.
Qed.
End reading.

(** ** Staging entries *)

Lemma slice_prefix {A} (l k : list A) lo hi r :
  l `prefix_of` k → slice l lo hi = Some r → slice k lo hi = Some r.
Proof.
  intros [k' ->] H. pose proof (slice_bounds _ _ _ _ H) as Hle.
  unfold slice in *. case_decide as Hd; [|done]. injection H as <-.
  rewrite decide_True by (rewrite len_app; lia). f_equal.
  rewrite drop_app_le by (unfold len in *; lia).
  apply take_app_le. rewrite length_drop. unfold len in *. lia.
Qed.

Lemma idx_prefix {A} (l k : list A) i x : l `prefix_of` k → idx l i = Some x → idx k i = Some x.
Proof. intros [k' ->] H. rewrite idx_app_l; [done|]. by eapply idx_lt. Qed.

Lemma entry_binding_extends st st' e b : extends st st' →
  entry_binding (in_names st) (in_arena st) e = Some b →
  entry_binding (in_names st') (in_arena st') e = Some b.
Proof.
  intros [Hn Ha]. unfold entry_binding, entry_pval. intros H.
  destruct (idx (in_names st) (e_prop e)) as [nm|] eqn:E1; [|done]. simpl in H.
  rewrite (idx_prefix _ _ _ _ Hn E1). simpl. destruct (arena_kind (e_kind e)); [|done].
  destruct (decide (e_ref e + e_len e ≤ len (in_arena st))) as [Hle|]; [|done].
  rewrite decide_True by (destruct Ha as [? ->]; rewrite len_app; lia).
  destruct (slice (in_arena st) _ _) as [bs|] eqn:E2; [|done].
  by rewrite (slice_prefix _ _ _ _ _ Ha E2).
Qed.

Lemma internProp_spec st name : interner_ok st →
  ∃ st' r, internProp name st = Some (st', r) ∧ interner_ok st' ∧ extends st st' ∧
    in_arena st' = in_arena st ∧
    match r with
    | inl id => idx (in_names st') id = Some name
    | inr err => err = ErrTooManyProps ∧ maxPropID < len (in_names st)
    end.
Proof.
  intros [Hnd Hsz Hids Har]. unfold internProp. destruct (in_ids st !! name) as [id|] eqn:E.
  - exists st, (inl id). split_and!; [done|done|done|done|]. by apply Hids.
  - unfold maxPropID. destruct (N.ltb_spec 65535 (len (in_names st))) as [Hlt|Hge].
    { eexists _, _. by split_and!. }
    eexists _, _. split; [done|]. simpl. rewrite u16_small by lia.
    assert (∀ i, idx (in_names st) i ≠ Some name) as Hfresh.
    { intros i Hi%Hids. congruence. }
    split_and!; [|by split; simpl; [apply prefix_app_r|]|done|apply idx_snoc].
    split; simpl; [| | |done].
    + apply NoDup_app. split_and!; [done| |apply NoDup_singleton].
      intros x [i Hi]%elem_of_idx ->%list_elem_of_singleton. by eapply Hfresh.
    + rewrite len_app, len_cons, len_nil. lia.
    + intros nm i. rewrite lookup_insert. case_decide as E'.
      * subst nm. split; [intros [= <-]; apply idx_snoc|]. intros Hi. f_equal.
        destruct (decide (i < len (in_names st))).
        -- rewrite idx_app_l in Hi by done. by apply Hfresh in Hi.
        -- apply idx_lt in Hi as Hl. autorewrite with lens in Hl. lia.
      * rewrite Hids. destruct (decide (i < len (in_names st))) as [Hl|Hl].
        -- by rewrite idx_app_l.
        -- rewrite idx_app_r, (idx_ge (in_names st)) by lia. split; [done|].
           rewrite idx_cons. case_decide; [|by rewrite idx_nil]. congruence.
Qed.

Lemma appendPropBytes_spec st bs : interner_ok st →
  ∃ st' r, appendPropBytes bs st = Some (st', r) ∧ interner_ok st' ∧ extends st st' ∧
    in_names st' = in_names st ∧
    match r with
    | inl (ref, l) => ref + l ≤ len (in_arena st') ∧ slice (in_arena st') ref (ref + l) = Some bs
    | inr err => err = ErrArenaFull ∧ maxPropArena < len (in_arena st) + len bs
    end.
Proof.
  intros [Hnd Hsz Hids Har]. unfold appendPropBytes, maxPropArena.
  destruct (N.ltb_spec 4294967295 (len (in_arena st) + len bs)) as [Hlt|Hge].
  { eexists _, _. by split_and!. }
  eexists _, _. split; [done|]. simpl. rewrite !u32_small by lia. split_and!.
  - split; simpl; [done..|]. rewrite len_app. lia.
  - split; simpl; [done|]. by apply prefix_app_r.
  - done.
  - rewrite len_app. lia.
  - unfold slice. rewrite len_app, decide_True by lia. unfold len.
    rewrite Nat2N.id, drop_app_length. replace (N.to_nat _) with (length bs) by lia.
    by rewrite firstn_all.
Qed.

(** The binding an item asks for. *)
Definition item_binding (name : string) (kind : N) (num : float64) (payload : option bytes)
  : string * pval := (name, (kind, num, if arena_kind kind then default [] payload else [])).

Lemma stage_prop_spec st name kind num payload : interner_ok st →
  (arena_kind kind = true → is_Some payload) →
  ∃ st' r, stage_prop name kind num payload st = Some (st', r) ∧ interner_ok st' ∧
    extends st st' ∧
    match r with
    | inl e => entry_binding (in_names st') (in_arena st') e =
                 Some (item_binding name kind num payload)
    | inr err => err = ErrTooManyProps ∨ err = ErrArenaFull
    end.
Proof.
  intros Hok Hp. unfold stage_prop, go_bind.
  destruct (internProp_spec st name Hok) as (st1 & r1 & -> & Hok1 & Hex1 & _ & Hr1). simpl.
  destruct r1 as [id|err]; [|destruct Hr1 as [-> _]; eauto 8].
  unfold item_binding. destruct (arena_kind kind) eqn:Ek.
  - destruct Hp as [bs ->]; [done|]. unfold go_lift. simpl.
    destruct (appendPropBytes_spec st1 bs Hok1) as (st2 & r2 & -> & Hok2 & Hex2 & Hn2 & Hr2). simpl.
    destruct r2 as [[ref l]|err].
    + destruct Hr2 as [Hle Hs]. eexists _, _. split_and!; [done|done|by etrans|].
      unfold entry_binding, entry_pval. simpl. rewrite Hn2, Hr1, Ek. simpl.
      by rewrite decide_True, Hs by done.
    + destruct Hr2 as [-> _]. eexists _, _. split_and!; [done|done|by etrans|by right].
  - unfold go_ret. eexists _, _. split_and!; [done..|].
    unfold entry_binding, entry_pval. simpl. by rewrite Hr1, Ek.
Qed.

Section staging.
Context `{GoStd}.
Context {X : Type} (nm : X → string) (kd : X → N) (nu : X → float64) (pl : X → option bytes).
Let item (x : X) := item_binding (nm x) (kd x) (nu x) (pl x).

Lemma go_map_stage_spec l st : interner_ok st →
  (∀ x, x ∈ l → arena_kind (kd x) = true → is_Some (pl x)) →
  ∃ st' r, go_map (λ x, stage_prop (nm x) (kd x) (nu x) (pl x)) l st = Some (st', r) ∧
    interner_ok st' ∧ extends st st' ∧
    match r with
    | inl es => mapM (entry_binding (in_names st') (in_arena st')) es = Some (item <$> l)
    | inr err => err = ErrTooManyProps ∨ err = ErrArenaFull
    end.
Proof.
  revert st. induction l as [|x l IH]; intros st Hok Hp; simpl.
  { eexists _, _. by split_and!. }
  unfold go_bind.
  destruct (stage_prop_spec st (nm x) (kd x) (nu x) (pl x) Hok) as (st1 & r1 & -> & Hok1 & Hex1 & Hr1).
  { apply Hp. left. }
  simpl. destruct r1 as [e|err]; [|eauto 8].
  destruct (IH st1 Hok1) as (st2 & r2 & -> & Hok2 & Hex2 & Hr2).
  { intros y Hy. apply Hp. by right. }
  simpl. destruct r2 as [es|err]; [|eexists _, _; split_and!; [done|done|by etrans|done]].
  eexists _, _. split_and!; [done|done|by etrans|]. simpl.
  rewrite (entry_binding_extends _ _ _ _ Hex2 Hr1). simpl. by rewrite Hr2.
Qed.

Lemma binding_props names arena es bs : NoDup bs.*1 →
  mapM (entry_binding names arena) es = Some bs → NoDup (e_prop <$> es).
Proof.
  intros Hbn Hm. apply mapM_Some in Hm. induction Hm as [|e b es bs Hb Hm IH]; [constructor|].
  apply NoDup_cons in Hbn as [Hnin Hbn]. simpl. constructor; [|by apply IH].
  intros (e' & He & Hin)%list_elem_of_fmap. apply Hnin.
  apply list_elem_of_lookup in Hin as [i Hi].
  destruct (Forall2_lookup_l _ _ _ _ _ Hm Hi) as (b' & Hi' & Hb').
  apply list_elem_of_fmap. exists b'. split; [|by eapply list_elem_of_lookup_2].
  unfold entry_binding in *. rewrite <- He in Hb'.
  destruct (idx names (e_prop e)); simplify_option_eq; done.
Qed.

(** Sorting the staged entries by property id gives a well-formed run. *)
Lemma sort_entries_ok names arena es bs : NoDup bs.*1 →
  mapM (entry_binding names arena) es = Some bs →
  ∃ bs', row_ok names arena (sort_entries es) bs' ∧ bs' ≡ₚ bs.
Proof.
  intros Hbn Hm. assert (sort_entries es ≡ₚ es) as Hp by apply go_sort_perm.
  destruct (mapM_permutation _ _ _ _ (symmetry Hp) Hm) as (bs' & Hm' & Hp').
  exists bs'. split; [|done]. split; [done|]. apply sorted_key_strict.
  - rewrite Hp. exact (binding_props _ _ _ _ Hbn Hm).
  - apply go_sort_sorted, is_less_key.
Qed.

(** The whole staging loop: on success the run means the items' bindings. *)
Lemma stage_items_spec l st : interner_ok st → NoDup (nm <$> l) →
  (∀ x, x ∈ l → arena_kind (kd x) = true → is_Some (pl x)) →
  ∃ st' r, (let! es := go_map (λ x, stage_prop (nm x) (kd x) (nu x) (pl x)) l in
            go_ret (sort_entries es))%go st = Some (st', r) ∧
    interner_ok st' ∧ extends st st' ∧
    match r with
    | inl es => ∃ bs, row_ok (in_names st') (in_arena st') es bs ∧ bs ≡ₚ item <$> l
    | inr err => err = ErrTooManyProps ∨ err = ErrArenaFull
    end.
Proof.
  intros Hok Hnd Hp. unfold go_bind.
  destruct (go_map_stage_spec l st Hok Hp) as (st' & r & -> & Hok' & Hex & Hr). simpl.
  destruct r as [es|err]; [|by eexists _, _].
  eexists _, _. split_and!; [done..|]. apply sort_entries_ok; [|done].
  unfold item. by rewrite <- list_fmap_compose.
Qed.
End staging.

Section staged_bags.
Context `{GoStd}.

Definition parsed_bag (parsed : list parsedProp) : gmap string pval :=
  bag_of ((λ pp, item_binding (pp_name pp) (pp_kind pp) (pp_num pp) (Some (pp_bytes pp))) <$> parsed).

Lemma bag_of_perm bs bs' : NoDup bs'.*1 → bs ≡ₚ bs' → bag_of bs = bag_of bs'.
Proof. intros Hnd Hp. apply list_to_map_proper; [by rewrite Hp|done]. Qed.

Lemma stage_parsed_spec parsed st : interner_ok st → NoDup (pp_name <$> parsed) →
  ∃ st' r, stage_parsed parsed st = Some (st', r) ∧ interner_ok st' ∧ extends st st' ∧
    match r with
    | inl es => ∃ bs, row_ok (in_names st') (in_arena st') es bs ∧ bag_of bs = parsed_bag parsed
    | inr err => err = ErrTooManyProps ∨ err = ErrArenaFull
    end.
Proof.
  intros Hok Hnd.
  destruct (stage_items_spec pp_name pp_kind pp_num (λ pp, Some (pp_bytes pp)) parsed st Hok Hnd)
    as (st' & r & Hst & Hok' & Hex & Hr); [done|].
  eexists _, _. split; [exact Hst|]. split_and!; [done..|]. destruct r as [es|err]; [|done].
  destruct Hr as (bs & Hrow & Hp). exists bs. split; [done|]. apply bag_of_perm; [|done].
  by rewrite <- list_fmap_compose.
Qed.

(** Entries copied from another store mean the same bag in the new one. *)
Lemma stage_prepared_spec names arena es bs st : interner_ok st →
  NoDup names → len arena < 2 ^ 32 → row_ok names arena es bs →
  ∃ st' r, stage_prepared (mkPreparedProps es names arena) st = Some (st', r) ∧
    interner_ok st' ∧ extends st st' ∧
    match r with
    | inl es' => ∃ bs', row_ok (in_names st') (in_arena st') es' bs' ∧ bag_of bs' = bag_of bs
    | inr err => err = ErrTooManyProps ∨ err = ErrArenaFull
    end.
Proof.
  intros Hok Hnd Ha Hrow. pose proof (row_nodup _ _ _ _ Hnd Hrow) as Hbn.
  set (nm (e : propEntry) := default EmptyString (idx names (e_prop e))).
  set (pl (e : propEntry) := slice arena (e_ref e) (u32 (e_ref e + e_len e))).
  assert (Forall2 (λ e b, (arena_kind (e_kind e) = true → is_Some (pl e)) ∧
            item_binding (nm e) (e_kind e) (e_num e) (pl e) = b) es bs) as HF.
  { destruct Hrow as [Hb _]. apply mapM_Some in Hb. eapply Forall2_impl; [exact Hb|].
    intros e b He. unfold entry_binding, entry_pval in He. unfold item_binding, nm, pl.
    destruct (idx names (e_prop e)) as [name|]; [|done]. simpl in *.
    destruct (arena_kind (e_kind e)); [|simpl in He; simplify_eq; by split].
    destruct (decide _) as [Hle|]; [|done]. rewrite u32_small by lia.
    destruct (slice arena _ _) as [pay|]; [|done]. simpl in He |- *. simplify_eq. by eauto. }
  assert ((λ e, item_binding (nm e) (e_kind e) (e_num e) (pl e)) <$> es = bs) as Hbs.
  { clear -HF. induction HF as [|e b es bs [_ He] HF IH]; csimpl; congruence. }
  destruct (stage_items_spec nm e_kind e_num pl es st Hok) as (st' & r & Hr & Hok' & Hex & Hres).
  - rewrite <- Hbs, <- list_fmap_compose in Hbn. done.
  - intros e [i Hi]%list_elem_of_lookup.
    destruct (Forall2_lookup_l _ _ _ _ _ HF Hi) as (b & _ & Hp & _). done.
  - eexists _, _. split; [exact Hr|]. split_and!; [done..|]. destruct r as [es'|err]; [|done].
    rewrite Hbs in Hres. destruct Hres as (bs' & Hrow' & Hp). exists bs'. split; [done|].
    by apply bag_of_perm.
Qed.
End staged_bags.
