(* ===== verification/Snapshot.v ===== *)
(** * The base snapshot

    [internal/engine/snapshot/snapshot.go] and the read side of [props.go]:
    [Snapshot] (forward and reverse compressed rows, kinds, properties, and
    the indexes derived from them) and its accessors.  [Snapshot_rep] is the
    representation invariant: it relates the arrays to a [layout], the rows
    they stand for.  The results: on a represented snapshot no accessor
    panics, and each returns what the layout says. *)

From S2P Require Import Prelude Bitset Csr Kinds Props.
From stdpp Require Import options.
Unset Default Proof Using.

Record PropStore := mkPropStore {
  ps_names : list string;
  ps_ids : gmap string N;
  ps_entries : list propEntry;
  ps_nodeOffsets : list N;
  ps_arena : bytes;
  ps_objectIndex : gmap string NodeID;
  ps_objectIndexDup : gmap string (list NodeID);
}.

Record Snapshot := mkSnapshot {
  GraphID : Z;
  GraphIDs : list N;
  OutOffsets : list N;
  OutTargets : list NodeID;
  OutKinds : list KindID;
  OutEdgeIDs : list N;
  InOffsets : list N;
  InTargets : list NodeID;
  InKinds : list KindID;
  InEdgeIdx : list N;
  KindOffsets : list N;
  NodeKinds : list KindID;
  MaxKindID : KindID;
  Kinds : KindTable;
  Props : PropStore;
  DroppedEdges : N;
  MultiGraph : bool;
  WatermarkLineage : list N;  (* [16]byte *)
  idIndex : gmap N NodeID;
  kindBitmaps : gmap KindID Bitset;
  selfLoopKinds : gset KindID;
  edgeKindSeen : list bool;
  edgeIDPerm : list N;
}.

(** A [Lineage] nobody set. *)
Definition zero_lineage : list N := replicate 16 0.
(** What the engine's load sets on the snapshot it built. *)
Definition stamp_load (s : Snapshot) (multiGraph : bool) (lineage : list N) : Snapshot :=
  mkSnapshot (GraphID s) (GraphIDs s) (OutOffsets s) (OutTargets s) (OutKinds s) (OutEdgeIDs s)
    (InOffsets s) (InTargets s) (InKinds s) (InEdgeIdx s) (KindOffsets s) (NodeKinds s) (MaxKindID s) (Kinds s)
    (Props s) (DroppedEdges s) multiGraph lineage (idIndex s) (kindBitmaps s) (selfLoopKinds s) (edgeKindSeen s)
    (edgeIDPerm s).

Definition NodeCount (s : Snapshot) : N := len (GraphIDs s).
Definition EdgeCount (s : Snapshot) : N := len (OutTargets s).
Definition Dense (s : Snapshot) (databaseID : N) : option NodeID := idIndex s !! databaseID.

(** A node id is a uint32, so [n+1] wraps. *)
Definition Snapshot_Out (s : Snapshot) (n : NodeID) : option (list NodeID * list KindID) :=
  ts ← row (OutOffsets s) (OutTargets s) n (u32 (n + 1));
  ks ← row (OutOffsets s) (OutKinds s) n (u32 (n + 1));
  Some (ts, ks).
Definition Snapshot_In (s : Snapshot) (n : NodeID) : option (list NodeID * list KindID) :=
  ts ← row (InOffsets s) (InTargets s) n (u32 (n + 1));
  ks ← row (InOffsets s) (InKinds s) n (u32 (n + 1));
  Some (ts, ks).

Definition hasEdgeKind (s : Snapshot) (k : KindID) : bool :=
  bool_decide (0 ≤ k)%Z && bool_decide (Z.to_N k < len (edgeKindSeen s)) &&
  default false (idx (edgeKindSeen s) (Z.to_N k)).

(** The inner option is the second result. *)
Definition Snapshot_EdgeByID (s : Snapshot) (id : N) : option (option N) :=
  let n := len (edgeIDPerm s) in
  i ← search n (λ i, p ← idx (edgeIDPerm s) i; e ← idx (OutEdgeIDs s) p; Some (id <=? e));
  if decide (i < n) then
    p ← idx (edgeIDPerm s) i; e ← idx (OutEdgeIDs s) p;
    if e =? id then Some (Some p) else Some None
  else Some None.

Definition Snapshot_NodesOfKind (s : Snapshot) (k : KindID) : Bitset :=
  match kindBitmaps s !! k with Some bm => bm | None => NewBitset 0 end.

(** ** The property store's accessors *)

Definition IDByName (p : PropStore) (name : string) : option N := ps_ids p !! name.
Definition PropStore_Name (p : PropStore) (id : N) : string := default EmptyString (idx (ps_names p) id).

Section prop_reads.
Context `{GoStd}.

(** [None]: panic; [Some None]: the second result is false. *)
Definition PropStore_Value (p : PropStore) (n : NodeID) (id : N) : option (option any) :=
  es ← row (ps_nodeOffsets p) (ps_entries p) n (u32 (n + 1));
  r ← search_prop es id;
  match r with
  | None => Some None
  | Some e => v ← decode (ps_arena p) e; Some (Some v)
  end.

Definition PropStore_NodeMap (p : PropStore) (n : NodeID) : option (gmap string any) :=
  es ← row (ps_nodeOffsets p) (ps_entries p) n (u32 (n + 1));
  foldM (λ m e, name ← idx (ps_names p) (e_prop e); v ← decode (ps_arena p) e;
                Some (<[name := v]> m)) es ∅.
End prop_reads.

Definition PropStore_NodesByObjectID (p : PropStore) (v : string) : option (list NodeID) :=
  match ps_objectIndexDup p !! v with
  | Some dup => Some dup
  | None => match ps_objectIndex p !! v with Some id => Some [id] | None => None end
  end.

(** ** What a snapshot represents *)

(** An out-edge of a row: target, kind, database id; an in-edge: source, kind,
    forward slot. *)
Abbreviation oedge := (N * Z * N)%type (only parsing).
Abbreviation iedge := (N * Z * N)%type (only parsing).
Definition oe_dst (e : oedge) : N := e.1.1.
Definition oe_kind (e : oedge) : Z := e.1.2.
Definition oe_id (e : oedge) : N := e.2.

(** The text of a bag's [objectid] property, when it is text. *)
Definition bag_objectid (bag : gmap string pval) : option string :=
  match bag !! "objectid"%string with
  | Some (kind, _, bs) => if kind =? propKindString then Some (string_of_bytes bs) else None
  | None => None
  end.
(** The nodes, ascending, whose [objectid] is the text [v]. *)
Definition objectid_nodes (bags : list (gmap string pval)) (v : string) : list NodeID :=
  filter (λ i, (idx bags i ≫= bag_objectid) = Some v) (range 0 (len bags)).

(** A lookup's two results: the list and whether there is any. *)
Definition found {A} (l : list A) : option (list A) := match l with [] => None | _ => Some l end.

Record layout := mkLayout {
  lo_ids : list N;
  lo_out : list (list oedge);
  lo_in : list (list iedge);
  lo_kinds : list (list Z);
  lo_props : list (list propEntry);
  lo_bags : list (gmap string pval);
}.

(** The forward slots, as (source, slot, edge). *)
Definition lo_slots (L : layout) : list (N * N * oedge) := slots (lo_out L).

Record PropStore_rep (p : PropStore) (rows : list (list propEntry))
    (bags : list (gmap string pval)) : Prop := {
  psr_names : NoDup (ps_names p);
  psr_ids : ∀ name i, ps_ids p !! name = Some i ↔ idx (ps_names p) i = Some name;
  psr_arena : len (ps_arena p) < 2 ^ 32;
  psr_entries : ps_entries p = concat rows;
  psr_offsets : ps_nodeOffsets p = offs rows;
  psr_len : len rows = len bags;
  psr_rows : ∀ i es bag, idx rows i = Some es → idx bags i = Some bag →
    ∃ bs, row_ok (ps_names p) (ps_arena p) es bs ∧ bag_of bs = bag;
}.

(** The packed arrays. *)
Record packed_rep (s : Snapshot) (L : layout) : Prop := {
  pk_ids : GraphIDs s = lo_ids L;
  pk_sorted : StronglySorted N.lt (lo_ids L);
  pk_n : len (lo_ids L) < 2 ^ 32;
  pk_e : len (concat (lo_out L)) < 2 ^ 32;
  pk_out_len : len (lo_out L) = len (lo_ids L);
  pk_out : OutOffsets s = offs (lo_out L);
  pk_targets : OutTargets s = oe_dst <$> concat (lo_out L);
  pk_kinds : OutKinds s = oe_kind <$> concat (lo_out L);
  pk_eids : OutEdgeIDs s = oe_id <$> concat (lo_out L);
  pk_dst : ∀ e, e ∈ concat (lo_out L) → oe_dst e < len (lo_ids L);
  pk_row_sorted : ∀ r, r ∈ lo_out L →
    StronglySorted (le_of (less_key2 oe_dst oe_kind)) r;
  pk_in_len : len (lo_in L) = len (lo_ids L);
  pk_in : InOffsets s = offs (lo_in L);
  pk_isrc : InTargets s = (λ e : iedge, e.1.1) <$> concat (lo_in L);
  pk_ikind : InKinds s = (λ e : iedge, e.1.2) <$> concat (lo_in L);
  pk_iidx : InEdgeIdx s = (λ e : iedge, e.2) <$> concat (lo_in L);
  pk_transpose : ∀ w r, idx (lo_in L) w = Some r →
    r ≡ₚ (λ x, (x.1.1, oe_kind x.2, x.1.2)) <$> filter (λ x, oe_dst x.2 = w) (lo_slots L);
  pk_in_sorted : ∀ r, r ∈ lo_in L →
    StronglySorted (le_of (less_key2 (λ e : iedge, e.1.1) (λ e : iedge, e.1.2))) r;
  pk_kind_len : len (lo_kinds L) = len (lo_ids L);
  pk_kind_total : len (concat (lo_kinds L)) < 2 ^ 32;
  pk_koff : KindOffsets s = offs (lo_kinds L);
  pk_nkinds : NodeKinds s = concat (lo_kinds L);
  pk_perm : edgeIDPerm s ≡ₚ range 0 (len (concat (lo_out L)));
  pk_perm_sorted : StronglySorted (λ a b, ∀ x y, idx (OutEdgeIDs s) a = Some x →
    idx (OutEdgeIDs s) b = Some y → x ≤ y) (edgeIDPerm s);
}.

(** The structures [finalizeDerived] computes from the packed arrays. *)
Record derived_rep (s : Snapshot) (L : layout) : Prop := {
  dr_index : ∀ id i, idIndex s !! id = Some i ↔ idx (lo_ids L) i = Some id;
  dr_bitmap : ∀ k, match kindBitmaps s !! k with
    | Some bm => Bitset_wf (len (lo_ids L)) bm ∧
        ∀ i, Bitset_Has bm i = true ↔ ∃ ks, idx (lo_kinds L) i = Some ks ∧ k ∈ ks
    | None => ∀ ks, ks ∈ lo_kinds L → k ∉ ks
    end;
  dr_max : (0 ≤ MaxKindID s)%Z ∧ (∀ ks k, ks ∈ lo_kinds L → k ∈ ks → (k ≤ MaxKindID s)%Z) ∧
    (∀ e, e ∈ concat (lo_out L) → (oe_kind e ≤ MaxKindID s)%Z);
  dr_seen : ∀ k, hasEdgeKind s k = true ↔
    (0 ≤ k)%Z ∧ ∃ e, e ∈ concat (lo_out L) ∧ oe_kind e = k;
  dr_loops : ∀ k, k ∈ selfLoopKinds s ↔
    ∃ i j e, (i, j, e) ∈ lo_slots L ∧ oe_dst e = i ∧ oe_kind e = k;
  dr_props : PropStore_rep (Props s) (lo_props L) (lo_bags L);
  dr_object : ∀ v, PropStore_NodesByObjectID (Props s) v = found (objectid_nodes (lo_bags L) v);
  dr_props_len : len (lo_props L) = len (lo_ids L);
}.

Record Snapshot_rep (s : Snapshot) (L : layout) : Prop := {
  rep_packed : packed_rep s L;
  rep_derived : derived_rep s L;
}.

(** ** Reading a represented property store *)

(** Every payload parses: what the builders put in the arena is the text of a
    value that was parsed before. *)
Definition bag_decodable `{GoStd} (bag : gmap string pval) : Prop :=
  ∀ name v, bag !! name = Some v → is_Some (decode_pval v).

(** Decoding a run into a map adds the run's decoded bag. *)
Lemma decode_fold `{GoStd} names arena (dec : propEntry → option any) es bs acc :
  (∀ e v, entry_pval arena e = Some v → dec e = decode_pval v) →
  Forall2 (λ e b, entry_binding names arena e = Some b) es bs →
  NoDup bs.*1 → bag_decodable (bag_of bs) → (∀ b, b ∈ bs → acc !! b.1 = None) →
  foldM (λ m e, name ← idx names (e_prop e); v ← dec e; Some (<[name := v]> m)) es acc =
    Some (omap decode_pval (bag_of bs) ∪ acc).
Proof.
  intros Hd Hm. revert acc. unfold bag_of.
  induction Hm as [|e [nm v] es bs He Hm IH]; intros acc Hnd Hdec Hacc; simpl.
  { by rewrite omap_empty, (left_id_L ∅ (∪)). }
  apply NoDup_cons in Hnd as [Hnin Hnd]. unfold entry_binding in He.
  destruct (idx names (e_prop e)) as [nm'|]; [|done]. simpl in He |- *.
  destruct (entry_pval arena e) as [v'|] eqn:Hev; [|done]. simpl in He. simplify_eq.
  rewrite (Hd _ _ Hev).
  destruct (Hdec nm v) as [a Ha]; [by simpl; rewrite lookup_insert_eq|]. rewrite Ha. simpl.
  rewrite IH; [|done| |].
  - f_equal. rewrite (omap_insert_Some _ _ _ _ a) by done.
    rewrite <- insert_union_l. rewrite insert_union_r; [done|].
    by rewrite lookup_omap, not_elem_of_list_to_map_1.
  - intros nm' v' Hl. apply (Hdec nm' v'). simpl. rewrite lookup_insert_ne; [done|].
    intros ->. by rewrite not_elem_of_list_to_map_1 in Hl.
  - intros b Hb. rewrite lookup_insert_ne; [apply Hacc; by right|].
    intros E. apply Hnin. apply list_elem_of_fmap. by exists b.
Qed.

Section store.
Context `{GoStd}.
Context (p : PropStore) (rows : list (list propEntry)) (bags : list (gmap string pval)).
Hypothesis Hrep : PropStore_rep p rows bags.
Hypothesis Hn : len bags < 2 ^ 32.

Lemma store_row n bag : idx bags n = Some bag → ∃ es bs,
  row (ps_nodeOffsets p) (ps_entries p) n (u32 (n + 1)) = Some es ∧
  row_ok (ps_names p) (ps_arena p) es bs ∧ bag_of bs = bag.
Proof.
  intros Hb. pose proof (idx_lt _ _ _ Hb) as Hlt.
  destruct (idx_is_Some rows n) as [es Hes]; [by rewrite (psr_len _ _ _ Hrep)|].
  destruct (psr_rows _ _ _ Hrep _ _ _ Hes Hb) as (bs & Hrow & Hbag). exists es, bs.
  rewrite u32_small, (psr_offsets _ _ _ Hrep), (psr_entries _ _ _ Hrep) by lia.
  by rewrite (row_offs _ _ _ Hes).
Qed.

(** The value of a name is what the bag holds under it. *)
Lemma store_value n bag name : idx bags n = Some bag →
  match IDByName p name with
  | None => bag !! name = None
  | Some id => PropStore_Value p n id =
      match bag !! name with None => Some None | Some v => Some <$> decode_pval v end
  end.
Proof.
  intros Hb. destruct (store_row _ _ Hb) as (es & bs & Hr & Hrow & <-).
  pose proof (row_value _ _ _ _ _ name (psr_ids _ _ _ Hrep) (psr_names _ _ _ Hrep) Hrow) as Hv.
  unfold IDByName, PropStore_Value. destruct (ps_ids p !! name) as [id|]; [|done].
  destruct Hv as (r & Hs & Hv). rewrite Hr. simpl. rewrite Hs. simpl. destruct r as [e|].
  - destruct Hv as (v & Hev & ->).
    destruct (decode_spec _ _ _ (psr_arena _ _ _ Hrep) Hev) as [-> _]. by destruct (decode_pval v).
  - by rewrite Hv.
Qed.

(** [NodeMap] decodes the whole bag. *)
Lemma store_node_map n bag : idx bags n = Some bag → bag_decodable bag →
  PropStore_NodeMap p n = Some (omap decode_pval bag).
Proof.
  intros Hb Hdec. destruct (store_row _ _ Hb) as (es & bs & Hr & Hrow & <-).
  unfold PropStore_NodeMap. rewrite Hr. simpl.
  pose proof (row_nodup _ _ _ _ (psr_names _ _ _ Hrep) Hrow) as Hnd.
  destruct Hrow as [Hm _]. apply mapM_Some in Hm.
  rewrite (decode_fold _ (ps_arena p) _ _ _ _ (λ e v Hv, proj1 (decode_spec _ _ _ (psr_arena _ _ _ Hrep) Hv))
    Hm Hnd Hdec); [|intros; apply lookup_empty].
  by rewrite (right_id_L ∅ (∪)).
Qed.
End store.

(** ** The accessors on a represented snapshot *)

Section accessors.
Context (s : Snapshot) (L : layout) (Hrep : Snapshot_rep s L).
Let N_ := len (lo_ids L).

Lemma rep_NodeCount : NodeCount s = N_.
Proof. unfold NodeCount. by rewrite (pk_ids _ _ (rep_packed _ _ Hrep)). Qed.

Lemma rep_EdgeCount : EdgeCount s = len (concat (lo_out L)).
Proof. unfold EdgeCount. by rewrite (pk_targets _ _ (rep_packed _ _ Hrep)), len_fmap. Qed.

Lemma node_succ n : n < N_ → u32 (n + 1) = n + 1.
Proof. intros Hn. apply u32_small. pose proof (pk_n _ _ (rep_packed _ _ Hrep)). unfold N_ in *. lia. Qed.

Lemma out_row_Some n : n < N_ → ∃ r, idx (lo_out L) n = Some r.
Proof. intros Hn. apply idx_is_Some. by rewrite (pk_out_len _ _ (rep_packed _ _ Hrep)). Qed.
Lemma in_row_Some n : n < N_ → ∃ r, idx (lo_in L) n = Some r.
Proof. intros Hn. apply idx_is_Some. by rewrite (pk_in_len _ _ (rep_packed _ _ Hrep)). Qed.

Lemma Out_spec n r : idx (lo_out L) n = Some r →
  Snapshot_Out s n = Some (oe_dst <$> r, oe_kind <$> r).
Proof.
  intros Hr. pose proof (rep_packed _ _ Hrep) as HP. pose proof (idx_lt _ _ _ Hr) as Hn.
  rewrite (pk_out_len _ _ HP) in Hn. unfold Snapshot_Out.
  rewrite node_succ by done. rewrite (pk_out _ _ HP), (pk_targets _ _ HP), (pk_kinds _ _ HP).
  by rewrite !(row_offs_fmap _ _ _ _ Hr).
Qed.

Lemma In_spec n r : idx (lo_in L) n = Some r →
  Snapshot_In s n = Some ((λ e : iedge, e.1.1) <$> r, (λ e : iedge, e.1.2) <$> r).
Proof.
  intros Hr. pose proof (rep_packed _ _ Hrep) as HP. pose proof (idx_lt _ _ _ Hr) as Hn.
  rewrite (pk_in_len _ _ HP) in Hn. unfold Snapshot_In.
  rewrite node_succ by done. rewrite (pk_in _ _ HP), (pk_isrc _ _ HP), (pk_ikind _ _ HP).
  by rewrite !(row_offs_fmap _ _ _ _ Hr).
Qed.

Lemma Dense_spec id i : Dense s id = Some i ↔ idx (lo_ids L) i = Some id.
Proof. apply (dr_index _ _ (rep_derived _ _ Hrep)). Qed.

Lemma EdgeByID_spec id : ∃ r, Snapshot_EdgeByID s id = Some r ∧
  match r with
  | Some slot => ∃ e, idx (concat (lo_out L)) slot = Some e ∧ oe_id e = id
  | None => ∀ e, e ∈ concat (lo_out L) → oe_id e ≠ id
  end.
Proof.
  pose proof (rep_packed _ _ Hrep) as HP. unfold Snapshot_EdgeByID.
  set (E := len (concat (lo_out L))). set (perm := edgeIDPerm s).
  assert (perm ≡ₚ range 0 E) as Hperm by apply (pk_perm _ _ HP).
  assert (∀ i, i < len perm → ∃ p e, idx perm i = Some p ∧ idx (concat (lo_out L)) p = Some e ∧
    idx (OutEdgeIDs s) p = Some (oe_id e)) as Hat.
  { intros i Hi. destruct (idx_is_Some perm i Hi) as [p Hp].
    assert (p ∈ range 0 E) as [_ HpE]%elem_of_range by (rewrite <- Hperm; by eapply idx_elem_of).
    destruct (idx_is_Some _ _ HpE) as [e He]. exists p, e.
    rewrite (pk_eids _ _ HP), idx_fmap, He. done. }
  set (pr i := match idx perm i ≫= idx (OutEdgeIDs s) with Some e => id <=? e | None => false end).
  destruct (search_spec (len perm) (λ i, p ← idx perm i; e ← idx (OutEdgeIDs s) p; Some (id <=? e)) pr)
    as (r & -> & Hr & Hlo & Hhi).
  - intros k Hk. unfold pr. destruct (Hat k Hk) as (p & e & -> & _ & Hpe). simpl. by rewrite Hpe.
  - intros k k' Hkk Hk'. unfold pr.
    destruct (Hat k') as (p' & e' & Hp' & _ & He'); [done|].
    destruct (Hat k) as (p & e & Hp & _ & He); [lia|].
    rewrite Hp, Hp'. simpl. rewrite He, He', !N.leb_le.
    destruct (decide (k = k')) as [->|]; [congruence|].
    pose proof (sorted_idx _ _ _ _ _ _ (pk_perm_sorted _ _ HP) Hp Hp') as Hle.
    specialize (Hle ltac:(lia) _ _ He He'). lia.
  - simpl. assert (∀ e, e ∈ concat (lo_out L) → ∃ i p, i < len perm ∧ idx perm i = Some p ∧
      idx (OutEdgeIDs s) p = Some (oe_id e)) as Hcov.
    { intros e [p Hp]%elem_of_idx. assert (p ∈ perm) as [i Hi]%elem_of_idx.
      { rewrite Hperm, elem_of_range. apply idx_lt in Hp. unfold E. lia. }
      exists i, p. split_and!; [by eapply idx_lt|done|].
      by rewrite (pk_eids _ _ HP), idx_fmap, Hp. }
    assert (∀ k p e, k < r → idx perm k = Some p → idx (OutEdgeIDs s) p = Some e → e < id) as Hbelow.
    { intros k p e Hk Hp He. specialize (Hlo k Hk). unfold pr in Hlo.
      rewrite Hp in Hlo. simpl in Hlo. rewrite He in Hlo. by apply N.leb_gt. }
    case_decide as Hlt.
    + destruct (Hat r Hlt) as (p & e & Hp & He & Hpe). rewrite Hp. simpl. rewrite Hpe. simpl.
      specialize (Hhi r (N.le_refl _) Hlt). unfold pr in Hhi. rewrite Hp in Hhi. simpl in Hhi.
      rewrite Hpe in Hhi. apply N.leb_le in Hhi.
      destruct (N.eqb_spec (oe_id e) id) as [E1|E1]; [exists (Some p); eauto|].
      eexists. split; [done|]. intros e' He' <-.
      destruct (Hcov e' He') as (i & p' & Hi & Hp' & Hpe').
      destruct (decide (i < r)); [specialize (Hbelow i p' _ ltac:(done) Hp' Hpe'); lia|].
      destruct (decide (i = r)) as [->|]; [congruence|].
      pose proof (sorted_idx _ _ _ _ _ _ (pk_perm_sorted _ _ HP) Hp Hp') as Hle.
      specialize (Hle ltac:(lia) _ _ Hpe Hpe'). lia.
    + eexists. split; [done|]. intros e' He' <-.
      destruct (Hcov e' He') as (i & p' & Hi & Hp' & Hpe').
      specialize (Hbelow i p' _ ltac:(lia) Hp' Hpe'). lia.
Qed.
End accessors.
