(* ===== verification/Builder.v ===== *)
(** * Building a base snapshot

    [internal/engine/snapshot/builder.go]: nodes are staged in ascending
    database id (which numbers them), edges in any order; [Build] resolves the
    edges' endpoints, packs the forward rows by counting sort, derives the
    reverse rows from them, sorts the slots by edge id, and computes the
    derived indexes ([finalizeDerived]). *)

From S2P Require Import Prelude Bitset Csr Kinds Props Snapshot.
From stdpp Require Import options.
Unset Default Proof Using.

(** ** Definitions *)

Record stagedEdge := mkStagedEdge { se_id : N; se_start : N; se_end : N; se_kind : KindID }.
Record denseEdge := mkDenseEdge { de_id : N; de_src : NodeID; de_dst : NodeID; de_kind : KindID }.

(** [b_props] is [propNames], [propIDs] and [propArena]. *)
Record Builder := mkBuilder {
  b_graphID : Z;
  b_ids : list N;
  b_kindsFlat : list KindID;
  b_kindOffsets : list N;
  b_props : interner;
  b_propEntries : list propEntry;
  b_propOffsets : list N;
  b_edges : list stagedEdge;
  b_kindTable : gmap KindID string;
}.

Definition NewBuilder (graphID : Z) : Builder :=
  mkBuilder graphID [] [] [0] interner_empty [] [0] [] ∅.

Definition set_props (b : Builder) (p : interner) : Builder :=
  mkBuilder (b_graphID b) (b_ids b) (b_kindsFlat b) (b_kindOffsets b) p
    (b_propEntries b) (b_propOffsets b) (b_edges b) (b_kindTable b).

(** A computation on the interning fields, run inside the builder. *)
Definition on_props {A} (m : go interner A) : go Builder A := λ b,
  '(p, r) ← m (b_props b); Some (set_props b p, r).

(** The guard on the id, and the error it returns. *)
Definition check_ascending (databaseID : N) : go Builder () := λ b,
  match last (b_ids b) with
  | Some prev => if databaseID <=? prev then Some (b, inr (ErrNotAscending databaseID prev))
                 else Some (b, inl ())
  | None => Some (b, inl ())
  end.

(** Appending a node's sorted entries, and its id and kinds. *)
Definition append_entries (es : list propEntry) : go Builder () := λ b,
  let entries := b_propEntries b ++ es in
  Some (mkBuilder (b_graphID b) (b_ids b) (b_kindsFlat b) (b_kindOffsets b) (b_props b)
          entries (b_propOffsets b ++ [u32 (len entries)]) (b_edges b) (b_kindTable b), inl ()).
Definition append_node (databaseID : N) (kinds : list KindID) : go Builder () := λ b,
  let flat := b_kindsFlat b ++ kinds in
  Some (mkBuilder (b_graphID b) (b_ids b ++ [databaseID]) flat
          (b_kindOffsets b ++ [u32 (len flat)]) (b_props b)
          (b_propEntries b) (b_propOffsets b) (b_edges b) (b_kindTable b), inl ()).

Section builder_ops.
Context `{GoStd}.

Definition commitNodeProps (parsed : list parsedProp) : go Builder () :=
  (let! es := on_props (stage_parsed parsed) in append_entries es)%go.

Definition addParsedNode (databaseID : N) (kinds : list KindID) (parsed : list parsedProp)
  : go Builder () :=
  (check_ascending databaseID ;;! commitNodeProps parsed ;;! append_node databaseID kinds)%go.

Definition addPreparedNode (databaseID : N) (kinds : list KindID) (props : preparedProps)
  : go Builder () :=
  (check_ascending databaseID ;;!
   let! es := on_props (stage_prepared props) in
   append_entries es ;;! append_node databaseID kinds)%go.
End builder_ops.

Definition AddEdge (b : Builder) (id startID endID : N) (kind : KindID) : Builder :=
  mkBuilder (b_graphID b) (b_ids b) (b_kindsFlat b) (b_kindOffsets b) (b_props b)
    (b_propEntries b) (b_propOffsets b) (b_edges b ++ [mkStagedEdge id startID endID kind])
    (b_kindTable b).
Definition SetKinds (b : Builder) (pairs : gmap KindID string) : Builder :=
  mkBuilder (b_graphID b) (b_ids b) (b_kindsFlat b) (b_kindOffsets b) (b_props b)
    (b_propEntries b) (b_propOffsets b) (b_edges b) pairs.

(** *** Packing *)

Definition zip3 {A B C} (a : list A) (b : list B) (c : list C) : list (A * B * C) :=
  zip (zip a b) c.

(** The three slices of a row, sorted together through [Len]/[Less]/[Swap]. *)
Definition sortForwardSegment `{GoStd} (targets : list NodeID) (kinds : list KindID)
    (edgeIDs : list N) : list NodeID * list KindID * list N :=
  let seg : list oedge := go_sort (less_key2 oe_dst oe_kind) (zip3 targets kinds edgeIDs) in
  (oe_dst <$> seg, oe_kind <$> seg, oe_id <$> seg).

Definition sortReverseSegment `{GoStd} (sources : list NodeID) (kinds : list KindID)
    (fwdIdx : list N) : list NodeID * list KindID * list N :=
  let seg : list iedge :=
    go_sort (less_key2 (λ e : iedge, e.1.1) (λ e : iedge, e.1.2)) (zip3 sources kinds fwdIdx) in
  ((λ e : iedge, e.1.1) <$> seg, (λ e : iedge, e.1.2) <$> seg, (λ e : iedge, e.2) <$> seg).

Definition packForward `{GoStd} (n : N) (dEdges : list denseEdge)
  : option (list N * list NodeID * list KindID * list N) :=
  degree ← count_degrees de_src n dEdges;
  offsets ← prefix_offsets n degree;
  cursor ← slice offsets 0 n;
  '(targets, kinds, edgeIDs, _) ←
    foldM (λ st e, place_step (de_src e) (de_dst e) (de_kind e) (de_id e) st) dEdges
      (mk (len dEdges) 0, mk (len dEdges) 0%Z, mk (len dEdges) 0, cursor);
  '(targets', kinds', edgeIDs') ← sort_rows sortForwardSegment n offsets (targets, kinds, edgeIDs);
  Some (offsets, targets', kinds', edgeIDs').

Definition packReverse `{GoStd} (n : N) (outOffsets : list N) (outTargets : list NodeID)
    (outKinds : list KindID) : option (list N * list NodeID * list KindID * list N) :=
  degree ← count_degrees id n outTargets;
  offsets ← prefix_offsets n degree;
  cursor ← slice offsets 0 n;
  let e := len outTargets in
  '(sources, kinds, edgeIdx, _) ←
    foldM (λ st i,
      lo ← idx outOffsets i; hi ← idx outOffsets (i + 1);
      foldM (λ st j,
        dst ← idx outTargets j; k ← idx outKinds j;
        place_step dst (u32 i) k (u32 j) st) (range lo hi) st)
      (range 0 n) (mk e 0, mk e 0%Z, mk e 0, cursor);
  '(sources', kinds', edgeIdx') ← sort_rows sortReverseSegment n offsets (sources, kinds, edgeIdx);
  Some (offsets, sources', kinds', edgeIdx').

(** [Less] reads [ids[perm[i]]]; the entries of [perm] are slots, in range. *)
Definition buildEdgeIDPerm `{GoStd} (ids : list N) : list N :=
  let perm := u32 <$> range 0 (len ids) in
  go_sort (less_key (λ p, default 0 (idx ids p))) perm.

(** Resolving endpoints: an edge with a missing one is dropped and counted. *)
Definition resolveEdges (lookup : gmap N NodeID) (edges : list stagedEdge)
  : list denseEdge * N :=
  foldl (λ '(dEdges, dropped) e,
    match lookup !! se_start e with
    | None => (dEdges, dropped + 1)
    | Some src =>
        match lookup !! se_end e with
        | None => (dEdges, dropped + 1)
        | Some dst => (dEdges ++ [mkDenseEdge (se_id e) src dst (se_kind e)], dropped)
        end
    end) ([], 0) edges.

(** [m[id] = NodeID(i)] over a slice of ids. *)
Definition index_ids (ids : list N) : gmap N NodeID := index_list u32 ids.

(** *** Derived indexes *)

Section finalize.
Context `{GoStd}.

(** [finalizePropStore]'s loop: the nodes whose [objectid] is text. *)
Definition index_objectid (p : PropStore) (objID : N) (n : N)
  : option (gmap string NodeID * gmap string (list NodeID)) :=
  foldM (λ st i,
    let '(index, dup) := st in
    v ← PropStore_Value p (u32 i) objID;
    match v with
    | Some (AString s) =>
        let id := u32 i in
        match index !! s with
        | None => Some (<[s := id]> index, dup)
        | Some prev =>
            match dup !! s with
            | Some ids => Some (index, <[s := ids ++ [id]]> dup)
            | None => Some (index, <[s := [prev; id]]> dup)
            end
        end
    | _ => Some st
    end) (range 0 n) (∅, ∅).

Definition finalizePropStore (p : PropStore) (n : N) : option PropStore :=
  let ids := index_list u16 (ps_names p) in
  let p1 := mkPropStore (ps_names p) ids (ps_entries p) (ps_nodeOffsets p) (ps_arena p) ∅ ∅ in
  match IDByName p1 "objectid" with
  | None => Some p1
  | Some objID =>
      '(index, dup) ← index_objectid p1 objID n;
      Some (mkPropStore (ps_names p) ids (ps_entries p) (ps_nodeOffsets p) (ps_arena p) index dup)
  end.
End finalize.

Definition kind_step (n : N) (i : N) (st : KindID * gmap KindID Bitset) (k : KindID)
  : KindID * gmap KindID Bitset :=
  let '(maxKind, bitmaps) := st in
  let maxKind' := if (k >? maxKind)%Z then k else maxKind in
  let bm := match bitmaps !! k with Some bm => bm | None => NewBitset n end in
  (maxKind', <[k := Bitset_Set bm (u32 i)]> bitmaps).

Definition build_bitmaps (s : Snapshot) (n : N) : option (KindID * gmap KindID Bitset) :=
  foldM (λ st i,
    ks ← row (KindOffsets s) (NodeKinds s) i (i + 1);
    Some (foldl (kind_step n i) st ks)) (range 0 n) (0%Z, ∅).

Definition max_of (m : KindID) (ks : list KindID) : KindID :=
  foldl (λ m k, if (k >? m)%Z then k else m) m ks.

Definition mark_edge_kinds (maxKind : KindID) (ks : list KindID) : option (list bool) :=
  foldM (λ seen k, if (k >=? 0)%Z then upd seen (Z.to_N k) true else Some seen) ks
    (mk (Z.to_N (maxKind + 1)) false).

Definition find_self_loops (s : Snapshot) (n : N) : option (gset KindID) :=
  foldM (λ st i,
    lo ← idx (OutOffsets s) i; hi ← idx (OutOffsets s) (i + 1);
    foldM (λ st slot,
      t ← idx (OutTargets s) slot;
      if t =? u32 i then k ← idx (OutKinds s) slot; Some ({[k]} ∪ st) else Some st)
      (range lo hi) st) (range 0 n) ∅.

Definition finalizeDerived `{GoStd} (s : Snapshot) : option Snapshot :=
  let n := NodeCount s in
  let index := index_ids (GraphIDs s) in
  '(maxKind0, bitmaps) ← build_bitmaps s n;
  let maxKind := max_of maxKind0 (OutKinds s) in
  seen ← mark_edge_kinds maxKind (OutKinds s);
  loops ← find_self_loops s n;
  props ← finalizePropStore (Props s) n;
  Some (mkSnapshot (GraphID s) (GraphIDs s) (OutOffsets s) (OutTargets s) (OutKinds s)
    (OutEdgeIDs s) (InOffsets s) (InTargets s) (InKinds s) (InEdgeIdx s) (KindOffsets s)
    (NodeKinds s) maxKind (Kinds s) props (DroppedEdges s) (MultiGraph s) (WatermarkLineage s)
    index bitmaps loops seen (edgeIDPerm s)).

Definition buildPropStore (b : Builder) : PropStore :=
  mkPropStore (in_names (b_props b)) ∅ (b_propEntries b) (b_propOffsets b)
    (in_arena (b_props b)) ∅ ∅.

Definition Build `{GoStd} (b : Builder) : option Snapshot :=
  let n := len (b_ids b) in
  let lookup := index_ids (b_ids b) in
  let '(dEdges, dropped) := resolveEdges lookup (b_edges b) in
  '(outOffsets, outTargets, outKinds, outEdgeIDs) ← packForward n dEdges;
  '(inOffsets, inTargets, inKinds, inEdgeIdx) ← packReverse n outOffsets outTargets outKinds;
  kinds ← NewKindTable (b_kindTable b);
  finalizeDerived (mkSnapshot (b_graphID b) (b_ids b) outOffsets outTargets outKinds outEdgeIDs
    inOffsets inTargets inKinds inEdgeIdx (b_kindOffsets b) (b_kindsFlat b) 0%Z kinds
    (buildPropStore b) dropped false zero_lineage ∅ ∅ ∅ [] (buildEdgeIDPerm outEdgeIDs)).

(** ** Packing *)

Lemma zip3_fmap {X A B C} (fa : X → A) (fb : X → B) (fc : X → C) l :
  zip3 (fa <$> l) (fb <$> l) (fc <$> l) = (λ x, (fa x, fb x, fc x)) <$> l.
Proof. unfold zip3. induction l; csimpl; [done|]. by f_equal. Qed.

Lemma triple_eta {A B C} (l : list (A * B * C)) : (λ x, (x.1.1, x.1.2, x.2)) <$> l = l.
Proof. induction l as [|[[??]?] l IH]; csimpl; congruence. Qed.

Lemma foldM_fmap {S A B} (f : S → B → option S) (g : A → B) l s :
  foldM f (g <$> l) s = foldM (λ s x, f s (g x)) l s.
Proof. revert s. induction l as [|x l IH]; intros s; csimpl; [done|]. by destruct (f s (g x)); simpl. Qed.

Lemma go_sort_len `{GoStd} {A} (less : A → A → bool) l : len (go_sort less l) = len l.
Proof. unfold len. by rewrite go_sort_length. Qed.

Definition tri (e : denseEdge) : oedge := (de_dst e, de_kind e, de_id e).
Definition itri (x : N * N * oedge) : iedge := (x.1.1, oe_kind x.2, x.1.2).

Section packing.
Context `{GoStd}.

Definition sort_out (r : list oedge) : list oedge := go_sort (less_key2 oe_dst oe_kind) r.
Definition sort_in (r : list iedge) : list iedge :=
  go_sort (less_key2 (λ e : iedge, e.1.1) (λ e : iedge, e.1.2)) r.

Lemma cursor_spec {A} (rows : list (list A)) n : len rows = n →
  ∃ cursor, slice (offs rows) 0 n = Some cursor ∧ len cursor = n ∧
    ∀ i, i < n → idx cursor i = Some (len (concat (take (N.to_nat i) rows))).
Proof.
  intros Hn. destruct (slice_Some (offs rows) 0 n) as (cursor & -> & Hl & Hi); [lia| |].
  - rewrite len_offs. lia.
  - exists cursor. split_and!; [done|lia|]. intros i Hlt.
    rewrite Hi, decide_True, idx_offs by lia. done.
Qed.

Definition forward_rows (n : N) (dEdges : list denseEdge) : list (list oedge) :=
  sort_out <$> (fmap (M:=list) tri <$> rows_by de_src n dEdges).

Lemma packForward_spec n dEdges :
  (∀ e, e ∈ dEdges → de_src e < n) → len dEdges < 2 ^ 32 →
  let rows := forward_rows n dEdges in
  packForward n dEdges = Some (offs rows, oe_dst <$> concat rows, oe_kind <$> concat rows,
                               oe_id <$> concat rows).
Proof.
  intros Hsrc Hlen rows. unfold packForward.
  destruct (count_degrees_spec de_src n dEdges Hsrc Hlen) as (deg & -> & Hd & Hdi). simpl.
  rewrite (prefix_offsets_spec de_src n dEdges Hsrc Hlen deg Hd Hdi). simpl.
  set (rows0 := rows_by de_src n dEdges).
  destruct (cursor_spec rows0 n) as (cursor & -> & Hcl & Hci); [apply len_rows_by|]. simpl.
  rewrite <- (concat_rows_len de_src n dEdges Hsrc).
  destruct (place_spec de_src de_dst de_kind de_id 0 0%Z 0 n dEdges Hsrc cursor Hcl Hci)
    as (cursor' & ->). simpl.
  set (rows1 := fmap (M:=list) tri <$> rows0).
  assert (offs rows0 = offs rows1) as -> by (symmetry; apply offs_fmap).
  assert (∀ A (f : oedge → A), (λ e, f (tri e)) <$> concat rows0 = f <$> concat rows1) as Hproj.
  { intros A f. unfold rows1. rewrite concat_fmap, <- list_fmap_compose. done. }
  change de_dst with (λ e, oe_dst (tri e)). change de_kind with (λ e, oe_kind (tri e)).
  change de_id with (λ e, oe_id (tri e)). rewrite !Hproj.
  assert (n = len rows1) as Hn by (unfold rows1, rows0; by rewrite len_fmap, len_rows_by).
  rewrite Hn at 1.
  rewrite (sort_rows_spec oe_dst oe_kind oe_id _ sort_out).
  - simpl. unfold rows, forward_rows, rows1, rows0. do 4 f_equal.
    apply offs_ext; [by rewrite (len_fmap sort_out)|]. intros i r r' Hr. rewrite (idx_fmap sort_out), Hr.
    intros [= <-]. symmetry. apply go_sort_len.
  - intros r. apply go_sort_len.
  - intros r. unfold sortForwardSegment. rewrite zip3_fmap.
    assert ((λ x : oedge, (oe_dst x, oe_kind x, oe_id x)) <$> r = r) as -> by apply triple_eta.
    done.
Qed.

Definition reverse_rows (n : N) (rows : list (list oedge)) : list (list iedge) :=
  sort_in <$> (fmap (M:=list) itri <$> rows_by (λ x : N * N * oedge, oe_dst x.2) n (slots rows)).

Lemma packReverse_spec n (rows : list (list oedge)) :
  len rows = n → n < 2 ^ 32 → len (concat rows) < 2 ^ 32 →
  (∀ e, e ∈ concat rows → oe_dst e < n) →
  let irows := reverse_rows n rows in
  packReverse n (offs rows) (oe_dst <$> concat rows) (oe_kind <$> concat rows) =
    Some (offs irows, (λ e : iedge, e.1.1) <$> concat irows,
          (λ e : iedge, e.1.2) <$> concat irows, (λ e : iedge, e.2) <$> concat irows).
Proof.
  intros Hn Hn32 HE Hdst irows. set (key (x : N * N * oedge) := oe_dst x.2).
  assert (concat rows = snd <$> slots rows) as Hsnd.
  { apply fmap_by_idx; [by rewrite len_slots|]. intros p [[i j] e] Hp.
    by apply idx_slots in Hp as (_ & ? & _). }
  assert (∀ x, x ∈ slots rows → key x < n) as Hkey.
  { intros x Hx. apply Hdst. rewrite Hsnd. by apply list_elem_of_fmap_2. }
  assert (len (slots rows) < 2 ^ 32) as Hlen by (by rewrite len_slots).
  unfold packReverse.
  assert (count_degrees id n (oe_dst <$> concat rows) = count_degrees key n (slots rows)) as ->.
  { unfold count_degrees. by rewrite Hsnd, <- list_fmap_compose, foldM_fmap. }
  destruct (count_degrees_spec key n _ Hkey Hlen) as (deg & -> & Hd & Hdi). simpl.
  rewrite (prefix_offsets_spec key n _ Hkey Hlen deg Hd Hdi). simpl.
  set (rows0 := rows_by key n (slots rows)).
  destruct (cursor_spec rows0 n) as (cursor & -> & Hcl & Hci); [apply len_rows_by|]. simpl.
  rewrite <- Hn at 1. rewrite foldM_slots.
  rewrite (foldM_ext _ (λ st x, place_step (key x) x.1.1 (oe_kind x.2) x.1.2 st)).
  2: { intros st [[i j] e] Hx. apply elem_of_idx in Hx as [p Hp]. pose proof (idx_lt _ _ _ Hp) as Hpl.
    destruct (idx_slots _ _ _ _ _ Hp) as (-> & He & r & k & Hr & _).
    rewrite !idx_fmap, He. simpl. apply idx_lt in Hr. by rewrite !u32_small by lia. }
  assert (len (oe_dst <$> concat rows) = len (concat rows0)) as ->.
  { unfold rows0. rewrite (concat_rows_len key n _ Hkey). by rewrite len_fmap, len_slots. }
  destruct (place_spec key (λ x, x.1.1) (λ x, oe_kind x.2) (λ x, x.1.2) 0 0%Z 0 n _ Hkey
    cursor Hcl Hci) as (cursor' & Hplace). cbv beta in Hplace. fold rows0 in Hplace.
  rewrite Hplace. simpl.
  set (rows1 := fmap (M:=list) itri <$> rows0).
  assert (offs rows0 = offs rows1) as -> by (symmetry; apply offs_fmap).
  assert (∀ A (f : iedge → A), (λ x, f (itri x)) <$> concat rows0 = f <$> concat rows1) as Hproj.
  { intros A f. unfold rows1. rewrite concat_fmap, <- list_fmap_compose. done. }
  assert (n = len rows1) as Hn1 by (unfold rows1, rows0; by rewrite len_fmap, len_rows_by).
  rewrite Hn1 at 1.
  pose proof (Hproj _ (λ e, e.1.1)) as H1. pose proof (Hproj _ (λ e, e.1.2)) as H2.
  pose proof (Hproj _ (λ e, e.2)) as H3. simpl in H1, H2, H3. rewrite H1, H2, H3.
  rewrite (sort_rows_spec (λ e : iedge, e.1.1) (λ e : iedge, e.1.2) (λ e : iedge, e.2) _ sort_in).
  - simpl. change irows with (sort_in <$> rows1). do 4 f_equal.
    apply offs_ext; [by rewrite (len_fmap sort_in)|]. intros i r r' Hr.
    rewrite (idx_fmap sort_in), Hr. intros [= <-]. symmetry. apply go_sort_len.
  - intros r. apply go_sort_len.
  - intros r. unfold sortReverseSegment. rewrite zip3_fmap.
    assert ((λ x : iedge, (x.1.1, x.1.2, x.2)) <$> r = r) as -> by apply triple_eta.
    done.
Qed.
End packing.

(** ** The derived indexes *)

Lemma index_ids_spec ids : StronglySorted N.lt ids → len ids < 2 ^ 32 →
  ∀ id i, index_ids ids !! id = Some i ↔ idx ids i = Some id.
Proof.
  intros Hs Hl. apply index_list_spec; [by apply sorted_lt_NoDup|].
  intros i Hi. apply u32_small. lia.
Qed.

Lemma max_of_ge m ks : (m ≤ max_of m ks)%Z ∧ ∀ k, k ∈ ks → (k ≤ max_of m ks)%Z.
Proof.
  unfold max_of. revert m. induction ks as [|k ks IH]; intros m; simpl.
  - split; [lia|]. by intros k ?%not_elem_of_nil.
  - destruct (IH (if (k >? m)%Z then k else m)) as [H1 H2].
    assert (m ≤ (if (k >? m) then k else m) ∧ k ≤ (if (k >? m) then k else m))%Z
      by (destruct (Z.gtb_spec k m); lia).
    split; [lia|]. intros k' [->|Hk]%elem_of_cons; [lia|by apply H2].
Qed.

(** [bitmaps] represents the relation [P] between nodes below [n] and kinds. *)
Definition bitmaps_rep (n : N) (P : NodeID → KindID → Prop) (bitmaps : gmap KindID Bitset) : Prop :=
  ∀ k, match bitmaps !! k with
       | Some bm => Bitset_wf n bm ∧ ∀ i, Bitset_Has bm i = true ↔ P i k
       | None => ∀ i, ¬ P i k
       end.

Lemma bitmaps_rep_ext n (P Q : NodeID → KindID → Prop) bms : (∀ i k, P i k ↔ Q i k) →
  bitmaps_rep n P bms → bitmaps_rep n Q bms.
Proof.
  intros He Hr k. specialize (Hr k). destruct (bms !! k) as [bm|].
  - destruct Hr as [Hwf Hi]. split; [done|]. intros i. by rewrite Hi, He.
  - intros i. rewrite <- He. apply Hr.
Qed.

Lemma kind_step_rep n i P m bms k : i < n → n < 2 ^ 32 → bitmaps_rep n P bms →
  ∃ bms', kind_step n i (m, bms) k = (max_of m [k], bms') ∧
    bitmaps_rep n (λ i' k', P i' k' ∨ i' = i ∧ k' = k) bms'.
Proof.
  intros Hi Hn Hr. eexists. split; [done|]. rewrite u32_small by lia. intros k'.
  rewrite lookup_insert. case_decide as E.
  - subst k'. specialize (Hr k). destruct (bms !! k) as [bm|].
    + destruct Hr as [Hwf Hh]. split; [by apply Set_wf|]. intros j.
      rewrite (Set_Has n), orb_true_iff, Hh, N.eqb_eq by done. naive_solver.
    + assert (Bitset_wf n (NewBitset n)) by by apply NewBitset_wf.
      split; [by apply Set_wf|]. intros j.
      rewrite (Set_Has n), orb_true_iff, NewBitset_Has, N.eqb_eq by done. naive_solver.
  - specialize (Hr k'). destruct (bms !! k') as [bm|]; naive_solver.
Qed.

Lemma kinds_foldl_rep n i P ks m bms : i < n → n < 2 ^ 32 → bitmaps_rep n P bms →
  ∃ bms', foldl (kind_step n i) (m, bms) ks = (max_of m ks, bms') ∧
    bitmaps_rep n (λ i' k', P i' k' ∨ i' = i ∧ k' ∈ ks) bms'.
Proof.
  intros Hi Hn. revert P m bms. induction ks as [|k ks IH]; intros P m bms Hr; cbn [foldl].
  - eexists. split; [done|]. eapply bitmaps_rep_ext; [|done]. intros. rewrite elem_of_nil. tauto.
  - destruct (kind_step_rep n i P m bms k Hi Hn Hr) as (bms1 & -> & Hr1).
    destruct (IH _ (max_of m [k]) bms1 Hr1) as (bms2 & -> & Hr2).
    eexists. split; [done|]. eapply bitmaps_rep_ext; [|done].
    intros. rewrite elem_of_cons. naive_solver.
Qed.

Lemma build_bitmaps_spec s n (krows : list (list Z)) :
  len krows = n → n < 2 ^ 32 → KindOffsets s = offs krows → NodeKinds s = concat krows →
  ∃ bms, build_bitmaps s n = Some (max_of 0 (concat krows), bms) ∧
    bitmaps_rep n (λ i k, ∃ ks, idx krows i = Some ks ∧ k ∈ ks) bms.
Proof.
  intros Hl Hn Ho Hk. unfold build_bitmaps.
  destruct (for_inv (λ i st, st.1 = max_of 0 (concat (take (N.to_nat i) krows)) ∧
      bitmaps_rep n (λ j k, j < i ∧ ∃ ks, idx krows j = Some ks ∧ k ∈ ks) st.2)
    (λ st i, ks ← row (KindOffsets s) (NodeKinds s) i (i + 1);
      Some (foldl (kind_step n i) st ks)) 0 n (0%Z, ∅)) as ([m bms] & -> & Hm & Hr); [lia| | |].
  - split; [done|]. intros k. simpl. rewrite lookup_empty. intros i [? _]. lia.
  - intros i [m bms] _ Hi [Hm Hr]. simpl in *.
    destruct (idx_is_Some krows i) as [ks Hks]; [lia|].
    rewrite Ho, Hk, (row_offs _ _ _ Hks). simpl.
    destruct (kinds_foldl_rep n i _ ks m bms Hi Hn Hr) as (bms' & E & Hr').
    rewrite E. eexists. split; [done|]. simpl. split.
    + rewrite (take_S_idx _ _ _ Hks), concat_app, Hm. simpl. rewrite app_nil_r.
      unfold max_of. by rewrite foldl_app.
    + eapply bitmaps_rep_ext; [|done]. intros j k. split.
      * intros [[? ?]|[-> ?]]; [split; [lia|done]|split; [lia|eauto]].
      * intros (Hj & ks' & Hks' & Hin). destruct (decide (j = i)) as [->|].
        -- right. simplify_eq. done.
        -- left. split; [lia|eauto].
  - simpl in *. exists bms. split.
    + rewrite Hm, take_ge; [done|]. unfold len in Hl. lia.
    + eapply bitmaps_rep_ext; [|done]. intros j k. split; [naive_solver|].
      intros (ks & Hks & Hin). split; [|eauto]. apply idx_lt in Hks. lia.
Qed.

Lemma mark_edge_kinds_spec m ks : (0 ≤ m)%Z → (∀ k, k ∈ ks → (k ≤ m)%Z) →
  ∃ seen, mark_edge_kinds m ks = Some seen ∧ len seen = Z.to_N (m + 1) ∧
    ∀ k, (0 ≤ k)%Z → default false (idx seen (Z.to_N k)) = true ↔ k ∈ ks.
Proof.
  intros Hm Hks. unfold mark_edge_kinds.
  destruct (foldM_inv (λ pre seen, len seen = Z.to_N (m + 1) ∧
      ∀ k, (0 ≤ k)%Z → default false (idx seen (Z.to_N k)) = true ↔ k ∈ pre)
    (λ seen k, if (k >=? 0)%Z then upd seen (Z.to_N k) true else Some seen) ks
    (mk (Z.to_N (m + 1)) false)) as (seen & -> & ? & ?); [| |by eauto].
  - split; [apply len_mk|]. intros k Hk. rewrite elem_of_nil. split; [|done].
    destruct (decide (Z.to_N k < Z.to_N (m + 1))); [by rewrite idx_mk|].
    rewrite idx_ge; [done|]. rewrite len_mk. lia.
  - intros pre k post seen Hl [Hlen Hseen].
    assert (k ≤ m)%Z by (apply Hks; rewrite Hl; set_solver).
    destruct (Z.geb_spec k 0) as [Hk0|Hk0].
    + destruct (upd_Some seen (Z.to_N k) true) as (seen' & -> & Hl' & Hi'); [lia|].
      eexists. split; [done|]. split; [lia|]. intros k' Hk'.
      rewrite Hi', elem_of_app, list_elem_of_singleton. case_decide as E.
      * split; [|done]. intros _. right. lia.
      * rewrite Hseen by done. split; [by left|]. intros [?| ->]; [done|lia].
    + eexists. split; [done|]. split; [done|]. intros k' Hk'.
      rewrite elem_of_app, list_elem_of_singleton, Hseen by done.
      split; [by left|]. intros [?| ->]; [done|lia].
Qed.

Lemma find_self_loops_spec s (orows : list (list oedge)) :
  len orows < 2 ^ 32 → OutOffsets s = offs orows →
  OutTargets s = oe_dst <$> concat orows → OutKinds s = oe_kind <$> concat orows →
  ∃ loops, find_self_loops s (len orows) = Some loops ∧
    ∀ k, k ∈ loops ↔ ∃ i j e, (i, j, e) ∈ slots orows ∧ oe_dst e = i ∧ oe_kind e = k.
Proof.
  intros Hn Ho Ht Hk. unfold find_self_loops. rewrite Ho.
  rewrite (foldM_slots (λ (st : gset KindID) i slot, t ← idx (OutTargets s) slot;
    if t =? u32 i then k ← idx (OutKinds s) slot; Some ({[k]} ∪ st) else Some st)).
  destruct (foldM_inv (λ pre (st : gset KindID), ∀ k, k ∈ st ↔
      ∃ i j e, (i, j, e) ∈ pre ∧ oe_dst e = i ∧ oe_kind e = k)
    (λ st '(i, slot, _), t ← idx (OutTargets s) slot;
      if t =? u32 i then k ← idx (OutKinds s) slot; Some ({[k]} ∪ st) else Some st)
    (slots orows) ∅) as (loops & -> & Hl); [| |by eauto].
  - intros k. split; [by intros ?%not_elem_of_empty|]. intros (? & ? & ? & ?%not_elem_of_nil & _). done.
  - intros pre [[i j] e] post st Hs Hst.
    assert (idx (slots orows) (len pre) = Some (i, j, e)) as Hx.
    { rewrite Hs, idx_app_r, N.sub_diag by lia. done. }
    destruct (idx_slots _ _ _ _ _ Hx) as (_ & He & r & q & Hr & _ & _).
    pose proof (idx_slots _ _ _ _ _ Hx) as (-> & _). apply idx_lt in Hr.
    rewrite Ht, Hk, !idx_fmap, He. simpl. rewrite u32_small by lia.
    assert (∀ k, (∃ i' j' e', (i', j', e') ∈ pre ++ [(i, len pre, e)] ∧ oe_dst e' = i' ∧ oe_kind e' = k) ↔
      (∃ i' j' e', (i', j', e') ∈ pre ∧ oe_dst e' = i' ∧ oe_kind e' = k) ∨
      (oe_dst e = i ∧ oe_kind e = k)) as Hsn.
    { intros k. setoid_rewrite elem_of_app. setoid_rewrite list_elem_of_singleton. naive_solver. }
    destruct (N.eqb_spec (oe_dst e) i) as [E|E]; eexists; (split; [done|]); intros k; rewrite Hsn, <- Hst.
    + set_solver.
    + naive_solver.
Qed.

(** ** The property store *)

Lemma objectid_nodes_app bags i bag v : idx bags i = Some bag →
  objectid_nodes (take (N.to_nat (i + 1)) bags) v =
    objectid_nodes (take (N.to_nat i) bags) v ++
      (if decide (bag_objectid bag = Some v) then [i] else []).
Proof.
  intros Hi. unfold objectid_nodes. rewrite (take_S_idx _ _ _ Hi).
  set (pre := take (N.to_nat i) bags).
  assert (len pre = i) as Hl.
  { unfold pre, len. rewrite length_take. apply idx_lt in Hi. unfold len in Hi. lia. }
  assert (len (pre ++ [bag]) = i + 1) as -> by (autorewrite with lens; lia).
  rewrite range_snoc, filter_app, Hl by lia. f_equal.
  - apply filter_ext_in. intros j Hj%elem_of_range. by rewrite idx_app_l by lia.
  - assert (idx (pre ++ [bag]) i = Some bag) as Hs by (rewrite <- Hl at 1; apply idx_snoc).
    rewrite filter_cons, Hs, filter_nil. done.
Qed.

(** [index] and [dup] hold the nodes [ns v] of each text [v]. *)
Definition object_maps (ns : string → list NodeID)
    (st : gmap string NodeID * gmap string (list NodeID)) : Prop :=
  ∀ v, match ns v with
       | [] => st.1 !! v = None ∧ st.2 !! v = None
       | [x] => st.1 !! v = Some x ∧ st.2 !! v = None
       | x :: l => st.1 !! v = Some x ∧ st.2 !! v = Some (x :: l)
       end.

Lemma object_maps_read ns p : object_maps ns (ps_objectIndex p, ps_objectIndexDup p) →
  ∀ v, PropStore_NodesByObjectID p v = found (ns v).
Proof.
  intros H v. specialize (H v). unfold PropStore_NodesByObjectID. simpl in H.
  destruct (ns v) as [|x [|y l]]; destruct H as [H1 H2]; by rewrite ?H1, ?H2.
Qed.

Section prop_store.
Context `{GoStd}.

Definition string_value (v : option pval) : option string :=
  match v with
  | Some (kind, _, bs) => if kind =? propKindString then Some (string_of_bytes bs) else None
  | None => None
  end.
Definition any_string (a : option any) : option string :=
  match a with Some (AString s) => Some s | _ => None end.

(** Decoding yields a string exactly for the string kind. *)
Lemma decode_string v a : decode_pval v = Some a → any_string (Some a) = string_value (Some v).
Proof.
  destruct v as [[kind num] bs]. unfold decode_pval, string_value.
  destruct (N.eqb_spec kind propKindString) as [->|]; [by intros [= <-]|].
  repeat case_match; intros; simplify_option_eq; done.
Qed.

Lemma index_objectid_spec p objID bags : len bags < 2 ^ 32 →
  (∀ n bag, idx bags n = Some bag → ∃ a, PropStore_Value p n objID = Some a ∧
     any_string a = bag_objectid bag) →
  ∃ st, index_objectid p objID (len bags) = Some st ∧ object_maps (objectid_nodes bags) st.
Proof.
  intros Hn Hval. unfold index_objectid.
  edestruct (for_inv (λ i st, object_maps (objectid_nodes (take (N.to_nat i) bags)) st))
    as (st & -> & Hst); [apply N.le_0_l|by intros v| |].
  - intros i [index dup] _ Hi Hst. destruct (idx_is_Some bags i Hi) as [bag Hb].
    destruct (Hval _ _ Hb) as (a & Ha & Hs). rewrite u32_small, Ha by lia. simpl.
    assert (∀ v, objectid_nodes (take (N.to_nat (i + 1)) bags) v =
      objectid_nodes (take (N.to_nat i) bags) v ++
        (if decide (any_string a = Some v) then [i] else [])) as Hnx.
    { intros v. rewrite Hs. by apply objectid_nodes_app. }
    destruct (any_string a) as [s|] eqn:Ea.
    + destruct a as [[]|]; simplify_eq/=. pose proof (Hst s) as Hss.
      assert (∀ index' dup', (∀ v, v ≠ s → index' !! v = index !! v ∧ dup' !! v = dup !! v) →
        match objectid_nodes (take (N.to_nat i) bags) s with
        | [] => index' !! s = Some i ∧ dup' !! s = None
        | x :: l => index' !! s = Some x ∧ dup' !! s = Some (x :: l ++ [i])
        end → object_maps (objectid_nodes (take (N.to_nat (i + 1)) bags)) (index', dup')) as Hgo.
      { intros index' dup' Hne Hsx v. rewrite Hnx. specialize (Hst v). case_decide as E.
        - simplify_eq. by destruct (objectid_nodes _ _) as [|x [|y l]].
        - destruct (Hne v ltac:(congruence)) as [E1 E2]. simpl.
          by rewrite E1, E2, app_nil_r. }
      simpl in Hss. destruct (objectid_nodes (take (N.to_nat i) bags) s) as [|x [|y l]];
        destruct Hss as [E1 E2]; rewrite E1, ?E2; eexists; (split; [done|]); apply Hgo;
        try (intros v Hv; rewrite ?lookup_insert_ne by done; done);
        rewrite ?lookup_insert_eq, ?E1, ?E2; done.
    + assert (object_maps (objectid_nodes (take (N.to_nat (i + 1)) bags)) (index, dup)) as Hgo.
      { intros v. rewrite Hnx, decide_False, app_nil_r by done. apply Hst. }
      destruct a as [[]|]; try done; eauto.
  - exists st. split; [done|]. by rewrite take_ge in Hst by (unfold len; lia).
Qed.

(** What the builder hands to [finalizePropStore] reads as [bags]. *)
Lemma finalizePropStore_spec p rows bags :
  PropStore_rep (mkPropStore (ps_names p) (index_list u16 (ps_names p)) (ps_entries p)
    (ps_nodeOffsets p) (ps_arena p) ∅ ∅) rows bags → len bags < 2 ^ 32 →
  (∀ bag, bag ∈ bags → bag_decodable bag) →
  ∃ p', finalizePropStore p (len bags) = Some p' ∧ PropStore_rep p' rows bags ∧
    ∀ v, PropStore_NodesByObjectID p' v = found (objectid_nodes bags v).
Proof.
  intros Hrep Hn Hdec. unfold finalizePropStore.
  set (p1 := mkPropStore _ (index_list _ _) _ _ _ ∅ ∅) in *.
  pose proof (store_value p1 rows bags Hrep Hn) as Hval.
  destruct (IDByName p1 "objectid") as [objID|] eqn:Hid.
  - destruct (index_objectid_spec p1 objID bags Hn) as ([index dup] & -> & Hst).
    + intros n bag Hb. specialize (Hval n bag "objectid"%string Hb). rewrite Hid in Hval.
      rewrite Hval. unfold bag_objectid.
      destruct (bag !! "objectid"%string) as [v|] eqn:Ev; [|by exists None].
      destruct (Hdec bag (idx_elem_of _ _ _ Hb) _ _ Ev) as [a Ha]. rewrite Ha.
      exists (Some a). split; [done|]. by rewrite (decode_string _ _ Ha).
    + simpl. eexists. split; [done|]. split; [by destruct Hrep; split|].
      by apply object_maps_read.
  - eexists. split; [done|]. split; [done|]. intros v. unfold PropStore_NodesByObjectID. simpl.
    rewrite !lookup_empty. unfold objectid_nodes. rewrite filter_nil_none; [done|]. intros i _ Hi.
    destruct (idx bags i) as [bag|] eqn:Hb; [|done].
    specialize (Hval i bag "objectid"%string Hb). rewrite Hid in Hval. simpl in Hi.
    unfold bag_objectid in Hi. destruct (bag !! "objectid"%string); done.
Qed.
End prop_store.

(** ** [finalizeDerived] *)

Definition staged_store (p : PropStore) : PropStore :=
  mkPropStore (ps_names p) (index_list u16 (ps_names p)) (ps_entries p)
    (ps_nodeOffsets p) (ps_arena p) ∅ ∅.

Lemma finalizeDerived_spec `{GoStd} s L : packed_rep s L →
  PropStore_rep (staged_store (Props s)) (lo_props L) (lo_bags L) →
  len (lo_props L) = len (lo_ids L) → (∀ bag, bag ∈ lo_bags L → bag_decodable bag) →
  ∃ s', finalizeDerived s = Some s' ∧ Snapshot_rep s' L ∧
    GraphID s' = GraphID s ∧ Kinds s' = Kinds s ∧ DroppedEdges s' = DroppedEdges s ∧
    MultiGraph s' = MultiGraph s ∧ WatermarkLineage s' = WatermarkLineage s.
Proof.
  intros HP Hst Hpl Hdec. unfold finalizeDerived.
  assert (NodeCount s = len (lo_ids L)) as Hn by (unfold NodeCount; by rewrite (pk_ids _ _ HP)).
  destruct (build_bitmaps_spec s (NodeCount s) (lo_kinds L)) as (bms & -> & Hbms).
  { by rewrite Hn, (pk_kind_len _ _ HP). }
  { rewrite Hn. apply (pk_n _ _ HP). }
  { apply (pk_koff _ _ HP). } { apply (pk_nkinds _ _ HP). } simpl.
  set (m0 := max_of 0 (concat (lo_kinds L))). set (m := max_of m0 (OutKinds s)).
  destruct (max_of_ge 0 (concat (lo_kinds L))) as [H0 H0k]. fold m0 in H0, H0k.
  destruct (max_of_ge m0 (OutKinds s)) as [H1 H1k]. fold m in H1, H1k.
  destruct (mark_edge_kinds_spec m (OutKinds s)) as (seen & -> & Hsl & Hseen); [lia|done|]. simpl.
  rewrite Hn, <- (pk_out_len _ _ HP).
  destruct (find_self_loops_spec s (lo_out L)) as (loops & -> & Hloops).
  { rewrite (pk_out_len _ _ HP). apply (pk_n _ _ HP). }
  { apply (pk_out _ _ HP). } { apply (pk_targets _ _ HP). } { apply (pk_kinds _ _ HP). } simpl.
  pose proof (psr_len _ _ _ Hst) as Hbl. rewrite (pk_out_len _ _ HP), <- Hpl, Hbl.
  destruct (finalizePropStore_spec (Props s) _ _ Hst) as (p' & -> & Hp' & Hobj);
    [rewrite <- Hbl, Hpl; apply (pk_n _ _ HP)|done|]. simpl.
  eexists. split; [done|]. split; [|done]. split; [by destruct HP; split|].
  assert (∀ k, k ∈ OutKinds s ↔ ∃ e, e ∈ concat (lo_out L) ∧ oe_kind e = k) as Hok.
  { intros k. rewrite (pk_kinds _ _ HP), list_elem_of_fmap. naive_solver. }
  split; simpl; try done.
  - rewrite (pk_ids _ _ HP). apply index_ids_spec; [apply (pk_sorted _ _ HP)|apply (pk_n _ _ HP)].
  - intros k. specialize (Hbms k). rewrite Hn in Hbms. destruct (bms !! k); [done|].
    intros ks [i Hi]%elem_of_idx Hin. by apply (Hbms i); eauto.
  - split_and!; [lia| |].
    + intros ks k Hks Hk. transitivity m0; [|lia]. apply H0k, list_elem_of_In, in_concat.
      exists ks. by rewrite <- !list_elem_of_In.
    + intros e He. apply H1k, Hok. eauto.
  - intros k. unfold hasEdgeKind. simpl. rewrite !andb_true_iff, !bool_decide_eq_true, Hsl.
    rewrite <- Hok. split.
    + intros [[Hk _] E]. split; [done|]. by apply Hseen.
    + intros [Hk E]. pose proof (H1k _ E). split_and!; [done|lia|by apply Hseen].
Qed.

(** ** Resolving edges and sorting slots *)

Lemma buildEdgeIDPerm_spec `{GoStd} ids : len ids < 2 ^ 32 →
  buildEdgeIDPerm ids ≡ₚ range 0 (len ids) ∧
  StronglySorted (λ a b, ∀ x y, idx ids a = Some x → idx ids b = Some y → x ≤ y)
    (buildEdgeIDPerm ids).
Proof.
  intros Hl. unfold buildEdgeIDPerm.
  assert (u32 <$> range 0 (len ids) = range 0 (len ids)) as ->.
  { rewrite <- (list_fmap_id (range 0 (len ids))) at 2. apply list_fmap_ext.
    intros i x Hx%list_elem_of_lookup_2. apply elem_of_range in Hx as [_ Hx]. by apply u32_small, (N.lt_trans _ (len ids)). }
  split; [apply go_sort_perm|].
  eapply StronglySorted_weaken; [|apply go_sort_sorted, is_less_key].
  intros a b Hab x y Hx Hy. apply le_of_key in Hab. by rewrite Hx, Hy in Hab.
Qed.

(** The edges whose endpoints the lookup knows, and the number of the others. *)
Definition resolved (lookup : gmap N NodeID) (e : stagedEdge) : option denseEdge :=
  src ← lookup !! se_start e; dst ← lookup !! se_end e;
  Some (mkDenseEdge (se_id e) src dst (se_kind e)).

Lemma resolveEdges_spec lookup edges :
  resolveEdges lookup edges = (omap (resolved lookup) edges,
    len (filter (λ e, resolved lookup e = None) edges)).
Proof.
  unfold resolveEdges.
  enough (∀ acc d, foldl (λ '(dEdges, dropped) e,
    match lookup !! se_start e with
    | None => (dEdges, dropped + 1)
    | Some src =>
        match lookup !! se_end e with
        | None => (dEdges, dropped + 1)
        | Some dst => (dEdges ++ [mkDenseEdge (se_id e) src dst (se_kind e)], dropped)
        end
    end) (acc, d) edges = (acc ++ omap (resolved lookup) edges,
      d + len (filter (λ e, resolved lookup e = None) edges))) as ->.
  { done. }
  induction edges as [|e edges IH]; intros acc d; cbn [foldl].
  { rewrite app_nil_r. f_equal. unfold len. simpl. lia. }
  transitivity (match resolved lookup e with
    | Some de => (acc ++ [de] ++ omap (resolved lookup) edges,
        d + len (filter (λ e, resolved lookup e = None) edges))
    | None => (acc ++ omap (resolved lookup) edges,
        d + 1 + len (filter (λ e, resolved lookup e = None) edges)) end).
  { unfold resolved at 1. destruct (lookup !! se_start e); simpl; [|by rewrite IH].
    destruct (lookup !! se_end e); simpl; rewrite IH; [by rewrite <- app_assoc|done]. }
  rewrite filter_cons. cbn [omap list_omap]. destruct (resolved lookup e); simpl; [done|].
  rewrite len_cons. f_equal; lia.
Qed.

(** ** The staged nodes *)

(** A staged node: database id, kinds, bag. *)
Abbreviation node_rec := (N * list Z * gmap string pval)%type (only parsing).
Definition nd_id (x : node_rec) : N := x.1.1.
Definition nd_kinds (x : node_rec) : list Z := x.1.2.
Definition nd_bag (x : node_rec) : gmap string pval := x.2.

(** The builder has staged [nodes], whose entries are the runs [prows]. *)
Record Builder_rep (b : Builder) (nodes : list node_rec) (prows : list (list propEntry)) : Prop := {
  br_ids : b_ids b = nd_id <$> nodes;
  br_sorted : StronglySorted N.lt (b_ids b);
  br_flat : b_kindsFlat b = concat (nd_kinds <$> nodes);
  br_koff : b_kindOffsets b = offs (nd_kinds <$> nodes);
  br_kbound : len (b_kindsFlat b) < 2 ^ 32;
  br_ents : b_propEntries b = concat prows;
  br_poff : b_propOffsets b = offs prows;
  br_plen : len prows = len nodes;
  br_in : interner_ok (b_props b);
  br_rows : ∀ i es nd, idx prows i = Some es → idx nodes i = Some nd →
    ∃ bs, row_ok (in_names (b_props b)) (in_arena (b_props b)) es bs ∧ bag_of bs = nd_bag nd;
}.

Lemma interner_empty_ok : interner_ok interner_empty.
Proof.
  split; simpl; [constructor|done| |done]. intros name i. by rewrite lookup_empty, idx_nil.
Qed.

Lemma NewBuilder_rep g : Builder_rep (NewBuilder g) [] [].
Proof.
  split; try done; [constructor|apply interner_empty_ok].
Qed.

Lemma row_ok_extends st st' es bs : extends st st' →
  row_ok (in_names st) (in_arena st) es bs → row_ok (in_names st') (in_arena st') es bs.
Proof.
  intros Hex [Hm Hs]. split; [|done]. apply mapM_Some. apply mapM_Some in Hm.
  eapply Forall2_impl; [done|]. intros e b. by apply entry_binding_extends.
Qed.

Lemma row_ok_size names arena es bs : NoDup names → row_ok names arena es bs →
  len es = N.of_nat (size (bag_of bs)).
Proof.
  intros Hnd Hrow. pose proof (row_nodup _ _ _ _ Hnd Hrow) as Hbn. destruct Hrow as [Hm _].
  apply mapM_Some, Forall2_length in Hm. unfold len, bag_of. rewrite Hm.
  by rewrite <- (length_map_to_list (list_to_map bs)), map_to_list_to_map.
Qed.

(** Growing the interner keeps what was staged. *)
Lemma set_props_rep b nodes prows p : Builder_rep b nodes prows → interner_ok p →
  extends (b_props b) p → Builder_rep (set_props b p) nodes prows.
Proof.
  intros [] Hok Hex. split; try done. intros i es nd Hes Hnd.
  destruct (br_rows0 _ _ _ Hes Hnd) as (bs & ? & ?). exists bs. split; [|done].
  by eapply row_ok_extends.
Qed.

Lemma append_rep b nodes prows id kinds bag es bs : Builder_rep b nodes prows →
  (∀ nd, nd ∈ nodes → nd_id nd < id) →
  row_ok (in_names (b_props b)) (in_arena (b_props b)) es bs → bag_of bs = bag →
  len (b_kindsFlat b) + len kinds < 2 ^ 32 → len (b_propEntries b) + len es < 2 ^ 32 →
  ∃ b', (append_entries es ;;! append_node id kinds)%go b = Some (b', inl ()) ∧
    Builder_rep b' (nodes ++ [(id, kinds, bag)]) (prows ++ [es]) ∧
    b_graphID b' = b_graphID b ∧ b_edges b' = b_edges b ∧ b_kindTable b' = b_kindTable b.
Proof.
  intros [] Hid Hrow Hbag Hk Hp. unfold go_bind, append_entries, append_node.
  eexists. split; [done|]. split; [|done]. split; simpl.
  - by rewrite br_ids0, fmap_app.
  - apply StronglySorted_app_2; [|done|by repeat constructor].
    intros x y Hx ->%list_elem_of_singleton. rewrite br_ids0 in Hx.
    apply list_elem_of_fmap in Hx as (nd & -> & Hin). by apply Hid.
  - rewrite br_flat0, fmap_app, concat_app. simpl. by rewrite app_nil_r.
  - rewrite fmap_app. simpl. rewrite offs_snoc, u32_small by (rewrite len_app; lia).
    by rewrite br_koff0, br_flat0.
  - rewrite len_app. lia.
  - rewrite br_ents0, concat_app. simpl. by rewrite app_nil_r.
  - rewrite offs_snoc, u32_small by (rewrite len_app; lia).
    by rewrite br_poff0, br_ents0.
  - rewrite !len_app, br_plen0. done.
  - done.
  - intros i es' nd Hes Hnd. destruct (decide (i < len nodes)) as [Hi|Hi].
    + rewrite idx_app_l in Hes by lia. rewrite idx_app_l in Hnd by lia. by eapply br_rows0.
    + rewrite idx_app_r in Hes by lia. rewrite idx_app_r in Hnd by lia.
      rewrite br_plen0, idx_cons in Hes. rewrite idx_cons in Hnd.
      case_decide; [|by rewrite idx_nil in Hes]. simplify_eq. by eauto.
Qed.

(** ** Adding a node *)

Section add.
Context `{GoStd}.

(** What a staging computation that means [bag] does to the interner. *)
Definition stages (m : go interner (list propEntry)) (bag : gmap string pval) : Prop :=
  ∀ st, interner_ok st → ∃ st' r, m st = Some (st', r) ∧ interner_ok st' ∧ extends st st' ∧
    match r with
    | inl es => ∃ bs, row_ok (in_names st') (in_arena st') es bs ∧ bag_of bs = bag
    | inr err => err = ErrTooManyProps ∨ err = ErrArenaFull
    end.

Definition add_node (m : go interner (list propEntry)) id kinds : go Builder () :=
  (check_ascending id ;;! let! es := on_props m in append_entries es ;;! append_node id kinds)%go.

Lemma check_ascending_spec b nodes prows id : Builder_rep b nodes prows →
  (check_ascending id b = Some (b, inl ()) ∧ ∀ nd, nd ∈ nodes → nd_id nd < id) ∨
  (∃ nd, nd ∈ nodes ∧ id ≤ nd_id nd ∧
     check_ascending id b = Some (b, inr (ErrNotAscending id (nd_id nd)))).
Proof.
  intros Hrep. unfold check_ascending. pose proof (br_sorted _ _ _ Hrep) as Hs.
  rewrite (br_ids _ _ _ Hrep) in *. rewrite fmap_last. destruct (last nodes) as [nd|] eqn:El; simpl.
  - assert (nd ∈ nodes) as Hin by by apply last_Some_elem_of.
    destruct (N.leb_spec id (nd_id nd)) as [|Hlt]; [right; eauto|left]. split; [done|].
    intros nd' Hin'. apply last_Some in El as [l' ->].
    apply elem_of_app in Hin' as [Hin'| ->%list_elem_of_singleton]; [|done].
    rewrite fmap_app in Hs. apply N.lt_trans with (nd_id nd); [|done].
    by eapply StronglySorted_app_1_elem_of; [exact Hs|apply list_elem_of_fmap_2|left].
  - left. split; [done|]. apply last_None in El as ->. by intros nd ?%not_elem_of_nil.
Qed.

Lemma add_node_spec m bag b nodes prows id kinds : stages m bag → Builder_rep b nodes prows →
  len (b_kindsFlat b) + len kinds < 2 ^ 32 →
  len (b_propEntries b) + N.of_nat (size bag) < 2 ^ 32 →
  ∃ b' r, add_node m id kinds b = Some (b', r) ∧
    b_graphID b' = b_graphID b ∧ b_edges b' = b_edges b ∧ b_kindTable b' = b_kindTable b ∧
    match r with
    | inl _ => (∀ nd, nd ∈ nodes → nd_id nd < id) ∧ ∃ es,
        Builder_rep b' (nodes ++ [(id, kinds, bag)]) (prows ++ [es]) ∧
        len (b_propEntries b') = len (b_propEntries b) + N.of_nat (size bag)
    | inr err => Builder_rep b' nodes prows ∧
        (err = ErrTooManyProps ∨ err = ErrArenaFull ∨
         ∃ nd, nd ∈ nodes ∧ id ≤ nd_id nd ∧ err = ErrNotAscending id (nd_id nd))
    end.
Proof.
  intros Hm Hrep Hk Hp. unfold add_node, go_bind at 1.
  destruct (check_ascending_spec _ _ _ id Hrep) as [[-> Hid]|(nd & Hin & Hle & ->)].
  2: { eexists _, _. split; [done|]. simpl. by eauto 10. }
  simpl. unfold go_bind at 1, on_props.
  destruct (Hm _ (br_in _ _ _ Hrep)) as (p & r & -> & Hok & Hex & Hr). simpl.
  pose proof (set_props_rep _ _ _ _ Hrep Hok Hex) as Hrep'.
  destruct r as [es|err]; [|eexists _, _; split; [done|]; naive_solver].
  destruct Hr as (bs & Hrow & Hbag).
  pose proof (row_ok_size _ _ _ _ (in_nodup _ Hok) Hrow) as Hsz. rewrite Hbag in Hsz.
  destruct (append_rep _ _ _ id kinds bag es bs Hrep' Hid Hrow Hbag) as (b' & Hb' & Hrep2 & Hf);
    [done|simpl; lia|].
  rewrite Hb'. eexists _, _. split; [done|]. simpl in Hf. destruct Hf as (? & ? & ?).
  split_and!; [done..|]. exists es. split; [done|].
  rewrite (br_ents _ _ _ Hrep2), (br_ents _ _ _ Hrep), concat_app, len_app. simpl.
  rewrite app_nil_r. lia.
Qed.

Lemma addParsedNode_eq id kinds parsed b :
  addParsedNode id kinds parsed b = add_node (stage_parsed parsed) id kinds b.
Proof.
  unfold addParsedNode, add_node, commitNodeProps, go_bind.
  destruct (check_ascending id b) as [[b1 [[]|]]|]; simpl; [|done..].
  by destruct (on_props (stage_parsed parsed) b1) as [[b2 []]|].
Qed.

Lemma stages_parsed parsed : NoDup (pp_name <$> parsed) →
  stages (stage_parsed parsed) (parsed_bag parsed).
Proof. intros Hnd st Hok. by apply stage_parsed_spec. Qed.

Lemma stages_prepared names arena es bs : NoDup names → len arena < 2 ^ 32 →
  row_ok names arena es bs → stages (stage_prepared (mkPreparedProps es names arena)) (bag_of bs).
Proof. intros ??? st Hok. by eapply stage_prepared_spec. Qed.
End add.

(** ** The packed arrays *)

(** The edges in terms of database ids. *)
Abbreviation edge_rec := (N * (N * N * Z))%type (only parsing).
Definition slot_edge (ids : list N) (x : N * N * oedge) : edge_rec :=
  (oe_id x.2, (default 0 (idx ids x.1.1), default 0 (idx ids (oe_dst x.2)), oe_kind x.2)).
Definition lo_edges (L : layout) : list edge_rec := slot_edge (lo_ids L) <$> lo_slots L.

Lemma concat_Permutation {A} (l k : list (list A)) :
  Forall2 Permutation l k → concat l ≡ₚ concat k.
Proof. induction 1; simpl; [done|]. by apply Permutation_app. Qed.

Lemma slots_from_pairs {A} i o (rows : list (list A)) :
  (λ x : N * N * A, (x.1.1, x.2)) <$> slots_from i o rows =
    concat (zip_with (λ i r, (λ e, (i, e)) <$> r) (range i (i + len rows)) rows).
Proof.
  revert i o. induction rows as [|r rows IH]; intros i o.
  { rewrite range_nil by (rewrite len_nil; lia). done. }
  rewrite len_cons, range_cons by lia. simpl. rewrite fmap_app, IH. f_equal.
  - clear IH. revert o. induction r as [|e r IH]; intros o.
    + rewrite range_nil by (rewrite len_nil; lia). done.
    + rewrite len_cons, range_cons by lia. simpl.
      replace (o + (len r + 1)) with (o + 1 + len r) by lia. by rewrite IH.
  - by replace (i + (len rows + 1)) with (i + 1 + len rows) by lia.
Qed.

Section pack_rep.
Context `{GoStd}.
Context (n : N) (dEdges : list denseEdge).
Hypothesis Hsrc : ∀ e, e ∈ dEdges → de_src e < n.

Definition dense_pair (e : denseEdge) : N * oedge := (de_src e, tri e).

Lemma sort_out_perm r : sort_out r ≡ₚ r.
Proof. apply go_sort_perm. Qed.

Lemma len_forward_rows : len (forward_rows n dEdges) = n.
Proof. unfold forward_rows. by rewrite !len_fmap, len_rows_by. Qed.

(** The slots of the forward rows are the edges. *)
Lemma forward_rows_perm : (λ x, (x.1.1, x.2)) <$> slots (forward_rows n dEdges) ≡ₚ
  dense_pair <$> dEdges.
Proof.
  unfold slots. rewrite slots_from_pairs, len_forward_rows, N.add_0_l.
  transitivity (concat ((fmap (M:=list) dense_pair) <$> rows_by de_src n dEdges)).
  - apply concat_Permutation. unfold forward_rows, rows_by.
    rewrite zip_with_fmap_r, zip_with_fmap_r, zip_with_fmap_r, zip_with_diag.
    rewrite <- list_fmap_compose. apply Forall2_fmap, Forall_Forall2_diag, Forall_forall.
    intros i _. simpl. rewrite sort_out_perm, <- list_fmap_compose. apply reflexive_eq.
    apply list_fmap_ext. intros k e He%list_elem_of_lookup_2.
    by apply list_elem_of_filter in He as [<- _].
  - rewrite concat_fmap. by rewrite (rows_by_perm de_src n dEdges).
Qed.

Lemma forward_edges_perm : concat (forward_rows n dEdges) ≡ₚ tri <$> dEdges.
Proof.
  assert (concat (forward_rows n dEdges) =
    snd <$> ((λ x, (x.1.1, x.2)) <$> slots (forward_rows n dEdges))) as ->.
  { rewrite <- list_fmap_compose. apply fmap_by_idx; [by rewrite len_slots|].
    intros p [[i j] e] Hp. by apply idx_slots in Hp as (_ & ? & _). }
  rewrite forward_rows_perm, <- list_fmap_compose. done.
Qed.

Hypothesis Hdst : ∀ e, e ∈ dEdges → de_dst e < n.
Hypothesis Hlen : len dEdges < 2 ^ 32.

Lemma forward_concat : len (concat (forward_rows n dEdges)) = len dEdges ∧
  ∀ e, e ∈ concat (forward_rows n dEdges) → oe_dst e < n.
Proof.
  split.
  - unfold len. by rewrite forward_edges_perm, length_fmap.
  - intros e He. rewrite forward_edges_perm in He.
    apply list_elem_of_fmap in He as (e' & -> & ?). by apply Hdst.
Qed.

(** Packing the edges and deriving the reverse rows gives represented arrays. *)
Lemma pack_rep (krows : list (list Z)) (ids : list N) prows bags s :
  n = len ids → StronglySorted N.lt ids → len ids < 2 ^ 32 →
  len krows = len ids → len (concat krows) < 2 ^ 32 →
  let orows := forward_rows n dEdges in
  let irows := reverse_rows n orows in
  GraphIDs s = ids → OutOffsets s = offs orows → OutTargets s = oe_dst <$> concat orows →
  OutKinds s = oe_kind <$> concat orows → OutEdgeIDs s = oe_id <$> concat orows →
  InOffsets s = offs irows → InTargets s = (λ e : iedge, e.1.1) <$> concat irows →
  InKinds s = (λ e : iedge, e.1.2) <$> concat irows →
  InEdgeIdx s = (λ e : iedge, e.2) <$> concat irows →
  KindOffsets s = offs krows → NodeKinds s = concat krows →
  edgeIDPerm s = buildEdgeIDPerm (OutEdgeIDs s) →
  packed_rep s (mkLayout ids orows irows krows prows bags).
Proof.
  intros Hn Hs Hids Hk Hkl orows irows ???? Heid ???????.
  destruct forward_concat as [Hel Hdst']. fold orows in Hel, Hdst'.
  assert (len (OutEdgeIDs s) = len dEdges) as Hl by by rewrite Heid, len_fmap.
  destruct (buildEdgeIDPerm_spec (OutEdgeIDs s)) as [Hp1 Hp2]; [lia|].
  split; simpl; rewrite <- ?Hn; try done; try congruence; try lia.
  - apply len_forward_rows.
  - intros r Hr. apply list_elem_of_fmap in Hr as (r' & -> & _).
    apply go_sort_sorted, is_less_key2.
  - unfold irows, reverse_rows. by rewrite !len_fmap, len_rows_by.
  - intros w r. unfold irows, reverse_rows, sort_in. rewrite idx_fmap, idx_fmap.
    destruct (decide (w < n)) as [Hw|Hw].
    + rewrite idx_rows_by by done. simpl. intros [= <-]. apply go_sort_perm.
    + rewrite idx_ge by (rewrite len_rows_by; lia). done.
  - intros r Hr. apply list_elem_of_fmap in Hr as (r' & -> & _).
    apply go_sort_sorted, is_less_key2.
Qed.
End pack_rep.

(** ** [Build] *)

(** The staged edges with both endpoints among [ids]. *)
Definition staged_edges (ids : list N) (edges : list stagedEdge) : list edge_rec :=
  (λ e, (se_id e, (se_start e, se_end e, se_kind e))) <$>
    filter (λ e, se_start e ∈ ids ∧ se_end e ∈ ids) edges.

Section resolve.
Context (ids : list N) (Hs : StronglySorted N.lt ids) (Hn : len ids < 2 ^ 32).
Let lookup := index_ids ids.

Lemma index_ids_None id : lookup !! id = None ↔ id ∉ ids.
Proof.
  pose proof (index_ids_spec ids Hs Hn) as Hl. split.
  - intros Hnone [i Hi]%elem_of_idx. apply Hl in Hi. unfold lookup in Hnone. congruence.
  - intros Hni. destruct (lookup !! id) as [i|] eqn:E; [|done].
    apply Hl in E. by apply idx_elem_of in E.
Qed.

Lemma resolved_Some e d : resolved lookup e = Some d ↔
  de_id d = se_id e ∧ de_kind d = se_kind e ∧
  idx ids (de_src d) = Some (se_start e) ∧ idx ids (de_dst d) = Some (se_end e).
Proof.
  unfold resolved. pose proof (index_ids_spec ids Hs Hn) as Hl. fold lookup in Hl.
  destruct d as [i a b k]; simpl. rewrite <- !Hl.
  destruct (lookup !! se_start e), (lookup !! se_end e); simpl; naive_solver.
Qed.

Lemma resolved_None e : resolved lookup e = None ↔ ¬ (se_start e ∈ ids ∧ se_end e ∈ ids).
Proof.
  pose proof (index_ids_None (se_start e)) as H1. pose proof (index_ids_None (se_end e)) as H2.
  unfold resolved. destruct (lookup !! se_start e), (lookup !! se_end e); simpl;
    destruct (decide (se_start e ∈ ids)), (decide (se_end e ∈ ids)); naive_solver.
Qed.

Lemma resolved_lt (edges : list stagedEdge) d : d ∈ omap (resolved lookup) edges →
  de_src d < len ids ∧ de_dst d < len ids.
Proof.
  intros (e & _ & (_ & _ & H1 & H2)%resolved_Some)%list_elem_of_omap. split; by eapply idx_lt.
Qed.

(** Read back through the ids, the resolved edges are the staged ones. *)
Lemma resolved_edges (edges : list stagedEdge) :
  (λ d, (de_id d, (default 0 (idx ids (de_src d)), default 0 (idx ids (de_dst d)), de_kind d)))
    <$> omap (resolved lookup) edges = staged_edges ids edges.
Proof.
  unfold staged_edges. induction edges as [|e edges IH]; [done|].
  rewrite filter_cons. cbn [omap list_omap]. destruct (resolved lookup e) as [d|] eqn:E.
  - rewrite decide_True.
    + apply resolved_Some in E as (E1 & E2 & E3 & E4). csimpl. rewrite IH, E1, E2, E3, E4. done.
    + destruct (decide (se_start e ∈ ids ∧ se_end e ∈ ids)) as [|Hno]; [done|].
      apply resolved_None in Hno. congruence.
  - rewrite decide_False by (by apply resolved_None). done.
Qed.
End resolve.

Lemma lo_edges_forward `{GoStd} ids dEdges irows krows prows bags :
  (∀ e, e ∈ dEdges → de_src e < len ids) →
  lo_edges (mkLayout ids (forward_rows (len ids) dEdges) irows krows prows bags) ≡ₚ
  (λ d, (de_id d, (default 0 (idx ids (de_src d)), default 0 (idx ids (de_dst d)), de_kind d)))
    <$> dEdges.
Proof.
  intros Hsrc. unfold lo_edges, lo_slots. simpl.
  set (f (x : N * oedge) := (oe_id x.2, (default 0 (idx ids x.1), default 0 (idx ids (oe_dst x.2)), oe_kind x.2))).
  change (slot_edge ids) with (λ x : N * N * oedge, f (x.1.1, x.2)).
  pose proof (forward_rows_perm (len ids) dEdges Hsrc) as Hp.
  apply (fmap_Permutation f) in Hp. rewrite <- !list_fmap_compose in Hp. exact Hp.
Qed.

(** What [Build] makes of the staged nodes and edges. *)
Definition built_layout (nodes : list node_rec) (edges : list stagedEdge) (L : layout) : Prop :=
  lo_ids L = nd_id <$> nodes ∧ lo_kinds L = nd_kinds <$> nodes ∧ lo_bags L = nd_bag <$> nodes ∧
  lo_edges L ≡ₚ staged_edges (nd_id <$> nodes) edges.

Definition dropped_edges (ids : list N) (edges : list stagedEdge) : N :=
  len (filter (λ e, ¬ (se_start e ∈ ids ∧ se_end e ∈ ids)) edges).

Lemma staged_store_rep b nodes prows : Builder_rep b nodes prows →
  PropStore_rep (staged_store (buildPropStore b)) prows (nd_bag <$> nodes).
Proof.
  intros []. destruct br_in0. split; simpl; try done.
  - apply index_list_spec; [done|]. intros i Hi. apply u16_small. lia.
  - by rewrite len_fmap.
  - intros i es bag Hes. rewrite idx_fmap. intros (nd & Hnd & ->)%fmap_Some. by eapply br_rows0.
Qed.

Lemma Build_ok `{GoStd} b nodes prows t : Builder_rep b nodes prows →
  len nodes < 2 ^ 32 → len (b_edges b) < 2 ^ 32 →
  (∀ nd, nd ∈ nodes → bag_decodable (nd_bag nd)) → NewKindTable (b_kindTable b) = Some t →
  ∃ s L, Build b = Some s ∧ Snapshot_rep s L ∧ built_layout nodes (b_edges b) L ∧
    GraphID s = b_graphID b ∧ Kinds s = t ∧ MultiGraph s = false ∧
    DroppedEdges s = dropped_edges (nd_id <$> nodes) (b_edges b).
Proof.
  intros Hrep Hn He Hdec Ht. unfold Build. rewrite resolveEdges_spec.
  pose proof (br_sorted _ _ _ Hrep) as Hs. pose proof (br_ids _ _ _ Hrep) as Hids.
  assert (len (b_ids b) = len nodes) as Hl by by rewrite Hids, len_fmap.
  assert (len (b_ids b) < 2 ^ 32) as Hn' by lia.
  set (n := len (b_ids b)) in *. set (dE := omap _ (b_edges b)).
  assert (∀ d, d ∈ dE → de_src d < n ∧ de_dst d < n) as Hlt by by apply resolved_lt.
  assert (len dE < 2 ^ 32) as HdE.
  { eapply N.le_lt_trans; [|exact He]. apply omap_len_le. }
  rewrite packForward_spec by (done || intros; by apply Hlt). simpl.
  set (orows := forward_rows n dE).
  destruct (forward_concat n dE) as [Hol Hod]; [intros; by apply Hlt..|]. fold orows in Hol, Hod.
  rewrite packReverse_spec; [|apply len_forward_rows|done|lia|done]. simpl.
  rewrite Ht. simpl.
  match goal with |- ∃ s L, finalizeDerived ?s0 = _ ∧ _ => set (s0' := s0) end.
  destruct (finalizeDerived_spec s0' (mkLayout (b_ids b) orows (reverse_rows n orows)
    (nd_kinds <$> nodes) prows (nd_bag <$> nodes))) as (s & Hfin & Hsr & Hg & Hk & Hd & Hm & _).
  - apply (pack_rep n dE); try done; [intros; by apply Hlt..| | |apply (br_koff _ _ _ Hrep)|apply (br_flat _ _ _ Hrep)].
    + rewrite len_fmap. done.
    + rewrite <- (br_flat _ _ _ Hrep). apply (br_kbound _ _ _ Hrep).
  - by apply staged_store_rep.
  - simpl. by rewrite (br_plen _ _ _ Hrep).
  - simpl. intros bag (nd & -> & Hin)%list_elem_of_fmap. by apply Hdec.
  - exists s. eexists. split; [done|]. split; [done|]. rewrite Hg, Hk, Hm, Hd. split_and!; try done.
    + split_and!; try done. rewrite <- Hids, <- resolved_edges by done.
      apply lo_edges_forward. intros; by apply Hlt.
    + simpl. unfold dropped_edges. rewrite <- Hids. f_equal. apply filter_ext_in.
      intros e _. by apply resolved_None.
Qed.
