(* ===== verification/Validate.v ===== *)
(** * The structural check of a loaded snapshot

    [internal/engine/snapshot/validate.go]. Every violation is reported as
    the same error, so a check answers yes or no; [None] is a panic, and the
    checks are ordered so that there is none. *)

From S2P Require Import Prelude Bitset Csr Kinds Props Snapshot Builder.
From stdpp Require Import options.
Unset Default Proof Using.
#[local] Open Scope N_scope.

(** ** Definitions *)

(** [if err := a; err != nil { return err }], then the rest. *)
Definition andM (a b : option bool) : option bool := ok ← a; if (ok : bool) then b else Some false.
#[global] Arguments andM : simpl never.
Infix "&&?" := andM (at level 40, left associativity).
(** A loop that returns at the first element that is not right. *)
Fixpoint checkM {A} (f : A → option bool) (l : list A) : option bool :=
  match l with [] => Some true | x :: l' => f x &&? checkM f l' end.

(** The two functions differ in the width of the array's length. *)
Definition validateOffsets (width : N → N) (offsets : list N) (indexed : N) : option bool :=
  if len offsets =? 0 then Some false
  else
    o ← idx offsets 0;
    Some (o =? 0) &&?
    checkM (λ i, b ← idx offsets i; a ← idx offsets (i - 1); Some (negb (b <? a))) (range 1 (len offsets)) &&?
    (last ← idx offsets (len offsets - 1); Some (last =? width indexed)).
Definition validateOffsets64 : list N → N → option bool := validateOffsets u64.
Definition validateOffsets32 : list N → N → option bool := validateOffsets u32.

(** [firstByName]: every name once. *)
Fixpoint first_by_name (names : list string) (i : N) (firstByName : gmap string N) : bool :=
  match names with
  | [] => true
  | name :: names' =>
      match firstByName !! name with
      | Some _ => false
      | None => first_by_name names' (i + 1) (<[name := i]> firstByName)
      end
  end.

Definition entry_valid (names arenaLen : N) (e : propEntry) : bool :=
  if names <=? e_prop e then false
  else if arena_kind (e_kind e) then negb (arenaLen <? e_ref e + e_len e)
  else
    (e_kind e =? propKindNull) || (e_kind e =? propKindFalse) || (e_kind e =? propKindTrue) ||
    (e_kind e =? propKindNumber) || (e_kind e =? propKindNumberNonCanonical).

Definition node_entries_valid (p : PropStore) (node : N) : option bool :=
  lo ← idx (ps_nodeOffsets p) node; hi ← idx (ps_nodeOffsets p) (node + 1);
  checkM (λ i, b ← idx (ps_entries p) i; a ← idx (ps_entries p) (u32 (i + 2 ^ 32 - 1)); Some (negb (e_prop b <=? e_prop a)))
    (range (u32 (lo + 1)) hi).

(** The store is there whenever the reader had no error. *)
Definition validatePropStore (p : PropStore) (n : N) : option bool :=
  Some (len (ps_nodeOffsets p) =? n + 1) &&?
  validateOffsets32 (ps_nodeOffsets p) (len (ps_entries p)) &&?
  Some (first_by_name (ps_names p) 0 ∅) &&?
  checkM (λ e, Some (entry_valid (len (ps_names p)) (len (ps_arena p)) e)) (ps_entries p) &&?
  checkM (node_entries_valid p) (range 0 n).

Definition lengths_valid (s : Snapshot) (n e : N) : bool :=
  (len (OutKinds s) =? e) && (len (OutEdgeIDs s) =? e) && (len (InTargets s) =? e) &&
  (len (InKinds s) =? e) && (len (InEdgeIdx s) =? e) && (len (edgeIDPerm s) =? e) &&
  (len (OutOffsets s) =? n + 1) && (len (InOffsets s) =? n + 1) && (len (KindOffsets s) =? n + 1).

Definition validateSnapshotStructure (s : Snapshot) : option bool :=
  let n := len (GraphIDs s) in
  let e := len (OutTargets s) in
  Some (lengths_valid s n e) &&?
  validateOffsets64 (OutOffsets s) e &&?
  validateOffsets64 (InOffsets s) e &&?
  validateOffsets32 (KindOffsets s) (len (NodeKinds s)) &&?
  checkM (λ i, b ← idx (GraphIDs s) i; a ← idx (GraphIDs s) (i - 1); Some (negb (b <=? a))) (range 1 n) &&?
  checkM (λ t, Some (negb (n <=? t))) (OutTargets s) &&?
  checkM (λ t, Some (negb (n <=? t))) (InTargets s) &&?
  checkM (λ i, Some (negb (e <=? i))) (InEdgeIdx s) &&?
  checkM (λ i, Some (negb (e <=? i))) (edgeIDPerm s) &&?
  validatePropStore (Props s) n.

(** ** What it checks *)

Record store_valid (p : PropStore) (n : N) : Prop := {
  sv_offsets : csr_ok (ps_nodeOffsets p) n (u32 (len (ps_entries p)));
  sv_names : NoDup (ps_names p);
  sv_entries : ∀ e, e ∈ ps_entries p → entry_valid (len (ps_names p)) (len (ps_arena p)) e = true;
  sv_sorted : ∀ node lo hi i a b, node < n → idx (ps_nodeOffsets p) node = Some lo →
    idx (ps_nodeOffsets p) (node + 1) = Some hi → lo ≤ i → i + 1 < hi →
    idx (ps_entries p) i = Some a → idx (ps_entries p) (i + 1) = Some b → e_prop a < e_prop b;
}.

Record structure_ok (s : Snapshot) : Prop := {
  so_lens : lengths_valid s (NodeCount s) (EdgeCount s) = true;
  so_out : csr_ok (OutOffsets s) (NodeCount s) (u64 (EdgeCount s));
  so_in : csr_ok (InOffsets s) (NodeCount s) (u64 (EdgeCount s));
  so_kinds : csr_ok (KindOffsets s) (NodeCount s) (u32 (len (NodeKinds s)));
  so_asc : ∀ i a b, idx (GraphIDs s) i = Some a → idx (GraphIDs s) (i + 1) = Some b → a < b;
  so_targets : ∀ t, t ∈ OutTargets s → t < NodeCount s;
  so_sources : ∀ t, t ∈ InTargets s → t < NodeCount s;
  so_fwd : ∀ i, i ∈ InEdgeIdx s → i < EdgeCount s;
  so_perm : ∀ i, i ∈ edgeIDPerm s → i < EdgeCount s;
  so_store : store_valid (Props s) (NodeCount s);
}.

(** [m] does not panic and decides [P]. *)
Definition decides (m : option bool) (P : Prop) : Prop := ∃ b, m = Some b ∧ (b = true ↔ P).

Lemma decides_pure b P : (b = true ↔ P) → decides (Some b) P.
Proof. intros. by exists b. Qed.
Lemma decides_and a b (P Q : Prop) : decides a P → (P → decides b Q) → decides (a &&? b) (P ∧ Q).
Proof.
  intros (x & -> & Hx) Hb. unfold andM. destruct x; simpl.
  - destruct Hb as (y & -> & Hy); [by apply Hx|]. exists y. split; [done|]. naive_solver.
  - exists false. split; [done|]. naive_solver.
Qed.
Lemma decides_iff m P Q : decides m P → (P ↔ Q) → decides m Q.
Proof. intros (b & -> & Hb) HPQ. exists b. split; [done|]. by rewrite Hb. Qed.
Lemma decides_check {A} (f : A → option bool) (P : A → Prop) l :
  (∀ x, x ∈ l → decides (f x) (P x)) → decides (checkM f l) (∀ x, x ∈ l → P x).
Proof.
  induction l as [|x l IH]; intros Hf; simpl.
  - apply decides_pure. split; [|done]. by intros _ x ?%not_elem_of_nil.
  - eapply decides_iff; [apply decides_and; [apply Hf; left|intros _; apply IH; intros; apply Hf; by right]|].
    setoid_rewrite elem_of_cons. naive_solver.
Qed.
(** A check of neighbours, [l[i-1]] against [l[i]] for [i] from [lo + 1] on. *)
Lemma decides_adjacent {A} (l : list A) lo hi (bad : A → A → bool) (P : A → A → Prop) : hi ≤ len l →
  (∀ a b, negb (bad b a) = true ↔ P a b) →
  decides (checkM (λ i, b ← idx l i; a ← idx l (i - 1); Some (negb (bad b a))) (range (lo + 1) hi))
    (∀ i a b, lo ≤ i → i + 1 < hi → idx l i = Some a → idx l (i + 1) = Some b → P a b).
Proof.
  intros Hhi HP. eapply decides_iff; [apply (decides_check _
    (λ i, ∀ a b, idx l (i - 1) = Some a → idx l i = Some b → P a b))|].
  - intros i [Hl Hh]%elem_of_range. destruct (idx_is_Some l i) as [b Hb]; [lia|].
    destruct (idx_is_Some l (i - 1)) as [a Ha]; [lia|]. rewrite Hb, Ha. simpl. apply decides_pure.
    rewrite HP. split; [|by eauto]. intros Hp a' b' Ha' Hb'. by simplify_eq.
  - split.
    + intros Hc i a b Hlo Hi Ha Hb. apply (Hc (i + 1)); [apply elem_of_range; lia| |done].
      by replace (i + 1 - 1) with i by lia.
    + intros Hc i [Hl Hh]%elem_of_range a b Ha Hb. apply (Hc (i - 1)); [lia|lia|done|].
      by replace (i - 1 + 1) with i by lia.
Qed.

Lemma validateOffsets_spec width o n e : len o = n + 1 → decides (validateOffsets width o e) (csr_ok o n (width e)).
Proof.
  intros Hl. unfold validateOffsets. destruct (N.eqb_spec (len o) 0); [lia|].
  destruct (idx_is_Some o 0) as [o0 H0]; [lia|]. rewrite H0. simpl.
  destruct (idx_is_Some o n) as [on Hn]; [lia|]. replace (len o - 1) with n by lia. rewrite Hn. simpl.
  eapply decides_iff.
  - apply decides_and; [apply decides_and|].
    + apply (decides_pure _ (o0 = 0)), N.eqb_eq.
    + intros _. apply (decides_adjacent o 0 (len o) (λ b a, b <? a) N.le); [done|].
      intros a b. by rewrite negb_true_iff, N.ltb_ge.
    + intros _. apply (decides_pure _ (on = width e)), N.eqb_eq.
  - split.
    + intros [[-> Hm] ->]. split; [done..| |done]. intros i a b Ha Hb. apply (Hm i); [lia| |done|done].
      apply idx_lt in Hb. lia.
    + intros [_ Hf Hm Hla]. split; [split|]; [congruence| |congruence]. intros i a b _ _. apply Hm.
Qed.

Lemma first_by_name_spec names i seen : (first_by_name names i seen = true ↔
  NoDup names ∧ ∀ name, name ∈ names → seen !! name = None).
Proof.
  revert i seen. induction names as [|name names IH]; intros i seen; simpl.
  - split; [|done]. intros _. split; [constructor|]. by intros name ?%not_elem_of_nil.
  - destruct (seen !! name) eqn:E.
    + split; [done|]. intros [_ Hs]. specialize (Hs name). rewrite Hs in E; [done|left].
    + rewrite IH, NoDup_cons. split.
      * intros [Hnd Hs]. split_and!; [|done|].
        -- intros Hin. apply Hs in Hin. by rewrite lookup_insert_eq in Hin.
        -- intros name' [->|Hin]%elem_of_cons; [done|]. apply Hs in Hin. apply lookup_insert_None in Hin. naive_solver.
      * intros [[Hni Hnd] Hs]. split; [done|]. intros name' Hin. rewrite lookup_insert_ne by set_solver.
        apply Hs. by right.
Qed.

Lemma checkM_ext {A} (f g : A → option bool) l : (∀ x, x ∈ l → f x = g x) → checkM f l = checkM g l.
Proof.
  induction l as [|x l IH]; intros Hf; [done|]. simpl. rewrite (Hf x) by left. f_equal. apply IH.
  intros. apply Hf. by right.
Qed.
(** The loop's counter does not wrap. *)
Lemma node_entries_eq p node lo hi : lo < 2 ^ 32 - 1 → hi < 2 ^ 32 → idx (ps_nodeOffsets p) node = Some lo →
  idx (ps_nodeOffsets p) (node + 1) = Some hi →
  node_entries_valid p node = checkM (λ i, b ← idx (ps_entries p) i; a ← idx (ps_entries p) (i - 1);
    Some (negb (e_prop b <=? e_prop a))) (range (lo + 1) hi).
Proof.
  intros Hl Hh Hlo Hhi. unfold node_entries_valid. rewrite Hlo, Hhi. simpl. rewrite u32_small by lia.
  apply checkM_ext. intros i [Hi1 Hi2]%elem_of_range. unfold u32.
  replace (i + 2 ^ 32 - 1) with (i - 1 + 1 * 2 ^ 32) by lia. rewrite N.Div0.mod_add, N.mod_small by lia. done.
Qed.

Lemma validatePropStore_spec p n : len (ps_entries p) < 2 ^ 32 - 1 → decides (validatePropStore p n) (store_valid p n).
Proof.
  intros Hlen. eapply decides_iff.
  - unfold validatePropStore. repeat apply decides_and.
    + apply (decides_pure _ (len (ps_nodeOffsets p) = n + 1)), N.eqb_eq.
    + intros Hl. by apply validateOffsets_spec.
    + intros _. apply decides_pure. apply (first_by_name_spec _ 0 ∅).
    + intros _. apply (decides_check _ (λ e, entry_valid (len (ps_names p)) (len (ps_arena p)) e = true)).
      intros e _. by apply decides_pure.
    + intros [[[Hl Ho] _] _]. apply (decides_check _ (λ node, ∀ lo hi, idx (ps_nodeOffsets p) node = Some lo →
        idx (ps_nodeOffsets p) (node + 1) = Some hi → ∀ i a b, lo ≤ i → i + 1 < hi →
        idx (ps_entries p) i = Some a → idx (ps_entries p) (i + 1) = Some b → e_prop a < e_prop b)).
      intros node [_ Hn]%elem_of_range.
      destruct (idx_is_Some (ps_nodeOffsets p) node) as [lo Hlo]; [lia|].
      destruct (idx_is_Some (ps_nodeOffsets p) (node + 1)) as [hi Hhi]; [lia|].
      pose proof (csr_le _ _ _ _ _ _ _ Ho Hlo (csr_last _ _ _ Ho) ltac:(lia)) as Hle0.
      pose proof (csr_le _ _ _ _ _ _ _ Ho Hhi (csr_last _ _ _ Ho) ltac:(lia)) as Hle.
      rewrite u32_small in Hle0, Hle by lia. rewrite (node_entries_eq p node lo hi) by (done || lia).
      eapply decides_iff; [apply (decides_adjacent _ lo hi (λ b a, e_prop b <=? e_prop a) (λ a b, e_prop a < e_prop b))|].
      * lia.
      * intros a b. by rewrite negb_true_iff, N.leb_gt.
      * split; [|naive_solver]. intros Hs lo' hi' ? ?. by simplify_eq.
  - split.
    + intros [[[[Hl Ho] [Hnd _]] He] Hs]. split; [done..|]. intros node lo hi i a b Hn Hlo Hhi.
      apply (Hs node); [apply elem_of_range; lia|done|done].
    + intros [Ho Hnd He Hs]. split_and!; try done; [apply (csr_len _ _ _ Ho)|].
      intros node [_ Hn]%elem_of_range lo hi Hlo Hhi i a b. by apply (Hs node).
Qed.

(** The whole check never panics and decides [structure_ok]. *)
Lemma validate_spec s : len (ps_entries (Props s)) < 2 ^ 32 - 1 → decides (validateSnapshotStructure s) (structure_ok s).
Proof.
  intros Hlen. assert (∀ m l, decides (checkM (λ t, Some (negb (m <=? t))) l) (∀ t, t ∈ l → t < m)) as Hb.
  { intros m l. apply (decides_check _ (λ t, t < m)). intros t _. apply decides_pure. by rewrite negb_true_iff, N.leb_gt. }
  eapply decides_iff.
  - unfold validateSnapshotStructure. repeat apply decides_and; try (intros _; apply Hb).
    + apply (decides_pure _ _ (reflexivity _)).
    + intros Hl. apply validateOffsets_spec. unfold lengths_valid in Hl. rewrite !andb_true_iff, !N.eqb_eq in Hl. naive_solver.
    + intros [Hl _]. apply validateOffsets_spec. unfold lengths_valid in Hl. rewrite !andb_true_iff, !N.eqb_eq in Hl. naive_solver.
    + intros [[Hl _] _]. apply validateOffsets_spec. unfold lengths_valid in Hl. rewrite !andb_true_iff, !N.eqb_eq in Hl. naive_solver.
    + intros _. apply (decides_adjacent _ 0 _ (λ b a, b <=? a) N.lt); [done|]. intros a b. by rewrite negb_true_iff, N.leb_gt.
    + intros _. by apply validatePropStore_spec.
  - split.
    + intros [[[[[[[[[Hl Ho] Hi] Hk] Ha] Ht] Hs] Hf] Hp] Hst]. split; try done.
      intros i a b Hia Hib. apply (Ha i); [lia| |done|done]. by apply idx_lt in Hib.
    + intros []. split_and!; try done. intros i a b _ _. apply so_asc0.
Qed.

(** ** What a checked snapshot gives *)

Lemma entry_valid_binding names arena e : entry_valid (len names) (len arena) e = true → is_Some (entry_binding names arena e).
Proof.
  unfold entry_valid, entry_binding, entry_pval. destruct (N.leb_spec (len names) (e_prop e)) as [|Hlt]; [done|].
  destruct (idx_is_Some names (e_prop e) Hlt) as [nm ->]. simpl. destruct (arena_kind (e_kind e)); [|by eexists].
  intros Hv. rewrite negb_true_iff, N.ltb_ge in Hv. rewrite decide_True by done.
  destruct (slice_Some arena (e_ref e) (e_ref e + e_len e)) as (k & -> & _); [lia|done|]. by eexists.
Qed.

Section checked.
Context (s : Snapshot) (Hs : structure_ok s).

Lemma checked_lens : len (OutKinds s) = EdgeCount s ∧ len (OutEdgeIDs s) = EdgeCount s ∧
  len (InTargets s) = EdgeCount s ∧ len (InKinds s) = EdgeCount s ∧ len (edgeIDPerm s) = EdgeCount s.
Proof. pose proof (so_lens _ Hs) as Hl. unfold lengths_valid in Hl. rewrite !andb_true_iff, !N.eqb_eq in Hl. naive_solver. Qed.

(** A row of any array that the offsets cut is there. *)
Lemma csr_row {A} o n (flat : list A) i : csr_ok o n (len flat) → i < n → ∃ r, row o flat i (i + 1) = Some r ∧ ∀ x, x ∈ r → x ∈ flat.
Proof.
  intros Ho Hi. destruct (csr_rows flat o n Ho) as (rows & <- & <- & <-). destruct (idx_is_Some rows i Hi) as [r Hr].
  exists r. split; [by apply row_offs|]. intros x Hx. apply list_elem_of_In, in_concat. exists r.
  rewrite <- !list_elem_of_In. split; [by eapply idx_elem_of|done].
Qed.

Context (Hn : NodeCount s < 2 ^ 32) (He : EdgeCount s < 2 ^ 64).

Lemma checked_out n : n < NodeCount s → ∃ ts ks, Snapshot_Out s n = Some (ts, ks) ∧ ∀ t, t ∈ ts → t < NodeCount s.
Proof.
  intros Hl. pose proof (so_out _ Hs) as Ho. rewrite u64_small in Ho by done. destruct checked_lens as (Hk & _).
  destruct (csr_row _ _ (OutTargets s) n Ho Hl) as (ts & Ht & Hin). rewrite <- Hk in Ho.
  destruct (csr_row _ _ (OutKinds s) n Ho Hl) as (ks & Hks & _). exists ts, ks. unfold Snapshot_Out.
  rewrite u32_small by lia. rewrite Ht, Hks. split; [done|]. intros t Hx. by apply (so_targets _ Hs), Hin.
Qed.

Lemma checked_in n : n < NodeCount s → ∃ ts ks, Snapshot_In s n = Some (ts, ks) ∧ ∀ t, t ∈ ts → t < NodeCount s.
Proof.
  intros Hl. pose proof (so_in _ Hs) as Ho. rewrite u64_small in Ho by done. destruct checked_lens as (_ & _ & Ht & Hk & _).
  pose proof Ho as Ho'. rewrite <- Ht in Ho. rewrite <- Hk in Ho'.
  destruct (csr_row _ _ (InTargets s) n Ho Hl) as (ts & Hts & Hin).
  destruct (csr_row _ _ (InKinds s) n Ho' Hl) as (ks & Hks & _). exists ts, ks. unfold Snapshot_In.
  rewrite u32_small by lia. rewrite Hts, Hks. split; [done|]. intros t Hx. by apply (so_sources _ Hs), Hin.
Qed.

Lemma checked_EdgeByID id : ∃ r, Snapshot_EdgeByID s id = Some r ∧ ∀ slot, r = Some slot → idx (OutEdgeIDs s) slot = Some id.
Proof.
  destruct checked_lens as (_ & Hids & _ & _ & Hp). unfold Snapshot_EdgeByID.
  assert (∀ i, i < len (edgeIDPerm s) → ∃ p e, idx (edgeIDPerm s) i = Some p ∧ idx (OutEdgeIDs s) p = Some e) as Hat.
  { intros i Hi. destruct (idx_is_Some (edgeIDPerm s) i Hi) as [p Hpi].
    assert (p < EdgeCount s) by (apply (so_perm _ Hs); by eapply idx_elem_of).
    destruct (idx_is_Some (OutEdgeIDs s) p) as [e Hpe]; [lia|]. by exists p, e. }
  destruct (search_total (len (edgeIDPerm s)) (λ i, p ← idx (edgeIDPerm s) i; e ← idx (OutEdgeIDs s) p; Some (id <=? e)))
    as (r & -> & _). { intros k Hk. destruct (Hat k Hk) as (p & e & -> & Hpe). simpl. rewrite Hpe. by eexists. }
  simpl. case_decide as Hr; [|by exists None]. destruct (Hat r Hr) as (p & e & -> & Hpe). simpl. rewrite Hpe. simpl.
  destruct (N.eqb_spec e id) as [->|]; [|by exists None]. exists (Some p). split; [done|]. by intros ? [= <-].
Qed.

(** The property store is one whose reads are exact. *)
Lemma checked_store : len (ps_names (Props s)) ≤ 2 ^ 16 → len (ps_arena (Props s)) < 2 ^ 32 → len (ps_entries (Props s)) < 2 ^ 32 →
  ∃ rows bags, PropStore_rep (staged_store (Props s)) rows bags ∧ len rows = NodeCount s.
Proof.
  intros Hnames Ha Hlen. destruct (so_store _ Hs) as [Ho Hnd Hv Hso]. rewrite u32_small in Ho by done. set (p := Props s) in *.
  destruct (csr_rows (ps_entries p) _ _ Ho) as (rows & Hl & Hof & Hc).
  assert (∀ r, r ∈ rows → ∃ bs, row_ok (ps_names p) (ps_arena p) r bs) as Hrow.
  { intros r [i Hi]%elem_of_idx. destruct (mapM_is_Some_2 (entry_binding (ps_names p) (ps_arena p)) r) as [bs Hbs].
    { apply Forall_forall. intros e Hin. apply entry_valid_binding, Hv. rewrite <- Hc. apply list_elem_of_In, in_concat.
      exists r. rewrite <- !list_elem_of_In. split; [by eapply idx_elem_of|done]. }
    exists bs. split; [done|]. apply sorted_adjacent; [intros x y z ??; lia|]. intros j a b Hja Hjb.
    pose proof (idx_lt _ _ _ Hjb) as Hjl. pose proof (idx_lt _ _ _ Hi) as Hil.
    assert (len (concat (take (N.to_nat (i + 1)) rows)) = len (concat (take (N.to_nat i) rows)) + len r) as Hnext.
    { rewrite (take_S_idx _ _ _ Hi), concat_app, len_app. simpl. by rewrite app_nil_r. }
    apply (Hso i (len (concat (take (N.to_nat i) rows))) (len (concat (take (N.to_nat i) rows)) + len r)
      (len (concat (take (N.to_nat i) rows)) + j) a b); [lia|..|lia|lia| |].
    - by rewrite <- Hof, idx_offs by lia.
    - by rewrite <- Hof, idx_offs, Hnext by lia.
    - rewrite <- Hc. erewrite concat_idx; [exact Hja|done|lia].
    - rewrite <- Hc, <- N.add_assoc. erewrite concat_idx; [exact Hjb|done|lia]. }
  assert (∃ bags, Forall2 (λ r bag, ∃ bs, row_ok (ps_names p) (ps_arena p) r bs ∧ bag_of bs = bag) rows bags) as [bags Hb].
  { clear - Hrow. induction rows as [|r rows IH]; [by exists []|]. destruct (Hrow r) as [bs Hbs]; [left|].
    destruct IH as [bags Hbags]; [intros; apply Hrow; by right|]. exists (bag_of bs :: bags). constructor; [by exists bs|done]. }
  exists rows, bags. split; [|done]. split; simpl; try done.
  - intros name i. apply index_list_spec; [done|]. intros k Hk. apply u16_small. lia.
  - unfold len. by rewrite (Forall2_length _ _ _ Hb).
  - intros i es bag Hes Hbag. unfold idx in *. by destruct (Forall2_lookup_lr _ _ _ _ _ _ Hb Hes Hbag) as (bs & ? & ?); eauto.
Qed.
End checked.

(** ** What a builder makes passes *)

Lemma rep_csr {A B} (rows : list (list A)) (flat : list B) o n : o = offs rows → len rows = n → len flat = len (concat rows) →
  csr_ok o n (len flat).
Proof. intros -> <- ->. apply csr_offs. Qed.

Lemma sorted_lt_adjacent l : StronglySorted N.lt l → ∀ i a b, idx l i = Some a → idx l (i + 1) = Some b → a < b.
Proof. intros Hl i a b Ha Hb. apply (sorted_idx _ _ _ _ _ _ Hl Ha Hb). lia. Qed.

Lemma rep_store_valid p rows bags n : PropStore_rep p rows bags → len rows = n → len (ps_entries p) < 2 ^ 32 →
  (∀ e, e ∈ ps_entries p → e_kind e < 8) → store_valid p n.
Proof.
  intros Hp Hn Hl Hk. pose proof (psr_entries _ _ _ Hp) as He. pose proof (psr_offsets _ _ _ Hp) as Ho.
  assert (∀ i r, idx rows i = Some r → ∃ bs, row_ok (ps_names p) (ps_arena p) r bs) as Hrow.
  { intros i r Hi. destruct (idx_is_Some bags i) as [bag Hb]; [rewrite <- (psr_len _ _ _ Hp); by eapply idx_lt|].
    destruct (psr_rows _ _ _ Hp _ _ _ Hi Hb) as (bs & Hr & _). by exists bs. }
  split.
  - rewrite u32_small by done. apply (rep_csr rows); [done|done|by rewrite He].
  - apply (psr_names _ _ _ Hp).
  - intros e Hin. specialize (Hk e Hin). rewrite He in Hin. apply list_elem_of_In, in_concat in Hin as (r & Hr & Hin).
    apply list_elem_of_In, elem_of_idx in Hr as [i Hi]. apply list_elem_of_In in Hin. destruct (Hrow i r Hi) as (bs & [Hm _]).
    apply mapM_Some in Hm. apply list_elem_of_lookup in Hin as [j Hj].
    destruct (Forall2_lookup_l _ _ _ _ _ Hm Hj) as (b & _ & Hb). unfold entry_binding in Hb.
    destruct (idx (ps_names p) (e_prop e)) eqn:Hnm; [|done]. apply idx_lt in Hnm. simpl in Hb.
    unfold entry_valid. rewrite (proj2 (N.leb_gt _ _)) by done. unfold entry_pval in Hb.
    destruct (arena_kind (e_kind e)) eqn:Ek.
    + destruct (decide (e_ref e + e_len e ≤ len (ps_arena p))) as [Hle|]; [|done]. by rewrite negb_true_iff, N.ltb_ge.
    + unfold arena_kind in Ek. rewrite !orb_false_iff, !N.eqb_neq in Ek. unfold propKindString, propKindArray, propKindObject in Ek.
      rewrite !orb_true_iff, !N.eqb_eq. unfold propKindNull, propKindFalse, propKindTrue, propKindNumber, propKindNumberNonCanonical. lia.
  - intros node lo hi i a b Hnode Hlo Hhi Hi1 Hi2 Ha Hb. destruct (idx_is_Some rows node) as [r Hr]; [lia|].
    rewrite Ho, idx_offs in Hlo, Hhi by lia. rewrite (take_S_idx _ _ _ Hr), concat_app, len_app in Hhi. simpl in Hhi.
    rewrite app_nil_r in Hhi. simplify_eq. destruct (Hrow node r Hr) as (bs & [_ Hsort]).
    set (lo := len (concat (take (N.to_nat node) rows))) in *. rewrite He in Ha, Hb.
    assert (∀ k x, lo ≤ k → k < lo + len r → idx (concat rows) k = Some x → idx r (k - lo) = Some x) as Hin.
    { intros k x Hk1 Hk2 Hx. destruct (idx_is_Some r (k - lo)) as [y Hy]; [lia|].
      pose proof (concat_idx rows node r (k - lo) Hr) as Hc. fold lo in Hc. replace (lo + (k - lo)) with k in Hc by lia.
      rewrite Hc in Hx by lia. congruence. }
    apply Hin in Ha; [|lia|lia]. apply Hin in Hb; [|lia|lia]. apply (sorted_idx _ _ _ _ _ _ Hsort Ha Hb). lia.
Qed.

Lemma slot_bounds {A} (rows : list (list A)) i j e : (i, j, e) ∈ slots rows →
  i < len rows ∧ j < len (concat rows) ∧ e ∈ concat rows.
Proof.
  intros [p Hp]%elem_of_idx. apply idx_slots in Hp as (-> & He & r & k & Hr & _).
  split_and!; [by eapply idx_lt|by eapply idx_lt|by eapply idx_elem_of].
Qed.

(** The in-rows hold every slot once. *)
Lemma in_rows_perm s L : packed_rep s L →
  concat (lo_in L) ≡ₚ (λ x : N * N * oedge, (x.1.1, oe_kind x.2, x.1.2)) <$> lo_slots L.
Proof.
  intros HP. rewrite <- (rows_by_perm (λ x : N * N * oedge, oe_dst x.2) (len (lo_ids L)) (lo_slots L)).
  - rewrite <- concat_fmap. apply concat_Permutation. apply Forall2_same_length_lookup_2.
    + pose proof (pk_in_len _ _ HP). pose proof (len_rows_by (λ x : N * N * oedge, oe_dst x.2) (len (lo_ids L)) (lo_slots L)).
      rewrite length_fmap. unfold len in *. lia.
    + intros w r r' Hr Hr'. rewrite list_lookup_fmap in Hr'.
      assert (idx (lo_in L) (N.of_nat w) = Some r) as Hi by (unfold idx; by rewrite Nat2N.id).
      rewrite (pk_transpose _ _ HP _ _ Hi). pose proof (idx_lt _ _ _ Hi) as Hl. rewrite (pk_in_len _ _ HP) in Hl.
      pose proof (idx_rows_by (λ x : N * N * oedge, oe_dst x.2) _ (lo_slots L) _ Hl) as Hb. unfold idx in Hb.
      rewrite Nat2N.id in Hb. rewrite Hb in Hr'. simpl in Hr'. by simplify_eq.
  - intros [[i j] e] Hx. apply slot_bounds in Hx as (_ & _ & He). by apply (pk_dst _ _ HP).
Qed.

Lemma rep_structure s L : Snapshot_rep s L → len (ps_entries (Props s)) < 2 ^ 32 →
  (∀ e, e ∈ ps_entries (Props s) → e_kind e < 8) → structure_ok s.
Proof.
  intros [HP HD] Hl Hk. assert (NodeCount s = len (lo_ids L)) as Hn by (unfold NodeCount; by rewrite (pk_ids _ _ HP)).
  assert (EdgeCount s = len (concat (lo_out L))) as He by (unfold EdgeCount; by rewrite (pk_targets _ _ HP), len_fmap).
  assert (len (concat (lo_in L)) = EdgeCount s) as Hin.
  { rewrite (in_rows_perm s L HP), len_fmap, He. apply len_slots. }
  assert (EdgeCount s < 2 ^ 64) as He64 by (pose proof (pk_e _ _ HP); lia).
  split.
  - unfold lengths_valid. rewrite !andb_true_iff, !N.eqb_eq.
    rewrite (pk_kinds _ _ HP), (pk_eids _ _ HP), (pk_isrc _ _ HP), (pk_ikind _ _ HP), (pk_iidx _ _ HP), !len_fmap.
    rewrite (pk_out _ _ HP), (pk_in _ _ HP), (pk_koff _ _ HP), !len_offs, (pk_perm _ _ HP), len_range.
    rewrite (pk_out_len _ _ HP), (pk_in_len _ _ HP), (pk_kind_len _ _ HP). lia.
  - rewrite u64_small by done. apply (rep_csr (lo_out L)); [apply (pk_out _ _ HP)|by rewrite Hn, (pk_out_len _ _ HP)|done].
  - rewrite u64_small by done. rewrite Hn, <- (pk_in_len _ _ HP), (pk_in _ _ HP), <- Hin. apply csr_offs.
  - rewrite u32_small by (rewrite (pk_nkinds _ _ HP); apply (pk_kind_total _ _ HP)).
    apply (rep_csr (lo_kinds L)); [apply (pk_koff _ _ HP)|by rewrite Hn, (pk_kind_len _ _ HP)|by rewrite (pk_nkinds _ _ HP)].
  - rewrite (pk_ids _ _ HP). apply sorted_lt_adjacent, (pk_sorted _ _ HP).
  - intros t. rewrite (pk_targets _ _ HP), Hn. intros (e & -> & Hin')%list_elem_of_fmap. by apply (pk_dst _ _ HP).
  - intros t. rewrite (pk_isrc _ _ HP), Hn. intros (x & -> & Hx)%list_elem_of_fmap.
    rewrite (in_rows_perm s L HP) in Hx. apply list_elem_of_fmap in Hx as ([[i j] e] & -> & Hs).
    apply slot_bounds in Hs as [Hi _]. by rewrite (pk_out_len _ _ HP) in Hi.
  - intros t. rewrite (pk_iidx _ _ HP), He. intros (x & -> & Hx)%list_elem_of_fmap.
    rewrite (in_rows_perm s L HP) in Hx. apply list_elem_of_fmap in Hx as ([[i j] e] & -> & Hs).
    by apply slot_bounds in Hs as (_ & Hj & _).
  - intros i. rewrite (pk_perm _ _ HP), elem_of_range, He. lia.
  - apply (rep_store_valid _ (lo_props L) (lo_bags L)); [apply (dr_props _ _ HD)| |done|done].
    by rewrite Hn, (dr_props_len _ _ HD).
Qed.
