(* ===== verification/SnapshotFile.v ===== *)
(** * The snapshot file

    The upper half of [internal/engine/snapshot/file.go]: the format, what
    writes it and what reads it back. *)

From S2P Require Import Prelude Bitset Csr Codec Kinds Props Snapshot Builder Validate.
From stdpp Require Import options.
Unset Default Proof Using.
From Stdlib Require Import Ascii.
#[local] Open Scope N_scope.

(** ** Definitions *)

Definition snapshotMagic : bytes := ascii_of_N <$> [66; 84; 83; 78; 65; 80; 0].  (* "BTSNAP\x00" *)
Definition snapshotFormatVersion : N := 3.
Definition maxKindTableEntries : N := 65536.
Definition propEntryWireSize : N := 19.
(** [unsafe.Sizeof(propEntry{})]: 2 and 1 bytes, 5 of padding, 8, 4 and 4. *)
Definition bytesPerPropEntry : N := 24.

Record Stamp := mkStamp { st_Watermark : N; st_NodeIDSeq : Z; st_EdgeIDSeq : Z }.
Record Header := mkHeader { h_GraphID : Z; h_Lineage : list N; h_Stamp : Stamp }.

(** *** Writing *)

Section write.
Context `{IoWriter W}.

(** One write after the other. *)
Definition bw_seq (fs : list (binWriter W → binWriter W)) (bw : binWriter W) : binWriter W :=
  foldl (λ bw f, f bw) bw fs.

(** The ids that have a name, with it. *)
Definition named_ids (kt : KindTable) : list (N * string) :=
  filter (λ x, x.2 ≠ EmptyString) (zip (range 0 (len (kt_names kt))) (kt_names kt)).

Definition writeKindTable (kt : KindTable) : binWriter W → binWriter W :=
  bw_seq [
    bw_u64 (len (filter (λ name, name ≠ EmptyString) (kt_names kt)));
    bw_seq ((λ x, bw_seq [bw_i16 (Z.of_N x.1); bw_str x.2]) <$> named_ids kt)].

Definition write_entry (e : propEntry) : binWriter W → binWriter W :=
  bw_seq [bw_u16 (e_prop e); bw_u8 (e_kind e); bw_f64 (e_num e); bw_u32 (e_ref e); bw_u32 (e_len e)].

Definition writePropStore (p : PropStore) : binWriter W → binWriter W :=
  bw_seq [
    bw_u64 (len (ps_names p));
    bw_seq (bw_str <$> ps_names p);
    bw_u64 (len (ps_entries p));
    bw_seq (write_entry <$> ps_entries p);
    bw_u32s (ps_nodeOffsets p);
    bw_u64 (len (ps_arena p));
    bw_bytes (ps_arena p)].

Definition writeSnapshotBody (s : Snapshot) (stamp : Stamp) : binWriter W → binWriter W :=
  bw_seq [
    bw_u32 snapshotFormatVersion;
    bw_i32 (GraphID s);
    bw_u64 (st_Watermark stamp);
    bw_bytes (ascii_of_N <$> WatermarkLineage s);
    bw_u64 (to_unsigned 64 (st_NodeIDSeq stamp));
    bw_u64 (to_unsigned 64 (st_EdgeIDSeq stamp));
    bw_u64 (NodeCount s);
    bw_u64 (EdgeCount s);
    bw_u64 (len (NodeKinds s));
    bw_u64s (GraphIDs s);
    bw_u64s (OutOffsets s);
    bw_u32s (OutTargets s);
    bw_i16s (OutKinds s);
    bw_u64s (OutEdgeIDs s);
    bw_u64s (InOffsets s);
    bw_u32s (InTargets s);
    bw_i16s (InKinds s);
    bw_u32s (InEdgeIdx s);
    bw_u32s (KindOffsets s);
    bw_i16s (NodeKinds s);
    bw_u32s (edgeIDPerm s);
    writeKindTable (Kinds s);
    writePropStore (Props s);
    (if MultiGraph s then bw_u8 1 else bw_u8 0);
    bw_u64 (u64 (DroppedEdges s))].
End write.

(** *** Reading *)

(** The first result of [io.ReadFull] on the file itself, before the body. *)
Definition readMagic (data : bytes) : bytes + goerr :=
  if len data <? len snapshotMagic then inr ErrNotSnapshot
  else if bool_decide (take (length snapshotMagic) data = snapshotMagic)
  then inl (drop (length snapshotMagic) data) else inr ErrNotSnapshot.

(** [copy(header.Lineage[:], b)], of 16 bytes that are zero. *)
Definition copy_lineage (b : bytes) : list N :=
  let l := N_of_ascii <$> take 16 b in l ++ replicate (16 - length l) 0.

Definition readHeader : rd (Header + goerr) :=
  (let* version := br_u32 in
   let* err := rd_err in
   if (err : bool) then rd_ret (inr ErrCorrupt)
   else if negb (version =? snapshotFormatVersion) then rd_ret (inr ErrVersionMismatch)
   else
     let* graphID := br_i32 in
     let* watermark := br_u64 in
     let* lineage := br_bytes 16 in
     let* nodeIDSeq := br_u64 in
     let* edgeIDSeq := br_u64 in
     let* err := rd_err in
     if (err : bool) then rd_ret (inr ErrCorrupt)
     else rd_ret (inl (mkHeader graphID (copy_lineage lineage)
            (mkStamp watermark (to_signed 64 nodeIDSeq) (to_signed 64 edgeIDSeq)))))%rd.

Fixpoint read_kinds (n : nat) (pairs : gmap KindID string) : rd (option (gmap KindID string)) :=
  match n with
  | O => rd_ret (Some pairs)
  | S n =>
      (let* id := br_i16 in
       let* name := br_str in
       let* err := rd_err in
       if (err : bool) then rd_ret None else read_kinds n (<[id := name]> pairs))%rd
  end.

(** [None] is the nil that comes with an error. *)
Definition readKindTable : rd (option KindTable) :=
  (let* count := br_u64 in
   let* err := rd_err in
   if (err : bool) then rd_ret None
   else if maxKindTableEntries <? count then let* _ := rd_fail in rd_ret None
   else
     let* ok := br_claim count (2 + 4) in
     if negb ok then rd_ret None
     else
       let* pairs := read_kinds (N.to_nat count) ∅ in
       rd_ret (p ← pairs; NewKindTable p))%rd.

Definition read_entry : rd propEntry :=
  (let* prop := br_u16 in
   let* kind := br_u8 in
   let* num := br_f64 in
   let* ref := br_u32 in
   let* length := br_u32 in
   rd_ret (mkPropEntry prop kind num ref length))%rd.

Definition readPropStore (n : N) : rd (option PropStore) :=
  (let* nameCount := br_u64 in
   let* err := rd_err in
   if (err : bool) then rd_ret None
   else if maxPropID + 1 <? nameCount then let* _ := rd_fail in rd_ret None
   else
     let* ok := br_claim nameCount 4 in
     if negb ok then rd_ret None
     else
       let* names := rd_times (N.to_nat nameCount) br_str in
       let* entryCount := br_u64 in
       let* err := rd_err in
       if (err : bool) then rd_ret None
       else if maxReadAlloc / bytesPerPropEntry <? entryCount then let* _ := rd_fail in rd_ret None
       else
         let* ok := br_claim entryCount propEntryWireSize in
         if negb ok then rd_ret None
         else
           let* entries := rd_times (N.to_nat entryCount) read_entry in
           let* nodeOffsets := br_u32s (u64 (n + 1)) in
           let* arenaLen := br_u64 in
           let* arena := br_bytes arenaLen in
           let* err := rd_err in
           rd_ret (if (err : bool) then None
                   else Some (mkPropStore names ∅ entries nodeOffsets arena ∅ ∅)))%rd.

(** The body after the header: the packed arrays of a snapshot whose derived
    fields are still empty. *)
Definition read_body (header : Header) : rd (option Snapshot) :=
  (let* n := br_u64 in
   let* e := br_u64 in
   let* nodeKindsLen := br_u64 in
   let* graphIDs := br_u64s n in
   let* outOffsets := br_u64s (u64 (n + 1)) in
   let* outTargets := br_u32s e in
   let* outKinds := br_i16s e in
   let* outEdgeIDs := br_u64s e in
   let* inOffsets := br_u64s (u64 (n + 1)) in
   let* inTargets := br_u32s e in
   let* inKinds := br_i16s e in
   let* inEdgeIdx := br_u32s e in
   let* kindOffsets := br_u32s (u64 (n + 1)) in
   let* nodeKinds := br_i16s nodeKindsLen in
   let* edgeIDPerm := br_u32s e in
   let* kinds := readKindTable in
   let* props := readPropStore n in
   let* multiGraph := br_u8 in
   let* droppedEdges := br_u64 in
   rd_ret (kinds ← kinds; props ← props;
     Some (mkSnapshot (h_GraphID header) graphIDs outOffsets outTargets outKinds outEdgeIDs
       inOffsets inTargets inKinds inEdgeIdx kindOffsets nodeKinds 0%Z kinds props droppedEdges
       (negb (multiGraph =? 0)) (h_Lineage header) ∅ ∅ ∅ [] edgeIDPerm)))%rd.

Definition crc_size : N := 4.

(** [None] is a panic, which [ReadSnapshotFile] recovers from. *)
Definition read_file `{GoStd} (data : bytes) : option ((Snapshot * Stamp) + goerr) :=
  match readMagic data with
  | inr err => Some (inr err)
  | inl rest =>
      let remaining := (Z.of_N (len data) - Z.of_N (len snapshotMagic) - Z.of_N crc_size)%Z in
      let '(h, br) := readHeader (mkBinReader rest 0 false true remaining) in
      match h with
      | inr err => Some (inr err)
      | inl header =>
          let '(body, br) := read_body header br in
          if br_err br then Some (inr ErrCorrupt)
          else if len (br_data br) <? crc_size then Some (inr ErrCorrupt)
          else if negb (le_value (take 4 (br_data br)) =? br_crc br) then Some (inr ErrCorrupt)
          else
            s ← body;
            ok ← validateSnapshotStructure s;
            if negb ok then Some (inr ErrCorrupt)
            else s' ← finalizeDerived s; Some (inl (s', h_Stamp header))
      end
  end.
Definition ReadSnapshotFile `{GoStd} (data : bytes) : (Snapshot * Stamp) + goerr :=
  default (inr ErrCorrupt) (read_file data).

(** The header alone; its reader has no byte budget. *)
Definition ReadSnapshotFileHeader (data : bytes) : Header + goerr :=
  match readMagic data with
  | inr err => inr err
  | inl rest => (readHeader (mkBinReader rest 0 false false 0)).1
  end.

(** ** The format *)

Definition i16_bytes (z : Z) : bytes := le_bytes 2 (to_unsigned 16 z).
Definition kind_bytes (x : N * string) : bytes := concat [i16_bytes (Z.of_N x.1); str_bytes x.2].
Definition entry_bytes (e : propEntry) : bytes :=
  concat [le_bytes 2 (e_prop e); le_bytes 1 (e_kind e); le_bytes 8 (e_num e); le_bytes 4 (e_ref e); le_bytes 4 (e_len e)].

#[global] Arguments kind_bytes : simpl never.
#[global] Arguments entry_bytes : simpl never.

Definition kinds_bytes (kt : KindTable) : bytes :=
  concat [le_bytes 8 (len (filter (λ name, name ≠ EmptyString) (kt_names kt)));
    concat (kind_bytes <$> named_ids kt)].
Definition store_bytes (p : PropStore) : bytes :=
  concat [le_bytes 8 (len (ps_names p)); concat (str_bytes <$> ps_names p);
    le_bytes 8 (len (ps_entries p)); concat (entry_bytes <$> ps_entries p);
    concat (le_bytes 4 <$> ps_nodeOffsets p); le_bytes 8 (len (ps_arena p)); ps_arena p].

Definition header_bytes (s : Snapshot) (stamp : Stamp) : list bytes :=
  [le_bytes 4 snapshotFormatVersion; le_bytes 4 (to_unsigned 32 (GraphID s)); le_bytes 8 (st_Watermark stamp);
   ascii_of_N <$> WatermarkLineage s; le_bytes 8 (to_unsigned 64 (st_NodeIDSeq stamp));
   le_bytes 8 (to_unsigned 64 (st_EdgeIDSeq stamp))].
Definition body_bytes (s : Snapshot) : list bytes :=
  [le_bytes 8 (NodeCount s); le_bytes 8 (EdgeCount s); le_bytes 8 (len (NodeKinds s));
   concat (le_bytes 8 <$> GraphIDs s); concat (le_bytes 8 <$> OutOffsets s); concat (le_bytes 4 <$> OutTargets s);
   concat (i16_bytes <$> OutKinds s); concat (le_bytes 8 <$> OutEdgeIDs s); concat (le_bytes 8 <$> InOffsets s);
   concat (le_bytes 4 <$> InTargets s); concat (i16_bytes <$> InKinds s); concat (le_bytes 4 <$> InEdgeIdx s);
   concat (le_bytes 4 <$> KindOffsets s); concat (i16_bytes <$> NodeKinds s); concat (le_bytes 4 <$> edgeIDPerm s);
   kinds_bytes (Kinds s); store_bytes (Props s); le_bytes 1 (if MultiGraph s then 1 else 0);
   le_bytes 8 (u64 (DroppedEdges s))].
Definition file_body (s : Snapshot) (stamp : Stamp) : bytes := concat (header_bytes s stamp ++ body_bytes s).
(** The whole file: the magic, the body and the checksum of the body. *)
Definition file_bytes (s : Snapshot) (stamp : Stamp) : bytes :=
  snapshotMagic ++ file_body s stamp ++ le_bytes 4 (crc_update 0 (file_body s stamp)).

(** ** What is written *)

Section puts.
Context `{WriterLaws W wrote}.

Lemma puts_seq fs encs : Forall2 (puts wrote) fs encs → puts wrote (bw_seq fs) (concat encs).
Proof.
  induction 1 as [|f enc fs encs Hf _ IH]; simpl; [apply puts_id|]. by apply (puts_app f (bw_seq fs)).
Qed.
Lemma puts_map {A} (f : A → binWriter W → binWriter W) enc l : (∀ x, puts wrote (f x) (enc x)) → puts wrote (bw_seq (f <$> l)) (concat (enc <$> l)).
Proof. intros Hf. apply puts_seq. induction l; csimpl; constructor; auto. Qed.

(** One write of a list after the other. *)
Ltac put_list tac := apply puts_seq; repeat (apply Forall2_cons_2; [tac|]); apply Forall2_nil_2.
Ltac put_field := first [apply puts_write|apply puts_array|apply puts_str].

Lemma puts_kinds kt : puts wrote (writeKindTable kt) (kinds_bytes kt).
Proof. put_list ltac:(first [put_field|apply puts_map; intros x; put_list put_field]). Qed.
Lemma puts_store p : puts wrote (writePropStore p) (store_bytes p).
Proof. put_list ltac:(first [put_field|apply puts_map; intros x; first [put_field|put_list put_field]]). Qed.
Lemma puts_body s stamp : puts wrote (writeSnapshotBody s stamp) (file_body s stamp).
Proof.
  put_list ltac:(first [put_field|apply puts_kinds|apply puts_store|destruct (MultiGraph s); apply puts_write]).
Qed.
End puts.

(** What every single write preserves, the whole body does. *)
Section keeps.
Context `{IoWriter W} (P : binWriter W → Prop) (HP : ∀ bw p, P bw → P (bw_write p bw)).

Definition keeps (f : binWriter W → binWriter W) : Prop := ∀ bw, P bw → P (f bw).

Lemma keeps_write p : keeps (bw_write p).
Proof. intros bw. apply HP. Qed.
Lemma keeps_array {A} (enc : A → bytes) l : keeps (bw_array enc l).
Proof. intros bw Hb. unfold bw_array. destruct (bw_err bw || _); [done|by apply keeps_write]. Qed.
Lemma keeps_seq fs : Forall keeps fs → keeps (bw_seq fs).
Proof. induction 1 as [|f fs Hf _ IH]; intros bw Hb; [done|]. by apply IH, Hf. Qed.
Lemma keeps_map {A} (f : A → binWriter W → binWriter W) l : (∀ x, keeps (f x)) → keeps (bw_seq (f <$> l)).
Proof. intros Hf. apply keeps_seq, Forall_fmap, Forall_forall. intros x _. apply Hf. Qed.
Lemma keeps_str s : keeps (bw_str s).
Proof. intros bw Hb. unfold bw_str. by apply keeps_write, keeps_write. Qed.

Ltac keep_list tac := apply keeps_seq; repeat (apply Forall_cons_2; [tac|]); apply Forall_nil_2.
Ltac keep_field := first [apply keeps_write|apply keeps_array|apply keeps_str].

Lemma keeps_body s stamp : keeps (writeSnapshotBody s stamp).
Proof.
  keep_list ltac:(first [keep_field
    |keep_list ltac:(first [keep_field|apply keeps_map; intros x; first [keep_field|keep_list keep_field]])
    |destruct (MultiGraph s); apply keeps_write]).
Qed.
End keeps.

(** ** Reading it back *)

(** The fields fit their Go types, and the sizes one file. *)
Record entry_ok (e : propEntry) : Prop := {
  eo_prop : e_prop e < 2 ^ 16; eo_kind : e_kind e < 2 ^ 8; eo_num : e_num e < 2 ^ 64;
  eo_ref : e_ref e < 2 ^ 32; eo_len : e_len e < 2 ^ 32 }.
Definition name_ok (name : string) : Prop := N.of_nat (String.length name) < 2 ^ 32.

Record store_ok (p : PropStore) : Prop := {
  st_names : len (ps_names p) ≤ 2 ^ 16 ∧ ∀ name, name ∈ ps_names p → name_ok name;
  st_entries : len (ps_entries p) < 2 ^ 32 - 1 ∧ ∀ e, e ∈ ps_entries p → entry_ok e;
  st_offsets : len (ps_nodeOffsets p) ≤ 2 ^ 32 ∧ ∀ o, o ∈ ps_nodeOffsets p → o < 2 ^ 32;
  st_arena : len (ps_arena p) ≤ 2 ^ 32;
}.
Record stamp_ok (stamp : Stamp) : Prop := {
  sk_watermark : st_Watermark stamp < 2 ^ 64;
  sk_nodes : (- 2 ^ 63 ≤ st_NodeIDSeq stamp < 2 ^ 63)%Z;
  sk_edges : (- 2 ^ 63 ≤ st_EdgeIDSeq stamp < 2 ^ 63)%Z;
}.
Record kinds_ok (kt : KindTable) : Prop := {
  ko_len : len (kt_names kt) ≤ 2 ^ 15;
  ko_names : ∀ name, name ∈ kt_names kt → name_ok name;
}.
(** A list of [n] numbers below [b]. *)
Definition fits (l : list N) (n b : N) : Prop := len l = n ∧ ∀ x, x ∈ l → x < b.
Definition fits16 (l : list Z) (n : N) : Prop := len l = n ∧ ∀ z, z ∈ l → is_i16 z.

Record wire_ok (s : Snapshot) : Prop := {
  wk_nodes : NodeCount s < 2 ^ 32;
  wk_edges : EdgeCount s < 2 ^ 32;
  wk_nkinds : len (NodeKinds s) < 2 ^ 32;
  wk_graph : (- 2 ^ 31 ≤ GraphID s < 2 ^ 31)%Z;
  wk_lineage : length (WatermarkLineage s) = 16%nat ∧ ∀ b, b ∈ WatermarkLineage s → b < 256;
  wk_ids : fits (GraphIDs s) (NodeCount s) (2 ^ 64);
  wk_out : fits (OutOffsets s) (NodeCount s + 1) (2 ^ 64);
  wk_targets : fits (OutTargets s) (EdgeCount s) (2 ^ 32);
  wk_okinds : fits16 (OutKinds s) (EdgeCount s);
  wk_eids : fits (OutEdgeIDs s) (EdgeCount s) (2 ^ 64);
  wk_in : fits (InOffsets s) (NodeCount s + 1) (2 ^ 64);
  wk_sources : fits (InTargets s) (EdgeCount s) (2 ^ 32);
  wk_ikinds : fits16 (InKinds s) (EdgeCount s);
  wk_fwd : fits (InEdgeIdx s) (EdgeCount s) (2 ^ 32);
  wk_koff : fits (KindOffsets s) (NodeCount s + 1) (2 ^ 32);
  wk_kinds : fits16 (NodeKinds s) (len (NodeKinds s));
  wk_perm : fits (edgeIDPerm s) (EdgeCount s) (2 ^ 32);
  wk_table : kinds_ok (Kinds s);
  wk_store : store_ok (Props s) ∧ len (ps_nodeOffsets (Props s)) = NodeCount s + 1;
  wk_dropped : DroppedEdges s < 2 ^ 63;
}.

Section reads.

Lemma reads_u8 v : v < 2 ^ 8 → reads br_u8 (le_bytes 1 v) v.
Proof. apply (reads_uint 1). Qed.
Lemma reads_u16 v : v < 2 ^ 16 → reads br_u16 (le_bytes 2 v) v.
Proof. apply (reads_uint 2). Qed.
Lemma reads_u32 v : v < 2 ^ 32 → reads br_u32 (le_bytes 4 v) v.
Proof. apply (reads_uint 4). Qed.
Lemma reads_u64 v : v < 2 ^ 64 → reads br_u64 (le_bytes 8 v) v.
Proof. apply (reads_uint 8). Qed.
Lemma reads_u64s l n : fits l n (2 ^ 64) → n ≤ 2 ^ 32 → reads (br_u64s n) (concat (le_bytes 8 <$> l)) l.
Proof. intros [<- Hl] Hn. apply (reads_ints 8); [lia| |done].
  etrans; [exact Hn|]. apply N.leb_le. vm_compute. reflexivity. Qed.
Lemma reads_u32s l n : fits l n (2 ^ 32) → n ≤ 2 ^ 32 → reads (br_u32s n) (concat (le_bytes 4 <$> l)) l.
Proof. intros [<- Hl] Hn. apply (reads_ints 4); [lia| |done].
  etrans; [exact Hn|]. apply N.leb_le. vm_compute. reflexivity. Qed.
Lemma reads_i16_list l n : fits16 l n → n ≤ 2 ^ 32 → reads (br_i16s n) (concat (i16_bytes <$> l)) l.
Proof. intros [<- Hl] Hn. apply reads_i16s; [|done].
  etrans; [exact Hn|]. apply N.leb_le. vm_compute. reflexivity. Qed.

(** One field of a record after the other. *)
Ltac read_next tac := cbn [concat]; eapply reads_bind; [tac|]; cbn beta.

Lemma reads_entry e : entry_ok e → reads read_entry (entry_bytes e) e.
Proof.
  intros []. unfold read_entry, entry_bytes.
  do 5 read_next ltac:(first [by apply reads_u16|by apply reads_u8|by apply reads_u64|by apply reads_u32]).
  destruct e. apply reads_ret.
Qed.

Lemma reads_kinds l m : (∀ x, x ∈ l → x.1 < 2 ^ 15 ∧ name_ok x.2) →
  reads (read_kinds (length l) m) (concat (kind_bytes <$> l)) (Some (foldl (λ m x, <[Z.of_N x.1 := x.2]> m) m l)).
Proof.
  revert m. induction l as [|[id name] l IH]; intros m Hl; [apply reads_ret|].
  destruct (Hl (id, name)) as [Hid Hname]; [left|]. rewrite fmap_cons. unfold kind_bytes at 1.
  cbn [concat length read_kinds foldl fst snd]. rewrite app_nil_r, <- (assoc_L (++)).
  eapply reads_bind; [apply reads_i16; unfold is_i16; simpl in *; lia|]. cbn beta.
  eapply reads_bind; [by apply reads_str|]. cbn beta. apply reads_err. apply IH.
  intros. apply Hl. by right.
Qed.
(** The kinds that are written are the ids with a name. *)
Lemma zip_snd_filter (l : list string) lo : len (filter (λ x : N * string, x.2 ≠ EmptyString) (zip (range lo (lo + len l)) l)) =
  len (filter (λ name, name ≠ EmptyString) l).
Proof.
  revert lo. induction l as [|name l IH]; intros lo; [by rewrite zip_with_nil_r|]. rewrite len_cons, range_cons by lia. cbn [zip zip_with].
  rewrite !filter_cons. replace (lo + (len l + 1)) with (lo + 1 + len l) by lia. simpl.
  case_decide; [rewrite !len_cons|]; by rewrite IH.
Qed.
Lemma named_ids_len kt : len (named_ids kt) = len (filter (λ name, name ≠ EmptyString) (kt_names kt)).
Proof. unfold named_ids. rewrite <- (N.add_0_l (len (kt_names kt))) at 1. apply zip_snd_filter. Qed.
Lemma named_ids_elem kt x : x ∈ named_ids kt → x.1 < len (kt_names kt) ∧ x.2 ∈ kt_names kt.
Proof.
  intros [_ Hx]%list_elem_of_filter. destruct x as [i name]. split; simpl.
  - apply elem_of_zip_l, elem_of_range in Hx. lia.
  - by apply elem_of_zip_r in Hx.
Qed.

(** The map a table is rebuilt from. *)
Definition kinds_of (kt : KindTable) : gmap KindID string := foldl (λ m x, <[Z.of_N x.1 := x.2]> m) ∅ (named_ids kt).

Lemma kinds_of_lookup kt k : kinds_of kt !! k = KindTable_Name (mkKindTable (kt_names kt) ∅) k.
Proof.
  rewrite <- base_pairs_lookup. unfold kinds_of, named_ids.
  rewrite <- (foldl_filter (λ x : N * string, x.2 = EmptyString) (λ m x, <[Z.of_N x.1 := x.2]> m)). f_equal.
  apply foldl_ext_in. intros m [i name] _. destruct (String.eqb_spec name EmptyString); [by rewrite decide_True|by rewrite decide_False].
Qed.

(** For a table of named, non-negative kinds it is the map the table was built from. *)
Lemma kinds_of_table pairs t : NewKindTable pairs = Some t →
  (∀ id name, pairs !! id = Some name → (0 ≤ id)%Z ∧ name ≠ EmptyString) → kinds_of t = pairs.
Proof.
  intros Ht Hp. apply map_eq. intros k. rewrite kinds_of_lookup.
  change (KindTable_Name t k = pairs !! k). rewrite (NewKindTable_name _ _ _ Ht).
  destruct (pairs !! k) as [name|] eqn:E; [|by case_bool_decide]. destruct (Hp _ _ E) as [H0 Hn].
  rewrite bool_decide_true by done. by destruct (String.eqb_spec name EmptyString).
Qed.

Lemma reads_kind_table kt : kinds_ok kt → reads readKindTable (kinds_bytes kt) (NewKindTable (kinds_of kt)).
Proof.
  intros [Hl Hn]. unfold readKindTable, kinds_bytes. cbn [concat]. rewrite <- named_ids_len, app_nil_r.
  assert (len (named_ids kt) ≤ 2 ^ 15) as Hle.
  { rewrite named_ids_len. pose proof (filter_len_le (λ name, name ≠ EmptyString) (kt_names kt)). lia. }
  eapply reads_bind; [apply reads_u64; lia|]. cbn beta. apply reads_err. cbn [negb].
  rewrite (proj2 (N.ltb_ge _ _)) by (unfold maxKindTableEntries; lia).
  apply reads_claim; [done| |].
  - apply len_concat_ge. intros x. unfold kind_bytes. cbn [concat]. unfold i16_bytes, str_bytes.
    rewrite !len_app, !len_le_bytes. lia.
  - cbn [negb]. refine (reads_last _ (λ pairs : option (gmap KindID string), p ← pairs; NewKindTable p) _ (Some (kinds_of kt)) _).
    rewrite to_nat_len. apply reads_kinds. intros x Hx. apply named_ids_elem in Hx as [Hi Hin].
    split; [lia|by apply Hn].
Qed.

Lemma reads_prop_store p n : store_ok p → len (ps_nodeOffsets p) = n + 1 → n < 2 ^ 32 →
  reads (readPropStore n) (store_bytes p)
    (Some (mkPropStore (ps_names p) ∅ (ps_entries p) (ps_nodeOffsets p) (ps_arena p) ∅ ∅)).
Proof.
  intros [[Hnl Hn] [Hel He] [Hol Ho] Ha] Hlen Hn32. unfold readPropStore, store_bytes.
  read_next ltac:(apply reads_u64; lia). apply reads_err. cbn [negb]. unfold maxPropID.
  rewrite (proj2 (N.ltb_ge _ _)) by lia. apply reads_claim; [done| |].
  { rewrite len_app. enough (len (ps_names p) * 4 ≤ len (concat (str_bytes <$> ps_names p))) by lia.
    apply len_concat_ge. intros x. unfold str_bytes. rewrite len_app, len_le_bytes. lia. }
  cbn [negb]. rewrite to_nat_len.
  read_next ltac:(apply (reads_times _ str_bytes); intros x Hx; apply reads_str; by apply Hn).
  read_next ltac:(apply reads_u64; lia). apply reads_err. cbn [negb].
  rewrite (proj2 (N.ltb_ge _ _)).
  2: { etrans; [apply N.lt_le_incl, Hel|]. apply N.leb_le. vm_compute. reflexivity. }
  apply reads_claim; [done| |].
  { rewrite len_app, (len_concat_enc _ propEntryWireSize); [unfold propEntryWireSize; lia|].
    intros e _. unfold entry_bytes. cbn [concat]. by rewrite !len_app, !len_le_bytes. }
  cbn [negb]. rewrite to_nat_len.
  read_next ltac:(apply (reads_times _ entry_bytes); intros e Hin; apply reads_entry; by apply He).
  read_next ltac:(apply reads_u32s; [split; [rewrite Hlen, u64_small by lia; reflexivity|done]|rewrite u64_small by lia; lia]).
  read_next ltac:(apply reads_u64; lia).
  read_next ltac:(apply reads_bytes; unfold maxReadAlloc; lia).
  apply reads_err. apply reads_ret.
Qed.
Lemma copy_lineage_bytes l : length l = 16%nat → (∀ b, b ∈ l → b < 256) → copy_lineage (ascii_of_N <$> l) = l.
Proof.
  intros Hl Hb. unfold copy_lineage. rewrite take_ge by (rewrite length_fmap; lia).
  rewrite !length_fmap, Hl, Nat.sub_diag, app_nil_r, <- list_fmap_compose.
  rewrite <- (list_fmap_id l) at 2. apply list_fmap_ext. intros i b Hi. apply N_ascii, Hb. by eapply list_elem_of_lookup_2.
Qed.

Lemma reads_header s stamp : wire_ok s → stamp_ok stamp →
  reads readHeader (concat (header_bytes s stamp)) (inl (mkHeader (GraphID s) (WatermarkLineage s) stamp)).
Proof.
  intros Hs []. destruct (wk_lineage _ Hs) as [Hl Hb]. unfold readHeader, header_bytes.
  read_next ltac:(by apply reads_u32). apply reads_err. cbn [negb].
  rewrite (proj2 (N.eqb_eq _ _)) by done. cbn [negb].
  read_next ltac:(apply reads_i32, (wk_graph _ Hs)). read_next ltac:(by apply reads_u64).
  assert (16 = len (ascii_of_N <$> WatermarkLineage s)) as Hlen by (rewrite len_fmap; unfold len; lia).
  rewrite Hlen. read_next ltac:(apply reads_bytes; rewrite <- Hlen; by apply N.leb_le).
  destruct (to_signed_unsigned 64 (st_NodeIDSeq stamp)) as [Hn En]; [done|done|].
  destruct (to_signed_unsigned 64 (st_EdgeIDSeq stamp)) as [He Ee]; [done|done|].
  do 2 read_next ltac:(by apply reads_u64). apply reads_err.
  rewrite En, Ee, copy_lineage_bytes by done. destruct stamp. apply reads_ret.
Qed.

(** A snapshot without what [finalizeDerived] fills in. *)
Definition bare_store (p : PropStore) : PropStore :=
  mkPropStore (ps_names p) ∅ (ps_entries p) (ps_nodeOffsets p) (ps_arena p) ∅ ∅.
Definition bare (s : Snapshot) : Snapshot :=
  mkSnapshot (GraphID s) (GraphIDs s) (OutOffsets s) (OutTargets s) (OutKinds s) (OutEdgeIDs s)
    (InOffsets s) (InTargets s) (InKinds s) (InEdgeIdx s) (KindOffsets s) (NodeKinds s) 0%Z (Kinds s)
    (bare_store (Props s)) (DroppedEdges s) (MultiGraph s) (WatermarkLineage s) ∅ ∅ ∅ [] (edgeIDPerm s).

Lemma reads_body s stamp : wire_ok s → NewKindTable (kinds_of (Kinds s)) = Some (Kinds s) →
  reads (read_body (mkHeader (GraphID s) (WatermarkLineage s) stamp)) (concat (body_bytes s)) (Some (bare s)).
Proof.
  intros [] Hk. assert (DroppedEdges s < 2 ^ 64) by lia.
  unfold read_body, body_bytes. rewrite (u64_small (DroppedEdges s)) by done.
  do 3 read_next ltac:(apply reads_u64; lia). rewrite u64_small by lia.
  do 12 read_next ltac:(first [apply reads_u64s; [done|lia]|apply reads_u32s; [done|lia]|apply reads_i16_list; [done|lia]]).
  read_next ltac:(by apply reads_kind_table).
  read_next ltac:(apply reads_prop_store; [apply wk_store0|apply wk_store0|done]).
  read_next ltac:(apply reads_u8; by destruct (MultiGraph s)).
  read_next ltac:(by apply reads_u64). rewrite Hk. cbn [mbind option_bind].
  assert (negb ((if MultiGraph s then 1 else 0) =? 0) = MultiGraph s) as -> by by destruct (MultiGraph s).
  apply reads_ret.
Qed.

(** The derived fields are a function of the others. *)
Lemma finalize_bare `{GoStd} s0 s : finalizeDerived s0 = Some s → finalizeDerived (bare s) = Some s.
Proof.
  unfold finalizeDerived. intros E.
  apply bind_Some in E as ([m bms] & Eb & E). apply bind_Some in E as (seen & Es & E).
  apply bind_Some in E as (loops & El & E). apply bind_Some in E as (props & Ep & E). injection E as <-.
  unfold bare, build_bitmaps, find_self_loops, NodeCount in *. simpl.
  unfold build_bitmaps in Eb. rewrite Eb. simpl. rewrite Es. simpl. rewrite El. simpl.
  unfold finalizePropStore in *. simpl in *.
  destruct (IDByName _ _) as [objID|] eqn:Ei.
  - destruct (index_objectid _ _ _) as [[index dup]|] eqn:Ex; [|done]. simpl in Ep. injection Ep as <-. simpl.
    unfold IDByName in *. simpl in *. rewrite Ei, Ex. done.
  - injection Ep as <-. simpl. unfold IDByName in *. simpl in *. by rewrite Ei.
Qed.
End reads.

(** ** The checksum covers what was read *)

(** [m] takes a piece off the front of the file and adds it to the checksum. *)
Definition advances {A} (m : rd A) : Prop := ∀ br, ∃ used,
  br_data br = used ++ br_data (m br).2 ∧ br_crc (m br).2 = crc_update (br_crc br) used.

Lemma advances_same {A} (m : rd A) : (∀ br, br_data (m br).2 = br_data br ∧ br_crc (m br).2 = br_crc br) → advances m.
Proof. intros Hm br. exists []. destruct (Hm br) as [-> ->]. by rewrite crc_update_nil. Qed.
Lemma advances_bind {A B} (m : rd A) (f : A → rd B) : advances m → (∀ x, advances (f x)) → advances (rd_bind m f).
Proof.
  intros Hm Hf br. unfold rd_bind. destruct (Hm br) as (u & Hd & Hc). destruct (m br) as [x br1].
  destruct (Hf x br1) as (u' & Hd' & Hc'). simpl in *. exists (u ++ u').
  by rewrite Hd, Hd', (assoc_L (++)), Hc', Hc, crc_update_app.
Qed.
Lemma advances_read n : advances (br_read n).
Proof.
  intros br. unfold br_read. destruct (br_err br); [exists []; by rewrite crc_update_nil|].
  destruct (len (br_data br) <? n); simpl; eexists; (split; [|done]); [by rewrite app_nil_r|by rewrite take_drop].
Qed.
Lemma claim_same n k br : br_data (br_claim n k br).2 = br_data br ∧ br_crc (br_claim n k br).2 = br_crc br.
Proof. unfold br_claim. by repeat case_match. Qed.
Lemma advances_uint k : advances (br_uint k).
Proof. intros br. unfold br_uint. pose proof (advances_read k br) as H. by destruct (br_read k br). Qed.
Lemma advances_bytes n : advances (br_bytes n).
Proof.
  intros br. unfold br_bytes. destruct (br_err br); [exists []; by rewrite crc_update_nil|].
  destruct (maxReadAlloc <? n); [exists []; by rewrite crc_update_nil|].
  pose proof (claim_same n 1 br) as [Hd Hc]. destruct (br_claim n 1 br) as [ok br1]. simpl in Hd, Hc. rewrite <- Hd, <- Hc.
  destruct ok; simpl; [|exists []; by rewrite crc_update_nil].
  pose proof (advances_read n br1) as H. by destruct (br_read n br1).
Qed.
Lemma advances_array {A} (get : bytes → A) k n : advances (br_array get k n).
Proof.
  intros br. unfold br_array. destruct (br_err br); [exists []; by rewrite crc_update_nil|].
  destruct (maxReadAlloc / k <? n); [exists []; by rewrite crc_update_nil|].
  pose proof (claim_same n k br) as [Hd Hc]. destruct (br_claim n k br) as [ok br1]. simpl in Hd, Hc. rewrite <- Hd, <- Hc.
  destruct ok; simpl; [|exists []; by rewrite crc_update_nil].
  destruct (n =? 0); [exists []; by rewrite crc_update_nil|].
  pose proof (advances_read (n * k) br1) as H. by destruct (br_read (n * k) br1).
Qed.

Ltac advance :=
  first [apply advances_uint|apply advances_bytes|apply advances_array|apply advances_read
    |apply advances_same; (done || apply claim_same)
    |apply advances_bind; [advance|intros ?; advance]
    |progress case_match; advance].

Lemma advances_times {A} (m : rd A) n : advances m → advances (rd_times n m).
Proof. intros Hm. induction n; simpl; [advance|]. apply advances_bind; [done|]. intros x. apply advances_bind; [done|]. intros. advance. Qed.
Lemma advances_kinds n m : advances (read_kinds n m).
Proof.
  revert m. induction n as [|n IH]; intros m; simpl; [advance|]. unfold br_i16, br_str.
  apply advances_bind; [advance|]. intros id. apply advances_bind; [advance|]. intros name.
  apply advances_bind; [advance|]. intros []; [advance|apply IH].
Qed.
Lemma advances_header : advances readHeader.
Proof. unfold readHeader, br_u32, br_i32, br_u64. advance. Qed.
Lemma advances_table : advances readKindTable.
Proof.
  unfold readKindTable. apply advances_bind; [advance|]. intros count. apply advances_bind; [advance|]. intros [].
  - advance.
  - case_match; [advance|]. apply advances_bind; [advance|]. intros []; simpl; [|advance].
    apply advances_bind; [apply advances_kinds|]. intros. advance.
Qed.

Lemma advances_store n : advances (readPropStore n).
Proof.
  unfold readPropStore. apply advances_bind; [advance|]. intros count. apply advances_bind; [advance|]. intros [].
  { advance. }
  case_match; [advance|]. apply advances_bind; [advance|]. intros []; simpl; [|advance].
  apply advances_bind; [apply advances_times; unfold br_str, br_u32; advance|]. intros names.
  apply advances_bind; [advance|]. intros entryCount. apply advances_bind; [advance|]. intros []; [advance|].
  case_match; [advance|]. apply advances_bind; [advance|]. intros []; simpl; [|advance].
  apply advances_bind; [apply advances_times; unfold read_entry, br_u16, br_u8, br_f64, br_u32, br_u64; advance|].
  intros entries. advance.
Qed.
Lemma advances_body h : advances (read_body h).
Proof.
  unfold read_body. do 15 (apply advances_bind; [advance|]; intros ?).
  apply advances_bind; [apply advances_table|]; intros ?. apply advances_bind; [apply advances_store|]; intros ?. advance.
Qed.

(** [finalizeDerived] leaves what the checks look at. *)
Lemma finalize_same `{GoStd} s0 s : finalizeDerived s0 = Some s → validateSnapshotStructure s = validateSnapshotStructure s0.
Proof.
  unfold finalizeDerived. intros E.
  apply bind_Some in E as ([m bms] & _ & E). apply bind_Some in E as (seen & _ & E).
  apply bind_Some in E as (loops & _ & E). apply bind_Some in E as (props & Ep & E). injection E as <-.
  unfold finalizePropStore in Ep.
  assert (ps_names props = ps_names (Props s0) ∧ ps_entries props = ps_entries (Props s0) ∧
    ps_nodeOffsets props = ps_nodeOffsets (Props s0) ∧ ps_arena props = ps_arena (Props s0)) as (H1 & H2 & H3 & H4).
  { destruct (IDByName _ _); [destruct (index_objectid _ _ _) as [[]|]; [|done]|]; simpl in Ep; by injection Ep as <-. }
  unfold validateSnapshotStructure, validatePropStore, node_entries_valid. simpl. by rewrite H1, H2, H3, H4.
Qed.

(** What was read was checked: the magic, the checksum of all of the body, and
    the structure. *)
Lemma read_file_checked `{GoStd} data s stamp : ReadSnapshotFile data = inl (s, stamp) →
  (len (ps_entries (Props s)) < 2 ^ 32 - 1 → structure_ok s) ∧ ∃ body rest, data = snapshotMagic ++ body ++ rest ∧ 4 ≤ len rest ∧
    le_value (take 4 rest) = crc_update 0 body.
Proof.
  unfold ReadSnapshotFile, read_file, readMagic. destruct (len data <? len snapshotMagic); [done|].
  case_bool_decide as Hm; [|done]. cbn [option_bind default]. set (br0 := mkBinReader _ _ _ _ _).
  destruct (advances_header br0) as (u1 & Hd1 & Hc1). destruct (readHeader br0) as [[header|] br1]; [|done].
  destruct (advances_body header br1) as (u2 & Hd2 & Hc2). destruct (read_body header br1) as [body br2].
  cbn [snd] in *. destruct (br_err br2); [done|]. destruct (N.ltb_spec (len (br_data br2)) crc_size) as [|Hl]; [done|].
  destruct (N.eqb_spec (le_value (take 4 (br_data br2))) (br_crc br2)) as [Hcrc|]; [|done]. cbn [negb].
  destruct body as [s0|]; [|done]. cbn [mbind option_bind].
  destruct (validateSnapshotStructure s0) as [[]|] eqn:Hb; [|done..]. cbn [negb mbind option_bind].
  destruct (finalizeDerived s0) as [s1|] eqn:Ef; [|done]. cbn [mbind option_bind default]. intros [= <- _].
  split.
  - intros Hlen. destruct (validate_spec s1 Hlen) as (b & Hb1 & Hiff1). apply Hiff1. rewrite (finalize_same _ _ Ef) in Hb1. congruence.
  - exists (u1 ++ u2), (br_data br2). split_and!; [|exact Hl|].
    + rewrite <- (take_drop (length snapshotMagic) data), Hm. f_equal.
      change (drop (length snapshotMagic) data) with (br_data br0). by rewrite Hd1, Hd2, (assoc_L (++)).
    + by rewrite Hcrc, Hc2, Hc1, crc_update_app.
Qed.

(** Reading a written file gives the snapshot and the stamp. *)
Lemma read_file_bytes `{GoStd} s0 s stamp : finalizeDerived s0 = Some s → wire_ok s → stamp_ok stamp →
  NewKindTable (kinds_of (Kinds s)) = Some (Kinds s) → structure_ok s →
  ReadSnapshotFile (file_bytes s stamp) = inl (s, stamp).
Proof.
  intros Hf Hw Hst Hk Hv. unfold ReadSnapshotFile, read_file, readMagic, file_bytes.
  rewrite (proj2 (N.ltb_ge _ _)) by (rewrite len_app; lia).
  rewrite bool_decide_true by (rewrite take_app_length; done). rewrite drop_app_length.
  set (crc := le_bytes 4 _). unfold file_body. rewrite concat_app, <- (assoc_L (++)).
  assert (len (snapshotMagic ++ concat (header_bytes s stamp) ++ concat (body_bytes s) ++ crc) =
    len snapshotMagic + len (concat (header_bytes s stamp)) + len (concat (body_bytes s)) + 4) as Hlen.
  { rewrite !len_app. unfold crc. rewrite len_le_bytes. lia. }
  rewrite Hlen. set (br0 := mkBinReader _ _ _ _ _).
  rewrite (reads_header s stamp Hw Hst br0 (concat (body_bytes s) ++ crc)); [|done|done|unfold br0, crc_size; simpl; lia].
  rewrite (reads_body s stamp Hw Hk _ crc); [|done|done|unfold br0, crc_size; simpl; lia].
  unfold br_after. cbn [br_err br_data br_crc]. rewrite (proj2 (N.ltb_ge _ _)) by (unfold crc; by rewrite len_le_bytes).
  assert (le_value (take 4 crc) = crc_update 0 (file_body s stamp)) as Hc.
  { rewrite take_ge by done. apply le_value_bytes. by apply crc_update_lt. }
  rewrite Hc. unfold br0. cbn [br_crc]. rewrite crc_update_app, <- concat_app.
  change (concat (header_bytes s stamp ++ body_bytes s)) with (file_body s stamp). rewrite N.eqb_refl. cbn [negb mbind option_bind].
  destruct (validate_spec s (proj1 (st_entries _ (proj1 (wk_store _ Hw))))) as (b & Hb & Hiff). change (validateSnapshotStructure (bare s)) with (validateSnapshotStructure s).
  rewrite Hb, (proj2 Hiff Hv). cbn [negb mbind option_bind]. by rewrite (finalize_bare _ _ Hf).
Qed.
