(* ===== verification/Disk.v ===== *)
(** * Putting the snapshot file on disk

    [WriteSnapshotFile], [RemoveSnapshotFile] and [syncDir] of
    [internal/engine/snapshot/file.go], over a small model of a file system.
    Every call of the operating system may fail; which ones do is an oracle.
    The states the disk goes through are recorded, so that a crash can be
    looked at after any of them. *)

From S2P Require Import Prelude Bitset Csr Codec Kinds Props Snapshot Builder Validate SnapshotFile.
From stdpp Require Import options.
Unset Default Proof Using.
#[local] Open Scope N_scope.

(** ** The file system *)

(** A file's contents, and whether [fsync] has been called since the last
    write: after a power loss a file that was not synced may be cut short. *)
Record file := mkFile { f_data : bytes; f_synced : bool }.
Abbreviation files := (gmap string file) (only parsing).

(** What [errors.Is] tells apart. *)
Inductive ioerr := ENotExist | EUnsupported | EOther.

(** The files, what the buffered writer of the open file still holds, how many
    system calls there have been, and the files after each of them. *)
Record disk := mkDisk { d_files : files; d_buf : bytes; d_time : N; d_seen : list files }.

Section disk.
(** The outcome of the n-th call, and how much of a write it lets through when
    it fails. *)
Context (outcome : N → option ioerr) (partial : N → N).

Definition step (fs : files) (buf : bytes) (d : disk) : disk :=
  mkDisk fs buf (d_time d + 1) (d_seen d ++ [fs]).
(** A call that changes the files if it succeeds. *)
Definition call (change : files → files) (d : disk) : disk * option ioerr :=
  match outcome (d_time d) with
  | Some e => (step (d_files d) (d_buf d) d, Some e)
  | None => (step (change (d_files d)) (d_buf d) d, None)
  end.

Definition bufSize : N := 1048576.
Definition append_file (name : string) (p : bytes) (fs : files) : files :=
  match fs !! name with Some f => <[name := mkFile (f_data f ++ p) false]> fs | None => fs end.

(** [bufio.Writer] on the open file [name]: what does not fit its buffer goes to
    the file, and [Flush] hands it what is left. A call that fails has let
    some of it through. *)
Definition buf_write (name : string) (p : bytes) (d : disk) : disk * bool :=
  let pending := d_buf d ++ p in
  match outcome (d_time d) with
  | Some _ => (step (append_file name (take (N.to_nat (partial (d_time d))) pending) (d_files d)) [] d, true)
  | None =>
      if bufSize <? len pending then (step (append_file name pending (d_files d)) [] d, false)
      else (step (d_files d) pending d, false)
  end.
Definition buf_flush (name : string) (d : disk) : disk * option ioerr :=
  match outcome (d_time d) with
  | Some e => (step (append_file name (take (N.to_nat (partial (d_time d))) (d_buf d)) (d_files d)) [] d, Some e)
  | None => (step (append_file name (d_buf d) (d_files d)) [] d, None)
  end.
Definition file_writer (name : string) : IoWriter disk := λ d p, buf_write name p d.

Definition os_CreateTemp (name : string) : disk → disk * option ioerr := λ d,
  let '(d, err) := call (<[name := mkFile [] false]>) d in
  (mkDisk (d_files d) [] (d_time d) (d_seen d), err).
Definition os_Sync (name : string) : disk → disk * option ioerr :=
  call (λ fs, match fs !! name with Some f => <[name := mkFile (f_data f) true]> fs | None => fs end).
Definition os_Close : disk → disk * option ioerr := call (λ fs, fs).
Definition os_Rename (from to : string) : disk → disk * option ioerr :=
  call (λ fs, match fs !! from with Some f => <[to := f]> (delete from fs) | None => fs end).
Definition os_Remove (name : string) : disk → disk * option ioerr := λ d,
  match d_files d !! name with
  | Some _ => call (delete name) d
  | None => let '(d, err) := call (λ fs, fs) d in
            (d, match err with Some e => Some e | None => Some ENotExist end)
  end.

(** ** Definitions *)

Definition dirSyncUnsupported (e : ioerr) : bool := match e with EUnsupported => true | _ => false end.

(** Opening, syncing and closing a directory. *)
Definition syncDir (windows : bool) (d : disk) : disk * option ioerr :=
  if windows then (d, None)
  else
    let '(d, err) := call (λ fs, fs) d in
    match err with
    | Some e => (d, Some e)
    | None =>
        let '(d, syncErr) := call (λ fs, fs) d in
        let '(d, closeErr) := os_Close d in
        match syncErr with
        | Some e => if negb (dirSyncUnsupported e) then (d, Some e)
                    else match closeErr with Some e => (d, Some e) | None => (d, None) end
        | None => match closeErr with Some e => (d, Some e) | None => (d, None) end
        end
    end.

(** The rest of a function when a call succeeded, and its error otherwise. *)
Definition and_then (r : disk * option ioerr) (k : disk → disk * option ioerr) : disk * option ioerr :=
  match r with (d, None) => k d | (d, Some e) => (d, Some e) end.
Definition of_write (r : disk * bool) : disk * option ioerr := (r.1, if r.2 then Some EOther else None).

(** The magic, the body with its running checksum, and the checksum. *)
Definition write_contents (tmp : string) (s : Snapshot) (stamp : Stamp) (d : disk) : disk * option ioerr :=
  and_then (of_write (buf_write tmp snapshotMagic d)) (λ d,
    let bw := writeSnapshotBody (H := @multi_writer disk (file_writer tmp)) s stamp (mkBinWriter (d, 0) false) in
    if bw_err bw then ((bw_w bw).1, Some EOther)
    else of_write (buf_write tmp (le_bytes 4 (bw_w bw).2) (bw_w bw).1)).

(** What leads to the rename, with the clean-up of an earlier failure; [tmp] is
    the name [os.CreateTemp] makes. *)
Definition write_and_rename (tmp path : string) (s : Snapshot) (stamp : Stamp) (d : disk) : disk * option ioerr :=
  and_then (os_CreateTemp tmp d) (λ d,
    let '(d, err) :=
      and_then (write_contents tmp s stamp d) (λ d,
      and_then (buf_flush tmp d) (λ d,
      and_then (os_Sync tmp d) (λ d,
      and_then (os_Close d) (os_Rename tmp path)))) in
    match err with
    | None => (d, None)
    | Some e => ((os_Remove tmp (os_Close d).1).1, Some e)
    end).

Definition WriteSnapshotFile (windows : bool) (tmp path : string) (s : Snapshot) (stamp : Stamp) (d : disk)
  : disk * option ioerr :=
  and_then (write_and_rename tmp path s stamp d) (syncDir windows).

Definition RemoveSnapshotFile (windows : bool) (path : string) (d : disk) : disk * (bool * option ioerr) :=
  let '(d, err) := os_Remove path d in
  let sync (removed : bool) :=
    let '(d, err) := syncDir windows d in
    match err with
    | Some ENotExist | None => (d, (removed, None))
    | Some e => (d, (removed, Some e))
    end in
  match err with
  | None => sync true
  | Some ENotExist => sync false
  | Some e => (d, (false, Some e))
  end.
End disk.

(** ** What happens on the disk *)

Section proofs.
Context (outcome : N → option ioerr) (partial : N → N) (tmp path : string).

(** In every state so far, and now, the files but [tmp] are those of [fs0]. *)
Definition quiet (fs0 : files) (d : disk) : Prop :=
  ∀ fs name, (fs = d_files d ∨ fs ∈ d_seen d) → name ≠ tmp → fs !! name = fs0 !! name.

Lemma quiet_step fs0 d fs buf : quiet fs0 d → (∀ name, name ≠ tmp → fs !! name = fs0 !! name) → quiet fs0 (step fs buf d).
Proof.
  intros Hq Hf fs' name Hin Hn. unfold step in Hin. simpl in Hin. rewrite elem_of_app, list_elem_of_singleton in Hin.
  destruct Hin as [->|[Hin| ->]]; [by apply Hf|apply (Hq fs'); tauto|by apply Hf].
Qed.
Lemma quiet_now fs0 d name : quiet fs0 d → name ≠ tmp → d_files d !! name = fs0 !! name.
Proof. intros Hq. apply Hq. by left. Qed.

Lemma append_file_other name p fs other : other ≠ name → append_file name p fs !! other = fs !! other.
Proof. intros Ho. unfold append_file. destruct (fs !! name); [|done]. by rewrite lookup_insert_ne. Qed.

Lemma quiet_write fs0 d p : quiet fs0 d → quiet fs0 (buf_write outcome partial tmp p d).1.
Proof.
  intros Hq. unfold buf_write.
  repeat case_match; apply quiet_step; try done; intros name Hn; rewrite ?append_file_other by done; by apply quiet_now.
Qed.
Lemma quiet_flush fs0 d : quiet fs0 d → quiet fs0 (buf_flush outcome partial tmp d).1.
Proof.
  intros Hq. unfold buf_flush. case_match; apply quiet_step; try done; intros name Hn;
    rewrite ?append_file_other by done; by apply quiet_now.
Qed.
Lemma quiet_call fs0 d change : quiet fs0 d →
  (∀ name, name ≠ tmp → change (d_files d) !! name = d_files d !! name) → quiet fs0 (call outcome change d).1.
Proof.
  intros Hq Hc. unfold call. case_match; apply quiet_step; try done; intros name Hn; rewrite ?Hc by done; by apply quiet_now.
Qed.
Lemma quiet_remove fs0 d : quiet fs0 d → quiet fs0 (os_Remove outcome tmp d).1.
Proof.
  intros Hq. unfold os_Remove. destruct (d_files d !! tmp).
  - apply quiet_call; [done|]. intros name Hn. by rewrite lookup_delete_ne.
  - pose proof (quiet_call fs0 d (λ fs, fs) Hq) as Hc. destruct (call outcome (λ fs, fs) d). by apply Hc.
Qed.

(** The open file and the buffer hold [c] together. *)
Definition holds (c : bytes) (d : disk) : Prop := ∃ f, d_files d !! tmp = Some f ∧ f_data f ++ d_buf d = c.
Definition wrote_file (d : disk) (p : bytes) (d' : disk) : Prop := ∀ c, holds c d → holds (c ++ p) d'.

Lemma append_file_same p fs f : fs !! tmp = Some f → append_file tmp p fs !! tmp = Some (mkFile (f_data f ++ p) false).
Proof. intros Hf. unfold append_file. by rewrite Hf, lookup_insert_eq. Qed.

Lemma write_holds d p d' : buf_write outcome partial tmp p d = (d', false) → wrote_file d p d'.
Proof.
  unfold buf_write. intros E c (f & Hf & Hc). destruct (outcome (d_time d)); [done|].
  destruct (bufSize <? len (d_buf d ++ p)); injection E as <-.
  - eexists. split; [by apply append_file_same|]. simpl. by rewrite app_nil_r, (assoc_L (++)), Hc.
  - exists f. split; [done|]. simpl. by rewrite (assoc_L (++)), Hc.
Qed.
#[local] Instance file_laws : @WriterLaws disk (file_writer outcome partial tmp) wrote_file.
Proof.
  split.
  - intros d c. by rewrite app_nil_r.
  - intros d1 d2 d3 p q H1 H2 c Hc. rewrite (assoc_L (++)). by apply H2, H1.
  - intros d p d'. apply write_holds.
Qed.

Lemma contents_spec fs0 s stamp d c : quiet fs0 d → holds c d →
  let '(d', err) := write_contents outcome partial tmp s stamp d in
  quiet fs0 d' ∧ (err = None → holds (c ++ file_bytes s stamp) d').
Proof.
  intros Hq Hc. unfold write_contents. destruct (buf_write outcome partial tmp snapshotMagic d) as [d1 e1] eqn:E1.
  pose proof (quiet_write fs0 d snapshotMagic Hq) as Hq1. rewrite E1 in Hq1. simpl in Hq1.
  unfold of_write at 1. simpl. destruct e1; simpl; [done|]. pose proof (write_holds _ _ _ E1 _ Hc) as H1.
  set (W := @multi_writer disk (file_writer outcome partial tmp)).
  set (bw := @writeSnapshotBody _ W s stamp (mkBinWriter (d1, 0) false)).
  assert (quiet fs0 (bw_w bw).1) as Hq2.
  { apply (@keeps_body _ W (λ bw, quiet fs0 (bw_w bw).1)); [|done]. intros [[d2 h] err] p Hd2. unfold bw_write. simpl in *.
    destruct err; [done|]. unfold Write, W, multi_writer, Write, file_writer. simpl.
    pose proof (quiet_write fs0 d2 p Hd2) as Hq3. by destruct (buf_write outcome partial tmp p d2) as [d3 []]. }
  destruct (bw_err bw) eqn:Eb; [done|].
  destruct (puts_body s stamp (mkBinWriter (d1, 0) false) Eb) as (_ & Hw & Hcrc). simpl in Hw, Hcrc.
  fold bw in Hw, Hcrc. destruct (buf_write outcome partial tmp (le_bytes 4 (bw_w bw).2) (bw_w bw).1) as [d4 e4] eqn:E4.
  pose proof (quiet_write fs0 _ (le_bytes 4 (bw_w bw).2) Hq2) as Hq4. rewrite E4 in Hq4. unfold of_write. simpl in *. split; [done|].
  destruct e4; [done|]. intros _. pose proof (write_holds _ _ _ E4 _ (Hw _ H1)) as H4.
  unfold file_bytes. by rewrite Hcrc, <- !(assoc_L (++)) in H4.
Qed.

(** A call ended well with [Q], or with an error and [P]. *)
Definition ends (P Q : disk → Prop) (r : disk * option ioerr) : Prop :=
  match r.2 with None => Q r.1 | Some _ => P r.1 end.
Lemma ends_then (P Q R : disk → Prop) r k : ends P Q r → (∀ d, Q d → ends P R (k d)) → ends P R (and_then r k).
Proof. destruct r as [d [e|]]; unfold ends; simpl; [done|]. intros HQ Hk. by apply Hk. Qed.

Definition full (fs0 : files) (f : file) (d : disk) : Prop := quiet fs0 d ∧ d_files d !! tmp = Some f.

Lemma create_ends fs0 d : quiet fs0 d →
  ends (quiet fs0) (λ d', quiet fs0 d' ∧ holds [] d') (os_CreateTemp outcome tmp d).
Proof.
  intros Hq. unfold os_CreateTemp, ends, call. destruct (outcome (d_time d)); simpl.
  - by apply (quiet_step fs0 d _ []), (λ name, quiet_now fs0 d name Hq).
  - split; [|eexists; split; [apply lookup_insert_eq|done]]. apply (quiet_step fs0 d _ []); [done|].
    intros name Hn. rewrite lookup_insert_ne by done. by apply quiet_now.
Qed.
Lemma flush_ends fs0 c d : quiet fs0 d → holds c d →
  ends (quiet fs0) (full fs0 (mkFile c false)) (buf_flush outcome partial tmp d).
Proof.
  intros Hq (f & Hf & Hc). pose proof (quiet_flush fs0 d Hq) as Hq'. revert Hq'. unfold buf_flush, ends.
  destruct (outcome (d_time d)); simpl; [done|]. intros Hq'. split; [done|]. simpl.
  by rewrite (append_file_same _ _ _ Hf), Hc.
Qed.
Lemma call_ends fs0 change d Q : quiet fs0 d →
  (∀ name, name ≠ tmp → change (d_files d) !! name = d_files d !! name) →
  (quiet fs0 (step (change (d_files d)) (d_buf d) d) → Q (step (change (d_files d)) (d_buf d) d)) →
  ends (quiet fs0) Q (call outcome change d).
Proof.
  intros Hq Hc HQ. pose proof (quiet_call fs0 d change Hq Hc) as Hq'. revert Hq'. unfold call, ends.
  destruct (outcome (d_time d)); simpl; [done|]. apply HQ.
Qed.
Lemma sync_ends fs0 c b d : full fs0 (mkFile c b) d →
  ends (quiet fs0) (full fs0 (mkFile c true)) (os_Sync outcome tmp d).
Proof.
  intros [Hq Hf]. apply call_ends; [done| |].
  - intros name Hn. rewrite Hf. by rewrite lookup_insert_ne.
  - intros Hq'. split; [done|]. simpl. rewrite Hf. apply lookup_insert_eq.
Qed.
Lemma close_ends fs0 f d : full fs0 f d → ends (quiet fs0) (full fs0 f) (os_Close outcome d).
Proof. intros [Hq Hf]. by apply call_ends. Qed.

(** The rename went through: one last state after [d1]. *)
Definition renamed (fs0 : files) (f : file) (d : disk) : Prop :=
  ∃ d1, quiet fs0 d1 ∧ d = step (<[path := f]> (delete tmp (d_files d1))) (d_buf d1) d1.
Lemma rename_ends fs0 f d : full fs0 f d → ends (quiet fs0) (renamed fs0 f) (os_Rename outcome tmp path d).
Proof.
  intros [Hq Hf]. unfold os_Rename, call, ends. destruct (outcome (d_time d)); simpl.
  - by apply quiet_step, (λ name, quiet_now fs0 d name Hq).
  - exists d. by rewrite Hf.
Qed.

(** Everything up to the rename. *)
Lemma rename_stage fs0 s stamp d : quiet fs0 d →
  ends (quiet fs0) (renamed fs0 (mkFile (file_bytes s stamp) true))
    (write_and_rename outcome partial tmp path s stamp d).
Proof.
  intros Hq. unfold write_and_rename. eapply ends_then; [by apply create_ends|]. clear d Hq. intros d [Hq Hh].
  match goal with |- context [and_then (write_contents ?o ?p ?t ?s ?st ?d) ?k] => set (r := and_then (write_contents o p t s st d) k) end.
  assert (ends (quiet fs0) (renamed fs0 (mkFile (file_bytes s stamp) true)) r) as Hr.
  { unfold r. apply (ends_then _ (λ d', quiet fs0 d' ∧ holds (file_bytes s stamp) d')).
    - pose proof (contents_spec fs0 s stamp d [] Hq Hh) as Hc. unfold ends.
      destruct (write_contents outcome partial tmp s stamp d) as [d' []]; simpl; [apply Hc|].
      destruct Hc as [? Hc]. split; [done|by apply Hc].
    - intros d1 [Hq1 Hh1]. eapply ends_then; [by apply flush_ends|]. intros d2 H2.
      eapply ends_then; [by eapply sync_ends|]. intros d3 H3.
      eapply ends_then; [by apply close_ends|]. intros d4 H4. by apply rename_ends. }
  destruct r as [d' [e|]]; [|done]. simpl in *. by apply quiet_remove, quiet_call.
Qed.

(** When no call fails, neither does the writing. *)
Lemma call_fine change d : (∀ n, outcome n = None) → (call outcome change d).2 = None.
Proof. intros Ho. unfold call. by rewrite Ho. Qed.
Lemma write_fine p d : (∀ n, outcome n = None) → (buf_write outcome partial tmp p d).2 = false.
Proof. intros Ho. unfold buf_write. rewrite Ho. by destruct (_ <? _). Qed.
Lemma then_fine (r : disk * option ioerr) k : r.2 = None → (∀ d, (k d).2 = None) → (and_then r k).2 = None.
Proof. destruct r as [d []]; [done|]. intros _ Hk. apply Hk. Qed.
Lemma contents_fine s stamp d : (∀ n, outcome n = None) → (write_contents outcome partial tmp s stamp d).2 = None.
Proof.
  intros Ho. unfold write_contents. apply then_fine; [unfold of_write; simpl; by rewrite write_fine|]. intros d1.
  set (W := @multi_writer disk (file_writer outcome partial tmp)).
  assert (bw_err (@writeSnapshotBody _ W s stamp (mkBinWriter (d1, 0) false)) = false) as ->.
  { apply (@keeps_body _ W (λ bw, bw_err bw = false)); [|done]. intros [[d2 h] err] p. simpl. intros ->.
    unfold bw_write, W, Write, multi_writer, Write, file_writer. simpl.
    pose proof (write_fine p d2 Ho) as Hw. destruct (buf_write outcome partial tmp p d2) as [d3 e]. simpl in Hw. by subst. }
  unfold of_write. simpl. by rewrite write_fine.
Qed.
Lemma rename_fine s stamp d : (∀ n, outcome n = None) → (write_and_rename outcome partial tmp path s stamp d).2 = None.
Proof.
  intros Ho. unfold write_and_rename. apply then_fine.
  { unfold os_CreateTemp, call. by rewrite Ho. } intros d1.
  match goal with |- context [and_then (write_contents ?o ?p ?t ?s ?st ?d) ?k] => set (r := and_then (write_contents o p t s st d) k) end.
  assert (r.2 = None) as Hr; [|by destruct r as [? []]].
  apply then_fine; [by apply contents_fine|]. intros d2. apply then_fine; [unfold buf_flush; by rewrite Ho|]. intros d3.
  apply then_fine; [by apply call_fine|]. intros d4. apply then_fine; [by apply call_fine|]. intros d5. by apply call_fine.
Qed.

End proofs.

(** Syncing a directory changes no file. *)
Lemma syncDir_same outcome windows d : let '(d', _) := syncDir outcome windows d in
  d_files d' = d_files d ∧ ∀ fs, fs ∈ d_seen d' → fs ∈ d_seen d ∨ fs = d_files d.
Proof.
  unfold syncDir, os_Close, call, step. repeat case_match; simplify_eq; simpl in *; split; try done;
    intros fs; rewrite ?elem_of_app, ?list_elem_of_singleton; tauto.
Qed.
Lemma syncDir_fine outcome windows d : (∀ n, outcome n = None) → (syncDir outcome windows d).2 = None.
Proof. intros Ho. unfold syncDir, os_Close, call. destruct windows; [done|]. by rewrite !Ho. Qed.
