(* ===== verification/Segment.v ===== *)
(** * Delta segments

    [internal/engine/snapshot/segment.go]: a [Segment] holds the final state
    of the nodes and edges that a batch of changes touched, where a tombstone
    is a state like any other; [SegmentBuilder] stages one and [Build] makes
    it; [MergeSegments] folds several into one, the newest state of each id
    winning.

    A [delta] is what a segment means: a map from database id to the new
    state, [None] for a deleted node or edge.  The results: building and
    merging give segments that represent the expected delta, indexes
    included. *)

From S2P Require Import Prelude Bitset Csr Kinds Props Snapshot Builder.
From stdpp Require Import options.
Unset Default Proof Using.

(** ** Definitions *)

(** The part of the segment a [NodeSegState]'s [seg] pointer is used for: the
    names and the arena its entries refer to.  A segment does not change once
    built, so the pointer is a copy. *)
Record segStore := mkSegStore { sg_names : list string; sg_ids : gmap string N; sg_arena : bytes }.

Record NodeSegState := mkNodeSegState {
  ns_Tombstoned : bool;
  ns_KindIDs : list KindID;
  ns_ObjectID : string;
  ns_HasObjectID : bool;
  ns_seg : option segStore;  (* nil is [None] *)
  ns_entries : list propEntry;
}.
Record EdgeSegState := mkEdgeSegState {
  es_Tombstoned : bool; es_StartID : N; es_EndID : N; es_Kind : KindID }.

(** The values a Go map yields for a key it does not have. *)
Definition NodeSegState_zero : NodeSegState :=
  mkNodeSegState false [] EmptyString false None [].
Definition EdgeSegState_zero : EdgeSegState := mkEdgeSegState false 0 0 0%Z.

Record Segment := mkSegment {
  sg_nodeIDs : list N;
  sg_nodeStates : gmap N NodeSegState;
  sg_edgeIDs : list N;
  sg_edgeStates : gmap N EdgeSegState;
  sg_store : segStore;
  sg_addedKinds : gmap KindID string;
  sg_objectIndex : gmap string (list N);
  sg_selfLoopKinds : gset KindID;
  sg_edgeKinds : gset KindID;
}.

Definition NodeState (s : Segment) (id : N) : option NodeSegState := sg_nodeStates s !! id.
Definition EdgeState (s : Segment) (id : N) : option EdgeSegState := sg_edgeStates s !! id.
Definition AddedKinds (s : Segment) : gmap KindID string := sg_addedKinds s.
Definition Segment_NodeCount (s : Segment) : N := len (sg_nodeIDs s).
Definition Segment_EdgeCount (s : Segment) : N := len (sg_edgeIDs s).
Definition Segment_NodesByObjectID (s : Segment) (objectid : string) : list N :=
  default [] (sg_objectIndex s !! objectid).

(** What the iterators visit, in order. *)
Definition seg_nodes (s : Segment) : list (N * NodeSegState) :=
  (λ id, (id, default NodeSegState_zero (sg_nodeStates s !! id))) <$> sg_nodeIDs s.
Definition seg_edges (s : Segment) : list (N * EdgeSegState) :=
  (λ id, (id, default EdgeSegState_zero (sg_edgeStates s !! id))) <$> sg_edgeIDs s.
Definition IterNodes {S} (s : Segment) (fn : N → NodeSegState → S → option (S * bool)) (st : S)
  : option S := iter_until (λ x, fn x.1 x.2) (seg_nodes s) st.
Definition IterEdges {S} (s : Segment) (fn : N → EdgeSegState → S → option (S * bool)) (st : S)
  : option S := iter_until (λ x, fn x.1 x.2) (seg_edges s) st.

Section state_props.
Context `{GoStd}.

Definition NodeSegState_PropValueByName (st : NodeSegState) (name : string) : option (option any) :=
  match ns_seg st with
  | None => Some None
  | Some seg =>
      match sg_ids seg !! name with
      | None => Some None
      | Some id =>
          r ← search_prop (ns_entries st) id;
          match r with
          | None => Some None
          | Some e => v ← Segment_decode (sg_arena seg) e; Some (Some v)
          end
      end
  end.

Definition NodeSegState_PropMap (st : NodeSegState) : option (gmap string any) :=
  match ns_seg st with
  | None => Some ∅
  | Some seg =>
      foldM (λ m e, name ← idx (sg_names seg) (e_prop e); v ← Segment_decode (sg_arena seg) e;
                    Some (<[name := v]> m)) (ns_entries st) ∅
  end.
End state_props.

(** *** Building *)

Record segNodeBuild := mkSegNodeBuild {
  nb_tombstoned : bool; nb_kindIDs : list KindID; nb_objectID : string; nb_hasObjectID : bool;
  nb_entries : list propEntry }.
Record segEdgeBuild := mkSegEdgeBuild {
  eb_tombstoned : bool; eb_startID : N; eb_endID : N; eb_kind : KindID }.

Record SegmentBuilder := mkSegmentBuilder {
  sb_nodes : gmap N segNodeBuild;
  sb_edges : gmap N segEdgeBuild;
  sb_props : interner;
  sb_kindTable : gmap KindID string;
}.
Definition SegmentBuilder_zero : SegmentBuilder := mkSegmentBuilder ∅ ∅ interner_empty ∅.

(** The [objectid] of a parsed bag: the last text found under that name. *)
Definition parsed_objectID (parsed : list parsedProp) : option string :=
  foldl (λ acc pp, if String.eqb (pp_name pp) "objectid" && (pp_kind pp =? propKindString)
                   then Some (string_of_bytes (pp_bytes pp)) else acc) None parsed.

Section builder.
Context `{GoStd}.

(** The [objectID] and [hasObjectID] results are one option. *)
Definition commitProps (parsed : list parsedProp)
  : go interner (list propEntry * option string) :=
  (let! es := stage_parsed parsed in go_ret (es, parsed_objectID parsed))%go.

(** After [ParseProps]. *)
Definition AddNodeState (id : N) (kindIDs : list KindID) (parsed : list parsedProp)
  : go SegmentBuilder () := λ b,
  '(p, r) ← commitProps parsed (sb_props b);
  match r with
  | inr err => Some (mkSegmentBuilder (sb_nodes b) (sb_edges b) p (sb_kindTable b), inr err)
  | inl (entries, oid) =>
      let nb := mkSegNodeBuild false kindIDs (default EmptyString oid)
                  (bool_decide (is_Some oid)) entries in
      Some (mkSegmentBuilder (<[id := nb]> (sb_nodes b)) (sb_edges b) p (sb_kindTable b), inl ())
  end.
End builder.

Definition TombstoneNode (b : SegmentBuilder) (id : N) : SegmentBuilder :=
  mkSegmentBuilder (<[id := mkSegNodeBuild true [] EmptyString false []]> (sb_nodes b))
    (sb_edges b) (sb_props b) (sb_kindTable b).
Definition AddEdgeState (b : SegmentBuilder) (edgeID startID endID : N) (kindID : KindID)
  : SegmentBuilder :=
  mkSegmentBuilder (sb_nodes b) (<[edgeID := mkSegEdgeBuild false startID endID kindID]> (sb_edges b))
    (sb_props b) (sb_kindTable b).
Definition TombstoneEdge (b : SegmentBuilder) (edgeID : N) : SegmentBuilder :=
  mkSegmentBuilder (sb_nodes b) (<[edgeID := mkSegEdgeBuild true 0 0 0%Z]> (sb_edges b))
    (sb_props b) (sb_kindTable b).
Definition AddKind (b : SegmentBuilder) (id : KindID) (name : string) : SegmentBuilder :=
  mkSegmentBuilder (sb_nodes b) (sb_edges b) (sb_props b) (<[id := name]> (sb_kindTable b)).

(** Ranging over a map visits [map_to_list] in its order. *)
Definition segmentSelfLoopKinds (edgeStates : gmap N EdgeSegState) : gset KindID :=
  foldl (λ out '(_, st), if es_Tombstoned st || negb (es_StartID st =? es_EndID st) then out
                         else {[es_Kind st]} ∪ out) ∅ (map_to_list edgeStates).
Definition segmentEdgeKinds (edgeStates : gmap N EdgeSegState) : gset KindID :=
  foldl (λ out '(_, st), if es_Tombstoned st then out else {[es_Kind st]} ∪ out) ∅
    (map_to_list edgeStates).

Definition buildSegmentObjectIndex (nodeIDs : list N) (nodeStates : gmap N NodeSegState)
  : gmap string (list N) :=
  foldl (λ index id,
    let st := default NodeSegState_zero (nodeStates !! id) in
    if ns_Tombstoned st || negb (ns_HasObjectID st) then index
    else <[ns_ObjectID st := default [] (index !! ns_ObjectID st) ++ [id]]> index) ∅ nodeIDs.

Definition sortedUint64Keys `{GoStd} {V} (m : gmap N V) : list N :=
  go_sort (less_key (λ id : N, id)) (map_to_list m).*1.

Definition SegmentBuilder_Build `{GoStd} (b : SegmentBuilder) : Segment :=
  let store := mkSegStore (in_names (sb_props b)) (in_ids (sb_props b)) (in_arena (sb_props b)) in
  let nodeIDs := go_sort (less_key (λ id : N, id)) (map_to_list (sb_nodes b)).*1 in
  let nodeStates := (λ nb, mkNodeSegState (nb_tombstoned nb) (nb_kindIDs nb) (nb_objectID nb)
                             (nb_hasObjectID nb) (Some store) (nb_entries nb)) <$> sb_nodes b in
  let edgeIDs := go_sort (less_key (λ id : N, id)) (map_to_list (sb_edges b)).*1 in
  let edgeStates := (λ eb, mkEdgeSegState (eb_tombstoned eb) (eb_startID eb) (eb_endID eb)
                             (eb_kind eb)) <$> sb_edges b in
  mkSegment nodeIDs nodeStates edgeIDs edgeStates store (sb_kindTable b)
    (buildSegmentObjectIndex nodeIDs nodeStates) (segmentSelfLoopKinds edgeStates)
    (segmentEdgeKinds edgeStates).

(** *** Merging *)

Definition copy_states {V} (zero : V) (ids : list N) (src dst : gmap N V) : gmap N V :=
  foldl (λ m id, <[id := default zero (src !! id)]> m) dst ids.

(** One segment of the loop; a nil segment is skipped. *)
Definition merge_step (acc : gmap N NodeSegState * gmap N EdgeSegState * gmap KindID string)
    (seg : option Segment) : gmap N NodeSegState * gmap N EdgeSegState * gmap KindID string :=
  match seg with
  | None => acc
  | Some s =>
      let '(nodeStates, edgeStates, addedKinds) := acc in
      (copy_states NodeSegState_zero (sg_nodeIDs s) (sg_nodeStates s) nodeStates,
       copy_states EdgeSegState_zero (sg_edgeIDs s) (sg_edgeStates s) edgeStates,
       foldl (λ m '(k, v), <[k := v]> m) addedKinds (map_to_list (sg_addedKinds s)))
  end.

Definition MergeSegments `{GoStd} (segs : list (option Segment)) : Segment :=
  let '(nodeStates, edgeStates, addedKinds) := foldl merge_step (∅, ∅, ∅) segs in
  let nodeIDs := sortedUint64Keys nodeStates in
  let edgeIDs := sortedUint64Keys edgeStates in
  mkSegment nodeIDs nodeStates edgeIDs edgeStates (mkSegStore [] ∅ []) addedKinds
    (buildSegmentObjectIndex nodeIDs nodeStates) (segmentSelfLoopKinds edgeStates)
    (segmentEdgeKinds edgeStates).

(** ** What a segment means *)

Abbreviation node_state := (list Z * gmap string pval)%type (only parsing).
Abbreviation edge_state := (N * N * Z)%type (only parsing).

Record delta := mkDelta {
  d_nodes : gmap N (option node_state);
  d_edges : gmap N (option edge_state);
  d_kinds : gmap Z string;
}.

(** A node state's [objectid] text, and whether an id's new state has text [v]. *)
Definition d_objectid (D : delta) (id : N) : option string :=
  match d_nodes D !! id with Some (Some st) => bag_objectid (snd st) | _ => None end.

Record store_ok (s : segStore) : Prop := {
  so_nodup : NoDup (sg_names s);
  so_ids : ∀ name i, sg_ids s !! name = Some i ↔ idx (sg_names s) i = Some name;
  so_arena : len (sg_arena s) < 2 ^ 32;
}.

Definition node_state_rep (st : NodeSegState) (o : option node_state) : Prop :=
  match o with
  | None => ns_Tombstoned st = true
  | Some (ks, bag) => ns_Tombstoned st = false ∧ ns_KindIDs st = ks ∧
      (if ns_HasObjectID st then Some (ns_ObjectID st) else None) = bag_objectid bag ∧
      ∃ store bs, ns_seg st = Some store ∧ store_ok store ∧
        row_ok (sg_names store) (sg_arena store) (ns_entries st) bs ∧ bag_of bs = bag
  end.
Definition edge_abs (st : EdgeSegState) : option edge_state :=
  if es_Tombstoned st then None else Some (es_StartID st, es_EndID st, es_Kind st).

Record Segment_rep (s : Segment) (D : delta) : Prop := {
  sr_nsorted : StronglySorted N.lt (sg_nodeIDs s);
  sr_nids : ∀ id, id ∈ sg_nodeIDs s ↔ is_Some (sg_nodeStates s !! id);
  sr_nodes : ∀ id, option_Forall2 node_state_rep (sg_nodeStates s !! id) (d_nodes D !! id);
  sr_esorted : StronglySorted N.lt (sg_edgeIDs s);
  sr_eids : ∀ id, id ∈ sg_edgeIDs s ↔ is_Some (sg_edgeStates s !! id);
  sr_edges : d_edges D = edge_abs <$> sg_edgeStates s;
  sr_kinds : sg_addedKinds s = d_kinds D;
  sr_object : ∀ v, Segment_NodesByObjectID s v =
    filter (λ id, d_objectid D id = Some v) (sg_nodeIDs s);
  sr_loops : ∀ k, k ∈ sg_selfLoopKinds s ↔ ∃ id a, d_edges D !! id = Some (Some (a, a, k));
  sr_ekinds : ∀ k, k ∈ sg_edgeKinds s ↔ ∃ id a b, d_edges D !! id = Some (Some (a, b, k));
}.

(** ** Reading a live state *)

Section state_reads.
Context `{GoStd}.
Context (st : NodeSegState) (ks : list Z) (bag : gmap string pval).
Hypothesis Hst : node_state_rep st (Some (ks, bag)).

Lemma state_value name : NodeSegState_PropValueByName st name =
  match bag !! name with None => Some None | Some v => Some <$> decode_pval v end.
Proof.
  destruct Hst as (_ & _ & _ & store & bs & Hseg & [Hnd Hids Ha] & Hrow & <-).
  pose proof (row_value _ _ _ _ _ name Hids Hnd Hrow) as Hv.
  unfold NodeSegState_PropValueByName. rewrite Hseg.
  destruct (sg_ids store !! name) as [id|]; [|by rewrite Hv].
  destruct Hv as (r & Hs & Hv). rewrite Hs. simpl. destruct r as [e|]; [|by rewrite Hv].
  destruct Hv as (v & Hev & ->). destruct (decode_spec _ _ _ Ha Hev) as [_ ->].
  by destruct (decode_pval v).
Qed.

Lemma state_map : bag_decodable bag →
  NodeSegState_PropMap st = Some (omap decode_pval bag).
Proof.
  intros Hdec. destruct Hst as (_ & _ & _ & store & bs & Hseg & [Hnd Hids Ha] & Hrow & <-).
  unfold NodeSegState_PropMap. rewrite Hseg. pose proof (row_nodup _ _ _ _ Hnd Hrow) as Hbn.
  destruct Hrow as [Hm _]. apply mapM_Some in Hm.
  rewrite (decode_fold _ (sg_arena store) _ _ _ _ (λ e v Hv, proj2 (decode_spec _ _ _ Ha Hv)) Hm Hbn Hdec);
    [|intros; apply lookup_empty].
  by rewrite (right_id_L ∅ (∪)).
Qed.
End state_reads.

(** ** The indexes *)

Lemma kinds_fold_spec (P : EdgeSegState → bool) (m : gmap N EdgeSegState) k :
  k ∈ foldl (λ (out : gset Z) '(_, st), if P st then out else {[es_Kind st]} ∪ out) ∅ (map_to_list m) ↔
  ∃ id st, m !! id = Some st ∧ P st = false ∧ es_Kind st = k.
Proof.
  enough (∀ l acc, k ∈ foldl (λ (out : gset Z) '(_, st), if P st then out else {[es_Kind st]} ∪ out) acc l ↔
    k ∈ acc ∨ ∃ x, x ∈ l ∧ P x.2 = false ∧ es_Kind x.2 = k) as ->.
  { split.
    - intros [?%not_elem_of_empty|([id st] & Hin & ?)]; [done|].
      apply elem_of_map_to_list in Hin. eauto.
    - intros (id & st & Hin%elem_of_map_to_list & ?). right. by exists (id, st). }
  induction l as [|[id st] l IH]; intros acc; cbn [foldl].
  { split; [by left|]. intros [?|(x & ?%not_elem_of_nil & _)]; done. }
  rewrite IH. setoid_rewrite elem_of_cons.
  assert ((∃ x, (x = (id, st) ∨ x ∈ l) ∧ P x.2 = false ∧ es_Kind x.2 = k) ↔
    (P st = false ∧ es_Kind st = k) ∨ ∃ x, x ∈ l ∧ P x.2 = false ∧ es_Kind x.2 = k) as ->.
  { split; [intros (x & [->|?] & ?); [by left|right; eauto]|].
    intros [?|(x & ? & ?)]; [by exists (id, st); auto|by exists x; auto]. }
  destruct (P st); set_solver.
Qed.

Lemma segmentSelfLoopKinds_spec m k : k ∈ segmentSelfLoopKinds m ↔
  ∃ id a, (edge_abs <$> m : gmap N _) !! id = Some (Some (a, a, k)).
Proof.
  unfold segmentSelfLoopKinds.
  rewrite (kinds_fold_spec (λ st, es_Tombstoned st || negb (es_StartID st =? es_EndID st))).
  setoid_rewrite lookup_fmap. unfold edge_abs. split.
  - intros (id & st & Hst & Ht & <-). apply orb_false_iff in Ht as [Ht He].
    apply negb_false_iff, N.eqb_eq in He. exists id, (es_StartID st). rewrite Hst. simpl.
    rewrite Ht. congruence.
  - intros (id & a & H). destruct (m !! id) as [st|] eqn:E; [|done]. simpl in H.
    destruct (es_Tombstoned st) eqn:Ht; [done|]. injection H as H1 H2 H3.
    exists id, st. by rewrite Ht, H1, H2, N.eqb_refl.
Qed.

Lemma segmentEdgeKinds_spec m k : k ∈ segmentEdgeKinds m ↔
  ∃ id a b, (edge_abs <$> m : gmap N _) !! id = Some (Some (a, b, k)).
Proof.
  unfold segmentEdgeKinds. rewrite (kinds_fold_spec es_Tombstoned).
  setoid_rewrite lookup_fmap. unfold edge_abs. split.
  - intros (id & st & Hst & Ht & <-). exists id, (es_StartID st), (es_EndID st).
    rewrite Hst. simpl. by rewrite Ht.
  - intros (id & a & b & H). destruct (m !! id) as [st|] eqn:E; [|done]. simpl in H.
    destruct (es_Tombstoned st) eqn:Ht; [done|]. simplify_eq. eauto.
Qed.

Definition state_objectid (nodeStates : gmap N NodeSegState) (id : N) : option string :=
  st ← nodeStates !! id;
  if ns_Tombstoned st || negb (ns_HasObjectID st) then None else Some (ns_ObjectID st).

Lemma buildSegmentObjectIndex_spec ids nodeStates v :
  default [] (buildSegmentObjectIndex ids nodeStates !! v) =
    filter (λ id, state_objectid nodeStates id = Some v) ids.
Proof.
  unfold buildSegmentObjectIndex.
  induction ids as [|id ids IH] using rev_ind; [by simpl; rewrite lookup_empty|].
  rewrite foldl_app, filter_app, <- IH. clear IH. simpl.
  set (index := foldl _ _ _). rewrite filter_cons, filter_nil. unfold state_objectid.
  destruct (nodeStates !! id) as [st|]; simpl; [|by rewrite app_nil_r].
  destruct (ns_Tombstoned st || negb (ns_HasObjectID st)); simpl; [by rewrite app_nil_r|].
  rewrite lookup_insert. case_decide as E; subst; simpl.
  - by rewrite decide_True.
  - rewrite decide_False by congruence. by rewrite app_nil_r.
Qed.

Lemma sorted_keys_spec `{GoStd} {V} (m : gmap N V) :
  StronglySorted N.lt (go_sort (less_key (λ id : N, id)) (map_to_list m).*1) ∧
  ∀ id, id ∈ go_sort (less_key (λ id : N, id)) (map_to_list m).*1 ↔ is_Some (m !! id).
Proof.
  split.
  - apply (sorted_key_strict (λ id : N, id)).
    + rewrite list_fmap_id, go_sort_perm. apply NoDup_fst_map_to_list.
    + apply go_sort_sorted, is_less_key.
  - intros id. rewrite go_sort_elem, list_elem_of_fmap. split.
    + intros ([id' v] & -> & Hin%elem_of_map_to_list). eauto.
    + intros [v Hv]. exists (id, v). split; [done|]. by apply elem_of_map_to_list.
Qed.

(** Both constructors finish a segment the same way. *)
Lemma finish_rep `{GoStd} nodeStates edgeStates store kinds (D : delta) :
  (∀ id, option_Forall2 node_state_rep (nodeStates !! id) (d_nodes D !! id)) →
  d_edges D = edge_abs <$> edgeStates → d_kinds D = kinds →
  let nodeIDs := go_sort (less_key (λ id : N, id)) (map_to_list nodeStates).*1 in
  let edgeIDs := go_sort (less_key (λ id : N, id)) (map_to_list edgeStates).*1 in
  Segment_rep (mkSegment nodeIDs nodeStates edgeIDs edgeStates store kinds
    (buildSegmentObjectIndex nodeIDs nodeStates) (segmentSelfLoopKinds edgeStates)
    (segmentEdgeKinds edgeStates)) D.
Proof.
  intros Hn He Hk nodeIDs edgeIDs.
  destruct (sorted_keys_spec nodeStates) as [??]. destruct (sorted_keys_spec edgeStates) as [??].
  split; simpl; try done.
  - intros v. unfold Segment_NodesByObjectID. simpl. rewrite buildSegmentObjectIndex_spec.
    apply filter_ext_in. intros id _. unfold state_objectid, d_objectid.
    destruct (option_Forall2_cases _ _ _ (Hn id)) as [[-> ->]|(st & o & -> & -> & Hst)]; [done|].
    destruct o as [[ks bag]|]; simpl in *.
    + destruct Hst as (-> & _ & <- & _). simpl. by destruct (ns_HasObjectID st).
    + by rewrite Hst.
  - intros k. rewrite He. apply segmentSelfLoopKinds_spec.
  - intros k. rewrite He. apply segmentEdgeKinds_spec.
Qed.

(** ** Building a segment *)

Section build.
Context `{GoStd}.

Definition node_build_rep (p : interner) (nb : segNodeBuild) (o : option node_state) : Prop :=
  match o with
  | None => nb_tombstoned nb = true
  | Some (ks, bag) => nb_tombstoned nb = false ∧ nb_kindIDs nb = ks ∧
      (if nb_hasObjectID nb then Some (nb_objectID nb) else None) = bag_objectid bag ∧
      ∃ bs, row_ok (in_names p) (in_arena p) (nb_entries nb) bs ∧ bag_of bs = bag
  end.
Definition edge_build_abs (eb : segEdgeBuild) : option edge_state :=
  if eb_tombstoned eb then None else Some (eb_startID eb, eb_endID eb, eb_kind eb).

(** The builder has staged the delta [D]. *)
Record SegmentBuilder_rep (b : SegmentBuilder) (D : delta) : Prop := {
  sbr_props : interner_ok (sb_props b);
  sbr_nodes : ∀ id, option_Forall2 (node_build_rep (sb_props b)) (sb_nodes b !! id) (d_nodes D !! id);
  sbr_edges : d_edges D = edge_build_abs <$> sb_edges b;
  sbr_kinds : d_kinds D = sb_kindTable b;
}.

Lemma SegmentBuilder_zero_rep : SegmentBuilder_rep SegmentBuilder_zero (mkDelta ∅ ∅ ∅).
Proof.
  split; simpl; [apply interner_empty_ok| |by rewrite fmap_empty|done].
  intros id. rewrite !lookup_empty. constructor.
Qed.

Lemma SegmentBuilder_Build_rep b D : SegmentBuilder_rep b D →
  Segment_rep (SegmentBuilder_Build b) D.
Proof.
  intros [[] Hn He Hk]. unfold SegmentBuilder_Build.
  set (store := mkSegStore _ _ _). set (mkn := λ nb, mkNodeSegState _ _ _ _ _ _).
  set (mke := λ eb, mkEdgeSegState _ _ _ _).
  assert ((map_to_list (sb_nodes b)).*1 = (map_to_list (mkn <$> sb_nodes b)).*1) as ->.
  { rewrite map_to_list_fmap, <- list_fmap_compose. by apply list_fmap_ext; intros ? []. }
  assert ((map_to_list (sb_edges b)).*1 = (map_to_list (mke <$> sb_edges b)).*1) as ->.
  { rewrite map_to_list_fmap, <- list_fmap_compose. by apply list_fmap_ext; intros ? []. }
  apply finish_rep; [| |done].
  - intros id. rewrite lookup_fmap.
    destruct (option_Forall2_cases _ _ _ (Hn id)) as [[-> ->]|(nb & o & -> & -> & Hnb)]; constructor.
    destruct o as [[ks bag]|]; simpl in *; [|done].
    destruct Hnb as (? & ? & ? & bs & ? & ?). split_and!; [done..|]. exists store, bs.
    split_and!; [done| |done..]. by split.
  - rewrite He, <- map_fmap_compose. done.
Qed.

Lemma node_build_rep_extends p p' nb o : extends p p' →
  node_build_rep p nb o → node_build_rep p' nb o.
Proof.
  intros Hex. destruct o as [[ks bag]|]; simpl; [|done].
  intros (? & ? & ? & bs & ? & ?). split_and!; [done..|]. exists bs. split; [|done].
  by eapply row_ok_extends.
Qed.

(** The text kept on the side is the bag's [objectid]. *)
Lemma parsed_objectID_spec parsed : NoDup (pp_name <$> parsed) →
  parsed_objectID parsed = bag_objectid (parsed_bag parsed).
Proof.
  unfold parsed_objectID. induction parsed as [|pp parsed IH] using rev_ind; intros Hnd.
  { unfold parsed_bag, bag_objectid, bag_of. simpl. by rewrite lookup_empty. }
  rewrite fmap_app in Hnd. apply NoDup_app in Hnd as (Hnd & Hd & _).
  rewrite foldl_app. simpl. rewrite IH by done. clear IH.
  unfold bag_objectid, parsed_bag, bag_of. rewrite fmap_app, list_to_map_app, lookup_union. simpl.
  rewrite insert_empty.
  destruct (String.eqb_spec (pp_name pp) "objectid") as [E|E]; simpl.
  - rewrite E, lookup_singleton_eq, not_elem_of_list_to_map_1.
    + simpl. unfold arena_kind. by destruct (N.eqb_spec (pp_kind pp) propKindString) as [->|].
    + rewrite <- list_fmap_compose. intros (pp' & E' & Hin)%list_elem_of_fmap. simpl in E'.
      apply (Hd (pp_name pp)); [|left]. rewrite E, E'. by apply list_elem_of_fmap_2.
  - rewrite lookup_singleton_ne by done. by rewrite (right_id None _).
Qed.

(** A new state for a node, or an error that leaves the staged delta alone. *)
Lemma AddNodeState_rep b D id ks parsed : SegmentBuilder_rep b D → NoDup (pp_name <$> parsed) →
  ∃ b' r, AddNodeState id ks parsed b = Some (b', r) ∧
    match r with
    | inl _ => SegmentBuilder_rep b'
        (mkDelta (<[id := Some (ks, parsed_bag parsed)]> (d_nodes D)) (d_edges D) (d_kinds D))
    | inr err => SegmentBuilder_rep b' D ∧ (err = ErrTooManyProps ∨ err = ErrArenaFull)
    end.
Proof.
  intros [Hp Hn He Hk] Hnd. unfold AddNodeState, commitProps, go_bind.
  destruct (stage_parsed_spec parsed _ Hp Hnd) as (p & r & -> & Hok & Hex & Hr). simpl.
  assert (∀ id, option_Forall2 (node_build_rep p) (sb_nodes b !! id) (d_nodes D !! id)) as Hn'.
  { intros id'. destruct (Hn id'); constructor. by eapply node_build_rep_extends. }
  destruct r as [es|err]; eexists _, _; (split; [done|]); [|split; [|done]; by split].
  destruct Hr as (bs & Hrow & Hbag). split; simpl; [done| |done..].
  intros id'. rewrite !lookup_insert. case_decide; [|apply Hn']. constructor. simpl.
  split_and!; [done..| |by eauto]. rewrite <- parsed_objectID_spec by done.
  by destruct (parsed_objectID parsed).
Qed.

Lemma TombstoneNode_rep b D id : SegmentBuilder_rep b D →
  SegmentBuilder_rep (TombstoneNode b id) (mkDelta (<[id := None]> (d_nodes D)) (d_edges D) (d_kinds D)).
Proof.
  intros []. split; simpl; try done. intros id'. rewrite !lookup_insert.
  case_decide; [|done]. by constructor.
Qed.

Lemma AddEdgeState_rep b D id s e k : SegmentBuilder_rep b D →
  SegmentBuilder_rep (AddEdgeState b id s e k)
    (mkDelta (d_nodes D) (<[id := Some (s, e, k)]> (d_edges D)) (d_kinds D)).
Proof. intros [?? He ?]. split; simpl; try done. by rewrite He, fmap_insert. Qed.

Lemma TombstoneEdge_rep b D id : SegmentBuilder_rep b D →
  SegmentBuilder_rep (TombstoneEdge b id)
    (mkDelta (d_nodes D) (<[id := None]> (d_edges D)) (d_kinds D)).
Proof. intros [?? He ?]. split; simpl; try done. by rewrite He, fmap_insert. Qed.

Lemma AddKind_rep b D k name : SegmentBuilder_rep b D →
  SegmentBuilder_rep (AddKind b k name)
    (mkDelta (d_nodes D) (d_edges D) (<[k := name]> (d_kinds D))).
Proof. intros [??? Hk]. split; simpl; try done. by rewrite Hk. Qed.
End build.

(** ** Merging *)

(** The newer delta's states win. *)
Definition delta_over (old new : delta) : delta :=
  mkDelta (d_nodes new ∪ d_nodes old) (d_edges new ∪ d_edges old) (d_kinds new ∪ d_kinds old).
Definition delta_empty : delta := mkDelta ∅ ∅ ∅.
Definition delta_all (Ds : list delta) : delta := foldl delta_over delta_empty Ds.

Lemma copy_states_union {V} (zero : V) ids (src dst : gmap N V) :
  (∀ id, id ∈ ids ↔ is_Some (src !! id)) → copy_states zero ids src dst = src ∪ dst.
Proof.
  intros Hids. unfold copy_states.
  assert (∀ l d id, (foldl (λ m id, <[id := default zero (src !! id)]> m) d l : gmap N V) !! id =
    if decide (id ∈ l) then Some (default zero (src !! id)) else d !! id) as Hgo.
  { induction l as [|x l IH]; intros d id; simpl; [done|]. rewrite IH, lookup_insert.
    destruct (decide (id ∈ l)) as [Hin|Hin]; [by rewrite decide_True by (by right)|].
    case_decide as E; [subst; by rewrite decide_True by left|].
    rewrite decide_False; [done|]. intros [->|?]%elem_of_cons; done. }
  apply map_eq. intros id. rewrite Hgo, lookup_union. specialize (Hids id).
  destruct (src !! id) as [v|].
  - rewrite decide_True by (by apply Hids). simpl. by rewrite union_Some_l.
  - rewrite decide_False by (intros [? ?]%Hids; done). by rewrite (left_id None _).
Qed.

Lemma kinds_union (l : list (Z * string)) (m : gmap Z string) :
  foldl (λ m '(k, v), <[k := v]> m) m l = list_to_map (reverse l) ∪ m.
Proof.
  revert m. induction l as [|[k v] l IH]; intros m; simpl; [by rewrite (left_id_L ∅ (∪))|].
  rewrite IH, reverse_cons, list_to_map_app, <- (assoc_L (∪)). simpl.
  f_equal. by rewrite insert_empty, insert_union_singleton_l.
Qed.

Lemma merge_step_rep (ns : gmap N NodeSegState) es ks (D D' : delta) s :
  (∀ id, option_Forall2 node_state_rep (ns !! id) (d_nodes D !! id)) →
  d_edges D = edge_abs <$> es → d_kinds D = ks → Segment_rep s D' →
  ∃ ns' es' ks', merge_step (ns, es, ks) (Some s) = (ns', es', ks') ∧
    (∀ id, option_Forall2 node_state_rep (ns' !! id) (d_nodes (delta_over D D') !! id)) ∧
    d_edges (delta_over D D') = edge_abs <$> es' ∧ d_kinds (delta_over D D') = ks'.
Proof.
  intros Hn He Hk []. simpl. eexists _, _, _. split; [done|].
  rewrite !copy_states_union by done. split_and!.
  - intros id. rewrite !lookup_union. specialize (sr_nodes0 id). specialize (Hn id).
    destruct (option_Forall2_cases _ _ _ sr_nodes0) as [[-> ->]|(st & o & -> & -> & Hst)].
    + by rewrite !(left_id None _).
    + rewrite !union_Some_l. by constructor.
  - rewrite He, sr_edges0. by rewrite map_fmap_union.
  - rewrite Hk, kinds_union, sr_kinds0. f_equal.
    transitivity (list_to_map (map_to_list (d_kinds D')) : gmap Z string);
      [by rewrite list_to_map_to_list|].
    apply list_to_map_proper; [apply NoDup_fst_map_to_list|]. by rewrite reverse_Permutation.
Qed.

Lemma MergeSegments_rep `{GoStd} segs Ds : Forall2 Segment_rep segs Ds →
  Segment_rep (MergeSegments (Some <$> segs)) (delta_all Ds).
Proof.
  intros HF. unfold MergeSegments, sortedUint64Keys.
  enough (∀ ns es ks D, (∀ id, option_Forall2 node_state_rep (ns !! id) (d_nodes D !! id)) →
    d_edges D = edge_abs <$> es → d_kinds D = ks →
    ∃ ns' es' ks', foldl merge_step (ns, es, ks) (Some <$> segs) = (ns', es', ks') ∧
      (∀ id, option_Forall2 node_state_rep (ns' !! id) (d_nodes (foldl delta_over D Ds) !! id)) ∧
      d_edges (foldl delta_over D Ds) = edge_abs <$> es' ∧ d_kinds (foldl delta_over D Ds) = ks') as Hgo.
  { destruct (Hgo ∅ ∅ ∅ delta_empty) as (ns & es & ks & -> & ? & ? & ?); [|by rewrite fmap_empty|done|].
    - intros id. simpl. rewrite !lookup_empty. constructor.
    - by apply finish_rep. }
  induction HF as [|s D' segs Ds Hs HF IH]; intros ns es ks D Hn He Hk; [by eauto 7|].
  destruct (merge_step_rep ns es ks D D' s Hn He Hk Hs) as (ns1 & es1 & ks1 & E & Hn1 & He1 & Hk1).
  rewrite fmap_cons. cbn [foldl]. rewrite E. by apply IH.
Qed.
