(* ===== verification/ParseProps.v ===== *)
(** * From a node's JSON to its property bag

    [parseNodeProps] and [ParseProps] of [internal/engine/snapshot/props.go],
    and the operations that start from JSON: [Builder.AddNode] and
    [SegmentBuilder.AddNodeState].

    [JsonStd] is what they take from [encoding/json], [bytes] and [strconv];
    [JsonLaws] is the one thing assumed of it, that the text of a value that
    was read inside an object can be read again on its own. *)

From S2P Require Import Prelude Bitset Csr Kinds Props Snapshot Builder Segment.
From Stdlib Require Import Ascii.
From stdpp Require Import options.
Unset Default Proof Using.
#[local] Open Scope N_scope.

(** ** Definitions *)

Class JsonStd := {
  (** [Decode] into a [map[string]json.RawMessage]. *)
  unmarshal_raw : bytes → option (gmap string bytes);
  unmarshal_string : bytes → option bytes;
  unmarshal_float : bytes → option float64;
  TrimSpace : bytes → bytes;
  (** [strconv.FormatFloat(f, 'f', -1, 64)]. *)
  FormatFloat : float64 → bytes;
}.
Class JsonLaws `{GoStd, JsonStd} := {
  raw_arrays : ∀ b raw name val v, unmarshal_raw b = Some raw → raw !! name = Some val →
    TrimSpace val = "["%char :: v → is_Some (unmarshal_array (TrimSpace val));
  raw_objects : ∀ b raw name val v, unmarshal_raw b = Some raw → raw !! name = Some val →
    TrimSpace val = "{"%char :: v → is_Some (unmarshal_object (TrimSpace val));
}.

Definition is_digit (c : ascii) : bool := (48 <=? N_of_ascii c) && (N_of_ascii c <=? 57).
Definition allDecimalDigits (b : bytes) : bool := forallb is_digit b.
(** [f == 0], for both zeroes. *)
Definition float_is_zero (f : float64) : bool := (f =? 0) || (f =? 2 ^ 63).
Definition starts_with (b : bytes) (c : ascii) : bool :=
  match b with x :: _ => Ascii.eqb x c | [] => false end.

Section parse.
Context `{JsonStd}.

Definition numberSpellingCanonical (text : bytes) (f : float64) : bool :=
  let digits := if starts_with text "-" then tail text else text in
  let n := len digits in
  if (0 <? n) && (n <=? 15) && (negb (starts_with digits "0") || (n =? 1)) && allDecimalDigits digits
  then (len digits =? len text) || negb (starts_with digits "0")
  else if float_is_zero f then bool_decide (text = ["0"%char])
  else bool_decide (FormatFloat f = text).

(** One round of the loop: a property, or [json.Unmarshal]'s error. *)
Definition parse_value (name : string) (val : bytes) : parsedProp + goerr :=
  let trimmed := TrimSpace val in
  match trimmed with
  | [] => inl (mkParsedProp name propKindNull 0 [])
  | c :: _ =>
      if Ascii.eqb c "n" then inl (mkParsedProp name propKindNull 0 [])
      else if Ascii.eqb c "t" then inl (mkParsedProp name propKindTrue 0 [])
      else if Ascii.eqb c "f" then inl (mkParsedProp name propKindFalse 0 [])
      else if Ascii.eqb c "034" then
        match unmarshal_string trimmed with
        | None => inr ErrDecode
        | Some s => inl (mkParsedProp name propKindString 0 s)
        end
      else if Ascii.eqb c "[" then inl (mkParsedProp name propKindArray 0 trimmed)
      else if Ascii.eqb c "{" then inl (mkParsedProp name propKindObject 0 trimmed)
      else
        match unmarshal_float trimmed with
        | None => inr ErrDecode
        | Some f => inl (mkParsedProp name (if negb (numberSpellingCanonical trimmed f)
                                            then propKindNumberNonCanonical else propKindNumber) f [])
        end
  end.

Fixpoint parse_all (raw : list (string * bytes)) : list parsedProp + goerr :=
  match raw with
  | [] => inl []
  | (name, val) :: raw' =>
      match parse_value name val with
      | inr err => inr err
      | inl pp => match parse_all raw' with inr err => inr err | inl out => inl (pp :: out) end
      end
  end.

(** Ranging over a map visits [map_to_list] in its order. *)
Definition parseNodeProps (propsJSON : bytes) : list parsedProp + goerr :=
  if len propsJSON =? 0 then inl []
  else match unmarshal_raw propsJSON with
       | None => inr ErrDecode
       | Some raw => parse_all (map_to_list raw)
       end.
Definition ParseProps (propsJSON : bytes) : list parsedProp + goerr := parseNodeProps propsJSON.

Context `{GoStd}.

Definition AddNode (databaseID : N) (kinds : list KindID) (propsJSON : bytes) : go Builder () :=
  match parseNodeProps propsJSON with
  | inr err => go_err err
  | inl parsed => addParsedNode databaseID kinds parsed
  end.
Definition AddNodeStateJSON (id : N) (kindIDs : list KindID) (propsJSON : bytes) : go SegmentBuilder () :=
  match ParseProps propsJSON with
  | inr err => go_err err
  | inl parsed => AddNodeState id kindIDs parsed
  end.
End parse.

(** ** What the text of a bag means *)

Section meaning.
Context `{JsonStd}.

(** A property's value, by its text. *)
Definition json_value (val : bytes) : option pval :=
  match parse_value EmptyString val with
  | inl pp => Some (item_binding EmptyString (pp_kind pp) (pp_num pp) (Some (pp_bytes pp))).2
  | inr _ => None
  end.

Lemma parse_value_name name val : parse_value name val =
  match parse_value EmptyString val with
  | inl pp => inl (mkParsedProp name (pp_kind pp) (pp_num pp) (pp_bytes pp))
  | inr err => inr err
  end.
Proof.
  unfold parse_value. destruct (TrimSpace val) as [|c t]; [done|].
  repeat match goal with |- context [if Ascii.eqb c ?x then _ else _] => destruct (Ascii.eqb c x); [done||by destruct (unmarshal_string _)|] end.
  by destruct (unmarshal_float _).
Qed.

Lemma parse_all_spec raw :
  match parse_all raw with
  | inl ps => pp_name <$> ps = raw.*1 ∧
      Forall2 (λ x pp, parse_value x.1 x.2 = inl pp) raw ps
  | inr err => err = ErrDecode ∧ ∃ x, x ∈ raw ∧ json_value x.2 = None
  end.
Proof.
  induction raw as [|[name val] raw IH]; [by split|]. simpl. destruct (parse_value name val) as [pp|err] eqn:E.
  - destruct (parse_all raw) as [out|err].
    + destruct IH as [IH1 IH2]. split; [|by constructor]. rewrite !fmap_cons, IH1. f_equal. rewrite parse_value_name in E.
      destruct (parse_value EmptyString val); [|done]. by injection E as <-.
    + destruct IH as (-> & x & Hx & Hv). split; [done|]. exists x. split; [by right|done].
  - assert (err = ErrDecode ∧ json_value val = None) as [-> Hv].
    { unfold json_value. rewrite parse_value_name in E. destruct (parse_value EmptyString val) as [|err'] eqn:E'; [done|].
      injection E as <-. split; [|done]. clear -E'. unfold parse_value in E'. repeat case_match; congruence. }
    split; [done|]. exists (name, val). split; [left|done].
Qed.

(** The bag of a text: the values of the object's members. *)
Lemma parse_all_bag raw ps : parse_all (map_to_list raw) = inl ps →
  NoDup (pp_name <$> ps) ∧ parsed_bag ps = omap json_value raw ∧ ∀ name val, raw !! name = Some val → is_Some (json_value val).
Proof.
  intros E. pose proof (parse_all_spec (map_to_list raw)) as Hs. rewrite E in Hs. destruct Hs as [Hn HF].
  assert (NoDup (pp_name <$> ps)) as Hnd by (rewrite Hn; apply NoDup_fst_map_to_list). split; [done|].
  assert (∀ name val, raw !! name = Some val → ∃ pp, pp ∈ ps ∧ pp_name pp = name ∧
    json_value val = Some (item_binding EmptyString (pp_kind pp) (pp_num pp) (Some (pp_bytes pp))).2) as Hval.
  { intros name val Hl%elem_of_map_to_list. apply list_elem_of_lookup in Hl as [i Hi].
    destruct (Forall2_lookup_l _ _ _ _ _ HF Hi) as (pp & Hpp%list_elem_of_lookup_2 & Ev). simpl in Ev.
    exists pp. split; [done|]. rewrite parse_value_name in Ev. unfold json_value.
    destruct (parse_value EmptyString val) as [pp'|]; [|done]. by injection Ev as <-. }
  split; [|intros name val (pp & _ & _ & ->)%Hval; by eexists].
  apply map_eq. intros name. rewrite lookup_omap. unfold parsed_bag, bag_of. destruct (raw !! name) as [val|] eqn:El; simpl.
  - destruct (Hval _ _ El) as (pp & Hpp & <- & ->). apply elem_of_list_to_map.
    + rewrite <- list_fmap_compose. exact Hnd.
    + apply list_elem_of_fmap. exists pp. done.
  - apply not_elem_of_list_to_map. rewrite <- list_fmap_compose. intros Hin. change (name ∈ pp_name <$> ps) in Hin.
    rewrite Hn, list_elem_of_fmap in Hin. destruct Hin as ([n v] & -> & Hin%elem_of_map_to_list). simpl in *. congruence.
Qed.

(** Every value that was read can be read again from the arena. *)
Lemma json_value_decodable `{GoStd} `{!JsonLaws} b raw name val v : unmarshal_raw b = Some raw → raw !! name = Some val →
  json_value val = Some v → is_Some (decode_pval v).
Proof.
  intros Hb Hl. unfold json_value, parse_value. destruct (TrimSpace val) as [|c t] eqn:Et; [intros [= <-]; by eexists|].
  destruct (Ascii.eqb c "n"); [intros [= <-]; by eexists|]. destruct (Ascii.eqb c "t"); [intros [= <-]; by eexists|].
  destruct (Ascii.eqb c "f"); [intros [= <-]; by eexists|].
  destruct (Ascii.eqb c "034"); [destruct (unmarshal_string _); [intros [= <-]; by eexists|done]|].
  destruct (Ascii.eqb_spec c "[") as [->|_].
  { intros [= <-]. destruct (raw_arrays _ _ _ _ _ Hb Hl Et) as [a Ea]. rewrite Et in Ea. unfold decode_pval. simpl. rewrite Ea. by eexists. }
  destruct (Ascii.eqb_spec c "{") as [->|_].
  { intros [= <-]. destruct (raw_objects _ _ _ _ _ Hb Hl Et) as [a Ea]. rewrite Et in Ea. unfold decode_pval. simpl. rewrite Ea. by eexists. }
  destruct (unmarshal_float _); [|done]. intros [= <-]. destruct (numberSpellingCanonical _ _); by eexists.
Qed.

(** The bag a text means; [None] when it cannot be read. *)
Definition json_bag (propsJSON : bytes) : option (gmap string pval) :=
  if len propsJSON =? 0 then Some ∅
  else match unmarshal_raw propsJSON with
       | None => None
       | Some raw => if decide (map_Forall (λ (_ : string) val, is_Some (json_value val)) raw)
                     then Some (omap json_value raw) else None
       end.

Lemma ParseProps_spec propsJSON :
  match ParseProps propsJSON with
  | inl ps => NoDup (pp_name <$> ps) ∧ json_bag propsJSON = Some (parsed_bag ps)
  | inr err => err = ErrDecode ∧ json_bag propsJSON = None
  end.
Proof.
  unfold ParseProps, parseNodeProps, json_bag. destruct (len propsJSON =? 0); [by split; [constructor|]|].
  destruct (unmarshal_raw propsJSON) as [raw|]; simpl; [|done]. destruct (parse_all _) as [ps|err] eqn:E.
  - destruct (parse_all_bag _ _ E) as (Hnd & -> & Hall). split; [done|]. by rewrite decide_True by (intros name val; apply Hall).
  - pose proof (parse_all_spec (map_to_list raw)) as Hs. rewrite E in Hs. destruct Hs as [-> ([name val] & Hin%elem_of_map_to_list & Hv)].
    split; [done|]. rewrite decide_False; [done|]. intros Hall. apply Hall in Hin. simpl in Hv. rewrite Hv in Hin. by destruct Hin.
Qed.

Lemma json_bag_decodable `{GoStd} `{!JsonLaws} propsJSON bag : json_bag propsJSON = Some bag → bag_decodable bag.
Proof.
  unfold json_bag. destruct (len propsJSON =? 0); [intros [= <-] name v Hv; by rewrite lookup_empty in Hv|].
  destruct (unmarshal_raw propsJSON) as [raw|] eqn:Eb; simpl; [|done]. case_decide; [|done]. intros [= <-] name v.
  rewrite lookup_omap. destruct (raw !! name) as [val|] eqn:El; simpl; [|done]. by apply (json_value_decodable propsJSON raw name val).
Qed.

(** ** The operations that start from JSON *)

Lemma AddNodeStateJSON_rep `{GoStd} b D id ks propsJSON : SegmentBuilder_rep b D →
  ∃ b' r, AddNodeStateJSON id ks propsJSON b = Some (b', r) ∧
    match r with
    | inl _ => ∃ bag, json_bag propsJSON = Some bag ∧
        SegmentBuilder_rep b' (mkDelta (<[id := Some (ks, bag)]> (d_nodes D)) (d_edges D) (d_kinds D))
    | inr err => SegmentBuilder_rep b' D ∧
        (err = ErrDecode ∧ json_bag propsJSON = None ∨ err = ErrTooManyProps ∨ err = ErrArenaFull)
    end.
Proof.
  intros Hb. unfold AddNodeStateJSON. pose proof (ParseProps_spec propsJSON) as Hp. destruct (ParseProps propsJSON) as [ps|err].
  - destruct Hp as [Hnd Hbag]. destruct (AddNodeState_rep b D id ks ps Hb Hnd) as (b' & r & E & Hr).
    exists b', r. split; [done|]. destruct r; [by exists (parsed_bag ps)|]. destruct Hr. split; [done|by right].
  - exists b, (inr err). split; [done|]. split; [done|by left].
Qed.
End meaning.
