(* ===== verification/View.v ===== *)
(** * Views: a base snapshot under delta segments

    [internal/engine/snapshot/view.go].  A [View] is a base and the segments
    applied on top of it; the structures it computes on first use
    ([sync.Once]) depend on those two only, so each is a function here, named
    after the method that computes it.  A nil pointer field is [None].

    Nodes the segments add get the dense ids after the base's.  This file has
    the operations and, first, the results on node numbering, liveness and
    node contents; [ViewAdj] has the ones on edges. *)

From S2P Require Import Prelude Bitset Csr Kinds Props Snapshot Builder Segment.
From stdpp Require Import options.
Unset Default Proof Using.

(** ** Definitions *)

Record View := mkView { v_base : Snapshot; v_segments : list Segment }.

Definition NewView (base : Snapshot) : View := mkView base [].
Definition WithSegment (v : View) (seg : Segment) : View :=
  mkView (v_base v) (v_segments v ++ [seg]).
Definition Overlay (v : View) : bool := 0 <? len (v_segments v).
Definition SegmentCount (v : View) : N := len (v_segments v).

(** [b != nil && b.Has(n)]. *)
Definition bits_has (b : option Bitset) (n : NodeID) : bool :=
  match b with Some b => Bitset_Has b n | None => false end.
(** [if bits == nil { bits = NewBitset(n) }; bits.Set(i)]. *)
Definition bits_set (n : N) (b : option Bitset) (i : NodeID) : option Bitset :=
  Some (Bitset_Set (match b with Some b => b | None => NewBitset n end) i).

Definition setAdmitsSelfLoop (set : gset KindID) (kinds : list KindID) : bool :=
  if (size set =? 0)%nat then false
  else match kinds with [] => true | _ => existsb (λ k, bool_decide (k ∈ set)) kinds end.
Definition SelfLoopHazard (v : View) (kinds : list KindID) : bool :=
  setAdmitsSelfLoop (selfLoopKinds (v_base v)) kinds ||
  existsb (λ seg, setAdmitsSelfLoop (sg_selfLoopKinds seg) kinds) (v_segments v).

Definition EdgeKindPresent (v : View) (kinds : list KindID) : bool :=
  match kinds with
  | [] => true
  | _ => existsb (λ k, hasEdgeKind (v_base v) k ||
           existsb (λ seg, bool_decide (k ∈ sg_edgeKinds seg)) (v_segments v)) kinds
  end.

Definition containsKindID (kinds : list KindID) (k : KindID) : bool :=
  existsb (λ kk, (kk =? k)%Z) kinds.

Section view.
Context `{GoStd}.

(** *** The merged delta and the nodes it adds *)

Definition v_merged (v : View) : option Segment :=
  match v_segments v with [] => None | _ => Some (MergeSegments (Some <$> v_segments v)) end.

Definition added_nodes (base : Snapshot) (m : Segment) : list N :=
  foldl (λ added '(id, st),
    if ns_Tombstoned st then added
    else match Dense base id with Some _ => added | None => added ++ [id] end) [] (seg_nodes m).

Definition virtualPgIDs (v : View) : list N :=
  match v_merged v with None => [] | Some m => added_nodes (v_base v) m end.
Definition pgToVirtual (v : View) : gmap N NodeID :=
  index_list (λ i, u32 (NodeCount (v_base v) + i)) (virtualPgIDs v).

(** The bits of the base nodes the delta holds a state for. *)
Definition overBits (v : View) : option Bitset :=
  match v_merged v with
  | None => None
  | Some m =>
      foldl (λ bits '(pgID, _),
        match Dense (v_base v) pgID with
        | None => bits
        | Some id => bits_set (NodeCount (v_base v)) bits id
        end) None (seg_nodes m)
  end.

(** The index into [GraphIDs] is below [baseN]. *)
Definition override (v : View) (n : NodeID) : option NodeSegState :=
  if negb (Overlay v) then None
  else match v_merged v with
  | None => None
  | Some m =>
      let baseN := NodeCount (v_base v) in
      if baseN <=? n then
        match idx (virtualPgIDs v) (n - baseN) with
        | None => None
        | Some pgID => NodeState m pgID
        end
      else if negb (bits_has (overBits v) n) then None
      else idx (GraphIDs (v_base v)) n ≫= NodeState m
  end.

Definition deltaOverridden (v : View) (pgID : N) : bool :=
  match v_merged v with None => false | Some m => bool_decide (is_Some (NodeState m pgID)) end.

Definition View_NodeCount (v : View) : N := NodeCount (v_base v) + len (virtualPgIDs v).
Definition View_EdgeCount (v : View) : N := EdgeCount (v_base v).

Definition View_Dense (v : View) (databaseID : N) : option NodeID :=
  match Dense (v_base v) databaseID with
  | Some id => Some id
  | None => if negb (Overlay v) then None else pgToVirtual v !! databaseID
  end.

Definition denseOf (v : View) (dbID : N) : option NodeID :=
  match Dense (v_base v) dbID with
  | Some id => Some id
  | None => pgToVirtual v !! dbID
  end.

Definition deadBits (v : View) : option Bitset :=
  match v_merged v with
  | None => None
  | Some m =>
      foldl (λ bits '(pgID, st),
        if negb (ns_Tombstoned st) then bits
        else match denseOf v pgID with
             | None => bits
             | Some id => bits_set (View_NodeCount v) bits id
             end) None (seg_nodes m)
  end.

Definition Alive (v : View) (n : NodeID) : bool :=
  if View_NodeCount v <=? n then false
  else if negb (Overlay v) then true
  else negb (bits_has (deadBits v) n).

Definition View_GraphID (v : View) (n : NodeID) : option N :=
  let baseN := NodeCount (v_base v) in
  if n <? baseN then idx (GraphIDs (v_base v)) n else idx (virtualPgIDs v) (n - baseN).

(** *** Node contents *)

Definition KindIDsOf (v : View) (n : NodeID) : option (list KindID) :=
  match override v n with
  | Some st => Some (if ns_Tombstoned st then [] else ns_KindIDs st)
  | None => row (KindOffsets (v_base v)) (NodeKinds (v_base v)) n (u32 (n + 1))
  end.

Definition PropIDByName (v : View) (name : string) : option N := IDByName (Props (v_base v)) name.

Definition PropValue (v : View) (n : NodeID) (id : N) : option (option any) :=
  match override v n with
  | Some st =>
      if ns_Tombstoned st then Some None
      else
        let name := PropStore_Name (Props (v_base v)) id in
        if String.eqb name EmptyString then Some None else NodeSegState_PropValueByName st name
  | None => PropStore_Value (Props (v_base v)) n id
  end.

Definition PropValueByName (v : View) (n : NodeID) (name : string) : option (option any) :=
  match override v n with
  | Some st => if ns_Tombstoned st then Some None else NodeSegState_PropValueByName st name
  | None =>
      match IDByName (Props (v_base v)) name with
      | None => Some None
      | Some id => PropStore_Value (Props (v_base v)) n id
      end
  end.

Definition PropNodeMap (v : View) (n : NodeID) : option (gmap string any) :=
  match override v n with
  | Some st => if ns_Tombstoned st then Some ∅ else NodeSegState_PropMap st
  | None => PropStore_NodeMap (Props (v_base v)) n
  end.

Definition View_NodesByObjectID (v : View) (objectID : string) : option (option (list NodeID)) :=
  if negb (Overlay v) then Some (PropStore_NodesByObjectID (Props (v_base v)) objectID)
  else
    let out := match v_merged v with
      | None => []
      | Some m => omap (View_Dense v) (Segment_NodesByObjectID m objectID)
      end in
    out' ← match PropStore_NodesByObjectID (Props (v_base v)) objectID with
      | None => Some out
      | Some baseIDs =>
          foldM (λ out id,
            g ← idx (GraphIDs (v_base v)) id;
            if deltaOverridden v g then Some out else Some (out ++ [id])) baseIDs out
      end;
    match out' with
    | [] => Some None
    | _ => Some (Some (go_sort (less_key (λ i : NodeID, i)) out'))
    end.

(** *** Kinds *)

Definition buildKindBitmap (v : View) (k : KindID) : option Bitset :=
  let out := NewBitset (View_NodeCount v) in
  out1 ← Bitset_Iterate (Snapshot_NodesOfKind (v_base v) k)
    (λ id out, match override v id with
               | Some _ => Some (out, true)
               | None => Some (Bitset_Set out id, true)
               end) out;
  match v_merged v with
  | None => Some out1
  | Some m =>
      IterNodes m (λ pgID st out,
        if ns_Tombstoned st || negb (containsKindID (ns_KindIDs st) k) then Some (out, true)
        else match View_Dense v pgID with
             | Some nid => Some (Bitset_Set out nid, true)
             | None => Some (out, true)
             end) out1
  end.
Definition View_NodesOfKind (v : View) (k : KindID) : option Bitset :=
  if negb (Overlay v) then Some (Snapshot_NodesOfKind (v_base v) k) else buildKindBitmap v k.

(** The names of a table with the added ones over them: the loop of [Kinds]
    and [foldKindPairs]. *)
Definition kind_pairs (base : KindTable) (added : gmap KindID string) : gmap KindID string :=
  foldl (λ m '(k, name), <[k := name]> m)
    (foldl (λ m '(i, name), if String.eqb name EmptyString then m else <[Z.of_N i := name]> m) ∅
       (zip (range 0 (len (kt_names base))) (kt_names base)))
    (map_to_list added).
Definition View_Kinds (v : View) : option KindTable :=
  if negb (Overlay v) then Some (Kinds (v_base v))
  else
    let added := match v_merged v with None => ∅ | Some m => AddedKinds m end in
    if (size added =? 0)%nat then Some (Kinds (v_base v))
    else NewKindTable (kind_pairs (Kinds (v_base v)) added).

Definition View_MaxKindID (v : View) : KindID :=
  if negb (Overlay v) then MaxKindID (v_base v)
  else match v_merged v with
  | None => MaxKindID (v_base v)
  | Some m =>
      let max0 := max_of (MaxKindID (v_base v)) (map_to_list (AddedKinds m)).*1 in
      let max1 := foldl (λ max '(_, st), if ns_Tombstoned st then max
                                         else max_of max (ns_KindIDs st)) max0 (seg_nodes m) in
      foldl (λ max '(_, st), if negb (es_Tombstoned st) && (es_Kind st >? max)%Z
                             then es_Kind st else max) max1 (seg_edges m)
  end.
End view.

(** ** What a view means *)

(** The graph in terms of database ids.  Its edges may have an end that is not
    a node; [visible] is the ones that have both. *)
Record graph := mkGraph { g_nodes : gmap N node_state; g_edges : gmap N edge_state }.

Definition visible (G : graph) : gmap N edge_state :=
  filter (λ x : N * edge_state, is_Some (g_nodes G !! x.2.1.1) ∧ is_Some (g_nodes G !! x.2.1.2)) (g_edges G).

Definition over {A} (d : gmap N (option A)) (m : gmap N A) : gmap N A :=
  omap (λ o, o) (d ∪ (Some <$> m)).
(** Applying one batch of changes: every touched id gets its new state. *)
Definition apply_delta (G : graph) (D : delta) : graph :=
  mkGraph (over (d_nodes D) (g_nodes G)) (over (d_edges D) (g_edges G)).

Definition base_graph (L : layout) : graph :=
  mkGraph (list_to_map (zip (lo_ids L) (zip (lo_kinds L) (lo_bags L)))) (list_to_map (lo_edges L)).

(** The graph of a view: the base, then every segment in order. *)
Definition view_graph (L : layout) (Ds : list delta) : graph := foldl apply_delta (base_graph L) Ds.

(** The ids of the nodes the view numbers: the base's, then the added ones. *)
Definition is_added (L : layout) (D : delta) (id : N) : Prop :=
  (∃ st, d_nodes D !! id = Some (Some st)) ∧ id ∉ lo_ids L.

Lemma over_lookup {A} (d : gmap N (option A)) m id :
  over d m !! id = match d !! id with Some o => o | None => m !! id end.
Proof.
  unfold over. rewrite lookup_omap, lookup_union, lookup_fmap.
  destruct (d !! id) as [o|]; simpl; [by rewrite union_Some_l|].
  rewrite (left_id None _). by destruct (m !! id).
Qed.

Lemma apply_delta_over G D D' : apply_delta (apply_delta G D) D' = apply_delta G (delta_over D D').
Proof.
  unfold apply_delta. f_equal; simpl; apply map_eq; intros id; rewrite !over_lookup, lookup_union.
  - destruct (d_nodes D' !! id); [by rewrite union_Some_l|]. by rewrite (left_id None _).
  - destruct (d_edges D' !! id); [by rewrite union_Some_l|]. by rewrite (left_id None _).
Qed.

Lemma apply_delta_empty G : apply_delta G delta_empty = G.
Proof.
  destruct G as [ns es]. unfold apply_delta. f_equal; simpl; apply map_eq; intros id;
    by rewrite over_lookup, lookup_empty.
Qed.

(** Applying the segments one by one is applying the merged one. *)
Lemma apply_delta_all G Ds : foldl apply_delta G Ds = apply_delta G (delta_all Ds).
Proof.
  unfold delta_all. rewrite <- (apply_delta_empty G) at 1.
  generalize delta_empty. induction Ds as [|D' Ds IH]; intros D; simpl; [done|].
  by rewrite apply_delta_over, IH.
Qed.
Lemma view_graph_all L Ds : view_graph L Ds = apply_delta (base_graph L) (delta_all Ds).
Proof. apply apply_delta_all. Qed.

(** ** The nodes of a snapshot *)

Lemma rep_lens s L : Snapshot_rep s L → len (lo_kinds L) = len (lo_ids L) ∧ len (lo_bags L) = len (lo_ids L).
Proof.
  intros [HP HD]. split; [apply (pk_kind_len _ _ HP)|].
  by rewrite <- (psr_len _ _ _ (dr_props _ _ HD)), (dr_props_len _ _ HD).
Qed.

Lemma rep_node s L n id : Snapshot_rep s L → idx (lo_ids L) n = Some id → ∃ ks bag,
  idx (lo_kinds L) n = Some ks ∧ idx (lo_bags L) n = Some bag ∧
  g_nodes (base_graph L) !! id = Some (ks, bag).
Proof.
  intros Hs Hn. destruct (rep_lens _ _ Hs) as [Hk Hb]. pose proof (idx_lt _ _ _ Hn) as Hl.
  destruct (idx_is_Some (lo_kinds L) n) as [ks Hks]; [lia|].
  destruct (idx_is_Some (lo_bags L) n) as [bag Hbag]; [lia|].
  exists ks, bag. split_and!; [done..|]. simpl. apply elem_of_list_to_map_1.
  - rewrite fst_zip; [apply sorted_lt_NoDup, (pk_sorted _ _ (rep_packed _ _ Hs))|].
    rewrite length_zip_with. unfold len in *. lia.
  - eapply (idx_elem_of _ n). by rewrite !idx_zip_with, Hn, Hks, Hbag.
Qed.

(** ** Lazily filled bit sets *)

Lemma bits_fold_spec {X} (f : X → option N) n (l : list X) : n < 2 ^ 32 →
  (∀ x i, x ∈ l → f x = Some i → i < n) →
  let r := foldl (λ bits x, match f x with None => bits | Some i => bits_set n bits i end) None l in
  match r with Some b => Bitset_wf n b | None => True end ∧
  ∀ i, bits_has r i = true ↔ ∃ x, x ∈ l ∧ f x = Some i.
Proof.
  intros Hn. induction l as [|x l IH] using rev_ind; intros Hlt.
  { split; [done|]. intros i. split; [done|]. by intros (x & ?%not_elem_of_nil & _). }
  simpl in *. rewrite foldl_app. simpl. set (r := foldl _ None l) in *.
  destruct IH as [Hwf Hhas]; [intros; eapply Hlt; [apply elem_of_app; by left|done]|].
  assert (∀ i, (∃ y, y ∈ l ++ [x] ∧ f y = Some i) ↔ (∃ y, y ∈ l ∧ f y = Some i) ∨ f x = Some i) as Hsn.
  { intros i. setoid_rewrite elem_of_app. setoid_rewrite list_elem_of_singleton. naive_solver. }
  destruct (f x) as [i0|] eqn:Ef.
  - assert (i0 < n) by (eapply Hlt; [apply elem_of_app; right; left|done]).
    set (b0 := match r with Some b => b | None => NewBitset n end).
    assert (Bitset_wf n b0 ∧ ∀ i, Bitset_Has b0 i = bits_has r i) as [Hwf0 Hh0].
    { unfold b0. destruct r; [done|]. split; [by apply NewBitset_wf|]. intros i. by apply NewBitset_Has. }
    unfold bits_set. fold b0. split; [by apply Set_wf|]. intros i. simpl.
    rewrite (Set_Has n), orb_true_iff, N.eqb_eq, Hh0, Hhas, Hsn by done. naive_solver.
  - split; [done|]. intros i. rewrite Hhas, Hsn. naive_solver.
Qed.

(** ** Node numbering *)

Record View_rep `{GoStd} (v : View) (L : layout) (Ds : list delta) : Prop := {
  vr_base : Snapshot_rep (v_base v) L;
  vr_segs : Forall2 Segment_rep (v_segments v) Ds;
  vr_edge_ids : NoDup (lo_edges L).*1;
  vr_count : View_NodeCount v < 2 ^ 32;
}.

Definition view_ids `{GoStd} (v : View) : list N := GraphIDs (v_base v) ++ virtualPgIDs v.

(** The numbering does not depend on the count being small. *)
Section numbered.
Context `{GoStd}.
Context (v : View) (L : layout) (Ds : list delta).
Hypothesis HB : Snapshot_rep (v_base v) L.
Hypothesis HF : Forall2 Segment_rep (v_segments v) Ds.
Let D := delta_all Ds.

Lemma merged_pre :
  (v_merged v = None ∧ D = delta_empty ∧ Overlay v = false) ∨
  (∃ m, v_merged v = Some m ∧ Segment_rep m D ∧ Overlay v = true).
Proof.
  unfold v_merged, Overlay.
  pose proof (MergeSegments_rep _ _ HF) as Hm.
  destruct (v_segments v) as [|s segs] eqn:Es; [left|right].
  - inversion HF as [E1 E2|]. unfold D. by rewrite <- E2.
  - eexists. split_and!; [done|done|]. apply N.ltb_lt. rewrite len_cons. lia.
Qed.

Lemma not_in_base id : Dense (v_base v) id = None ↔ id ∉ lo_ids L.
Proof.
  split.
  - intros Hn [i Hi]%elem_of_idx. apply (Dense_spec _ _ HB) in Hi. congruence.
  - intros Hni. destruct (Dense (v_base v) id) as [i|] eqn:E; [|done].
    apply (Dense_spec _ _ HB) in E. by apply idx_elem_of in E.
Qed.

(** What the iteration over the merged delta's nodes sees. *)
Lemma seg_nodes_elem_pre m id st : Segment_rep m D → (id, st) ∈ seg_nodes m →
  sg_nodeStates m !! id = Some st ∧ ∃ o, d_nodes D !! id = Some o ∧ node_state_rep st o.
Proof.
  intros Hm (id' & [= <- ->] & Hin)%list_elem_of_fmap.
  apply (sr_nids _ _ Hm) in Hin as [st' Hst]. pose proof (sr_nodes _ _ Hm id) as Hn.
  rewrite Hst in *. simpl.
  split; [done|]. destruct (option_Forall2_cases _ _ _ Hn) as [[? ?]|(x & y & ? & -> & ?)]; [done|].
  simplify_eq. eauto.
Qed.
Lemma seg_nodes_of_pre m id o : Segment_rep m D → d_nodes D !! id = Some o →
  ∃ st, (id, st) ∈ seg_nodes m ∧ sg_nodeStates m !! id = Some st ∧ node_state_rep st o.
Proof.
  intros Hm Ho. pose proof (sr_nodes _ _ Hm id) as Hn. rewrite Ho in Hn.
  destruct (option_Forall2_cases _ _ _ Hn) as [[? ?]|(st & y & Hst & ? & Hr)]; [done|]. simplify_eq.
  exists st. split_and!; [|done..]. apply list_elem_of_fmap. exists id. rewrite Hst.
  split; [done|]. apply (sr_nids _ _ Hm). by rewrite Hst.
Qed.

Lemma tombstoned_rep st o : node_state_rep st o → ns_Tombstoned st = true ↔ o = None.
Proof. destruct o as [[ks bag]|]; simpl; [|done]. intros [-> _]. done. Qed.

Lemma virtual_pre : StronglySorted N.lt (virtualPgIDs v) ∧
  ∀ id, id ∈ virtualPgIDs v ↔ is_added L D id.
Proof.
  unfold virtualPgIDs. destruct merged_pre as [(-> & -> & _)|(m & -> & Hm & _)].
  { split; [constructor|]. intros id. rewrite elem_of_nil. unfold is_added, delta_empty.
    simpl. split; [done|]. intros [(st & E) _]. by rewrite lookup_empty in E. }
  set (keep (x : N * NodeSegState) :=
    if ns_Tombstoned x.2 then None
    else match Dense (v_base v) x.1 with Some _ => None | None => Some x.1 end).
  assert (added_nodes (v_base v) m = omap keep (seg_nodes m)) as ->.
  { unfold added_nodes. rewrite <- (app_nil_l (omap _ _)), <- (foldl_omap keep).
    apply foldl_ext_in. intros acc [id st] _. unfold keep. simpl.
    by destruct (ns_Tombstoned st), (Dense (v_base v) id). }
  assert (∀ l : list N, omap keep ((λ id, (id, default NodeSegState_zero (sg_nodeStates m !! id))) <$> l) =
    filter (λ id, is_Some (keep (id, default NodeSegState_zero (sg_nodeStates m !! id)))) l) as Hf.
  { induction l as [|id l IH]; [done|]. rewrite filter_cons, fmap_cons. cbn [omap list_omap].
    assert (∀ st y, keep (id, st) = Some y → y = id) as Hk.
    { intros st y. unfold keep. simpl. repeat case_match; congruence. }
    destruct (keep _) as [y|] eqn:E.
    - rewrite decide_True by eauto. f_equal; [by eapply Hk|done].
    - rewrite decide_False by (intros [? ?]; done). done. }
  split; [unfold seg_nodes; rewrite Hf; apply StronglySorted_filter; by destruct Hm|].
  intros id. rewrite list_elem_of_omap. split.
  - intros ([id' st] & Hin & Hk). destruct (seg_nodes_elem_pre _ _ _ Hm Hin) as (_ & o & Ho & Hr).
    unfold keep in Hk. simpl in Hk. destruct (ns_Tombstoned st) eqn:Et; [done|].
    destruct (Dense (v_base v) id') eqn:Ed; [done|]. simplify_eq. apply not_in_base in Ed.
    split; [|done]. destruct o as [st'|]; [by eauto|]. simpl in Hr. congruence.
  - intros [(st & Ho) Hni]. destruct (seg_nodes_of_pre _ _ _ Hm Ho) as (st' & Hin & _ & Hr).
    exists (id, st'). split; [done|]. unfold keep. simpl.
    destruct (ns_Tombstoned st') eqn:Et; [by apply (tombstoned_rep _ _ Hr) in Et|].
    by apply not_in_base in Hni as ->.
Qed.
End numbered.

Section rep.
Context `{GoStd}.
Context (v : View) (L : layout) (Ds : list delta) (HR : View_rep v L Ds).
Let D := delta_all Ds.
Let G := view_graph L Ds.
Let HB := vr_base _ _ _ HR.
Let HP := rep_packed _ _ HB.

Lemma merged_cases :
  (v_merged v = None ∧ D = delta_empty ∧ Overlay v = false) ∨
  (∃ m, v_merged v = Some m ∧ Segment_rep m D ∧ Overlay v = true).
Proof. apply (merged_pre v Ds), (vr_segs _ _ _ HR). Qed.

Lemma base_ids : GraphIDs (v_base v) = lo_ids L.
Proof. apply (pk_ids _ _ HP). Qed.
Lemma base_count : NodeCount (v_base v) = len (lo_ids L).
Proof. unfold NodeCount. by rewrite base_ids. Qed.
Lemma base_dense_None id : Dense (v_base v) id = None ↔ id ∉ lo_ids L.
Proof. by apply (not_in_base v L). Qed.

Lemma seg_nodes_elem m id st : Segment_rep m D → (id, st) ∈ seg_nodes m →
  sg_nodeStates m !! id = Some st ∧ ∃ o, d_nodes D !! id = Some o ∧ node_state_rep st o.
Proof. apply (seg_nodes_elem_pre Ds). Qed.
Lemma seg_nodes_of m id o : Segment_rep m D → d_nodes D !! id = Some o →
  ∃ st, (id, st) ∈ seg_nodes m ∧ sg_nodeStates m !! id = Some st ∧ node_state_rep st o.
Proof. apply (seg_nodes_of_pre Ds). Qed.
Lemma virtual_spec : StronglySorted N.lt (virtualPgIDs v) ∧
  ∀ id, id ∈ virtualPgIDs v ↔ is_added L D id.
Proof. apply (virtual_pre v L Ds HB), (vr_segs _ _ _ HR). Qed.

Lemma len_view_ids : len (view_ids v) = View_NodeCount v.
Proof. unfold view_ids, View_NodeCount. by rewrite len_app. Qed.

Lemma view_ids_nodup : NoDup (view_ids v).
Proof.
  destruct virtual_spec as [Hs Hv]. unfold view_ids. rewrite base_ids. apply NoDup_app. split_and!.
  - apply sorted_lt_NoDup, (pk_sorted _ _ HP).
  - intros id Hin Hv'. apply Hv in Hv' as [_ ?]. done.
  - by apply sorted_lt_NoDup.
Qed.

Lemma GraphID_spec n : View_GraphID v n = idx (view_ids v) n.
Proof.
  unfold View_GraphID, view_ids. destruct (N.ltb_spec n (NodeCount (v_base v))).
  - by rewrite idx_app_l.
  - by rewrite idx_app_r.
Qed.

Lemma denseOf_spec id n : denseOf v id = Some n ↔ idx (view_ids v) n = Some id.
Proof.
  pose proof (vr_count _ _ _ HR) as Hc. unfold View_NodeCount in Hc.
  destruct virtual_spec as [Hs Hv]. unfold denseOf, view_ids. rewrite base_ids, base_count in *.
  assert (∀ j, pgToVirtual v !! id = Some j ↔ len (lo_ids L) ≤ j ∧
    idx (virtualPgIDs v) (j - len (lo_ids L)) = Some id) as Hpg.
  { intros j. unfold pgToVirtual.
    assert (index_list (λ i, u32 (NodeCount (v_base v) + i)) (virtualPgIDs v) =
      (λ i, len (lo_ids L) + i) <$> index_list (λ i, i) (virtualPgIDs v)) as ->.
    { rewrite base_count. assert (∀ i, i < len (virtualPgIDs v) → u32 (len (lo_ids L) + i) = len (lo_ids L) + i) as Hu
        by (intros; apply u32_small; lia).
      clear -Hu. induction (virtualPgIDs v) as [|x l IH] using rev_ind.
      { unfold index_list. simpl. by rewrite fmap_empty. }
      rewrite !index_list_snoc, fmap_insert, IH, Hu; [done| |intros; apply Hu]; rewrite len_app, len_cons; lia. }
    rewrite lookup_fmap, fmap_Some.
    setoid_rewrite (index_list_spec (λ i, i) (virtualPgIDs v) (sorted_lt_NoDup _ Hs) (λ _ _, eq_refl)).
    split.
    - intros (i & Hi & ->). split; [lia|]. by replace (len (lo_ids L) + i - len (lo_ids L)) with i by lia.
    - intros [Hj Hi]. exists (j - len (lo_ids L)). split; [done|lia]. }
  destruct (Dense (v_base v) id) as [i|] eqn:Ed.
  - apply (Dense_spec _ _ HB) in Ed. split.
    + intros [= <-]. by rewrite idx_app_l by (by eapply idx_lt).
    + intros Hn. f_equal. pose proof view_ids_nodup as Hnd. unfold view_ids in Hnd. rewrite base_ids in Hnd.
      assert (idx (lo_ids L ++ virtualPgIDs v) i = Some id) as Hi by (by rewrite idx_app_l by (by eapply idx_lt)).
      pose proof (NoDup_lookup _ _ _ _ Hnd Hi Hn). lia.
  - rewrite Hpg. apply base_dense_None in Ed. destruct (decide (n < len (lo_ids L))) as [Hn|Hn].
    + rewrite idx_app_l by done. split; [lia|]. by intros ?%idx_elem_of.
    + rewrite idx_app_r by lia. naive_solver lia.
Qed.

Lemma View_Dense_eq id : View_Dense v id = denseOf v id.
Proof.
  unfold View_Dense, denseOf. destruct (Dense (v_base v) id); [done|].
  destruct merged_cases as [(Hm & _ & ->)|(m & _ & _ & ->)]; simpl; [|done].
  unfold pgToVirtual, virtualPgIDs. rewrite Hm. done.
Qed.

Lemma base_idx n id : idx (lo_ids L) n = Some id → idx (view_ids v) n = Some id.
Proof. intros Hn. unfold view_ids. rewrite base_ids, idx_app_l; [done|]. by eapply idx_lt. Qed.

Lemma view_ids_elem n id : idx (view_ids v) n = Some id →
  (idx (lo_ids L) n = Some id ∧ n < NodeCount (v_base v)) ∨
  (idx (virtualPgIDs v) (n - NodeCount (v_base v)) = Some id ∧ NodeCount (v_base v) ≤ n ∧
   is_added L D id).
Proof.
  unfold view_ids. rewrite base_ids, base_count. intros Hn.
  destruct (decide (n < len (lo_ids L))) as [Hl|Hl].
  - left. by rewrite idx_app_l in Hn.
  - right. rewrite idx_app_r in Hn by lia. split_and!; [done|lia|]. apply virtual_spec.
    by eapply idx_elem_of.
Qed.

Lemma dense_lt n id : idx (view_ids v) n = Some id → n < View_NodeCount v.
Proof. rewrite <- len_view_ids. apply idx_lt. Qed.

Lemma dense_unique n n' id : idx (view_ids v) n = Some id → idx (view_ids v) n' = Some id → n = n'.
Proof. intros H1 H2. pose proof (NoDup_lookup _ _ _ _ view_ids_nodup H1 H2). lia. Qed.

(** ** Overridden and dead nodes *)

Lemma overBits_spec n id : idx (lo_ids L) n = Some id →
  bits_has (overBits v) n = true ↔ is_Some (d_nodes D !! id).
Proof.
  intros Hn. unfold overBits. destruct merged_cases as [(-> & -> & _)|(m & -> & Hm & _)].
  { simpl. rewrite lookup_empty. split; [done|]. by intros [? ?]. }
  rewrite (foldl_ext_in _ (λ bits x, match Dense (v_base v) (fst x) with
    None => bits | Some i => bits_set (NodeCount (v_base v)) bits i end)) by (by intros ? []).
  edestruct (bits_fold_spec (λ x : N * NodeSegState, Dense (v_base v) (fst x))
    (NodeCount (v_base v)) (seg_nodes m)) as [_ ->].
  - rewrite base_count. apply (pk_n _ _ HP).
  - intros x i _ Hi%(Dense_spec _ _ HB). rewrite base_count. by eapply idx_lt.
  - split.
    + intros ([id' st] & Hin & Hd%(Dense_spec _ _ HB)). simpl in *. simplify_eq.
      destruct (seg_nodes_elem _ _ _ Hm Hin) as (_ & o & -> & _). eauto.
    + intros [o Ho]. destruct (seg_nodes_of _ _ _ Hm Ho) as (st & Hin & _).
      exists (id, st). split; [done|]. by apply (Dense_spec _ _ HB).
Qed.

(** The state the delta holds for a node, if it holds one. *)
Lemma override_spec n id : idx (view_ids v) n = Some id →
  option_Forall2 node_state_rep (override v n) (d_nodes D !! id).
Proof.
  intros Hn. pose proof (view_ids_elem _ _ Hn) as Hc. unfold override.
  destruct merged_cases as [(-> & -> & ->)|(m & -> & Hm & ->)]; simpl.
  { rewrite lookup_empty. constructor. }
  destruct Hc as [[Hi Hl]|(Hi & Hl & _)].
  - destruct (N.leb_spec (NodeCount (v_base v)) n); [lia|]. pose proof (overBits_spec _ _ Hi) as Ho.
    destruct (bits_has (overBits v) n); simpl.
    + rewrite base_ids, Hi. apply (sr_nodes _ _ Hm).
    + destruct (d_nodes D !! id); [|constructor]. destruct Ho as [_ Ho]. discriminate Ho. eauto.
  - destruct (N.leb_spec (NodeCount (v_base v)) n); [|lia]. rewrite Hi. apply (sr_nodes _ _ Hm).
Qed.

Lemma deltaOverridden_spec id : deltaOverridden v id = bool_decide (is_Some (d_nodes D !! id)).
Proof.
  unfold deltaOverridden. destruct merged_cases as [(-> & -> & _)|(m & -> & Hm & _)].
  { simpl. rewrite lookup_empty. by rewrite bool_decide_false by (by intros [? ?]). }
  apply bool_decide_ext. unfold NodeState. destruct (sr_nodes _ _ Hm id); [|done].
  split; intros _; eauto.
Qed.

Lemma deadBits_spec n id : idx (view_ids v) n = Some id →
  bits_has (deadBits v) n = true ↔ d_nodes D !! id = Some None.
Proof.
  intros Hn. unfold deadBits. destruct merged_cases as [(-> & -> & _)|(m & -> & Hm & _)].
  { simpl. by rewrite lookup_empty. }
  set (f (x : N * NodeSegState) := if negb (ns_Tombstoned x.2) then None else denseOf v x.1).
  rewrite (foldl_ext_in _ (λ bits x, match f x with
    None => bits | Some i => bits_set (View_NodeCount v) bits i end)).
  2: { intros bits [id' st] _. unfold f. simpl. by destruct (ns_Tombstoned st). }
  edestruct (bits_fold_spec f (View_NodeCount v) (seg_nodes m)) as [_ ->].
  - apply (vr_count _ _ _ HR).
  - intros x i _. unfold f. destruct (ns_Tombstoned x.2); simpl; [|done].
    intros Hi%denseOf_spec. by eapply dense_lt.
  - unfold f. split.
    + intros ([id' st] & Hin & Hd). simpl in *. destruct (ns_Tombstoned st) eqn:Et; [|done].
      apply denseOf_spec in Hd. simplify_eq.
      destruct (seg_nodes_elem _ _ _ Hm Hin) as (_ & o & -> & Ho).
      by apply (tombstoned_rep _ _ Ho) in Et as ->.
    + intros Ho. destruct (seg_nodes_of _ _ _ Hm Ho) as (st & Hin & _ & Hr).
      exists (id, st). split; [done|]. simpl in *. rewrite Hr. simpl. by apply denseOf_spec.
Qed.

(** ** The nodes of the graph *)

Lemma base_lens : len (lo_kinds L) = len (lo_ids L) ∧ len (lo_bags L) = len (lo_ids L).
Proof. exact (rep_lens _ _ HB). Qed.
Lemma base_node n id : idx (lo_ids L) n = Some id → ∃ ks bag,
  idx (lo_kinds L) n = Some ks ∧ idx (lo_bags L) n = Some bag ∧
  g_nodes (base_graph L) !! id = Some (ks, bag).
Proof. exact (rep_node _ _ n id HB). Qed.

Lemma base_no_node id : id ∉ lo_ids L → g_nodes (base_graph L) !! id = None.
Proof.
  intros Hni. simpl. apply not_elem_of_list_to_map_1. intros ([id' x] & -> & Hin)%list_elem_of_fmap.
  simpl in Hni. apply elem_of_zip_l in Hin. done.
Qed.

Lemma graph_nodes id : g_nodes G !! id =
  match d_nodes D !! id with Some o => o | None => g_nodes (base_graph L) !! id end.
Proof. unfold G. rewrite view_graph_all. simpl. apply over_lookup. Qed.

(** Every node of the graph has a number. *)
Lemma node_numbered id st : g_nodes G !! id = Some st → ∃ n, idx (view_ids v) n = Some id.
Proof.
  rewrite graph_nodes. intros Hg. apply elem_of_idx. unfold view_ids. rewrite base_ids.
  apply elem_of_app. destruct (decide (id ∈ lo_ids L)) as [|Hni]; [by left|right].
  apply virtual_spec. split; [|done]. rewrite (base_no_node _ Hni) in Hg.
  destruct (d_nodes D !! id) as [[st'|]|]; [eauto|done..].
Qed.

Lemma alive_iff n : Alive v n = true ↔
  ∃ id, idx (view_ids v) n = Some id ∧ is_Some (g_nodes G !! id).
Proof.
  unfold Alive. rewrite <- len_view_ids. destruct (N.leb_spec (len (view_ids v)) n) as [Hl|Hl].
  { split; [done|]. intros (id & Hi & _). apply idx_lt in Hi. lia. }
  destruct (idx_is_Some _ _ Hl) as [id Hid]. pose proof (deadBits_spec _ _ Hid) as Hd.
  assert (is_Some (g_nodes G !! id) ↔ ¬ d_nodes D !! id = Some None) as Hg.
  { rewrite graph_nodes. destruct (d_nodes D !! id) as [[st|]|] eqn:Eo.
    - split; [done|eauto].
    - split; [by intros [? ?]|done].
    - split; [done|]. intros _. destruct (view_ids_elem _ _ Hid) as [[Hi _]|(_ & _ & (st & Hst) & _)].
      + destruct (base_node _ _ Hi) as (ks & bag & _ & _ & ->). eauto.
      + congruence. }
  transitivity (is_Some (g_nodes G !! id)).
  - rewrite Hg, <- Hd. destruct merged_cases as [(Hm & _ & ->)|(m & _ & _ & ->)]; simpl.
    + unfold deadBits. rewrite Hm. simpl. naive_solver.
    + destruct (bits_has (deadBits v) n); simpl; naive_solver.
  - split; [eauto|]. intros (id' & Hid' & ?). congruence.
Qed.

(** ** Node contents *)

(** A node's state: the delta's if it has one, else the base's. *)
Lemma node_state_cases n id : idx (view_ids v) n = Some id →
  (∃ st, override v n = Some st ∧ node_state_rep st (g_nodes G !! id)) ∨
  (∃ ks bag, override v n = None ∧ n < NodeCount (v_base v) ∧ idx (lo_ids L) n = Some id ∧
     idx (lo_kinds L) n = Some ks ∧ idx (lo_bags L) n = Some bag ∧ g_nodes G !! id = Some (ks, bag)).
Proof.
  intros Hn. rewrite graph_nodes.
  destruct (option_Forall2_cases _ _ _ (override_spec _ _ Hn)) as [[-> E]|(st & o & -> & -> & Hst)].
  - right. rewrite E. destruct (view_ids_elem _ _ Hn) as [[Hi Hl]|(_ & _ & (st & Hst) & _)]; [|congruence].
    destruct (base_node _ _ Hi) as (ks & bag & ? & ? & ?). eauto 10.
  - left. eauto.
Qed.

Lemma KindIDsOf_graph n id : idx (view_ids v) n = Some id →
  KindIDsOf v n = Some (match g_nodes G !! id with Some st => st.1 | None => [] end).
Proof.
  intros Hn. unfold KindIDsOf.
  destruct (node_state_cases _ _ Hn) as [(st & -> & Hst)|(ks & bag & -> & Hl & _ & Hk & _ & ->)].
  - destruct (g_nodes G !! id) as [[ks bag]|]; simpl in *; [|by rewrite Hst].
    by destruct Hst as (-> & -> & _).
  - rewrite (pk_koff _ _ HP), (pk_nkinds _ _ HP), (node_succ _ _ HB) by (rewrite <- base_count; done).
    by rewrite (row_offs _ _ _ Hk).
Qed.

(** A property read: absent on a deleted node or under a name it lacks. *)
Definition graph_value (st : option node_state) (name : string) : option (option any) :=
  match st with
  | None => Some None
  | Some (_, bag) => match bag !! name with None => Some None | Some val => Some <$> decode_pval val end
  end.

Lemma bags_bound : len (lo_bags L) < 2 ^ 32.
Proof. destruct base_lens as [_ ->]. apply (pk_n _ _ HP). Qed.

Lemma PropValueByName_graph n id name : idx (view_ids v) n = Some id →
  PropValueByName v n name = graph_value (g_nodes G !! id) name.
Proof.
  intros Hn. unfold PropValueByName. pose proof (dr_props _ _ (rep_derived _ _ HB)) as Hps.
  destruct (node_state_cases _ _ Hn) as [(st & -> & Hst)|(ks & bag & -> & _ & _ & _ & Hb & ->)].
  - destruct (g_nodes G !! id) as [[ks bag]|]; simpl; [|simpl in Hst; by rewrite Hst].
    pose proof Hst as (-> & _). by apply (state_value _ ks).
  - simpl. pose proof (store_value _ _ _ Hps bags_bound _ _ name Hb) as Hv.
    destruct (IDByName _ name); [done|]. by rewrite Hv.
Qed.

Lemma PropNodeMap_graph n id : idx (view_ids v) n = Some id →
  (∀ st, g_nodes G !! id = Some st → bag_decodable st.2) →
  PropNodeMap v n = Some (match g_nodes G !! id with
                          | None => ∅ | Some st => omap decode_pval (snd st) end).
Proof.
  intros Hn Hdec. unfold PropNodeMap. pose proof (dr_props _ _ (rep_derived _ _ HB)) as Hps.
  destruct (node_state_cases _ _ Hn) as [(st & -> & Hst)|(ks & bag & -> & _ & _ & _ & Hb & E)].
  - destruct (g_nodes G !! id) as [[ks bag]|]; simpl; [|simpl in Hst; by rewrite Hst].
    pose proof Hst as (-> & _). apply (state_map _ ks); [done|]. by apply (Hdec (ks, bag)).
  - rewrite E. apply (store_node_map _ _ _ Hps bags_bound); [done|]. by apply (Hdec _ E).
Qed.

(** ** Lookup by objectid *)

Definition graph_objectid (id : N) : option string :=
  match g_nodes G !! id with Some st => bag_objectid (snd st) | None => None end.

Lemma base_objectid_filter baseIDs out :
  (∀ i, i ∈ baseIDs → i < len (lo_ids L)) →
  foldM (λ out id, g ← idx (GraphIDs (v_base v)) id;
    if deltaOverridden v g then Some out else Some (out ++ [id])) baseIDs out =
  Some (out ++ filter (λ i, (idx (lo_ids L) i ≫= λ id, d_nodes D !! id) = None) baseIDs).
Proof.
  revert out. induction baseIDs as [|i l IH]; intros out Hl; [by rewrite app_nil_r|].
  destruct (idx_is_Some (lo_ids L) i) as [id Hid]; [apply Hl; left|].
  rewrite filter_cons. cbn [foldM]. rewrite base_ids, Hid. simpl. rewrite <- base_ids.
  rewrite deltaOverridden_spec.
  destruct (d_nodes D !! id); simpl; rewrite IH by (intros; apply Hl; by right); rewrite base_ids in *.
  - done.
  - by rewrite <- app_assoc.
Qed.

(** The ids found are exactly the live nodes with that text, in order. *)
Lemma NodesByObjectID_graph text : ∃ l, View_NodesByObjectID v text = Some (found l) ∧
  StronglySorted N.lt l ∧
  ∀ n, n ∈ l ↔ ∃ id, idx (view_ids v) n = Some id ∧ graph_objectid id = Some text.
Proof.
  pose proof (dr_object _ _ (rep_derived _ _ HB) text) as Hobj. unfold View_NodesByObjectID.
  rewrite Hobj. set (base := objectid_nodes (lo_bags L) text) in *.
  assert (∀ i, i ∈ base → i < len (lo_ids L)) as Hbl.
  { intros i [_ Hi]%list_elem_of_filter. apply elem_of_range in Hi. destruct base_lens. lia. }
  assert (∀ n id, idx (lo_ids L) n = Some id → d_nodes D !! id = None →
    n ∈ base ↔ graph_objectid id = Some text) as Hbase.
  { intros n id Hn Hd. unfold graph_objectid. rewrite graph_nodes, Hd.
    destruct (base_node _ _ Hn) as (ks & bag & _ & Hb & ->). unfold base, objectid_nodes.
    rewrite list_elem_of_filter, Hb, elem_of_range. simpl. apply idx_lt in Hb. naive_solver lia. }
  destruct merged_cases as [(_ & E & ->)|(m & -> & Hm & ->)]; simpl.
  { exists base. split; [done|]. split.
    - apply StronglySorted_filter, range_sorted.
    - intros n. split.
      + intros Hn. destruct (idx_is_Some (lo_ids L) n (Hbl _ Hn)) as [id Hid]. exists id.
        split; [by apply base_idx|]. apply (Hbase n); [done| |done]. by rewrite E.
      + intros (id & Hn & Ho). destruct (view_ids_elem _ _ Hn) as [[Hi _]|(_ & _ & (st & Hst) & _)].
        * apply (Hbase n id); [done| |done]. by rewrite E.
        * by rewrite E in Hst. }
  set (dl := omap (View_Dense v) (Segment_NodesByObjectID m text)).
  set (bl := filter (λ i, (idx (lo_ids L) i ≫= λ id, d_nodes D !! id) = None) base).
  assert ((match found base with None => Some dl | Some baseIDs => foldM (λ out id,
    g ← idx (GraphIDs (v_base v)) id; if deltaOverridden v g then Some out else Some (out ++ [id]))
    baseIDs dl end) = Some (dl ++ bl)) as ->.
  { unfold found, bl. destruct base as [|i l]; [by rewrite app_nil_r|].
    by apply base_objectid_filter. }
  simpl. exists (go_sort (less_key (λ i : NodeID, i)) (dl ++ bl)). split_and!.
  - pose proof (go_sort_length (less_key (λ i : NodeID, i)) (dl ++ bl)) as Hgl.
    destruct (dl ++ bl), (go_sort _ _); done.
  - apply sorted_key_strict; [|apply go_sort_sorted, is_less_key]. rewrite list_fmap_id, go_sort_perm.
    apply NoDup_app. split_and!.
    + apply NoDup_omap_inj; [rewrite (sr_object _ _ Hm); apply NoDup_filter, sorted_lt_NoDup, (sr_nsorted _ _ Hm)|].
      intros x y z _ _. rewrite !View_Dense_eq. intros Hx%denseOf_spec Hy%denseOf_spec. congruence.
    + intros n (id & Hin & Hd)%list_elem_of_omap [Hnone Hb%Hbl]%list_elem_of_filter. rewrite View_Dense_eq in Hd. apply denseOf_spec in Hd.
      rewrite (sr_object _ _ Hm), list_elem_of_filter in Hin. destruct Hin as [_ Hin%(sr_nids _ _ Hm)].
      pose proof (sr_nodes _ _ Hm id) as Hst. destruct Hin as [st Es]. rewrite Es in Hst. inversion Hst as [? o _ Hd' E1|]; subst.
      destruct (view_ids_elem _ _ Hd) as [[Hi _]|(_ & Hge & _)]; [|rewrite base_count in Hge; lia].
      rewrite Hi in Hnone. simpl in Hnone. by rewrite <- E1 in Hnone.
    + unfold bl, base, objectid_nodes. do 2 apply NoDup_filter. apply NoDup_range.
  - intros n. rewrite go_sort_elem, elem_of_app. unfold dl, bl.
    rewrite list_elem_of_omap, list_elem_of_filter. split.
    + intros [(id & Hin & Hd)|[Hnone Hin]].
      * rewrite View_Dense_eq in Hd. apply denseOf_spec in Hd. exists id. split; [done|].
        rewrite (sr_object _ _ Hm), list_elem_of_filter in Hin. destruct Hin as [Ho _].
        unfold d_objectid in Ho. unfold graph_objectid. rewrite graph_nodes.
        by destruct (d_nodes D !! id) as [[]|].
      * destruct (idx_is_Some (lo_ids L) n (Hbl _ Hin)) as [id Hid]. exists id.
        rewrite Hid in Hnone. simpl in Hnone. split; [by apply base_idx|]. by apply (Hbase n).
    + intros (id & Hn & Ho). destruct (d_nodes D !! id) as [o|] eqn:Ed.
      * left. exists id. rewrite View_Dense_eq. split; [|by apply denseOf_spec].
        rewrite (sr_object _ _ Hm), list_elem_of_filter. unfold d_objectid.
        unfold graph_objectid in Ho. rewrite graph_nodes, Ed in Ho. rewrite Ed.
        destruct o as [st|]; [|done]. split; [done|]. apply (sr_nids _ _ Hm).
        destruct (seg_nodes_of _ _ _ Hm Ed) as (st' & _ & -> & _). eauto.
      * right. destruct (view_ids_elem _ _ Hn) as [[Hi _]|(_ & _ & (st & Hst) & _)]; [|congruence].
        rewrite Hi. simpl. split; [done|]. by apply (Hbase n id).
Qed.
End rep.

(** ** Kinds *)

Section kinds.
Context `{GoStd}.
Context (v : View) (L : layout) (Ds : list delta) (HR : View_rep v L Ds).
Let D := delta_all Ds.
Let G := view_graph L Ds.
Let HB := vr_base _ _ _ HR.

Definition has_kind (id : N) (k : Z) : Prop := ∃ st, g_nodes G !! id = Some st ∧ k ∈ fst st.

Lemma base_kind_bits k : ∃ cap, Bitset_wf cap (Snapshot_NodesOfKind (v_base v) k) ∧
  cap ≤ len (lo_ids L) ∧
  ∀ i, Bitset_Has (Snapshot_NodesOfKind (v_base v) k) i = true ↔
    ∃ ks, idx (lo_kinds L) i = Some ks ∧ k ∈ ks.
Proof.
  pose proof (dr_bitmap _ _ (rep_derived _ _ HB) k) as Hbm. unfold Snapshot_NodesOfKind.
  destruct (kindBitmaps (v_base v) !! k) as [bm|].
  - exists (len (lo_ids L)). destruct Hbm. split_and!; [done|lia|done].
  - exists 0. split_and!; [by apply NewBitset_wf|lia|]. intros i. rewrite NewBitset_Has by done.
    split; [done|]. intros (ks & Hi%idx_elem_of & Hk). by apply Hbm in Hi.
Qed.

Lemma iter_set_foldl {X} (f : X → option NodeID) l b :
  iter_until (λ x b, match f x with Some i => Some (Bitset_Set b i, true) | None => Some (b, true) end) l b =
  Some (foldl Bitset_Set b (omap f l)).
Proof.
  rewrite (iter_until_ext _ (λ x b, Some (match f x with Some i => Bitset_Set b i | None => b end, true)))
    by (intros x ? _; by destruct (f x)).
  rewrite iter_until_pure. f_equal. revert b. induction l as [|x l IH]; intros b; csimpl; [done|].
  rewrite IH. by destruct (f x).
Qed.

Lemma containsKindID_spec ks k : containsKindID ks k = true ↔ k ∈ ks.
Proof.
  unfold containsKindID. rewrite existsb_exists. setoid_rewrite <- list_elem_of_In.
  split; [intros (x & ? & ->%Z.eqb_eq); done|]. intros ?. exists k. by rewrite Z.eqb_refl.
Qed.

(** The base half of a kind's bitmap: the base nodes of that kind the delta
    does not override. *)
Lemma base_half k n : n ∈ omap (λ i, match override v i with Some _ => None | None => Some i end)
    (Bitset_elems (Snapshot_NodesOfKind (v_base v) k)) ↔
  ∃ id, idx (view_ids v) n = Some id ∧ d_nodes D !! id = None ∧ has_kind id k.
Proof.
  destruct (base_kind_bits k) as (cap & Hwf & Hcap & Hhas). rewrite list_elem_of_omap.
  setoid_rewrite (elem_of_Bitset _ _ Hwf). setoid_rewrite Hhas. split.
  - intros (i & (ks & Hk & Hin) & E). destruct (override v i) eqn:Eo; [done|]. simplify_eq.
    destruct (idx_is_Some (lo_ids L) n) as [id Hid].
    { apply idx_lt in Hk. by destruct (base_lens v L Ds HR) as [<- _]. }
    exists id. pose proof (base_idx v L Ds HR _ _ Hid) as Hn. split; [done|].
    pose proof (override_spec v L Ds HR _ _ Hn) as Ho. rewrite Eo in Ho.
    assert (d_nodes D !! id = None) as Hd by (by inversion Ho). split; [done|].
    destruct (base_node v L Ds HR _ _ Hid) as (ks' & bag & Hk' & _ & Hg). simplify_eq.
    exists (ks, bag). split; [|done]. unfold G. rewrite graph_nodes. fold D. by rewrite Hd.
  - intros (id & Hn & Hd & st & Hg & Hin).
    destruct (node_state_cases v L Ds HR _ _ Hn) as [(s & Eo & _)|(ks & bag & Eo & _ & _ & Hk & _ & Hg')].
    + pose proof (override_spec v L Ds HR _ _ Hn) as Ho. rewrite Eo in Ho. fold D in Ho.
      rewrite Hd in Ho. inversion Ho.
    + exists n. rewrite Eo. split; [|done]. exists ks. split; [done|]. unfold G in Hg. rewrite Hg' in Hg. by simplify_eq.
Qed.

(** The delta half: the live states with that kind. *)
Lemma delta_half k m n : Segment_rep m D →
  n ∈ omap (λ x, if ns_Tombstoned (snd x) || negb (containsKindID (ns_KindIDs (snd x)) k) then None
                 else View_Dense v (fst x)) (seg_nodes m) ↔
  ∃ id, idx (view_ids v) n = Some id ∧ is_Some (d_nodes D !! id) ∧ has_kind id k.
Proof.
  intros Hm. rewrite list_elem_of_omap. split.
  - intros ([id st] & Hin & Hd). simpl in Hd.
    destruct (seg_nodes_elem Ds m id st Hm Hin) as (_ & o & Ho & Hr). fold D in Ho.
    destruct (ns_Tombstoned st) eqn:Et; [done|]. destruct (containsKindID _ k) eqn:Ek; [|done].
    simpl in Hd. rewrite (View_Dense_eq v L Ds HR) in Hd. apply (denseOf_spec v L Ds HR) in Hd.
    exists id. split; [done|]. split; [eauto|].
    destruct o as [[ks bag]|]; simpl in Hr; [|congruence]. destruct Hr as (_ & <- & _).
    exists (ns_KindIDs st, bag). split; [unfold G; rewrite graph_nodes; fold D; by rewrite Ho|].
    by apply containsKindID_spec.
  - intros (id & Hn & [o Ho] & st & Hg & Hin). destruct (seg_nodes_of Ds m id o Hm Ho) as (s & Hs & _ & Hr).
    exists (id, s). split; [done|]. simpl. unfold G in Hg. rewrite graph_nodes in Hg. fold D in Hg.
    rewrite Ho in Hg. subst o. destruct st as [ks bag]. destruct Hr as (-> & -> & _). simpl.
    rewrite (proj2 (containsKindID_spec ks k)) by done. simpl.
    rewrite (View_Dense_eq v L Ds HR). by apply (denseOf_spec v L Ds HR).
Qed.

(** The bitmap of a kind holds exactly the live nodes of that kind. *)
Lemma NodesOfKind_graph k : ∃ b cap, View_NodesOfKind v k = Some b ∧ Bitset_wf cap b ∧
  cap ≤ View_NodeCount v ∧
  ∀ n, Bitset_Has b n = true ↔ ∃ id, idx (view_ids v) n = Some id ∧ has_kind id k.
Proof.
  unfold View_NodesOfKind. pose proof (vr_count _ _ _ HR) as Hc.
  destruct (base_kind_bits k) as (cap & Hwf & Hcap & Hhas).
  assert (∀ n, n ∈ Bitset_elems (Snapshot_NodesOfKind (v_base v) k) → n < View_NodeCount v) as Hbl.
  { intros n Hn%(elem_of_Bitset _ _ Hwf). apply (wf_bound _ _ Hwf) in Hn.
    unfold View_NodeCount. rewrite (base_count v L Ds HR). lia. }
  destruct (merged_cases v L Ds HR) as [(Hm & E & ->)|(m & Hm & Hrep & ->)]; simpl.
  { exists (Snapshot_NodesOfKind (v_base v) k), cap. split_and!; [done|done|..].
    - unfold View_NodeCount. rewrite (base_count v L Ds HR). lia.
    - intros n. rewrite <- (elem_of_Bitset _ _ Hwf).
      pose proof (base_half k n) as Hb. rewrite list_elem_of_omap in Hb. fold D in E.
      assert (∀ i, override v i = None) as Hov by (intros i; unfold override, Overlay; unfold v_merged in Hm;
        by destruct (v_segments v)).
      setoid_rewrite Hov in Hb. setoid_rewrite E in Hb. simpl in Hb. setoid_rewrite lookup_empty in Hb.
      naive_solver. }
  unfold buildKindBitmap. rewrite (Bitset_Iterate_spec cap) by done.
  rewrite (iter_until_ext _ (λ i b, match (match override v i with Some _ => None | None => Some i end) with
    Some i => Some (Bitset_Set b i, true) | None => Some (b, true) end))
    by (intros i ? _; by destruct (override v i)).
  rewrite iter_set_foldl. simpl. rewrite Hm. unfold IterNodes.
  rewrite (iter_until_ext _ (λ x b, match (if ns_Tombstoned (snd x) || negb (containsKindID (ns_KindIDs (snd x)) k)
    then None else View_Dense v (fst x)) with Some i => Some (Bitset_Set b i, true) | None => Some (b, true) end))
    by (intros [id st] ? _; simpl; by destruct (ns_Tombstoned st || _)).
  rewrite iter_set_foldl, <- foldl_app.
  eexists _, (View_NodeCount v). split; [done|].
  destruct (Set_foldl (View_NodeCount v) (NewBitset (View_NodeCount v))
    (omap (λ i, match override v i with Some _ => None | None => Some i end)
       (Bitset_elems (Snapshot_NodesOfKind (v_base v) k)) ++
     omap (λ x, if ns_Tombstoned (snd x) || negb (containsKindID (ns_KindIDs (snd x)) k) then None
                 else View_Dense v (fst x)) (seg_nodes m))) as [Hw Hh].
  - by apply NewBitset_wf.
  - intros i. rewrite elem_of_app, base_half, (delta_half k m) by done.
    intros [(id & Hn & _)|(id & Hn & _)]; by eapply dense_lt.
  - split; [done|]. split; [lia|]. intros n. rewrite Hh, NewBitset_Has, elem_of_app, base_half, (delta_half k m) by done.
    split; [naive_solver|]. intros (id & Hn & Hk). right.
    destruct (d_nodes D !! id) eqn:Ed; [right|left]; exists id; rewrite ?Ed; eauto.
Qed.
End kinds.

(** The graph a builder's staged nodes and edges describe. *)
Definition staged_graph (nodes : list node_rec) (edges : list stagedEdge) : graph :=
  mkGraph (list_to_map ((λ nd, (nd_id nd, (nd_kinds nd, nd_bag nd))) <$> nodes))
    (list_to_map (staged_edges (nd_id <$> nodes) edges)).

Lemma built_graph nodes edges L : built_layout nodes edges L →
  NoDup (staged_edges (nd_id <$> nodes) edges).*1 →
  NoDup (lo_edges L).*1 ∧ base_graph L = staged_graph nodes edges.
Proof.
  intros (Hi & Hk & Hb & He) Hnd. split; [by rewrite He|]. unfold base_graph, staged_graph. f_equal.
  - rewrite Hi, Hk, Hb. f_equal. clear. induction nodes as [|nd nodes IH]; csimpl; [done|]. by rewrite IH.
  - symmetry. by apply list_to_map_proper.
Qed.
