(* ===== verification/Unique.v ===== *)
(** * A view shows one graph

    The representation relations are functional: the arrays of a snapshot and
    the states of its segments leave no choice in the rows they stand for. So
    what a theorem says of some graph a view represents, it says of the graph. *)

From S2P Require Import Prelude Bitset Csr Kinds Props Snapshot Builder Segment View.
From stdpp Require Import options.
Unset Default Proof Using.
#[local] Open Scope N_scope.

(** ** Packed rows *)

Lemma offs_inj {A} (rows rows' : list (list A)) : offs rows = offs rows' → concat rows = concat rows' → rows = rows'.
Proof.
  intros Ho Hc. assert (length rows = length rows') as Hl.
  { pose proof (len_offs rows) as H1. rewrite Ho, len_offs in H1. unfold len in H1. lia. }
  assert (∀ k, (k ≤ length rows)%nat → len (concat (take k rows)) = len (concat (take k rows'))) as Hk.
  { intros k Hk. assert (offs rows !! k = offs rows' !! k) as E by by rewrite Ho. unfold offs in E. rewrite !list_lookup_fmap in E.
    rewrite !lookup_seq_lt in E by lia. simpl in E. by injection E. }
  clear Ho. revert rows' Hl Hk Hc. induction rows as [|r rows IH]; intros [|r' rows'] Hl Hk Hc; try done.
  assert (r = r' ∧ concat rows = concat rows') as [-> Hc'].
  { specialize (Hk 1%nat ltac:(simpl; lia)). simpl in Hk, Hc. rewrite !app_nil_r in Hk. apply app_inj_1; [unfold len in Hk; lia|done]. }
  f_equal. apply IH; [simpl in Hl; lia| |done]. intros k Hle. specialize (Hk (S k)). simpl in Hk. rewrite !len_app in Hk. lia.
Qed.

Lemma fmap_pair_inj {A B C D} (f : A → B) (g : A → C) (h : A → D) (l l' : list A) :
  (∀ x y, f x = f y → g x = g y → h x = h y → x = y) → f <$> l = f <$> l' → g <$> l = g <$> l' → h <$> l = h <$> l' → l = l'.
Proof.
  intros Hinj. revert l'. induction l as [|x l IH]; intros [|y l']; csimpl; try done. intros [= ? ?] [= ? ?] [= ? ?]. f_equal; auto.
Qed.

(** ** Rows of properties *)

Lemma row_ok_inj names arena es bs bs' : row_ok names arena es bs → row_ok names arena es bs' → bs = bs'.
Proof. intros [E _] [E' _]. congruence. Qed.

Lemma PropStore_rep_inj p rows bags rows' bags' : PropStore_rep p rows bags → PropStore_rep p rows' bags' → rows = rows' ∧ bags = bags'.
Proof.
  intros H H'. assert (rows = rows') as <-.
  { apply offs_inj; [by rewrite <- (psr_offsets _ _ _ H), <- (psr_offsets _ _ _ H')|by rewrite <- (psr_entries _ _ _ H), <- (psr_entries _ _ _ H')]. }
  split; [done|]. pose proof (psr_len _ _ _ H) as Hl. pose proof (psr_len _ _ _ H') as Hl'. apply (list_eq_same_length _ _ (length bags)); [unfold len in *; lia|done|].
  intros i bag bag' Hi Hb Hb'. assert (∃ es, rows !! i = Some es) as [es Hes] by (apply lookup_lt_is_Some; unfold len in *; lia).
  destruct (psr_rows _ _ _ H (N.of_nat i) es bag) as (bs & Hr & <-); [by unfold idx; rewrite Nat2N.id..|].
  destruct (psr_rows _ _ _ H' (N.of_nat i) es bag') as (bs' & Hr' & <-); [by unfold idx; rewrite Nat2N.id..|].
  by rewrite (row_ok_inj _ _ _ _ _ Hr Hr').
Qed.

Lemma node_state_inj st o o' : node_state_rep st o → node_state_rep st o' → o = o'.
Proof.
  destruct o as [[ks bag]|], o' as [[ks' bag']|]; simpl; [| | |done].
  - intros (_ & <- & _ & sg & bs & Es & _ & Hr & <-) (_ & <- & _ & sg' & bs' & Es' & _ & Hr' & <-). rewrite Es in Es'. injection Es' as <-.
    by rewrite (row_ok_inj _ _ _ _ _ Hr Hr').
  - intros (E & _) E'. congruence.
  - intros E (E' & _). congruence.
Qed.

Section unique.
Context `{GoStd}.

Lemma Segment_rep_inj s D D' : Segment_rep s D → Segment_rep s D' → D = D'.
Proof.
  intros H1 H2. destruct D as [n e k], D' as [n' e' k']. f_equal.
  - apply map_eq. intros id. pose proof (sr_nodes _ _ H1 id) as E. pose proof (sr_nodes _ _ H2 id) as E'. simpl in *.
    destruct (sg_nodeStates s !! id) as [st|]; inversion E as [x y Hx|]; inversion E' as [x' y' Hx'|]; [|done].
    f_equal. by eapply node_state_inj.
  - by rewrite (sr_edges _ _ H1 : e = _), (sr_edges _ _ H2 : e' = _).
  - by rewrite <- (sr_kinds _ _ H1 : _ = k), <- (sr_kinds _ _ H2 : _ = k').
Qed.

Lemma Snapshot_rep_inj s L L' : Snapshot_rep s L → Snapshot_rep s L' →
  lo_ids L = lo_ids L' ∧ lo_out L = lo_out L' ∧ lo_kinds L = lo_kinds L' ∧ lo_bags L = lo_bags L'.
Proof.
  intros [P D] [P' D']. split_and!.
  - by rewrite <- (pk_ids _ _ P), <- (pk_ids _ _ P').
  - apply offs_inj; [by rewrite <- (pk_out _ _ P), <- (pk_out _ _ P')|]. apply (fmap_pair_inj oe_dst oe_kind oe_id).
    + intros [[? ?] ?] [[? ?] ?]. unfold oe_dst, oe_kind, oe_id. simpl. congruence.
    + by rewrite <- (pk_targets _ _ P), <- (pk_targets _ _ P').
    + by rewrite <- (pk_kinds _ _ P), <- (pk_kinds _ _ P').
    + by rewrite <- (pk_eids _ _ P), <- (pk_eids _ _ P').
  - apply offs_inj; [by rewrite <- (pk_koff _ _ P), <- (pk_koff _ _ P')|by rewrite <- (pk_nkinds _ _ P), <- (pk_nkinds _ _ P')].
  - by eapply PropStore_rep_inj; apply dr_props.
Qed.

Lemma View_rep_inj v L Ds L' Ds' : View_rep v L Ds → View_rep v L' Ds' → Ds = Ds' ∧ lo_edges L = lo_edges L' ∧ view_graph L Ds = view_graph L' Ds'.
Proof.
  intros [B F _ _] [B' F' _ _]. destruct (Snapshot_rep_inj _ _ _ B B') as (Ei & Eo & Ek & Eb).
  assert (Ds = Ds') as <-.
  { revert Ds' F'. induction F as [|x D xs Ds Hx HF IH]; intros Ds' F'; inversion F' as [|? D' ? Ds2 Hx' HF']; subst; [done|].
    f_equal; [by eapply Segment_rep_inj|by apply IH]. }
  assert (lo_edges L = lo_edges L') as Ee by (unfold lo_edges, lo_slots; by rewrite Ei, Eo).
  split_and!; [done|done|]. unfold view_graph, base_graph. by rewrite Ei, Ek, Eb, Ee.
Qed.
End unique.
