(* ===== verification/ViewAdj.v ===== *)
(** * The edges of a view

    The rest of [internal/engine/snapshot/view.go]: the base's slots hidden by
    the delta, the delta's own adjacency, iteration over a node's edges, edge
    lookup, the rows that are still the base's ("clean") and the merged rows
    of the others. *)

From S2P Require Import Prelude Bitset Csr Kinds Props Snapshot Builder Segment View.
From stdpp Require Import options.
Unset Default Proof Using.

(** ** Definitions *)

(** [target NodeID, kind KindID, edgeID uint64]: a [deltaEdge], and what the
    iterators yield. *)
Abbreviation vedge := (NodeID * KindID * N)%type (only parsing).

(** A walk over one node's edges, as [OutEdges] and [InEdges] are. *)
Definition edge_iter (S : Type) : Type := (vedge → S → option (S * bool)) → S → option S.

Definition sourceOfSlot (s : Snapshot) (fwdIdx : N) : option NodeID :=
  i ← search (NodeCount s) (λ i, o ← idx (OutOffsets s) (i + 1); Some (fwdIdx <? o));
  Some (u32 i).

Record mergedAdjacency := mkMergedAdjacency {
  ma_row : list Z;
  ma_offsets : list N;
  ma_nodes : list NodeID;
  ma_kinds : list KindID;
}.

Definition mergedAdjacency_get (m : mergedAdjacency) (n : NodeID)
  : option (option (list NodeID * list KindID)) :=
  if len (ma_row m) <=? n then Some None
  else
    r ← idx (ma_row m) n;
    if (r <? 0)%Z then Some None
    else
      ns ← row (ma_offsets m) (ma_nodes m) (Z.to_N r) (Z.to_N r + 1);
      ks ← row (ma_offsets m) (ma_kinds m) (Z.to_N r) (Z.to_N r + 1);
      Some (Some (ns, ks)).

(** Appending the row of one node, walked by [walk]. *)
Definition ma_add (walk : NodeID → edge_iter (list NodeID * list KindID)) (m : mergedAdjacency)
    (n : NodeID) : option mergedAdjacency :=
  row' ← upd (ma_row m) n (i32 (Z.of_N (len (ma_offsets m)) - 1));
  '(ns, ks) ← walk n (λ x acc, Some ((fst acc ++ [x.1.1], snd acc ++ [x.1.2]), true))
                (ma_nodes m, ma_kinds m);
  Some (mkMergedAdjacency row' (ma_offsets m ++ [len ns]) ns ks).

Section adj.
Context `{GoStd}.

(** *** The hidden base slots *)

Definition edgeTombSlots (v : View) : option (option Bitset) :=
  match v_merged v with
  | None => Some None
  | Some m =>
      foldM (λ bits x,
        r ← Snapshot_EdgeByID (v_base v) (fst x);
        match r with
        | None => Some bits
        | Some slot => Some (bits_set (EdgeCount (v_base v)) bits (u32 slot))
        end) (seg_edges m) None
  end.

(** *** The delta's adjacency *)

(** The dense ends of an edge state, when both are live. *)
Definition live_ends (v : View) (st : EdgeSegState) : option (NodeID * NodeID) :=
  match View_Dense v (es_StartID st), View_Dense v (es_EndID st) with
  | Some s, Some e => if negb (Alive v s) || negb (Alive v e) then None else Some (s, e)
  | _, _ => None
  end.

Record deltaAdj := mkDeltaAdj {
  da_out : gmap NodeID (list vedge);
  da_in : gmap NodeID (list vedge);
  da_outBits : option Bitset;
  da_inBits : option Bitset;
}.

Definition deltaAdjacency (v : View) : deltaAdj :=
  match v_merged v with
  | None => mkDeltaAdj ∅ ∅ None None
  | Some m =>
      let n := View_NodeCount v in
      foldl (λ a '(id, st),
        if es_Tombstoned st then a
        else match live_ends v st with
        | None => a
        | Some (s, e) =>
            mkDeltaAdj
              (<[s := default [] (da_out a !! s) ++ [(e, es_Kind st, id)]]> (da_out a))
              (<[e := default [] (da_in a !! e) ++ [(s, es_Kind st, id)]]> (da_in a))
              (bits_set n (da_outBits a) s) (bits_set n (da_inBits a) e)
        end) (mkDeltaAdj ∅ ∅ None None) (seg_edges m)
  end.

(** *** Walking a node's edges *)

Definition OutEdges {S} (v : View) (n : NodeID) : edge_iter S := λ yield s,
  if negb (Alive v n) then Some s
  else
    '(s1, cont) ←
      (if n <? NodeCount (v_base v) then
         tomb ← edgeTombSlots v;
         let dead := deadBits v in
         lo ← idx (OutOffsets (v_base v)) n; hi ← idx (OutOffsets (v_base v)) (u32 (n + 1));
         iter_b (λ i s,
           if bits_has tomb (u32 i) then Some (s, true)
           else
             target ← idx (OutTargets (v_base v)) i;
             if bits_has dead target then Some (s, true)
             else
               k ← idx (OutKinds (v_base v)) i; e ← idx (OutEdgeIDs (v_base v)) i;
               yield (target, k, e) s) (range lo hi) s
       else Some (s, true));
    if negb cont then Some s1
    else
      let a := deltaAdjacency v in
      if negb (bits_has (da_outBits a) n) then Some s1
      else iter_until yield (default [] (da_out a !! n)) s1.

Definition InEdges {S} (v : View) (n : NodeID) : edge_iter S := λ yield s,
  if negb (Alive v n) then Some s
  else
    '(s1, cont) ←
      (if n <? NodeCount (v_base v) then
         tomb ← edgeTombSlots v;
         let dead := deadBits v in
         lo ← idx (InOffsets (v_base v)) n; hi ← idx (InOffsets (v_base v)) (u32 (n + 1));
         iter_b (λ i s,
           fwdIdx ← idx (InEdgeIdx (v_base v)) i;
           if bits_has tomb fwdIdx then Some (s, true)
           else
             source ← idx (InTargets (v_base v)) i;
             if bits_has dead source then Some (s, true)
             else
               k ← idx (InKinds (v_base v)) i; e ← idx (OutEdgeIDs (v_base v)) fwdIdx;
               yield (source, k, e) s) (range lo hi) s
       else Some (s, true));
    if negb cont then Some s1
    else
      let a := deltaAdjacency v in
      if negb (bits_has (da_inBits a) n) then Some s1
      else iter_until yield (default [] (da_in a !! n)) s1.

(** *** Edges by id *)

Definition View_EdgeByID (v : View) (id : N) : option (option N) :=
  if Overlay v && match v_merged v with
                  | Some m => bool_decide (is_Some (EdgeState m id)) | None => false end
  then Some None else Snapshot_EdgeByID (v_base v) id.

Definition base_edge_state (v : View) (id : N) : option (option (NodeID * NodeID * KindID)) :=
  r ← Snapshot_EdgeByID (v_base v) id;
  match r with
  | None => Some None
  | Some fwdIdx =>
      target ← idx (OutTargets (v_base v)) fwdIdx;
      src ← sourceOfSlot (v_base v) fwdIdx;
      if negb (Alive v src) || negb (Alive v target) then Some None
      else k ← idx (OutKinds (v_base v)) fwdIdx; Some (Some (src, target, k))
  end.
Definition EdgeStateByID (v : View) (id : N) : option (option (NodeID * NodeID * KindID)) :=
  match (if Overlay v then v_merged v else None) with
  | Some m =>
      match EdgeState m id with
      | Some st =>
          if es_Tombstoned st then Some None
          else match live_ends v st with
               | None => Some None
               | Some (s, e) => Some (Some (s, e, es_Kind st))
               end
      | None => base_edge_state v id
      end
  | None => base_edge_state v id
  end.

(** [EdgeCount] and [NodeCount] of the merged segment first. *)
Definition DeltaHoldsOnlyUnresolvableEdges (v : View) : bool :=
  if negb (Overlay v) then false
  else match v_merged v with
  | None => false
  | Some m =>
      if negb (Segment_NodeCount m =? 0) || (Segment_EdgeCount m =? 0) then false
      else forallb (λ '(_, st), negb (es_Tombstoned st) &&
                     match live_ends v st with Some _ => false | None => true end) (seg_edges m)
  end.

(** *** Clean and merged rows *)

(** The rows to mark for one dead node: its own, and its neighbours'. *)
Definition dirty_dead (v : View) (st : Bitset * Bitset) (d : NodeID) : option (Bitset * Bitset) :=
  let '(out, in_) := st in
  if NodeCount (v_base v) <=? d then Some st
  else
    srcs ← row (InOffsets (v_base v)) (InTargets (v_base v)) d (u32 (d + 1));
    tgts ← row (OutOffsets (v_base v)) (OutTargets (v_base v)) d (u32 (d + 1));
    Some (foldl Bitset_Set (Bitset_Set out d) srcs, foldl Bitset_Set (Bitset_Set in_ d) tgts).
Definition dirty_slot (v : View) (st : Bitset * Bitset) (slot : NodeID) : option (Bitset * Bitset) :=
  let '(out, in_) := st in
  src ← sourceOfSlot (v_base v) slot;
  tgt ← idx (OutTargets (v_base v)) slot;
  Some (Bitset_Set out src, Bitset_Set in_ tgt).

Definition iterate_opt {S} (b : option Bitset) (f : S → NodeID → option S) (s : S) : option S :=
  match b with
  | None => Some s
  | Some b => Bitset_Iterate b (λ x s, s' ← f s x; Some (s', true)) s
  end.

(** [None] in the inner option: the fields stay nil. *)
Definition dirtyAdjacency (v : View) : option (option (Bitset * Bitset)) :=
  match v_merged v with
  | None => Some None
  | Some m =>
      let n := NodeCount (v_base v) in
      st1 ← iterate_opt (deadBits v) (dirty_dead v) (NewBitset n, NewBitset n);
      tomb ← edgeTombSlots v;
      st2 ← iterate_opt tomb (dirty_slot v) st1;
      let a := deltaAdjacency v in
      out ← iterate_opt (da_outBits a) (λ b x, Some (Bitset_Set b x)) (fst st2);
      in_ ← iterate_opt (da_inBits a) (λ b x, Some (Bitset_Set b x)) (snd st2);
      Some (Some (out, in_))
  end.

Definition CleanOut (v : View) (n : NodeID) : option (option (list NodeID * list KindID)) :=
  if NodeCount (v_base v) <=? n then Some None
  else
    d ← (if Overlay v then dirtyAdjacency v else Some None);
    if bits_has (fst <$> d) n then Some None
    else r ← Snapshot_Out (v_base v) n; Some (Some r).
Definition CleanIn (v : View) (n : NodeID) : option (option (list NodeID * list KindID)) :=
  if NodeCount (v_base v) <=? n then Some None
  else
    d ← (if Overlay v then dirtyAdjacency v else Some None);
    if bits_has (snd <$> d) n then Some None
    else r ← Snapshot_In (v_base v) n; Some (Some r).

(** The base rows that are not clean, then every added node. *)
Definition build_merged (v : View) (dirty : option Bitset)
    (walk : NodeID → edge_iter (list NodeID * list KindID)) : option mergedAdjacency :=
  let total := View_NodeCount v in
  let baseN := NodeCount (v_base v) in
  let m0 := mkMergedAdjacency (mk total (-1)%Z) [0] [] [] in
  m1 ← iterate_opt dirty (λ m n, if n <? baseN then ma_add walk m n else Some m) m0;
  foldM (λ m n, ma_add walk m (u32 n)) (range baseN total) m1.

Definition mergedOut (v : View) : option mergedAdjacency :=
  d ← dirtyAdjacency v; build_merged v (fst <$> d) (OutEdges v).
Definition mergedIn (v : View) : option mergedAdjacency :=
  d ← dirtyAdjacency v; build_merged v (snd <$> d) (InEdges v).

Definition OutSlices (v : View) (n : NodeID) : option (option (list NodeID * list KindID)) :=
  c ← CleanOut v n;
  match c with
  | Some r => Some (Some r)
  | None =>
      if View_NodeCount v <=? n then Some None
      else m ← mergedOut v; mergedAdjacency_get m n
  end.
Definition InSlices (v : View) (n : NodeID) : option (option (list NodeID * list KindID)) :=
  c ← CleanIn v n;
  match c with
  | Some r => Some (Some r)
  | None =>
      if View_NodeCount v <=? n then Some None
      else m ← mergedIn v; mergedAdjacency_get m n
  end.

Definition DegreeHint (v : View) (n : NodeID) (outgoing : bool) : option N :=
  if NodeCount (v_base v) <=? n then Some 0
  else
    let offsets := if outgoing then OutOffsets (v_base v) else InOffsets (v_base v) in
    hi ← idx offsets (u32 (n + 1)); lo ← idx offsets n; Some (hi - lo).

Definition CleanOutSlots (v : View) (n : NodeID) : option (option (N * N)) :=
  if NodeCount (v_base v) <=? n then Some None
  else
    d ← (if Overlay v then dirtyAdjacency v else Some None);
    if bits_has (fst <$> d) n then Some None
    else lo ← idx (OutOffsets (v_base v)) n; hi ← idx (OutOffsets (v_base v)) (u32 (n + 1));
         Some (Some (lo, hi)).
Definition CleanInSlots (v : View) (n : NodeID) : option (option (N * N)) :=
  if NodeCount (v_base v) <=? n then Some None
  else
    d ← (if Overlay v then dirtyAdjacency v else Some None);
    if bits_has (snd <$> d) n then Some None
    else lo ← idx (InOffsets (v_base v)) n; hi ← idx (InOffsets (v_base v)) (u32 (n + 1));
         Some (Some (lo, hi)).
End adj.

(** ** The slots of a represented base *)

Section base_edges.
Context (s : Snapshot) (L : layout) (HB : Snapshot_rep s L).
Hypothesis Hids : NoDup (lo_edges L).*1.
Let HP := rep_packed _ _ HB.

Lemma lo_edges_ids : (lo_edges L).*1 = oe_id <$> concat (lo_out L).
Proof.
  unfold lo_edges. rewrite <- list_fmap_compose. symmetry.
  apply fmap_by_idx; [by rewrite len_fmap; unfold lo_slots; rewrite len_slots|].
  intros p [[i j] e] Hp. apply idx_slots in Hp as (_ & He & _). rewrite idx_fmap, He. done.
Qed.

Lemma slot_unique p q e e' : idx (concat (lo_out L)) p = Some e → idx (concat (lo_out L)) q = Some e' →
  oe_id e = oe_id e' → p = q.
Proof.
  intros Hp Hq E. rewrite lo_edges_ids in Hids.
  assert (idx (oe_id <$> concat (lo_out L)) p = Some (oe_id e)) as H1 by (by rewrite idx_fmap, Hp).
  assert (idx (oe_id <$> concat (lo_out L)) q = Some (oe_id e)) as H2 by (by rewrite idx_fmap, Hq, E).
  pose proof (NoDup_lookup _ _ _ _ Hids H1 H2). lia.
Qed.

Lemma EdgeByID_slot id p e : idx (concat (lo_out L)) p = Some e → oe_id e = id →
  Snapshot_EdgeByID s id = Some (Some p).
Proof.
  intros Hp Hid. destruct (EdgeByID_spec _ _ HB id) as (r & -> & Hr). destruct r as [q|].
  - destruct Hr as (e' & Hq & Hid'). do 2 f_equal. eapply slot_unique; eauto. congruence.
  - exfalso. eapply Hr; [by eapply idx_elem_of|done].
Qed.

(** An edge of the base graph is a slot. *)
Lemma base_edge id x : g_edges (base_graph L) !! id = Some x ↔
  ∃ i j e, (i, j, e) ∈ lo_slots L ∧ slot_edge (lo_ids L) (i, j, e) = (id, x).
Proof.
  simpl. rewrite <- elem_of_list_to_map by done. unfold lo_edges. rewrite list_elem_of_fmap. split.
  - intros ([[i j] e] & E & Hin). eauto.
  - intros (i & j & e & Hin & E). eauto.
Qed.

Lemma slot_facts i j e : (i, j, e) ∈ lo_slots L → ∃ r k a b,
  idx (lo_out L) i = Some r ∧ idx r k = Some e ∧ j = len (concat (take (N.to_nat i) (lo_out L))) + k ∧
  idx (concat (lo_out L)) j = Some e ∧ idx (lo_ids L) i = Some a ∧
  idx (lo_ids L) (oe_dst e) = Some b ∧ slot_edge (lo_ids L) (i, j, e) = (oe_id e, (a, b, oe_kind e)).
Proof.
  intros [p Hp]%elem_of_idx. destruct (idx_slots _ _ _ _ _ Hp) as (-> & He & r & k & Hr & Hk & Hj).
  destruct (idx_is_Some (lo_ids L) i) as [a Ha].
  { rewrite <- (pk_out_len _ _ HP). by eapply idx_lt. }
  destruct (idx_is_Some (lo_ids L) (oe_dst e)) as [b Hb].
  { apply (pk_dst _ _ HP). by eapply idx_elem_of. }
  exists r, k, a, b. split_and!; try done. unfold slot_edge. simpl. by rewrite Ha, Hb.
Qed.

Lemma row_slot i r k e : idx (lo_out L) i = Some r → idx r k = Some e →
  (i, len (concat (take (N.to_nat i) (lo_out L))) + k, e) ∈ lo_slots L.
Proof. intros Hr Hk. eapply idx_elem_of. by eapply slot_of_row. Qed.

Lemma slot_source p e : idx (concat (lo_out L)) p = Some e →
  ∃ i, sourceOfSlot s p = Some i ∧ (i, p, e) ∈ lo_slots L.
Proof.
  intros Hp. destruct (slots_idx _ _ _ Hp) as [i Hi]. exists i. split; [|by eapply idx_elem_of].
  destruct (idx_slots _ _ _ _ _ Hi) as (_ & _ & r & k & Hr & Hk & Hj).
  pose proof (idx_lt _ _ _ Hr) as Hil. pose proof (idx_lt _ _ _ Hk) as Hkl.
  unfold sourceOfSlot. rewrite (rep_NodeCount _ _ HB), <- (pk_out_len _ _ HP), (pk_out _ _ HP).
  set (end_ i := len (concat (take (N.to_nat (i + 1)) (lo_out L)))).
  assert (∀ a b, a ≤ b → len (concat (take (N.to_nat a) (lo_out L))) ≤
    len (concat (take (N.to_nat b) (lo_out L)))) as Hmono.
  { intros a b Hab. replace (N.to_nat b) with (N.to_nat a + N.to_nat (b - a))%nat by lia.
    rewrite <- (take_take_drop (lo_out L)), concat_app, len_app. lia. }
  assert (end_ i = len (concat (take (N.to_nat i) (lo_out L))) + len r) as Hend.
  { unfold end_. rewrite (take_S_idx _ _ _ Hr), concat_app, len_app. simpl. by rewrite app_nil_r. }
  destruct (search_spec (len (lo_out L)) (λ i, o ← idx (offs (lo_out L)) (i + 1); Some (p <? o))
    (λ i, p <? end_ i)) as (q & -> & Hq & Hlo & Hhi).
  - intros a Ha. rewrite idx_offs by lia. done.
  - intros a b Hab _. rewrite !N.ltb_lt. unfold end_. pose proof (Hmono (a + 1) (b + 1)). lia.
  - simpl. assert (q = i) as ->.
    { destruct (decide (q < i)) as [Hlt|].
      - specialize (Hhi q (N.le_refl _) ltac:(lia)). apply N.ltb_lt in Hhi.
        pose proof (Hmono (q + 1) i ltac:(lia)). unfold end_ in Hhi. lia.
      - destruct (decide (i < q)) as [Hlt|]; [|lia]. specialize (Hlo i Hlt).
        apply N.ltb_ge in Hlo. lia. }
    rewrite u32_small; [done|]. pose proof (pk_n _ _ HP). rewrite <- (pk_out_len _ _ HP) in *. lia.
Qed.
End base_edges.

(** ** Hidden slots and live ends *)

Section edges.
Context `{GoStd}.
Context (v : View) (L : layout) (Ds : list delta) (HR : View_rep v L Ds).
Let D := delta_all Ds.
Let G := view_graph L Ds.
Let HB := vr_base _ _ _ HR.
Let HP := rep_packed _ _ HB.
Let Hids := vr_edge_ids _ _ _ HR.

Lemma seg_edges_elem m id st : Segment_rep m D → (id, st) ∈ seg_edges m ↔
  sg_edgeStates m !! id = Some st.
Proof.
  intros Hm. unfold seg_edges. rewrite list_elem_of_fmap. split.
  - intros (id' & [= <- ->] & [st' Hst]%(sr_eids _ _ Hm)). by rewrite Hst.
  - intros Hst. exists id. rewrite Hst. split; [done|]. apply (sr_eids _ _ Hm). eauto.
Qed.

Lemma seg_edges_delta m id st : Segment_rep m D → sg_edgeStates m !! id = Some st →
  d_edges D !! id = Some (edge_abs st).
Proof. intros Hm Hst. by rewrite (sr_edges _ _ Hm), lookup_fmap, Hst. Qed.

Lemma edgeTombSlots_spec : ∃ tomb, edgeTombSlots v = Some tomb ∧
  match tomb with Some b => Bitset_wf (len (concat (lo_out L))) b | None => True end ∧
  ∀ p, bits_has tomb p = true ↔
    ∃ e, idx (concat (lo_out L)) p = Some e ∧ is_Some (d_edges D !! oe_id e).
Proof.
  unfold edgeTombSlots. destruct (merged_cases v L Ds HR) as [(-> & E & _)|(m & -> & Hm & _)].
  { exists None. split_and!; [done..|]. intros p. simpl. split; [done|].
    intros (e & _ & [? Hx]). unfold D in Hx. rewrite E in Hx. simpl in Hx. by rewrite lookup_empty in Hx. }
  set (f (x : N * EdgeSegState) := default None (Snapshot_EdgeByID (v_base v) (fst x))).
  assert (∀ x, Snapshot_EdgeByID (v_base v) (fst x) = Some (f x) ∧
    match f x with Some p => ∃ e, idx (concat (lo_out L)) p = Some e ∧ oe_id e = fst x
    | None => ∀ e, e ∈ concat (lo_out L) → oe_id e ≠ fst x end) as Hf.
  { intros x. unfold f. destruct (EdgeByID_spec _ _ HB (fst x)) as (r & -> & Hr). done. }
  rewrite (foldM_ext _ (λ bits x, Some (match f x with None => bits
    | Some slot => bits_set (EdgeCount (v_base v)) bits slot end))).
  2: { intros bits x _. destruct (Hf x) as [-> Hx]. simpl. destruct (f x) as [p|]; [|done].
       destruct Hx as (e & Hp & _). rewrite u32_small; [done|].
       apply idx_lt in Hp. pose proof (pk_e _ _ HP). lia. }
  rewrite foldM_pure. eexists. split; [done|]. rewrite (rep_EdgeCount _ _ HB).
  destruct (bits_fold_spec f (len (concat (lo_out L))) (seg_edges m)) as [Hwf Hhas].
  - apply (pk_e _ _ HP).
  - intros x p _ Ex. destruct (Hf x) as [_ Hx]. rewrite Ex in Hx. destruct Hx as (e & Hp & _). by eapply idx_lt.
  - split; [done|]. intros p. rewrite Hhas. split.
    + intros ([id st] & Hin%(seg_edges_elem m id st Hm) & Ex). destruct (Hf (id, st)) as [_ Hx].
      rewrite Ex in Hx. simpl in Hx. destruct Hx as (e & Hp & <-). exists e. split; [done|].
      rewrite (seg_edges_delta m _ _ Hm Hin). eauto.
    + intros (e & Hp & [o Ho]). fold D in Hm. rewrite (sr_edges _ _ Hm), lookup_fmap in Ho.
      destruct (sg_edgeStates m !! oe_id e) as [st|] eqn:Est; [|done].
      exists (oe_id e, st). split; [by apply seg_edges_elem|]. destruct (Hf (oe_id e, st)) as [Hx _].
      simpl in Hx. rewrite (EdgeByID_slot _ _ HB Hids _ _ _ Hp eq_refl) in Hx. congruence.
Qed.

Lemma dead_iff n id : idx (view_ids v) n = Some id →
  bits_has (deadBits v) n = negb (bool_decide (is_Some (g_nodes G !! id))).
Proof.
  intros Hn. pose proof (deadBits_spec v L Ds HR _ _ Hn) as Hd. unfold G. rewrite graph_nodes.
  destruct (d_nodes (delta_all Ds) !! id) as [[st|]|] eqn:Eo.
  - rewrite bool_decide_true by eauto. destruct (bits_has _ n); [|done]. by destruct Hd as [Hd _]; discriminate Hd.
  - rewrite bool_decide_false by (by intros [? ?]). by apply Hd.
  - rewrite bool_decide_true.
    + destruct (bits_has _ n); [|done]. by destruct Hd as [Hd _]; discriminate Hd.
    + destruct (view_ids_elem v L Ds HR _ _ Hn) as [[Hi _]|(_ & _ & (st & Hst) & _)]; [|congruence].
      destruct (base_node v L Ds HR _ _ Hi) as (ks & bag & _ & _ & ->). eauto.
Qed.

Lemma graph_edges id : g_edges G !! id =
  match d_edges D !! id with Some o => o | None => g_edges (base_graph L) !! id end.
Proof. unfold G. rewrite view_graph_all. simpl. apply over_lookup. Qed.

Lemma visible_iff id a b k : visible G !! id = Some (a, b, k) ↔
  g_edges G !! id = Some (a, b, k) ∧ is_Some (g_nodes G !! a) ∧ is_Some (g_nodes G !! b).
Proof. unfold visible. by rewrite map_lookup_filter_Some. Qed.

(** Both ends of a delta edge are live nodes of the graph. *)
Lemma live_ends_spec st s e : live_ends v st = Some (s, e) ↔
  idx (view_ids v) s = Some (es_StartID st) ∧ idx (view_ids v) e = Some (es_EndID st) ∧
  is_Some (g_nodes G !! es_StartID st) ∧ is_Some (g_nodes G !! es_EndID st).
Proof.
  unfold live_ends. rewrite !(View_Dense_eq v L Ds HR).
  assert (∀ n id, idx (view_ids v) n = Some id → Alive v n = true ↔ is_Some (g_nodes G !! id)) as Ha.
  { intros n id Hn. rewrite (alive_iff v L Ds HR). split; [|eauto].
    intros (id' & Hn' & ?). by simplify_eq. }
  split.
  - destruct (denseOf v (es_StartID st)) as [s'|] eqn:Es; [|done].
    destruct (denseOf v (es_EndID st)) as [e'|] eqn:Ee; [|done].
    apply (denseOf_spec v L Ds HR) in Es, Ee.
    destruct (Alive v s') eqn:As; [|done]. destruct (Alive v e') eqn:Ae; [|done]. intros [= <- <-].
    split_and!; [done..| |]; by eapply Ha.
  - intros (Hs & He & As & Ae). apply (Ha _ _ Hs) in As. apply (Ha _ _ He) in Ae.
    apply (denseOf_spec v L Ds HR) in Hs as ->, He as ->. by rewrite As, Ae.
Qed.

(** ** The delta's own adjacency *)

Definition delta_out_of (n : NodeID) (x : N * EdgeSegState) : option vedge :=
  if es_Tombstoned (snd x) then None
  else match live_ends v (snd x) with
       | Some (s, e) => if s =? n then Some (e, es_Kind (snd x), fst x) else None
       | None => None
       end.
Definition delta_in_of (n : NodeID) (x : N * EdgeSegState) : option vedge :=
  if es_Tombstoned (snd x) then None
  else match live_ends v (snd x) with
       | Some (s, e) => if e =? n then Some (s, es_Kind (snd x), fst x) else None
       | None => None
       end.

(** [b] marks the nodes below the count whose list in [m] is not empty. *)
Definition marks (m : gmap NodeID (list vedge)) (b : option Bitset) : Prop :=
  match b with Some b => Bitset_wf (View_NodeCount v) b | None => True end ∧
  ∀ n, bits_has b n = true ↔ default [] (m !! n) ≠ [].

Lemma marks_insert m b n x : n < View_NodeCount v → marks m b →
  marks (<[n := default [] (m !! n) ++ [x]]> m) (bits_set (View_NodeCount v) b n).
Proof.
  intros Hn [Hwf Hb]. pose proof (vr_count _ _ _ HR) as Hc.
  set (b0 := match b with Some b => b | None => NewBitset (View_NodeCount v) end).
  assert (Bitset_wf (View_NodeCount v) b0 ∧ ∀ i, Bitset_Has b0 i = bits_has b i) as [Hwf0 Hh0].
  { unfold b0. destruct b; [done|]. split; [by apply NewBitset_wf|]. intros i. by apply NewBitset_Has. }
  unfold bits_set. fold b0. split; [by apply Set_wf|]. intros i. simpl.
  rewrite (Set_Has (View_NodeCount v)), Hh0, orb_true_iff, N.eqb_eq, Hb, lookup_insert by done.
  case_decide as E; [|naive_solver]. subst. simpl. split; [|naive_solver].
  intros _ Hnil. by apply app_eq_nil in Hnil as [_ ?].
Qed.

Lemma deltaAdjacency_fold l : ∃ a,
  foldl (λ a '(id, st),
    if es_Tombstoned st then a
    else match live_ends v st with
    | None => a
    | Some (s, e) =>
        mkDeltaAdj
          (<[s := default [] (da_out a !! s) ++ [(e, es_Kind st, id)]]> (da_out a))
          (<[e := default [] (da_in a !! e) ++ [(s, es_Kind st, id)]]> (da_in a))
          (bits_set (View_NodeCount v) (da_outBits a) s) (bits_set (View_NodeCount v) (da_inBits a) e)
    end) (mkDeltaAdj ∅ ∅ None None) l = a ∧
  marks (da_out a) (da_outBits a) ∧ marks (da_in a) (da_inBits a) ∧
  (∀ n, default [] (da_out a !! n) = omap (delta_out_of n) l) ∧
  (∀ n, default [] (da_in a !! n) = omap (delta_in_of n) l).
Proof.
  induction l as [|[id st] l (a & IH & Ho & Hi & Hol & Hil)] using rev_ind.
  { eexists. split; [done|]. unfold marks. simpl. setoid_rewrite lookup_empty. done. }
  setoid_rewrite foldl_app. rewrite IH. cbn [foldl]. eexists. split; [done|].
  setoid_rewrite omap_app. cbn [omap list_omap]. unfold delta_out_of at 2, delta_in_of at 2. simpl.
  destruct (es_Tombstoned st).
  { split_and!; [done..| |]; intros n; by rewrite app_nil_r. }
  destruct (live_ends v st) as [[s e]|] eqn:El.
  2: { split_and!; [done..| |]; intros n; by rewrite app_nil_r. }
  apply live_ends_spec in El as (Hs & He & _). apply (dense_lt v) in Hs, He. simpl.
  split_and!; [by apply marks_insert..| |]; intros n; rewrite lookup_insert, <- ?Hol, <- ?Hil.
  - destruct (N.eqb_spec s n), (decide (s = n)); subst; simpl; rewrite ?app_nil_r; done.
  - destruct (N.eqb_spec e n), (decide (e = n)); subst; simpl; rewrite ?app_nil_r; done.
Qed.

Lemma delta_out_iff n id id' st t k e : idx (view_ids v) n = Some id →
  delta_out_of n (id', st) = Some (t, k, e) ↔ e = id' ∧ ∃ tid, idx (view_ids v) t = Some tid ∧
    edge_abs st = Some (id, tid, k) ∧ is_Some (g_nodes G !! id) ∧ is_Some (g_nodes G !! tid).
Proof.
  intros Hn. unfold delta_out_of, edge_abs. simpl. split.
  - destruct (es_Tombstoned st); [done|]. destruct (live_ends v st) as [[s0 e0]|] eqn:El; [|done].
    apply live_ends_spec in El as (Hs & He & As & Ae). destruct (N.eqb_spec s0 n) as [->|]; [|done].
    intros [= <- <- <-]. split; [done|]. exists (es_EndID st).
    assert (id = es_StartID st) as -> by congruence. done.
  - destruct (es_Tombstoned st); [by intros (_ & ? & _ & ? & _)|].
    intros (-> & tid & Ht & [= <- <- <-] & A1 & A2).
    assert (live_ends v st = Some (n, t)) as -> by by apply live_ends_spec. by rewrite N.eqb_refl.
Qed.
Lemma delta_in_iff n id id' st t k e : idx (view_ids v) n = Some id →
  delta_in_of n (id', st) = Some (t, k, e) ↔ e = id' ∧ ∃ tid, idx (view_ids v) t = Some tid ∧
    edge_abs st = Some (tid, id, k) ∧ is_Some (g_nodes G !! id) ∧ is_Some (g_nodes G !! tid).
Proof.
  intros Hn. unfold delta_in_of, edge_abs. simpl. split.
  - destruct (es_Tombstoned st); [done|]. destruct (live_ends v st) as [[s0 e0]|] eqn:El; [|done].
    apply live_ends_spec in El as (Hs & He & As & Ae). destruct (N.eqb_spec e0 n) as [->|]; [|done].
    intros [= <- <- <-]. split; [done|]. exists (es_StartID st).
    assert (id = es_EndID st) as -> by congruence. done.
  - destruct (es_Tombstoned st); [by intros (_ & ? & _ & ? & _)|].
    intros (-> & tid & Ht & [= <- <- <-] & A1 & A2).
    assert (live_ends v st = Some (t, n)) as -> by by apply live_ends_spec. by rewrite N.eqb_refl.
Qed.

(** The edges of the delta at a node, each with a live other end. *)
Lemma delta_part (out : bool) n id : idx (view_ids v) n = Some id → ∃ l : list vedge,
  (let a := deltaAdjacency v in
   (if bits_has (if out then da_outBits a else da_inBits a) n
    then default [] ((if out then da_out a else da_in a) !! n) else []) = l) ∧ NoDup l ∧
  ∀ t k e, (t, k, e) ∈ l ↔ ∃ tid, idx (view_ids v) t = Some tid ∧
    d_edges D !! e = Some (Some (if out then (id, tid, k) else (tid, id, k))) ∧
    is_Some (g_nodes G !! id) ∧ is_Some (g_nodes G !! tid).
Proof.
  intros Hn. eexists. split; [done|]. unfold deltaAdjacency.
  destruct (merged_cases v L Ds HR) as [(-> & E & _)|(m & -> & Hm & _)].
  { replace (bits_has _ n) with false by by destruct out. split; [constructor|].
    intros t k e. rewrite elem_of_nil. split; [done|]. intros (tid & _ & Hd & _). unfold D in Hd.
    rewrite E in Hd. simpl in Hd. by rewrite lookup_empty in Hd. }
  fold D in Hm.
  destruct (deltaAdjacency_fold (seg_edges m)) as (a & Ha & [_ Ho] & [_ Hi] & Hol & Hil).
  cbv zeta. rewrite Ha.
  assert ((if bits_has (if out then da_outBits a else da_inBits a) n
    then default [] ((if out then da_out a else da_in a) !! n) else []) =
    omap (if out then delta_out_of n else delta_in_of n) (seg_edges m)) as ->.
  { destruct out; rewrite <- ?Hol, <- ?Hil.
    - destruct (bits_has (da_outBits a) n) eqn:Eb; [done|]. specialize (Ho n). rewrite Eb in Ho.
      destruct (default [] (da_out a !! n)); [done|]. by destruct Ho as [_ Ho]; discriminate Ho.
    - destruct (bits_has (da_inBits a) n) eqn:Eb; [done|]. specialize (Hi n). rewrite Eb in Hi.
      destruct (default [] (da_in a !! n)); [done|]. by destruct Hi as [_ Hi]; discriminate Hi. }
  assert (∀ id' st t k e, (if out then delta_out_of n else delta_in_of n) (id', st) = Some (t, k, e) ↔
    e = id' ∧ ∃ tid, idx (view_ids v) t = Some tid ∧
      edge_abs st = Some (if out then (id, tid, k) else (tid, id, k)) ∧
      is_Some (g_nodes G !! id) ∧ is_Some (g_nodes G !! tid)) as Hkeep.
  { intros id' st t k e. destruct out; [by apply delta_out_iff|by apply delta_in_iff]. }
  split.
  - apply NoDup_omap_inj.
    + unfold seg_edges. apply NoDup_fmap_2; [by intros ?? [= ->]|]. apply sorted_lt_NoDup, (sr_esorted _ _ Hm).
    + intros [i1 s1] [i2 s2] [[t k] e] H1 H2 E1 E2. apply Hkeep in E1 as [-> _], E2 as [E2 _]. subst i2.
      apply (seg_edges_elem m _ _ Hm) in H1, H2. congruence.
  - intros t k e. rewrite list_elem_of_omap. split.
    + intros ([id' st] & Hin & (-> & tid & ? & Hab & ?)%Hkeep). exists tid. split; [done|].
      apply (seg_edges_elem m _ _ Hm) in Hin. by rewrite (seg_edges_delta m _ _ Hm Hin), Hab.
    + intros (tid & Ht & Hd & A1 & A2). rewrite (sr_edges _ _ Hm), lookup_fmap in Hd.
      destruct (sg_edgeStates m !! e) as [st|] eqn:Est; [|done]. simpl in Hd. injection Hd as Hd.
      exists (e, st). split; [by apply seg_edges_elem|]. apply Hkeep. split; [done|]. by exists tid.
Qed.

(** ** Walking the base's rows *)

(** What a walk over a row yields: the base edges the delta leaves alone,
    with the other end live. *)
Definition base_walk_rep (out : bool) (id : N) (l : list vedge) : Prop := NoDup l ∧
  ∀ t k e, (t, k, e) ∈ l ↔ d_edges D !! e = None ∧ ∃ tid, idx (view_ids v) t = Some tid ∧
    g_edges (base_graph L) !! e = Some (if out then (id, tid, k) else (tid, id, k)) ∧
    is_Some (g_nodes G !! tid).

Lemma out_base tomb n id r : edgeTombSlots v = Some tomb →
  idx (lo_ids L) n = Some id → idx (lo_out L) n = Some r →
  let lo := len (concat (take (N.to_nat n) (lo_out L))) in
  let keep (ix : N * oedge) :=
    if bits_has tomb (fst ix) || bits_has (deadBits v) (oe_dst (snd ix)) then None else Some (snd ix) in
  base_walk_rep true id (omap keep (zip (range lo (lo + len r)) r)).
Proof.
  intros Htomb Hid Hr lo keep. destruct edgeTombSlots_spec as (tomb' & E & _ & Ht).
  rewrite Htomb in E. injection E as <-.
  assert (∀ k e, idx r k = Some e → (n, lo + k, e) ∈ lo_slots L) as Hslot by (intros; by eapply row_slot).
  assert (∀ k e, idx r k = Some e → ∃ b, idx (lo_ids L) (oe_dst e) = Some b ∧
    g_edges (base_graph L) !! oe_id e = Some (id, b, oe_kind e) ∧
    idx (concat (lo_out L)) (lo + k) = Some e ∧
    (keep (lo + k, e) = Some e ↔ d_edges D !! oe_id e = None ∧ is_Some (g_nodes G !! b))) as Hfacts.
  { intros k e Hk. destruct (slot_facts _ _ HB _ _ _ (Hslot _ _ Hk)) as (r' & k' & a & b & _ & _ & _ & Hc & Ha & Hb & Hse).
    exists b. split_and!; [done| |done|].
    - apply (base_edge L Hids). exists n, (lo + k), e. rewrite Hse. split; [by apply Hslot|]. congruence.
    - unfold keep. simpl. rewrite (dead_iff _ b) by (by apply (base_idx v L Ds HR)).
      destruct (bits_has tomb (lo + k)) eqn:Eb; simpl.
      + apply Ht in Eb as (e' & He' & [o Ho]). split; [done|]. intros [Hn _]. congruence.
      + assert (d_edges D !! oe_id e = None) as Hn.
        { destruct (d_edges D !! oe_id e) eqn:Ed; [|done]. enough (false = true) by done.
          rewrite <- Eb. apply Ht. eauto. }
        destruct (bool_decide_reflect (is_Some (g_nodes G !! b))); simpl; naive_solver. }
  assert (∀ ix z, keep ix = Some z → z = snd ix ∧ keep ix = Some (snd ix)) as Hkeep.
  { intros ix z. unfold keep. destruct (_ || _); naive_solver. }
  split.
  - apply NoDup_omap_inj; [apply NoDup_zip_l, NoDup_range|].
    intros [i x] [j y] z Hx Hy [Ex _]%Hkeep [Ey _]%Hkeep. simpl in *. subst.
    apply elem_of_zip_range in Hx as (k & Hk & ->), Hy as (k' & Hk' & ->).
    destruct (Hfacts _ _ Hk) as (_ & _ & _ & Hc & _). destruct (Hfacts _ _ Hk') as (_ & _ & _ & Hc' & _).
    f_equal. by eapply slot_unique.
  - intros t k e. rewrite list_elem_of_omap. split.
    + intros ([i x] & Hin & [Ez Hk]%Hkeep). simpl in *. subst x. apply elem_of_zip_range in Hin as (q & Hq & ->).
      destruct (Hfacts _ _ Hq) as (b & Hb & Hg & _ & Hiff). destruct (proj1 Hiff Hk) as [Hd Hl].
      split; [done|]. exists b. split_and!; [|done..]. by apply (base_idx v L Ds HR).
    + intros (Hd & tid & Htid & Hg & Hl).
      apply (base_edge L Hids) in Hg as (i & j & x & Hin & Hse).
      destruct (slot_facts _ _ HB _ _ _ Hin) as (r' & k' & a & b & Hr' & Hk' & -> & Hc & Ha & Hb & Hse').
      rewrite Hse' in Hse. injection Hse as <- -> -> <-.
      assert (i = n) as -> by (eapply (dense_unique v L Ds HR); by apply (base_idx v L Ds HR)).
      simplify_eq. exists (lo + k', x). split; [apply elem_of_zip_range; eauto|].
      assert (oe_dst x = t) as <- by (eapply (dense_unique v L Ds HR); [by apply (base_idx v L Ds HR)|done]).
      destruct (Hfacts _ _ Hk') as (b' & Hb' & _ & _ & Hiff). simplify_eq.
      destruct x as [[??]?]. by apply Hiff.
Qed.

(** The in-row of a node lists the slots that point to it. *)
Lemma in_row_elem n r x : idx (lo_in L) n = Some r →
  x ∈ r ↔ ∃ i j e, (i, j, e) ∈ lo_slots L ∧ oe_dst e = n ∧ x = (i, oe_kind e, j).
Proof.
  intros Hr. rewrite (pk_transpose _ _ HP _ _ Hr), list_elem_of_fmap. split.
  - intros ([[i j] e] & -> & [Hd Hin]%list_elem_of_filter). eauto 8.
  - intros (i & j & e & Hin & Hd & ->). exists (i, j, e). split; [done|]. by apply list_elem_of_filter.
Qed.

Lemma slots_nodup : NoDup ((λ x : N * N * oedge, x.1.2) <$> lo_slots L).
Proof.
  assert ((λ x : N * N * oedge, x.1.2) <$> lo_slots L = range 0 (len (concat (lo_out L)))) as ->.
  { symmetry. apply fmap_by_idx; [unfold lo_slots; by rewrite len_slots, len_range, N.sub_0_r|].
    intros p [[i j] e] Hp. pose proof (idx_lt _ _ _ Hp) as Hl. unfold lo_slots in Hl. rewrite len_slots in Hl.
    destruct (idx_slots _ _ _ _ _ Hp) as (-> & _). rewrite idx_range by lia. done. }
  apply NoDup_range.
Qed.

Lemma in_row_nodup n r : idx (lo_in L) n = Some r → NoDup ((λ x : iedge, x.2) <$> r).
Proof.
  intros Hr. rewrite (pk_transpose _ _ HP _ _ Hr), <- list_fmap_compose.
  eapply sublist_NoDup; [exact slots_nodup|]. apply (fmap_sublist (λ x : N * N * oedge, x.1.2)).
  apply sublist_filter.
Qed.

Lemma in_base tomb n id r : edgeTombSlots v = Some tomb →
  idx (lo_ids L) n = Some id → idx (lo_in L) n = Some r →
  let lo := len (concat (take (N.to_nat n) (lo_in L))) in
  let keep (ix : N * iedge) :=
    if bits_has tomb (snd ix).2 || bits_has (deadBits v) (snd ix).1.1 then None
    else Some ((snd ix).1, default 0 (idx (OutEdgeIDs (v_base v)) (snd ix).2)) in
  base_walk_rep false id (omap keep (zip (range lo (lo + len r)) r)).
Proof.
  intros Htomb Hid Hr lo keep. destruct edgeTombSlots_spec as (tomb' & E & _ & Ht).
  rewrite Htomb in E. injection E as <-.
  assert (∀ i j e, (i, j, e) ∈ lo_slots L → oe_dst e = n → ∃ a, idx (lo_ids L) i = Some a ∧
    g_edges (base_graph L) !! oe_id e = Some (a, id, oe_kind e) ∧
    idx (concat (lo_out L)) j = Some e ∧
    (∀ p, keep (p, (i, oe_kind e, j)) =
      if decide (d_edges D !! oe_id e = None ∧ is_Some (g_nodes G !! a))
      then Some (i, oe_kind e, oe_id e) else None)) as Hfacts.
  { intros i j e Hin Hd. destruct (slot_facts _ _ HB _ _ _ Hin) as (r' & k' & a & b & _ & _ & _ & Hc & Ha & Hb & Hse).
    exists a. assert (b = id) as -> by congruence. split_and!; [done| |done|].
    - apply (base_edge L Hids). exists i, j, e. by rewrite Hse.
    - intros p. unfold keep. simpl. rewrite (dead_iff _ a) by (by apply (base_idx v L Ds HR)).
      rewrite (pk_eids _ _ HP), idx_fmap, Hc. simpl.
      destruct (bits_has tomb j) eqn:Eb; simpl.
      + apply Ht in Eb as (e' & He' & [o Ho]). rewrite decide_False; [done|]. intros [Hn _]. congruence.
      + assert (d_edges D !! oe_id e = None) as Hn.
        { destruct (d_edges D !! oe_id e) eqn:Ed; [|done]. enough (false = true) by done.
          rewrite <- Eb. apply Ht. eauto. }
        destruct (bool_decide_reflect (is_Some (g_nodes G !! a))); simpl.
        * by rewrite decide_True.
        * by rewrite decide_False by naive_solver. }
  split.
  - apply NoDup_omap_inj; [apply NoDup_zip_l, NoDup_range|].
    intros [p x] [q y] z Hx Hy Ex Ey.
    apply elem_of_zip_range in Hx as (k & Hk & ->), Hy as (k' & Hk' & ->).
    pose proof (idx_elem_of _ _ _ Hk) as Hx. pose proof (idx_elem_of _ _ _ Hk') as Hy.
    apply (in_row_elem _ _ _ Hr) in Hx as (i & j & e & Hin & Hd & ->).
    apply (in_row_elem _ _ _ Hr) in Hy as (i' & j' & e' & Hin' & Hd' & ->).
    destruct (Hfacts _ _ _ Hin Hd) as (a & _ & _ & Hc & Hkp).
    destruct (Hfacts _ _ _ Hin' Hd') as (a' & _ & _ & Hc' & Hkp').
    rewrite Hkp in Ex. rewrite Hkp' in Ey. do 2 case_decide; simplify_eq.
    assert (j = j') as -> by (by eapply slot_unique).
    pose proof (in_row_nodup _ _ Hr) as Hnd.
    assert (N.to_nat k = N.to_nat k') by (eapply (NoDup_lookup _ _ _ j' Hnd);
      rewrite list_lookup_fmap; [by unfold idx in Hk; rewrite Hk|by unfold idx in Hk'; rewrite Hk']).
    assert (k = k') as -> by lia. simplify_eq. done.
  - intros t k e. rewrite list_elem_of_omap. split.
    + intros ([p x] & Hin & Hk). apply elem_of_zip_range in Hin as (q & Hq%idx_elem_of & ->).
      apply (in_row_elem _ _ _ Hr) in Hq as (i & j & e0 & Hin & Hd & ->).
      destruct (Hfacts _ _ _ Hin Hd) as (a & Ha & Hg & _ & Hkp). rewrite Hkp in Hk.
      case_decide as Hc; [|done]. injection Hk as <- <- <-. destruct Hc as [Hn Hl].
      split; [done|]. exists a. split_and!; [|done..]. by apply (base_idx v L Ds HR).
    + intros (Hd & tid & Htid & Hg & Hl).
      apply (base_edge L Hids) in Hg as (i & j & x & Hin & Hse).
      destruct (slot_facts _ _ HB _ _ _ Hin) as (r' & k' & a & b & _ & _ & _ & Hc & Ha & Hb & Hse').
      rewrite Hse' in Hse. injection Hse as <- -> -> <-.
      assert (oe_dst x = n) as Hdst by (eapply (dense_unique v L Ds HR); by apply (base_idx v L Ds HR)).
      assert (i = t) as -> by (eapply (dense_unique v L Ds HR); [by apply (base_idx v L Ds HR)|done]).
      assert ((t, oe_kind x, j) ∈ r) as Hr' by (apply (in_row_elem _ _ _ Hr); eauto 8).
      apply elem_of_idx in Hr' as [q Hq]. exists (lo + q, (t, oe_kind x, j)).
      split; [apply elem_of_zip_range; eauto|].
      destruct (Hfacts _ _ _ Hin Hdst) as (a' & Ha' & _ & _ & ->). simplify_eq. by rewrite decide_True.
Qed.

(** ** Walking a node's edges *)

(** What a walk yields: every visible edge at the node once. *)
Definition walk_rep (out : bool) (n : NodeID) (l : list vedge) : Prop := NoDup l ∧
  ∀ t k e, (t, k, e) ∈ l ↔ ∃ id tid, idx (view_ids v) n = Some id ∧ idx (view_ids v) t = Some tid ∧
    visible G !! e = Some (if out then (id, tid, k) else (tid, id, k)).

Lemma combine_walk (out : bool) n id lb ld : idx (view_ids v) n = Some id →
  is_Some (g_nodes G !! id) →
  (NodeCount (v_base v) ≤ n → lb = []) →
  (n < NodeCount (v_base v) → base_walk_rep out id lb) → NoDup ld →
  (∀ t k e, (t, k, e) ∈ ld ↔ ∃ tid, idx (view_ids v) t = Some tid ∧
    d_edges D !! e = Some (Some (if out then (id, tid, k) else (tid, id, k))) ∧
    is_Some (g_nodes G !! id) ∧ is_Some (g_nodes G !! tid)) →
  walk_rep out n (lb ++ ld).
Proof.
  intros Hn Hlive Hnil Hb Hld Hd.
  assert (base_walk_rep out id lb) as [Hnb Hbi].
  { destruct (decide (n < NodeCount (v_base v))) as [|Hge]; [auto|]. rewrite Hnil by lia.
    split; [constructor|]. intros t k e. rewrite elem_of_nil. split; [done|].
    intros (_ & tid & Ht & Hg & _). exfalso.
    apply (base_edge L Hids) in Hg as (i & j & x & Hin & Hse).
    destruct (slot_facts _ _ HB _ _ _ Hin) as (_ & _ & a & b & _ & _ & _ & _ & Ha & Hb' & Hse').
    rewrite Hse' in Hse. apply (base_idx v L Ds HR) in Ha as Ha', Hb' as Hb''.
    apply idx_lt in Ha, Hb'. rewrite (base_count v L Ds HR) in Hge.
    destruct out; injection Hse as <- -> -> <-.
    - rewrite (dense_unique v L Ds HR _ _ _ Hn Ha') in Hge. lia.
    - rewrite (dense_unique v L Ds HR _ _ _ Hn Hb'') in Hge. lia. }
  split.
  - apply NoDup_app. split_and!; [done| |done]. intros [[t k] e] [E1 _]%Hbi (tid & _ & E2 & _)%Hd. congruence.
  - intros t k e. rewrite elem_of_app, Hbi, Hd. split.
    + intros [(E1 & tid & Ht & Hg & Hl)|(tid & Ht & E1 & _ & Hl)]; exists id, tid; (split_and!; [done..|]);
        destruct out; apply visible_iff; rewrite graph_edges, E1; by split_and!.
    + intros (id' & tid & Hn' & Ht & Hv). simplify_eq.
      assert (g_edges G !! e = Some (if out then (id, tid, k) else (tid, id, k)) ∧ is_Some (g_nodes G !! tid)) as [Hg Hl].
      { destruct out; apply visible_iff in Hv; naive_solver. }
      rewrite graph_edges in Hg. destruct (d_edges D !! e) as [o|] eqn:Eo; [right|left].
      * subst o. eauto 8.
      * eauto 8.
Qed.

(** A dead or unknown node has no edges. *)
Lemma walk_none (out : bool) n : Alive v n = false → walk_rep out n [].
Proof.
  intros Ha. split; [constructor|]. intros t k e. rewrite elem_of_nil. split; [done|].
  intros (id & tid & Hn & _ & Hv). enough (Alive v n = true) by congruence.
  apply (alive_iff v L Ds HR). exists id. split; [done|].
  destruct out; apply visible_iff in Hv; naive_solver.
Qed.

Lemma out_row_split n r : idx (lo_out L) n = Some r →
  let lo := len (concat (take (N.to_nat n) (lo_out L))) in
  idx (OutOffsets (v_base v)) n = Some lo ∧ idx (OutOffsets (v_base v)) (u32 (n + 1)) = Some (lo + len r).
Proof.
  intros Hr lo. pose proof (idx_lt _ _ _ Hr) as Hl. pose proof (pk_n _ _ HP) as Hn.
  rewrite <- (pk_out_len _ _ HP) in Hn. rewrite u32_small, (pk_out _ _ HP), !idx_offs by lia. split; [done|].
  rewrite (take_S_idx _ _ _ Hr), concat_app, len_app. simpl. by rewrite app_nil_r.
Qed.
Lemma in_row_split n r : idx (lo_in L) n = Some r →
  let lo := len (concat (take (N.to_nat n) (lo_in L))) in
  idx (InOffsets (v_base v)) n = Some lo ∧ idx (InOffsets (v_base v)) (u32 (n + 1)) = Some (lo + len r).
Proof.
  intros Hr lo. pose proof (idx_lt _ _ _ Hr) as Hl. pose proof (pk_n _ _ HP) as Hn.
  rewrite <- (pk_in_len _ _ HP) in Hn. rewrite u32_small, (pk_in _ _ HP), !idx_offs by lia. split; [done|].
  rewrite (take_S_idx _ _ _ Hr), concat_app, len_app. simpl. by rewrite app_nil_r.
Qed.

Lemma in_slot_lt n r x : idx (lo_in L) n = Some r → x ∈ r → x.2 < len (concat (lo_out L)).
Proof.
  intros Hr (i & j & e & Hin & _ & ->)%(in_row_elem _ _ _ Hr). simpl.
  destruct (slot_facts _ _ HB _ _ _ Hin) as (_ & _ & _ & _ & _ & _ & _ & Hc & _). by eapply idx_lt.
Qed.

(** The edges of the base row that remain, and all edges of a walk. *)
Definition hidden : option Bitset := default None (edgeTombSlots v).
Definition out_base_list (n : NodeID) : list vedge :=
  match idx (lo_out L) n with
  | None => []
  | Some r =>
      let lo := len (concat (take (N.to_nat n) (lo_out L))) in
      omap (λ ix : N * oedge,
        if bits_has hidden (fst ix) || bits_has (deadBits v) (oe_dst (snd ix)) then None
        else Some (snd ix)) (zip (range lo (lo + len r)) r)
  end.
Definition in_base_list (n : NodeID) : list vedge :=
  match idx (lo_in L) n with
  | None => []
  | Some r =>
      let lo := len (concat (take (N.to_nat n) (lo_in L))) in
      omap (λ ix : N * iedge,
        if bits_has hidden (snd ix).2 || bits_has (deadBits v) (snd ix).1.1 then None
        else Some ((snd ix).1, default 0 (idx (OutEdgeIDs (v_base v)) (snd ix).2)))
        (zip (range lo (lo + len r)) r)
  end.
Definition delta_list (out : bool) (n : NodeID) : list vedge :=
  let a := deltaAdjacency v in
  if bits_has (if out then da_outBits a else da_inBits a) n
  then default [] ((if out then da_out a else da_in a) !! n) else [].
Definition walk_list (out : bool) (n : NodeID) : list vedge :=
  if Alive v n then (if out then out_base_list n else in_base_list n) ++ delta_list out n else [].

Lemma base_row_idx n id : idx (view_ids v) n = Some id → n < NodeCount (v_base v) →
  idx (lo_ids L) n = Some id.
Proof.
  intros Hn Hlt. destruct (view_ids_elem v L Ds HR _ _ Hn) as [[? _]|(_ & Hge & _)]; [done|]. lia.
Qed.

Lemma walk_list_rep out n : walk_rep out n (walk_list out n).
Proof.
  unfold walk_list. destruct (Alive v n) eqn:Ha; [|by apply walk_none].
  apply (alive_iff v L Ds HR) in Ha as (id & Hn & Hlive).
  destruct edgeTombSlots_spec as (tomb & Htomb & _ & _).
  destruct (delta_part out n id Hn) as (ld & Hld & Hnd & Hdi).
  unfold delta_list. cbv zeta in Hld |- *. rewrite Hld.
  apply (combine_walk out n id); [done..| | |done|done]; rewrite (base_count v L Ds HR).
  - intros Hge. unfold out_base_list, in_base_list.
    rewrite !idx_ge by (rewrite ?(pk_out_len _ _ HP), ?(pk_in_len _ _ HP); lia). by destruct out.
  - intros Hlt. assert (idx (lo_ids L) n = Some id) as Hid.
    { apply base_row_idx; [done|]. by rewrite (base_count v L Ds HR). }
    unfold out_base_list, in_base_list, hidden. rewrite Htomb. simpl. destruct out.
    + destruct (out_row_Some _ _ HB n Hlt) as [r Hr]. rewrite Hr. by apply out_base.
    + destruct (in_row_Some _ _ HB n Hlt) as [r Hr]. rewrite Hr. by apply in_base.
Qed.

Lemma hidden_eq : edgeTombSlots v = Some hidden.
Proof. unfold hidden. by destruct edgeTombSlots_spec as (tomb & -> & _). Qed.

Lemma out_base_walk n {S} (yield : vedge → S → option (S * bool)) s : n < NodeCount (v_base v) →
  (lo ← idx (OutOffsets (v_base v)) n; hi ← idx (OutOffsets (v_base v)) (u32 (n + 1));
   iter_b (λ i s,
     if bits_has hidden (u32 i) then Some (s, true)
     else
       target ← idx (OutTargets (v_base v)) i;
       if bits_has (deadBits v) target then Some (s, true)
       else
         k ← idx (OutKinds (v_base v)) i; e ← idx (OutEdgeIDs (v_base v)) i;
         yield (target, k, e) s) (range lo hi) s) = iter_b yield (out_base_list n) s.
Proof.
  rewrite (base_count v L Ds HR). intros Hlt. destruct (out_row_Some _ _ HB n Hlt) as [r Hr].
  destruct (out_row_split _ _ Hr) as [-> ->]. simpl. unfold out_base_list. rewrite Hr.
  apply (iter_b_row r _ (λ i e, if bits_has hidden i || bits_has (deadBits v) (oe_dst e) then None else Some e)).
  intros k e s' Hk. pose proof (concat_idx _ _ _ k Hr (idx_lt _ _ _ Hk)) as Hc. rewrite Hk in Hc.
  pose proof (idx_lt _ _ _ Hc) as Hcl. pose proof (pk_e _ _ HP) as He.
  rewrite u32_small by lia. rewrite (pk_targets _ _ HP), (pk_kinds _ _ HP), (pk_eids _ _ HP), !idx_fmap, Hc. simpl.
  destruct (bits_has hidden _); simpl; [done|]. destruct (bits_has (deadBits v) (oe_dst e)); [done|].
  by destruct e as [[??]?].
Qed.

Lemma in_base_walk n {S} (yield : vedge → S → option (S * bool)) s : n < NodeCount (v_base v) →
  (lo ← idx (InOffsets (v_base v)) n; hi ← idx (InOffsets (v_base v)) (u32 (n + 1));
   iter_b (λ i s,
     fwdIdx ← idx (InEdgeIdx (v_base v)) i;
     if bits_has hidden fwdIdx then Some (s, true)
     else
       source ← idx (InTargets (v_base v)) i;
       if bits_has (deadBits v) source then Some (s, true)
       else
         k ← idx (InKinds (v_base v)) i; e ← idx (OutEdgeIDs (v_base v)) fwdIdx;
         yield (source, k, e) s) (range lo hi) s) = iter_b yield (in_base_list n) s.
Proof.
  rewrite (base_count v L Ds HR). intros Hlt. destruct (in_row_Some _ _ HB n Hlt) as [r Hr].
  destruct (in_row_split _ _ Hr) as [-> ->]. simpl. unfold in_base_list. rewrite Hr.
  apply (iter_b_row r _ (λ i x, if bits_has hidden x.2 || bits_has (deadBits v) x.1.1 then None
    else Some (x.1, default 0 (idx (OutEdgeIDs (v_base v)) x.2)))).
  intros k x s' Hk. pose proof (concat_idx _ _ _ k Hr (idx_lt _ _ _ Hk)) as Hc. rewrite Hk in Hc.
  rewrite (pk_isrc _ _ HP), (pk_ikind _ _ HP), (pk_iidx _ _ HP), !idx_fmap, Hc. simpl.
  destruct (bits_has hidden _); simpl; [done|]. destruct (bits_has (deadBits v) x.1.1); [done|].
  pose proof (in_slot_lt _ _ _ Hr (idx_elem_of _ _ _ Hk)) as Hsl.
  destruct (idx_is_Some _ _ Hsl) as [e He]. rewrite (pk_eids _ _ HP), idx_fmap, He. simpl.
  by destruct x as [[??]?].
Qed.

Lemma base_list_past (out : bool) n : NodeCount (v_base v) ≤ n →
  (if out then out_base_list n else in_base_list n : list vedge) = [].
Proof.
  rewrite (base_count v L Ds HR). intros Hge. unfold out_base_list, in_base_list.
  rewrite !idx_ge by (rewrite ?(pk_out_len _ _ HP), ?(pk_in_len _ _ HP); lia). by destruct out.
Qed.

(** The iterators run the callback over the walk's list, until it stops. *)
Lemma OutEdges_walk n {S} (yield : vedge → S → option (S * bool)) s :
  OutEdges v n yield s = iter_until yield (walk_list true n) s.
Proof.
  unfold OutEdges, walk_list. destruct (Alive v n); simpl; [|done].
  unfold iter_until. rewrite iter_b_app. rewrite hidden_eq. cbn [mbind option_bind].
  destruct (N.ltb_spec n (NodeCount (v_base v))) as [Hlt|Hge].
  - rewrite (out_base_walk n yield s Hlt).
    destruct (iter_b yield (out_base_list n) s) as [[s1 []]|]; simpl; [|done|done].
    unfold delta_list. by destruct (bits_has (da_outBits (deltaAdjacency v)) n).
  - rewrite (base_list_past true n Hge). simpl. unfold delta_list.
    by destruct (bits_has (da_outBits (deltaAdjacency v)) n).
Qed.
Lemma InEdges_walk n {S} (yield : vedge → S → option (S * bool)) s :
  InEdges v n yield s = iter_until yield (walk_list false n) s.
Proof.
  unfold InEdges, walk_list. destruct (Alive v n); simpl; [|done].
  unfold iter_until. rewrite iter_b_app. rewrite hidden_eq. cbn [mbind option_bind].
  destruct (N.ltb_spec n (NodeCount (v_base v))) as [Hlt|Hge].
  - rewrite (in_base_walk n yield s Hlt).
    destruct (iter_b yield (in_base_list n) s) as [[s1 []]|]; simpl; [|done|done].
    unfold delta_list. by destruct (bits_has (da_inBits (deltaAdjacency v)) n).
  - rewrite (base_list_past false n Hge). simpl. unfold delta_list.
    by destruct (bits_has (da_inBits (deltaAdjacency v)) n).
Qed.

(** ** Edges by id *)

Lemma base_edge_state_spec id : d_edges D !! id = None → ∃ r, base_edge_state v id = Some r ∧
  match r with
  | Some (s, t, k) => ∃ a b, idx (view_ids v) s = Some a ∧ idx (view_ids v) t = Some b ∧
      visible G !! id = Some (a, b, k)
  | None => visible G !! id = None
  end.
Proof.
  intros Hd. unfold base_edge_state. destruct (EdgeByID_spec _ _ HB id) as (r & -> & Hr). simpl.
  destruct r as [p|].
  - destruct Hr as (e & Hp & <-). rewrite (pk_targets _ _ HP), (pk_kinds _ _ HP), !idx_fmap, Hp. simpl.
    destruct (slot_source _ _ HB _ _ Hp) as (i & -> & Hin). simpl.
    destruct (slot_facts _ _ HB _ _ _ Hin) as (_ & _ & a & b & _ & _ & _ & _ & Ha & Hb & Hse).
    apply (base_idx v L Ds HR) in Ha, Hb.
    assert (g_edges G !! oe_id e = Some (a, b, oe_kind e)) as Hg.
    { rewrite graph_edges, Hd. apply (base_edge L Hids). eauto. }
    assert (∀ n x, idx (view_ids v) n = Some x → Alive v n = true ↔ is_Some (g_nodes G !! x)) as Hal.
    { intros n x Hn. rewrite (alive_iff v L Ds HR). split; [|eauto]. intros (x' & Hn' & ?). by simplify_eq. }
    destruct (Alive v i) eqn:A1, (Alive v (oe_dst e)) eqn:A2; simpl; eexists; (split; [done|]).
    { exists a, b. split_and!; [done..|]. apply visible_iff. split_and!; [done|by apply (Hal i)|by apply (Hal (oe_dst e))]. }
    all: apply eq_None_not_Some; intros [[[a' b'] k'] (Hg' & L1 & L2)%visible_iff]; simplify_eq.
    all: apply (Hal _ _ Ha) in L1; apply (Hal _ _ Hb) in L2; congruence.
  - eexists. split; [done|]. simpl. apply eq_None_not_Some. intros [[[a b] k] (Hg & _)%visible_iff].
    rewrite graph_edges, Hd in Hg. apply (base_edge L Hids) in Hg as (i & j & e & Hin & Hse).
    destruct (slot_facts _ _ HB _ _ _ Hin) as (_ & _ & a0 & b0 & _ & _ & _ & Hc & _ & _ & Hse').
    rewrite Hse' in Hse. injection Hse as E _ _ _. by apply (Hr e); [eapply idx_elem_of|].
Qed.

(** The lookup finds exactly the visible edges. *)
Lemma EdgeStateByID_graph id : ∃ r, EdgeStateByID v id = Some r ∧
  match r with
  | Some (s, t, k) => ∃ a b, idx (view_ids v) s = Some a ∧ idx (view_ids v) t = Some b ∧
      visible G !! id = Some (a, b, k)
  | None => visible G !! id = None
  end.
Proof.
  unfold EdgeStateByID. destruct (merged_cases v L Ds HR) as [(Hm & E & ->)|(m & Hm & Hrep & ->)].
  { apply base_edge_state_spec. unfold D. by rewrite E. }
  rewrite Hm. unfold EdgeState. destruct (sg_edgeStates m !! id) as [st|] eqn:Est.
  2: { apply base_edge_state_spec. fold D in Hrep. by rewrite (sr_edges _ _ Hrep), lookup_fmap, Est. }
  fold D in Hrep. pose proof (seg_edges_delta m _ _ Hrep Est) as Hd. unfold edge_abs in Hd.
  destruct (es_Tombstoned st) eqn:Et.
  { eexists. split; [done|]. simpl. apply eq_None_not_Some. intros [[[a b] k] (Hg & _)%visible_iff].
    by rewrite graph_edges, Hd in Hg. }
  destruct (live_ends v st) as [[s e]|] eqn:El; (eexists; split; [done|]); simpl.
  - apply live_ends_spec in El as (Hs & He & As & Ae). eexists _, _. split_and!; [done..|].
    apply visible_iff. by rewrite graph_edges, Hd.
  - apply eq_None_not_Some. intros [[[a b] k] (Hg & L1 & L2)%visible_iff].
    rewrite graph_edges, Hd in Hg. simplify_eq.
    destruct L1 as [x1 L1], L2 as [x2 L2].
    destruct (node_numbered v L Ds HR _ _ L1) as [s Hs]. destruct (node_numbered v L Ds HR _ _ L2) as [t Ht].
    assert (live_ends v st = Some (s, t)) by (apply live_ends_spec; split_and!; eauto). congruence.
Qed.

(** Nothing but live edge states none of which is visible. *)
Lemma unresolvable_graph : DeltaHoldsOnlyUnresolvableEdges v = true ↔
  d_nodes D = ∅ ∧ d_edges D ≠ ∅ ∧
  ∀ id o, d_edges D !! id = Some o → is_Some o ∧ visible G !! id = None.
Proof.
  unfold DeltaHoldsOnlyUnresolvableEdges.
  destruct (merged_cases v L Ds HR) as [(Hm & E & ->)|(m & Hm & Hrep & ->)]; simpl.
  { split; [done|]. unfold D. rewrite E. simpl. intros (_ & ? & _). done. }
  rewrite Hm. fold D in Hrep. unfold Segment_NodeCount, Segment_EdgeCount.
  assert (len (sg_nodeIDs m) = 0 ↔ d_nodes D = ∅) as Hn0.
  { rewrite (map_empty (d_nodes D)). setoid_rewrite eq_None_not_Some. split.
    - intros Hl id [o Ho]. destruct (option_Forall2_cases _ _ _ (sr_nodes _ _ Hrep id)) as [[_ ?]|(st & y & Hst & _)]; [congruence|].
      assert (id ∈ sg_nodeIDs m) as [i Hi]%elem_of_idx by (apply (sr_nids _ _ Hrep); eauto). apply idx_lt in Hi. lia.
    - intros He. destruct (sg_nodeIDs m) as [|id l] eqn:El; [done|]. destruct (He id).
      assert (id ∈ sg_nodeIDs m) as [st Hst]%(sr_nids _ _ Hrep) by (rewrite El; left).
      destruct (option_Forall2_cases _ _ _ (sr_nodes _ _ Hrep id)) as [[? _]|(? & y & _ & -> & _)]; [congruence|eauto]. }
  assert (len (sg_edgeIDs m) = 0 ↔ d_edges D = ∅) as He0.
  { rewrite (sr_edges _ _ Hrep), fmap_empty_iff, (map_empty (sg_edgeStates m)). setoid_rewrite eq_None_not_Some. split.
    - intros Hl id Hin%(sr_eids _ _ Hrep). apply elem_of_idx in Hin as [i Hi]. apply idx_lt in Hi. lia.
    - intros He. destruct (sg_edgeIDs m) as [|id l] eqn:El; [done|]. destruct (He id).
      apply (sr_eids _ _ Hrep). rewrite El. left. }
  destruct (N.eqb_spec (len (sg_nodeIDs m)) 0) as [E1|E1]; simpl; [|naive_solver].
  destruct (N.eqb_spec (len (sg_edgeIDs m)) 0) as [E2|E2]; simpl; [naive_solver|].
  rewrite forallb_forall. setoid_rewrite <- list_elem_of_In.
  assert ((∀ x, x ∈ seg_edges m → (let '(_, st) := x in negb (es_Tombstoned st) &&
      match live_ends v st with Some _ => false | None => true end) = true) ↔
    ∀ id o, d_edges D !! id = Some o → is_Some o ∧ visible G !! id = None) as ->; [|tauto].
  split.
  - intros Hall id o Ho. rewrite (sr_edges _ _ Hrep), lookup_fmap in Ho.
    destruct (sg_edgeStates m !! id) as [st|] eqn:Est; [|done]. simpl in Ho. injection Ho as <-.
    specialize (Hall (id, st) (proj2 (seg_edges_elem m id st Hrep) Est)). simpl in Hall.
    apply andb_true_iff in Hall as [Ht%negb_true_iff Hl].
    pose proof (seg_edges_delta m _ _ Hrep Est) as Hd. unfold edge_abs in *. rewrite Ht in *. split; [eauto|].
    destruct (EdgeStateByID_graph id) as (r & Hr & Hv). unfold EdgeStateByID, EdgeState in Hr.
    destruct (merged_cases v L Ds HR) as [(? & _)|(m' & Hm' & _ & Hov)]; [congruence|].
    rewrite Hov, Hm, Est, Ht in Hr. destruct (live_ends v st); [done|]. by simplify_eq.
  - intros Hall [id st] Hin%(seg_edges_elem m id st Hrep).
    pose proof (seg_edges_delta m _ _ Hrep Hin) as Hd. destruct (Hall _ _ Hd) as [[x Hx] Hv].
    unfold edge_abs in Hx, Hd. destruct (es_Tombstoned st) eqn:Et; [done|]. simpl.
    destruct (live_ends v st) as [[s e]|] eqn:El; [|done].
    apply live_ends_spec in El as (_ & _ & As & Ae). enough (visible G !! id = Some (es_StartID st, es_EndID st, es_Kind st)) by congruence.
    apply visible_iff. by rewrite graph_edges, Hd.
Qed.
End edges.
