(* ===== verification/EdgeKinds.v ===== *)
(** * The nodes at the ends of edges of a kind

    [internal/engine/snapshot/edgekindindex.go]: per kind, the nodes with an
    edge of that kind out of them or into them, ascending and each once. The
    union over several kinds is remembered under a key made of the kinds; an
    overlay merges in the ends of the delta's edges and remembers that too.
    What is remembered is state that every call passes along.

    The results: the lists are strictly ascending, hold the ends of every
    visible edge of the kinds, and on a plain view nothing else; what is
    remembered under a key is what would be computed again. *)

From S2P Require Import Prelude Bitset Csr Kinds Props Snapshot Builder Segment View ViewAdj.
From stdpp Require Import pretty.
From Stdlib Require Import Ascii.
From stdpp Require Import options.
Unset Default Proof Using.
#[local] Open Scope N_scope.

(** ** Definitions *)

Record edgeKindIndex := mkEdgeKindIndex {
  ek_out : gmap KindID (list NodeID);
  ek_in : gmap KindID (list NodeID);
}.
(** [m[k]], with the nil slice for a kind that is not there. *)
Definition postings `{Countable K} {A} (m : gmap K (list A)) (k : K) : list A := default [] (m !! k).
Definition ek_side (ix : edgeKindIndex) (outgoing : bool) : gmap KindID (list NodeID) :=
  if outgoing then ek_out ix else ek_in ix.

Definition appendDistinctTail (ids : list NodeID) (id : NodeID) : list NodeID :=
  match last ids with
  | Some t => if t =? id then ids else ids ++ [id]
  | None => ids ++ [id]
  end.

(** The result is built in front of what is still to be read. *)
Definition dedupeSorted (ids : list NodeID) : list NodeID :=
  match ids with
  | [] | [_] => ids
  | x :: rest =>
      foldl (λ out id, match last out with
                       | Some t => if negb (id =? t) then out ++ [id] else out
                       | None => out  (* out is never empty *)
                       end) [x] rest
  end.

(** [mergeSortedIDs] walks both slices with an index each. *)
Fixpoint merge_ids (a : list NodeID) : list NodeID → list NodeID :=
  fix go (b : list NodeID) : list NodeID :=
    match a, b with
    | [], _ => b
    | _, [] => a
    | x :: a', y :: b' =>
        if x <? y then x :: merge_ids a' b
        else if y <? x then y :: go b'
        else x :: merge_ids a' b'
    end.
Definition mergeSortedIDs (a b : list NodeID) : list NodeID :=
  if len b =? 0 then a else if len a =? 0 then b else merge_ids a b.

Definition less_Z (x y : Z) : bool := (x <? y)%Z.
Definition ids_less : NodeID → NodeID → bool := less_key (λ i, i).

Section ends.
Context `{GoStd}.

(** [strconv.Itoa] prints as [pretty] does. *)
Definition unionKey (kinds : list KindID) (outgoing : bool) : string :=
  foldl (λ b k, b +:+ ":" +:+ pretty k) (if outgoing then "o" else "i") (go_sort less_Z kinds).

Definition sort_dedupe (ids : list NodeID) : list NodeID := dedupeSorted (go_sort ids_less ids).

(** One slot of the base. *)
Definition index_slot (s : Snapshot) (ix : edgeKindIndex) (node i : N) : option edgeKindIndex :=
  k ← idx (OutKinds s) i;
  t ← idx (OutTargets s) i;
  Some (mkEdgeKindIndex (<[k := appendDistinctTail (postings (ek_out ix) k) (u32 node)]> (ek_out ix))
    (<[k := postings (ek_in ix) k ++ [t]]> (ek_in ix))).
Definition ensureEdgeKindIndex (s : Snapshot) : option edgeKindIndex :=
  ix ← foldM (λ ix node, lo ← idx (OutOffsets s) node; hi ← idx (OutOffsets s) (node + 1);
         foldM (λ ix i, index_slot s ix node i) (range lo hi) ix)
         (range 0 (NodeCount s)) (mkEdgeKindIndex ∅ ∅);
  Some (mkEdgeKindIndex (ek_out ix) (sort_dedupe <$> ek_in ix)).

Definition add_end (m : gmap KindID (list NodeID)) (k : KindID) (end_ : option NodeID) : gmap KindID (list NodeID) :=
  match end_ with Some id => <[k := postings m k ++ [id]]> m | None => m end.
Definition ensureDeltaEdgeKindIndex (v : View) : option (option edgeKindIndex) :=
  match v_merged v with
  | None => Some None
  | Some m =>
      ix ← IterEdges m (λ _ st ix, Some (mkEdgeKindIndex
             (add_end (ek_out ix) (es_Kind st) (denseOf v (es_StartID st)))
             (add_end (ek_in ix) (es_Kind st) (denseOf v (es_EndID st))), true)) (mkEdgeKindIndex ∅ ∅);
      Some (Some (mkEdgeKindIndex (sort_dedupe <$> ek_out ix) (sort_dedupe <$> ek_in ix)))
  end.

Definition deltaEdgeEndpointsFor (v : View) (kinds : list KindID) (outgoing : bool) : option (list NodeID) :=
  ix ← ensureDeltaEdgeKindIndex v;
  match ix with
  | None => Some []
  | Some ix =>
      let side := ek_side ix outgoing in
      match kinds with
      | [k] => Some (postings side k)
      | _ => Some (foldl (λ merged k, mergeSortedIDs merged (postings side k)) [] kinds)
      end
  end.

(** What has been remembered: [unions] of the base's index, [edgeEndpoints] of
    the view. *)
Record ekMemo := mkEkMemo { mm_unions : gmap string (list NodeID); mm_endpoints : gmap string (list NodeID) }.

(** The loops over the named kinds and their nodes. *)
Definition union_add (st : gset NodeID * list NodeID) (id : NodeID) : gset NodeID * list NodeID :=
  if bool_decide (id ∈ st.1) then st else ({[id]} ∪ st.1, st.2 ++ [id]).
Definition unionFor (side : gmap KindID (list NodeID)) (kinds : list KindID) (outgoing : bool) (mm : ekMemo)
  : ekMemo * list NodeID :=
  let key := unionKey kinds outgoing in
  match mm_unions mm !! key with
  | Some got => (mm, got)
  | None =>
      let '(_, merged) := foldl (λ st k, foldl union_add st (postings side k)) (∅, []) kinds in
      let merged := go_sort ids_less merged in
      (mkEkMemo (<[key := merged]> (mm_unions mm)) (mm_endpoints mm), merged)
  end.

Definition EdgeKindEndpoints (v : View) (kinds : list KindID) (outgoing : bool) (mm : ekMemo)
  : option (ekMemo * option (list NodeID)) :=
  match kinds with
  | [] => Some (mm, None)
  | _ =>
      ix ← ensureEdgeKindIndex (v_base v);
      let side := ek_side ix outgoing in
      let '(mm, merged) := match kinds with [k] => (mm, postings side k) | _ => unionFor side kinds outgoing mm end in
      if negb (Overlay v) then Some (mm, Some merged)
      else
        let key := unionKey kinds outgoing in
        match mm_endpoints mm !! key with
        | Some got => Some (mm, Some got)
        | None =>
            d ← deltaEdgeEndpointsFor v kinds outgoing;
            let out := mergeSortedIDs merged d in
            Some (mkEkMemo (mm_unions mm) (<[key := out]> (mm_endpoints mm)), Some out)
        end
  end.

Definition EdgeKindEndpointCount (v : View) (kinds : list KindID) (outgoing : bool) (mm : ekMemo)
  : option (ekMemo * option N) :=
  r ← EdgeKindEndpoints v kinds outgoing mm;
  Some (r.1, match r.2 with Some ids => Some (len ids) | None => None end).
End ends.

(** ** Ascending lists *)

(** [l] lists [P], ascending and each once. *)
Definition lists (l : list NodeID) (P : NodeID → Prop) : Prop :=
  StronglySorted N.lt l ∧ ∀ x, x ∈ l ↔ P x.

Lemma lists_unique l k P : lists l P → lists k P → l = k.
Proof. intros [Hl El] [Hk Ek]. apply sorted_unique_N; [done..|]. intros x. by rewrite El, Ek. Qed.
Lemma lists_iff l P Q : lists l P → (∀ x, P x ↔ Q x) → lists l Q.
Proof. intros [Hl El] HPQ. split; [done|]. intros x. by rewrite El. Qed.

Lemma append_tail_lists l x P : lists l P → (∀ y, y ∈ l → y ≤ x) → lists (appendDistinctTail l x) (λ y, P y ∨ y = x).
Proof.
  intros [Hl El] Hle. unfold appendDistinctTail. destruct (last l) as [t|] eqn:Et.
  - apply last_Some in Et as [l' ->]. destruct (N.eqb_spec t x) as [->|Hne].
    + split; [done|]. intros y. rewrite El. split; [by left|]. intros [?| ->]; [done|].
      apply El, elem_of_app. right. by left.
    + split.
      * apply StronglySorted_app_2; [|done|repeat constructor]. intros y z Hy ->%list_elem_of_singleton.
        pose proof (Hle t ltac:(apply elem_of_app; right; left)). apply StronglySorted_app in Hl as (Hb & _ & _).
        apply elem_of_app in Hy as [Hy| ->%list_elem_of_singleton]; [|lia]. specialize (Hb y t Hy ltac:(left)). lia.
      * intros y. by rewrite elem_of_app, list_elem_of_singleton, El.
  - apply last_None in Et as ->. simpl. split; [repeat constructor|]. intros y. rewrite list_elem_of_singleton.
    specialize (El y). rewrite elem_of_nil in El. naive_solver.
Qed.

Lemma distinct_tail_lists l : StronglySorted N.le l → lists (foldl appendDistinctTail [] l) (λ x, x ∈ l).
Proof.
  induction l as [|x l IH] using rev_ind; intros Hl.
  { split; [constructor|done]. }
  apply StronglySorted_app in Hl as (Hb & Hl & _). rewrite foldl_app. simpl.
  eapply lists_iff; [apply append_tail_lists; [by apply IH|]|].
  - intros y Hy. apply (proj2 (IH Hl)) in Hy. apply Hb; [done|left].
  - intros y. by rewrite elem_of_app, list_elem_of_singleton.
Qed.

Lemma dedupe_loop k out : is_Some (last out) →
  foldl (λ out id, match last out with
                   | Some t => if negb (id =? t) then out ++ [id] else out
                   | None => out
                   end) out k = foldl appendDistinctTail out k.
Proof.
  revert out. induction k as [|y k IH]; intros out [t Ht]; [done|]. cbn [foldl]. rewrite Ht.
  assert (appendDistinctTail out y = if negb (y =? t) then out ++ [y] else out) as ->.
  { unfold appendDistinctTail. rewrite Ht, (N.eqb_sym t). by destruct (y =? t). }
  apply IH. destruct (y =? t); simpl; [by eexists|]. rewrite last_snoc. by eexists.
Qed.
Lemma dedupe_eq ids : dedupeSorted ids = foldl appendDistinctTail [] ids.
Proof. destruct ids as [|x [|y rest]]; [done..|]. by apply (dedupe_loop (y :: rest) [x]). Qed.

Section sorting.
Context `{GoStd}.

Lemma sort_dedupe_lists ids : lists (sort_dedupe ids) (λ x, x ∈ ids).
Proof.
  unfold sort_dedupe. rewrite dedupe_eq. eapply lists_iff; [apply distinct_tail_lists|intros; apply go_sort_elem].
  eapply StronglySorted_weaken; [|apply go_sort_sorted, is_less_key]. intros x y. apply le_of_key.
Qed.
Lemma go_sort_lists ids : NoDup ids → lists (go_sort ids_less ids) (λ x, x ∈ ids).
Proof.
  intros Hnd. split; [|intros; apply go_sort_elem]. 
  apply (sorted_key_strict (λ i : N, i)); [|apply go_sort_sorted, is_less_key].
  rewrite (list_fmap_id _). by rewrite go_sort_perm.
Qed.
End sorting.

Lemma merge_ids_lists a b P Q : lists a P → lists b Q → lists (merge_ids a b) (λ x, P x ∨ Q x).
Proof.
  intros [Ha Ea] [Hb Eb]. enough (lists (merge_ids a b) (λ x, x ∈ a ∨ x ∈ b)) as Hm.
  { eapply lists_iff; [exact Hm|]. intros x. cbn beta. by rewrite Ea, Eb. }
  clear Ea Eb. revert b Hb. induction Ha as [|x a Ha IHa Hx]; intros b Hb.
  { destruct b; (split; [done|set_solver]). }
  induction Hb as [|y b Hb IHb Hy]; [split; [by constructor|set_solver]|].
  rewrite Forall_forall in Hx, Hy.
  assert (∀ z l, StronglySorted N.lt l → (∀ w, w ∈ l → z < w) → StronglySorted N.lt (z :: l)) as Hcons.
  { intros z l Hl Hw. constructor; [done|]. by apply Forall_forall. }
  assert (∀ w, w ∈ y :: b → y ≤ w) as Hyw by (intros w [->|Hw%Hy]%elem_of_cons; lia).
  assert (∀ w, w ∈ x :: a → x ≤ w) as Hxw by (intros w [->|Hw%Hx]%elem_of_cons; lia).
  simpl. destruct (N.ltb_spec x y).
  - destruct (IHa (y :: b)) as [Hs Hm]; [constructor; [done|by apply Forall_forall]|]. split.
    + apply Hcons; [done|]. intros w [Hw%Hx|Hw%Hyw]%Hm; lia.
    + intros w. rewrite elem_of_cons, Hm. set_solver.
  - destruct (N.ltb_spec y x).
    + destruct IHb as [Hs Hm]. split.
      * apply Hcons; [done|]. intros w [Hw%Hxw|Hw%Hy]%Hm; lia.
      * intros w. rewrite elem_of_cons. setoid_rewrite Hm. set_solver.
    + assert (x = y) as -> by lia. destruct (IHa b Hb) as [Hs Hm]. split.
      * apply Hcons; [done|]. intros w [Hw%Hx|Hw%Hy]%Hm; lia.
      * intros w. rewrite elem_of_cons, Hm. set_solver.
Qed.
Lemma mergeSortedIDs_lists a b P Q : lists a P → lists b Q → lists (mergeSortedIDs a b) (λ x, P x ∨ Q x).
Proof.
  intros Ha Hb. unfold mergeSortedIDs. destruct (N.eqb_spec (len b) 0) as [E|_].
  { destruct b; [|rewrite len_cons in E; lia]. eapply lists_iff; [exact Ha|]. intros x. destruct Hb as [_ Eb].
    specialize (Eb x). rewrite elem_of_nil in Eb. naive_solver. }
  destruct (N.eqb_spec (len a) 0) as [E|_]; [|by apply merge_ids_lists].
  destruct a; [|rewrite len_cons in E; lia]. eapply lists_iff; [exact Hb|]. intros x. destruct Ha as [_ Ea].
  specialize (Ea x). rewrite elem_of_nil in Ea. naive_solver.
Qed.

(** ** The key of a set of kinds *)

(** No digit and no sign is the separator. *)
Fixpoint no_colon (s : string) : Prop :=
  match s with EmptyString => True | String a s => a ≠ ":"%char ∧ no_colon s end.
Definition keyed (ks : list KindID) : string := foldr (λ k s, ":" +:+ pretty k +:+ s) "" ks.

Lemma no_colon_app s t : no_colon s → no_colon t → no_colon (s +:+ t).
Proof. induction s as [|a s IH]; simpl; [done|]. intros [? ?] ?. split; [done|by apply IH]. Qed.
Lemma no_colon_go x s : no_colon s → no_colon (pretty_N_go x s).
Proof.
  revert s. induction (N.lt_wf_0 x) as [x _ IH]; intros s Hs. destruct (decide (x = 0)) as [->|Hx]; [by rewrite pretty_N_go_0|].
  rewrite pretty_N_go_step by lia. apply IH; [apply N.div_lt; lia|]. split; [|done]. unfold pretty_N_char. by repeat case_match.
Qed.
Lemma no_colon_pretty (z : Z) : no_colon (pretty z).
Proof.
  assert (∀ x : N, no_colon (pretty x)) as HN.
  { intros x. unfold pretty, pretty_N. case_decide; [done|]. by apply no_colon_go. }
  destruct z as [|p|p]; [done|apply (HN (N.pos p))|]. unfold pretty, pretty_Z. split; [done|]. apply (HN (N.pos p)).
Qed.

(** Two texts without the separator, each before one or the end. *)
Lemma split_colon s t ks ks' : no_colon s → no_colon t → s +:+ keyed ks = t +:+ keyed ks' → s = t ∧ keyed ks = keyed ks'.
Proof.
  revert t. induction s as [|a s IH]; intros [|b t]; simpl.
  - done.
  - intros _ [Hb _] E. destruct ks; simplify_eq/=.
  - intros [Ha _] _ E. destruct ks'; simplify_eq/=.
  - intros [_ Hs] [_ Ht] E. injection E as -> E. destruct (IH t Hs Ht E) as [-> ?]. done.
Qed.
Lemma keyed_inj ks ks' : keyed ks = keyed ks' → ks = ks'.
Proof.
  revert ks'. induction ks as [|k ks IH]; intros [|k' ks'] E; [done..|]. simpl in E. injection E as E.
  destruct (split_colon _ _ _ _ (no_colon_pretty k) (no_colon_pretty k') E) as [Ek E'].
  apply (inj pretty) in Ek. by rewrite Ek, (IH _ E').
Qed.

Lemma append_nil s : s +:+ "" = s.
Proof. induction s as [|a s IH]; [done|]. change (String a (s +:+ "") = String a s). by rewrite IH. Qed.
Lemma append_assoc s t u : s +:+ t +:+ u = (s +:+ t) +:+ u.
Proof. induction s as [|a s IH]; [done|]. change (String a (s +:+ t +:+ u) = String a ((s +:+ t) +:+ u)). by rewrite IH. Qed.
Lemma keyed_foldl b ks : foldl (λ b k, b +:+ ":" +:+ pretty k) b ks = b +:+ keyed ks.
Proof.
  revert b. induction ks as [|k ks IH]; intros b; cbn [foldl keyed foldr]; [by rewrite append_nil|].
  by rewrite IH, !append_assoc.
Qed.
Lemma unionKey_inj `{GoStd} kinds kinds' o o' : unionKey kinds o = unionKey kinds' o' →
  o = o' ∧ ∀ k, k ∈ kinds ↔ k ∈ kinds'.
Proof.
  unfold unionKey. rewrite !keyed_foldl. intros E.
  assert (go_sort less_Z kinds = go_sort less_Z kinds' ∧ o = o') as [Es ->].
  { destruct o, o'; try discriminate E; injection E as E; split; [by apply keyed_inj|done|by apply keyed_inj|done]. }
  split; [done|]. intros k. by rewrite <- (go_sort_elem less_Z kinds), Es, go_sort_elem.
Qed.

(** ** Posting lists *)

Lemma postings_insert `{Countable K} {A} (m : gmap K (list A)) k l k' :
  postings (<[k := l]> m) k' = if decide (k = k') then l else postings m k'.
Proof.
  unfold postings. destruct (decide (k = k')) as [<-|]; [by rewrite lookup_insert_eq|by rewrite lookup_insert_ne].
Qed.
(** Filling a map of lists: the list of a key is made of the items with it. *)
Lemma postings_foldl `{Countable K} {X A} (key : X → K) (f : list A → X → list A) m l k :
  postings (foldl (λ m x, <[key x := f (postings m (key x)) x]> m) m l) k =
  foldl f (postings m k) (filter (λ x, key x = k) l).
Proof.
  revert m. induction l as [|x l IH]; intros m; [done|]. cbn [foldl]. rewrite IH, filter_cons, postings_insert.
  by destruct (decide (key x = k)) as [<-|Hne].
Qed.
Lemma postings_fmap `{Countable K} {A} (f : list A → list A) (m : gmap K (list A)) k : f [] = [] →
  postings (f <$> m) k = f (postings m k).
Proof. intros Hf. unfold postings. rewrite lookup_fmap. by destruct (m !! k). Qed.

Lemma sort_dedupe_nil `{GoStd} : sort_dedupe [] = [].
Proof. destruct (sort_dedupe_lists []) as [_ Hx]. destruct (sort_dedupe []) as [|x l]; [done|]. specialize (Hx x). set_solver. Qed.

(** ** The indexes *)

Lemma slots_sorted {A} i o (rows : list (list A)) :
  StronglySorted (λ x y : N * N * A, x.1.1 ≤ y.1.1) (slots_from i o rows) ∧ ∀ x, x ∈ slots_from i o rows → i ≤ x.1.1.
Proof.
  revert i o. induction rows as [|r rows IH]; intros i o; [split; [constructor|by intros x ?%not_elem_of_nil]|].
  cbn [slots_from]. destruct (IH (i + 1) (o + len r)) as [Hs Hi].
  assert (∀ x, x ∈ zip_with (λ j y, (i, j, y)) (range o (o + len r)) r → x.1.1 = i) as Hr.
  { intros x Hx. apply list_elem_of_lookup in Hx as [p Hp]. apply lookup_zip_with_Some in Hp as (j & y & -> & _). done. }
  split.
  - apply StronglySorted_app_2; [|clear -Hr|done].
    + intros x y Hx%Hr Hy%Hi. lia.
    + revert Hr. generalize (zip_with (λ j y, (i, j, y)) (range o (o + len r)) r) as l. induction l as [|x l IHl]; intros Hr; constructor.
      * apply IHl. intros. apply Hr. by right.
      * apply Forall_forall. intros y Hy. rewrite (Hr x), (Hr y); [done|by right|left].
  - intros x [Hx%Hr|Hx%Hi]%elem_of_app; lia.
Qed.

Section index.
Context `{GoStd}.
Context (v : View) (L : layout) (Ds : list delta) (HR : View_rep v L Ds).
Let D := delta_all Ds.
Let G := view_graph L Ds.
Let HB := vr_base _ _ _ HR.
Let HP := rep_packed _ _ HB.

(** [n] is an end of an edge of kind [k] of the base. *)
Definition base_end (outgoing : bool) (k : KindID) (n : NodeID) : Prop :=
  ∃ i j e, (i, j, e) ∈ lo_slots L ∧ oe_kind e = k ∧ n = if outgoing then i else oe_dst e.
(** [n] is an end of an edge of kind [k] the delta has a state for. *)
Definition delta_end (outgoing : bool) (k : KindID) (n : NodeID) : Prop :=
  ∃ m id st, v_merged v = Some m ∧ (id, st) ∈ seg_edges m ∧ es_Kind st = k ∧
    denseOf v (if outgoing then es_StartID st else es_EndID st) = Some n.

Definition slot_ix (ix : edgeKindIndex) (x : N * N * oedge) : edgeKindIndex :=
  mkEdgeKindIndex (<[oe_kind x.2 := appendDistinctTail (postings (ek_out ix) (oe_kind x.2)) x.1.1]> (ek_out ix))
    (<[oe_kind x.2 := postings (ek_in ix) (oe_kind x.2) ++ [oe_dst x.2]]> (ek_in ix)).

Lemma ensure_slots : ensureEdgeKindIndex (v_base v) =
  Some (let ix := foldl slot_ix (mkEdgeKindIndex ∅ ∅) (lo_slots L) in
        mkEdgeKindIndex (ek_out ix) (sort_dedupe <$> ek_in ix)).
Proof.
  unfold ensureEdgeKindIndex. rewrite (rep_NodeCount _ _ HB), <- (pk_out_len _ _ HP), (pk_out _ _ HP).
  rewrite (foldM_slots (index_slot (v_base v))). rewrite (foldM_ext _ (λ ix x, Some (slot_ix ix x))).
  - by rewrite foldM_pure.
  - intros ix [[i j] e] Hin. pose proof (slot_facts _ _ HB _ _ _ Hin) as (r & q & a & b & Hr & _ & _ & He & _).
    unfold index_slot. rewrite (pk_kinds _ _ HP), (pk_targets _ _ HP), !idx_fmap, He. simpl.
    apply idx_lt in Hr. rewrite (pk_out_len _ _ HP) in Hr. rewrite u32_small; [done|]. pose proof (pk_n _ _ HP). lia.
Qed.

Lemma slot_ix_out l ix : ek_out (foldl slot_ix ix l) =
  foldl (λ m x, <[oe_kind x.2 := appendDistinctTail (postings m (oe_kind x.2)) x.1.1]> m) (ek_out ix) l.
Proof. revert ix. induction l as [|x l IH]; intros ix; [done|]. cbn [foldl]. by rewrite IH. Qed.
Lemma slot_ix_in l ix : ek_in (foldl slot_ix ix l) =
  foldl (λ m x, <[oe_kind x.2 := postings m (oe_kind x.2) ++ [oe_dst x.2]]> m) (ek_in ix) l.
Proof. revert ix. induction l as [|x l IH]; intros ix; [done|]. cbn [foldl]. by rewrite IH. Qed.

Lemma foldl_snoc {A B} (f : A → B) l acc : foldl (λ ids x, ids ++ [f x]) acc l = acc ++ (f <$> l).
Proof.
  revert acc. induction l as [|x l IH]; intros acc; [by rewrite app_nil_r|]. cbn [foldl]. rewrite IH, <- (assoc_L (++)). done.
Qed.

Lemma base_index : ∃ ix, ensureEdgeKindIndex (v_base v) = Some ix ∧
  ∀ outgoing k, lists (postings (ek_side ix outgoing) k) (base_end outgoing k).
Proof.
  rewrite ensure_slots. eexists. split; [done|]. intros [] k; simpl.
  - rewrite slot_ix_out. rewrite (postings_foldl (λ x : N * N * oedge, oe_kind x.2) (λ ids x, appendDistinctTail ids x.1.1)).
    rewrite <- (foldl_fmap' appendDistinctTail (λ x : N * N * oedge, x.1.1)).
    eapply lists_iff; [apply distinct_tail_lists|].
    + eapply StronglySorted_fmap_in; [|apply StronglySorted_filter, (proj1 (slots_sorted 0 0 (lo_out L)))]. intros. done.
    + intros n. rewrite list_elem_of_fmap. unfold base_end. split.
      * intros ([[i j] e] & -> & [Hk Hin]%list_elem_of_filter). eauto 10.
      * intros (i & j & e & Hin & Hk & ->). exists (i, j, e). split; [done|]. by apply list_elem_of_filter.
  - rewrite postings_fmap by apply sort_dedupe_nil. rewrite slot_ix_in.
    rewrite (postings_foldl (λ x : N * N * oedge, oe_kind x.2) (λ ids x, ids ++ [oe_dst x.2])).
    rewrite foldl_snoc. eapply lists_iff; [apply sort_dedupe_lists|]. intros n.
    change (postings (ek_in (mkEdgeKindIndex ∅ ∅)) k) with (@nil NodeID). rewrite app_nil_l, list_elem_of_fmap. unfold base_end. split.
    + intros ([[i j] e] & -> & [Hk Hin]%list_elem_of_filter). eauto 10.
    + intros (i & j & e & Hin & Hk & ->). exists (i, j, e). split; [done|]. by apply list_elem_of_filter.
Qed.

Lemma add_end_fold (key : N * EdgeSegState → option NodeID) l m k : postings
    (foldl (λ m x, add_end m (es_Kind x.2) (key x)) m l) k =
  postings m k ++ omap key (filter (λ x, es_Kind x.2 = k) l).
Proof.
  revert m. induction l as [|x l IH]; intros m; [by rewrite app_nil_r|]. cbn [foldl]. rewrite IH, filter_cons.
  unfold add_end. destruct (key x) as [id|] eqn:Ex; [rewrite postings_insert|];
    destruct (decide (es_Kind x.2 = k)) as [<-|Hne]; csimpl; rewrite ?Ex; try done. by rewrite <- (assoc_L (++)).
Qed.

Definition edge_ix (v : View) (ix : edgeKindIndex) (x : N * EdgeSegState) : edgeKindIndex :=
  mkEdgeKindIndex (add_end (ek_out ix) (es_Kind x.2) (denseOf v (es_StartID x.2)))
    (add_end (ek_in ix) (es_Kind x.2) (denseOf v (es_EndID x.2))).
Lemma edge_ix_out l ix : ek_out (foldl (edge_ix v) ix l) =
  foldl (λ m x, add_end m (es_Kind x.2) (denseOf v (es_StartID x.2))) (ek_out ix) l.
Proof. revert ix. induction l as [|x l IH]; intros ix; [done|]. cbn [foldl]. by rewrite IH. Qed.
Lemma edge_ix_in l ix : ek_in (foldl (edge_ix v) ix l) =
  foldl (λ m x, add_end m (es_Kind x.2) (denseOf v (es_EndID x.2))) (ek_in ix) l.
Proof. revert ix. induction l as [|x l IH]; intros ix; [done|]. cbn [foldl]. by rewrite IH. Qed.

Lemma delta_index : ∃ r, ensureDeltaEdgeKindIndex v = Some r ∧
  ∀ outgoing k, lists (match r with Some ix => postings (ek_side ix outgoing) k | None => [] end) (delta_end outgoing k).
Proof.
  unfold ensureDeltaEdgeKindIndex. destruct (v_merged v) as [m|] eqn:Em.
  2: { eexists. split; [done|]. intros outgoing k. split; [constructor|]. intros n. rewrite elem_of_nil.
       split; [done|]. intros (m & ? & ? & ? & _). congruence. }
  unfold IterEdges. rewrite (iter_until_pure (edge_ix v)). eexists. split; [done|]. intros outgoing k. cbn beta iota.
  assert (postings (ek_side (mkEdgeKindIndex (sort_dedupe <$> ek_out (foldl (edge_ix v) (mkEdgeKindIndex ∅ ∅) (seg_edges m)))
      (sort_dedupe <$> ek_in (foldl (edge_ix v) (mkEdgeKindIndex ∅ ∅) (seg_edges m)))) outgoing) k =
    sort_dedupe (omap (λ x, denseOf v (if outgoing then es_StartID x.2 else es_EndID x.2))
      (filter (λ x, es_Kind x.2 = k) (seg_edges m)))) as ->.
  { destruct outgoing; cbn [ek_side ek_out ek_in]; rewrite postings_fmap by apply sort_dedupe_nil.
    - by rewrite edge_ix_out, (add_end_fold (λ x, denseOf v (es_StartID x.2))).
    - by rewrite edge_ix_in, (add_end_fold (λ x, denseOf v (es_EndID x.2))). }
  eapply lists_iff; [apply sort_dedupe_lists|]. intros n. cbn beta. rewrite list_elem_of_omap. unfold delta_end. split.
  - intros ([id st] & [Hk Hin]%list_elem_of_filter & Hn). eauto 10.
  - intros (m' & id & st & Em' & Hin & Hk & Hn). assert (m' = m) as -> by congruence.
    exists (id, st). split; [by apply list_elem_of_filter|done].
Qed.

(** ** Over several kinds *)

Lemma lists_merge (side : KindID → list NodeID) (P : KindID → NodeID → Prop) kinds l Q :
  (∀ k, lists (side k) (P k)) → lists l Q →
  lists (foldl (λ merged k, mergeSortedIDs merged (side k)) l kinds) (λ n, Q n ∨ ∃ k, k ∈ kinds ∧ P k n).
Proof.
  intros Hs. revert l Q. induction kinds as [|k kinds IH]; intros l Q Hl; cbn [foldl].
  { eapply lists_iff; [exact Hl|]. intros n. setoid_rewrite elem_of_nil. naive_solver. }
  eapply lists_iff; [apply IH, (mergeSortedIDs_lists _ _ _ _ Hl (Hs k))|].
  intros n. setoid_rewrite elem_of_cons. naive_solver.
Qed.

Lemma delta_endpoints kinds outgoing : ∃ l, deltaEdgeEndpointsFor v kinds outgoing = Some l ∧
  lists l (λ n, ∃ k, k ∈ kinds ∧ delta_end outgoing k n).
Proof.
  unfold deltaEdgeEndpointsFor. destruct delta_index as (r & -> & Hr). simpl. destruct r as [ix|].
  2: { eexists. split; [done|]. split; [constructor|]. intros n. rewrite elem_of_nil. split; [done|].
       intros (k & _ & Hk). by apply (Hr outgoing k), elem_of_nil in Hk. }
  assert (lists [] (λ _ : NodeID, False)) as Hnil by (split; [constructor|]; intros n; by rewrite elem_of_nil).
  pose proof (lists_merge (λ k, postings (ek_side ix outgoing) k) _ kinds [] _ (Hr outgoing) Hnil) as Hm.
  destruct kinds as [|k [|k' kinds]].
  - eexists. split; [done|]. eapply lists_iff; [exact Hm|]. naive_solver.
  - eexists. split; [done|]. eapply lists_iff; [apply Hr|]. intros n. setoid_rewrite list_elem_of_singleton. naive_solver.
  - eexists. split; [done|]. eapply lists_iff; [exact Hm|]. naive_solver.
Qed.

(** The ids met so far, once each. *)
Definition met (st : gset NodeID * list NodeID) (P : NodeID → Prop) : Prop :=
  NoDup st.2 ∧ (∀ n, n ∈ st.1 ↔ n ∈ st.2) ∧ ∀ n, n ∈ st.2 ↔ P n.
Lemma union_row st P l : met st P → met (foldl union_add st l) (λ n, P n ∨ n ∈ l).
Proof.
  revert st P. induction l as [|x l IH]; intros st P (Hnd & Hs & HP0); cbn [foldl].
  { split_and!; [done..|]. intros n. rewrite elem_of_nil, HP0. naive_solver. }
  assert (met (union_add st x) (λ n, P n ∨ n = x)) as Hx.
  { unfold union_add. case_bool_decide as Hin.
    - split_and!; [done..|]. intros n. rewrite HP0. apply Hs, HP0 in Hin. naive_solver.
    - split_and!; simpl.
      + apply NoDup_app. split_and!; [done| |apply NoDup_singleton]. intros n Hn ->%list_elem_of_singleton. by apply Hin, Hs.
      + intros n. rewrite elem_of_union, elem_of_singleton, elem_of_app, list_elem_of_singleton, Hs. tauto.
      + intros n. by rewrite elem_of_app, list_elem_of_singleton, HP0. }
  destruct (IH _ _ Hx) as (H1 & H2 & H3). split_and!; [done..|]. intros n. rewrite H3, elem_of_cons. tauto.
Qed.
Lemma union_rows st P (side : gmap KindID (list NodeID)) kinds : met st P →
  met (foldl (λ st k, foldl union_add st (postings side k)) st kinds) (λ n, P n ∨ ∃ k, k ∈ kinds ∧ n ∈ postings side k).
Proof.
  revert st P. induction kinds as [|k kinds IH]; intros st P Hst; cbn [foldl].
  { destruct Hst as (? & ? & H3). split_and!; [done..|]. intros n. rewrite H3. setoid_rewrite elem_of_nil. naive_solver. }
  destruct (IH _ _ (union_row _ _ (postings side k) Hst)) as (? & ? & H3). split_and!; [done..|].
  intros n. rewrite H3. setoid_rewrite elem_of_cons. naive_solver.
Qed.

(** ** What is remembered *)

Definition any_end (P : bool → KindID → NodeID → Prop) (kinds : list KindID) (outgoing : bool) (n : NodeID) : Prop :=
  ∃ k, k ∈ kinds ∧ P outgoing k n.
Definition memo_holds (m : gmap string (list NodeID)) (P : bool → KindID → NodeID → Prop) : Prop :=
  ∀ key l, m !! key = Some l → ∃ kinds outgoing, key = unionKey kinds outgoing ∧ lists l (any_end P kinds outgoing).
Record memo_ok (mm : ekMemo) : Prop := {
  mo_unions : memo_holds (mm_unions mm) base_end;
  mo_endpoints : memo_holds (mm_endpoints mm) (λ o k n, base_end o k n ∨ delta_end o k n);
}.

Lemma memo_hit m P kinds outgoing l : memo_holds m P → m !! unionKey kinds outgoing = Some l → lists l (any_end P kinds outgoing).
Proof.
  intros Hm Hl. destruct (Hm _ _ Hl) as (kinds' & o' & Hkey & Hs). apply unionKey_inj in Hkey as [<- Hk].
  eapply lists_iff; [exact Hs|]. intros n. unfold any_end. by setoid_rewrite Hk.
Qed.
Lemma memo_insert m P kinds outgoing l : memo_holds m P → lists l (any_end P kinds outgoing) →
  memo_holds (<[unionKey kinds outgoing := l]> m) P.
Proof. intros Hm Hl key l' [[<- <-]|[_ Hl']]%lookup_insert_Some; [by exists kinds, outgoing|by apply Hm]. Qed.

Lemma unionFor_spec ix kinds outgoing mm : memo_ok mm →
  (∀ o k, lists (postings (ek_side ix o) k) (base_end o k)) →
  let '(mm', l) := unionFor (ek_side ix outgoing) kinds outgoing mm in
  memo_ok mm' ∧ lists l (any_end base_end kinds outgoing).
Proof.
  intros [Hu He] Hix. unfold unionFor. destruct (mm_unions mm !! _) as [got|] eqn:Eg.
  { split; [by split|by eapply memo_hit]. }
  assert (met (∅, []) (λ _, False)) as H0.
  { split_and!; simpl; [constructor|intros n; by rewrite elem_of_nil|intros n; by rewrite elem_of_nil]. }
  pose proof (union_rows _ _ (ek_side ix outgoing) kinds H0) as Hm. destruct (foldl _ _ kinds) as [seen merged].
  destruct Hm as (Hnd & _ & Hm). simpl in Hnd, Hm.
  assert (lists (go_sort ids_less merged) (any_end base_end kinds outgoing)) as Hl.
  { eapply lists_iff; [by apply go_sort_lists|]. intros n. cbn beta. rewrite Hm. unfold any_end.
    split; [intros [[]|(k & Hk & Hn)]|intros (k & Hk & Hn); right]; exists k; (split; [done|]); by apply (Hix outgoing k). }
  split; [|done]. split; [by apply memo_insert|done].
Qed.

Definition listed_end (outgoing : bool) (k : KindID) (n : NodeID) : Prop := base_end outgoing k n ∨ delta_end outgoing k n.

Lemma plain_no_delta outgoing k n : Overlay v = false → ¬ delta_end outgoing k n.
Proof. intros Ho (m & ? & ? & Em & _). destruct (merged_cases v L Ds HR) as [(E & _ & _)|(? & _ & _ & E)]; congruence. Qed.

Lemma EdgeKindEndpoints_lists kinds outgoing mm : memo_ok mm → kinds ≠ [] →
  ∃ mm' l, EdgeKindEndpoints v kinds outgoing mm = Some (mm', Some l) ∧ memo_ok mm' ∧
    lists l (any_end listed_end kinds outgoing).
Proof.
  intros Hm Hk. unfold EdgeKindEndpoints. destruct base_index as (ix & -> & Hix).
  assert (let '(mm', l) := match kinds with [k] => (mm, postings (ek_side ix outgoing) k)
      | _ => unionFor (ek_side ix outgoing) kinds outgoing mm end in
    memo_ok mm' ∧ lists l (any_end base_end kinds outgoing)) as Hb.
  { pose proof (unionFor_spec ix kinds outgoing mm Hm Hix) as Hu. destruct kinds as [|k [|k' kinds]]; [done| |exact Hu].
    split; [done|]. eapply lists_iff; [apply Hix|]. intros n. unfold any_end. setoid_rewrite list_elem_of_singleton. naive_solver. }
  destruct kinds as [|k0 kinds0]; [done|]. set (kinds := k0 :: kinds0) in *. cbn [mbind option_bind].
  destruct (match kinds0 with [] => (mm, postings (ek_side ix outgoing) k0)
    | _ :: _ => unionFor (ek_side ix outgoing) kinds outgoing mm end) as [mm1 merged]. destruct Hb as [Hm1 Hl].
  destruct (Overlay v) eqn:Eo; cbn [negb].
  2: { exists mm1, merged. split_and!; [done..|]. eapply lists_iff; [exact Hl|]. intros n. unfold any_end, listed_end.
       split; [naive_solver|]. intros (k & ? & [?|[]%plain_no_delta]); eauto. }
  destruct (mm_endpoints mm1 !! unionKey kinds outgoing) as [got|] eqn:Eg.
  { exists mm1, got. split_and!; [done..|]. by eapply memo_hit; [apply (mo_endpoints _ Hm1)|]. }
  destruct (delta_endpoints kinds outgoing) as (d & -> & Hd). cbn [mbind option_bind].
  assert (lists (mergeSortedIDs merged d) (any_end listed_end kinds outgoing)) as Hout.
  { eapply lists_iff; [apply (mergeSortedIDs_lists _ _ _ _ Hl Hd)|]. intros n. unfold any_end, listed_end. naive_solver. }
  eexists _, _. split; [done|]. split; [|done]. destruct Hm1. split; [done|]. by apply memo_insert.
Qed.

(** The ends of the graph's edges are listed. *)
Lemma edge_listed id a b k n (outgoing : bool) : g_edges G !! id = Some (a, b, k) →
  denseOf v (if outgoing then a else b) = Some n → listed_end outgoing k n.
Proof.
  unfold G. rewrite graph_edges. intros Hg Hn. destruct (d_edges (delta_all Ds) !! id) as [o|] eqn:Ed.
  - right. subst o. destruct (merged_cases v L Ds HR) as [(_ & E & _)|(m & Em & Hm & _)].
    { rewrite E in Ed. simpl in Ed. by rewrite lookup_empty in Ed. }
    rewrite (sr_edges _ _ Hm), lookup_fmap in Ed. destruct (sg_edgeStates m !! id) as [st|] eqn:Est; [|done].
    simpl in Ed. unfold edge_abs in Ed. destruct (es_Tombstoned st) eqn:Et; [done|]. simplify_eq.
    exists m, id, st. split_and!; [done| |done|by destruct outgoing]. by apply (seg_edges_elem Ds m).
  - left. apply (base_edge L (vr_edge_ids _ _ _ HR)) in Hg as (i & j & e & Hin & E).
    destruct (slot_facts (v_base v) L HB _ _ _ Hin) as (? & ? & a' & b' & _ & _ & _ & _ & Ha & Hb & Es).
    rewrite Es in E. simplify_eq. exists i, j, e. split_and!; [done..|].
    apply (denseOf_spec v L Ds HR) in Hn. destruct outgoing; eapply (dense_unique v L Ds HR); try exact Hn; by apply (base_idx v L Ds HR).
Qed.

(** On a plain view what is listed is the end of a visible edge. *)
Lemma plain_listed k n (outgoing : bool) : Overlay v = false → listed_end outgoing k n →
  ∃ id a b, visible G !! id = Some (a, b, k) ∧ denseOf v (if outgoing then a else b) = Some n.
Proof.
  intros Ho [(i & j & e & Hin & Hk & Hn)|[]%plain_no_delta]; [|done].
  destruct (slot_facts (v_base v) L HB _ _ _ Hin) as (? & ? & a & b & _ & _ & _ & _ & Ha & Hb & Es).
  destruct (merged_cases v L Ds HR) as [(_ & E & _)|(? & _ & _ & ?)]; [|congruence].
  exists (oe_id e), a, b. split.
  - apply visible_iff. unfold G. rewrite view_graph_all, E, apply_delta_empty. split_and!.
    + apply (base_edge L (vr_edge_ids _ _ _ HR)). exists i, j, e. split; [done|]. by rewrite Es, Hk.
    + destruct (base_node v L Ds HR _ _ Ha) as (? & ? & _ & _ & ->). eauto.
    + destruct (base_node v L Ds HR _ _ Hb) as (? & ? & _ & _ & ->). eauto.
  - apply (denseOf_spec v L Ds HR). subst n. destruct outgoing; by apply (base_idx v L Ds HR).
Qed.
Lemma listed_lt k n (outgoing : bool) : listed_end outgoing k n → n < View_NodeCount v.
Proof.
  intros [(i & j & e & Hin & _ & ->)|(m & id & st & _ & _ & _ & Hn)].
  - destruct (slot_facts (v_base v) L HB _ _ _ Hin) as (? & ? & a & b & _ & _ & _ & _ & Ha & Hb & _).
    destruct outgoing; eapply (dense_lt v); by apply (base_idx v L Ds HR).
  - apply (denseOf_spec v L Ds HR) in Hn. by eapply (dense_lt v).
Qed.
End index.
