(* ===== verification/PropIndex.v ===== *)
(** * Nodes by a string property

    [internal/engine/snapshot/propindex.go] and [deltapropindex.go]: the nodes
    of the base with a string under a property, in node order, by value, and
    by value read backwards; a prefix is found by binary search in the first
    order, a suffix in the second. An overlay adds the nodes of the delta whose
    own value matches.

    The results: in the base the answer is exactly the matching nodes, each
    once; on a view every live node with a matching value is among the
    candidates, each once; what a plain view answers is exact. *)

From S2P Require Import Prelude Bitset Csr Kinds Props Snapshot Builder Segment View ViewAdj EdgeKinds.
From Stdlib Require Import Ascii.
From stdpp Require Import options.
Unset Default Proof Using.
#[local] Open Scope N_scope.

(** ** Definitions *)

Inductive StringMatch := StringEquals | StringPrefix | StringSuffix | StringContains.

(** *** Text, as bytes *)


(** The indices run down from the two ends: over the texts backwards. *)
Fixpoint less_back (la lb : nat) (a b : bytes) : bool :=
  match a, b with
  | x :: a', y :: b' => if negb (Ascii.eqb x y) then N_of_ascii x <? N_of_ascii y else less_back la lb a' b'
  | _, _ => (la <? lb)%nat
  end.
Definition lessReversed (a b : string) : bool :=
  less_back (length (text a)) (length (text b)) (rev (text a)) (rev (text b)).

(** [strings.HasPrefix], [HasSuffix] and [Contains]. *)
Fixpoint bytes_prefix (p s : bytes) : bool :=
  match p, s with
  | [], _ => true
  | x :: p', y :: s' => Ascii.eqb x y && bytes_prefix p' s'
  | _ :: _, [] => false
  end.
Definition HasPrefix (s p : string) : bool := bytes_prefix (text p) (text s).
Definition HasSuffix (s p : string) : bool :=
  (length (text p) <=? length (text s))%nat &&
  bool_decide (drop (length (text s) - length (text p)) (text s) = text p).
Fixpoint bytes_contain (s p : bytes) : bool :=
  bytes_prefix p s || match s with [] => false | _ :: s' => bytes_contain s' p end.
Definition Contains (s p : string) : bool := bytes_contain (text s) (text p).

Definition matchString (s : string) (m : StringMatch) (operand : string) : bool :=
  match m with
  | StringEquals => String.eqb s operand
  | StringPrefix => HasPrefix s operand
  | StringSuffix => HasSuffix s operand
  | StringContains => Contains s operand
  end.

(** *** The base's index *)

(** [Some None]: the second result is false. *)
Definition stringValue (p : PropStore) (n : NodeID) (prop : N) : option (option string) :=
  es ← row (ps_nodeOffsets p) (ps_entries p) n (u32 (n + 1));
  r ← search_prop es prop;
  match r with
  | None => Some None
  | Some e => if negb (e_kind e =? propKindString) then Some None
              else s ← stringAt (ps_arena p) (e_ref e) (e_len e); Some (Some s)
  end.
(** The value of a node that is known to have one: these reads were made before
    without a panic. *)
Definition value_of (p : PropStore) (prop : N) (n : NodeID) : string :=
  match stringValue p n prop with Some (Some s) => s | _ => EmptyString end.

(** [present]; [None] inside is the nil index of a property nobody interned. *)
Definition stringIndexFor (s : Snapshot) (prop : N) : option (option (list NodeID)) :=
  if len (ps_names (Props s)) <=? prop then Some None
  else
    present ← foldM (λ present i,
        r ← stringValue (Props s) (u32 i) prop;
        match r with Some _ => Some (present ++ [u32 i]) | None => Some present end) (range 0 (NodeCount s)) [];
    Some (Some present).

Section index.
Context `{GoStd}.

Definition forward (p : PropStore) (prop : N) (present : list NodeID) : list NodeID :=
  go_sort (λ a b, str_less (value_of p prop a) (value_of p prop b)) present.
Definition reverse (p : PropStore) (prop : N) (present : list NodeID) : list NodeID :=
  go_sort (λ a b, lessReversed (value_of p prop a) (value_of p prop b)) present.

(** The loop from the first candidate on, up to the first one that is not kept. *)
Fixpoint take_while {A} (keep : A → bool) (ids : list A) : list A :=
  match ids with [] => [] | id :: ids' => if keep id then id :: take_while keep ids' else [] end.

Definition NodesWithString (v : View) (prop : N) (m : StringMatch) (operand : string)
  : option (option (list NodeID)) :=
  r ← stringIndexFor (v_base v) prop;
  match r with
  | None => Some None
  | Some present =>
      let p := Props (v_base v) in
      match m with
      | StringContains =>
          out ← foldM (λ out id, s ← stringValue p id prop;
                        match s with Some s => if Contains s operand then Some (out ++ [id]) else Some out
                                   | None => Some out end) present [];
          Some (Some out)
      | StringSuffix =>
          let ids := reverse p prop present in
          lo ← search (len ids) (λ i, id ← idx ids i; Some (negb (lessReversed (value_of p prop id) operand)));
          Some (Some (take_while (λ id, HasSuffix (value_of p prop id) operand) (drop (N.to_nat lo) ids)))
      | _ =>
          let ids := forward p prop present in
          lo ← search (len ids) (λ i, id ← idx ids i; Some (negb (str_less (value_of p prop id) operand)));
          Some (Some (take_while (λ id,
            let s := value_of p prop id in
            HasPrefix s operand && negb (match m with StringEquals => negb (String.eqb s operand) | _ => false end))
            (drop (N.to_nat lo) ids)))
      end
  end.

(** *** The delta's *)

Definition unionDeltaTouched (indexed touched : list NodeID) : list NodeID :=
  if len touched =? 0 then indexed
  else filter (λ id, id ∉ touched) indexed ++ touched.

(** The part of [deltaPropFor] that the string lookups use: the strings, in
    node order, and how many nodes carry the property. *)
Record deltaStrings := mkDeltaStrings { ds_strings : list (NodeID * string); ds_n : N }.
Definition delta_string (v : View) (name : string) (acc : deltaStrings) (x : N * NodeSegState) : option deltaStrings :=
  if ns_Tombstoned x.2 then Some acc
  else
    val ← NodeSegState_PropValueByName x.2 name;
    match val with
    | None => Some acc
    | Some val =>
        match denseOf v x.1 with
        | None => Some acc
        | Some dense =>
            Some (mkDeltaStrings (match val with AString s => ds_strings acc ++ [(dense, s)] | _ => ds_strings acc end)
                    (ds_n acc + 1))
        end
    end.
Definition deltaPropFor (v : View) (name : string) : option (option deltaStrings) :=
  if negb (Overlay v) then Some None
  else
    d ← match v_merged v with
        | None => Some (mkDeltaStrings [] 0)
        | Some m => foldM (delta_string v name) (seg_nodes m) (mkDeltaStrings [] 0)
        end;
    Some (Some (mkDeltaStrings (go_sort (less_key fst) (ds_strings d)) (ds_n d))).
Definition matchingStrings (d : option deltaStrings) (m : StringMatch) (operand : string) : list NodeID :=
  match d with
  | None => []
  | Some d => omap (λ e : NodeID * string, if matchString e.2 m operand then Some e.1 else None) (ds_strings d)
  end.
Definition delta_count (d : option deltaStrings) : N := match d with None => 0 | Some d => ds_n d end.

Definition NodesWithStringByName (v : View) (name : string) (m : StringMatch) (operand : string)
  : option (option (list NodeID)) :=
  let interned := PropIDByName v name in
  match interned with
  | None => if negb (Overlay v) then Some (Some [])
            else d ← deltaPropFor v name; Some (Some (unionDeltaTouched [] (matchingStrings d m operand)))
  | Some prop =>
      got ← NodesWithString v prop m operand;
      match got with
      | None => Some None
      | Some base =>
          if negb (Overlay v) then Some (Some base)
          else d ← deltaPropFor v name; Some (Some (unionDeltaTouched base (matchingStrings d m operand)))
      end
  end.

Definition HasStringValue (v : View) (prop : N) : option (bool * bool) :=
  r ← stringIndexFor (v_base v) prop;
  match r with
  | None => Some (false, false)
  | Some present =>
      if 0 <? len present then Some (true, true)
      else if negb (Overlay v) then Some (false, true)
      else
        d ← deltaPropFor v (PropStore_Name (Props (v_base v)) prop);
        Some (match d with Some d => 0 <? len (ds_strings d) | None => false end, true)
  end.
Definition PropCount (v : View) (prop : N) : option (option N) :=
  r ← stringIndexFor (v_base v) prop;
  match r with
  | None => Some None
  | Some present =>
      if negb (Overlay v) then Some (Some (len present))
      else d ← deltaPropFor v (PropStore_Name (Props (v_base v)) prop); Some (Some (len present + delta_count d))
  end.
End index.

(** ** Orders on text *)

Lemma less_back_spec la lb a b : (la + length b = lb + length a)%nat → less_back la lb a b = bytes_less a b.
Proof.
  revert b. induction a as [|x a IH]; intros [|y b]; simpl; intros E.
  - apply Nat.ltb_ge. lia.
  - apply Nat.ltb_lt. lia.
  - apply Nat.ltb_ge. lia.
  - destruct (Ascii.eqb x y); simpl; [apply IH; lia|done].
Qed.
Lemma lessReversed_spec a b : lessReversed a b = bytes_less (rev (text a)) (rev (text b)).
Proof. apply less_back_spec. rewrite !length_rev. lia. Qed.

(** ** Parts of a text *)

Lemma bytes_prefix_spec p s : bytes_prefix p s = true ↔ ∃ t, s = p ++ t.
Proof.
  revert s. induction p as [|x p IH]; intros s; simpl; [split; [by exists s|done]|].
  destruct s as [|y s]; [split; [done|by intros [t Ht]]|]. rewrite andb_true_iff, IH. split.
  - intros [->%Ascii.eqb_eq [t ->]]. by exists t.
  - intros [t [= -> ->]]. split; [apply Ascii.eqb_refl|by exists t].
Qed.
Lemma HasPrefix_spec s p : HasPrefix s p = true ↔ ∃ t, text s = text p ++ t.
Proof. apply bytes_prefix_spec. Qed.
Lemma HasSuffix_spec s p : HasSuffix s p = true ↔ ∃ t, text s = t ++ text p.
Proof.
  unfold HasSuffix. rewrite andb_true_iff, Nat.leb_le, bool_decide_eq_true. split.
  - intros [Hl Hd]. exists (take (length (text s) - length (text p)) (text s)). rewrite <- Hd at 2. by rewrite take_drop.
  - intros [t ->]. rewrite length_app. split; [lia|]. by rewrite Nat.add_sub, drop_app_length.
Qed.
Lemma HasSuffix_rev s p : HasSuffix s p = bytes_prefix (rev (text p)) (rev (text s)).
Proof.
  apply eq_bool_prop_intro. rewrite !Is_true_true, HasSuffix_spec, bytes_prefix_spec. split.
  - intros [t ->]. exists (rev t). apply rev_app_distr.
  - intros [t Ht]. exists (rev t). apply (f_equal (@rev _)) in Ht. by rewrite rev_app_distr, !rev_involutive in Ht.
Qed.
Lemma bytes_contain_spec s p : bytes_contain s p = true ↔ ∃ a b, s = a ++ p ++ b.
Proof.
  induction s as [|x s IH]; simpl; rewrite orb_true_iff, bytes_prefix_spec.
  - split; [intros [[t Ht]|?]; [by exists [], t|done]|]. intros (a & b & Ht). left. destruct a; [by exists b|done].
  - rewrite IH. split.
    + intros [[t Ht]|(a & b & ->)]; [by exists [], t|by exists (x :: a), b].
    + intros (a & b & Ht). destruct a as [|y a]; [left; by exists b|]. right. injection Ht as -> ->. by exists a, b.
Qed.
Lemma Contains_spec s p : Contains s p = true ↔ ∃ a b, text s = a ++ text p ++ b.
Proof. apply bytes_contain_spec. Qed.

(** Texts with a prefix are not below it, and nothing between it and one of
    them lacks it. *)
Lemma prefix_not_less p s : bytes_prefix p s = true → bytes_less s p = false.
Proof.
  revert s. induction p as [|x p IH]; intros [|y s]; simpl; try done. intros [->%Ascii.eqb_eq Hp]%andb_true_iff.
  rewrite Ascii.eqb_refl. by apply IH.
Qed.
Lemma prefix_between p x y : bytes_less x p = false → bytes_less y x = false → bytes_prefix p y = true → bytes_prefix p x = true.
Proof.
  revert x y. induction p as [|a p IH]; intros [|b x] [|c y]; simpl; try done.
  intros Hx Hy [->%Ascii.eqb_eq Hp]%andb_true_iff. rewrite (Ascii.eqb_sym b c) in Hx.
  destruct (Ascii.eqb_spec c b) as [->|Hcb].
  - by apply (IH x y).
  - rewrite N.ltb_ge in Hx, Hy. exfalso. apply Hcb, ascii_eq_dec_N. lia.
Qed.

(** ** A range of a sorted list *)

Section range_query.
Context {A : Type} (less : A → A → bool) (below keep : A → bool).
Hypothesis Hbelow : ∀ x y, le_of less x y → below y = true → below x = true.
Hypothesis Hkeep : ∀ y, keep y = true → below y = false.
Hypothesis Hbetween : ∀ x y, le_of less x y → below x = false → keep y = true → keep x = true.

Lemma take_while_filter (ids : list A) : StronglySorted (le_of less) ids → (∀ x, x ∈ ids → below x = false) →
  take_while keep ids = filter (λ x, keep x = true) ids.
Proof.
  induction 1 as [|x ids Hs IH Hx]; intros Hb; [done|]. rewrite Forall_forall in Hx. simpl. rewrite filter_cons.
  destruct (keep x) eqn:Ek; simpl.
  - f_equal. apply IH. intros. apply Hb. by right.
  - symmetry. apply filter_nil_none. intros y Hy Ey. apply Hx in Hy.
    rewrite (Hbetween x y) in Ek; [done|done|apply Hb; left|done].
Qed.

(** From the first one that is not below, while kept: all that are kept. *)
Lemma range_found (ids : list A) : StronglySorted (le_of less) ids →
  ∃ lo, search (len ids) (λ i, x ← idx ids i; Some (negb (below x))) = Some lo ∧
    take_while keep (drop (N.to_nat lo) ids) = filter (λ x, keep x = true) ids.
Proof.
  intros Hs. set (p i := match idx ids i with Some x => negb (below x) | None => true end).
  destruct (search_spec (len ids) (λ i, x ← idx ids i; Some (negb (below x))) p) as (lo & -> & Hlo & Hlt & Hge).
  - intros k Hk. unfold p. by destruct (idx_is_Some ids k Hk) as [x ->].
  - intros i j Hij Hj. unfold p. destruct (idx_is_Some ids j Hj) as [y Hy]. destruct (idx_is_Some ids i) as [x Hx]; [lia|].
    rewrite Hx, Hy, !negb_true_iff. intros Hbx. destruct (decide (i = j)) as [->|]; [congruence|].
    apply not_true_iff_false. intros Hby. rewrite (Hbelow x y) in Hbx; [done| |done].
    by apply (sorted_idx _ _ i j _ _ Hs Hx Hy); lia.
  - exists lo. split; [done|]. rewrite <- (take_drop (N.to_nat lo) ids) at 2. rewrite filter_app.
    rewrite (filter_nil_none _ (take _ _)), app_nil_l.
    + rewrite <- (take_drop (N.to_nat lo) ids) in Hs. apply StronglySorted_app in Hs as (_ & _ & Hs).
      apply take_while_filter; [done|]. intros x [k Hk]%elem_of_idx. unfold idx in Hk. rewrite lookup_drop in Hk.
      assert (idx ids (lo + k) = Some x) as Hx by (unfold idx; rewrite <- Hk; f_equal; lia).
      pose proof (idx_lt _ _ _ Hx). specialize (Hge (lo + k)). unfold p in Hge. rewrite Hx, negb_true_iff in Hge. apply Hge; lia.
    + intros x [k Hk]%elem_of_idx Hkx. apply Hkeep in Hkx. unfold idx in Hk. apply lookup_take_Some in Hk as [Hk Hl].
      specialize (Hlt k ltac:(lia)). unfold p, idx in Hlt. rewrite Hk, Hkx in Hlt. done.
Qed.
End range_query.

Lemma foldl_keep {A} (keep : A → bool) l acc :
  foldl (λ acc x, if keep x then acc ++ [x] else acc) acc l = acc ++ filter (λ x, keep x = true) l.
Proof.
  revert acc. induction l as [|x l IH]; intros acc; [by rewrite app_nil_r|]. cbn [foldl]. rewrite IH, filter_cons.
  destruct (keep x); simpl; [by rewrite <- (assoc_L (++))|done].
Qed.

(** ** The base's index *)

Section base_index.
Context `{GoStd}.
Context (s : Snapshot) (L : layout) (HB : Snapshot_rep s L).
Let p := Props s.

(** The string node [n] has under [name]. *)
Definition base_string (name : string) (n : NodeID) : option string :=
  bag ← idx (lo_bags L) n; string_value (bag !! name).

Lemma stringValue_spec name prop n bag : IDByName p name = Some prop → idx (lo_bags L) n = Some bag →
  stringValue p n prop = Some (string_value (bag !! name)).
Proof.
  intros Hid Hb. pose proof (dr_props _ _ (rep_derived _ _ HB)) as Hps. fold p in Hps.
  assert (len (lo_bags L) < 2 ^ 32) as Hn.
  { rewrite (proj2 (rep_lens _ _ HB)). apply (pk_n _ _ (rep_packed _ _ HB)). }
  destruct (store_row p _ _ Hps Hn _ _ Hb) as (es & bs & Hr & Hrow & <-).
  pose proof (row_value _ _ _ _ _ name (psr_ids _ _ _ Hps) (psr_names _ _ _ Hps) Hrow) as Hv.
  unfold IDByName in Hid. rewrite Hid in Hv. destruct Hv as (r & Hs & Hv).
  unfold stringValue. rewrite Hr. simpl. rewrite Hs. simpl. destruct r as [e|]; [|by rewrite Hv].
  destruct Hv as (v & Hev & ->). pose proof (decode_spec _ _ _ (psr_arena _ _ _ Hps) Hev) as [Hd _].
  unfold decode, decode_with in Hd. unfold entry_pval in Hev. destruct (N.eqb_spec (e_kind e) propKindString) as [Ek|Ek]; simpl.
  - rewrite Ek in Hd, Hev. simpl in Hd, Hev. case_decide; [|done]. destruct (slice _ _ _) as [bs'|]; [|done]. simpl in Hev.
    injection Hev as <-. simpl in Hd. destruct (stringAt _ _ _) as [str|]; [|done]. simpl in Hd |- *. by injection Hd as <-.
  - assert (∃ num bs', v = (e_kind e, num, bs')) as (num & bs' & ->).
    { destruct (arena_kind (e_kind e)); [case_decide; [|done]; destruct (slice _ _ _); [|done]|]; simpl in Hev; injection Hev as <-; eauto. }
    simpl. by destruct (N.eqb_spec (e_kind e) propKindString).
Qed.

Lemma value_of_spec name prop n str : IDByName p name = Some prop → base_string name n = Some str → value_of p prop n = str.
Proof.
  unfold base_string. destruct (idx (lo_bags L) n) as [bag|] eqn:Eb; [|done]. intros Hid Hs. simpl in Hs.
  unfold value_of. by rewrite (stringValue_spec name prop n bag Hid Eb), Hs.
Qed.

(** The nodes with a string, in order. *)
Lemma present_spec name prop : IDByName p name = Some prop → ∃ present, stringIndexFor s prop = Some (Some present) ∧
  StronglySorted N.lt present ∧ ∀ n, n ∈ present ↔ is_Some (base_string name n).
Proof.
  intros Hid. unfold stringIndexFor. fold p. pose proof (dr_props _ _ (rep_derived _ _ HB)) as Hps. fold p in Hps.
  pose proof (proj1 (psr_ids _ _ _ Hps name prop) Hid) as Hname. rewrite (proj2 (N.leb_gt _ _)) by (by eapply idx_lt).
  assert (NodeCount s = len (lo_bags L)) as Hn by (rewrite (rep_NodeCount _ _ HB); by rewrite (proj2 (rep_lens _ _ HB))).
  assert (len (lo_bags L) < 2 ^ 32) as Hn32.
  { rewrite (proj2 (rep_lens _ _ HB)). apply (pk_n _ _ (rep_packed _ _ HB)). }
  set (keep i := bool_decide (is_Some (base_string name i))).
  rewrite (foldM_ext _ (λ present i, Some (if keep i then present ++ [i] else present))).
  2: { intros present i [_ Hi]%elem_of_range. rewrite u32_small by lia. destruct (idx_is_Some (lo_bags L) i) as [bag Hb]; [lia|].
       rewrite (stringValue_spec name prop i bag Hid Hb). unfold keep, base_string. rewrite Hb. simpl. by destruct (string_value _). }
  rewrite foldM_pure, foldl_keep. simpl. eexists. split; [done|].
  split; [apply StronglySorted_filter, range_sorted|]. intros n. unfold keep.
  rewrite list_elem_of_filter, elem_of_range, bool_decide_eq_true. split; [by intros [? _]|].
  intros Hs. split; [done|]. split; [lia|]. unfold base_string in Hs. destruct (idx (lo_bags L) n) eqn:E; [|by destruct Hs].
  apply idx_lt in E. lia.
Qed.

(** The nodes whose string matches, each once. *)
Definition matches (name : string) (m : StringMatch) (operand : string) (n : NodeID) : Prop :=
  ∃ str, base_string name n = Some str ∧ matchString str m operand = true.

Lemma filtered_matches name m operand (ids present : list NodeID) (keep : NodeID → bool) :
  ids ≡ₚ present → StronglySorted N.lt present → (∀ n, n ∈ present ↔ is_Some (base_string name n)) →
  (∀ n str, base_string name n = Some str → keep n = matchString str m operand) →
  NoDup (filter (λ n, keep n = true) ids) ∧ ∀ n, n ∈ filter (λ n, keep n = true) ids ↔ matches name m operand n.
Proof.
  intros Hp Hs Hpres Hk. split; [apply NoDup_filter; rewrite Hp; by apply sorted_lt_NoDup|].
  intros n. rewrite list_elem_of_filter, Hp, Hpres. unfold matches. split.
  - intros [Hkn [str Hstr]]. exists str. split; [done|]. by rewrite <- (Hk n str).
  - intros (str & Hstr & Hm). split; [by rewrite (Hk n str)|by exists str].
Qed.
End base_index.

Section lookup.
Context `{GoStd}.
Context (v : View) (L : layout) (HB : Snapshot_rep (v_base v) L).
Let p := Props (v_base v).

(** A search in the nodes sorted by an order on their strings. *)
Lemma sorted_lookup name prop m operand present (cmp : string → string → bool) (key : string → bytes) (test : string → bool) :
  IDByName p name = Some prop → StronglySorted N.lt present → (∀ n, n ∈ present ↔ is_Some (base_string L name n)) →
  (∀ a b, cmp a b = bytes_less (key a) (key b)) →
  (∀ str, test str = true → cmp str operand = false) →
  (∀ a b, cmp a operand = false → cmp b a = false → test b = true → test a = true) →
  (∀ str, test str = matchString str m operand) →
  let ids := go_sort (λ a b, cmp (value_of p prop a) (value_of p prop b)) present in
  ∃ lo, search (len ids) (λ i, id ← idx ids i; Some (negb (cmp (value_of p prop id) operand))) = Some lo ∧
    let l := take_while (λ id, test (value_of p prop id)) (drop (N.to_nat lo) ids) in
    NoDup l ∧ ∀ n, n ∈ l ↔ matches L name m operand n.
Proof.
  intros Hid Hs Hpres Hcmp Hlow Hmid Htest ids.
  assert (is_less cmp) as Hless.
  { destruct bytes_less_spec as [H1 H2]. split; intros *; rewrite !Hcmp; [apply H1|apply H2]. }
  destruct (range_found (λ a b, cmp (value_of p prop a) (value_of p prop b))
    (λ n, cmp (value_of p prop n) operand) (λ n, test (value_of p prop n))) with (ids := ids) as (lo & E & Hl).
  - intros x y Hxy Hy. unfold le_of in Hxy. destruct (cmp (value_of p prop x) operand) eqn:E; [done|].
    by rewrite (proj2 Hless operand _ _ E Hxy) in Hy.
  - intros y. apply Hlow.
  - intros x y Hxy Hx. exact (Hmid _ _ Hx Hxy).
  - by apply go_sort_sorted, (is_less_map (value_of p prop)).
  - exists lo. split; [exact E|]. cbv zeta. rewrite Hl.
    apply (filtered_matches L name m operand ids present); [apply go_sort_perm|done|done|].
    intros n str Hn. assert (value_of p prop n = str) as -> by exact (value_of_spec (v_base v) L HB name prop n str Hid Hn). apply Htest.
Qed.

Lemma lookup_contains name prop operand present : IDByName p name = Some prop → StronglySorted N.lt present →
  (∀ n, n ∈ present ↔ is_Some (base_string L name n)) →
  ∃ l, foldM (λ out id, s ← stringValue p id prop;
         match s with Some s => if Contains s operand then Some (out ++ [id]) else Some out
                    | None => Some out end) present [] = Some l ∧
    NoDup l ∧ ∀ n, n ∈ l ↔ matches L name StringContains operand n.
Proof.
  intros Hid Hs Hpres. rewrite (foldM_ext _ (λ out id, Some (if Contains (value_of p prop id) operand then out ++ [id] else out))).
  - rewrite foldM_pure, foldl_keep. eexists. split; [done|].
    apply (filtered_matches L name StringContains operand present present); [done..|].
    intros n str Hn. assert (value_of p prop n = str) as -> by exact (value_of_spec (v_base v) L HB name prop n str Hid Hn). done.
  - intros out id Hin%Hpres. destruct Hin as [str Hstr]. assert (value_of p prop id = str) as -> by exact (value_of_spec (v_base v) L HB name prop id str Hid Hstr).
    unfold base_string in Hstr. destruct (idx (lo_bags L) id) as [bag|] eqn:Eb; [|done]. simpl in Hstr.
    assert (stringValue p id prop = _) as -> by exact (stringValue_spec (v_base v) L HB name prop id bag Hid Eb). rewrite Hstr. simpl. by destruct (Contains str operand).
Qed.

Lemma NodesWithString_base name prop m operand : IDByName p name = Some prop →
  ∃ l, NodesWithString v prop m operand = Some (Some l) ∧ NoDup l ∧ ∀ n, n ∈ l ↔ matches L name m operand n.
Proof.
  intros Hid. unfold NodesWithString. destruct (present_spec (v_base v) L HB name prop Hid) as (present & -> & Hs & Hp).
  cbn [mbind option_bind]. fold p. destruct m.
  - destruct (sorted_lookup name prop StringEquals operand present str_less text
      (λ s, HasPrefix s operand && negb (negb (String.eqb s operand))) Hid Hs Hp) as (lo & E & Hl); [done|..].
    + intros str. rewrite andb_true_iff. intros [Hpre _]. by apply prefix_not_less.
    + intros a b Ha Hba. rewrite !andb_true_iff, !negb_involutive. intros [_ ->%String.eqb_eq].
      assert (a = operand) as -> by by apply text_inj, bytes_less_total. split; [|apply String.eqb_refl].
      apply HasPrefix_spec. exists []. by rewrite app_nil_r.
    + intros str. rewrite negb_involutive. simpl. destruct (String.eqb_spec str operand) as [->|]; [|apply andb_false_r].
      rewrite andb_true_r. apply HasPrefix_spec. exists []. by rewrite app_nil_r.
    + unfold forward. rewrite E. eexists. split; [done|exact Hl].
  - destruct (sorted_lookup name prop StringPrefix operand present str_less text
      (λ s, HasPrefix s operand && negb false) Hid Hs Hp) as (lo & E & Hl); [done|..].
    + intros str. rewrite andb_true_r. apply prefix_not_less.
    + intros a b Ha Hba. rewrite !andb_true_r. by apply prefix_between.
    + intros str. apply andb_true_r.
    + unfold forward. rewrite E. eexists. split; [done|exact Hl].
  - destruct (sorted_lookup name prop StringSuffix operand present lessReversed (λ s, rev (text s))
      (λ s, HasSuffix s operand) Hid Hs Hp) as (lo & E & Hl); [apply lessReversed_spec|..|done|].
    + intros str. rewrite HasSuffix_rev, lessReversed_spec. apply prefix_not_less.
    + intros a b. rewrite !HasSuffix_rev, !lessReversed_spec. apply prefix_between.
    + unfold reverse. rewrite E. eexists. split; [done|exact Hl].
  - destruct (lookup_contains name prop operand present Hid Hs Hp) as (l & -> & Hl). by exists l.
Qed.
End lookup.

(** ** The delta's strings, and both together *)

Section delta.
Context `{GoStd}.
Context (v : View) (L : layout) (Ds : list delta) (HR : View_rep v L Ds).
Let D := delta_all Ds.
Let G := view_graph L Ds.
Let HB := vr_base _ _ _ HR.
Hypothesis Hdec : ∀ id ks bag, g_nodes G !! id = Some (ks, bag) → bag_decodable bag.

(** The string a live node has under [name]. *)
Definition live_string (name : string) (id : N) : option string :=
  st ← g_nodes G !! id; string_value (snd st !! name).
(** A node the delta writes, with its string. *)
Definition delta_has (name : string) (n : NodeID) (str : string) : Prop :=
  ∃ id, idx (view_ids v) n = Some id ∧ is_Some (d_nodes D !! id) ∧ live_string name id = Some str.

Definition delta_entry (name : string) (x : N * NodeSegState) : option (NodeID * string) :=
  if ns_Tombstoned x.2 then None
  else match NodeSegState_PropValueByName x.2 name with
       | Some (Some (AString s)) => (λ n, (n, s)) <$> denseOf v x.1
       | _ => None
       end.

Lemma delta_fold name l acc :
  (∀ x, x ∈ l → ns_Tombstoned x.2 = false → is_Some (NodeSegState_PropValueByName x.2 name)) →
  ∃ d, foldM (delta_string v name) l acc = Some d ∧ ds_strings d = ds_strings acc ++ omap (delta_entry name) l.
Proof.
  revert acc. induction l as [|x l IH]; intros acc Hl; [eexists; split; [done|by rewrite app_nil_r]|].
  assert (∃ acc', delta_string v name acc x = Some acc' ∧
    ds_strings acc' = ds_strings acc ++ match delta_entry name x with Some e => [e] | None => [] end) as (acc' & E & Ha).
  { unfold delta_string, delta_entry. destruct (ns_Tombstoned x.2) eqn:Et; [eexists; split; [done|by rewrite app_nil_r]|].
    destruct (Hl x) as [r ->]; [left|done|]. cbn [mbind option_bind].
    destruct r as [a|]; [|eexists; split; [done|by rewrite app_nil_r]].
    destruct (denseOf v x.1) as [n|]; [destruct a|destruct a]; eexists; (split; [done|]); simpl; rewrite ?app_nil_r; done. }
  destruct (IH acc') as (d & Ed & Hd); [intros; apply Hl; [by right|done]|].
  exists d. cbn [foldM]. rewrite E. cbn [mbind option_bind]. split; [exact Ed|].
  rewrite Hd, Ha. cbn [omap list_omap]. rewrite <- (assoc_L (++)). by destruct (delta_entry name x).
Qed.

Lemma live_value m id st name : Segment_rep m D → (id, st) ∈ seg_nodes m → ns_Tombstoned st = false →
  ∃ r, NodeSegState_PropValueByName st name = Some r ∧ any_string r = live_string name id.
Proof.
  intros Hm Hin Ht. destruct (seg_nodes_elem Ds m id st Hm Hin) as (_ & o & Ho & Hr). fold D in Ho.
  destruct o as [[ks bag]|]; [|simpl in Hr; congruence].
  assert (g_nodes G !! id = Some (ks, bag)) as Hg by (unfold G; rewrite graph_nodes; fold D; by rewrite Ho).
  rewrite (state_value st ks bag Hr). unfold live_string. rewrite Hg. simpl.
  destruct (bag !! name) as [val|] eqn:Eb; [|by exists None]. destruct (Hdec _ _ _ Hg name val Eb) as [a Ea]. rewrite Ea.
  exists (Some a). split; [done|]. revert Ea. unfold decode_pval. destruct val as [[kind num] bs].
  simpl. destruct (N.eqb_spec kind propKindString) as [->|Hk]; [by intros [= <-]|].
  intros Ea. repeat case_match; simplify_eq; try done; by (destruct (unmarshal_array _) || destruct (unmarshal_object _); simplify_eq).
Qed.

Lemma delta_entry_elem m name n str : Segment_rep m D →
  (n, str) ∈ omap (delta_entry name) (seg_nodes m) ↔ delta_has name n str.
Proof.
  intros Hm. rewrite list_elem_of_omap. unfold delta_entry, delta_has. split.
  - intros ([id st] & Hin & He). simpl in He. destruct (ns_Tombstoned st) eqn:Et; [done|].
    destruct (live_value m id st name Hm Hin Et) as (r & Er & Hl). rewrite Er in He.
    destruct r as [a|]; [|done]. destruct a as [| | |s| |]; try done.
    destruct (denseOf v id) as [n'|] eqn:En; [|done]. simpl in He. injection He as -> ->.
    exists id. split; [by apply (denseOf_spec v L Ds HR)|]. split; [|by rewrite <- Hl].
    destruct (seg_nodes_elem Ds m id st Hm Hin) as (_ & o & Ho & _). by exists o.
  - intros (id & Hn & [o Ho] & Hl). destruct (seg_nodes_of Ds m id o Hm Ho) as (st & Hin & _ & Hr).
    exists (id, st). split; [done|]. simpl. destruct (ns_Tombstoned st) eqn:Et.
    + apply (tombstoned_rep _ _ Hr) in Et as ->. unfold live_string, G in Hl. rewrite graph_nodes in Hl.
      fold D in Hl. by rewrite Ho in Hl.
    + destruct (live_value m id st name Hm Hin Et) as (r & Er & Hl'). rewrite Er, Hl in *.
      destruct r as [[]|]; simplify_eq/=. by rewrite (proj2 (denseOf_spec v L Ds HR id n) Hn).
Qed.

Lemma delta_entry_nodup m name : Segment_rep m D → NoDup (omap (delta_entry name) (seg_nodes m)).*1.
Proof.
  intros Hm. assert (∀ l : list (N * NodeSegState), (omap (delta_entry name) l).*1 =
    omap (λ x, fst <$> delta_entry name x) l) as ->.
  { induction l as [|x l IH]; [done|]. cbn. destruct (delta_entry name x); cbn; [f_equal|]; exact IH. }
  apply NoDup_omap_inj.
  - unfold seg_nodes. apply NoDup_fmap; [by intros ?? [= ?]|]. apply sorted_lt_NoDup. by destruct Hm.
  - assert (∀ x n, x ∈ seg_nodes m → fst <$> delta_entry name x = Some n →
      idx (view_ids v) n = Some x.1 ∧ sg_nodeStates m !! x.1 = Some x.2) as Hx.
    { intros [id st] n Hin. destruct (seg_nodes_elem Ds m id st Hm Hin) as [Hst _]. unfold delta_entry. simpl.
      destruct (ns_Tombstoned st), (NodeSegState_PropValueByName st name) as [[[]|]|]; try done.
      destruct (denseOf v id) eqn:En; [|done]. intros [= <-]. split; [by apply (denseOf_spec v L Ds HR)|done]. }
    intros [i s] [j t] n Hi Hj Ei Ej. apply Hx in Ei as [Ei Es]; [|done]. apply Hx in Ej as [Ej Et]; [|done].
    simpl in *. rewrite Ei in Ej. injection Ej as <-. rewrite Es in Et. by injection Et as <-.
Qed.

(** The delta index: the nodes the delta writes, with their strings, by node. *)
Lemma deltaPropFor_spec name : Overlay v = true → ∃ d, deltaPropFor v name = Some (Some d) ∧
  StronglySorted N.lt (ds_strings d).*1 ∧ ∀ n str, (n, str) ∈ ds_strings d ↔ delta_has name n str.
Proof.
  intros Hov. unfold deltaPropFor. rewrite Hov. cbn [negb].
  destruct (merged_cases v L Ds HR) as [(_ & _ & ?)|(m & -> & Hm & _)]; [congruence|]. fold D in Hm.
  destruct (delta_fold name (seg_nodes m) (mkDeltaStrings [] 0)) as (d & -> & Hd).
  { intros [id st] Hin Ht. destruct (live_value m id st name Hm Hin Ht) as (r & E & _). by exists r. }
  simpl in Hd. cbn [mbind option_bind]. eexists. split; [done|]. simpl. rewrite Hd. split.
  - apply (StronglySorted_fmap_in (λ x y, fst x < fst y)); [done|]. apply sorted_key_strict.
    + rewrite go_sort_perm. by apply delta_entry_nodup.
    + apply go_sort_sorted, is_less_key.
  - intros n str. rewrite go_sort_elem. by apply delta_entry_elem.
Qed.

Lemma matchingStrings_spec d name m operand : StronglySorted N.lt (ds_strings d).*1 →
  (∀ n str, (n, str) ∈ ds_strings d ↔ delta_has name n str) →
  StronglySorted N.lt (matchingStrings (Some d) m operand) ∧
  ∀ n, n ∈ matchingStrings (Some d) m operand ↔ ∃ str, delta_has name n str ∧ matchString str m operand = true.
Proof.
  intros Hs Hd. unfold matchingStrings. split.
  - assert (∀ l : list (NodeID * string), omap (λ e : NodeID * string, if matchString e.2 m operand then Some e.1 else None) l =
      (filter (λ e, matchString e.2 m operand = true) l).*1) as ->.
    { induction l as [|[n s] l IH]; [done|]. rewrite filter_cons. cbn. destruct (matchString s m operand); case_decide; try done; cbn; rewrite IH; done. }
    clear Hd. induction (ds_strings d) as [|[n s] l IH]; [constructor|]. cbn in Hs. inversion Hs as [|?? Hs' Hn]; subst.
    rewrite filter_cons. case_decide; [|by apply IH]. cbn. constructor; [by apply IH|].
    apply Forall_forall. intros x (e & -> & [_ He]%list_elem_of_filter)%list_elem_of_fmap.
    rewrite Forall_forall in Hn. apply Hn. by apply list_elem_of_fmap_2.
  - intros n. rewrite list_elem_of_omap. split.
    + intros ([n' s] & Hin & He). simpl in He. destruct (matchString s m operand) eqn:Em; [|done]. injection He as ->.
      exists s. split; [by apply Hd|done].
    + intros (str & Hh & Em). exists (n, str). split; [by apply Hd|]. simpl. by rewrite Em.
Qed.

Lemma unionDeltaTouched_spec (indexed touched : list NodeID) : NoDup indexed → NoDup touched →
  NoDup (unionDeltaTouched indexed touched) ∧
  ∀ n, n ∈ unionDeltaTouched indexed touched ↔ n ∈ indexed ∨ n ∈ touched.
Proof.
  intros Hi Ht. unfold unionDeltaTouched. destruct (N.eqb_spec (len touched) 0) as [E|_].
  - assert (touched = []) as -> by (apply nil_length_inv; unfold len in E; lia). split; [done|]. intros n. rewrite elem_of_nil. tauto.
  - split.
    + apply NoDup_app. split; [by apply NoDup_filter|]. split; [|done]. by intros x [? _]%list_elem_of_filter.
    + intros n. rewrite elem_of_app, list_elem_of_filter. destruct (decide (n ∈ touched)); tauto.
Qed.

(** A property nobody interned: no node of the base has it. *)
Lemma not_interned name n : IDByName (Props (v_base v)) name = None → base_string L name n = None.
Proof.
  intros Hid. unfold base_string. destruct (idx (lo_bags L) n) as [bag|] eqn:Eb; [|done]. simpl.
  pose proof (store_value _ _ _ (dr_props _ _ (rep_derived _ _ HB)) (bags_bound v L Ds HR) n bag name Eb) as Hv.
  rewrite Hid in Hv. by rewrite Hv.
Qed.

(** The candidates: the matches of the base and those of the delta. *)
Lemma NodesWithStringByName_spec name m operand : ∃ l, NodesWithStringByName v name m operand = Some (Some l) ∧ NoDup l ∧
  ∀ n, n ∈ l ↔ matches L name m operand n ∨ ∃ str, delta_has name n str ∧ matchString str m operand = true.
Proof.
  assert (∃ base, (match PropIDByName v name with None => Some (Some []) | Some prop => NodesWithString v prop m operand end)
    = Some (Some base) ∧ NoDup base ∧ ∀ n, n ∈ base ↔ matches L name m operand n) as (base & Eb & Hnb & Hb).
  { unfold PropIDByName. destruct (IDByName _ name) as [prop|] eqn:Hid.
    - by apply (NodesWithString_base v L HB name).
    - exists []. split; [done|]. split; [constructor|]. intros n. rewrite elem_of_nil. split; [done|].
      intros (str & Hs & _). by rewrite (not_interned name n Hid) in Hs. }
  destruct (Overlay v) eqn:Hov.
  - destruct (deltaPropFor_spec name Hov) as (d & Ed & Hs & Hd).
    destruct (matchingStrings_spec d name m operand Hs Hd) as [Hms Hm].
    destruct (unionDeltaTouched_spec base (matchingStrings (Some d) m operand) Hnb (sorted_lt_NoDup _ Hms)) as [Hn Hu].
    exists (unionDeltaTouched base (matchingStrings (Some d) m operand)).
    split; [|split; [done|intros n; by rewrite Hu, Hb, Hm]].
    unfold NodesWithStringByName. rewrite Hov, Ed. cbn [negb mbind option_bind].
    destruct (PropIDByName v name) as [prop|]; [by rewrite Eb|]. by injection Eb as <-.
  - exists base. split; [|split; [done|]].
    + unfold NodesWithStringByName. rewrite Hov. cbn [negb]. destruct (PropIDByName v name); [by rewrite Eb|done].
    + intros n. rewrite Hb. split; [by left|]. intros [?|(str & (id & _ & [o Ho] & _) & _)]; [done|].
      destruct (merged_cases v L Ds HR) as [(_ & E & _)|(? & _ & _ & ?)]; [|congruence].
      fold D in E. rewrite E in Ho. simpl in Ho. by rewrite lookup_empty in Ho.
Qed.

(** What the candidates mean for the view's own nodes. *)
Lemma base_string_live name n id : idx (view_ids v) n = Some id → d_nodes D !! id = None →
  base_string L name n = live_string name id.
Proof.
  intros Hn Hd. destruct (view_ids_elem v L Ds HR n id Hn) as [[Hi _]|(_ & _ & (st & Hst) & _)]; [|fold D in Hst; congruence].
  destruct (base_node v L Ds HR n id Hi) as (ks & bag & _ & Hb & Hg).
  unfold base_string, live_string, G. rewrite Hb, graph_nodes. fold D. rewrite Hd, Hg. done.
Qed.

Lemma live_candidates name m operand n id str : idx (view_ids v) n = Some id → live_string name id = Some str →
  matchString str m operand = true →
  matches L name m operand n ∨ ∃ str, delta_has name n str ∧ matchString str m operand = true.
Proof.
  intros Hn Hs Hm. destruct (d_nodes D !! id) as [o|] eqn:Ed.
  - right. exists str. split; [|done]. exists id. split_and!; [done|by exists o|done].
  - left. exists str. split; [|done]. by rewrite (base_string_live name n id Hn Ed).
Qed.

Lemma untouched_match name m operand n id : idx (view_ids v) n = Some id → d_nodes D !! id = None →
  matches L name m operand n → ∃ str, live_string name id = Some str ∧ matchString str m operand = true.
Proof. intros Hn Hd (str & Hs & Hm). exists str. by rewrite <- (base_string_live name n id Hn Hd). Qed.

Lemma base_string_node name n str : base_string L name n = Some str → ∃ id, idx (view_ids v) n = Some id.
Proof.
  unfold base_string. destruct (idx (lo_bags L) n) as [bag|] eqn:Eb; [|done]. intros _.
  apply idx_lt in Eb. destruct (base_lens v L Ds HR) as [_ El]. destruct (idx_is_Some (lo_ids L) n) as [id Hid]; [lia|].
  exists id. by apply (base_idx v L Ds HR).
Qed.
End delta.
