(* ===== verification/ViewRows.v ===== *)
(** * Rows of a view as slices

    The end of [internal/engine/snapshot/view.go]: [OutSlices] and [InSlices]
    serve a node's edges as two parallel slices, the base's own row when
    nothing in the delta touches it, a merged row otherwise.  The result: on
    every node of the view they are, in order, what [OutEdges] and [InEdges]
    walk over. *)

From S2P Require Import Prelude Bitset Csr Kinds Props Snapshot Builder Segment View ViewAdj.
From stdpp Require Import options.
Unset Default Proof Using.

(** ** Marking rows *)

Lemma iterate_opt_foldM {S} cap (b : option Bitset) (f : S → NodeID → option S) s :
  match b with Some b => Bitset_wf cap b | None => True end →
  iterate_opt b f s = foldM f (match b with Some b => Bitset_elems b | None => [] end) s.
Proof.
  destruct b as [b|]; simpl; [|done]. intros Hwf. rewrite (Bitset_Iterate_spec cap) by done.
  apply iter_until_foldM.
Qed.

Lemma bits_elems cap (b : option Bitset) i :
  match b with Some b => Bitset_wf cap b | None => True end →
  i ∈ (match b with Some b => Bitset_elems b | None => [] end) ↔ bits_has b i = true.
Proof.
  destruct b as [b|]; simpl; [intros Hwf; by apply (elem_of_Bitset cap)|]. intros _. by rewrite elem_of_nil.
Qed.

(** A loop each round of which sets the ids [outs x] and [ins x]. *)
Lemma mark_loop {X} (f : Bitset * Bitset → X → option (Bitset * Bitset)) (outs ins : X → list NodeID) l st :
  (∀ st x, x ∈ l → f st x = Some (foldl Bitset_Set st.1 (outs x), foldl Bitset_Set st.2 (ins x))) →
  foldM f l st = Some (foldl Bitset_Set st.1 (l ≫= outs), foldl Bitset_Set st.2 (l ≫= ins)).
Proof.
  revert st. induction l as [|x l IH]; intros st Hf; [by destruct st|]. cbn [foldM].
  rewrite Hf by left. simpl. rewrite IH by (intros; apply Hf; by right). simpl.
  by rewrite !foldl_app.
Qed.

Section rows.
Context `{GoStd}.
Context (v : View) (L : layout) (Ds : list delta) (HR : View_rep v L Ds).
Hypothesis Hsize : View_NodeCount v < 2 ^ 31.
Let D := delta_all Ds.
Let G := view_graph L Ds.
Let HB := vr_base _ _ _ HR.
Let HP := rep_packed _ _ HB.
Let baseN := NodeCount (v_base v).

Lemma deadBits_wf : match deadBits v with Some b => Bitset_wf (View_NodeCount v) b | None => True end.
Proof.
  unfold deadBits. destruct (merged_cases v L Ds HR) as [(-> & _)|(m & -> & Hm & _)]; [done|].
  set (f (x : N * NodeSegState) := if negb (ns_Tombstoned x.2) then None else denseOf v x.1).
  rewrite (foldl_ext_in _ (λ bits x, match f x with
    None => bits | Some i => bits_set (View_NodeCount v) bits i end)).
  2: { intros bits [id' st] _. unfold f. simpl. by destruct (ns_Tombstoned st). }
  apply (bits_fold_spec f (View_NodeCount v) (seg_nodes m)); [apply (vr_count _ _ _ HR)|].
  intros x i _. unfold f. destruct (ns_Tombstoned x.2); simpl; [|done].
  intros Hi%(denseOf_spec v L Ds HR). by eapply dense_lt.
Qed.

Lemma deltaBits_wf : let a := deltaAdjacency v in
  marks v (da_out a) (da_outBits a) ∧ marks v (da_in a) (da_inBits a).
Proof.
  unfold deltaAdjacency. destruct (merged_cases v L Ds HR) as [(-> & _)|(m & -> & _)].
  - unfold marks. simpl. setoid_rewrite lookup_empty. done.
  - destruct (deltaAdjacency_fold v L Ds HR (seg_edges m)) as (a & Ha & H1 & H2 & _). cbv zeta. by rewrite Ha.
Qed.

Definition dead_outs (d : NodeID) : list NodeID :=
  if baseN <=? d then [] else d :: default [] (row (InOffsets (v_base v)) (InTargets (v_base v)) d (u32 (d + 1))).
Definition dead_ins (d : NodeID) : list NodeID :=
  if baseN <=? d then [] else d :: default [] (row (OutOffsets (v_base v)) (OutTargets (v_base v)) d (u32 (d + 1))).

Lemma dirty_dead_step st d : dirty_dead v st d =
  Some (foldl Bitset_Set st.1 (dead_outs d), foldl Bitset_Set st.2 (dead_ins d)).
Proof.
  unfold dirty_dead, dead_outs, dead_ins. destruct st as [o i]. fold baseN.
  destruct (N.leb_spec baseN d) as [|Hlt]; [done|].
  unfold baseN in Hlt. rewrite (rep_NodeCount _ _ HB) in Hlt. rewrite (node_succ _ _ HB) by done.
  destruct (out_row_Some _ _ HB d Hlt) as [ro Hro]. destruct (in_row_Some _ _ HB d Hlt) as [ri Hri].
  rewrite (pk_in _ _ HP), (pk_isrc _ _ HP), (pk_out _ _ HP), (pk_targets _ _ HP).
  by rewrite (row_offs_fmap _ _ _ _ Hri), (row_offs_fmap _ _ _ _ Hro).
Qed.

Definition slot_out (p : N) : list NodeID := match sourceOfSlot (v_base v) p with Some i => [i] | None => [] end.
Definition slot_in (p : N) : list NodeID := match idx (OutTargets (v_base v)) p with Some t => [t] | None => [] end.

Definition dead_list : list NodeID := match deadBits v with Some b => Bitset_elems b | None => [] end.
Definition hidden_list : list N := match hidden v with Some b => Bitset_elems b | None => [] end.
Definition delta_marks (b : option Bitset) : list NodeID :=
  match b with Some b => Bitset_elems b | None => [] end.
Definition out_marks : list NodeID := (dead_list ≫= dead_outs) ++ (hidden_list ≫= slot_out) ++
  delta_marks (da_outBits (deltaAdjacency v)).
Definition in_marks : list NodeID := (dead_list ≫= dead_ins) ++ (hidden_list ≫= slot_in) ++
  delta_marks (da_inBits (deltaAdjacency v)).

Lemma hidden_wf : match hidden v with Some b => Bitset_wf (len (concat (lo_out L))) b | None => True end.
Proof.
  destruct (edgeTombSlots_spec v L Ds HR) as (tomb & Htomb & Hwt & _).
  rewrite (hidden_eq v L Ds HR) in Htomb. by simplify_eq.
Qed.

(** An unmarked row: its node is live, none of its slots is hidden or leads
    to a dead node, and the delta adds nothing to it. *)
Lemma out_unmarked n : n < baseN → n ∉ out_marks →
  bits_has (deadBits v) n = false ∧ bits_has (da_outBits (deltaAdjacency v)) n = false ∧
  ∀ j e, (n, j, e) ∈ lo_slots L → bits_has (deadBits v) (oe_dst e) = false ∧ bits_has (hidden v) j = false.
Proof.
  intros Hn Hno. unfold out_marks in Hno. rewrite !not_elem_of_app in Hno. destruct Hno as (N1 & N2 & N3).
  assert (∀ d, bits_has (deadBits v) d = true → n ∉ dead_outs d) as Hdead.
  { intros d Hd Hin. apply N1, list_elem_of_bind. exists d. split; [done|].
    by apply (bits_elems _ _ _ deadBits_wf). }
  destruct deltaBits_wf as [[Hwo _] _]. split_and!.
  - apply not_true_iff_false. intros Hd. apply (Hdead n Hd). unfold dead_outs.
    destruct (N.leb_spec baseN n); [lia|]. left.
  - apply not_true_iff_false. intros Hd. by apply N3, (bits_elems _ _ _ Hwo).
  - intros j e Hin. destruct (slot_facts _ _ HB _ _ _ Hin) as (_ & _ & _ & b & _ & _ & _ & Hc & _ & Hb & _).
    apply idx_lt in Hb. pose proof (rep_NodeCount _ _ HB) as HN. fold baseN in HN. split.
    + apply not_true_iff_false. intros Hd. apply (Hdead _ Hd). unfold dead_outs.
      destruct (N.leb_spec baseN (oe_dst e)); [lia|]. right.
      rewrite (node_succ _ _ HB), (pk_in _ _ HP), (pk_isrc _ _ HP) by done.
      destruct (in_row_Some _ _ HB (oe_dst e) Hb) as [r Hr]. rewrite (row_offs_fmap _ _ _ _ Hr). simpl.
      apply list_elem_of_fmap. exists (n, oe_kind e, j). split; [done|].
      apply (in_row_elem v L Ds HR _ _ _ Hr). eauto 8.
    + apply not_true_iff_false. intros Hd. apply N2, list_elem_of_bind. exists j.
      split; [|by apply (bits_elems _ _ _ hidden_wf)]. unfold slot_out.
      destruct (slot_source _ _ HB _ _ Hc) as (s & -> & Hs).
      apply elem_of_idx in Hin as [p Hp], Hs as [q Hq]. apply idx_slots in Hp as Ep, Hq as Eq.
      destruct Ep as [-> _], Eq as [-> _]. simplify_eq. left.
Qed.

Lemma in_unmarked n : n < baseN → n ∉ in_marks →
  bits_has (deadBits v) n = false ∧ bits_has (da_inBits (deltaAdjacency v)) n = false ∧
  ∀ a j e, (a, j, e) ∈ lo_slots L → oe_dst e = n →
    bits_has (deadBits v) a = false ∧ bits_has (hidden v) j = false.
Proof.
  intros Hn Hno. unfold in_marks in Hno. rewrite !not_elem_of_app in Hno. destruct Hno as (N1 & N2 & N3).
  assert (∀ d, bits_has (deadBits v) d = true → n ∉ dead_ins d) as Hdead.
  { intros d Hd Hin. apply N1, list_elem_of_bind. exists d. split; [done|].
    by apply (bits_elems _ _ _ deadBits_wf). }
  destruct deltaBits_wf as [_ [Hwi _]]. split_and!.
  - apply not_true_iff_false. intros Hd. apply (Hdead n Hd). unfold dead_ins.
    destruct (N.leb_spec baseN n); [lia|]. left.
  - apply not_true_iff_false. intros Hd. by apply N3, (bits_elems _ _ _ Hwi).
  - intros s j e Hin Hdst. destruct (slot_facts _ _ HB _ _ _ Hin) as (r & k & sid & b & Hr & Hk & _ & Hc & Hs & Hb & _).
    apply idx_lt in Hs. pose proof (rep_NodeCount _ _ HB) as HN. fold baseN in HN. split.
    + apply not_true_iff_false. intros Hd. apply (Hdead _ Hd). unfold dead_ins.
      destruct (N.leb_spec baseN s); [lia|]. right.
      rewrite (node_succ _ _ HB), (pk_out _ _ HP), (pk_targets _ _ HP) by done.
      rewrite (row_offs_fmap _ _ _ _ Hr). simpl. rewrite <- Hdst. apply list_elem_of_fmap_2. by eapply idx_elem_of.
    + apply not_true_iff_false. intros Hd. apply N2, list_elem_of_bind. exists j.
      split; [|by apply (bits_elems _ _ _ hidden_wf)]. unfold slot_in.
      rewrite (pk_targets _ _ HP), idx_fmap, Hc. simpl. rewrite Hdst. left.
Qed.

Lemma dirty_slot_step st p : bits_has (hidden v) p = true → dirty_slot v st p =
  Some (foldl Bitset_Set st.1 (slot_out p), foldl Bitset_Set st.2 (slot_in p)).
Proof.
  intros Hp. destruct (edgeTombSlots_spec v L Ds HR) as (tomb & Htomb & _ & Hti).
  rewrite (hidden_eq v L Ds HR) in Htomb. injection Htomb as <-. apply Hti in Hp as (e & Hp & _).
  destruct (slot_source _ _ HB _ _ Hp) as (s & Hs & _). unfold dirty_slot, slot_out, slot_in. destruct st.
  by rewrite Hs, (pk_targets _ _ HP), idx_fmap, Hp.
Qed.

(** The bit sets [ensureDirtyAdjacency] leaves behind. *)
Lemma dirty_spec : Overlay v = true →
  let o := foldl Bitset_Set (NewBitset baseN) out_marks in
  let i := foldl Bitset_Set (NewBitset baseN) in_marks in
  dirtyAdjacency v = Some (Some (o, i)) ∧
  Bitset_wf (word_cap baseN) o ∧ (∀ n, n < baseN → Bitset_Has o n = true ↔ n ∈ out_marks) ∧
  Bitset_wf (word_cap baseN) i ∧ (∀ n, n < baseN → Bitset_Has i n = true ↔ n ∈ in_marks).
Proof.
  intros Hov o i. assert (baseN < 2 ^ 31) as HbN by (unfold View_NodeCount in Hsize; fold baseN in Hsize; lia).
  pose proof (word_cap_ge baseN) as Hcap. split.
  - unfold dirtyAdjacency. destruct (merged_cases v L Ds HR) as [(_ & _ & E)|(m & -> & _ & _)]; [congruence|].
    fold baseN. destruct deltaBits_wf as [[Hwo _] [Hwi _]]. rewrite (hidden_eq v L Ds HR).
    rewrite (iterate_opt_foldM _ _ _ _ deadBits_wf).
    rewrite (mark_loop _ dead_outs dead_ins) by (intros; apply dirty_dead_step). cbn [mbind option_bind].
    rewrite (iterate_opt_foldM _ _ _ _ hidden_wf).
    rewrite (mark_loop (dirty_slot v) slot_out slot_in).
    2: { intros st p Hp%(bits_elems _ _ _ hidden_wf). by apply dirty_slot_step. }
    cbn [mbind option_bind]. rewrite (iterate_opt_foldM _ _ _ _ Hwo), (iterate_opt_foldM _ _ _ _ Hwi), !foldM_pure.
    cbn [mbind option_bind fst snd]. by rewrite <- !foldl_app.
  - destruct (Set_foldl_cap baseN (NewBitset baseN) out_marks) as [Ho1 Ho2]; [by apply NewBitset_cap|].
    destruct (Set_foldl_cap baseN (NewBitset baseN) in_marks) as [Hi1 Hi2]; [by apply NewBitset_cap|].
    unfold o, i. split_and!; [done| |done|]; intros n Hn; rewrite ?Ho2, ?Hi2, NewBitset_Has by lia; naive_solver lia.
Qed.

(** ** Clean rows *)

Definition w_nodes (l : list vedge) : list NodeID := (λ x, x.1.1) <$> l.
Definition w_kinds (l : list vedge) : list KindID := (λ x, x.1.2) <$> l.

Lemma live_of_not_dead n : n < baseN → bits_has (deadBits v) n = false → Alive v n = true.
Proof.
  intros Hn Hd. unfold Alive. destruct (N.leb_spec (View_NodeCount v) n) as [Hle|].
  - unfold View_NodeCount in Hle. fold baseN in Hle. lia.
  - rewrite Hd. by destruct (Overlay v).
Qed.

Lemma snd_zip_range {A} lo (r : list A) : snd <$> zip (range lo (lo + len r)) r = r.
Proof. apply snd_zip. pose proof (len_range lo (lo + len r)). unfold len in *. lia. Qed.

Lemma clean_out_walk n r : idx (lo_out L) n = Some r → n < baseN → n ∉ out_marks → walk_list v L true n = r.
Proof.
  intros Hr Hn Hno. destruct (out_unmarked n Hn Hno) as (Hd & Hb & Hs).
  unfold walk_list. rewrite live_of_not_dead by done.
  unfold delta_list. rewrite Hb, app_nil_r. unfold out_base_list. rewrite Hr.
  rewrite (omap_all _ snd).
  - by rewrite snd_zip_range.
  - intros [i e] (k & Hk & ->)%elem_of_zip_range. simpl.
    destruct (Hs _ _ (row_slot L _ _ _ _ Hr Hk)) as [-> ->]. done.
Qed.

Lemma clean_out n r : idx (lo_out L) n = Some r → n < baseN → n ∉ out_marks →
  w_nodes (walk_list v L true n) = oe_dst <$> r ∧ w_kinds (walk_list v L true n) = oe_kind <$> r.
Proof. intros Hr Hn Hno. by rewrite (clean_out_walk n r Hr Hn Hno). Qed.

Definition in_edge (x : iedge) : vedge := (x.1, default 0 (idx (OutEdgeIDs (v_base v)) x.2)).
Lemma clean_in_walk n r : idx (lo_in L) n = Some r → n < baseN → n ∉ in_marks → walk_list v L false n = in_edge <$> r.
Proof.
  intros Hr Hn Hno. destruct (in_unmarked n Hn Hno) as (Hd & Hb & Hs).
  unfold walk_list. rewrite live_of_not_dead by done.
  unfold delta_list. rewrite Hb, app_nil_r. unfold in_base_list. rewrite Hr.
  rewrite (omap_all _ (λ ix : N * iedge, ((snd ix).1, default 0 (idx (OutEdgeIDs (v_base v)) (snd ix).2)))).
  - set (lo := len _). transitivity (in_edge <$> (snd <$> zip (range lo (lo + len r)) r)); [|by rewrite snd_zip_range]. by rewrite <- list_fmap_compose.
  - intros [i x] (k & Hk%idx_elem_of & ->)%elem_of_zip_range. simpl.
    apply (in_row_elem v L Ds HR _ _ _ Hr) in Hk as (a & j & e & Hin & Hdst & ->).
    destruct (Hs _ _ _ Hin Hdst) as [Hd' Hj]. simpl. by rewrite Hd', Hj.
Qed.
Lemma clean_in n r : idx (lo_in L) n = Some r → n < baseN → n ∉ in_marks →
  w_nodes (walk_list v L false n) = (λ e : iedge, e.1.1) <$> r ∧
  w_kinds (walk_list v L false n) = (λ e : iedge, e.1.2) <$> r.
Proof. intros Hr Hn Hno. rewrite (clean_in_walk n r Hr Hn Hno). unfold w_nodes, w_kinds. by rewrite <- !list_fmap_compose. Qed.

(** The rows that are not clean, on a plain view none. *)
Lemma dirty_bits : ∃ d, (if Overlay v then dirtyAdjacency v else Some None) = Some d ∧ dirtyAdjacency v = Some d ∧
  (∀ n, n < baseN → bits_has (fst <$> d) n = true ↔ n ∈ out_marks) ∧ (∀ n, n < baseN → bits_has (snd <$> d) n = true ↔ n ∈ in_marks) ∧
  match fst <$> d with Some b => Bitset_wf (word_cap baseN) b | None => True end ∧
  match snd <$> d with Some b => Bitset_wf (word_cap baseN) b | None => True end ∧ (Overlay v = false → out_marks = [] ∧ in_marks = []).
Proof.
  destruct (merged_cases v L Ds HR) as [(Hm & E & ->)|(m & Hm & _ & Hov)].
  - exists None. assert (out_marks = [] ∧ in_marks = []) as [E1 E2].
    { unfold out_marks, in_marks, dead_list, hidden_list, deltaAdjacency, deadBits, hidden, edgeTombSlots. by rewrite Hm. }
    rewrite E1, E2. split_and!; try done; [by unfold dirtyAdjacency; rewrite Hm|..]; intros k Hk; simpl; by rewrite elem_of_nil.
  - rewrite Hov. destruct (dirty_spec Hov) as (Hd & Ho1 & Ho2 & Hi1 & Hi2). rewrite Hd. by eexists.
Qed.

(** ** Merged rows *)

Section merged.
Context (W : NodeID → list vedge) (walk : NodeID → edge_iter (list NodeID * list KindID)).
Hypothesis Hwalk : ∀ n yield s, walk n yield s = iter_until yield (W n) s.
Let total := View_NodeCount v.

(** The rows added so far are those of [ns]. *)
Record ma_rep (m : mergedAdjacency) (ns : list NodeID) : Prop := {
  mr_offsets : ma_offsets m = offs (W <$> ns);
  mr_nodes : ma_nodes m = w_nodes (concat (W <$> ns));
  mr_kinds : ma_kinds m = w_kinds (concat (W <$> ns));
  mr_len : len (ma_row m) = total;
  mr_row : ∀ k n, idx ns k = Some n → idx (ma_row m) n = Some (Z.of_N k);
  mr_none : ∀ n, n < total → n ∉ ns → idx (ma_row m) n = Some (-1)%Z;
}.

Lemma collect_walk (l : list vedge) acc :
  iter_until (λ x acc, Some ((fst acc ++ [x.1.1], snd acc ++ [x.1.2]), true)) l acc =
  Some (fst acc ++ w_nodes l, snd acc ++ w_kinds l).
Proof.
  rewrite (iter_until_pure (λ acc (x : vedge), (fst acc ++ [x.1.1], snd acc ++ [x.1.2]))). f_equal.
  revert acc. induction l as [|x l IH]; intros [ns ks]; simpl; [by rewrite !app_nil_r|].
  rewrite IH. simpl. by rewrite <- !app_assoc.
Qed.

Lemma ma_add_spec m ns n : ma_rep m ns → n < total → n ∉ ns → len ns < 2 ^ 31 →
  ∃ m', ma_add walk m n = Some m' ∧ ma_rep m' (ns ++ [n]).
Proof.
  intros [] Hn Hni Hlen. unfold ma_add. rewrite mr_offsets0, len_offs, len_fmap.
  rewrite i32_small by lia. replace (Z.of_N (len ns + 1) - 1)%Z with (Z.of_N (len ns)) by lia.
  destruct (upd_Some (ma_row m) n (Z.of_N (len ns))) as (row' & -> & Hl & Hi); [lia|]. simpl.
  rewrite Hwalk, collect_walk. simpl. eexists. split; [done|].
  assert (concat (W <$> ns ++ [n]) = concat (W <$> ns) ++ W n) as Hc.
  { rewrite fmap_app, concat_app. simpl. by rewrite app_nil_r. }
  split; simpl.
  - rewrite fmap_app. simpl. rewrite offs_snoc, mr_nodes0. do 2 f_equal. unfold w_nodes.
    by rewrite !len_app, !len_fmap.
  - unfold w_nodes in *. by rewrite Hc, fmap_app, mr_nodes0.
  - unfold w_kinds in *. by rewrite Hc, fmap_app, mr_kinds0.
  - lia.
  - intros k n' Hk. rewrite Hi. destruct (decide (k < len ns)) as [Hlt|Hge].
    + rewrite idx_app_l in Hk by done. rewrite decide_False; [by apply mr_row0|].
      intros ->. by apply idx_elem_of in Hk.
    + rewrite idx_app_r, idx_cons in Hk by lia. case_decide; [|by rewrite idx_nil in Hk].
      simplify_eq. rewrite decide_True by done. do 2 f_equal. lia.
  - intros n' Hn' Hni'. rewrite not_elem_of_app, list_elem_of_singleton in Hni'.
    rewrite Hi, decide_False by naive_solver. apply mr_none0; naive_solver.
Qed.

Lemma ma_add_all m ns l : ma_rep m ns → (∀ n, n ∈ l → n < total) → NoDup (ns ++ l) →
  len (ns ++ l) < 2 ^ 31 → ∃ m', foldM (ma_add walk) l m = Some m' ∧ ma_rep m' (ns ++ l).
Proof.
  revert m ns. induction l as [|n l IH]; intros m ns Hm Hl Hnd Hlen; simpl.
  { exists m. by rewrite app_nil_r. }
  destruct (ma_add_spec m ns n Hm) as (m' & -> & Hm').
  - apply Hl. left.
  - apply NoDup_app in Hnd as (_ & Hd & _). intros Hin. apply (Hd _ Hin). left.
  - rewrite len_app in Hlen. lia.
  - simpl. rewrite (app_assoc ns [n] l : ns ++ n :: l = _) in Hnd, Hlen |- *.
    apply IH; [done| |done|done]. intros; apply Hl. by right.
Qed.

Lemma ma_get m ns n : ma_rep m ns → n ∈ ns → n < total →
  mergedAdjacency_get m n = Some (Some (w_nodes (W n), w_kinds (W n))).
Proof.
  intros [] [k Hk]%elem_of_idx Hn. unfold mergedAdjacency_get. rewrite mr_len0.
  destruct (N.leb_spec total n); [lia|]. rewrite (mr_row0 _ _ Hk). simpl.
  destruct (Z.ltb_spec (Z.of_N k) 0); [lia|]. rewrite N2Z.id, mr_offsets0, mr_nodes0, mr_kinds0.
  assert (idx (W <$> ns) k = Some (W n)) as Hw by (by rewrite idx_fmap, Hk).
  unfold w_nodes, w_kinds. by rewrite !(row_offs_fmap _ _ _ _ Hw).
Qed.

Lemma build_merged_spec dirty : match dirty with Some b => Bitset_wf (word_cap baseN) b | None => True end →
  ∃ m ns, build_merged v dirty walk = Some m ∧ ma_rep m ns ∧
    ∀ n, n ∈ ns ↔ (n < baseN ∧ bits_has dirty n = true) ∨ (baseN ≤ n ∧ n < total).
Proof.
  intros Hwf. unfold build_merged. fold baseN total. rewrite (iterate_opt_foldM _ _ _ _ Hwf).
  set (dl := match dirty with Some b => Bitset_elems b | None => [] end).
  assert (baseN ≤ total) as Hbt by (unfold total, View_NodeCount; fold baseN; lia).
  set (l1 := filter (λ n, n < baseN) dl).
  assert (∀ m, foldM (λ m n, if n <? baseN then ma_add walk m n else Some m) dl m = foldM (ma_add walk) l1 m) as ->.
  { unfold l1. clearbody dl. induction dl as [|n dl IH]; intros m; [done|].
    rewrite filter_cons. cbn [foldM]. destruct (N.ltb_spec n baseN) as [Hlt|Hge].
    - rewrite decide_True by done. cbn [foldM]. by destruct (ma_add walk m n); simpl.
    - rewrite decide_False by lia. apply IH. }
  set (m0 := mkMergedAdjacency _ _ _ _).
  assert (ma_rep m0 []) as Hm0.
  { split; try done; [apply len_mk|]. intros n Hn _. by apply idx_mk. }
  assert (NoDup l1 ∧ (∀ n, n ∈ l1 ↔ n < baseN ∧ bits_has dirty n = true)) as [Hnd1 Hl1].
  { split.
    - apply NoDup_filter. unfold dl. destruct dirty as [b|]; [|constructor].
      by eapply sorted_lt_NoDup, Bitset_elems_sorted.
    - intros n. unfold l1, dl. by rewrite list_elem_of_filter, (bits_elems _ _ _ Hwf). }
  assert (NoDup (l1 ++ range baseN total)) as Hnd.
  { apply NoDup_app. split_and!; [done| |apply NoDup_range].
    intros n [Hn _]%Hl1 [Hn' _]%elem_of_range. lia. }
  assert (len (l1 ++ range baseN total) < 2 ^ 31) as Hlen.
  { apply N.le_lt_trans with total; [|done].
    apply NoDup_len_bound; [done|]. intros n. rewrite elem_of_app, Hl1, elem_of_range. lia. }
  destruct (ma_add_all m0 [] l1 Hm0) as (m1 & -> & Hm1).
  { intros n [Hn _]%Hl1. lia. } { done. } { rewrite len_app in Hlen. simpl. lia. }
  simpl in *. rewrite (foldM_ext _ (ma_add walk)).
  2: { intros m n [_ Hn]%elem_of_range. rewrite u32_small; [done|]. fold total in Hsize. lia. }
  destruct (ma_add_all m1 l1 (range baseN total) Hm1) as (m2 & -> & Hm2); [|done|done|].
  { intros n [_ Hn]%elem_of_range. done. }
  exists m2, (l1 ++ range baseN total). split_and!; [done..|].
  intros n. by rewrite elem_of_app, Hl1, elem_of_range.
Qed.
End merged.

(** ** The slices *)

Lemma OutSlices_walk n : OutSlices v n =
  Some (if n <? View_NodeCount v
        then Some (w_nodes (walk_list v L true n), w_kinds (walk_list v L true n)) else None).
Proof.
  unfold OutSlices, CleanOut. fold baseN.
  assert (baseN ≤ View_NodeCount v) as Hle by (unfold View_NodeCount; fold baseN; lia).
  destruct dirty_bits as (d & -> & Hd & Hbits & _ & Hwf & _).
  pose proof (rep_NodeCount _ _ HB) as HN. fold baseN in HN.
  destruct (N.leb_spec baseN n) as [Hge|Hlt]; [|simpl; destruct (bits_has (fst <$> d) n) eqn:Eb]; simpl.
  3: { rewrite (proj2 (N.ltb_lt _ _)) by lia. destruct (out_row_Some _ _ HB n) as [r Hr]; [lia|].
       rewrite (Out_spec _ _ HB _ _ Hr). simpl.
       destruct (clean_out n r Hr Hlt) as [-> ->]; [|done]. intros Hin%Hbits; [congruence|done]. }
  all: destruct (N.leb_spec (View_NodeCount v) n) as [Hge'|Hlt'];
    [by rewrite (proj2 (N.ltb_ge _ _)) by lia|rewrite (proj2 (N.ltb_lt _ _)) by lia].
  all: unfold mergedOut; rewrite Hd; simpl.
  all: destruct (build_merged_spec (walk_list v L true) (OutEdges v) (λ n y s, OutEdges_walk v L Ds HR n y s) (fst <$> d) Hwf)
    as (m & ns & -> & Hm & Hns); simpl.
  all: apply (ma_get _ m ns); [done| |done]; apply Hns; auto.
Qed.

Lemma InSlices_walk n : InSlices v n =
  Some (if n <? View_NodeCount v
        then Some (w_nodes (walk_list v L false n), w_kinds (walk_list v L false n)) else None).
Proof.
  unfold InSlices, CleanIn. fold baseN.
  assert (baseN ≤ View_NodeCount v) as Hle by (unfold View_NodeCount; fold baseN; lia).
  destruct dirty_bits as (d & -> & Hd & _ & Hbits & _ & Hwf & _).
  pose proof (rep_NodeCount _ _ HB) as HN. fold baseN in HN.
  destruct (N.leb_spec baseN n) as [Hge|Hlt]; [|simpl; destruct (bits_has (snd <$> d) n) eqn:Eb]; simpl.
  3: { rewrite (proj2 (N.ltb_lt _ _)) by lia. destruct (in_row_Some _ _ HB n) as [r Hr]; [lia|].
       rewrite (In_spec _ _ HB _ _ Hr). simpl.
       destruct (clean_in n r Hr Hlt) as [-> ->]; [|done]. intros Hin%Hbits; [congruence|done]. }
  all: destruct (N.leb_spec (View_NodeCount v) n) as [Hge'|Hlt'];
    [by rewrite (proj2 (N.ltb_ge _ _)) by lia|rewrite (proj2 (N.ltb_lt _ _)) by lia].
  all: unfold mergedIn; rewrite Hd; simpl.
  all: destruct (build_merged_spec (walk_list v L false) (InEdges v) (λ n y s, InEdges_walk v L Ds HR n y s) (snd <$> d) Hwf)
    as (m & ns & -> & Hm & Hns); simpl.
  all: apply (ma_get _ m ns); [done| |done]; apply Hns; auto.
Qed.
End rows.
