(* ===== verification/ViewKinds.v ===== *)
(** * Kinds seen through a view

    [internal/engine/snapshot/view.go], continued: the kind names
    ([Kinds]), the bound on kind ids ([MaxKindID]), and the two summaries the
    planner asks before it may skip work, [SelfLoopHazard] and
    [EdgeKindPresent].  The summaries look at the base and at every segment,
    not at the merged delta: they may say yes for an edge that is gone, and
    never say no for one that is visible. *)

From S2P Require Import Prelude Bitset Csr Kinds Props Snapshot Builder Segment View ViewAdj.
From stdpp Require Import options.
Unset Default Proof Using.

(** ** Names *)

(** The name of a kind: the delta's, or the base's. *)
Definition over_name (base : KindTable) (added : gmap KindID string) (k : KindID) : option string :=
  match added !! k with
  | Some name => if bool_decide (0 ≤ k)%Z && negb (String.eqb name EmptyString) then Some name else None
  | None => KindTable_Name base k
  end.

Lemma foldl_insert_lookup {A} (added : gmap Z A) (m : gmap Z A) k :
  foldl (λ m '(k, x), <[k := x]> m) m (map_to_list added) !! k =
  match added !! k with Some x => Some x | None => m !! k end.
Proof.
  assert (∀ l : list (Z * A), NoDup l.*1 → foldl (λ m '(k, x), <[k := x]> m) m l !! k =
    match (list_to_map l : gmap Z A) !! k with Some x => Some x | None => m !! k end) as Hgo.
  { intros l. induction l as [|[i x] l IH] using rev_ind; intros Hnd; [done|].
    rewrite fmap_app in Hnd. apply NoDup_app in Hnd as (Hnd & Hd & _).
    rewrite foldl_app, list_to_map_snoc by (intros Hin; apply (Hd _ Hin); left). simpl.
    rewrite !lookup_insert. case_decide; [done|by apply IH]. }
  rewrite Hgo by apply NoDup_fst_map_to_list. by rewrite list_to_map_to_list.
Qed.

Lemma kind_pairs_lookup `{GoStd} t added k : kind_pairs t added !! k =
  match added !! k with Some name => Some name | None => KindTable_Name t k end.
Proof. unfold kind_pairs. by rewrite foldl_insert_lookup, base_pairs_lookup. Qed.

(** The table of the pairs, whichever way it is reached. *)
Lemma kind_pairs_name `{GoStd} t added t' k : NewKindTable (kind_pairs t added) = Some t' →
  KindTable_Name t' k = over_name t added k.
Proof.
  intros Ht. rewrite (NewKindTable_name _ _ _ Ht), kind_pairs_lookup. unfold over_name.
  destruct (added !! k) as [name|]; [by case_bool_decide; simpl; [destruct (String.eqb _ _)|]|].
  unfold KindTable_Name. destruct (bool_decide_reflect (0 ≤ k)%Z); [|by rewrite bool_decide_true by lia].
  case_bool_decide; [done|]. destruct (idx _ _) as [name|]; [|done].
  destruct (String.eqb name EmptyString) eqn:E; [done|by rewrite E].
Qed.

Section view_kinds.
Context `{GoStd}.
Context (v : View) (L : layout) (Ds : list delta).
Hypothesis HR : View_rep v L Ds.
Let D := delta_all Ds.
Let G := view_graph L Ds.
Let HB := vr_base _ _ _ HR.

Lemma View_Kinds_graph : ∃ t, View_Kinds v = Some t ∧
  ∀ k, KindTable_Name t k = over_name (Kinds (v_base v)) (d_kinds D) k.
Proof.
  unfold View_Kinds. destruct (merged_cases v L Ds HR) as [(-> & E & ->)|(m & -> & Hm & ->)]; simpl.
  - eexists. split; [done|]. intros k. unfold over_name, D. by rewrite E.
  - rewrite (sr_kinds _ _ Hm : AddedKinds m = _). fold D. destruct (Nat.eqb_spec (size (d_kinds D)) 0) as [E|E].
    + apply map_size_empty_iff in E. eexists. split; [done|]. intros k. unfold over_name. by rewrite E.
    + destruct (NewKindTable_table (kind_pairs (Kinds (v_base v)) (d_kinds D))) as (t & Ht & _).
      exists t. split; [done|]. intros k. by apply kind_pairs_name.
Qed.

(** ** The bound on kind ids *)

Lemma foldl_max_ge {X} (f : KindID → X → KindID) (l : list X) mx : (∀ m x, (m ≤ f m x)%Z) →
  (mx ≤ foldl f mx l)%Z ∧ ∀ x k, x ∈ l → (∀ m, (k ≤ f m x)%Z) → (k ≤ foldl f mx l)%Z.
Proof.
  intros Hf. revert mx. induction l as [|y l IH]; intros mx; simpl.
  - split; [lia|]. by intros x k ?%not_elem_of_nil.
  - destruct (IH (f mx y)) as [H1 H2]. pose proof (Hf mx y). split; [lia|].
    intros x k [->|Hin]%elem_of_cons Hk; [pose proof (Hk mx); lia|by eapply H2].
Qed.

Lemma base_node_max id ks bag k : g_nodes (base_graph L) !! id = Some (ks, bag) → k ∈ ks →
  (k ≤ MaxKindID (v_base v))%Z.
Proof.
  intros Hg Hk. destruct (decide (id ∈ lo_ids L)) as [[n Hn]%elem_of_idx|Hni].
  2: { by rewrite (base_no_node L _ Hni) in Hg. }
  destruct (base_node v L Ds HR _ _ Hn) as (ks' & bag' & Hks & _ & E). rewrite E in Hg. simplify_eq.
  destruct (dr_max _ _ (rep_derived _ _ HB)) as (_ & Hm & _). eapply Hm; [by eapply idx_elem_of|done].
Qed.

Lemma base_edge_kind id a b k : g_edges (base_graph L) !! id = Some (a, b, k) →
  ∃ e, e ∈ concat (lo_out L) ∧ oe_kind e = k.
Proof.
  intros (i & j & e & Hin & E)%(base_edge L (vr_edge_ids _ _ _ HR)).
  destruct (slot_facts (v_base v) L HB _ _ _ Hin) as (? & ? & ? & ? & _ & _ & _ & He & _ & _ & Es).
  rewrite Es in E. simplify_eq. exists e. split; [by eapply idx_elem_of|done].
Qed.

(** What the three loops of [MaxKindID] add up to. *)
Lemma merged_max m : v_merged v = Some m → Overlay v = true → Segment_rep m D →
  (MaxKindID (v_base v) ≤ View_MaxKindID v)%Z ∧
  (∀ k name, d_kinds D !! k = Some name → (k ≤ View_MaxKindID v)%Z) ∧
  (∀ id st k, sg_nodeStates m !! id = Some st → ns_Tombstoned st = false → k ∈ ns_KindIDs st →
     (k ≤ View_MaxKindID v)%Z) ∧
  (∀ id st, sg_edgeStates m !! id = Some st → es_Tombstoned st = false → (es_Kind st ≤ View_MaxKindID v)%Z).
Proof.
  intros Em Eo Hm. unfold View_MaxKindID. rewrite Em, Eo. cbn [negb]. set (max0 := max_of _ _).
  set (fn := λ (mx : KindID) '((_, st) : N * NodeSegState), if ns_Tombstoned st then mx else max_of mx (ns_KindIDs st)).
  set (fe := λ (mx : KindID) '((_, st) : N * EdgeSegState), if negb (es_Tombstoned st) && (es_Kind st >? mx)%Z then es_Kind st else mx).
  destruct (max_of_ge (MaxKindID (v_base v)) (map_to_list (AddedKinds m)).*1) as [M0 M0']. fold max0 in M0, M0'.
  destruct (foldl_max_ge fn (seg_nodes m) max0) as [M1 M1'].
  { intros mx [id st]. simpl. destruct (ns_Tombstoned st); [lia|]. apply (proj1 (max_of_ge _ _)). }
  destruct (foldl_max_ge fe (seg_edges m) (foldl fn max0 (seg_nodes m))) as [M2 M2'].
  { intros mx [id st]. simpl. destruct (es_Tombstoned st); simpl; [lia|]. destruct (Z.gtb_spec (es_Kind st) mx); lia. }
  split_and!; [lia|..].
  - intros k name Hk. rewrite <- (sr_kinds _ _ Hm) in Hk. assert (k ≤ max0)%Z; [|lia]. apply M0'.
    apply list_elem_of_fmap. exists (k, name). split; [done|]. by apply elem_of_map_to_list.
  - intros id st k Est Ht Hk. etrans; [|exact M2]. apply (M1' (id, st)).
    + unfold seg_nodes. apply list_elem_of_fmap. exists id. rewrite Est. split; [done|]. apply (sr_nids _ _ Hm). eauto.
    + intros mx. simpl. rewrite Ht. by apply max_of_ge.
  - intros id st Est Ht. apply (M2' (id, st)); [by apply (seg_edges_elem Ds m _ _ Hm)|].
    intros mx. simpl. rewrite Ht. simpl. destruct (Z.gtb_spec (es_Kind st) mx); lia.
Qed.

Definition kinds_below (M : KindID) : Prop :=
  (∀ id ks bag k, g_nodes G !! id = Some (ks, bag) → k ∈ ks → (k ≤ M)%Z) ∧
  (∀ id a b k, g_edges G !! id = Some (a, b, k) → (k ≤ M)%Z) ∧
  (∀ k name, d_kinds D !! k = Some name → (k ≤ M)%Z).

(** Every kind of a node or an edge of the graph is within the bound. *)
Lemma View_MaxKindID_graph : kinds_below (View_MaxKindID v).
Proof.
  destruct (dr_max _ _ (rep_derived _ _ HB)) as (_ & _ & Hbe). unfold kinds_below, G.
  destruct (merged_cases v L Ds HR) as [(_ & E & Eo)|(m & Em & Hm & Eo)].
  { unfold View_MaxKindID. rewrite Eo. simpl. unfold D. rewrite E. split_and!.
    - intros id ks bag k Hg. rewrite (graph_nodes L Ds), E in Hg. by apply (base_node_max id ks bag).
    - intros id a b k Hg. rewrite (graph_edges L Ds), E in Hg. apply base_edge_kind in Hg as (e & He & <-). by apply Hbe.
    - intros k name. simpl. by rewrite lookup_empty. }
  destruct (merged_max m Em Eo Hm) as (M0 & M1 & M2 & M3). split_and!; [..|done].
  - intros id ks bag k Hg Hk. rewrite (graph_nodes L Ds) in Hg. fold D in Hg.
    destruct (option_Forall2_cases _ _ _ (sr_nodes _ _ Hm id)) as [[_ E]|(st & o & Est & E & Hst)]; fold D in E; rewrite E in Hg.
    + pose proof (base_node_max _ _ _ _ Hg Hk). lia.
    + subst o. destruct Hst as (Ht & Hks & _). rewrite <- Hks in Hk. by apply (M2 id st).
  - intros id a b k Hg. rewrite (graph_edges L Ds) in Hg. fold D in Hg, Hm.
    rewrite (sr_edges _ _ Hm), lookup_fmap in Hg. destruct (sg_edgeStates m !! id) as [st|] eqn:Est; simpl in Hg.
    + unfold edge_abs in Hg. destruct (es_Tombstoned st) eqn:Et; [done|]. simplify_eq. by apply (M3 id).
    + apply base_edge_kind in Hg as (e & He%Hbe & <-). lia.
Qed.

(** ** Summaries *)

(** A delta that has the edge: some segment staged it. *)
Lemma delta_all_edge id x : d_edges D !! id = Some (Some x) → ∃ D', D' ∈ Ds ∧ d_edges D' !! id = Some (Some x).
Proof.
  unfold D, delta_all. assert (∀ D0, d_edges (foldl delta_over D0 Ds) !! id = Some (Some x) →
    d_edges D0 !! id = Some (Some x) ∨ ∃ D', D' ∈ Ds ∧ d_edges D' !! id = Some (Some x)) as Hgo.
  { clear. induction Ds as [|D1 l IH]; intros D0 Hd; simpl in *; [by left|]. apply IH in Hd as [Hd|(D' & ? & ?)].
    - simpl in Hd. apply lookup_union_Some_raw in Hd as [Hd|[_ Hd]]; [right|by left].
      exists D1. split; [left|done].
    - right. exists D'. split; [by right|done]. }
  intros [Hd|?]%Hgo; [simpl in Hd; by rewrite lookup_empty in Hd|done].
Qed.

Lemma delta_segment id x : d_edges D !! id = Some (Some x) →
  ∃ sg D', sg ∈ v_segments v ∧ Segment_rep sg D' ∧ d_edges D' !! id = Some (Some x).
Proof.
  intros (D' & Hin & Hd)%delta_all_edge. apply list_elem_of_lookup in Hin as [i Hi].
  destruct (Forall2_lookup_r _ _ _ _ _ (vr_segs _ _ _ HR) Hi) as (sg & Hsg & Hrep).
  exists sg, D'. split; [by eapply list_elem_of_lookup_2|done].
Qed.

(** The kinds a traversal asks for admit [k]: an empty list asks for all. *)
Definition admits (kinds : list KindID) (k : KindID) : Prop := kinds = [] ∨ k ∈ kinds.

Lemma setAdmits_true (set : gset KindID) kinds k : k ∈ set → admits kinds k → setAdmitsSelfLoop set kinds = true.
Proof.
  intros Hs Ha. unfold setAdmitsSelfLoop. destruct (Nat.eqb_spec (size set) 0) as [E|_].
  { apply size_empty_iff in E. set_solver. }
  destruct kinds as [|k0 ks]; [done|]. destruct Ha as [|Ha]; [done|]. apply existsb_exists. exists k.
  split; [by apply list_elem_of_In|]. by apply bool_decide_eq_true.
Qed.

Lemma SelfLoopHazard_sound kinds id a k : g_edges G !! id = Some (a, a, k) → admits kinds k →
  SelfLoopHazard v kinds = true.
Proof.
  unfold G. rewrite graph_edges. fold D. intros Hg Ha. unfold SelfLoopHazard. apply orb_true_iff.
  destruct (d_edges D !! id) as [o|] eqn:Ed.
  - subst o. right. apply delta_segment in Ed as (sg & D' & Hin & Hrep & Hd). apply existsb_exists.
    exists sg. split; [by apply list_elem_of_In|]. apply (setAdmits_true _ _ k); [|done]. apply (sr_loops _ _ Hrep). eauto.
  - left. apply (setAdmits_true _ _ k); [|done]. apply (dr_loops _ _ (rep_derived _ _ HB)).
    apply (base_edge L (vr_edge_ids _ _ _ HR)) in Hg as (i & j & e & Hin & E). exists i, j, e.
    destruct (slot_facts (v_base v) L HB _ _ _ Hin) as (? & ? & ? & ? & _ & _ & _ & _ & Hi & Hd & Es).
    rewrite Es in E. simplify_eq. split_and!; [done| |done].
    pose proof (sorted_lt_NoDup _ (pk_sorted _ _ (rep_packed _ _ HB))) as Hnd. apply N2Nat.inj. by eapply NoDup_lookup.
Qed.

Lemma EdgeKindPresent_sound kinds id a b k : g_edges G !! id = Some (a, b, k) → (0 ≤ k)%Z → admits kinds k →
  EdgeKindPresent v kinds = true.
Proof.
  unfold G. rewrite graph_edges. fold D. intros Hg H0 Ha. unfold EdgeKindPresent.
  destruct kinds as [|k0 ks]; [done|]. destruct Ha as [|Ha]; [done|]. apply existsb_exists. exists k.
  split; [by apply list_elem_of_In|]. apply orb_true_iff. destruct (d_edges D !! id) as [o|] eqn:Ed.
  - subst o. right. apply delta_segment in Ed as (sg & D' & Hin & Hrep & Hd). apply existsb_exists.
    exists sg. split; [by apply list_elem_of_In|]. apply bool_decide_eq_true, (sr_ekinds _ _ Hrep). eauto.
  - left. apply (dr_seen _ _ (rep_derived _ _ HB)). split; [done|]. by eapply base_edge_kind.
Qed.
End view_kinds.
