(* ===== verification/Fold.v ===== *)
(** * Folding a delta into a new base

    [internal/engine/snapshot/fold.go]: compaction merges the base and the
    segments into a fresh snapshot.  Nodes are merged in ascending id; edges
    whose ends both exist are staged, the ones with an end that was deleted
    are dropped, and the ones with an end that is not known yet are carried
    forward in a pending segment.  The result: the folded base with the
    pending segment on top means the same graph as the view it replaces. *)

From S2P Require Import Prelude Bitset Csr Kinds Props Snapshot Builder Segment View ViewAdj.
From stdpp Require Import options.
Unset Default Proof Using.

(** ** Definitions *)

Definition foldKindPairs (base : KindTable) (added : gmap KindID string) : gmap KindID string :=
  kind_pairs base added.

Inductive foldNodeFate := foldNodeLive | foldNodeGone | foldNodePending.

Definition foldNodeFateOf (base : Snapshot) (merged : Segment) (pgID : N) : foldNodeFate :=
  match NodeState merged pgID with
  | Some st => if ns_Tombstoned st then foldNodeGone else foldNodeLive
  | None => match Dense base pgID with Some _ => foldNodeLive | None => foldNodePending end
  end.

Section fold_defs.
Context `{GoStd}.

(** The prepared properties of a segment state; a nil [seg] is dereferenced. *)
Definition state_props (st : NodeSegState) : option preparedProps :=
  seg ← ns_seg st; Some (mkPreparedProps (ns_entries st) (sg_names seg) (sg_arena seg)).

Definition foldOneBaseNode (base : Snapshot) (merged : Segment) (i : N) : go Builder () :=
  (let! pgID := go_lift (idx (GraphIDs base) i) in
   match NodeState merged pgID with
   | Some st =>
       if ns_Tombstoned st then go_ret ()
       else let! props := go_lift (state_props st) in addPreparedNode pgID (ns_KindIDs st) props
   | None =>
       let! es := go_lift (row (ps_nodeOffsets (Props base)) (ps_entries (Props base)) i (i + 1)) in
       let! ks := go_lift (row (KindOffsets base) (NodeKinds base) i (i + 1)) in
       addPreparedNode pgID ks
         (mkPreparedProps es (ps_names (Props base)) (ps_arena (Props base)))
   end)%go.

Definition addedNodeIDs (base : Snapshot) (merged : Segment) : list N := added_nodes base merged.

Definition foldOneAddedNode (merged : Segment) (pgID : N) : go Builder () :=
  (match NodeState merged pgID with
   | None => go_err ErrInternal
   | Some st =>
       let! props := go_lift (state_props st) in addPreparedNode pgID (ns_KindIDs st) props
   end)%go.

(** The merge of the two ascending lists; each round takes one element, so
    the sum of their lengths is enough fuel. *)
Fixpoint foldNodes_loop (fuel : nat) (base : Snapshot) (merged : Segment) (added : list N)
    (i j : N) : go Builder () :=
  match fuel with
  | O => go_ret ()
  | S fuel =>
      let baseIDs := GraphIDs base in
      if (i <? len baseIDs) || (j <? len added) then
        let base_first :=
          if len added <=? j then Some true
          else if i <? len baseIDs then
            a ← idx baseIDs i; b ← idx added j; Some (a <? b)
          else Some false in
        (let! first := go_lift base_first in
         if (first : bool) then
           foldOneBaseNode base merged i ;;! foldNodes_loop fuel base merged added (i + 1) j
         else
           let! id := go_lift (idx added j) in
           foldOneAddedNode merged id ;;! foldNodes_loop fuel base merged added i (j + 1))%go
      else go_ret ()
  end.
Definition foldNodes (base : Snapshot) (merged : Segment) : go Builder () :=
  let added := addedNodeIDs base merged in
  foldNodes_loop (S (length (GraphIDs base) + length added)) base merged added 0 0.

(** The base's edges the delta does not touch, in slot order. *)
Definition fold_base_edges (base : Snapshot) (touched : gset N) (b : Builder) : option Builder :=
  foldM (λ b n,
    lo ← idx (OutOffsets base) n; hi ← idx (OutOffsets base) (n + 1);
    foldM (λ b i,
      id ← idx (OutEdgeIDs base) i;
      if decide (id ∈ touched) then Some b
      else
        s ← idx (GraphIDs base) n; t ← idx (OutTargets base) i;
        e ← idx (GraphIDs base) t; k ← idx (OutKinds base) i;
        Some (AddEdge b id s e k)) (range lo hi) b) (range 0 (NodeCount base)) b.

Definition fold_delta_edge (base : Snapshot) (merged : Segment)
    (st : Builder * SegmentBuilder * bool) (x : N * EdgeSegState) : Builder * SegmentBuilder * bool :=
  let '(b, pending, anyPending) := st in
  let '(id, es) := x in
  if es_Tombstoned es then st
  else
    match foldNodeFateOf base merged (es_StartID es), foldNodeFateOf base merged (es_EndID es) with
    | foldNodeGone, _ | _, foldNodeGone => st
    | foldNodePending, _ | _, foldNodePending =>
        (b, AddEdgeState pending id (es_StartID es) (es_EndID es) (es_Kind es), true)
    | _, _ => (AddEdge b id (es_StartID es) (es_EndID es) (es_Kind es), pending, anyPending)
    end.

Definition foldEdges (base : Snapshot) (merged : Segment) (b : Builder)
  : option (Builder * option Segment) :=
  let touched : gset N := list_to_set (seg_edges merged).*1 in
  b1 ← fold_base_edges base touched b;
  let '(b2, pending, anyPending) :=
    foldl (fold_delta_edge base merged) (b1, SegmentBuilder_zero, false) (seg_edges merged) in
  Some (b2, if anyPending then Some (SegmentBuilder_Build pending) else None).

Definition with_lineage (s base : Snapshot) : Snapshot :=
  mkSnapshot (GraphID s) (GraphIDs s) (OutOffsets s) (OutTargets s) (OutKinds s)
    (OutEdgeIDs s) (InOffsets s) (InTargets s) (InKinds s) (InEdgeIdx s) (KindOffsets s)
    (NodeKinds s) (MaxKindID s) (Kinds s) (Props s) (DroppedEdges s) (MultiGraph base)
    (WatermarkLineage base) (idIndex s) (kindBitmaps s) (selfLoopKinds s) (edgeKindSeen s)
    (edgeIDPerm s).

Definition FoldWithPendingEdges (base : Snapshot) (segments : list Segment)
  : option ((Snapshot * option Segment) + goerr) :=
  let merged := MergeSegments (Some <$> segments) in
  let b0 := SetKinds (NewBuilder (GraphID base)) (foldKindPairs (Kinds base) (AddedKinds merged)) in
  '(b1, r) ← foldNodes base merged b0;
  match r with
  | inr err => Some (inr err)
  | inl _ =>
      '(b2, pending) ← foldEdges base merged b1;
      folded ← Build b2;
      Some (inl (with_lineage folded base, pending))
  end.

Definition Fold (base : Snapshot) (segments : list Segment) : option (Snapshot + goerr) :=
  r ← FoldWithPendingEdges base segments;
  Some (match r with inl (folded, _) => inl folded | inr err => inr err end).
End fold_defs.

(** ** Sizes *)

(** The nodes of a graph as staged nodes, and the room they take. *)
Definition graph_list (G : graph) : list node_rec :=
  (λ x : N * node_state, (x.1, x.2.1, x.2.2)) <$> map_to_list (g_nodes G).
Definition kinds_room (nodes : list node_rec) : N := len (concat (nd_kinds <$> nodes)).
Definition props_room (nodes : list node_rec) : N :=
  foldr (λ nd acc, N.of_nat (size (nd_bag nd)) + acc) 0 nodes.

(** The graph's nodes, kinds and property entries fit the 32-bit offsets. *)
Definition graph_fits (G : graph) : Prop :=
  len (graph_list G) < 2 ^ 32 ∧ kinds_room (graph_list G) < 2 ^ 32 ∧ props_room (graph_list G) < 2 ^ 32.

Lemma kinds_room_app l k : kinds_room (l ++ k) = kinds_room l + kinds_room k.
Proof. unfold kinds_room. by rewrite fmap_app, concat_app, len_app. Qed.
Lemma props_room_app l k : props_room (l ++ k) = props_room l + props_room k.
Proof. unfold props_room. induction l as [|x l IH]; simpl; [done|]. rewrite IH. lia. Qed.

#[global] Instance kinds_room_perm : Proper (Permutation ==> eq) kinds_room.
Proof.
  intros l k Hp. unfold kinds_room, len. f_equal. apply Permutation_length.
  induction Hp; csimpl; rewrite ?app_assoc; [done|by f_equiv| |by etrans].
  f_equiv. apply Permutation_app_comm.
Qed.
#[global] Instance props_room_perm : Proper (Permutation ==> eq) props_room.
Proof. intros l k Hp. unfold props_room. induction Hp; simpl; lia. Qed.

(** Staged nodes that are nodes of the graph, each once, take no more room. *)
Lemma nodes_room G (nodes : list node_rec) : NoDup (nd_id <$> nodes) →
  (∀ nd, nd ∈ nodes → g_nodes G !! nd_id nd = Some (nd_kinds nd, nd_bag nd)) →
  len nodes ≤ len (graph_list G) ∧ kinds_room nodes ≤ kinds_room (graph_list G) ∧
  props_room nodes ≤ props_room (graph_list G).
Proof.
  intros Hnd Hin. assert (nodes ⊆+ graph_list G) as (rest & Hp)%submseteq_Permutation.
  { apply NoDup_submseteq; [by eapply NoDup_fmap_1|]. intros [[id ks] bag] Hn. unfold graph_list.
    apply list_elem_of_fmap. exists (id, (ks, bag)). split; [done|]. apply elem_of_map_to_list.
    by apply (Hin (id, ks, bag)). }
  rewrite Hp, kinds_room_app, props_room_app, len_app. lia.
Qed.

(** ** Folding the nodes *)

Section fold.
Context `{GoStd}.
Context (base : Snapshot) (segs : list Segment) (L : layout) (Ds : list delta).
Let v := mkView base segs.
Hypothesis HR : View_rep v L Ds.
Let D := delta_all Ds.
Let G := view_graph L Ds.
Let HB := vr_base _ _ _ HR.
Let HP := rep_packed _ _ HB.
Let m := MergeSegments (Some <$> segs).

Lemma merged_rep : Segment_rep m D.
Proof. apply MergeSegments_rep, (vr_segs _ _ _ HR). Qed.

Lemma added_virtual : addedNodeIDs base m = virtualPgIDs v.
Proof.
  unfold addedNodeIDs, virtualPgIDs, v_merged. simpl. unfold m. destruct segs as [|s l] eqn:E; [|done].
  assert (seg_nodes (MergeSegments (Some <$> [])) = []) as Hn; [|unfold added_nodes; by rewrite Hn].
  unfold seg_nodes. assert (sg_nodeIDs (MergeSegments (Some <$> ([] : list Segment))) = []) as ->; [|done].
  simpl. unfold sortedUint64Keys. rewrite map_to_list_empty. simpl.
  apply Permutation_nil. symmetry. apply go_sort_perm.
Qed.

(** What folding one node does: nothing for a deleted one, else it stages
    the state the view shows. *)
Definition stages_node (id : N) (b : Builder) (r : option (Builder * (() + goerr))) : Prop :=
  match g_nodes G !! id with
  | None => r = Some (b, inl ())
  | Some (ks, bag) => ∃ st, stages st bag ∧ r = add_node st id ks b
  end.

Lemma state_stages st ks bag b id : node_state_rep st (Some (ks, bag)) →
  ∃ sg, stages sg bag ∧
    (let! props := go_lift (state_props st) in addPreparedNode id (ns_KindIDs st) props)%go b =
    add_node sg id ks b.
Proof.
  intros (_ & -> & _ & store & bs & Hseg & [] & Hrow & <-). unfold state_props. rewrite Hseg. simpl.
  eexists. split; [by eapply stages_prepared|]. done.
Qed.

Lemma foldOneBaseNode_spec i id b : idx (lo_ids L) i = Some id →
  stages_node id b (foldOneBaseNode base m i b).
Proof.
  intros Hi. assert (foldOneBaseNode base m i b = match NodeState m id with
    | Some st => if ns_Tombstoned st then go_ret () b
        else (let! props := go_lift (state_props st) in addPreparedNode id (ns_KindIDs st) props)%go b
    | None =>
        (let! es := go_lift (row (ps_nodeOffsets (Props base)) (ps_entries (Props base)) i (i + 1)) in
         let! ks := go_lift (row (KindOffsets base) (NodeKinds base) i (i + 1)) in
         addPreparedNode id ks (mkPreparedProps es (ps_names (Props base)) (ps_arena (Props base))))%go b
    end) as ->.
  { unfold foldOneBaseNode, go_bind at 1, go_lift at 1.
    rewrite (base_ids v L Ds HR : GraphIDs base = _), Hi. simpl.
    by destruct (NodeState m id) as [[[]]|]. }
  unfold stages_node, G. rewrite graph_nodes. fold D.
  unfold NodeState. destruct (option_Forall2_cases _ _ _ (sr_nodes _ _ merged_rep id))
    as [[-> ->]|(st & o & -> & -> & Hst)].
  - destruct (base_node v L Ds HR _ _ Hi) as (ks & bag & Hk & Hb & E). rewrite E. clear E.
    pose proof (dr_props _ _ (rep_derived _ _ HB)) as Hps. simpl in Hps.
    destruct (idx_is_Some (lo_props L) i) as [es Hes].
    { rewrite (psr_len _ _ _ Hps). by eapply idx_lt. }
    destruct (psr_rows _ _ _ Hps _ _ _ Hes Hb) as (bs & Hrow & <-).
    unfold go_bind, go_lift. rewrite (psr_offsets _ _ _ Hps), (psr_entries _ _ _ Hps), (row_offs _ _ _ Hes). simpl.
    rewrite (pk_koff _ _ HP : KindOffsets base = _), (pk_nkinds _ _ HP : NodeKinds base = _), (row_offs _ _ _ Hk). simpl.
    eexists. split; [eapply stages_prepared; [apply (psr_names _ _ _ Hps)|apply (psr_arena _ _ _ Hps)|done]|done].
  - destruct o as [[ks bag]|]; simpl in Hst.
    + pose proof Hst as (-> & _). by apply state_stages.
    + by rewrite Hst.
Qed.

Lemma foldOneAddedNode_spec id b : is_added L D id → stages_node id b (foldOneAddedNode m id b).
Proof.
  intros [([ks bag] & Hd) _]. unfold foldOneAddedNode, stages_node, G. rewrite graph_nodes. fold D. rewrite Hd.
  unfold NodeState. destruct (option_Forall2_cases _ _ _ (sr_nodes _ _ merged_rep id))
    as [[_ ?]|(st & o & -> & E & Hst)]; [congruence|].
  rewrite Hd in E. simplify_eq. by apply state_stages.
Qed.

(** *** The merge loop *)

Hypothesis Hfits : graph_fits G.

(** The staged nodes are the live ones among the ids [P] processed so far. *)
Record fold_inv (b0 : Builder) (P : N → Prop) (b : Builder) (nodes : list node_rec)
    (prows : list (list propEntry)) : Prop := {
  fi_rep : Builder_rep b nodes prows;
  fi_ents : len (b_propEntries b) = props_room nodes;
  fi_meta : b_graphID b = b_graphID b0 ∧ b_edges b = b_edges b0 ∧ b_kindTable b = b_kindTable b0;
  fi_nodes : ∀ nd, nd ∈ nodes ↔ P (nd_id nd) ∧ g_nodes G !! nd_id nd = Some (nd_kinds nd, nd_bag nd);
}.

Lemma fold_inv_step b0 P b nodes prows id r : fold_inv b0 P b nodes prows →
  (∀ x, P x → x < id) → stages_node id b r →
  ∃ b' res, r = Some (b', res) ∧
    match res with
    | inl _ => ∃ nodes' prows', fold_inv b0 (λ x, P x ∨ x = id) b' nodes' prows'
    | inr err => err = ErrTooManyProps ∨ err = ErrArenaFull
    end.
Proof.
  intros [Hrep He Hmeta Hn] Hlt Hst. unfold stages_node in Hst.
  destruct (g_nodes G !! id) as [[ks bag]|] eqn:Eg.
  - destruct Hst as (st & Hst & ->). destruct Hfits as (F1 & F2 & F3).
    assert (NoDup (nd_id <$> nodes ++ [(id, ks, bag)])) as Hnd.
    { rewrite fmap_app. apply NoDup_app. split_and!; [|intros x (nd & -> & Hin)%list_elem_of_fmap|apply NoDup_singleton].
      - rewrite <- (br_ids _ _ _ Hrep). apply sorted_lt_NoDup, (br_sorted _ _ _ Hrep).
      - apply Hn in Hin as [Hin%Hlt _]. intros E%list_elem_of_singleton. unfold nd_id in *. simpl in *. lia. }
    destruct (nodes_room G (nodes ++ [(id, ks, bag)]) Hnd) as (R1 & R2 & R3).
    { intros nd [Hin|Hin]%elem_of_app; [by apply Hn|]. by apply list_elem_of_singleton in Hin as ->. }
    rewrite kinds_room_app in R2. rewrite props_room_app in R3.
    unfold kinds_room in R2 at 1. rewrite <- (br_flat _ _ _ Hrep) in R2.
    unfold kinds_room in R2 at 1. simpl in R2, R3. rewrite app_nil_r in R2.
    unfold nd_kinds, nd_bag in R2, R3. simpl in R2, R3.
    destruct (add_node_spec st bag b nodes prows id ks Hst Hrep) as (b' & res & -> & M1 & M2 & M3 & Hres); [lia..|].
    exists b', res. split; [done|]. destruct res as [[]|err].
    + destruct Hres as (_ & es & Hrep' & He'). exists (nodes ++ [(id, ks, bag)]), (prows ++ [es]).
      split; [done| |by rewrite M1, M2, M3|].
      * rewrite He', He, props_room_app. simpl. unfold nd_bag. simpl. lia.
      * intros nd. rewrite elem_of_app, list_elem_of_singleton, Hn. split.
        -- intros [[? ?]| ->]; [auto|]. simpl. auto.
        -- intros [[?|E] Hg]; [auto|]. right. rewrite E, Eg in Hg. destruct nd as [[??]?]. unfold nd_id, nd_kinds, nd_bag in *. simpl in *. congruence.
    + destruct Hres as (_ & [->|[->|(nd & Hin & Hle & _)]]); [auto..|].
      apply Hn in Hin as [Hin%Hlt _]. lia.
  - subst r. exists b, (inl ()). split; [done|]. exists nodes, prows. split; [done..|].
    intros nd. rewrite Hn. split; [naive_solver|]. intros [[?|E] Hg]; [done|]. congruence.
Qed.

Definition processed (i j : N) (x : N) : Prop :=
  x ∈ take (N.to_nat i) (lo_ids L) ∨ x ∈ take (N.to_nat j) (virtualPgIDs v).

Lemma fold_inv_ext b0 P Q b nodes prows : (∀ x, P x ↔ Q x) →
  fold_inv b0 P b nodes prows → fold_inv b0 Q b nodes prows.
Proof. intros HPQ []. split; try done. intros nd. by rewrite <- HPQ. Qed.

(** The loop ends with everything processed, or with a staging error. *)
Definition loop_ok (b0 : Builder) (r : option (Builder * (() + goerr))) : Prop :=
  ∃ b' res, r = Some (b', res) ∧
    match res with
    | inl _ => ∃ nodes' prows',
        fold_inv b0 (processed (len (lo_ids L)) (len (virtualPgIDs v))) b' nodes' prows'
    | inr err => err = ErrTooManyProps ∨ err = ErrArenaFull
    end.

Lemma loop_step b0 P Q b nodes prows id (f k : go Builder ()) : fold_inv b0 P b nodes prows →
  (∀ x, P x → x < id) → stages_node id b (f b) → (∀ x, Q x ↔ P x ∨ x = id) →
  (∀ b1 nodes1 prows1, fold_inv b0 Q b1 nodes1 prows1 → loop_ok b0 (k b1)) →
  loop_ok b0 ((f ;;! k)%go b).
Proof.
  intros Hinv Hlt Hst HQ Hk. unfold go_bind.
  destruct (fold_inv_step b0 P b nodes prows id (f b) Hinv Hlt Hst) as (b1 & r1 & -> & Hr1). simpl.
  destruct r1 as [[]|err]; [|by eexists _, _]. destruct Hr1 as (nodes1 & prows1 & Hinv1).
  eapply Hk, fold_inv_ext; [|exact Hinv1]. intros x. by rewrite HQ.
Qed.

Lemma sorted_le l i id : StronglySorted N.lt l → idx l i = Some id →
  ∀ k y, i ≤ k → idx l k = Some y → id ≤ y.
Proof.
  intros Hs Hi k y Hk Hy. destruct (decide (i = k)) as [->|]; [assert (id = y) by congruence; lia|].
  assert (id < y); [|lia]. by apply (sorted_idx _ _ i k _ _ Hs); [..|lia].
Qed.

Lemma foldNodes_loop_spec fuel b0 i j b nodes prows :
  i ≤ len (lo_ids L) → j ≤ len (virtualPgIDs v) →
  (N.to_nat (len (lo_ids L) - i) + N.to_nat (len (virtualPgIDs v) - j) < fuel)%nat →
  fold_inv b0 (processed i j) b nodes prows →
  (∀ x k y, processed i j x → i ≤ k → idx (lo_ids L) k = Some y → x < y) →
  (∀ x k y, processed i j x → j ≤ k → idx (virtualPgIDs v) k = Some y → x < y) →
  loop_ok b0 (foldNodes_loop fuel base m (virtualPgIDs v) i j b).
Proof.
  revert i j b nodes prows. induction fuel as [|fuel IH]; intros i j b nodes prows Hi Hj Hf Hinv Hb Ha; [lia|].
  destruct (virtual_spec v L Ds HR) as [Hvs Hv]. pose proof (pk_sorted _ _ HP) as Hbs.
  assert (∀ id, idx (lo_ids L) i = Some id → (∀ k y, j ≤ k → idx (virtualPgIDs v) k = Some y → id < y) →
    loop_ok b0 ((foldOneBaseNode base m i ;;! foldNodes_loop fuel base m (virtualPgIDs v) (i + 1) j)%go b)) as Hbase.
  { intros id Hid Hsm. pose proof (idx_lt _ _ _ Hid) as Hil.
    assert (∀ x, processed (i + 1) j x ↔ processed i j x ∨ x = id) as Hpr.
    { intros x. unfold processed. rewrite (take_S_idx _ _ _ Hid), elem_of_app, list_elem_of_singleton. tauto. }
    eapply loop_step; [exact Hinv|intros x Hx; by eapply (Hb x i)|by apply foldOneBaseNode_spec|exact Hpr|].
    intros b1 nodes1 prows1 Hinv1. eapply IH; [lia..|exact Hinv1| |]; intros x k y [Hx| ->]%Hpr Hk Hy.
    - apply (Hb x k); [done|lia|done].
    - by apply (sorted_idx _ _ i k _ _ Hbs); [..|lia].
    - by apply (Ha x k).
    - by apply (Hsm k). }
  assert (∀ id, idx (virtualPgIDs v) j = Some id → (∀ k y, i ≤ k → idx (lo_ids L) k = Some y → id < y) →
    loop_ok b0 ((foldOneAddedNode m id ;;! foldNodes_loop fuel base m (virtualPgIDs v) i (j + 1))%go b)) as Hadd.
  { intros id Hid Hsm. pose proof (idx_lt _ _ _ Hid) as Hjl.
    assert (∀ x, processed i (j + 1) x ↔ processed i j x ∨ x = id) as Hpr.
    { intros x. unfold processed. rewrite (take_S_idx _ _ _ Hid), elem_of_app, list_elem_of_singleton. tauto. }
    eapply loop_step; [exact Hinv|intros x Hx; by eapply (Ha x j)| |exact Hpr|].
    { apply foldOneAddedNode_spec, Hv. by eapply idx_elem_of. }
    intros b1 nodes1 prows1 Hinv1. eapply IH; [lia..|exact Hinv1| |]; intros x k y [Hx| ->]%Hpr Hk Hy.
    - by apply (Hb x k).
    - by apply (Hsm k).
    - apply (Ha x k); [done|lia|done].
    - by apply (sorted_idx _ _ j k _ _ Hvs); [..|lia]. }
  cbn [foldNodes_loop]. rewrite (base_ids v L Ds HR : GraphIDs base = _).
  destruct (N.leb_spec (len (virtualPgIDs v)) j) as [Hjl|Hjl].
  { rewrite (proj2 (N.ltb_ge j _)), orb_false_r by done. destruct (N.ltb_spec i (len (lo_ids L))) as [Hil|Hil].
    - destruct (idx_is_Some _ _ Hil) as [id Hid]. apply (Hbase id Hid). intros k y Hk Hy%idx_lt. lia.
    - assert (i = len (lo_ids L)) as -> by lia. assert (j = len (virtualPgIDs v)) as -> by lia.
      eexists _, _. split; [done|]. by exists nodes, prows. }
  destruct (idx_is_Some _ _ Hjl) as [aid Haid]. rewrite (proj2 (N.ltb_lt j _)), orb_true_r by done.
  destruct (N.ltb_spec i (len (lo_ids L))) as [Hil|Hil].
  - destruct (idx_is_Some _ _ Hil) as [id Hid]. rewrite Hid, Haid. unfold go_bind at 1, go_lift at 1. simpl.
    destruct (N.ltb_spec id aid) as [Hlt|Hge].
    + apply (Hbase id Hid). intros k y Hk Hy. pose proof (sorted_le _ j aid Hvs Haid k y Hk Hy). lia.
    + apply (Hadd aid Haid). intros k y Hk Hy.
      pose proof (sorted_le _ i id Hbs Hid k y Hk Hy). enough (aid ≠ id) by lia. intros ->.
      assert (id ∈ virtualPgIDs v) as [_ Hni]%Hv by by eapply idx_elem_of. apply Hni. by eapply idx_elem_of.
  - rewrite Haid. unfold go_bind at 1, go_lift at 1. simpl.
    apply (Hadd aid Haid). intros k y Hk Hy%idx_lt. lia.
Qed.

(** [foldNodes] stages the nodes of the view's graph, and no others. *)
Lemma foldNodes_spec b0 : fold_inv b0 (λ _, False) b0 [] [] →
  ∃ b' res, foldNodes base m b0 = Some (b', res) ∧
    match res with
    | inl _ => ∃ nodes prows, fold_inv b0 (λ x, is_Some (g_nodes G !! x)) b' nodes prows
    | inr err => err = ErrTooManyProps ∨ err = ErrArenaFull
    end.
Proof.
  intros H0. unfold foldNodes. rewrite added_virtual.
  destruct (foldNodes_loop_spec (S (length (GraphIDs base) + length (virtualPgIDs v))) b0 0 0 b0 [] [])
    as (b' & res & -> & Hres).
  - lia.
  - lia.
  - rewrite (base_ids v L Ds HR : GraphIDs base = _). unfold len. lia.
  - eapply fold_inv_ext; [|exact H0]. intros x. unfold processed. simpl. rewrite !elem_of_nil. tauto.
  - intros x k y [?%not_elem_of_nil|?%not_elem_of_nil]; done.
  - intros x k y [?%not_elem_of_nil|?%not_elem_of_nil]; done.
  - exists b', res. split; [done|]. destruct res as [[]|err]; [|done].
    destruct Hres as (nodes & prows & []). exists nodes, prows. split; try done.
    intros nd. rewrite fi_nodes0. split; [naive_solver|]. intros [_ Hg]. split; [|done].
    destruct (node_numbered v L Ds HR _ _ Hg) as [n Hn]. apply idx_elem_of in Hn. unfold view_ids in Hn.
    rewrite (base_ids v L Ds HR), elem_of_app in Hn. unfold processed.
    rewrite !take_ge by (unfold len; lia). tauto.
Qed.
End fold.
