(* ===== verification/FoldGraph.v ===== *)
(** * Folding keeps the graph

    [internal/engine/snapshot/fold.go], continued: [foldEdges] stages the base
    edges the delta leaves alone and the delta's edges between live nodes, and
    carries the ones with an unknown end in a pending segment.  The main
    lemma: the folded base, with the pending segment on top, has the nodes of
    the view and all of its edges but the ones with a deleted end. *)

From S2P Require Import Prelude Bitset Csr Kinds Props Snapshot Builder Segment View ViewAdj ViewKinds Fold.
From stdpp Require Import options.
Unset Default Proof Using.

(** ** Staging lists of edges *)

Definition add_edge (b : Builder) (x : edge_rec) : Builder := AddEdge b x.1 x.2.1.1 x.2.1.2 x.2.2.
Definition staged (x : edge_rec) : stagedEdge := mkStagedEdge x.1 x.2.1.1 x.2.1.2 x.2.2.

Lemma add_edges_eq b l : foldl add_edge b l =
  mkBuilder (b_graphID b) (b_ids b) (b_kindsFlat b) (b_kindOffsets b) (b_props b)
    (b_propEntries b) (b_propOffsets b) (b_edges b ++ (staged <$> l)) (b_kindTable b).
Proof.
  revert b. induction l as [|x l IH]; intros b; simpl.
  - rewrite app_nil_r. by destruct b.
  - rewrite IH. simpl. rewrite <- (assoc_L app). done.
Qed.

Lemma add_edges_rep b l nodes prows : Builder_rep b nodes prows →
  Builder_rep (foldl add_edge b l) nodes prows.
Proof. intros []. rewrite add_edges_eq. by split. Qed.

Definition add_pending (sb : SegmentBuilder) (x : edge_rec) : SegmentBuilder :=
  AddEdgeState sb x.1 x.2.1.1 x.2.1.2 x.2.2.
Definition pend_delta (l : list edge_rec) : delta := mkDelta ∅ (Some <$> list_to_map l) ∅.

Lemma add_pending_rep `{GoStd} (l : list edge_rec) : NoDup l.*1 →
  SegmentBuilder_rep (foldl add_pending SegmentBuilder_zero l) (pend_delta l).
Proof.
  induction l as [|[id [[s e] k]] l IH] using rev_ind.
  - intros _. unfold pend_delta. simpl. rewrite fmap_empty. apply SegmentBuilder_zero_rep.
  - rewrite fmap_app. intros (Hnd & Hd & _)%NoDup_app. rewrite foldl_app. simpl.
    assert (id ∉ l.*1) as Hf by (intros Hin; apply (Hd _ Hin); left).
    unfold pend_delta. rewrite list_to_map_snoc, fmap_insert by done.
    by apply (AddEdgeState_rep _ (pend_delta l)), IH.
Qed.

(** ** The fate of an edge *)

Definition fates (a b : foldNodeFate) : foldNodeFate :=
  match a, b with
  | foldNodeGone, _ | _, foldNodeGone => foldNodeGone
  | foldNodePending, _ | _, foldNodePending => foldNodePending
  | _, _ => foldNodeLive
  end.

#[global] Instance foldNodeFate_eq_dec : EqDecision foldNodeFate.
Proof. solve_decision. Defined.

(** The live delta edges with the given fate. *)
Definition fated `{GoStd} (base : Snapshot) (m : Segment) (f : foldNodeFate) (x : N * EdgeSegState)
  : option edge_rec :=
  if es_Tombstoned x.2 then None
  else if decide (fates (foldNodeFateOf base m (es_StartID x.2)) (foldNodeFateOf base m (es_EndID x.2)) = f)
  then Some (x.1, (es_StartID x.2, es_EndID x.2, es_Kind x.2)) else None.

Lemma fated_eq `{GoStd} base m f id es : fated base m f (id, es) =
  if es_Tombstoned es then None
  else if decide (fates (foldNodeFateOf base m (es_StartID es)) (foldNodeFateOf base m (es_EndID es)) = f)
  then Some (id, (es_StartID es, es_EndID es, es_Kind es)) else None.
Proof. done. Qed.

Lemma fold_delta_edges `{GoStd} base m l b sb any :
  foldl (fold_delta_edge base m) (b, sb, any) l =
    (foldl add_edge b (omap (fated base m foldNodeLive) l),
     foldl add_pending sb (omap (fated base m foldNodePending) l),
     any || match omap (fated base m foldNodePending) l with [] => false | _ => true end).
Proof.
  revert b sb any. induction l as [|[id es] l IH]; intros b sb any; [simpl; by rewrite orb_false_r|].
  cbn [foldl omap list_omap]. rewrite !fated_eq. unfold fold_delta_edge at 2.
  destruct (es_Tombstoned es); [apply IH|].
  destruct (foldNodeFateOf base m (es_StartID es)), (foldNodeFateOf base m (es_EndID es)); simpl;
    rewrite IH; simpl; by rewrite ?orb_true_r.
Qed.

Section fold_edges.
Context `{GoStd}.
Context (base : Snapshot) (segs : list Segment) (L : layout) (Ds : list delta).
Let v := mkView base segs.
Hypothesis HR : View_rep v L Ds.
Let D := delta_all Ds.
Let G := view_graph L Ds.
Let HB := vr_base _ _ _ HR.
Let HP := rep_packed _ _ HB.
Let m := MergeSegments (Some <$> segs).
Let Hm : Segment_rep m D := merged_rep base segs L Ds HR.

Local Lemma Gvis id a b k : visible G !! id = Some (a, b, k) ↔ g_edges G !! id = Some (a, b, k) ∧
  is_Some (g_nodes G !! a) ∧ is_Some (g_nodes G !! b).
Proof. apply visible_iff. Qed.
Local Lemma Gedges id : g_edges G !! id =
  match d_edges D !! id with Some o => o | None => g_edges (base_graph L) !! id end.
Proof. apply graph_edges. Qed.

(** A node is live when the graph has it, gone when the delta deleted it. *)
Lemma fate_spec id : foldNodeFateOf base m id =
  match d_nodes D !! id with
  | Some None => foldNodeGone
  | Some (Some _) => foldNodeLive
  | None => if decide (id ∈ lo_ids L) then foldNodeLive else foldNodePending
  end.
Proof.
  unfold foldNodeFateOf, NodeState.
  destruct (option_Forall2_cases _ _ _ (sr_nodes _ _ Hm id)) as [[-> ->]|(st & o & -> & -> & Hst)].
  - destruct (Dense base id) as [i|] eqn:E.
    + rewrite decide_True; [done|]. apply (Dense_spec _ _ HB) in E. by eapply idx_elem_of.
    + rewrite decide_False; [done|]. by apply (base_dense_None v L Ds HR).
  - destruct o as [[ks bag]|]; simpl in Hst; [by destruct Hst as [-> _]|by rewrite Hst].
Qed.

Definition gone (id : N) : Prop := d_nodes D !! id = Some None.
#[local] Instance gone_dec id : Decision (gone id).
Proof. unfold gone. apply _. Defined.

Lemma fate_live id : foldNodeFateOf base m id = foldNodeLive ↔ is_Some (g_nodes G !! id).
Proof.
  rewrite fate_spec. unfold G. rewrite (graph_nodes L Ds). fold D.
  destruct (d_nodes D !! id) as [[st|]|]; [split; [eauto|done]|split; [done|by intros [? ?]]|].
  case_decide as Hin.
  - apply elem_of_idx in Hin as [n Hn]. destruct (base_node v L Ds HR _ _ Hn) as (ks & bag & _ & _ & ->). split; eauto.
  - rewrite (base_no_node L _ Hin). split; [done|by intros [? ?]].
Qed.

Lemma fate_gone id : foldNodeFateOf base m id = foldNodeGone ↔ gone id.
Proof.
  rewrite fate_spec. unfold gone. destruct (d_nodes D !! id) as [[st|]|]; [done..|].
  by case_decide.
Qed.

Lemma base_end_fate id : id ∈ lo_ids L → foldNodeFateOf base m id ≠ foldNodePending.
Proof. intros Hin. rewrite fate_spec. destruct (d_nodes D !! id) as [[st|]|]; [done..|]. by rewrite decide_True. Qed.

(** ** The staged edges *)

Definition untouched : list edge_rec := filter (λ x : edge_rec, ¬ is_Some (d_edges D !! x.1)) (lo_edges L).
Definition delta_edges (f : foldNodeFate) : list edge_rec := omap (fated base m f) (seg_edges m).

Lemma touched_spec id : id ∈ (list_to_set (seg_edges m).*1 : gset N) ↔ is_Some (d_edges D !! id).
Proof.
  rewrite elem_of_list_to_set. unfold seg_edges. rewrite <- list_fmap_compose.
  rewrite (sr_edges _ _ Hm), lookup_fmap, fmap_is_Some, <- (sr_eids _ _ Hm), list_elem_of_fmap.
  split; [by intros (? & -> & ?)|eauto].
Qed.

Lemma fold_base_edges_eq b : fold_base_edges base (list_to_set (seg_edges m).*1) b =
  Some (foldl add_edge b untouched).
Proof.
  unfold fold_base_edges, NodeCount. rewrite (pk_out _ _ HP : OutOffsets base = _).
  rewrite (pk_ids _ _ HP : GraphIDs base = _), <- (pk_out_len _ _ HP), foldM_slots.
  rewrite (foldM_ext _ (λ b x, Some (if decide (is_Some (d_edges D !! (slot_edge (lo_ids L) x).1)) then b
    else add_edge b (slot_edge (lo_ids L) x)))).
  - rewrite foldM_pure. unfold untouched, lo_edges.
    rewrite <- (foldl_filter (λ x : edge_rec, is_Some (d_edges D !! x.1)) add_edge), foldl_fmap'. done.
  - intros b' [[i j] e] Hx. destruct (slot_facts base L HB _ _ _ Hx) as (r & k & a & c & _ & _ & _ & He & Ha & Hc & Es).
    rewrite Es. unfold add_edge. simpl.
    rewrite (pk_eids _ _ HP : OutEdgeIDs base = _), (pk_targets _ _ HP : OutTargets base = _), (pk_kinds _ _ HP : OutKinds base = _).
    rewrite !idx_fmap, He. simpl. rewrite Ha, Hc. simpl.
    destruct (decide (is_Some _)) as [Ht|Ht]; rewrite <- touched_spec in Ht; by rewrite ?decide_True, ?decide_False by done.
Qed.

Lemma foldEdges_eq b : foldEdges base m b =
  Some (foldl add_edge b (untouched ++ delta_edges foldNodeLive),
    match delta_edges foldNodePending with
    | [] => None
    | _ => Some (SegmentBuilder_Build (foldl add_pending SegmentBuilder_zero (delta_edges foldNodePending)))
    end).
Proof.
  unfold foldEdges. rewrite fold_base_edges_eq. simpl. rewrite fold_delta_edges, foldl_app. simpl.
  unfold delta_edges. by destruct (omap (fated base m foldNodePending) _).
Qed.

Lemma delta_edges_elem f id a b k : (id, (a, b, k)) ∈ delta_edges f ↔
  d_edges D !! id = Some (Some (a, b, k)) ∧ fates (foldNodeFateOf base m a) (foldNodeFateOf base m b) = f.
Proof.
  unfold delta_edges. rewrite list_elem_of_omap. rewrite (sr_edges _ _ Hm), lookup_fmap_Some. split.
  - intros ([id' es] & Hin%(seg_edges_elem Ds m _ _ Hm) & Hf). rewrite fated_eq in Hf.
    destruct (es_Tombstoned es) eqn:Et; [done|]. case_decide; [|done]. simplify_eq. split; [|done].
    exists es. split; [|done]. unfold edge_abs. by rewrite Et.
  - intros ((es & He & Hst) & Hf). exists (id, es). split; [by apply (seg_edges_elem Ds m _ _ Hm)|].
    unfold edge_abs in He. rewrite fated_eq. destruct (es_Tombstoned es); [done|]. simplify_eq.
    by rewrite decide_True.
Qed.

Lemma delta_edges_nodup f : NoDup (delta_edges f).*1.
Proof.
  unfold delta_edges. assert ((omap (fated base m f) (seg_edges m)).*1 =
    omap (λ x, fst <$> fated base m f x) (seg_edges m)) as ->.
  { generalize (seg_edges m) as l. induction l as [|x l IH]; csimpl; [done|].
    destruct (fated base m f x); csimpl; by rewrite IH. }
  apply NoDup_omap_inj.
  - unfold seg_edges. apply NoDup_fmap_2; [by intros ?? [= ->]|]. apply sorted_lt_NoDup, (sr_esorted _ _ Hm).
  - intros [id1 st1] [id2 st2] id H1%(seg_edges_elem Ds m _ _ Hm) H2%(seg_edges_elem Ds m _ _ Hm) E1 E2.
    assert (∀ i st, fst <$> fated base m f (i, st) = Some id → i = id) as Hid.
    { intros i st. rewrite fated_eq. destruct (es_Tombstoned st); [done|]. case_decide; [|done]. by intros [= ->]. }
    apply Hid in E1, E2. congruence.
Qed.

Lemma untouched_elem id x : (id, x) ∈ untouched ↔
  d_edges D !! id = None ∧ g_edges (base_graph L) !! id = Some x.
Proof.
  unfold untouched. rewrite list_elem_of_filter. simpl. rewrite <- elem_of_list_to_map by apply (vr_edge_ids _ _ _ HR).
  by rewrite <- eq_None_not_Some.
Qed.

Lemma staged_nodup : NoDup (untouched ++ delta_edges foldNodeLive).*1.
Proof.
  rewrite fmap_app. apply NoDup_app. split_and!; [| |apply delta_edges_nodup].
  - unfold untouched. eapply sublist_NoDup; [apply (vr_edge_ids _ _ _ HR)|].
    apply fmap_sublist, sublist_filter.
  - intros id ([id1 x] & -> & H1%untouched_elem)%list_elem_of_fmap
      ([id2 [[a b] k]] & E & H2%delta_edges_elem)%list_elem_of_fmap. simpl in *. subst. destruct H1, H2. congruence.
Qed.

(** ** The graph after the fold *)

(** The ends of an edge of the base are nodes of the base. *)
Lemma base_ends id a b k : g_edges (base_graph L) !! id = Some (a, b, k) → a ∈ lo_ids L ∧ b ∈ lo_ids L.
Proof.
  intros (i & j & e & Hin & E)%(base_edge L (vr_edge_ids _ _ _ HR)).
  destruct (slot_facts base L HB _ _ _ Hin) as (r & q & a' & b' & _ & _ & _ & _ & Ha & Hb & Es).
  rewrite Es in E. simplify_eq. split; by eapply idx_elem_of.
Qed.

(** What [Build] keeps of the staged edges: the visible ones. *)
Lemma kept_edges (ids : list N) id x : (∀ y, y ∈ ids ↔ is_Some (g_nodes G !! y)) →
  (id, x) ∈ staged_edges ids (staged <$> untouched ++ delta_edges foldNodeLive) ↔ visible G !! id = Some x.
Proof.
  intros Hids. destruct x as [[a b] k]. rewrite Gvis, Gedges. unfold staged_edges. rewrite list_elem_of_fmap. split.
  - intros (e & E & [[Ha Hb] (y & -> & Hy)%list_elem_of_fmap]%list_elem_of_filter).
    destruct y as [id' [[a' b'] k']]. simpl in *. simplify_eq. rewrite Hids in Ha, Hb. split; [|done].
    apply elem_of_app in Hy as [[-> Hy]%untouched_elem|[-> _]%delta_edges_elem]; done.
  - intros (He & Ha & Hb). exists (staged (id, (a, b, k))). split; [done|].
    apply list_elem_of_filter. simpl. rewrite !Hids. split; [done|]. apply list_elem_of_fmap.
    eexists. split; [done|]. apply elem_of_app. destruct (d_edges D !! id) as [o|] eqn:Ed.
    + right. apply delta_edges_elem. split; [by subst|]. apply fate_live in Ha, Hb. by rewrite Ha, Hb.
    + left. by apply untouched_elem.
Qed.

(** The edges with no deleted end are the visible and the pending ones. *)
Lemma surviving_edges id x : g_edges G !! id = Some x ∧ ¬ gone x.1.1 ∧ ¬ gone x.1.2 ↔
  visible G !! id = Some x ∨ (id, x) ∈ delta_edges foldNodePending.
Proof.
  destruct x as [[a b] k]. rewrite Gvis, delta_edges_elem. simpl.
  rewrite <- !fate_live, <- !fate_gone. split.
  - intros (He & Ha & Hb). destruct (foldNodeFateOf base m a) eqn:Ea; [| done |];
      (destruct (foldNodeFateOf base m b) eqn:Eb; [| done |]); [by left|right..];
      (split; [|done]); rewrite Gedges in He;
      (destruct (d_edges D !! id); [by subst|]); apply base_ends in He as [H1 H2];
      exfalso; first [by apply (base_end_fate _ H1)|by apply (base_end_fate _ H2)].
  - intros [(He & -> & ->)|[Hd Hf]]; [done|]. rewrite Gedges, Hd.
    split; [done|]. by destruct (foldNodeFateOf base m a), (foldNodeFateOf base m b).
Qed.

Lemma pending_not_visible id x : (id, x) ∈ delta_edges foldNodePending → visible G !! id = None.
Proof.
  destruct x as [[a b] k]. intros [Hd Hf]%delta_edges_elem. apply eq_None_not_Some. intros [[[a' b'] k'] Hv].
  apply Gvis in Hv as (He & Ha & Hb). rewrite Gedges, Hd in He. simplify_eq. apply fate_live in Ha, Hb. by rewrite Ha, Hb in Hf.
Qed.

(** ** The folded snapshot *)

Definition opt_list {A} (o : option A) : list A := match o with Some x => [x] | None => [] end.

Lemma with_lineage_rep s L' : Snapshot_rep s L' → Snapshot_rep (with_lineage s base) L'.
Proof. intros [[] []]. split; by split. Qed.

(** A segment that holds edges only numbers no node. *)
Lemma edges_only_virtual s p D' : Segment_rep p D' → d_nodes D' = ∅ → virtualPgIDs (mkView s [p]) = [].
Proof.
  intros Hp Hn. unfold virtualPgIDs, v_merged. cbn [v_segments].
  assert (Segment_rep (MergeSegments (Some <$> [p])) (delta_all [D'])) as Hm'.
  { apply MergeSegments_rep. by constructor. }
  unfold added_nodes. assert (seg_nodes (MergeSegments (Some <$> [p])) = []) as ->; [|done].
  unfold seg_nodes. destruct (sg_nodeIDs _) as [|id ids] eqn:E; [done|]. exfalso.
  assert (is_Some (sg_nodeStates (MergeSegments (Some <$> [p])) !! id)) as [st Hst].
  { apply (sr_nids _ _ Hm'). rewrite E. left. }
  pose proof (sr_nodes _ _ Hm' id) as Hno. rewrite Hst in Hno. unfold delta_all in Hno. simpl in Hno.
  rewrite Hn, !(left_id ∅ _), lookup_empty in Hno. inversion Hno.
Qed.

(** The parts of the fold's result: the snapshot of the kept edges and the
    pending delta. *)
Lemma folded_view s L' nodes p : Snapshot_rep s L' →
  built_layout nodes (staged <$> untouched ++ delta_edges foldNodeLive) L' →
  len nodes < 2 ^ 32 →
  p = match delta_edges foldNodePending with
      | [] => None
      | _ => Some (SegmentBuilder_Build (foldl add_pending SegmentBuilder_zero (delta_edges foldNodePending)))
      end →
  ∃ Ds', View_rep (mkView s (opt_list p)) L' Ds' ∧
    delta_all Ds' = pend_delta (delta_edges foldNodePending).
Proof.
  intros Hs (Hids & _ & _ & He) Hlen ->.
  assert (NoDup (lo_edges L').*1) as Hnd.
  { rewrite He. unfold staged_edges. rewrite <- list_fmap_compose.
    eapply sublist_NoDup; [|apply fmap_sublist, sublist_filter]. rewrite <- list_fmap_compose. apply staged_nodup. }
  assert (NodeCount s < 2 ^ 32) as Hc.
  { unfold NodeCount. rewrite (pk_ids _ _ (rep_packed _ _ Hs)), Hids, len_fmap. done. }
  pose proof (SegmentBuilder_Build_rep _ _ (add_pending_rep _ (delta_edges_nodup foldNodePending))) as Hp.
  set (p := SegmentBuilder_Build _) in *.
  destruct (delta_edges foldNodePending) as [|x l] eqn:E.
  - exists []. split.
    + split; simpl; [done|constructor|done|]. unfold View_NodeCount. simpl. by rewrite N.add_0_r.
    + unfold pend_delta. simpl. by rewrite fmap_empty.
  - exists [pend_delta (x :: l)]. split.
    + split; cbn [opt_list v_base v_segments]; [done|by constructor|done|].
      unfold View_NodeCount. cbn [v_base]. by rewrite (edges_only_virtual _ _ _ Hp), len_nil, N.add_0_r.
    + unfold delta_all. simpl. unfold delta_over, pend_delta. simpl. by rewrite !(right_id ∅ _).
Qed.

(** Its nodes are the staged ones, its edges the visible and the pending ones. *)
Lemma folded_graph L' Ds' nodes : built_layout nodes (staged <$> untouched ++ delta_edges foldNodeLive) L' →
  NoDup (nd_id <$> nodes) → NoDup (lo_edges L').*1 →
  (∀ nd, nd ∈ nodes ↔ g_nodes G !! nd_id nd = Some (nd_kinds nd, nd_bag nd)) →
  delta_all Ds' = pend_delta (delta_edges foldNodePending) →
  g_nodes (view_graph L' Ds') = g_nodes G ∧
  g_edges (view_graph L' Ds') =
    filter (λ x : N * edge_state, ¬ gone x.2.1.1 ∧ ¬ gone x.2.1.2) (g_edges G).
Proof.
  intros (Hids & Hks & Hbs & He) Hnd Hned Hn HD. rewrite view_graph_all, HD. simpl. split.
  - apply map_eq. intros id. rewrite over_lookup, lookup_empty, Hids, Hks, Hbs. apply option_eq. intros [ks bag].
    rewrite <- elem_of_list_to_map.
    + transitivity ((id, ks, bag) ∈ nodes); [|by rewrite Hn]. clear. induction nodes as [|[[id' ks'] bag'] l IH]; csimpl.
      * by rewrite !elem_of_nil.
      * rewrite !elem_of_cons, IH. unfold nd_id, nd_kinds, nd_bag. simpl. split; intros [?|?]; [left|by right|left|by right]; congruence.
    + rewrite fst_zip; [done|]. rewrite length_zip_with, !length_fmap. lia.
  - apply map_eq. intros id. apply option_eq. intros x. rewrite map_lookup_filter_Some, over_lookup, lookup_fmap. simpl.
    rewrite surviving_edges.
    assert ((list_to_map (lo_edges L') : gmap N edge_state) !! id = Some x ↔ visible G !! id = Some x) as Hv.
    { rewrite <- elem_of_list_to_map by done. rewrite He. apply kept_edges. intros y. rewrite list_elem_of_fmap. split.
      - intros (nd & -> & Hnd'). apply Hn in Hnd'. eauto.
      - intros [[ks bag] Hg]. exists (y, ks, bag). split; [done|]. by apply Hn. }
    pose proof (delta_edges_nodup foldNodePending) as Hpn.
    destruct ((list_to_map (delta_edges foldNodePending) : gmap N edge_state) !! id) as [y|] eqn:Ep; simpl.
    + apply elem_of_list_to_map in Ep; [|done]. pose proof (pending_not_visible _ _ Ep) as Hno. rewrite Hno. split.
      * intros [= ->]. by right.
      * intros [?|Hin]; [done|]. apply elem_of_list_to_map in Ep, Hin; [congruence|done..].
    + rewrite Hv. split; [by left|]. intros [?|Hin]; [done|]. apply elem_of_list_to_map in Hin; [congruence|done].
Qed.

Lemma staged_len : len (untouched ++ delta_edges foldNodeLive) ≤ len (lo_edges L) + N.of_nat (size (d_edges D)).
Proof.
  rewrite len_app. apply N.add_le_mono.
  { unfold len, untouched. pose proof (length_filter (λ x : edge_rec, ¬ is_Some (d_edges D !! x.1)) (lo_edges L)). lia. }
  unfold delta_edges. etrans; [apply omap_len_le|]. unfold seg_edges. rewrite len_fmap, (sr_edges _ _ Hm), map_size_fmap.
  enough (length (sg_edgeIDs m) ≤ length (map_to_list (sg_edgeStates m)).*1)%nat as Hle.
  { rewrite length_fmap, length_map_to_list in Hle. unfold len. lia. }
  apply submseteq_length, NoDup_submseteq; [apply sorted_lt_NoDup, (sr_esorted _ _ Hm)|].
  intros id [st Hst]%(sr_eids _ _ Hm). apply list_elem_of_fmap. exists (id, st). split; [done|]. by apply elem_of_map_to_list.
Qed.

Lemma FoldWithPendingEdges_graph : graph_fits G →
  len (lo_edges L) + N.of_nat (size (d_edges D)) < 2 ^ 32 →
  (∀ id ks bag, g_nodes G !! id = Some (ks, bag) → bag_decodable bag) →
  ∃ r, FoldWithPendingEdges base segs = Some r ∧
    match r with
    | inr err => err = ErrTooManyProps ∨ err = ErrArenaFull
    | inl (s', pending) => ∃ L' Ds', View_rep (mkView s' (opt_list pending)) L' Ds' ∧
        g_nodes (view_graph L' Ds') = g_nodes G ∧
        g_edges (view_graph L' Ds') =
          filter (λ x : N * edge_state, ¬ gone x.2.1.1 ∧ ¬ gone x.2.1.2) (g_edges G) ∧
        GraphID s' = GraphID base ∧ MultiGraph s' = MultiGraph base ∧
        WatermarkLineage s' = WatermarkLineage base ∧
        (∀ k, KindTable_Name (Kinds s') k = over_name (Kinds base) (d_kinds D) k) ∧
        NewKindTable (kind_pairs (Kinds base) (d_kinds D)) = Some (Kinds s') ∧
        d_nodes (delta_all Ds') = ∅ ∧ d_kinds (delta_all Ds') = ∅
    end.
Proof.
  intros Hfits Hsz Hdec. unfold FoldWithPendingEdges. fold m. set (b0 := SetKinds _ _).
  destruct (foldNodes_spec base segs L Ds HR Hfits b0) as (b1 & r1 & E1 & Hr1).
  { split; simpl; try done; [by destruct (NewBuilder_rep (GraphID base)); split|]. intros nd. rewrite elem_of_nil. tauto. }
  fold m in E1. rewrite E1. simpl. destruct r1 as [[]|err]; [|by eauto].
  destruct Hr1 as (nodes & prows & [Hrep Hent (Hg & Hbe & Hk) Hn]). fold G in Hn.
  assert (∀ nd, nd ∈ nodes ↔ g_nodes G !! nd_id nd = Some (nd_kinds nd, nd_bag nd)) as Hn'.
  { intros nd. rewrite Hn. split; [by intros [_ ?]|eauto]. }
  rewrite foldEdges_eq. cbn [mbind option_bind]. set (p := match delta_edges foldNodePending with [] => _ | _ => _ end).
  assert (NoDup (nd_id <$> nodes)) as Hnd.
  { rewrite <- (br_ids _ _ _ Hrep). apply sorted_lt_NoDup, (br_sorted _ _ _ Hrep). }
  assert (len nodes < 2 ^ 32) as Hln.
  { destruct (nodes_room G nodes Hnd) as (R & _); [intros nd; by apply Hn'|]. destruct Hfits. lia. }
  destruct (NewKindTable_table (foldKindPairs (Kinds base) (AddedKinds m))) as (t & Ht & _).
  set (b2 := foldl add_edge b1 _).
  assert (b_edges b2 = staged <$> untouched ++ delta_edges foldNodeLive) as Eb2.
  { unfold b2. rewrite add_edges_eq. simpl. by rewrite Hbe. }
  destruct (Build_ok b2 nodes prows t) as (s & L' & -> & Hs & Hl & HgS & HkS & _).
  - by apply add_edges_rep.
  - done.
  - rewrite Eb2, len_fmap. eapply N.le_lt_trans; [apply staged_len|done].
  - intros nd Hin%Hn'. by eapply Hdec.
  - unfold b2. rewrite add_edges_eq. simpl. by rewrite Hk.
  - simpl. eexists. split; [done|]. rewrite Eb2 in Hl. apply with_lineage_rep in Hs.
    destruct (folded_view _ L' nodes p Hs Hl Hln eq_refl) as (Ds' & HV & HD).
    exists L', Ds'. split; [exact HV|].
    destruct (folded_graph L' Ds' nodes Hl Hnd (vr_edge_ids _ _ _ HV) Hn' HD) as [-> ->].
    split_and!; try done.
    + simpl. rewrite HgS. unfold b2. rewrite add_edges_eq. simpl. by rewrite Hg.
    + intros k. simpl. rewrite HkS. rewrite <- (sr_kinds _ _ Hm). by apply kind_pairs_name.
    + simpl. by rewrite HkS, <- (sr_kinds _ _ Hm).
    + by rewrite HD.
    + by rewrite HD.
Qed.

(** Dropping the edges with a deleted end changes nothing that shows, now or
    after any change [D2] that does not bring a deleted node back. *)
Lemma surviving_visible G' D2 : g_nodes G' = g_nodes G →
  g_edges G' = filter (λ x : N * edge_state, ¬ gone x.2.1.1 ∧ ¬ gone x.2.1.2) (g_edges G) →
  (∀ id st, gone id → d_nodes D2 !! id ≠ Some (Some st)) →
  g_nodes (apply_delta G' D2) = g_nodes (apply_delta G D2) ∧
  visible (apply_delta G' D2) = visible (apply_delta G D2).
Proof.
  intros Hn He Hback. assert (g_nodes (apply_delta G' D2) = g_nodes (apply_delta G D2)) as Hn2 by (simpl; by rewrite Hn).
  split; [done|]. assert (∀ x, gone x → g_nodes (apply_delta G D2) !! x = None) as Hgone.
  { intros x Hx. simpl. rewrite over_lookup. destruct (d_nodes D2 !! x) as [[st|]|] eqn:E; [by eapply Hback in E|done|].
    unfold G. rewrite graph_nodes. fold D. by rewrite Hx. }
  apply map_eq. intros id. apply option_eq. intros [[a b] k]. unfold visible. rewrite !map_lookup_filter_Some, Hn2. simpl.
  rewrite !over_lookup, He. destruct (d_edges D2 !! id) as [o|]; [done|]. rewrite map_lookup_filter_Some. simpl.
  split; [by intros [[? _] ?]|]. intros (Hg & Ha & Hb). split; [|done]. split; [done|].
  split; intros Hx%Hgone; simpl in Hx; rewrite over_lookup in Hx; rewrite Hx in *; by apply is_Some_None in Ha || apply is_Some_None in Hb.
Qed.
End fold_edges.
