(* ===== verification/PathSink.v ===== *)
(** * Where enumerated paths are collected

    [internal/engine/traverse/pathsink.go]: the paths of a query share a few
    chunks instead of one allocation each.  A chunk is a slice with a fixed
    capacity; a path that does not fit the last chunk opens a new one, and
    [paths] cuts the chunks back into paths with the recorded lengths.  The
    lemmas: a sink that holds a list of paths, with one more added, holds that
    list with the path at its end, and [paths] returns the list. *)

From S2P Require Import Prelude Bitset.
From stdpp Require Import options.
Unset Default Proof Using.

(** ** Definitions *)

Record Path := mkPath { p_Nodes : list NodeID; p_Kinds : list KindID }.

Record frame := mkFrame { f_node : NodeID; f_kind : KindID; f_depth : N }.

(** A slice with its capacity. *)
Record chunk (A : Type) := mkChunk { ch_data : list A; ch_cap : N }.
#[global] Arguments mkChunk {A}.
#[global] Arguments ch_data {A}.
#[global] Arguments ch_cap {A}.

Record pathSink := mkPathSink {
  nodeChunks : list (chunk NodeID);
  kindChunks : list (chunk KindID);
  lens : list N;
  sink_n : N;
  chunkCap : N;
  sink_stack : list frame;
  sink_walk : list NodeID;
  sink_walkKinds : list KindID;
}.
Definition pathSink_zero : pathSink := mkPathSink [] [] [] 0 0 [] [] [].

Definition pathSinkMinChunk : N := 64.
Definition pathSinkMaxChunk : N := 4096.

(** [for i, j := 0, len(l)-1; i < j; i, j = i+1, j-1 { swap }]; fewer rounds
    than elements. *)
Fixpoint reverse_loop {A} (fuel : nat) (l : list A) (i j : Z) : option (list A) :=
  match fuel with
  | O => Some l
  | S fuel =>
      if (i <? j)%Z then
        x ← idx l (Z.to_N j); y ← idx l (Z.to_N i);
        l1 ← upd l (Z.to_N i) x; l2 ← upd l1 (Z.to_N j) y;
        reverse_loop fuel l2 (i + 1) (j - 1)
      else Some l
  end.
Definition reverseNodes (ns : list NodeID) : option (list NodeID) :=
  reverse_loop (length ns) ns 0 (Z.of_N (len ns) - 1).
Definition reverseKinds (ks : list KindID) : option (list KindID) :=
  reverse_loop (length ks) ks 0 (Z.of_N (len ks) - 1).

Definition addChunk (s : pathSink) (need : N) : pathSink :=
  let size0 := if chunkCap s =? 0 then pathSinkMinChunk
               else if chunkCap s <? pathSinkMaxChunk then chunkCap s * 2 else chunkCap s in
  let size := if size0 <? need then need else size0 in
  mkPathSink (nodeChunks s ++ [mkChunk [] size]) (kindChunks s ++ [mkChunk [] size])
    (lens s) (sink_n s) size (sink_stack s) (sink_walk s) (sink_walkKinds s).

(** [append(c, xs...)], and the part it wrote reversed in place. *)
Definition append_chunk {A} (rev : list A → option (list A)) (reverse : bool) (c : chunk A) (xs : list A)
  : option (chunk A) :=
  xs' ← (if reverse then rev xs else Some xs);
  let data := ch_data c ++ xs' in
  Some (mkChunk data (if ch_cap c <? len data then len data else ch_cap c)).

Definition pathSink_add (s : pathSink) (nodes : list NodeID) (kinds : list KindID) (reverse : bool)
  : option pathSink :=
  let n := len nodes in
  let fits := match last (nodeChunks s) with
              | None => false
              | Some c => negb (ch_cap c - len (ch_data c) <? n)
              end in
  let s1 := if fits then s else addChunk s n in
  let lastIdx := len (nodeChunks s1) - 1 in
  nc ← idx (nodeChunks s1) lastIdx;
  kc ← idx (kindChunks s1) lastIdx;
  nc' ← append_chunk reverseNodes reverse nc nodes;
  kc' ← append_chunk reverseKinds reverse kc kinds;
  ncs ← upd (nodeChunks s1) lastIdx nc';
  kcs ← upd (kindChunks s1) lastIdx kc';
  Some (mkPathSink ncs kcs (lens s1 ++ [u16 n]) (sink_n s1 + 1) (chunkCap s1)
          (sink_stack s1) (sink_walk s1) (sink_walkKinds s1)).

Definition pathSink_reset (s : pathSink) : pathSink :=
  mkPathSink [] [] [] 0 0 (sink_stack s) (sink_walk s) (sink_walkKinds s).

(** One chunk cut into paths; every path takes a node, so the chunk's length is
    enough fuel.  The results are the paths and the next index into [lens]. *)
Fixpoint cut_chunk (fuel : nat) (ls : list N) (nodes : list NodeID) (kinds : list KindID)
    (nodeOff kindOff p : N) (out : list Path) : option (list Path * N) :=
  if nodeOff <? len nodes then
    match fuel with
    | O => None
    | S fuel =>
        n ← idx ls p;
        ns ← slice nodes nodeOff (nodeOff + n);
        ks ← slice kinds kindOff (kindOff + n - 1);
        cut_chunk fuel ls nodes kinds (nodeOff + n) (kindOff + n - 1) (p + 1) (out ++ [mkPath ns ks])
    end
  else Some (out, p).

Definition pathSink_paths (s : pathSink) : option (list Path) :=
  if sink_n s =? 0 then Some []
  else
    '(out, _) ← foldM (λ (st : list Path * N) c,
      nc ← idx (nodeChunks s) c; kc ← idx (kindChunks s) c;
      cut_chunk (length (ch_data nc)) (lens s) (ch_data nc) (ch_data kc) 0 0 st.2 st.1)
      (range 0 (len (nodeChunks s))) ([], 0);
    Some out.

(** ** Reversing *)

Lemma reverse_loop_spec {A} fuel (l0 l : list A) (i j : Z) :
  (0 ≤ i)%Z → (i + j = Z.of_N (len l0) - 1)%Z → (j - i < 2 * Z.of_nat fuel)%Z → len l = len l0 →
  (∀ k, k < len l0 → idx l k = if bool_decide (i ≤ Z.of_N k ≤ j)%Z then idx l0 k
                                else idx l0 (len l0 - 1 - k)) →
  reverse_loop fuel l i j = Some (reverse l0).
Proof.
  revert l i j. induction fuel as [|fuel IH]; intros l i j Hi Hij Hf Hl Hk.
  all: assert (∀ k, k < len l0 → idx (reverse l0) k = idx l0 (len l0 - 1 - k)) as Hrev
    by (intros k Hlt; unfold idx, len in *; rewrite reverse_lookup by lia; f_equal; lia).
  all: assert (¬ (i < j)%Z → l = reverse l0) as Hdone.
  1, 3: intros Hge; apply idx_ext; intros k; destruct (decide (k < len l0)) as [Hlt|Hge'];
    [rewrite Hk, Hrev by done; case_bool_decide; [f_equal; lia|done]
    |rewrite !idx_ge; [done|unfold len in *; rewrite length_reverse; lia|lia]].
  - simpl. f_equal. apply Hdone. lia.
  - cbn [reverse_loop]. destruct (Z.ltb_spec i j) as [Hlt|Hge]; [|f_equal; apply Hdone; lia].
    destruct (idx_is_Some l (Z.to_N j)) as [x Hx]; [lia|]. destruct (idx_is_Some l (Z.to_N i)) as [y Hy]; [lia|].
    rewrite Hx, Hy. simpl. destruct (upd_Some l (Z.to_N i) x) as (l1 & -> & Hl1 & H1); [lia|]. simpl.
    destruct (upd_Some l1 (Z.to_N j) y) as (l2 & -> & Hl2 & H2); [lia|]. simpl.
    apply IH; [lia..|]. intros k Hlt'. rewrite H2, H1.
    rewrite Hk in Hx, Hy by lia. rewrite bool_decide_true in Hx, Hy by lia.
    case_bool_decide; repeat case_decide; try lia; subst.
    + rewrite Hk, bool_decide_true by lia. done.
    + rewrite <- Hy. f_equal. lia.
    + rewrite <- Hx. f_equal. lia.
    + rewrite Hk by done. rewrite bool_decide_false by lia. done.
Qed.

Lemma reverse_all {A} (l : list A) : reverse_loop (length l) l 0 (Z.of_N (len l) - 1) = Some (reverse l).
Proof.
  apply reverse_loop_spec; [lia|lia|unfold len; lia|done|]. intros k Hk. by rewrite bool_decide_true by lia.
Qed.

(** ** What a sink holds *)

(** A path as the enumerators produce it. *)
Definition path_wf (p : Path) : Prop :=
  0 < len (p_Nodes p) ∧ len (p_Nodes p) < 2 ^ 16 ∧ len (p_Kinds p) + 1 = len (p_Nodes p).

Definition path_reverse (p : Path) : Path := mkPath (reverse (p_Nodes p)) (reverse (p_Kinds p)).
Definition path_oriented (rev : bool) (p : Path) : Path := if rev then path_reverse p else p.

Lemma path_oriented_wf rev p : path_wf p → path_wf (path_oriented rev p).
Proof. unfold path_wf, len. destruct rev; simpl; [|done]. by rewrite !length_reverse. Qed.

(** The chunks hold the paths of [groups], one group a chunk. *)
Definition chunk_nodes (g : list Path) : list NodeID := concat (p_Nodes <$> g).
Definition chunk_kinds (g : list Path) : list KindID := concat (p_Kinds <$> g).

Record sink_groups (s : pathSink) (groups : list (list Path)) : Prop := {
  sg_ndata : ch_data <$> nodeChunks s = chunk_nodes <$> groups;
  sg_kdata : ch_data <$> kindChunks s = chunk_kinds <$> groups;
  sg_lens : lens s = (λ p, len (p_Nodes p)) <$> concat groups;
  sg_n : sink_n s = len (concat groups);
  sg_wf : Forall path_wf (concat groups);
}.
Definition sink_rep (s : pathSink) (ps : list Path) : Prop := ∃ groups, sink_groups s groups ∧ concat groups = ps.

Lemma sink_rep_zero : sink_rep pathSink_zero [].
Proof. exists []. by repeat constructor. Qed.

Lemma sink_rep_reset s : sink_rep (pathSink_reset s) [].
Proof. exists []. by repeat constructor. Qed.

Lemma sink_rep_n s ps : sink_rep s ps → sink_n s = len ps.
Proof. intros (gs & [] & <-). done. Qed.

Lemma sink_rep_wf s ps : sink_rep s ps → Forall path_wf ps.
Proof. intros (gs & [] & <-). done. Qed.

(** The walk buffers are not part of what the sink holds. *)
Definition set_buffers (s : pathSink) (st : list frame) (w : list NodeID) (wk : list KindID) : pathSink :=
  mkPathSink (nodeChunks s) (kindChunks s) (lens s) (sink_n s) (chunkCap s) st w wk.

Lemma sink_rep_buffers s ps st w wk : sink_rep s ps → sink_rep (set_buffers s st w wk) ps.
Proof. intros (gs & [] & <-). by exists gs. Qed.

Lemma append_chunk_spec {A} (rev : list A → option (list A)) (b : bool) c xs :
  rev xs = Some (reverse xs) →
  ∃ c', append_chunk rev b c xs = Some c' ∧ ch_data c' = ch_data c ++ (if b then reverse xs else xs).
Proof. intros Hr. unfold append_chunk. destruct b; [rewrite Hr|]; simpl; by eexists. Qed.

(** Replacing the last element. *)
Lemma upd_last {A} (l : list A) x y : upd (l ++ [x]) (len l) y = Some (l ++ [y]).
Proof.
  unfold upd. rewrite decide_True by (rewrite len_app, len_cons, len_nil; lia). f_equal.
  unfold len. rewrite Nat2N.id. rewrite insert_app_r_alt by done. by rewrite Nat.sub_diag.
Qed.

Lemma fmap_snoc_inv {A B} (f : A → B) l (k : list B) x : f <$> l = k ++ [x] →
  ∃ l' y, l = l' ++ [y] ∧ f <$> l' = k ∧ f y = x.
Proof.
  intros E. destruct l as [|y l _] using rev_ind; [by destruct k|]. rewrite fmap_app in E. simpl in E.
  apply app_inj_tail in E as [E1 E2]. by exists l, y.
Qed.

(** Appending to the last chunk. *)
Lemma append_last s gs g nodes kinds rev (p := path_oriented rev (mkPath nodes kinds)) :
  sink_groups s (gs ++ [g]) → path_wf (mkPath nodes kinds) →
  let lastIdx := len (nodeChunks s) - 1 in
  ∃ s', (nc ← idx (nodeChunks s) lastIdx; kc ← idx (kindChunks s) lastIdx;
         nc' ← append_chunk reverseNodes rev nc nodes; kc' ← append_chunk reverseKinds rev kc kinds;
         ncs ← upd (nodeChunks s) lastIdx nc'; kcs ← upd (kindChunks s) lastIdx kc';
         Some (mkPathSink ncs kcs (lens s ++ [u16 (len nodes)]) (sink_n s + 1) (chunkCap s)
                 (sink_stack s) (sink_walk s) (sink_walkKinds s))) = Some s' ∧
    sink_groups s' (gs ++ [g ++ [p]]).
Proof.
  intros [Hn Hk Hl Hc Hwf] Hp. rewrite fmap_app in Hn. rewrite fmap_app in Hk. simpl in Hn, Hk.
  apply fmap_snoc_inv in Hn as (ncs & nc & En & Hn1 & Hn2). apply fmap_snoc_inv in Hk as (kcs & kc & Ek & Hk1 & Hk2).
  assert (len ncs = len kcs) as Hlen.
  { assert (len (ch_data <$> ncs) = len (ch_data <$> kcs)) as E by by rewrite Hn1, Hk1, !len_fmap.
    by rewrite !len_fmap in E. }
  cbv zeta. rewrite En, Ek. replace (len (ncs ++ [nc]) - 1) with (len ncs) by (rewrite len_app, len_cons, len_nil; lia).
  rewrite idx_snoc. rewrite Hlen, idx_snoc. simpl.
  destruct (append_chunk_spec reverseNodes rev nc nodes (reverse_all nodes)) as (nc' & -> & Dn). simpl.
  destruct (append_chunk_spec reverseKinds rev kc kinds (reverse_all kinds)) as (kc' & -> & Dk). simpl.
  rewrite upd_last, <- Hlen, upd_last. simpl. eexists. split; [done|].
  assert (len (p_Nodes p) = len nodes) as Hpl by (unfold p, len; destruct rev; simpl; by rewrite ?length_reverse).
  rewrite concat_app in Hl, Hc, Hwf. simpl in Hl, Hc, Hwf. rewrite app_nil_r in Hl, Hc, Hwf.
  split; simpl.
  - rewrite !fmap_app. simpl. rewrite Hn1, Dn, Hn2. unfold chunk_nodes. rewrite fmap_app, concat_app. simpl.
    rewrite app_nil_r. do 3 f_equal. unfold p. by destruct rev.
  - rewrite !fmap_app. simpl. rewrite Hk1, Dk, Hk2. unfold chunk_kinds. rewrite fmap_app, concat_app. simpl.
    rewrite app_nil_r. do 3 f_equal. unfold p. by destruct rev.
  - rewrite concat_app. simpl. rewrite app_nil_r, app_assoc, fmap_app, <- Hl. simpl.
    rewrite Hpl, u16_small; [done|]. apply Hp.
  - rewrite concat_app. simpl. rewrite app_nil_r, app_assoc, len_app, Hc. done.
  - rewrite concat_app. simpl. rewrite app_nil_r, app_assoc. apply Forall_app. split; [done|].
    constructor; [|constructor]. by apply path_oriented_wf.
Qed.

Lemma addChunk_groups s gs need : sink_groups s gs → sink_groups (addChunk s need) (gs ++ [[]]).
Proof.
  intros [Hn Hk Hl Hc Hwf]. assert (concat (gs ++ [[]]) = concat gs) as E by (rewrite concat_app; simpl; by rewrite app_nil_r).
  split; unfold addChunk; cbn [nodeChunks kindChunks lens sink_n]; rewrite ?E; try done.
  - rewrite !fmap_app, Hn. done.
  - rewrite !fmap_app, Hk. done.
Qed.

Lemma pathSink_add_rep s ps nodes kinds rev : sink_rep s ps → path_wf (mkPath nodes kinds) →
  ∃ s', pathSink_add s nodes kinds rev = Some s' ∧
    sink_rep s' (ps ++ [path_oriented rev (mkPath nodes kinds)]).
Proof.
  intros (gs & Hs & <-) Hp. unfold pathSink_add. destruct (last (nodeChunks s)) as [c|] eqn:El.
  - destruct (negb _).
    + assert (∃ gs' g, gs = gs' ++ [g]) as (gs' & g & ->).
      { destruct gs as [|g gs' _] using rev_ind; [|eauto]. pose proof (sg_ndata _ _ Hs) as E. simpl in E.
        apply fmap_nil_inv in E. by rewrite E in El. }
      destruct (append_last s gs' g nodes kinds rev Hs Hp) as (s' & E & Hs'). exists s'. split; [exact E|].
      eexists. split; [exact Hs'|]. rewrite !concat_app. simpl. by rewrite !app_nil_r, app_assoc.
    + destruct (append_last _ gs [] nodes kinds rev (addChunk_groups s gs (len nodes) Hs) Hp) as (s' & E & Hs').
      exists s'. split; [exact E|]. eexists. split; [exact Hs'|]. rewrite concat_app. simpl. done.
  - destruct (append_last _ gs [] nodes kinds rev (addChunk_groups s gs (len nodes) Hs) Hp) as (s' & E & Hs').
    exists s'. split; [exact E|]. eexists. split; [exact Hs'|]. rewrite concat_app. simpl. done.
Qed.

(** ** Cutting the chunks back into paths *)

Lemma slice_app_mid {A} (l k r : list A) : slice (l ++ k ++ r) (len l) (len l + len k) = Some k.
Proof.
  unfold slice. rewrite decide_True by (rewrite !len_app; lia). f_equal.
  replace (len l + len k - len l) with (len k) by lia. unfold len. rewrite !Nat2N.id.
  by rewrite drop_app_length, take_app_length.
Qed.

Lemma cut_chunk_spec fuel pre done g post out : Forall path_wf (done ++ g) → (length g ≤ fuel)%nat →
  let ls := (λ p, len (p_Nodes p)) <$> (pre ++ (done ++ g) ++ post) in
  cut_chunk fuel ls (chunk_nodes (done ++ g)) (chunk_kinds (done ++ g))
    (len (chunk_nodes done)) (len (chunk_kinds done)) (len pre + len done) out =
  Some (out ++ g, len pre + len done + len g).
Proof.
  revert done g out. induction fuel as [|fuel IH]; intros done g out Hwf Hf ls.
  - destruct g as [|p g]; simpl in Hf; [|lia]. rewrite !app_nil_r, len_nil, N.add_0_r. simpl.
    by rewrite N.ltb_irrefl.
  - destruct g as [|p g].
    { rewrite !app_nil_r, len_nil, N.add_0_r. simpl. by rewrite N.ltb_irrefl. }
    assert (path_wf p) as (Hp0 & Hp1 & Hp2).
    { rewrite Forall_forall in Hwf. apply Hwf. apply elem_of_app. right. left. }
    assert (chunk_nodes (done ++ p :: g) = chunk_nodes done ++ p_Nodes p ++ chunk_nodes g) as En.
    { unfold chunk_nodes. by rewrite fmap_app, concat_app. }
    assert (chunk_kinds (done ++ p :: g) = chunk_kinds done ++ p_Kinds p ++ chunk_kinds g) as Ek.
    { unfold chunk_kinds. by rewrite fmap_app, concat_app. }
    specialize (IH (done ++ [p]) g (out ++ [p])). rewrite <- (assoc_L app done [p] g) in IH. simpl app in IH.
    specialize (IH Hwf ltac:(simpl in Hf; lia)). cbv zeta in IH. cbn [cut_chunk].
    rewrite (proj2 (N.ltb_lt _ _)) by (rewrite En, !len_app; lia).
    assert (idx ls (len pre + len done) = Some (len (p_Nodes p))) as ->.
    { unfold ls. rewrite idx_fmap, idx_app_r by lia. replace (len pre + len done - len pre) with (len done) by lia.
      rewrite idx_app_l by (rewrite len_app, len_cons; lia). rewrite idx_app_r by lia. by rewrite N.sub_diag. }
    cbn [mbind option_bind]. rewrite En at 1. rewrite slice_app_mid. cbn [mbind option_bind].
    replace (len (chunk_kinds done) + len (p_Nodes p) - 1) with (len (chunk_kinds done) + len (p_Kinds p)) by lia.
    rewrite Ek at 1. rewrite slice_app_mid. cbn [mbind option_bind]. destruct p as [ns ks]. cbn [p_Nodes p_Kinds] in *.
    replace (len (chunk_nodes done) + len ns) with (len (chunk_nodes (done ++ [mkPath ns ks])))
      by (unfold chunk_nodes; rewrite fmap_app, concat_app, len_app; simpl; by rewrite app_nil_r).
    replace (len (chunk_kinds done) + len ks) with (len (chunk_kinds (done ++ [mkPath ns ks])))
      by (unfold chunk_kinds; rewrite fmap_app, concat_app, len_app; simpl; by rewrite app_nil_r).
    replace (len pre + len done + 1) with (len pre + len (done ++ [mkPath ns ks])) by (rewrite len_app, len_cons, len_nil; lia).
    unfold ls. etrans; [exact IH|]. rewrite <- app_assoc, len_app, !len_cons, len_nil. do 2 f_equal. lia.
Qed.

Lemma chunk_len_le g : Forall path_wf g → (length g ≤ length (chunk_nodes g))%nat.
Proof.
  induction 1 as [|p g (Hp & _) _ IH]; [simpl; lia|]. unfold chunk_nodes in *. csimpl. rewrite length_app.
  unfold len in Hp. lia.
Qed.

Lemma pathSink_paths_rep s ps : sink_rep s ps → pathSink_paths s = Some ps.
Proof.
  intros (gs & [Hn Hk Hl Hc Hwf] & <-). unfold pathSink_paths. destruct (N.eqb_spec (sink_n s) 0) as [E|_].
  { rewrite Hc in E. destruct (concat gs); [done|]. by rewrite len_cons in E; lia. }
  assert (len (nodeChunks s) = len gs) as Hng.
  { assert (len (ch_data <$> nodeChunks s) = len (chunk_nodes <$> gs)) as E by by rewrite Hn. by rewrite !len_fmap in E. }
  assert (len (kindChunks s) = len gs) as Hkg.
  { assert (len (ch_data <$> kindChunks s) = len (chunk_kinds <$> gs)) as E by by rewrite Hk. by rewrite !len_fmap in E. }
  rewrite Hng. destruct (for_inv (λ c (st : list Path * N),
      st = (concat (take (N.to_nat c) gs), len (concat (take (N.to_nat c) gs))))
    (λ (st : list Path * N) c, nc ← idx (nodeChunks s) c; kc ← idx (kindChunks s) c;
      cut_chunk (length (ch_data nc)) (lens s) (ch_data nc) (ch_data kc) 0 0 st.2 st.1) 0 (len gs) ([], 0))
    as (st & -> & ->); [lia|done| |simpl; by rewrite take_ge by (unfold len; lia)].
  intros c st _ Hc' ->. destruct (idx_is_Some (nodeChunks s) c) as [nc Hnc]; [lia|].
  destruct (idx_is_Some (kindChunks s) c) as [kc Hkc]; [lia|]. destruct (idx_is_Some gs c) as [g Hg]; [lia|].
  assert (ch_data nc = chunk_nodes g) as En.
  { assert (idx (ch_data <$> nodeChunks s) c = Some (chunk_nodes g)) as E by (by rewrite Hn, idx_fmap, Hg).
    rewrite idx_fmap, Hnc in E. by simplify_eq/=. }
  assert (ch_data kc = chunk_kinds g) as Ek.
  { assert (idx (ch_data <$> kindChunks s) c = Some (chunk_kinds g)) as E by (by rewrite Hk, idx_fmap, Hg).
    rewrite idx_fmap, Hkc in E. by simplify_eq/=. }
  set (pre := concat (take (N.to_nat c) gs)). set (post := concat (drop (S (N.to_nat c)) gs)).
  assert (concat gs = pre ++ g ++ post) as Eg.
  { rewrite <- (take_drop_middle gs (N.to_nat c) g Hg) at 1. by rewrite concat_app. }
  assert (Forall path_wf g) as Hgw by (rewrite Eg, !Forall_app in Hwf; tauto).
  rewrite Hnc, Hkc. simpl. rewrite En, Ek, Hl, Eg.
  pose proof (cut_chunk_spec (length (chunk_nodes g)) pre [] g post pre Hgw (chunk_len_le g Hgw)) as E.
  change (len (chunk_nodes [])) with 0 in E. change (len (chunk_kinds [])) with 0 in E.
  cbn [app] in E. change (len []) with 0 in E. rewrite N.add_0_r in E.
  rewrite E. eexists. split; [done|].
  replace (N.to_nat (c + 1)) with (S (N.to_nat c)) by lia. rewrite (take_S_r _ _ _ Hg), concat_app. simpl.
  by rewrite app_nil_r, len_app.
Qed.
