(* ===== verification/Ledger.v ===== *)
(** * The watermark ledger

    [watermarkLedger] of [internal/engine/watermark.go]: which values of the
    watermark counter this process can account for. Values are resolved in any
    order; the ledger keeps the length of the gapless prefix, and the runs of
    resolved values above it, at most [maxLedgerRanges] of them. When there
    would be more it forgets them and says so, until a rebase covers them.

    The abstract state is a floor and a set of resolved values; [ledger_rep]
    relates the two, and every operation is shown to keep it. *)

From S2P Require Import Prelude.
From stdpp Require Import options.
Unset Default Proof Using.
#[local] Open Scope N_scope.

(** ** Definitions *)

Definition maxLedgerRanges : N := 4096.
Record counterRange := mkRange { cr_lo : N; cr_hi : N }.
Record watermarkLedger := mkLedger { wl_through : N; wl_above : list counterRange; wl_lost : bool; wl_highest : N }.
Definition zeroLedger : watermarkLedger := mkLedger 0 [] false 0.

Definition set_above (l : watermarkLedger) (rs : list counterRange) : watermarkLedger :=
  mkLedger (wl_through l) rs (wl_lost l) (wl_highest l).

Definition insertLocked (l : watermarkLedger) (counter : N) : option watermarkLedger :=
  let rs := wl_above l in
  i ← search (len rs) (λ i, r ← idx rs i; Some (counter <? cr_lo r));
  prev ← (if 0 <? i then r ← idx rs (i - 1); Some (Some r) else Some None);
  next ← (if i <? len rs then r ← idx rs i; Some (Some r) else Some None);
  if match prev with Some p => counter <=? cr_hi p | None => false end then Some l
  else
    match match prev with Some p => if u64 (cr_hi p + 1) =? counter then Some p else None | None => None end,
          match next with Some r => if cr_lo r =? u64 (counter + 1) then Some r else None | None => None end with
    | Some p, Some r =>
        rs ← upd rs (i - 1) (mkRange (cr_lo p) (cr_hi r));
        Some (set_above l (take (N.to_nat i) rs ++ drop (N.to_nat (i + 1)) rs))
    | Some p, None => rs ← upd rs (i - 1) (mkRange (cr_lo p) counter); Some (set_above l rs)
    | None, Some r => rs ← upd rs i (mkRange counter (cr_hi r)); Some (set_above l rs)
    | None, None =>
        if maxLedgerRanges <=? len rs then Some (mkLedger (wl_through l) [] true (wl_highest l))
        else Some (set_above l (take (N.to_nat i) rs ++ mkRange counter counter :: drop (N.to_nat i) rs))
    end.

Fixpoint advance_loop (through : N) (rs : list counterRange) : N * list counterRange :=
  match rs with
  | r :: rs' => if cr_lo r <=? u64 (through + 1) then advance_loop (if through <? cr_hi r then cr_hi r else through) rs'
                else (through, rs)
  | [] => (through, [])
  end.
Definition advanceLocked (l : watermarkLedger) : watermarkLedger :=
  let '(through, rs) := advance_loop (wl_through l) (wl_above l) in mkLedger through rs (wl_lost l) (wl_highest l).

Definition ledger_resolve (l : watermarkLedger) (counter : N) : option watermarkLedger :=
  let l := if wl_highest l <? counter then mkLedger (wl_through l) (wl_above l) (wl_lost l) counter else l in
  if (counter <=? wl_through l) || wl_lost l then Some l
  else l ← insertLocked l counter; Some (advanceLocked l).

Definition ledger_rebase (l : watermarkLedger) (floor : N) : watermarkLedger :=
  let l := if wl_through l <? floor then mkLedger floor (wl_above l) (wl_lost l) (wl_highest l) else l in
  if wl_lost l then
    if floor <? wl_highest l then l
    else advanceLocked (mkLedger (wl_through l) (wl_above l) false (wl_highest l))
  else advanceLocked l.

Definition resolvedThrough (l : watermarkLedger) : N * bool := (wl_through l, negb (wl_lost l)).

(** ** Runs of values *)

(** Separated runs, the first one from [b] on. *)
Fixpoint runs_ok (b : N) (rs : list counterRange) : Prop :=
  match rs with
  | [] => True
  | r :: rs => b ≤ cr_lo r ∧ cr_lo r ≤ cr_hi r ∧ cr_hi r < 2 ^ 63 ∧ runs_ok (cr_hi r + 2) rs
  end.
Definition in_runs (rs : list counterRange) (n : N) : Prop := ∃ r, r ∈ rs ∧ cr_lo r ≤ n ≤ cr_hi r.
Definition bound_after (b : N) (rs : list counterRange) : N :=
  match last rs with Some r => cr_hi r + 2 | None => b end.

Lemma in_runs_nil n : ¬ in_runs [] n.
Proof. by intros (r & Hr%elem_of_nil & _). Qed.
Lemma in_runs_cons r rs n : in_runs (r :: rs) n ↔ cr_lo r ≤ n ≤ cr_hi r ∨ in_runs rs n.
Proof. unfold in_runs. setoid_rewrite elem_of_cons. naive_solver. Qed.
Lemma in_runs_app rs ss n : in_runs (rs ++ ss) n ↔ in_runs rs n ∨ in_runs ss n.
Proof. unfold in_runs. setoid_rewrite elem_of_app. naive_solver. Qed.

Lemma runs_ok_weaken b b' rs : b' ≤ b → runs_ok b rs → runs_ok b' rs.
Proof. destruct rs; simpl; [done|]. intros ? (? & ?). split; [lia|done]. Qed.
Lemma bound_after_cons b r rs : bound_after b (r :: rs) = bound_after (cr_hi r + 2) rs.
Proof. unfold bound_after. destruct rs as [|r' rs]; [done|]. rewrite last_cons_cons. destruct (last (r' :: rs)) eqn:E; [done|].
  by apply last_None in E. Qed.
Lemma runs_ok_app b rs ss : runs_ok b (rs ++ ss) ↔ runs_ok b rs ∧ runs_ok (bound_after b rs) ss.
Proof.
  revert b. induction rs as [|r rs IH]; intros b; [simpl; tauto|]. rewrite bound_after_cons. simpl. rewrite IH. tauto.
Qed.
Lemma bound_after_ge b rs : runs_ok b rs → b ≤ bound_after b rs.
Proof.
  revert b. induction rs as [|r rs IH]; intros b; [done|]. rewrite bound_after_cons. intros (? & ? & ? & ?%IH). lia.
Qed.
Lemma in_runs_range b rs n : runs_ok b rs → in_runs rs n → b ≤ n < bound_after b rs.
Proof.
  revert b. induction rs as [|r rs IH]; intros b; [by intros _ ?%in_runs_nil|]. rewrite bound_after_cons, in_runs_cons.
  intros (H1 & H2 & _ & H4) [Hn|Hn]; [apply bound_after_ge in H4; lia|apply (IH _ H4) in Hn; lia].
Qed.
Lemma in_runs_lt b rs n : runs_ok b rs → in_runs rs n → n < 2 ^ 63.
Proof.
  revert b. induction rs as [|r rs IH]; intros b; [by intros _ ?%in_runs_nil|]. rewrite in_runs_cons.
  intros (H1 & H2 & ? & H4) [Hn|Hn]; [lia|by apply (IH _ H4)].
Qed.

(** The runs from an index on start above the ones before it. *)
Lemma runs_sorted b rs : runs_ok b rs → StronglySorted (λ r s, cr_lo r < cr_lo s) rs.
Proof.
  revert b. induction rs as [|r rs IH]; intros b; [constructor|]. intros (_ & Hr & _ & Hrs). constructor; [by eapply IH|].
  apply Forall_forall. intros s Hs. destruct (in_runs_range _ _ (cr_lo s) Hrs) as [? _]; [|lia].
  exists s. split; [done|]. clear -Hrs Hs. revert Hrs. generalize (cr_hi r + 2) as b. induction rs as [|t rs IH]; intros b; [by apply elem_of_nil in Hs|].
  intros (_ & ? & _ & Hrs). apply elem_of_cons in Hs as [->|Hs]; [lia|by eapply IH].
Qed.

Lemma runs_search b rs c : runs_ok b rs → ∃ A B, rs = A ++ B ∧
  search (len rs) (λ i, r ← idx rs i; Some (c <? cr_lo r)) = Some (len A) ∧
  (∀ r, r ∈ A → cr_lo r ≤ c) ∧ (∀ r, r ∈ B → c < cr_lo r).
Proof.
  intros Hok. apply runs_sorted in Hok as Hs.
  set (p k := match idx rs k with Some r => c <? cr_lo r | None => true end).
  destruct (search_spec (len rs) (λ i, r ← idx rs i; Some (c <? cr_lo r)) p) as (i & E & Hi & Hlt & Hge).
  - intros k Hk. unfold p. by destruct (idx_is_Some rs k Hk) as [r ->].
  - intros k k' Hk Hk'. unfold p. destruct (idx_is_Some rs k') as [r' Hr']; [done|]. destruct (idx_is_Some rs k) as [r Hr]; [lia|].
    rewrite Hr, Hr', !N.ltb_lt. destruct (decide (k = k')) as [->|]; [congruence|].
    pose proof (sorted_idx _ _ k k' _ _ Hs Hr Hr' ltac:(lia)). simpl in *. lia.
  - exists (take (N.to_nat i) rs), (drop (N.to_nat i) rs). split; [by rewrite take_drop|].
    split; [rewrite E; f_equal; unfold len in *; rewrite length_take; lia|]. split; intros r [k Hk]%elem_of_idx; unfold idx in Hk.
    + apply lookup_take_Some in Hk as [Hk Hl]. specialize (Hlt k ltac:(lia)). unfold p, idx in Hlt. rewrite Hk in Hlt.
      by apply N.ltb_ge in Hlt.
    + rewrite lookup_drop in Hk. assert (idx rs (i + k) = Some r) as Hx by (unfold idx; rewrite <- Hk; f_equal; lia).
      pose proof (idx_lt _ _ _ Hx). specialize (Hge (i + k) ltac:(lia) ltac:(lia)). unfold p in Hge. rewrite Hx in Hge. by apply N.ltb_lt in Hge.
Qed.

(** ** Inserting a value *)

Lemma upd_mid {A} (l k : list A) x y : upd (l ++ x :: k) (len l) y = Some (l ++ y :: k).
Proof.
  unfold upd. rewrite decide_True by (rewrite len_app, len_cons; lia). f_equal. unfold len. rewrite Nat2N.id.
  rewrite insert_app_r_alt, Nat.sub_diag by done. done.
Qed.
Lemma take_len {A} (l k : list A) : take (N.to_nat (len l)) (l ++ k) = l.
Proof. unfold len. by rewrite Nat2N.id, take_app_length. Qed.
Lemma drop_len {A} (l k : list A) : drop (N.to_nat (len l)) (l ++ k) = k.
Proof. unfold len. by rewrite Nat2N.id, drop_app_length. Qed.

Lemma take_drop_merged {A} (l k : list A) p q r :
  take (N.to_nat (len (l ++ [p]))) (l ++ q :: r :: k) ++ drop (N.to_nat (len (l ++ [p]) + 1)) (l ++ q :: r :: k) = l ++ q :: k.
Proof.
  assert (len (l ++ [p]) = len (l ++ [q]) ∧ len (l ++ [p]) + 1 = len (l ++ [q; r])) as [-> ->] by (rewrite !len_app, !len_cons, len_nil; lia).
  assert (l ++ q :: r :: k = (l ++ [q]) ++ r :: k) as E1 by by rewrite <- (assoc_L (++)).
  assert (l ++ q :: r :: k = (l ++ [q; r]) ++ k) as E2 by by rewrite <- (assoc_L (++)).
  rewrite E1 at 1. rewrite E2, take_len, drop_len. by rewrite <- (assoc_L (++)).
Qed.

(** The neighbours of the place where the value goes. *)
Lemma insertLocked_eq l c A B : wl_above l = A ++ B →
  search (len (wl_above l)) (λ i, r ← idx (wl_above l) i; Some (c <? cr_lo r)) = Some (len A) →
  insertLocked l c =
    if match last A with Some p => c <=? cr_hi p | None => false end then Some l
    else
      match match last A with Some p => if u64 (cr_hi p + 1) =? c then Some p else None | None => None end,
            match head B with Some r => if cr_lo r =? u64 (c + 1) then Some r else None | None => None end with
      | Some p, Some r => Some (set_above l (removelast A ++ mkRange (cr_lo p) (cr_hi r) :: tail B))
      | Some p, None => Some (set_above l (removelast A ++ mkRange (cr_lo p) c :: B))
      | None, Some r => Some (set_above l (A ++ mkRange c (cr_hi r) :: tail B))
      | None, None =>
          if maxLedgerRanges <=? len (A ++ B) then Some (mkLedger (wl_through l) [] true (wl_highest l))
          else Some (set_above l (A ++ mkRange c c :: B))
      end.
Proof.
  intros Hab Hs. unfold insertLocked. rewrite Hs. cbn [mbind option_bind]. rewrite Hab.
  assert ((if len A <? len (A ++ B) then r ← idx (A ++ B) (len A); Some (Some r) else Some None) = Some (head B)) as ->.
  { rewrite len_app. destruct B as [|r B]; simpl.
    - by rewrite (proj2 (N.ltb_ge _ _)) by (rewrite len_nil; lia).
    - rewrite (proj2 (N.ltb_lt _ _)) by (rewrite len_cons; lia). rewrite idx_app_r by lia. by rewrite N.sub_diag. }
  cbn [mbind option_bind].
  assert (∀ r B', B = r :: B' → ∀ y, upd (A ++ B) (len A) y = Some (A ++ y :: B')) as Hnext by (intros r B' -> y; apply upd_mid).
  destruct (last A) as [p|] eqn:El.
  - apply last_Some in El as [A' ->]. rewrite removelast_last.
    assert (len (A' ++ [p]) - 1 = len A') as E1 by (rewrite len_app, len_cons, len_nil; lia).
    rewrite (proj2 (N.ltb_lt _ _)) by (rewrite len_app, len_cons; lia). rewrite E1.
    assert ((A' ++ [p]) ++ B = A' ++ p :: B) as Eab by by rewrite <- (assoc_L (++)).
    assert (idx ((A' ++ [p]) ++ B) (len A') = Some p) as -> by (rewrite Eab, idx_app_r, N.sub_diag by lia; done).
    cbn [mbind option_bind]. destruct (c <=? cr_hi p); [done|].
    destruct (u64 (cr_hi p + 1) =? c), B as [|r B]; cbn [head tail]; try destruct (cr_lo r =? u64 (c + 1)).
    all: rewrite ?take_len, ?drop_len; try done.
    all: try (rewrite (Hnext r B eq_refl); done).
    all: rewrite Eab, upd_mid; cbn [mbind option_bind]; try done.
    by rewrite take_drop_merged.
  - apply last_None in El as ->. cbn [mbind option_bind]. destruct B as [|r B]; cbn [head tail]; [done|].
    destruct (cr_lo r =? u64 (c + 1)); [by rewrite (Hnext r B eq_refl)|]. by rewrite take_len, drop_len.
Qed.

Lemma bound_snoc b A p : bound_after b (A ++ [p]) = cr_hi p + 2.
Proof. unfold bound_after. by rewrite last_snoc. Qed.

Lemma bound_after_le b b' A : b ≤ b' → bound_after b A ≤ bound_after b' A.
Proof. unfold bound_after. destruct (last A); lia. Qed.
Lemma runs_ok_head x b B : runs_ok b B → (∀ r, head B = Some r → x ≤ cr_lo r) → runs_ok x B.
Proof. destruct B as [|r B]; [done|]. intros (_ & ?) Hx. split; [by apply Hx|done]. Qed.

(** One run put between separated runs. *)
Lemma runs_ok_mid b A q B : runs_ok b A → bound_after b A ≤ cr_lo q → cr_lo q ≤ cr_hi q → cr_hi q < 2 ^ 63 →
  runs_ok (cr_hi q + 2) B → runs_ok b (A ++ q :: B).
Proof. intros. apply runs_ok_app. split; [done|]. by split_and!. Qed.

(** [rs'] has the values of [rs] and [c]. *)
Definition has_added (t c : N) (rs rs' : list counterRange) : Prop :=
  runs_ok (t + 1) rs' ∧ len rs' ≤ len rs + 1 ∧ len rs' ≤ N.max maxLedgerRanges (len rs) ∧
  ∀ n, in_runs rs' n ↔ in_runs rs n ∨ n = c.

#[local] Ltac pick := solve [assumption | lia | left; pick | right; pick].
#[local] Ltac added c :=
  split; [|split; [|split]];
  [ | rewrite ?len_app, ?len_cons, ?len_nil; lia | rewrite ?len_app, ?len_cons, ?len_nil; lia
    | let x := fresh "x" in intros x; rewrite ?in_runs_app, ?in_runs_cons; simpl; destruct (N.lt_trichotomy x c) as [|[|]]; split; intros;
      destruct_or?; first [pick | exfalso; eapply in_runs_nil; eassumption] ].

(** The value joins the run before it, and maybe the one after. *)
Lemma extend_prev t A p B c : runs_ok (t + 2) (A ++ p :: B) → c = cr_hi p + 1 → c < 2 ^ 63 →
  match B with
  | r :: B' => if cr_lo r =? c + 1 then has_added t c (A ++ p :: B) (A ++ mkRange (cr_lo p) (cr_hi r) :: B')
               else has_added t c (A ++ p :: B) (A ++ mkRange (cr_lo p) c :: B)
  | [] => has_added t c (A ++ p :: B) (A ++ mkRange (cr_lo p) c :: B)
  end.
Proof.
  intros [HA (Hp1 & Hp2 & Hp3 & HB)]%runs_ok_app -> H63. pose proof (bound_after_le (t + 1) (t + 2) A ltac:(lia)).
  apply (runs_ok_weaken _ (t + 1)) in HA; [|lia]. destruct B as [|r B].
  - added (cr_hi p + 1). apply runs_ok_mid; simpl; [done|lia..|done].
  - destruct HB as (Hr1 & Hr2 & Hr3 & HB). destruct (N.eqb_spec (cr_lo r) (cr_hi p + 1 + 1)).
    + added (cr_hi p + 1). apply runs_ok_mid; simpl; [done|lia..|done].
    + added (cr_hi p + 1). apply runs_ok_mid; simpl; [done|lia..|]. split_and!; [lia..|done].
Qed.

(** The value starts a run of its own, or joins the one after it. *)
Lemma extend_next t A B c : runs_ok (t + 2) (A ++ B) → bound_after (t + 1) A ≤ c → c < 2 ^ 63 →
  (∀ r, r ∈ B → c < cr_lo r) → len (A ++ B) < maxLedgerRanges ∨ (∃ r, head B = Some r ∧ cr_lo r = c + 1) →
  match B with
  | r :: B' => if cr_lo r =? c + 1 then has_added t c (A ++ B) (A ++ mkRange c (cr_hi r) :: B')
               else has_added t c (A ++ B) (A ++ mkRange c c :: B)
  | [] => has_added t c (A ++ B) (A ++ mkRange c c :: B)
  end.
Proof.
  intros [HA HB]%runs_ok_app Hc H63 Hlt Hroom.
  apply (runs_ok_weaken _ (t + 1)) in HA; [|lia]. destruct B as [|r B].
  - destruct Hroom as [Hroom|(? & ? & _)]; [|done]. rewrite app_nil_r in *. added c.
    apply runs_ok_mid; simpl; [done|lia..|done].
  - destruct HB as (Hr1 & Hr2 & Hr3 & HB). specialize (Hlt r ltac:(left)). destruct (N.eqb_spec (cr_lo r) (c + 1)).
    + added c. apply runs_ok_mid; simpl; [done|lia..|done].
    + destruct Hroom as [Hroom|(? & [= <-] & ?)]; [|done]. rewrite len_app, len_cons in Hroom.
      added c. apply runs_ok_mid; simpl; [done|lia..|]. split_and!; [lia..|done].
Qed.

Lemma insert_start l A B c : runs_ok (wl_through l + 2) (A ++ B) → bound_after (wl_through l + 1) A ≤ c → c < 2 ^ 63 →
  (∀ r, r ∈ B → c < cr_lo r) →
  ∃ l', match match head B with Some r => if cr_lo r =? c + 1 then Some r else None | None => None end with
        | Some r => Some (set_above l (A ++ mkRange c (cr_hi r) :: tail B))
        | None => if maxLedgerRanges <=? len (A ++ B) then Some (mkLedger (wl_through l) [] true (wl_highest l))
                  else Some (set_above l (A ++ mkRange c c :: B))
        end = Some l' ∧ wl_through l' = wl_through l ∧ wl_highest l' = wl_highest l ∧
    ((wl_above l' = [] ∧ wl_lost l' = true ∧ maxLedgerRanges ≤ len (A ++ B)) ∨
     (wl_lost l' = wl_lost l ∧ has_added (wl_through l) c (A ++ B) (wl_above l'))).
Proof.
  intros Hok Hc H63 HB. pose proof (extend_next _ A B c Hok Hc H63 HB) as Hx.
  destruct (match head B with Some r => if cr_lo r =? c + 1 then Some r else None | None => None end) as [r|] eqn:Eh.
  - destruct B as [|r' B]; [done|]. cbn [head tail] in *. destruct (N.eqb_spec (cr_lo r') (c + 1)); [|done]. injection Eh as ->.
    eexists. split; [done|]. split_and!; [done..|]. right. split; [done|]. apply Hx. right. by exists r.
  - destruct (N.leb_spec maxLedgerRanges (len (A ++ B))); eexists; (split; [done|]); split_and!; try done; [by left|].
    right. split; [done|]. specialize (Hx (or_introl H)). destruct B as [|r B]; [done|]. cbn [head] in *.
    by destruct (cr_lo r =? c + 1).
Qed.

(** A value above [through] goes in, or the ledger is lost. *)
Lemma insertLocked_spec l c : runs_ok (wl_through l + 2) (wl_above l) → wl_through l < c → c < 2 ^ 63 →
  ∃ l', insertLocked l c = Some l' ∧ wl_through l' = wl_through l ∧ wl_highest l' = wl_highest l ∧
    ((wl_above l' = [] ∧ wl_lost l' = true ∧ maxLedgerRanges ≤ len (wl_above l)) ∨
     (wl_lost l' = wl_lost l ∧ has_added (wl_through l) c (wl_above l) (wl_above l'))).
Proof.
  intros Hok Hc H63. destruct (runs_search _ _ c Hok) as (A & B & Hab & E & HA & HB).
  rewrite (insertLocked_eq l c A B Hab E). clear E. rewrite Hab in Hok |- *. pose proof Hok as Hok'.
  apply runs_ok_app in Hok' as [HokA HokB].
  destruct (last A) as [p|] eqn:El.
  - apply last_Some in El as [A' ->]. rewrite bound_snoc in HokB. apply runs_ok_app in HokA as [HokA' (Hp1 & Hp2 & Hp3 & _)].
    rewrite removelast_last. pose proof (HA p ltac:(apply elem_of_app; right; left)) as Hlo.
    destruct (N.leb_spec c (cr_hi p)).
    { exists l. split_and!; [done..|]. right. split; [done|]. rewrite Hab. added c. by eapply runs_ok_weaken; [|exact Hok]; lia. }
    rewrite (u64_small (cr_hi p + 1)), (u64_small (c + 1)) by lia. destruct (N.eqb_spec (cr_hi p + 1) c) as [Hpc|Hpc].
    + pose proof (extend_prev (wl_through l) A' p B c) as Hx. rewrite <- (assoc_L (++)) in *. simpl app in *. specialize (Hx Hok (eq_sym Hpc) H63).
      destruct B as [|r B]; [|cbn [head tail]; destruct (cr_lo r =? c + 1)]; eexists; (split; [done|]); split_and!; try done; by right.
    + apply insert_start; [done| |done|done]. rewrite bound_snoc. lia.
  - apply last_None in El as ->. rewrite (u64_small (c + 1)) by lia.
    apply (insert_start l []); [done| |done|done]. cbn. lia.
Qed.

(** ** Advancing the prefix *)

Lemma advance_spec b t rs : runs_ok b rs → t < 2 ^ 63 →
  let '(t', rs') := advance_loop t rs in
  runs_ok (t' + 2) rs' ∧ t ≤ t' ∧ t' < 2 ^ 63 ∧ len rs' ≤ len rs ∧
  ∀ n, n ≤ t' ∨ in_runs rs' n ↔ n ≤ t ∨ in_runs rs n.
Proof.
  revert b t. induction rs as [|r rs IH]; intros b t Hok Ht; simpl.
  { split_and!; [done|lia..|done]. }
  destruct Hok as (Hr1 & Hr2 & Hr3 & Hok). rewrite (u64_small (t + 1)) by lia. destruct (N.leb_spec (cr_lo r) (t + 1)) as [Hl|Hl].
  - assert ((if t <? cr_hi r then cr_hi r else t) = N.max t (cr_hi r)) as -> by (destruct (N.ltb_spec t (cr_hi r)); lia).
    specialize (IH _ (N.max t (cr_hi r)) Hok ltac:(lia)). destruct (advance_loop _ rs) as [t' rs'].
    destruct IH as (H1 & H2 & H3 & H4 & H5). rewrite len_cons. split_and!; [done|lia..|].
    intros n. rewrite H5, in_runs_cons. destruct (N.le_gt_cases n t), (N.le_gt_cases n (cr_hi r)); split; intros; destruct_or?;
      first [lia | by right; right | left; lia | by right | right; left; lia].
  - split_and!; [|lia..|done]. split_and!; [lia..|done].
Qed.

(** ** What the ledger means *)

(** Every value up to [F] is covered by a rebase, and the values in [R] were
    resolved, in some order. *)
Definition accounted (F : N) (R : list N) (n : N) : Prop := n ≤ F ∨ n ∈ R.

Record ledger_rep (l : watermarkLedger) (F : N) (R : list N) : Prop := {
  lr_small : wl_through l < 2 ^ 63;
  lr_highest : (∀ n, n ∈ R → n ≤ wl_highest l) ∧ (wl_highest l = 0 ∨ wl_highest l ∈ R);
  lr_floor : F ≤ wl_through l;
  lr_covers : ∀ n, n ≤ wl_through l → accounted F R n;
  lr_lost : wl_lost l = true → wl_above l = [] ∧ wl_through l < wl_highest l ∧ maxLedgerRanges < len R;
  lr_exact : wl_lost l = false → runs_ok (wl_through l + 2) (wl_above l) ∧
    (∀ n, n ≤ wl_through l ∨ in_runs (wl_above l) n ↔ accounted F R n);
  lr_room : len (wl_above l) ≤ maxLedgerRanges ∧ len (wl_above l) ≤ len R;
}.

Lemma zeroLedger_rep : ledger_rep zeroLedger 0 [].
Proof.
  split; simpl; try done; try lia.
  - split; [intros n Hn; by apply elem_of_nil in Hn|by left].
  - intros n Hn. by left.
  - intros _. split; [done|]. intros n. unfold accounted. rewrite elem_of_nil. split; [intros [?|[]%in_runs_nil]; by left|].
    intros [?|[]]. by left.
Qed.

(** [advanceLocked] on any separated runs restores the representation. *)
Lemma advanceLocked_rep l F R b : runs_ok b (wl_above l) → wl_through l < 2 ^ 63 → wl_lost l = false → F ≤ wl_through l →
  (∀ n, n ∈ R → n ≤ wl_highest l) ∧ (wl_highest l = 0 ∨ wl_highest l ∈ R) →
  (∀ n, n ≤ wl_through l ∨ in_runs (wl_above l) n ↔ accounted F R n) →
  len (wl_above l) ≤ maxLedgerRanges ∧ len (wl_above l) ≤ len R →
  ledger_rep (advanceLocked l) F R.
Proof.
  intros Hok Ht Hl HF Hh Hacc [Hm HR]. unfold advanceLocked. pose proof (advance_spec _ _ _ Hok Ht) as Ha.
  destruct (advance_loop _ _) as [t rs]. destruct Ha as (H1 & H2 & H3 & H4 & H5).
  assert (∀ n, n ≤ t ∨ in_runs rs n ↔ accounted F R n) as Hacc' by (intros n; by rewrite H5).
  split; simpl; [done|done|lia| |congruence|done|lia]. intros n Hn. apply Hacc'. by left.
Qed.

Lemma ledger_resolve_rep l F R c : ledger_rep l F R → c < 2 ^ 63 →
  ∃ l', ledger_resolve l c = Some l' ∧ ledger_rep l' F (R ++ [c]).
Proof.
  intros [Ht [Hh1 Hh2] HF Hcov Hlost Hex [Hm HR]] Hc. unfold ledger_resolve.
  set (l1 := if wl_highest l <? c then mkLedger (wl_through l) (wl_above l) (wl_lost l) c else l).
  assert (wl_through l1 = wl_through l ∧ wl_above l1 = wl_above l ∧ wl_lost l1 = wl_lost l ∧
    wl_highest l1 = N.max (wl_highest l) c) as (Et & Ea & El & Eh).
  { unfold l1. destruct (N.ltb_spec (wl_highest l) c); simpl; split_and!; try done; lia. }
  clearbody l1.
  assert ((∀ n, n ∈ R ++ [c] → n ≤ wl_highest l1) ∧ (wl_highest l1 = 0 ∨ wl_highest l1 ∈ R ++ [c])) as Hh.
  { rewrite Eh. setoid_rewrite elem_of_app. setoid_rewrite list_elem_of_singleton. split.
    - intros n [Hn%Hh1| ->]; lia.
    - destruct (N.max_spec (wl_highest l) c) as [[_ ->]|[? ->]]; [right; by right|]. destruct Hh2; [by left|right; by left]. }
  assert (∀ n, accounted F (R ++ [c]) n ↔ accounted F R n ∨ n = c) as Hacc.
  { intros n. unfold accounted. rewrite elem_of_app, list_elem_of_singleton. tauto. }
  rewrite Et, El. destruct (N.leb_spec c (wl_through l)) as [Hle|Hlt]; [|destruct (wl_lost l) eqn:Elost]; simpl.
  - exists l1. split; [done|]. split; rewrite ?Et, ?Ea, ?El, ?len_app, ?len_cons; try done.
    + intros n Hn. apply Hacc. left. by apply Hcov.
    + intros Hl. destruct (Hlost Hl) as (? & ? & ?). split_and!; [done|lia|lia].
    + intros Hl. destruct (Hex Hl) as [Hok He]. split; [done|]. intros n. rewrite He, Hacc. split; [by left|].
      intros [?| ->]; [done|]. by apply Hcov.
    + lia.
  - destruct (Hlost eq_refl) as (E0 & ? & ?). exists l1. split; [done|].
    split; rewrite ?Et, ?Ea, ?El, ?len_app, ?len_cons; try done.
    + intros n Hn. apply Hacc. left. by apply Hcov.
    + intros _. split_and!; [done|lia|lia].
    + lia.
  - destruct (Hex eq_refl) as [Hok He]. rewrite <- Ea in Hok. rewrite <- Et in Hok, Hlt.
    destruct (insertLocked_spec l1 c Hok Hlt Hc) as (l2 & -> & E2 & E3 & Hcase). cbn [mbind option_bind].
    eexists. split; [done|]. destruct Hcase as [(Ea2 & El2 & Hfull)|(El2 & Hok2 & Hlen & Hmax & Hin)].
    + unfold advanceLocked. rewrite Ea2. simpl. rewrite Ea in Hfull.
      split; simpl; rewrite ?E2, ?E3, ?El2, ?Et, ?len_app, ?len_cons, ?len_nil; try done.
      * intros n Hn. apply Hacc. left. by apply Hcov.
      * intros _. split_and!; [done|lia|lia].
      * lia.
    + eapply advanceLocked_rep; rewrite ?E2, ?E3, ?El2, ?Et, ?El, ?len_app, ?len_cons; try done.
      * intros n. rewrite Hin, Ea, Hacc, <- He. tauto.
      * rewrite Ea in Hlen, Hmax. lia.
Qed.

Lemma ledger_rebase_rep l F R f : ledger_rep l F R → f < 2 ^ 63 → ledger_rep (ledger_rebase l f) (N.max F f) R.
Proof.
  intros [Ht [Hh1 Hh2] HF Hcov Hlost Hex [Hm HR]] Hf. unfold ledger_rebase.
  set (l1 := if wl_through l <? f then mkLedger f (wl_above l) (wl_lost l) (wl_highest l) else l).
  assert (wl_through l1 = N.max (wl_through l) f ∧ wl_above l1 = wl_above l ∧ wl_lost l1 = wl_lost l ∧
    wl_highest l1 = wl_highest l) as (Et & Ea & El & Eh).
  { unfold l1. destruct (N.ltb_spec (wl_through l) f); simpl; split_and!; try done; lia. }
  clearbody l1.
  assert (∀ n, accounted (N.max F f) R n ↔ n ≤ f ∨ accounted F R n) as Hacc by (intros n; unfold accounted; rewrite N.max_le_iff; tauto).
  rewrite El, Eh. destruct (wl_lost l) eqn:Elost; [destruct (Hlost eq_refl) as (E0 & ? & ?)|destruct (Hex eq_refl) as [Hok He]].
  - destruct (N.ltb_spec f (wl_highest l)).
    + split; rewrite ?Et, ?Ea, ?El, ?Eh; try done; try lia; [|intros _; split_and!; [done|lia|done]].
      intros n Hn. apply Hacc. destruct (N.le_gt_cases n f); [by left|right]. apply Hcov. lia.
    + eapply (advanceLocked_rep _ _ _ 0); simpl; rewrite ?Et, ?Ea, ?E0, ?Eh; try done; try lia.
      2: { rewrite len_nil. lia. }
      intros n. rewrite Hacc. split; [intros [?|[]%in_runs_nil]|].
      * destruct (N.le_gt_cases n f); [by left|right]. apply Hcov. lia.
      * intros [?|[?|?%Hh1]]; left; lia.
  - eapply (advanceLocked_rep _ _ _ (wl_through l + 2)); simpl; rewrite ?Et, ?Ea, ?El, ?Eh; try done; try lia.
    intros n. rewrite Hacc, <- He, N.max_le_iff. tauto.
Qed.
