(* ===== verification/ChangeSet.v ===== *)
(** * What a write says it touched

    [ChangeSet] of [internal/engine/changes.go] and [WriteScope] of
    [changes_scope.go]. A write's wrappers record ids, object ids, edge
    triples, delete criteria and reasons to fall back; reading a set back gives
    each recorded thing once, in order.

    A [graph.Kind] is an interface value: nil, or something with a name. *)

From S2P Require Import Prelude.
From Stdlib Require Import Ascii.
From stdpp Require Import options.
Unset Default Proof Using.
#[local] Open Scope N_scope.

(** ** Definitions *)

Definition Kind := option string.
Definition Kinds_list := list Kind.
Definition kindName (kind : Kind) : string := default EmptyString kind.

Record EdgeTripleRef := mkTripleRef { tr_Start : N; tr_End : N; tr_Kind : Kind }.
Record EdgeTripleOIDRef := mkTripleOIDRef { to_StartOID : string; to_EndOID : string; to_Kind : Kind }.
Record NodeKindDeleteCriteria := mkNodeKindDelete { nk_Include : Kinds_list; nk_Exclude : Kinds_list }.

(** [edgeTripleKey] and [edgeTripleOIDKey] are the tuples of their fields. *)
Definition edgeTripleKey : Type := N * N * string.
Definition edgeTripleOIDKey : Type := string * string * string.

Record ChangeSet := mkChangeSet {
  cs_nodeIDs : gset N;
  cs_nodeObjectIDs : gset string;
  cs_edgeIDs : gset N;
  cs_edgeTriples : gmap edgeTripleKey EdgeTripleRef;
  cs_edgeTriplesOID : gmap edgeTripleOIDKey EdgeTripleOIDRef;
  cs_nodeKindDeletes : gmap string NodeKindDeleteCriteria;
  cs_edgeKindDeletes : gmap string Kinds_list;
  cs_fallbacks : gset string;
  cs_writeIncomplete : gset string;
}.
Definition ChangeSet_zero : ChangeSet := mkChangeSet ∅ ∅ ∅ ∅ ∅ ∅ ∅ ∅ ∅.

(** [strings.Join(names, ",")]. *)
Fixpoint join_names (names : list string) : string :=
  match names with
  | [] => EmptyString
  | [n] => n
  | n :: names' => n +:+ "," +:+ join_names names'
  end.

Section changes.
Context `{GoStd}.

Definition kindsKey (kinds : Kinds_list) : string :=
  if len kinds =? 0 then EmptyString else join_names (go_sort str_less (kindName <$> kinds)).

Definition RecordNodeID (c : ChangeSet) (id : N) : ChangeSet :=
  mkChangeSet ({[id]} ∪ cs_nodeIDs c) (cs_nodeObjectIDs c) (cs_edgeIDs c) (cs_edgeTriples c) (cs_edgeTriplesOID c)
    (cs_nodeKindDeletes c) (cs_edgeKindDeletes c) (cs_fallbacks c) (cs_writeIncomplete c).
Definition RecordNodeObjectID (c : ChangeSet) (objectID : string) : ChangeSet :=
  mkChangeSet (cs_nodeIDs c) ({[objectID]} ∪ cs_nodeObjectIDs c) (cs_edgeIDs c) (cs_edgeTriples c) (cs_edgeTriplesOID c)
    (cs_nodeKindDeletes c) (cs_edgeKindDeletes c) (cs_fallbacks c) (cs_writeIncomplete c).
Definition RecordEdgeID (c : ChangeSet) (id : N) : ChangeSet :=
  mkChangeSet (cs_nodeIDs c) (cs_nodeObjectIDs c) ({[id]} ∪ cs_edgeIDs c) (cs_edgeTriples c) (cs_edgeTriplesOID c)
    (cs_nodeKindDeletes c) (cs_edgeKindDeletes c) (cs_fallbacks c) (cs_writeIncomplete c).
Definition RecordEdgeTriple (c : ChangeSet) (start end_ : N) (kind : Kind) : ChangeSet :=
  mkChangeSet (cs_nodeIDs c) (cs_nodeObjectIDs c) (cs_edgeIDs c)
    (<[(start, end_, kindName kind) := mkTripleRef start end_ kind]> (cs_edgeTriples c)) (cs_edgeTriplesOID c)
    (cs_nodeKindDeletes c) (cs_edgeKindDeletes c) (cs_fallbacks c) (cs_writeIncomplete c).
Definition RecordEdgeTripleByObjectID (c : ChangeSet) (startOID endOID : string) (kind : Kind) : ChangeSet :=
  mkChangeSet (cs_nodeIDs c) (cs_nodeObjectIDs c) (cs_edgeIDs c) (cs_edgeTriples c)
    (<[(startOID, endOID, kindName kind) := mkTripleOIDRef startOID endOID kind]> (cs_edgeTriplesOID c))
    (cs_nodeKindDeletes c) (cs_edgeKindDeletes c) (cs_fallbacks c) (cs_writeIncomplete c).
Definition RecordDeleteNodesByKinds (c : ChangeSet) (include exclude : Kinds_list) : ChangeSet :=
  let key := kindsKey include +:+ "|" +:+ kindsKey exclude in
  mkChangeSet (cs_nodeIDs c) (cs_nodeObjectIDs c) (cs_edgeIDs c) (cs_edgeTriples c) (cs_edgeTriplesOID c)
    (<[key := mkNodeKindDelete include exclude]> (cs_nodeKindDeletes c)) (cs_edgeKindDeletes c)
    (cs_fallbacks c) (cs_writeIncomplete c).
Definition RecordDeleteRelationshipsByKinds (c : ChangeSet) (kinds : Kinds_list) : ChangeSet :=
  mkChangeSet (cs_nodeIDs c) (cs_nodeObjectIDs c) (cs_edgeIDs c) (cs_edgeTriples c) (cs_edgeTriplesOID c)
    (cs_nodeKindDeletes c) (<[kindsKey kinds := kinds]> (cs_edgeKindDeletes c)) (cs_fallbacks c) (cs_writeIncomplete c).
Definition RecordFallback (c : ChangeSet) (reason : string) : ChangeSet :=
  mkChangeSet (cs_nodeIDs c) (cs_nodeObjectIDs c) (cs_edgeIDs c) (cs_edgeTriples c) (cs_edgeTriplesOID c)
    (cs_nodeKindDeletes c) (cs_edgeKindDeletes c) ({[reason]} ∪ cs_fallbacks c) (cs_writeIncomplete c).
Definition RecordWriteIncomplete (c : ChangeSet) (reason : string) : ChangeSet :=
  mkChangeSet (cs_nodeIDs c) (cs_nodeObjectIDs c) (cs_edgeIDs c) (cs_edgeTriples c) (cs_edgeTriplesOID c)
    (cs_nodeKindDeletes c) (cs_edgeKindDeletes c) (cs_fallbacks c) ({[reason]} ∪ cs_writeIncomplete c).

(** Ranging over a set or a map visits its elements in some order. *)
Definition sortedKeys (m : gset string) : list string :=
  if (size m =? 0)%nat then [] else go_sort str_less (elements m).
Definition sortedIDKeys (m : gset N) : list N :=
  if (size m =? 0)%nat then [] else go_sort (less_key (λ id : N, id)) (elements m).

Definition WriteIncomplete (c : ChangeSet) : bool * list string :=
  if (size (cs_writeIncomplete c) =? 0)%nat then (false, []) else (true, sortedKeys (cs_writeIncomplete c)).
Definition HasFallback (c : ChangeSet) : bool * list string :=
  if (size (cs_fallbacks c) =? 0)%nat then (false, []) else (true, sortedKeys (cs_fallbacks c)).
Definition ChangeSet_Empty (c : ChangeSet) : bool :=
  (size (cs_nodeIDs c) =? 0)%nat && (size (cs_nodeObjectIDs c) =? 0)%nat && (size (cs_edgeIDs c) =? 0)%nat &&
  (size (cs_edgeTriples c) =? 0)%nat && (size (cs_edgeTriplesOID c) =? 0)%nat &&
  (size (cs_nodeKindDeletes c) =? 0)%nat && (size (cs_edgeKindDeletes c) =? 0)%nat && (size (cs_fallbacks c) =? 0)%nat.
Definition keyCount (c : ChangeSet) : nat :=
  size (cs_nodeIDs c) + size (cs_nodeObjectIDs c) + size (cs_edgeIDs c) + size (cs_edgeTriples c) +
  size (cs_edgeTriplesOID c) + size (cs_nodeKindDeletes c) + size (cs_edgeKindDeletes c).

Definition NodeIDs (c : ChangeSet) : list N := sortedIDKeys (cs_nodeIDs c).
Definition NodeObjectIDs (c : ChangeSet) : list string := sortedKeys (cs_nodeObjectIDs c).
Definition EdgeIDs (c : ChangeSet) : list N := sortedIDKeys (cs_edgeIDs c).

Definition less_triple (a b : EdgeTripleRef) : bool :=
  if negb (tr_Start a =? tr_Start b) then tr_Start a <? tr_Start b
  else if negb (tr_End a =? tr_End b) then tr_End a <? tr_End b
  else str_less (kindName (tr_Kind a)) (kindName (tr_Kind b)).
Definition EdgeTriples (c : ChangeSet) : list EdgeTripleRef :=
  go_sort less_triple (map_to_list (cs_edgeTriples c)).*2.

Definition less_tripleOID (a b : EdgeTripleOIDRef) : bool :=
  if negb (String.eqb (to_StartOID a) (to_StartOID b)) then str_less (to_StartOID a) (to_StartOID b)
  else if negb (String.eqb (to_EndOID a) (to_EndOID b)) then str_less (to_EndOID a) (to_EndOID b)
  else str_less (kindName (to_Kind a)) (kindName (to_Kind b)).
Definition EdgeTriplesByObjectID (c : ChangeSet) : list EdgeTripleOIDRef :=
  go_sort less_tripleOID (map_to_list (cs_edgeTriplesOID c)).*2.

(** The values by their sorted keys. *)
Definition by_key {V} (m : gmap string V) : list V :=
  omap (λ k, m !! k) (go_sort str_less (map_to_list m).*1).
Definition NodeKindCriteria (c : ChangeSet) : list NodeKindDeleteCriteria := by_key (cs_nodeKindDeletes c).
Definition EdgeKindCriteria (c : ChangeSet) : list Kinds_list := by_key (cs_edgeKindDeletes c).
End changes.

(** *** The scope of a write *)

Record WriteScope := mkWriteScope {
  ws_changes : ChangeSet; ws_watermark : N; ws_watermarkBumped : bool; ws_watermarkBumpFailed : bool }.
Definition NewWriteScope : WriteScope := mkWriteScope ChangeSet_zero 0 false false.
Definition WriteScope_Empty (s : WriteScope) : bool := ChangeSet_Empty (ws_changes s).
Definition SetWatermark (s : WriteScope) (counter : N) : WriteScope :=
  mkWriteScope (ws_changes s) counter true (ws_watermarkBumpFailed s).
Definition Watermark (s : WriteScope) : N * bool := (ws_watermark s, ws_watermarkBumped s).
Definition markWatermarkBumpFailed (s : WriteScope) : WriteScope * bool :=
  if ws_watermarkBumpFailed s then (s, false)
  else (mkWriteScope (ws_changes s) (ws_watermark s) (ws_watermarkBumped s) true, true).
Definition takeWatermarkBumpFailure (s : WriteScope) : WriteScope * bool :=
  (mkWriteScope (ws_changes s) (ws_watermark s) (ws_watermarkBumped s) false, ws_watermarkBumpFailed s).

(** ** Recording *)

Inductive change :=
  | CNode (id : N) | CNodeOID (oid : string) | CEdge (id : N)
  | CTriple (s e : N) (k : Kind) | CTripleOID (s e : string) (k : Kind)
  | CDeleteNodes (include exclude : Kinds_list) | CDeleteEdges (kinds : Kinds_list)
  | CFallback (reason : string) | CIncomplete (reason : string).

Section recording.
Context `{GoStd}.

Definition record (c : ChangeSet) (x : change) : ChangeSet :=
  match x with
  | CNode id => RecordNodeID c id
  | CNodeOID oid => RecordNodeObjectID c oid
  | CEdge id => RecordEdgeID c id
  | CTriple s e k => RecordEdgeTriple c s e k
  | CTripleOID s e k => RecordEdgeTripleByObjectID c s e k
  | CDeleteNodes inc exc => RecordDeleteNodesByKinds c inc exc
  | CDeleteEdges ks => RecordDeleteRelationshipsByKinds c ks
  | CFallback r => RecordFallback c r
  | CIncomplete r => RecordWriteIncomplete c r
  end.
Definition recorded (ops : list change) : ChangeSet := foldl record ChangeSet_zero ops.

Lemma recorded_snoc ops x : recorded (ops ++ [x]) = record (recorded ops) x.
Proof. unfold recorded. by rewrite foldl_app. Qed.

(** A set field holds what was recorded into it. *)
Lemma set_field {A} `{Countable A} (f : ChangeSet → gset A) (mk : A → change) ops :
  f ChangeSet_zero = ∅ → (∀ c a, f (record c (mk a)) = {[a]} ∪ f c) → (∀ a b, mk a = mk b → a = b) →
  (∀ c x, (∀ a, x ≠ mk a) → f (record c x) = f c) → (∀ x, (∃ a, x = mk a) ∨ (∀ a, x ≠ mk a)) →
  ∀ a, a ∈ f (recorded ops) ↔ mk a ∈ ops.
Proof.
  intros Hz H1 Hinj H2 Hdec. induction ops as [|x ops IH] using rev_ind; intros a.
  { unfold recorded. simpl. rewrite Hz, elem_of_empty, elem_of_nil. done. }
  rewrite recorded_snoc, elem_of_app, list_elem_of_singleton. destruct (Hdec x) as [[b ->]|Hx].
  - rewrite H1, elem_of_union, elem_of_singleton, IH. naive_solver.
  - rewrite H2, IH by done. split; [by left|]. intros [?|E]; [done|]. by destruct (Hx a).
Qed.

(** A map field holds, for each key, the last value recorded under it. *)
Definition last_under {V A} `{Countable K} (key : A → K) (val : A → V) (mk : A → change) (ops : list change) (k : K) (v : V) : Prop :=
  ∃ a, mk a ∈ ops ∧ key a = k ∧ val a = v.
Lemma map_field {A V} `{Countable K} (f : ChangeSet → gmap K V) (key : A → K) (val : A → V) (mk : A → change) ops :
  f ChangeSet_zero = ∅ → (∀ c a, f (record c (mk a)) = <[key a := val a]> (f c)) → (∀ a b, mk a = mk b → a = b) →
  (∀ c x, (∀ a, x ≠ mk a) → f (record c x) = f c) → (∀ x, (∃ a, x = mk a) ∨ (∀ a, x ≠ mk a)) →
  (∀ k v, f (recorded ops) !! k = Some v → last_under key val mk ops k v) ∧
  (∀ a, mk a ∈ ops → is_Some (f (recorded ops) !! key a)).
Proof.
  intros Hz H1 Hinj H2 Hdec. induction ops as [|x ops [IH1 IH2]] using rev_ind.
  { unfold recorded. simpl. rewrite Hz. split; [intros k v Hk; by rewrite lookup_empty in Hk|].
    intros a Ha. by apply elem_of_nil in Ha. }
  rewrite recorded_snoc. destruct (Hdec x) as [[b ->]|Hx].
  - rewrite H1. split.
    + intros k v [[<- <-]|[_ Hk]]%lookup_insert_Some; [exists b; split; [apply elem_of_app; right; left|done]|].
      destruct (IH1 k v Hk) as (a & Ha & ?). exists a. split; [apply elem_of_app; by left|done].
    + intros a [Ha| ->%list_elem_of_singleton%Hinj]%elem_of_app; [|by rewrite lookup_insert_eq].
      rewrite lookup_insert. case_decide; [by eexists|]. by apply IH2.
  - rewrite H2 by done. split.
    + intros k v Hk. destruct (IH1 k v Hk) as (a & Ha & ?). exists a. split; [apply elem_of_app; by left|done].
    + intros a [Ha|E%list_elem_of_singleton]%elem_of_app; [by apply IH2|]. by destruct (Hx a).
Qed.

#[local] Ltac field := first [done | intros ??; done | intros ?? E; by injection E | intros c x Hx; destruct x; try done; by edestruct Hx
  | intros []; try (by right); left; eauto].

Lemma cs_nodeIDs_spec ops id : id ∈ cs_nodeIDs (recorded ops) ↔ CNode id ∈ ops.
Proof. apply (set_field cs_nodeIDs CNode); field. Qed.
Lemma cs_nodeObjectIDs_spec ops s : s ∈ cs_nodeObjectIDs (recorded ops) ↔ CNodeOID s ∈ ops.
Proof. apply (set_field cs_nodeObjectIDs CNodeOID); field. Qed.
Lemma cs_edgeIDs_spec ops id : id ∈ cs_edgeIDs (recorded ops) ↔ CEdge id ∈ ops.
Proof. apply (set_field cs_edgeIDs CEdge); field. Qed.
Lemma cs_fallbacks_spec ops s : s ∈ cs_fallbacks (recorded ops) ↔ CFallback s ∈ ops.
Proof. apply (set_field cs_fallbacks CFallback); field. Qed.
Lemma cs_writeIncomplete_spec ops s : s ∈ cs_writeIncomplete (recorded ops) ↔ CIncomplete s ∈ ops.
Proof. apply (set_field cs_writeIncomplete CIncomplete); field. Qed.
End recording.

(** ** Keys of kind lists *)

Fixpoint lacks (c : ascii) (s : string) : Prop :=
  match s with EmptyString => True | String a s => a ≠ c ∧ lacks c s end.

Lemma lacks_app c s t : lacks c s → lacks c t → lacks c (s +:+ t).
Proof. induction s as [|a s IH]; simpl; [done|]. intros [? ?] ?. split; [done|by apply IH]. Qed.
Lemma split_sep c s s' t t' : lacks c s → lacks c s' → s +:+ String c t = s' +:+ String c t' → s = s' ∧ t = t'.
Proof.
  revert s'. induction s as [|a s IH]; intros [|b s']; simpl.
  - intros _ _ [= ->]. done.
  - intros _ [Hb _] [= ->]. done.
  - intros [Ha _] _ [= ->]. done.
  - intros [_ Hs] [_ Hs'] [= -> E]. destruct (IH s' Hs Hs' E) as [-> ->]. done.
Qed.
Lemma lacks_sep c s s' t : lacks c s → s = s' +:+ String c t → False.
Proof.
  revert s. induction s' as [|b s' IH]; intros s Hs ->; simpl in Hs; [by destruct Hs|]. destruct Hs as [_ Hs]. by eapply IH.
Qed.

(** A name that can be told from a list of names. *)
Definition plain_name (n : string) : Prop := n ≠ EmptyString ∧ lacks "," n ∧ lacks "|" n.
Definition plain_kinds (ks : Kinds_list) : Prop := ∀ k, k ∈ ks → plain_name (kindName k).

Lemma join_inj l l' : Forall plain_name l → Forall plain_name l' → join_names l = join_names l' → l = l'.
Proof.
  revert l'. induction l as [|n l IH]; intros l' Hl Hl' E.
  - destruct l' as [|n' [|m' l']]; [done|..]; inversion Hl' as [|?? [Hne _] _]; subst; simpl in E.
    + by rewrite <- E in Hne.
    + destruct n'; [done|discriminate E].
  - inversion Hl as [|?? (Hne & Hc & _) Hl2]; subst. destruct l' as [|n' l'].
    { destruct l as [|m l]; simpl in E; [done|]. destruct n; [done|discriminate E]. }
    inversion Hl' as [|?? (Hne' & Hc' & _) Hl2']; subst.
    destruct l as [|m l], l' as [|m' l'].
    + simpl in E. by rewrite E.
    + change (n = n' +:+ String "," (join_names (m' :: l'))) in E. by destruct (lacks_sep _ _ _ _ Hc E).
    + change (n +:+ String "," (join_names (m :: l)) = n') in E. by destruct (lacks_sep _ _ _ _ Hc' (eq_sym E)).
    + change (n +:+ String "," (join_names (m :: l)) = n' +:+ String "," (join_names (m' :: l'))) in E.
      destruct (split_sep _ _ _ _ _ Hc Hc' E) as [-> E']. f_equal. by apply IH.
Qed.
Lemma join_lacks_bar l : Forall plain_name l → lacks "|" (join_names l).
Proof.
  induction 1 as [|n l (_ & _ & Hb) Hl IH]; [done|]. destruct l as [|m l]; [done|].
  change (lacks "|" (n +:+ String "," (join_names (m :: l)))). apply lacks_app; [done|]. by split.
Qed.

Section keys.
Context `{GoStd}.

Lemma kindsKey_join ks : kindsKey ks = join_names (go_sort str_less (kindName <$> ks)).
Proof.
  unfold kindsKey. destruct (N.eqb_spec (len ks) 0) as [E|_]; [|done].
  assert (ks = []) as -> by (apply nil_length_inv; unfold len in E; lia).
  rewrite fmap_nil. pose proof (go_sort_length str_less (@nil string)) as Hl. by destruct (go_sort str_less (@nil string)).
Qed.
Lemma plain_names ks : plain_kinds ks → Forall plain_name (go_sort str_less (kindName <$> ks)).
Proof. intros Hk. apply Forall_forall. intros n. rewrite go_sort_elem, list_elem_of_fmap. intros (k & -> & Hin). by apply Hk. Qed.

Lemma kindsKey_inj ks ks' : plain_kinds ks → plain_kinds ks' → kindsKey ks = kindsKey ks' → kindName <$> ks ≡ₚ kindName <$> ks'.
Proof.
  intros Hk Hk'. rewrite !kindsKey_join. intros E. apply join_inj in E; [|by apply plain_names..].
  by rewrite <- (go_sort_perm str_less (kindName <$> ks)), E, go_sort_perm.
Qed.
Lemma kindsKey2_inj i e i' e' : plain_kinds i → plain_kinds e → plain_kinds i' → plain_kinds e' →
  kindsKey i +:+ "|" +:+ kindsKey e = kindsKey i' +:+ "|" +:+ kindsKey e' →
  kindName <$> i ≡ₚ kindName <$> i' ∧ kindName <$> e ≡ₚ kindName <$> e'.
Proof.
  intros Hi He Hi' He' E.
  change (kindsKey i +:+ String "|" (kindsKey e) = kindsKey i' +:+ String "|" (kindsKey e')) in E.
  apply split_sep in E as [E1 E2]; [|rewrite kindsKey_join; by apply join_lacks_bar, plain_names..].
  split; by apply kindsKey_inj.
Qed.
End keys.

(** ** Reading back *)

Section reading.
Context `{GoStd}.

Lemma strings_strict (l : list string) : NoDup l → StronglySorted (le_of str_less) l → StronglySorted (λ a b, str_less a b = true) l.
Proof.
  intros Hnd Hs. induction Hs as [|x l Hs IH Hx]; [constructor|]. apply NoDup_cons in Hnd as [Hnin Hnd].
  constructor; [by apply IH|]. apply Forall_forall. intros y Hy. rewrite Forall_forall in Hx. specialize (Hx y Hy). unfold le_of in Hx.
  destruct (str_less x y) eqn:E; [done|]. by rewrite (str_less_total _ _ E Hx) in Hnin.
Qed.

Lemma sortedKeys_spec m : StronglySorted (λ a b, str_less a b = true) (sortedKeys m) ∧ ∀ s, s ∈ sortedKeys m ↔ s ∈ m.
Proof.
  unfold sortedKeys. destruct (Nat.eqb_spec (size m) 0) as [E|_].
  - apply size_empty_inv, leibniz_equiv in E as ->. split; [constructor|]. intros s. by rewrite elem_of_nil, elem_of_empty.
  - split; [|intros s; by rewrite go_sort_elem, elem_of_elements].
    apply strings_strict; [rewrite go_sort_perm; apply NoDup_elements|apply go_sort_sorted, str_less_spec].
Qed.
Lemma sortedIDKeys_spec m : StronglySorted N.lt (sortedIDKeys m) ∧ ∀ id, id ∈ sortedIDKeys m ↔ id ∈ m.
Proof.
  unfold sortedIDKeys. destruct (Nat.eqb_spec (size m) 0) as [E|_].
  - apply size_empty_inv, leibniz_equiv in E as ->. split; [constructor|]. intros s. by rewrite elem_of_nil, elem_of_empty.
  - split; [|intros s; by rewrite go_sort_elem, elem_of_elements].
    apply (sorted_key_strict (λ id : N, id)); [rewrite list_fmap_id, go_sort_perm; apply NoDup_elements|apply go_sort_sorted, is_less_key].
Qed.

Lemma by_key_elem {V} (m : gmap string V) v : v ∈ by_key m ↔ ∃ k, m !! k = Some v.
Proof.
  unfold by_key. rewrite list_elem_of_omap. split; [intros (k & _ & Hk); by exists k|]. intros (k & Hk). exists k. split; [|done].
  rewrite go_sort_elem. apply list_elem_of_fmap. exists (k, v). split; [done|by apply elem_of_map_to_list].
Qed.

Lemma HasFallback_spec ops : (HasFallback (recorded ops)).1 = true ↔ ∃ r, CFallback r ∈ ops.
Proof.
  unfold HasFallback. setoid_rewrite <- cs_fallbacks_spec. destruct (Nat.eqb_spec (size (cs_fallbacks (recorded ops))) 0) as [E|E]; simpl.
  - apply size_empty_inv in E. split; [done|]. intros [r Hr]. by apply E, not_elem_of_empty in Hr.
  - split; [|done]. intros _. destruct (set_choose_or_empty (cs_fallbacks (recorded ops))) as [Hr|Hr]; [done|].
    by rewrite Hr, size_empty in E.
Qed.

(** Comparing by a key first. *)
Lemma is_less_lex {A K} (eqb lt : K → K → bool) (f : A → K) (less2 : A → A → bool) :
  (∀ a b, reflect (a = b) (eqb a b)) → is_less lt → (∀ a b, lt a b = false → lt b a = false → a = b) → is_less less2 →
  is_less (λ x y, if negb (eqb (f x) (f y)) then lt (f x) (f y) else less2 x y).
Proof.
  intros Heq [H1 H2] Ht [K1 K2]. split.
  - intros x y. destruct (Heq (f x) (f y)) as [E|E], (Heq (f y) (f x)) as [E'|E']; simpl; try congruence; [apply K1|apply H1].
  - intros x y z. destruct (Heq (f y) (f x)) as [E1|E1], (Heq (f z) (f y)) as [E2|E2], (Heq (f z) (f x)) as [E3|E3]; simpl; try congruence.
    all: intros Ha Hb; first [by eapply K2 | by rewrite E1 in Hb | by rewrite E2 | by eapply H2 | idtac].
    rewrite E3 in Hb. by destruct E1; apply Ht.
Qed.
Lemma ltb_total a b : (a <? b) = false → (b <? a) = false → a = b.
Proof. rewrite !N.ltb_ge. lia. Qed.
Lemma less_triple_spec : is_less less_triple.
Proof.
  pose proof (is_less_key (λ n : N, n)) as Hn. unfold less_key in Hn.
  apply (is_less_lex N.eqb N.ltb tr_Start); [apply N.eqb_spec|done|apply ltb_total|].
  apply (is_less_lex N.eqb N.ltb tr_End); [apply N.eqb_spec|done|apply ltb_total|]. apply is_less_map, str_less_spec.
Qed.
Lemma less_tripleOID_spec : is_less less_tripleOID.
Proof.
  apply (is_less_lex String.eqb str_less to_StartOID); [apply String.eqb_spec|apply str_less_spec|apply str_less_total|].
  apply (is_less_lex String.eqb str_less to_EndOID); [apply String.eqb_spec|apply str_less_spec|apply str_less_total|].
  apply is_less_map, str_less_spec.
Qed.

(** The map fields, by what was recorded. *)
Definition triple_key (t : EdgeTripleRef) : edgeTripleKey := (tr_Start t, tr_End t, kindName (tr_Kind t)).
Definition tripleOID_key (t : EdgeTripleOIDRef) : edgeTripleOIDKey := (to_StartOID t, to_EndOID t, kindName (to_Kind t)).
Definition criteria_key (cr : NodeKindDeleteCriteria) : string := kindsKey (nk_Include cr) +:+ "|" +:+ kindsKey (nk_Exclude cr).
Definition of_triple (t : EdgeTripleRef) : change := CTriple (tr_Start t) (tr_End t) (tr_Kind t).
Definition of_tripleOID (t : EdgeTripleOIDRef) : change := CTripleOID (to_StartOID t) (to_EndOID t) (to_Kind t).
Definition of_criteria (cr : NodeKindDeleteCriteria) : change := CDeleteNodes (nk_Include cr) (nk_Exclude cr).

#[local] Ltac field :=
  let x := fresh "x" in let Hx := fresh "Hx" in
  first
  [ done
  | intros ? []; done
  | intros [] []; unfold of_triple, of_tripleOID, of_criteria; simpl; congruence
  | intros ? x Hx; destruct x; try done; exfalso;
    first [by eapply (Hx (mkTripleRef _ _ _)) | by eapply (Hx (mkTripleOIDRef _ _ _)) | by eapply (Hx (mkNodeKindDelete _ _)) | by eapply Hx]
  | intros []; try (right; by intros []); left;
    first [by eexists (mkTripleRef _ _ _) | by eexists (mkTripleOIDRef _ _ _) | by eexists (mkNodeKindDelete _ _) | by eexists]
  | intros ? ?; congruence ].

(** A map of values filed under their keys, as a list of the values. *)
Definition filed {V K} `{Countable K} (key : V → K) (m : gmap K V) (P : V → Prop) : Prop :=
  (∀ k v, m !! k = Some v → key v = k ∧ P v) ∧ ∀ v, P v → is_Some (m !! key v).
Lemma filed_of {V K} `{Countable K} (f : ChangeSet → gmap K V) (key : V → K) (mk : V → change) ops :
  (∀ k v, f (recorded ops) !! k = Some v → last_under key (λ v, v) mk ops k v) ∧
  (∀ a, mk a ∈ ops → is_Some (f (recorded ops) !! key a)) → filed key (f (recorded ops)) (λ v, mk v ∈ ops).
Proof. intros [H1 H2]. split; [|done]. intros k v Hk. destruct (H1 k v Hk) as (a & ? & ? & ->). done. Qed.

Lemma cs_edgeTriples_spec ops : filed triple_key (cs_edgeTriples (recorded ops)) (λ t, of_triple t ∈ ops).
Proof. apply filed_of, (map_field cs_edgeTriples triple_key (λ v, v) of_triple); field. Qed.
Lemma cs_edgeTriplesOID_spec ops : filed tripleOID_key (cs_edgeTriplesOID (recorded ops)) (λ t, of_tripleOID t ∈ ops).
Proof. apply filed_of, (map_field cs_edgeTriplesOID tripleOID_key (λ v, v) of_tripleOID); field. Qed.
Lemma cs_nodeKindDeletes_spec ops : filed criteria_key (cs_nodeKindDeletes (recorded ops)) (λ cr, of_criteria cr ∈ ops).
Proof. apply filed_of, (map_field cs_nodeKindDeletes criteria_key (λ v, v) of_criteria); field. Qed.
Lemma cs_edgeKindDeletes_spec ops : filed kindsKey (cs_edgeKindDeletes (recorded ops)) (λ ks, CDeleteEdges ks ∈ ops).
Proof. apply filed_of, (map_field cs_edgeKindDeletes kindsKey (λ v, v) CDeleteEdges); field. Qed.

(** The sorted values, and the values by their sorted keys: what was recorded,
    once per key. *)
Definition once_each {V K} (key : V → K) (P : V → Prop) (l : list V) : Prop :=
  NoDup (key <$> l) ∧ (∀ v, v ∈ l → P v) ∧ ∀ v, P v → ∃ v', v' ∈ l ∧ key v' = key v.

Lemma filed_keys {V K} `{Countable K} (key : V → K) (m : gmap K V) P : filed key m P → key <$> (map_to_list m).*2 = (map_to_list m).*1.
Proof.
  intros [Hf _]. rewrite <- list_fmap_compose. apply list_fmap_ext. intros i [k v] Hi%list_elem_of_lookup_2.
  apply elem_of_map_to_list in Hi. by apply Hf.
Qed.
Lemma sorted_once {V K} `{Countable K} (key : V → K) (m : gmap K V) P less : filed key m P →
  once_each key P (go_sort less (map_to_list m).*2).
Proof.
  intros Hm. pose proof (filed_keys key m P Hm) as Hk. destruct Hm as [H1 H2]. split; [|split].
  - rewrite go_sort_perm, Hk. apply NoDup_fst_map_to_list.
  - intros v. rewrite go_sort_elem. intros ([k v'] & -> & Hin%elem_of_map_to_list)%list_elem_of_fmap. by apply (H1 k).
  - intros v Hv. destruct (H2 v Hv) as [v' Hv']. exists v'. rewrite go_sort_elem. split; [|by destruct (H1 _ _ Hv')].
    apply list_elem_of_fmap. exists (key v, v'). split; [done|]. by apply elem_of_map_to_list.
Qed.
Lemma by_key_once {V} (key : V → string) (m : gmap string V) P : filed key m P →
  once_each key P (by_key m) ∧ StronglySorted (λ a b, str_less a b = true) (key <$> by_key m).
Proof.
  intros [H1 H2]. assert (key <$> by_key m = go_sort str_less (map_to_list m).*1) as Hk.
  { unfold by_key. set (l := go_sort _ _). assert (∀ k, k ∈ l → is_Some (m !! k)) as Hl.
    { intros k. unfold l. rewrite go_sort_elem. intros ([k' v] & -> & Hin%elem_of_map_to_list)%list_elem_of_fmap. by eexists. }
    clearbody l. induction l as [|k l IH]; [done|]. simpl. destruct (Hl k) as [v Hv]; [left|]. rewrite Hv. simpl.
    f_equal; [by destruct (H1 _ _ Hv)|]. apply IH. intros k' Hk'. apply Hl. by right. }
  split; [split; [|split]|].
  - rewrite Hk, go_sort_perm. apply NoDup_fst_map_to_list.
  - intros v (k & Hv)%by_key_elem. by apply (H1 k).
  - intros v Hv. destruct (H2 v Hv) as [v' Hv']. exists v'. split; [|by destruct (H1 _ _ Hv')]. apply by_key_elem. eauto.
  - rewrite Hk. apply strings_strict; [rewrite go_sort_perm; apply NoDup_fst_map_to_list|apply go_sort_sorted, str_less_spec].
Qed.

(** Kinds whose names can be told apart in a key lose nothing. *)
Lemma criteria_kept ops cr : of_criteria cr ∈ ops →
  (∀ cr', of_criteria cr' ∈ ops → plain_kinds (nk_Include cr') ∧ plain_kinds (nk_Exclude cr')) →
  ∃ cr', cr' ∈ NodeKindCriteria (recorded ops) ∧
    kindName <$> nk_Include cr' ≡ₚ kindName <$> nk_Include cr ∧ kindName <$> nk_Exclude cr' ≡ₚ kindName <$> nk_Exclude cr.
Proof.
  intros Hcr Hplain. destruct (by_key_once criteria_key _ _ (cs_nodeKindDeletes_spec ops)) as [(_ & H1 & H2) _].
  destruct (H2 cr Hcr) as (cr' & Hin & Hk). exists cr'. split; [done|].
  destruct (Hplain _ Hcr), (Hplain _ (H1 _ Hin)). by apply kindsKey2_inj.
Qed.
Lemma edge_criteria_kept ops ks : CDeleteEdges ks ∈ ops → (∀ ks', CDeleteEdges ks' ∈ ops → plain_kinds ks') →
  ∃ ks', ks' ∈ EdgeKindCriteria (recorded ops) ∧ kindName <$> ks' ≡ₚ kindName <$> ks.
Proof.
  intros Hks Hplain. destruct (by_key_once kindsKey _ _ (cs_edgeKindDeletes_spec ops)) as [(_ & H1 & H2) _].
  destruct (H2 ks Hks) as (ks' & Hin & Hk). exists ks'. split; [done|]. apply kindsKey_inj; eauto.
Qed.

(** Nothing recorded. *)
Definition names_nothing (x : change) : Prop := match x with CIncomplete _ => True | _ => False end.
Lemma ChangeSet_Empty_spec ops : ChangeSet_Empty (recorded ops) = true ↔ Forall names_nothing ops.
Proof.
  induction ops as [|x ops IH] using rev_ind; [done|]. rewrite recorded_snoc, Forall_app, <- IH, Forall_singleton.
  assert (∀ {A} `{Countable A} (a : A) (X : gset A), (size ({[a]} ∪ X) =? 0)%nat = false) as Hs.
  { intros A EA CA a X. apply Nat.eqb_neq. intros E%size_empty_inv. set_solver. }
  assert (∀ {K V} `{Countable K} (k : K) (v : V) (m : gmap K V), (size (<[k := v]> m) =? 0)%nat = false) as Hm.
  { intros K V EK CK k v m. apply Nat.eqb_neq. intros E%map_size_empty_iff. by apply insert_non_empty in E. }
  unfold ChangeSet_Empty. destruct x; simpl; rewrite ?Hs, ?Hm, ?andb_false_r; simpl; try tauto; (split; [discriminate|tauto]).
Qed.
End reading.
