(* ===== verification/Apply.v ===== *)
(** * Applying a write

    [buildApplySegment] of [internal/engine/apply.go], which turns what was read
    back from the database into a segment.

    The result: the segment means exactly the change that was read back. What
    was found is in it as it was found; what is gone is a tombstone, together
    with the edges the view shows at a node that is gone; nothing else is in
    it. *)

From S2P Require Import Prelude Bitset Csr Kinds Props Snapshot Builder Segment ParseProps View ViewAdj.
From stdpp Require Import options.
Unset Default Proof Using.
#[local] Open Scope N_scope.

(** ** Definitions *)

Record nodeState := mkNodeState { nst_id : N; nst_kindIDs : list KindID; nst_propsJSON : bytes }.
Record edgeState := mkEdgeState { est_id : N; est_start : N; est_end : N; est_kindID : KindID }.
Record tripleKey := mkTripleKey { tk_start : N; tk_end : N; tk_kindID : KindID }.
Definition unresolvedTripleKind : KindID := (-1)%Z.

Record readbackResult := mkReadback {
  rb_nodes : list nodeState;
  rb_absentNodeIDs : list N;
  rb_edges : list edgeState;
  rb_absentEdgeIDs : list N;
  rb_absentTriples : list tripleKey;
  rb_resolvedKinds : gmap KindID string;
}.

Section apply.
Context `{GoStd} `{JsonStd}.

(** *** The segment *)

Definition tombstoneNodeWithCascade (view : View) (b : SegmentBuilder) (pgID : N) : option SegmentBuilder :=
  let b := TombstoneNode b pgID in
  match View_Dense view pgID with
  | None => Some b
  | Some dense =>
      b ← OutEdges view dense (λ e b, Some (TombstoneEdge b e.2, true)) b;
      InEdges view dense (λ e b, Some (TombstoneEdge b e.2, true)) b
  end.

Definition tombstoneAbsentTriple (view : View) (b : SegmentBuilder) (triple : tripleKey) : option SegmentBuilder :=
  if (tk_kindID triple =? unresolvedTripleKind)%Z then Some b
  else
    match View_Dense view (tk_start triple) with
    | None => Some b
    | Some start =>
        match View_Dense view (tk_end triple) with
        | None => Some b
        | Some end_ =>
            OutEdges view start (λ '(target, kind, edgeID) b,
              Some (if (target =? end_) && (kind =? tk_kindID triple)%Z then TombstoneEdge b edgeID else b, true)) b
        end
    end.

Definition buildApplySegment (view : View) (rb : readbackResult) : option (Segment + goerr) :=
  let b := foldl (λ b '(id, name), AddKind b id name) SegmentBuilder_zero (map_to_list (rb_resolvedKinds rb)) in
  b ← foldM (tombstoneNodeWithCascade view) (rb_absentNodeIDs rb) b;
  let b := foldl TombstoneEdge b (rb_absentEdgeIDs rb) in
  b ← foldM (tombstoneAbsentTriple view) (rb_absentTriples rb) b;
  '(b, r) ← go_for (λ ns, AddNodeStateJSON (nst_id ns) (nst_kindIDs ns) (nst_propsJSON ns)) (rb_nodes rb) b;
  match r with
  | inr err => Some (inr err)
  | inl _ =>
      let b := foldl (λ b es, AddEdgeState b (est_id es) (est_start es) (est_end es) (est_kindID es)) b (rb_edges rb) in
      Some (inl (SegmentBuilder_Build b))
  end.
End apply.

(** ** The segment means what was read back *)

(** Tombstones and states laid over a map of states. *)
Definition tombs {A} (m : gmap N (option A)) (T : list N) : gmap N (option A) :=
  foldl (λ m id, <[id := None]> m) m T.
Definition puts {X A} (key : X → N) (val : X → A) (m : gmap N (option A)) (l : list X) : gmap N (option A) :=
  foldl (λ m x, <[key x := Some (val x)]> m) m l.

Lemma tombs_app {A} (m : gmap N (option A)) T T' : tombs (tombs m T) T' = tombs m (T ++ T').
Proof. unfold tombs. by rewrite foldl_app. Qed.
Lemma tombs_lookup {A} (m : gmap N (option A)) T id : tombs m T !! id = if bool_decide (id ∈ T) then Some None else m !! id.
Proof.
  induction T as [|x T IH] using rev_ind; [done|].
  rewrite <- tombs_app. change (tombs (tombs m T) [x]) with (<[x := None]> (tombs m T)). rewrite lookup_insert, IH.
  repeat case_decide; repeat case_bool_decide; set_solver.
Qed.
Lemma puts_other {X A} (key : X → N) (val : X → A) m l id : id ∉ key <$> l → puts key val m l !! id = m !! id.
Proof.
  revert m. induction l as [|x l IH]; intros m Hid; [done|]. simpl in *. rewrite IH by set_solver.
  apply lookup_insert_ne. set_solver.
Qed.
Lemma puts_in {X A} (key : X → N) (val : X → A) m l x : NoDup (key <$> l) → x ∈ l → puts key val m l !! key x = Some (Some (val x)).
Proof.
  revert m. induction l as [|y l IH]; intros m; [intros _ Hx; by apply elem_of_nil in Hx|].
  rewrite fmap_cons, NoDup_cons. intros [Hn Hnd] [->|Hx]%elem_of_cons; simpl; [|by apply IH].
  fold (puts key val (<[key y := Some (val y)]> m) l). rewrite puts_other by done. by rewrite lookup_insert_eq.
Qed.

Section built.
Context `{GoStd} `{JsonStd}.
Context (v : View) (L : layout) (Ds : list delta) (HR : View_rep v L Ds).
Let G := view_graph L Ds.

Lemma tombstone_walk b D (l : list vedge) : SegmentBuilder_rep b D →
  SegmentBuilder_rep (foldl (λ b e, TombstoneEdge b e.2) b l) (mkDelta (d_nodes D) (tombs (d_edges D) l.*2) (d_kinds D)).
Proof.
  revert b D. induction l as [|x l IH]; intros b D Hb; [by destruct D|].
  exact (IH _ (mkDelta (d_nodes D) (<[x.2 := None]> (d_edges D)) (d_kinds D)) (TombstoneEdge_rep _ _ _ Hb)).
Qed.

(** The edges at a node, in the order a walk yields them. *)
Lemma walk_ids (out : bool) n id (e : N) : idx (view_ids v) n = Some id →
  e ∈ (walk_list v L out n).*2 ↔ ∃ k o, visible G !! e = Some (if out then (id, o, k) else (o, id, k)).
Proof.
  intros Hn. destruct (walk_list_rep v L Ds HR out n) as [_ Hw]. rewrite list_elem_of_fmap. split.
  - intros ([[t k] e'] & -> & Hin). apply Hw in Hin as (id' & tid & Hid & _ & Hv). simplify_eq. eauto.
  - intros (k & o & Hv). pose proof Hv as Hv'. assert (∃ t, idx (view_ids v) t = Some o) as [t Ht].
    { destruct out; apply visible_iff in Hv' as (_ & [sa Ha] & [sb Hb]); by eapply (node_numbered v L Ds HR). }
    exists (t, k, e). split; [done|]. apply Hw. eauto.
Qed.
Definition with_tombs (D : delta) (ns es : list N) : delta :=
  mkDelta (tombs (d_nodes D) ns) (tombs (d_edges D) es) (d_kinds D).

Lemma walk_pure (out : bool) n b : (if out then OutEdges v n else InEdges v n) (λ e b, Some (TombstoneEdge b e.2, true)) b =
  Some (foldl (λ b e, TombstoneEdge b e.2) b (walk_list v L out n)).
Proof.
  destruct out; [rewrite (OutEdges_walk v L Ds HR)|rewrite (InEdges_walk v L Ds HR)]; apply iter_until_pure.
Qed.

Lemma tombstoneNode_spec b D id : SegmentBuilder_rep b D → ∃ b' T, tombstoneNodeWithCascade v b id = Some b' ∧
  SegmentBuilder_rep b' (with_tombs D [id] T) ∧
  ∀ e, e ∈ T ↔ ∃ k o, visible G !! e = Some (id, o, k) ∨ visible G !! e = Some (o, id, k).
Proof.
  intros Hb. apply (TombstoneNode_rep _ _ id) in Hb. unfold tombstoneNodeWithCascade. rewrite (View_Dense_eq v L Ds HR).
  destruct (denseOf v id) as [n|] eqn:En.
  - apply (denseOf_spec v L Ds HR) in En.
    rewrite (walk_pure true). cbn [mbind option_bind]. rewrite (walk_pure false).
    eexists _, ((walk_list v L true n).*2 ++ (walk_list v L false n).*2). split; [done|]. split.
    + unfold with_tombs. rewrite <- tombs_app. eapply tombstone_walk, tombstone_walk in Hb. exact Hb.
    + intros e. rewrite elem_of_app, !(walk_ids _ _ _ _ En). naive_solver.
  - exists (TombstoneNode b id), []. split; [done|]. split; [done|]. intros e. split; [intros He; by apply elem_of_nil in He|].
    assert (¬ is_Some (g_nodes G !! id)) as Hno.
    { intros [st Hst]. apply (node_numbered v L Ds HR) in Hst as [n Hn%(denseOf_spec v L Ds HR)]. congruence. }
    intros (k & o & [Hv|Hv]); apply visible_iff in Hv; naive_solver.
Qed.

(** The edges of one triple. *)
Lemma triple_walk end_ kind b (l : list vedge) :
  iter_until (λ '(target, k, edgeID) b, Some (if (target =? end_) && (k =? kind)%Z then TombstoneEdge b edgeID else b, true)) l b =
  Some (foldl (λ b e, TombstoneEdge b e.2) b (filter (λ e : vedge, e.1 = (end_, kind)) l)).
Proof.
  transitivity (iter_until (λ (e : vedge) b, Some ((λ b (e : vedge), if (e.1.1 =? end_) && (e.1.2 =? kind)%Z then TombstoneEdge b e.2 else b) b e, true)) l b).
  { apply iter_until_ext. intros [[t k] e] s _. done. }
  rewrite (iter_until_pure (λ b (e : vedge), if (e.1.1 =? end_) && (e.1.2 =? kind)%Z then TombstoneEdge b e.2 else b)). f_equal.
  revert b. induction l as [|[[t k] e] l IH]; intros b; [done|]. rewrite filter_cons. simpl.
  rewrite IH. destruct (N.eqb_spec t end_), (Z.eqb_spec k kind); subst; simpl;
    first [by rewrite decide_True by done|by rewrite decide_False by congruence].
Qed.

Lemma tombstoneTriple_spec b D tr : SegmentBuilder_rep b D → ∃ b' T, tombstoneAbsentTriple v b tr = Some b' ∧
  SegmentBuilder_rep b' (with_tombs D [] T) ∧
  ∀ e, e ∈ T ↔ tk_kindID tr ≠ unresolvedTripleKind ∧ visible G !! e = Some (tk_start tr, tk_end tr, tk_kindID tr).
Proof.
  intros Hb. unfold tombstoneAbsentTriple. destruct (Z.eqb_spec (tk_kindID tr) unresolvedTripleKind) as [E|E].
  { exists b, []. split; [done|]. split; [by destruct D|]. intros e. rewrite elem_of_nil. naive_solver. }
  assert (∀ id, View_Dense v id = None → ¬ is_Some (g_nodes G !! id)) as Hno.
  { intros id Hid [st Hst]. rewrite (View_Dense_eq v L Ds HR) in Hid.
    apply (node_numbered v L Ds HR) in Hst as [n Hn%(denseOf_spec v L Ds HR)]. congruence. }
  destruct (View_Dense v (tk_start tr)) as [s|] eqn:Es.
  2:{ exists b, []. split; [done|]. split; [by destruct D|]. intros e. rewrite elem_of_nil. split; [done|].
      intros [_ (_ & Ha & _)%visible_iff]. by apply (Hno (tk_start tr)). }
  destruct (View_Dense v (tk_end tr)) as [t|] eqn:Et.
  2:{ exists b, []. split; [done|]. split; [by destruct D|]. intros e. rewrite elem_of_nil. split; [done|].
      intros [_ (_ & _ & Ha)%visible_iff]. by apply (Hno (tk_end tr)). }
  rewrite (View_Dense_eq v L Ds HR) in Es, Et. apply (denseOf_spec v L Ds HR) in Es, Et.
  rewrite (OutEdges_walk v L Ds HR). rewrite triple_walk.
  eexists _, _. split; [done|]. split; [by apply tombstone_walk|]. intros e.
  destruct (walk_list_rep v L Ds HR true s) as [_ Hw]. rewrite list_elem_of_fmap. split.
  - intros ([[t' k] e'] & -> & [Hk Hin]%list_elem_of_filter). simpl in *. injection Hk as -> ->. split; [done|].
    apply Hw in Hin as (id' & tid & Hid & Htid & Hv). by simplify_eq.
  - intros [_ Hv]. exists (t, tk_kindID tr, e). split; [done|]. apply list_elem_of_filter. split; [done|]. apply Hw. eauto.
Qed.

Lemma tomb_fold {X} (f : SegmentBuilder → X → option SegmentBuilder) (ns : X → list N) (P : X → N → Prop) :
  (∀ x b D, SegmentBuilder_rep b D → ∃ b' T, f b x = Some b' ∧ SegmentBuilder_rep b' (with_tombs D (ns x) T) ∧ ∀ e, e ∈ T ↔ P x e) →
  ∀ l b D, SegmentBuilder_rep b D → ∃ b' T, foldM f l b = Some b' ∧ SegmentBuilder_rep b' (with_tombs D (l ≫= ns) T) ∧
    ∀ e, e ∈ T ↔ ∃ x, x ∈ l ∧ P x e.
Proof.
  intros Hf. induction l as [|x l IH]; intros b D Hb.
  { exists b, []. split; [done|]. split; [by destruct D|]. intros e. rewrite elem_of_nil. set_solver. }
  destruct (Hf x b D Hb) as (b1 & T1 & E1 & Hb1 & HT1). destruct (IH b1 _ Hb1) as (b2 & T2 & E2 & Hb2 & HT2).
  exists b2, (T1 ++ T2). simpl. rewrite E1. cbn [mbind option_bind]. split; [done|]. split.
  - unfold with_tombs in *. simpl in Hb2. by rewrite !tombs_app in Hb2.
  - intros e. rewrite elem_of_app, HT1, HT2. setoid_rewrite elem_of_cons. naive_solver.
Qed.
(** An edge the view shows that what was read back says is gone. *)
Definition cut (rb : readbackResult) (e : N) : Prop :=
  e ∈ rb_absentEdgeIDs rb ∨
  (∃ id, id ∈ rb_absentNodeIDs rb ∧ ∃ k o, visible G !! e = Some (id, o, k) ∨ visible G !! e = Some (o, id, k)) ∨
  (∃ tr, tr ∈ rb_absentTriples rb ∧ tk_kindID tr ≠ unresolvedTripleKind ∧ visible G !! e = Some (tk_start tr, tk_end tr, tk_kindID tr)).

(** The change that was read back: what was found as it was found, what is
    gone as a tombstone, everything else left alone. *)
Record applied_delta (rb : readbackResult) (D : delta) : Prop := {
  ad_nodes : ∀ ns, ns ∈ rb_nodes rb → ∃ bag, json_bag (nst_propsJSON ns) = Some bag ∧
    d_nodes D !! nst_id ns = Some (Some (nst_kindIDs ns, bag));
  ad_other_nodes : ∀ id, id ∉ nst_id <$> rb_nodes rb →
    d_nodes D !! id = if bool_decide (id ∈ rb_absentNodeIDs rb) then Some None else None;
  ad_edges : ∀ es, es ∈ rb_edges rb → d_edges D !! est_id es = Some (Some (est_start es, est_end es, est_kindID es));
  ad_cut : ∀ e, e ∉ est_id <$> rb_edges rb → cut rb e → d_edges D !! e = Some None;
  ad_other_edges : ∀ e, e ∉ est_id <$> rb_edges rb → ¬ cut rb e → d_edges D !! e = None;
  ad_kinds : d_kinds D = rb_resolvedKinds rb;
}.

Lemma kinds_staged (m : gmap Z string) :
  SegmentBuilder_rep (foldl (λ b '(id, name), AddKind b id name) SegmentBuilder_zero (map_to_list m)) (mkDelta ∅ ∅ m).
Proof.
  assert (∀ l b D, SegmentBuilder_rep b D → NoDup l.*1 → SegmentBuilder_rep (foldl (λ b '(id, name), AddKind b id name) b l)
    (mkDelta (d_nodes D) (d_edges D) (list_to_map l ∪ d_kinds D))) as Hl.
  { induction l as [|[id name] l IH]; intros b D Hb Hnd; [simpl; rewrite (left_id ∅ (∪)); by destruct D|].
    rewrite fmap_cons, NoDup_cons in Hnd. destruct Hnd as [Hn Hnd]. simpl.
    apply (AddKind_rep _ _ id name), IH in Hb; [|done]. simpl in Hb.
    rewrite <- insert_union_l, insert_union_r; [done|]. by apply not_elem_of_list_to_map. }
  specialize (Hl _ _ _ SegmentBuilder_zero_rep (NoDup_fst_map_to_list m)). simpl in Hl.
  by rewrite list_to_map_to_list, (right_id ∅ (∪)) in Hl.
Qed.

Definition node_bag (ns : nodeState) : node_state := (nst_kindIDs ns, default ∅ (json_bag (nst_propsJSON ns))).
Lemma nodes_staged l b D : SegmentBuilder_rep b D →
  ∃ b' r, go_for (λ ns, AddNodeStateJSON (nst_id ns) (nst_kindIDs ns) (nst_propsJSON ns)) l b = Some (b', r) ∧
    match r with
    | inl _ => Forall (λ ns, is_Some (json_bag (nst_propsJSON ns))) l ∧
        SegmentBuilder_rep b' (mkDelta (puts nst_id node_bag (d_nodes D) l) (d_edges D) (d_kinds D))
    | inr err => (err = ErrDecode ∧ ∃ ns, ns ∈ l ∧ json_bag (nst_propsJSON ns) = None) ∨ err = ErrTooManyProps ∨ err = ErrArenaFull
    end.
Proof.
  revert b D. induction l as [|ns l IH]; intros b D Hb; [exists b, (inl ()); split_and!; [done..|by destruct D]|].
  rewrite go_for_cons. unfold go_bind.
  destruct (AddNodeStateJSON_rep b D (nst_id ns) (nst_kindIDs ns) (nst_propsJSON ns) Hb) as (b1 & [[]|err] & -> & Hr); cbn [mbind option_bind].
  - destruct Hr as (bag & Ebag & Hb1). destruct (IH b1 _ Hb1) as (b2 & r2 & -> & Hr2). exists b2, r2. split; [done|].
    destruct r2 as [|err].
    + destruct Hr2 as [HF Hb2]. split; [by constructor|]. simpl in Hb2. unfold puts in *. simpl. unfold node_bag at 2. by rewrite Ebag.
    + destruct Hr2 as [[-> (ns' & ? & ?)]|?]; [left; split; [done|]; exists ns'; split; [by right|done]|by right].
  - exists b1, (inr err). split; [done|]. destruct Hr as [_ [[-> ?]|?]]; [left; split; [done|]; exists ns; split; [left|done]|by right].
Qed.

Lemma edges_staged l b D : SegmentBuilder_rep b D →
  SegmentBuilder_rep (foldl (λ b es, AddEdgeState b (est_id es) (est_start es) (est_end es) (est_kindID es)) b l)
    (mkDelta (d_nodes D) (puts est_id (λ es, (est_start es, est_end es, est_kindID es)) (d_edges D) l) (d_kinds D)).
Proof.
  revert b D. induction l as [|es l IH]; intros b D Hb; [by destruct D|].
  apply (AddEdgeState_rep _ _ (est_id es) (est_start es) (est_end es) (est_kindID es)), IH in Hb. exact Hb.
Qed.

Lemma buildApplySegment_spec rb : NoDup (nst_id <$> rb_nodes rb) → NoDup (est_id <$> rb_edges rb) →
  ∃ r, buildApplySegment v rb = Some r ∧
    match r with
    | inl seg => ∃ D, Segment_rep seg D ∧ applied_delta rb D
    | inr err => (err = ErrDecode ∧ ∃ ns, ns ∈ rb_nodes rb ∧ json_bag (nst_propsJSON ns) = None) ∨
        err = ErrTooManyProps ∨ err = ErrArenaFull
    end.
Proof.
  intros Hnn Hne. unfold buildApplySegment. pose proof (kinds_staged (rb_resolvedKinds rb)) as Hb.
  destruct (tomb_fold (tombstoneNodeWithCascade v) (λ id, [id]) _ (λ x b D, tombstoneNode_spec b D x)
    (rb_absentNodeIDs rb) _ _ Hb) as (b1 & T1 & -> & Hb1 & HT1). cbn [mbind option_bind].
  assert (∀ l b D, SegmentBuilder_rep b D → SegmentBuilder_rep (foldl TombstoneEdge b l) (with_tombs D [] l)) as Hte.
  { clear. induction l as [|e l IH]; intros b D Hb; [by destruct D|]. by apply (TombstoneEdge_rep _ _ e), IH in Hb. }
  apply (Hte (rb_absentEdgeIDs rb)) in Hb1.
  destruct (tomb_fold (tombstoneAbsentTriple v) (λ _, []) _ (λ x b D, tombstoneTriple_spec b D x)
    (rb_absentTriples rb) _ _ Hb1) as (b2 & T2 & -> & Hb2 & HT2). cbn [mbind option_bind].
  destruct (nodes_staged (rb_nodes rb) b2 _ Hb2) as (b3 & r & -> & Hr). cbn [mbind option_bind].
  destruct r as [[]|err]; [|by eexists]. destruct Hr as [Hjson Hb3]. eexists. split; [done|].
  apply (edges_staged (rb_edges rb)) in Hb3. eexists. split; [by apply SegmentBuilder_Build_rep|].
  unfold with_tombs. simpl. rewrite !tombs_app.
  assert (∀ e, e ∈ T1 ++ rb_absentEdgeIDs rb ++ T2 ↔ cut rb e) as Hcut.
  { intros e. rewrite !elem_of_app, HT1, HT2. unfold cut. naive_solver. }
  split; simpl.
  - intros ns Hns. rewrite Forall_forall in Hjson. destruct (Hjson ns Hns) as [bag Ebag]. exists bag. split; [done|].
    rewrite (puts_in _ _ _ _ _ Hnn Hns). unfold node_bag. by rewrite Ebag.
  - intros id Hid. rewrite puts_other by done. rewrite tombs_lookup, lookup_empty.
    erewrite bool_decide_ext; [done|]. rewrite elem_of_app, !list_elem_of_bind. setoid_rewrite list_elem_of_singleton. set_solver.
  - intros es Hes. by rewrite (puts_in _ _ _ _ _ Hne Hes).
  - intros e He Hc%Hcut. rewrite puts_other by done. rewrite tombs_lookup. by rewrite bool_decide_eq_true_2.
  - intros e He Hc. rewrite <- Hcut in Hc. rewrite puts_other by done. rewrite tombs_lookup. by rewrite bool_decide_eq_false_2.
  - done.
Qed.
End built.
