(* ===== verification/Candidates.v ===== *)
(** * Which rows of a view to ask about again

    [collectViewCandidates] of [internal/engine/apply.go]: the nodes a vanished
    object id or a delete by kinds can have removed, and the edges of the kinds
    a delete names.

    The result: the candidates are exactly those rows of the view's graph. *)

From S2P Require Import Prelude Bitset Csr Kinds Props Snapshot Builder Segment View ViewAdj ViewKinds ChangeSet.
From stdpp Require Import options.
Unset Default Proof Using.
#[local] Open Scope N_scope.

(** ** Definitions *)

Section candidates.
Context `{GoStd}.

Record kindLookup := mkKindLookup { kl_table : KindTable; kl_added : gmap string KindID }.
Definition newKindLookup (view : View) (resolved : gmap KindID string) : option kindLookup :=
  let added := foldl (λ added '(id, name), <[name := id]> added) ∅ (map_to_list resolved) in
  t ← View_Kinds view; Some (mkKindLookup t added).
Definition kindLookup_id (l : kindLookup) (kind : Kind) : option KindID :=
  let name := kindName kind in
  match KindTable_ID (kl_table l) name with
  | Some id => Some id
  | None => kl_added l !! name
  end.

(** [vc_nodes] is nil until the first candidate; [view] is an argument. *)
Record viewCandidates := mkCandidates { vc_nodes : option Bitset; vc_edges : list N }.

Definition addNode (view : View) (c : viewCandidates) (n : NodeID) : viewCandidates :=
  mkCandidates (bits_set (View_NodeCount view) (vc_nodes c) n) (vc_edges c).
Definition nodeIDs (view : View) (c : viewCandidates) : option (list N) :=
  match vc_nodes c with
  | None => Some []
  | Some b => Bitset_Iterate b (λ n ids, g ← View_GraphID view n; Some (ids ++ [g], true)) []
  end.

Definition addObjectID (view : View) (c : viewCandidates) (objectID : string) : option viewCandidates :=
  r ← View_NodesByObjectID view objectID;
  match r with
  | None => Some c
  | Some dense => Some (foldl (addNode view) c dense)
  end.

Definition kindsIntersect (have want : list KindID) : bool :=
  existsb (λ h, existsb (λ w, (h =? w)%Z) want) have.

Fixpoint exclude_ids (lookup : kindLookup) (kinds : Kinds_list) : list KindID + goerr :=
  match kinds with
  | [] => inl []
  | kind :: kinds' =>
      match kindLookup_id lookup kind with
      | None => inr (ErrUnknownKind (kindName kind))
      | Some id => match exclude_ids lookup kinds' with inr err => inr err | inl ids => inl (id :: ids) end
      end
  end.

Definition consider (view : View) (exclude : list KindID) (n : NodeID) (c : viewCandidates) : option (viewCandidates * bool) :=
  if negb (Alive view n) then Some (c, true)
  else
    skip ← (if 0 <? len exclude then have ← KindIDsOf view n; Some (kindsIntersect have exclude) else Some false);
    if (skip : bool) then Some (c, true) else Some (addNode view c n, true).

Definition addNodeKindCriteria (view : View) (lookup : kindLookup) (criteria : NodeKindDeleteCriteria) : go viewCandidates () := λ c,
  let include := omap (kindLookup_id lookup) (nk_Include criteria) in
  match exclude_ids lookup (nk_Exclude criteria) with
  | inr err => Some (c, inr err)
  | inl exclude =>
      c ← (if 0 <? len (nk_Include criteria)
           then foldM (λ c kindID, b ← View_NodesOfKind view kindID; Bitset_Iterate b (consider view exclude) c) include c
           else foldM (λ c n, '(c, _) ← consider view exclude (u32 n) c; Some c) (range 0 (View_NodeCount view)) c);
      Some (c, inl ())
  end.

(** One edge of a segment, the newest ones first. *)
Definition decide_edge (mask : KindMask) (id : N) (st : EdgeSegState) (acc : gset N * list N) : option (gset N * list N * bool) :=
  let '(decided, edges) := acc in
  if bool_decide (id ∈ decided) then Some (acc, true)
  else
    let decided := {[id]} ∪ decided in
    wanted ← (if es_Tombstoned st then Some false else KindMask_Has mask (es_Kind st));
    Some (decided, if (wanted : bool) then edges ++ [id] else edges, true).
(** One slot of the base. *)
Definition base_slot_edge (base : Snapshot) (mask : KindMask) (decided : gset N) (edges : list N) (x : N * KindID) : option (list N) :=
  has ← KindMask_Has mask x.2;
  if negb has then Some edges
  else
    id ← idx (OutEdgeIDs base) x.1;
    if bool_decide (id ∈ decided) then Some edges else Some (edges ++ [id]).

Definition addEdgeKindCriteria (view : View) (lookup : kindLookup) (criteria : list Kinds_list) (c : viewCandidates) : option viewCandidates :=
  let wanted := omap (kindLookup_id lookup) (concat criteria) in
  match wanted with
  | [] => Some c
  | w :: _ =>
      let maxWanted := foldl Z.max w wanted in
      mask ← NewKindMask maxWanted;
      mask ← foldM KindMask_Set wanted mask;
      '(decided, edges) ← foldM (λ acc seg, IterEdges seg (decide_edge mask) acc) (reverse (v_segments view)) (∅, vc_edges c);
      let base := v_base view in
      edges ← foldM (base_slot_edge base mask decided) (zip (range 0 (len (OutKinds base))) (OutKinds base)) edges;
      Some (mkCandidates (vc_nodes c) edges)
  end.

Definition collectViewCandidates (view : View) (criteriaKinds : gmap KindID string) (cs : ChangeSet)
    (absentObjectIDs : list string) : option (viewCandidates + goerr) :=
  c ← foldM (addObjectID view) absentObjectIDs (mkCandidates None []);
  lookup ← newKindLookup view criteriaKinds;
  '(c, r) ← go_for (addNodeKindCriteria view lookup) (NodeKindCriteria cs) c;
  match r with
  | inr err => Some (inr err)
  | inl _ => c ← addEdgeKindCriteria view lookup (EdgeKindCriteria cs) c; Some (inl c)
  end.
End candidates.

(** ** The nodes *)

(** The set bits of a candidate set. *)
Definition cand_rep (nc : N) (b : option Bitset) (P : NodeID → Prop) : Prop :=
  match b with Some b => Bitset_wf nc b | None => True end ∧ ∀ n, bits_has b n = true ↔ P n.

Lemma cand_rep_ext nc b (P Q : NodeID → Prop) : (∀ n, P n ↔ Q n) → cand_rep nc b P → cand_rep nc b Q.
Proof. intros HPQ [Hwf Hh]. split; [done|]. intros n. by rewrite <- HPQ. Qed.
Lemma cand_rep_set nc b P n : nc < 2 ^ 32 → n < nc → cand_rep nc b P → cand_rep nc (bits_set nc b n) (λ m, P m ∨ m = n).
Proof.
  intros Hnc Hn [Hwf Hh]. unfold bits_set. set (b0 := match b with Some b => b | None => NewBitset nc end).
  assert (Bitset_wf nc b0 ∧ ∀ i, Bitset_Has b0 i = bits_has b i) as [Hwf0 Hh0].
  { unfold b0. destruct b; [done|]. split; [by apply NewBitset_wf|]. intros i. by apply NewBitset_Has. }
  split; [by apply Set_wf|]. intros m. simpl. rewrite (Set_Has nc) by done. rewrite orb_true_iff, N.eqb_eq, Hh0, Hh. naive_solver.
Qed.

Section nodes.
Context `{GoStd}.
Context (v : View) (L : layout) (Ds : list delta) (HR : View_rep v L Ds).
Let G := view_graph L Ds.
Let nc := View_NodeCount v.

Definition nodes_rep (c : viewCandidates) (P : NodeID → Prop) : Prop := cand_rep nc (vc_nodes c) P.

Lemma addNode_rep c P n : n < nc → nodes_rep c P → nodes_rep (addNode v c n) (λ m, P m ∨ m = n).
Proof. intros Hn Hc. apply cand_rep_set; [apply (vr_count _ _ _ HR)|done..]. Qed.

(** A loop whose every round adds what its element stands for. *)
Lemma cand_fold {X} (f : viewCandidates → X → option viewCandidates) (Q : X → NodeID → Prop) l :
  (∀ x c P, x ∈ l → nodes_rep c P → ∃ c', f c x = Some c' ∧ vc_edges c' = vc_edges c ∧ nodes_rep c' (λ n, P n ∨ Q x n)) →
  ∀ c P, nodes_rep c P → ∃ c', foldM f l c = Some c' ∧ vc_edges c' = vc_edges c ∧ nodes_rep c' (λ n, P n ∨ ∃ x, x ∈ l ∧ Q x n).
Proof.
  induction l as [|x l IH]; intros Hf c P Hc.
  { exists c. split; [done|]. split; [done|]. revert Hc. apply cand_rep_ext. set_solver. }
  destruct (Hf x c P (list_elem_of_here _ _) Hc) as (c1 & E1 & He1 & Hc1). simpl. rewrite E1. cbn [mbind option_bind].
  destruct (IH (λ y c P Hy, Hf y c P (list_elem_of_further _ _ _ Hy)) c1 _ Hc1) as (c2 & E2 & He2 & Hc2).
  exists c2. split; [done|]. split; [congruence|]. revert Hc2. apply cand_rep_ext. set_solver.
Qed.

Lemma addObjectID_rep c P oid : nodes_rep c P → ∃ c', addObjectID v c oid = Some c' ∧ vc_edges c' = vc_edges c ∧
  nodes_rep c' (λ n, P n ∨ ∃ id, idx (view_ids v) n = Some id ∧ graph_objectid L Ds id = Some oid).
Proof.
  intros Hc. unfold addObjectID. destruct (NodesByObjectID_graph v L Ds HR oid) as (l & -> & _ & Hl). cbn [mbind option_bind].
  destruct (cand_fold (λ c n, Some (addNode v c n)) (λ x n, n = x) l) with c P as (c' & E & He & Hc'); [|done|].
  { intros x c0 P0 Hx Hc0. eexists. split; [done|]. split; [done|]. apply addNode_rep; [|done].
    apply Hl in Hx as (id & Hid & _). by apply (dense_lt v) in Hid. }
  rewrite foldM_pure in E. injection E as E. exists c'. split; [by destruct l; simpl in *; congruence|]. split; [done|].
  revert Hc'. apply cand_rep_ext. intros n. rewrite <- Hl. naive_solver.
Qed.

(** A live node outside the excluded kinds. *)
Definition admitted (exclude : list KindID) (n : NodeID) : Prop :=
  ∃ id st, idx (view_ids v) n = Some id ∧ g_nodes G !! id = Some st ∧ ∀ k, k ∈ exclude → k ∉ st.1.

Lemma kindsIntersect_spec have want : kindsIntersect have want = false ↔ ∀ k, k ∈ want → k ∉ have.
Proof.
  rewrite <- not_true_iff_false. unfold kindsIntersect. rewrite existsb_exists. setoid_rewrite existsb_exists.
  setoid_rewrite Z.eqb_eq. setoid_rewrite <- list_elem_of_In. naive_solver.
Qed.

Lemma consider_rep c P exclude n : nodes_rep c P → ∃ c', consider v exclude n c = Some (c', true) ∧ vc_edges c' = vc_edges c ∧
  nodes_rep c' (λ m, P m ∨ (m = n ∧ admitted exclude n)).
Proof.
  intros Hc. unfold consider. destruct (Alive v n) eqn:Ea; simpl.
  - apply (alive_iff v L Ds HR) in Ea as (id & Hid & [st Hst]).
    assert ((if 0 <? len exclude then have ← KindIDsOf v n; Some (kindsIntersect have exclude) else Some false) =
      Some (kindsIntersect st.1 exclude)) as ->.
    { destruct (N.ltb_spec 0 (len exclude)) as [_|Hl].
      - rewrite (KindIDsOf_graph v L Ds HR n id Hid). by rewrite Hst.
      - destruct exclude; [|unfold len in Hl; simpl in Hl; lia]. f_equal. symmetry. apply kindsIntersect_spec. set_solver. }
    cbn [mbind option_bind]. assert (admitted exclude n ↔ kindsIntersect st.1 exclude = false) as Had.
    { rewrite kindsIntersect_spec. split; [|intros ?; by exists id, st].
      intros (id' & st' & Hid' & Hst' & Hk). unfold G in Hst'. by simplify_eq. }
    destruct (kindsIntersect st.1 exclude).
    + exists c. split; [done|]. split; [done|]. revert Hc. apply cand_rep_ext. naive_solver.
    + eexists. split; [done|]. split; [done|]. eapply cand_rep_ext; [|apply addNode_rep; [by apply (dense_lt v) in Hid|done]].
      naive_solver.
  - exists c. split; [done|]. split; [done|]. revert Hc. apply cand_rep_ext. intros m. split; [by left|].
    intros [?|[-> (id & st & Hid & Hst & _)]]; [done|]. assert (Alive v n = true) as E; [|congruence].
    apply (alive_iff v L Ds HR). exists id. split; [done|by eexists].
Qed.
Lemma iter_consider exclude l c :
  iter_until (consider v exclude) l c = foldM (λ c n, '(c, _) ← consider v exclude n c; Some c) l c.
Proof.
  rewrite <- iter_until_foldM. apply iter_until_ext. intros n c0 _. unfold consider.
  destruct (negb _); [done|]. by destruct (if 0 <? len exclude then _ else _) as [[]|].
Qed.
Lemma consider_fold exclude l c P : nodes_rep c P →
  ∃ c', foldM (λ c n, '(c, _) ← consider v exclude n c; Some c) l c = Some c' ∧ vc_edges c' = vc_edges c ∧
    nodes_rep c' (λ n, P n ∨ ∃ x, x ∈ l ∧ n = x ∧ admitted exclude x).
Proof.
  revert c P. apply (cand_fold _ (λ x n, n = x ∧ admitted exclude x)). intros x c0 P0 _ Hc0.
  destruct (consider_rep c0 P0 exclude x Hc0) as (c1 & -> & He & Hc1). exists c1. split; [done|]. split; [done|].
  revert Hc1. apply cand_rep_ext. naive_solver.
Qed.

Lemma exclude_ids_spec lk ks :
  match exclude_ids lk ks with
  | inl ids => ids = omap (kindLookup_id lk) ks ∧ ∀ k, k ∈ ks → is_Some (kindLookup_id lk k)
  | inr err => ∃ k, k ∈ ks ∧ kindLookup_id lk k = None ∧ err = ErrUnknownKind (kindName k)
  end.
Proof.
  induction ks as [|k ks IH]; [split; [done|set_solver]|]. simpl.
  destruct (kindLookup_id lk k) as [id|] eqn:Ek; [|exists k; split; [left|done]].
  destruct (exclude_ids lk ks) as [ids|err].
  - destruct IH as [-> IH]. split; [done|]. intros k' [->|?]%elem_of_cons; [by eexists|by apply IH].
  - destruct IH as (k' & ? & ?). exists k'. split; [by right|done].
Qed.

(** The live nodes a delete by kinds names. *)
Definition deletes (lk : kindLookup) (cr : NodeKindDeleteCriteria) (st : node_state) : Prop :=
  (nk_Include cr = [] ∨ ∃ kind k, kind ∈ nk_Include cr ∧ kindLookup_id lk kind = Some k ∧ k ∈ st.1) ∧
  ∀ kind k, kind ∈ nk_Exclude cr → kindLookup_id lk kind = Some k → k ∉ st.1.
Definition deleted_node (lk : kindLookup) (cr : NodeKindDeleteCriteria) (n : NodeID) : Prop :=
  ∃ id st, idx (view_ids v) n = Some id ∧ g_nodes G !! id = Some st ∧ deletes lk cr st.
(** A kind it spares that nothing resolves. *)
Definition unresolved (lk : kindLookup) (cr : NodeKindDeleteCriteria) (kind : Kind) : Prop :=
  kind ∈ nk_Exclude cr ∧ kindLookup_id lk kind = None.

Lemma addNodeKindCriteria_rep lk cr c P : nodes_rep c P → ∃ c' r, addNodeKindCriteria v lk cr c = Some (c', r) ∧
  match r with
  | inl _ => vc_edges c' = vc_edges c ∧ nodes_rep c' (λ n, P n ∨ deleted_node lk cr n) ∧ ∀ kind, ¬ unresolved lk cr kind
  | inr err => ∃ kind, unresolved lk cr kind ∧ err = ErrUnknownKind (kindName kind)
  end.
Proof.
  intros Hc. unfold addNodeKindCriteria. pose proof (exclude_ids_spec lk (nk_Exclude cr)) as Hex.
  destruct (exclude_ids lk (nk_Exclude cr)) as [exclude|err]; [|exists c, (inr err); split; [done|]; unfold unresolved; naive_solver].
  destruct Hex as [-> Hres]. set (exclude := omap (kindLookup_id lk) (nk_Exclude cr)).
  assert (∀ kind, ¬ unresolved lk cr kind) as Hun by (intros kind [[? ?]%Hres ?]; congruence).
  assert (∀ n, admitted exclude n ↔ ∃ id st, idx (view_ids v) n = Some id ∧ g_nodes G !! id = Some st ∧
    ∀ kind k, kind ∈ nk_Exclude cr → kindLookup_id lk kind = Some k → k ∉ st.1) as Had.
  { intros n. unfold admitted, exclude. setoid_rewrite list_elem_of_omap. naive_solver. }
  assert (∃ c', (if 0 <? len (nk_Include cr)
     then foldM (λ c kindID, b ← View_NodesOfKind v kindID; Bitset_Iterate b (consider v exclude) c) (omap (kindLookup_id lk) (nk_Include cr)) c
     else foldM (λ c n, '(c, _) ← consider v exclude (u32 n) c; Some c) (range 0 (View_NodeCount v)) c) = Some c' ∧
    vc_edges c' = vc_edges c ∧ nodes_rep c' (λ n, P n ∨ deleted_node lk cr n)) as (c' & -> & He & Hc').
  { destruct (N.ltb_spec 0 (len (nk_Include cr))) as [Hl|Hl].
    - destruct (cand_fold (λ c kindID, b ← View_NodesOfKind v kindID; Bitset_Iterate b (consider v exclude) c)
        (λ k n, admitted exclude n ∧ ∃ id, idx (view_ids v) n = Some id ∧ has_kind L Ds id k) (omap (kindLookup_id lk) (nk_Include cr)))
        with c P as (c' & -> & He & Hc'); [|done|].
      { intros k c0 P0 _ Hc0. destruct (NodesOfKind_graph v L Ds HR k) as (b & cap & -> & Hwf & _ & Hb). cbn [mbind option_bind].
        rewrite (Bitset_Iterate_spec cap) by done. rewrite iter_consider.
        destruct (consider_fold exclude (Bitset_elems b) c0 P0 Hc0) as (c1 & -> & He & Hc1). exists c1. split; [done|]. split; [done|].
        revert Hc1. apply cand_rep_ext. intros n. setoid_rewrite (elem_of_Bitset cap); [|done]. setoid_rewrite Hb. naive_solver. }
      exists c'. split; [done|]. split; [done|]. revert Hc'. apply cand_rep_ext. intros n. setoid_rewrite Had.
      setoid_rewrite list_elem_of_omap. unfold deleted_node, deletes, has_kind. fold G.
      assert (nk_Include cr ≠ []) as Hne by (intros E; rewrite E in Hl; unfold len in Hl; simpl in Hl; lia).
      naive_solver.
    - assert (nk_Include cr = []) as Hnil by (destruct (nk_Include cr); [done|unfold len in Hl; simpl in Hl; lia]).
      erewrite foldM_ext.
      2:{ intros s n Hn%elem_of_range. rewrite u32_small; [reflexivity|]. pose proof (vr_count _ _ _ HR). lia. }
      destruct (consider_fold exclude (range 0 (View_NodeCount v)) c P Hc) as (c' & -> & He & Hc').
      exists c'. split; [done|]. split; [done|]. revert Hc'. apply cand_rep_ext. intros n.
      setoid_rewrite elem_of_range. setoid_rewrite Had. unfold deleted_node, deletes. rewrite Hnil. split.
      + intros [?|(x & Hx & -> & id & st & ? & ? & ?)]; [by left|]. right. exists id, st. split_and!; [done..|by left|done].
      + intros [?|(id & st & Hid & ? & _ & ?)]; [by left|]. right. exists n. apply (dense_lt v) in Hid as Hlt.
        split; [lia|]. split; [done|]. by exists id, st. }
  exists c', (inl ()). done.
Qed.

Lemma node_criteria_rep lk crs c P : nodes_rep c P → ∃ c' r, go_for (addNodeKindCriteria v lk) crs c = Some (c', r) ∧
  match r with
  | inl _ => vc_edges c' = vc_edges c ∧ nodes_rep c' (λ n, P n ∨ ∃ cr, cr ∈ crs ∧ deleted_node lk cr n) ∧
      ∀ cr kind, cr ∈ crs → ¬ unresolved lk cr kind
  | inr err => ∃ cr kind, cr ∈ crs ∧ unresolved lk cr kind ∧ err = ErrUnknownKind (kindName kind)
  end.
Proof.
  revert c P. induction crs as [|cr crs IH]; intros c P Hc.
  { exists c, (inl ()). split; [done|]. split; [done|]. split; [|set_solver]. revert Hc. apply cand_rep_ext. set_solver. }
  rewrite go_for_cons. unfold go_bind.
  destruct (addNodeKindCriteria_rep lk cr c P Hc) as (c1 & [[]|err] & -> & Hr); cbn [mbind option_bind].
  - destruct Hr as (He1 & Hc1 & Hu1). destruct (IH c1 _ Hc1) as (c2 & r2 & -> & Hr2). exists c2, r2. split; [done|].
    destruct r2 as [|err].
    + destruct Hr2 as (He2 & Hc2 & Hu2). split; [congruence|]. split; [|intros cr' kind [->|?]%elem_of_cons; eauto].
      revert Hc2. apply cand_rep_ext. set_solver.
    + destruct Hr2 as (cr' & kind & ? & ?). exists cr', kind. split; [by right|done].
  - exists c1, (inr err). split; [done|]. destruct Hr as (kind & ? & ?). exists cr, kind. split; [left|done].
Qed.

(** The candidates' ids: the database ids of the set bits. *)
Lemma nodeIDs_rep c P : nodes_rep c P → (∀ n, P n → n < nc) →
  ∃ ids, nodeIDs v c = Some ids ∧ NoDup ids ∧ ∀ id, id ∈ ids ↔ ∃ n, P n ∧ idx (view_ids v) n = Some id.
Proof.
  intros [Hwf Hb] Hlt. unfold nodeIDs. destruct (vc_nodes c) as [b|].
  2:{ exists []. split; [done|]. split; [constructor|]. intros id. rewrite elem_of_nil. split; [done|].
      intros (n & Hn%Hb & _). done. }
  rewrite (Bitset_Iterate_spec nc) by done.
  rewrite (iter_until_ext _ (λ n ids, ids' ← (g ← View_GraphID v n; Some (ids ++ [g])); Some (ids', true)))
    by (intros n ids _; by destruct (View_GraphID v n)).
  rewrite iter_until_foldM. destruct (foldM_inv (λ pre ids, Forall2 (λ n g, View_GraphID v n = Some g) pre ids) (λ ids n, g ← View_GraphID v n; Some (ids ++ [g]))
    (Bitset_elems b) []) as (ids & -> & Hm); [done| |].
  { intros pre n post ids Hl Hpre. assert (n ∈ Bitset_elems b) as Hn by (rewrite Hl; apply elem_of_app; right; left).
    apply (elem_of_Bitset nc) in Hn; [|done]. apply Hb, Hlt in Hn. rewrite GraphID_spec.
    unfold nc in Hn. rewrite <- (len_view_ids v) in Hn. destruct (idx_is_Some _ _ Hn) as [g Hg]. rewrite Hg. cbn [mbind option_bind].
    eexists. split; [done|]. apply Forall2_app; [done|]. constructor; [by rewrite GraphID_spec|constructor]. }
  exists ids. split; [done|].
  assert (∀ id, id ∈ ids ↔ ∃ n, n ∈ Bitset_elems b ∧ View_GraphID v n = Some id) as Hel.
  { intros id. split.
    - intros [i Hi]%list_elem_of_lookup. destruct (Forall2_lookup_r _ _ _ _ _ Hm Hi) as (n & Hn%list_elem_of_lookup_2 & ?). eauto.
    - intros (n & [i Hi]%list_elem_of_lookup & Hg). destruct (Forall2_lookup_l _ _ _ _ _ Hm Hi) as (id' & Hid%list_elem_of_lookup_2 & ?). congruence. }
  split.
  - apply NoDup_alt. intros i j id Hi Hj. destruct (Forall2_lookup_r _ _ _ _ _ Hm Hi) as (n & Hn & Hg).
    destruct (Forall2_lookup_r _ _ _ _ _ Hm Hj) as (n' & Hn' & Hg'). rewrite GraphID_spec in Hg, Hg'.
    assert (n = n') as -> by (by eapply (dense_unique v L Ds HR)).
    eapply NoDup_lookup; [|done..]. by eapply sorted_lt_NoDup, Bitset_elems_sorted.
  - intros id. rewrite Hel. setoid_rewrite (elem_of_Bitset nc); [|done]. setoid_rewrite <- Hb. by setoid_rewrite GraphID_spec.
Qed.
End nodes.

(** ** The edges *)

(** One step of the walk over the segments, when the mask answers [want]. *)
Definition dstep (want : KindID → bool) (acc : gset N * list N) (x : N * EdgeSegState) : gset N * list N :=
  if bool_decide (x.1 ∈ acc.1) then acc
  else ({[x.1]} ∪ acc.1, if negb (es_Tombstoned x.2) && want (es_Kind x.2) then acc.2 ++ [x.1] else acc.2).
Definition bstep (want : KindID → bool) (decided : gset N) (edges : list N) (x : KindID * N) : list N :=
  if want x.1 && negb (bool_decide (x.2 ∈ decided)) then edges ++ [x.2] else edges.

(** The first state of an id decides. *)
Lemma dstep_spec want X :
  let '(decided, edges) := foldl (dstep want) (∅, []) X in
  decided = list_to_set X.*1 ∧ NoDup edges ∧
  ∀ e, e ∈ edges ↔ ∃ st, (list_to_map X : gmap N EdgeSegState) !! e = Some st ∧ es_Tombstoned st = false ∧ want (es_Kind st) = true.
Proof.
  induction X as [|[e st] X IH] using rev_ind; [split; [done|]; split; [constructor|]; set_solver|].
  rewrite foldl_app. simpl. destruct (foldl (dstep want) (∅, []) X) as [decided edges]. destruct IH as (-> & Hnd & He).
  assert (∀ e', (list_to_map (X ++ [(e, st)]) : gmap N EdgeSegState) !! e' =
    match (list_to_map X : gmap N EdgeSegState) !! e' with Some st' => Some st' | None => if bool_decide (e = e') then Some st else None end) as Hl.
  { intros e'. rewrite list_to_map_app, lookup_union. simpl. rewrite lookup_insert, lookup_empty.
    destruct (list_to_map X !! e'); [by rewrite union_Some_l|]. rewrite (left_id None _). repeat case_decide; by case_bool_decide. }
  unfold dstep. simpl. case_bool_decide as Hin; rewrite elem_of_list_to_set in Hin.
  - split; [|split; [done|]].
    + rewrite fmap_app, list_to_set_app_L. simpl. set_solver.
    + intros e'. rewrite He, Hl. destruct (list_to_map X !! e') eqn:E; [done|]. case_bool_decide as Ee; [|done].
      subst. by apply not_elem_of_list_to_map in E.
  - assert ((list_to_map X : gmap N EdgeSegState) !! e = None) as Hn by (by apply not_elem_of_list_to_map).
    assert (e ∉ edges) as Hne by (rewrite He, Hn; naive_solver).
    split; [rewrite fmap_app, list_to_set_app_L; simpl; set_solver|]. split.
    + destruct (negb _ && _); [|done]. apply NoDup_app. split; [done|]. split; [set_solver|apply NoDup_singleton].
    + intros e'. rewrite Hl. destruct (decide (e = e')) as [<-|Hee].
      * rewrite Hn, bool_decide_eq_true_2 by done. destruct (es_Tombstoned st) eqn:Et, (want (es_Kind st)) eqn:Ew; simpl;
          rewrite ?elem_of_app, ?list_elem_of_singleton; naive_solver congruence.
      * rewrite bool_decide_eq_false_2 by done. destruct (negb _ && _); [rewrite elem_of_app, list_elem_of_singleton|]; rewrite He;
          destruct (list_to_map X !! e'); naive_solver.
Qed.

Lemma bstep_spec want decided edges l : NoDup l.*2 → NoDup edges → (∀ e, e ∈ edges → e ∈ decided) →
  let edges' := foldl (bstep want decided) edges l in (
  NoDup edges' ∧ ∀ e, e ∈ edges' ↔ e ∈ edges ∨ (¬ (e ∈ decided) ∧ ∃ k, (k, e) ∈ l ∧ want k = true)).
Proof.
  intros Hl Hnd Hd. induction l as [|[k e] l IH] using rev_ind; [split; [done|]; set_solver|].
  rewrite fmap_app in Hl. simpl in Hl. apply NoDup_app in Hl as (Hl & Hn & _). destruct (IH Hl) as [IH1 IH2].
  rewrite foldl_app. simpl. set (edges1 := foldl _ edges l) in *. unfold bstep. simpl.
  assert (∀ e' k', (k', e') ∈ l ++ [(k, e)] ↔ (k', e') ∈ l ∨ (k' = k ∧ e' = e)) as Hs.
  { intros e' k'. rewrite elem_of_app, list_elem_of_singleton. naive_solver. }
  setoid_rewrite Hs. destruct (want k) eqn:Ew; simpl.
  - case_bool_decide as Hin; simpl; [split; [done|]; intros e'; rewrite IH2; naive_solver|]. split.
    + apply NoDup_app. split; [done|]. split; [|apply NoDup_singleton]. intros e' He' ->%list_elem_of_singleton.
      apply IH2 in He' as [He'%Hd|(_ & k' & Hk & _)]; [done|].
      apply (Hn e); [|left]. apply list_elem_of_fmap. by exists (k', e).
    + intros e'. rewrite elem_of_app, list_elem_of_singleton, IH2. naive_solver.
  - split; [done|]. intros e'. rewrite IH2. split; [intros [?|(? & k' & ? & ?)]; [by left|right; eauto]|].
    intros [?|(? & k' & [?|[-> ->]] & ?)]; [by left|right; eauto|congruence].
Qed.

(** The kinds a criteria list names, as the lookup resolves them. *)
Definition wanted_kinds (lk : kindLookup) (criteria : list Kinds_list) : list KindID := omap (kindLookup_id lk) (concat criteria).

Lemma wanted_mask w wanted : (∀ k, k ∈ w :: wanted → 0 ≤ k < 2 ^ 15)%Z →
  ∃ m m', NewKindMask (foldl Z.max w (w :: wanted)) = Some m ∧ foldM KindMask_Set (w :: wanted) m = Some m' ∧
    ∀ k, KindMask_Has m' k = Some (bool_decide (k ∈ w :: wanted)).
Proof.
  intros Hk. assert (∀ l a, (a ≤ foldl Z.max a l)%Z ∧ (∀ k, k ∈ l → (k ≤ foldl Z.max a l)%Z) ∧ (foldl Z.max a l = a ∨ foldl Z.max a l ∈ l)) as Hmax.
  { clear. induction l as [|x l IH]; intros a; simpl; [split; [lia|]; split; [set_solver|by left]|].
    destruct (IH (Z.max a x)) as (H1 & H2 & H3). split; [lia|]. split.
    - intros k [->|Hkl]%elem_of_cons; [lia|by apply H2].
    - destruct H3 as [->|H3]; [|right; by right]. destruct (Z.max_spec a x) as [[_ ->]|[_ ->]]; [right; left|by left]. }
  destruct (Hmax (w :: wanted) w) as (H1 & H2 & H3). set (mx := foldl Z.max w (w :: wanted)) in *.
  assert (0 ≤ mx < 2 ^ 15)%Z as Hmx by (destruct H3 as [->|H3]; [apply Hk; left|by apply Hk]).
  destruct (NewKindMask_wf mx Hmx) as (m & Em & Hwf & Hm & Hno). exists m.
  destruct (foldM_inv (λ pre m', KindMask_wf m' ∧ mmax m' = mx ∧ ∀ k, KindMask_Has m' k = Some (bool_decide (k ∈ pre))) KindMask_Set (w :: wanted) m)
    as (m' & Em' & _ & _ & Hhas).
  - split_and!; [done..|]. intros k. rewrite Hno. by rewrite bool_decide_eq_false_2 by apply not_elem_of_nil.
  - intros pre k post m0 El (Hwf0 & Hm0 & Hh0). destruct (KindMask_Set_spec m0 k Hwf0) as (m1 & -> & Hwf1 & Hm1 & Hh1).
    exists m1. split; [done|]. split; [done|]. split; [congruence|]. intros k'. rewrite Hh1, Hh0.
    assert (k ∈ w :: wanted) as Hin by (rewrite El; apply elem_of_app; right; left).
    pose proof (Hk k Hin). pose proof (H2 k Hin).
    repeat case_bool_decide; try done; exfalso; set_solver by lia.
  - by exists m'.
Qed.

Section edges.
Context `{GoStd}.
Context (v : View) (L : layout) (Ds : list delta) (HR : View_rep v L Ds).
Let G := view_graph L Ds.
Let D := delta_all Ds.
Let HP := rep_packed _ _ (vr_base _ _ _ HR).

(** All the segments' states, the newest first. *)
Definition newest_first (segs : list Segment) : list (N * EdgeSegState) := concat (seg_edges <$> reverse segs).

Lemma list_to_map_seg s D0 : Segment_rep s D0 → (list_to_map (seg_edges s) : gmap N EdgeSegState) = sg_edgeStates s.
Proof.
  intros Hs. apply map_eq. intros e. destruct (sg_edgeStates s !! e) as [st|] eqn:E.
  - apply elem_of_list_to_map.
    + unfold seg_edges. rewrite <- list_fmap_compose. simpl. rewrite list_fmap_id. apply sorted_lt_NoDup, (sr_esorted _ _ Hs).
    + unfold seg_edges. apply list_elem_of_fmap. exists e. rewrite E. split; [done|]. apply (sr_eids _ _ Hs). by eexists.
  - apply not_elem_of_list_to_map. unfold seg_edges. rewrite <- list_fmap_compose. simpl. rewrite list_fmap_id.
    intros [st Hst]%(sr_eids _ _ Hs). congruence.
Qed.

Lemma newest_first_delta segs Ds' : Forall2 Segment_rep segs Ds' →
  edge_abs <$> (list_to_map (newest_first segs) : gmap N EdgeSegState) = d_edges (delta_all Ds').
Proof.
  revert Ds'. induction segs as [|s segs IH] using rev_ind; intros Ds' HF.
  { apply Forall2_nil_inv_l in HF as ->. apply fmap_empty. }
  apply Forall2_app_inv_l in HF as (Ds0 & D1 & HF & (D0 & ? & Hs & ->%Forall2_nil_inv_l & ->)%Forall2_cons_inv_l & ->).
  unfold newest_first. rewrite reverse_snoc, fmap_cons. simpl. fold (newest_first segs).
  rewrite list_to_map_app, map_fmap_union, (list_to_map_seg _ _ Hs), (IH _ HF).
  unfold delta_all. rewrite foldl_app. simpl. by rewrite (sr_edges _ _ Hs).
Qed.

(** The slots of the base, one after the other. *)
Definition slot_kinds : list (KindID * N) := (λ e : oedge, (oe_kind e, oe_id e)) <$> concat (lo_out L).
Lemma base_slots want mask decided edges : (∀ k, KindMask_Has mask k = Some (want k)) →
  foldM (base_slot_edge (v_base v) mask decided) (zip (range 0 (len (OutKinds (v_base v)))) (OutKinds (v_base v))) edges =
  Some (foldl (bstep want decided) edges slot_kinds).
Proof.
  intros Hw. rewrite (pk_kinds _ _ HP), len_fmap. unfold slot_kinds.
  enough (∀ post pre edges, concat (lo_out L) = pre ++ post →
    foldM (base_slot_edge (v_base v) mask decided) (zip (range (len pre) (len pre + len post)) (oe_kind <$> post)) edges =
    Some (foldl (bstep want decided) edges ((λ e : oedge, (oe_kind e, oe_id e)) <$> post))) as Hp.
  { specialize (Hp (concat (lo_out L)) [] edges eq_refl). exact Hp. }
  induction post as [|e post IH]; intros pre edges0 El.
  { by rewrite len_nil, N.add_0_r, range_nil. }
  rewrite range_cons by (rewrite len_cons; lia). rewrite !fmap_cons. cbn [zip zip_with foldM].
  assert (idx (OutEdgeIDs (v_base v)) (len pre) = Some (oe_id e)) as Hid.
  { rewrite (pk_eids _ _ HP), El, fmap_app, fmap_cons. rewrite <- (len_fmap oe_id pre), idx_app_r by lia.
    by rewrite N.sub_diag. }
  assert (base_slot_edge (v_base v) mask decided edges0 (len pre, oe_kind e) = Some (bstep want decided edges0 (oe_kind e, oe_id e))) as ->.
  { unfold base_slot_edge, bstep. cbn [fst snd]. rewrite Hw, Hid. cbn [mbind option_bind].
    destruct (want (oe_kind e)); simpl; [|done]. by case_bool_decide. }
  cbn [mbind option_bind foldl]. specialize (IH (pre ++ [e]) (bstep want decided edges0 (oe_kind e, oe_id e))).
  rewrite len_app, len_cons, len_nil in IH. rewrite len_cons.
  replace (len pre + (len post + 1)) with (len pre + (0 + 1) + len post) by lia. rewrite N.add_0_l in *.
  apply IH. by rewrite <- app_assoc.
Qed.
Lemma base_kind_edge k e : (k, e) ∈ slot_kinds ↔ ∃ a b, g_edges (base_graph L) !! e = Some (a, b, k).
Proof.
  setoid_rewrite base_edge; [|apply (vr_edge_ids _ _ _ HR)].
  unfold slot_kinds. rewrite list_elem_of_fmap. split.
  - intros (o & [= -> ->] & Ho). apply elem_of_idx in Ho as [p Hp]. apply idx_lt in Hp as Hlt. rewrite <- len_slots in Hlt.
    destruct (idx_is_Some _ _ Hlt) as [[[i j] o'] Hs]. pose proof (idx_slots _ _ _ _ _ Hs) as (_ & Ho' & _).
    rewrite Hp in Ho'. injection Ho' as <-. eexists _, _, i, j, o. split; [by eapply idx_elem_of|]. reflexivity.
  - intros (a & b & i & j & o & Hin & E). injection E as <- _ _ <-. exists o. split; [done|].
    apply elem_of_idx in Hin as [p Hp]. apply idx_slots in Hp as (_ & Ho & _). by eapply idx_elem_of.
Qed.

Lemma wanted_edges want mask : (∀ k, KindMask_Has mask k = Some (want k)) → ∃ decided edges edges',
  foldM (λ acc seg, IterEdges seg (decide_edge mask) acc) (reverse (v_segments v)) (∅, []) = Some (decided, edges) ∧
  foldM (base_slot_edge (v_base v) mask decided) (zip (range 0 (len (OutKinds (v_base v)))) (OutKinds (v_base v))) edges = Some edges' ∧
  NoDup edges' ∧ ∀ e, e ∈ edges' ↔ ∃ a b k, g_edges G !! e = Some (a, b, k) ∧ want k = true.
Proof.
  intros Hw. assert (∀ seg acc, IterEdges seg (decide_edge mask) acc = Some (foldl (dstep want) acc (seg_edges seg))) as Hit.
  { intros seg acc. unfold IterEdges. rewrite <- (iter_until_pure (dstep want)). apply iter_until_ext.
    intros [e st] [decided edges] _. unfold decide_edge, dstep. simpl. case_bool_decide; [done|]. rewrite Hw.
    by destruct (es_Tombstoned st), (want (es_Kind st)). }
  pose proof (dstep_spec want (newest_first (v_segments v))) as Hd.
  destruct (foldl (dstep want) (∅, []) (newest_first (v_segments v))) as [decided edges] eqn:Ed. destruct Hd as (Hdec & Hnd & He).
  assert (foldM (λ acc seg, IterEdges seg (decide_edge mask) acc) (reverse (v_segments v)) (∅, []) = Some (decided, edges)) as Es.
  { rewrite <- Ed. unfold newest_first. generalize (∅ : gset N, [] : list N). induction (reverse (v_segments v)) as [|s l IH]; intros acc; [done|].
    simpl. rewrite Hit. cbn [mbind option_bind]. rewrite IH. by rewrite foldl_app. }
  set (l := slot_kinds).
  assert (∀ edges, foldM (base_slot_edge (v_base v) mask decided) (zip (range 0 (len (OutKinds (v_base v)))) (OutKinds (v_base v))) edges =
    Some (foldl (bstep want decided) edges l)) as Eb by (intros edges0; by apply base_slots).
  exists decided, edges, (foldl (bstep want decided) edges l). rewrite Es, Eb. split; [done|]. split; [done|].
  pose proof (newest_first_delta _ _ (vr_segs _ _ _ HR)) as Hnf. fold D in Hnf.
  assert (∀ e, e ∈ decided ↔ is_Some (d_edges D !! e)) as Hde.
  { intros e. rewrite Hdec, elem_of_list_to_set, <- Hnf, lookup_fmap, fmap_is_Some, <- not_eq_None_Some, <- not_elem_of_list_to_map.
    split; [tauto|apply dec_stable]. }
  destruct (bstep_spec want decided edges l) as [H1 H2].
  - unfold l, slot_kinds. rewrite <- list_fmap_compose. change (NoDup (oe_id <$> concat (lo_out L))).
    rewrite <- lo_edges_ids. apply (vr_edge_ids _ _ _ HR).
  - done.
  - intros e (st & Hst & _)%He. apply Hde. rewrite <- Hnf, lookup_fmap, Hst. by eexists.
  - split; [done|]. intros e. rewrite H2, He, Hde. unfold G. rewrite graph_edges. fold D. rewrite <- Hnf, lookup_fmap.
    destruct (list_to_map _ !! e) as [st|]; simpl.
    + unfold edge_abs. split.
      * intros [(st' & [= <-] & -> & Hk)|[[] _]]; [by eauto 6|by eexists].
      * destruct (es_Tombstoned st) eqn:Et; [naive_solver|]. intros (a & b & k & [= <- <- <-] & Hk). left. eauto.
    + split.
      * intros [(st' & ? & _)|(_ & k & (a & b & Hk)%base_kind_edge & ?)]; [done|]. eauto.
      * intros (a & b & k & Hk & ?). right. split; [by intros [? ?]|]. exists k. split; [|done]. apply base_kind_edge. eauto.
Qed.
End edges.

(** ** All candidates *)

Section collect.
Context `{GoStd}.
Context (v : View) (L : layout) (Ds : list delta) (HR : View_rep v L Ds).
Let G := view_graph L Ds.

Lemma addEdgeKindCriteria_rep lk criteria ns : (∀ k, k ∈ wanted_kinds lk criteria → 0 ≤ k < 2 ^ 15)%Z →
  ∃ es, addEdgeKindCriteria v lk criteria (mkCandidates ns []) = Some (mkCandidates ns es) ∧
    NoDup es ∧ ∀ e, e ∈ es ↔ ∃ a b k, g_edges G !! e = Some (a, b, k) ∧ k ∈ wanted_kinds lk criteria.
Proof.
  intros Hk. unfold addEdgeKindCriteria, wanted_kinds in *. destruct (omap _ _) as [|w wanted].
  { exists []. split; [done|]. split; [constructor|]. set_solver. }
  destruct (wanted_mask w wanted Hk) as (m & m' & -> & Em & Hh). cbn [mbind option_bind]. rewrite Em. cbn [mbind option_bind vc_edges vc_nodes].
  destruct (wanted_edges v L Ds HR _ _ Hh) as (decided & edges & es & -> & E2 & Hnd & He). cbn [mbind option_bind]. rewrite E2. exists es. split; [done|]. split; [done|].
  intros e. rewrite He. by setoid_rewrite bool_decide_eq_true.
Qed.

(** The nodes whose removal the change set may mean. *)
Definition node_candidate (lk : kindLookup) (cs : ChangeSet) (absent : list string) (st : node_state) : Prop :=
  (∃ oid, oid ∈ absent ∧ bag_objectid st.2 = Some oid) ∨ ∃ cr, cr ∈ NodeKindCriteria cs ∧ deletes lk cr st.

Lemma newKindLookup_total kinds : is_Some (newKindLookup v kinds).
Proof. unfold newKindLookup. destruct (View_Kinds_graph v L Ds HR) as (t & -> & _). by eexists. Qed.

Lemma collectViewCandidates_spec kinds cs absent lk : newKindLookup v kinds = Some lk →
  (∀ k, k ∈ wanted_kinds lk (EdgeKindCriteria cs) → 0 ≤ k < 2 ^ 15)%Z →
  ∃ r, collectViewCandidates v kinds cs absent = Some r ∧
    match r with
    | inr err => ∃ cr kind, cr ∈ NodeKindCriteria cs ∧ unresolved lk cr kind ∧ err = ErrUnknownKind (kindName kind)
    | inl c => (∀ cr kind, cr ∈ NodeKindCriteria cs → ¬ unresolved lk cr kind) ∧
        (∃ ids, nodeIDs v c = Some ids ∧ NoDup ids ∧
          ∀ id, id ∈ ids ↔ ∃ st, g_nodes G !! id = Some st ∧ node_candidate lk cs absent st) ∧
        NoDup (vc_edges c) ∧
        ∀ e, e ∈ vc_edges c ↔ ∃ a b k, g_edges G !! e = Some (a, b, k) ∧ k ∈ wanted_kinds lk (EdgeKindCriteria cs)
    end.
Proof.
  intros Elk Hk. unfold collectViewCandidates.
  assert (nodes_rep v (mkCandidates None []) (λ _, False)) as H0 by (split; done).
  destruct (cand_fold v L Ds HR (addObjectID v) (λ oid n, ∃ id, idx (view_ids v) n = Some id ∧ graph_objectid L Ds id = Some oid) absent
    (λ x c P _ Hc, addObjectID_rep v L Ds HR c P x Hc) _ _ H0) as (c1 & -> & He1 & Hc1). cbn [mbind option_bind].
  rewrite Elk. cbn [mbind option_bind].
  destruct (node_criteria_rep v L Ds HR lk (NodeKindCriteria cs) c1 _ Hc1) as (c2 & [[]|err] & -> & Hr); cbn [mbind option_bind].
  2:{ by eexists. }
  destruct Hr as (He2 & Hc2 & Hun). destruct c2 as [ns es2]. simpl in He2. rewrite He1 in He2. simpl in He2. subst es2.
  destruct (addEdgeKindCriteria_rep lk (EdgeKindCriteria cs) ns Hk) as (es & -> & Hnd & Hes). cbn [mbind option_bind].
  eexists. split; [done|]. split; [done|]. split; [|done].
  destruct (nodeIDs_rep v L Ds HR (mkCandidates ns es) _ Hc2) as (ids & E & Hndi & Hids).
  { intros n [[[]|(oid & _ & id & Hid & _)]|(cr & _ & id & st & Hid & _)]; by apply (dense_lt v) in Hid. }
  exists ids. split; [done|]. split; [done|]. intros id. rewrite Hids. unfold node_candidate, deleted_node, graph_objectid. fold G. split.
  - intros (n & [[[]|(oid & Ho & id' & Hid' & Hoid)]|(cr & Hcr & id' & st & Hid' & Hst & Hd)] & Hid); simplify_eq.
    + destruct (g_nodes G !! id') as [st|] eqn:E'; [|done]. exists st. split; [done|]. left. eauto.
    + exists st. split; [done|]. right. eauto.
  - intros (st & Hst & Hc). destruct (node_numbered v L Ds HR _ _ Hst) as [n Hn]. exists n. split; [|done].
    destruct Hc as [(oid & Ho & Hoid)|(cr & Hcr & Hd)].
    + left. right. exists oid. split; [done|]. exists id. by rewrite Hst.
    + right. exists cr. split; [done|]. by exists id, st.
Qed.
End collect.
