(* ===== verification/Readback.v ===== *)
(** * Reading the database back

    [internal/engine/readback.go] and the batch query of [hydrate.go]: after a
    write, [readBack] asks PostgreSQL for the present state of every row the
    write may have touched.

    A database is its three tables, as far as the queries name them; the n-th
    query of a read-back sees the database [answers n], or fails. Rows come in
    the order of [map_to_list]. [properties->>'objectid'] is a parameter,
    [pg_objectid].

    What it returns when the database is at rest is in ReadbackRuns.v and
    ReadbackSpec.v. *)

From S2P Require Import Prelude Bitset Csr Kinds Props Snapshot Builder Segment ParseProps View ViewAdj ViewKinds ChangeSet Apply Candidates.
From Stdlib Require Import Ascii.
From stdpp Require Import options.
Unset Default Proof Using.
#[local] Open Scope N_scope.

(** ** Definitions *)

(** *** The tables *)

Record dbNode := mkDbNode { dn_kind_ids : list KindID; dn_properties : bytes }.
(** The rows of one graph, and the kind table. *)
Record database := mkDatabase {
  db_node : gmap N dbNode;
  db_edge : gmap N edge_state;
  db_kind : gmap KindID string;
}.

(** A [uint64] as an [int64]. *)
Definition int64 (x : N) : Z := ((Z.of_N x + 2 ^ 63) mod 2 ^ 64 - 2 ^ 63)%Z.

Definition readbackNodeIDChunk : N := 50000.
Definition readbackObjectIDChunk : N := 5000.
Definition readbackEdgeFanoutCap : N := readbackObjectIDChunk.
Definition edgeBatchSize : N := 500.
Definition unresolvableOIDEndpointFallback : string :=
  "read-back: both objectid-keyed endpoints of a clean commit's edge resolve to no node".
Definition edgeFanoutCapFallback : string :=
  "read-back: an objectid-keyed edge's one nameable endpoint carries more edges of that kind than read-back will scan".

Definition edgeKey : Type := N * N * KindID.
Definition edgeEndpointSide := N.
Definition edgeStartSide : edgeEndpointSide := 0.
Definition edgeEndSide : edgeEndpointSide := 1.
Definition fanoutGroup : Type := edgeEndpointSide * KindID.
Record endpointFanout := mkFanout { ef_side : edgeEndpointSide; ef_kindID : KindID; ef_ids : list N }.

(** *** Sorting what was found *)

Section sorted.
Context `{GoStd}.

Definition sortedNodeStates (m : gmap N nodeState) : list nodeState :=
  if (size m =? 0)%nat then [] else go_sort (less_key nst_id) (map_to_list m).*2.
Definition sortedEdgeStates (m : gmap N edgeState) : list edgeState :=
  if (size m =? 0)%nat then [] else go_sort (less_key est_id) (map_to_list m).*2.
Definition less_tripleKey (a b : N * N * Z) : bool :=
  if negb (a.1.1 =? b.1.1) then a.1.1 <? b.1.1
  else if negb (a.1.2 =? b.1.2) then a.1.2 <? b.1.2
  else (a.2 <? b.2)%Z.
(** The keys of [absentTriples] are triples. *)
Definition sortedTripleKeys (m : gset (N * N * Z)) : list tripleKey :=
  if (size m =? 0)%nat then []
  else (λ '(s, e, k), mkTripleKey s e k) <$> go_sort less_tripleKey (elements m).

Definition less_fanout (a b : endpointFanout) : bool :=
  if negb (ef_side a =? ef_side b) then ef_side a <? ef_side b else (ef_kindID a <? ef_kindID b)%Z.
Definition sortedFanouts (grouped : gmap fanoutGroup (gset N)) : list endpointFanout :=
  if (size grouped =? 0)%nat then []
  else go_sort less_fanout
    ((λ '(group, members), mkFanout group.1 group.2 (go_sort (less_key (λ id : N, id)) (elements members))) <$> map_to_list grouped).
End sorted.

Fixpoint dedupe_loop (seen : gset N) (ids : list N) : list N :=
  match ids with
  | [] => []
  | id :: ids' => if bool_decide (id ∈ seen) then dedupe_loop seen ids' else id :: dedupe_loop ({[id]} ∪ seen) ids'
  end.
Definition dedupeUint64s (ids : list N) : list N := dedupe_loop ∅ ids.

(** *** The queries *)

Section queries.
Context `{GoStd} `{JsonStd}.
Context (pg_objectid : bytes → option string).
Context (answers : nat → option database).

Definition query : go nat database := λ n,
  Some (S n, match answers n with Some d => inl d | None => inr ErrQuery end).

(** [for lo := 0; lo < len(ids); lo += chunk { ... ids[lo:hi] ... }], left early
    when [stop] holds after a round. *)
Fixpoint chunk_loop {A X} (fuel : nat) (stop : X → bool) (chunk lo : N) (ids : list A) (f : list A → X → go nat X) (out : X) : go nat X :=
  match fuel with
  | O => go_ret out
  | S fuel =>
      if lo <? len ids then
        let hi := if len ids <? lo + chunk then len ids else lo + chunk in
        (let! batch := go_lift (slice ids lo hi) in
         let! out := f batch out in
         if stop out then go_ret out else chunk_loop fuel stop chunk (lo + chunk) ids f out)%go
      else go_ret out
  end.
Definition chunked {A X} (stop : X → bool) (chunk : N) (ids : list A) (f : list A → X → go nat X) (out : X) : go nat X :=
  chunk_loop (S (length ids)) stop chunk 0 ids f out.
Definition go_on {X} (out : X) : bool := false.

Definition rows_by_id {V} (batch : list N) (t : gmap N V) : list (N * V) :=
  filter (λ r, Z.of_N r.1 ∈ int64 <$> batch) (map_to_list t).

Definition readBackNodesByIDBatch (batch : list N) (out : gmap N nodeState) : go nat (gmap N nodeState) :=
  (let! d := query in
   go_ret (foldl (λ out '(id, n), <[id := mkNodeState id (dn_kind_ids n) (dn_properties n)]> out) out (rows_by_id batch (db_node d))))%go.
Definition readBackNodesByID (ids : list N) : go nat (gmap N nodeState) :=
  chunked go_on readbackNodeIDChunk ids readBackNodesByIDBatch ∅.

Definition objectIDFromProps (propsJSON : bytes) : option string :=
  if len propsJSON =? 0 then None
  else raw ← unmarshal_raw propsJSON; val ← raw !! "objectid"; string_of_bytes <$> unmarshal_string val.

Definition oid_in (batch : list string) (n : dbNode) : bool :=
  match pg_objectid (dn_properties n) with Some o => bool_decide (o ∈ batch) | None => false end.
Definition oid_rows (batch : list string) (t : gmap N dbNode) : list (N * dbNode) :=
  filter (λ r, oid_in batch r.2 = true) (map_to_list t).
(** The rows found, and the ids by the objectid Go reads out of them. *)
Definition oid_row (acc : list nodeState * gmap string (list N)) (r : N * dbNode) : list nodeState * gmap string (list N) :=
  let '(rows, oidToIDs) := acc in
  let ns := mkNodeState r.1 (dn_kind_ids r.2) (dn_properties r.2) in
  (rows ++ [ns], match objectIDFromProps (dn_properties r.2) with
                 | Some oid => <[oid := default [] (oidToIDs !! oid) ++ [nst_id ns]]> oidToIDs
                 | None => oidToIDs end).
Definition readBackNodesByObjectIDBatch (batch : list string) (out : list nodeState * gmap string (list N))
    : go nat (list nodeState * gmap string (list N)) :=
  (let! d := query in go_ret (foldl oid_row out (oid_rows batch (db_node d))))%go.
Definition readBackNodesByObjectID (objectIDs : list string) : go nat (list nodeState * gmap string (list N)) :=
  chunked go_on readbackObjectIDChunk objectIDs readBackNodesByObjectIDBatch ([], ∅).

Definition edge_row (r : N * edge_state) : edgeState := mkEdgeState r.1 r.2.1.1 r.2.1.2 r.2.2.
Definition readBackEdgesByIDBatch (batch : list N) (out : gmap N edgeState) : go nat (gmap N edgeState) :=
  (let! d := query in go_ret (foldl (λ out r, <[r.1 := edge_row r]> out) out (rows_by_id batch (db_edge d))))%go.
Definition readBackEdgesByID (ids : list N) : go nat (gmap N edgeState) :=
  chunked go_on readbackNodeIDChunk ids readBackEdgesByIDBatch ∅.

(** [(start_id, end_id, kind_id) IN (VALUES ...)]. *)
Definition sql_key (k : edgeKey) : Z * Z * KindID := (int64 k.1.1, int64 k.1.2, k.2).
Definition triple_rows (batch : list edgeKey) (t : gmap N edge_state) : list (N * edge_state) :=
  filter (λ r, (Z.of_N r.2.1.1, Z.of_N r.2.1.2, r.2.2) ∈ sql_key <$> batch) (map_to_list t).
Definition readBackEdgeTripleBatch (batch : list edgeKey) (out : gmap edgeKey edgeState) : go nat (gmap edgeKey edgeState) :=
  (let! d := query in go_ret (foldl (λ out r, <[r.2 := edge_row r]> out) out (triple_rows batch (db_edge d))))%go.
Definition readBackEdgesByTriple (keys : list edgeKey) : go nat (gmap edgeKey edgeState) :=
  chunked go_on edgeBatchSize keys readBackEdgeTripleBatch ∅.

Definition column (side : edgeEndpointSide) (x : edge_state) : N := if side =? edgeStartSide then x.1.1 else x.1.2.
Definition endpoint_rows (side : edgeEndpointSide) (kindID : KindID) (batch : list N) (t : gmap N edge_state) : list (N * edge_state) :=
  filter (λ r, Z.of_N (column side r.2) ∈ int64 <$> batch ∧ r.2.2 = kindID) (map_to_list t).
Definition readBackEdgeEndpointBatch (side : edgeEndpointSide) (kindID : KindID) (batch : list N) (out : gmap N edgeState)
    : go nat (gmap N edgeState) :=
  (let! d := query in
   go_ret (foldl (λ out r, <[r.1 := edge_row r]> out) out
     (take (S (N.to_nat readbackEdgeFanoutCap)) (endpoint_rows side kindID batch (db_edge d)))))%go.
Definition over_cap (group : gmap N edgeState) : bool := readbackEdgeFanoutCap <? N.of_nat (size group).
Fixpoint fanout_loop (fanouts : list endpointFanout) (acc : gmap N edgeState * bool) : go nat (gmap N edgeState * bool) :=
  match fanouts with
  | [] => go_ret acc
  | fanout :: fanouts' =>
      (let! group := chunked over_cap readbackNodeIDChunk (ef_ids fanout) (readBackEdgeEndpointBatch (ef_side fanout) (ef_kindID fanout)) ∅ in
       fanout_loop fanouts' (if over_cap group then (acc.1, true) else (group ∪ acc.1, acc.2)))%go
  end.
Definition readBackEdgesByEndpoint (fanouts : list endpointFanout) : go nat (list edgeState * bool) :=
  match fanouts with
  | [] => go_ret ([], false)
  | _ => (let! (found, overCap) := fanout_loop fanouts (∅, false) in go_ret (sortedEdgeStates found, overCap))%go
  end.

(** *** Kinds *)

Definition idsByName (names : list string) : go nat (gmap string KindID) :=
  (let! d := query in
   go_ret (foldl (λ out '(id, name), <[name := id]> out) ∅ (filter (λ r, r.2 ∈ names) (map_to_list (db_kind d)))))%go.
Definition namesByID (ids : list KindID) : go nat (gmap KindID string) :=
  (let! d := query in
   go_ret (foldl (λ out '(id, name), <[id := name]> out) ∅ (filter (λ r, r.1 ∈ ids) (map_to_list (db_kind d)))))%go.

(** The kinds a view knows, by id and by name; a nil view knows none. *)
Definition kindKnownToView (view : option View) (id : KindID) : option bool :=
  match view with
  | None => Some false
  | Some v => t ← View_Kinds v; Some (bool_decide (is_Some (KindTable_Name t id)))
  end.
Definition viewKindID (view : option View) (name : string) : option (option KindID) :=
  match view with None => Some None | Some v => t ← View_Kinds v; Some (KindTable_ID t name) end.

(** One round: what the view resolves, and the names it does not know. *)
Definition resolve_step (view : option View) (acc : gmap string KindID * gset string * list string) (kind : Kind)
    : option (gmap string KindID * gset string * list string) :=
  let '(resolved, seen, missing) := acc in
  match kind with
  | None => Some acc
  | Some name =>
      if bool_decide (name ∈ seen) then Some acc
      else
        let seen := {[name]} ∪ seen in
        r ← viewKindID view name;
        Some (match r with
              | Some id => (<[name := id]> resolved, seen, missing)
              | None => (resolved, seen, missing ++ [name])
              end)
  end.
Definition resolveKindIDs (view : option View) (kinds : list Kind) : go nat (gmap string KindID) :=
  (let! (resolved, _, missing) := go_lift (foldM (resolve_step view) kinds (∅, ∅, [])) in
   if len missing =? 0 then go_ret resolved
   else let! ids := idsByName missing in
        go_ret (foldl (λ resolved name, match ids !! name with Some id => <[name := id]> resolved | None => resolved end) resolved missing))%go.

Definition collect_unknown (view : option View) (kinds : Kinds_list) (unknown : Kinds_list) : option Kinds_list :=
  foldM (λ unknown kind, r ← viewKindID view (kindName kind);
         Some (match r with Some _ => unknown | None => unknown ++ [kind] end)) kinds unknown.
Definition resolveCriteriaKinds (view : option View) (cs : ChangeSet) : go nat (gmap KindID string) :=
  (let! unknown := go_lift (
     unknown ← foldM (λ unknown cr, unknown ← collect_unknown view (nk_Include cr) unknown;
                                    collect_unknown view (nk_Exclude cr) unknown) (NodeKindCriteria cs) [];
     foldM (λ unknown kinds, collect_unknown view kinds unknown) (EdgeKindCriteria cs) unknown) in
   if len unknown =? 0 then go_ret ∅
   else let! ids := resolveKindIDs view unknown in
        go_ret (foldl (λ resolved '(name, id), <[id := name]> resolved) ∅ (map_to_list ids)))%go.

Definition unknown_kind (view : option View) (unknown : gset KindID) (kindID : KindID) : option (gset KindID) :=
  known ← kindKnownToView view kindID; Some (if (known : bool) then unknown else {[kindID]} ∪ unknown).
Definition resolveUnknownKinds (view : option View) (nodes : list nodeState) (edges : list edgeState) : go nat (gmap KindID string) :=
  (let! unknown := go_lift (
     unknown ← foldM (λ unknown ns, foldM (unknown_kind view) (nst_kindIDs ns) unknown) nodes ∅;
     foldM (λ unknown es, unknown_kind view unknown (est_kindID es)) edges unknown) in
   if (size unknown =? 0)%nat then go_ret ∅
   else
     let ids := go_sort (λ a b : Z, (a <? b)%Z) (elements unknown) in
     let! resolved := namesByID ids in
     if 0 <? len (filter (λ id, resolved !! id = None) ids) then go_err ErrUnnamedKind else go_ret resolved)%go.
End queries.

(** *** The second pass *)

Section pass.
Context `{GoStd} `{JsonStd}.

Definition rereadByID {S} (candidates : list N) (found : gmap N S) (absent : list N) (read : list N → go nat (gmap N S))
    : go nat (gmap N S * list N) :=
  if len candidates =? 0 then go_ret (found, absent)
  else
    let pending := filter (λ id, found !! id = None ∧ id ∉ absent) candidates in
    if len pending =? 0 then go_ret (found, absent)
    else (let! rows := read pending in
          go_ret (foldl (λ '(found, absent) id, match rows !! id with
                                                | Some row => (<[id := row]> found, absent)
                                                | None => (found, absent ++ [id])
                                                end) (found, absent) pending))%go.

Definition rekeyedEndpointIDs (view : View) (nodesByID : gmap N nodeState) (objectID : string) : option (list N) :=
  r ← View_NodesByObjectID view objectID;
  match r with
  | None => Some []
  | Some dense =>
      foldM (λ ids n, id ← View_GraphID view n;
             Some (if bool_decide (is_Some (nodesByID !! id)) then ids ++ [id] else ids)) dense []
  end.

Record rekeyed := mkRekeyed {
  rk_keys : list edgeKey; rk_grouped : gmap fanoutGroup (gset N); rk_seen : gset edgeKey;
  rk_absent : gset (N * N * KindID); rk_unnameable : N }.

Definition addFanout (r : rekeyed) (side : edgeEndpointSide) (kindID : KindID) (ids : list N) : rekeyed :=
  mkRekeyed (rk_keys r) (<[(side, kindID) := default ∅ (rk_grouped r !! (side, kindID)) ∪ list_to_set ids]> (rk_grouped r))
    (rk_seen r) (rk_absent r) (rk_unnameable r).
Definition add_absent (r : rekeyed) (k : N * N * KindID) : rekeyed :=
  mkRekeyed (rk_keys r) (rk_grouped r) (rk_seen r) ({[k]} ∪ rk_absent r) (rk_unnameable r).
Definition add_key (pending : gset edgeKey) (r : rekeyed) (key : edgeKey) : rekeyed :=
  if bool_decide (key ∈ pending) then r
  else if bool_decide (key ∈ rk_seen r) then r
  else mkRekeyed (rk_keys r ++ [key]) (rk_grouped r) ({[key]} ∪ rk_seen r) (rk_absent r) (rk_unnameable r).
Definition count_unnameable (r : rekeyed) : rekeyed :=
  mkRekeyed (rk_keys r) (rk_grouped r) (rk_seen r) (rk_absent r) (rk_unnameable r + 1).

(** [for _, start := range startIDs { for _, end := range endIDs { ... } }]. *)
Definition pairs_of (startIDs endIDs : list N) : list (N * N) := s ← startIDs; (λ e, (s, e)) <$> endIDs.

Definition resolve_oid (view : View) (nodesByID : gmap N nodeState) (oidToIDs : gmap string (list N)) (objectID : string) : option (list N) :=
  match default [] (oidToIDs !! objectID) with
  | [] => rekeyedEndpointIDs view nodesByID objectID
  | ids => Some ids
  end.

Definition rekey_step (view : View) (nodesByID : gmap N nodeState) (oidToIDs : gmap string (list N))
    (resolvedTripleKinds : gmap string KindID) (pending : gset edgeKey) (r : rekeyed) (t : EdgeTripleOIDRef) : option rekeyed :=
  startIDs ← resolve_oid view nodesByID oidToIDs (to_StartOID t);
  endIDs ← resolve_oid view nodesByID oidToIDs (to_EndOID t);
  let kind := resolvedTripleKinds !! kindName (to_Kind t) in
  Some (if (0 <? len startIDs) && (0 <? len endIDs) then
          foldl (λ r '(s, e), match kind with
                              | None => add_absent r (s, e, unresolvedTripleKind)
                              | Some kindID => add_key pending r (s, e, kindID)
                              end) r (pairs_of startIDs endIDs)
        else match kind with
             | None => count_unnameable r
             | Some kindID =>
                 if 0 <? len startIDs then addFanout r edgeStartSide kindID startIDs
                 else if 0 <? len endIDs then addFanout r edgeEndSide kindID endIDs
                 else count_unnameable r
             end).

Definition rekeyedTripleKeys (view : View) (nodesByID : gmap N nodeState) (oidToIDs : gmap string (list N))
    (resolvedTripleKinds : gmap string KindID) (deferred : list EdgeTripleOIDRef) (pending : gset edgeKey)
    (absentTriples : gset (N * N * KindID)) : option (list edgeKey * list endpointFanout * N * gset (N * N * KindID)) :=
  if len deferred =? 0 then Some ([], [], 0, absentTriples)
  else
    r ← foldM (rekey_step view nodesByID oidToIDs resolvedTripleKinds pending) deferred (mkRekeyed [] ∅ ∅ absentTriples 0);
    Some (rk_keys r, sortedFanouts (rk_grouped r), rk_unnameable r, rk_absent r).

(** *** Reading back *)

Context (pg_objectid : bytes → option string).
Context (answers : nat → option database).
Context (defaultGraph : option Z).

(** The triples of the first pass: what to query, what cannot exist, and the
    object-id triples held back. *)
Definition triple_step (kinds : gmap string KindID) (acc : gset edgeKey * gset (N * N * KindID)) (t : EdgeTripleRef)
    : gset edgeKey * gset (N * N * KindID) :=
  match kinds !! kindName (tr_Kind t) with
  | None => (acc.1, {[(tr_Start t, tr_End t, unresolvedTripleKind)]} ∪ acc.2)
  | Some kindID => ({[(tr_Start t, tr_End t, kindID)]} ∪ acc.1, acc.2)
  end.
Definition pair_step (kind : option KindID) (acc : gset edgeKey * gset (N * N * KindID)) (p : N * N) : gset edgeKey * gset (N * N * KindID) :=
  match kind with
  | None => (acc.1, {[(p, unresolvedTripleKind)]} ∪ acc.2)
  | Some kindID => ({[(p, kindID)]} ∪ acc.1, acc.2)
  end.
Definition oid_step (kinds : gmap string KindID) (oidToIDs : gmap string (list N))
    (acc : gset edgeKey * gset (N * N * KindID) * list EdgeTripleOIDRef) (t : EdgeTripleOIDRef)
    : gset edgeKey * gset (N * N * KindID) * list EdgeTripleOIDRef :=
  let '(pending, absent, deferred) := acc in
  let startIDs := default [] (oidToIDs !! to_StartOID t) in
  let endIDs := default [] (oidToIDs !! to_EndOID t) in
  if (len startIDs =? 0) || (len endIDs =? 0) then (pending, absent, deferred ++ [t])
  else
    let '(pending, absent) :=
      foldl (pair_step (kinds !! kindName (to_Kind t))) (pending, absent) (pairs_of startIDs endIDs) in
    (pending, absent, deferred).

(** What a query by triple found, and the triples it did not find. *)
Definition triple_result (found : gmap edgeKey edgeState) (acc : gmap N edgeState * gset (N * N * KindID)) (k : edgeKey)
    : gmap N edgeState * gset (N * N * KindID) :=
  match found !! k with
  | Some es => (<[est_id es := es]> acc.1, acc.2)
  | None => (acc.1, {[k]} ∪ acc.2)
  end.

Record readState := mkReadState {
  rs_nodes : gmap N nodeState; rs_absentNodes : list N; rs_edges : gmap N edgeState; rs_absentEdges : list N;
  rs_absentTriples : gset (N * N * KindID) }.

Definition second_pass (v : View) (cs : ChangeSet) (criteriaKinds : gmap KindID string) (objectIDs : list string)
    (oidToIDs : gmap string (list N)) (kinds : gmap string KindID) (pending : gset edgeKey) (deferred : list EdgeTripleOIDRef)
    (st : readState) : go nat (readState * ChangeSet) :=
  let absentObjectIDs := filter (λ oid, default [] (oidToIDs !! oid) = []) objectIDs in
  (let! candidates := go_lift (collectViewCandidates v criteriaKinds cs absentObjectIDs) in
   match candidates with
   | inr err => go_err err
   | inl c =>
       let! ids := go_lift (nodeIDs v c) in
       let! (nodesByID, absentNodes) := rereadByID ids (rs_nodes st) (rs_absentNodes st) (readBackNodesByID answers) in
       let! (edgesByID, absentEdges) := rereadByID (vc_edges c) (rs_edges st) (rs_absentEdges st) (readBackEdgesByID answers) in
       let! (rekeyed, fanouts, unnameable, absentTriples) :=
         go_lift (rekeyedTripleKeys v nodesByID oidToIDs kinds deferred pending (rs_absentTriples st)) in
       let! foundRekeyed := readBackEdgesByTriple answers rekeyed in
       let '(edgesByID, absentTriples) := foldl (triple_result foundRekeyed) (edgesByID, absentTriples) rekeyed in
       let! (fanoutEdges, overCap) := readBackEdgesByEndpoint answers fanouts in
       let edgesByID := foldl (λ m es, <[est_id es := es]> m) edgesByID fanoutEdges in
       let discoveredEndpoints := fanoutEdges ≫= λ es, [est_start es; est_end es] in
       let! (nodesByID, absentNodes) := rereadByID (dedupeUint64s discoveredEndpoints) nodesByID absentNodes (readBackNodesByID answers) in
       let cs := if (WriteIncomplete cs).1 then cs
                 else let cs := if 0 <? unnameable then RecordFallback cs unresolvableOIDEndpointFallback else cs in
                      if (overCap : bool) then RecordFallback cs edgeFanoutCapFallback else cs in
       go_ret (mkReadState nodesByID absentNodes edgesByID absentEdges absentTriples, cs)
   end)%go.

Definition readBack (view : option View) (cs : ChangeSet) : go nat (readbackResult * ChangeSet) :=
  match defaultGraph with
  | None => go_err ErrNoGraph
  | Some _ =>
      (let nodeIDs := NodeIDs cs in
       let! foundByID := readBackNodesByID answers nodeIDs in
       let absentNodes := filter (λ id, foundByID !! id = None) nodeIDs in
       let objectIDs := NodeObjectIDs cs in
       let! (oidRows, oidToIDs) := readBackNodesByObjectID pg_objectid answers objectIDs in
       let nodesByID := foldl (λ m ns, <[nst_id ns := ns]> m) foundByID oidRows in
       let edgeIDs := EdgeIDs cs in
       let! foundEdgesByID := readBackEdgesByID answers edgeIDs in
       let absentEdges := filter (λ id, foundEdgesByID !! id = None) edgeIDs in
       let triples := EdgeTriples cs in
       let oidTriples := EdgeTriplesByObjectID cs in
       let! kinds := resolveKindIDs answers view ((tr_Kind <$> triples) ++ (to_Kind <$> oidTriples)) in
       let '(pending, absent) := foldl (triple_step kinds) (∅, ∅) triples in
       let '(pending, absent, deferred) := foldl (oid_step kinds oidToIDs) (pending, absent, []) oidTriples in
       let! foundTriples := readBackEdgesByTriple answers (elements pending) in
       let '(edgesByID, absent) := foldl (triple_result foundTriples) (foundEdgesByID, absent) (elements pending) in
       let! criteriaKinds := resolveCriteriaKinds answers view cs in
       let st := mkReadState nodesByID absentNodes edgesByID absentEdges absent in
       let! (st, cs) := match view with
                         | None => go_ret (st, cs)
                         | Some v => second_pass v cs criteriaKinds objectIDs oidToIDs kinds pending deferred st
                         end in
       let nodes := sortedNodeStates (rs_nodes st) in
       let edges := sortedEdgeStates (rs_edges st) in
       let! resolvedKinds := resolveUnknownKinds answers view nodes edges in
       go_ret (mkReadback nodes (go_sort (less_key (λ id : N, id)) (rs_absentNodes st)) edges
                 (go_sort (less_key (λ id : N, id)) (rs_absentEdges st)) (sortedTripleKeys (rs_absentTriples st))
                 (criteriaKinds ∪ resolvedKinds), cs))%go
  end.
End pass.
