(* ===== verification/ReadbackRuns.v ===== *)
(** * The queries of a read-back, against a database at rest

    Every query sees the same database, or fails. [wp] says that a computation
    does not panic and what it returns; the lemmas say what each query, each
    chunked loop of queries and each kind lookup of Readback.v returns: exactly
    the rows the database holds. *)

From S2P Require Import Prelude Bitset Kinds Props Snapshot Segment ParseProps View ChangeSet Apply Candidates Readback.
From Stdlib Require Import Ascii.
From stdpp Require Import options.
Unset Default Proof Using.
#[local] Open Scope N_scope.

(** ** Running against a database at rest *)

(** [m] does not panic; it ends with a value of [P] or an error of [E]. *)
Definition wp {S A} (E : goerr → Prop) (m : go S A) (P : A → Prop) : Prop :=
  ∀ s, ∃ s' r, m s = Some (s', r) ∧ match r with inl x => P x | inr err => E err end.

Section wp.
Context {S : Type} (E : goerr → Prop).

Lemma wp_ret {A} (x : A) (P : A → Prop) : P x → wp E (go_ret x : go S A) P.
Proof. intros Hx s. by exists s, (inl x). Qed.
Lemma wp_err {A} err (P : A → Prop) : E err → wp E (go_err err : go S A) P.
Proof. intros He s. by exists s, (inr err). Qed.
Lemma wp_bind {A B} (m : go S A) (f : A → go S B) P : wp E m (λ x, wp E (f x) P) → wp E (go_bind m f) P.
Proof.
  intros Hm s. destruct (Hm s) as (s1 & r & E1 & Hr). unfold go_bind. rewrite E1. cbn [mbind option_bind].
  destruct r as [x|err]; [apply Hr|by exists s1, (inr err)].
Qed.
Lemma wp_lift {A} (m : option A) x (P : A → Prop) : m = Some x → P x → wp E (go_lift m : go S A) P.
Proof. intros -> Hx s. by exists s, (inl x). Qed.
Lemma wp_mono {A} (m : go S A) (P Q : A → Prop) : wp E m P → (∀ x, P x → Q x) → wp E m Q.
Proof. intros Hm HPQ s. destruct (Hm s) as (s1 & [x|err] & E1 & Hr); eexists s1, _; (split; [exact E1|]); [by apply HPQ|done]. Qed.

End wp.

(** A chunked loop, by a fact about each chunk that joins over append; the fuel
    is enough. *)
Lemma wp_chunked {A X} E (stop : X → bool) chunk (ids : list A) (f : list A → X → go nat X) (R : list A → X → Prop) out : 0 < chunk →
  R [] out →
  (∀ pre batch x, R pre x → pre = [] ∨ stop x = false → wp E (f batch x) (R (pre ++ batch))) →
  wp E (chunked stop chunk ids f out) (λ x, ∃ pre post, ids = pre ++ post ∧ R pre x ∧ (post = [] ∨ stop x = true)).
Proof.
  intros Hc H0 Hf. unfold chunked.
  enough (∀ fuel lo x, R (take (N.to_nat lo) ids) x → lo = 0 ∨ stop x = false → (length ids - N.to_nat lo < fuel)%nat →
    wp E (chunk_loop fuel stop chunk lo ids f x) (λ x, ∃ pre post, ids = pre ++ post ∧ R pre x ∧ (post = [] ∨ stop x = true))) as Hl.
  { apply Hl; [done|by left|lia]. }
  induction fuel as [|fuel IH]; intros lo x HR Hst Hfuel; [lia|]. simpl. destruct (N.ltb_spec lo (len ids)) as [Hlt|Hge].
  - set (hi := if len ids <? lo + chunk then len ids else lo + chunk).
    assert (lo ≤ hi ∧ hi ≤ len ids ∧ (hi = len ids ∧ len ids ≤ lo + chunk ∨ hi = lo + chunk)) as (H1 & H2 & H3).
    { unfold hi. destruct (N.ltb_spec (len ids) (lo + chunk)); lia. }
    apply wp_bind. eapply wp_lift; [unfold slice; by rewrite decide_True|].
    apply wp_bind. eapply wp_mono; [apply (Hf (take (N.to_nat lo) ids))|]; [done|destruct Hst as [->|]; [left|right]; done|].
    intros y Hy. rewrite take_take_drop in Hy.
    destruct (stop y) eqn:Es.
    + apply wp_ret. eexists _, _. split; [symmetry; apply take_drop|]. split; [exact Hy|by right].
    + apply IH; [|by right|unfold len in *; lia].
      replace (take (N.to_nat (lo + chunk)) ids) with (take (N.to_nat lo + N.to_nat (hi - lo)) ids); [done|].
      destruct H3 as [H3|H3]; [|f_equal; lia]. unfold len in *. rewrite !take_ge; [done|lia..].
  - apply wp_ret. rewrite take_ge in HR by (unfold len in *; lia). exists ids, []. rewrite app_nil_r. split; [done|]. split; [done|by left].
Qed.
Lemma wp_chunked_all {A X} E chunk (ids : list A) (f : list A → X → go nat X) (R : list A → X → Prop) out : 0 < chunk →
  R [] out → (∀ pre batch x, R pre x → wp E (f batch x) (R (pre ++ batch))) →
  wp E (chunked go_on chunk ids f out) (R ids).
Proof.
  intros Hc H0 Hf. eapply wp_mono; [by apply (wp_chunked E go_on chunk ids f R); eauto|].
  intros x (pre & post & -> & HR & [->|?]); [by rewrite app_nil_r|done].
Qed.

(** *** What the queries return *)

Section rest.
Context `{GoStd} `{JsonStd}.
Context (pg_objectid : bytes → option string).
Context (answers : nat → option database) (d : database).
Context (E : goerr → Prop).
(** Every query that does not fail sees [d]. *)
Hypothesis Hrest : ∀ n d', answers n = Some d' → d' = d.
Hypothesis HE : ∀ n, answers n = None → E ErrQuery.

Record database_ok (d : database) : Prop := {
  dbo_node_ids : ∀ id, is_Some (db_node d !! id) → id < 2 ^ 63;
  dbo_edge_ids : ∀ e s t k, db_edge d !! e = Some (s, t, k) → e < 2 ^ 63 ∧ s < 2 ^ 63 ∧ t < 2 ^ 63;
  dbo_ends : ∀ e s t k, db_edge d !! e = Some (s, t, k) → is_Some (db_node d !! s) ∧ is_Some (db_node d !! t);
  dbo_triples : ∀ e e' x, db_edge d !! e = Some x → db_edge d !! e' = Some x → e = e';
  dbo_kinds : ∀ k k' name, db_kind d !! k = Some name → db_kind d !! k' = Some name → k = k';
  dbo_kind_range : ∀ k name, db_kind d !! k = Some name → (0 ≤ k < 2 ^ 15)%Z;
}.
Hypothesis Hdb : database_ok d.

Lemma wp_query P : P d → wp E (query answers) P.
Proof.
  intros HP n. unfold query. eexists _, _. split; [done|]. destruct (answers n) as [d'|] eqn:Ea; simpl.
  - by rewrite (Hrest _ _ Ea).
  - by eapply HE.
Qed.

(** Ids up to [2^63] reach the database as they are. *)
Lemma int64_small x : x < 2 ^ 63 → int64 x = Z.of_N x.
Proof. intros Hx. unfold int64. rewrite Z.mod_small by lia. lia. Qed.
Lemma int64_in x (l : list N) : x < 2 ^ 63 → x ∈ l → Z.of_N x ∈ int64 <$> l.
Proof. intros Hx Hin. apply list_elem_of_fmap. exists x. by rewrite int64_small. Qed.

(** Rows stored by a key that determines them. *)
Lemma foldl_rows {R K V} `{Countable K} (key : R → K) (val : R → V) (rows : list R) (m : gmap K V) k :
  (∀ v, foldl (λ out r, <[key r := val r]> out) m rows !! k = Some v → m !! k = Some v ∨ ∃ r, r ∈ rows ∧ key r = k ∧ val r = v) ∧
  ((is_Some (m !! k) ∨ ∃ r, r ∈ rows ∧ key r = k) → is_Some (foldl (λ out r, <[key r := val r]> out) m rows !! k)).
Proof.
  induction rows as [|r rows [IH1 IH2]] using rev_ind; simpl.
  - split; [by left|]. intros [?|(r & Hr & _)]; [done|by apply elem_of_nil in Hr].
  - rewrite foldl_app. simpl. rewrite lookup_insert. setoid_rewrite elem_of_app. setoid_rewrite list_elem_of_singleton.
    case_decide as Hk; split; [intros v [= <-]; eauto 6|by eexists|naive_solver|].
    intros Hs. apply IH2. naive_solver.
Qed.

Definition node_of (id : N) (n : dbNode) : nodeState := mkNodeState id (dn_kind_ids n) (dn_properties n).
Definition edge_of (id : N) (x : edge_state) : edgeState := edge_row (id, x).
(** A map holds rows of the table, and every row of the ids asked about. *)
Definition reads {V S} (t : gmap N V) (mk : N → V → S) (ids : list N) (m : gmap N S) : Prop :=
  (∀ id s, m !! id = Some s → ∃ r, t !! id = Some r ∧ s = mk id r) ∧
  ∀ id, id ∈ ids → is_Some (t !! id) → is_Some (m !! id).

Lemma reads_step {V S} (t : gmap N V) (mk : N → V → S) pre batch m : (∀ id, is_Some (t !! id) → id < 2 ^ 63) →
  reads t mk pre m → reads t mk (pre ++ batch) (foldl (λ out r, <[r.1 := mk r.1 r.2]> out) m (rows_by_id batch t)).
Proof.
  intros Hid [H1 H2]. split.
  - intros id s Hs. apply (foldl_rows (λ r : N * V, r.1) (λ r, mk r.1 r.2)) in Hs as [Hs|([id' r] & Hr & <- & <-)]; [by apply H1|].
    apply list_elem_of_filter in Hr as [_ Hr%elem_of_map_to_list]. by exists r.
  - intros id [Hin|Hin]%elem_of_app Hs; apply (foldl_rows (λ r : N * V, r.1) (λ r, mk r.1 r.2)); [left; by apply H2|right].
    pose proof (Hid id Hs). destruct Hs as [r Hr]. exists (id, r). split; [|done]. apply list_elem_of_filter.
    split; [by apply int64_in|by apply elem_of_map_to_list].
Qed.
Lemma reads_none {V S} (t : gmap N V) (mk : N → V → S) : reads t mk [] ∅.
Proof. split; [intros id s Hs; by rewrite lookup_empty in Hs|intros id Hid; by apply elem_of_nil in Hid]. Qed.

Lemma wp_nodes_by_id ids : wp E (readBackNodesByID answers ids) (reads (db_node d) node_of ids).
Proof.
  apply wp_chunked_all; [done|apply reads_none|]. intros pre batch m Hm. apply wp_bind, wp_query, wp_ret.
  apply (reads_step _ _ _ batch) in Hm; [|apply (dbo_node_ids _ Hdb)]. revert Hm. unfold node_of.
  enough (∀ l m0, foldl (λ (out : gmap N nodeState) '(id, n), <[id := mkNodeState id (dn_kind_ids n) (dn_properties n)]> out) m0 l =
    foldl (λ out (r : N * dbNode), <[r.1 := mkNodeState r.1 (dn_kind_ids r.2) (dn_properties r.2)]> out) m0 l) as -> by done.
  intros l m0. apply foldl_ext_in. by intros ? [].
Qed.
Lemma wp_edges_by_id ids : wp E (readBackEdgesByID answers ids) (reads (db_edge d) edge_of ids).
Proof.
  apply wp_chunked_all; [done|apply reads_none|]. intros pre batch m Hm. apply wp_bind, wp_query, wp_ret.
  apply (reads_step _ _ _ batch) in Hm; [|intros e [[[s t] k] He]; by apply (dbo_edge_ids _ Hdb) in He as (? & _)].
  exact Hm.
Qed.

(** By triple: an edge of each triple that has one. *)
Definition reads_triples (keys : list edgeKey) (m : gmap edgeKey edgeState) : Prop :=
  (∀ k es, m !! k = Some es → ∃ e, db_edge d !! e = Some k ∧ es = edge_of e k) ∧
  ∀ k e, k ∈ keys → db_edge d !! e = Some k → is_Some (m !! k).
Lemma wp_edges_by_triple keys : wp E (readBackEdgesByTriple answers keys) (reads_triples keys).
Proof.
  apply wp_chunked_all; [done|split; [intros k es He; by rewrite lookup_empty in He|intros k e Hk; by apply elem_of_nil in Hk]|].
  intros pre batch m [H1 H2]. apply wp_bind, wp_query, wp_ret. split.
  - intros k es He. apply (foldl_rows (λ r : N * edge_state, r.2) edge_row) in He as [He|([e k'] & Hr & <- & <-)]; [by apply H1|].
    apply list_elem_of_filter in Hr as [_ Hr%elem_of_map_to_list]. by exists e.
  - intros k e [Hin|Hin]%elem_of_app He; apply (foldl_rows (λ r : N * edge_state, r.2) edge_row); [left; by eapply H2|right].
    exists (e, k). split; [|done]. apply list_elem_of_filter. split; [|by apply elem_of_map_to_list].
    destruct k as [[s t] k]. apply (dbo_edge_ids _ Hdb) in He as (_ & Hs & Ht). apply list_elem_of_fmap.
    exists (s, t, k). split; [|done]. unfold sql_key. simpl. by rewrite !int64_small.
Qed.

(** By object id. *)
Record reads_oids (oids : list string) (rows : list nodeState) (m : gmap string (list N)) : Prop := {
  ro_sound : ∀ ns, ns ∈ rows → ∃ n, db_node d !! nst_id ns = Some n ∧ ns = node_of (nst_id ns) n;
  ro_all : ∀ id n o, db_node d !! id = Some n → pg_objectid (dn_properties n) = Some o → o ∈ oids → node_of id n ∈ rows;
  ro_map : ∀ oid id, id ∈ default [] (m !! oid) ↔ ∃ ns, ns ∈ rows ∧ nst_id ns = id ∧ objectIDFromProps (nst_propsJSON ns) = Some oid;
}.
Lemma oid_row_step rows m r :
  (∀ oid id, id ∈ default [] (m !! oid) ↔ ∃ ns, ns ∈ rows ∧ nst_id ns = id ∧ objectIDFromProps (nst_propsJSON ns) = Some oid) →
  let '(rows', m') := oid_row (rows, m) r in rows' = rows ++ [node_of r.1 r.2] ∧
  ∀ oid id, id ∈ default [] (m' !! oid) ↔ ∃ ns, ns ∈ rows' ∧ nst_id ns = id ∧ objectIDFromProps (nst_propsJSON ns) = Some oid.
Proof.
  intros Hm. unfold oid_row. split; [done|]. intros oid id. setoid_rewrite elem_of_app. setoid_rewrite list_elem_of_singleton.
  destruct (objectIDFromProps (dn_properties r.2)) as [o|] eqn:Eo.
  - rewrite lookup_insert. case_decide as Ho; simpl.
    + subst. rewrite elem_of_app, list_elem_of_singleton, Hm. naive_solver.
    + rewrite Hm. naive_solver.
  - rewrite Hm. naive_solver.
Qed.
Lemma wp_nodes_by_oid oids : wp E (readBackNodesByObjectID pg_objectid answers oids) (λ x, reads_oids oids x.1 x.2).
Proof.
  apply (wp_chunked_all E readbackObjectIDChunk oids _ (λ oids x, reads_oids oids x.1 x.2)); [done| |].
  { split; simpl; [set_solver..|]. intros oid id. rewrite lookup_empty. set_solver. }
  intros pre batch [rows m] Hx. apply wp_bind, wp_query, wp_ret. simpl in *. destruct Hx as [H1 H2 H3].
  enough (∀ l, let x := foldl oid_row (rows, m) l in x.1 = rows ++ ((λ r, node_of r.1 r.2) <$> l) ∧
    ∀ oid id, id ∈ default [] (x.2 !! oid) ↔ ∃ ns, ns ∈ x.1 ∧ nst_id ns = id ∧ objectIDFromProps (nst_propsJSON ns) = Some oid) as Hl.
  { destruct (Hl (oid_rows pg_objectid batch (db_node d))) as [Hr Hm]. split; [| |exact Hm]; rewrite Hr.
    - intros ns [?|([id n] & -> & [_ Hin%elem_of_map_to_list]%list_elem_of_filter)%list_elem_of_fmap]%elem_of_app; [by apply H1|]. by exists n.
    - intros id n o Hn Ho Hin. apply elem_of_app. apply elem_of_app in Hin as [Hin|Hin]; [left; by eapply H2|right].
      apply list_elem_of_fmap. exists (id, n). split; [done|]. apply list_elem_of_filter. split; [|by apply elem_of_map_to_list].
      unfold oid_in. simpl. rewrite Ho. by apply bool_decide_eq_true_2. }
  induction l as [|r l IH] using rev_ind; simpl; [by rewrite app_nil_r|].
  rewrite foldl_app. simpl. destruct (foldl oid_row (rows, m) l) as [rows1 m1]. simpl in IH. destruct IH as [-> IH].
  pose proof (oid_row_step _ m1 r IH) as Hs. destruct (oid_row _ r) as [rows2 m2]. destruct Hs as [-> Hs]. simpl.
  split; [by rewrite fmap_app, app_assoc|done].
Qed.

(** By endpoint: every edge at the ids, unless there are more than the cap. *)
Definition fans (side : edgeEndpointSide) (kindID : KindID) (ids : list N) (m : gmap N edgeState) : Prop :=
  (∀ e es, m !! e = Some es → ∃ x, db_edge d !! e = Some x ∧ es = edge_of e x) ∧
  (over_cap m = true ∨ ∀ e x, db_edge d !! e = Some x → column side x ∈ ids → x.2 = kindID → is_Some (m !! e)).

Lemma foldl_rows_grow (rows : list (N * edge_state)) (m : gmap N edgeState) :
  (size m ≤ size (foldl (λ out r, <[r.1 := edge_row r]> out) m rows))%nat.
Proof.
  revert m. induction rows as [|r rows IH]; intros m; simpl; [done|]. etransitivity; [|apply IH].
  destruct (m !! r.1) as [es|] eqn:Er; [rewrite map_size_insert_Some by (by eexists); lia|rewrite map_size_insert_None by done; lia].
Qed.
Lemma foldl_rows_size (rows : list (N * edge_state)) (m : gmap N edgeState) : NoDup rows.*1 →
  (length rows ≤ size (foldl (λ out r, <[r.1 := edge_row r]> out) m rows))%nat.
Proof.
  intros Hnd. rewrite <- (length_fmap fst rows). rewrite <- (size_list_to_set (C := gset N) rows.*1) by done.
  rewrite <- size_dom. apply subseteq_size. intros e He%elem_of_list_to_set. apply elem_of_dom.
  apply (foldl_rows (λ r : N * edge_state, r.1) edge_row). right. apply list_elem_of_fmap in He as (r & -> & Hr). eauto.
Qed.
Lemma endpoint_rows_nodup side kindID batch : NoDup (endpoint_rows side kindID batch (db_edge d)).*1.
Proof.
  unfold endpoint_rows. apply (NoDup_fmap_fst).
  - intros e x y Hx Hy. apply list_elem_of_filter in Hx as [_ Hx%elem_of_map_to_list], Hy as [_ Hy%elem_of_map_to_list]. congruence.
  - apply NoDup_filter, NoDup_map_to_list.
Qed.

Lemma fans_step side kindID pre batch m : fans side kindID pre m →
  fans side kindID (pre ++ batch) (foldl (λ out r, <[r.1 := edge_row r]> out) m
    (take (S (N.to_nat readbackEdgeFanoutCap)) (endpoint_rows side kindID batch (db_edge d)))).
Proof.
  intros [H1 H2]. set (rows := endpoint_rows side kindID batch (db_edge d)). set (cap := S (N.to_nat readbackEdgeFanoutCap)).
  assert (∀ e x, (e, x) ∈ rows ↔ db_edge d !! e = Some x ∧ Z.of_N (column side x) ∈ int64 <$> batch ∧ x.2 = kindID) as Hrows.
  { intros e x. unfold rows, endpoint_rows. rewrite list_elem_of_filter, elem_of_map_to_list. simpl. tauto. }
  assert (∀ m' : gmap N edgeState, over_cap m' = true ↔ (cap ≤ size m')%nat) as Hover.
  { intros m'. unfold over_cap, cap. rewrite N.ltb_lt. lia. }
  split.
  - intros e es He. apply (foldl_rows (λ r : N * edge_state, r.1) edge_row) in He as [He|([e' x] & Hr & <- & <-)]; [by apply H1|].
    apply list_elem_of_lookup in Hr as [i [Hi _]%lookup_take_Some]. apply list_elem_of_lookup_2 in Hi. apply Hrows in Hi as [Hi _]. by exists x.
  - destruct (decide (length rows ≤ cap)%nat) as [Hl|Hl].
    + rewrite take_ge by done. destruct H2 as [H2|H2].
      * left. rewrite Hover in H2 |- *. etransitivity; [exact H2|apply foldl_rows_grow].
      * right. intros e x He [Hin|Hin]%elem_of_app Hk; apply (foldl_rows (λ r : N * edge_state, r.1) edge_row); [left; by eapply H2|right].
        exists (e, x). split; [|done]. apply Hrows. split; [done|]. split; [|done]. apply int64_in; [|done].
        destruct x as [[s t] k]. apply (dbo_edge_ids _ Hdb) in He as (_ & Hs & Ht). unfold column. by destruct (side =? edgeStartSide).
    + left. apply Hover. etransitivity; [|apply foldl_rows_size].
      * rewrite length_take. lia.
      * rewrite fmap_take. eapply sublist_NoDup; [apply endpoint_rows_nodup|apply sublist_take].
Qed.

Lemma wp_fanouts fanouts acc : (∀ e es, acc.1 !! e = Some es → ∃ x, db_edge d !! e = Some x ∧ es = edge_of e x) →
  wp E (fanout_loop answers fanouts acc) (λ r,
    (∀ e es, r.1 !! e = Some es → ∃ x, db_edge d !! e = Some x ∧ es = edge_of e x) ∧
    (∀ e, is_Some (acc.1 !! e) → is_Some (r.1 !! e)) ∧ (acc.2 = true → r.2 = true) ∧
    ∀ f e x, f ∈ fanouts → db_edge d !! e = Some x → column (ef_side f) x ∈ ef_ids f → x.2 = ef_kindID f →
      r.2 = true ∨ is_Some (r.1 !! e)).
Proof.
  revert acc. induction fanouts as [|f fanouts IH]; intros acc Hacc; simpl; [apply wp_ret; split_and!; [done..|set_solver]|].
  apply wp_bind. eapply wp_mono.
  { apply (wp_chunked E over_cap readbackNodeIDChunk (ef_ids f) _ (fans (ef_side f) (ef_kindID f)) ∅); [done| |].
    - split; [intros e es He; by rewrite lookup_empty in He|]. right. intros e x _ Hin. by apply elem_of_nil in Hin.
    - intros pre batch m Hm _. apply wp_bind, wp_query, wp_ret. by apply fans_step. }
  intros group (pre & post & Eids & [Hg1 Hg2] & Hend). destruct (over_cap group) eqn:Eo.
  - eapply wp_mono; [by apply IH|]. simpl. intros r (R1 & R2 & R3 & R4). split_and!; [done..| |].
    + intros _. by apply R3.
    + intros f' e x _ _ _ _. left. by apply R3.
  - destruct Hend as [->|?]; [|done]. rewrite app_nil_r in Eids. subst pre. destruct Hg2 as [?|Hg2]; [done|].
    eapply wp_mono; [apply IH|].
    + intros e es [He|[_ He]]%lookup_union_Some_raw; [by apply Hg1|by apply Hacc].
    + simpl. intros r (R1 & R2 & R3 & R4). split_and!; [done| |done|].
      * intros e He. apply R2. apply lookup_union_is_Some. by right.
      * intros f' e x [->|Hf]%elem_of_cons He Hc Hk; [|by eapply R4]. right. apply R2, lookup_union_is_Some. left. by eapply Hg2.
Qed.

Lemma sortedEdgeStates_elem m es : es ∈ sortedEdgeStates m ↔ ∃ e, m !! e = Some es.
Proof.
  unfold sortedEdgeStates. destruct (Nat.eqb_spec (size m) 0) as [Em|_].
  - apply map_size_empty_iff in Em as ->. rewrite elem_of_nil. setoid_rewrite lookup_empty. naive_solver.
  - rewrite go_sort_elem, list_elem_of_fmap. split; [intros ([e es'] & -> & He%elem_of_map_to_list); eauto|].
    intros (e & He%elem_of_map_to_list). by exists (e, es).
Qed.

Lemma wp_edges_by_endpoint fanouts : wp E (readBackEdgesByEndpoint answers fanouts) (λ r,
  (∀ es, es ∈ r.1 → ∃ e x, db_edge d !! e = Some x ∧ es = edge_of e x) ∧
  (∀ f e x, f ∈ fanouts → db_edge d !! e = Some x → column (ef_side f) x ∈ ef_ids f → x.2 = ef_kindID f →
    r.2 = true ∨ edge_of e x ∈ r.1) ∧ (fanouts = [] → r.2 = false)).
Proof.
  unfold readBackEdgesByEndpoint. destruct fanouts as [|f fanouts]; [apply wp_ret; set_solver|].
  apply wp_bind. eapply wp_mono; [apply wp_fanouts; intros e es He; simpl in He; by rewrite lookup_empty in He|].
  intros [found over] (R1 & _ & _ & R4). apply wp_ret. simpl in *. split; [|split; [|done]].
  - intros es (e & He)%sortedEdgeStates_elem. apply R1 in He as (x & ? & ?). eauto.
  - intros f' e x Hf He Hc Hk. destruct (R4 f' e x Hf He Hc Hk) as [?|[es Hes]]; [by left|right].
    apply sortedEdgeStates_elem. exists e. destruct (R1 _ _ Hes) as (x' & Hx' & ->). congruence.
Qed.

(** *** Kinds *)

(** A kind table and a set of added names that say nothing the database does not. *)
Definition kinds_true (m : gmap string KindID) : Prop := ∀ name k, m !! name = Some k → db_kind d !! k = Some name.
Definition view_kinds_true (view : option View) : Prop :=
  match view with
  | None => True
  | Some v => ∃ t, View_Kinds v = Some t ∧ (∀ name k, KindTable_ID t name = Some k → db_kind d !! k = Some name) ∧
      ∀ k name, KindTable_Name t k = Some name → db_kind d !! k = Some name
  end.
Context (view : option View) (Hview : view_kinds_true view).

Lemma viewKindID_true name : ∃ r, viewKindID view name = Some r ∧ ∀ k, r = Some k → db_kind d !! k = Some name.
Proof.
  unfold viewKindID. destruct view as [v|]; [|by eexists]. destruct Hview as (t & -> & Hid & _). cbn [mbind option_bind].
  eexists. split; [done|]. apply Hid.
Qed.

Lemma wp_idsByName names : wp E (idsByName answers names) (λ m, kinds_true m ∧
  ∀ name k, name ∈ names → db_kind d !! k = Some name → m !! name = Some k).
Proof.
  apply wp_bind, wp_query, wp_ret.
  assert (∀ l (m : gmap string KindID), foldl (λ out '(id, name), <[name := id]> out) m l =
    foldl (λ out (r : KindID * string), <[r.2 := r.1]> out) m l) as -> by (intros l m; apply foldl_ext_in; by intros ? []).
  assert (kinds_true (foldl (λ out (r : KindID * string), <[r.2 := r.1]> out) ∅ (filter (λ r, r.2 ∈ names) (map_to_list (db_kind d))))) as Hsound.
  { intros name k Hk. apply (foldl_rows snd fst) in Hk as [Hk|([k' n] & Hr & <- & <-)]; [by rewrite lookup_empty in Hk|].
    by apply list_elem_of_filter in Hr as [_ Hr%elem_of_map_to_list]. }
  split; [done|]. intros name k Hin Hk.
  destruct (proj2 (foldl_rows snd fst (filter (λ r, r.2 ∈ names) (map_to_list (db_kind d))) ∅ name)) as [k' Hk'].
  - right. exists (k, name). split; [|done]. apply list_elem_of_filter. split; [done|by apply elem_of_map_to_list].
  - rewrite Hk'. f_equal. eapply (dbo_kinds _ Hdb); [by apply Hsound|done].
Qed.
Lemma wp_namesByID ids : wp E (namesByID answers ids) (λ m, m ⊆ db_kind d ∧ ∀ k, k ∈ ids → m !! k = db_kind d !! k).
Proof.
  apply wp_bind, wp_query, wp_ret.
  assert (∀ l (m : gmap KindID string), foldl (λ out '(id, name), <[id := name]> out) m l =
    foldl (λ out (r : KindID * string), <[r.1 := r.2]> out) m l) as -> by (intros l m; apply foldl_ext_in; by intros ? []).
  set (m := foldl _ ∅ _). assert (∀ k name, m !! k = Some name → db_kind d !! k = Some name) as Hsound.
  { intros k name Hk. apply (foldl_rows fst snd) in Hk as [Hk|([k' n] & Hr & <- & <-)]; [by rewrite lookup_empty in Hk|].
    by apply list_elem_of_filter in Hr as [_ Hr%elem_of_map_to_list]. }
  split; [by apply map_subseteq_spec|]. intros k Hin. destruct (db_kind d !! k) as [name|] eqn:Ek.
  - destruct (proj2 (foldl_rows fst snd (filter (λ r, r.1 ∈ ids) (map_to_list (db_kind d))) ∅ k)) as [n Hn].
    + right. exists (k, name). split; [|done]. apply list_elem_of_filter. split; [done|by apply elem_of_map_to_list].
    + fold m in Hn. rewrite Hn. apply Hsound in Hn. congruence.
  - destruct (m !! k) as [n|] eqn:En; [|done]. apply Hsound in En. congruence.
Qed.

(** Kinds by name: exactly what the database says, for every kind asked about. *)
Definition resolves (kinds : list Kind) (m : gmap string KindID) : Prop := kinds_true m ∧
  ∀ name k, Some name ∈ kinds → db_kind d !! k = Some name → m !! name = Some k.
Lemma wp_resolveKindIDs kinds : wp E (resolveKindIDs answers view kinds) (resolves kinds).
Proof.
  unfold resolveKindIDs. apply wp_bind.
  destruct (foldM_inv (λ pre acc, let '(resolved, seen, missing) := acc in kinds_true resolved ∧
    (∀ name, Some name ∈ pre ↔ name ∈ seen) ∧ ∀ name, name ∈ seen → is_Some (resolved !! name) ∨ name ∈ missing)
    (resolve_step view) kinds (∅, ∅, [])) as ([[resolved seen] missing] & Ef & Hres & Hseen & Hcov).
  { split_and!; [intros name k Hk; by rewrite lookup_empty in Hk|set_solver|set_solver]. }
  { intros pre kind post [[resolved seen] missing] _ (Hres & Hseen & Hcov). unfold resolve_step.
    destruct kind as [name|].
    2:{ eexists. split; [done|]. split; [done|]. split; [|done]. intros name. rewrite <- Hseen, elem_of_app, list_elem_of_singleton. naive_solver. }
    assert (∀ name', Some name' ∈ pre ++ [Some name] ↔ name' ∈ ({[name]} ∪ seen : gset string)) as Hs.
    { intros name'. rewrite elem_of_app, list_elem_of_singleton, Hseen, elem_of_union, elem_of_singleton. naive_solver. }
    case_bool_decide as Hin.
    { eexists. split; [done|]. split; [done|]. split; [|done]. intros name'. rewrite Hs. set_solver. }
    destruct (viewKindID_true name) as (r & -> & Hr). cbn [mbind option_bind]. eexists. split; [done|]. destruct r as [id|].
    - split; [|split; [done|]].
      + intros name' k [[<- <-]|[_ Hk]]%lookup_insert_Some; [by apply Hr|by apply Hres].
      + intros name' [->%elem_of_singleton|Hn]%elem_of_union; [left; rewrite lookup_insert_eq; by eexists|].
        destruct (Hcov _ Hn) as [?|?]; [left|by right]. rewrite lookup_insert. case_decide; [by eexists|done].
    - split; [done|]. split; [done|]. intros name' [->%elem_of_singleton|Hn]%elem_of_union; [right; set_solver|].
      destruct (Hcov _ Hn); [by left|right; set_solver]. }
  eapply wp_lift; [exact Ef|]. simpl.
  assert (∀ m, kinds_true m → (∀ name, name ∈ seen → ∀ k, db_kind d !! k = Some name → is_Some (m !! name)) → resolves kinds m) as Hdone.
  { intros m Hm Hall. split; [done|]. intros name k Hn%Hseen Hk. destruct (Hall name Hn k Hk) as [k' Hk']. rewrite Hk'. f_equal.
    eapply (dbo_kinds _ Hdb); [by apply Hm|done]. }
  destruct (N.eqb_spec (len missing) 0) as [El|_].
  { apply wp_ret, Hdone; [done|]. intros name Hn _ _. destruct (Hcov _ Hn) as [?|Hm]; [done|].
    assert (missing = []) as -> by (destruct missing; [done|unfold len in El; simpl in El; lia]). by apply elem_of_nil in Hm. }
  apply wp_bind. eapply wp_mono; [apply wp_idsByName|]. intros ids [Hids Hall]. apply wp_ret, Hdone.
  - clear -Hres Hids. induction missing as [|n missing IH] using rev_ind; [done|]. rewrite foldl_app. simpl.
    destruct (ids !! n) as [id|] eqn:En; [|done]. intros name k [[<- <-]|[_ Hk]]%lookup_insert_Some; [by apply Hids|by apply IH].
  - intros name Hn k Hk. specialize (Hcov name Hn). assert (name ∈ missing → ids !! name = Some k) as Hm by (intros ?; by apply Hall).
    clear -Hcov Hm. induction missing as [|n missing IH] using rev_ind; [destruct Hcov as [?|Hx]; [done|by apply elem_of_nil in Hx]|].
    rewrite foldl_app. simpl. destruct (decide (name = n)) as [->|Hne].
    + rewrite Hm by set_solver. rewrite lookup_insert_eq. by eexists.
    + destruct IH as [k' Hk']; [set_solver|set_solver|]. destruct (ids !! n); [rewrite lookup_insert_ne by done|]; by rewrite Hk'.
Qed.

(** The kinds a delete names. *)
Definition mentions (cs : ChangeSet) (kind : Kind) : Prop :=
  (∃ cr, cr ∈ NodeKindCriteria cs ∧ (kind ∈ nk_Include cr ∨ kind ∈ nk_Exclude cr)) ∨
  ∃ kinds, kinds ∈ EdgeKindCriteria cs ∧ kind ∈ kinds.
Definition view_knows (kind : Kind) : Prop := ∃ k, viewKindID view (kindName kind) = Some (Some k).

Lemma collect_unknown_spec kinds unknown : ∃ unknown', collect_unknown view kinds unknown = Some unknown' ∧
  (∀ kind, kind ∈ unknown → kind ∈ unknown') ∧ ∀ kind, kind ∈ kinds → view_knows kind ∨ kind ∈ unknown'.
Proof.
  unfold collect_unknown.
  destruct (foldM_inv (λ pre u, (∀ kind, kind ∈ unknown → kind ∈ u) ∧ ∀ kind, kind ∈ pre → view_knows kind ∨ kind ∈ u)
    (λ unknown kind, r ← viewKindID view (kindName kind); Some (match r with Some _ => unknown | None => unknown ++ [kind] end)) kinds unknown)
    as (u & -> & H1 & H2); [split; [done|set_solver]| |by exists u].
  intros pre kind post u _ [H1 H2]. destruct (viewKindID_true (kindName kind)) as (r & Er & _). rewrite Er. cbn [mbind option_bind].
  eexists. split; [done|]. destruct r as [k|].
  - split; [done|]. intros kind' [Hk| ->%list_elem_of_singleton]%elem_of_app; [by apply H2|]. left. by exists k.
  - split; [set_solver|]. intros kind' [Hk| ->%list_elem_of_singleton]%elem_of_app; [destruct (H2 _ Hk); [by left|right; set_solver]|right; set_solver].
Qed.

(** A loop of [collect_unknown]s. *)
Lemma collect_loop {X} (f : Kinds_list → X → option Kinds_list) (names : X → Kind → Prop) l unknown :
  (∀ x u, ∃ u', f u x = Some u' ∧ (∀ kind, kind ∈ u → kind ∈ u') ∧ ∀ kind, names x kind → view_knows kind ∨ kind ∈ u') →
  ∃ u', foldM f l unknown = Some u' ∧ (∀ kind, kind ∈ unknown → kind ∈ u') ∧
    ∀ x kind, x ∈ l → names x kind → view_knows kind ∨ kind ∈ u'.
Proof.
  intros Hf. destruct (foldM_inv (λ pre u, (∀ kind, kind ∈ unknown → kind ∈ u) ∧ ∀ x kind, x ∈ pre → names x kind → view_knows kind ∨ kind ∈ u) f l unknown)
    as (u & -> & H1 & H2); [split; [done|set_solver]| |by exists u].
  intros pre x post u _ [H1 H2]. destruct (Hf x u) as (u' & -> & Hu & Hx). exists u'. split; [done|]. split; [by eauto|].
  intros y kind [Hy| ->%list_elem_of_singleton]%elem_of_app Hn; [destruct (H2 _ _ Hy Hn); eauto|by apply Hx].
Qed.

Lemma wp_resolveCriteriaKinds cs : wp E (resolveCriteriaKinds answers view cs) (λ m, m ⊆ db_kind d ∧
  ∀ name k, mentions cs (Some name) → db_kind d !! k = Some name → view_knows (Some name) ∨ m !! k = Some name).
Proof.
  unfold resolveCriteriaKinds. apply wp_bind.
  destruct (collect_loop (λ unknown cr, unknown ← collect_unknown view (nk_Include cr) unknown; collect_unknown view (nk_Exclude cr) unknown)
    (λ cr kind, kind ∈ nk_Include cr ∨ kind ∈ nk_Exclude cr) (NodeKindCriteria cs) []) as (u1 & E1 & _ & H1).
  { intros cr u. destruct (collect_unknown_spec (nk_Include cr) u) as (u1 & -> & Hu1 & Hi). cbn [mbind option_bind].
    destruct (collect_unknown_spec (nk_Exclude cr) u1) as (u2 & -> & Hu2 & He). exists u2. split; [done|]. split; [by eauto|].
    intros kind [Hk|Hk]; [destruct (Hi _ Hk); eauto|by apply He]. }
  destruct (collect_loop (λ unknown kinds, collect_unknown view kinds unknown) (λ kinds kind, kind ∈ kinds) (EdgeKindCriteria cs) u1)
    as (u2 & E2 & Hu2 & H2); [intros kinds u; apply collect_unknown_spec|].
  eapply wp_lift; [rewrite E1; cbn [mbind option_bind]; exact E2|].
  assert (∀ kind, mentions cs kind → view_knows kind ∨ kind ∈ u2) as Hm.
  { intros kind [(cr & Hcr & Hk)|(kinds & Hkinds & Hk)]; [destruct (H1 _ _ Hcr Hk); eauto|by eapply H2]. }
  destruct (N.eqb_spec (len u2) 0) as [El|_].
  { apply wp_ret. split; [apply map_empty_subseteq|]. intros name k Hn _. destruct (Hm _ Hn) as [?|Hin]; [by left|].
    assert (u2 = []) as -> by (destruct u2; [done|unfold len in El; simpl in El; lia]). by apply elem_of_nil in Hin. }
  apply wp_bind. eapply wp_mono; [apply wp_resolveKindIDs|]. intros ids [Hids Hall]. apply wp_ret.
  assert (∀ l (m : gmap KindID string), foldl (λ resolved '(name, id), <[id := name]> resolved) m l =
    foldl (λ out (r : string * KindID), <[r.2 := r.1]> out) m l) as -> by (intros l m; apply foldl_ext_in; by intros ? []).
  set (m := foldl _ ∅ _). assert (∀ k name, m !! k = Some name → db_kind d !! k = Some name) as Hsound.
  { intros k name Hk. apply (foldl_rows snd fst) in Hk as [Hk|([n k'] & Hr & <- & <-)]; [by rewrite lookup_empty in Hk|].
    apply elem_of_map_to_list in Hr. by apply Hids. }
  split; [by apply map_subseteq_spec|]. intros name k Hn Hk. destruct (Hm _ Hn) as [?|Hin]; [by left|right].
  destruct (proj2 (foldl_rows snd fst (map_to_list ids) ∅ k)) as [n En].
  - right. exists (name, k). split; [|done]. apply elem_of_map_to_list. by apply Hall.
  - fold m in En. rewrite En. apply Hsound in En. congruence.
Qed.

(** Every kind in use gets a name. *)
Lemma kindKnown_true k : ∃ b, kindKnownToView view k = Some b ∧
  (b = true → ∃ v t, view = Some v ∧ View_Kinds v = Some t ∧ is_Some (KindTable_Name t k)).
Proof.
  unfold kindKnownToView. destruct view as [v|]; [|by exists false]. destruct Hview as (t & Et & _). rewrite Et. cbn [mbind option_bind].
  eexists. split; [done|]. intros Hb%bool_decide_eq_true. eauto.
Qed.
Definition named (m : gmap KindID string) (k : KindID) : Prop :=
  is_Some (m !! k) ∨ ∃ v t, view = Some v ∧ View_Kinds v = Some t ∧ is_Some (KindTable_Name t k).

Lemma unknown_loop {X} (kinds : X → list KindID) l u : ∃ u' : gset KindID, foldM (λ u x, foldM (unknown_kind view) (kinds x) u) l u = Some u' ∧
  (∀ k, k ∈ u → k ∈ u') ∧ (∀ k, k ∈ u' → k ∈ u ∨ ∃ x, x ∈ l ∧ k ∈ kinds x) ∧ ∀ x k, x ∈ l → k ∈ kinds x → named ∅ k ∨ k ∈ u'.
Proof.
  assert (∀ ks u, ∃ u' : gset KindID, foldM (unknown_kind view) ks u = Some u' ∧ (∀ k, k ∈ u → k ∈ u') ∧ (∀ k, k ∈ u' → k ∈ u ∨ k ∈ ks) ∧
    ∀ k, k ∈ ks → named ∅ k ∨ k ∈ u') as Hone.
  { induction ks as [|k ks IH]; intros u0; [exists u0; split; [done|]; set_solver|]. simpl.
    destruct (kindKnown_true k) as (b & Eb & Hb).
    assert (unknown_kind view u0 k = Some (if b then u0 else {[k]} ∪ u0)) as -> by (unfold unknown_kind; by rewrite Eb).
    cbn [mbind option_bind].
    destruct (IH (if b then u0 else {[k]} ∪ u0)) as (u' & -> & H1 & H2 & H3). exists u'. split; [done|]. destruct b.
    - split; [done|]. split; [set_solver|]. intros k' [->|?]%elem_of_cons; [left; right; by apply Hb|by apply H3].
    - split; [set_solver|]. split; [set_solver|]. intros k' [->|?]%elem_of_cons; [right; set_solver|by apply H3]. }
  revert u. induction l as [|x l IH]; intros u; [exists u; split; [done|]; set_solver|]. simpl.
  destruct (Hone (kinds x) u) as (u1 & -> & H1 & H2 & H3). cbn [mbind option_bind].
  destruct (IH u1) as (u2 & -> & G1 & G2 & G3). exists u2. split; [done|]. split; [by eauto|]. split.
  - intros k [[?|?]%H2|(y & ? & ?)]%G2; [by left|right; exists x; set_solver|right; exists y; set_solver].
  - intros y k [->|Hy]%elem_of_cons Hk; [destruct (H3 _ Hk); eauto|by eapply G3].
Qed.

Hypothesis HEk : ∀ k, ((∃ id n, db_node d !! id = Some n ∧ k ∈ dn_kind_ids n) ∨ ∃ e s t, db_edge d !! e = Some (s, t, k)) →
  db_kind d !! k = None → E ErrUnnamedKind.
Lemma wp_resolveUnknownKinds nodes edges :
  (∀ ns, ns ∈ nodes → ∃ n, db_node d !! nst_id ns = Some n ∧ ns = node_of (nst_id ns) n) →
  (∀ es, es ∈ edges → ∃ e x, db_edge d !! e = Some x ∧ es = edge_of e x) →
  wp E (resolveUnknownKinds answers view nodes edges) (λ m, m ⊆ db_kind d ∧
    (∀ ns k, ns ∈ nodes → k ∈ nst_kindIDs ns → named m k) ∧ ∀ es, es ∈ edges → named m (est_kindID es)).
Proof.
  intros Hns Hes. unfold resolveUnknownKinds. apply wp_bind.
  destruct (unknown_loop nst_kindIDs nodes ∅) as (u1 & E1 & _ & S1 & C1).
  destruct (unknown_loop (λ es, [est_kindID es]) edges u1) as (u2 & E2 & M2 & S2 & C2).
  eapply wp_lift.
  { rewrite E1. cbn [mbind option_bind]. erewrite foldM_ext; [exact E2|]. intros u es _. simpl. by destruct (unknown_kind _ _ _). }
  assert (∀ m, (∀ k, k ∈ u2 → is_Some (m !! k)) → (∀ ns k, ns ∈ nodes → k ∈ nst_kindIDs ns → named m k) ∧ ∀ es, es ∈ edges → named m (est_kindID es)) as Hdone.
  { intros m Hm. split.
    - intros ns k Hn Hk. destruct (C1 _ _ Hn Hk) as [[Hx|?]|?]; [rewrite lookup_empty in Hx; by destruct Hx|by right|left; by apply Hm, M2].
    - intros es He. destruct (C2 es (est_kindID es) He) as [[Hx|?]|?]; [left|rewrite lookup_empty in Hx; by destruct Hx|by right|left; by apply Hm]. }
  destruct (Nat.eqb_spec (size u2) 0) as [El|_].
  { apply wp_ret. apply size_empty_inv, leibniz_equiv in El as ->. split; [apply map_empty_subseteq|]. apply Hdone. set_solver. }
  set (ids := go_sort _ (elements u2)). assert (∀ k, k ∈ ids ↔ k ∈ u2) as Hids by (intros k; unfold ids; by rewrite go_sort_elem, elem_of_elements).
  apply wp_bind. eapply wp_mono; [apply wp_namesByID|]. intros m [Hm Hall].
  destruct (N.ltb_spec 0 (len (filter (λ id, m !! id = None) ids))) as [Hl|Hl].
  - apply wp_err. assert (∃ k, k ∈ filter (λ id, m !! id = None) ids) as [k Hk].
    { destruct (filter _ ids) as [|k l]; [unfold len in Hl; simpl in Hl; lia|]. exists k. left. }
    apply list_elem_of_filter in Hk as [Hno Hk]. rewrite (Hall _ Hk) in Hno. apply (HEk k); [|done].
    apply Hids in Hk. destruct (S2 _ Hk) as [Hk1|(es & He & ->%list_elem_of_singleton)].
    + destruct (S1 _ Hk1) as [?|(ns & Hn & Hkn)]; [set_solver|]. left. destruct (Hns _ Hn) as (n & Hdn & Ens). rewrite Ens in Hkn. eauto.
    + right. destruct (Hes _ He) as (e & [[s t] k'] & Hde & ->). eauto.
  - apply wp_ret. split; [done|]. apply Hdone. intros k Hk%Hids. destruct (m !! k) eqn:Ek; [by eexists|]. exfalso.
    assert (k ∈ filter (λ id, m !! id = None) ids) as Hin by (by apply list_elem_of_filter).
    destruct (filter _ ids); [by apply elem_of_nil in Hin|unfold len in Hl; simpl in Hl; lia].
Qed.
End rest.
