(* ===== verification/ReadbackSpec.v ===== *)
(** * What a read-back returns

    [readBack] against a database at rest, over a view of any graph: what it
    reports is true of the database, and it answers every key of the change
    set, every candidate of the view and every edge triple it can name, or
    records that the engine has to fall back. *)

From S2P Require Import Prelude Bitset Kinds Props Snapshot Builder Segment ParseProps View ViewAdj ViewKinds ChangeSet Apply Candidates Readback ReadbackRuns.
From stdpp Require Import options.
Unset Default Proof Using.
#[local] Open Scope N_scope.

(** ** Answers by id *)

Section answers.
Context {V S : Type} (t : gmap N V) (mk : N → V → S).

(** What was found is there, what was not is not. *)
Definition told (found : gmap N S) (absent : list N) : Prop :=
  (∀ id s, found !! id = Some s → ∃ r, t !! id = Some r ∧ s = mk id r) ∧ ∀ id, id ∈ absent → t !! id = None.
Definition answered (found : gmap N S) (absent : list N) (id : N) : Prop := is_Some (found !! id) ∨ id ∈ absent.

Lemma reads_told ids m : reads t mk ids m →
  told m (filter (λ id, m !! id = None) ids) ∧ ∀ id, id ∈ ids → answered m (filter (λ id, m !! id = None) ids) id.
Proof.
  intros [H1 H2]. split.
  - split; [done|]. intros id [Hno Hin]%list_elem_of_filter. destruct (t !! id) eqn:E; [|done].
    destruct (H2 id Hin) as [s Hs]; [by eexists|]. congruence.
  - intros id Hin. unfold answered. destruct (m !! id) eqn:E; [left; by eexists|right]. by apply list_elem_of_filter.
Qed.

Lemma reread_fold rows pending found absent : reads t mk pending rows → told found absent →
  let x := foldl (λ '(found, absent) id, match rows !! id with
      | Some row => (<[id := row]> found, absent) | None => (found, absent ++ [id]) end) (found, absent) pending in
  told x.1 x.2 ∧ (∀ id, answered found absent id → answered x.1 x.2 id) ∧ (∀ id, id ∈ pending → answered x.1 x.2 id) ∧
  ∀ id, id ∈ x.2 → id ∈ absent ∨ id ∈ pending.
Proof.
  intros [H1 H2]. assert (∀ id, id ∈ pending → rows !! id = None → t !! id = None) as Hno.
  { intros id Hin E. destruct (t !! id) eqn:Et; [|done]. destruct (H2 id Hin) as [s Hs]; [by eexists|]. congruence. }
  clear H2. revert found absent. induction pending as [|id pending IH]; intros found absent [T1 T2]; simpl; [split_and!; [done|done|set_solver|by left]|].
  destruct (rows !! id) as [row|] eqn:Er.
  - destruct (IH (λ i Hi, Hno i (list_elem_of_further _ _ _ Hi)) (<[id := row]> found) absent) as (A & B & C & K).
    { split; [|done]. intros i s [[<- <-]|[_ Hs]]%lookup_insert_Some; [by apply H1|by apply T1]. }
    split; [done|]. split; [|split].
    + intros i [[s Hs]|Hi]; apply B; [left; rewrite lookup_insert; case_decide; by eexists|by right].
    + intros i [->|Hi]%elem_of_cons; [apply B; left; rewrite lookup_insert_eq; by eexists|by apply C].
    + intros i Hi. destruct (K i Hi); [by left|right; by right].
  - destruct (IH (λ i Hi, Hno i (list_elem_of_further _ _ _ Hi)) found (absent ++ [id])) as (A & B & C & K).
    { split; [done|]. intros i [Hi| ->%list_elem_of_singleton]%elem_of_app; [by apply T2|]. apply Hno; [left|done]. }
    split; [done|]. split; [|split].
    + intros i [?|Hi]; apply B; [by left|right; set_solver].
    + intros i [->|Hi]%elem_of_cons; [apply B; right; set_solver|by apply C].
    + intros i Hi. destruct (K i Hi) as [[?| ->%list_elem_of_singleton]%elem_of_app|?]; [by left|right; left|right; by right].
Qed.

Lemma wp_reread E candidates found absent (read : list N → go nat (gmap N S)) :
  (∀ ids, wp E (read ids) (reads t mk ids)) → told found absent →
  wp E (rereadByID candidates found absent read) (λ x, told x.1 x.2 ∧
    (∀ id, answered found absent id → answered x.1 x.2 id) ∧ (∀ id, id ∈ candidates → answered x.1 x.2 id) ∧
    ∀ id, id ∈ x.2 → id ∈ absent ∨ id ∈ candidates).
Proof.
  intros Hread Ht. unfold rereadByID.
  assert (∀ l : list N, len l = 0 → l = []) as Hnil by (intros [|] El; [done|unfold len in El; simpl in El; lia]).
  destruct (N.eqb_spec (len candidates) 0) as [->%Hnil|_]; [apply wp_ret; split_and!; [done|done|set_solver|by left]|].
  set (pending := filter _ candidates).
  assert (∀ id, id ∈ candidates → answered found absent id ∨ id ∈ pending) as Hp.
  { intros id Hin. unfold answered. destruct (found !! id) eqn:Ef; [left; left; by eexists|].
    destruct (decide (id ∈ absent)); [left; by right|right]. by apply list_elem_of_filter. }
  destruct (N.eqb_spec (len pending) 0) as [Hz%Hnil|_].
  { apply wp_ret. split_and!; [done|done| |by left]. intros id Hin. destruct (Hp _ Hin) as [?|Hx]; [done|]. rewrite Hz in Hx. by apply elem_of_nil in Hx. }
  apply wp_bind. eapply wp_mono; [apply Hread|]. intros rows Hrows. apply wp_ret.
  destruct (reread_fold rows pending found absent Hrows Ht) as (A & B & C & K). split_and!; [done|done| |].
  - intros id Hin. destruct (Hp _ Hin); [by apply B|by apply C].
  - intros id Hin. destruct (K id Hin) as [?|[_ ?]%list_elem_of_filter]; [by left|by right].
Qed.
End answers.

(** ** Triples by object id *)

Lemma dedupeUint64s_elem ids id : id ∈ dedupeUint64s ids → id ∈ ids.
Proof.
  unfold dedupeUint64s. generalize (∅ : gset N). induction ids as [|x ids IH]; intros seen; simpl; [done|].
  case_bool_decide; [by intros ?%IH; right|]. intros [->|?%IH]%elem_of_cons; [left|by right].
Qed.

Section triples.
Context `{GoStd} `{JsonStd}.
Context (v : View) (L : layout) (Ds : list delta) (HR : View_rep v L Ds).
Context (nodesByID : gmap N nodeState) (oidToIDs : gmap string (list N)).

(** The ids an object id stands for: those the database gave, else those the
    view knows under it that are still there. *)
Definition stands (oid : string) (id : N) : Prop :=
  id ∈ default [] (oidToIDs !! oid) ∨
  (default [] (oidToIDs !! oid) = [] ∧ graph_objectid L Ds id = Some oid ∧ is_Some (nodesByID !! id)).

Lemma rekeyedEndpointIDs_spec oid : ∃ ids, rekeyedEndpointIDs v nodesByID oid = Some ids ∧
  ∀ id, id ∈ ids ↔ graph_objectid L Ds id = Some oid ∧ is_Some (nodesByID !! id).
Proof.
  unfold rekeyedEndpointIDs. destruct (NodesByObjectID_graph v L Ds HR oid) as (l & -> & _ & Hl). cbn [mbind option_bind].
  assert (∃ ids, foldM (λ ids n, id ← View_GraphID v n; Some (if bool_decide (is_Some (nodesByID !! id)) then ids ++ [id] else ids)) l [] = Some ids ∧
    ∀ id, id ∈ ids ↔ ∃ n, n ∈ l ∧ idx (view_ids v) n = Some id ∧ is_Some (nodesByID !! id)) as (ids & Ef & Hids).
  { destruct (foldM_inv (λ pre ids, ∀ id, id ∈ ids ↔ ∃ n, n ∈ pre ∧ idx (view_ids v) n = Some id ∧ is_Some (nodesByID !! id))
      (λ ids n, id ← View_GraphID v n; Some (if bool_decide (is_Some (nodesByID !! id)) then ids ++ [id] else ids)) l [])
      as (ids & E & Hids); [set_solver| |by exists ids].
    intros pre n post ids El Hpre. assert (n ∈ l) as Hn by (rewrite El; set_solver). apply Hl in Hn as (id & Hid & _).
    rewrite GraphID_spec, Hid. cbn [mbind option_bind]. eexists. split; [done|]. intros id'. setoid_rewrite elem_of_app. setoid_rewrite list_elem_of_singleton.
    case_bool_decide as Hs; [rewrite elem_of_app, list_elem_of_singleton|]; rewrite Hpre; naive_solver. }
  assert (∀ id, (∃ n, n ∈ l ∧ idx (view_ids v) n = Some id ∧ is_Some (nodesByID !! id)) ↔ graph_objectid L Ds id = Some oid ∧ is_Some (nodesByID !! id)) as Heq.
  { intros id. split.
    - intros (n & (id' & Hid' & Ho)%Hl & Hid & Hs). by simplify_eq.
    - intros [Ho Hs]. pose proof Ho as Ho'. unfold graph_objectid in Ho'. destruct (g_nodes (view_graph L Ds) !! id) as [st|] eqn:Est; [|done].
      destruct (node_numbered v L Ds HR _ _ Est) as [n Hn]. exists n. split; [|done]. apply Hl. eauto. }
  setoid_rewrite Heq in Hids. exists ids. split; [|done]. destruct l; [|done]. simpl in Ef. by injection Ef as <-.
Qed.
Lemma resolve_oid_spec oid : ∃ ids, resolve_oid v nodesByID oidToIDs oid = Some ids ∧ ∀ id, id ∈ ids ↔ stands oid id.
Proof.
  unfold resolve_oid, stands. destruct (default [] (oidToIDs !! oid)) as [|x l].
  - destruct (rekeyedEndpointIDs_spec oid) as (ids & -> & Hids). exists ids. split; [done|]. intros id. rewrite Hids, elem_of_nil. naive_solver.
  - exists (x :: l). split; [done|]. intros id. naive_solver.
Qed.

Context (kinds : gmap string KindID) (pending : gset edgeKey).

Lemma elem_of_pairs s e ss es : (s, e) ∈ pairs_of ss es ↔ s ∈ ss ∧ e ∈ es.
Proof.
  unfold pairs_of. rewrite list_elem_of_bind. setoid_rewrite list_elem_of_fmap. naive_solver.
Qed.

(** What the second pass will ask for an object-id triple. *)
Definition asked (r : rekeyed) (t : EdgeTripleOIDRef) : Prop :=
  let both := λ s e, stands (to_StartOID t) s ∧ stands (to_EndOID t) e in
  match kinds !! kindName (to_Kind t) with
  | None => (∃ s e, both s e) ∨ 0 < rk_unnameable r
  | Some k =>
      (∀ s e, both s e → (s, e, k) ∈ pending ∨ (s, e, k) ∈ rk_keys r) ∧
      (∀ s, stands (to_StartOID t) s → (∀ e, ¬ stands (to_EndOID t) e) → s ∈ default ∅ (rk_grouped r !! (edgeStartSide, k))) ∧
      (∀ e, stands (to_EndOID t) e → (∀ s, ¬ stands (to_StartOID t) s) → e ∈ default ∅ (rk_grouped r !! (edgeEndSide, k))) ∧
      ((∀ s, ¬ stands (to_StartOID t) s) → (∀ e, ¬ stands (to_EndOID t) e) → 0 < rk_unnameable r)
  end.
(** [r'] asks at least as much as [r]. *)
Record grows (r r' : rekeyed) : Prop := {
  gr_keys : ∀ k, k ∈ rk_keys r → k ∈ rk_keys r';
  gr_grouped : ∀ g (id : N), id ∈ (default ∅ (rk_grouped r !! g) : gset N) → id ∈ (default ∅ (rk_grouped r' !! g) : gset N);
  gr_unnameable : rk_unnameable r ≤ rk_unnameable r';
  gr_absent : ∀ x, x ∈ rk_absent r' → x ∈ rk_absent r ∨ x.2 = unresolvedTripleKind;
  gr_kept : ∀ x, x ∈ rk_absent r → x ∈ rk_absent r';
  gr_seen : (∀ k, k ∈ rk_seen r → k ∈ rk_keys r) → ∀ k, k ∈ rk_seen r' → k ∈ rk_keys r';
}.
Lemma grows_refl r : grows r r.
Proof. split; eauto; lia. Qed.
Lemma grows_trans r1 r2 r3 : grows r1 r2 → grows r2 r3 → grows r1 r3.
Proof. intros [] []. split; eauto; [lia|]. intros x Hx. destruct (gr_absent1 _ Hx) as [?|?]; eauto. Qed.
Lemma asked_grows r r' t : grows r r' → asked r t → asked r' t.
Proof.
  intros [G1 G2 G3 _ _ _]. unfold asked. destruct (kinds !! _) as [k|].
  - intros (A1 & A2 & A3 & A4). split_and!; eauto.
    + intros s e Hb. destruct (A1 s e Hb); eauto.
    + intros Hs He. specialize (A4 Hs He). lia.
  - intros [?|?]; [by left|right; lia].
Qed.

Lemma add_key_spec r key : (∀ k, k ∈ rk_seen r → k ∈ rk_keys r) →
  grows r (add_key pending r key) ∧ (key ∈ pending ∨ key ∈ rk_keys (add_key pending r key)).
Proof.
  intros Hs. unfold add_key. case_bool_decide as Hp; [split; [apply grows_refl|by left]|].
  case_bool_decide as Hk; [split; [apply grows_refl|right; by apply Hs]|].
  split; [split; simpl; set_solver by lia|]. right. simpl. set_solver.
Qed.
Lemma pairs_spec k r ps : (∀ k, k ∈ rk_seen r → k ∈ rk_keys r) →
  let r' := foldl (λ r '(s, e), add_key pending r (s, e, k)) r ps in
  grows r r' ∧ ∀ s e, (s, e) ∈ ps → (s, e, k) ∈ pending ∨ (s, e, k) ∈ rk_keys r'.
Proof.
  revert r. induction ps as [|[s e] ps IH]; intros r Hs; simpl; [split; [apply grows_refl|set_solver]|].
  destruct (add_key_spec r (s, e, k) Hs) as [G1 K1]. destruct (IH (add_key pending r (s, e, k))) as [G2 K2]; [by apply (gr_seen _ _ G1)|].
  split; [by eapply grows_trans|]. intros s' e' [[= -> ->]|Hin]%elem_of_cons; [|by apply K2].
  destruct K1 as [?|K1]; [by left|right]. by apply (gr_keys _ _ G2).
Qed.

Lemma count_grows r : grows r (count_unnameable r).
Proof. split; simpl; eauto; lia. Qed.
Lemma addFanout_grows r side k ids : grows r (addFanout r side k ids).
Proof.
  split; simpl; eauto; try lia. intros g id Hg. rewrite lookup_insert. case_decide as E; [rewrite <- E in Hg; simpl; set_solver|done].
Qed.

Lemma rekey_step_spec r t : (∀ k, k ∈ rk_seen r → k ∈ rk_keys r) →
  ∃ r', rekey_step v nodesByID oidToIDs kinds pending r t = Some r' ∧ grows r r' ∧ asked r' t.
Proof.
  intros Hs. unfold rekey_step. destruct (resolve_oid_spec (to_StartOID t)) as (ss & -> & Hss). cbn [mbind option_bind].
  destruct (resolve_oid_spec (to_EndOID t)) as (es & -> & Hes). cbn [mbind option_bind]. eexists. split; [done|].
  assert (∀ l : list N, (0 <? len l) = true ↔ ∃ x, x ∈ l) as Hlen.
  { intros [|x l]; unfold len; simpl; [split; [done|set_solver]|]. split; [intros _; exists x; left|intros _; by apply N.ltb_lt]. }
  assert (∀ l : list N, (0 <? len l) = false ↔ ∀ x, x ∉ l) as Hnil.
  { intros l. rewrite <- not_true_iff_false, Hlen. naive_solver. }
  unfold asked. cbv beta zeta.
  destruct (kinds !! kindName (to_Kind t)) as [k|]; setoid_rewrite <- Hss; setoid_rewrite <- Hes;
    destruct (0 <? len ss) eqn:Els, (0 <? len es) eqn:Ele; simpl; rewrite ?Hlen, ?Hnil in *.
  - destruct (pairs_spec k r (pairs_of ss es) Hs) as [G K]. split; [done|]. setoid_rewrite elem_of_pairs in K. naive_solver.
  - split; [by apply addFanout_grows|]. split_and!; [naive_solver| |naive_solver..]. intros s Hin _. simpl. rewrite lookup_insert_eq. simpl. set_solver.
  - split; [by apply addFanout_grows|]. split_and!; [naive_solver|naive_solver| |naive_solver]. intros s Hin _. simpl. rewrite lookup_insert_eq. simpl. set_solver.
  - split; [apply count_grows|]. split_and!; [naive_solver..|]. intros _ _. simpl. lia.
  - split; [|left; destruct Els, Ele; eauto]. generalize (pairs_of ss es). intros l. clear. revert r. induction l as [|[s e] l IH]; intros r; simpl; [apply grows_refl|].
    eapply grows_trans; [|apply IH]. split; simpl; set_solver by lia.
  - split; [apply count_grows|right; simpl; lia].
  - split; [apply count_grows|right; simpl; lia].
  - split; [apply count_grows|right; simpl; lia].
Qed.

(** The fan-outs hold every group. *)
Lemma sortedFanouts_elem (grouped : gmap fanoutGroup (gset N)) side k id : id ∈ (default ∅ (grouped !! (side, k)) : gset N) →
  ∃ f, f ∈ sortedFanouts grouped ∧ ef_side f = side ∧ ef_kindID f = k ∧ id ∈ ef_ids f.
Proof.
  intros Hin. destruct (grouped !! (side, k)) as [members|] eqn:Eg; simpl in Hin; [|set_solver].
  exists (mkFanout side k (go_sort (less_key (λ id : N, id)) (elements members))). split_and!; [|done..|].
  - unfold sortedFanouts. destruct (Nat.eqb_spec (size grouped) 0) as [Es|_].
    + apply map_size_empty_iff in Es as ->. by rewrite lookup_empty in Eg.
    + rewrite go_sort_elem. apply list_elem_of_fmap. exists ((side, k), members). split; [done|]. by apply elem_of_map_to_list.
  - simpl. by rewrite go_sort_elem, elem_of_elements.
Qed.

(** What the second pass asks for, triple by triple. *)
Definition asked_for (keys : list edgeKey) (fanouts : list endpointFanout) (unnameable : N) (t : EdgeTripleOIDRef) : Prop :=
  let both := λ s e, stands (to_StartOID t) s ∧ stands (to_EndOID t) e in
  match kinds !! kindName (to_Kind t) with
  | None => (∃ s e, both s e) ∨ 0 < unnameable
  | Some k =>
      (∀ s e, both s e → (s, e, k) ∈ pending ∨ (s, e, k) ∈ keys) ∧
      (∀ s, stands (to_StartOID t) s → (∀ e, ¬ stands (to_EndOID t) e) →
         ∃ f, f ∈ fanouts ∧ ef_side f = edgeStartSide ∧ ef_kindID f = k ∧ s ∈ ef_ids f) ∧
      (∀ e, stands (to_EndOID t) e → (∀ s, ¬ stands (to_StartOID t) s) →
         ∃ f, f ∈ fanouts ∧ ef_side f = edgeEndSide ∧ ef_kindID f = k ∧ e ∈ ef_ids f) ∧
      ((∀ s, ¬ stands (to_StartOID t) s) → (∀ e, ¬ stands (to_EndOID t) e) → 0 < unnameable)
  end.

Lemma rekeyedTripleKeys_spec deferred absent : ∃ keys fanouts unnameable absent',
  rekeyedTripleKeys v nodesByID oidToIDs kinds deferred pending absent = Some (keys, fanouts, unnameable, absent') ∧
  (∀ x, x ∈ absent' → x ∈ absent ∨ x.2 = unresolvedTripleKind) ∧ (∀ x, x ∈ absent → x ∈ absent') ∧ ∀ t, t ∈ deferred → asked_for keys fanouts unnameable t.
Proof.
  unfold rekeyedTripleKeys. destruct (N.eqb_spec (len deferred) 0) as [El|_].
  { assert (deferred = []) as -> by (destruct deferred; [done|unfold len in El; simpl in El; lia]).
    eexists _, _, _, _. split; [done|]. split; [by left|]. split; [done|set_solver]. }
  set (r0 := mkRekeyed [] ∅ ∅ absent 0).
  destruct (foldM_inv (λ pre r, grows r0 r ∧ ∀ t, t ∈ pre → asked r t) (rekey_step v nodesByID oidToIDs kinds pending) deferred r0)
    as (r & -> & G & Ha); [split; [apply grows_refl|set_solver]| |].
  { intros pre t post r _ [G Ha]. destruct (rekey_step_spec r t) as (r' & -> & G' & At).
    { apply (gr_seen _ _ G). simpl. set_solver. }
    exists r'. split; [done|]. split; [by eapply grows_trans|].
    intros t' [Hin| ->%list_elem_of_singleton]%elem_of_app; [|done]. eapply asked_grows; [done|by apply Ha]. }
  cbn [mbind option_bind]. eexists _, _, _, _. split; [done|]. split; [intros x Hx; by apply (gr_absent _ _ G) in Hx|]. split; [apply (gr_kept _ _ G)|].
  intros t Ht. specialize (Ha t Ht). revert Ha. unfold asked, asked_for. destruct (kinds !! _) as [k|]; [|done].
  intros (A1 & A2 & A3 & A4). split_and!; [done| | |done]; intros; apply sortedFanouts_elem; eauto.
Qed.
End triples.

(** ** The whole read-back *)

(** An absent triple the database has no edge of; or one whose kind is unknown. *)
Definition no_edge (d : database) (x : N * N * KindID) : Prop := x.2 = unresolvedTripleKind ∨ ∀ e, db_edge d !! e ≠ Some x.

Lemma triple_results (d : database) (found : gmap edgeKey edgeState) (keys : list edgeKey) (edges : gmap N edgeState) (absent : gset (N * N * KindID)) : database_ok d → reads_triples d keys found →
  (∀ e es, edges !! e = Some es → ∃ x, db_edge d !! e = Some x ∧ es = edge_of e x) → (∀ x, x ∈ absent → no_edge d x) →
  let r := foldl (triple_result found) (edges, absent) keys in
  (∀ e es, r.1 !! e = Some es → ∃ x, db_edge d !! e = Some x ∧ es = edge_of e x) ∧
  (∀ e, is_Some (edges !! e) → is_Some (r.1 !! e)) ∧ (∀ x, x ∈ r.2 → no_edge d x) ∧
  (∀ k e, k ∈ keys → db_edge d !! e = Some k → is_Some (r.1 !! e)) ∧
  (∀ x, x ∈ absent → x ∈ r.2) ∧ ∀ k, k ∈ keys → (∀ e, db_edge d !! e ≠ Some k) → k ∈ r.2.
Proof.
  intros Hdb [F1 F2]. assert (∀ k e, k ∈ keys → found !! k = None → db_edge d !! e ≠ Some k) as Hno.
  { intros k e Hk Hf He. destruct (F2 k e Hk He) as [es Hes]. congruence. }
  clear F2. revert edges absent. induction keys as [|k keys IH]; intros edges absent He Ha; simpl; [split_and!; [done|done|done|set_solver|done|set_solver]|].
  specialize (IH (λ k' e Hk, Hno k' e (list_elem_of_further _ _ _ Hk))).
  assert (triple_result found (edges, absent) k = match found !! k with Some es => (<[est_id es := es]> edges, absent) | None => (edges, {[k]} ∪ absent) end) as -> by done.
  destruct (found !! k) as [es|] eqn:Ef.
  - destruct (F1 _ _ Ef) as (e0 & He0 & ->). change (est_id (edge_of e0 k)) with e0.
    destruct (IH (<[e0 := edge_of e0 k]> edges) absent) as (R1 & R2 & R3 & R4 & R5 & R6); [|done|].
    { intros e es [[<- <-]|[_ Hes]]%lookup_insert_Some; [by exists k|by apply He]. }
    split_and!; [done| |done| |done|].
    + intros e Hs. apply R2. rewrite lookup_insert. case_decide; [by eexists|done].
    + intros k' e [->|Hk]%elem_of_cons Hek; [|by eapply R4]. assert (e = e0) as -> by (by eapply (dbo_triples _ Hdb)).
      apply R2. rewrite lookup_insert_eq. by eexists.
    + intros k' [->|Hk]%elem_of_cons Hnone; [by destruct (Hnone e0)|by apply R6].
  - destruct (IH edges ({[k]} ∪ absent)) as (R1 & R2 & R3 & R4 & R5 & R6); [done| |].
    { intros x [->%elem_of_singleton|Hx]%elem_of_union; [|by apply Ha]. right. intros e. apply Hno; [left|done]. }
    split_and!; [done..| |set_solver|].
    + intros k' e [->|Hk]%elem_of_cons Hek; [|by eapply R4]. destruct (Hno k e); [left|done..].
    + intros k' [->|Hk]%elem_of_cons Hnone; [apply R5; set_solver|by apply R6].
Qed.

(** The first pass over the recorded triples. *)
Lemma triple_steps (kinds : gmap string KindID) ts :
  let r := foldl (triple_step kinds) (∅, ∅) ts in
  (∀ x, x ∈ r.2 → x.2 = unresolvedTripleKind) ∧
  ∀ t k, t ∈ ts → kinds !! kindName (tr_Kind t) = Some k → (tr_Start t, tr_End t, k) ∈ r.1.
Proof.
  induction ts as [|t ts [IH1 IH2]] using rev_ind; [split; set_solver|]. rewrite foldl_app. simpl.
  destruct (foldl (triple_step kinds) (∅, ∅) ts) as [pending absent]. simpl in *. unfold triple_step.
  destruct (kinds !! kindName (tr_Kind t)) as [k0|] eqn:Ek; simpl; (split; [set_solver|]).
  - intros t' k [Ht| ->%list_elem_of_singleton]%elem_of_app Hk; [|by simplify_eq; set_solver]. specialize (IH2 _ _ Ht Hk). set_solver.
  - intros t' k [Ht| ->%list_elem_of_singleton]%elem_of_app Hk; [by apply IH2|congruence].
Qed.
Lemma pair_steps (kind : option KindID) ps pending absent :
  let r := foldl (pair_step kind) (pending, absent) ps in
  (∀ x, x ∈ pending → x ∈ r.1) ∧ (∀ x, x ∈ r.2 → x ∈ absent ∨ x.2 = unresolvedTripleKind) ∧
  ∀ k s e, kind = Some k → (s, e) ∈ ps → (s, e, k) ∈ r.1.
Proof.
  revert pending absent. induction ps as [|[s e] ps IH]; intros pending absent; simpl; [split_and!; [done|by left|set_solver]|].
  destruct kind as [k|]; unfold pair_step at 2 4 6; simpl.
  - destruct (IH ({[(s, e, k)]} ∪ pending) absent) as (R1 & R2 & R3). split_and!; [set_solver|done|].
    intros k' s' e' [= <-] [[= -> ->]|Hin]%elem_of_cons; [apply R1; set_solver|by eapply R3].
  - destruct (IH pending ({[(s, e, unresolvedTripleKind)]} ∪ absent)) as (R1 & R2 & R3). split_and!; [done| |done].
    intros x Hx. destruct (R2 x Hx) as [[->%elem_of_singleton|?]%elem_of_union|?]; [by right|by left|by right].
Qed.
Lemma oid_steps (kinds : gmap string KindID) (oids : gmap string (list N)) (ts : list EdgeTripleOIDRef) (pending : gset edgeKey) (absent : gset (N * N * KindID)) :
  let r := foldl (oid_step kinds oids) (pending, absent, []) ts in
  (∀ x, x ∈ pending → x ∈ r.1.1) ∧ (∀ x, x ∈ r.1.2 → x ∈ absent ∨ x.2 = unresolvedTripleKind) ∧
  (∀ t, t ∈ ts → t ∈ r.2 ∨
    (default [] (oids !! to_StartOID t) ≠ [] ∧ default [] (oids !! to_EndOID t) ≠ [] ∧
     ∀ k s e, kinds !! kindName (to_Kind t) = Some k → s ∈ default [] (oids !! to_StartOID t) → e ∈ default [] (oids !! to_EndOID t) → (s, e, k) ∈ r.1.1)) ∧ (ts = [] → r.2 = []).
Proof.
  induction ts as [|t ts (IH1 & IH2 & IH3 & _)] using rev_ind; [split_and!; [done|by left|set_solver|done]|]. rewrite foldl_app. simpl.
  destruct (foldl (oid_step kinds oids) (pending, absent, []) ts) as [[p a] deferred]. simpl in *. unfold oid_step.
  assert (∀ l : list N, (len l =? 0) = false → l ≠ []) as Hne by (by intros l El ->).
  destruct ((len _ =? 0) || (len _ =? 0)) eqn:El; simpl.
  - split_and!; [done..| |by destruct ts]. intros t' [Ht| ->%list_elem_of_singleton]%elem_of_app; [|left; set_solver].
    destruct (IH3 _ Ht); [left; set_solver|by right].
  - apply orb_false_iff in El as [Es Ee].
    pose proof (pair_steps (kinds !! kindName (to_Kind t)) (pairs_of (default [] (oids !! to_StartOID t)) (default [] (oids !! to_EndOID t))) p a) as Hp.
    destruct (foldl (pair_step _) (p, a) _) as [p' a']. destruct Hp as (R1 & R2 & R3). simpl in *. split_and!; [by eauto| | |by destruct ts].
    + intros x Hx. destruct (R2 _ Hx); [by apply IH2|by right].
    + intros t' [Ht| ->%list_elem_of_singleton]%elem_of_app.
      * destruct (IH3 _ Ht) as [?|(? & ? & ?)]; [by left|right]. split_and!; [done..|]. eauto.
      * right. split_and!; [by apply Hne..|]. intros k s e Hk Hs He. apply R3; [done|]. by apply elem_of_pairs.
Qed.

Section spec.
Context `{GoStd} `{JsonStd}.
Context (pg_objectid : bytes → option string) (answers : nat → option database) (defaultGraph : option Z).
Context (v : View) (L : layout) (Ds : list delta) (HR : View_rep v L Ds).
Context (d : database) (E : goerr → Prop) (cs : ChangeSet).
Let G := view_graph L Ds.

(** The database is at rest, and keeps its own rules; the view's kind table
    says nothing it does not. *)
Hypothesis Hrest : ∀ n d', answers n = Some d' → d' = d.
Hypothesis Hdb : database_ok d.
Hypothesis Hkinds : view_kinds_true d (Some v).
(** [->>'objectid'] gives the string Go reads there. *)
Hypothesis Hpg : ∀ b o, objectIDFromProps b = Some o → pg_objectid b = Some o.
(** What may go wrong. *)
Hypothesis HE : ∀ n, answers n = None → E ErrQuery.
Hypothesis HEg : defaultGraph = None → E ErrNoGraph.
Hypothesis HEk : ∀ k, ((∃ id n, db_node d !! id = Some n ∧ k ∈ dn_kind_ids n) ∨ ∃ e s t, db_edge d !! e = Some (s, t, k)) →
  db_kind d !! k = None → E ErrUnnamedKind.
Hypothesis HEu : ∀ cr kind, cr ∈ NodeKindCriteria cs → kind ∈ nk_Exclude cr →
  (kind = None ∨ ∀ k, db_kind d !! k ≠ Some (kindName kind)) → E (ErrUnknownKind (kindName kind)).

(** A delete by kinds, in terms of the database's kind table. *)
Definition db_deletes (cr : NodeKindDeleteCriteria) (st : node_state) : Prop :=
  (nk_Include cr = [] ∨ ∃ name k, Some name ∈ nk_Include cr ∧ db_kind d !! k = Some name ∧ k ∈ st.1) ∧
  ∀ kind k, kind ∈ nk_Exclude cr → db_kind d !! k = Some (kindName kind) → k ∉ st.1.

Lemma lookup_true criteriaKinds lk : criteriaKinds ⊆ db_kind d → newKindLookup v criteriaKinds = Some lk →
  (∀ kind k, kindLookup_id lk kind = Some k → db_kind d !! k = Some (kindName kind)) ∧
  ∀ name k, db_kind d !! k = Some name → view_knows (Some v) (Some name) ∨ criteriaKinds !! k = Some name → kindLookup_id lk (Some name) = Some k.
Proof.
  intros Hsub Elk. destruct Hkinds as (t & Et & Hid & _). unfold newKindLookup in Elk. rewrite Et in Elk. cbn [mbind option_bind] in Elk.
  injection Elk as <-. set (added := foldl _ ∅ _).
  assert (added = foldl (λ out (r : KindID * string), <[r.2 := r.1]> out) ∅ (map_to_list criteriaKinds)) as Ea
    by (apply foldl_ext_in; by intros ? []).
  assert (∀ name k, added !! name = Some k → db_kind d !! k = Some name) as Hadd.
  { intros name k Hk. rewrite Ea in Hk. apply (foldl_rows snd fst) in Hk as [Hk|([k' n] & Hr & <- & <-)]; [by rewrite lookup_empty in Hk|].
    apply elem_of_map_to_list in Hr. eapply map_subseteq_spec; [exact Hsub|done]. }
  split.
  - intros kind k. unfold kindLookup_id. simpl. destruct (KindTable_ID t (kindName kind)) eqn:Ei; [intros [= <-]; by apply Hid|apply Hadd].
  - intros name k Hk Hin. unfold kindLookup_id. simpl. destruct (KindTable_ID t name) as [k'|] eqn:Ei.
    + f_equal. eapply (dbo_kinds _ Hdb); [by apply Hid|done].
    + destruct Hin as [(k' & Hv)|Hc].
      * unfold viewKindID in Hv. rewrite Et in Hv. cbn [mbind option_bind] in Hv. simpl in Hv. congruence.
      * destruct (proj2 (foldl_rows snd fst (map_to_list criteriaKinds) ∅ name)) as [k' Hk'].
        { right. exists (k, name). split; [by apply elem_of_map_to_list|done]. }
        rewrite <- Ea in Hk'. rewrite Hk'. f_equal. eapply (dbo_kinds _ Hdb); [by apply Hadd|done].
Qed.

(** What the tables have been found to hold so far. *)
Record state_true (st : readState) : Prop := {
  sto_nodes : told (db_node d) node_of (rs_nodes st) (rs_absentNodes st);
  sto_edges : told (db_edge d) edge_of (rs_edges st) (rs_absentEdges st);
  sto_triples : ∀ x, x ∈ rs_absentTriples st → no_edge d x;
}.
Definition node_answered (st : readState) (id : N) : Prop := answered (rs_nodes st) (rs_absentNodes st) id.
Definition edge_answered (st : readState) (e : N) : Prop := answered (rs_edges st) (rs_absentEdges st) e.

(** The nodes the database has under an object id, and the ids it stands for:
    those, or the nodes the view knows under it that are still there. *)
Definition db_named (oid : string) (id : N) : Prop :=
  ∃ n, db_node d !! id = Some n ∧ objectIDFromProps (dn_properties n) = Some oid.
Definition db_stands (oid : string) (id : N) : Prop :=
  db_named oid id ∨ ((∀ id', ¬ db_named oid id') ∧ graph_objectid L Ds id = Some oid ∧ is_Some (db_node d !! id)).

(** A fallback was recorded, or the write had failed. *)
Definition gave_up (cs' : ChangeSet) : Prop := (WriteIncomplete cs).1 = true ∨ (HasFallback cs').1 = true.

(** Every edge of an object-id triple is found, if it can be named. *)
Definition oid_triple_found (st : readState) (cs' : ChangeSet) (t : EdgeTripleOIDRef) : Prop :=
  ∀ name k e s s', to_Kind t = Some name → db_kind d !! k = Some name → db_edge d !! e = Some (s, s', k) →
    (db_stands (to_StartOID t) s ∧ db_stands (to_EndOID t) s' → is_Some (rs_edges st !! e)) ∧
    (db_stands (to_StartOID t) s ∧ (∀ x, ¬ db_stands (to_EndOID t) x) → is_Some (rs_edges st !! e) ∨ gave_up cs') ∧
    (db_stands (to_EndOID t) s' ∧ (∀ x, ¬ db_stands (to_StartOID t) x) → is_Some (rs_edges st !! e) ∨ gave_up cs') ∧
    ((∀ x, ¬ db_stands (to_StartOID t) x) ∧ (∀ x, ¬ db_stands (to_EndOID t) x) → gave_up cs').

Lemma HasFallback_record c r : (HasFallback (RecordFallback c r)).1 = true.
Proof.
  unfold HasFallback. simpl. destruct (Nat.eqb_spec (size ({[r]} ∪ cs_fallbacks c)) 0) as [Es|]; [|done].
  apply size_empty_inv in Es. set_solver.
Qed.
Lemma HasFallback_keeps c r : (HasFallback c).1 = true → (HasFallback (RecordFallback c r)).1 = true.
Proof. intros _. apply HasFallback_record. Qed.

(** *** The second pass *)

Context (criteriaKinds : gmap KindID string) (rows : list nodeState) (oidToIDs : gmap string (list N))
  (kinds : gmap string KindID) (all_kinds : list Kind) (pending : gset edgeKey) (deferred : list EdgeTripleOIDRef) (st : readState).
Hypothesis Hck : criteriaKinds ⊆ db_kind d ∧ ∀ name k, mentions cs (Some name) → db_kind d !! k = Some name →
  view_knows (Some v) (Some name) ∨ criteriaKinds !! k = Some name.
Hypothesis Hoids : reads_oids pg_objectid d (NodeObjectIDs cs) rows oidToIDs.
Hypothesis Hres : resolves d all_kinds kinds.
Hypothesis Hst : state_true st.
Hypothesis Hpending : ∀ x e, x ∈ pending → db_edge d !! e = Some x → is_Some (rs_edges st !! e).

Lemma map_named oid id : oid ∈ NodeObjectIDs cs → id ∈ default [] (oidToIDs !! oid) ↔ db_named oid id.
Proof.
  intros Ho. rewrite (ro_map _ _ _ _ _ Hoids). split.
  - intros (ns & Hns & <- & Hoid). destruct (ro_sound _ _ _ _ _ Hoids _ Hns) as (n & Hn & En). exists n. split; [done|]. by rewrite En in Hoid.
  - intros (n & Hn & Hoid). exists (node_of id n). split; [|done]. eapply (ro_all _ _ _ _ _ Hoids); eauto.
Qed.
Lemma map_nil oid : oid ∈ NodeObjectIDs cs → default [] (oidToIDs !! oid) = [] ↔ ∀ id, ¬ db_named oid id.
Proof.
  intros Ho. setoid_rewrite <- map_named; [|done]. destruct (default [] _) as [|x l]; [set_solver|]. split; [done|]. intros Hno. destruct (Hno x). left.
Qed.

(** The nodes the second pass asks about again. *)
Definition node_asked (id : N) : Prop := ∃ st0, g_nodes G !! id = Some st0 ∧
  ((∃ oid, oid ∈ NodeObjectIDs cs ∧ (∀ id', ¬ db_named oid id') ∧ bag_objectid st0.2 = Some oid) ∨
   ∃ cr, cr ∈ NodeKindCriteria cs ∧ db_deletes cr st0).
Definition edge_asked (e : N) : Prop := ∃ a b k name ks, g_edges G !! e = Some (a, b, k) ∧ ks ∈ EdgeKindCriteria cs ∧ Some name ∈ ks ∧
  db_kind d !! k = Some name.

Lemma stands_iff nodesByID absentNodes oid id : told (db_node d) node_of nodesByID absentNodes →
  (∀ id, node_asked id → answered nodesByID absentNodes id) → oid ∈ NodeObjectIDs cs →
  stands L Ds nodesByID oidToIDs oid id ↔ db_stands oid id.
Proof.
  intros [T1 T2] Ha Ho. unfold stands, db_stands. rewrite map_named, map_nil by done. split; (intros [?|(Hno & Hg & Hs)]; [by left|right]).
  - split_and!; [done..|]. destruct Hs as [s Hs]. destruct (T1 _ _ Hs) as (r & ? & _). by exists r.
  - split_and!; [done..|]. pose proof Hg as Hg'. unfold graph_objectid in Hg'. destruct (g_nodes (view_graph L Ds) !! id) as [st0|] eqn:Est; [|done].
    destruct (Ha id) as [?|Hab]; [|done|].
    + exists st0. split; [done|]. left. by exists oid.
    + rewrite (T2 _ Hab) in Hs. by destruct Hs.
Qed.

Lemma candidates_spec absentObjectIDs : (∀ oid, oid ∈ absentObjectIDs ↔ oid ∈ NodeObjectIDs cs ∧ ∀ id, ¬ db_named oid id) →
  ∃ r, collectViewCandidates v criteriaKinds cs absentObjectIDs = Some r ∧
    match r with
    | inr err => E err
    | inl c => (∃ ids, nodeIDs v c = Some ids ∧ (∀ id, node_asked id → id ∈ ids) ∧ ∀ id, id ∈ ids → is_Some (g_nodes G !! id)) ∧
        ∀ e, edge_asked e → e ∈ vc_edges c
    end.
Proof.
  intros Habs. destruct (newKindLookup_total v L Ds HR criteriaKinds) as [lk Elk].
  destruct (lookup_true criteriaKinds lk (proj1 Hck) Elk) as [Lk1 Lk2].
  assert (∀ name k, mentions cs (Some name) → db_kind d !! k = Some name → kindLookup_id lk (Some name) = Some k) as Lk3.
  { intros name k Hm Hk. apply Lk2; [done|]. by apply (proj2 Hck). }
  destruct (collectViewCandidates_spec v L Ds HR criteriaKinds cs absentObjectIDs lk Elk) as (r & -> & Hr).
  { intros k Hk. apply list_elem_of_omap in Hk as (kind & _ & Hk%Lk1). by eapply (dbo_kind_range _ Hdb). }
  exists r. split; [done|]. destruct r as [c|err].
  - destruct Hr as (Hun & (ids & E1 & _ & Hids) & _ & Hes). split.
    + exists ids. split; [done|]. split; [|intros id (st0 & ? & _)%Hids; by exists st0]. intros id (st0 & Hg & Hor). apply Hids. exists st0. split; [done|].
      destruct Hor as [(oid & Ho & Hno & Hb)|(cr & Hcr & [Hinc Hexc])]; [left; exists oid; split; [by apply Habs|done]|right].
      exists cr. split; [done|]. split.
      * destruct Hinc as [?|(name & k & Hn & Hk & Hin)]; [by left|right]. exists (Some name), k. split_and!; [done| |done].
        apply Lk3; [|done]. left. exists cr. split; [done|by left].
      * intros kind k Hkind Hk%Lk1. by eapply Hexc.
    + intros e (a & b & k & name & ks & Hg & Hks & Hn & Hk). apply Hes. exists a, b, k. split; [done|].
      apply list_elem_of_omap. exists (Some name). split; [apply list_elem_of_In, in_concat; exists ks; by rewrite <- !list_elem_of_In|].
      apply Lk3; [|done]. right. by exists ks.
  - destruct Hr as (cr & kind & Hcr & [Hexc Hno] & ->). apply (HEu cr); [done..|]. destruct kind as [name|]; [right|by left].
    intros k Hk. rewrite (Lk3 name k) in Hno; [done| |done]. left. exists cr. split; [done|by right].
Qed.

Record second_pass_ok (st' : readState) (cs' : ChangeSet) : Prop := {
  sp_true : state_true st';
  sp_nodes : ∀ id, node_answered st id ∨ node_asked id → node_answered st' id;
  sp_edges : ∀ e, edge_answered st e ∨ edge_asked e → edge_answered st' e;
  sp_triples : ∀ t, t ∈ deferred → to_Kind t ∈ all_kinds → to_StartOID t ∈ NodeObjectIDs cs → to_EndOID t ∈ NodeObjectIDs cs →
    oid_triple_found st' cs' t;
  sp_absent : ∀ x, x ∈ rs_absentTriples st → x ∈ rs_absentTriples st';
  sp_found : ∀ e, is_Some (rs_edges st !! e) → is_Some (rs_edges st' !! e);
  sp_quiet : deferred = [] → cs' = cs;
  sp_known : ∀ id, id ∈ rs_absentNodes st' → id ∈ rs_absentNodes st ∨ is_Some (g_nodes G !! id);
}.

Lemma found_kept {V S} (t : gmap N V) (mk : N → V → S) found absent found' absent' id : told t mk found absent → told t mk found' absent' →
  (∀ id, answered found absent id → answered found' absent' id) → is_Some (found !! id) → is_Some (found' !! id).
Proof.
  intros [T1 _] [_ T2] Hk [s Hs]. destruct (Hk id) as [?|Hab]; [left; by eexists|done|].
  destruct (T1 _ _ Hs) as (r & Hr & _). apply T2 in Hab. congruence.
Qed.

Lemma fallbacks_spec (unnameable : N) (overCap : bool) : 0 < unnameable ∨ overCap = true →
  gave_up (if (WriteIncomplete cs).1 then cs
    else let cs := if 0 <? unnameable then RecordFallback cs unresolvableOIDEndpointFallback else cs in
         if overCap then RecordFallback cs edgeFanoutCapFallback else cs).
Proof.
  intros Hor. unfold gave_up. destruct (WriteIncomplete cs).1; [by left|right].
  destruct overCap; [apply HasFallback_record|]. destruct Hor as [Hu|]; [|done]. apply N.ltb_lt in Hu. rewrite Hu. apply HasFallback_record.
Qed.

Lemma wp_second_pass : wp E (second_pass answers v cs criteriaKinds (NodeObjectIDs cs) oidToIDs kinds pending deferred st)
  (λ x, second_pass_ok x.1 x.2).
Proof.
  unfold second_pass. set (absentObjectIDs := filter _ (NodeObjectIDs cs)).
  destruct (candidates_spec absentObjectIDs) as (r & -> & Hr).
  { intros oid. unfold absentObjectIDs. rewrite list_elem_of_filter.
    split; [intros [Hn Ho]; split; [done|by apply map_nil]|intros [Ho Hn]; split; [by apply map_nil|done]]. }
  apply wp_bind. eapply wp_lift; [done|]. destruct r as [c|err]; [|by apply wp_err].
  destruct Hr as ((ids & -> & Hids & Hidg) & Hces). apply wp_bind. eapply wp_lift; [done|].
  destruct Hst as [Hn He Ht].
  apply wp_bind. eapply wp_mono; [apply (wp_reread (db_node d) node_of); [|exact Hn]|].
  { intros l. by apply (wp_nodes_by_id answers d). }
  intros [nodes1 absent1] (Tn1 & Gn1 & An1 & Kn1). simpl in Tn1, Gn1, An1, Kn1.
  apply wp_bind. eapply wp_mono; [apply (wp_reread (db_edge d) edge_of); [|exact He]|].
  { intros l. by apply (wp_edges_by_id answers d). }
  intros [edges1 absentE1] (Te1 & Ge1 & Ae1 & _). simpl in Te1, Ge1, Ae1.
  destruct (rekeyedTripleKeys_spec v L Ds HR nodes1 oidToIDs kinds pending deferred (rs_absentTriples st))
    as (keys & fanouts & unnameable & absentT & Ekeys & Habs & Hkept & Hasked).
  assert (deferred = [] → fanouts = [] ∧ unnameable = 0) as Hquiet by (intros ->; by injection Ekeys as <- <- <- <-).
  rewrite Ekeys. clear Ekeys.
  apply wp_bind. eapply wp_lift; [done|]. apply wp_bind. eapply wp_mono; [by apply (wp_edges_by_triple answers d)|].
  intros found Hfound.
  destruct (triple_results d found keys edges1 absentT Hdb Hfound (proj1 Te1)) as (R1 & R2 & R3 & R4 & R5 & _).
  { intros x [Hx|Hx]%Habs; [by apply Ht|by left]. }
  destruct (foldl (triple_result found) (edges1, absentT) keys) as [edges2 absentT2]. simpl in R1, R2, R3, R4, R5.
  apply wp_bind. eapply wp_mono; [by apply (wp_edges_by_endpoint answers d)|]. intros [fanoutEdges overCap] (F1 & F2 & F3). simpl in F1, F2, F3.
  set (edges3 := foldl (λ m es, <[est_id es := es]> m) edges2 fanoutEdges).
  apply wp_bind. eapply wp_mono; [apply (wp_reread (db_node d) node_of); [|exact Tn1]|].
  { intros l. by apply (wp_nodes_by_id answers d). }
  intros [nodes2 absent2] (Tn2 & Gn2 & _ & Kn2). simpl in Tn2, Gn2, Kn2. apply wp_ret. set (cs' := if (WriteIncomplete cs).1 then _ else _).
  assert (∀ e, is_Some (edges1 !! e) → is_Some (edges3 !! e)) as Hgrow.
  { intros e Hs. unfold edges3. apply (foldl_rows est_id (λ es, es)). left. by apply R2. }
  assert (told (db_edge d) edge_of edges3 absentE1) as Te3.
  { split; [|by destruct Te1]. intros e es Hes. apply (foldl_rows est_id (λ es, es)) in Hes as [Hes|(es' & Hin & <- & ->)]; [by apply R1|].
    destruct (F1 _ Hin) as (e & x & Hx & ->). by exists x. }
  split; simpl; [split; simpl; [done..|exact R3]| | | |intros x Hx; by apply R5, Hkept| | |].
  - intros id [Ha|Ha]; apply Gn2; [by apply Gn1|by apply An1, Hids].
  - intros e Ha. assert (answered edges1 absentE1 e) as [?|?] by (destruct Ha; [by apply Ge1|by apply Ae1, Hces]); [left; by apply Hgrow|by right].
  - intros t Htd Htk Hts Hte name k e s s' Ename Hk Hedge.
    assert (∀ oid id, oid ∈ NodeObjectIDs cs → stands L Ds nodes1 oidToIDs oid id ↔ db_stands oid id) as Hstands.
    { intros oid id Ho. apply (stands_iff nodes1 absent1); [done| |done]. intros id' Ha. by apply An1, Hids. }
    specialize (Hasked t Htd). unfold asked_for in Hasked. cbv beta zeta in Hasked.
    destruct Hres as [_ Hkres]. rewrite Ename in Hasked, Htk. simpl in Hasked. rewrite (Hkres name k Htk Hk) in Hasked.
    setoid_rewrite Hstands in Hasked; [|done..]. destruct Hasked as (A1 & A2 & A3 & A4). split_and!.
    + intros Hb. destruct (A1 _ _ Hb) as [Hp|Hp].
      * apply Hgrow. eapply found_kept; [exact He|exact Te1|exact Ge1|]. by eapply Hpending.
      * apply (foldl_rows est_id (λ es, es)). left. by eapply R4.
    + intros [Hs Hno]. destruct (A2 _ Hs Hno) as (f & Hf & Eside & Ekind & Hin).
      destruct (F2 f e (s, s', k) Hf Hedge) as [Hov|Hfe]; [by rewrite Eside|by rewrite Ekind|right; apply fallbacks_spec; by right|left].
      apply (foldl_rows est_id (λ es, es)). right. by exists (edge_of e (s, s', k)).
    + intros [Hs Hno]. destruct (A3 _ Hs Hno) as (f & Hf & Eside & Ekind & Hin).
      destruct (F2 f e (s, s', k) Hf Hedge) as [Hov|Hfe]; [by rewrite Eside|by rewrite Ekind|right; apply fallbacks_spec; by right|left].
      apply (foldl_rows est_id (λ es, es)). right. by exists (edge_of e (s, s', k)).
    + intros [Hs Hno]. apply fallbacks_spec. left. by apply A4.
  - intros e Hs. apply Hgrow. eapply found_kept; [exact He|exact Te1|exact Ge1|exact Hs].
  - intros Hnil. destruct (Hquiet Hnil) as [-> ->]. unfold cs'. rewrite F3 by done. by destruct (WriteIncomplete cs).1.
  - intros id Hid. destruct (Kn2 id Hid) as [Hid1|Hend]; [destruct (Kn1 id Hid1); [by left|right; by apply Hidg]|exfalso].
    apply dedupeUint64s_elem, list_elem_of_bind in Hend as (es & Hin & Hes). destruct (F1 _ Hes) as (e & [[s t] k] & Hx & ->).
    destruct (dbo_ends _ Hdb _ _ _ _ Hx) as [Hs1 Ht1]. apply (proj2 Tn2) in Hid.
    apply elem_of_cons in Hin as [->|[->|Hin]%elem_of_cons]; [..|by apply elem_of_nil in Hin]; simpl in Hid; rewrite Hid in *; by destruct Hs1 || by destruct Ht1.
Qed.
End spec.

(** *** Reading back *)

(** Sorted values of a map whose keys the values carry. *)
Lemma sorted_values `{GoStd} {S} (key : S → N) (m : gmap N S) : (∀ id s, m !! id = Some s → key s = id) →
  let l := if (size m =? 0)%nat then [] else go_sort (less_key key) (map_to_list m).*2 in
  NoDup (key <$> l) ∧ ∀ s, s ∈ l ↔ m !! key s = Some s.
Proof.
  intros Hk. assert (∀ s, s ∈ (map_to_list m).*2 ↔ m !! key s = Some s) as Hel.
  { intros s. rewrite list_elem_of_fmap. split.
    - intros ([id s'] & -> & Hin%elem_of_map_to_list). simpl. by rewrite (Hk _ _ Hin).
    - intros Hs. exists (key s, s). split; [done|]. by apply elem_of_map_to_list. }
  assert (NoDup (key <$> (map_to_list m).*2)) as Hnd.
  { rewrite <- list_fmap_compose. erewrite (list_fmap_ext _ fst); [apply NoDup_fst_map_to_list|].
    intros i [id s] Hi%list_elem_of_lookup_2. apply elem_of_map_to_list in Hi. simpl. by apply Hk. }
  destruct (Nat.eqb_spec (size m) 0) as [Es|_].
  - apply map_size_empty_iff in Es as ->. split; [constructor|]. intros s. rewrite elem_of_nil, lookup_empty. done.
  - split; [by rewrite go_sort_perm|]. intros s. by rewrite go_sort_elem.
Qed.
Lemma sortedTripleKeys_elem `{GoStd} (m : gset (N * N * KindID)) tr :
  tr ∈ sortedTripleKeys m ↔ (tk_start tr, tk_end tr, tk_kindID tr) ∈ m.
Proof.
  unfold sortedTripleKeys. destruct (Nat.eqb_spec (size m) 0) as [Es|_].
  - apply size_empty_inv in Es. rewrite elem_of_nil. split; [done|set_solver].
  - rewrite list_elem_of_fmap. setoid_rewrite go_sort_elem. setoid_rewrite elem_of_elements. split.
    + by intros ([[s e] k] & -> & Hin).
    + intros Hin. eexists. split; [|exact Hin]. by destruct tr.
Qed.

Section readback.
Context `{GoStd} `{JsonStd}.
Context (pg_objectid : bytes → option string) (answers : nat → option database) (defaultGraph : option Z).
Context (v : View) (L : layout) (Ds : list delta) (HR : View_rep v L Ds).
Context (d : database) (E : goerr → Prop) (cs : ChangeSet).
Let G := view_graph L Ds.
Hypothesis Hrest : ∀ n d', answers n = Some d' → d' = d.
Hypothesis Hdb : database_ok d.
Hypothesis Hkinds : view_kinds_true d (Some v).
Hypothesis Hpg : ∀ b o, objectIDFromProps b = Some o → pg_objectid b = Some o.
Hypothesis HE : ∀ n, answers n = None → E ErrQuery.
Hypothesis HEg : defaultGraph = None → E ErrNoGraph.
Hypothesis HEk : ∀ k, ((∃ id n, db_node d !! id = Some n ∧ k ∈ dn_kind_ids n) ∨ ∃ e s t, db_edge d !! e = Some (s, t, k)) →
  db_kind d !! k = None → E ErrUnnamedKind.
Hypothesis HEu : ∀ cr kind, cr ∈ NodeKindCriteria cs → kind ∈ nk_Exclude cr →
  (kind = None ∨ ∀ k, db_kind d !! k ≠ Some (kindName kind)) → E (ErrUnknownKind (kindName kind)).

(** The rows a change set asks about. *)
Definition node_covered (id : N) : Prop :=
  id ∈ NodeIDs cs ∨ (∃ n o, db_node d !! id = Some n ∧ pg_objectid (dn_properties n) = Some o ∧ o ∈ NodeObjectIDs cs) ∨
  node_asked L Ds d cs id.
Definition edge_covered (e : N) : Prop := e ∈ EdgeIDs cs ∨ edge_asked L Ds d cs e.

Record read_back_ok (rb : readbackResult) (cs' : ChangeSet) : Prop := {
  rb_nodes_true : ∀ ns, ns ∈ rb_nodes rb → ∃ n, db_node d !! nst_id ns = Some n ∧ ns = node_of (nst_id ns) n;
  rb_nodes_nodup : NoDup (nst_id <$> rb_nodes rb);
  rb_gone_nodes : ∀ id, id ∈ rb_absentNodeIDs rb → db_node d !! id = None;
  rb_edges_true : ∀ es, es ∈ rb_edges rb → ∃ x, db_edge d !! est_id es = Some x ∧ es = edge_of (est_id es) x;
  rb_edges_nodup : NoDup (est_id <$> rb_edges rb);
  rb_gone_edges : ∀ e, e ∈ rb_absentEdgeIDs rb → db_edge d !! e = None;
  rb_gone_triples : ∀ tr, tr ∈ rb_absentTriples rb → no_edge d (tk_start tr, tk_end tr, tk_kindID tr);
  rb_node_answered : ∀ id, node_covered id → id ∈ nst_id <$> rb_nodes rb ∨ id ∈ rb_absentNodeIDs rb;
  rb_edge_answered : ∀ e, edge_covered e → e ∈ est_id <$> rb_edges rb ∨ e ∈ rb_absentEdgeIDs rb;
  rb_triples : ∀ t name k e, t ∈ EdgeTriples cs → tr_Kind t = Some name → db_kind d !! k = Some name →
    db_edge d !! e = Some (tr_Start t, tr_End t, k) → e ∈ est_id <$> rb_edges rb;
  rb_no_triples : ∀ t name k, t ∈ EdgeTriples cs → tr_Kind t = Some name → db_kind d !! k = Some name →
    (∀ e, db_edge d !! e ≠ Some (tr_Start t, tr_End t, k)) → mkTripleKey (tr_Start t) (tr_End t) k ∈ rb_absentTriples rb;
  rb_oid_triples : ∀ t name k e s s', t ∈ EdgeTriplesByObjectID cs → to_StartOID t ∈ NodeObjectIDs cs → to_EndOID t ∈ NodeObjectIDs cs →
    to_Kind t = Some name → db_kind d !! k = Some name → db_edge d !! e = Some (s, s', k) →
    db_stands L Ds d (to_StartOID t) s ∨ (∀ x, ¬ db_stands L Ds d (to_StartOID t) x) →
    db_stands L Ds d (to_EndOID t) s' ∨ (∀ x, ¬ db_stands L Ds d (to_EndOID t) x) →
    e ∈ est_id <$> rb_edges rb ∨ gave_up cs cs';
  rb_oid_named : ∀ t name k e s s', t ∈ EdgeTriplesByObjectID cs → to_StartOID t ∈ NodeObjectIDs cs → to_EndOID t ∈ NodeObjectIDs cs →
    to_Kind t = Some name → db_kind d !! k = Some name → db_edge d !! e = Some (s, s', k) →
    db_named d (to_StartOID t) s → db_named d (to_EndOID t) s' → e ∈ est_id <$> rb_edges rb;
  rb_quiet : EdgeTriplesByObjectID cs = [] → cs' = cs;
  rb_gone_known : ∀ id, id ∈ rb_absentNodeIDs rb → id ∈ NodeIDs cs ∨ is_Some (g_nodes G !! id);
  rb_kinds_true : rb_resolvedKinds rb ⊆ db_kind d;
  rb_kinds_named : (∀ ns k, ns ∈ rb_nodes rb → k ∈ nst_kindIDs ns → named (Some v) (rb_resolvedKinds rb) k) ∧
    ∀ es, es ∈ rb_edges rb → named (Some v) (rb_resolvedKinds rb) (est_kindID es);
}.

Lemma final_nodes st : state_true d st →
  NoDup (nst_id <$> sortedNodeStates (rs_nodes st)) ∧
  (∀ ns, ns ∈ sortedNodeStates (rs_nodes st) → ∃ n, db_node d !! nst_id ns = Some n ∧ ns = node_of (nst_id ns) n) ∧
  ∀ id, is_Some (rs_nodes st !! id) → id ∈ nst_id <$> sortedNodeStates (rs_nodes st).
Proof.
  intros [[T _] _ _]. assert (∀ id ns, rs_nodes st !! id = Some ns → nst_id ns = id) as Hk.
  { intros id ns Hns. by destruct (T _ _ Hns) as (n & _ & ->). }
  destruct (sorted_values nst_id (rs_nodes st) Hk) as [Hnd Hel]. split; [done|]. split.
  - intros ns Hns. apply Hel in Hns. by apply T.
  - intros id [ns Hns]. apply list_elem_of_fmap. exists ns. split; [by rewrite (Hk _ _ Hns)|]. apply Hel. by rewrite (Hk _ _ Hns).
Qed.
Lemma final_edges st : state_true d st →
  NoDup (est_id <$> sortedEdgeStates (rs_edges st)) ∧
  (∀ es, es ∈ sortedEdgeStates (rs_edges st) → ∃ x, db_edge d !! est_id es = Some x ∧ es = edge_of (est_id es) x) ∧
  ∀ e, is_Some (rs_edges st !! e) → e ∈ est_id <$> sortedEdgeStates (rs_edges st).
Proof.
  intros [_ [T _] _]. assert (∀ e es, rs_edges st !! e = Some es → est_id es = e) as Hk.
  { intros e es Hes. by destruct (T _ _ Hes) as (x & _ & ->). }
  destruct (sorted_values est_id (rs_edges st) Hk) as [Hnd Hel]. split; [done|]. split.
  - intros es Hes. apply Hel in Hes. by apply T.
  - intros e [es Hes]. apply list_elem_of_fmap. exists es. split; [by rewrite (Hk _ _ Hes)|]. apply Hel. by rewrite (Hk _ _ Hes).
Qed.

Lemma wp_readBack : wp E (readBack pg_objectid answers defaultGraph (Some v) cs) (λ x, read_back_ok x.1 x.2).
Proof.
  unfold readBack. destruct defaultGraph as [g|]; [|apply wp_err; by apply HEg].
  apply wp_bind. eapply wp_mono; [by apply (wp_nodes_by_id answers d)|]. intros found Hfound.
  apply reads_told in Hfound as [Tn1 An1].
  apply wp_bind. eapply wp_mono; [by apply (wp_nodes_by_oid pg_objectid answers d)|]. intros [rows oids] Hoids. simpl in Hoids.
  set (absentNodes := filter _ (NodeIDs cs)) in *. set (nodes1 := foldl (λ m ns, <[nst_id ns := ns]> m) found rows).
  assert (told (db_node d) node_of nodes1 absentNodes) as Tn2.
  { split; [|apply Tn1]. intros id s Hs. apply (foldl_rows nst_id (λ ns, ns)) in Hs as [Hs|(ns & Hin & <- & ->)]; [by apply Tn1|].
    destruct (ro_sound _ _ _ _ _ Hoids _ Hin) as (n & ? & ?). eauto. }
  assert (∀ id, answered found absentNodes id → answered nodes1 absentNodes id) as Gn.
  { intros id [?|?]; [left|by right]. apply (foldl_rows nst_id (λ ns, ns)). by left. }
  apply wp_bind. eapply wp_mono; [by apply (wp_edges_by_id answers d)|]. intros foundE HfoundE.
  apply reads_told in HfoundE as [Te1 Ae1]. set (absentEdges := filter _ (EdgeIDs cs)) in *.
  set (all_kinds := (tr_Kind <$> EdgeTriples cs) ++ (to_Kind <$> EdgeTriplesByObjectID cs)).
  apply wp_bind. eapply wp_mono; [by apply (wp_resolveKindIDs answers d)|]. intros kinds Hres.
  pose proof (triple_steps kinds (EdgeTriples cs)) as Hts.
  destruct (foldl (triple_step kinds) (∅, ∅) (EdgeTriples cs)) as [pending0 absent0]. destruct Hts as [Ht1 Ht2]. simpl in Ht1, Ht2.
  pose proof (oid_steps kinds oids (EdgeTriplesByObjectID cs) pending0 absent0) as Hos.
  destruct (foldl (oid_step kinds oids) (pending0, absent0, []) (EdgeTriplesByObjectID cs)) as [[pending absent1] deferred].
  destruct Hos as (Ho1 & Ho2 & Ho3 & Hd0). simpl in Ho1, Ho2, Ho3, Hd0.
  apply wp_bind. eapply wp_mono; [by apply (wp_edges_by_triple answers d)|]. intros foundT HfoundT.
  destruct (triple_results d foundT (elements pending) foundE absent1 Hdb HfoundT (proj1 Te1)) as (R1 & R2 & R3 & R4 & R5 & R6).
  { intros x [Hx|Hx]%Ho2; left; [by apply Ht1|done]. }
  destruct (foldl (triple_result foundT) (foundE, absent1) (elements pending)) as [edges1 absent2]. simpl in R1, R2, R3, R4, R5, R6.
  apply wp_bind. eapply wp_mono; [by apply (wp_resolveCriteriaKinds answers d)|]. intros criteriaKinds Hck.
  set (st := mkReadState nodes1 absentNodes edges1 absentEdges absent2).
  assert (state_true d st) as Hst by (split; simpl; [done|split; [done|apply Te1]|done]).
  apply wp_bind. eapply wp_mono.
  { eapply (wp_second_pass _ answers) with (rows := rows) (all_kinds := all_kinds); eauto.
    intros x e Hx He. simpl. eapply R4; [|exact He]. by apply elem_of_elements. }
  intros [st' cs'] Hsp. simpl in Hsp.
  pose proof (sp_true _ _ _ _ _ _ _ _ _ Hsp) as Hst'. pose proof (final_nodes st' Hst') as (Fn1 & Fn2 & Fn3).
  pose proof (final_edges st' Hst') as (Fe1 & Fe2 & Fe3).
  apply wp_bind. eapply wp_mono.
  { apply (wp_resolveUnknownKinds answers d); try done. intros es Hes. destruct (Fe2 es Hes) as (x & ? & ?). eauto. }
  intros m (Hm & Hn & He). apply wp_ret. simpl. destruct Hsp as [_ Sn Se St Sa Sf Sq Sk]. destruct Hst' as [[_ N2] [_ E2] T3].
  assert (∀ x e, x ∈ pending → db_edge d !! e = Some x → e ∈ est_id <$> sortedEdgeStates (rs_edges st')) as Hfind.
  { intros x e Hx Hxe. apply Fe3, Sf. eapply R4; [by apply elem_of_elements|done]. }
  assert (∀ t name k e s s', t ∈ EdgeTriplesByObjectID cs → to_StartOID t ∈ NodeObjectIDs cs → to_EndOID t ∈ NodeObjectIDs cs →
    to_Kind t = Some name → db_kind d !! k = Some name → db_edge d !! e = Some (s, s', k) →
    default [] (oids !! to_StartOID t) ≠ [] → default [] (oids !! to_EndOID t) ≠ [] →
    (∀ k s e, kinds !! kindName (to_Kind t) = Some k → s ∈ default [] (oids !! to_StartOID t) → e ∈ default [] (oids !! to_EndOID t) → (s, e, k) ∈ pending) →
    db_stands L Ds d (to_StartOID t) s ∨ (∀ x, ¬ db_stands L Ds d (to_StartOID t) x) →
    db_stands L Ds d (to_EndOID t) s' ∨ (∀ x, ¬ db_stands L Ds d (to_EndOID t) x) →
    e ∈ est_id <$> sortedEdgeStates (rs_edges st')) as first_pass.
  { intros t name k e s s' Ht Hts Hte Ek Hk Hedge Hns Hne Hp Hs Hs'. apply (Hfind (s, s', k)); [|done].
    assert (to_Kind t ∈ all_kinds) as Hak by (apply elem_of_app; right; by apply list_elem_of_fmap_2).
    assert (∀ oid x, oid ∈ NodeObjectIDs cs → default [] (oids !! oid) ≠ [] →
      db_stands L Ds d oid x ∨ (∀ x, ¬ db_stands L Ds d oid x) → x ∈ default [] (oids !! oid)) as Hin.
    { intros oid x Ho Hne' Hx. assert (∃ y, db_named d oid y) as [y Hy].
      { destruct (default [] (oids !! oid)) as [|y l] eqn:El; [done|]. exists y. apply (map_named pg_objectid d cs Hpg rows oids Hoids); [done|].
        rewrite El. left. }
      apply (map_named pg_objectid d cs Hpg rows oids Hoids); [done|]. destruct Hx as [[?|(Hno & _)]|Hno]; [done|by destruct (Hno y)|].
      destruct (Hno y). by left. }
    apply Hp; [|by apply Hin|by apply Hin]. rewrite Ek. rewrite Ek in Hak. by apply Hres. }
  split; simpl; try done.
  - intros id Hid. apply N2. by rewrite go_sort_elem in Hid.
  - intros e He'. apply E2. by rewrite go_sort_elem in He'.
  - intros tr Htr. apply T3. by apply sortedTripleKeys_elem.
  - intros id Hc. rewrite go_sort_elem. enough (node_answered st' id) as [?|?]; [by left; apply Fn3|by right|].
    apply Sn. destruct Hc as [Hin|[(n & o & Hn' & Ho & Hin)|?]]; [left; by apply Gn, An1|left; left|by right].
    apply (foldl_rows nst_id (λ ns, ns)). right. exists (node_of id n). split; [|done]. by eapply (ro_all _ _ _ _ _ Hoids).
  - intros e Hc. rewrite go_sort_elem. enough (edge_answered st' e) as [?|?]; [by left; apply Fe3|by right|].
    apply Se. destruct Hc as [Hin|?]; [left|by right]. destruct (Ae1 e Hin) as [?|?]; [left; by apply R2|by right].
  - intros t name k e Ht Ek Hk Hedge. eapply Hfind; [|exact Hedge]. apply Ho1, Ht2; [done|]. rewrite Ek. apply Hres; [|done].
    apply elem_of_app. left. apply list_elem_of_fmap. by exists t.
  - intros t name k Ht Ek Hk Hno. apply sortedTripleKeys_elem, Sa. simpl. apply R6; [|done]. apply elem_of_elements, Ho1, Ht2; [done|].
    rewrite Ek. apply Hres; [|done]. apply elem_of_app. left. apply list_elem_of_fmap. by exists t.
  - intros t name k e s s' Ht Hts Hte Ek Hk Hedge Hs Hs'.
    assert (to_Kind t ∈ all_kinds) as Hak by (apply elem_of_app; right; by apply list_elem_of_fmap_2).
    destruct (Ho3 t Ht) as [Hd|(Hns & Hne & Hp)]; [|by left; eapply first_pass].
    destruct (St t Hd Hak Hts Hte name k e s s' Ek Hk Hedge) as (C1 & C2 & C3 & C4).
    assert (is_Some (rs_edges st' !! e) ∨ gave_up cs cs' → e ∈ est_id <$> sortedEdgeStates (rs_edges st') ∨ gave_up cs cs') as Hfin.
    { intros [?|?]; [left; by apply Fe3|by right]. }
    apply Hfin. destruct Hs as [Hs|Hs], Hs' as [Hs'|Hs']; [left; by apply C1|by apply C2|by apply C3|right; by apply C4].
  - intros t name k e s s' Ht Hts Hte Ek Hk Hedge Hs Hs'.
    assert (to_Kind t ∈ all_kinds) as Hak by (apply elem_of_app; right; by apply list_elem_of_fmap_2).
    destruct (Ho3 t Ht) as [Hd|(Hns & Hne & Hp)]; [|by eapply first_pass; [..|left; left|left; left]].
    destruct (St t Hd Hak Hts Hte name k e s s' Ek Hk Hedge) as (C1 & _). apply Fe3, C1. split; by left.
  - intros Hnil. apply Sq. by apply Hd0.
  - intros id Hid. rewrite go_sort_elem in Hid. destruct (Sk id Hid) as [Hab|?]; [left|by right].
    by apply list_elem_of_filter in Hab as [_ ?].
  - apply map_union_least; [apply Hck|done].
  - assert (∀ k, named (Some v) m k → named (Some v) (criteriaKinds ∪ m) k) as Hmono.
    { intros k [?|?]; [left|by right]. apply lookup_union_is_Some. by right. }
    split; [intros ns k Hns Hk; by eapply Hmono, Hn|intros es Hes; by apply Hmono, He].
Qed.
End readback.
