(* ===== verification/BootGap.v ===== *)
(** * The writes of the boot window

    [internal/engine/bootgap.go]: while the engine tries to start from a
    snapshot file, the writes that are applied meanwhile are kept in a buffer,
    with the value of the watermark counter each of them drew. The file may be
    adopted only when those values are exactly the ones between the file's
    stamp and the counter in the database.

    The results: a buffer that is not poisoned holds every value that was drawn
    while it was armed, with everything those writes recorded, within its
    bounds; and [bootGapCoveredAt] says "covered" exactly when no value of the
    gap is missing, none is accounted for twice and none is the file's own. *)

From S2P Require Import Prelude ChangeSet.
From Stdlib Require Import String.
From stdpp Require Import options.
Unset Default Proof Using.
#[local] Open Scope N_scope.

(** ** Definitions *)

Definition maxBootGapEntries : N := 4096.
Definition maxBootGapKeys : N := N.shiftl 1 18.

Record bootGapEntry := mkGapEntry { be_counter : N; be_cs : option ChangeSet }.
Record bootGapBuffer := mkGapBuffer {
  bg_active : bool; bg_entries : list bootGapEntry; bg_keyCount : N; bg_poisoned : string }.
Definition bootGap_zero : bootGapBuffer := mkGapBuffer false [] 0 EmptyString.

Definition gap_activate (b : bootGapBuffer) : bootGapBuffer :=
  mkGapBuffer true (bg_entries b) (bg_keyCount b) (bg_poisoned b).
Definition gap_deactivate (b : bootGapBuffer) : bootGapBuffer := mkGapBuffer false [] 0 (bg_poisoned b).

Definition gap_poison (b : bootGapBuffer) (reason : string) : bootGapBuffer :=
  if String.eqb (bg_poisoned b) EmptyString then mkGapBuffer (bg_active b) (bg_entries b) (bg_keyCount b) reason else b.
Definition gap_append (b : bootGapBuffer) (counter : N) (cs : option ChangeSet) : bootGapBuffer :=
  if maxBootGapEntries <=? len (bg_entries b) then gap_poison b "overflow: too many buffered writes"
  else
    let add n := mkGapBuffer (bg_active b) (bg_entries b ++ [mkGapEntry counter cs]) n (bg_poisoned b) in
    match cs with
    | None => add (bg_keyCount b)
    | Some c =>
        let next := bg_keyCount b + N.of_nat (keyCount c) in
        if maxBootGapKeys <? next then gap_poison b "overflow: too many buffered keys" else add next
    end.

(** [strings.Join(reasons, "; ")]. *)
Fixpoint join_reasons (reasons : list string) : string :=
  match reasons with
  | [] => EmptyString
  | [r] => r
  | r :: reasons' => r +:+ "; " +:+ join_reasons reasons'
  end.

Section gap.
Context `{GoStd}.

Definition gap_observe (b : bootGapBuffer) (scope : option WriteScope) : bootGapBuffer :=
  if negb (bg_active b) then b
  else
    match scope with
    | None => gap_poison b "nil write scope"
    | Some scope =>
        let cs := ws_changes scope in
        let '(hasFallback, reasons) := HasFallback cs in
        if hasFallback then gap_poison b ("fallback write during boot: " +:+ join_reasons reasons)
        else
          let '(counter, bumped) := Watermark scope in
          if negb bumped then
            if ChangeSet_Empty cs then b else gap_poison b "unbumped write recorded changes"
          else gap_append b counter (if ChangeSet_Empty cs then None else Some cs)
    end.

Definition gap_observeAbandoned (b : bootGapBuffer) (scope : option WriteScope) : bootGapBuffer :=
  if negb (bg_active b) then b
  else
    match scope with
    | None => b
    | Some scope =>
        let '(counter, bumped) := Watermark scope in
        if negb bumped then b else gap_append b counter None
    end.

Definition gap_take (b : bootGapBuffer) : bootGapBuffer * list bootGapEntry * string :=
  (mkGapBuffer false [] 0 (bg_poisoned b), bg_entries b, bg_poisoned b).
Definition gap_peek (b : bootGapBuffer) : list bootGapEntry * string := (bg_entries b, bg_poisoned b).

(** *** Whether the gap is covered *)

Inductive bootGapVerdict := bootGapCovered | bootGapHole | bootGapContradiction.

(** The loop over the sorted values: [next] and [hole], or a contradiction. *)
Fixpoint gap_loop (fileWatermark pgSnapshot : N) (prev : option N) (next : N) (hole : bool) (counters : list N) : (N * bool) + string :=
  match counters with
  | [] => inl (next, hole)
  | c :: counters' =>
      let go := gap_loop fileWatermark pgSnapshot (Some c) in
      if match prev with Some p => c =? p | None => false end then inr "a counter was accounted for twice"%string
      else if c <=? fileWatermark then inr "a boot write holds a counter the file already claims"%string
      else if pgSnapshot <? c then go next hole counters'
      else if negb (c =? next) then go (u64 (c + 1)) true counters'
      else go (u64 (next + 1)) hole counters'
  end.
Definition bootGapCoveredAt (fileWatermark pgSnapshot : N) (counters : list N) : bootGapVerdict * string :=
  if pgSnapshot <? fileWatermark then (bootGapContradiction, "the file is stamped ahead of the watermark counter"%string)
  else
    match gap_loop fileWatermark pgSnapshot None (u64 (fileWatermark + 1)) false (go_sort (less_key (λ c : N, c)) counters) with
    | inr why => (bootGapContradiction, why)
    | inl (next, hole) =>
        if hole || negb (next =? u64 (pgSnapshot + 1)) then (bootGapHole, EmptyString) else (bootGapCovered, EmptyString)
    end.

(** ** The verdict *)

(** Values that cannot be explained: one twice, or one of the file's own. *)
Definition contradicts (fileWatermark pgSnapshot : N) (counters : list N) : Prop :=
  pgSnapshot < fileWatermark ∨ ¬ NoDup counters ∨ ∃ c, c ∈ counters ∧ c ≤ fileWatermark.

Lemma gap_loop_spec F P prev next hole l : StronglySorted N.le l → (∀ c, c ∈ l → c < 2 ^ 63) → F ≤ P → P < 2 ^ 63 →
  F < next ≤ P + 1 → (∀ p, prev = Some p → ∀ c, c ∈ l → p ≤ c) →
  match prev with None => next = F + 1 | Some p => next = p + 1 ∨ P < p end →
  match gap_loop F P prev next hole l with
  | inr _ => ¬ NoDup l ∨ (∃ p, prev = Some p ∧ p ∈ l) ∨ ∃ c, c ∈ l ∧ c ≤ F
  | inl (next', hole') => NoDup l ∧ (∀ p, prev = Some p → p ∉ l) ∧ (∀ c, c ∈ l → F < c) ∧
      (hole' = false ∧ next' = P + 1 ↔ hole = false ∧ ∀ n, next ≤ n ≤ P → n ∈ l)
  end.
Proof.
  revert prev next hole. induction l as [|c l IH]; intros prev next hole Hs H63 HFP HP Hn Hp Hpn; simpl.
  { split_and!; [constructor|set_solver|set_solver|]. split; [intros [-> ->]; split; [done|lia]|].
    intros [-> Hall]. split; [done|]. destruct (decide (next = P + 1)); [done|]. exfalso.
    apply (not_elem_of_nil (A:=N) next), Hall. lia. }
  apply StronglySorted_inv in Hs as [Hs Hc]. rewrite Forall_forall in Hc.
  pose proof (H63 c (list_elem_of_here _ _)) as Hc63.
  assert (∀ c', c' ∈ l → c' < 2 ^ 63) as H63' by (intros c' Hin; apply H63; by right).
  destruct (match prev with Some p => c =? p | None => false end) eqn:Edup.
  { destruct prev as [p|]; [|done]. apply N.eqb_eq in Edup as ->. right; left. exists p. split; [done|left]. }
  assert (∀ p, prev = Some p → p < c) as Hne.
  { intros p ->. apply N.eqb_neq in Edup. specialize (Hp p eq_refl c (list_elem_of_here _ _)). lia. }
  destruct (N.leb_spec c F) as [|HF]; [right; right; exists c; split; [left|done]|].
  assert (∀ next' hole', F < next' ≤ P + 1 → next' = c + 1 ∨ P < c →
    ((hole' = false ∧ ∀ n, next' ≤ n ≤ P → n ∈ l) ↔ (hole = false ∧ ∀ n, next ≤ n ≤ P → n ∈ c :: l)) →
    match gap_loop F P (Some c) next' hole' l with
    | inr _ => ¬ NoDup (c :: l) ∨ (∃ p, prev = Some p ∧ p ∈ c :: l) ∨ ∃ c', c' ∈ c :: l ∧ c' ≤ F
    | inl (next'', hole'') => NoDup (c :: l) ∧ (∀ p, prev = Some p → p ∉ c :: l) ∧ (∀ c', c' ∈ c :: l → F < c') ∧
        (hole'' = false ∧ next'' = P + 1 ↔ hole = false ∧ ∀ n, next ≤ n ≤ P → n ∈ c :: l)
    end) as Hstep.
  { intros next' hole' Hn' Hc' Hiff. specialize (IH (Some c) next' hole' Hs H63' HFP HP Hn').
    destruct (gap_loop F P (Some c) next' hole' l) as [[next'' hole'']|why].
    - destruct IH as (I1 & I2 & I3 & I4); [by intros ? [= <-]|done|]. rewrite I4. split_and!; [|..|done].
      + constructor; [by apply I2|done].
      + intros p Ep [->|Hin]%elem_of_cons; [specialize (Hne _ Ep); lia|]. specialize (Hne _ Ep). specialize (Hc _ Hin). lia.
      + intros c' [->|Hin]%elem_of_cons; [done|by apply I3].
    - destruct IH as [I|[(p & [= <-] & Hin)|(c' & Hin & Hle)]]; [by intros ? [= <-]|done|left|left|right; right].
      + intros [_ ?]%NoDup_cons. done.
      + intros [? _]%NoDup_cons. done.
      + exists c'. split; [by right|done]. }
  destruct (N.ltb_spec P c) as [HPc|HPc].
  { apply Hstep; [done|by right|]. split; (intros [? Hall]; split; [done|]; intros n Hr; specialize (Hall n Hr)); [by right|].
    apply elem_of_cons in Hall as [->|?]; [lia|done]. }
  assert (next ≤ c) as Hnc by (destruct prev as [p|]; [specialize (Hne _ eq_refl)|]; lia).
  destruct (N.eqb_spec c next) as [->|Hcn]; simpl.
  - rewrite u64_small by lia. apply Hstep; [lia|by left|]. split; (intros [? Hall]; split; [done|]); intros n Hr.
    + destruct (decide (n = next)) as [->|]; [left|right; apply Hall; lia].
    + assert (n ∈ next :: l) as [->|?]%elem_of_cons by (apply Hall; lia); [lia|done].
  - rewrite u64_small by lia. apply Hstep; [lia|by left|]. split; [by intros [? _]|]. intros [_ Hall]. exfalso.
    assert (next ∈ c :: l) as [->|Hin%Hc]%elem_of_cons by (apply Hall; lia); lia.
Qed.

Lemma bootGapCoveredAt_spec F P counters : (∀ c, c ∈ counters → c < 2 ^ 63) → P < 2 ^ 63 → F < 2 ^ 63 →
  match (bootGapCoveredAt F P counters).1 with
  | bootGapContradiction => contradicts F P counters
  | bootGapHole => ¬ contradicts F P counters ∧ ∃ n, F < n ≤ P ∧ n ∉ counters
  | bootGapCovered => ¬ contradicts F P counters ∧ ∀ n, F < n ≤ P → n ∈ counters
  end.
Proof.
  intros H63 HP HF. unfold bootGapCoveredAt, contradicts. destruct (N.ltb_spec P F) as [|HFP]; [by left|].
  rewrite !u64_small by lia. set (l := go_sort _ counters).
  assert (∀ c, c ∈ l ↔ c ∈ counters) as Hl by (intros c; apply go_sort_elem).
  assert (NoDup l ↔ NoDup counters) as Hnd by (unfold l; by rewrite go_sort_perm).
  assert (StronglySorted N.le l) as Hs.
  { pose proof (go_sort_sorted (less_key (λ c : N, c)) counters (is_less_key _)) as Hs. fold l in Hs.
    clearbody l. clear -Hs. induction Hs as [|x l Hs IH Hx]; constructor; [done|]. eapply Forall_impl; [exact Hx|].
    intros y. unfold le_of, less_key. by rewrite N.ltb_ge. }
  assert (¬ (∀ n, F + 1 ≤ n ≤ P → n ∈ counters) → ∃ n, F < n ≤ P ∧ n ∉ counters) as Hhole.
  { intros Hn. destruct (decide (Exists (λ n, n ∉ counters) (range (F + 1) (P + 1)))) as [(n & Hin & Hni)%Exists_exists|Hall].
    - apply elem_of_range in Hin. exists n. split; [lia|done].
    - exfalso. apply Hn. intros n Hr. apply dec_stable. intros Hni. apply Hall, Exists_exists. exists n. split; [|done].
      apply elem_of_range. lia. }
  pose proof (gap_loop_spec F P None (F + 1) false l Hs) as Hg.
  destruct (gap_loop F P None (F + 1) false l) as [[next hole]|why]; simpl.
  - destruct Hg as (G1 & _ & G3 & G4); [by intros c ?%Hl%H63|done|done|lia|done|done|]. setoid_rewrite Hl in G4. setoid_rewrite Hl in G3.
    assert (¬ (P < F ∨ ¬ NoDup counters ∨ ∃ c, c ∈ counters ∧ c ≤ F)) as Hno.
    { intros [?|[Hd|(c & ?%G3 & ?)]]; [lia|by apply Hd, Hnd|lia]. }
    destruct hole; simpl; [|destruct (N.eqb_spec next (P + 1)) as [->|Hne]; simpl]; (split; [done|]).
    + apply Hhole. intros Hall. by destruct (proj2 G4).
    + intros n Hn. apply (proj1 G4); [done|lia].
    + apply Hhole. intros Hall. by destruct (proj2 G4).
  - right. destruct Hg as [Hd|[(p & [=] & _)|(c & Hc & ?)]]; [by intros c ?%Hl%H63|done|done|lia|done|done| |].
    + left. by rewrite <- Hnd.
    + right. exists c. split; [by apply Hl|done].
Qed.

(** ** The buffer *)

Inductive gap_event := GObserve (scope : option WriteScope) | GAbandon (scope : option WriteScope).
Definition gap_step (b : bootGapBuffer) (e : gap_event) : bootGapBuffer :=
  match e with GObserve s => gap_observe b s | GAbandon s => gap_observeAbandoned b s end.

(** What an event has to leave in the buffer, and the events no entry can stand for. *)
Definition gap_entry (e : gap_event) : option bootGapEntry :=
  match e with
  | GObserve (Some s) => if ws_watermarkBumped s
      then Some (mkGapEntry (ws_watermark s) (if ChangeSet_Empty (ws_changes s) then None else Some (ws_changes s))) else None
  | GAbandon (Some s) => if ws_watermarkBumped s then Some (mkGapEntry (ws_watermark s) None) else None
  | _ => None
  end.
Definition unbuffered (e : gap_event) : Prop :=
  match e with
  | GObserve None => True
  | GObserve (Some s) => (HasFallback (ws_changes s)).1 = true ∨ (ws_watermarkBumped s = false ∧ ChangeSet_Empty (ws_changes s) = false)
  | GAbandon _ => False
  end.
Definition entry_keys (e : bootGapEntry) : N := match be_cs e with Some c => N.of_nat (keyCount c) | None => 0 end.

Definition total_keys (l : list bootGapEntry) : N := foldr (λ e n, entry_keys e + n) 0 l.
Lemma total_keys_app l l' : total_keys (l ++ l') = total_keys l + total_keys l'.
Proof. induction l as [|e l IH]; simpl; [done|]. lia. Qed.
Lemma total_keys_sublist l l' : sublist l l' → total_keys l ≤ total_keys l'.
Proof. induction 1; simpl; lia. Qed.
Lemma len_sublist {A} (l l' : list A) : sublist l l' → len l ≤ len l'.
Proof. intros Hs%sublist_length. unfold len. lia. Qed.

Record gap_holds (b : bootGapBuffer) (es : list gap_event) : Prop := {
  gh_active : bg_active b = true;
  gh_keys : bg_keyCount b = total_keys (bg_entries b);
  gh_room : len (bg_entries b) ≤ maxBootGapEntries ∧ bg_keyCount b ≤ maxBootGapKeys;
  gh_part : sublist (bg_entries b) (omap gap_entry es);
  gh_all : bg_poisoned b = EmptyString → bg_entries b = omap gap_entry es ∧ Forall (λ e, ¬ unbuffered e) es;
  gh_poisoned : bg_poisoned b ≠ EmptyString → Exists unbuffered es ∨
    maxBootGapEntries < len (omap gap_entry es) ∨ maxBootGapKeys < total_keys (omap gap_entry es);
}.

Lemma gap_poison_holds b es e r : gap_holds b es → r ≠ EmptyString →
  unbuffered e ∨ maxBootGapEntries < len (omap gap_entry (es ++ [e])) ∨ maxBootGapKeys < total_keys (omap gap_entry (es ++ [e])) →
  gap_holds (gap_poison b r) (es ++ [e]).
Proof.
  intros [Ha Hk Hr Hp Hall Hpo] Hne Hwhy. unfold gap_poison.
  assert (sublist (bg_entries b) (omap gap_entry (es ++ [e]))) as Hp' by (rewrite omap_app; by apply sublist_inserts_r).
  assert (Exists unbuffered (es ++ [e]) ∨ maxBootGapEntries < len (omap gap_entry (es ++ [e])) ∨
    maxBootGapKeys < total_keys (omap gap_entry (es ++ [e]))) as Hwhy'.
  { destruct Hwhy as [?|?]; [left; apply Exists_app; right; by constructor|by right]. }
  destruct (String.eqb_spec (bg_poisoned b) EmptyString) as [|Hn]; split; simpl; try done.
Qed.
Lemma gap_append_holds b es e c cs : gap_holds b es → gap_entry e = Some (mkGapEntry c cs) → ¬ unbuffered e →
  gap_holds (gap_append b c cs) (es ++ [e]).
Proof.
  intros Hb Hent Hnu. pose proof Hb as [Ha Hk [Hr1 Hr2] Hp Hall Hpo].
  assert (omap gap_entry (es ++ [e]) = omap gap_entry es ++ [mkGapEntry c cs]) as Ho by (rewrite omap_app; simpl; by rewrite Hent).
  unfold gap_append. destruct (N.leb_spec maxBootGapEntries (len (bg_entries b))) as [Hfull|Hroom].
  { apply gap_poison_holds; [done|done|]. right; left. rewrite Ho, len_app, len_cons, len_nil. pose proof (len_sublist _ _ Hp). lia. }
  assert (∀ n, n = bg_keyCount b + entry_keys (mkGapEntry c cs) → n ≤ maxBootGapKeys →
    gap_holds (mkGapBuffer (bg_active b) (bg_entries b ++ [mkGapEntry c cs]) n (bg_poisoned b)) (es ++ [e])) as Hadd.
  { intros n -> Hn. split; simpl; rewrite ?Ho; try done.
    - rewrite Hk, total_keys_app. simpl. lia.
    - rewrite len_app, len_cons, len_nil. split; lia.
    - by apply sublist_app.
    - intros Hq. destruct (Hall Hq) as [-> HF]. split; [done|]. apply Forall_app. split; [done|by constructor].
    - intros Hq. rewrite Exists_app, len_app, total_keys_app. destruct (Hpo Hq) as [?|[?|?]]; [left; by left|right; left; lia|right; right; lia]. }
  destruct cs as [cs|]; [|apply Hadd; [unfold entry_keys; simpl; lia|done]].
  destruct (N.ltb_spec maxBootGapKeys (bg_keyCount b + N.of_nat (keyCount cs))) as [Hover|Hfit].
  - apply gap_poison_holds; [done|done|]. right; right. rewrite Ho, total_keys_app. pose proof (total_keys_sublist _ _ Hp).
    change (total_keys [mkGapEntry c (Some cs)]) with (N.of_nat (keyCount cs) + 0). lia.
  - by apply Hadd.
Qed.
Lemma gap_skip_holds b es e : gap_holds b es → gap_entry e = None → ¬ unbuffered e → gap_holds b (es ++ [e]).
Proof.
  intros [Ha Hk Hr Hp Hall Hpo] He Hnu.
  assert (omap gap_entry (es ++ [e]) = omap gap_entry es) as Ho by (rewrite omap_app; simpl; rewrite He; by rewrite app_nil_r).
  split; rewrite ?Ho; try done.
  - intros Hq. destruct (Hall Hq). split; [done|]. apply Forall_app. split; [done|by constructor].
  - intros Hq. rewrite Exists_app. destruct (Hpo Hq); [left; by left|by right].
Qed.

Lemma gap_step_holds b es e : gap_holds b es → gap_holds (gap_step b e) (es ++ [e]).
Proof.
  intros Hb. pose proof (gh_active _ _ Hb) as Ha. destruct e as [[s|]|[s|]]; simpl; unfold gap_observe, gap_observeAbandoned, Watermark; rewrite Ha; simpl.
  - destruct (HasFallback (ws_changes s)) as [f reasons] eqn:Ef. destruct f.
    { apply gap_poison_holds; [done|done|]. left. left. by rewrite Ef. }
    assert (¬ (HasFallback (ws_changes s)).1 = true) as Hf by (by rewrite Ef).
    destruct (ws_watermarkBumped s) eqn:Eb; simpl.
    + apply gap_append_holds; [done|simpl; by rewrite Eb|]. intros [?|[E _]]; [done|congruence].
    + destruct (ChangeSet_Empty (ws_changes s)) eqn:Ee.
      * apply gap_skip_holds; [done|simpl; by rewrite Eb|]. intros [?|[_ E]]; [done|congruence].
      * apply gap_poison_holds; [done|done|]. left. right. done.
  - apply gap_poison_holds; [done|done|]. by left.
  - destruct (ws_watermarkBumped s) eqn:Eb; simpl.
    + apply gap_append_holds; [done|simpl; by rewrite Eb|]. by intros [].
    + apply gap_skip_holds; [done|simpl; by rewrite Eb|]. by intros [].
  - apply gap_skip_holds; [done|done|]. by intros [].
Qed.

Lemma gap_run_holds es : gap_holds (foldl gap_step (gap_activate bootGap_zero) es) es.
Proof.
  induction es as [|e es IH] using rev_ind; [by split; simpl; try done; intros _; split|].
  rewrite foldl_app. by apply gap_step_holds.
Qed.
End gap.
