(* ===== verification/Engine.v ===== *)
(** * The engine's state

    The part of [Engine] (internal/engine/engine.go) that writes, rebuilds,
    compactions and saves share, and the small operations on it: entering
    fallback and claiming the rebuild loop (apply.go), the trust generations,
    the ledger of the watermark and the counter of bumps in flight
    (watermark.go), adopting a rebuilt view (engine.go).

    Every operation here runs under [applyMu], or is one atomic access, or is a
    sequence of atomic accesses that Go may interleave; those that may be
    interleaved are split where it matters ([rebuild_begin] and [rebuild_end],
    [WatermarkTrusted]). A pointer is an address with the value it points to:
    [adoptCompaction] compares addresses. A started goroutine is a [task].
    [uint64] counters wrap. Times are nanoseconds, given as arguments. *)

From S2P Require Import Prelude Bitset Csr Kinds Props Snapshot Builder Segment View Ledger ChangeSet BootGap.
From stdpp Require Import options.
Unset Default Proof Using.
#[local] Open Scope N_scope.

(** ** Definitions *)

Inductive engineState := stateServing | stateFallback.
#[export] Instance engineState_eq_dec : EqDecision engineState.
Proof. solve_decision. Defined.

Record Config := mkConfig { cfg_Enabled : bool; cfg_MemoryLimit : N; cfg_CompactEntries : Z; cfg_CompactBytes : N }.

Definition ref (A : Type) : Type := N * A.
(** A published view: its base and its segments by address. *)
Record viewPtr := mkViewPtr { vp_base : ref Snapshot; vp_segments : list (ref Segment) }.
Definition vp_view (p : viewPtr) : View := mkView (vp_base p).2 (vp_segments p).*2.

Inductive task :=
  | RunFallbackRebuild
  | RunTrustTimer
  | RunCompaction (capturedBase : ref Snapshot) (capturedSegs : list (ref Segment)).

(** Where PostgreSQL stood when the process started. *)
Record startState := mkStartState { at_counter : N; at_nodeSeq : Z; at_edgeSeq : Z }.

Record Trust := mkTrust {
  t_dirtyGen : N; t_settledDirtyGen : N; t_resolvedDirtyGen : N;
  t_appliedWatermark : watermarkLedger; t_inflightBumps : Z }.
Record Loops := mkLoops {
  l_fallbackRebuilding : bool; l_rebuildLoopStarts : N; l_lastTrustRebuildNano : Z; l_trustRebuildPending : bool;
  l_compacting : bool; l_spawned : list task }.
Record Engine := mkEngine {
  e_cfg : Config;
  e_snap : option viewPtr;
  e_state : engineState;
  e_applyEpoch : N;
  e_bootGap : bootGapBuffer;
  e_trust : Trust;
  e_loops : Loops;
  e_overBudget : bool;
  e_rebuildPanicked : bool;
  e_rebuildAttempts : N;
  e_compactionCount : N;
  e_next : N;
}.

Definition with_snap (e : Engine) (s : option viewPtr) : Engine :=
  mkEngine (e_cfg e) s (e_state e) (e_applyEpoch e) (e_bootGap e) (e_trust e) (e_loops e) (e_overBudget e)
    (e_rebuildPanicked e) (e_rebuildAttempts e) (e_compactionCount e) (e_next e).
Definition with_state (e : Engine) (s : engineState) : Engine :=
  mkEngine (e_cfg e) (e_snap e) s (e_applyEpoch e) (e_bootGap e) (e_trust e) (e_loops e) (e_overBudget e)
    (e_rebuildPanicked e) (e_rebuildAttempts e) (e_compactionCount e) (e_next e).
Definition with_gap (e : Engine) (b : bootGapBuffer) : Engine :=
  mkEngine (e_cfg e) (e_snap e) (e_state e) (e_applyEpoch e) b (e_trust e) (e_loops e) (e_overBudget e)
    (e_rebuildPanicked e) (e_rebuildAttempts e) (e_compactionCount e) (e_next e).
Definition with_trust (e : Engine) (t : Trust) : Engine :=
  mkEngine (e_cfg e) (e_snap e) (e_state e) (e_applyEpoch e) (e_bootGap e) t (e_loops e) (e_overBudget e)
    (e_rebuildPanicked e) (e_rebuildAttempts e) (e_compactionCount e) (e_next e).
Definition with_loops (e : Engine) (l : Loops) : Engine :=
  mkEngine (e_cfg e) (e_snap e) (e_state e) (e_applyEpoch e) (e_bootGap e) (e_trust e) l (e_overBudget e)
    (e_rebuildPanicked e) (e_rebuildAttempts e) (e_compactionCount e) (e_next e).
Definition bump_epoch (e : Engine) : Engine :=
  mkEngine (e_cfg e) (e_snap e) (e_state e) (u64 (e_applyEpoch e + 1)) (e_bootGap e) (e_trust e) (e_loops e) (e_overBudget e)
    (e_rebuildPanicked e) (e_rebuildAttempts e) (e_compactionCount e) (e_next e).
Definition with_budget (e : Engine) (over : bool) : Engine :=
  mkEngine (e_cfg e) (e_snap e) (e_state e) (e_applyEpoch e) (e_bootGap e) (e_trust e) (e_loops e) over
    (e_rebuildPanicked e) (e_rebuildAttempts e) (e_compactionCount e) (e_next e).
Definition with_panicked (e : Engine) (p : bool) : Engine :=
  mkEngine (e_cfg e) (e_snap e) (e_state e) (e_applyEpoch e) (e_bootGap e) (e_trust e) (e_loops e) (e_overBudget e)
    p (e_rebuildAttempts e) (e_compactionCount e) (e_next e).
Definition count_rebuild (e : Engine) : Engine :=
  mkEngine (e_cfg e) (e_snap e) (e_state e) (e_applyEpoch e) (e_bootGap e) (e_trust e) (e_loops e) (e_overBudget e)
    (e_rebuildPanicked e) (u64 (e_rebuildAttempts e + 1)) (e_compactionCount e) (e_next e).
Definition count_compaction (e : Engine) : Engine :=
  mkEngine (e_cfg e) (e_snap e) (e_state e) (e_applyEpoch e) (e_bootGap e) (e_trust e) (e_loops e) (e_overBudget e)
    (e_rebuildPanicked e) (e_rebuildAttempts e) (u64 (e_compactionCount e + 1)) (e_next e).
(** A new object at the next free address. *)
Definition allocate {A} (e : Engine) (x : A) : Engine * ref A :=
  (mkEngine (e_cfg e) (e_snap e) (e_state e) (e_applyEpoch e) (e_bootGap e) (e_trust e) (e_loops e) (e_overBudget e)
    (e_rebuildPanicked e) (e_rebuildAttempts e) (e_compactionCount e) (e_next e + 1), (e_next e, x)).

(** *** Serving *)

(** [servableView], with both loads made at once. *)
Definition serveState (e : Engine) : option viewPtr * bool :=
  (e_snap e, match e_snap e with Some _ => bool_decide (e_state e = stateServing) | None => false end).

(** *** The rebuild loop *)

Definition spawn (e : Engine) (t : task) : Engine :=
  let l := e_loops e in
  with_loops e (mkLoops (l_fallbackRebuilding l) (l_rebuildLoopStarts l) (l_lastTrustRebuildNano l) (l_trustRebuildPending l)
    (l_compacting l) (l_spawned l ++ [t])).
Definition set_rebuilding (e : Engine) (b : bool) : Engine :=
  let l := e_loops e in
  with_loops e (mkLoops b (l_rebuildLoopStarts l) (l_lastTrustRebuildNano l) (l_trustRebuildPending l) (l_compacting l) (l_spawned l)).
Definition set_trust_nano (e : Engine) (now : Z) : Engine :=
  let l := e_loops e in
  with_loops e (mkLoops (l_fallbackRebuilding l) (l_rebuildLoopStarts l) now (l_trustRebuildPending l) (l_compacting l) (l_spawned l)).
Definition set_trust_pending (e : Engine) (b : bool) : Engine :=
  let l := e_loops e in
  with_loops e (mkLoops (l_fallbackRebuilding l) (l_rebuildLoopStarts l) (l_lastTrustRebuildNano l) b (l_compacting l) (l_spawned l)).
Definition set_compacting (e : Engine) (b : bool) : Engine :=
  let l := e_loops e in
  with_loops e (mkLoops (l_fallbackRebuilding l) (l_rebuildLoopStarts l) (l_lastTrustRebuildNano l) (l_trustRebuildPending l) b (l_spawned l)).

Definition claimRebuildLoop (e : Engine) : Engine * bool :=
  if negb (cfg_Enabled (e_cfg e)) then (e, false)
  else
    let l := e_loops e in
    if l_fallbackRebuilding l then (e, false)
    else (with_loops e (mkLoops true (u64 (l_rebuildLoopStarts l + 1)) (l_lastTrustRebuildNano l) (l_trustRebuildPending l)
            (l_compacting l) (l_spawned l)), true).
Definition startFallbackRebuild (e : Engine) : Engine :=
  let '(e, won) := claimRebuildLoop e in
  if negb won then e else spawn e RunFallbackRebuild.
Definition enterFallback (e : Engine) : Engine :=
  startFallbackRebuild (if bool_decide (e_state e = stateServing) then with_state e stateFallback else e).

(** [time.Millisecond] and [time.Second] in nanoseconds. *)
Definition fallbackRetryInterval : Z := 100 * 1000000.
Definition fallbackRetryMax : Z := 30 * 1000000000.
Definition refusalLogInterval : Z := 10 * 60 * 1000000000.
Definition fallbackBudgetRetryInterval : Z := refusalLogInterval.
Definition trustRebuildMinInterval : Z := fallbackRetryMax.

Definition trustRebuildDelay (nowNano lastNano : Z) : bool * Z :=
  let elapsed := (nowNano - lastNano)%Z in
  if (trustRebuildMinInterval <=? elapsed)%Z then (true, 0%Z) else (false, (trustRebuildMinInterval - elapsed)%Z).
Definition fallbackRetryDelay (overBudget : bool) (backoff : Z) : Z * Z :=
  if overBudget then (fallbackBudgetRetryInterval, backoff)
  else
    let wait := backoff in
    let backoff := (backoff * 2)%Z in
    (wait, if (fallbackRetryMax <? backoff)%Z then fallbackRetryMax else backoff).
(** [err]: none, a panic while loading, or another error. *)
Inductive loadError := LoadOK | LoadPanic | LoadFailed.
Definition loadRetryDelayAfter (e : Engine) (err : loadError) (backoff : Z) : Z * Z :=
  if e_rebuildPanicked e || match err with LoadPanic => true | _ => false end then (fallbackBudgetRetryInterval, backoff)
  else fallbackRetryDelay (match err with LoadOK => true | _ => false end && e_overBudget e) backoff.

Definition requestTrustRebuild (now : Z) (e : Engine) : Engine :=
  if negb (cfg_Enabled (e_cfg e)) then e
  else
    let last := l_lastTrustRebuildNano (e_loops e) in
    if (trustRebuildDelay now last).1 then startFallbackRebuild (set_trust_nano e now)
    else if l_trustRebuildPending (e_loops e) then e
    else spawn (set_trust_pending e true) RunTrustTimer.
(** The goroutine [requestTrustRebuild] starts, once it has waited; [stopped] is
    the engine's context being done. *)
Definition trust_timer (stopped : bool) (now : Z) (e : Engine) : Engine :=
  set_trust_pending
    (if stopped then e
     else if t_settledDirtyGen (e_trust e) =? t_resolvedDirtyGen (e_trust e) then e
     else startFallbackRebuild (set_trust_nano e now)) false.

Inductive relaunchKind := relaunchNone | relaunchRecovery | relaunchTrust.
Definition relaunchAfterAdoption (state : engineState) (settledGen resolvedGen : N) : relaunchKind :=
  if bool_decide (state = stateFallback) then relaunchRecovery
  else if negb (settledGen =? resolvedGen) then relaunchTrust
  else relaunchNone.
Definition finishFallbackRebuild (now : Z) (e : Engine) : Engine :=
  let e := set_rebuilding e false in
  match relaunchAfterAdoption (e_state e) (t_settledDirtyGen (e_trust e)) (t_resolvedDirtyGen (e_trust e)) with
  | relaunchRecovery => startFallbackRebuild e
  | relaunchTrust => requestTrustRebuild now e
  | relaunchNone => e
  end.

(** *** The watermark *)

Definition maxWatermark (cur candidate : N) : N := if cur <? candidate then candidate else cur.

Definition set_gens (e : Engine) (dirty settled resolved : N) : Engine :=
  with_trust e (mkTrust dirty settled resolved (t_appliedWatermark (e_trust e)) (t_inflightBumps (e_trust e))).
Definition set_ledger (e : Engine) (l : watermarkLedger) : Engine :=
  let t := e_trust e in with_trust e (mkTrust (t_dirtyGen t) (t_settledDirtyGen t) (t_resolvedDirtyGen t) l (t_inflightBumps t)).
Definition add_inflight (e : Engine) (n : Z) : Engine :=
  let t := e_trust e in
  with_trust e (mkTrust (t_dirtyGen t) (t_settledDirtyGen t) (t_resolvedDirtyGen t) (t_appliedWatermark t) (t_inflightBumps t + n)).

Definition AdvanceWatermark (e : Engine) (counter : N) : option Engine :=
  l ← ledger_resolve (t_appliedWatermark (e_trust e)) counter; Some (add_inflight (set_ledger e l) (-1)).

(** [answer] is what the database returned; the two halves of [BumpWatermark]
    lie before and after the query. *)
Definition bump_begin (e : Engine) : Engine := add_inflight e 1.
Definition bump_end (e : Engine) (answer : option N) : Engine * option N :=
  match answer with Some counter => (e, Some counter) | None => (add_inflight e (-1), None) end.

Definition add_dirty (e : Engine) : Engine :=
  let t := e_trust e in set_gens e (u64 (t_dirtyGen t + 1)) (t_settledDirtyGen t) (t_resolvedDirtyGen t).
Definition add_settled (e : Engine) : Engine :=
  let t := e_trust e in set_gens e (t_dirtyGen t) (u64 (t_settledDirtyGen t + 1)) (t_resolvedDirtyGen t).

(** The snapshot file is invalidated when the result is [true]. *)
Definition NoteWatermarkBumpFailure (e : Engine) (scope : option WriteScope) : Engine * option WriteScope * bool :=
  match scope with
  | None => (add_dirty e, None, true)
  | Some s => let '(s, first) := markWatermarkBumpFailed s in if first then (add_dirty e, Some s, true) else (e, Some s, false)
  end.
Definition noteSelfSettlingWatermarkFailure (e : Engine) : Engine := add_settled (add_dirty e).
Definition settleWatermarkFailure (e : Engine) (scope : option WriteScope) : Engine * option WriteScope * bool :=
  match scope with
  | None => (e, None, false)
  | Some s => let '(s, failed) := takeWatermarkBumpFailure s in
              if negb failed then (e, Some s, false) else (add_settled e, Some s, true)
  end.

Definition watermarkTrustedFor (dirtyGen resolvedGen : N) (converged : bool) (state : engineState) : bool :=
  (dirtyGen =? resolvedGen) && converged && bool_decide (state = stateServing).
Definition watermarkGens (e : Engine) : N * N := (t_dirtyGen (e_trust e), t_resolvedDirtyGen (e_trust e)).
Definition watermarkGensResolved (e : Engine) : bool := let '(d, r) := watermarkGens e in d =? r.
Definition watermarkConvergedFor (pgCounter applied : N) (inflight : Z) : bool := (inflight =? 0)%Z && (pgCounter =? applied).
Record watermarkReading := mkReading { wr_pgCounter : N; wr_inflight : Z; wr_through : N; wr_exact : bool }.
Definition reading_converged (r : watermarkReading) : bool :=
  wr_exact r && watermarkConvergedFor (wr_pgCounter r) (wr_through r) (wr_inflight r).
Definition reading_unaccounted (r : watermarkReading) : bool :=
  (wr_inflight r =? 0)%Z && (negb (wr_exact r) || (wr_through r <? wr_pgCounter r)).
(** The counter was read from the database before. *)
Definition readWatermarkConvergence (pgCounter : N) (e : Engine) : watermarkReading :=
  let '(through, exact) := resolvedThrough (t_appliedWatermark (e_trust e)) in
  mkReading pgCounter (t_inflightBumps (e_trust e)) through exact.
(** The engine as it was at each of the reads, in order; the counter, if the
    database gave it. *)
Definition WatermarkTrusted (at_gens at_ledger at_state at_gens2 : Engine) (pgCounter : option N) : bool :=
  let '(dirtyGen, resolvedGen) := watermarkGens at_gens in
  if negb (dirtyGen =? resolvedGen) then false
  else
    let converged := match pgCounter with None => false | Some c => reading_converged (readWatermarkConvergence c at_ledger) end in
    let '(dirtyGen2, resolvedGen2) := watermarkGens at_gens2 in
    if negb (dirtyGen2 =? dirtyGen) || negb (resolvedGen2 =? resolvedGen) then false
    else watermarkTrustedFor dirtyGen resolvedGen converged (e_state at_state).

Section engine.
Context `{GoStd}.

Definition ResolveAbandonedWrite (now : Z) (e : Engine) (scope : option WriteScope) : option (Engine * option WriteScope) :=
  match scope with
  | None => Some (e, None)
  | Some s =>
      let '(counter, bumped) := Watermark s in
      e ← (if bumped then AdvanceWatermark e counter else Some e);
      let e := with_gap e (gap_observeAbandoned (e_bootGap e) (Some s)) in
      let '(e, scope, settled) := settleWatermarkFailure e (Some s) in
      Some (if (settled : bool) then requestTrustRebuild now e else e, scope)
  end.
End engine.

(** *** Rebuilding *)

(** What a rebuild reads before it loads. *)
Definition rebuild_begin (e : Engine) : Engine * N * N :=
  let e := with_panicked e false in (e, e_applyEpoch e, t_settledDirtyGen (e_trust e)).

Definition adoptRebuiltView (e : Engine) (view : Snapshot) (epoch settledGen : N) : Engine * bool :=
  if negb (e_applyEpoch e =? epoch) then (e, false)
  else
    let '(e, base) := allocate e view in
    let e := with_snap e (Some (mkViewPtr base [])) in
    let t := e_trust e in
    let e := set_gens e (t_dirtyGen t) (t_settledDirtyGen t) (maxWatermark (t_resolvedDirtyGen t) settledGen) in
    let e := with_gap e (gap_deactivate (e_bootGap e)) in
    (if bool_decide (e_state e = stateFallback) then with_state e stateServing else e, true).
Definition adoptRebuiltViewAndRebase (e : Engine) (view : Snapshot) (epoch settledGen : N) (counter : option N) : Engine * bool :=
  let '(e, adopted) := adoptRebuiltView e view epoch settledGen in
  if negb adopted then (e, false)
  else (match counter with Some c => set_ledger e (ledger_rebase (t_appliedWatermark (e_trust e)) c) | None => e end, true).

(** The rest of [rebuildOnce], after the load: an error, or a snapshot of
    [approxBytes] bytes with the counter read in the load's transaction. *)
Definition rebuild_end (e : Engine) (epoch settledGen : N) (loaded : option (Snapshot * N * option N)) : Engine * (bool + goerr) :=
  match loaded with
  | None => (count_rebuild e, inr ErrQuery)
  | Some (snap, approxBytes, counter) =>
      let limit := cfg_MemoryLimit (e_cfg e) in
      if (0 <? limit) && (limit <? approxBytes) then (count_rebuild (with_budget e true), inl false)
      else
        let e := with_budget e false in
        let '(e, adopted) := adoptRebuiltViewAndRebase e snap epoch settledGen counter in
        (count_rebuild e, inl adopted)
  end.
(** A panic of a background goroutine. *)
Definition backgroundPanicked (e : Engine) : Engine := enterFallback e.
Definition recoverRebuildPanic (e : Engine) : Engine := backgroundPanicked (with_panicked e true).
