(* ===== verification/Sizes.v ===== *)
(** * Size estimates

    The [ApproxBytes] of [internal/engine/snapshot]: what a snapshot, its kind
    table and property store, a segment and a view are taken to occupy. A load
    and a write that would pass the memory limit are refused on it, and it is one
    of the thresholds of a compaction.

    Every total is a [uint64]; the sums here are of natural numbers and wrapped
    at the end, which is the same. [unsafe.Sizeof(propEntry{})] is 24 where the
    program runs (64 bits).

    Last, how many nodes a view numbers: no more than there are ids. *)

From S2P Require Import Prelude Bitset Csr Kinds Props Snapshot Builder Segment View ViewAdj.
From stdpp Require Import options.
Unset Default Proof Using.
#[local] Open Scope N_scope.

(** ** Definitions *)

Definition bytesPerUint64 : N := 8.
Definition bytesPerNodeID : N := 4.
Definition bytesPerKindID : N := 2.
Definition bytesPerUint32 : N := 4.
Definition approxIdIndexEntryBytes : N := 24.
Definition approxKindBitmapEntryBytes : N := 24.
Definition approxKindTableMapEntryBytes : N := 24.
Definition bytesPerSliceHeader : N := 24.
Definition bytesPerPropEntry : N := 24.
Definition approxPropNameMapEntryBytes : N := 24.
Definition approxObjectIndexEntryBytes : N := 24.
Definition approxSegNodeStateMapEntryBytes : N := 40.
Definition approxSegEdgeStateMapEntryBytes : N := 40.
Definition approxSegObjectIndexEntryBytes : N := 24.
Definition bytesPerDeltaEdge : N := 4 + 2 + 8.

Definition sum_of {A} (f : A → N) (l : list A) : N := foldr (λ x n, f x + n) 0 l.
Definition entries_of {K V} `{Countable K} (m : gmap K V) : N := N.of_nat (size m).
Definition str_len (s : string) : N := N.of_nat (String.length s).

Definition KindTable_ApproxBytes (t : KindTable) : N :=
  u64 (bytesPerSliceHeader + sum_of str_len (kt_names t) + entries_of (kt_ids t) * approxKindTableMapEntryBytes).

Definition PropStore_ApproxBytes (p : PropStore) : N :=
  u64 (len (ps_arena p) + len (ps_entries p) * bytesPerPropEntry + len (ps_nodeOffsets p) * bytesPerUint32
    + sum_of str_len (ps_names p) + entries_of (ps_ids p) * approxPropNameMapEntryBytes
    + entries_of (ps_objectIndex p) * approxObjectIndexEntryBytes
    + entries_of (ps_objectIndexDup p) * approxObjectIndexEntryBytes
    + sum_of (λ x : string * list NodeID, len x.2 * bytesPerUint32) (map_to_list (ps_objectIndexDup p))).

Definition bitmap_bytes (bm : Bitset) : N := approxKindBitmapEntryBytes + len (words bm) * bytesPerUint64.
(** [Kinds] and [Props] are never nil in a snapshot that was built or read. *)
Definition Snapshot_ApproxBytes (s : Snapshot) : N :=
  u64 (len (GraphIDs s) * bytesPerUint64 + len (OutOffsets s) * bytesPerUint64 + len (OutTargets s) * bytesPerNodeID
    + len (OutKinds s) * bytesPerKindID + len (OutEdgeIDs s) * bytesPerUint64 + len (InOffsets s) * bytesPerUint64
    + len (InTargets s) * bytesPerNodeID + len (InKinds s) * bytesPerKindID + len (InEdgeIdx s) * bytesPerUint32
    + len (KindOffsets s) * bytesPerUint32 + len (NodeKinds s) * bytesPerKindID + len (edgeIDPerm s) * bytesPerUint32
    + entries_of (idIndex s) * approxIdIndexEntryBytes
    + sum_of (λ x : KindID * Bitset, bitmap_bytes x.2) (map_to_list (kindBitmaps s))
    + KindTable_ApproxBytes (Kinds s) + PropStore_ApproxBytes (Props s)).

(** [computeSegmentApproxBytes], which [Build] and [MergeSegments] store. *)
Definition Segment_ApproxBytes (s : Segment) : N :=
  u64 (len (sg_nodeIDs s) * bytesPerUint64 + len (sg_edgeIDs s) * bytesPerUint64
    + entries_of (sg_nodeStates s) * approxSegNodeStateMapEntryBytes
    + sum_of (λ x : N * NodeSegState, len (ns_KindIDs x.2) * bytesPerKindID + str_len (ns_ObjectID x.2)) (map_to_list (sg_nodeStates s))
    + entries_of (sg_edgeStates s) * approxSegEdgeStateMapEntryBytes
    + len (sg_arena (sg_store s)) + sum_of str_len (sg_names (sg_store s))
    + entries_of (sg_ids (sg_store s)) * approxPropNameMapEntryBytes
    + entries_of (sg_addedKinds s) * approxKindTableMapEntryBytes
    + sum_of (λ x : string * list N, str_len x.1 + approxSegObjectIndexEntryBytes + len x.2 * bytesPerUint64) (map_to_list (sg_objectIndex s))).

Section view_sizes.
Context `{GoStd}.

Definition edgeTombCount (v : View) : N := match v_merged v with None => 0 | Some m => len (seg_edges m) end.
(** [bitmaps]: the kind bitmaps the view has cached; a new view has none. *)
Definition View_ApproxBytes (v : View) (bitmaps : list Bitset) : option N :=
  let total := Snapshot_ApproxBytes (v_base v) + sum_of Segment_ApproxBytes (v_segments v) in
  if negb (Overlay v) then Some (u64 total)
  else
    kt ← View_Kinds v;
    let added := match v_merged v with None => ∅ | Some m => AddedKinds m end in
    let kinds := if (size added =? 0)%nat then 0 else KindTable_ApproxBytes kt in
    let adj := deltaAdjacency v in
    let per := λ x : NodeID * list vedge, len x.2 * bytesPerDeltaEdge in
    Some (u64 (total + kinds + sum_of bitmap_bytes bitmaps + edgeTombCount v * bytesPerUint64
      + sum_of per (map_to_list (da_out adj)) + sum_of per (map_to_list (da_in adj)))).

(** A view of anything has a size. *)
Lemma View_ApproxBytes_total v L Ds bitmaps : View_rep v L Ds → is_Some (View_ApproxBytes v bitmaps).
Proof.
  intros HR. unfold View_ApproxBytes. destruct (negb (Overlay v)); [by eexists|].
  assert (∃ kt, View_Kinds v = Some kt) as [kt ->]; [|by eexists].
  unfold View_Kinds. destruct (negb (Overlay v)); [by eexists|]. case_match; [by eexists|].
  edestruct NewKindTable_table as (t & E & _). by eexists.
Qed.
End view_sizes.

(** ** How many nodes a view numbers *)

Section room.
Context `{GoStd}.

Lemma view_numbers v L Ds : Snapshot_rep (v_base v) L → Forall2 Segment_rep (v_segments v) Ds →
  NoDup (lo_ids L ++ virtualPgIDs v) ∧ View_NodeCount v = len (lo_ids L ++ virtualPgIDs v) ∧
  ∀ id, id ∈ lo_ids L ++ virtualPgIDs v ↔ id ∈ lo_ids L ∨ is_added L (delta_all Ds) id.
Proof.
  intros HB HF. destruct (virtual_pre v L Ds HB HF) as [Hs Hin].
  assert (GraphIDs (v_base v) = lo_ids L) as Hids by apply (pk_ids _ _ (rep_packed _ _ HB)). split_and!.
  - apply NoDup_app. split_and!; [apply sorted_lt_NoDup, (pk_sorted _ _ (rep_packed _ _ HB))| |by apply sorted_lt_NoDup].
    intros id Hb [_ Hni]%Hin. done.
  - unfold View_NodeCount, NodeCount. by rewrite Hids, <- len_app.
  - intros id. by rewrite elem_of_app, Hin.
Qed.

Lemma view_room v L Ds (room : gset N) : Snapshot_rep (v_base v) L → Forall2 Segment_rep (v_segments v) Ds → NoDup (lo_edges L).*1 →
  (∀ id, id ∈ lo_ids L ∨ is_added L (delta_all Ds) id → id ∈ room) → N.of_nat (size room) < 2 ^ 32 → View_rep v L Ds.
Proof.
  intros HB HF Hnd Hroom Hsz. split; [done..|]. destruct (view_numbers v L Ds HB HF) as (Hnd' & -> & Hin).
  assert (list_to_set (lo_ids L ++ virtualPgIDs v) ⊆ room) as Hsub by (intros id Hid%elem_of_list_to_set%Hin; by apply Hroom).
  apply subseteq_size in Hsub. rewrite size_list_to_set in Hsub by done. unfold len. lia.
Qed.

Lemma view_room_count v L Ds (room : gset N) : View_rep v L Ds →
  (∀ id, id ∈ lo_ids L ∨ is_added L (delta_all Ds) id → id ∈ room) → View_NodeCount v ≤ N.of_nat (size room).
Proof.
  intros [HB HF _ _] Hroom. destruct (view_numbers v L Ds HB HF) as (Hnd' & -> & Hin).
  assert (list_to_set (lo_ids L ++ virtualPgIDs v) ⊆ room) as Hsub by (intros id Hid%elem_of_list_to_set%Hin; by apply Hroom).
  apply subseteq_size in Hsub. rewrite size_list_to_set in Hsub by done. unfold len. lia.
Qed.

(** A view may be given other segments that number the same nodes. *)
Lemma view_resegment v L Ds segs Ds' : View_rep v L Ds → Forall2 Segment_rep segs Ds' →
  (∀ id, is_added L (delta_all Ds') id → is_added L (delta_all Ds) id) → View_rep (mkView (v_base v) segs) L Ds'.
Proof.
  intros [HB HF Hnd Hc] HF' Hadd. destruct (view_numbers v L Ds HB HF) as (Hnd' & E & Hin). rewrite E in Hc.
  apply (view_room _ _ _ (list_to_set (lo_ids L ++ virtualPgIDs v))); [done..| |].
  - intros id Hid. apply elem_of_list_to_set, Hin. destruct Hid as [?|?]; [by left|right; by apply Hadd].
  - rewrite size_list_to_set by done. unfold len in Hc. lia.
Qed.
End room.
