(* ===== verification/Compact.v ===== *)
(** * Compaction

    [internal/engine/compact.go]: after a write is published, a stack of more
    than [maxSegments] segments is merged into one, and a delta past its
    thresholds is folded into a new base in the background, which is adopted
    with the segments that were published in the meantime.

    Pointers are compared by address, as the code does. Folding reads neither the
    engine nor anything that changes, so the engine of [foldAndAdoptCompaction]
    is the one at the moment of adopting. A panic is [None] until it is
    recovered. *)

From S2P Require Import Prelude Bitset Csr Kinds Props Snapshot Builder Segment View ViewAdj EdgeKinds ViewRows Fold FoldGraph.
From S2P Require Import Ledger ChangeSet BootGap Sizes Engine.
From stdpp Require Import options.
Unset Default Proof Using.
#[local] Open Scope N_scope.

(** ** Definitions *)

Definition maxSegments : N := 32.
Definition DefaultCompactEntries : Z := 65536.
Definition DefaultCompactBytes : N := 512 * 1048576.

Definition seg_entries (seg : Segment) : Z := Z.of_N (Segment_NodeCount seg + Segment_EdgeCount seg).
Definition deltaEntries (segs : list Segment) : Z := foldr (λ seg n, seg_entries seg + n)%Z 0%Z segs.
Definition deltaBytes (segs : list Segment) : N := u64 (sum_of Segment_ApproxBytes segs).
Definition deltaSize (segs : list Segment) : Z * N := (deltaEntries segs, deltaBytes segs).

Definition compactionThresholdExceeded (compactEntries : Z) (compactBytes : N) (entries : Z) (bytes : N) : bool :=
  if bool_decide (0 < compactEntries)%Z && bool_decide (compactEntries < entries)%Z then true
  else if (0 <? compactBytes) && (compactBytes <? bytes) then true
  else false.

Definition segmentsAfter (current captured : list (ref Segment)) : option (list (ref Segment)) :=
  if len current <? len captured then None
  else if forallb (λ p : ref Segment * ref Segment, p.1.1 =? p.2.1) (zip current captured) then Some (drop (length captured) current)
  else None.

Section compact.
Context `{GoStd}.

(** Everything a reader computes on demand is computed before the view is
    published. *)
Definition View_Warm (v : View) : option () :=
  if negb (Overlay v) then Some ()
  else _ ← edgeTombSlots v; _ ← dirtyAdjacency v; _ ← mergedOut v; _ ← mergedIn v; Some ().
Definition Snapshot_Warm (s : Snapshot) : option () := _ ← ensureEdgeKindIndex s; Some ().

Definition collapseSegmentStackIfNeeded (e : Engine) (view : viewPtr) : option (Engine * viewPtr) :=
  let segs := vp_segments view in
  if len segs <=? maxSegments then Some (e, view)
  else
    let '(e, seg) := allocate e (MergeSegments (Some <$> segs.*2)) in
    let merged := mkViewPtr (vp_base view) [seg] in
    _ ← Snapshot_Warm (vp_base merged).2;
    Some (with_snap e (Some merged), merged).

Definition maybeStartCompaction (e : Engine) (view : viewPtr) : Engine :=
  if l_compacting (e_loops e) then e
  else if negb (bool_decide (e_state e = stateServing)) then e
  else
    let segs := vp_segments view in
    if len segs =? 0 then e
    else
      let entries := deltaEntries segs.*2 in
      let tripped := compactionThresholdExceeded (cfg_CompactEntries (e_cfg e)) 0 entries 0 in
      let tripped := if negb tripped && (0 <? cfg_CompactBytes (e_cfg e))
        then compactionThresholdExceeded 0 (cfg_CompactBytes (e_cfg e)) 0 (deltaBytes segs.*2) else tripped in
      if negb tripped then e else spawn (set_compacting e true) (RunCompaction (vp_base view) segs).

Definition maintainAfterPublish (e : Engine) (view : viewPtr) : option Engine :=
  '(e, current) ← collapseSegmentStackIfNeeded e view; Some (maybeStartCompaction e current).

(** The segments a folded base starts with: the fold's own, then those published
    since, in one. *)
Definition carriedSegment (pending : option Segment) (tail : list (ref Segment)) : option Segment :=
  let carried := match pending with Some p => p :: tail.*2 | None => tail.*2 end in
  match carried with [] => None | _ => Some (MergeSegments (Some <$> carried)) end.

Definition adoptCompaction (e : Engine) (capturedBase : ref Snapshot) (capturedSegs : list (ref Segment))
    (folded : Snapshot) (pending : option Segment) : option (Engine * bool) :=
  match e_snap e with
  | None => Some (e, false)
  | Some current =>
      if negb ((vp_base current).1 =? capturedBase.1) then Some (e, false)
      else if negb (bool_decide (e_state e = stateServing)) then Some (e, false)
      else match segmentsAfter (vp_segments current) capturedSegs with
      | None => Some (e, false)
      | Some tail =>
          let '(e, base) := allocate e folded in
          let '(e, newView) :=
            match carriedSegment pending tail with
            | None => (e, mkViewPtr base [])
            | Some seg => let '(e, seg) := allocate e seg in (e, mkViewPtr base [seg])
            end in
          _ ← Snapshot_Warm folded;
          _ ← View_Warm (vp_view newView);
          Some (count_compaction (with_snap e (Some newView)), true)
      end
  end.

(** [stopped] and [stopped']: whether the engine was stopping before and after
    the fold. The edges carried over count the ones the fold kept apart. *)
Definition foldAndAdoptCompaction (stopped stopped' : bool) (e : Engine) (capturedBase : ref Snapshot)
    (capturedSegs : list (ref Segment)) : Engine * option (Snapshot * N) :=
  if stopped then (e, None)
  else match FoldWithPendingEdges capturedBase.2 capturedSegs.*2 with
  | None => (backgroundPanicked e, None)
  | Some (inr _) => (e, None)
  | Some (inl (folded, pending)) =>
      if stopped' then (e, None)
      else match adoptCompaction e capturedBase capturedSegs folded pending with
      | None => (backgroundPanicked e, None)
      | Some (e, false) => (e, None)
      | Some (e, true) => (e, Some (folded, match pending with Some p => Segment_EdgeCount p | None => 0 end))
      end
  end.
(** Without the save that follows an adopted fold. *)
Definition runCompaction (stopped stopped' : bool) (e : Engine) (capturedBase : ref Snapshot)
    (capturedSegs : list (ref Segment)) : Engine :=
  set_compacting (foldAndAdoptCompaction stopped stopped' e capturedBase capturedSegs).1 false.
End compact.

(** ** Warming *)

Section warm.
Context `{GoStd}.

Lemma warm_base v L Ds : View_rep v L Ds → Snapshot_Warm (v_base v) = Some ().
Proof. intros HR. unfold Snapshot_Warm. by destruct (base_index v L Ds HR) as (ix & -> & _). Qed.

Lemma warm_view v L Ds : View_rep v L Ds → View_NodeCount v < 2 ^ 31 → View_Warm v = Some ().
Proof.
  intros HR Hsize. unfold View_Warm. destruct (Overlay v) eqn:Ho; [|done]. simpl.
  destruct (edgeTombSlots_spec v L Ds HR) as (tomb & -> & _). simpl.
  destruct (dirty_spec v L Ds HR Hsize Ho) as (Hd & Ho1 & _ & Hi1 & _). unfold mergedOut, mergedIn. rewrite Hd. simpl.
  destruct (build_merged_spec v Hsize (walk_list v L true) (OutEdges v) (λ n y s, OutEdges_walk v L Ds HR n y s) (Some _) Ho1)
    as (m & ns & -> & _). simpl.
  destruct (build_merged_spec v Hsize (walk_list v L false) (InEdges v) (λ n y s, InEdges_walk v L Ds HR n y s) (Some _) Hi1)
    as (m' & ns' & -> & _). done.
Qed.
End warm.

(** ** Deltas merged into one *)

Lemma delta_all_app Ds Ds' : delta_all (Ds ++ Ds') = foldl delta_over (delta_all Ds) Ds'.
Proof. unfold delta_all. by rewrite foldl_app. Qed.
Lemma delta_over_empty D : delta_over delta_empty D = D.
Proof. destruct D. unfold delta_over. simpl. by rewrite !(right_id ∅ _). Qed.
Lemma delta_all_single D : delta_all [D] = D.
Proof. apply delta_over_empty. Qed.
Lemma delta_all_node Ds id o : d_nodes (delta_all Ds) !! id = Some o → ∃ D, D ∈ Ds ∧ d_nodes D !! id = Some o.
Proof.
  induction Ds as [|D Ds IH] using rev_ind; [done|]. rewrite delta_all_app. simpl.
  intros [Hd|[_ Hd]]%lookup_union_Some_raw; [exists D; split; [set_solver|done]|].
  destruct (IH Hd) as (D' & ? & ?). exists D'. split; [set_solver|done].
Qed.
Lemma delta_all_kinds Ds (K : gmap Z string) : (∀ D, D ∈ Ds → d_kinds D ⊆ K) → d_kinds (delta_all Ds) ⊆ K.
Proof.
  induction Ds as [|D Ds IH] using rev_ind; intros HK; [apply map_empty_subseteq|]. rewrite delta_all_app. simpl.
  apply map_union_least; [apply HK; set_solver|apply IH; intros; apply HK; set_solver].
Qed.
Lemma view_graph_merge L Ds : view_graph L [delta_all Ds] = view_graph L Ds.
Proof. by rewrite !view_graph_all, delta_all_single. Qed.

(** ** The stack of segments *)

Section stack.
Context `{GoStd}.

(** Collapsing keeps the graph and leaves at most [maxSegments] segments. *)
Lemma collapse_ok e p L Ds : View_rep (vp_view p) L Ds → ∃ e' p' Ds', collapseSegmentStackIfNeeded e p = Some (e', p') ∧
  View_rep (vp_view p') L Ds' ∧ delta_all Ds' = delta_all Ds ∧ len (vp_segments p') ≤ maxSegments ∧ vp_base p' = vp_base p ∧
  (e' = e ∧ p' = p ∧ Ds' = Ds ∨
   Ds' = [delta_all Ds] ∧ e' = with_snap (allocate e ()).1 (Some p') ∧
   vp_segments p' = [(e_next e, MergeSegments (Some <$> (vp_segments p).*2))]).
Proof.
  intros HR. unfold collapseSegmentStackIfNeeded. destruct (N.leb_spec (len (vp_segments p)) maxSegments) as [|Hlong].
  { exists e, p, Ds. split_and!; [done..|]. by left. }
  cbn [allocate vp_base]. rewrite (warm_base _ _ _ HR : Snapshot_Warm (vp_base p).2 = _). cbn [mbind option_bind].
  eexists _, _, [delta_all Ds]. split; [done|]. cbn [vp_segments vp_base]. split_and!; [|apply delta_all_single|done|done|by right].
  apply (view_resegment (vp_view p) L Ds [_]); [done| |by rewrite delta_all_single].
  constructor; [|done]. apply MergeSegments_rep, HR.
Qed.

Lemma segmentsAfter_spec current captured tail : segmentsAfter current captured = Some tail →
  (∀ x y, x ∈ current → y ∈ captured → x.1 = y.1 → x = y) → current = captured ++ tail.
Proof.
  unfold segmentsAfter. destruct (N.ltb_spec (len current) (len captured)) as [|Hl]; [done|].
  destruct (forallb _ _) eqn:Hf; [|done]. intros [= <-] Hsame. unfold len in Hl.
  rewrite <- (take_drop (length captured) current) at 1. f_equal.
  clear -Hf Hl Hsame. revert current Hf Hl Hsame. induction captured as [|y ys IH]; intros [|x xs] Hf Hl Hsame; try done.
  cbn [zip_with zip forallb length take] in *. apply andb_true_iff in Hf as [Hx%N.eqb_eq Hf]. f_equal.
  - apply Hsame; [set_solver..|done].
  - apply IH; [done|lia|]. intros; apply Hsame; set_solver.
Qed.

(** The view that a fold starts: the fold's result, then what was published
    since. *)
Lemma carried_view folded pending tail L' Ds' Ts (ever : gset N) : View_rep (mkView folded (opt_list pending)) L' Ds' →
  Forall2 Segment_rep tail.*2 Ts →
  (∀ id, id ∈ lo_ids L' ∨ is_added L' (delta_all (Ds' ++ Ts)) id → id ∈ ever) → N.of_nat (size ever) < 2 ^ 32 →
  ∃ Ds'', View_rep (mkView folded (opt_list (carriedSegment pending tail))) L' Ds'' ∧ delta_all Ds'' = delta_all (Ds' ++ Ts) ∧
    view_graph L' Ds'' = foldl apply_delta (view_graph L' Ds') Ts ∧ (Ds'' = [] ∨ Ds'' = [delta_all (Ds' ++ Ts)]).
Proof.
  intros HR HT Hin Hsz.
  assert (view_graph L' (Ds' ++ Ts) = foldl apply_delta (view_graph L' Ds') Ts) as <- by (unfold view_graph; by rewrite foldl_app).
  assert (Forall2 Segment_rep (opt_list pending ++ tail.*2) (Ds' ++ Ts)) as HF.
  { apply Forall2_app; [|done]. destruct HR as [_ HF _ _]. exact HF. }
  assert (carriedSegment pending tail = match opt_list pending ++ tail.*2 with [] => None
    | _ => Some (MergeSegments (Some <$> (opt_list pending ++ tail.*2))) end) as -> by by destruct pending.
  destruct (opt_list pending ++ tail.*2) as [|s l] eqn:El.
  - apply Forall2_nil_inv_l in HF as Hnil. rewrite Hnil in *. exists []. split_and!; [|done|done|by left].
    apply (view_room _ _ _ ever); try apply HR; done.
  - exists [delta_all (Ds' ++ Ts)]. split_and!; [|apply delta_all_single|apply view_graph_merge|by right].
    apply (view_room _ _ _ ever); [apply HR| |apply HR|by rewrite delta_all_single|done].
    constructor; [|done]. by apply (MergeSegments_rep (s :: l)).
Qed.
End stack.
