(* ===== verification/WriteThrough.v ===== *)
(** * Writing through to a view

    What one committed write does to the view that is served: [Apply] of
    [internal/engine/apply.go] reads the write's keys back ([readBack]), turns
    the answer into a segment ([buildApplySegment]) and puts it on the view.

    The result, for a view of any graph over a database at rest: every row
    becomes what the database says or stays what it was, and every row the write
    named becomes what the database says. *)

From S2P Require Import Prelude Bitset Kinds Props Snapshot Builder Segment ParseProps View ViewAdj ViewKinds ChangeSet Apply Candidates Sizes.
From S2P Require Import Readback ReadbackRuns ReadbackSpec.
From stdpp Require Import options.
Unset Default Proof Using.
#[local] Open Scope N_scope.

(** ** The graph of a database *)

Section db_graph.
Context `{GoStd} `{JsonStd}.

Definition db_state (n : dbNode) : option node_state := bag ← json_bag (dn_properties n); Some (dn_kind_ids n, bag).
Definition db_graph (d : database) : graph := mkGraph (omap db_state (db_node d)) (db_edge d).
Definition json_ok (d : database) : Prop := ∀ id n, db_node d !! id = Some n → is_Some (json_bag (dn_properties n)).

Lemma db_graph_node d id : json_ok d → is_Some (g_nodes (db_graph d) !! id) ↔ is_Some (db_node d !! id).
Proof.
  intros Hj. simpl. rewrite lookup_omap. destruct (db_node d !! id) as [n|] eqn:En; simpl; [|done].
  unfold db_state. destruct (Hj _ _ En) as [bag ->]. simpl. split; intros _; by eexists.
Qed.
Lemma db_graph_visible d : json_ok d → database_ok d → visible (db_graph d) = db_edge d.
Proof.
  intros Hj Hd. apply map_eq. intros e. apply option_eq. intros [[s t] k]. unfold visible. rewrite map_lookup_filter_Some. simpl.
  split; [by intros []|]. intros He. split; [done|]. destruct (dbo_ends _ Hd _ _ _ _ He). by split; apply (db_graph_node d).
Qed.

(** *** Kinds *)

Definition table_true (d : database) (t : KindTable) : Prop :=
  (∀ name k, KindTable_ID t name = Some k → db_kind d !! k = Some name) ∧
  ∀ k name, KindTable_Name t k = Some name → db_kind d !! k = Some name.
(** The view's names are the database's. *)
Definition names_true (d : database) (v : View) (Ds : list delta) : Prop :=
  table_true d (Kinds (v_base v)) ∧ d_kinds (delta_all Ds) ⊆ db_kind d.

Lemma names_view_kinds d v L Ds : View_rep v L Ds → names_true d v Ds → view_kinds_true d (Some v).
Proof.
  intros HR [Hbase Hadd]. simpl. unfold View_Kinds.
  assert (∀ m, Segment_rep m (delta_all Ds) → AddedKinds m = d_kinds (delta_all Ds)) as Hm by (intros m Hm; apply (sr_kinds _ _ Hm)).
  destruct (merged_cases v L Ds HR) as [(-> & _ & ->)|(m & -> & Hrep & ->)]; simpl; [by exists (Kinds (v_base v))|].
  rewrite (Hm _ Hrep). destruct (Nat.eqb_spec (size (d_kinds (delta_all Ds))) 0); [by exists (Kinds (v_base v))|].
  set (pairs := kind_pairs _ _). assert (pairs ⊆ db_kind d) as Hp.
  { apply map_subseteq_spec. intros k name. unfold pairs. rewrite kind_pairs_lookup.
    destruct (d_kinds (delta_all Ds) !! k) as [nm|] eqn:Ek; [intros [= <-]; by eapply map_subseteq_spec|apply Hbase]. }
  destruct (NewKindTable_table pairs) as (t & Et & _ & _ & _ & Hid). exists t. split; [done|]. split.
  - intros name k Hk. apply Hid, elem_of_map_to_list in Hk. by eapply map_subseteq_spec.
  - intros k name. rewrite (NewKindTable_name _ _ _ Et). case_bool_decide; [|done].
    destruct (pairs !! k) as [nm|] eqn:Ek; [|done]. destruct (String.eqb nm ""); [done|]. intros [= <-]. by eapply map_subseteq_spec.
Qed.
End db_graph.

(** ** One write, read back and put on a view *)

Section refresh.
Context `{GoStd} `{JsonStd}.
Context (pg_objectid : bytes → option string) (answers : nat → option database) (defaultGraph : option Z).
Context (v : View) (L : layout) (Ds : list delta) (HR : View_rep v L Ds).
Context (d : database) (E : goerr → Prop) (cs : ChangeSet) (ever : gset N).
Let G := view_graph L Ds.

(** The ids the view has ever numbered are among those ever handed out. *)
Definition numbered_within : Prop := ∀ id, id ∈ lo_ids L ∨ is_added L (delta_all Ds) id → id ∈ ever.
(** An edge id means the same edge for ever. *)
Definition same_edges : Prop := ∀ e x y, g_edges G !! e = Some x → db_edge d !! e = Some y → x = y.

Hypothesis Hrest : ∀ n d', answers n = Some d' → d' = d.
Hypothesis Hdb : database_ok d.
Hypothesis Hnames : names_true d v Ds.
Hypothesis Hpg : ∀ b o, objectIDFromProps b = Some o → pg_objectid b = Some o.
Hypothesis HE : ∀ n, answers n = None → E ErrQuery.
Hypothesis HEg : defaultGraph = None → E ErrNoGraph.
Hypothesis HEk : ∀ k, ((∃ id n, db_node d !! id = Some n ∧ k ∈ dn_kind_ids n) ∨ ∃ e s t, db_edge d !! e = Some (s, t, k)) →
  db_kind d !! k = None → E ErrUnnamedKind.
Hypothesis HEu : ∀ cr kind, cr ∈ NodeKindCriteria cs → kind ∈ nk_Exclude cr →
  (kind = None ∨ ∀ k, db_kind d !! k ≠ Some (kindName kind)) → E (ErrUnknownKind (kindName kind)).
Hypothesis Hjson : json_ok d.
Hypothesis Hever : N.of_nat (size ever) < 2 ^ 32.
Hypothesis Hin : numbered_within.
Hypothesis Hdin : ∀ id, is_Some (db_node d !! id) → id ∈ ever.
Hypothesis Hsame : same_edges.

(** An edge of a triple the write recorded. *)
Definition triple_covered (e : N) : Prop := ∃ t name k, t ∈ EdgeTriples cs ∧ tr_Kind t = Some name ∧ db_kind d !! k = Some name ∧
  db_edge d !! e = Some (tr_Start t, tr_End t, k).
Definition oid_triple_covered (e : N) : Prop := ∃ t name k s s', t ∈ EdgeTriplesByObjectID cs ∧
  to_StartOID t ∈ NodeObjectIDs cs ∧ to_EndOID t ∈ NodeObjectIDs cs ∧
  to_Kind t = Some name ∧ db_kind d !! k = Some name ∧ db_edge d !! e = Some (s, s', k) ∧
  db_named d (to_StartOID t) s ∧ db_named d (to_EndOID t) s'.

(** What the segment [D] of a write does to the view. *)
Record refreshed (D : delta) : Prop := {
  rf_node : ∀ id, g_nodes (apply_delta G D) !! id = g_nodes (db_graph d) !! id ∨ g_nodes (apply_delta G D) !! id = g_nodes G !! id;
  rf_node_covered : ∀ id, node_covered pg_objectid L Ds d cs id → g_nodes (apply_delta G D) !! id = g_nodes (db_graph d) !! id;
  rf_edge : ∀ e, g_edges (apply_delta G D) !! e = db_edge d !! e ∨ g_edges (apply_delta G D) !! e = g_edges G !! e;
  rf_edge_covered : ∀ e, edge_covered L Ds d cs e ∨ triple_covered e ∨ oid_triple_covered e →
    g_edges (apply_delta G D) !! e = db_edge d !! e;
  rf_alive : ∀ id st, d_nodes D !! id = Some (Some st) → is_Some (db_node d !! id);
  rf_dead : ∀ id, d_nodes D !! id = Some None → db_node d !! id = None ∧ (id ∈ NodeIDs cs ∨ is_Some (g_nodes G !! id));
  rf_kinds : d_kinds D ⊆ db_kind d;
}.

Lemma applied_node rb D id : applied_delta L Ds rb D → (∀ ns, ns ∈ rb_nodes rb → ∃ n, db_node d !! nst_id ns = Some n ∧ ns = node_of (nst_id ns) n) →
  (∀ id, id ∈ rb_absentNodeIDs rb → db_node d !! id = None) →
  (id ∈ nst_id <$> rb_nodes rb ∨ id ∈ rb_absentNodeIDs rb → g_nodes (apply_delta G D) !! id = g_nodes (db_graph d) !! id) ∧
  (¬ (id ∈ nst_id <$> rb_nodes rb ∨ id ∈ rb_absentNodeIDs rb) → g_nodes (apply_delta G D) !! id = g_nodes G !! id).
Proof.
  intros HD Ht Ha. simpl. rewrite over_lookup. destruct (decide (id ∈ nst_id <$> rb_nodes rb)) as [Hn|Hn].
  - split; [intros _|tauto]. apply list_elem_of_fmap in Hn as (ns & -> & Hns). destruct (ad_nodes _ _ _ _ HD ns Hns) as (bag & Ebag & ->).
    destruct (Ht ns Hns) as (n & En & Ens). rewrite lookup_omap, En. simpl. unfold db_state.
    assert (nst_propsJSON ns = dn_properties n ∧ nst_kindIDs ns = dn_kind_ids n) as [Ep Ek] by (rewrite Ens; done).
    rewrite Ep in Ebag. by rewrite Ebag, Ek.
  - rewrite (ad_other_nodes _ _ _ _ HD id Hn). case_bool_decide as Hab; [|split; [tauto|done]].
    split; [intros _|tauto]. by rewrite lookup_omap, (Ha _ Hab).
Qed.

(** What is cut is gone. *)
Lemma cut_gone rb cs' e : read_back_ok pg_objectid v L Ds d cs rb cs' → cut L Ds rb e → db_edge d !! e = None.
Proof.
  intros Hrb Hcut. destruct (db_edge d !! e) as [y|] eqn:Ee; [exfalso|done].
  assert (∀ x, visible G !! e = Some x → x = y) as Hx.
  { intros x [Hv _]%map_lookup_filter_Some. by eapply Hsame. }
  destruct Hcut as [Hab|[(id & Hid & k & o & Hv)|(tr & Htr & Hk & Hv)]].
  - apply (rb_gone_edges _ _ _ _ _ _ _ _ Hrb) in Hab. congruence.
  - apply (rb_gone_nodes _ _ _ _ _ _ _ _ Hrb) in Hid.
    destruct y as [[s t] k']. destruct (dbo_ends _ Hdb _ _ _ _ Ee) as [Hs Ht].
    destruct Hv as [Hv|Hv]; apply Hx in Hv; simplify_eq; rewrite Hid in *; by destruct Hs || by destruct Ht.
  - apply Hx in Hv as <-. destruct (rb_gone_triples _ _ _ _ _ _ _ _ Hrb tr Htr) as [?|Hno]; [done|]. by eapply Hno.
Qed.

Lemma applied_edge rb cs' D e : read_back_ok pg_objectid v L Ds d cs rb cs' → applied_delta L Ds rb D →
  (e ∈ est_id <$> rb_edges rb ∨ cut L Ds rb e → g_edges (apply_delta G D) !! e = db_edge d !! e) ∧
  (g_edges (apply_delta G D) !! e = db_edge d !! e ∨ g_edges (apply_delta G D) !! e = g_edges G !! e).
Proof.
  intros Hrb HD. simpl. rewrite over_lookup. destruct (decide (e ∈ est_id <$> rb_edges rb)) as [He|He].
  - apply list_elem_of_fmap in He as (es & -> & Hes). rewrite (ad_edges _ _ _ _ HD es Hes).
    destruct (rb_edges_true _ _ _ _ _ _ _ _ Hrb es Hes) as ([[s t] k] & Ex & Ees). rewrite Ex. rewrite Ees. by split; [|left].
  - assert (cut L Ds rb e → d_edges D !! e = Some None) as Hc by (intros; by apply (ad_cut _ _ _ _ HD)). split.
    + intros [?|Hcut]; [done|]. rewrite (Hc Hcut). symmetry. by eapply cut_gone.
    + destruct (d_edges D !! e) as [[x|]|] eqn:Ed; [|left|by right].
      * exfalso. assert (¬ cut L Ds rb e) as Hnc by (intros ?%Hc; congruence).
        pose proof (ad_other_edges _ _ _ _ HD e He Hnc). congruence.
      * assert (¬ ¬ cut L Ds rb e) as Hnn by (intros Hnc; pose proof (ad_other_edges _ _ _ _ HD e He Hnc); congruence).
        destruct (db_edge d !! e) eqn:Ee; [|done]. exfalso. apply Hnn. intros Hcut. rewrite (cut_gone _ _ _ Hrb Hcut) in Ee. done.
Qed.
Lemma added_ever D id : (∀ id st, d_nodes D !! id = Some (Some st) → is_Some (db_node d !! id)) →
  id ∈ lo_ids L ∨ is_added L (delta_all (Ds ++ [D])) id → id ∈ ever.
Proof.
  intros Halive [?|[[st Hst] Hni]]; [apply Hin; by left|].
  unfold delta_all in Hst. rewrite foldl_app in Hst. simpl in Hst. fold (delta_all Ds) in Hst.
  apply lookup_union_Some_raw in Hst as [?|[_ ?]]; [by eapply Hdin, Halive|apply Hin; right]. split; [by exists st|done].
Qed.
Lemma added_within seg D : Segment_rep seg D → (∀ id st, d_nodes D !! id = Some (Some st) → is_Some (db_node d !! id)) →
  View_rep (WithSegment v seg) L (Ds ++ [D]).
Proof.
  intros Hseg Halive. apply (view_room (WithSegment v seg) L (Ds ++ [D]) ever); try apply HR; [|intros id; by apply added_ever|done].
  simpl. apply Forall2_app; [apply HR|by constructor].
Qed.

Lemma refresh_ok rb cs' : read_back_ok pg_objectid v L Ds d cs rb cs' → ∃ r, buildApplySegment v rb = Some r ∧
  match r with
  | inl seg => ∃ D, Segment_rep seg D ∧ View_rep (WithSegment v seg) L (Ds ++ [D]) ∧ refreshed D
  | inr err => err = ErrTooManyProps ∨ err = ErrArenaFull
  end.
Proof.
  intros Hrb. pose proof (rb_nodes_true _ _ _ _ _ _ _ _ Hrb) as Ht. pose proof (rb_gone_nodes _ _ _ _ _ _ _ _ Hrb) as Hg.
  destruct (buildApplySegment_spec v L Ds HR rb) as (r & Er & Hr); [apply Hrb..|]. exists r. split; [done|].
  destruct r as [seg|err].
  2: { destruct Hr as [(_ & ns & Hns & Hno)|?]; [|done]. destruct (Ht ns Hns) as (n & En & Ens).
       destruct (Hjson _ _ En) as [bag Ebag]. rewrite Ens in Hno. simpl in Hno. congruence. }
  destruct Hr as (D & Hseg & HD). exists D. split; [done|].
  assert (∀ id st, d_nodes D !! id = Some (Some st) → is_Some (db_node d !! id)) as Halive.
  { intros id st Hst. destruct (decide (id ∈ nst_id <$> rb_nodes rb)) as [Hid|Hid].
    - apply list_elem_of_fmap in Hid as (ns & -> & Hns). destruct (Ht ns Hns) as (n & En & _). by exists n.
    - rewrite (ad_other_nodes _ _ _ _ HD id Hid) in Hst. by case_bool_decide. }
  split; [by apply added_within|]. split; try done.
  - intros id. destruct (applied_node rb D id HD Ht Hg) as [Hyes Hno].
    destruct (decide (id ∈ nst_id <$> rb_nodes rb ∨ id ∈ rb_absentNodeIDs rb)); [left; by apply Hyes|right; by apply Hno].
  - intros id Hc. apply (applied_node rb D id HD Ht Hg). by apply (rb_node_answered _ _ _ _ _ _ _ _ Hrb).
  - intros e. by apply (applied_edge rb cs' D e Hrb HD).
  - intros e Hc. apply (applied_edge rb cs' D e Hrb HD). destruct Hc as [Hc|[(t & name & k & ?)|(t & name & k & s & s' & ?)]].
    + apply (rb_edge_answered _ _ _ _ _ _ _ _ Hrb) in Hc as [?|?]; [by left|right; by left].
    + left. destruct_and!. by eapply (rb_triples _ _ _ _ _ _ _ _ Hrb).
    + left. destruct_and!. by eapply (rb_oid_named _ _ _ _ _ _ _ _ Hrb).
  - intros id Hid. destruct (decide (id ∈ nst_id <$> rb_nodes rb)) as [Hn|Hn].
    + apply list_elem_of_fmap in Hn as (ns & -> & Hns). destruct (ad_nodes _ _ _ _ HD ns Hns) as (bag & _ & Ebag). congruence.
    + rewrite (ad_other_nodes _ _ _ _ HD id Hn) in Hid. case_bool_decide as Hab; [|done].
      split; [by apply Hg|by apply (rb_gone_known _ _ _ _ _ _ _ _ Hrb)].
  - rewrite (ad_kinds _ _ _ _ HD). by apply (rb_kinds_true _ _ _ _ _ _ _ _ Hrb).
Qed.
End refresh.
