(* ===== verification/LoadNodes.v ===== *)
(** * Loading the nodes

    [loadNodes] of [internal/engine/load.go]: one goroutine reads the rows, some
    parse the properties, one stages what they parsed; two bounded channels, the
    same row in both, keep the rows in order. A row in flight is its number.

    The pipeline is a transition system whose steps are what a goroutine does
    between two channel operations. Every run ends, none gets stuck, and what is
    staged is what staging the rows one by one would have staged. *)

From S2P Require Import Prelude Bitset Csr Kinds Props Snapshot Builder ParseProps Readback.
From stdpp Require Import options.
Unset Default Proof Using.

(** ** Definitions *)

Abbreviation node_row := (N * dbNode)%type (only parsing).

Inductive load_err := LoadScan | LoadCancelled | LoadPanicked | LoadStage (e : goerr).

Inductive scanner := ScanNext | ScanJob | ScanOrder | ScanDone.
Inductive worker := WIdle | WParse (i : nat) | WExit.
Inductive stager := StWait | StHold (i : nat) | StDone.

(** [pp_scanned] rows were sent to both channels; [pp_results] are the rows
    whose result was sent and not received. *)
Record pipe := mkPipe {
  pp_ctx : bool;  (* gctx is done *)
  pp_err : option load_err;  (* the group's first error *)
  pp_scan : scanner; pp_scanned : nat;
  pp_jobs : list nat; pp_order : list nat;
  pp_workers : list worker; pp_results : gset nat;
  pp_stager : stager; pp_builder : Builder;
}.

Definition first_error (old : option load_err) (e : load_err) : option load_err :=
  match old with Some _ => old | None => Some e end.

Section load_nodes.
Context `{GoStd} `{JsonStd}.

(** What a worker sends back for a row, and what the stager does with it. *)
Definition parseLoadedProps (row : node_row) : list parsedProp + goerr := ParseProps (dn_properties row.2).
Definition stage_row (row : node_row) : go Builder () :=
  match parseLoadedProps row with
  | inr err => go_err err
  | inl parsed => addParsedNode row.1 (dn_kind_ids row.2) parsed
  end.
Definition stage_rows (rows : list node_row) : go Builder () := go_for stage_row rows.

Context (rows : list node_row) (capacity : nat).

Definition pipe_start (b : Builder) (workers : nat) : pipe :=
  mkPipe false None ScanNext 0 [] [] (replicate workers WIdle) ∅ StWait b.

Inductive pipe_step : pipe → pipe → Prop :=
  | step_next x e n js os ws rs st b : (n < length rows)%nat →
      pipe_step (mkPipe x e ScanNext n js os ws rs st b) (mkPipe x e ScanJob n js os ws rs st b)
  | step_scan_error x e n js os ws rs st b :  (* [Scan] or [rows.Err] *)
      pipe_step (mkPipe x e ScanNext n js os ws rs st b) (mkPipe true (first_error e LoadScan) ScanDone n js os ws rs st b)
  | step_scan_end x e js os ws rs st b :
      pipe_step (mkPipe x e ScanNext (length rows) js os ws rs st b) (mkPipe x e ScanDone (length rows) js os ws rs st b)
  | step_job x e n js os ws rs st b : (length js < capacity)%nat →
      pipe_step (mkPipe x e ScanJob n js os ws rs st b) (mkPipe x e ScanOrder n (js ++ [n]) os ws rs st b)
  | step_order x e n js os ws rs st b : (length os < capacity)%nat →
      pipe_step (mkPipe x e ScanOrder n js os ws rs st b) (mkPipe x e ScanNext (S n) js (os ++ [n]) ws rs st b)
  | step_scan_cancelled e sc n js os ws rs st b : sc = ScanJob ∨ sc = ScanOrder →
      pipe_step (mkPipe true e sc n js os ws rs st b) (mkPipe true (first_error e LoadCancelled) ScanDone n js os ws rs st b)
  | step_take x e sc n i js os ws rs st b k : ws !! k = Some WIdle →
      pipe_step (mkPipe x e sc n (i :: js) os ws rs st b) (mkPipe x e sc n js os (<[k := WParse i]> ws) rs st b)
  | step_parsed x e sc n js os ws rs st b k i : ws !! k = Some (WParse i) →
      pipe_step (mkPipe x e sc n js os ws rs st b) (mkPipe x e sc n js os (<[k := WIdle]> ws) ({[i]} ∪ rs) st b)
  | step_worker_exit x e n os ws rs st b k : ws !! k = Some WIdle →
      pipe_step (mkPipe x e ScanDone n [] os ws rs st b) (mkPipe x e ScanDone n [] os (<[k := WExit]> ws) rs st b)
  | step_pick x e sc n js i os ws rs b :
      pipe_step (mkPipe x e sc n js (i :: os) ws rs StWait b) (mkPipe x e sc n js os ws rs (StHold i) b)
  | step_stage x e sc n js os ws rs i b row b' : i ∈ rs → rows !! i = Some row → stage_row row b = Some (b', inl ()) →
      pipe_step (mkPipe x e sc n js os ws rs (StHold i) b) (mkPipe x e sc n js os ws (rs ∖ {[i]}) StWait b')
  | step_stage_error x e sc n js os ws rs i b row b' err : i ∈ rs → rows !! i = Some row → stage_row row b = Some (b', inr err) →
      pipe_step (mkPipe x e sc n js os ws rs (StHold i) b)
        (mkPipe true (first_error e (LoadStage err)) sc n js os ws (rs ∖ {[i]}) StDone b')
  | step_stage_panic x e sc n js os ws rs i b row : i ∈ rs → rows !! i = Some row → stage_row row b = None →
      pipe_step (mkPipe x e sc n js os ws rs (StHold i) b)
        (mkPipe true (first_error e LoadPanicked) sc n js os ws (rs ∖ {[i]}) StDone b)
  | step_stage_exit x e n js ws rs b :
      pipe_step (mkPipe x e ScanDone n js [] ws rs StWait b) (mkPipe x e ScanDone n js [] ws rs StDone b)
  | step_cancel e sc n js os ws rs st b :  (* the caller's context *)
      pipe_step (mkPipe false e sc n js os ws rs st b) (mkPipe true e sc n js os ws rs st b).

(** [g.Wait] returns. *)
Definition pipe_final (p : pipe) : Prop :=
  pp_scan p = ScanDone ∧ Forall (λ w, w = WExit) (pp_workers p) ∧ pp_stager p = StDone.

(** ** Every run ends *)

Definition scan_weight (p : pipe) : nat :=
  let r := (length rows - pp_scanned p)%nat in
  match pp_scan p with ScanNext => 8 * r + 1 | ScanJob => 8 * r | ScanOrder => 8 * r - 4 | ScanDone => 0 end.
Definition worker_weight (w : worker) : nat := match w with WIdle => 1 | WParse _ => 3 | WExit => 0 end.
Definition stager_weight (s : stager) : nat := match s with StWait => 1 | StHold _ => 2 | StDone => 0 end.
Definition pipe_weight (p : pipe) : nat :=
  scan_weight p + 3 * length (pp_jobs p) + 2 * length (pp_order p) + sum_list_with worker_weight (pp_workers p)
  + stager_weight (pp_stager p) + (if pp_ctx p then 0 else 1).

Lemma workers_weight ws k w w' : ws !! k = Some w →
  (sum_list_with worker_weight (<[k := w']> ws) + worker_weight w = sum_list_with worker_weight ws + worker_weight w')%nat.
Proof.
  intros Hk. rewrite insert_take_drop by (by eapply lookup_lt_Some). rewrite <- (take_drop_middle _ _ _ Hk) at 3.
  rewrite !sum_list_with_app. simpl. lia.
Qed.

(** A scanner between two sends has a row to send. *)
Definition scan_ok (p : pipe) : Prop :=
  (pp_scanned p ≤ length rows)%nat ∧ (pp_scan p = ScanJob ∨ pp_scan p = ScanOrder → (pp_scanned p < length rows)%nat).

Lemma pipe_step_weight p p' : pipe_step p p' → scan_ok p → (pipe_weight p' < pipe_weight p)%nat.
Proof.
  intros Hs [Hn Hr]. unfold pipe_weight, scan_weight. destruct Hs; simpl in *; rewrite ?length_app in *; simpl;
    try match goal with Hk : _ !! _ = Some _ |- context [<[_ := ?w']> _] => pose proof (workers_weight _ _ _ w' Hk); simpl in * end;
    try lia.
  - specialize (Hr (or_introl eq_refl)). lia.
  - specialize (Hr (or_intror eq_refl)). lia.
  - specialize (Hr H1). destruct H1 as [-> | ->]; lia.
Qed.
(** ** No run gets stuck, and what a run stages *)

(** A row in the order channel has its result, or will have it. *)
Definition in_hand (p : pipe) (i : nat) : Prop := i ∈ pp_jobs p ∨ WParse i ∈ pp_workers p ∨ i ∈ pp_results p.

Record pipe_inv (b0 : Builder) (p : pipe) : Prop := {
  pi_scan : scan_ok p;
  pi_done : pp_scan p = ScanDone → pp_err p = None → pp_scanned p = length rows;
  pi_ctx : pp_err p ≠ None → pp_ctx p = true;
  pi_workers : pp_workers p ≠ [];
  pi_exit : WExit ∈ pp_workers p → pp_scan p = ScanDone ∧ pp_jobs p = [];
  pi_hand : ∀ i, i ∈ pp_order p ∨ pp_stager p = StHold i ∨ (pp_scan p = ScanOrder ∧ i = pp_scanned p) → in_hand p i;
  pi_staged : match pp_stager p with
    | StWait => ∃ m, (m ≤ pp_scanned p)%nat ∧ stage_rows (take m rows) b0 = Some (pp_builder p, inl ()) ∧
        pp_order p = seq m (pp_scanned p - m)
    | StHold i => (i < pp_scanned p)%nat ∧ stage_rows (take i rows) b0 = Some (pp_builder p, inl ()) ∧
        pp_order p = seq (S i) (pp_scanned p - S i)
    | StDone => (pp_scan p = ScanDone ∨ pp_ctx p = true) ∧
        (pp_err p = None → pp_scan p = ScanDone ∧ stage_rows rows b0 = Some (pp_builder p, inl ()))
    end;
  pi_err : match pp_err p with
    | Some (LoadStage err) => ∃ b', stage_rows rows b0 = Some (b', inr err)
    | Some LoadPanicked => stage_rows rows b0 = None
    | _ => True
    end;
}.

Lemma stage_rows_from m b0 b : stage_rows (take m rows) b0 = Some (b, inl ()) → stage_rows rows b0 = stage_rows (drop m rows) b.
Proof.
  intros Hm. rewrite <- (take_drop m rows) at 1. unfold stage_rows in *. rewrite go_for_app. unfold go_bind. by rewrite Hm.
Qed.
Lemma stage_rows_at m b0 b row : stage_rows (take m rows) b0 = Some (b, inl ()) → rows !! m = Some row →
  stage_rows (take (S m) rows) b0 = stage_row row b ∧
  stage_rows rows b0 = go_bind (stage_row row) (λ _, stage_rows (drop (S m) rows)) b.
Proof.
  intros Hm Hr. split.
  - rewrite (take_S_r _ _ _ Hr). unfold stage_rows in *. rewrite go_for_app. unfold go_bind at 1. rewrite Hm. simpl.
    unfold go_bind, go_ret. destruct (stage_row row b) as [[b' [[]|]]|]; done.
  - rewrite (stage_rows_from m b0 b Hm), (drop_S _ _ _ Hr). done.
Qed.

Lemma in_hand_take x e sc n i js os ws rs st b k j : ws !! k = Some WIdle →
  in_hand (mkPipe x e sc n (i :: js) os ws rs st b) j → in_hand (mkPipe x e sc n js os (<[k := WParse i]> ws) rs st b) j.
Proof.
  intros Hk. unfold in_hand. simpl. rewrite elem_of_cons. intros [[->|?]|[Hw|?]]; [|by left| |auto].
  - right; left. apply list_elem_of_lookup. exists k. apply list_lookup_insert_eq. by eapply lookup_lt_Some.
  - right; left. apply list_elem_of_lookup in Hw as [k' Hk']. apply list_elem_of_lookup. exists k'.
    rewrite list_lookup_insert_ne; [done|]. intros ->. congruence.
Qed.
Lemma in_hand_parsed x e sc n js os ws rs st b k i j : ws !! k = Some (WParse i) →
  in_hand (mkPipe x e sc n js os ws rs st b) j → in_hand (mkPipe x e sc n js os (<[k := WIdle]> ws) ({[i]} ∪ rs) st b) j.
Proof.
  intros Hk. unfold in_hand. simpl. intros [?|[Hw|?]]; [by left| |right; right; set_solver].
  destruct (decide (i = j)) as [->|Hne]; [right; right; set_solver|].
  right; left. apply list_elem_of_lookup in Hw as [k' Hk']. apply list_elem_of_lookup. exists k'.
  rewrite list_lookup_insert_ne; [done|]. intros ->. congruence.
Qed.
Lemma exit_kept (ws : list worker) k w : w ≠ WExit → WExit ∈ <[k := w]> ws → WExit ∈ ws.
Proof.
  intros Hw [j Hj]%list_elem_of_lookup. apply list_elem_of_lookup. exists j.
  destruct (decide (k = j)) as [->|Hne]; [|by rewrite list_lookup_insert_ne in Hj].
  destruct (decide (j < length ws)%nat) as [Hlt|Hge]; [rewrite list_lookup_insert_eq in Hj by done; congruence|].
  rewrite list_insert_ge in Hj by lia. done.
Qed.
(** Staging a row leaves the results of the later ones. *)
Lemma staged_hand x e sc n js os ws rs i b x' e' st' b' b0 j :
  (∀ j, j ∈ os ∨ StHold i = StHold j ∨ sc = ScanOrder ∧ j = n → in_hand (mkPipe x e sc n js os ws rs (StHold i) b) j) →
  (i < n)%nat ∧ stage_rows (take i rows) b0 = Some (b, inl ()) ∧ os = seq (S i) (n - S i) →
  j ∈ os ∨ sc = ScanOrder ∧ j = n → in_hand (mkPipe x' e' sc n js os ws (rs ∖ {[i]}) st' b') j.
Proof.
  intros Hh (Hi & _ & Ho) Hj. assert (i ≠ j) as Hne.
  { destruct Hj as [Hj|[_ ->]]; [|lia]. rewrite Ho in Hj. apply elem_of_seq in Hj. lia. }
  destruct (Hh j) as [?|[?|?]]; [tauto|by left|by right; left|right; right; set_solver].
Qed.

Section step.
Context (b0 : Builder) (p p' : pipe) (Hs : pipe_step p p') (HI : pipe_inv b0 p).

Lemma step_scan_ok : scan_ok p'.
Proof.
  destruct HI as [[Hn Hr] _ _ _ _ _ _ _]. unfold scan_ok in *. destruct Hs; simpl in *; split; try tauto; try lia; try naive_solver.
Qed.
Lemma step_done : pp_scan p' = ScanDone → pp_err p' = None → pp_scanned p' = length rows.
Proof. destruct HI as [_ Hd _ _ _ _ _ _]. destruct Hs; simpl in *; try done; by destruct e. Qed.
Lemma step_ctx : pp_err p' ≠ None → pp_ctx p' = true.
Proof. destruct HI as [_ _ Hc _ _ _ _ _]. destruct Hs; simpl in *; tauto. Qed.
Lemma step_workers : pp_workers p' ≠ [].
Proof.
  destruct HI as [_ _ _ Hw _ _ _ _]. destruct Hs; simpl in *; try done;
    intros Hnil%(f_equal length); rewrite length_insert in Hnil; by apply Hw, length_zero_iff_nil.
Qed.
Lemma step_exit : WExit ∈ pp_workers p' → pp_scan p' = ScanDone ∧ pp_jobs p' = [].
Proof.
  destruct HI as [_ _ _ _ He _ _ _]. destruct Hs as [| | | | |? ? ? ? ? ? ? ? ? Hsc| | | | | | | | |]; simpl in *; intros Hw; try naive_solver.
  - apply exit_kept in Hw; [|done]. by apply He in Hw as [_ ?].
  - apply exit_kept in Hw; [|done]. by apply He.
Qed.
Lemma step_hand i : i ∈ pp_order p' ∨ pp_stager p' = StHold i ∨ (pp_scan p' = ScanOrder ∧ i = pp_scanned p') → in_hand p' i.
Proof.
  destruct HI as [[Hn Hr] _ _ _ _ Hh Hst _]. destruct Hs; simpl in *; intros Hi.
  - apply Hh. naive_solver.
  - apply Hh. naive_solver.
  - apply Hh. naive_solver.
  - destruct Hi as [Hi|[Hi|[_ ->]]]; [destruct (Hh i (or_introl Hi)) as [?|?]|destruct (Hh i (or_intror (or_introl Hi))) as [?|?]|];
      unfold in_hand in *; simpl in *; set_solver.
  - rewrite elem_of_app, list_elem_of_singleton in Hi. assert (in_hand (mkPipe x e ScanOrder n js os ws rs st b) i) as Hx by (apply Hh; naive_solver).
    exact Hx.
  - apply (Hh i). destruct Hi as [?|[?|[[=] _]]]; auto.
  - apply in_hand_take; [done|]. by apply Hh.
  - apply in_hand_parsed; [done|]. by apply Hh.
  - destruct (Hh i) as [Hx|[Hx|Hx]]; [done|by apply not_elem_of_nil in Hx| |by right; right].
    right; left. simpl in *. apply list_elem_of_lookup in Hx as [k' Hk']. apply list_elem_of_lookup. exists k'.
    rewrite list_lookup_insert_ne; [done|]. intros ->. congruence.
  - apply (Hh i). destruct Hi as [?|[[= ->]|?]]; [left; by right|left; by left|auto].
  - eapply staged_hand; [exact Hh|exact Hst|naive_solver].
  - eapply staged_hand; [exact Hh|exact Hst|naive_solver].
  - eapply staged_hand; [exact Hh|exact Hst|naive_solver].
  - apply (Hh i). destruct Hi as [?|[?|[[=] _]]]; [by left|done].
  - by apply (Hh i).
Qed.
Lemma step_staged : match pp_stager p' with
  | StWait => ∃ m, (m ≤ pp_scanned p')%nat ∧ stage_rows (take m rows) b0 = Some (pp_builder p', inl ()) ∧
      pp_order p' = seq m (pp_scanned p' - m)
  | StHold i => (i < pp_scanned p')%nat ∧ stage_rows (take i rows) b0 = Some (pp_builder p', inl ()) ∧
      pp_order p' = seq (S i) (pp_scanned p' - S i)
  | StDone => (pp_scan p' = ScanDone ∨ pp_ctx p' = true) ∧
      (pp_err p' = None → pp_scan p' = ScanDone ∧ stage_rows rows b0 = Some (pp_builder p', inl ()))
  end.
Proof.
  destruct HI as [[Hn Hr] Hd Hc _ _ _ Hst _]. destruct Hs; simpl in *; try done; try (by destruct st; naive_solver).
  - destruct st; simpl in *; try done. split; [by left|]. by destruct e.
  - destruct st as [|i|]; simpl in *.
    + destruct Hst as (m & Hm & Hs1 & ->). exists m. split_and!; [lia|done|]. rewrite Nat.sub_succ_l by done. by rewrite seq_S, Nat.add_comm, Nat.sub_add.
    + destruct Hst as (Hm & Hs1 & ->). split_and!; [lia|done|]. replace (n - i)%nat with (S (n - S i)) by lia. rewrite seq_S. do 2 f_equal. lia.
    + destruct Hst as [Hx He]. split; [destruct Hx; [done|by right]|]. intros E. by apply He in E as [? _].
  - destruct H1 as [-> | ->]; (destruct st; simpl in *; try done); (split; [by left|]; by destruct e).
  - destruct Hst as (m & Hm & Hs1 & Ho). destruct (n - m)%nat eqn:El; simpl in Ho; [done|]. injection Ho as -> ->.
    split_and!; [lia|done|]. f_equal. lia.
  - destruct Hst as (Hi & Hs1 & ->). exists (S i). split_and!; [lia| |done].
    destruct (stage_rows_at i b0 b row Hs1 H2) as [-> _]. done.
  - split; [by right|]. by destruct e.
  - split; [by right|]. by destruct e.
  - destruct Hst as (m & Hm & Hs1 & Ho). split; [by left|]. intros ->. split; [done|].
    rewrite (Hd eq_refl eq_refl) in *. assert (m = length rows) as -> by (destruct (length rows - m)%nat eqn:El; [lia|done]).
    by rewrite take_ge in Hs1.
Qed.
Lemma step_err : match pp_err p' with
  | Some (LoadStage err) => ∃ b', stage_rows rows b0 = Some (b', inr err)
  | Some LoadPanicked => stage_rows rows b0 = None
  | _ => True
  end.
Proof.
  destruct HI as [_ _ _ _ _ _ Hst He]. destruct Hs; simpl in *; try done; try (by destruct e).
  - destruct e; [done|]. simpl. destruct Hst as (_ & Hs1 & _). destruct (stage_rows_at i b0 b row Hs1 H2) as [_ ->].
    exists b'. unfold go_bind. by rewrite H3.
  - destruct e; [done|]. simpl. destruct Hst as (_ & Hs1 & _). destruct (stage_rows_at i b0 b row Hs1 H2) as [_ ->].
    unfold go_bind. by rewrite H3.
Qed.
End step.

Lemma pipe_inv_step b0 p p' : pipe_step p p' → pipe_inv b0 p → pipe_inv b0 p'.
Proof.
  intros Hs HI. split; [by eapply step_scan_ok|by eapply step_done|by eapply step_ctx|by eapply step_workers|by eapply step_exit
    |by eapply step_hand|by eapply step_staged|by eapply step_err].
Qed.
Lemma pipe_inv_start b0 workers : (0 < workers)%nat → pipe_inv b0 (pipe_start b0 workers).
Proof.
  intros Hw. split; simpl; try done; [split; simpl; [lia|by intros [|]]|destruct workers; [lia|done]|by intros [[=] _]%elem_of_replicate| |].
  - intros i [Hi|[?|[? _]]]; [by apply not_elem_of_nil in Hi|done..].
  - by exists 0%nat.
Qed.
(** *** Progress *)

Lemma workers_cases ws : (∃ k i, ws !! k = Some (WParse i)) ∨ (∃ k, ws !! k = Some WIdle) ∨ Forall (λ w, w = WExit) ws.
Proof.
  induction ws as [|[|i|] ws IH]; [by right; right|right; left; by exists 0%nat|left; by exists 0%nat, i|].
  destruct IH as [(k & i & Hk)|[[k Hk]|HF]]; [left; by exists (S k), i|right; left; by exists (S k)|right; right; by constructor].
Qed.

(** Some worker can go on while a row is in its hands or the scanner is not done. *)
Lemma workers_go p b0 : pipe_inv b0 p → pp_scan p ≠ ScanDone ∧ pp_jobs p ≠ [] ∨ (∃ i, i ∈ pp_jobs p ∨ WParse i ∈ pp_workers p) →
  ∃ p', pipe_step p p'.
Proof.
  intros HI Hwhy. destruct (workers_cases (pp_workers p)) as [(k & i & Hk)|[[k Hk]|HF]].
  - destruct p. eexists. by eapply step_parsed.
  - assert (∃ i js, pp_jobs p = i :: js ∨ WParse i ∈ pp_workers p) as (i & js & Hi).
    { destruct Hwhy as [[_ Hj]|(i & [Hj|Hj])]; [| |by exists i, []; right].
      - destruct (pp_jobs p) as [|i js]; [done|]. exists i, js. by left.
      - destruct (pp_jobs p) as [|i' js]; [by apply not_elem_of_nil in Hj|]. exists i', js. by left. }
    destruct Hi as [Hi|[k' Hk']%list_elem_of_lookup]; destruct p; simpl in *; [subst; eexists; by eapply step_take|].
    eexists. by eapply step_parsed.
  - exfalso. rewrite Forall_forall in HF. destruct (pp_workers p) as [|w ws] eqn:Ew; [by apply (pi_workers _ _ HI) in Ew|].
    assert (WExit ∈ pp_workers p) as Hx by (rewrite Ew; apply elem_of_cons; left; symmetry; apply HF; left).
    destruct (pi_exit _ _ HI Hx) as [Hd Hj]. destruct Hwhy as [[? _]|(i & [Hi|Hi])]; [done|rewrite Hj in Hi; by apply not_elem_of_nil in Hi|].
    by apply HF in Hi.
Qed.

(** The stager can go on, or a worker for it. *)
Lemma stager_go p b0 i : pipe_inv b0 p → pp_stager p = StHold i → ∃ p', pipe_step p p'.
Proof.
  intros HI Hst. destruct (pi_hand _ _ HI i) as [Hi|[Hi|Hi]]; [by right; left|eapply workers_go; eauto..|].
  assert (∃ row, rows !! i = Some row) as [row Hrow].
  { pose proof (pi_staged _ _ HI) as Hs. rewrite Hst in Hs. destruct Hs as [Hi' _]. apply lookup_lt_is_Some_2.
    pose proof (pi_scan _ _ HI) as [? _]. lia. }
  destruct p; simpl in *; subst. destruct (stage_row row pp_builder0) as [[b' [[]|err]]|] eqn:E; eexists;
    [by eapply step_stage|by eapply step_stage_error|by eapply step_stage_panic].
Qed.

Lemma pipe_progress p b0 : (0 < capacity)%nat → pipe_inv b0 p → pipe_final p ∨ ∃ p', pipe_step p p'.
Proof.
  intros Hcap HI. destruct (pp_scan p) eqn:Esc.
  - right. pose proof (pi_scan _ _ HI) as [Hn _]. destruct p as [x e sc n js os ws rs st b]. simpl in *. subst.
    destruct (decide (n = length rows)) as [->|]; eexists; [apply step_scan_end|apply step_next; lia].
  - right. destruct (decide (length (pp_jobs p) < capacity)%nat) as [Hlt|Hge].
    { destruct p; simpl in *; subst. eexists. by apply step_job. }
    eapply workers_go; [done|]. left. split; [congruence|]. destruct (pp_jobs p); simpl in *; [lia|done].
  - right. destruct (decide (length (pp_order p) < capacity)%nat) as [Hlt|Hge].
    { destruct p; simpl in *; subst. eexists. by apply step_order. }
    destruct (pp_stager p) as [|i|] eqn:Est; [|by eapply stager_go|].
    + destruct p as [x e sc n js [|i os] ws rs st b]; simpl in *; subst; [lia|]. eexists. apply step_pick.
    + pose proof (pi_staged _ _ HI) as Hs. rewrite Est in Hs. destruct Hs as [[?|Hx] _]; [congruence|].
      destruct p; simpl in *; subst. eexists. apply step_scan_cancelled. by right.
  - destruct (workers_cases (pp_workers p)) as [(k & i & Hk)|[[k Hk]|HF]].
    + right. destruct p. eexists. by eapply step_parsed.
    + right. destruct p as [x e sc n [|i js] os ws rs st b]; simpl in *; subst; eexists; [by eapply step_worker_exit|by eapply step_take].
    + destruct (pp_stager p) as [|i|] eqn:Est; [|right; by eapply stager_go|by left].
      right. destruct p as [x e sc n js [|i os] ws rs st b]; simpl in *; subst; eexists; [apply step_stage_exit|apply step_pick].
Qed.

(** *** Every run *)

Lemma pipe_runs p b0 : pipe_inv b0 p → (0 < capacity)%nat → Acc (λ q' q, pipe_step q q') p ∧
  ∀ q, rtc pipe_step p q → pipe_inv b0 q ∧ (pipe_final q ∨ ∃ q', pipe_step q q').
Proof.
  intros HI Hcap. split.
  - remember (pipe_weight p) as w eqn:Ew. revert p HI Ew. induction (lt_wf w) as [w _ IH]. intros p HI ->. constructor. intros q Hs.
    eapply IH; [by apply pipe_step_weight; [|apply (pi_scan _ _ HI)]|by eapply pipe_inv_step|done].
  - intros q Hr. assert (pipe_inv b0 q) as HI'; [|split; [done|by eapply pipe_progress]].
    induction Hr; [done|]. apply IHHr. by eapply pipe_inv_step.
Qed.

(** What a run that has ended leaves. *)
Lemma pipe_final_result b0 p : pipe_inv b0 p → pipe_final p →
  match pp_err p with
  | None => stage_rows rows b0 = Some (pp_builder p, inl ())
  | Some (LoadStage err) => ∃ b', stage_rows rows b0 = Some (b', inr err)
  | Some LoadPanicked => stage_rows rows b0 = None
  | Some _ => True
  end.
Proof.
  intros HI (_ & _ & Hst). pose proof (pi_staged _ _ HI) as Hs. rewrite Hst in Hs. destruct Hs as [_ Hs].
  pose proof (pi_err _ _ HI) as He. destruct (pp_err p) as [[]|]; try done. by apply Hs.
Qed.
End load_nodes.
