(* ===== verification/Load.v ===== *)
(** * Loading a snapshot from the database

    [internal/engine/load.go]: one repeatable-read transaction reads the kinds,
    the nodes in the order of their ids and the edges, stages them, and builds.
    What each query returned is an argument; the nodes are staged as [LoadNodes]
    shows the pipeline stages them.

    The result: a snapshot of the database, whose graph is the database's, or one
    of the two errors of a property store that is full. *)

From S2P Require Import Prelude Bitset Csr Kinds Props Snapshot Builder Segment ParseProps View ViewKinds Fold FoldGraph Apply Readback ReadbackRuns WriteThrough LoadNodes.
From stdpp Require Import options.
Unset Default Proof Using.
#[local] Open Scope N_scope.

(** ** Definitions *)

Record loadedWatermark := mkLoadedWatermark {
  lw_counter : N; lw_counterOK : bool; lw_counterErr : bool; lw_lineageErr : bool }.
Definition loadedWatermark_zero : loadedWatermark := mkLoadedWatermark 0 false false false.

(** What the transaction's queries returned; [None]: the query failed. *)
Record load_answers := mkLoadAnswers {
  ans_begin : bool;
  ans_kinds : option (list (KindID * string));
  ans_nodes : option (list (N * dbNode));
  ans_edges : option (list (N * edge_state));
  ans_graphs : option N;  (* of at most 2 graphs that have nodes *)
  ans_counter : option N;
  ans_lineage : option (list N);
}.

Definition loadKinds (rows : list (KindID * string)) (b : Builder) : Builder :=
  SetKinds b (foldl (λ pairs '(id, name), <[id := name]> pairs) ∅ rows).
Definition loadEdges (rows : list (N * edge_state)) (b : Builder) : Builder :=
  foldl (λ b x, AddEdge b x.1 x.2.1.1 x.2.1.2 x.2.2) b rows.
Definition probeMultiGraph (graphsWithNodes : N) : bool := 2 <=? graphsWithNodes.

(** The counter and the lineage, read in the same transaction; a failure is kept
    for the caller and does not fail the load. *)
Definition loadWatermark (withCounter withLineage : bool) (a : load_answers) : loadedWatermark * list N :=
  if negb (withCounter || withLineage) then (loadedWatermark_zero, zero_lineage)
  else match ans_counter a with
  | None => (mkLoadedWatermark 0 false true false, zero_lineage)
  | Some counter =>
      if negb withLineage then (mkLoadedWatermark counter true false false, zero_lineage)
      else match ans_lineage a with
      | None => (mkLoadedWatermark counter true false true, zero_lineage)
      | Some raw => (mkLoadedWatermark counter true false false, raw)
      end
  end.

Section load.
Context `{GoStd} `{JsonStd}.

(** A panic while staging is an error of the load; one of [Build] is not
    recovered here. *)
Definition loadSnapshot (defaultGraph : option Z) (withCounter withLineage : bool) (a : load_answers)
    : option ((Snapshot * loadedWatermark) + load_err) :=
  match defaultGraph with
  | None => Some (inr (LoadStage ErrNoGraph))
  | Some graphID =>
      if negb (ans_begin a) then Some (inr LoadScan)
      else match ans_kinds a with
      | None => Some (inr LoadScan)
      | Some kinds =>
          let builder := loadKinds kinds (NewBuilder graphID) in
          match ans_nodes a with
          | None => Some (inr LoadScan)
          | Some nodes =>
              match stage_rows nodes builder with
              | None => Some (inr LoadPanicked)
              | Some (_, inr err) => Some (inr (LoadStage err))
              | Some (builder, inl _) =>
                  match ans_edges a, ans_graphs a with
                  | Some edges, Some graphs =>
                      let '(loaded, lineage) := loadWatermark withCounter withLineage a in
                      snap ← Build (loadEdges edges builder);
                      Some (inl (stamp_load snap (probeMultiGraph graphs) lineage, loaded))
                  | _, _ => Some (inr LoadScan)
                  end
              end
          end
      end
  end.
Definition LoadSnapshot (defaultGraph : option Z) (a : load_answers) : option (Snapshot + load_err) :=
  r ← loadSnapshot defaultGraph false false a;
  Some (match r with inl (snap, _) => inl snap | inr err => inr err end).
End load.

(** ** The answers of a database *)

Record answers_of (d : database) (a : load_answers) : Prop := {
  ao_begin : ans_begin a = true;
  ao_kinds : ∃ rows, ans_kinds a = Some rows ∧ NoDup rows.*1 ∧ ∀ k name, (k, name) ∈ rows ↔ db_kind d !! k = Some name;
  ao_nodes : ∃ rows, ans_nodes a = Some rows ∧ StronglySorted N.lt rows.*1 ∧ ∀ id n, (id, n) ∈ rows ↔ db_node d !! id = Some n;
  ao_edges : ∃ rows, ans_edges a = Some rows ∧ NoDup rows.*1 ∧ ∀ e x, (e, x) ∈ rows ↔ db_edge d !! e = Some x;
  ao_graphs : is_Some (ans_graphs a);
}.

(** ** Staging the rows *)

Section stage.
Context `{GoStd} `{JsonStd} `{!JsonLaws}.
Context (d : database) (Hjson : json_ok d) (Hfits : graph_fits (db_graph d)).

Definition row_node (row : N * dbNode) : node_rec := (row.1, dn_kind_ids row.2, default ∅ (json_bag (dn_properties row.2))).
Definition rows_of (rows : list (N * dbNode)) : Prop :=
  StronglySorted N.lt rows.*1 ∧ ∀ row, row ∈ rows → db_node d !! row.1 = Some row.2.

Lemma rows_graph rows : rows_of rows → NoDup (nd_id <$> (row_node <$> rows)) ∧
  ∀ nd, nd ∈ row_node <$> rows → g_nodes (db_graph d) !! nd_id nd = Some (nd_kinds nd, nd_bag nd).
Proof.
  intros [Hs Hin]. split; [rewrite <- list_fmap_compose; by apply sorted_lt_NoDup|].
  intros nd ([id n] & -> & Hrow)%list_elem_of_fmap. apply Hin in Hrow. unfold row_node, nd_id, nd_kinds, nd_bag. simpl in *.
  rewrite lookup_omap, Hrow. simpl.
  unfold db_state. destruct (Hjson _ _ Hrow) as [bag ->]. done.
Qed.

Lemma stage_rows_ok rows b : rows_of rows → Builder_rep b [] [] → b_propEntries b = [] →
  ∃ b' r, stage_rows rows b = Some (b', r) ∧ match r with
    | inl _ => b_graphID b' = b_graphID b ∧ b_edges b' = b_edges b ∧ b_kindTable b' = b_kindTable b ∧
        ∃ prows, Builder_rep b' (row_node <$> rows) prows ∧ len (b_propEntries b') = props_room (row_node <$> rows)
    | inr err => err = ErrTooManyProps ∨ err = ErrArenaFull
    end.
Proof.
  intros Hrows Hb He. induction rows as [|row rows IH] using rev_ind.
  { exists b, (inl ()). split; [done|]. split_and!; [done..|]. exists []. split; [done|]. by rewrite He. }
  assert (rows_of rows) as Hrows'.
  { destruct Hrows as [Hs Hin]. split; [|intros; apply Hin; set_solver]. rewrite fmap_app in Hs. by apply StronglySorted_app_1_l in Hs. }
  destruct (IH Hrows') as (b1 & r1 & E1 & Hr1). unfold stage_rows in *. rewrite go_for_app. unfold go_bind at 1. rewrite E1. cbn [mbind option_bind].
  destruct r1 as [[]|err]; [|by eexists _, _]. destruct Hr1 as (Hg & Hed & Hk & prows & Hrep & Hent).
  assert (db_node d !! row.1 = Some row.2) as Hrow by (apply Hrows; set_solver).
  destruct (Hjson _ _ Hrow) as [bag Ebag]. pose proof (ParseProps_spec (dn_properties row.2)) as Hp.
  unfold go_for, go_bind, stage_row, parseLoadedProps. destruct (ParseProps (dn_properties row.2)) as [ps|err]; [|by destruct Hp as [_ Hp]; rewrite Hp in Ebag].
  destruct Hp as [Hnd Hbag]. rewrite addParsedNode_eq. destruct (rows_graph _ Hrows) as [Hids Hall].
  destruct (nodes_room _ _ Hids Hall) as (R1 & R2 & R3). destruct Hfits as (F1 & F2 & F3).
  rewrite fmap_app, kinds_room_app in R2. rewrite fmap_app, props_room_app in R3. unfold kinds_room in R2 at 1 2. rewrite <- (br_flat _ _ _ Hrep) in R2.
  simpl in R2, R3. rewrite app_nil_r in R2. unfold nd_kinds, nd_bag in R2, R3. simpl in R2, R3. rewrite Hbag in R3. simpl in R3.
  destruct (add_node_spec _ _ b1 (row_node <$> rows) prows row.1 (dn_kind_ids row.2) (stages_parsed ps Hnd) Hrep)
    as (b2 & r2 & -> & M1 & M2 & M3 & Hr2); [lia..|]. cbn [mbind option_bind].
  destruct r2 as [[]|err].
  - destruct Hr2 as (_ & es & Hrep2 & He2). eexists _, _. split; [done|]. rewrite M1, M2, M3. split_and!; [done..|]. exists (prows ++ [es]).
    assert (row_node <$> [row] = [(row.1, dn_kind_ids row.2, parsed_bag ps)]) as Enode by (unfold row_node; simpl; by rewrite Hbag).
    rewrite fmap_app, Enode, props_room_app. split; [done|]. rewrite He2, Hent.
    assert (props_room [(row.1, dn_kind_ids row.2, parsed_bag ps)] = N.of_nat (size (parsed_bag ps))) as ->; [|done].
    unfold props_room, nd_bag. simpl. lia.
  - eexists _, _. split; [done|]. destruct Hr2 as (_ & [?|[?|(nd & Hnd' & Hle & _)]]); [by left|by right|]. exfalso.
    apply list_elem_of_fmap in Hnd' as (row' & -> & Hrow'). destruct Hrows as [Hs _]. rewrite fmap_app in Hs.
    assert (row'.1 < row.1); [|unfold row_node, nd_id in Hle; simpl in Hle; lia].
    eapply StronglySorted_app_1_elem_of; [exact Hs|by apply list_elem_of_fmap_2|left].
Qed.
End stage.

(** ** The loaded snapshot *)

Lemma pairs_lookup (rows : list (KindID * string)) (m : gmap KindID string) : NoDup rows.*1 →
  (∀ k name, (k, name) ∈ rows ↔ m !! k = Some name) → foldl (λ pairs '(id, name), <[id := name]> pairs) ∅ rows = m.
Proof.
  intros Hnd Hm. assert (∀ acc : gmap KindID string, foldl (λ pairs '(id, name), <[id := name]> pairs) acc rows = list_to_map rows ∪ acc) as ->.
  { clear Hm. induction rows as [|[k name] rows IH]; intros acc; simpl; [by rewrite (left_id ∅ _)|].
    rewrite fmap_cons, NoDup_cons in Hnd. destruct Hnd as [Hk Hnd]. rewrite IH by done.
    rewrite <- insert_union_l, insert_union_r; [done|]. by apply not_elem_of_list_to_map. }
  rewrite (right_id ∅ _). apply map_eq. intros k. apply option_eq. intros name. by rewrite <- elem_of_list_to_map, Hm.
Qed.

Lemma loadEdges_eq rows b : loadEdges rows b = mkBuilder (b_graphID b) (b_ids b) (b_kindsFlat b) (b_kindOffsets b) (b_props b)
  (b_propEntries b) (b_propOffsets b) (b_edges b ++ (staged <$> rows)) (b_kindTable b).
Proof.
  unfold loadEdges. revert b. induction rows as [|[e [[s t] k]] rows IH]; intros b; simpl; [rewrite app_nil_r; by destruct b|].
  rewrite IH. unfold AddEdge, staged. simpl. by rewrite <- (assoc_L (++)).
Qed.

Lemma graph_of_list {V} (rows : list (N * V)) (m : gmap N V) : NoDup rows.*1 → (∀ k x, (k, x) ∈ rows ↔ m !! k = Some x) → list_to_map rows = m.
Proof. intros Hnd Hm. apply map_eq. intros k. apply option_eq. intros x. by rewrite <- elem_of_list_to_map, Hm. Qed.

Lemma stamp_load_rep s L multi lineage : Snapshot_rep s L → Snapshot_rep (stamp_load s multi lineage) L.
Proof. intros [[] []]. split; by split. Qed.

Section loaded.
Context `{GoStd} `{JsonStd} `{!JsonLaws}.
Context (d : database) (a : load_answers) (graphID : Z).
Hypothesis Ha : answers_of d a.
Hypothesis Hdb : database_ok d.
Hypothesis Hjson : json_ok d.
Hypothesis Hfits : graph_fits (db_graph d).
Hypothesis Hedges : N.of_nat (size (db_edge d)) < 2 ^ 32.

Lemma staged_all nodes edges : (∀ id, is_Some (db_node d !! id) → id ∈ nodes) → (∀ e x, (e, x) ∈ edges → db_edge d !! e = Some x) →
  staged_edges nodes (staged <$> edges) = edges.
Proof.
  intros Hn He. unfold staged_edges. induction edges as [|[e [[s t] k]] edges IH]; [done|]. csimpl.
  assert (s ∈ nodes ∧ t ∈ nodes) as Hst.
  { assert (db_edge d !! e = Some (s, t, k)) as Hx by (apply He; left). destruct (dbo_ends _ Hdb _ _ _ _ Hx). split; by apply Hn. }
  rewrite filter_cons, decide_True by done. csimpl. f_equal. apply IH. intros. apply He. by right.
Qed.

Lemma none_dropped nodes edges : (∀ id, is_Some (db_node d !! id) → id ∈ nodes) → (∀ e x, (e, x) ∈ edges → db_edge d !! e = Some x) →
  dropped_edges nodes (staged <$> edges) = 0.
Proof.
  intros Hn He. unfold dropped_edges. set (l := filter _ _). assert (l = []) as ->; [|done].
  apply elem_of_nil_inv. intros x [Hno ([e [[s t] k]] & -> & Hin)%list_elem_of_fmap]%list_elem_of_filter. apply Hno. simpl. apply He in Hin.
  destruct (dbo_ends _ Hdb _ _ _ _ Hin). split; by apply Hn.
Qed.
Lemma node_map rows : StronglySorted N.lt rows.*1 → (∀ id n, (id, n) ∈ rows ↔ db_node d !! id = Some n) →
  list_to_map ((λ nd, (nd_id nd, (nd_kinds nd, nd_bag nd))) <$> (row_node <$> rows)) = omap db_state (db_node d).
Proof.
  intros Hs Hn. apply graph_of_list; [rewrite <- !list_fmap_compose; by apply sorted_lt_NoDup|].
  intros id st. rewrite <- list_fmap_compose, list_elem_of_fmap, lookup_omap. split.
  - intros ([id' n] & E & Hrow%Hn). unfold compose, row_node, nd_id, nd_kinds, nd_bag in E. simpl in E. injection E as -> ->.
    rewrite Hrow. simpl. unfold db_state. destruct (Hjson _ _ Hrow) as [bag ->]. done.
  - destruct (db_node d !! id) as [n|] eqn:En; [|done]. simpl. unfold db_state. destruct (Hjson _ _ En) as [bag Ebag]. rewrite Ebag. intros [= <-].
    exists (id, n). split; [|by apply Hn]. unfold compose, row_node, nd_id, nd_kinds, nd_bag. simpl. by rewrite Ebag.
Qed.

Lemma loadSnapshot_ok withCounter withLineage : ∃ r, loadSnapshot (Some graphID) withCounter withLineage a = Some r ∧
  match r with
  | inr err => err = LoadStage ErrTooManyProps ∨ err = LoadStage ErrArenaFull
  | inl (s, w) => ∃ L, View_rep (NewView s) L [] ∧ base_graph L = db_graph d ∧ NewKindTable (db_kind d) = Some (Kinds s) ∧
      GraphID s = graphID ∧ MultiGraph s = probeMultiGraph (default 0 (ans_graphs a)) ∧ DroppedEdges s = 0 ∧
      (w, WatermarkLineage s) = loadWatermark withCounter withLineage a
  end.
Proof.
  destruct Ha as [Hb (krows & Ek & Hknd & Hk) (nrows & En & Hns & Hn) (erows & Ee & Hend & He) [graphs Eg]].
  unfold loadSnapshot. rewrite Hb, Ek, En. simpl. set (b0 := loadKinds krows (NewBuilder graphID)).
  assert (rows_of d nrows) as Hrows by (split; [done|]; intros [id n]; by apply Hn).
  destruct (stage_rows_ok d Hjson Hfits nrows b0 Hrows) as (b1 & r1 & -> & Hr1); [by destruct (NewBuilder_rep graphID); split|done|].
  destruct r1 as [[]|err]; [|eexists; split; [done|]; naive_solver]. destruct Hr1 as (Hg & Hed & Hkt & prows & Hrep & _).
  rewrite Ee, Eg. destruct (loadWatermark withCounter withLineage a) as [w lineage]. rewrite loadEdges_eq, Hed, Hg, Hkt.
  assert (b_kindTable b0 = db_kind d) as -> by (apply pairs_lookup; done).
  destruct (NewKindTable_table (db_kind d)) as (t & Et & _). set (b2 := mkBuilder _ _ _ _ _ _ _ _ _).
  destruct (rows_graph d Hjson nrows Hrows) as [Hids Hall].
  assert (len erows = N.of_nat (size (db_edge d))) as Hle.
  { rewrite <- (graph_of_list erows (db_edge d) Hend He), <- length_map_to_list. unfold len. by rewrite (map_to_list_to_map _ Hend). }
  destruct (Build_ok b2 (row_node <$> nrows) prows t) as (s & L & -> & Hs & Hl & HgS & HkS & HmS & HdS).
  - destruct Hrep. by split.
  - destruct (nodes_room _ _ Hids Hall). destruct Hfits. lia.
  - simpl. rewrite len_fmap. by rewrite Hle.
  - intros nd Hnd. apply list_elem_of_fmap in Hnd as ([id n] & -> & Hrow%Hn). destruct (Hjson _ _ Hrow) as [bag Ebag].
    unfold row_node, nd_bag. simpl. rewrite Ebag. by eapply json_bag_decodable.
  - done.
  - eexists. split; [done|]. exists L.
    assert (∀ id, is_Some (db_node d !! id) → id ∈ nd_id <$> (row_node <$> nrows)) as Hnodes.
    { intros id [n Hid%Hn]. rewrite <- list_fmap_compose. apply list_elem_of_fmap. by exists (id, n). }
    pose proof (staged_all _ erows Hnodes (λ e x, proj1 (He e x))) as Hst.
    destruct (built_graph _ _ _ Hl) as [Hnd Hgr]; [simpl; by rewrite Hst|]. simpl in Hgr.
    split_and!; try done.
    + split; [by apply stamp_load_rep|constructor|done|]. unfold View_NodeCount. simpl. rewrite N.add_0_r.
      destruct Hl as (Hli & _). unfold NodeCount. simpl. rewrite (pk_ids _ _ (rep_packed _ _ Hs)), Hli, len_fmap.
      destruct (nodes_room _ _ Hids Hall). destruct Hfits. lia.
    + rewrite Hgr. unfold staged_graph, db_graph. f_equal; [|rewrite Hst; by apply graph_of_list].
      by apply node_map.
    + simpl. by rewrite HkS.
    + simpl. rewrite HdS. apply (none_dropped _ erows Hnodes). intros e x. apply He.
Qed.
End loaded.
