(* ===== verification/WriteApply.v ===== *)
(** * Applying a write

    [Engine.Apply] of [internal/engine/apply.go], whole: the watermark, the epoch
    and the boot gap first, for every write; then, while the engine serves, the
    write is read back, turned into a segment, put on the view and published, and
    the stack of segments is maintained. Whatever goes wrong ends in fallback,
    which is left only by adopting a rebuilt view.

    A panic takes the engine as it was at the last change before it, as the
    deferred [fallBackOnApplyPanic] finds it. The scope and its change set are not
    used after [Apply], so what it leaves in them is not kept. *)

From S2P Require Import Prelude Bitset Csr Kinds Props Snapshot Builder Segment ParseProps View ViewAdj EdgeKinds Fold.
From S2P Require Import Ledger ChangeSet Apply Candidates Readback ReadbackRuns ReadbackSpec BootGap Sizes Engine Compact WriteThrough.
From stdpp Require Import options.
Unset Default Proof Using.
#[local] Open Scope N_scope.

(** ** Definitions *)

(** [fallBackOnApplyPanic], after a panic. *)
Definition fallBackOnApplyPanic (e : Engine) : Engine := enterFallback (bump_epoch e).

(** What [Apply] does for every write, at the time [now]. *)
Definition account_write `{GoStd} (now : Z) (e : Engine) (scope : option WriteScope) : option (Engine * option WriteScope) :=
  e ← (match scope with
       | Some s => let '(counter, bumped) := Watermark s in if bumped then AdvanceWatermark e counter else Some e
       | None => Some e
       end);
  let '(e, scope, settledFailure) := settleWatermarkFailure e scope in
  let e := bump_epoch e in
  let e := with_gap e (gap_observe (e_bootGap e) scope) in
  Some (if (settledFailure : bool) then requestTrustRebuild now e else e, scope).

Section apply.
Context `{GoStd} `{JsonStd}.
Context (pg_objectid : bytes → option string) (answers : nat → option database) (defaultGraph : option Z).

(** Whether the view is over the memory limit. *)
Definition over_memory_limit (e : Engine) (v : View) : option bool :=
  let limit := cfg_MemoryLimit (e_cfg e) in
  if 0 <? limit then approxBytes ← View_ApproxBytes v []; Some (limit <? approxBytes) else Some false.

(** From what was read back to the published view. *)
Definition publish (e : Engine) (current : viewPtr) (rb : readbackResult) : Engine :=
  match buildApplySegment (vp_view current) rb with
  | None => fallBackOnApplyPanic e
  | Some (inr _) => enterFallback e
  | Some (inl seg) =>
      let '(e, r) := allocate e seg in
      let newView := mkViewPtr (vp_base current) (vp_segments current ++ [r]) in
      match _ ← View_Warm (vp_view newView); over_memory_limit e (vp_view newView) with
      | None => fallBackOnApplyPanic e
      | Some true => enterFallback e
      | Some false =>
          let e := with_snap e (Some newView) in
          match maintainAfterPublish e newView with None => fallBackOnApplyPanic e | Some e => e end
      end
  end.

(** [Apply] from the point where the write has been accounted for. *)
Definition apply_changes (e : Engine) (scope : option WriteScope) : Engine :=
  if negb (cfg_Enabled (e_cfg e)) then e
  else match scope with
  | None => enterFallback e
  | Some s =>
      let cs := ws_changes s in
      if (HasFallback cs).1 then enterFallback e
      else if ChangeSet_Empty cs then e
      else if negb (bool_decide (e_state e = stateServing)) then startFallbackRebuild e
      else match e_snap e with
      | None => e
      | Some current =>
          match readBack pg_objectid answers defaultGraph (Some (vp_view current)) cs 0%nat with
          | None => fallBackOnApplyPanic e
          | Some (_, inr _) => enterFallback e
          | Some (_, inl (rb, cs)) => if (HasFallback cs).1 then enterFallback e else publish e current rb
          end
      end
  end.

Definition Engine_Apply (now : Z) (e : Engine) (scope : option WriteScope) : Engine :=
  match account_write now e scope with
  | None => fallBackOnApplyPanic e
  | Some (e, scope) => apply_changes e scope
  end.
End apply.

(** ** The core of the engine *)

Definition compactions (l : list task) : list (ref Snapshot * list (ref Segment)) :=
  omap (λ t, match t with RunCompaction b s => Some (b, s) | _ => None end) l.

(** What a reader or a compaction can see. *)
Record Core := mkCore {
  co_cfg : Config; co_snap : option viewPtr; co_state : engineState; co_epoch : N; co_next : N;
  co_tasks : list (ref Snapshot * list (ref Segment)) }.
Definition core (e : Engine) : Core :=
  mkCore (e_cfg e) (e_snap e) (e_state e) (e_applyEpoch e) (e_next e) (compactions (l_spawned (e_loops e))).

Lemma compactions_app l l' : compactions (l ++ l') = compactions l ++ compactions l'.
Proof. unfold compactions. apply omap_app. Qed.

Lemma core_startFallbackRebuild e : core (startFallbackRebuild e) = core e.
Proof.
  unfold startFallbackRebuild, claimRebuildLoop. destruct (negb (cfg_Enabled (e_cfg e))); [done|].
  destruct (l_fallbackRebuilding (e_loops e)); [done|]. unfold core. simpl. by rewrite compactions_app, app_nil_r.
Qed.
Lemma core_requestTrustRebuild now e : core (requestTrustRebuild now e) = core e.
Proof.
  unfold requestTrustRebuild. destruct (negb (cfg_Enabled (e_cfg e))); [done|].
  destruct (trustRebuildDelay _ _).1; [by rewrite core_startFallbackRebuild|]. destruct (l_trustRebuildPending _); [done|].
  unfold core. simpl. by rewrite compactions_app, app_nil_r.
Qed.
Lemma core_trust_timer stopped now e : core (trust_timer stopped now e) = core e.
Proof.
  unfold trust_timer. destruct stopped; [done|]. destruct (_ =? _); [done|].
  transitivity (core (startFallbackRebuild (set_trust_nano e now))); [done|by rewrite core_startFallbackRebuild].
Qed.
Lemma core_finishFallbackRebuild now e : core (finishFallbackRebuild now e) = core e.
Proof.
  unfold finishFallbackRebuild. destruct (relaunchAfterAdoption _ _ _); [done|by rewrite core_startFallbackRebuild|by rewrite core_requestTrustRebuild].
Qed.

(** Fallback keeps the view, and what the engine is set up with. *)
Lemma core_enterFallback e : core (enterFallback e) = mkCore (e_cfg e) (e_snap e) stateFallback (e_applyEpoch e) (e_next e) (co_tasks (core e)).
Proof.
  unfold enterFallback. rewrite core_startFallbackRebuild. destruct (e_state e) eqn:Es; simpl; [done|]. unfold core. by rewrite Es.
Qed.

Lemma core_AdvanceWatermark e counter e' : AdvanceWatermark e counter = Some e' → core e' = core e.
Proof. unfold AdvanceWatermark. destruct (ledger_resolve _ _); [|done]. by intros [= <-]. Qed.
Lemma core_settle e scope : core (settleWatermarkFailure e scope).1.1 = core e.
Proof. destruct scope as [s|]; [|done]. simpl. by destruct (ws_watermarkBumpFailed s). Qed.

Lemma core_account_write `{GoStd} now e scope e' scope' : account_write now e scope = Some (e', scope') →
  core e' = mkCore (e_cfg e) (e_snap e) (e_state e) (u64 (e_applyEpoch e + 1)) (e_next e) (co_tasks (core e)) ∧
  (ws_changes <$> scope' = ws_changes <$> scope).
Proof.
  unfold account_write. intros E. destruct (match scope with Some s => _ | None => Some e end) as [e1|] eqn:E1; [|done]. cbn [mbind option_bind] in E.
  assert (core e1 = core e) as Hc.
  { destruct scope as [s|]; [|congruence]. simpl in E1. destruct (ws_watermarkBumped s); [by eapply core_AdvanceWatermark|congruence]. }
  pose proof (core_settle e1 scope) as Hs. destruct (settleWatermarkFailure e1 scope) as [[e2 scope2] failed] eqn:E2. simpl in Hs.
  assert (ws_changes <$> scope2 = ws_changes <$> scope) as Hsc.
  { destruct scope as [s|]; simpl in E2; [|congruence]. destruct (ws_watermarkBumpFailed s); simpl in E2; by injection E2 as <- <- <-. }
  injection E as <- <-. split; [|done]. rewrite Hc in Hs.
  assert (core (with_gap (bump_epoch e2) (gap_observe (e_bootGap (bump_epoch e2)) scope2)) =
    mkCore (e_cfg e) (e_snap e) (e_state e) (u64 (e_applyEpoch e + 1)) (e_next e) (co_tasks (core e))) as <-.
  { unfold core in Hs. injection Hs as Hcfg Hsnap Hst Hep Hnx Ht. unfold core. simpl. by rewrite Hcfg, Hsnap, Hst, Hep, Hnx, Ht. }
  destruct failed; [apply core_requestTrustRebuild|done].
Qed.

(** ** Publishing *)

(** The view [p] of the graph [L], [Ds] was replaced by one with [D] on it. *)
Record published `{GoStd} (e : Engine) (p : viewPtr) (L : layout) (Ds : list delta) (D : delta) (seg : Segment) (e' : Engine) (p' : viewPtr) (Ds' : list delta) : Prop := {
  pb_snap : e_snap e' = Some p';
  pb_view : Segment_rep seg D ∧ View_rep (vp_view (mkViewPtr (vp_base p) (vp_segments p ++ [(e_next e, seg)]))) L (Ds ++ [D]);
  pb_rep : View_rep (vp_view p') L Ds';
  pb_base : vp_base p' = vp_base p;
  pb_segs : Ds' = Ds ++ [D] ∧ vp_segments p' = vp_segments p ++ [(e_next e, seg)] ∧ e_next e' = e_next e + 1 ∨
    Ds' = [delta_all (Ds ++ [D])] ∧ e_next e' = e_next e + 2 ∧ ∃ s, vp_segments p' = [(e_next e + 1, s)];
  pb_short : len (vp_segments p') ≤ maxSegments;
  pb_core : e_cfg e' = e_cfg e ∧ e_state e' = e_state e ∧ e_applyEpoch e' = e_applyEpoch e;
  pb_tasks : co_tasks (core e') = co_tasks (core e) ∨ co_tasks (core e') = co_tasks (core e) ++ [(vp_base p', vp_segments p')];
}.

Lemma published_graph `{GoStd} e p L Ds D seg e' p' Ds' : published e p L Ds D seg e' p' Ds' →
  delta_all Ds' = delta_all (Ds ++ [D]) ∧ view_graph L Ds' = apply_delta (view_graph L Ds) D.
Proof.
  intros HP. assert (delta_all Ds' = delta_all (Ds ++ [D])) as E.
  { destruct (pb_segs _ _ _ _ _ _ _ _ _ HP) as [(-> & _)|(-> & _)]; [done|apply delta_all_single]. }
  split; [done|]. rewrite view_graph_all, E, <- view_graph_all. unfold view_graph. by rewrite foldl_app.
Qed.

Lemma core_maybeStartCompaction `{GoStd} e p : e_snap (maybeStartCompaction e p) = e_snap e ∧
  (e_cfg (maybeStartCompaction e p) = e_cfg e ∧ e_state (maybeStartCompaction e p) = e_state e ∧ e_applyEpoch (maybeStartCompaction e p) = e_applyEpoch e) ∧
  e_next (maybeStartCompaction e p) = e_next e ∧
  (co_tasks (core (maybeStartCompaction e p)) = co_tasks (core e) ∨
   co_tasks (core (maybeStartCompaction e p)) = co_tasks (core e) ++ [(vp_base p, vp_segments p)]).
Proof.
  unfold maybeStartCompaction. destruct (l_compacting _); [by auto|]. destruct (negb _); [by auto|]. destruct (len _ =? 0); [by auto|].
  destruct (negb _); [by auto|]. split_and!; try done. right. simpl. by rewrite compactions_app.
Qed.

Section publish.
Context `{GoStd} `{JsonStd}.
Context (pg_objectid : bytes → option string).
Context (e : Engine) (p : viewPtr) (L : layout) (Ds : list delta) (HR : View_rep (vp_view p) L Ds).
Context (d : database) (cs : ChangeSet) (ever : gset N).
Hypothesis Hdb : database_ok d.
Hypothesis Hjson : json_ok d.
Hypothesis Hever : N.of_nat (size ever) < 2 ^ 31.
Hypothesis Hin : numbered_within L Ds ever.
Hypothesis Hdin : ∀ id, is_Some (db_node d !! id) → id ∈ ever.
Hypothesis Hsame : same_edges L Ds d.

Lemma maintain_ok seg D : Segment_rep seg D →
  View_rep (vp_view (mkViewPtr (vp_base p) (vp_segments p ++ [(e_next e, seg)]))) L (Ds ++ [D]) →
  ∃ e' p' Ds', maintainAfterPublish (with_snap (allocate e ()).1 (Some (mkViewPtr (vp_base p) (vp_segments p ++ [(e_next e, seg)]))))
      (mkViewPtr (vp_base p) (vp_segments p ++ [(e_next e, seg)])) = Some e' ∧ published e p L Ds D seg e' p' Ds'.
Proof.
  intros Hseg HR'. set (p1 := mkViewPtr _ _) in *. set (e1 := with_snap _ _). unfold maintainAfterPublish.
  destruct (collapse_ok e1 p1 L (Ds ++ [D]) HR') as (e2 & p2 & Ds2 & -> & HR2 & HD2 & Hlen & Hb & Hcase). cbn [mbind option_bind].
  destruct (core_maybeStartCompaction e2 p2) as (M1 & M2 & M3 & M4).
  eexists _, p2, Ds2. split; [done|]. destruct Hcase as [(-> & -> & ->)|(-> & -> & Hs2)]; split; rewrite ?M1; try done.
  - left. by rewrite M3.
  - right. rewrite M3. split_and!; [done|simpl; lia|by eexists].
Qed.

Lemma publish_ok rb cs' : read_back_ok pg_objectid (vp_view p) L Ds d cs rb cs' →
  (core (publish e p rb) = core (enterFallback e) ∧
   (buildApplySegment (vp_view p) rb = Some (inr ErrTooManyProps) ∨ buildApplySegment (vp_view p) rb = Some (inr ErrArenaFull))) ∨
  ∃ seg D, buildApplySegment (vp_view p) rb = Some (inl seg) ∧ refreshed pg_objectid L Ds d cs D ∧
    let v := vp_view (mkViewPtr (vp_base p) (vp_segments p ++ [(e_next e, seg)])) in
    ((core (publish e p rb) = core (enterFallback (allocate e ()).1) ∧ over_memory_limit e v = Some true) ∨
     (over_memory_limit e v = Some false ∧ ∃ p' Ds', published e p L Ds D seg (publish e p rb) p' Ds')).
Proof.
  intros Hrb. destruct (refresh_ok pg_objectid (vp_view p) L Ds HR d cs ever Hdb Hjson ltac:(lia) Hin Hdin Hsame rb cs' Hrb) as (r & Er & Hr).
  unfold publish. rewrite Er. destruct r as [seg|err]; [|left; split; [done|]; naive_solver].
  destruct Hr as (D & Hseg & HR' & Href). right. exists seg, D. split; [done|]. split; [done|]. cbn [allocate vp_base vp_segments].
  set (p1 := mkViewPtr (vp_base p) (vp_segments p ++ [(e_next e, seg)])).
  assert (vp_view p1 = WithSegment (vp_view p) seg) as Ev by (unfold vp_view, p1, WithSegment; simpl; by rewrite fmap_app). rewrite <- Ev in HR'.
  repeat match goal with |- context [mkViewPtr (vp_base p) ?l] => change (mkViewPtr (vp_base p) l) with p1 end.
  rewrite (warm_view _ _ _ HR'). 2: { eapply N.le_lt_trans; [eapply (view_room_count _ _ _ ever HR')|done].
    intros id. eapply added_ever; [done..|apply (rf_alive _ _ _ _ _ _ Href)]. }
  cbn [mbind option_bind]. unfold over_memory_limit. simpl. destruct (maintain_ok seg D Hseg HR') as (e' & p' & Ds' & Em & HP). fold p1 in Em.
  destruct (0 <? cfg_MemoryLimit (e_cfg e)); [|right; split; [done|]; simpl in *; rewrite Em; by eauto].
  destruct (View_ApproxBytes_total (vp_view p1) L _ [] HR') as [n ->]. simpl.
  destruct (cfg_MemoryLimit (e_cfg e) <? n); [by left|]. right. split; [done|]. simpl in *. rewrite Em. by eauto.
Qed.
End publish.

(** ** The whole of [Apply] *)

Section apply_ok.
Context `{GoStd} `{JsonStd}.
Context (pg_objectid : bytes → option string) (answers : nat → option database) (defaultGraph : option Z).
Context (e : Engine) (p : viewPtr) (L : layout) (Ds : list delta) (HR : View_rep (vp_view p) L Ds).
Context (d : database) (E : goerr → Prop) (s : WriteScope) (ever : gset N).
Let cs := ws_changes s.
Hypothesis Hrest : ∀ n d', answers n = Some d' → d' = d.
Hypothesis Hdb : database_ok d.
Hypothesis Hnames : names_true d (vp_view p) Ds.
Hypothesis Hpg : ∀ b o, objectIDFromProps b = Some o → pg_objectid b = Some o.
Hypothesis HE : ∀ n, answers n = None → E ErrQuery.
Hypothesis HEg : defaultGraph = None → E ErrNoGraph.
Hypothesis HEk : ∀ k, ((∃ id n, db_node d !! id = Some n ∧ k ∈ dn_kind_ids n) ∨ ∃ e s t, db_edge d !! e = Some (s, t, k)) →
  db_kind d !! k = None → E ErrUnnamedKind.
Hypothesis HEu : ∀ cr kind, cr ∈ NodeKindCriteria cs → kind ∈ nk_Exclude cr →
  (kind = None ∨ ∀ k, db_kind d !! k ≠ Some (kindName kind)) → E (ErrUnknownKind (kindName kind)).
Hypothesis Hjson : json_ok d.
Hypothesis Hever : N.of_nat (size ever) < 2 ^ 31.
Hypothesis Hin : numbered_within L Ds ever.
Hypothesis Hdin : ∀ id, is_Some (db_node d !! id) → id ∈ ever.
Hypothesis Hsame : same_edges L Ds d.

(** Why a write may end in fallback. *)
Inductive gives_up : Prop :=
  | gu_fallback : (HasFallback cs).1 = true → gives_up
  | gu_error err : E err → gives_up
  | gu_second_pass rb cs' : read_back_ok pg_objectid (vp_view p) L Ds d cs rb cs' → (HasFallback cs').1 = true → gives_up
  | gu_store err : err = ErrTooManyProps ∨ err = ErrArenaFull → gives_up
  | gu_memory r : over_memory_limit e (vp_view (mkViewPtr (vp_base p) (vp_segments p ++ [r]))) = Some true → gives_up.

Lemma apply_changes_ok : cfg_Enabled (e_cfg e) = true → e_state e = stateServing → e_snap e = Some p → ChangeSet_Empty cs = false →
  (gives_up ∧ ∃ next, e_next e ≤ next ∧ core (apply_changes pg_objectid answers defaultGraph e (Some s)) =
     mkCore (e_cfg e) (Some p) stateFallback (e_applyEpoch e) next (co_tasks (core e))) ∨
  ∃ seg D p' Ds', refreshed pg_objectid L Ds d cs D ∧
    published e p L Ds D seg (apply_changes pg_objectid answers defaultGraph e (Some s)) p' Ds'.
Proof.
  intros Hen Hst Hsnap Hne. unfold apply_changes. rewrite Hen, Hst, Hsnap. simpl. fold cs.
  assert (core (enterFallback e) = mkCore (e_cfg e) (Some p) stateFallback (e_applyEpoch e) (e_next e) (co_tasks (core e))) as Hfall
    by (by rewrite core_enterFallback, Hsnap).
  destruct (HasFallback cs).1 eqn:Ef; [left; split; [by apply gu_fallback|by exists (e_next e)]|]. rewrite Hne.
  pose proof (names_view_kinds d _ L Ds HR Hnames) as Hk.
  destruct (wp_readBack pg_objectid answers defaultGraph (vp_view p) L Ds HR d E cs Hrest Hdb Hk Hpg HE HEg HEk HEu 0%nat)
    as (n & [[rb cs']|err] & -> & Hrb); simpl; [|left; split; [by eapply gu_error|by exists (e_next e)]].
  simpl in Hrb. destruct (HasFallback cs').1 eqn:Ef'; [left; split; [by eapply gu_second_pass|by exists (e_next e)]|].
  destruct (publish_ok pg_objectid e p L Ds HR d cs ever Hdb Hjson Hever Hin Hdin Hsame rb cs' Hrb)
    as [[Hc Hwhy]|(seg & D & Eb & Href & [[Hc Hm]|(_ & p' & Ds' & HP)])].
  - left. rewrite Hc. split; [destruct Hwhy; by eapply gu_store; auto|by exists (e_next e)].
  - left. rewrite Hc. split; [by eapply gu_memory|]. exists (e_next e + 1). split; [lia|]. rewrite core_enterFallback. simpl. by rewrite Hsnap.
  - right. by exists seg, D, p', Ds'.
Qed.
End apply_ok.
