(* ===== verification/Replica.v ===== *)
(** * The replica

    The engine beside a database that others write: writes commit and are applied
    later, each under [applyMu] and in any order; rebuilds read a snapshot and are
    adopted if no write was applied since they began; compactions fold what they
    captured and are adopted if it is still there. The state has what a proof has
    to remember besides: the edges there ever were and the node ids ever handed
    out.

    The invariant says which rows of the served view may differ from the
    database's: those a write names that has committed and is not applied yet. *)

From S2P Require Import Prelude Bitset Csr Kinds Props Snapshot Builder Segment ParseProps View ViewAdj ViewKinds EdgeKinds Fold FoldGraph.
From S2P Require Import Ledger ChangeSet Apply Candidates Readback ReadbackRuns ReadbackSpec BootGap Sizes Engine Compact WriteThrough WriteApply.
From S2P Require Import LoadNodes Load.
From stdpp Require Import options.
Unset Default Proof Using.
#[local] Open Scope N_scope.

(** ** Definitions *)

(** A write: the scope that its commit handed over, if there was one. *)
Abbreviation commit := (option WriteScope) (only parsing).

Record system := mkSystem {
  sy_db : database;
  sy_engine : Engine;
  sy_pending : list commit;  (* committed, not applied *)
  sy_begun : list (N * N);  (* rebuilds that have not loaded: their epoch and generation *)
  sy_loaded : list (N * N * Snapshot * loadedWatermark);
  sy_hist : gmap N edge_state;
  sy_ever : gset N;
}.

Definition with_engine (s : system) (e : Engine) : system :=
  mkSystem (sy_db s) e (sy_pending s) (sy_begun s) (sy_loaded s) (sy_hist s) (sy_ever s).

(** ** What a write names *)

Section names.
Context `{GoStd} `{JsonStd}.
Context (pg_objectid : bytes → option string).

(** A write whose read-back is not relied on: it ends in fallback. *)
Definition unread (w : commit) : Prop := match w with None => True | Some s => (HasFallback (ws_changes s)).1 = true end.
Definition on_changes (w : commit) (P : ChangeSet → Prop) : Prop := match w with None => False | Some s => P (ws_changes s) end.

(** The node [id], whose row in the view is [o], is named by [cs]. *)
Definition names_node (d : database) (cs : ChangeSet) (o : option node_state) (id : N) : Prop :=
  id ∈ NodeIDs cs ∨
  (∃ n oid, db_node d !! id = Some n ∧ pg_objectid (dn_properties n) = Some oid ∧ oid ∈ NodeObjectIDs cs) ∨
  (db_node d !! id = None ∧ ∃ st cr, o = Some st ∧ cr ∈ NodeKindCriteria cs ∧ db_deletes d cr st).
(** So is the edge [e], which is or was [x]. *)
Definition deletes_kind (d : database) (cs : ChangeSet) (x : edge_state) : Prop :=
  ∃ name ks, ks ∈ EdgeKindCriteria cs ∧ Some name ∈ ks ∧ db_kind d !! x.2 = Some name.
Definition names_edge (d : database) (cs : ChangeSet) (hist : gmap N edge_state) (e : N) : Prop :=
  e ∈ EdgeIDs cs ∨ (db_edge d !! e = None ∧ ∃ x, hist !! e = Some x ∧ deletes_kind d cs x) ∨
  triple_covered d cs e ∨ oid_triple_covered d cs e.

Definition covers_node (d : database) (w : commit) (o : option node_state) (id : N) : Prop := unread w ∨ on_changes w (λ cs, names_node d cs o id).
Definition covers_edge (d : database) (w : commit) (hist : gmap N edge_state) (e : N) : Prop := unread w ∨ on_changes w (λ cs, names_edge d cs hist e).

(** *** The transactions of the database *)

Record database_fine (d : database) (hist : gmap N edge_state) (ever : gset N) : Prop := {
  df_ok : database_ok d;
  df_json : json_ok d;
  df_kinds : ∀ id n k, db_node d !! id = Some n → k ∈ dn_kind_ids n → is_Some (db_kind d !! k);
  df_hist : db_edge d ⊆ hist;
  df_ever : ∀ id, is_Some (db_node d !! id) → id ∈ ever;
  df_ends : ∀ e s t k, hist !! e = Some (s, t, k) → s ∈ ever ∧ t ∈ ever;
  df_room : N.of_nat (size ever) < 2 ^ 31;
}.

(** One transaction takes the database from [d] to [d'] and hands [w] over. Ids
    are never used again; kinds are never removed; an objectid stays with its
    node; and what changed is named. The last: a node that a pending upsert found
    by its objectid is not deleted by criteria. *)
Record commit_ok (d : database) (hist : gmap N edge_state) (ever : gset N) (pending : list commit) (w : commit)
    (d' : database) (ever' : gset N) : Prop := {
  ck_kinds : db_kind d ⊆ db_kind d';
  ck_ever : ever ⊆ ever';
  ck_node_ids : ∀ id, db_node d !! id = None → is_Some (db_node d' !! id) → id ∉ ever;
  ck_edge_ids : ∀ e x, db_edge d' !! e = Some x → db_edge d !! e = Some x ∨ hist !! e = None;
  ck_oids : ∀ id n n' oid, db_node d !! id = Some n → db_node d' !! id = Some n' →
    objectIDFromProps (dn_properties n) = Some oid → objectIDFromProps (dn_properties n') = Some oid;
  ck_recorded : on_changes w (λ cs, ∀ id, id ∈ NodeIDs cs → id ∈ ever') ∨ w = None;
  ck_nodes : ∀ id, db_node d !! id ≠ db_node d' !! id → covers_node d' w (db_node d !! id ≫= db_state) id;
  ck_edges : ∀ e, db_edge d !! e ≠ db_edge d' !! e → covers_edge d' w hist e ∨
    (∃ s t k, db_edge d !! e = Some (s, t, k) ∧ db_edge d' !! e = None ∧ (db_node d' !! s = None ∨ db_node d' !! t = None));
  ck_settled : ∀ w' id n oid, w' ∈ pending → db_node d !! id = Some n → db_node d' !! id = None →
    pg_objectid (dn_properties n) = Some oid → on_changes w' (λ cs, oid ∈ NodeObjectIDs cs) →
    unread w ∨ on_changes w (λ cs, id ∈ NodeIDs cs);
}.
End names.

(** ** The steps *)

Section steps.
Context `{GoStd} `{JsonStd}.
Context (pg_objectid : bytes → option string).

Definition epoch_room (e : Engine) : Prop := e_applyEpoch e + 2 < 2 ^ 64.
(** What [Fold] needs of the view it is given: it fits a snapshot. *)
Definition fold_fits (base : Snapshot) (segs : list Segment) : Prop :=
  ∀ L Ds, View_rep (mkView base segs) L Ds →
    graph_fits (view_graph L Ds) ∧ len (lo_edges L) + N.of_nat (size (d_edges (delta_all Ds))) < 2 ^ 32.
Definition load_fits (d : database) : Prop := graph_fits (db_graph d) ∧ N.of_nat (size (db_edge d)) < 2 ^ 32.
Definition loaded_counter (w : loadedWatermark) : option N := if lw_counterOK w then Some (lw_counter w) else None.

Inductive step : system → system → Prop :=
  | step_commit d e pd bg ld h ev w d' ev' :
      commit_ok pg_objectid d h ev pd w d' ev' → database_fine d' (db_edge d' ∪ h) ev' →
      step (mkSystem d e pd bg ld h ev) (mkSystem d' e (pd ++ [w]) bg ld (db_edge d' ∪ h) ev')
  (* everything that touches neither the view, nor the state, nor the epoch:
     bumps, the trust generations, the rebuild loop *)
  | step_quiet s e' : core e' = core (sy_engine s) → step s (with_engine s e')
  (* the database is at rest while a write is read back *)
  | step_apply d e pd pd' w bg ld h ev answers defaultGraph now : (∀ n d', answers n = Some d' → d' = d) → epoch_room e →
      step (mkSystem d e (pd ++ w :: pd') bg ld h ev)
        (mkSystem d (Engine_Apply pg_objectid answers defaultGraph now e w) (pd ++ pd') bg ld h ev)
  | step_rebuild_begin d e pd bg ld h ev :
      let '(e', epoch, settled) := rebuild_begin e in
      step (mkSystem d e pd bg ld h ev) (mkSystem d e' pd (bg ++ [(epoch, settled)]) ld h ev)
  | step_rebuild_load d e pd bg bg' epoch settled ld h ev a defaultGraph snap loaded : answers_of d a → load_fits d →
      loadSnapshot defaultGraph true true a = Some (inl (snap, loaded)) →
      step (mkSystem d e pd (bg ++ (epoch, settled) :: bg') ld h ev) (mkSystem d e pd (bg ++ bg') (ld ++ [(epoch, settled, snap, loaded)]) h ev)
  | step_rebuild_end d e pd bg ld ld' epoch settled snap loaded h ev :
      step (mkSystem d e pd bg (ld ++ (epoch, settled, snap, loaded) :: ld') h ev)
        (mkSystem d (rebuild_end e epoch settled (Some (snap, Snapshot_ApproxBytes snap, loaded_counter loaded))).1 pd bg (ld ++ ld') h ev)
  | step_compact s base segs stopped stopped' : (base, segs) ∈ compactions (l_spawned (e_loops (sy_engine s))) →
      fold_fits base.2 segs.*2 →
      step s (with_engine s (runCompaction stopped stopped' (sy_engine s) base segs))
  (* a panic of a background goroutine *)
  | step_panic s : step s (with_engine s (backgroundPanicked (sy_engine s))).

(** A new engine, beside any database. *)
Definition engine_new (cfg : Config) : Engine :=
  mkEngine cfg None stateServing 0 (mkGapBuffer false [] 0 EmptyString) (mkTrust 0 0 0 zeroLedger 0) (mkLoops false 0 0 false false [])
    false false 0 0 0.
Definition start (s : system) : Prop := ∃ d cfg ever, cfg_Enabled cfg = true ∧ database_fine d (db_edge d) ever ∧
  s = mkSystem d (engine_new cfg) [] [] [] (db_edge d) ever.

(** ** The invariant *)

Definition dangling (d : database) (x : edge_state) : Prop := db_node d !! x.1.1 = None ∨ db_node d !! x.1.2 = None.

Record rows_ok (d : database) (pending : list commit) (h : gmap N edge_state) (G : graph) : Prop := {
  ro_node : ∀ id, g_nodes G !! id = g_nodes (db_graph d) !! id ∨ ∃ w, w ∈ pending ∧ covers_node pg_objectid d w (g_nodes G !! id) id;
  ro_edge : ∀ e, g_edges G !! e = db_edge d !! e ∨ (db_edge d !! e = None ∧ ∃ x, g_edges G !! e = Some x ∧ dangling d x) ∨
    ∃ w, w ∈ pending ∧ covers_edge d w h e;
  ro_hist : g_edges G ⊆ h;
  ro_kinds : ∀ id st k, g_nodes G !! id = Some st → k ∈ st.1 → is_Some (db_kind d !! k);
}.

(** What the layers of a view may hold, whatever it shows. *)
Record layers_ok (d : database) (ever : gset N) (L : layout) (Ds : list delta) : Prop := {
  la_base : ∀ id, id ∈ lo_ids L → id ∈ ever;
  la_alive : ∀ D id st, D ∈ Ds → d_nodes D !! id = Some (Some st) → id ∈ ever ∧ bag_decodable st.2;
  la_dead : ∀ D id, D ∈ Ds → d_nodes D !! id = Some None → id ∈ ever ∧ db_node d !! id = None;
  la_decodable : ∀ id st, g_nodes (base_graph L) !! id = Some st → bag_decodable st.2;
  la_kinds : ∀ D, D ∈ Ds → d_kinds D ⊆ db_kind d;
}.

Definition view_ok (s : system) (v : View) : Prop := ∃ L Ds, View_rep v L Ds ∧ rows_ok (sy_db s) (sy_pending s) (sy_hist s) (view_graph L Ds) ∧
  names_true (sy_db s) v Ds ∧ layers_ok (sy_db s) (sy_ever s) L Ds.

(** *** Addresses *)

Definition consistent {A} (next : N) (rs : list (ref A)) : Prop :=
  (∀ r, r ∈ rs → r.1 < next) ∧ ∀ r r', r ∈ rs → r' ∈ rs → r.1 = r'.1 → r = r'.
Definition base_refs (c : Core) : list (ref Snapshot) := option_list (vp_base <$> co_snap c) ++ (co_tasks c).*1.
Definition seg_refs (c : Core) : list (ref Segment) := default [] (vp_segments <$> co_snap c) ++ concat (co_tasks c).*2.
Definition heap_ok (c : Core) : Prop := consistent (co_next c) (base_refs c) ∧ consistent (co_next c) (seg_refs c).

Record sys_inv (s : system) : Prop := {
  si_fine : database_fine (sy_db s) (sy_hist s) (sy_ever s);
  si_enabled : cfg_Enabled (e_cfg (sy_engine s)) = true;
  si_recorded : ∀ w, w ∈ sy_pending s → on_changes w (λ cs, ∀ id, id ∈ NodeIDs cs → id ∈ sy_ever s) ∨ w = None;
  si_heap : heap_ok (core (sy_engine s));
  si_view : e_state (sy_engine s) = stateServing → ∀ p, e_snap (sy_engine s) = Some p → view_ok s (vp_view p);
  si_begun : ∀ epoch settled, (epoch, settled) ∈ sy_begun s → epoch ≤ e_applyEpoch (sy_engine s);
  si_loaded : ∀ epoch settled snap w, (epoch, settled, snap, w) ∈ sy_loaded s → epoch ≤ e_applyEpoch (sy_engine s) ∧
    (epoch = e_applyEpoch (sy_engine s) → view_ok s (NewView snap));
}.
End steps.
