(* ===== verification/ReplicaSteps.v ===== *)
(** * Every step keeps the replica right

    The invariant of [Replica] through each of its steps: a commit, the applying
    of a write, a rebuild and a compaction. *)

From S2P Require Import Prelude Bitset Csr Kinds Props Snapshot Builder Segment ParseProps View ViewAdj ViewKinds EdgeKinds Fold FoldGraph.
From S2P Require Import Ledger ChangeSet Apply Candidates Readback ReadbackRuns ReadbackSpec BootGap Sizes Engine Compact WriteThrough WriteApply.
From S2P Require Import LoadNodes Load Replica.
From stdpp Require Import options.
Unset Default Proof Using.
#[local] Open Scope N_scope.

(** ** Addresses *)

Lemma consistent_sub {A} n n' (rs rs' : list (ref A)) : consistent n rs → n ≤ n' → (∀ r, r ∈ rs' → r ∈ rs) → consistent n' rs'.
Proof. intros [Hlt Hs] Hn Hsub. split; [|by auto]. intros r Hr%Hsub%Hlt. lia. Qed.
Lemma consistent_add {A} n (x : A) (rs rs' : list (ref A)) : consistent n rs → (∀ r, r ∈ rs' → r ∈ rs ∨ r = (n, x)) → consistent (n + 1) rs'.
Proof.
  intros [Hlt Hs] Hsub. split.
  - intros r [Hr%Hlt| ->]%Hsub; simpl; lia.
  - intros r r' [Hr| ->]%Hsub [Hr'| ->]%Hsub; [by auto| | |done]; simpl; intros E; [apply Hlt in Hr|apply Hlt in Hr']; lia.
Qed.

Lemma heap_next c next : heap_ok c → co_next c ≤ next → heap_ok (mkCore (co_cfg c) (co_snap c) (co_state c) (co_epoch c) next (co_tasks c)).
Proof. intros [Hb Hs] Hn. split; eapply consistent_sub; eauto. Qed.

(** ** Kinds *)

Lemma table_of_pairs `{GoStd} d (pairs : gmap KindID string) t : NewKindTable pairs = Some t → pairs ⊆ db_kind d → table_true d t.
Proof.
  intros Ht Hp. destruct (NewKindTable_table pairs) as (t' & Et & _ & _ & _ & Hid). assert (t' = t) as -> by congruence. split.
  - intros name k Hk. apply Hid, elem_of_map_to_list in Hk. by eapply map_subseteq_spec.
  - intros k name. rewrite (NewKindTable_name _ _ _ Ht). case_bool_decide; [|done].
    destruct (pairs !! k) as [nm|] eqn:Ek; [|done]. destruct (String.eqb nm ""); [done|]. intros [= <-]. by eapply map_subseteq_spec.
Qed.
Lemma table_true_mono d d' t : db_kind d ⊆ db_kind d' → table_true d t → table_true d' t.
Proof. intros Hk [H1 H2]. split; intros; eapply map_subseteq_spec; eauto. Qed.

(** ** A commit *)

#[export] Instance dbNode_eq_dec : EqDecision dbNode.
Proof. solve_decision. Defined.

Section commit.
Context `{GoStd} `{JsonStd}.
Context (pg_objectid : bytes → option string).
Hypothesis Hpg : ∀ b o, objectIDFromProps b = Some o → pg_objectid b = Some o.
Context (d d' : database) (h : gmap N edge_state) (ever ever' : gset N) (pending : list commit) (w : commit).
Hypothesis Hc : commit_ok pg_objectid d h ever pending w d' ever'.
Hypothesis Hf : database_fine d h ever.
Hypothesis Hf' : database_fine d' (db_edge d' ∪ h) ever'.

Lemma hist_kept e x : h !! e = Some x → (db_edge d' ∪ h) !! e = Some x.
Proof.
  intros He. apply lookup_union_Some_raw. destruct (db_edge d' !! e) as [y|] eqn:Ey; [left|by right].
  destruct (ck_edge_ids _ _ _ _ _ _ _ _ Hc e y Ey) as [Hy|Hy]; [|congruence].
  assert (h !! e = Some y) by (eapply map_subseteq_spec; [apply (df_hist _ _ _ Hf)|done]). congruence.
Qed.
Lemma hist_sub (m : gmap N edge_state) : m ⊆ h → m ⊆ db_edge d' ∪ h.
Proof. rewrite !map_subseteq_spec. intros Hm e x Hx. by apply hist_kept, Hm. Qed.
Lemma edge_stays_gone e : is_Some (h !! e) → db_edge d !! e = None → db_edge d' !! e = None.
Proof.
  intros [x Hx] Hd. destruct (db_edge d' !! e) as [y|] eqn:Ey; [|done]. destruct (ck_edge_ids _ _ _ _ _ _ _ _ Hc e y Ey); congruence.
Qed.
Lemma node_stays_gone id : id ∈ ever → db_node d !! id = None → db_node d' !! id = None.
Proof. intros Hid Hd. apply eq_None_not_Some. intros Hs. by apply (ck_node_ids _ _ _ _ _ _ _ _ Hc id). Qed.
Lemma dangling_kept e x : h !! e = Some x → dangling d x → dangling d' x.
Proof.
  destruct x as [[s t] k]. intros He. destruct (df_ends _ _ _ Hf _ _ _ _ He) as [Hs Ht]. unfold dangling. simpl.
  intros [Hn|Hn]; [left|right]; by apply node_stays_gone.
Qed.

Lemma db_deletes_kept cr st : (∀ k, k ∈ st.1 → is_Some (db_kind d !! k)) → db_deletes d cr st → db_deletes d' cr st.
Proof.
  intros Hk [Hi Hx]. pose proof (ck_kinds _ _ _ _ _ _ _ _ Hc) as Hsub. split.
  - destruct Hi as [?|(name & k & ? & Hn & ?)]; [by left|]. right. exists name, k. split_and!; [done| |done]. by eapply map_subseteq_spec.
  - intros kind k Hkind Hn Hin. destruct (Hk k Hin) as [nm Hnm].
    assert (db_kind d' !! k = Some nm) by (by eapply map_subseteq_spec). apply (Hx kind k Hkind); [congruence|done].
Qed.

Lemma named_kept oid id : db_named d oid id → is_Some (db_node d' !! id) → db_named d' oid id.
Proof. intros (n & Hn & Ho) [n' Hn']. exists n'. split; [done|]. by eapply (ck_oids _ _ _ _ _ _ _ _ Hc). Qed.

(** What a pending write named, it still names, where the row did not change. *)
Lemma names_edge_kept cs e : db_edge d !! e = db_edge d' !! e → names_edge d cs h e → names_edge d' cs (db_edge d' ∪ h) e.
Proof.
  intros E. pose proof (ck_kinds _ _ _ _ _ _ _ _ Hc) as Hk.
  assert (∀ k name, db_kind d !! k = Some name → db_kind d' !! k = Some name) as Hk' by (intros; by eapply map_subseteq_spec).
  intros [?|[(Hn & x & Hx & name & ks & ? & ? & ?)|[(t & name & k & ? & ? & Hkn & He)|(t & name & k & s & s' & ? & ? & ? & ? & Hkn & He & Hs & Hs')]]].
  - by left.
  - right; left. split; [congruence|]. exists x. split; [by apply hist_kept|]. exists name, ks. auto.
  - right; right; left. exists t, name, k. split_and!; [done|done|by apply Hk'|congruence].
  - right; right; right. rewrite E in He. destruct (dbo_ends _ (df_ok _ _ _ Hf') _ _ _ _ He).
    exists t, name, k, s, s'. split_and!; try done; [by apply Hk'|by apply named_kept..].
Qed.

Lemma node_commit G id : rows_ok pg_objectid d pending h G →
  g_nodes G !! id = g_nodes (db_graph d') !! id ∨ ∃ w', w' ∈ pending ++ [w] ∧ covers_node pg_objectid d' w' (g_nodes G !! id) id.
Proof.
  intros [Hnode _ _ Hkind]. assert (∀ w' cs, w' ∈ pending ++ [w] → ws_changes <$> w' = Some cs → names_node pg_objectid d' cs (g_nodes G !! id) id →
    ∃ w', w' ∈ pending ++ [w] ∧ covers_node pg_objectid d' w' (g_nodes G !! id) id) as Hname.
  { intros w' cs Hin Hw Hn. exists w'. split; [done|]. right. destruct w' as [s|]; [|done]. simpl in *. by simplify_eq. }
  destruct (decide (db_node d !! id = db_node d' !! id)) as [E|Hch].
  - destruct (Hnode id) as [->|(w' & Hw' & [Hun|Hcov])]; [left; simpl; by rewrite !lookup_omap, E|right..].
    { exists w'. split; [set_solver|by left]. }
    destruct w' as [s|]; [|done]. simpl in Hcov. apply (Hname (Some s) (ws_changes s)); [set_solver|done|].
    destruct Hcov as [?|[?|(Hn & st & cr & Hst & Hcr & Hdel)]]; [by left|right; left; by rewrite <- E|]. right; right. split; [congruence|].
    exists st, cr. split_and!; [done..|]. apply db_deletes_kept; [|done]. intros k. by apply Hkind with id.
  - right. destruct (ck_nodes _ _ _ _ _ _ _ _ Hc id Hch) as [?|Hcov]; [exists w; split; [set_solver|by left]|].
    destruct w as [sw|] eqn:Ew; [|done]. simpl in Hcov.
    assert (names_node pg_objectid d' (ws_changes sw) (g_nodes G !! id) id →
      ∃ w', w' ∈ pending ++ [Some sw] ∧ covers_node pg_objectid d' w' (g_nodes G !! id) id) as Hnew by (apply (Hname (Some sw)); [set_solver|done]).
    destruct (Hnode id) as [Heq|(w' & Hw' & Hcov')]; [apply Hnew; rewrite Heq; simpl; by rewrite lookup_omap|].
    destruct Hcov as [?|[?|(Hgone & _)]]; [apply Hnew; by left|apply Hnew; right; by left|].
    destruct (db_node d !! id) as [n|] eqn:En; [|congruence].
    destruct Hcov' as [?|Hcov']; [exists w'; split; [set_solver|by left]|]. destruct w' as [s'|]; [|done]. simpl in Hcov'.
    destruct Hcov' as [?|[(n' & oid & Hn' & Ho & Hin)|(Hnone & _)]]; [apply (Hname (Some s') (ws_changes s')); [set_solver|done|by left]| |congruence].
    assert (n' = n) as -> by congruence.
    destruct (ck_settled _ _ _ _ _ _ _ _ Hc (Some s') id n oid Hw' En Hgone Ho Hin); [|apply Hnew; by left].
    exists (Some sw). split; [set_solver|by left].
Qed.
Lemma edge_commit G e : rows_ok pg_objectid d pending h G →
  g_edges G !! e = db_edge d' !! e ∨ (db_edge d' !! e = None ∧ ∃ x, g_edges G !! e = Some x ∧ dangling d' x) ∨
  ∃ w', w' ∈ pending ++ [w] ∧ covers_edge d' w' (db_edge d' ∪ h) e.
Proof.
  intros [_ Hedge Hh _]. assert (∀ x, g_edges G !! e = Some x → h !! e = Some x) as Hgh by (intros x Hx; by eapply map_subseteq_spec).
  destruct (decide (db_edge d !! e = db_edge d' !! e)) as [E|Hch].
  - destruct (Hedge e) as [->|[(Hn & x & Hx & Hdang)|(w' & Hw' & Hcov)]]; [by left| |].
    + right; left. split; [congruence|]. exists x. split; [done|]. eapply dangling_kept; [|done]. by apply Hgh.
    + right; right. exists w'. split; [set_solver|]. destruct Hcov as [?|Hcov]; [by left|]. right. destruct w' as [s'|]; [|done]. by apply names_edge_kept.
  - destruct (ck_edges _ _ _ _ _ _ _ _ Hc e Hch) as [Hcov|(s & t & k & He & He' & Hgone)].
    + assert (∀ cs, names_edge d' cs h e → names_edge d' cs (db_edge d' ∪ h) e) as Hup.
      { intros cs [?|[(Hn & x & Hx & Hdel)|?]]; [by left| |by right; right]. right; left. split; [done|]. exists x. split; [by apply hist_kept|done]. }
      right; right. exists w. split; [set_solver|]. destruct Hcov as [?|Hcov]; [by left|]. right. destruct w as [sw|]; [|done]. by apply Hup.
    + destruct (g_edges G !! e) as [x|] eqn:Ex; [right; left|left; congruence]. split; [done|]. exists x. split; [done|].
      assert (h !! e = Some (s, t, k)) as Hx' by (eapply map_subseteq_spec; [apply (df_hist _ _ _ Hf)|done]).
      rewrite (Hgh x eq_refl) in Hx'. injection Hx' as ->. exact Hgone.
Qed.

Lemma rows_commit G : rows_ok pg_objectid d pending h G → rows_ok pg_objectid d' (pending ++ [w]) (db_edge d' ∪ h) G.
Proof.
  intros HG. split; [intros id; by apply node_commit|intros e; by apply edge_commit|apply hist_sub, HG|].
  intros id st k Hst Hk. destruct (ro_kinds _ _ _ _ _ HG id st k Hst Hk) as [name Hn]. exists name.
  eapply map_subseteq_spec; [apply (ck_kinds _ _ _ _ _ _ _ _ Hc)|done].
Qed.

Lemma layers_commit L Ds : layers_ok d ever L Ds → layers_ok d' ever' L Ds.
Proof.
  intros [Hb Ha Hd Hdec Hks]. pose proof (ck_ever _ _ _ _ _ _ _ _ Hc) as He. split.
  - intros id Hid. by apply He, Hb.
  - intros D id st HD Hst. destruct (Ha D id st HD Hst). split; [by apply He|done].
  - intros D id HD Hst. destruct (Hd D id HD Hst). split; [by apply He|by apply node_stays_gone].
  - done.
  - intros D HD. etrans; [by apply Hks|apply (ck_kinds _ _ _ _ _ _ _ _ Hc)].
Qed.
End commit.

(** ** Applying a write *)

Section others.
Context `{GoStd} `{JsonStd}.
Context (pg_objectid : bytes → option string) (d : database) (pd pd' : list commit) (s : WriteScope).
Let cs := ws_changes s.
Hypothesis Hread : (HasFallback cs).1 = false.

Lemma covers_node_other id o w : w ∈ pd ++ Some s :: pd' → covers_node pg_objectid d w o id →
  names_node pg_objectid d cs o id ∨ ∃ w', w' ∈ pd ++ pd' ∧ covers_node pg_objectid d w' o id.
Proof.
  intros [Hw|[->|Hw]%elem_of_cons]%elem_of_app Hc; [right; exists w; split; [set_solver|done]| |right; exists w; split; [set_solver|done]].
  destruct Hc as [Hun|Hc]; [by simpl in Hun; fold cs in Hun; congruence|by left].
Qed.
Lemma covers_edge_other h e w : w ∈ pd ++ Some s :: pd' → covers_edge d w h e →
  names_edge d cs h e ∨ ∃ w', w' ∈ pd ++ pd' ∧ covers_edge d w' h e.
Proof.
  intros [Hw|[->|Hw]%elem_of_cons]%elem_of_app Hc; [right; exists w; split; [set_solver|done]| |right; exists w; split; [set_solver|done]].
  destruct Hc as [Hun|Hc]; [by simpl in Hun; fold cs in Hun; congruence|by left].
Qed.

End others.

Section apply.
Context `{GoStd} `{JsonStd} `{!JsonLaws}.
Context (pg_objectid : bytes → option string).
Context (d : database) (h : gmap N edge_state) (ever : gset N) (pd pd' : list commit) (s : WriteScope).
Let cs := ws_changes s.
Hypothesis Hf : database_fine d h ever.
Hypothesis Hread : (HasFallback cs).1 = false.
Context (L : layout) (Ds : list delta).
Let G := view_graph L Ds.
Hypothesis Hrows : rows_ok pg_objectid d (pd ++ Some s :: pd') h G.

Lemma names_node_covered id : names_node pg_objectid d cs (g_nodes G !! id) id → node_covered pg_objectid L Ds d cs id.
Proof.
  intros [?|[(n & oid & ? & ? & ?)|(Hn & st & cr & Hst & ? & ?)]]; [by left|right; left; by exists n, oid|right; right].
  exists st. split; [done|]. right. by exists cr.
Qed.

Lemma same_edges_hist : same_edges L Ds d.
Proof.
  intros e x y Hx Hy. assert (h !! e = Some x) by (eapply map_subseteq_spec; [apply (ro_hist _ _ _ _ _ Hrows)|done]).
  assert (h !! e = Some y) by (eapply map_subseteq_spec; [apply (df_hist _ _ _ Hf)|done]). congruence.
Qed.

Section refreshed.
Context (D : delta) (HD : refreshed pg_objectid L Ds d cs D).

Lemma node_apply id : g_nodes (apply_delta G D) !! id = g_nodes (db_graph d) !! id ∨
  ∃ w, w ∈ pd ++ pd' ∧ covers_node pg_objectid d w (g_nodes (apply_delta G D) !! id) id.
Proof.
  destruct (rf_node _ _ _ _ _ _ HD id) as [?|Hsame]; [by left|]. fold G in Hsame.
  destruct (ro_node _ _ _ _ _ Hrows id) as [Heq|(w & Hw & Hc)]; [left; by rewrite Hsame|].
  destruct (covers_node_other pg_objectid d pd pd' s Hread id _ w Hw Hc) as [Hn|(w' & Hw' & Hc')]; [|right; exists w'; split; [done|by rewrite Hsame]].
  left. apply (rf_node_covered _ _ _ _ _ _ HD). by apply names_node_covered.
Qed.
Lemma edge_apply e : g_edges (apply_delta G D) !! e = db_edge d !! e ∨
  (db_edge d !! e = None ∧ ∃ x, g_edges (apply_delta G D) !! e = Some x ∧ dangling d x) ∨ ∃ w, w ∈ pd ++ pd' ∧ covers_edge d w h e.
Proof.
  destruct (rf_edge _ _ _ _ _ _ HD e) as [?|Hsame]; [by left|]. fold G in Hsame. rewrite Hsame.
  destruct (ro_edge _ _ _ _ _ Hrows e) as [Heq|[Hd|(w & Hw & Hc)]]; [by left|right; by left|].
  destruct (covers_edge_other d pd pd' s Hread h e w Hw Hc) as [Hn|?]; [|by right; right]. left. rewrite <- Hsame.
  assert (edge_covered L Ds d cs e ∨ triple_covered d cs e ∨ oid_triple_covered d cs e → g_edges (apply_delta G D) !! e = db_edge d !! e) as Hcov
    by apply (rf_edge_covered _ _ _ _ _ _ HD).
  destruct Hn as [?|[(Hno & [[a b] k] & Hx & name & ks & ? & ? & ?)|[?|?]]]; [apply Hcov; left; by left| |apply Hcov; auto..].
  destruct (g_edges G !! e) as [y|] eqn:Ey; [|congruence]. apply Hcov. left. right.
  assert (h !! e = Some y) as Hy by (eapply map_subseteq_spec; [apply (ro_hist _ _ _ _ _ Hrows)|done]).
  assert (y = (a, b, k)) as -> by congruence. by exists a, b, k, name, ks.
Qed.

Lemma rows_apply : rows_ok pg_objectid d (pd ++ pd') h (apply_delta G D).
Proof.
  split; [apply node_apply|apply edge_apply| |].
  - apply map_subseteq_spec. intros e x Hx. destruct (rf_edge _ _ _ _ _ _ HD e) as [Hd|Hs]; [fold G in Hd|fold G in Hs].
    + eapply map_subseteq_spec; [apply (df_hist _ _ _ Hf)|congruence].
    + eapply map_subseteq_spec; [apply (ro_hist _ _ _ _ _ Hrows)|congruence].
  - intros id st k Hst Hk. destruct (rf_node _ _ _ _ _ _ HD id) as [Hd|Hs]; [fold G in Hd|fold G in Hs; apply (ro_kinds _ _ _ _ _ Hrows id st k); [congruence|done]].
    rewrite Hd in Hst. simpl in Hst. rewrite lookup_omap in Hst. destruct (db_node d !! id) as [n|] eqn:En; [|done]. simpl in Hst.
    unfold db_state in Hst. destruct (json_bag _); [|done]. injection Hst as <-. by eapply (df_kinds _ _ _ Hf).
Qed.

Lemma graph_ids id : layers_ok d ever L Ds → is_Some (g_nodes G !! id) → id ∈ ever.
Proof.
  intros HL [st Hst]. unfold G in Hst. rewrite view_graph_all in Hst. simpl in Hst. rewrite over_lookup in Hst.
  destruct (d_nodes (delta_all Ds) !! id) as [o|] eqn:Eo.
  - subst o. apply delta_all_node in Eo as (D' & HD' & Hn). by destruct (la_alive _ _ _ _ HL D' id st HD' Hn).
  - apply (la_base _ _ _ _ HL). apply elem_of_list_to_map_2 in Hst. by apply elem_of_zip_l in Hst.
Qed.

(** The state of the rows the segment holds. *)
Lemma applied_state id st : d_nodes D !! id = Some (Some st) → g_nodes (db_graph d) !! id = Some st ∨ g_nodes G !! id = Some st.
Proof.
  intros Hd. assert (g_nodes (apply_delta G D) !! id = Some st) as Ha by (simpl; by rewrite over_lookup, Hd).
  destruct (rf_node _ _ _ _ _ _ HD id) as [Hr|Hr]; fold G in Hr; [left|right]; congruence.
Qed.

Lemma db_graph_decodable id st : g_nodes (db_graph d) !! id = Some st → bag_decodable st.2.
Proof.
  simpl. rewrite lookup_omap. destruct (db_node d !! id) as [n|]; [|done]. simpl. unfold db_state.
  destruct (json_bag _) as [bag|] eqn:Eb; [|done]. intros [= <-]. by eapply json_bag_decodable.
Qed.
Lemma graph_decodable id st : layers_ok d ever L Ds → g_nodes G !! id = Some st → bag_decodable st.2.
Proof.
  intros HL Hst. unfold G in Hst. rewrite view_graph_all in Hst. simpl in Hst. rewrite over_lookup in Hst.
  destruct (d_nodes (delta_all Ds) !! id) as [o|] eqn:Eo.
  - subst o. apply delta_all_node in Eo as (D' & HD' & Hn). by destruct (la_alive _ _ _ _ HL D' id st HD' Hn).
  - by apply (la_decodable _ _ _ _ HL id).
Qed.

Lemma layers_apply : layers_ok d ever L Ds → (∀ id, id ∈ NodeIDs cs → id ∈ ever) → layers_ok d ever L (Ds ++ [D]).
Proof.
  intros HL Hrec. pose proof HL as [Hb Ha Hd Hdec Hks]. split; [done| | |done|].
  - intros D' id st [HD'|HD'%list_elem_of_singleton]%elem_of_app Hst; [by apply (Ha D')|subst D'].
    split; [apply (df_ever _ _ _ Hf); by eapply (rf_alive _ _ _ _ _ _ HD)|].
    destruct (applied_state id st Hst) as [?|?]; [by eapply db_graph_decodable|by eapply graph_decodable].
  - intros D' id [HD'|HD'%list_elem_of_singleton]%elem_of_app Hst; [by apply (Hd D')|subst D'].
    destruct (rf_dead _ _ _ _ _ _ HD id Hst) as [? [?|?]]; (split; [|done]); [by apply Hrec|by apply graph_ids].
  - intros D' [HD'|HD'%list_elem_of_singleton]%elem_of_app; [by apply Hks|subst D'; apply (rf_kinds _ _ _ _ _ _ HD)].
Qed.
End refreshed.
End apply.

(** Merging the deltas keeps what the layers hold. *)
Lemma layers_merge `{GoStd} `{JsonStd} d ever L Ds Ds' : layers_ok d ever L Ds → (∀ D, D ∈ Ds' → D = delta_all Ds) → layers_ok d ever L Ds'.
Proof.
  intros [Hb Ha Hd Hdec Hks] Hm. split; [done| | |done|].
  - intros D id st ->%Hm Hst. apply delta_all_node in Hst as (D & ? & ?). by apply (Ha D).
  - intros D id ->%Hm Hst. apply delta_all_node in Hst as (D & ? & ?). by apply (Hd D).
  - intros D ->%Hm. by apply delta_all_kinds.
Qed.

(** A change set that is empty names nothing. *)
Lemma empty_names `{GoStd} cs : ChangeSet_Empty cs = true →
  NodeIDs cs = [] ∧ NodeObjectIDs cs = [] ∧ EdgeIDs cs = [] ∧ EdgeTriples cs = [] ∧ EdgeTriplesByObjectID cs = [] ∧
  NodeKindCriteria cs = [] ∧ EdgeKindCriteria cs = [].
Proof.
  assert (∀ {A} (less : A → A → bool), go_sort less [] = []) as Hnil.
  { intros A less. apply Permutation_nil. symmetry. apply go_sort_perm. }
  assert (∀ {A} `{Countable A} (X : gset A), (size X =? 0)%nat = true → X = ∅) as Hset.
  { intros A EA CA X E%Nat.eqb_eq. by apply leibniz_equiv, size_empty_iff. }
  assert (∀ {K V} `{Countable K} (m : gmap K V), (size m =? 0)%nat = true → m = ∅) as Hmap by (intros K V EK CK m E%Nat.eqb_eq; by apply map_size_empty_iff).
  unfold ChangeSet_Empty. rewrite !andb_true_iff. intros (((((((E1 & E2) & E3) & E4) & E5) & E6) & E7) & _).
  apply Hset in E1, E2, E3. apply Hmap in E4, E5, E6, E7.
  unfold NodeIDs, NodeObjectIDs, EdgeIDs, EdgeTriples, EdgeTriplesByObjectID, NodeKindCriteria, EdgeKindCriteria, by_key, sortedIDKeys, sortedKeys.
  rewrite E1, E2, E3, E4, E5, E6, E7, ?elements_empty, ?map_to_list_empty. simpl. rewrite !Hnil. done.
Qed.

(** ** What an applied write makes of the engine *)

Section outcome.
Context `{GoStd} `{JsonStd} `{!JsonLaws}.
Context (pg_objectid : bytes → option string).
Hypothesis Hpg : ∀ b o, objectIDFromProps b = Some o → pg_objectid b = Some o.

Lemma heap_published e p L Ds D seg e' p' Ds' : e_snap e = Some p → heap_ok (core e) → published e p L Ds D seg e' p' Ds' → heap_ok (core e').
Proof.
  intros Hs [Hb Hsg] HP. assert (e_next e ≤ e_next e') as Hn.
  { destruct (pb_segs _ _ _ _ _ _ _ _ _ HP) as [(_ & _ & ->)|(_ & -> & _)]; lia. }
  unfold heap_ok, base_refs, seg_refs in *. change (co_snap (core e')) with (e_snap e'). rewrite (pb_snap _ _ _ _ _ _ _ _ _ HP).
  change (co_snap (core e)) with (e_snap e) in *. rewrite Hs in *. cbn [option_list fmap option_fmap option_map default] in *. split.
  - eapply consistent_sub; [exact Hb|exact Hn|]. rewrite (pb_base _ _ _ _ _ _ _ _ _ HP).
    destruct (pb_tasks _ _ _ _ _ _ _ _ _ HP) as [->|E]; [done|]. rewrite E, (pb_base _ _ _ _ _ _ _ _ _ HP), fmap_app. set_solver.
  - assert (∀ r, r ∈ vp_segments p' ++ concat (co_tasks (core e')).*2 → r ∈ vp_segments p' ∨ r ∈ concat (co_tasks (core e)).*2) as Hsub.
    { destruct (pb_tasks _ _ _ _ _ _ _ _ _ HP) as [->|E]; [by intros r ?%elem_of_app|]. rewrite E, fmap_app, concat_app.
      intros r Hr. rewrite !elem_of_app in Hr. simpl in Hr. rewrite app_nil_r in Hr. tauto. }
    destruct (pb_segs _ _ _ _ _ _ _ _ _ HP) as [(_ & Es & En)|(_ & En & s & Es)].
    + change (co_next (core e')) with (e_next e'). rewrite En. eapply (consistent_add _ seg); [exact Hsg|].
      intros r [Hr|Hr]%Hsub; [|left; set_solver]. rewrite Es in Hr. apply elem_of_app in Hr as [?| ->%list_elem_of_singleton]; [left; set_solver|by right].
    + change (co_next (core e')) with (e_next e'). rewrite En. replace (e_next e + 2) with (e_next e + 1 + 1) by lia.
      eapply (consistent_add _ s); [eapply consistent_sub; [exact Hsg|simpl; lia|done]|].
      intros r [Hr|Hr]%Hsub; [|left; set_solver]. rewrite Es in Hr. apply list_elem_of_singleton in Hr as ->. by right.
Qed.

(** A write that names nothing may be forgotten. *)
Lemma rows_empty d h pd pd' s G : ChangeSet_Empty (ws_changes s) = true → (HasFallback (ws_changes s)).1 = false →
  rows_ok pg_objectid d (pd ++ Some s :: pd') h G → rows_ok pg_objectid d (pd ++ pd') h G.
Proof.
  intros (E1 & E2 & E3 & E4 & E5 & E6 & E7)%empty_names Hread HG. pose proof HG as [Hn He Hh Hk]. split; [| |done..].
  - intros id. destruct (Hn id) as [?|(w & Hw & Hc)]; [by left|].
    destruct (covers_node_other pg_objectid d pd pd' s Hread id _ w Hw Hc) as [Hnm|?]; [exfalso|by right].
    unfold names_node in Hnm. rewrite E1, E2, E6 in Hnm.
    destruct Hnm as [Hx|[(n & oid & _ & _ & Hx)|(_ & st & cr & _ & Hx & _)]]; by apply not_elem_of_nil in Hx.
  - intros e. destruct (He e) as [?|[?|(w & Hw & Hc)]]; [by left|by right; left|].
    destruct (covers_edge_other d pd pd' s Hread h e w Hw Hc) as [Hnm|?]; [exfalso|by right; right].
    unfold names_edge, deletes_kind, triple_covered, oid_triple_covered in Hnm. rewrite E3, E4, E5, E7 in Hnm.
    destruct Hnm as [Hx|[(_ & x & _ & nm & ks & Hx & _)|[(t & nm & k & Hx & _)|(t & nm & k & s1 & s2 & Hx & _)]]]; by apply not_elem_of_nil in Hx.
Qed.

(** The view that a write was published on. *)
Lemma view_published e e' p p' L Ds Ds' D seg d h ever pd pd' s bg ld : published e p L Ds D seg e' p' Ds' →
  database_fine d h ever → (HasFallback (ws_changes s)).1 = false → (∀ id, id ∈ NodeIDs (ws_changes s) → id ∈ ever) →
  rows_ok pg_objectid d (pd ++ Some s :: pd') h (view_graph L Ds) → names_true d (vp_view p) Ds → layers_ok d ever L Ds →
  refreshed pg_objectid L Ds d (ws_changes s) D → view_ok pg_objectid (mkSystem d e' (pd ++ pd') bg ld h ever) (vp_view p').
Proof.
  intros HP Hf Hread Hrec Hrows Hnames HL HD. destruct (published_graph _ _ _ _ _ _ _ _ _ HP) as [HDs HG].
  exists L, Ds'. simpl. split_and!; [apply HP|rewrite HG; by eapply rows_apply| |].
  - destruct Hnames as [Ht Hk]. split; [simpl in *; by rewrite (pb_base _ _ _ _ _ _ _ _ _ HP)|]. rewrite HDs. unfold delta_all. rewrite foldl_app. simpl.
    apply map_union_least; [apply (rf_kinds _ _ _ _ _ _ HD)|exact Hk].
  - assert (layers_ok d ever L (Ds ++ [D])) as HL' by by eapply layers_apply.
    destruct (pb_segs _ _ _ _ _ _ _ _ _ HP) as [(-> & _)|(-> & _)]; [done|]. eapply layers_merge; [exact HL'|]. by intros D' ->%list_elem_of_singleton.
Qed.

Lemma numbered_layers d ever L Ds : layers_ok d ever L Ds → numbered_within L Ds ever.
Proof.
  intros HL id [?|[[st Hst] _]]; [by apply (la_base _ _ _ _ HL)|]. apply delta_all_node in Hst as (D & HD & Hst).
  by destruct (la_alive _ _ _ _ HL D id st HD Hst).
Qed.

(** The engine afterwards: in fallback; or as it was but for the epoch, when there
    is nothing to read or nothing to read it for; or with the write on its view. *)
Lemma Engine_Apply_cases answers defaultGraph now d h ever pd pd' bg ld w e :
  sys_inv pg_objectid (mkSystem d e (pd ++ w :: pd') bg ld h ever) → (∀ n d', answers n = Some d' → d' = d) → epoch_room e →
  let e' := Engine_Apply pg_objectid answers defaultGraph now e w in
  e_applyEpoch e < e_applyEpoch e' ∧ cfg_Enabled (e_cfg e') = true ∧ heap_ok (core e') ∧
  (e_state e' = stateServing → ∀ p', e_snap e' = Some p' → view_ok pg_objectid (mkSystem d e' (pd ++ pd') bg ld h ever) (vp_view p')).
Proof.
  intros HI Hrest Hroom. destruct HI as [Hf Hen Hrec Hheap Hview _ _]. simpl in *. unfold Engine_Apply.
  assert (∀ e1 next ep, core e1 = mkCore (e_cfg e) (e_snap e) stateFallback ep next (co_tasks (core e)) → e_next e ≤ next → e_applyEpoch e < ep →
    e_applyEpoch e < e_applyEpoch e1 ∧ cfg_Enabled (e_cfg e1) = true ∧ heap_ok (core e1) ∧ (e_state e1 = stateServing → ∀ p', e_snap e1 = Some p' →
      view_ok pg_objectid (mkSystem d e1 (pd ++ pd') bg ld h ever) (vp_view p'))) as Hfall.
  { intros e1 next ep E Hn He. pose proof (heap_next _ next Hheap Hn) as Hh. rewrite E. unfold core in E. injection E as E1 E2 E3 E4 E5 E6.
    rewrite E1, E3, E4. split_and!; [done|done|exact Hh|done]. }
  assert (u64 (e_applyEpoch e + 1) = e_applyEpoch e + 1) as Hu by (apply u64_small; unfold epoch_room in Hroom; lia).
  destruct (account_write now e w) as [[e1 w1]|] eqn:Ea.
  2: { eapply Hfall; [unfold fallBackOnApplyPanic; by rewrite core_enterFallback|done|]. simpl. lia. }
  apply core_account_write in Ea as [Ec Ew]. rewrite Hu in Ec.
  assert (e_cfg e1 = e_cfg e ∧ e_snap e1 = e_snap e ∧ e_state e1 = e_state e ∧ e_applyEpoch e1 = e_applyEpoch e + 1 ∧ e_next e1 = e_next e ∧
    co_tasks (core e1) = co_tasks (core e)) as (C1 & C2 & C3 & C4 & C5 & C6) by (unfold core in Ec; injection Ec; auto 10).
  assert (heap_ok (core e1)) as Hheap1 by (rewrite Ec; exact Hheap).
  assert (core (enterFallback e1) = mkCore (e_cfg e) (e_snap e) stateFallback (e_applyEpoch e + 1) (e_next e) (co_tasks (core e))) as Hef
    by (by rewrite core_enterFallback, C1, C2, C4, C5, C6).
  destruct w1 as [s1|]; [destruct w as [s|]; [|done]|].
  2: { unfold apply_changes. rewrite C1, Hen. simpl. eapply Hfall; [exact Hef|done|lia]. }
  assert (ws_changes s1 = ws_changes s) as Es by (simpl in Ew; congruence).
  destruct (HasFallback (ws_changes s)).1 eqn:Eh.
  { unfold apply_changes. rewrite C1, Hen, Es, Eh. simpl. eapply Hfall; [exact Hef|done|lia]. }
  destruct (ChangeSet_Empty (ws_changes s)) eqn:Ee.
  { unfold apply_changes. rewrite C1, Hen, Es, Eh, Ee. simpl. rewrite C1, C3, C4. split_and!; [lia|done|done|].
    intros Hst p Hp. rewrite C2 in Hp. destruct (Hview Hst p Hp) as (L & Ds & HR & Hrows & Hnm & HL). exists L, Ds. simpl in *.
    split_and!; [done|by eapply rows_empty|done|done]. }
  destruct (decide (e_state e = stateServing)) as [Hst|Hst].
  2: { unfold apply_changes. rewrite C1, C3, Hen, Es, Eh, Ee, bool_decide_false by done. simpl.
       pose proof (core_startFallbackRebuild e1) as Hsf. pose proof Hsf as Hsf'. rewrite Ec in Hsf'. unfold core in Hsf'. injection Hsf' as D1 D2 D3 D4 D5 D6.
       rewrite Hsf, D1, D3, D4. split_and!; [lia|done|done|done]. }
  destruct (e_snap e) as [p|] eqn:Ep.
  2: { unfold apply_changes. rewrite C1, C2, C3, Hen, Es, Eh, Ee, Hst. simpl. rewrite C1, C2, C4. split_and!; [lia|done|done|done]. }
  destruct (Hview Hst p eq_refl) as (L & Ds & HR & Hrows & Hnm & HL). simpl in Hrows, Hnm, HL.
  assert (∀ id, id ∈ NodeIDs (ws_changes s) → id ∈ ever) as Hrec' by (destruct (Hrec (Some s)) as [?|?]; [set_solver|done..]).
  destruct (apply_changes_ok pg_objectid answers defaultGraph e1 p L Ds HR d (λ _, True) s1 ever Hrest (df_ok _ _ _ Hf) Hnm Hpg) as [[_ (next & Hn & Hc)]|Hpub];
    try done; rewrite ?Es; try done; try congruence.
  - apply (df_json _ _ _ Hf).
  - apply (df_room _ _ _ Hf).
  - by eapply numbered_layers.
  - apply (df_ever _ _ _ Hf).
  - by eapply same_edges_hist.
  - eapply Hfall; [rewrite Hc, C1, C4, C6; reflexivity|lia|lia].
  - destruct Hpub as (seg & D & p' & Ds' & HD & HP). rewrite Es in HD.
    destruct (pb_core _ _ _ _ _ _ _ _ _ HP) as (P1 & P2 & P3). rewrite P1, P3, C1, C4. split_and!; [lia|done|by eapply heap_published|].
    intros _ p2 Hp2. rewrite (pb_snap _ _ _ _ _ _ _ _ _ HP) in Hp2. injection Hp2 as <-. by eapply view_published.
Qed.
End outcome.

(** ** A compaction *)

Lemma foldl_delta_over X Ts : foldl delta_over X Ts = delta_over X (delta_all Ts).
Proof.
  induction Ts as [|T Ts IH] using rev_ind; [destruct X; unfold delta_over; simpl; by rewrite !(left_id ∅ _)|].
  rewrite foldl_app, IH, delta_all_app. simpl. unfold delta_over. simpl. by rewrite !(assoc_L (∪)).
Qed.
Lemma delta_all_split Ds Ts : delta_all (Ds ++ Ts) = delta_over (delta_all Ds) (delta_all Ts).
Proof. by rewrite delta_all_app, foldl_delta_over. Qed.

Lemma layers_sub `{GoStd} `{JsonStd} d ever L Ds Ds' : layers_ok d ever L Ds → (∀ D, D ∈ Ds' → D ∈ Ds) → layers_ok d ever L Ds'.
Proof.
  intros [Hb Ha Hd Hdec Hks] Hsub. split; [done| | |done|by auto].
  - intros D id st HD%Hsub. by apply Ha. - intros D id HD%Hsub. by apply Hd.
Qed.

Lemma layers_front `{GoStd} `{JsonStd} d ever L Ds Ts : layers_ok d ever L (Ds ++ Ts) → layers_ok d ever L Ds.
Proof. intros HL. eapply layers_sub; [exact HL|]. intros D HD. apply elem_of_app. by left. Qed.

Section compact.
Context `{GoStd} `{JsonStd}.
Context (pg_objectid : bytes → option string).
Context (d : database) (h : gmap N edge_state) (ever : gset N) (pending : list commit) (Hf : database_fine d h ever).
Context (base : Snapshot) (caps : list Segment) (tail : list (ref Segment)) (L : layout) (Cs Ts : list delta).
Hypothesis HR : View_rep (mkView base (caps ++ tail.*2)) L (Cs ++ Ts).
Hypothesis HFc : Forall2 Segment_rep caps Cs.
Hypothesis HFt : Forall2 Segment_rep tail.*2 Ts.
Hypothesis HL : layers_ok d ever L (Cs ++ Ts).
Hypothesis Hnames : table_true d (Kinds base).
Hypothesis Hrows : rows_ok pg_objectid d pending h (view_graph L (Cs ++ Ts)).
Hypothesis Hfits : fold_fits base caps.

Lemma captured_rep : View_rep (mkView base caps) L Cs.
Proof.
  apply (view_room _ _ _ ever); [apply HR|done|apply HR| |pose proof (df_room _ _ _ Hf); lia].
  apply numbered_layers with d. by eapply layers_front.
Qed.

Context (folded : Snapshot) (pend : option Segment) (L' : layout) (Ps : list delta).
Hypothesis HR' : View_rep (mkView folded (opt_list pend)) L' Ps.
Hypothesis Hnodes : g_nodes (view_graph L' Ps) = g_nodes (view_graph L Cs).
Hypothesis Hedges : ∀ e x, g_edges (view_graph L' Ps) !! e = Some x ↔ g_edges (view_graph L Cs) !! e = Some x ∧ ¬ gone Cs x.1.1 ∧ ¬ gone Cs x.1.2.
Hypothesis Htable : NewKindTable (kind_pairs (Kinds base) (d_kinds (delta_all Cs))) = Some (Kinds folded).
Hypothesis Hpn : d_nodes (delta_all Ps) = ∅.
Hypothesis Hpk : d_kinds (delta_all Ps) = ∅.

Lemma split_graph L0 Ds0 : view_graph L0 (Ds0 ++ Ts) = apply_delta (view_graph L0 Ds0) (delta_all Ts).
Proof. unfold view_graph. rewrite foldl_app. apply apply_delta_all. Qed.

Lemma folded_base id : g_nodes (base_graph L') !! id = g_nodes (view_graph L Cs) !! id.
Proof. rewrite <- Hnodes, view_graph_all. simpl. by rewrite over_lookup, Hpn, lookup_empty. Qed.

(** A row the fold dropped is gone from the database. *)
Lemma carried_edge e : g_edges (view_graph L' (Ps ++ Ts)) !! e = g_edges (view_graph L (Cs ++ Ts)) !! e ∨
  g_edges (view_graph L' (Ps ++ Ts)) !! e = None ∧ db_edge d !! e = None.
Proof.
  pose proof (ro_hist _ _ _ _ _ Hrows) as Hh. rewrite !split_graph in *. simpl in *. rewrite !over_lookup. destruct (d_edges (delta_all Ts) !! e) as [o|] eqn:Eo; [by left|].
  destruct (g_edges (view_graph L' Ps) !! e) as [x|] eqn:Ex; [left; by apply Hedges in Ex as [-> _]|].
  destruct (g_edges (view_graph L Cs) !! e) as [x|] eqn:Ec; [right|by left]. split; [done|].
  destruct (db_edge d !! e) as [y|] eqn:Ey; [exfalso|done].
  assert (h !! e = Some x) as Hx by (eapply map_subseteq_spec; [exact Hh|]; by rewrite over_lookup, Eo).
  assert (h !! e = Some y) as Hy by (eapply map_subseteq_spec; [apply (df_hist _ _ _ Hf)|done]).
  assert (y = x) as -> by congruence. destruct x as [[s t] k]. destruct (dbo_ends _ (df_ok _ _ _ Hf) _ _ _ _ Ey) as [Hs Ht].
  assert (∀ id, gone Cs id → db_node d !! id = None) as Hgone.
  { intros id Hg. apply delta_all_node in Hg as (D & HD & Hg). by destruct (la_dead _ _ _ _ HL D id) as [_ ?]; [set_solver|..]. }
  assert (g_edges (view_graph L' Ps) !! e = Some (s, t, k)); [|congruence]. apply Hedges. split; [done|]. simpl.
  split; intros Hg%Hgone; rewrite Hg in *; by apply is_Some_None in Hs || apply is_Some_None in Ht.
Qed.

Lemma rows_compact : rows_ok pg_objectid d pending h (view_graph L' (Ps ++ Ts)).
Proof.
  assert (∀ id, g_nodes (view_graph L' (Ps ++ Ts)) !! id = g_nodes (view_graph L (Cs ++ Ts)) !! id) as Hn.
  { intros id. rewrite !split_graph. simpl. by rewrite Hnodes. }
  split.
  - intros id. rewrite Hn. apply (ro_node _ _ _ _ _ Hrows).
  - intros e. destruct (carried_edge e) as [->|[-> ->]]; [apply (ro_edge _ _ _ _ _ Hrows)|by left].
  - apply map_subseteq_spec. intros e x Hx. destruct (carried_edge e) as [E|[E _]]; [|congruence].
    eapply map_subseteq_spec; [apply (ro_hist _ _ _ _ _ Hrows)|congruence].
  - intros id st k. rewrite Hn. apply (ro_kinds _ _ _ _ _ Hrows).
Qed.

Lemma compact_numbers id : id ∈ lo_ids L' ∨ is_added L' (delta_all (Ps ++ Ts)) id → id ∈ ever.
Proof.
  intros [Hid|[[st Hst] _]].
  - apply elem_of_idx in Hid as [i Hi]. destruct (base_node _ _ _ HR' i id Hi) as (ks & bag & _ & _ & Hb). rewrite folded_base in Hb.
    eapply (graph_ids d ever L Cs id); [by eapply layers_front|by eexists].
  - rewrite delta_all_split in Hst. simpl in Hst. rewrite Hpn, (right_id ∅ _) in Hst.
    apply delta_all_node in Hst as (D & HD & Hst). destruct (la_alive _ _ _ _ HL D id st); [set_solver|done|done].
Qed.

Lemma layers_compact Ds : (∀ D, D ∈ Ds → D = delta_all (Ps ++ Ts)) → layers_ok d ever L' Ds.
Proof.
  intros HDs. pose proof (layers_front _ _ _ _ _ HL) as HLc.
  assert (∀ D id o, D ∈ Ds → d_nodes D !! id = Some o → ∃ D', D' ∈ Cs ++ Ts ∧ d_nodes D' !! id = Some o) as Hin.
  { intros D id o HD%HDs Hst. subst D. rewrite delta_all_split in Hst. simpl in Hst. rewrite Hpn, (right_id ∅ _) in Hst.
    apply delta_all_node in Hst as (D & ? & ?). exists D. set_solver. }
  split.
  - intros id Hid. apply compact_numbers. by left.
  - intros D id st HD Hst. destruct (Hin D id _ HD Hst) as (D' & ? & ?). by apply (la_alive _ _ _ _ HL D').
  - intros D id HD Hst. destruct (Hin D id _ HD Hst) as (D' & ? & ?). by apply (la_dead _ _ _ _ HL D').
  - intros id st. rewrite folded_base. by apply (graph_decodable d ever L Cs).
  - intros D HD%HDs. subst D. rewrite delta_all_split. simpl. rewrite Hpk, (right_id ∅ _). apply delta_all_kinds. intros D HD. apply (la_kinds _ _ _ _ HL). set_solver.
Qed.

Lemma compact_table : table_true d (Kinds folded).
Proof.
  eapply table_of_pairs; [exact Htable|]. apply map_subseteq_spec. intros k name. rewrite kind_pairs_lookup.
  destruct (d_kinds (delta_all Cs) !! k) as [nm|] eqn:Ek; [|apply Hnames]. intros [= <-]. eapply map_subseteq_spec; [|exact Ek].
  apply delta_all_kinds. intros D HD. apply (la_kinds _ _ _ _ HL). set_solver.
Qed.

(** What the view shows after a fold, beside what it showed before. *)
Definition shows_same (G G' : graph) : Prop :=
  g_nodes G' = g_nodes G ∧ ∀ e, g_edges G' !! e = g_edges G !! e ∨ (g_edges G' !! e = None ∧ db_edge d !! e = None).

Lemma view_compacted s : sy_db s = d → sy_pending s = pending → sy_hist s = h → sy_ever s = ever →
  let v := mkView folded (opt_list (carriedSegment pend tail)) in
  view_ok pg_objectid s v ∧ (Snapshot_Warm folded = Some () ∧ View_Warm v = Some ()) ∧
  ∃ Ds, View_rep v L' Ds ∧ shows_same (view_graph L (Cs ++ Ts)) (view_graph L' Ds).
Proof.
  intros Es1 Es2 Es3 Es4. destruct (carried_view folded pend tail L' Ps Ts ever HR' HFt) as (Ds & HRn & HD & HG & Hshape);
    [apply compact_numbers|pose proof (df_room _ _ _ Hf); lia|].
  assert (∀ D, D ∈ Ds → D = delta_all (Ps ++ Ts)) as HDs.
  { destruct Hshape as [->| ->]; [by intros D ?%not_elem_of_nil|by intros D ?%list_elem_of_singleton]. }
  assert (view_graph L' Ds = view_graph L' (Ps ++ Ts)) as HG' by (rewrite HG; unfold view_graph; by rewrite <- foldl_app).
  pose proof (layers_compact Ds HDs) as HLn. split_and!.
  - exists L', Ds. rewrite Es1, Es2, Es3, Es4. split_and!; [done| |split; [apply compact_table|]|done].
    + rewrite HG'. apply rows_compact.
    + apply delta_all_kinds, HLn.
  - exact (warm_base _ _ _ HRn).
  - apply (warm_view _ _ _ HRn). eapply N.le_lt_trans; [eapply (view_room_count _ _ _ ever HRn)|apply (df_room _ _ _ Hf)].
    intros id. rewrite HD. apply compact_numbers.
  - exists Ds. split; [done|]. rewrite HG'. split; [|apply carried_edge]. apply map_eq. intros id. rewrite !split_graph. simpl. by rewrite Hnodes.
Qed.
End compact.

(** The engine after a step that keeps the epoch. *)
Record keeps `{GoStd} `{JsonStd} (pg_objectid : bytes → option string) (s : system) (e' : Engine) : Prop := {
  kp_epoch : e_applyEpoch e' = e_applyEpoch (sy_engine s);
  kp_cfg : cfg_Enabled (e_cfg e') = true;
  kp_heap : heap_ok (core e');
  kp_view : e_state e' = stateServing → ∀ p, e_snap e' = Some p → view_ok pg_objectid s (vp_view p);
}.

Section engine_compact.
Context `{GoStd} `{JsonStd}.
Context (pg_objectid : bytes → option string).
Context (s : system) (HI : sys_inv pg_objectid s).
Let e := sy_engine s.

Lemma keeps_same e' : core e' = core e → keeps pg_objectid s e'.
Proof.
  intros E. pose proof (si_heap _ _ HI) as Hh. fold e in Hh. rewrite <- E in Hh. unfold core in E. injection E as E1 E2 E3 E4 E5 E6.
  split; [done|rewrite E1; apply HI|done|]. rewrite E2, E3. apply HI.
Qed.
Lemma keeps_fallback e' next : core e' = mkCore (e_cfg e) (e_snap e) stateFallback (e_applyEpoch e) next (co_tasks (core e)) → e_next e ≤ next →
  keeps pg_objectid s e'.
Proof.
  intros E Hn. pose proof (heap_next _ next (si_heap _ _ HI) Hn) as Hh. split; [| |rewrite E; exact Hh|]; unfold core in E; injection E as E1 E2 E3 E4 E5 E6.
  - done. - rewrite E1. apply HI. - rewrite E3. done.
Qed.
Lemma keeps_panic : keeps pg_objectid s (backgroundPanicked e).
Proof. unfold backgroundPanicked. eapply keeps_fallback; [apply core_enterFallback|done]. Qed.

(** The heap with a new base and perhaps a new segment. *)
Lemma heap_adopt folded (new : option Segment) e' : e_snap e' = Some (mkViewPtr (e_next e, folded) (option_list ((e_next e + 1,.) <$> new))) →
  co_tasks (core e') = co_tasks (core e) → e_next e' = e_next e + 1 + (match new with Some _ => 1 | None => 0 end) → heap_ok (core e').
Proof.
  intros Es Et En. pose proof (si_heap _ _ HI) as [Hb Hsg]. fold e in Hb, Hsg. unfold heap_ok, base_refs, seg_refs in *.
  rewrite Et. change (co_next (core e')) with (e_next e'). rewrite En. change (co_snap (core e')) with (e_snap e'). rewrite Es. simpl.
  change (co_next (core e)) with (e_next e) in *. split.
  - eapply consistent_sub; [eapply (consistent_add _ folded); [exact Hb|]| |]; [|destruct new; lia|intros r; exact id].
    intros r [->|Hr]%elem_of_cons; [by right|left]. apply elem_of_app. by right.
  - destruct new as [seg|]; simpl.
    + eapply (consistent_add _ seg); [eapply consistent_sub; [exact Hsg| |intros r; exact id]; lia|].
      intros r [->|Hr]%elem_of_cons; [by right|left]. apply elem_of_app. by right.
    + eapply consistent_sub; [exact Hsg|lia|]. intros r Hr. apply elem_of_app. by right.
Qed.

Context (base : ref Snapshot) (segs : list (ref Segment)) (Htask : (base, segs) ∈ compactions (l_spawned (e_loops e))).
Hypothesis Hfits : fold_fits base.2 segs.*2.

(** What was captured is still there, if the addresses say so. *)
Lemma captured_same p tail : e_snap e = Some p → (vp_base p).1 = base.1 → segmentsAfter (vp_segments p) segs = Some tail →
  vp_base p = base ∧ vp_segments p = segs ++ tail.
Proof.
  intros Es Eb Hs. pose proof (si_heap _ _ HI) as [[_ Hb] [_ Hsg]]. fold e in Hb, Hsg. unfold base_refs, seg_refs in *.
  change (co_snap (core e)) with (e_snap e) in *. change (co_tasks (core e)) with (compactions (l_spawned (e_loops e))) in *. rewrite Es in *. simpl in *. split.
  - apply Hb; [left| |done]. right. apply list_elem_of_fmap. by exists (base, segs).
  - apply segmentsAfter_spec; [done|]. intros x y Hx Hy. apply Hsg; [apply elem_of_app; by left|]. apply elem_of_app. right.
    apply list_elem_of_In, in_concat. exists segs. split; [|by apply list_elem_of_In]. apply list_elem_of_In, list_elem_of_fmap. by exists (base, segs).
Qed.

Lemma adopt_view folded pend p tail : FoldWithPendingEdges base.2 segs.*2 = Some (inl (folded, pend)) →
  e_state e = stateServing → e_snap e = Some p → (vp_base p).1 = base.1 → segmentsAfter (vp_segments p) segs = Some tail →
  let v := mkView folded (opt_list (carriedSegment pend tail)) in
  view_ok pg_objectid s v ∧ (Snapshot_Warm folded = Some () ∧ View_Warm v = Some ()) ∧
  ∃ L Ds L' Ds', View_rep (vp_view p) L Ds ∧ View_rep v L' Ds' ∧ shows_same (sy_db s) (view_graph L Ds) (view_graph L' Ds').
Proof.
  intros HF Hst Es Eb Et. destruct (captured_same p tail Es Eb Et) as [Ebase Esegs].
  destruct (si_view _ _ HI Hst p Es) as (L & Ds & HR & Hrows & [Hnm _] & HL). pose proof (si_fine _ _ HI) as Hf. pose proof HR as HR0.
  unfold vp_view in HR. rewrite Ebase, Esegs, fmap_app in HR. pose proof (vr_segs _ _ _ HR) as HF2. simpl in HF2.
  apply Forall2_app_inv_l in HF2 as (Cs & Ts & HFc & HFt & ->). simpl in Hnm. rewrite Ebase in Hnm.
  pose proof (captured_rep _ _ _ Hf _ _ _ _ _ _ HR HFc HL) as HRc. destruct (Hfits L Cs HRc) as [Hgf Hsz].
  destruct (FoldWithPendingEdges_graph base.2 segs.*2 L Cs HRc Hgf Hsz) as (r & Er & Hr).
  { intros id ks bag Hg. apply (graph_decodable (sy_db s) (sy_ever s) L Cs id (ks, bag)); [|done]. by eapply layers_front. }
  rewrite HF in Er. injection Er as <-. destruct Hr as (L' & Ps & HR' & Hn & He & _ & _ & _ & _ & Htab & Hpn & Hpk).
  assert (let v := mkView folded (opt_list (carriedSegment pend tail)) in
    view_ok pg_objectid s v ∧ (Snapshot_Warm folded = Some () ∧ View_Warm v = Some ()) ∧
    ∃ Ds, View_rep v L' Ds ∧ shows_same (sy_db s) (view_graph L (Cs ++ Ts)) (view_graph L' Ds)) as (Hok & Hwarm & Ds & HRn & Hsh).
  { eapply (view_compacted pg_objectid (sy_db s) (sy_hist s) (sy_ever s)); eauto. intros e0 x. rewrite He. apply map_lookup_filter_Some. }
  split_and!; [done|apply Hwarm|apply Hwarm|]. by exists L, (Cs ++ Ts), L', Ds.
Qed.

(** An adoption: not this fold, or this view. *)
Lemma adopt_cases folded pend : FoldWithPendingEdges base.2 segs.*2 = Some (inl (folded, pend)) →
  ∃ e' adopted, adoptCompaction e base segs folded pend = Some (e', adopted) ∧ e_state e' = e_state e ∧ keeps pg_objectid s e' ∧
    if (adopted : bool) then ∃ p p' L Ds L' Ds', e_snap e = Some p ∧ e_snap e' = Some p' ∧ View_rep (vp_view p) L Ds ∧ View_rep (vp_view p') L' Ds' ∧
      shows_same (sy_db s) (view_graph L Ds) (view_graph L' Ds') ∧ (vp_base p').2 = folded ∧ len (vp_segments p') ≤ 1
    else e' = e.
Proof.
  intros HF. unfold adoptCompaction. assert (keeps pg_objectid s e) as Hk by (by apply keeps_same).
  destruct (e_snap e) as [p|] eqn:Es; [|by eexists _, false].
  destruct (N.eqb_spec (vp_base p).1 base.1) as [Eb|]; simpl; [|by eexists _, false].
  destruct (decide (e_state e = stateServing)) as [Hst|Hst]; [rewrite bool_decide_true by done|rewrite bool_decide_false by done]; simpl; [|by eexists _, false].
  destruct (segmentsAfter (vp_segments p) segs) as [tail|] eqn:Et; [|by eexists _, false].
  destruct (adopt_view folded pend p tail HF Hst Es Eb Et) as (Hok & [W1 W2] & L & Ds & L' & Ds' & HR & HR' & Hsh).
  destruct (carriedSegment pend tail) as [seg|] eqn:Ec; cbn [allocate vp_view vp_base vp_segments]; unfold vp_view; simpl in *; rewrite W1; cbn [mbind option_bind];
    try match goal with |- context [View_Warm ?v] => replace (View_Warm v) with (Some ()) by (symmetry; exact W2) end;
    cbn [mbind option_bind]; eexists _, true; (split; [reflexivity|]); (split; [done|]); (split; [split; [done|apply HI| |by intros _ p' [= <-]]|]).
  - by apply (heap_adopt folded (Some seg)).
  - by exists p, (mkViewPtr (e_next e, folded) [(e_next e + 1, seg)]), L, Ds, L', Ds'.
  - apply (heap_adopt folded None); [done..|simpl; lia].
  - by exists p, (mkViewPtr (e_next e, folded) []), L, Ds, L', Ds'.
Qed.

Lemma compact_keeps stopped stopped' : keeps pg_objectid s (runCompaction stopped stopped' e base segs).
Proof.
  unfold runCompaction, foldAndAdoptCompaction.
  assert (∀ e', keeps pg_objectid s e' → keeps pg_objectid s (set_compacting e' false)) as Hset by (by intros e' []).
  destruct stopped; [by apply Hset, keeps_same|]. destruct (FoldWithPendingEdges base.2 segs.*2) as [[[folded pend]|err]|] eqn:EF;
    [|by apply Hset, keeps_same|apply Hset, keeps_panic].
  destruct stopped'; [by apply Hset, keeps_same|].
  destruct (adopt_cases folded pend EF) as (e' & adopted & -> & _ & Hk & _). destruct adopted; by apply Hset.
Qed.
End engine_compact.

(** ** A rebuild *)

Section rebuild.
Context `{GoStd} `{JsonStd} `{!JsonLaws}.
Context (pg_objectid : bytes → option string).

(** A snapshot of the database is a view of it. *)
Lemma loaded_ok s a defaultGraph snap w : database_fine (sy_db s) (sy_hist s) (sy_ever s) → answers_of (sy_db s) a → load_fits (sy_db s) →
  loadSnapshot defaultGraph true true a = Some (inl (snap, w)) → view_ok pg_objectid s (NewView snap).
Proof.
  intros Hf Ha [Hfits Hsz] Hl. destruct defaultGraph as [g|]; [|done].
  destruct (loadSnapshot_ok (sy_db s) a g Ha (df_ok _ _ _ Hf) (df_json _ _ _ Hf) Hfits Hsz true true) as (r & Er & Hr).
  rewrite Hl in Er. injection Er as <-. destruct Hr as (L & HR & Hg & Ht & _). exists L, [].
  assert (view_graph L [] = db_graph (sy_db s)) as HG by (unfold view_graph; exact Hg). rewrite HG. split_and!; [done| | |].
  - split; [by left|by left|apply (df_hist _ _ _ Hf)|]. intros id st k. simpl. rewrite lookup_omap.
    destruct (db_node (sy_db s) !! id) as [n|] eqn:En; [|done]. simpl. unfold db_state. destruct (json_bag _); [|done]. intros [= <-]. by eapply (df_kinds _ _ _ Hf).
  - split; [|apply map_empty_subseteq]. by eapply table_of_pairs.
  - split; try by (intros D; intros; by (exfalso; eapply not_elem_of_nil)).
    + intros id Hid. apply (df_ever _ _ _ Hf), (db_graph_node _ _ (df_json _ _ _ Hf)). rewrite <- Hg.
      apply elem_of_idx in Hid as [i Hi]. destruct (base_node _ _ _ HR i id Hi) as (ks & bag & _ & _ & ->). by eexists.
    + intros id st. rewrite Hg. by apply db_graph_decodable.
Qed.

Lemma rebuild_end_keeps s epoch settled snap loaded : sys_inv pg_objectid s → (epoch, settled, snap, loaded) ∈ sy_loaded s →
  keeps pg_objectid s (rebuild_end (sy_engine s) epoch settled (Some (snap, Snapshot_ApproxBytes snap, loaded_counter loaded))).1.
Proof.
  intros HI Hin. unfold rebuild_end. destruct (_ && _); [by apply keeps_same|].
  unfold adoptRebuiltViewAndRebase, adoptRebuiltView. destruct (N.eqb_spec (e_applyEpoch (with_budget (sy_engine s) false)) epoch) as [Ee|]; simpl.
  2: { by apply keeps_same. }
  destruct (si_loaded _ _ HI epoch settled snap loaded Hin) as [_ Hok]. specialize (Hok (eq_sym Ee)).
  assert (∀ e', e_snap e' = Some (mkViewPtr (e_next (sy_engine s), snap) []) → e_cfg e' = e_cfg (sy_engine s) →
    e_applyEpoch e' = e_applyEpoch (sy_engine s) → co_tasks (core e') = co_tasks (core (sy_engine s)) → e_next e' = e_next (sy_engine s) + 1 →
    keeps pg_objectid s e') as Hk.
  { intros e' E1 E2 E3 E4 E5. split; [done|rewrite E2; apply HI|apply (heap_adopt pg_objectid s HI snap None); [done..|lia]|].
    intros _ p Hp. rewrite E1 in Hp. by injection Hp as <-. }
  destruct (bool_decide _), (loaded_counter loaded); simpl; by apply Hk.
Qed.
End rebuild.

(** ** The invariant *)

Section invariant.
Context `{GoStd} `{JsonStd} `{!JsonLaws}.
Context (pg_objectid : bytes → option string).
Hypothesis Hpg : ∀ b o, objectIDFromProps b = Some o → pg_objectid b = Some o.

Lemma inv_keeps s e' : sys_inv pg_objectid s → keeps pg_objectid s e' → sys_inv pg_objectid (with_engine s e').
Proof.
  intros HI [K1 K2 K3 K4]. destruct HI as [Hf He Hr Hh Hv Hb Hl]. split; simpl; [done|done|done|done|exact K4| |].
  - intros epoch settled Hin. rewrite K1. by eapply Hb.
  - intros epoch settled snap w Hin. rewrite K1. by apply (Hl epoch settled snap w).
Qed.

Lemma inv_start s : start s → sys_inv pg_objectid s.
Proof.
  intros (d & cfg & ever & Hen & Hf & ->). split; simpl; try done; try (by intros; exfalso; eapply not_elem_of_nil).
  split; (split; [by intros r ?%not_elem_of_nil|by intros r r' ?%not_elem_of_nil]).
Qed.

Lemma view_commit s w d' ever' v : commit_ok pg_objectid (sy_db s) (sy_hist s) (sy_ever s) (sy_pending s) w d' ever' →
  database_fine (sy_db s) (sy_hist s) (sy_ever s) → database_fine d' (db_edge d' ∪ sy_hist s) ever' →
  view_ok pg_objectid s v →
  view_ok pg_objectid (mkSystem d' (sy_engine s) (sy_pending s ++ [w]) (sy_begun s) (sy_loaded s) (db_edge d' ∪ sy_hist s) ever') v.
Proof.
  intros Hc Hf Hf' (L & Ds & HR & Hrows & [Ht Hk] & HL). exists L, Ds. simpl.
  assert (layers_ok d' ever' L Ds) as HL' by (by eapply layers_commit). split_and!; [done|by eapply rows_commit| |done].
  split; [eapply table_true_mono; [apply (ck_kinds _ _ _ _ _ _ _ _ Hc)|done]|]. etrans; [exact Hk|apply (ck_kinds _ _ _ _ _ _ _ _ Hc)].
Qed.

Lemma inv_step s s' : sys_inv pg_objectid s → step pg_objectid s s' → sys_inv pg_objectid s'.
Proof.
  intros HI Hs. destruct Hs as [d e pd bg ld h ev w d' ev' Hc Hf'|s e' E|d e pd pd' w bg ld h ev answers g now Hrest Hroom|d e pd bg ld h ev|
    d e pd bg bg' epoch settled ld h ev a g snap loaded Ha Hfit Hl|d e pd bg ld ld' epoch settled snap loaded h ev|s base segs st st' Htask Hfit|s].
  - pose proof HI as [Hf He Hr Hh Hv Hb Hl]. simpl in *. split; simpl; [done|done| |done| |done|].
    + intros w' [Hw'|Hw'%list_elem_of_singleton]%elem_of_app; [|subst w'; apply (ck_recorded _ _ _ _ _ _ _ _ Hc)].
      destruct (Hr w' Hw') as [Hx|?]; [left|by right]. destruct w'; [|done]. simpl in *. intros id Hid. by apply (ck_ever _ _ _ _ _ _ _ _ Hc), Hx.
    + intros Hst p Hp. eapply (view_commit (mkSystem d e pd bg ld h ev)); [done..|by apply Hv].
    + intros epoch settled snap x Hin. destruct (Hl epoch settled snap x Hin) as [? Hx]. split; [done|]. intros E.
      eapply (view_commit (mkSystem d e pd bg ld h ev)); [done..|by apply Hx].
  - apply inv_keeps; [done|]. by apply keeps_same.
  - destruct (Engine_Apply_cases pg_objectid Hpg answers g now d h ev pd pd' bg ld w e HI Hrest Hroom) as (He & Hen & Hh & Hv).
    destruct HI as [Hf _ Hr _ _ Hb Hl]. simpl in *. split; simpl; [done|done| |done|exact Hv| |].
    + intros w' Hw'. apply Hr. set_solver.
    + intros epoch settled Hin. specialize (Hb epoch settled Hin). lia.
    + intros epoch settled snap x Hin. destruct (Hl epoch settled snap x Hin) as [? _]. split; [lia|]. intros E. lia.
  - simpl. assert (keeps pg_objectid (mkSystem d e pd bg ld h ev) (with_panicked e false)) as Hk by (by apply keeps_same).
    apply (inv_keeps _ _ HI) in Hk. destruct Hk as [Hf He Hr Hh Hv Hb Hl]. split; simpl in *; try done.
    intros ep se [Hin|Hin%list_elem_of_singleton]%elem_of_app; [by eapply Hb|]. by injection Hin as -> ->.
  - destruct HI as [Hf He Hr Hh Hv Hb Hl']. simpl in *. split; simpl; try done.
    + intros ep se Hin. apply (Hb ep se). set_solver.
    + intros ep se sn x [Hin|Hin%list_elem_of_singleton]%elem_of_app; [by apply (Hl' ep se sn x)|]. injection Hin as -> -> -> ->. split; [apply (Hb epoch settled); set_solver|].
      intros _. by eapply (loaded_ok pg_objectid (mkSystem d e pd (bg ++ bg') ld h ev)).
  - assert (keeps pg_objectid (mkSystem d e pd bg (ld ++ (epoch, settled, snap, loaded) :: ld') h ev)
      (rebuild_end e epoch settled (Some (snap, Snapshot_ApproxBytes snap, loaded_counter loaded))).1) as Hk.
    { apply (rebuild_end_keeps pg_objectid (mkSystem d e pd bg _ h ev)); [done|]. simpl. set_solver. }
    apply (inv_keeps _ _ HI) in Hk. destruct Hk as [Hf He Hr Hh Hv Hb Hl]. split; simpl in *; try done.
    intros ep se sn x Hin. apply (Hl ep se sn x). set_solver.
  - apply inv_keeps; [done|]. by apply compact_keeps.
  - apply inv_keeps; [done|]. by apply keeps_panic.
Qed.

Lemma inv_run s0 s : start s0 → rtc (step pg_objectid) s0 s → sys_inv pg_objectid s.
Proof. intros H0' Hr. apply inv_start in H0'. induction Hr; [done|]. apply IHHr. by eapply inv_step. Qed.

(** With no write waiting, the rows are the database's. *)
Lemma rows_settled d h ever G : database_fine d h ever → rows_ok pg_objectid d [] h G → g_nodes G = g_nodes (db_graph d) ∧ visible G = db_edge d.
Proof.
  intros Hf [Hn He Hh _]. assert (g_nodes G = g_nodes (db_graph d)) as HG.
  { apply map_eq. intros id. destruct (Hn id) as [?|(w & Hw & _)]; [done|by apply not_elem_of_nil in Hw]. }
  split; [done|]. rewrite <- (db_graph_visible d (df_json _ _ _ Hf) (df_ok _ _ _ Hf)).
  apply map_eq. intros e. apply option_eq. intros [[s t] k]. unfold visible. rewrite !map_lookup_filter_Some, HG. simpl.
  destruct (He e) as [->|[(Hno & x & Hx & Hd)|(w & Hw & _)]]; [done| |by apply not_elem_of_nil in Hw].
  rewrite Hno, Hx. split; [|by intros []]. intros ([= ->] & Hs & Ht). exfalso.
  rewrite !lookup_omap in *. destruct Hd as [Hd|Hd]; simpl in Hd; rewrite Hd in *; simpl in *; by apply is_Some_None in Hs || apply is_Some_None in Ht.
Qed.
End invariant.
