(* ===== verification/Boot.v ===== *)
(** * Starting from a snapshot file

    Of [internal/engine/boot.go] and [watermark.go], what decides whether the
    snapshot file of an earlier process becomes the first view: the reasons to
    refuse it, the replay of the writes of the boot window on it, and its
    adoption.

    The result: a file that is adopted, after the replay, shows the database,
    although the rows that changed since it was written are known only through
    the counters of the writes that changed them. *)

From S2P Require Import Prelude Bitset Csr Kinds Props Snapshot Builder SnapshotFile Segment ParseProps View ViewAdj ViewKinds EdgeKinds Fold FoldGraph.
From S2P Require Import Ledger ChangeSet Apply Candidates Readback ReadbackRuns ReadbackSpec BootGap Sizes Engine Compact WriteThrough WriteApply.
From S2P Require Import LoadNodes Load Replica ReplicaSteps.
From stdpp Require Import options.
Unset Default Proof Using.
#[local] Open Scope N_scope.

(** ** Definitions *)

(** *** Refusing a file *)

(** [at_] is where PostgreSQL stood when the process started, if it was read. *)
Definition insertedSinceFile (stamp : Stamp) (at_ : option startState) : bool :=
  match at_ with
  | Some a => (at_counter a =? st_Watermark stamp) && (negb (at_nodeSeq a =? st_NodeIDSeq stamp)%Z || negb (at_edgeSeq a =? st_EdgeIDSeq stamp)%Z)
  | None => false
  end.
Definition counterBehindFile (stamp : Stamp) (at_ : option startState) : bool :=
  match at_ with Some a => at_counter a <? st_Watermark stamp | None => false end.

Definition reasonLineageChanged : string := "watermark lineage changed since the file was written".
Definition reasonStartStateUnknown : string := "where PostgreSQL stood when this process started could not be read".
Definition reasonCounterBehindFile : string := "the watermark counter was behind the file's stamp when this process started".
Definition reasonInsertedBehindCounter : string := "rows were inserted since the file was written by a writer that did not advance the watermark".

(** The reason, empty when there is none. *)
Definition fileRefusal (at_ : option startState) (lineage : list N) (stamp : Stamp) (pgLineage : list N) : string :=
  if bool_decide (lineage = zero_lineage) || negb (bool_decide (lineage = pgLineage)) then reasonLineageChanged
  else match at_ with
  | None => reasonStartStateUnknown
  | Some _ =>
      if counterBehindFile stamp at_ then reasonCounterBehindFile
      else if insertedSinceFile stamp at_ then reasonInsertedBehindCounter
      else EmptyString
  end.

(** What the counter and the lineage of the watermark table were, if they could
    be read. *)
Abbreviation pg_watermark := (option (N * list N)) (only parsing).

(** *** Adopting one *)

Inductive adoptAttempt := adoptAttemptAdopted (replayed : N) | adoptAttemptRejected | adoptAttemptNotYetCovered (buffered : N).

(** The segments of a view, at fresh addresses. *)
Definition allocate_all {A} (e : Engine) (xs : list A) : Engine * list (ref A) :=
  foldl (λ '(e, rs) x, let '(e, r) := allocate e x in (e, rs ++ [r])) (e, []) xs.

Section boot.
Context `{GoStd} `{JsonStd}.
Context (pg_objectid : bytes → option string) (answers : nat → option database) (defaultGraph : option Z).

(** The loop over the buffered writes: the view and the number of writes replayed,
    or a rejection. [n] counts the queries. *)
Fixpoint replay (entries : list bootGapEntry) (view : View) (replayed : N) (n : nat) : option (option (View * N)) :=
  match entries with
  | [] => Some (Some (view, replayed))
  | entry :: entries' =>
      match be_cs entry with
      | None => replay entries' view replayed n
      | Some cs =>
          '(n, r) ← readBack pg_objectid answers defaultGraph (Some view) cs n;
          match r with
          | inr _ => Some None
          | inl (rb, cs) =>
              if (HasFallback cs).1 then Some None
              else
                seg ← buildApplySegment view rb;
                match seg with
                | inr _ => Some None
                | inl seg => replay entries' (WithSegment view seg) (replayed + 1) n
                end
          end
      end
  end.

(** The publication of the replayed view. *)
Definition adopt_file (e : Engine) (view : View) (pgSnapshot settledGen : N) : option Engine :=
  let e := set_ledger e (ledger_rebase (t_appliedWatermark (e_trust e)) pgSnapshot) in
  let '(e, base) := allocate e (v_base view) in
  let '(e, segs) := allocate_all e (v_segments view) in
  let p := mkViewPtr base segs in
  let e := with_snap e (Some p) in
  let t := e_trust e in
  let e := set_gens e (t_dirtyGen t) (t_settledDirtyGen t) (maxWatermark (t_resolvedDirtyGen t) settledGen) in
  maintainAfterPublish e p.

Definition adoptSnapshotFileAttempt (e : Engine) (snap : Snapshot) (fileWatermark pgSnapshot settledGen : N) : option (Engine * adoptAttempt) :=
  match e_snap e with
  | Some _ => Some (e, adoptAttemptRejected)
  | None =>
      if negb (bool_decide (e_state e = stateServing)) then Some (e, adoptAttemptRejected)
      else if negb (t_settledDirtyGen (e_trust e) =? settledGen) then Some (e, adoptAttemptRejected)
      else
        let '(peeked, poisoned) := gap_peek (e_bootGap e) in
        if negb (String.eqb poisoned EmptyString) then Some (e, adoptAttemptRejected)
        else match (bootGapCoveredAt fileWatermark pgSnapshot (be_counter <$> peeked)).1 with
        | bootGapContradiction => Some (e, adoptAttemptRejected)
        | bootGapHole => Some (e, adoptAttemptNotYetCovered (len peeked))
        | bootGapCovered =>
            let '(gap, entries, poisoned) := gap_take (e_bootGap e) in
            let e := with_gap e gap in
            if negb (String.eqb poisoned EmptyString) then Some (e, adoptAttemptRejected)
            else
              r ← replay (go_sort (less_key be_counter) entries) (NewView snap) 0 0%nat;
              match r with
              | None => Some (e, adoptAttemptRejected)
              | Some (view, replayed) =>
                  over ← over_memory_limit e view;
                  if (over : bool) then Some (e, adoptAttemptRejected)
                  else
                    _ ← Snapshot_Warm (v_base view);
                    e ← adopt_file e view pgSnapshot settledGen;
                    Some (e, adoptAttemptAdopted replayed)
              end
        end
  end.

(** [adoptSnapshotFileView] before its loop: the counter to cover up to. *)
Definition adopt_begin (at_ : option startState) (snap : Snapshot) (stamp : Stamp) (pg : pg_watermark) : option N :=
  match pg with
  | None => None
  | Some (pgSnapshot, pgLineage) =>
      if String.eqb (fileRefusal at_ (WatermarkLineage snap) stamp pgLineage) EmptyString then Some pgSnapshot else None
  end.

(** Its loop. [rounds] are the engine as each attempt finds it, other steps having
    run in between, and whether the wait after the attempt gives up, for its
    deadline or because the boot is cancelled. *)
Fixpoint adopt_rounds (rounds : list (Engine * bool)) (snap : Snapshot) (fileWatermark pgSnapshot settledGen : N) : option (Engine * option N) :=
  match rounds with
  | [] => None
  | (e, gives_up) :: rounds' =>
      '(e, verdict) ← adoptSnapshotFileAttempt e snap fileWatermark pgSnapshot settledGen;
      match verdict with
      | adoptAttemptAdopted replayed => Some (e, Some replayed)
      | adoptAttemptRejected => Some (e, None)
      | adoptAttemptNotYetCovered _ => if (gives_up : bool) then Some (e, None) else adopt_rounds rounds' snap fileWatermark pgSnapshot settledGen
      end
  end.

(** [tryLoadSnapshotFile] up to the adoption: the snapshot to adopt and its stamp.
    [header] and [file] are what reading the file gave, [pg] what reading the
    watermark gave after the header. *)
Definition snapshot_to_adopt (cfg : Config) (at_ : option startState) (header : option Header) (pg : pg_watermark)
    (file : option (Snapshot * Stamp)) : option (Snapshot * Stamp) :=
  h ← header;
  if match pg with
     | Some (_, pgLineage) => negb (String.eqb (fileRefusal at_ (h_Lineage h) (h_Stamp h) pgLineage) EmptyString)
     | None => false
     end then None
  else
    '(snap, stamp) ← file;
    if (0 <? cfg_MemoryLimit cfg) && (cfg_MemoryLimit cfg <? Snapshot_ApproxBytes snap) then None else Some (snap, stamp).
End boot.

(** ** The replay *)

Section replay_ok.
Context `{GoStd} `{JsonStd} `{!JsonLaws}.
Context (pg_objectid : bytes → option string) (answers : nat → option database) (defaultGraph : option Z).
Hypothesis Hpg : ∀ b o, objectIDFromProps b = Some o → pg_objectid b = Some o.
Context (d : database) (h : gmap N edge_state) (ever : gset N) (Hf : database_fine d h ever).
Hypothesis Hrest : ∀ n d', answers n = Some d' → d' = d.
Context (L : layout).

(** What a replayed view is known to be, with [waiting] still to be replayed. *)
Record replaying (v : View) (Ds : list delta) (waiting : list commit) : Prop := {
  rp_view : View_rep v L Ds;
  rp_rows : rows_ok pg_objectid d waiting h (view_graph L Ds);
  rp_names : names_true d v Ds;
  rp_layers : layers_ok d ever L Ds;
}.

Definition scope_of (cs : ChangeSet) : commit := Some (mkWriteScope cs 0 false false).
Definition scopes (entries : list bootGapEntry) : list commit := omap (λ en, scope_of <$> be_cs en) entries.
(** A buffered write can be read back, and recorded ids there ever were. *)
Definition replayable (en : bootGapEntry) : Prop :=
  ∀ cs, be_cs en = Some cs → (HasFallback cs).1 = false ∧ ∀ id, id ∈ NodeIDs cs → id ∈ ever.

Lemma replay_step v Ds cs waiting n : replaying v Ds (scope_of cs :: waiting) → (HasFallback cs).1 = false → (∀ id, id ∈ NodeIDs cs → id ∈ ever) →
  ∃ n' r, readBack pg_objectid answers defaultGraph (Some v) cs n = Some (n', r) ∧
    match r with
    | inr _ => True
    | inl (rb, _) => ∃ b, buildApplySegment v rb = Some b ∧
        match b with inr _ => True | inl seg => ∃ D, replaying (WithSegment v seg) (Ds ++ [D]) waiting end
    end.
Proof.
  intros [HR Hrows Hn HL] Hfb Hids. pose proof (numbered_layers _ _ _ _ HL) as Hnum. pose proof (df_room _ _ _ Hf) as Hroom.
  assert (same_edges L Ds d) as Hsame by (eapply (same_edges_hist pg_objectid d h ever [] waiting); [done|exact Hrows]).
  destruct (wp_readBack pg_objectid answers defaultGraph v L Ds HR d (λ _, True) cs Hrest (df_ok _ _ _ Hf)
    (names_view_kinds d v L Ds HR Hn) Hpg) with (s := n) as (n' & r & E & Hr); [done..|].
  exists n', r. split; [exact E|]. destruct r as [[rb cs']|err]; [|done]. simpl in Hr.
  destruct (refresh_ok pg_objectid v L Ds HR d cs ever (df_ok _ _ _ Hf) (df_json _ _ _ Hf) ltac:(lia) Hnum (df_ever _ _ _ Hf) Hsame rb cs' Hr)
    as (b & Eb & Hb). exists b. split; [exact Eb|]. destruct b as [seg|err]; [|done]. destruct Hb as (D & _ & HR' & HD). exists D. split.
  - exact HR'.
  - unfold view_graph. rewrite foldl_app. simpl. by apply (rows_apply pg_objectid d h ever [] waiting (mkWriteScope cs 0 false false)).
  - destruct Hn as [Ht Hk]. split; [done|]. unfold delta_all. rewrite foldl_app. simpl.
    apply map_union_least; [apply (rf_kinds _ _ _ _ _ _ HD)|exact Hk].
  - eapply layers_apply with (s := mkWriteScope cs 0 false false); [exact Hf|exact HD|exact HL|exact Hids].
Qed.

Lemma replay_ok entries : (∀ en, en ∈ entries → replayable en) → ∀ v Ds k n, replaying v Ds (scopes entries) →
  ∃ r, replay pg_objectid answers defaultGraph entries v k n = Some r ∧
    match r with None => True | Some (v', _) => v_base v' = v_base v ∧ ∃ Ds', replaying v' Ds' [] end.
Proof.
  induction entries as [|en entries IH]; intros Hen v Ds k n HP; simpl.
  { eexists. split; [done|]. split; [done|]. by exists Ds. }
  assert (∀ en', en' ∈ entries → replayable en') as Hen' by (intros; apply Hen; by right).
  specialize (Hen en ltac:(left)). unfold replayable in Hen. unfold scopes in HP. simpl in HP. destruct (be_cs en) as [cs|] eqn:Ecs; simpl in HP; [|by eapply IH].
  destruct (Hen cs eq_refl) as [Hfb Hids].
  destruct (replay_step v Ds cs (scopes entries) n HP Hfb Hids) as (n' & r & -> & Hr). cbn [mbind option_bind].
  destruct r as [[rb cs']|err]; [|by exists None]. destruct (HasFallback cs').1; [by exists None|].
  destruct Hr as (b & -> & Hb). cbn [mbind option_bind]. destruct b as [seg|err]; [|by exists None]. destruct Hb as (D & HP').
  destruct (IH Hen' (WithSegment v seg) (Ds ++ [D]) (k + 1) n' HP') as (r & Er & Hr). exists r. split; [exact Er|].
  destruct r as [[v' k']|]; [|done]. destruct Hr as [-> ?]. by split.
Qed.
End replay_ok.

(** ** The attempt *)

Lemma allocate_all_spec {A} e (xs : list A) : let '(e', rs) := allocate_all e xs in
  rs.*2 = xs ∧ e_cfg e' = e_cfg e ∧ e_state e' = e_state e ∧ e_snap e' = e_snap e ∧ e_trust e' = e_trust e.
Proof.
  assert (∀ e rs0, let '(e', rs) := foldl (λ '(e, rs) x, let '(e, r) := allocate e x in (e, rs ++ [r])) (e, rs0) xs in
    rs.*2 = rs0.*2 ++ xs ∧ e_cfg e' = e_cfg e ∧ e_state e' = e_state e ∧ e_snap e' = e_snap e ∧ e_trust e' = e_trust e) as Hgen.
  { induction xs as [|x xs IH]; intros e0 rs0; simpl; [by rewrite app_nil_r|].
    pose proof (IH (allocate e0 x).1 (rs0 ++ [(allocate e0 x).2])) as Hx. simpl in Hx. destruct (foldl _ _ xs) as [e' rs].
    rewrite fmap_app, <- (assoc_L (++)) in Hx. exact Hx. }
  exact (Hgen e []).
Qed.

Lemma trust_maintain `{GoStd} e p e' : maintainAfterPublish e p = Some e' → e_trust e' = e_trust e.
Proof.
  unfold maintainAfterPublish. destruct (collapseSegmentStackIfNeeded e p) as [[e2 p2]|] eqn:Ec; [|done]. cbn [mbind option_bind]. intros [= <-].
  assert (e_trust e2 = e_trust e) as <-.
  { unfold collapseSegmentStackIfNeeded in Ec. destruct (_ <=? _); [by injection Ec as <- _|]. cbn [allocate vp_base] in Ec.
    destruct (Snapshot_Warm _); [|done]. cbn [mbind option_bind] in Ec. by injection Ec as <- _. }
  unfold maybeStartCompaction. repeat case_match; done.
Qed.

Section attempt.
Context `{GoStd} `{JsonStd} `{!JsonLaws}.
Context (pg_objectid : bytes → option string) (answers : nat → option database) (defaultGraph : option Z).
Hypothesis Hpg : ∀ b o, objectIDFromProps b = Some o → pg_objectid b = Some o.
Context (d : database) (h : gmap N edge_state) (ever : gset N) (Hf : database_fine d h ever).
Hypothesis Hrest : ∀ n d', answers n = Some d' → d' = d.

(** The write that drew the counter [n], if it is in the buffer, names it. *)
Definition by_counter (b : bootGapBuffer) (n : N) (P : ChangeSet → Prop) : Prop :=
  ∀ en, en ∈ bg_entries b → be_counter en = n → ∃ cs, be_cs en = Some cs ∧ P cs.

(** What the file is to the database: every row that changed since it was
    written, at the counter [F], is named by the write of a counter up to [P]. *)
Record file_shows (snap : Snapshot) (L : layout) (b : bootGapBuffer) (F P : N) : Prop := {
  fs_view : View_rep (NewView snap) L [];
  fs_node : ∀ id, g_nodes (base_graph L) !! id = g_nodes (db_graph d) !! id ∨
    ∃ n, F < n ≤ P ∧ by_counter b n (λ cs, names_node pg_objectid d cs (g_nodes (base_graph L) !! id) id);
  fs_edge : ∀ e, g_edges (base_graph L) !! e = db_edge d !! e ∨
    (db_edge d !! e = None ∧ ∃ x, g_edges (base_graph L) !! e = Some x ∧ dangling d x) ∨
    ∃ n, F < n ≤ P ∧ by_counter b n (λ cs, names_edge d cs h e);
  fs_hist : g_edges (base_graph L) ⊆ h;
  fs_kinds : ∀ id st k, g_nodes (base_graph L) !! id = Some st → k ∈ st.1 → is_Some (db_kind d !! k);
  fs_names : names_true d (NewView snap) [];
  fs_layers : layers_ok d ever L [];
}.

Lemma file_replaying snap L b F P entries : file_shows snap L b F P → entries ≡ₚ bg_entries b →
  (∀ n, F < n ≤ P → n ∈ be_counter <$> bg_entries b) → replaying pg_objectid d h ever L (NewView snap) [] (scopes entries).
Proof.
  intros [HR Hn He Hh Hk Hnm HL] Hp Hcov.
  assert (∀ n Q, F < n ≤ P → by_counter b n Q → ∃ w, w ∈ scopes entries ∧ on_changes w Q) as Hw.
  { intros n Q Hr Hby. apply Hcov in Hr. apply list_elem_of_fmap in Hr as (en & -> & Hen). destruct (Hby en Hen eq_refl) as (cs & Ecs & HQ).
    exists (scope_of cs). split; [|done]. apply list_elem_of_omap. exists en. rewrite Hp. split; [done|]. by rewrite Ecs. }
  split; [done| |done|done]. split; [| |done|done].
  - intros id. destruct (Hn id) as [?|(n & Hr & Hby)]; [by left|right]. destruct (Hw n _ Hr Hby) as (w & ? & ?). exists w. split; [done|by right].
  - intros e. destruct (He e) as [?|[?|(n & Hr & Hby)]]; [by left|by right; left|right; right].
    destruct (Hw n _ Hr Hby) as (w & ? & ?). exists w. split; [done|by right].
Qed.

Lemma adopt_file_ok e view L Ds P settledGen : replaying pg_objectid d h ever L view Ds [] →
  ∃ e' p' Ds', adopt_file e view P settledGen = Some e' ∧ e_snap e' = Some p' ∧ e_state e' = e_state e ∧
    View_rep (vp_view p') L Ds' ∧ len (vp_segments p') ≤ maxSegments ∧
    g_nodes (view_graph L Ds') = g_nodes (db_graph d) ∧ visible (view_graph L Ds') = db_edge d ∧
    t_appliedWatermark (e_trust e') = ledger_rebase (t_appliedWatermark (e_trust e)) P.
Proof.
  intros [HR Hrows _ _]. unfold adopt_file. cbn [allocate]. set (e0 := mkEngine _ _ _ _ _ _ _ _ _ _ _ _).
  pose proof (allocate_all_spec e0 (v_segments view)) as Ha. destruct (allocate_all e0 (v_segments view)) as [e1 segs].
  destruct Ha as (Hsegs & _ & Hst & _ & Htr). set (p := mkViewPtr _ _). set (e2 := set_gens _ _ _ _).
  assert (vp_view p = view) as Hp by (unfold vp_view, p; simpl; rewrite Hsegs; by destruct view). rewrite <- Hp in HR.
  destruct (collapse_ok e2 p L Ds HR) as (e3 & p3 & Ds3 & Ec & HR3 & HD & Hlen & _ & Hcase).
  assert (maintainAfterPublish e2 p = Some (maybeStartCompaction e3 p3)) as Em by (unfold maintainAfterPublish; by rewrite Ec).
  destruct (core_maybeStartCompaction e3 p3) as (M1 & (_ & M2 & _) & _). exists (maybeStartCompaction e3 p3), p3, Ds3. split; [exact Em|].
  apply trust_maintain in Em as Ht. rewrite M1, M2, Ht.
  assert (e_snap e3 = Some p3 ∧ e_state e3 = e_state e2) as [-> ->] by (destruct Hcase as [(-> & -> & _)|(_ & -> & _)]; by split).
  assert (view_graph L Ds3 = view_graph L Ds) as -> by by rewrite !view_graph_all, HD.
  destruct (rows_settled pg_objectid d h ever _ Hf Hrows) as [Hn He].
  assert (e_state e2 = e_state e) as -> by exact Hst.
  split_and!; try done. simpl. by rewrite Htr.
Qed.

Lemma attempt_ok e snap L F P settledGen es : file_shows snap L (e_bootGap e) F P → gap_holds (e_bootGap e) es →
  (∀ c, c ∈ be_counter <$> bg_entries (e_bootGap e) → c < 2 ^ 63) → P < 2 ^ 63 → F < 2 ^ 63 →
  (∀ en cs id, en ∈ bg_entries (e_bootGap e) → be_cs en = Some cs → id ∈ NodeIDs cs → id ∈ ever) →
  ∃ e' verdict, adoptSnapshotFileAttempt pg_objectid answers defaultGraph e snap F P settledGen = Some (e', verdict) ∧
    match verdict with
    | adoptAttemptAdopted _ => e_snap e = None ∧ e_state e' = stateServing ∧
        ∃ p' Ds', e_snap e' = Some p' ∧ View_rep (vp_view p') L Ds' ∧ len (vp_segments p') ≤ maxSegments ∧
          g_nodes (view_graph L Ds') = g_nodes (db_graph d) ∧ visible (view_graph L Ds') = db_edge d ∧
          t_appliedWatermark (e_trust e') = ledger_rebase (t_appliedWatermark (e_trust e)) P
    | _ => core e' = core e
    end.
Proof.
  intros Hfile Hgap H63 HP HF Hids. unfold adoptSnapshotFileAttempt. destruct (e_snap e) as [p|] eqn:Es; [by eexists _, _|].
  destruct (decide (e_state e = stateServing)) as [Hst|Hst]; [rewrite bool_decide_true by done|rewrite bool_decide_false by done]; simpl; [|by eexists _, _].
  destruct (_ =? settledGen); simpl; [|by eexists _, _].
  destruct (String.eqb_spec (bg_poisoned (e_bootGap e)) EmptyString) as [Hq|]; simpl; [|by eexists _, _].
  pose proof (bootGapCoveredAt_spec F P _ H63 HP HF) as Hcov. destruct (bootGapCoveredAt _ _ _).1; [|by eexists _, _..].
  destruct Hcov as [_ Hcov]. destruct (gh_all _ _ Hgap Hq) as [Hent Hun].
  set (entries := go_sort (less_key be_counter) (bg_entries (e_bootGap e))).
  assert (entries ≡ₚ bg_entries (e_bootGap e)) as Hperm by apply go_sort_perm.
  pose proof (file_replaying snap L _ F P entries Hfile Hperm Hcov) as Hrp.
  destruct (replay_ok pg_objectid answers defaultGraph Hpg d h ever Hf Hrest L entries) with (v := NewView snap) (Ds := @nil delta) (k := 0) (n := 0%nat)
    as (r & Er & Hr); [|exact Hrp|].
  { intros en Hen%(elem_of_Permutation_proper _ _ _ Hperm) cs Ecs. split; [|intros id; by eapply Hids].
    rewrite Hent in Hen. apply list_elem_of_omap in Hen as (ev & Hev & Hge). rewrite Forall_forall in Hun. specialize (Hun ev Hev).
    destruct ev as [[s|]|[s|]]; simpl in Hge, Hun; [|done| |done]; (destruct (ws_watermarkBumped s); [|done]); injection Hge as <-; simpl in Ecs; [|done].
    destruct (ChangeSet_Empty (ws_changes s)); [done|]. injection Ecs as <-. destruct (HasFallback (ws_changes s)).1; [|done]. exfalso. apply Hun. by left. }
  rewrite Er. cbn [mbind option_bind]. destruct r as [[view k]|]; [|by eexists _, _]. destruct Hr as [Hbase (Ds & HRp)].
  pose proof (rp_view _ _ _ _ _ _ _ _ HRp) as HRv.
  assert (∃ over, over_memory_limit (with_gap e (mkGapBuffer false [] 0 (bg_poisoned (e_bootGap e)))) view = Some over) as [over ->].
  { unfold over_memory_limit. destruct (0 <? _); [|by eexists]. destruct (View_ApproxBytes_total view L Ds [] HRv) as [n ->]. by eexists. }
  cbn [mbind option_bind]. destruct over; [by eexists _, _|]. rewrite (warm_base _ _ _ HRv). cbn [mbind option_bind].
  destruct (adopt_file_ok (with_gap e (mkGapBuffer false [] 0 (bg_poisoned (e_bootGap e)))) view L Ds P settledGen HRp)
    as (e' & p' & Ds' & -> & E1 & E2 & E3 & E4 & E5 & E6 & E7). cbn [mbind option_bind].
  eexists _, _. split; [done|]. simpl. split; [done|]. split; [by rewrite E2|]. by exists p', Ds'.
Qed.
End attempt.
