(* ===== verification/Traverse.v ===== *)
(** * The path engine

    [internal/engine/traverse/traverse.go] and [bfs.go], the definitions.  The
    engine works against an interface of the view, [TraverseView]: the node
    count, the liveness of a node and its rows of neighbours in both
    directions.  Distances are kept in scratch buffers reused through epochs;
    a query runs one of two strategies over its pairs of end points.

    Effects are explicit: the scratch pool, the memory budget, the path sink
    and the number of times the caller's context was polled are passed along.
    [Ctx] is [None] for a nil context, else what each poll answers. *)

From S2P Require Import Prelude Bitset ViewAdj PathSink.
From stdpp Require Import options.
Unset Default Proof Using.

(** [int8(x)]. *)
Definition i8 (x : Z) : Z := ((x + 2 ^ 7) mod 2 ^ 8 - 2 ^ 7)%Z.
(** [int64(x)]. *)
Definition i64 (x : Z) : Z := ((x + 2 ^ 63) mod 2 ^ 64 - 2 ^ 63)%Z.

Definition MaxDepth : Z := 15.
Definition MaxRepresentableDepth : Z := 127.
Definition PairBudget : Z := 4096.
Definition SideBudget : Z := 16.
Definition cancelCheckInterval : Z := 1024.

(** ** Loops

    [loop_pos p step s] runs at most [p] rounds of [step], which either goes on
    with a state or leaves the loop with a result.  The fuel is binary, so a
    generous bound costs nothing to write down. *)
Fixpoint loop_pos {S R} (p : positive) (step : S → option (S + R)) (s : S) : option (S + R) :=
  match p with
  | xH => step s
  | xO p =>
      r ← loop_pos p step s;
      match r with inl s' => loop_pos p step s' | inr x => Some (inr x) end
  | xI p =>
      r ← step s;
      match r with
      | inl s' =>
          r' ← loop_pos p step s';
          match r' with inl s'' => loop_pos p step s'' | inr x => Some (inr x) end
      | inr x => Some (inr x)
      end
  end.
Definition loop {S R} (fuel : N) (step : S → option (S + R)) (s : S) : option R :=
  match fuel with
  | 0 => None
  | Npos p => r ← loop_pos p step s; match r with inl _ => None | inr x => Some x end
  end.

(** ** Scratch buffers *)

Record scratch := mkScratch { mark : list N; sc_dist : list Z; epoch : N }.

Definition newScratch (n : N) : scratch := mkScratch (mk n 0) (mk n 0%Z) 0.
Definition scratchBytes (n : N) : N := u64 (n * 5).

Definition scratch_reset (s : scratch) : scratch :=
  let e := u32 (epoch s + 1) in
  if e =? 0 then mkScratch (mk (len (mark s)) 0) (sc_dist s) 1
  else mkScratch (mark s) (sc_dist s) e.

(** [Get] takes a buffer of the pool, whichever it holds; one that is too small
    is dropped. *)
Definition getScratch (pool : list scratch) (n : N) : scratch * list scratch :=
  match pool with
  | sc :: pool' => if n <=? len (mark sc) then (sc, pool') else (newScratch n, pool')
  | [] => (newScratch n, [])
  end.
Definition putScratch (pool : list scratch) (sc : scratch) : list scratch := sc :: pool.

(** The outer option is the index panic, the inner one the second result. *)
Definition scratch_get (s : scratch) (v : NodeID) : option (option Z) :=
  m ← idx (mark s) v;
  if negb (m =? epoch s) then Some None else d ← idx (sc_dist s) v; Some (Some d).
Definition scratch_set (s : scratch) (v : NodeID) (d : Z) : option scratch :=
  mk' ← upd (mark s) v (epoch s); ds ← upd (sc_dist s) v d; Some (mkScratch mk' ds (epoch s)).

(** ** The memory budget *)

Record memBudget := mkMemBudget { mb_limit : N; mb_used : N; mb_reserved : N }.

Definition memBudget_over (b : memBudget) (n : N) : bool :=
  (0 <? mb_limit b) && (mb_limit b <? u64 (u64 (mb_reserved b + mb_used b) + n)).
Definition memBudget_add (b : memBudget) (n : N) : memBudget * option goerr :=
  if memBudget_over b n then (b, Some ErrMemoryLimit)
  else (mkMemBudget (mb_limit b) (u64 (mb_used b + n)) (mb_reserved b), None).
Definition memBudget_reserve (b : memBudget) (n : N) : memBudget * bool :=
  if memBudget_over b n then (b, false)
  else (mkMemBudget (mb_limit b) (mb_used b) (u64 (mb_reserved b + n)), true).
Definition memBudget_reset (b : memBudget) : memBudget := mkMemBudget (mb_limit b) 0 (mb_reserved b).

(** ** Cancellation *)

Definition Ctx : Type := option (N → bool).

(** One call of [ctx.Err()]: [polls] counts them. *)
Definition ctx_poll (f : N → bool) (polls : N) : N * option goerr :=
  (polls + 1, if f polls then Some ErrContext else None).

Definition cancelCheck_err (c : Ctx) (polls : N) : N * option goerr :=
  match c with None => (polls, None) | Some f => ctx_poll f polls end.
(** The results: the counter, the polls, the error. *)
Definition cancelCheck_step (c : Ctx) (unchecked : Z) (polls : N) : Z * N * option goerr :=
  match c with
  | None => (unchecked, polls, None)
  | Some f =>
      let u := (unchecked + 1)%Z in
      if (u <? cancelCheckInterval)%Z then (u, polls, None)
      else let '(polls', e) := ctx_poll f polls in (0%Z, polls', e)
  end.

(** ** Modes and limits *)

Inductive Mode := ModeAll | ModeOne | ModeAllPerPair.
#[global] Instance Mode_eq_dec : EqDecision Mode.
Proof. solve_decision. Defined.

Definition shortestLevel_admit (best d : Z) (sink : pathSink) (budget : memBudget)
  : bool * Z * pathSink * memBudget :=
  if (d <? 1)%Z then (false, best, sink, budget)
  else if (best =? 0)%Z || (d <? best)%Z then (true, d, pathSink_reset sink, memBudget_reset budget)
  else ((d =? best)%Z, best, sink, budget).
Definition shortestLevel_final (best : Z) : bool := (best =? 1)%Z.

Definition pathCap (limit have : Z) (oneMore : bool) : Z * bool :=
  if (0 <? limit)%Z && (limit <=? have)%Z then (0%Z, true)
  else
    let cap := limit in
    let cap := if oneMore then
                 let next := (have + 1)%Z in
                 if (cap <=? 0)%Z || (next <? cap)%Z then next else cap
               else cap in
    (cap, false).

(** ** The interface of the view *)

Class TraverseView (V : Type) := {
  tv_NodeCount : V → N;
  tv_Overlay : V → bool;
  tv_Alive : V → NodeID → bool;
  (** the targets of [Out]; it panics on an overlay *)
  tv_Out : V → NodeID → option (list NodeID);
  (** the inner option is the second result, the outer one a panic *)
  tv_OutSlices : V → NodeID → option (option (list NodeID * list KindID));
  tv_InSlices : V → NodeID → option (option (list NodeID * list KindID));
  tv_OutEdges : ∀ {S : Type}, V → NodeID → edge_iter S;
  tv_InEdges : ∀ {S : Type}, V → NodeID → edge_iter S;
}.

Section defs.
Context `{TraverseView V}.

(** ** End points *)

Record Endpoint := mkEndpoint { ep_IDs : option (list NodeID); ep_Bits : option Bitset }.

Definition Unconstrained (e : Endpoint) : bool :=
  match ep_IDs e, ep_Bits e with None, None => true | _, _ => false end.

Definition Endpoint_Count (e : Endpoint) (total : N) : N :=
  match ep_IDs e with
  | Some ids => len ids
  | None => match ep_Bits e with Some b => Bitset_Count b | None => total end
  end.

Definition Endpoint_Iterate {S} (e : Endpoint) (s : V) (fn : NodeID → S → option (S * bool)) (st : S)
  : option S :=
  match ep_IDs e with
  | Some ids => iter_until fn ids st
  | None =>
      match ep_Bits e with
      | Some b => Bitset_Iterate b fn st
      | None =>
          iter_until (λ i st, if tv_Overlay s && negb (tv_Alive s (u32 i)) then Some (st, true)
                              else fn (u32 i) st) (range 0 (tv_NodeCount s)) st
      end
  end.

Definition Endpoint_Has (e : Endpoint) (id : NodeID) : option bool :=
  match ep_IDs e with
  | Some ids =>
      i ← search (len ids) (λ i, x ← idx ids i; Some (id <=? x));
      if i <? len ids then x ← idx ids i; Some (x =? id) else Some false
  | None => match ep_Bits e with Some b => Some (Bitset_Has b id) | None => Some true end
  end.

Definition SelfEndpointConflict (s : V) (roots terminals : Endpoint) : option bool :=
  let total := tv_NodeCount s in
  let '(small, big) := if Endpoint_Count terminals total <? Endpoint_Count roots total
                       then (terminals, roots) else (roots, terminals) in
  Endpoint_Iterate small s (λ id conflict,
    has ← Endpoint_Has big id;
    if negb has then Some (conflict, true)
    else
      hasOut ← (if negb (tv_Overlay s) then ts ← tv_Out s id; Some (0 <? len ts)
                else tv_OutEdges s id (λ _ _, Some (true, false)) false);
      if (hasOut : bool) then Some (true, false) else Some (conflict, true)) false.

(** ** Neighbours *)

Definition cleanAdjacency (s : V) (u : NodeID) (forward : bool)
  : option (option (list NodeID * list KindID)) :=
  if forward then tv_OutSlices s u else tv_InSlices s u.

Definition walkAdjacency {S} (s : V) (u : NodeID) (forward : bool)
    (visit : NodeID → KindID → S → option S) (st : S) : option S :=
  if forward
  then tv_OutEdges s u (λ e st, st' ← visit e.1.1 e.1.2 st; Some (st', true)) st
  else tv_InEdges s u (λ e st, st' ← visit e.1.1 e.1.2 st; Some (st', true)) st.

(** [if ns, ks, ok := cleanAdjacency(...); ok { for i, w := range ns {
    visit(w, ks[i]) } } else { walkAdjacency(...) }]. *)
Definition visitAdjacency {S} (s : V) (u : NodeID) (forward : bool)
    (visit : NodeID → KindID → S → option S) (st : S) : option S :=
  c ← cleanAdjacency s u forward;
  match c with
  | Some (ns, ks) =>
      foldM (λ st i, w ← idx ns i; k ← idx ks i; visit w k st) (range 0 (len ns)) st
  | None => walkAdjacency s u forward visit st
  end.

(** [kinds != nil && !kinds.Has(k)], negated. *)
Definition kindAllowed (kinds : option KindMask) (k : KindID) : option bool :=
  match kinds with None => Some true | Some m => KindMask_Has m k end.

(** ** Breadth-first search *)

(** The part the visitors share: a node not seen yet gets the distance [nd]
    and joins the next frontier.  The boolean tells whether it did. *)
Definition visit_new (kinds : option KindMask) (nd : Z) (w : NodeID) (k : KindID)
    (sc : scratch) (next : list NodeID) : option (scratch * list NodeID * bool) :=
  allowed ← kindAllowed kinds k;
  if negb allowed then Some (sc, next, false)
  else
    seen ← scratch_get sc w;
    match seen with
    | Some _ => Some (sc, next, false)
    | None => sc' ← scratch_set sc w nd; Some (sc', next ++ [w], true)
    end.

Definition bfs_level (s : V) (forward : bool) (kinds : option KindMask) (nd : Z)
    (frontier : list NodeID) (sc : scratch) : option (scratch * list NodeID) :=
  foldM (λ st u, visitAdjacency s u forward (λ w k st,
    '(sc, next, _) ← visit_new kinds nd w k st.1 st.2; Some (sc, next)) st) frontier (sc, []).

Fixpoint bfs_loop (rounds : nat) (s : V) (forward : bool) (kinds : option KindMask) (d : Z)
    (frontier : list NodeID) (deepest : Z) (sc : scratch) : option (scratch * Z) :=
  match rounds with
  | O => Some (sc, deepest)
  | S rounds =>
      if 0 <? len frontier then
        '(sc', next) ← bfs_level s forward kinds (i8 (d + 1)) frontier sc;
        bfs_loop rounds s forward kinds (d + 1)%Z next (if 0 <? len next then (d + 1)%Z else deepest) sc'
      else Some (sc, deepest)
  end.
Definition bfsFrom (s : V) (seed : NodeID) (forward : bool) (kinds : option KindMask)
    (maxDepth : Z) (sc : scratch) : option (scratch * Z) :=
  let sc := scratch_reset sc in
  sc ← scratch_set sc seed 0;
  bfs_loop (Z.to_nat maxDepth) s forward kinds 0 [seed] 0 sc.

(** *** Both ends at once *)

(** A visitor of [pairShortest]: [mine] is this side's buffer, [other] the
    other side's. *)
Definition pair_visit (kinds : option KindMask) (nd : Z) (other : scratch) (w : NodeID) (k : KindID)
    (st : scratch * list NodeID * Z) : option (scratch * list NodeID * Z) :=
  let '(mine, next, D) := st in
  '(mine', next', fresh) ← visit_new kinds nd w k mine next;
  if (fresh : bool) then
    seen ← scratch_get other w;
    match seen with
    | Some db => let cand := (nd + db)%Z in
                 Some (mine', next', if (D <? 0)%Z || (cand <? D)%Z then cand else D)
    | None => Some (mine', next', D)
    end
  else Some (mine', next', D).

Definition pair_level (s : V) (forward : bool) (kinds : option KindMask) (nd : Z) (frontier : list NodeID)
    (other mine : scratch) (D : Z) : option (scratch * list NodeID * Z) :=
  foldM (λ st u, visitAdjacency s u forward (pair_visit kinds nd other) st) frontier (mine, [], D).

(** Every round adds a level and there are never more than [maxDepth], so
    [maxDepth + 1] rounds are enough. *)
Fixpoint pair_loop (fuel : nat) (s : V) (kinds : option KindMask) (maxDepth : Z)
    (frontF frontB : list NodeID) (levelsF levelsB D : Z) (scF scTmp : scratch)
  : option (scratch * scratch * Z) :=
  match fuel with
  | O => Some (scF, scTmp, D)
  | S fuel =>
      if (0 <? len frontF) && (0 <? len frontB) then
        let limit := if (0 <=? D)%Z && (D <? maxDepth)%Z then D else maxDepth in
        if (limit <=? levelsF + levelsB)%Z then Some (scF, scTmp, D)
        else if len frontF <=? len frontB then
          '(scF', next, D') ← pair_level s true kinds (i8 (levelsF + 1)) frontF scTmp scF D;
          pair_loop fuel s kinds maxDepth next frontB (levelsF + 1) levelsB D' scF' scTmp
        else
          '(scTmp', next, D') ← pair_level s false kinds (i8 (levelsB + 1)) frontB scF scTmp D;
          pair_loop fuel s kinds maxDepth frontF next levelsF (levelsB + 1) D' scF scTmp'
      else Some (scF, scTmp, D)
  end.

(** The results: the distance, and the three buffers. *)
Definition pairShortest (s : V) (r t : NodeID) (kinds : option KindMask) (maxDepth : Z)
    (scF scT scTmp : scratch) : option (Z * scratch * scratch * scratch) :=
  if r =? t then Some ((-1)%Z, scF, scT, scTmp)
  else
    let scF := scratch_reset scF in
    let scTmp := scratch_reset scTmp in
    scF ← scratch_set scF r 0;
    scTmp ← scratch_set scTmp t 0;
    '(scF, scTmp, D) ← pair_loop (S (Z.to_nat maxDepth)) s kinds maxDepth [r] [t] 0 0 (-1)%Z scF scTmp;
    if (D <? 0)%Z then Some ((-1)%Z, scF, scT, scTmp)
    else
      '(scF, _) ← bfsFrom s r true kinds D scF;
      '(scT, _) ← bfsFrom s t false kinds D scT;
      Some (D, scF, scT, scTmp).

(** ** Enumerating paths

    A depth-first walk with an explicit stack, here with its top first. *)

Record estate := mkEstate {
  es_stack : list frame;
  es_walk : list NodeID;
  es_walkKinds : list KindID;
  es_sink : pathSink;
  es_budget : memBudget;
}.

(** Taking a frame: the walk is cut back to its depth and extended. *)
Definition enum_pop (cur : frame) (walk : list NodeID) (walkKinds : list KindID)
  : option (list NodeID * list KindID) :=
  let d := f_depth cur in
  w ← slice walk 0 d;
  wk ← (if 0 <? d then ks ← slice walkKinds 0 (d - 1); Some (ks ++ [f_kind cur]) else Some []);
  Some (w ++ [f_node cur], wk).

(** Recording a finished path: [inr] leaves the loop. *)
Definition enum_emit (cap : Z) (reverse : bool) (st : estate)
  : option (estate + (estate * option goerr)) :=
  let '(budget', err) := memBudget_add (es_budget st) (u64 (len (es_walk st) * 12 + 48)) in
  match err with
  | Some e => Some (inr (st, Some e))
  | None =>
      sink' ← pathSink_add (es_sink st) (es_walk st) (es_walkKinds st) reverse;
      let st' := mkEstate (es_stack st) (es_walk st) (es_walkKinds st) sink' budget' in
      if (0 <? cap)%Z && (Z.of_N (sink_n sink') =? cap)%Z then Some (inr (st', None)) else Some (inl st')
  end.

Definition set_stack (st : estate) (stack : list frame) : estate :=
  mkEstate stack (es_walk st) (es_walkKinds st) (es_sink st) (es_budget st).

Definition enum_step (s : V) (distBuf : scratch) (kinds : option KindMask) (cap : Z) (forward : bool)
    (st : estate) : option (estate + (estate * option goerr)) :=
  match es_stack st with
  | [] => Some (inr (st, None))
  | cur :: stack =>
      '(walk, walkKinds) ← enum_pop cur (es_walk st) (es_walkKinds st);
      let st := mkEstate stack walk walkKinds (es_sink st) (es_budget st) in
      let d := f_depth cur in
      let u := f_node cur in
      du ← scratch_get distBuf u;
      match du with
      | None => Some (inl st)
      | Some du =>
          if (du =? 0)%Z then
            if len walk <? 2 then Some (inl st) else enum_emit cap (negb forward) st
          else
            stack' ← visitAdjacency s u forward (λ w k stack,
              allowed ← kindAllowed kinds k;
              if negb allowed then Some stack
              else
                dw ← scratch_get distBuf w;
                match dw with
                | Some dw => if (dw =? i8 (du - 1))%Z then Some (mkFrame w k (u16 (d + 1)) :: stack) else Some stack
                | None => Some stack
                end) stack;
            Some (inl (set_stack st stack'))
      end
  end.

(** The buffers the walk used go back to the sink, whose contents the rest of
    the state already is. *)
Definition enum_finish (r : estate * option goerr) : pathSink * memBudget * option goerr :=
  let '(st, err) := r in
  (set_buffers (es_sink st) (es_stack st) (es_walk st) (es_walkKinds st), es_budget st, err).

Definition enumerate (fuel : N) (s : V) (from : NodeID) (distBuf : scratch) (kinds : option KindMask)
    (cap : Z) (budget : memBudget) (sink : pathSink) (forward : bool)
  : option (pathSink * memBudget * option goerr) :=
  r ← loop fuel (enum_step s distBuf kinds cap forward)
        (mkEstate [mkFrame from 0%Z 0] [] [] sink budget);
  Some (enum_finish r).

Definition pairEnum_step (s : V) (t : NodeID) (D : Z) (kinds : option KindMask) (cap : Z)
    (scF scT : scratch) (st : estate) : option (estate + (estate * option goerr)) :=
  match es_stack st with
  | [] => Some (inr (st, None))
  | cur :: stack =>
      '(walk, walkKinds) ← enum_pop cur (es_walk st) (es_walkKinds st);
      let st := mkEstate stack walk walkKinds (es_sink st) (es_budget st) in
      let d := f_depth cur in
      let u := f_node cur in
      if u =? t then enum_emit cap false st
      else
        du ← scratch_get scF u;
        match du with
        | None => Some (inl st)
        | Some du =>
            stack' ← visitAdjacency s u true (λ w k stack,
              allowed ← kindAllowed kinds k;
              if negb allowed then Some stack
              else
                dw ← scratch_get scF w;
                match dw with
                | Some dw =>
                    if (dw =? i8 (du + 1))%Z then
                      dtw ← scratch_get scT w;
                      match dtw with
                      | Some dtw => if (dtw =? D - dw)%Z then Some (mkFrame w k (u16 (d + 1)) :: stack) else Some stack
                      | None => Some stack
                      end
                    else Some stack
                | None => Some stack
                end) stack;
            Some (inl (set_stack st stack'))
        end
  end.

Definition pairEnumerate (fuel : N) (s : V) (r t : NodeID) (D : Z) (kinds : option KindMask) (cap : Z)
    (budget : memBudget) (scF scT : scratch) (sink : pathSink)
  : option (pathSink * memBudget * option goerr) :=
  res ← loop fuel (pairEnum_step s t D kinds cap scF scT)
          (mkEstate [mkFrame r 0%Z 0] [] [] sink budget);
  Some (enum_finish res).

Definition pairPaths (fuel : N) (s : V) (r t : NodeID) (kinds : option KindMask) (maxDepth cap : Z)
    (budget : memBudget) (scF scT scTmp : scratch) (sink : pathSink)
  : option (scratch * scratch * scratch * pathSink * memBudget * option goerr) :=
  '(D, scF, scT, scTmp) ← pairShortest s r t kinds maxDepth scF scT scTmp;
  if (D <? 0)%Z then Some (scF, scT, scTmp, sink, budget, None)
  else
    '(sink, budget, err) ← pairEnumerate fuel s r t D kinds cap budget scF scT sink;
    Some (scF, scT, scTmp, sink, budget, err).

(** ** Queries *)

Record Query := mkQuery {
  q_Roots : Endpoint;
  q_Terminals : Endpoint;
  q_Kinds : option KindMask;
  q_Mode : Mode;
  q_ExcludeSelf : bool;
  q_MaxDepth : Z;
  q_Limit : Z;
  q_MemoryLimit : N;
  q_Ctx : Ctx;
  q_PairBudget : Z;
  q_SideBudget : Z;
}.

(** What a strategy's loops change. *)
Record qstate := mkQstate {
  qs_sink : pathSink;
  qs_budget : memBudget;
  qs_best : Z;
  qs_unchecked : Z;
  qs_polls : N;
  qs_callErr : option goerr;
  qs_stop : bool;
}.
Definition qs_set_out (st : qstate) (sink : pathSink) (budget : memBudget) (best : Z) : qstate :=
  mkQstate sink budget best (qs_unchecked st) (qs_polls st) (qs_callErr st) (qs_stop st).
Definition qs_fail (st : qstate) (e : goerr) : qstate :=
  mkQstate (qs_sink st) (qs_budget st) (qs_best st) (qs_unchecked st) (qs_polls st) (Some e) true.
Definition qs_set_stop (st : qstate) (stop : bool) : qstate :=
  mkQstate (qs_sink st) (qs_budget st) (qs_best st) (qs_unchecked st) (qs_polls st) (qs_callErr st) stop.
Definition qs_set_polls (st : qstate) (unchecked : Z) (polls : N) : qstate :=
  mkQstate (qs_sink st) (qs_budget st) (qs_best st) unchecked polls (qs_callErr st) (qs_stop st).
Definition qs_init (budget : memBudget) (polls : N) : qstate :=
  mkQstate pathSink_zero budget 0 0 polls None false.

(** The answer of a strategy: what the sink holds and the error. *)
Definition qs_answer (st : qstate) : option (list Path * option goerr) :=
  ps ← pathSink_paths (qs_sink st); Some (ps, qs_callErr st).

(** An enumeration's outcome inside a loop: on an error the loops stop. *)
Definition qs_after (st : qstate) (best : Z) (r : pathSink * memBudget * option goerr) : qstate * bool :=
  let '(sink, budget, err) := r in
  let st := qs_set_out st sink budget best in
  match err with Some e => (qs_fail st e, false) | None => (st, true) end.

(** The part the three loops share once a pair's distance [d] is known, for
    [ModeAll] and for the other modes.  [en] enumerates the pair's paths with
    a cap; in strategy A of the other modes it also searches the pair, and
    changes the buffers [x]. *)
Definition visit_all (q : Query) (d : Z)
    (en : Z → memBudget → pathSink → option (pathSink * memBudget * option goerr)) (st : qstate)
  : option (qstate * bool) :=
  let '(ok, best, sink, budget) := shortestLevel_admit (qs_best st) d (qs_sink st) (qs_budget st) in
  let st := qs_set_out st sink budget best in
  if negb ok then Some (st, true)
  else
    let '(cap, isDone) := pathCap (q_Limit q) (Z.of_N (sink_n sink)) false in
    if (isDone : bool) then
      let stop := shortestLevel_final best in Some (qs_set_stop st stop, negb stop)
    else
      res ← en cap budget sink;
      Some (qs_after st best res).

Definition visit_capped {X} (q : Query) (x : X)
    (en : Z → memBudget → pathSink → option (X * (pathSink * memBudget * option goerr))) (st : qstate)
  : option (qstate * X * bool) :=
  let '(cap, isDone) := pathCap (q_Limit q) (Z.of_N (sink_n (qs_sink st))) (bool_decide (q_Mode q = ModeOne)) in
  if (isDone : bool) then Some (qs_set_stop st true, x, false)
  else
    '(x, res) ← en cap (qs_budget st) (qs_sink st);
    let '(st, cont) := qs_after st (qs_best st) res in Some (st, x, cont).

(** *** Pair by pair *)

Definition pairs_visit (fuel : N) (s : V) (q : Query) (kinds : option KindMask) (maxDepth : Z) (r t : NodeID)
    (x : qstate * (scratch * scratch * scratch)) : option (qstate * (scratch * scratch * scratch) * bool) :=
  let '(st, (scF, scT, scTmp)) := x in
  let '(polls, e) := cancelCheck_err (q_Ctx q) (qs_polls st) in
  let st := qs_set_polls st (qs_unchecked st) polls in
  match e with
  | Some e => Some (qs_fail st e, (scF, scT, scTmp), false)
  | None =>
      if q_ExcludeSelf q && (r =? t) then Some (st, (scF, scT, scTmp), true)
      else if decide (q_Mode q = ModeAll) then
        let depth := if (0 <? qs_best st)%Z && (qs_best st <? maxDepth)%Z then qs_best st else maxDepth in
        '(D, scF, scT, scTmp) ← pairShortest s r t kinds depth scF scT scTmp;
        '(st, cont) ← visit_all q D (λ cap budget sink, pairEnumerate fuel s r t D kinds cap budget scF scT sink) st;
        Some (st, (scF, scT, scTmp), cont)
      else
        visit_capped q (scF, scT, scTmp) (λ cap budget sink,
          '(scF, scT, scTmp, sink, budget, err) ←
            pairPaths fuel s r t kinds maxDepth cap budget scF scT scTmp sink;
          Some ((scF, scT, scTmp), (sink, budget, err))) st
  end.

(** The pool comes back with the buffers in it. *)
Definition strategyPairs (fuel : N) (s : V) (q : Query) (kinds : option KindMask) (maxDepth : Z)
    (budget : memBudget) (pool : list scratch) (polls : N)
  : option (list scratch * (list Path * option goerr)) :=
  let n := tv_NodeCount s in
  let '(scF, pool) := getScratch pool n in
  let '(scT, pool) := getScratch pool n in
  let '(scTmp, pool) := getScratch pool n in
  '(st, (scF, scT, scTmp)) ← Endpoint_Iterate (q_Roots q) s (λ r x,
      x' ← Endpoint_Iterate (q_Terminals q) s (λ t, pairs_visit fuel s q kinds maxDepth r t)
             (qs_set_stop x.1 false, x.2);
      Some (x', negb (qs_stop x'.1) && match qs_callErr x'.1 with None => true | Some _ => false end))
    (qs_init budget polls, (scF, scT, scTmp));
  ans ← qs_answer st;
  Some (putScratch (putScratch (putScratch pool scTmp) scT) scF, ans).

(** *** One search per node of the small side *)

Record smallSideDist := mkSmallSideDist { sd_elem : NodeID; sd_dists : option scratch }.

(** One worker: the elements [lo, hi), until the context is done. *)
Definition side_worker (s : V) (ctx : Ctx) (elems : list NodeID) (forward : bool)
    (kinds : option KindMask) (maxDepth : Z) (lo hi : N)
    (x : list smallSideDist * list scratch * N)
  : option (list smallSideDist * list scratch * N * option goerr) :=
  iter_b (λ i x, let '(results, pool, polls, _) := x in
    let '(polls, e) := cancelCheck_err ctx polls in
    match e with
    | Some e => Some (results, pool, polls, Some e, false)
    | None =>
        let '(sc, pool) := getScratch pool (tv_NodeCount s) in
        elem ← idx elems i;
        '(sc, _) ← bfsFrom s elem forward kinds maxDepth sc;
        results ← upd results i (mkSmallSideDist elem (Some sc));
        Some (results, pool, polls, None, true)
    end) (range lo hi) (x, None) ≫= λ r, Some r.1.

(** The workers write disjoint parts of [results]; here they run one after
    the other.  [procs] is [GOMAXPROCS]. *)
Definition bfsSmallSide (procs : N) (ctx : Ctx) (s : V) (elems : list NodeID) (forward : bool)
    (kinds : option KindMask) (maxDepth : Z) (pool : list scratch) (polls : N)
  : option (list smallSideDist * list scratch * N * option goerr) :=
  let results := mk (len elems) (mkSmallSideDist 0 None) in
  let workers := if len elems <? procs then len elems else procs in
  if workers <? 1 then Some (results, pool, polls, None)
  else
    let chunk := (len elems + workers - 1) / workers in
    foldM (λ x w, let '(results, pool, polls, err) := x in
      let lo := w * chunk in
      let hi := if len elems <? lo + chunk then len elems else lo + chunk in
      if hi <=? lo then Some x
      else
        '(results, pool, polls, e) ← side_worker s ctx elems forward kinds maxDepth lo hi (results, pool, polls);
        Some (results, pool, polls, match err with Some _ => err | None => e end))
      (range 0 workers) (results, pool, polls, None).

Definition materialize (e : Endpoint) (s : V) : option (list NodeID) :=
  Endpoint_Iterate e s (λ id elems, Some (elems ++ [id], true)) [].

(** What both merges do with a pair, past the self check. *)
Definition side_visit (fuel : N) (s : V) (q : Query) (kinds : option KindMask) (sc : scratch)
    (from : NodeID) (forward : bool) (st : qstate) : option (qstate * bool) :=
  dist ← scratch_get sc from;
  match dist with
  | None => Some (st, true)
  | Some d =>
      let en cap budget sink := enumerate fuel s from sc kinds cap budget sink forward in
      if decide (q_Mode q = ModeAll) then visit_all q d en st
      else
        '(st, _, cont) ← visit_capped q () (λ cap budget sink, r ← en cap budget sink; Some ((), r)) st;
        Some (st, cont)
  end.

Definition mergeSmallRoots (fuel : N) (s : V) (q : Query) (kinds : option KindMask) (budget : memBudget)
    (results : list smallSideDist) (polls : N) : option (list Path * option goerr) :=
  st ← iter_until (λ res st,
      st' ← Endpoint_Iterate (q_Terminals q) s (λ t st,
        let '(u, polls, e) := cancelCheck_step (q_Ctx q) (qs_unchecked st) (qs_polls st) in
        let st := qs_set_polls st u polls in
        match e with
        | Some e => Some (qs_fail st e, false)
        | None =>
            if q_ExcludeSelf q && (sd_elem res =? t) then Some (st, true)
            else
              sc ← sd_dists res;
              side_visit fuel s q kinds sc t false st
        end) (qs_set_stop st false);
      Some (st', negb (qs_stop st'))) results (qs_init budget polls);
  qs_answer st.

Definition mergeSmallTerminals (fuel : N) (s : V) (q : Query) (kinds : option KindMask) (budget : memBudget)
    (results : list smallSideDist) (polls : N) : option (list Path * option goerr) :=
  st ← Endpoint_Iterate (q_Roots q) s (λ r st,
      let '(u, polls, e) := cancelCheck_step (q_Ctx q) (qs_unchecked st) (qs_polls st) in
      let st := qs_set_polls st u polls in
      match e with
      | Some e => Some (qs_fail st e, false)
      | None =>
          '(st', cont) ← iter_b (λ res st,
            if q_ExcludeSelf q && (r =? sd_elem res) then Some (st, true)
            else
              sc ← sd_dists res;
              side_visit fuel s q kinds sc r true st) results st;
          Some (st', (cont : bool) && match qs_callErr st' with None => true | Some _ => false end)
      end) (qs_init budget polls);
  qs_answer st.

Definition strategySmallSide (fuel procs : N) (s : V) (q : Query) (kinds : option KindMask) (maxDepth : Z)
    (budget : memBudget) (smallIsRoots : bool) (pool : list scratch) (polls : N)
  : option (list scratch * (list Path * option goerr)) :=
  let small := if smallIsRoots then q_Roots q else q_Terminals q in
  elems ← materialize small s;
  let '(budget, ok) := memBudget_reserve budget (u64 (scratchBytes (tv_NodeCount s) * len elems)) in
  if negb ok then Some (pool, ([], Some ErrTooLarge))
  else
    '(results, pool, polls, bfsErr) ←
      bfsSmallSide procs (q_Ctx q) s elems smallIsRoots kinds maxDepth pool polls;
    let pool' := foldl putScratch pool (omap sd_dists results) in
    match bfsErr with
    | Some e => Some (pool', ([], Some e))
    | None =>
        ans ← (if smallIsRoots then mergeSmallRoots fuel s q kinds budget results polls
               else mergeSmallTerminals fuel s q kinds budget results polls);
        Some (pool', ans)
    end.

(** *** Choosing a strategy *)

Definition AllShortestPaths (fuel procs : N) (s : V) (q : Query) (pool : list scratch)
  : option (list scratch * (list Path * option goerr)) :=
  let '(polls, e) := cancelCheck_err (q_Ctx q) 0 in
  match e with
  | Some e => Some (pool, ([], Some e))
  | None =>
      let n := tv_NodeCount s in
      let maxDepth := if (q_MaxDepth q <=? 0)%Z then MaxDepth else q_MaxDepth q in
      if (MaxRepresentableDepth <? maxDepth)%Z then Some (pool, ([], Some ErrTooLarge))
      else
        let kinds := q_Kinds q in
        let budget := mkMemBudget (q_MemoryLimit q) 0 0 in
        let pairBudget := if (0 <? q_PairBudget q)%Z then q_PairBudget q else PairBudget in
        let sideBudget := if (0 <? q_SideBudget q)%Z then q_SideBudget q else SideBudget in
        let rootsFree := Unconstrained (q_Roots q) in
        let termsFree := Unconstrained (q_Terminals q) in
        let rootCount := Z.of_N (Endpoint_Count (q_Roots q) n) in
        let termCount := Z.of_N (Endpoint_Count (q_Terminals q) n) in
        if negb rootsFree && negb termsFree && (i64 (rootCount * termCount) <=? pairBudget)%Z then
          strategyPairs fuel s q kinds maxDepth budget pool polls
        else if negb rootsFree && (rootCount <=? sideBudget)%Z then
          strategySmallSide fuel procs s q kinds maxDepth budget true pool polls
        else if negb termsFree && (termCount <=? sideBudget)%Z then
          strategySmallSide fuel procs s q kinds maxDepth budget false pool polls
        else Some (pool, ([], Some ErrTooLarge))
  end.
End defs.
