(* ===== verification/Bfs.v ===== *)
(** * Breadth-first search is right

    [internal/engine/traverse/bfs.go]: [bfsFrom] marks exactly the nodes within
    [maxDepth] hops, each with its distance, whatever the reused buffer held
    before; [pairShortest] finds the distance of a pair, or that it exceeds the
    bound, by searching from both ends.  Proved against [TraverseLaws], what
    the engine relies on of the view. *)

From S2P Require Import Prelude Bitset ViewAdj PathSink Traverse.
From stdpp Require Import relations.
#[local] Open Scope N_scope.
From stdpp Require Import options.
Unset Default Proof Using.

(** ** Shortest distances *)

Section shortest.
Context {A : Type} (R : relation A).

(** [n] hops lead from [x] to [y], and no fewer do. *)
Definition shortest (n : nat) (x y : A) : Prop :=
  nsteps R n x y ∧ ∀ m, (m < n)%nat → ¬ nsteps R m x y.

Lemma shortest_unique n m x y : shortest n x y → shortest m x y → n = m.
Proof.
  intros [H1 H2] [H3 H4]. destruct (Nat.lt_total n m) as [Hlt|[?|Hlt]]; [|done|].
  - by destruct (H4 n Hlt).
  - by destruct (H2 m Hlt).
Qed.

Lemma shortest_0 x y : shortest 0 x y ↔ x = y.
Proof.
  split; [by intros [H0 _]; inversion H0|]. intros ->. split; [constructor|lia].
Qed.

(** A walk of shortest length, cut anywhere, has shortest parts. *)
Lemma shortest_split i j x y z : shortest (i + j) x z → nsteps R i x y → nsteps R j y z →
  shortest i x y ∧ shortest j y z.
Proof.
  intros [_ Hmin] Hi Hj. split; (split; [done|]); intros m Hm Hw.
  - apply (Hmin (m + j)%nat); [lia|]. by eapply nsteps_trans.
  - apply (Hmin (i + m)%nat); [lia|]. by eapply nsteps_trans.
Qed.

Lemma nsteps_flip n x y : nsteps (flip R) n y x ↔ nsteps R n x y.
Proof.
  split.
  - induction 1 as [|n a b c Hab _ IH]; [constructor|]. by eapply nsteps_r.
  - induction 1 as [|n a b c Hab _ IH]; [constructor|]. by eapply nsteps_r.
Qed.
End shortest.

Lemma shortest_flip {A} (R : relation A) n x y : shortest (flip R) n y x ↔ shortest R n x y.
Proof. unfold shortest. rewrite nsteps_flip. split; intros [H1 H2]; (split; [done|]); intros m Hm Hw; apply (H2 m Hm); by apply nsteps_flip. Qed.

(** ** What the engine relies on of a view *)

Abbreviation hop := (NodeID * KindID)%type (only parsing).

Section interface.
Context `{TraverseView V}.

Definition slices_of (s : V) (fwd : bool) (u : NodeID) : option (option (list NodeID * list KindID)) :=
  if fwd then tv_OutSlices s u else tv_InSlices s u.
Definition edges_of {S} (s : V) (fwd : bool) (u : NodeID) : edge_iter S :=
  if fwd then tv_OutEdges s u else tv_InEdges s u.

(** [rows true u] lists the edges out of [u], [rows false u] the ones into it,
    each as the node at the other end and the kind. *)
Class TraverseLaws (s : V) (rows : bool → NodeID → list hop) : Prop := {
  tl_count : tv_NodeCount s < 2 ^ 32;
  (** the slices are the row, or the iterator walks it *)
  tl_rows : ∀ fwd u, u < tv_NodeCount s →
    slices_of s fwd u = Some (Some (fst <$> rows fwd u, snd <$> rows fwd u)) ∨
    slices_of s fwd u = Some None ∧ ∃ l : list vedge, fst <$> l = rows fwd u ∧
      ∀ S (yield : vedge → S → option (S * bool)) st, edges_of s fwd u yield st = iter_until yield l st;
  tl_range : ∀ fwd u w k, (w, k) ∈ rows fwd u → u < tv_NodeCount s ∧ w < tv_NodeCount s;
  (** the two directions describe the same edges *)
  tl_sym : ∀ u w k, (w, k) ∈ rows true u ↔ (u, k) ∈ rows false w;
  (** a deleted node has no edges *)
  tl_dead : ∀ fwd u, tv_Alive s u = false → rows fwd u = [];
  (** a plain view has no deleted nodes, and its [Out] is the row *)
  tl_plain : tv_Overlay s = false → ∀ u, u < tv_NodeCount s →
    tv_Alive s u = true ∧ tv_Out s u = Some (fst <$> rows true u);
  tl_overlay : tv_Overlay s = true → ∀ u, u < tv_NodeCount s → ∃ l : list vedge, fst <$> l = rows true u ∧
    ∀ S (yield : vedge → S → option (S * bool)) st, tv_OutEdges s u yield st = iter_until yield l st;
}.
End interface.

(** Every kind is asked for without a panic. *)
Definition kinds_wf (kinds : option KindMask) : Prop :=
  match kinds with None => True | Some m => KindMask_wf m end.
Definition allowed (kinds : option KindMask) (k : KindID) : bool := default false (kindAllowed kinds k).

Lemma kindAllowed_eq kinds k : kinds_wf kinds → kindAllowed kinds k = Some (allowed kinds k).
Proof.
  intros Hk. unfold allowed. destruct kinds as [m|]; [|done]. simpl.
  destruct (decide (k < 0 ∨ k > mmax m)%Z) as [Ho|Hi].
  - unfold KindMask_Has. by rewrite decide_True.
  - destruct (KindMask_Has_spec m k Hk) as (w & _ & ->); [lia|done].
Qed.

(** ** Scratch buffers *)

(** The buffer covers [n] nodes, and no mark is ahead of its epoch. *)
Definition scratch_wf (n : N) (sc : scratch) : Prop :=
  n ≤ len (mark sc) ∧ len (sc_dist sc) = len (mark sc) ∧ epoch sc < 2 ^ 32 ∧
  ∀ m, m ∈ mark sc → m ≤ epoch sc.

(** The buffer holds the distances of [m]. *)
Definition scratch_rep (n : N) (sc : scratch) (m : gmap N nat) : Prop :=
  scratch_wf n sc ∧ ∀ v, v < n → scratch_get sc v = Some (Z.of_nat <$> m !! v).

Lemma newScratch_wf n : scratch_wf n (newScratch n).
Proof.
  unfold scratch_wf. simpl. rewrite !len_mk. split_and!; try lia.
  intros m [i Hi]%elem_of_idx. pose proof (idx_lt _ _ _ Hi) as Hl. rewrite len_mk in Hl. rewrite idx_mk in Hi by done. by simplify_eq.
Qed.

Lemma getScratch_wf pool n sc pool' : Forall (scratch_wf 0) pool → getScratch pool n = (sc, pool') →
  scratch_wf n sc ∧ Forall (scratch_wf 0) pool'.
Proof.
  intros Hp E. unfold getScratch in E. destruct pool as [|sc0 pool0]; simplify_eq; [split; [apply newScratch_wf|done]|].
  inversion Hp as [|? ? (_ & H1 & H2 & H3) Hp']; subst. destruct (N.leb_spec n (len (mark sc0))); simplify_eq.
  - by split.
  - split; [apply newScratch_wf|done].
Qed.

Lemma scratch_wf_weaken n sc : scratch_wf n sc → scratch_wf 0 sc.
Proof. intros (? & ? & ? & ?). split_and!; [lia|done..]. Qed.

(** Resetting forgets everything, whatever was in the buffer, also when the
    epoch wraps around. *)
Lemma scratch_reset_rep n sc : scratch_wf n sc → scratch_rep n (scratch_reset sc) ∅.
Proof.
  intros (Hn & Hd & He & Hm). unfold scratch_reset, u32. destruct (decide (epoch sc + 1 = 2 ^ 32)) as [E|E].
  - rewrite E. rewrite N.Div0.mod_same. simpl. split.
    + unfold scratch_wf. simpl. rewrite len_mk. split_and!; [done..|lia|].
      intros m [i Hi]%elem_of_idx. pose proof (idx_lt _ _ _ Hi) as Hl. rewrite len_mk in Hl.
      rewrite idx_mk in Hi by done. simplify_eq. lia.
    + intros v Hv. unfold scratch_get. simpl. by rewrite idx_mk by lia.
  - rewrite N.mod_small by lia. rewrite (proj2 (N.eqb_neq _ _)) by lia. split.
    + unfold scratch_wf. simpl. split_and!; [done..|lia|]. intros m Hin%Hm. lia.
    + intros v Hv. unfold scratch_get. simpl. destruct (idx_is_Some (mark sc) v) as [x Hx]; [lia|]. rewrite Hx. simpl.
      assert (x ≤ epoch sc) by (apply Hm; by eapply idx_elem_of).
      rewrite (proj2 (N.eqb_neq _ _)) by lia. done.
Qed.

Lemma scratch_set_rep n sc m v d : scratch_rep n sc m → v < n →
  ∃ sc', scratch_set sc v (Z.of_nat d) = Some sc' ∧ scratch_rep n sc' (<[v := d]> m).
Proof.
  intros ((Hn & Hd & He & Hm) & Hg) Hv. unfold scratch_set.
  destruct (upd_Some (mark sc) v (epoch sc)) as (mk' & -> & Hl1 & H1); [lia|].
  destruct (upd_Some (sc_dist sc) v (Z.of_nat d)) as (ds & -> & Hl2 & H2); [lia|].
  simpl. eexists. split; [done|]. split.
  - unfold scratch_wf. simpl. split_and!; [lia..|done|].
    intros x [i Hi]%elem_of_idx. rewrite H1 in Hi. case_decide; [by simplify_eq|]. apply Hm. by eapply idx_elem_of.
  - intros w Hw. unfold scratch_get. simpl. rewrite H1, H2, lookup_insert. case_decide as E.
    + subst. rewrite decide_True by done. simpl. by rewrite N.eqb_refl.
    + rewrite decide_False by done. apply (Hg w Hw).
Qed.

Lemma i8_small x : (- 2 ^ 7 ≤ x < 2 ^ 7)%Z → i8 x = x.
Proof. intros Hx. unfold i8. rewrite Z.mod_small by lia. lia. Qed.

(** ** Expanding a level *)

Lemma foldM_range {S A} (f : S → N → option S) (g : S → A → option S) l lo s :
  (∀ i x s, idx l i = Some x → f s (lo + i) = g s x) →
  foldM f (range lo (lo + len l)) s = foldM g l s.
Proof.
  revert lo s. induction l as [|x l IH]; intros lo s Hf.
  { rewrite range_nil by (rewrite len_nil; lia). done. }
  rewrite len_cons, range_cons by lia. simpl. pose proof (Hf 0 x s eq_refl) as H0. rewrite N.add_0_r in H0. rewrite H0.
  destruct (g s x) as [s'|]; simpl; [|done]. replace (lo + (len l + 1)) with (lo + 1 + len l) by lia. apply IH.
  intros i y s'' Hi. replace (lo + 1 + i) with (lo + (i + 1)) by lia. apply Hf. by rewrite idx_cons_succ.
Qed.

Lemma foldM_concat {S A B} (f : S → B → option S) (rows : A → list B) l s :
  foldM (λ s x, foldM f (rows x) s) l s = foldM f (concat (rows <$> l)) s.
Proof.
  revert s. induction l as [|x l IH]; intros s; csimpl; [done|]. rewrite foldM_app.
  destruct (foldM f (rows x) s); simpl; [apply IH|done].
Qed.

Lemma list_elem_of_concat {A} (x : A) (ls : list (list A)) : x ∈ concat ls ↔ ∃ l, x ∈ l ∧ l ∈ ls.
Proof.
  induction ls as [|l ls IH]; simpl.
  - rewrite elem_of_nil. split; [done|]. by intros (l & _ & ?%not_elem_of_nil).
  - rewrite elem_of_app, IH. setoid_rewrite elem_of_cons. naive_solver.
Qed.

(** [m'] and [next'] are [m] and [next] with the nodes reached over [es] that
    [m] does not have, at distance [d]. *)
Definition reached (kinds : option KindMask) (es : list hop) (w : NodeID) : Prop :=
  ∃ k, (w, k) ∈ es ∧ allowed kinds k = true.
Definition expand (kinds : option KindMask) (d : nat) (es : list hop) (m m' : gmap N nat) (next' : list NodeID) : Prop :=
  (∀ w e, m' !! w = Some e ↔ m !! w = Some e ∨ m !! w = None ∧ reached kinds es w ∧ e = d) ∧
  ∀ w, w ∈ next' ↔ m !! w = None ∧ reached kinds es w.

Section expand.
Context (n : N) (kinds : option KindMask) (d : nat).
Hypothesis Hk : kinds_wf kinds.

Lemma expand_nil m : expand kinds d [] m m [].
Proof.
  split.
  - intros w e. split; [by left|]. intros [?|(_ & (k & ?%not_elem_of_nil & _) & _)]; done.
  - intros w. rewrite elem_of_nil. split; [done|]. by intros (_ & k & ?%not_elem_of_nil & _).
Qed.

Lemma reached_snoc es w k y : reached kinds (es ++ [(w, k)]) y ↔
  reached kinds es y ∨ (y = w ∧ allowed kinds k = true).
Proof.
  unfold reached. split.
  - intros (k' & [?|?%list_elem_of_singleton]%elem_of_app & ?); [left; eauto|right]. by simplify_eq.
  - intros [(k' & ? & ?)|[-> ?]]; [exists k'|exists k]; (split; [|done]); apply elem_of_app; [by left|right; by left].
Qed.

(** One call of the visitor. *)
Lemma visit_new_spec es m m' sc next w k : scratch_rep n sc m' → w < n → expand kinds d es m m' next →
  ∃ sc' next' fresh, visit_new kinds (Z.of_nat d) w k sc next = Some (sc', next', fresh) ∧
    if (fresh : bool) then m' !! w = None ∧ scratch_rep n sc' (<[w := d]> m') ∧
        expand kinds d (es ++ [(w, k)]) m (<[w := d]> m') next'
    else scratch_rep n sc' m' ∧ expand kinds d (es ++ [(w, k)]) m m' next'.
Proof.
  intros Hsc Hw [Hm Hn]. unfold visit_new. rewrite (kindAllowed_eq _ _ Hk). simpl.
  destruct (allowed kinds k) eqn:Ek; simpl.
  2: { eexists _, _, _. split; [done|]. split; [done|]. split; intros y; setoid_rewrite reached_snoc; rewrite Ek.
       - intros e. rewrite Hm. intuition congruence.
       - rewrite Hn. intuition congruence. }
  rewrite (proj2 Hsc w Hw). simpl. destruct (m' !! w) as [e|] eqn:Em; simpl.
  - eexists _, _, _. split; [done|]. split; [done|].
    assert (m !! w = None → reached kinds es w) as Hr by (intros E; apply Hm in Em as [?|(_ & ? & _)]; congruence).
    split; intros y; setoid_rewrite reached_snoc.
    + intros e'. rewrite Hm. split; [tauto|]. intros [?|(H1 & [?|[-> _]] & H3)]; [auto..|]. right. auto.
    + rewrite Hn. split; [tauto|]. intros (H1 & [?|[-> _]]); auto.
  - destruct (scratch_set_rep n sc m' w d Hsc Hw) as (sc' & -> & Hsc'). simpl.
    eexists _, _, _. split; [done|]. split; [done|]. split; [done|].
    assert (m !! w = None) as Hmw by (destruct (m !! w) as [e|] eqn:E; [|done]; assert (m' !! w = Some e) by (apply Hm; by left); congruence).
    assert (¬ reached kinds es w) as Hnr.
    { intros Hr. assert (m' !! w = Some d) by (apply Hm; right; auto). congruence. }
    split; intros y; setoid_rewrite reached_snoc; rewrite Ek.
    + intros e. destruct (decide (y = w)) as [->|Hne].
      * rewrite lookup_insert_eq. rewrite Hmw. intuition congruence.
      * rewrite lookup_insert_ne by done. rewrite Hm. intuition congruence.
    + rewrite elem_of_app, list_elem_of_singleton, Hn. destruct (decide (y = w)) as [->|Hne]; intuition congruence.
Qed.
End expand.

(** ** The search from one node *)

Section search.
Context `{TraverseView V} (s : V) (rows : bool → NodeID → list hop).
Context {HL : TraverseLaws s rows}.
Context (kinds : option KindMask).
Hypothesis Hk : kinds_wf kinds.
Let n := tv_NodeCount s.

(** One hop the query may take, in the given direction. *)
Definition hops (fwd : bool) (u w : NodeID) : Prop := reached kinds (rows fwd u) w.

Lemma hops_flip u w : hops false w u ↔ hops true u w.
Proof. unfold hops, reached. by setoid_rewrite tl_sym. Qed.

Lemma hops_range fwd u w : hops fwd u w → u < n ∧ w < n.
Proof. intros (k & Hin & _). by eapply tl_range. Qed.

Lemma visitAdjacency_rows {S} u fwd (visit : NodeID → KindID → S → option S) st : u < n →
  visitAdjacency s u fwd visit st = foldM (λ st e, visit e.1 e.2 st) (rows fwd u) st.
Proof.
  intros Hu. unfold visitAdjacency. change (cleanAdjacency s u fwd) with (slices_of s fwd u).
  destruct (tl_rows fwd u Hu) as [->|(-> & l & Hl & Hit)]; simpl.
  - rewrite len_fmap. rewrite <- (N.add_0_l (len _)). apply foldM_range. intros i [w k] st' Hi.
    rewrite N.add_0_l, !idx_fmap, Hi. done.
  - transitivity (edges_of s fwd u (λ (e : vedge) st, st' ← visit e.1.1 e.1.2 st; Some (st', true)) st); [by destruct fwd|].
    rewrite Hit, (iter_until_foldM (λ st (e : vedge), visit e.1.1 e.1.2 st)), <- Hl. clear.
    revert st. induction l as [|e l IH]; intros st; simpl; [done|]. destruct (visit _ _ st); simpl; [apply IH|done].
Qed.

(** Levels up to [d] are marked with their distances. *)
Definition bfs_map (R : relation NodeID) (seed : NodeID) (d : nat) (m : gmap N nat) : Prop :=
  (∀ w e, m !! w = Some e → shortest R e seed w ∧ (e ≤ d)%nat) ∧
  (∀ w j, nsteps R j seed w → (j ≤ d)%nat → is_Some (m !! w)).

Lemma bfs_map_iff R seed d m w e : bfs_map R seed d m →
  m !! w = Some e ↔ shortest R e seed w ∧ (e ≤ d)%nat.
Proof.
  intros [H1 H2]. split; [apply H1|]. intros [Hs Hle]. destruct (H2 w e) as [e' He']; [apply Hs|done|].
  apply H1 in He' as Hs'. destruct Hs' as [Hs' _]. by rewrite (shortest_unique _ _ _ _ _ Hs Hs').
Qed.

Lemma bfs_map_seed R seed : bfs_map R seed 0 {[ seed := 0%nat ]}.
Proof.
  split.
  - intros w e [<- <-]%lookup_singleton_Some. split; [by apply shortest_0|lia].
  - intros w j Hj Hle. assert (j = 0%nat) as -> by lia. inversion Hj; subst. rewrite lookup_singleton_eq. eauto.
Qed.

(** The next level. *)
Lemma bfs_map_expand R seed d m m' (frontier next : list NodeID) es : bfs_map R seed d m →
  (∀ w, w ∈ frontier ↔ m !! w = Some d) → (∀ w, reached kinds es w ↔ ∃ u, u ∈ frontier ∧ R u w) →
  expand kinds (S d) es m m' next →
  bfs_map R seed (S d) m' ∧ ∀ w, w ∈ next ↔ m' !! w = Some (S d).
Proof.
  intros [H1 H2] Hf He [Hm Hn]. split; [split|].
  - intros w e [Hw|(Hw & (u & [Hu _]%Hf%H1 & HR)%He & ->)]%Hm; [apply H1 in Hw as [? ?]; split; [done|lia]|].
    split; [|done]. split; [apply (nsteps_r d seed u w); [apply Hu|done]|].
    intros j Hj Hs. destruct (H2 w j Hs) as [e He']; [lia|congruence].
  - intros w j Hs Hj. destruct (decide (j ≤ d)%nat) as [Hle|Hgt].
    { destruct (H2 w j Hs Hle) as [e He']. exists e. apply Hm. by left. }
    assert (j = S d) as -> by lia. apply nsteps_inv_r in Hs as (y & Hy & HR).
    destruct (H2 y d Hy) as [e Ey]; [done|]. destruct (H1 _ _ Ey) as [Hys Hle].
    destruct (decide (e = d)) as [->|Hne].
    + destruct (m !! w) as [e'|] eqn:Ew; [exists e'; apply Hm; by left|]. exists (S d). apply Hm. right.
      split_and!; [done| |done]. apply He. exists y. split; [by apply Hf|done].
    + destruct (H2 w (S e)) as [e' He']; [apply (nsteps_r e seed y w); [apply Hys|done]|lia|].
      exists e'. apply Hm. by left.
  - intros w. rewrite Hn, Hm. split; [tauto|]. intros [Hw|?]; [apply H1 in Hw as [_ Hle]; lia|tauto].
Qed.

(** An empty level is the last. *)
Lemma bfs_map_closed R seed d m d' : bfs_map R seed d m → (∀ w, m !! w ≠ Some d) → (d ≤ d')%nat →
  bfs_map R seed d' m.
Proof.
  intros [H1 H2] Hno Hle. assert (∀ j w, nsteps R j seed w → is_Some (m !! w)) as Hall.
  { induction j as [|j IH]; intros w Hs; [by eapply H2; [done|lia]|].
    apply nsteps_inv_r in Hs as (y & Hy & HR). destruct (IH _ Hy) as [e Ey]. destruct (H1 _ _ Ey) as [Hys Hle'].
    assert (e ≠ d) by (intros ->; by apply (Hno y)). apply (H2 w (S e)); [|lia]. apply (nsteps_r e seed y w); [apply Hys|done]. }
  split; [|by eauto]. intros w e Hw. destruct (H1 _ _ Hw). split; [done|lia].
Qed.

Lemma concat_rows_reached fwd frontier w :
  reached kinds (concat (rows fwd <$> frontier)) w ↔ ∃ u, u ∈ frontier ∧ hops fwd u w.
Proof.
  unfold hops, reached. split.
  - intros (k & (r & Hr & (u & -> & Hu)%list_elem_of_fmap)%list_elem_of_concat & Hal). eauto.
  - intros (u & Hu & k & Hin & Hal). exists k. split; [|done]. apply list_elem_of_concat. exists (rows fwd u).
    split; [done|]. apply list_elem_of_fmap. eauto.
Qed.

Lemma concat_rows_range fwd frontier w k : (w, k) ∈ concat (rows fwd <$> frontier) → w < n.
Proof.
  intros (r & Hr & (u & -> & Hu)%list_elem_of_fmap)%list_elem_of_concat. by eapply tl_range.
Qed.

Lemma bfs_level_spec fwd d frontier sc m : scratch_rep n sc m → Forall (λ u, u < n) frontier →
  ∃ sc' m' next, bfs_level s fwd kinds (Z.of_nat d) frontier sc = Some (sc', next) ∧ scratch_rep n sc' m' ∧
    expand kinds d (concat (rows fwd <$> frontier)) m m' next.
Proof.
  intros Hsc Hfr. unfold bfs_level. rewrite Forall_forall in Hfr.
  rewrite (foldM_ext _ (λ st u, foldM (λ st (e : hop),
    '(sc, next, _) ← visit_new kinds (Z.of_nat d) e.1 e.2 st.1 st.2; Some (sc, next)) (rows fwd u) st))
    by (intros st u Hu; apply visitAdjacency_rows; by apply Hfr).
  rewrite foldM_concat.
  destruct (foldM_inv (λ es (st : scratch * list NodeID), ∃ m', scratch_rep n st.1 m' ∧ expand kinds d es m m' st.2)
    (λ st (e : hop), '(sc, next, _) ← visit_new kinds (Z.of_nat d) e.1 e.2 st.1 st.2; Some (sc, next))
    (concat (rows fwd <$> frontier)) (sc, [])) as ([sc' next] & -> & m' & Hsc' & He); [| |by eauto 10].
  - exists m. split; [done|]. apply expand_nil.
  - intros pre [w k] post [sc0 next0] El (m0 & Hsc0 & He0). simpl in *.
    destruct (visit_new_spec n kinds d Hk pre m m0 sc0 next0 w k Hsc0) as (sc1 & next1 & fresh & -> & Hf); [|done|].
    { eapply concat_rows_range. rewrite El. apply elem_of_app. right. left. }
    simpl. eexists. split; [done|]. simpl. destruct fresh; [destruct Hf as (_ & ? & ?)|destruct Hf]; eauto.
Qed.

(** [deepest] is the largest distance marked. *)
Definition deepest_of (m : gmap N nat) (deepest : Z) : Prop :=
  ∃ D : nat, deepest = Z.of_nat D ∧ (∃ w, m !! w = Some D) ∧ ∀ w e, m !! w = Some e → (e ≤ D)%nat.

Lemma deepest_expand d es m m' (next : list NodeID) deepest : deepest_of m deepest →
  expand kinds (S d) es m m' next → (∀ w e, m !! w = Some e → (e ≤ d)%nat) →
  deepest_of m' (if 0 <? len next then (Z.of_nat d + 1)%Z else deepest).
Proof.
  intros (D & -> & (w0 & Hw0) & Hmax) [Hm Hn] Hle. destruct next as [|x next].
  - exists D. split; [done|]. split; [exists w0; apply Hm; by left|].
    intros w e [?|(H1 & H2 & _)]%Hm; [by eapply Hmax|]. exfalso. eapply not_elem_of_nil. by apply Hn.
  - rewrite (proj2 (N.ltb_lt _ _)) by (rewrite len_cons; lia). exists (S d). split; [lia|].
    assert (x ∈ x :: next) as [H1 H2]%Hn by left. split; [exists x; apply Hm; by right|].
    intros w e [He%Hle|(_ & _ & ->)]%Hm; lia.
Qed.

Lemma bfs_loop_spec fwd seed rounds d frontier sc m deepest :
  scratch_rep n sc m → bfs_map (hops fwd) seed d m → (∀ w, w ∈ frontier ↔ m !! w = Some d) →
  Forall (λ u, u < n) frontier → (d + rounds ≤ 127)%nat → deepest_of m deepest →
  ∃ sc' deepest' m', bfs_loop rounds s fwd kinds (Z.of_nat d) frontier deepest sc = Some (sc', deepest') ∧
    scratch_rep n sc' m' ∧ bfs_map (hops fwd) seed (d + rounds) m' ∧ deepest_of m' deepest'.
Proof.
  revert d frontier sc m deepest. induction rounds as [|rounds IH]; intros d frontier sc m deepest Hsc Hm Hf Hfr Hle Hd.
  { rewrite Nat.add_0_r. by eexists _, _, _. }
  cbn [bfs_loop]. destruct (N.ltb_spec 0 (len frontier)) as [Hpos|Hz].
  - rewrite i8_small by lia. replace (Z.of_nat d + 1)%Z with (Z.of_nat (S d)) by lia.
    destruct (bfs_level_spec fwd (S d) frontier sc m Hsc Hfr) as (sc' & m' & next & -> & Hsc' & He). simpl.
    destruct (bfs_map_expand (hops fwd) seed d m m' frontier next _ Hm Hf (concat_rows_reached fwd frontier) He) as [Hm' Hf'].
    replace (d + S rounds)%nat with (S d + rounds)%nat by lia.
    apply (IH (S d) next sc' m'); [done..| |lia|].
    + apply Forall_forall. intros w Hw. destruct He as [_ Hn]. apply Hn in Hw as [_ (k & Hin & _)].
      by eapply concat_rows_range.
    + replace (Z.of_nat (S d)) with (Z.of_nat d + 1)%Z by lia. eapply deepest_expand; [done..|].
      intros w e Hw. by apply (proj1 Hm) in Hw as [_ ?].
  - destruct frontier as [|x frontier]; [|rewrite len_cons in Hz; lia].
    eexists _, _, _. split; [done|]. split; [done|]. split; [|done].
    apply (bfs_map_closed _ _ d); [done| |lia]. intros w Hw. apply Hf in Hw. by apply not_elem_of_nil in Hw.
Qed.

Lemma bfsFrom_spec fwd seed D sc : scratch_wf n sc → seed < n → (D ≤ 127)%nat →
  ∃ sc' deepest m, bfsFrom s seed fwd kinds (Z.of_nat D) sc = Some (sc', deepest) ∧
    scratch_rep n sc' m ∧ bfs_map (hops fwd) seed D m ∧ deepest_of m deepest.
Proof.
  intros Hsc Hseed HD. unfold bfsFrom.
  destruct (scratch_set_rep n _ ∅ seed 0 (scratch_reset_rep n sc Hsc) Hseed) as (sc1 & E & Hsc1).
  change (Z.of_nat 0) with 0%Z in E. rewrite E. cbn [mbind option_bind]. rewrite Nat2Z.id. rewrite insert_empty in Hsc1.
  apply (bfs_loop_spec fwd seed D 0 [seed] sc1 _ 0 Hsc1); [apply bfs_map_seed| |by constructor|lia|].
  - intros w. rewrite list_elem_of_singleton, lookup_singleton_Some. naive_solver.
  - exists 0%nat. split; [done|]. split; [exists seed; apply lookup_singleton_eq|].
    intros w e [_ <-]%lookup_singleton_Some. done.
Qed.

(** ** Both ends at once *)

(** [D] is the length of the best connection the two searches have met, or -1. *)
Definition best_meet (mF mB : gmap N nat) (D : Z) : Prop :=
  (∀ w a b, mF !! w = Some a → mB !! w = Some b → (0 ≤ D ≤ Z.of_nat (a + b))%Z) ∧
  (D = (-1)%Z ∨ ∃ w a b, mF !! w = Some a ∧ mB !! w = Some b ∧ D = Z.of_nat (a + b)).

Lemma best_meet_sym mF mB D : best_meet mF mB D → best_meet mB mF D.
Proof.
  intros [H1 H2]. split.
  - intros w a b Ha Hb. rewrite Nat.add_comm. by eapply H1.
  - destruct H2 as [?|(w & a & b & ? & ? & ->)]; [by left|right]. exists w, b, a. by rewrite Nat.add_comm.
Qed.

Lemma best_meet_insert mF mB D w d : best_meet mF mB D → mF !! w = None →
  best_meet (<[w := d]> mF) mB
    match mB !! w with
    | Some b => let cand := (Z.of_nat d + Z.of_nat b)%Z in if (D <? 0)%Z || (cand <? D)%Z then cand else D
    | None => D
    end.
Proof.
  intros [H1 H2] Hw. destruct (mB !! w) as [b|] eqn:Eb.
  - assert ((D <? 0)%Z || (Z.of_nat d + Z.of_nat b <? D)%Z = true ∨
            (0 ≤ D)%Z ∧ (D ≤ Z.of_nat d + Z.of_nat b)%Z ∧ (D <? 0)%Z || (Z.of_nat d + Z.of_nat b <? D)%Z = false) as Hc.
    { destruct (Z.ltb_spec D 0); simpl; [by left|]. destruct (Z.ltb_spec (Z.of_nat d + Z.of_nat b) D); [by left|right; lia]. }
    cbv zeta. split.
    + intros w' a' b' Ha' Hb'. destruct Hc as [Hc|(Hc1 & Hc2 & Hc)]; rewrite Hc;
        apply lookup_insert_Some in Ha' as [[<- <-]|[Hne Ha']]; simplify_eq.
      * lia.
      * pose proof (H1 _ _ _ Ha' Hb'). apply orb_true_iff in Hc as [?%Z.ltb_lt|?%Z.ltb_lt]; lia.
      * lia.
      * by apply (H1 w').
    + right. destruct Hc as [Hc|(Hc1 & Hc2 & Hc)]; rewrite Hc.
      * exists w, d, b. rewrite lookup_insert_eq. split_and!; [done..|lia].
      * destruct H2 as [?|(w' & a' & b' & Ha' & Hb' & E)]; [lia|]. exists w', a', b'. rewrite lookup_insert_ne by congruence. done.
  - split.
    + intros w' a' b' [[<- <-]|[Hne Ha']]%lookup_insert_Some Hb'; [congruence|]. by eapply H1.
    + destruct H2 as [?|(w' & a' & b' & Ha' & Hb' & E)]; [by left|right].
      exists w', a', b'. rewrite lookup_insert_ne by congruence. done.
Qed.

Lemma pair_level_spec fwd d frontier other mO mine m D : scratch_rep n mine m → scratch_rep n other mO →
  Forall (λ u, u < n) frontier → best_meet m mO D →
  ∃ mine' m' next D', pair_level s fwd kinds (Z.of_nat d) frontier other mine D = Some (mine', next, D') ∧
    scratch_rep n mine' m' ∧ expand kinds d (concat (rows fwd <$> frontier)) m m' next ∧ best_meet m' mO D'.
Proof.
  intros Hsc HO Hfr HD. unfold pair_level. rewrite Forall_forall in Hfr.
  rewrite (foldM_ext _ (λ st u, foldM (λ st (e : hop), pair_visit kinds (Z.of_nat d) other e.1 e.2 st) (rows fwd u) st))
    by (intros st u Hu; apply visitAdjacency_rows; by apply Hfr).
  rewrite foldM_concat.
  destruct (foldM_inv (λ es (st : scratch * list NodeID * Z), ∃ m', scratch_rep n st.1.1 m' ∧
      expand kinds d es m m' st.1.2 ∧ best_meet m' mO st.2)
    (λ st (e : hop), pair_visit kinds (Z.of_nat d) other e.1 e.2 st)
    (concat (rows fwd <$> frontier)) (mine, [], D)) as ([[mine' next] D'] & -> & m' & H1 & H2 & H3); [| |by eauto 10].
  - exists m. split_and!; [done|apply expand_nil|done].
  - intros pre [w k] post [[sc0 next0] D0] El (m0 & Hsc0 & He0 & HD0). simpl in *.
    assert (w < n) as Hw by (eapply concat_rows_range; rewrite El; apply elem_of_app; right; left).
    destruct (visit_new_spec n kinds d Hk pre m m0 sc0 next0 w k Hsc0 Hw He0) as (sc1 & next1 & fresh & -> & Hf).
    simpl. destruct fresh; [|destruct Hf; by eauto 10]. destruct Hf as (Hno & Hsc1 & He1).
    rewrite (proj2 HO w Hw). simpl. pose proof (best_meet_insert m0 mO D0 w d HD0 Hno) as HD1.
    destruct (mO !! w) as [b|]; simpl; eexists; (split; [done|]); simpl; eauto.
Qed.

Context (r t : NodeID).
Let E := hops true.

(** What the two searches know after [lF] and [lB] levels. *)
Record pair_inv (mF mB : gmap N nat) (frontF frontB : list NodeID) (lF lB : nat) (D : Z) : Prop := {
  pi_F : bfs_map E r lF mF;
  pi_B : bfs_map (flip E) t lB mB;
  pi_fF : ∀ w, w ∈ frontF ↔ mF !! w = Some lF;
  pi_fB : ∀ w, w ∈ frontB ↔ mB !! w = Some lB;
  pi_D : best_meet mF mB D;
}.

(** The distance of the pair, as far as [M] hops. *)
Definition pair_dist (M : nat) (D : Z) : Prop :=
  (D = (-1)%Z ∧ ∀ j, (j ≤ M)%nat → ¬ nsteps E j r t) ∨
  (∃ d : nat, D = Z.of_nat d ∧ shortest E d r t ∧ (d ≤ M)%nat).

(** A walk no longer than the levels searched has been met. *)
Lemma met mF mB fF fB lF lB D j : pair_inv mF mB fF fB lF lB D → nsteps E j r t → (j ≤ lF + lB)%nat →
  (0 ≤ D ≤ Z.of_nat j)%Z.
Proof.
  intros [[F1 F2] [B1 B2] _ _ [H1 _]] Hj Hle. set (i := Nat.min j lF).
  replace j with (i + (j - i))%nat in Hj by lia. apply nsteps_add_inv in Hj as (y & Hi & Hr).
  destruct (F2 y i Hi) as [a Ha]; [lia|]. destruct (B2 y (j - i)%nat) as [b Hb]; [by apply nsteps_flip|lia|].
  pose proof (H1 _ _ _ Ha Hb) as HD. destruct (F1 _ _ Ha) as [[_ Hmin] _]. destruct (B1 _ _ Hb) as [[_ Hmin'] _].
  assert (a ≤ i)%nat by (destruct (decide (a ≤ i)%nat); [done|]; exfalso; apply (Hmin i); [lia|done]).
  assert (b ≤ j - i)%nat by (destruct (decide (b ≤ j - i)%nat); [done|]; exfalso; apply (Hmin' (j - i)%nat); [lia|by apply nsteps_flip]).
  lia.
Qed.

Lemma pair_exit mF mB fF fB lF lB D M : pair_inv mF mB fF fB lF lB D → (lF + lB ≤ M)%nat →
  fF = [] ∨ fB = [] ∨ (M ≤ lF + lB)%nat ∨ (0 ≤ D)%Z → pair_dist M D.
Proof.
  intros Hinv HM Hex. pose proof Hinv as [[F1 F2] [B1 B2] HfF HfB [H1 H2]].
  destruct H2 as [->|(w & a & b & Ha & Hb & ->)].
  - left. split; [done|]. intros j Hj Hs. destruct Hex as [->|[->|[Hex|?]]]; [| | |lia].
    + assert (bfs_map E r (Nat.max lF j) mF) as [_ F2'].
      { apply (bfs_map_closed _ _ lF); [done| |lia]. intros w Hw%HfF. by apply not_elem_of_nil in Hw. }
      destruct (F2' t j Hs) as [a Ha]; [lia|]. destruct (B2 t 0%nat) as [b Hb]; [constructor|lia|].
      pose proof (H1 _ _ _ Ha Hb). lia.
    + assert (bfs_map (flip E) t (Nat.max lB j) mB) as [_ B2'].
      { apply (bfs_map_closed _ _ lB); [done| |lia]. intros w Hw%HfB. by apply not_elem_of_nil in Hw. }
      destruct (B2' r j) as [b Hb]; [by apply nsteps_flip|lia|]. destruct (F2 r 0%nat) as [a Ha]; [constructor|lia|].
      pose proof (H1 _ _ _ Ha Hb). lia.
    + destruct (met _ _ _ _ _ _ _ j Hinv Hs); lia.
  - right. exists (a + b)%nat. destruct (F1 _ _ Ha) as [[Hna _] Hla]. destruct (B1 _ _ Hb) as [[Hnb _] Hlb].
    split; [done|]. split; [|lia]. split; [apply (nsteps_trans _ _ _ w); [done|by apply nsteps_flip]|].
    intros j Hj Hs. destruct (met _ _ _ _ _ _ _ j Hinv Hs); lia.
Qed.

Lemma expand_range fwd d frontier m m' (next : list NodeID) :
  expand kinds d (concat (rows fwd <$> frontier)) m m' next → Forall (λ u, u < n) next.
Proof.
  intros [_ Hn]. apply Forall_forall. intros w [_ (k & Hin & _)]%Hn. by eapply concat_rows_range.
Qed.

Lemma pair_loop_spec fuel M fF fB lF lB D scF scB mF mB : (M ≤ 127)%nat → (M - (lF + lB) < fuel)%nat →
  (lF + lB ≤ M)%nat → scratch_rep n scF mF → scratch_rep n scB mB →
  Forall (λ u, u < n) fF → Forall (λ u, u < n) fB → pair_inv mF mB fF fB lF lB D →
  ∃ scF' scB' D', pair_loop fuel s kinds (Z.of_nat M) fF fB (Z.of_nat lF) (Z.of_nat lB) D scF scB =
      Some (scF', scB', D') ∧ scratch_wf n scF' ∧ scratch_wf n scB' ∧ pair_dist M D'.
Proof.
  intros HM. revert fF fB lF lB D scF scB mF mB.
  induction fuel as [|fuel IH]; intros fF fB lF lB D scF scB mF mB Hfu Hle HF HB HfF HfB Hinv; [lia|].
  cbn [pair_loop]. destruct (decide (fF = [] ∨ fB = [])) as [Hnil|Hne].
  { assert ((0 <? len fF) && (0 <? len fB) = false) as -> by (destruct Hnil as [->| ->]; [done|by rewrite andb_comm]).
    eexists _, _, _. split; [done|]. split; [apply HF|]. split; [apply HB|]. eapply pair_exit; [done..|tauto]. }
  assert ((0 <? len fF) && (0 <? len fB) = true) as ->.
  { destruct fF, fB; tauto. }
  set (limit := if _ && _ then D else _).
  destruct (Z.leb_spec limit (Z.of_nat lF + Z.of_nat lB)) as [Hlim|Hlim].
  { eexists _, _, _. split; [done|]. split; [apply HF|]. split; [apply HB|]. eapply pair_exit; [done..|].
    unfold limit in Hlim. destruct (Z.leb_spec 0 D); simpl in Hlim; [by auto|]. right. right. left. lia. }
  assert (lF + lB < M)%nat as Hlt.
  { unfold limit in Hlim. destruct (Z.leb_spec 0 D), (Z.ltb_spec D (Z.of_nat M)); simpl in Hlim; lia. }
  destruct Hinv as [H1 H2 H3 H4 H5]. destruct (len fF <=? len fB).
  - rewrite i8_small by lia. replace (Z.of_nat lF + 1)%Z with (Z.of_nat (S lF)) by lia.
    destruct (pair_level_spec true (S lF) fF scB mB scF mF D HF HB HfF H5) as (scF' & mF' & next & D' & -> & HF' & He & HD').
    destruct (bfs_map_expand E r lF mF mF' fF next _ H1 H3 (concat_rows_reached true fF) He) as [Hm' Hn'].
    apply (IH next fB (S lF) lB D' scF' scB mF' mB); try done; [lia..|by eapply expand_range].
  - rewrite i8_small by lia. replace (Z.of_nat lB + 1)%Z with (Z.of_nat (S lB)) by lia.
    destruct (pair_level_spec false (S lB) fB scF mF scB mB D HB HF HfB (best_meet_sym _ _ _ H5))
      as (scB' & mB' & next & D' & -> & HB' & He & HD').
    assert (∀ w, reached kinds (concat (rows false <$> fB)) w ↔ ∃ u, u ∈ fB ∧ flip E u w) as Hre.
    { intros w. rewrite concat_rows_reached. by setoid_rewrite hops_flip. }
    destruct (bfs_map_expand (flip E) t lB mB mB' fB next _ H2 H4 Hre He) as [Hm' Hn'].
    apply (IH fF next lF (S lB) D' scF scB' mF mB'); try done; [lia..|by eapply expand_range|].
    split; try done. by apply best_meet_sym.
Qed.

(** What [pairShortest] leaves in the two buffers: the distances from the
    root and to the terminal, as far as the distance of the pair. *)
Definition pair_buffers (d : nat) (scF scT : scratch) : Prop :=
  ∃ mF mT, scratch_rep n scF mF ∧ bfs_map E r d mF ∧ scratch_rep n scT mT ∧ bfs_map (flip E) t d mT.

Lemma bfs_map_proper R R' seed d m : (∀ x y, R x y ↔ R' x y) → bfs_map R seed d m → bfs_map R' seed d m.
Proof.
  intros HR. assert (∀ j x y, nsteps R j x y ↔ nsteps R' j x y) as Hn.
  { intros j x y. split; apply (nsteps_congruence (λ x, x)); intros ??; by apply HR. }
  intros [H1 H2]. split.
  - intros w e [[Hs Hmin] ?]%H1. split; [|done]. split; [by apply Hn|]. intros j Hj Hw. apply (Hmin j Hj). by apply Hn.
  - intros w j Hs. by apply H2, Hn.
Qed.

Lemma pairShortest_spec M scF scT scTmp : scratch_wf n scF → scratch_wf n scT → scratch_wf n scTmp →
  r < n → t < n → (M ≤ 127)%nat →
  ∃ D scF' scT' scTmp', pairShortest s r t kinds (Z.of_nat M) scF scT scTmp = Some (D, scF', scT', scTmp') ∧
    scratch_wf n scF' ∧ scratch_wf n scT' ∧ scratch_wf n scTmp' ∧
    (if r =? t then D = (-1)%Z else pair_dist M D) ∧ ∀ d : nat, D = Z.of_nat d → pair_buffers d scF' scT'.
Proof.
  intros HF HT HB Hr Ht HM. unfold pairShortest. destruct (N.eqb_spec r t) as [->|Hne].
  { eexists _, _, _, _. split; [done|]. split_and!; [done..|lia]. }
  destruct (scratch_set_rep n _ ∅ r 0 (scratch_reset_rep n scF HF) Hr) as (scF1 & E1 & HF1).
  destruct (scratch_set_rep n _ ∅ t 0 (scratch_reset_rep n scTmp HB) Ht) as (scB1 & E2 & HB1).
  change (Z.of_nat 0) with 0%Z in E1, E2. rewrite E1, E2. cbn [mbind option_bind]. rewrite Nat2Z.id. rewrite insert_empty in HF1, HB1.
  destruct (pair_loop_spec (S M) M [r] [t] 0 0 (-1) scF1 scB1 _ _ HM ltac:(lia) ltac:(lia) HF1 HB1)
    as (scF2 & scB2 & D & E3 & HF2 & HB2 & HD); [by constructor..| |].
  { split; [apply bfs_map_seed|apply bfs_map_seed| | |].
    - intros w. rewrite list_elem_of_singleton, lookup_singleton_Some. naive_solver.
    - intros w. rewrite list_elem_of_singleton, lookup_singleton_Some. naive_solver.
    - split; [|by left]. intros w a b [<- _]%lookup_singleton_Some [<- _]%lookup_singleton_Some. done. }
  change (Z.of_nat 0) with 0%Z in E3. rewrite E3. cbn [mbind option_bind]. destruct HD as [[-> Hno]|(d & -> & Hs & Hle)].
  { eexists _, _, _, _. split; [done|]. split_and!; [done..|by left|lia]. }
  rewrite (proj2 (Z.ltb_ge _ _)) by lia.
  destruct (bfsFrom_spec true r d scF2 HF2 Hr) as (scF3 & dp & mF & -> & HF3 & HmF & _); [lia|]. cbn [mbind option_bind].
  destruct (bfsFrom_spec false t d scT HT Ht) as (scT3 & dp' & mT & -> & HT3 & HmT & _); [lia|]. cbn [mbind option_bind].
  eexists _, _, _, _. split; [done|]. split_and!; [apply HF3|apply HT3|done|by right; eauto|].
  intros d' <-%Nat2Z.inj. exists mF, mT. split_and!; [done..|].
  eapply bfs_map_proper; [|exact HmT]. intros x y. apply hops_flip.
Qed.
End search.
