(* ===== verification/Enumerate.v ===== *)
(** * The enumerated paths

    [internal/engine/traverse/bfs.go]: [enumerate] and [pairEnumerate] walk the
    distances a search left behind, depth first with an explicit stack, and
    hand every completed walk to the sink.  Both are instances of one scheme;
    with enough rounds they emit exactly the walks of shortest length, in a
    fixed order, until the memory limit or the cap stops them. *)

From S2P Require Import Prelude Bitset Csr ViewAdj PathSink Traverse Bfs.
From stdpp Require Import relations.
#[local] Open Scope N_scope.
From stdpp Require Import options.
Unset Default Proof Using.

(** ** Running a loop *)

Section runs.
Context {S R : Type} (step : S → option (S + R)).

(** [k] rounds lead from one state to the other. *)
Inductive runs : nat → S → S → Prop :=
  | runs_O s : runs 0 s s
  | runs_S k s1 s2 s3 : step s1 = Some (inl s2) → runs k s2 s3 → runs (Datatypes.S k) s1 s3.

Lemma runs_trans k j s1 s2 s3 : runs k s1 s2 → runs j s2 s3 → runs (k + j) s1 s3.
Proof. induction 1; simpl; [done|]. intros. econstructor; eauto. Qed.

(** The rounds of a loop, one by one. *)
Fixpoint rounds (k : nat) (s : S) : option (S + R) :=
  match k with
  | O => Some (inl s)
  | Datatypes.S k => r ← step s; match r with inl s' => rounds k s' | inr x => Some (inr x) end
  end.

Lemma rounds_add k j s : rounds (k + j) s =
  r ← rounds k s; match r with inl s' => rounds j s' | inr x => Some (inr x) end.
Proof.
  revert s. induction k as [|k IH]; intros s; simpl; [done|].
  destruct (step s) as [[s'|x]|]; simpl; [apply IH|done|done].
Qed.

Lemma loop_pos_rounds p s : loop_pos p step s = rounds (Pos.to_nat p) s.
Proof.
  revert s. induction p as [p IH|p IH|]; intros s; cbn [loop_pos].
  - rewrite Pos2Nat.inj_xI. simpl. destruct (step s) as [[s'|x]|]; simpl; [|done|done].
    rewrite Nat.add_0_r, rounds_add, IH. destruct (rounds (Pos.to_nat p) s') as [[s''|x]|]; simpl; [apply IH|done|done].
  - rewrite Pos2Nat.inj_xO. simpl. rewrite Nat.add_0_r, rounds_add, IH.
    destruct (rounds (Pos.to_nat p) s) as [[s'|x]|]; simpl; [apply IH|done|done].
  - change (Pos.to_nat 1) with 1%nat. simpl. by destruct (step s) as [[s'|x]|].
Qed.

(** A loop that leaves after [k] rounds does so with any larger fuel. *)
Lemma loop_runs k s s' x fuel : runs k s s' → step s' = Some (inr x) → N.of_nat k < fuel →
  loop fuel step s = Some x.
Proof.
  intros Hr Hx Hf. assert (∀ j, (k < j)%nat → rounds j s = Some (inr x)) as Hall.
  { induction Hr as [s|k s1 s2 s3 Hs Hr IH]; intros [|j] Hj; try lia; simpl.
    - by rewrite Hx.
    - rewrite Hs. simpl. apply IH; [done|lia..]. }
  unfold loop. destruct fuel as [|p]; [lia|]. rewrite loop_pos_rounds, Hall by lia. done.
Qed.
End runs.

(** ** Emitting *)

(** What recording a list of paths leaves: the paths, the budget, and whether
    and how the loop was left. *)
Fixpoint emit_list (cap : Z) (rev : bool) (l : list Path) (ps : list Path) (b : memBudget)
  : list Path * memBudget * option (option goerr) :=
  match l with
  | [] => (ps, b, None)
  | p :: l =>
      match memBudget_add b (u64 (len (p_Nodes p) * 12 + 48)) with
      | (_, Some e) => (ps, b, Some (Some e))
      | (b', None) =>
          let ps' := ps ++ [path_oriented rev p] in
          if (0 <? cap)%Z && (Z.of_N (len ps') =? cap)%Z then (ps', b', Some None)
          else emit_list cap rev l ps' b'
      end
  end.

Lemma emit_list_app cap rev l k ps b : emit_list cap rev (l ++ k) ps b =
  match emit_list cap rev l ps b with
  | (ps', b', None) => emit_list cap rev k ps' b'
  | r => r
  end.
Proof.
  revert ps b. induction l as [|p l IH]; intros ps b; simpl; [by destruct (emit_list cap rev k ps b) as [[??]?]|].
  destruct (memBudget_add b _) as [b' [e|]]; [done|]. destruct (_ && _); [done|]. apply IH.
Qed.

(** [enum_emit] records one path. *)
Lemma enum_emit_spec cap rev st ps : sink_rep (es_sink st) ps → path_wf (mkPath (es_walk st) (es_walkKinds st)) →
  ∃ sink' ps' b' o, emit_list cap rev [mkPath (es_walk st) (es_walkKinds st)] ps (es_budget st) = (ps', b', o) ∧
    sink_rep sink' ps' ∧
    let st' := mkEstate (es_stack st) (es_walk st) (es_walkKinds st) sink' b' in
    enum_emit cap rev st = Some (match o with None => inl st' | Some err => inr (st', err) end).
Proof.
  intros Hs Hp. unfold enum_emit. simpl. destruct (memBudget_add (es_budget st) _) as [b' [e|]].
  { eexists _, _, _, _. split; [done|]. split; [done|]. simpl. by destruct st. }
  destruct (pathSink_add_rep _ _ _ _ rev Hs Hp) as (sink' & -> & Hs'). simpl.
  rewrite (sink_rep_n _ _ Hs'). destruct ((0 <? cap)%Z && _); by eexists _, _, _, _.
Qed.

(** ** The walk *)

Section walk.
Context (step : estate → option (estate + (estate * option goerr))).
Context (row : NodeID → list hop) (sel : nat → hop → bool) (good : NodeID → nat → Prop).
Context (cap : Z) (rev : bool).

Hypothesis step_end : ∀ st, es_stack st = [] → step st = Some (inr (st, None)).
Hypothesis step_leaf : ∀ st cur rest w wk, es_stack st = cur :: rest → good (f_node cur) 0 →
  enum_pop cur (es_walk st) (es_walkKinds st) = Some (w, wk) → 2 ≤ len w →
  step st = enum_emit cap rev (mkEstate rest w wk (es_sink st) (es_budget st)).
Hypothesis step_node : ∀ st cur rest w wk e, es_stack st = cur :: rest → good (f_node cur) (S e) →
  enum_pop cur (es_walk st) (es_walkKinds st) = Some (w, wk) →
  step st = Some (inl (mkEstate
    (((λ h : hop, mkFrame h.1 h.2 (u16 (f_depth cur + 1))) <$>
       reverse (filter (λ h, sel e h = true) (row (f_node cur)))) ++ rest) w wk (es_sink st) (es_budget st))).
Hypothesis good_child : ∀ u e h, good u (S e) → h ∈ row u → sel e h = true → good h.1 e.

(** The ways to go on from [u] with [e] hops left, in the order they are tried. *)
Fixpoint tails (e : nat) (u : NodeID) : list (list hop) :=
  match e with
  | O => [[]]
  | S e => concat ((λ h, cons h <$> tails e h.1) <$> reverse (filter (λ h, sel e h = true) (row u)))
  end.

(** The path a tail completes. *)
Definition complete (W : list NodeID) (WK : list KindID) (tl : list hop) : Path :=
  mkPath (W ++ (fst <$> tl)) (WK ++ (snd <$> tl)).

(** The walk buffers start with [W], of length [d], and the kinds before it. *)
Definition walk_pre (d : N) (W : list NodeID) (WK : list KindID) (st : estate) : Prop :=
  len W = d ∧ slice (es_walk st) 0 d = Some W ∧
  if d =? 0 then WK = [] else len WK + 1 = d ∧ slice (es_walkKinds st) 0 (d - 1) = Some WK.

Definition kinds_then (d : N) (WK : list KindID) (k : KindID) : list KindID := if d =? 0 then [] else WK ++ [k].

Lemma pop_pre d W WK st u k : walk_pre d W WK st →
  enum_pop (mkFrame u k d) (es_walk st) (es_walkKinds st) = Some (W ++ [u], kinds_then d WK k).
Proof.
  intros (_ & Hw & Hk). unfold enum_pop, kinds_then. simpl. rewrite Hw. simpl. destruct (N.eqb_spec d 0) as [->|Hne]; [done|].
  rewrite (proj2 (N.ltb_lt _ _)) by lia. destruct Hk as [_ ->]. done.
Qed.

Lemma slice_all {A} (l : list A) : slice l 0 (len l) = Some l.
Proof.
  unfold slice. rewrite decide_True by lia. f_equal. rewrite drop_0, N.sub_0_r. unfold len. rewrite Nat2N.id. by rewrite take_ge.
Qed.

Lemma slice_prefix_drop {A} (l k : list A) x n : slice l 0 n = Some (k ++ x) → slice l 0 (len k) = Some k.
Proof.
  unfold slice. case_decide as Hd; [|done]. intros [= E]. rewrite N.sub_0_r, drop_0 in *.
  assert (take (length k) (take (N.to_nat n) l) = k) as Ek by (by rewrite E, take_app_length).
  rewrite take_take in Ek. assert (len k ≤ n).
  { assert (length (take (N.to_nat n) l) = length (k ++ x)) as El by by rewrite E.
    rewrite length_take, length_app in El. unfold len in *. lia. }
  rewrite decide_True by (unfold len in *; lia). f_equal. unfold len in *. rewrite Nat2N.id. rewrite Nat.min_l in Ek by lia. done.
Qed.

(** Below a popped frame, the buffers start with the longer walk. *)
Lemma pre_down d W WK u k sink b stack : len W = d → (if d =? 0 then WK = [] else len WK + 1 = d) →
  walk_pre (d + 1) (W ++ [u]) (kinds_then d WK k) (mkEstate stack (W ++ [u]) (kinds_then d WK k) sink b).
Proof.
  intros HW HK. assert (len (W ++ [u]) = d + 1) as Hl by (rewrite len_app, len_cons, len_nil; lia).
  split; [done|]. simpl. split; [rewrite <- Hl; apply slice_all|].
  rewrite (proj2 (N.eqb_neq _ _)) by lia. unfold kinds_then. destruct (N.eqb_spec d 0) as [->|Hne]; [done|].
  rewrite len_app, len_cons, len_nil. split; [lia|]. replace (d + 1 - 1) with (len (WK ++ [k])); [apply slice_all|].
  rewrite len_app, len_cons, len_nil. lia.
Qed.

Lemma pre_up d W WK u k st : len W = d → (if d =? 0 then WK = [] else len WK + 1 = d) →
  walk_pre (d + 1) (W ++ [u]) (kinds_then d WK k) st → walk_pre d W WK st.
Proof.
  intros HW HK (Hl & Hw & Hk). split; [done|]. split; [rewrite <- HW; by eapply slice_prefix_drop|].
  rewrite (proj2 (N.eqb_neq _ _)) in Hk by lia. unfold kinds_then in Hk. destruct (N.eqb_spec d 0) as [->|Hne]; [done|].
  split; [done|]. destruct Hk as [_ Hk]. replace (d - 1) with (len WK) by lia. by eapply slice_prefix_drop.
Qed.

(** The rounds the tree of tails takes. *)
Fixpoint tree (e : nat) (u : NodeID) : nat :=
  match e with
  | O => 1
  | S e => S (sum_list ((λ h : hop, tree e h.1) <$> reverse (filter (λ h, sel e h = true) (row u))))
  end.

Lemma tree_bound Δ e u : (∀ u, len (row u) ≤ Δ) → N.of_nat (tree e u) ≤ (1 + Δ) ^ N.of_nat e.
Proof.
  intros HΔ. revert u. induction e as [|e IH]; intros u; [done|]. cbn [tree].
  rewrite (Nat2N.inj_succ e), N.pow_succ_r'. set (X := (1 + Δ) ^ N.of_nat e) in *.
  set (cs := reverse _). assert (len cs ≤ Δ) as Hc.
  { etrans; [|apply (HΔ u)]. unfold cs, len. rewrite length_reverse.
    pose proof (length_filter (λ h, sel e h = true) (row u)). lia. }
  assert (N.of_nat (sum_list ((λ h : hop, tree e h.1) <$> cs)) ≤ len cs * X) as Hs.
  { clear Hc. induction cs as [|h cs IHc]; csimpl; [lia|]. rewrite len_cons. pose proof (IH h.1). lia. }
  assert (1 ≤ X) by (unfold X; pose proof (N.pow_nonzero (1 + Δ) (N.of_nat e)); lia). nia.
Qed.

(** What running some frames does, in at most [B] rounds, as an outcome of
    [emit_list]. *)
Definition ran (B : nat) (st : estate) (rest : list frame) (d : N) (W : list NodeID) (WK : list KindID)
    (out : list Path * memBudget * option (option goerr)) : Prop :=
  let '(ps', b', o) := out in
  ∃ k st', (k ≤ B)%nat ∧ runs step k st st' ∧
    match o with
    | None => es_stack st' = rest ∧ sink_rep (es_sink st') ps' ∧ es_budget st' = b' ∧ walk_pre d W WK st'
    | Some err => ∃ st'', step st' = Some (inr (st'', err)) ∧ sink_rep (es_sink st'') ps' ∧ es_budget st'' = b'
    end.

Lemma ran_weaken B st rest d W WK d' W' WK' out : (∀ st', walk_pre d W WK st' → walk_pre d' W' WK' st') →
  ran B st rest d W WK out → ran B st rest d' W' WK' out.
Proof.
  intros Hp. destruct out as [[ps' b'] o]. intros (k & st' & Hk & Hr & Ho). exists k, st'. split; [done|].
  split; [done|]. destruct o; [done|]. destruct Ho as (? & ? & ? & ?). auto.
Qed.

Lemma ran_step B st st1 rest d W WK out : step st = Some (inl st1) →
  ran B st1 rest d W WK out → ran (S B) st rest d W WK out.
Proof.
  intros Hs. destruct out as [[ps' b'] o]. intros (k & st' & Hk & Hr & Ho). exists (S k), st'.
  split; [lia|]. split; [by econstructor|done].
Qed.

(** A list of frames is run one after the other. *)
Lemma ran_frames (ps_of : hop → list Path) (bd : hop → nat) d W WK cs : (∀ h rest st ps, h ∈ cs →
    es_stack st = mkFrame h.1 h.2 d :: rest → sink_rep (es_sink st) ps → walk_pre d W WK st →
    ran (bd h) st rest d W WK (emit_list cap rev (ps_of h) ps (es_budget st))) →
  ∀ rest st ps, es_stack st = ((λ h : hop, mkFrame h.1 h.2 d) <$> cs) ++ rest →
    sink_rep (es_sink st) ps → walk_pre d W WK st →
    ran (sum_list (bd <$> cs)) st rest d W WK (emit_list cap rev (concat (ps_of <$> cs)) ps (es_budget st)).
Proof.
  induction cs as [|h cs IH]; intros Hone rest st ps Hst Hs Hp.
  { simpl. exists 0%nat, st. split; [lia|]. split; [constructor|done]. }
  csimpl. rewrite emit_list_app. pose proof (Hone h _ st ps ltac:(left) Hst Hs Hp) as H1.
  destruct (emit_list cap rev (ps_of h) ps (es_budget st)) as [[ps1 b1] [err|]].
  - destruct H1 as (k & st' & Hk & Hr & Ho). exists k, st'. split; [lia|done].
  - destruct H1 as (k & st' & Hk & Hr & Hstk & Hs' & Hb' & Hp').
    assert (∀ h' rest st ps, h' ∈ cs → es_stack st = mkFrame h'.1 h'.2 d :: rest → sink_rep (es_sink st) ps →
      walk_pre d W WK st → ran (bd h') st rest d W WK (emit_list cap rev (ps_of h') ps (es_budget st))) as Hone'
      by (intros; apply Hone; [by right|done..]).
    pose proof (IH Hone' rest st' ps1 Hstk Hs' Hp') as H2. rewrite Hb' in H2.
    destruct (emit_list cap rev (concat (ps_of <$> cs)) ps1 b1) as [[ps2 b2] o2].
    destruct H2 as (k2 & st2 & Hk2 & Hr2 & Ho2). exists (k + k2)%nat, st2.
    split; [lia|]. split; [by eapply runs_trans|done].
Qed.

Lemma ran_leaf u k d W WK rest st ps : good u 0 → es_stack st = mkFrame u k d :: rest →
  sink_rep (es_sink st) ps → walk_pre d W WK st → 0 < d → d + 1 < 2 ^ 16 →
  ran 1 st rest d W WK (emit_list cap rev [mkPath (W ++ [u]) (kinds_then d WK k)] ps (es_budget st)).
Proof.
  intros Hg Hst Hs Hp Hd Hb. pose proof Hp as (HW & _ & HK). rewrite (proj2 (N.eqb_neq _ _)) in HK by lia.
  destruct HK as [HK _]. assert (len (W ++ [u]) = d + 1) as Hl by (rewrite len_app, len_cons, len_nil; lia).
  pose proof (step_leaf st _ rest _ _ Hst Hg (pop_pre d W WK st u k Hp) ltac:(lia)) as Hstep.
  set (st1 := mkEstate _ _ _ _ _) in Hstep.
  assert (∀ sink b, walk_pre d W WK (mkEstate rest (W ++ [u]) (kinds_then d WK k) sink b)) as Hpre.
  { intros sink b. assert (if d =? 0 then WK = [] else len WK + 1 = d) as HK' by (by rewrite (proj2 (N.eqb_neq _ _)) by lia).
    apply (pre_up d W WK u k); [done..|]. by apply pre_down. }
  destruct (enum_emit_spec cap rev st1 ps Hs) as (sink' & ps' & b' & o & E & Hs' & Eem).
  { unfold path_wf, st1, kinds_then. cbn [es_walk es_walkKinds p_Nodes p_Kinds].
    rewrite Hl, (proj2 (N.eqb_neq d 0)) by lia. assert (len (WK ++ [k]) = len WK + 1) as -> by apply len_app. lia. }
  cbn [st1 es_walk es_walkKinds es_budget es_stack] in E, Eem. rewrite E. cbv zeta in Eem. rewrite Eem in Hstep. destruct o as [err|].
  - exists 0%nat, st. split; [lia|]. split; [constructor|]. by eexists.
  - exists 1%nat. eexists. split; [done|]. split; [econstructor; [exact Hstep|constructor]|]. simpl. auto.
Qed.

Lemma ran_frame e : ∀ u k d W WK rest st ps, good u e → es_stack st = mkFrame u k d :: rest →
  sink_rep (es_sink st) ps → walk_pre d W WK st → 0 < d + N.of_nat e → d + N.of_nat e + 1 < 2 ^ 16 →
  ran (tree e u) st rest d W WK
    (emit_list cap rev (complete (W ++ [u]) (kinds_then d WK k) <$> tails e u) ps (es_budget st)).
Proof.
  induction e as [|e IH]; intros u k d W WK rest st ps Hg Hst Hs Hp Hpos Hb.
  { cbn [tails]. unfold complete. simpl. rewrite !app_nil_r. apply ran_leaf; [done..|lia|lia]. }
  pose proof (step_node st _ rest _ _ e Hst Hg (pop_pre d W WK st u k Hp)) as Hstep. simpl in Hstep.
  rewrite u16_small in Hstep by lia. cbn [tree]. eapply ran_step; [exact Hstep|].
  set (cs := reverse _) in *. pose proof Hp as (HW & _ & HK).
  assert (if d =? 0 then WK = [] else len WK + 1 = d) as HK'.
  { by destruct (N.eqb_spec d 0); [|destruct HK]. }
  eapply ran_weaken; [intros st'; by apply (pre_up d W WK u k)|].
  set (W' := W ++ [u]). set (WK' := kinds_then d WK k).
  assert (complete W' WK' <$> tails (S e) u =
    concat ((λ h, complete (W' ++ [h.1]) (kinds_then (d + 1) WK' h.2) <$> tails e h.1) <$> cs)) as ->.
  { cbn [tails]. fold cs. rewrite <- concat_fmap, <- list_fmap_compose. f_equal. apply list_fmap_ext.
    intros _ h _. simpl. rewrite <- list_fmap_compose. apply list_fmap_ext. intros _ tl _. simpl.
    assert (kinds_then (d + 1) WK' h.2 = WK' ++ [h.2]) as ->
      by (unfold kinds_then; by rewrite (proj2 (N.eqb_neq _ _)) by lia).
    unfold complete. csimpl. by rewrite <- !(assoc_L app). }
  set (st1 := mkEstate _ _ _ _ _). change (es_budget st) with (es_budget st1).
  apply (ran_frames (λ h, complete (W' ++ [h.1]) (kinds_then (d + 1) WK' h.2) <$> tails e h.1) (λ h, tree e h.1));
    [|done|done|by apply pre_down].
  intros h rest' st' ps' Hin Hst' Hs' Hp'. apply elem_of_reverse, list_elem_of_filter in Hin as [Hsel Hin].
  apply IH; [by eapply good_child|done|done|done|lia|lia].
Qed.

(** The whole loop, from its first frame. *)
Lemma walk_all e u sink b ps fuel : good u e → sink_rep sink ps → 0 < N.of_nat e → N.of_nat e + 1 < 2 ^ 16 →
  N.of_nat (tree e u) < fuel →
  ∃ sink', (r ← loop fuel step (mkEstate [mkFrame u 0 0] [] [] sink b); Some (enum_finish r)) =
    (let '(ps', b', o) := emit_list cap rev (complete [u] [] <$> tails e u) ps b in Some (sink', b', default None o)) ∧
    sink_rep sink' (emit_list cap rev (complete [u] [] <$> tails e u) ps b).1.1.
Proof.
  intros Hg Hs Hpos Hb Hf.
  pose proof (ran_frame e u 0 0 [] [] [] (mkEstate [mkFrame u 0 0] [] [] sink b) ps Hg eq_refl Hs) as Hran.
  specialize (Hran ltac:(done) ltac:(lia) ltac:(lia)). simpl in Hran. change (kinds_then 0 [] 0) with (@nil KindID) in Hran.
  destruct (emit_list cap rev (complete [u] [] <$> tails e u) ps b) as [[ps' b'] o].
  destruct Hran as (k & st' & Hk & Hr & Ho). destruct o as [err|].
  - destruct Ho as (st'' & Hx & Hs'' & Hb''). rewrite (loop_runs step k _ st' _ fuel Hr Hx) by lia. simpl.
    eexists. rewrite Hb''. split; [done|]. by apply sink_rep_buffers.
  - destruct Ho as (Hstk & Hs' & Hb' & _).
    rewrite (loop_runs step k _ st' _ fuel Hr (step_end st' Hstk)) by lia. simpl.
    eexists. rewrite Hb'. split; [done|]. by apply sink_rep_buffers.
Qed.
End walk.

(** ** Valid paths *)

Section paths.
Context (rows : bool → NodeID → list hop) (kinds : option KindMask).

(** [p] leads from [a] to [b] over allowed edges, taken in the direction
    [fwd]. *)
Definition valid_path (fwd : bool) (a b : NodeID) (p : Path) : Prop :=
  len (p_Nodes p) = len (p_Kinds p) + 1 ∧ idx (p_Nodes p) 0 = Some a ∧
  idx (p_Nodes p) (len (p_Kinds p)) = Some b ∧
  ∀ i u w k, idx (p_Nodes p) i = Some u → idx (p_Nodes p) (i + 1) = Some w → idx (p_Kinds p) i = Some k →
    (w, k) ∈ rows fwd u ∧ allowed kinds k = true.

(** The same, hop by hop. *)
Fixpoint walks (fwd : bool) (u : NodeID) (tl : list hop) : Prop :=
  match tl with
  | [] => True
  | h :: tl => h ∈ rows fwd u ∧ allowed kinds h.2 = true ∧ walks fwd h.1 tl
  end.
Fixpoint end_of (u : NodeID) (tl : list hop) : NodeID :=
  match tl with [] => u | h :: tl => end_of h.1 tl end.

Lemma walks_valid fwd u tl b : walks fwd u tl ∧ end_of u tl = b ↔ valid_path fwd u b (complete [u] [] tl).
Proof.
  unfold valid_path, complete. simpl. revert u. induction tl as [|[w k] tl IH]; intros u; csimpl.
  - split.
    + intros [_ <-]. split_and!; [done..|]. intros i ??? _ _ Hk. by rewrite idx_nil in Hk.
    + by intros (_ & _ & [= <-] & _).
  - rewrite !len_cons, !len_fmap. setoid_rewrite len_fmap in IH. setoid_rewrite len_cons in IH. setoid_rewrite len_fmap in IH. split.
    + intros ([Hin [Hal Hw]] & He). destruct (proj1 (IH w) (conj Hw He)) as (_ & _ & Hend & Hstep).
      split_and!; [lia|done|by rewrite idx_cons_succ|]. intros i u' w' k' Hu Hw' Hk'.
      destruct (decide (i = 0)) as [->|Hne].
      * rewrite idx_cons_succ in Hw'. unfold idx in Hu, Hw', Hk'. simpl in *. by simplify_eq.
      * replace i with (i - 1 + 1) in Hu, Hw', Hk' by lia. rewrite idx_cons_succ in Hu, Hw'. rewrite idx_cons_succ in Hk'. by eapply Hstep.
    + intros (_ & _ & Hend & Hstep). rewrite idx_cons_succ in Hend.
      destruct (Hstep 0 u w k) as [H1 H2]; [done..|]. destruct (proj2 (IH w)) as [H3 H4].
      { split_and!; [lia|done|done|]. intros i u' w' k' Hu Hw Hk. apply (Hstep (i + 1)); by rewrite idx_cons_succ. }
      done.
Qed.

(** Every valid path is a completed tail. *)
Lemma valid_complete fwd a b p : valid_path fwd a b p → ∃ tl, p = complete [a] [] tl ∧ len tl = len (p_Kinds p).
Proof.
  intros (Hl & Ha & _). destruct p as [ns ks]. simpl in *. destruct ns as [|a' ns]; [done|].
  assert (a' = a) as -> by (unfold idx in Ha; simpl in Ha; congruence).
  rewrite len_cons in Hl. exists (zip ns ks). unfold complete. simpl.
  rewrite fst_zip, snd_zip by (unfold len in *; lia). split; [done|]. unfold len in *. rewrite length_zip_with. lia.
Qed.

Lemma idx_reverse {A} (l : list A) i : i < len l → idx (reverse l) i = idx l (len l - 1 - i).
Proof. intros Hi. unfold idx, len in *. rewrite reverse_lookup by lia. f_equal. lia. Qed.
Lemma len_reverse {A} (l : list A) : len (reverse l) = len l.
Proof. unfold len. by rewrite length_reverse. Qed.

Hypothesis Hsym : ∀ u w k, (w, k) ∈ rows true u ↔ (u, k) ∈ rows false w.

Lemma rows_sym fwd u w k : (w, k) ∈ rows fwd u ↔ (u, k) ∈ rows (negb fwd) w.
Proof. destruct fwd; simpl; [done|]. by rewrite Hsym. Qed.

(** Read backwards, a path goes the other way. *)
Lemma valid_reverse fwd a b p : valid_path fwd a b p → valid_path (negb fwd) b a (path_reverse p).
Proof.
  intros (Hl & Ha & Hb & Hs). unfold valid_path, path_reverse. simpl. rewrite !len_reverse.
  split_and!; [done| | |].
  - rewrite idx_reverse by lia. rewrite <- Hb. f_equal. lia.
  - rewrite idx_reverse by lia. rewrite <- Ha. f_equal. lia.
  - intros i u w k Hu Hw Hk. pose proof (idx_lt _ _ _ Hu) as Hu'. pose proof (idx_lt _ _ _ Hw) as Hw'.
    pose proof (idx_lt _ _ _ Hk) as Hk'. rewrite len_reverse in Hu', Hw'. rewrite len_reverse in Hk'.
    rewrite idx_reverse in Hu by lia. rewrite idx_reverse in Hw by lia. rewrite idx_reverse in Hk by lia.
    destruct (Hs (len (p_Kinds p) - 1 - i) w u k) as [H1 H2]; [rewrite <- Hw; f_equal; lia|rewrite <- Hu; f_equal; lia|done|].
    split; [by apply rows_sym; destruct fwd|done].
Qed.

Lemma walks_nsteps fwd u tl : walks fwd u tl → nsteps (λ u w, reached kinds (rows fwd u) w) (length tl) u (end_of u tl).
Proof.
  revert u. induction tl as [|[w k] tl IH]; intros u; simpl; [constructor|].
  intros (Hin & Hal & Hw). apply (nsteps_l _ _ _ w); [by exists k|]. by apply IH.
Qed.
End paths.

(** ** The tails *)

Section tails.
Context (row : NodeID → list hop) (sel : nat → hop → bool).

Fixpoint sel_chain (e : nat) (u : NodeID) (tl : list hop) : Prop :=
  match e, tl with
  | O, [] => True
  | S e, h :: tl => h ∈ row u ∧ sel e h = true ∧ sel_chain e h.1 tl
  | _, _ => False
  end.

Lemma tails_elem e u tl : tl ∈ tails row sel e u ↔ sel_chain e u tl.
Proof.
  revert u tl. induction e as [|e IH]; intros u tl; simpl.
  - rewrite list_elem_of_singleton. destruct tl; split; done || by intros [= ].
  - rewrite list_elem_of_concat. split.
    + intros (l & Hl & (h & -> & Hh)%list_elem_of_fmap). apply list_elem_of_fmap in Hl as (tl' & -> & Ht).
      apply elem_of_reverse, list_elem_of_filter in Hh as [??]. split_and!; [done..|by apply IH].
    + destruct tl as [|h tl]; [done|]. intros (H1 & H2 & H3). eexists. split; [|apply list_elem_of_fmap; exists h; split; [done|]].
      * apply list_elem_of_fmap. exists tl. split; [done|by apply IH].
      * by apply elem_of_reverse, list_elem_of_filter.
Qed.

(** Rows without repetitions give tails without repetitions. *)
Lemma tails_nodup e u : (∀ u, NoDup (row u)) → NoDup (tails row sel e u).
Proof.
  intros Hr. revert u. induction e as [|e IH]; intros u; simpl; [apply NoDup_singleton|].
  assert (NoDup (reverse (filter (λ h, sel e h = true) (row u)))) as Hnd
    by (rewrite reverse_Permutation; by apply NoDup_filter).
  induction Hnd as [|h l Hni Hnd IHl]; csimpl; [constructor|]. apply NoDup_app. split_and!; [|intros tl|done].
  - apply NoDup_fmap_2; [by intros ?? [= ->]|apply IH].
  - intros (tl' & -> & _)%list_elem_of_fmap Hin. apply list_elem_of_concat in Hin as (k & Hk & (h' & -> & Hh')%list_elem_of_fmap).
    apply list_elem_of_fmap in Hk as (tl2 & [= <- _] & _). done.
Qed.
End tails.

(** ** The two enumerators *)

(** Visiting a row pushes the selected neighbours, so that the last is on top. *)
Lemma fold_push (sel : hop → bool) d (push : hop → list frame → option (list frame)) l rest :
  (∀ h stack, h ∈ l → push h stack = Some (if sel h then mkFrame h.1 h.2 d :: stack else stack)) →
  foldM (λ stack h, push h stack) l rest =
  Some (((λ h : hop, mkFrame h.1 h.2 d) <$> reverse (filter (λ h, sel h = true) l)) ++ rest).
Proof.
  revert rest. induction l as [|h l IH]; intros rest Hp; [done|]. cbn [foldM]. rewrite Hp by left. cbn [mbind option_bind].
  rewrite IH by (intros; apply Hp; by right). rewrite filter_cons. destruct (sel h) eqn:Es.
  - rewrite decide_True by done. rewrite reverse_cons, fmap_app, <- (assoc_L app). done.
  - by rewrite decide_False by congruence.
Qed.

Section enumerators.
Context `{TraverseView V} (s : V) (rows : bool → NodeID → list hop).
Context {HL : TraverseLaws s rows}.
Context (kinds : option KindMask).
Hypothesis Hk : kinds_wf kinds.
Let n := tv_NodeCount s.
Let E := hops rows kinds true.

Context (Δ : N).
Hypothesis HΔ : ∀ fwd u, len (rows fwd u) ≤ Δ.

Lemma row_range fwd u h : h ∈ rows fwd u → h.1 < n.
Proof. destruct h as [w k]. intros Hin. by eapply tl_range. Qed.

(** *** From a node down to the seed of a search *)

Section down.
Context (fwd : bool) (distBuf : scratch) (m : gmap N nat) (seed : NodeID) (D : nat).
Hypothesis Hsc : scratch_rep n distBuf m.
Hypothesis Hm : bfs_map (hops rows kinds (negb fwd)) seed D m.
Hypothesis HD : (D ≤ 127)%nat.

Definition down_good (u : NodeID) (e : nat) : Prop := u < n ∧ m !! u = Some e.
Definition down_sel (e : nat) (h : hop) : bool := allowed kinds h.2 && bool_decide (m !! h.1 = Some e).
(** The paths [enumerate] emits, as it walks them. *)
Definition down_paths (e : nat) (u : NodeID) : list Path :=
  complete [u] [] <$> tails (rows fwd) down_sel e u.

Lemma down_bound u e : m !! u = Some e → (e ≤ 127)%nat.
Proof. intros Hu. apply (proj1 Hm) in Hu as [_ ?]. lia. Qed.

Lemma enum_step_node cap st cur rest w wk e : es_stack st = cur :: rest → down_good (f_node cur) (S e) →
  enum_pop cur (es_walk st) (es_walkKinds st) = Some (w, wk) →
  enum_step s distBuf kinds cap fwd st = Some (inl (mkEstate
    (((λ h : hop, mkFrame h.1 h.2 (u16 (f_depth cur + 1))) <$>
      reverse (filter (λ h, down_sel e h = true) (rows fwd (f_node cur)))) ++ rest) w wk (es_sink st) (es_budget st))).
Proof.
  intros Hst [Hu He] Hpop. pose proof (down_bound _ _ He) as Hb. unfold enum_step. rewrite Hst, Hpop.
  cbn [mbind option_bind]. rewrite (proj2 Hsc _ Hu), He. cbn [mbind option_bind fmap option_fmap option_map].
  rewrite (proj2 (Z.eqb_neq _ _)) by lia. rewrite (visitAdjacency_rows s rows) by done.
  rewrite (fold_push (down_sel e) (u16 (f_depth cur + 1))); [done|].
  intros h stack Hin. rewrite (kindAllowed_eq _ _ Hk). cbn [mbind option_bind]. unfold down_sel.
  destruct (allowed kinds h.2); [|done]. simpl. rewrite (proj2 Hsc _ (row_range _ _ _ Hin)). simpl.
  destruct (m !! h.1) as [e'|] eqn:Ee; simpl; [|done]. rewrite i8_small by lia.
  pose proof (down_bound _ _ Ee). destruct (decide (e' = e)) as [->|Hne].
  - rewrite bool_decide_true by done. by rewrite (proj2 (Z.eqb_eq _ _)) by lia.
  - rewrite bool_decide_false by congruence. by rewrite (proj2 (Z.eqb_neq _ _)) by lia.
Qed.

Lemma enum_step_leaf cap st cur rest w wk : es_stack st = cur :: rest → down_good (f_node cur) 0 →
  enum_pop cur (es_walk st) (es_walkKinds st) = Some (w, wk) → 2 ≤ len w →
  enum_step s distBuf kinds cap fwd st = enum_emit cap (negb fwd) (mkEstate rest w wk (es_sink st) (es_budget st)).
Proof.
  intros Hst [Hu He] Hpop Hl. unfold enum_step. rewrite Hst, Hpop. cbn [mbind option_bind].
  rewrite (proj2 Hsc _ Hu), He. cbn [mbind option_bind fmap option_fmap option_map].
  change (Z.of_nat 0 =? 0)%Z with true. cbn iota. by rewrite (proj2 (N.ltb_ge _ _)) by lia.
Qed.

(** With enough rounds, [enumerate] emits the paths; from the seed itself it
    emits nothing. *)
Lemma enumerate_spec u e cap sink b ps fuel : u < n → m !! u = Some e → sink_rep sink ps →
  (1 + Δ) ^ N.of_nat e < fuel → ∃ sink',
    enumerate fuel s u distBuf kinds cap b sink fwd =
      (let '(ps', b', o) := emit_list cap (negb fwd) (if (0 <? e)%nat then down_paths e u else []) ps b in
       Some (sink', b', default None o)) ∧
    sink_rep sink' (emit_list cap (negb fwd) (if (0 <? e)%nat then down_paths e u else []) ps b).1.1.
Proof.
  intros Hu He Hs Hf. pose proof (down_bound _ _ He) as Hb. unfold enumerate, down_paths.
  destruct (Nat.ltb_spec 0 e) as [Hpos|Hz].
  - pose proof (tree_bound (rows fwd) down_sel Δ e u (HΔ fwd)).
    apply (walk_all _ (rows fwd) down_sel down_good); [| | | |done|done|lia|lia|lia].
    + intros st Hst. unfold enum_step. by rewrite Hst.
    + intros st cur rest w wk. apply enum_step_leaf.
    + intros st cur rest w wk e'. apply enum_step_node.
    + intros u' e' h _ Hin [_ Hsel%bool_decide_eq_true]%andb_true_iff. split; [by eapply row_range|done].
  - assert (e = 0%nat) as -> by lia. rewrite N.pow_0_r in Hf.
    set (st1 := mkEstate [mkFrame u 0 0] [] [] sink b). set (st2 := mkEstate [] [u] [] sink b).
    assert (enum_step s distBuf kinds cap fwd st1 = Some (inl st2)) as H1.
    { unfold enum_step, st1. simpl. rewrite (proj2 Hsc _ Hu), He. done. }
    assert (runs (enum_step s distBuf kinds cap fwd) 1 st1 st2) as Hr by (econstructor; [exact H1|constructor]).
    rewrite (loop_runs _ 1 st1 st2 (st2, None) fuel Hr eq_refl) by done. simpl.
    eexists. split; [done|]. by apply sink_rep_buffers.
Qed.

Lemma negb_hops u w : hops rows kinds (negb fwd) w u ↔ hops rows kinds fwd u w.
Proof. destruct fwd; simpl; [apply (hops_flip s rows)|symmetry; apply (hops_flip s rows)]. Qed.

Lemma down_shortest u e : m !! u = Some e ↔ shortest (hops rows kinds fwd) e u seed ∧ (e ≤ D)%nat.
Proof.
  rewrite (bfs_map_iff _ _ _ _ _ _ Hm). rewrite <- (shortest_flip (hops rows kinds fwd)).
  assert (∀ j x y, nsteps (hops rows kinds (negb fwd)) j x y ↔ nsteps (flip (hops rows kinds fwd)) j x y) as Hn.
  { intros j x y. split; apply (nsteps_congruence (λ x, x)); intros ??; apply negb_hops. }
  unfold shortest. split; intros [[H1 H2] H3]; (split; [|done]); (split; [by apply Hn|]);
    intros j Hj Hs; apply (H2 j Hj); by apply Hn.
Qed.

(** The paths are the shortest ones to the seed. *)
Lemma down_paths_elem u e p : m !! u = Some e →
  p ∈ down_paths e u ↔ valid_path rows kinds fwd u seed p ∧ len (p_Kinds p) = N.of_nat e.
Proof.
  intros He. unfold down_paths. rewrite list_elem_of_fmap. setoid_rewrite tails_elem.
  assert (∀ tl, sel_chain (rows fwd) down_sel e u tl ↔
    (walks rows kinds fwd u tl ∧ end_of u tl = seed) ∧ length tl = e) as Hch.
  { revert u He. induction e as [|e IH]; intros u He [|h tl]; simpl.
    - apply down_shortest in He as [->%shortest_0 _]. tauto.
    - split; [done|]. intros [_ [=]].
    - split; [done|]. by intros [_ [=]].
    - unfold down_sel at 1. rewrite andb_true_iff, bool_decide_eq_true. split.
      + intros (Hin & [Hal Hh] & Hc). apply (IH _ Hh) in Hc as [[Hw Hend] <-]. done.
      + intros [[(Hin & Hal & Hw) Hend] [= Hlen]].
        assert (m !! h.1 = Some e) as Hh; [|split_and!; [done..|by apply IH]].
        apply down_shortest in He as [Hs HeD]. apply down_shortest. split; [|lia].
        pose proof (walks_nsteps _ _ _ _ _ Hw) as Hn. rewrite Hend, Hlen in Hn.
        assert (hops rows kinds fwd u h.1) as Hh by (exists h.2; by destruct h).
        eapply (shortest_split _ 1 e u h.1 seed); [done|by apply nsteps_once|exact Hn]. }
  split.
  - intros (tl & -> & [Hv <-]%Hch). split; [by apply walks_valid|]. unfold complete. simpl. unfold len. by rewrite length_fmap.
  - intros [Hv Hl]. destruct (valid_complete _ _ _ _ _ _ Hv) as (tl & -> & Htl). exists tl. split; [done|].
    apply Hch. split; [by apply walks_valid|]. unfold len in *. lia.
Qed.
End down.

(** *** Between a root and a terminal *)

Section between.
Context (scF scT : scratch) (r t : NodeID) (D : nat) (mF mT : gmap N nat).
Hypothesis HF : scratch_rep n scF mF.
Hypothesis HT : scratch_rep n scT mT.
Hypothesis HmF : bfs_map E r D mF.
Hypothesis HmT : bfs_map (flip E) t D mT.
Hypothesis HD : shortest E D r t.
Hypothesis HDb : (D ≤ 127)%nat.

(** [e] hops are left at [u]: the two distances add up. *)
Definition mid_good (u : NodeID) (e : nat) : Prop :=
  u < n ∧ (e ≤ D)%nat ∧ mT !! u = Some e ∧ mF !! u = Some (D - e)%nat.
Definition mid_sel (e : nat) (h : hop) : bool :=
  allowed kinds h.2 && bool_decide (mF !! h.1 = Some (D - e)%nat) && bool_decide (mT !! h.1 = Some e).
Definition mid_paths : list Path := complete [r] [] <$> tails (rows true) mid_sel D r.

Lemma mT_terminal u e : mT !! u = Some e → u = t ↔ e = 0%nat.
Proof.
  intros Hu. apply (proj1 HmT) in Hu as [Hs _]. split.
  - intros ->. eapply shortest_unique; [exact Hs|]. by apply shortest_0.
  - intros ->. by apply shortest_0 in Hs.
Qed.

Lemma pair_step_node cap st cur rest w wk e : es_stack st = cur :: rest → mid_good (f_node cur) (S e) →
  enum_pop cur (es_walk st) (es_walkKinds st) = Some (w, wk) →
  pairEnum_step s t (Z.of_nat D) kinds cap scF scT st = Some (inl (mkEstate
    (((λ h : hop, mkFrame h.1 h.2 (u16 (f_depth cur + 1))) <$>
      reverse (filter (λ h, mid_sel e h = true) (rows true (f_node cur)))) ++ rest) w wk (es_sink st) (es_budget st))).
Proof.
  intros Hst (Hu & He & HeT & HeF) Hpop. unfold pairEnum_step. rewrite Hst, Hpop. cbn [mbind option_bind].
  assert (f_node cur ≠ t) as Hne by (intros Et; apply (mT_terminal _ _ HeT) in Et; lia).
  rewrite (proj2 (N.eqb_neq _ _) Hne), (proj2 HF _ Hu), HeF. cbn [mbind option_bind fmap option_fmap option_map].
  rewrite (visitAdjacency_rows s rows) by done. rewrite (fold_push (mid_sel e) (u16 (f_depth cur + 1))); [done|].
  intros h stack Hin. rewrite (kindAllowed_eq _ _ Hk). cbn [mbind option_bind]. unfold mid_sel.
  destruct (allowed kinds h.2); [|done]. pose proof (row_range _ _ _ Hin) as Hh.
  rewrite (proj2 HF _ Hh). cbn [negb andb mbind option_bind]. destruct (mF !! h.1) as [f|] eqn:Ef; [|done].
  cbn [fmap option_fmap option_map]. rewrite i8_small by lia. destruct (decide (f = D - e)%nat) as [->|Hnf].
  2: { rewrite bool_decide_false by congruence. by rewrite (proj2 (Z.eqb_neq _ _)) by lia. }
  rewrite (proj2 (Z.eqb_eq _ _)), (bool_decide_true (Some _ = _)) by (done || lia). rewrite (proj2 HT _ Hh).
  cbn [andb mbind option_bind]. destruct (mT !! h.1) as [b|] eqn:Eb; [|done]. cbn [fmap option_fmap option_map].
  destruct (decide (b = e)) as [->|Hnb].
  - rewrite bool_decide_true by done. by rewrite (proj2 (Z.eqb_eq _ _)) by lia.
  - rewrite bool_decide_false by congruence. by rewrite (proj2 (Z.eqb_neq _ _)) by lia.
Qed.

Lemma pair_step_leaf cap st cur rest w wk : es_stack st = cur :: rest → mid_good (f_node cur) 0 →
  enum_pop cur (es_walk st) (es_walkKinds st) = Some (w, wk) → 2 ≤ len w →
  pairEnum_step s t (Z.of_nat D) kinds cap scF scT st = enum_emit cap false (mkEstate rest w wk (es_sink st) (es_budget st)).
Proof.
  intros Hst (Hu & He & HeT & HeF) Hpop Hl. unfold pairEnum_step. rewrite Hst, Hpop. cbn [mbind option_bind].
  assert (f_node cur = t) as -> by by apply (mT_terminal _ _ HeT). by rewrite N.eqb_refl.
Qed.

Lemma mid_root : r < n → mid_good r D.
Proof.
  intros Hr. split_and!; [done|done| |].
  - apply (bfs_map_iff _ _ _ _ _ _ HmT). split; [by apply shortest_flip|done].
  - rewrite Nat.sub_diag. apply (bfs_map_iff _ _ _ _ _ _ HmF). split; [by apply shortest_0|lia].
Qed.

Lemma pairEnumerate_spec cap sink b ps fuel : r < n → (0 < D)%nat → sink_rep sink ps →
  (1 + Δ) ^ N.of_nat D < fuel → ∃ sink',
    pairEnumerate fuel s r t (Z.of_nat D) kinds cap b scF scT sink =
      (let '(ps', b', o) := emit_list cap false mid_paths ps b in Some (sink', b', default None o)) ∧
    sink_rep sink' (emit_list cap false mid_paths ps b).1.1.
Proof.
  intros Hr Hpos Hs Hf. unfold pairEnumerate, mid_paths.
  pose proof (tree_bound (rows true) mid_sel Δ D r (HΔ true)).
  apply (walk_all _ (rows true) mid_sel mid_good); [| | | |by apply mid_root|done|lia|lia|lia].
  - intros st Hst. unfold pairEnum_step. by rewrite Hst.
  - intros st cur rest w wk. apply pair_step_leaf.
  - intros st cur rest w wk e'. apply pair_step_node.
  - intros u' e' h (_ & Hle & _) Hin [[_ HsF%bool_decide_eq_true]%andb_true_iff HsT%bool_decide_eq_true]%andb_true_iff.
    split_and!; [by eapply row_range|lia|done|done].
Qed.

(** The paths are the shortest ones of the pair. *)
Lemma mid_chain e u tl : mid_good u e →
  sel_chain (rows true) mid_sel e u tl ↔ (walks rows kinds true u tl ∧ end_of u tl = t) ∧ length tl = e.
Proof.
  revert u tl. induction e as [|e IH]; intros u [|h tl] (Hu & He & HeT & HeF); simpl.
  - assert (u = t) as -> by by apply (mT_terminal _ _ HeT). tauto.
  - split; [done|]. intros [_ [=]].
  - split; [done|]. by intros [_ [=]].
  - unfold mid_sel at 1. rewrite !andb_true_iff, !bool_decide_eq_true. split.
    + intros (Hin & [[Hal HhF] HhT] & Hc). apply IH in Hc as [[Hw Hend] <-]; [done|].
      split_and!; [by eapply row_range|lia|done|done].
    + intros [[(Hin & Hal & Hw) Hend] [= Hlen]]. pose proof (row_range _ _ _ Hin) as Hh.
      assert (E u h.1) as HE by (exists h.2; by destruct h).
      pose proof (walks_nsteps _ _ _ _ _ Hw) as Hn. rewrite Hend, Hlen in Hn.
      apply (proj1 HmF) in HeF as [[Hsteps _] _].
      assert (shortest E (D - e) r h.1 ∧ shortest E e h.1 t) as [H1 H2].
      { apply (shortest_split E (D - e) e r h.1 t); [by replace (D - e + e)%nat with D by lia| |exact Hn].
        replace (D - e)%nat with (S (D - S e)) by lia. by apply (nsteps_r (D - S e) r u). }
      assert (mF !! h.1 = Some (D - e)%nat) as HhF by (apply (bfs_map_iff _ _ _ _ _ _ HmF); split; [done|lia]).
      assert (mT !! h.1 = Some e) as HhT by (apply (bfs_map_iff _ _ _ _ _ _ HmT); split; [by apply shortest_flip|lia]).
      split_and!; [done..|]. apply IH; [|done]. split_and!; [done|lia|done|done].
Qed.

Lemma mid_paths_elem p : r < n →
  p ∈ mid_paths ↔ valid_path rows kinds true r t p ∧ len (p_Kinds p) = N.of_nat D.
Proof.
  intros Hr. unfold mid_paths. rewrite list_elem_of_fmap. setoid_rewrite tails_elem.
  setoid_rewrite (λ tl, mid_chain D r tl (mid_root Hr)). split.
  - intros (tl & -> & Hv & Hl). split; [by apply walks_valid|]. unfold complete. simpl. unfold len. rewrite length_fmap. lia.
  - intros [Hv Hl]. destruct (valid_complete _ _ _ _ _ _ Hv) as (tl & -> & Htl). exists tl. split; [done|].
    split; [by apply walks_valid|]. unfold len in *. lia.
Qed.
End between.
End enumerators.
