(* ===== verification/Strategy.v ===== *)
(** * All shortest paths

    [internal/engine/traverse/traverse.go]: the two strategies and their
    dispatch.  The main lemma says what a query that ends without an error
    returns, whichever strategy answered it: for every pair of end points, in
    order, the shortest paths as its mode selects them, cut at the limit.  A
    query never panics, and an error is one the caller asked to be told about:
    the memory limit, its own context, or a query that is too large. *)

From S2P Require Import Prelude Bitset ViewAdj PathSink Traverse Bfs Enumerate.
From stdpp Require Import relations.
#[local] Open Scope N_scope.
From stdpp Require Import options.
Unset Default Proof Using.

(** ** Loops that may stop *)

Lemma iter_b_inv {A S} (P : list A → S → Prop) (Q : S → Prop) (f : A → S → option (S * bool)) l s :
  P [] s → (∀ pre x post s, l = pre ++ x :: post → P pre s →
    ∃ s' c, f x s = Some (s', c) ∧ if (c : bool) then P (pre ++ [x]) s' else Q s') →
  ∃ s' c, iter_b f l s = Some (s', c) ∧ if (c : bool) then P l s' else Q s'.
Proof.
  intros H0 Hstep. assert (∀ post pre s, l = pre ++ post → P pre s →
    ∃ s' c, iter_b f post s = Some (s', c) ∧ if (c : bool) then P l s' else Q s') as Hgo; [|by apply (Hgo l [])].
  clear s H0. induction post as [|x post IH]; intros pre s El Hp.
  - rewrite app_nil_r in El. subst. by exists s, true.
  - destruct (Hstep pre x post s El Hp) as (s1 & c & E & Hc). cbn [iter_b]. rewrite E. cbn [mbind option_bind].
    destruct c; [|by exists s1, false]. apply (IH (pre ++ [x])); [|done]. by rewrite <- (assoc_L app).
Qed.

Lemma iter_until_inv {A S} (P : list A → S → Prop) (Q : S → Prop) (f : A → S → option (S * bool)) l s :
  P [] s → (∀ pre x post s, l = pre ++ x :: post → P pre s →
    ∃ s' c, f x s = Some (s', c) ∧ if (c : bool) then P (pre ++ [x]) s' else Q s') →
  ∃ s', iter_until f l s = Some s' ∧ (P l s' ∨ Q s').
Proof.
  intros H0 Hstep. destruct (iter_b_inv P Q f l s H0 Hstep) as (s' & c & E & Hc).
  unfold iter_until. rewrite E. simpl. exists s'. split; [done|]. destruct c; tauto.
Qed.

(** ** Limits *)

(** A list cut at a limit, where zero or less is none. *)
Definition lim {A} (limit : Z) (l : list A) : list A := if (0 <? limit)%Z then take (Z.to_nat limit) l else l.

Lemma lim_app_full {A} limit (l k : list A) : (0 < limit ≤ Z.of_N (len (lim limit l)))%Z →
  lim limit (l ++ k) = lim limit l.
Proof.
  unfold lim. destruct (Z.ltb_spec 0 limit) as [Hpos|?]; [|lia]. intros [_ Hl].
  unfold len in Hl. rewrite length_take in Hl. rewrite take_app_le by lia. done.
Qed.

Lemma lim_app_room {A} limit (l k : list A) : ((0 < limit)%Z → (Z.of_N (len (lim limit l)) < limit)%Z) →
  lim limit (l ++ k) = lim limit (lim limit l ++ k).
Proof.
  unfold lim. destruct (Z.ltb_spec 0 limit) as [Hpos|_]; [|done]. intros Hl. specialize (Hl Hpos).
  unfold len in Hl. rewrite length_take in Hl. rewrite (take_ge l) by lia. done.
Qed.

Lemma lim_1 {A} (l : list A) : lim 1 l = take 1 l.
Proof. done. Qed.

Lemma snoc_app {A} (l : list A) x k : l ++ x :: k = (l ++ [x]) ++ k.
Proof. by rewrite <- (assoc_L app). Qed.

(** What recording leaves when it does not fail. *)
Lemma emit_list_spec cap rev l ps b ps' b' o : ((0 < cap)%Z → (Z.of_N (len ps) < cap)%Z) →
  emit_list cap rev l ps b = (ps', b', o) →
  mb_limit b' = mb_limit b ∧
  match o with
  | Some (Some e) => e = ErrMemoryLimit ∧ 0 < mb_limit b
  | _ => ps' = lim cap (ps ++ (path_oriented rev <$> l))
  end.
Proof.
  revert ps b. induction l as [|p l IH]; intros ps b Hroom E; simpl in E.
  - simplify_eq. split; [done|]. simpl. rewrite app_nil_r. unfold lim.
    destruct (Z.ltb_spec 0 cap) as [Hc|_]; [|done]. specialize (Hroom Hc). rewrite take_ge; [done|]. unfold len in Hroom. lia.
  - unfold memBudget_add in E. destruct (memBudget_over b _) eqn:Eo.
    { simplify_eq. split; [done|]. split; [done|]. unfold memBudget_over in Eo. apply andb_true_iff in Eo as [?%N.ltb_lt _]. done. }
    destruct ((0 <? cap)%Z && _) eqn:Ec.
    + simplify_eq. split; [done|]. apply andb_true_iff in Ec as [Hc%Z.ltb_lt Hl%Z.eqb_eq]. unfold lim.
      rewrite (proj2 (Z.ltb_lt _ _)) by done. csimpl.
      rewrite (snoc_app ps _ (path_oriented rev <$> l)), take_app_length'; [done|]. unfold len in Hl. lia.
    + assert ((0 < cap)%Z → (Z.of_N (len (ps ++ [path_oriented rev p])) < cap)%Z) as Hroom'.
      { intros Hc. specialize (Hroom Hc). rewrite (proj2 (Z.ltb_lt _ _)) in Ec by done. simpl in Ec.
        apply Z.eqb_neq in Ec. rewrite len_app, len_cons, len_nil in *. lia. }
      destruct (IH _ _ Hroom' E) as [Hb Hps]. simpl in Hb. split; [done|].
      destruct o as [[e|]|]; [done|..]; csimpl; rewrite (snoc_app ps _ (path_oriented rev <$> l)); done.
Qed.

(** ** What the modes select *)

(** A pair that has paths: their length, and all of them. *)
Abbreviation hit := (nat * list Path)%type (only parsing).
Definition hit_pos (h : hit) : Prop := (0 < h.1)%nat.

Definition best_step (b : nat) (h : hit) : nat := if (b =? 0)%nat || (h.1 <? b)%nat then h.1 else b.
Definition best_of (hs : list hit) : nat := foldl best_step 0%nat hs.

(** The answer of a query whose pairs are the hits, in order. *)
Definition selected (mode : Mode) (limit : Z) (hs : list hit) : list Path :=
  lim limit
    match mode with
    | ModeAll => concat (snd <$> filter (λ h : hit, h.1 = best_of hs) hs)
    | ModeOne => concat ((λ h : hit, take 1 h.2) <$> hs)
    | ModeAllPerPair => concat (snd <$> hs)
    end.

Lemma best_of_snoc hs h : best_of (hs ++ [h]) = best_step (best_of hs) h.
Proof. unfold best_of. by rewrite foldl_app. Qed.

Lemma best_of_spec hs : Forall hit_pos hs →
  (best_of hs = 0%nat ↔ hs = []) ∧ ∀ h, h ∈ hs → (best_of hs ≤ h.1)%nat.
Proof.
  induction hs as [|h hs IH] using rev_ind; intros Hp.
  { split; [done|]. by intros h ?%not_elem_of_nil. }
  apply Forall_app in Hp as [Hp Hh]. rewrite Forall_singleton in Hh. destruct (IH Hp) as [H0 Hle].
  rewrite best_of_snoc. unfold best_step, hit_pos in *.
  assert (∀ h', h' ∈ hs → best_of hs ≠ 0%nat) as Hne by (intros h' Hin E; apply H0 in E as ->; by apply not_elem_of_nil in Hin).
  destruct (Nat.eqb_spec (best_of hs) 0) as [E|E]; simpl.
  - split; [split; [lia|by destruct hs]|]. intros h' [Hin|Hin]%elem_of_app; [by apply Hne in Hin|].
    apply list_elem_of_singleton in Hin as ->. lia.
  - destruct (Nat.ltb_spec h.1 (best_of hs)) as [Hlt|Hge].
    + split; [split; [lia|by destruct hs]|]. intros h' [Hin%Hle|Hin]%elem_of_app; [lia|].
      apply list_elem_of_singleton in Hin as ->. lia.
    + split; [split; [lia|by destruct hs]|]. intros h' [Hin%Hle|Hin]%elem_of_app; [lia|].
      apply list_elem_of_singleton in Hin as ->. lia.
Qed.

Section select_all.
Context (limit : Z) (hs : list hit).
Hypothesis Hp : Forall hit_pos hs.

(** A pair longer than the best changes nothing. *)
Lemma select_longer h : best_of hs ≠ 0%nat → (best_of hs < h.1)%nat →
  best_of (hs ++ [h]) = best_of hs ∧ selected ModeAll limit (hs ++ [h]) = selected ModeAll limit hs.
Proof.
  intros Hb Hlt. assert (best_of (hs ++ [h]) = best_of hs) as E.
  { rewrite best_of_snoc. unfold best_step. rewrite (proj2 (Nat.eqb_neq _ _)), (proj2 (Nat.ltb_ge _ _)) by lia. done. }
  split; [done|]. unfold selected. rewrite E, filter_app. rewrite (filter_cons_False _ h) by lia.
  rewrite filter_nil, app_nil_r. done.
Qed.

(** One as long as the best adds its paths. *)
Lemma select_equal h : best_of hs = h.1 → (0 < h.1)%nat →
  best_of (hs ++ [h]) = best_of hs ∧
  selected ModeAll limit (hs ++ [h]) =
    lim limit (concat (snd <$> filter (λ h : hit, h.1 = best_of hs) hs) ++ h.2).
Proof.
  intros Hb Hpos. assert (best_of (hs ++ [h]) = best_of hs) as E.
  { rewrite best_of_snoc. unfold best_step. rewrite (proj2 (Nat.eqb_neq _ _)), (proj2 (Nat.ltb_ge _ _)) by lia. done. }
  split; [done|]. unfold selected. rewrite E, filter_app. rewrite (filter_cons_True _ h) by done.
  rewrite filter_nil, fmap_app, concat_app. simpl. by rewrite app_nil_r.
Qed.

(** A shorter one starts over. *)
Lemma select_shorter h : best_of hs = 0%nat ∨ (h.1 < best_of hs)%nat → (0 < h.1)%nat →
  best_of (hs ++ [h]) = h.1 ∧ selected ModeAll limit (hs ++ [h]) = lim limit h.2.
Proof.
  intros Hb Hpos. destruct (best_of_spec hs Hp) as [H0 Hle].
  assert (best_of (hs ++ [h]) = h.1) as E.
  { rewrite best_of_snoc. unfold best_step. destruct Hb as [-> |Hlt]; [done|].
    rewrite (proj2 (Nat.ltb_lt _ _)) by lia. by rewrite orb_true_r. }
  split; [done|]. unfold selected. rewrite E, filter_app. rewrite (filter_cons_True _ h) by done.
  rewrite filter_nil. assert (filter (λ h' : hit, h'.1 = h.1) hs = []) as ->.
  { apply filter_nil_none. intros h' Hin Eh. specialize (Hle _ Hin). destruct Hb as [Hb|Hb]; [|lia].
    apply H0 in Hb. subst. by apply not_elem_of_nil in Hin. }
  simpl. by rewrite app_nil_r.
Qed.

(** Nothing beats one hop: a full answer at that length is final. *)
Lemma select_final more : best_of hs = 1%nat → Forall hit_pos more →
  (0 < limit ≤ Z.of_N (len (selected ModeAll limit hs)))%Z →
  selected ModeAll limit (hs ++ more) = selected ModeAll limit hs.
Proof.
  intros Hb Hm Hfull. destruct (best_of_spec (hs ++ more)) as [H0 Hle]; [by apply Forall_app|].
  destruct (best_of_spec hs Hp) as [H0' Hle']. assert (best_of (hs ++ more) = 1%nat) as E.
  { assert (∃ h, h ∈ hs ∧ h.1 = 1%nat) as (h & Hin & Hh).
    { clear -Hb. induction hs as [|h l IH] using rev_ind; [done|]. rewrite best_of_snoc in Hb. unfold best_step in Hb.
      destruct (_ || _); [exists h; split; [|done]; apply elem_of_app; right; left|].
      destruct (IH Hb) as (h' & ? & ?). exists h'. split; [|done]. apply elem_of_app. by left. }
    assert (best_of (hs ++ more) ≤ 1)%nat by (rewrite <- Hh; apply Hle, elem_of_app; by left).
    assert (best_of (hs ++ more) ≠ 0%nat); [|lia]. intros En%H0. apply app_eq_nil in En as [-> _]. by apply not_elem_of_nil in Hin. }
  unfold selected in *. rewrite E, Hb in *. rewrite filter_app, fmap_app, concat_app. by apply lim_app_full.
Qed.
End select_all.

(** A full answer of the other modes is final too. *)
Lemma select_full mode limit hs more : mode ≠ ModeAll →
  (0 < limit ≤ Z.of_N (len (selected mode limit hs)))%Z →
  selected mode limit (hs ++ more) = selected mode limit hs.
Proof.
  intros Hm Hfull. unfold selected in *. destruct mode; [done|..]; rewrite fmap_app, concat_app; by apply lim_app_full.
Qed.

Lemma select_prefix limit hs h : ((0 < limit)%Z → (Z.of_N (len (selected ModeAllPerPair limit hs)) < limit)%Z) →
  selected ModeAllPerPair limit (hs ++ [h]) = lim limit (selected ModeAllPerPair limit hs ++ h.2).
Proof.
  intros Hr. unfold selected in *. rewrite fmap_app, concat_app. simpl. rewrite app_nil_r. by apply lim_app_room.
Qed.

Lemma select_one limit hs h : ((0 < limit)%Z → (Z.of_N (len (selected ModeOne limit hs)) < limit)%Z) →
  selected ModeOne limit (hs ++ [h]) = selected ModeOne limit hs ++ take 1 h.2.
Proof.
  intros Hr. unfold selected in *. rewrite fmap_app, concat_app. simpl. rewrite app_nil_r, lim_app_room by done.
  unfold lim at 1. destruct (Z.ltb_spec 0 limit) as [Hpos|_]; [|done]. rewrite take_ge; [done|].
  specialize (Hr Hpos). rewrite length_app, length_take. unfold len in Hr. lia.
Qed.

Lemma mode_per_pair m : m ≠ ModeAll → m ≠ ModeOne → m = ModeAllPerPair.
Proof. by destruct m. Qed.

(** ** The loops' state *)

Section query.
Context (q : Query).
Let mode := q_Mode q.
Let limit := q_Limit q.

(** The errors a query may end with once it runs. *)
Definition may_fail (e : goerr) : Prop :=
  (e = ErrMemoryLimit ∧ 0 < q_MemoryLimit q) ∨ (e = ErrContext ∧ q_Ctx q ≠ None).

(** The hits [hs] have been answered, and the loops go on. *)
Record going (hs : list hit) (st : qstate) : Prop := {
  go_noerr : qs_callErr st = None;
  go_nostop : qs_stop st = false;
  go_pos : Forall hit_pos hs;
  go_sink : sink_rep (qs_sink st) (selected mode limit hs);
  go_best : mode = ModeAll → qs_best st = Z.of_nat (best_of hs);
  go_limit : mb_limit (qs_budget st) = q_MemoryLimit q;
}.

(** The loops stop: more hits would not change the answer, or an error. *)
Definition halted (hs : list hit) (st : qstate) : Prop :=
  qs_stop st = true ∧
  ((qs_callErr st = None ∧ ∀ more, Forall hit_pos more → sink_rep (qs_sink st) (selected mode limit (hs ++ more))) ∨
   ∃ e ps, qs_callErr st = Some e ∧ may_fail e ∧ sink_rep (qs_sink st) ps).

Definition continues (hs : list hit) (st : qstate) (c : bool) : Prop := if c then going hs st else halted hs st.

(** An enumerator recorded the paths [L] on top of [ps]. *)
Definition enumerated (cap : Z) (L : list Path) (b : memBudget) (ps : list Path)
    (res : pathSink * memBudget * option goerr) : Prop :=
  ∃ rev l ps' o, L = path_oriented rev <$> l ∧ emit_list cap rev l ps b = (ps', res.1.2, o) ∧
    res.2 = default None o ∧ sink_rep res.1.1 ps'.

Definition room (cap : Z) (ps : list Path) : Prop := (0 < cap)%Z → (Z.of_N (len ps) < cap)%Z.

Lemma after_ok st best cap L b ps res hs : qs_callErr st = None → qs_stop st = false → Forall hit_pos hs →
  mb_limit b = q_MemoryLimit q → room cap ps → lim cap (ps ++ L) = selected mode limit hs →
  (mode = ModeAll → best = Z.of_nat (best_of hs)) → enumerated cap L b ps res →
  continues hs (qs_after st best res).1 (qs_after st best res).2.
Proof.
  intros He Hst Hp Hb Hroom Hsel Hbest (rev & l & ps' & o & -> & Eem & Eerr & Hs).
  destruct res as [[sink' b'] err]. simpl in *. subst err.
  destruct (emit_list_spec cap rev l ps b ps' b' o Hroom Eem) as [Hlim Ho].
  destruct o as [[e|]|]; simpl.
  - split; [done|]. right. exists e, ps'. split; [done|]. split; [|done]. left. destruct Ho as [-> ?]. split; [done|]. congruence.
  - subst ps'. split; simpl; try done; [by rewrite <- Hsel|congruence].
  - subst ps'. split; simpl; try done; [by rewrite <- Hsel|congruence].
Qed.

Lemma fail_halted hs st e ps : sink_rep (qs_sink st) ps → may_fail e → halted hs (qs_fail st e).
Proof. intros Hs He. split; [done|]. right. by exists e, ps. Qed.

Lemma pathCap_spec have oneMore : let '(cap, isDone) := pathCap limit (Z.of_N have) oneMore in
  if isDone then (0 < limit ≤ Z.of_N have)%Z
  else ((0 < limit)%Z → (Z.of_N have < limit)%Z) ∧ cap = if oneMore then (Z.of_N have + 1)%Z else limit.
Proof.
  unfold pathCap. destruct (Z.ltb_spec 0 limit) as [Hl|Hl]; simpl.
  - destruct (Z.leb_spec limit (Z.of_N have)) as [Hh|Hh]; [lia|]. split; [lia|].
    destruct oneMore; [|done]. destruct (_ || _) eqn:E; [done|]. apply orb_false_iff in E as [_ E%Z.ltb_ge]. lia.
  - split; [lia|]. destruct oneMore; [|done]. by rewrite (proj2 (Z.leb_le _ _)) by lia.
Qed.

Definition en_ok (L : list Path) (en : Z → memBudget → pathSink → option (pathSink * memBudget * option goerr)) : Prop :=
  ∀ cap b sink ps, sink_rep sink ps → ∃ res, en cap b sink = Some res ∧ enumerated cap L b ps res.

Lemma visit_all_none hs st d en : going hs st → (d < 1)%Z → visit_all q d en st = Some (st, true).
Proof.
  intros Hg Hd. unfold visit_all, shortestLevel_admit. rewrite (proj2 (Z.ltb_lt _ _)) by lia. simpl. by destruct st.
Qed.

Lemma going_longer hs st d L : mode = ModeAll → going hs st → best_of hs ≠ 0%nat → (best_of hs < d)%nat →
  going (hs ++ [(d, L)]) st.
Proof.
  intros Hm [] Hb Hlt. destruct (select_longer limit hs (d, L) Hb Hlt) as [E1 E2]. rewrite Hm in *. split; try done.
  - apply Forall_app. split; [done|]. apply Forall_singleton. unfold hit_pos. simpl. lia.
  - by rewrite Hm, E2.
  - intros _. rewrite E1. by apply go_best0.
Qed.

Lemma visit_all_spec hs st d L en : mode = ModeAll → going hs st → (0 < d)%nat → en_ok L en →
  ∃ st' c, visit_all q (Z.of_nat d) en st = Some (st', c) ∧ continues (hs ++ [(d, L)]) st' c.
Proof.
  intros Hm Hg Hd Hen. pose proof Hg as [H1 H2 H3 H4 H5 H6]. specialize (H5 Hm).
  assert (Forall hit_pos (hs ++ [(d, L)])) as Hpos by (apply Forall_app; split; [done|by apply Forall_singleton]).
  unfold visit_all, shortestLevel_admit. rewrite (proj2 (Z.ltb_ge _ _)) by lia. rewrite H5.
  destruct ((Z.of_nat (best_of hs) =? 0)%Z || (Z.of_nat d <? Z.of_nat (best_of hs))%Z) eqn:Eb; simpl.
  - (* a shorter pair: the sink starts over *)
    assert (best_of hs = 0%nat ∨ (d < best_of hs)%nat) as Hb.
    { apply orb_true_iff in Eb as [?%Z.eqb_eq|?%Z.ltb_lt]; [left|right]; lia. }
    destruct (select_shorter limit hs H3 (d, L) Hb Hd) as [E1 E2]. simpl in E1, E2.
    pose proof (pathCap_spec 0 false) as Hcap. destruct (pathCap _ _ _) as [cap []]; [lia|]. destruct Hcap as [Hroom ->].
    destruct (Hen limit (memBudget_reset (qs_budget st)) (pathSink_reset (qs_sink st)) [] (sink_rep_reset _)) as (res & Er & Hres).
    rewrite Er. simpl. eexists _, _. split; [by rewrite <- surjective_pairing|].
    apply (after_ok _ _ limit L (memBudget_reset (qs_budget st)) [] res _ H1 H2 Hpos H6 Hroom); [|intros _; by rewrite E1|exact Hres].
    by rewrite Hm, E2.
  - apply orb_false_iff in Eb as [E0%Z.eqb_neq Ele%Z.ltb_ge]. destruct (Z.eqb_spec (Z.of_nat d) (Z.of_nat (best_of hs))) as [Ed|Ed]; simpl.
    + (* as long as the best *)
      apply Nat2Z.inj in Ed. destruct (select_equal limit hs (d, L)) as [E1 E2]; [done|done|]. simpl in E2.
      rewrite (sink_rep_n _ _ H4). pose proof (pathCap_spec (len (selected mode limit hs)) false) as Hcap.
      destruct (pathCap _ _ _) as [cap []].
      * unfold shortestLevel_final. destruct (Z.eqb_spec (Z.of_nat (best_of hs)) 1) as [E|E]; simpl; eexists _, _; (split; [done|]).
        -- split; [done|]. left. split; [done|]. intros more Hmore. rewrite <- (assoc_L app). simpl.
           rewrite Hm in *. rewrite (select_final limit hs H3 ((d, L) :: more)); [done|lia| |done].
           constructor; [done|done].
        -- split; simpl; try done; [|intros _; by rewrite E1]. rewrite Hm in *. rewrite E2.
           rewrite lim_app_full by (by unfold selected in Hcap). done.
      * destruct Hcap as [Hroom ->].
        destruct (Hen limit (qs_budget st) (qs_sink st) _ H4) as (res & Er & Hres). rewrite Er. simpl.
        eexists _, _. split; [by rewrite <- surjective_pairing|].
        apply (after_ok _ _ limit L _ _ res _ H1 H2 Hpos H6 Hroom); [|intros _; by rewrite E1|exact Hres].
        rewrite Hm in *. rewrite E2. symmetry. apply lim_app_room. exact Hroom.
    + (* longer *)
      eexists _, _. split; [done|]. simpl.
      apply (going_longer hs _ d L Hm); [|lia|lia]. destruct st; split; simpl in *; done.
Qed.

Definition hit_paths (h : option hit) : list Path := from_option snd [] h.
Definition hit_list (h : option hit) : list hit := option_list h.

Lemma visit_capped_spec {X} (I : X → Prop) hs st (x : X) h
    (en : Z → memBudget → pathSink → option (X * (pathSink * memBudget * option goerr))) :
  mode ≠ ModeAll → going hs st → Forall hit_pos (hit_list h) → I x →
  (∀ cap b sink ps, sink_rep sink ps →
    ∃ x' res, en cap b sink = Some (x', res) ∧ I x' ∧ enumerated cap (hit_paths h) b ps res) →
  ∃ st' x' c, visit_capped q x en st = Some (st', x', c) ∧ I x' ∧ continues (hs ++ hit_list h) st' c.
Proof.
  intros Hm Hg Hh HI Hen. pose proof Hg as [H1 H2 H3 H4 H5 H6].
  assert (Forall hit_pos (hs ++ hit_list h)) as Hpos by (apply Forall_app; by split).
  unfold visit_capped. rewrite (sink_rep_n _ _ H4).
  pose proof (pathCap_spec (len (selected mode limit hs)) (bool_decide (q_Mode q = ModeOne))) as Hcap.
  destruct (pathCap _ _ _) as [cap []].
  - eexists _, _, _. split; [done|]. split; [done|]. split; [done|]. left. split; [done|]. intros more Hmore.
    rewrite <- (assoc_L app). simpl. by rewrite select_full.
  - destruct Hcap as [Hroom ->]. set (cap := if bool_decide _ then _ else _).
    destruct (Hen cap (qs_budget st) (qs_sink st) _ H4) as (x' & res & -> & HI' & Hres). simpl.
    destruct (qs_after st (qs_best st) res) as [st' c] eqn:Ea. eexists _, _, _. split; [done|]. split; [done|].
    assert (st' = (qs_after st (qs_best st) res).1 ∧ c = (qs_after st (qs_best st) res).2) as [-> ->] by by rewrite Ea.
    apply (after_ok _ _ cap (hit_paths h) (qs_budget st) (selected mode limit hs) res (hs ++ hit_list h)); try done.
    + unfold cap, room. destruct (bool_decide _); [lia|done].
    + unfold cap. destruct (decide (q_Mode q = ModeOne)) as [Eo|Eo].
      * rewrite bool_decide_true by done. unfold mode in *. rewrite Eo in *.
        unfold lim at 1. rewrite (proj2 (Z.ltb_lt _ _)) by lia.
        replace (Z.to_nat (Z.of_N (len (selected ModeOne limit hs)) + 1)) with (length (selected ModeOne limit hs) + 1)%nat by (unfold len; lia).
        rewrite take_app, take_ge by lia. rewrite Nat.add_comm, Nat.add_sub. destruct h as [h|]; simpl; [symmetry; by apply select_one|by rewrite !app_nil_r].
      * rewrite bool_decide_false by done. assert (mode = ModeAllPerPair) as Emode by by apply mode_per_pair.
        rewrite Emode in *. destruct h as [h|]; simpl.
        -- symmetry. by apply select_prefix.
        -- rewrite !app_nil_r. unfold selected in *. unfold lim at 1. destruct (Z.ltb_spec 0 limit); [|done].
           rewrite take_ge; [done|]. unfold len in Hroom. lia.
Qed.
End query.

(** ** End points *)

Section endpoints.
Context `{TraverseView V} (s : V) (rows : bool → NodeID → list hop).
Context {HL : TraverseLaws s rows}.
Let n := tv_NodeCount s.

(** The nodes an end point stands for, in the order they are visited. *)
Definition ep_nodes (e : Endpoint) : list NodeID :=
  match ep_IDs e with
  | Some ids => ids
  | None =>
      match ep_Bits e with
      | Some b => Bitset_elems b
      | None => filter (λ i, tv_Alive s i = true) (range 0 n)
      end
  end.

Definition ep_wf (e : Endpoint) : Prop :=
  match ep_IDs e with
  | Some ids => Forall (λ i, i < n) ids ∧ StronglySorted N.lt ids
  | None => match ep_Bits e with Some b => Bitset_wf n b | None => True end
  end.

Lemma ep_nodes_range e i : ep_wf e → i ∈ ep_nodes e → i < n.
Proof.
  unfold ep_wf, ep_nodes. destruct (ep_IDs e) as [ids|].
  - intros [Hf _] Hin. rewrite Forall_forall in Hf. by apply Hf.
  - destruct (ep_Bits e) as [b|].
    + intros Hb Hin. apply (wf_bound _ _ Hb). by apply (elem_of_Bitset n).
    + intros _ [_ Hin]%list_elem_of_filter. apply elem_of_range in Hin. lia.
Qed.

Lemma iter_b_filter {A S} (P : A → bool) (f : A → S → option (S * bool)) l st :
  iter_b (λ x st, if P x then f x st else Some (st, true)) l st = iter_b f (filter (λ x, P x = true) l) st.
Proof.
  revert st. induction l as [|x l IH]; intros st; [done|]. rewrite filter_cons. cbn [iter_b]. destruct (P x) eqn:Ex.
  - rewrite decide_True by done. cbn [iter_b]. destruct (f x st) as [[st' []]|]; simpl; [apply IH|done|done].
  - rewrite decide_False by congruence. simpl. apply IH.
Qed.

(** Iterating runs the callback over those nodes, until it stops. *)
Lemma Endpoint_Iterate_nodes {S} e (fn : NodeID → S → option (S * bool)) st : ep_wf e →
  Endpoint_Iterate e s fn st = iter_until fn (ep_nodes e) st.
Proof.
  unfold ep_wf, ep_nodes, Endpoint_Iterate. destruct (ep_IDs e) as [ids|]; [done|].
  destruct (ep_Bits e) as [b|]; [intros Hb; by apply (Bitset_Iterate_spec n)|]. intros _.
  pose proof (tl_count (TraverseLaws := HL)) as Hn. fold n in Hn.
  unfold iter_until. rewrite <- (iter_b_filter (tv_Alive s)). f_equal. fold n.
  apply iter_b_ext. intros i st' Hi%elem_of_range. rewrite u32_small by lia.
  destruct (tv_Overlay s) eqn:Eo; simpl; [by destruct (tv_Alive s i)|].
  by rewrite (proj1 (tl_plain Eo i ltac:(lia))).
Qed.

(** Membership, of a node that is not deleted. *)
Lemma Endpoint_Has_spec e i : ep_wf e → i < n →
  ∃ b, Endpoint_Has e i = Some b ∧ (tv_Alive s i = true → b = true ↔ i ∈ ep_nodes e).
Proof.
  unfold ep_wf, ep_nodes, Endpoint_Has. intros He Hi. destruct (ep_IDs e) as [ids|].
  - destruct He as [_ Hs]. destruct (search_spec (len ids) (λ j, x ← idx ids j; Some (i <=? x))
      (λ j, match idx ids j with Some x => i <=? x | None => true end)) as (j & -> & Hj & Hlo & Hhi).
    + intros k Hk. destruct (idx_is_Some ids k Hk) as [x Hx]. by rewrite Hx.
    + intros k k' Hk Hk' Hle. destruct (idx_is_Some ids k) as [x Hx]; [lia|]. destruct (idx_is_Some ids k') as [y Hy]; [lia|].
      rewrite Hx in Hle. rewrite Hy. apply N.leb_le in Hle. apply N.leb_le. destruct (decide (k = k')) as [->|Hne].
      * rewrite Hx in Hy. by simplify_eq.
      * assert (x < y); [|lia]. by apply (sorted_idx _ _ k k' _ _ Hs); [..|lia].
    + simpl. destruct (N.ltb_spec j (len ids)) as [Hlt|Hge].
      * destruct (idx_is_Some ids j Hlt) as [x Hx]. rewrite Hx. simpl. eexists. split; [done|]. intros _.
        rewrite N.eqb_eq. split; [intros <-; by eapply idx_elem_of|]. intros [k Hk]%elem_of_idx.
        specialize (Hhi j ltac:(lia) Hlt). rewrite Hx in Hhi. apply N.leb_le in Hhi.
        destruct (N.lt_trichotomy j k) as [Hjk|[->|Hjk]]; [|congruence|].
        -- assert (x < i) by (by apply (sorted_idx _ _ j k _ _ Hs)). lia.
        -- specialize (Hlo k Hjk). rewrite Hk in Hlo. apply N.leb_gt in Hlo. lia.
      * eexists. split; [done|]. intros _. split; [done|]. intros [k Hk]%elem_of_idx. pose proof (idx_lt _ _ _ Hk).
        specialize (Hlo k ltac:(lia)). rewrite Hk in Hlo. apply N.leb_gt in Hlo. lia.
  - destruct (ep_Bits e) as [b|].
    + eexists. split; [done|]. by rewrite (elem_of_Bitset n).
    + eexists. split; [done|]. intros Ha. split; [|done]. intros _. apply list_elem_of_filter. split; [done|].
      apply elem_of_range. lia.
Qed.

(** A node on both sides with an edge out of it. *)
Definition self_conflict (roots terminals : Endpoint) : Prop :=
  ∃ i, i ∈ ep_nodes roots ∧ i ∈ ep_nodes terminals ∧ rows true i ≠ [].

Lemma has_out i : i < n → (if negb (tv_Overlay s) then ts ← tv_Out s i; Some (0 <? len ts)
    else tv_OutEdges s i (λ _ _, Some (true, false)) false) = Some (0 <? len (rows true i)).
Proof.
  intros Hi. destruct (tv_Overlay s) eqn:Eo; simpl.
  - destruct (tl_overlay Eo i Hi) as (l & Hl & ->). rewrite <- Hl, len_fmap. destruct l; simpl; [done|].
    rewrite len_cons. unfold iter_until. simpl. by rewrite (proj2 (N.ltb_lt _ _)) by lia.
  - rewrite (proj2 (tl_plain Eo i Hi)). simpl. by rewrite len_fmap.
Qed.

Lemma conflict_scan small big : ep_wf small → ep_wf big → ∃ b,
  Endpoint_Iterate small s (λ id conflict,
    has ← Endpoint_Has big id;
    if negb has then Some (conflict, true)
    else
      hasOut ← (if negb (tv_Overlay s) then ts ← tv_Out s id; Some (0 <? len ts)
                else tv_OutEdges s id (λ _ _, Some (true, false)) false);
      if (hasOut : bool) then Some (true, false) else Some (conflict, true)) false = Some b ∧
  (b = true ↔ self_conflict small big).
Proof.
  intros Hs Hb. rewrite Endpoint_Iterate_nodes by done.
  edestruct (iter_until_inv (λ pre (c : bool), c = false ∧ ∀ i, i ∈ pre → i ∈ ep_nodes big → rows true i = [])
    (λ c, c = true ∧ self_conflict small big)) as (c & -> & Hc).
  - split; [done|]. by intros i ?%not_elem_of_nil.
  - intros pre i post c El [-> Hpre]. assert (i ∈ ep_nodes small) as Hin by (rewrite El; apply elem_of_app; right; left).
    pose proof (ep_nodes_range _ _ Hs Hin) as Hi. destruct (Endpoint_Has_spec big i Hb Hi) as (b & -> & Hbi). simpl.
    destruct b; simpl.
    + rewrite has_out by done. simpl. destruct (N.ltb_spec 0 (len (rows true i))) as [Hpos|Hz].
      * assert (rows true i ≠ []) as Hne by (intros E; rewrite E in Hpos; done). eexists _, _. split; [done|]. split; [done|].
        exists i. split_and!; [done| |done]. apply Hbi; [|done]. destruct (tv_Alive s i) eqn:Ea; [done|]. by rewrite tl_dead in Hne.
      * assert (rows true i = []) as Hnil by (destruct (rows true i); [done|rewrite len_cons in Hz; lia]).
        eexists _, _. split; [done|]. split; [done|]. intros j [?|?%list_elem_of_singleton]%elem_of_app Hj; [auto|by subst].
    + eexists _, _. split; [done|]. split; [done|]. intros j [?|Hj']%elem_of_app Hj; [auto|].
      apply list_elem_of_singleton in Hj' as ->. destruct (tv_Alive s i) eqn:Ea; [by apply Hbi in Hj|by apply tl_dead].
  - exists c. split; [done|]. destruct Hc as [[-> Hno]|[-> Hyes]]; [|done]. split; [done|].
    intros (i & H1 & H2 & H3). by rewrite Hno in H3.
Qed.

Lemma SelfEndpointConflict_spec roots terminals : ep_wf roots → ep_wf terminals →
  ∃ b, SelfEndpointConflict s roots terminals = Some b ∧ (b = true ↔ self_conflict roots terminals).
Proof.
  intros Hr Ht. unfold SelfEndpointConflict. destruct (_ <? _).
  - destruct (conflict_scan terminals roots Ht Hr) as (b & Hb & Hiff). exists b. split; [exact Hb|].
    rewrite Hiff. unfold self_conflict. naive_solver.
  - apply conflict_scan; done.
Qed.
End endpoints.
