(* ===== verification/Answers.v ===== *)
(** * What a path query answers

    [internal/engine/traverse/traverse.go]: both strategies, and
    [AllShortestPaths], against the specification of a pair's answer,
    [pair_answer]: no path within the bound, or the pair's distance and
    exactly its shortest paths. *)

From S2P Require Import Prelude Bitset ViewAdj PathSink Traverse Bfs Enumerate Strategy.
From stdpp Require Import relations.
#[local] Open Scope N_scope.
From stdpp Require Import options.
Unset Default Proof Using.

(** Rounds enough for any enumeration, when no row is longer than [Δ]. *)
Definition enough_fuel (Δ fuel : N) : Prop := ∀ e : nat, (e ≤ 127)%nat → (1 + Δ) ^ N.of_nat e < fuel.

Lemma enough_fuel_pow Δ fuel : (1 + Δ) ^ 127 < fuel → enough_fuel Δ fuel.
Proof.
  intros Hf e He. eapply N.le_lt_trans; [|exact Hf]. apply N.pow_le_mono_r; lia.
Qed.

Section answers.
Context `{TraverseView V} (s : V) (rows : bool → NodeID → list hop).
Context {HL : TraverseLaws s rows}.
Context (q : Query).
Let kinds := q_Kinds q.
Hypothesis Hk : kinds_wf kinds.
Let n := tv_NodeCount s.
Let E := hops rows kinds true.
Context (Δ : N).
Hypothesis HΔ : ∀ fwd u, len (rows fwd u) ≤ Δ.
Context (M : nat).
Hypothesis HM : (M ≤ 127)%nat.
Context (fuel : N).
Hypothesis Hfuel : enough_fuel Δ fuel.

(** The answer of the pair [(r, t)]: nothing within [M] hops (or the same
    node twice), or its distance and all of its shortest paths, once each if
    no row repeats itself. *)
Definition pair_answer (r t : NodeID) (h : option hit) : Prop :=
  match h with
  | None => r = t ∨ ∀ j, (j ≤ M)%nat → ¬ nsteps E j r t
  | Some (d, L) => r ≠ t ∧ (0 < d ≤ M)%nat ∧ shortest E d r t ∧
      (∀ p, p ∈ L ↔ valid_path rows kinds true r t p ∧ len (p_Kinds p) = N.of_nat d) ∧
      ((∀ fwd u, NoDup (rows fwd u)) → NoDup L)
  end.

Lemma shortest_pos d r t : r ≠ t → shortest E d r t → (0 < d)%nat.
Proof. intros Hne Hs. destruct d; [|lia]. by apply shortest_0 in Hs. Qed.

Lemma paths_nodup W WK (l : list (list hop)) : NoDup l → NoDup (complete W WK <$> l).
Proof.
  apply NoDup_fmap_2_strong. intros x y _ _ Ep. unfold complete in Ep. apply (f_equal p_Nodes) in Ep as En.
  apply (f_equal p_Kinds) in Ep as Ek. simpl in En, Ek. apply app_inv_head in En, Ek. clear -En Ek.
  revert y En Ek. induction x as [|[w k] x IH]; intros [|[w' k'] y] En Ek; try done.
  csimpl in *. injection En as -> En. injection Ek as -> Ek. f_equal. by apply IH.
Qed.

(** What an enumerator recorded, from its loop's equation. *)
Lemma enumerated_eq cap rev l b ps res :
  (∃ sink', res = (let '(ps', b', o) := emit_list cap rev l ps b in Some (sink', b', default None o)) ∧
    sink_rep sink' (emit_list cap rev l ps b).1.1) →
  ∃ r, res = Some r ∧ enumerated cap (path_oriented rev <$> l) b ps r.
Proof.
  intros (sink' & -> & Hs). destruct (emit_list cap rev l ps b) as [[ps' b'] o] eqn:Eem.
  eexists. split; [done|]. exists rev, l, ps', o. done.
Qed.

(** *** A pair searched from both ends *)

Lemma pair_enumerable r t d scF scT : r < n → r ≠ t → (d ≤ M)%nat → shortest E d r t →
  pair_buffers s rows kinds r t d scF scT →
  ∃ L, pair_answer r t (Some (d, L)) ∧
    en_ok L (λ cap b sink, pairEnumerate fuel s r t (Z.of_nat d) kinds cap b scF scT sink).
Proof.
  intros Hr Hne Hd Hs (mF & mT & HF & HmF & HT & HmT). pose proof (shortest_pos _ _ _ Hne Hs) as Hpos.
  exists (mid_paths rows kinds r d mF mT). split.
  - split; [done|]. split; [lia|]. split; [done|]. split.
    + intros p. eapply mid_paths_elem; try done. lia.
    + intros Hnd. apply paths_nodup, tails_nodup. intros u. apply Hnd.
  - intros cap b sink ps Hsink.
    assert (path_oriented false <$> mid_paths rows kinds r d mF mT = mid_paths rows kinds r d mF mT) as Eid
      by by rewrite list_fmap_id.
    destruct (enumerated_eq cap false (mid_paths rows kinds r d mF mT) b ps
      (pairEnumerate fuel s r t (Z.of_nat d) kinds cap b scF scT sink)) as (res & Eres & Hres).
    { eapply pairEnumerate_spec; try done; [lia|]. apply Hfuel. lia. }
    exists res. rewrite Eid in Hres. done.
Qed.

Definition bufs_wf (x : scratch * scratch * scratch) : Prop :=
  scratch_wf n x.1.1 ∧ scratch_wf n x.1.2 ∧ scratch_wf n x.2.

(** [pairShortest] to a depth [D0 ≤ M], and what its result says. *)
Lemma search_pair r t D0 scF scT scTmp : r < n → t < n → (D0 ≤ M)%nat → bufs_wf (scF, scT, scTmp) →
  ∃ D scF' scT' scTmp', pairShortest s r t kinds (Z.of_nat D0) scF scT scTmp = Some (D, scF', scT', scTmp') ∧
    bufs_wf (scF', scT', scTmp') ∧
    ((D = (-1)%Z ∧ (r = t ∨ ∀ j, (j ≤ D0)%nat → ¬ nsteps E j r t)) ∨
     ∃ d L, D = Z.of_nat d ∧ (d ≤ D0)%nat ∧ pair_answer r t (Some (d, L)) ∧
       en_ok L (λ cap b sink, pairEnumerate fuel s r t D kinds cap b scF' scT' sink)).
Proof.
  intros Hr Ht HD0 (H1 & H2 & H3).
  destruct (pairShortest_spec s rows kinds Hk r t D0 scF scT scTmp H1 H2 H3 Hr Ht ltac:(lia))
    as (D & scF' & scT' & scTmp' & Eq & H1' & H2' & H3' & HD & Hbuf).
  eexists _, _, _, _. split; [exact Eq|]. split; [done|]. destruct (N.eqb_spec r t) as [->|Hne]; [left; auto|].
  destruct HD as [[-> Hno]|(d & -> & Hs & Hd)]; [left; auto|right].
  destruct (pair_enumerable r t d scF' scT' Hr Hne ltac:(lia) Hs (Hbuf d eq_refl)) as (L & HL' & Hen).
  by exists d, L.
Qed.

(** Every pair has an answer. *)
Lemma pair_total r t : r < n → t < n → ∃ h, pair_answer r t h.
Proof.
  intros Hr Ht. pose proof (newScratch_wf n) as Hw.
  destruct (search_pair r t M (newScratch n) (newScratch n) (newScratch n) Hr Ht (le_n _)) as (D & ? & ? & ? & _ & _ & HD);
    [by split|]. destruct HD as [[_ Hno]|(d & L & _ & _ & Ha & _)]; [by exists None|by exists (Some (d, L))].
Qed.

(** ** Pairs answered so far *)

Definition answered (ps : list (NodeID * NodeID)) (os : list (option hit)) : Prop :=
  Forall2 (λ rt h, pair_answer rt.1 rt.2 h) ps os.
Definition hits (os : list (option hit)) : list hit := omap id os.

(** The loops go on after the pairs [ps], or stop somewhere in them. *)
Definition going_after (ps : list (NodeID * NodeID)) (st : qstate) : Prop :=
  ∃ os, answered ps os ∧ going q (hits os) st.
Definition halted_in (ps : list (NodeID * NodeID)) (st : qstate) : Prop :=
  ∃ ps1 ps2 os, ps = ps1 ++ ps2 ∧ answered ps1 os ∧ halted q (hits os) st.
Definition continues_after (ps : list (NodeID * NodeID)) (st : qstate) (c : bool) : Prop :=
  if c then going_after ps st else halted_in ps st.

Lemma hits_snoc os h : hits (os ++ [h]) = hits os ++ hit_list h.
Proof. unfold hits, hit_list. by rewrite omap_app. Qed.

Lemma answered_pos ps os : answered ps os → Forall hit_pos (hits os).
Proof.
  unfold hits. induction 1 as [|[r t] h ps os Ha _ IH]; csimpl; [constructor|]. destruct h as [[d L]|]; [|done].
  constructor; [|done]. unfold hit_pos. simpl. destruct Ha as (_ & ? & _). lia.
Qed.

Lemma answer_pos r t h : pair_answer r t h → Forall hit_pos (hit_list h).
Proof.
  destruct h as [[d L]|]; simpl; [|constructor]. intros (_ & ? & _). constructor; [|constructor]. unfold hit_pos. simpl. lia.
Qed.

Lemma continues_snoc ps os st c r t h : answered ps os → pair_answer r t h →
  continues q (hits os ++ hit_list h) st c → continues_after (ps ++ [(r, t)]) st c.
Proof.
  intros Hos Hh Hc. assert (answered (ps ++ [(r, t)]) (os ++ [h])) as Ha by (apply Forall2_app; [done|by constructor]).
  rewrite <- hits_snoc in Hc. destruct c.
  - by exists (os ++ [h]).
  - exists (ps ++ [(r, t)]), [], (os ++ [h]). by rewrite app_nil_r.
Qed.

Lemma halted_in_app ps ps' st : halted_in ps st → halted_in (ps ++ ps') st.
Proof. intros (ps1 & ps2 & os & -> & Ha & Hh). exists ps1, (ps2 ++ ps'), os. by rewrite <- (assoc_L app). Qed.

(** An error halts the loops wherever they are. *)
Lemma fail_halted_in ps os st e r t : r < n → t < n → answered ps os → going q (hits os) st → may_fail q e →
  halted_in (ps ++ [(r, t)]) (qs_fail st e).
Proof.
  intros Hr Ht Hos Hg He. exists ps, [(r, t)], os. split; [done|]. split; [done|].
  eapply fail_halted; [apply (go_sink _ _ _ Hg)|done].
Qed.

Lemma going_polls hs st u p : going q hs st → going q hs (qs_set_polls st u p).
Proof. by intros []; split. Qed.

Lemma going_stop hs st : going q hs st → qs_set_stop st false = st.
Proof. intros []. destruct st; simpl in *. by subst. Qed.

(** What is left when the loops are done. *)
Lemma query_answer ps st : (∀ r t, (r, t) ∈ ps → r < n ∧ t < n) → going_after ps st ∨ halted_in ps st →
  ∃ ans err, qs_answer st = Some (ans, err) ∧
    match err with
    | None => ∃ os, answered ps os ∧ ans = selected (q_Mode q) (q_Limit q) (hits os)
    | Some e => may_fail q e
    end.
Proof.
  intros Hrange [(os & Ha & Hg)|(ps1 & ps2 & os & -> & Ha & _ & Hh)]; unfold qs_answer.
  - rewrite (pathSink_paths_rep _ _ (go_sink _ _ _ Hg)). simpl. rewrite (go_noerr _ _ _ Hg). eexists _, _. split; [done|]. simpl. by exists os.
  - destruct Hh as [[He Hmore]|(e & ps & He & Hmf & Hs)].
    + assert (∃ os2, answered ps2 os2) as (os2 & Ha2).
      { assert (∀ r t, (r, t) ∈ ps2 → r < n ∧ t < n) as Hr2 by (intros r t Hin; apply Hrange, elem_of_app; by right).
        clear -Hr2 Hk HM Hfuel HΔ HL. induction ps2 as [|[r t] ps2 IH]; [exists []; constructor|].
        destruct IH as [os2 IH]; [intros; apply Hr2; by right|]. destruct (Hr2 r t) as [Hr Ht]; [left|].
        destruct (pair_total r t Hr Ht) as [h Hh]. exists (h :: os2). by constructor. }
      pose proof (Hmore (hits os2) (answered_pos _ _ Ha2)) as Hs. rewrite (pathSink_paths_rep _ _ Hs). simpl. rewrite He.
      eexists _, _. split; [done|]. exists (os ++ os2). split; [by apply Forall2_app|].
      unfold hits. by rewrite omap_app.
    + rewrite (pathSink_paths_rep _ _ Hs). simpl. rewrite He. eexists _, _. split; [done|]. done.
Qed.

(** *** Strategy A *)

Lemma going_snoc_none ps os st r t : answered ps os → going q (hits os) st → pair_answer r t None →
  continues_after (ps ++ [(r, t)]) st true.
Proof.
  intros Ha Hg Hn. apply (continues_snoc ps os st true r t None); [done..|]. simpl. by rewrite app_nil_r.
Qed.

Lemma pairs_visit_all ps os r t st scs : r < n → t < n → bufs_wf scs → q_Mode q = ModeAll →
  answered ps os → going q (hits os) st →
  ∃ st' scs' c,
    (let '(scF, scT, scTmp) := scs in
     let depth := if (0 <? qs_best st)%Z && (qs_best st <? Z.of_nat M)%Z then qs_best st else Z.of_nat M in
     '(D, scF, scT, scTmp) ← pairShortest s r t kinds depth scF scT scTmp;
     '(st, cont) ← visit_all q D (λ cap budget sink, pairEnumerate fuel s r t D kinds cap budget scF scT sink) st;
     Some (st, (scF, scT, scTmp), cont)) = Some (st', scs', c) ∧
    bufs_wf scs' ∧ continues_after (ps ++ [(r, t)]) st' c.
Proof.
  intros Hr Ht Hw Hmode Ha Hg. destruct scs as [[scF scT] scTmp].
  pose proof (go_best _ _ _ Hg Hmode) as Hbest. set (b := best_of (hits os)) in *. set (depth := if _ && _ then _ else _).
  assert (∃ D0 : nat, depth = Z.of_nat D0 ∧ (D0 ≤ M)%nat ∧ (D0 = M ∨ D0 = b ∧ (0 < b < M)%nat)) as (D0 & -> & HD0 & Hcase).
  { unfold depth. rewrite Hbest. destruct (Z.ltb_spec 0 (Z.of_nat b)), (Z.ltb_spec (Z.of_nat b) (Z.of_nat M)); simpl;
      [exists b; split; [done|lia]|exists M; split; [done|lia]..]. }
  cbv zeta. destruct (search_pair r t D0 scF scT scTmp Hr Ht HD0 Hw) as (D & scF' & scT' & scTmp' & -> & Hw' & HD).
  cbn [mbind option_bind]. destruct HD as [[-> Hno]|(d & L & -> & Hd & Hans & Hen)].
  - rewrite (visit_all_none q (hits os)) by done. cbn [mbind option_bind]. eexists _, _, _. split; [done|]. split; [done|].
    destruct (pair_total r t Hr Ht) as [[[d L]|] Hans]; [|by eapply going_snoc_none].
    apply (continues_snoc ps os st true r t (Some (d, L))); [done..|]. simpl.
    pose proof Hans as (Hne & Hd & Hs & _). destruct Hno as [?|Hno]; [done|].
    assert (D0 < d)%nat by (destruct (decide (D0 < d)%nat); [done|]; exfalso; apply (Hno d); [lia|apply Hs]).
    apply going_longer; [done..|lia|lia].
  - destruct (visit_all_spec q (hits os) st d L (λ cap budget sink,
      pairEnumerate fuel s r t (Z.of_nat d) kinds cap budget scF' scT' sink) Hmode Hg) as (st' & c & -> & Hc); [|done|].
    { destruct Hans as (_ & ? & _). lia. }
    cbn [mbind option_bind]. eexists _, _, _. split; [done|]. split; [done|].
    by apply (continues_snoc ps os st' c r t (Some (d, L))).
Qed.

Lemma pairs_visit_capped ps os r t st scs : r < n → t < n → bufs_wf scs → q_Mode q ≠ ModeAll →
  answered ps os → going q (hits os) st →
  ∃ st' scs' c, (let '(scF, scT, scTmp) := scs in visit_capped q (scF, scT, scTmp) (λ cap budget sink,
          '(scF, scT, scTmp, sink, budget, err) ←
            pairPaths fuel s r t kinds (Z.of_nat M) cap budget scF scT scTmp sink;
          Some ((scF, scT, scTmp), (sink, budget, err))) st) = Some (st', scs', c) ∧
    bufs_wf scs' ∧ continues_after (ps ++ [(r, t)]) st' c.
Proof.
  intros Hr Ht Hw Hmode Ha Hg. destruct scs as [[scF scT] scTmp].
  destruct (search_pair r t M scF scT scTmp Hr Ht (le_n _) Hw) as (D & scF' & scT' & scTmp' & Eq & Hw' & HD).
  assert (∃ h, pair_answer r t h ∧ ∀ cap b sink ps, sink_rep sink ps → ∃ x' res,
    ('(scF, scT, scTmp, sink, budget, err) ← pairPaths fuel s r t kinds (Z.of_nat M) cap b scF scT scTmp sink;
     Some ((scF, scT, scTmp), (sink, budget, err))) = Some (x', res) ∧
    bufs_wf x' ∧ enumerated cap (hit_paths h) b ps res) as (h & Hh & Hen).
  { unfold pairPaths. rewrite Eq. cbn [mbind option_bind]. destruct HD as [[-> Hno]|(d & L & -> & Hd & Hans & Hen)].
    - exists None. split; [done|]. intros cap b sink ps' Hs. simpl. eexists _, _. split; [done|]. split; [done|].
      by exists false, [], ps', None.
    - exists (Some (d, L)). split; [done|]. intros cap b sink ps' Hs. rewrite (proj2 (Z.ltb_ge _ _)) by lia.
      destruct (Hen cap b sink ps' Hs) as ([[sink' b'] err] & -> & Hres). cbn [mbind option_bind]. eexists _, _. by split. }
  destruct (visit_capped_spec q bufs_wf (hits os) st (scF, scT, scTmp) h _ Hmode Hg (answer_pos r t h Hh) Hw Hen)
    as (st' & scs' & c & -> & Hw'' & Hc).
  eexists _, _, _. split; [done|]. split; [done|]. by apply (continues_snoc ps os st' c r t h).
Qed.

Lemma cancel_err_spec polls : let '(_, e) := cancelCheck_err (q_Ctx q) polls in
  match e with Some e => may_fail q e | None => True end.
Proof.
  unfold cancelCheck_err. destruct (q_Ctx q) as [f|] eqn:Ec; [|done]. unfold ctx_poll. destruct (f polls); [|done].
  right. split; [done|]. by rewrite Ec.
Qed.
Lemma cancel_step_spec u polls : let '(_, _, e) := cancelCheck_step (q_Ctx q) u polls in
  match e with Some e => may_fail q e | None => True end.
Proof.
  unfold cancelCheck_step. destruct (q_Ctx q) as [f|] eqn:Ec; [|done]. destruct (_ <? _)%Z; [done|].
  unfold ctx_poll. destruct (f polls); [|done]. right. split; [done|]. by rewrite Ec.
Qed.

Lemma pairs_visit_spec ps r t st scs : r < n → t < n → bufs_wf scs → going_after ps st →
  ∃ st' scs' c, pairs_visit fuel s q kinds (Z.of_nat M) r t (st, scs) = Some (st', scs', c) ∧
    bufs_wf scs' ∧ continues_after (ps ++ [(r, t)]) st' c.
Proof.
  intros Hr Ht Hw (os & Ha & Hg). unfold pairs_visit. destruct scs as [[scF scT] scTmp].
  pose proof (cancel_err_spec (qs_polls st)) as Hc. destruct (cancelCheck_err (q_Ctx q) (qs_polls st)) as [polls [e|]].
  - eexists _, _, _. split; [done|]. split; [done|]. apply (fail_halted_in ps os); [done..|by apply going_polls|done].
  - set (st1 := qs_set_polls _ _ _). assert (going q (hits os) st1) as Hg1 by by apply going_polls.
    destruct (q_ExcludeSelf q && (r =? t)) eqn:Es.
    { apply andb_true_iff in Es as [_ ->%N.eqb_eq]. eexists _, _, _. split; [done|]. split; [done|].
      eapply going_snoc_none; [done..|by left]. }
    destruct (decide (q_Mode q = ModeAll)) as [Hm|Hm].
    + by apply (pairs_visit_all ps os r t st1 (scF, scT, scTmp)).
    + by apply (pairs_visit_capped ps os r t st1 (scF, scT, scTmp)).
Qed.

(** *** Loops over the pairs *)

(** A loop each round of which answers the pairs [keys b]. *)
Lemma loop_after {B X} (stp : X → qstate) (I : X → Prop) (keys : B → list (NodeID * NodeID))
    (f : B → X → option (X * bool)) bs ps x :
  (∀ ps b x, b ∈ bs → I x → going_after ps (stp x) →
    ∃ x' c, f b x = Some (x', c) ∧ I x' ∧ continues_after (ps ++ keys b) (stp x') c) →
  I x → going_after ps (stp x) →
  ∃ x' c, iter_b f bs x = Some (x', c) ∧ I x' ∧ continues_after (ps ++ concat (keys <$> bs)) (stp x') c.
Proof.
  intros Hf HI Hg.
  destruct (iter_b_inv (λ pre x, I x ∧ going_after (ps ++ concat (keys <$> pre)) (stp x))
    (λ x, I x ∧ halted_in (ps ++ concat (keys <$> bs)) (stp x)) f bs x) as (x' & c & E' & Hc).
  - simpl. by rewrite app_nil_r.
  - intros pre b post x1 El [HI1 Hg1]. destruct (Hf _ b x1 ltac:(rewrite El; apply elem_of_app; right; left) HI1 Hg1)
      as (x2 & c & Ef & HI2 & Hc). exists x2, c. split; [done|]. destruct c.
    + split; [done|]. rewrite fmap_app, concat_app. simpl. by rewrite app_nil_r, (assoc_L app).
    + split; [done|]. rewrite El, fmap_app, concat_app. csimpl. rewrite (assoc_L app), (assoc_L app).
      by apply halted_in_app.
  - exists x', c. split; [done|]. destruct c; [destruct Hc; by split|destruct Hc; by split].
Qed.

Lemma concat_singletons {B} (key : B → NodeID * NodeID) bs : concat ((λ b, [key b]) <$> bs) = key <$> bs.
Proof. induction bs as [|b bs IH]; csimpl; [done|]. by rewrite IH. Qed.

Lemma continues_or ps st c : continues_after ps st c → going_after ps st ∨ halted_in ps st.
Proof. destruct c; simpl; tauto. Qed.

Lemma continues_flags ps st c : continues_after ps st c →
  negb (qs_stop st) = c ∧ (c = true → qs_callErr st = None).
Proof.
  destruct c; simpl.
  - intros (os & _ & Hg). by rewrite (go_nostop _ _ _ Hg), (go_noerr _ _ _ Hg).
  - intros (? & ? & ? & _ & _ & -> & _). done.
Qed.

(** The pairs of two lists, the first one outermost. *)
Definition pairs_of (rs ts : list NodeID) : list (NodeID * NodeID) := concat ((λ r, (λ t, (r, t)) <$> ts) <$> rs).

Lemma pairs_of_range rs ts r t : (r, t) ∈ pairs_of rs ts → r ∈ rs ∧ t ∈ ts.
Proof.
  intros (l & Hl & (r' & -> & Hr)%list_elem_of_fmap)%list_elem_of_concat.
  apply list_elem_of_fmap in Hl as (t' & [= -> ->] & Ht). done.
Qed.

Definition pool_wf (pool : list scratch) : Prop := Forall (scratch_wf 0) pool.

Hypothesis Hroots : ep_wf s (q_Roots q).
Hypothesis Hterms : ep_wf s (q_Terminals q).
Let rs := ep_nodes s (q_Roots q).
Let ts := ep_nodes s (q_Terminals q).

(** What a strategy that is not declined returns. *)
Definition answer_ok (ans : list Path) (err : option goerr) : Prop :=
  match err with
  | None => ∃ os, answered (pairs_of rs ts) os ∧ ans = selected (q_Mode q) (q_Limit q) (hits os)
  | Some e => may_fail q e
  end.

Lemma going_start b polls : mb_limit b = q_MemoryLimit q → going_after [] (qs_init b polls).
Proof.
  intros Hb. exists []. split; [constructor|]. split; simpl; try done.
  unfold selected. destruct (q_Mode q); simpl; unfold lim; destruct (_ <? _)%Z; rewrite ?take_nil; apply sink_rep_zero.
Qed.

Lemma answer_range r t : (r, t) ∈ pairs_of rs ts → r < n ∧ t < n.
Proof. intros [Hr Ht]%pairs_of_range. split; [exact (ep_nodes_range s _ _ Hroots Hr)|exact (ep_nodes_range s _ _ Hterms Ht)]. Qed.

Lemma getScratch3 pool : pool_wf pool → ∃ a b c pool1 pool2 pool3,
  getScratch pool n = (a, pool1) ∧ getScratch pool1 n = (b, pool2) ∧ getScratch pool2 n = (c, pool3) ∧
  bufs_wf (a, b, c) ∧ pool_wf pool3.
Proof.
  intros Hp. destruct (getScratch pool n) as [a pool1] eqn:E1. destruct (getScratch_wf _ _ _ _ Hp E1) as [Ha Hp1].
  destruct (getScratch pool1 n) as [b pool2] eqn:E2. destruct (getScratch_wf _ _ _ _ Hp1 E2) as [Hb Hp2].
  destruct (getScratch pool2 n) as [c pool3] eqn:E3. destruct (getScratch_wf _ _ _ _ Hp2 E3) as [Hc Hp3].
  by eexists a, b, c, pool1, pool2, pool3.
Qed.

Lemma strategyPairs_spec b pool polls : pool_wf pool → mb_limit b = q_MemoryLimit q →
  ∃ pool' ans err, strategyPairs fuel s q kinds (Z.of_nat M) b pool polls = Some (pool', (ans, err)) ∧
    pool_wf pool' ∧ answer_ok ans err.
Proof.
  intros Hp Hb. unfold strategyPairs.
  destruct (getScratch3 pool Hp) as (a & b1 & c & pool1 & pool2 & pool3 & E1 & E2 & E3 & Hw & Hp3).
  fold n. rewrite E1, E2, E3. rewrite (Endpoint_Iterate_nodes s rows) by done. fold rs.
  set (outer := λ (r : NodeID) (x : qstate * (scratch * scratch * scratch)), _ ≫= _).
  destruct (loop_after fst (λ x, bufs_wf x.2) (λ r, (λ t, (r, t)) <$> ts) outer rs []
    (qs_init b polls, (a, b1, c))) as (x' & cc & El & Hw' & Hc); [|done|by apply going_start|].
  - intros ps r [st scs] Hr Hws Hg. simpl in Hws, Hg. pose proof (ep_nodes_range s _ _ Hroots Hr) as Hrn.
    unfold outer. cbn [fst snd]. rewrite (Endpoint_Iterate_nodes s rows) by done. fold ts.
    assert (qs_set_stop st false = st) as -> by (destruct Hg as (os & _ & Hg); by eapply going_stop).
    destruct (loop_after fst (λ x, bufs_wf x.2) (λ t, [(r, t)]) (λ t, pairs_visit fuel s q kinds (Z.of_nat M) r t) ts ps (st, scs))
      as (x2 & c2 & E4 & Hw2 & Hc2); [|done|done|].
    { intros ps0 t [st0 scs0] Ht Hw0 Hg0. pose proof (ep_nodes_range s _ _ Hterms Ht) as Htn.
      destruct (pairs_visit_spec ps0 r t st0 scs0 Hrn Htn Hw0 Hg0) as (st1 & scs1 & c1 & Ev & Hw1 & Hc1).
      by exists (st1, scs1), c1. }
    unfold iter_until. rewrite E4. cbn [mbind option_bind]. destruct x2 as [st2 scs2]. simpl in Hc2.
    rewrite concat_singletons in Hc2. destruct (continues_flags _ _ _ Hc2) as [Hfl Herr]. cbn [fst]. rewrite Hfl.
    eexists (st2, scs2), c2. split; [|done]. destruct c2; simpl; [by rewrite Herr|done].
  - unfold iter_until. rewrite El. cbn [mbind option_bind]. destruct x' as [st' [[a' b'] c']]. simpl in Hc, Hw'.
    destruct (query_answer (pairs_of rs ts) st' answer_range (continues_or _ _ _ Hc)) as (ans & err & -> & Hans).
    simpl. eexists _, _, _. split; [done|]. split; [|done]. destruct Hw' as (H1 & H2 & H3).
    unfold pool_wf, putScratch. repeat constructor; first [done|by eapply scratch_wf_weaken].
Qed.
End answers.
