(* ===== verification/SmallSide.v ===== *)
(** * One search per node of the smaller side

    [internal/engine/traverse/traverse.go]: [strategySmallSide]. Every node of
    the smaller side is searched once, and each pair's paths are enumerated
    from its other node down to the searched one. *)

From S2P Require Import Prelude Bitset ViewAdj PathSink Traverse Bfs Enumerate Strategy Answers.
From stdpp Require Import relations.
#[local] Open Scope N_scope.
From stdpp Require Import options.
Unset Default Proof Using.

Lemma path_reverse_involutive p : path_reverse (path_reverse p) = p.
Proof. destruct p as [ns ks]. unfold path_reverse. simpl. by rewrite !reverse_involutive. Qed.

Lemma elem_of_path_reverse p (l : list Path) : p ∈ path_reverse <$> l ↔ path_reverse p ∈ l.
Proof.
  rewrite list_elem_of_fmap. split.
  - intros (p' & -> & Hp). by rewrite path_reverse_involutive.
  - intros Hp. exists (path_reverse p). by rewrite path_reverse_involutive.
Qed.

Section side.
Context `{TraverseView V} (s : V) (rows : bool → NodeID → list hop).
Context {HL : TraverseLaws s rows}.
Context (q : Query).
Let kinds := q_Kinds q.
Hypothesis Hk : kinds_wf kinds.
Let n := tv_NodeCount s.
Let E := hops rows kinds true.
Context (Δ : N).
Hypothesis HΔ : ∀ fwd u, len (rows fwd u) ≤ Δ.
Context (M : nat).
Hypothesis HM : (M ≤ 127)%nat.
Context (fuel : N).
Hypothesis Hfuel : enough_fuel Δ fuel.

Abbreviation pair_answer := (pair_answer rows q M).
Abbreviation answered := (answered rows q M).
Abbreviation continues_after := (continues_after rows q M).
Abbreviation going_after := (going_after rows q M).

(** ** A pair, once its small side is searched *)

Section searched.
Context (fwd : bool) (elem : NodeID) (sc : scratch) (m : gmap N nat).
Hypothesis Hsc : scratch_rep n sc m.
Hypothesis Hm : bfs_map (hops rows kinds (negb fwd)) elem M m.

Definition side_pair (from : NodeID) : NodeID * NodeID := if fwd then (from, elem) else (elem, from).

Lemma side_nsteps j from : nsteps (hops rows kinds (negb fwd)) j elem from ↔
  nsteps E j (side_pair from).1 (side_pair from).2.
Proof.
  unfold side_pair, E. destruct fwd; simpl; [|done]. rewrite <- nsteps_flip.
  split; apply (nsteps_congruence (λ x, x)); intros x y; unfold flip; apply (hops_flip s rows kinds).
Qed.

Lemma side_shortest from e : m !! from = Some e ↔
  shortest E e (side_pair from).1 (side_pair from).2 ∧ (e ≤ M)%nat.
Proof.
  rewrite (bfs_map_iff _ _ _ _ _ _ Hm). unfold shortest. split; intros [[H1 H2] H3]; (split; [|done]);
    (split; [by apply side_nsteps|]); intros j Hj Hs; apply (H2 j Hj); by apply side_nsteps.
Qed.

Lemma side_unreached from : m !! from = None → pair_answer (side_pair from).1 (side_pair from).2 None.
Proof.
  intros Hn. right. intros j Hj Hs. apply side_nsteps in Hs. destruct (proj2 Hm _ _ Hs Hj) as [e He]. by rewrite Hn in He.
Qed.

Lemma side_ne from e : m !! from = Some (S e) → (side_pair from).1 ≠ (side_pair from).2.
Proof.
  intros He Eq. apply side_shortest in He as [[_ Hno] _]. rewrite Eq in Hno.
  apply (Hno 0%nat); [lia|constructor].
Qed.

(** The paths in the order and orientation they are recorded. *)
Definition side_paths (from : NodeID) (e : nat) : list Path :=
  path_oriented (negb fwd) <$> down_paths rows kinds fwd m e from.

Lemma side_paths_elem from e p : m !! from = Some e →
  p ∈ side_paths from e ↔
  valid_path rows kinds true (side_pair from).1 (side_pair from).2 p ∧ len (p_Kinds p) = N.of_nat e.
Proof.
  intros He. unfold side_paths, side_pair.
  assert (∀ p', p' ∈ down_paths rows kinds fwd m e from ↔
    valid_path rows kinds fwd from elem p' ∧ len (p_Kinds p') = N.of_nat e) as Hd.
  { intros p'. by eapply down_paths_elem. }
  destruct fwd; simpl in *.
  - unfold path_oriented. rewrite list_fmap_id. apply Hd.
  - change (path_oriented true) with path_reverse. rewrite elem_of_path_reverse, Hd.
    split; intros [Hv Hl].
    + apply (valid_reverse _ _ tl_sym) in Hv. rewrite path_reverse_involutive in Hv. split; [done|].
      by rewrite <- Hl; unfold path_reverse; simpl; rewrite len_reverse.
    + split; [by apply (valid_reverse _ _ tl_sym) in Hv|]. unfold path_reverse. simpl. by rewrite len_reverse.
Qed.

Lemma side_answer from e : m !! from = Some (S e) →
  pair_answer (side_pair from).1 (side_pair from).2 (Some (S e, side_paths from (S e))).
Proof.
  intros He. pose proof (side_ne _ _ He) as Hne. pose proof (proj1 (side_shortest _ _) He) as [Hs Hb].
  split; [done|]. split; [lia|]. split; [done|]. split; [intros p; by apply side_paths_elem|].
  intros Hnd. unfold side_paths, down_paths. apply NoDup_fmap_2_strong; [|apply paths_nodup, tails_nodup; intros; apply Hnd].
  intros x y _ _. unfold path_oriented. destruct (negb fwd); [|done]. intros Eq%(f_equal path_reverse).
  by rewrite !path_reverse_involutive in Eq.
Qed.

Definition side_hit (from : NodeID) : option hit :=
  match m !! from with Some (S e) => Some (S e, side_paths from (S e)) | _ => None end.

Lemma side_hit_answer from : pair_answer (side_pair from).1 (side_pair from).2 (side_hit from).
Proof.
  unfold side_hit. destruct (m !! from) as [[|e]|] eqn:He; [|by apply side_answer|by apply side_unreached].
  left. apply side_shortest in He as [Hs _]. by apply shortest_0 in Hs.
Qed.

Lemma side_enumerated from e cap b sink ps : from < n → m !! from = Some e → sink_rep sink ps →
  ∃ res, enumerate fuel s from sc kinds cap b sink fwd = Some res ∧
    enumerated cap (hit_paths (side_hit from)) b ps res.
Proof.
  intros Hfrom He Hs.
  assert (hit_paths (side_hit from) = path_oriented (negb fwd) <$>
    (if (0 <? e)%nat then down_paths rows kinds fwd m e from else [])) as ->.
  { unfold side_hit. rewrite He. by destruct e. }
  apply enumerated_eq. eapply (enumerate_spec s rows kinds Hk Δ HΔ fwd sc m elem M Hsc Hm HM); try done.
  apply Hfuel. apply (proj1 Hm) in He as [_ ?]. lia.
Qed.

Lemma side_visit_spec ps os from st : from < n → answered ps os → going q (hits os) st →
  ∃ st' c, side_visit fuel s q kinds sc from fwd st = Some (st', c) ∧
    continues_after (ps ++ [side_pair from]) st' c.
Proof.
  intros Hfrom Ha Hg. pose proof (side_hit_answer from) as Hh. rewrite (surjective_pairing (side_pair from)).
  unfold side_visit. rewrite (proj2 Hsc _ Hfrom). cbn [mbind option_bind].
  destruct (m !! from) as [e|] eqn:He; cbn [fmap option_fmap option_map].
  2:{ exists st, true. split; [done|]. eapply going_snoc_none; [done..|by apply side_unreached]. }
  destruct (decide (q_Mode q = ModeAll)) as [Hmode|Hmode].
  - assert (en_ok (hit_paths (side_hit from))
      (λ cap budget sink, enumerate fuel s from sc kinds cap budget sink fwd)) as Hen
      by (intros cap b sink ps' Hs; by eapply side_enumerated).
    unfold side_hit in Hen, Hh. rewrite He in Hen, Hh. destruct e as [|e].
    + rewrite (visit_all_none q (hits os)) by done. exists st, true. split; [done|]. by eapply going_snoc_none.
    + destruct (visit_all_spec q (hits os) st (S e) _ _ Hmode Hg ltac:(lia) Hen) as (st' & c & -> & Hc).
      exists st', c. split; [done|]. by eapply (continues_snoc rows q M ps os st' c _ _ (Some _)).
  - destruct (visit_capped_spec q (λ _, True) (hits os) st () (side_hit from)
      (λ cap b sink, r ← enumerate fuel s from sc kinds cap b sink fwd; Some ((), r)) Hmode Hg)
      as (st' & x' & c & -> & _ & Hc); [by eapply answer_pos|done| |].
    { intros cap b sink ps' Hs. destruct (side_enumerated from e cap b sink ps' Hfrom He Hs) as (res & -> & Hres).
      by exists (), res. }
    simpl. exists st', c. split; [done|]. by eapply continues_snoc.
Qed.
End searched.

(** ** The searches *)

Section searches.
Context (elems : list NodeID) (forward : bool).
Hypothesis Helems : Forall (λ i, i < n) elems.

(** The slot of [elem] holds its search. *)
Definition side_done (elem : NodeID) (r : smallSideDist) : Prop :=
  sd_elem r = elem ∧ ∃ sc m, sd_dists r = Some sc ∧ scratch_rep n sc m ∧
    bfs_map (hops rows kinds forward) elem M m.

Definition sides_wf (results : list smallSideDist) : Prop :=
  len results = len elems ∧ ∀ r sc, r ∈ results → sd_dists r = Some sc → scratch_wf n sc.
Definition sides_upto (i : N) (results : list smallSideDist) : Prop :=
  ∀ j elem, j < i → idx elems j = Some elem → ∃ r, idx results j = Some r ∧ side_done elem r.

Lemma sides_upd results i elem sc m : sides_wf results → idx elems i = Some elem →
  scratch_rep n sc m → bfs_map (hops rows kinds forward) elem M m →
  ∃ results', upd results i (mkSmallSideDist elem (Some sc)) = Some results' ∧ sides_wf results' ∧
    (sides_upto i results → sides_upto (i + 1) results').
Proof.
  intros [Hl Hw] Hi Hsc Hm. pose proof (idx_lt _ _ _ Hi) as Hlt.
  destruct (upd_Some results i (mkSmallSideDist elem (Some sc))) as (results' & Eu & Hl' & Hx); [lia|].
  exists results'. split; [done|]. split.
  - split; [lia|]. intros r sc' (j & Hj)%elem_of_idx Hr. rewrite Hx in Hj. case_decide; simplify_eq/=.
    + apply Hsc.
    + apply idx_elem_of in Hj. by eapply Hw.
  - intros Hup j elem' Hj Hje. rewrite Hx. case_decide as Hji.
    + subst j. rewrite Hi in Hje. simplify_eq. eexists. split; [done|]. split; [done|]. by exists sc, m.
    + apply Hup; [lia|done].
Qed.

Lemma side_worker_spec lo hi results pool polls : lo ≤ hi → hi ≤ len elems → sides_wf results → pool_wf pool →
  ∃ results' pool' polls' e,
    side_worker s (q_Ctx q) elems forward kinds (Z.of_nat M) lo hi (results, pool, polls) =
      Some (results', pool', polls', e) ∧ sides_wf results' ∧ pool_wf pool' ∧
    match e with None => sides_upto lo results → sides_upto hi results' | Some e => may_fail q e end.
Proof.
  intros Hlo Hhi Hw Hp. unfold side_worker. set (body := λ (i : N) x, _).
  destruct (iter_b_inv
    (λ pre (x : list smallSideDist * list scratch * N * option goerr), let '(r, p, _, e) := x in
      sides_wf r ∧ pool_wf p ∧ e = None ∧ (sides_upto lo results → sides_upto (lo + len pre) r))
    (λ x, let '(r, p, _, e) := x in sides_wf r ∧ pool_wf p ∧ ∃ e', e = Some e' ∧ may_fail q e')
    body (range lo hi) (results, pool, polls, None)) as ([[[r p] c] e] & cont & -> & Hc).
  - rewrite len_nil, N.add_0_r. done.
  - intros pre i post [[[r p] c] e] El (Hr & Hp' & -> & Hup).
    assert (i = lo + len pre ∧ i < hi) as [Hi Hi'].
    { assert (idx (range lo hi) (len pre) = Some i) as Hx
        by (rewrite El, idx_app_r, N.sub_diag by lia; done).
      pose proof (idx_lt _ _ _ Hx) as Hlt. rewrite len_range in Hlt. rewrite idx_range in Hx by lia. simplify_eq. lia. }
    unfold body. pose proof (cancel_err_spec q c) as Hf. destruct (cancelCheck_err (q_Ctx q) c) as [c' [e|]].
    { eexists (r, p, c', Some e), false. split; [done|]. split; [done|]. split; [done|]. by exists e. }
    destruct (getScratch p (tv_NodeCount s)) as [sc p'] eqn:Eg. destruct (getScratch_wf _ _ _ _ Hp' Eg) as [Hsc Hp2].
    destruct (idx_is_Some elems i) as [elem Helem]; [lia|]. rewrite Helem. cbn [mbind option_bind].
    assert (elem < n) as Hel by (rewrite Forall_forall in Helems; apply Helems; by eapply idx_elem_of).
    destruct (bfsFrom_spec s rows kinds Hk forward elem M sc Hsc Hel HM) as (sc' & deep & m & -> & Hrep & Hm & _).
    cbn [mbind option_bind]. destruct (sides_upd r i elem sc' m Hr Helem Hrep Hm) as (r' & -> & Hr' & Hup').
    cbn [mbind option_bind]. eexists (r', p', c', None), true. split; [done|]. split; [done|]. split; [done|].
    split; [done|]. intros H0. rewrite len_app, len_cons, len_nil. replace (lo + (len pre + (0 + 1))) with (i + 1) by lia. apply Hup'. rewrite Hi. by apply Hup.
  - cbn [mbind option_bind fst]. eexists _, _, _, _. split; [done|]. destruct cont.
    + destruct Hc as (H1 & H2 & -> & H3). rewrite len_range in H3. by replace (lo + (hi - lo)) with hi in H3 by lia.
    + destruct Hc as (H1 & H2 & e' & -> & H3). done.
Qed.

(** Whichever way the work is cut, every node is searched, or a worker saw
    the context done. *)
Lemma bfsSmallSide_spec procs pool polls : 0 < procs → pool_wf pool →
  ∃ results pool' polls' err,
    bfsSmallSide procs (q_Ctx q) s elems forward kinds (Z.of_nat M) pool polls =
      Some (results, pool', polls', err) ∧ sides_wf results ∧ pool_wf pool' ∧
    match err with None => Forall2 side_done elems results | Some e => may_fail q e end.
Proof.
  intros Hprocs Hp. unfold bfsSmallSide. set (workers := if len elems <? procs then len elems else procs).
  assert (sides_wf (mk (len elems) (mkSmallSideDist 0 None))) as Hw0.
  { split; [apply len_mk|]. intros r sc Hr. unfold mk in Hr. by apply elem_of_replicate in Hr as [-> _]. }
  assert (∀ results, sides_wf results → sides_upto (len elems) results → Forall2 side_done elems results) as Hall.
  { intros results [Hl _] Hup. apply Forall2_same_length_lookup. split; [unfold len in Hl; lia|].
    intros i x y Hx Hy. destruct (Hup (N.of_nat i) x) as (r & Hr & Hd).
    - apply lookup_lt_Some in Hx. unfold len. lia.
    - unfold idx. by rewrite Nat2N.id.
    - unfold idx in Hr. rewrite Nat2N.id in Hr. by simplify_eq. }
  destruct (N.ltb_spec workers 1) as [Hz|Hpos].
  { eexists _, _, _, _. split; [done|]. split; [done|]. split; [done|]. apply Hall; [done|].
    intros j elem Hj Hi. unfold workers in Hz. destruct (N.ltb_spec (len elems) procs); lia. }
  set (chunk := (len elems + workers - 1) / workers).
  assert (len elems ≤ workers * chunk) as Hcover.
  { unfold chunk. pose proof (N.div_mod (len elems + workers - 1) workers).
    pose proof (N.mod_lt (len elems + workers - 1) workers). lia. }
  set (body := λ (x : list smallSideDist * list scratch * N * option goerr) (w : N), _).
  destruct (for_inv (λ w (x : list smallSideDist * list scratch * N * option goerr), let '(r, p, _, e) := x in
      sides_wf r ∧ pool_wf p ∧
      match e with None => sides_upto ((w * chunk) `min` len elems) r | Some e => may_fail q e end)
    body 0 workers (mk (len elems) (mkSmallSideDist 0 None), pool, polls, None))
    as ([[[r p] c] e] & -> & Hr & Hp' & He); [lia| | |].
  - split; [done|]. split; [done|]. intros j elem Hj. lia.
  - intros w [[[r p] c] e] _ Hww (Hr & Hp' & He). unfold body. set (lo := w * chunk).
    set (hi := if len elems <? lo + chunk then len elems else lo + chunk).
    assert (hi = ((w + 1) * chunk) `min` len elems) as Ehi
      by (unfold hi, lo; destruct (N.ltb_spec (len elems) (w * chunk + chunk)); lia).
    rewrite <- Ehi. destruct (N.leb_spec hi lo) as [Hle|Hlt].
    + eexists. split; [done|]. split; [done|]. split; [done|]. destruct e as [e|]; [done|].
      intros j elem Hj. apply He. fold lo. lia.
    + destruct (side_worker_spec lo hi r p c) as (r' & p' & c' & e' & -> & Hr2 & Hp2 & He2); [lia|lia|done|done|].
      cbn [mbind option_bind]. eexists. split; [done|]. split; [done|]. split; [done|]. destruct e as [e|]; [done|].
      destruct e' as [e'|]; [done|]. apply He2. fold lo in He. by replace lo with (lo `min` len elems) by lia.
  - eexists _, _, _, _. split; [done|]. split; [done|]. split; [done|]. destruct e as [e|]; [done|].
    apply Hall; [done|]. by replace (len elems) with ((workers * chunk) `min` len elems) at 1 by lia.
Qed.
End searches.

(** ** Merging *)

Lemma side_step fwd elem res from ps st (self : bool) : side_done (negb fwd) elem res → from < n →
  (self = true → elem = from) → going_after ps st →
  ∃ st' c, (if self then Some (st, true) else sc ← sd_dists res; side_visit fuel s q kinds sc from fwd st) =
      Some (st', c) ∧ continues_after (ps ++ [side_pair fwd elem from]) st' c.
Proof.
  intros (_ & sc & m & Hsc & Hrep & Hm) Hfrom Hself (os & Ha & Hg). destruct self.
  - exists st, true. split; [done|]. rewrite (surjective_pairing (side_pair _ _ _)).
    eapply going_snoc_none; [done..|]. left. rewrite (Hself eq_refl). by destruct fwd.
  - rewrite Hsc. cbn [mbind option_bind]. by apply (side_visit_spec fwd elem sc m Hrep Hm ps os).
Qed.

Lemma fail_halts ps ps' st e : may_fail q e → going_after ps st →
  halted_in rows q M (ps ++ ps') (qs_fail st e).
Proof.
  intros He (os & Ha & Hg). exists ps, ps', os. split; [done|]. split; [done|].
  eapply fail_halted; [apply (go_sink _ _ _ Hg)|done].
Qed.

Lemma polled ps st u p : going_after ps st → going_after ps (qs_set_polls st u p).
Proof. intros (os & Ha & Hg). exists os. split; [done|by apply going_polls]. Qed.

Lemma going_unstopped ps st : going_after ps st → qs_set_stop st false = st.
Proof. intros (os & _ & Hg). by eapply going_stop. Qed.

Hypothesis Hroots : ep_wf s (q_Roots q).
Hypothesis Hterms : ep_wf s (q_Terminals q).
Let rs := ep_nodes s (q_Roots q).
Let ts := ep_nodes s (q_Terminals q).

Lemma roots_range r : r ∈ rs → r < n.
Proof. by apply ep_nodes_range. Qed.
Lemma terms_range t : t ∈ ts → t < n.
Proof. by apply ep_nodes_range. Qed.

Lemma merged_answer st c : continues_after (pairs_of rs ts) st c →
  ∃ ans err, qs_answer st = Some (ans, err) ∧ answer_ok s rows q M ans err.
Proof.
  intros Hc. eapply (query_answer s rows q Hk Δ HΔ M HM fuel Hfuel (pairs_of rs ts)).
  - intros r t [Hr Ht]%pairs_of_range. split; [by apply roots_range|by apply terms_range].
  - by eapply continues_or.
Qed.

Lemma mergeSmallRoots_spec budget results polls : mb_limit budget = q_MemoryLimit q →
  Forall2 (side_done true) rs results →
  ∃ ans err, mergeSmallRoots fuel s q kinds budget results polls = Some (ans, err) ∧ answer_ok s rows q M ans err.
Proof.
  intros Hb Hres. unfold mergeSmallRoots. set (outer := λ (res : smallSideDist) (st : qstate), _ ≫= _).
  destruct (loop_after rows q M id (λ _, True) (λ res, (λ t, (sd_elem res, t)) <$> ts) outer results []
    (qs_init budget polls)) as (st' & c & El & _ & Hc); [|done|by apply going_start|].
  - intros ps res st Hin _ Hg. unfold id in Hg.
    assert (∃ elem, elem ∈ rs ∧ side_done true elem res) as (elem & Hel & Hd).
    { apply list_elem_of_lookup in Hin as [i Hi]. destruct (Forall2_lookup_r _ _ _ _ _ Hres Hi) as (elem & He & Hd).
      exists elem. split; [by eapply list_elem_of_lookup_2|done]. }
    assert (sd_elem res = elem) as Eel by apply Hd. apply roots_range in Hel.
    unfold outer. rewrite (Endpoint_Iterate_nodes s rows) by done. fold ts. rewrite (going_unstopped _ _ Hg).
    set (inner := λ (t : NodeID) (st : qstate), _).
    destruct (loop_after rows q M id (λ _, True) (λ t, [(sd_elem res, t)]) inner ts ps st)
      as (st2 & c2 & E4 & _ & Hc2); [|done|done|].
    { intros ps0 t st0 Ht _ Hg0. unfold id in Hg0. apply terms_range in Ht. unfold inner.
      pose proof (cancel_step_spec q (qs_unchecked st0) (qs_polls st0)) as Hf.
      destruct (cancelCheck_step _ _ _) as [[u p] [e|]].
      - eexists _, false. split; [done|]. split; [done|]. apply fail_halts; [done|by apply polled].
      - destruct (side_step false elem res t ps0 (qs_set_polls st0 u p) (q_ExcludeSelf q && (sd_elem res =? t)) Hd Ht)
          as (st1 & c1 & -> & Hc1); [|by apply polled|].
        + rewrite Eel. by intros [_ ?%N.eqb_eq]%andb_true_iff.
        + exists st1, c1. rewrite Eel. done. }
    unfold iter_until. rewrite E4. cbn [mbind option_bind]. rewrite concat_singletons in Hc2. unfold id in Hc2.
    destruct (continues_flags _ _ _ _ _ _ Hc2) as [Hfl _]. rewrite Hfl. by eexists st2, c2.
  - unfold iter_until. rewrite El. cbn [mbind option_bind]. apply (merged_answer st' c). unfold id in Hc.
    assert (concat ((λ res, (λ t, (sd_elem res, t)) <$> ts) <$> results) = pairs_of rs ts) as <-; [|done].
    unfold pairs_of. clear -Hres. induction Hres as [|elem res es rss [<- _] _ IH]; csimpl; [done|]. by rewrite IH.
Qed.

Lemma mergeSmallTerminals_spec budget results polls : mb_limit budget = q_MemoryLimit q →
  Forall2 (side_done false) ts results →
  ∃ ans err, mergeSmallTerminals fuel s q kinds budget results polls = Some (ans, err) ∧ answer_ok s rows q M ans err.
Proof.
  intros Hb Hres. unfold mergeSmallTerminals. rewrite (Endpoint_Iterate_nodes s rows) by done. fold rs.
  set (outer := λ (r : NodeID) (st : qstate), _).
  assert (∀ r : NodeID, (λ t, (r, t)) <$> ts = (λ res, (r, sd_elem res)) <$> results) as Ets.
  { intros r. clear -Hres. induction Hres as [|elem res es rss [<- _] _ IH]; csimpl; [done|]. by rewrite IH. }
  destruct (loop_after rows q M id (λ _, True) (λ r, (λ t, (r, t)) <$> ts) outer rs []
    (qs_init budget polls)) as (st' & c & El & _ & Hc); [|done|by apply going_start|].
  - intros ps r st Hr _ Hg. unfold id in Hg. apply roots_range in Hr. unfold outer.
    pose proof (cancel_step_spec q (qs_unchecked st) (qs_polls st)) as Hf.
    destruct (cancelCheck_step _ _ _) as [[u p] [e|]].
    { eexists _, false. split; [done|]. split; [done|]. apply fail_halts; [done|by apply polled]. }
    rewrite Ets. set (inner := λ (res : smallSideDist) (st : qstate), _).
    destruct (loop_after rows q M id (λ _, True) (λ res, [(r, sd_elem res)]) inner results ps (qs_set_polls st u p))
      as (st2 & c2 & E4 & _ & Hc2); [|done|by apply polled|].
    { intros ps0 res st0 Hin _ Hg0. unfold id in Hg0. unfold inner.
      assert (∃ elem, side_done false elem res) as (elem & Hd).
      { apply list_elem_of_lookup in Hin as [i Hi]. destruct (Forall2_lookup_r _ _ _ _ _ Hres Hi) as (elem & _ & Hd).
        by exists elem. }
      assert (sd_elem res = elem) as Eel by apply Hd. rewrite Eel in *.
      destruct (side_step true elem res r ps0 st0 (q_ExcludeSelf q && (r =? elem)) Hd Hr) as (st1 & c1 & E5 & Hc1);
        [by intros [_ ?%N.eqb_eq]%andb_true_iff|done|].
      exists st1, c1. done. }
    rewrite E4. cbn [mbind option_bind]. rewrite concat_singletons in Hc2. unfold id in Hc2.
    destruct (continues_flags _ _ _ _ _ _ Hc2) as [_ Herr]. eexists st2, c2. split; [|done].
    destruct c2; simpl; [by rewrite Herr|done].
  - unfold iter_until. rewrite El. cbn [mbind option_bind]. by apply (merged_answer st' c).
Qed.

(** ** The strategy *)

Lemma materialize_spec e : ep_wf s e → materialize e s = Some (ep_nodes s e).
Proof.
  intros He. unfold materialize. rewrite (Endpoint_Iterate_nodes s rows) by done.
  rewrite (iter_until_pure (λ elems id, elems ++ [id])). f_equal.
  assert (∀ l acc : list NodeID, foldl (λ elems id, elems ++ [id]) acc l = acc ++ l) as Hf; [|by rewrite Hf].
  intros l. induction l as [|x l IH]; intros acc; simpl; [by rewrite app_nil_r|]. by rewrite IH, <- (assoc_L app).
Qed.

Lemma pool_back (elems : list NodeID) results pool : sides_wf elems results → pool_wf pool →
  pool_wf (foldl putScratch pool (omap sd_dists results)).
Proof.
  intros [_ Hw] Hp.
  assert (Forall (scratch_wf 0) (omap sd_dists results)) as Hl.
  { apply Forall_forall. intros sc (r & Hr & Er)%list_elem_of_omap. by eapply scratch_wf_weaken, Hw. }
  clear -Hl Hp. revert pool Hp. induction Hl as [|sc l Hsc _ IH]; intros pool Hp; simpl; [done|].
  apply IH. by constructor.
Qed.

Lemma strategySmallSide_spec procs b (smallIsRoots : bool) pool polls : 0 < procs → pool_wf pool →
  mb_limit b = q_MemoryLimit q →
  ∃ pool' ans err,
    strategySmallSide fuel procs s q kinds (Z.of_nat M) b smallIsRoots pool polls = Some (pool', (ans, err)) ∧
    pool_wf pool' ∧ (err = Some ErrTooLarge ∧ ans = [] ∨ answer_ok s rows q M ans err).
Proof.
  intros Hprocs Hp Hb. unfold strategySmallSide. set (small := if smallIsRoots then _ else _).
  assert (ep_wf s small) as Hsmall by by destruct smallIsRoots.
  rewrite (materialize_spec small Hsmall). cbn [mbind option_bind].
  assert (Forall (λ i, i < n) (ep_nodes s small)) as Hrange
    by (apply Forall_forall; intros i; by apply ep_nodes_range).
  destruct (memBudget_reserve b _) as [b' ok] eqn:Er.
  assert (mb_limit b' = q_MemoryLimit q) as Hb' 
    by (rewrite <- Hb; revert Er; unfold memBudget_reserve; by destruct (memBudget_over _ _); intros [= <- <-]).
  destruct ok; simpl; [|by eexists _, _, _; split_and!; [done..|left]].
  destruct (bfsSmallSide_spec (ep_nodes s small) smallIsRoots Hrange procs pool polls Hprocs Hp)
    as (results & pool' & polls' & err & -> & Hw & Hp' & Herr).
  cbn [mbind option_bind]. destruct err as [e|].
  { eexists _, _, _. split; [done|]. split; [by eapply pool_back|]. by right. }
  assert (∃ ans err, (if smallIsRoots then mergeSmallRoots fuel s q kinds b' results polls'
    else mergeSmallTerminals fuel s q kinds b' results polls') = Some (ans, err) ∧ answer_ok s rows q M ans err)
    as (ans & err & -> & Hans).
  { unfold small in Herr. destruct smallIsRoots; [by apply mergeSmallRoots_spec|by apply mergeSmallTerminals_spec]. }
  cbn [mbind option_bind]. eexists _, _, _. split; [done|]. split; [by eapply pool_back|]. by right.
Qed.
End side.

(** ** The query *)

Section all.
Context `{TraverseView V} (s : V) (rows : bool → NodeID → list hop).
Context {HL : TraverseLaws s rows}.
Context (q : Query).

(** The bound on a path's hops. *)
Definition query_depth : nat := Z.to_nat (if (q_MaxDepth q <=? 0)%Z then MaxDepth else q_MaxDepth q).

Lemma query_depth_eq : (if (q_MaxDepth q <=? 0)%Z then MaxDepth else q_MaxDepth q) = Z.of_nat query_depth.
Proof. unfold query_depth. destruct (Z.leb_spec (q_MaxDepth q) 0); [done|lia]. Qed.

(** Both sides are given, and small enough to go pair by pair. *)
Definition pairwise : bool :=
  negb (Unconstrained (q_Roots q)) && negb (Unconstrained (q_Terminals q)) &&
  (i64 (Z.of_N (Endpoint_Count (q_Roots q) (tv_NodeCount s)) * Z.of_N (Endpoint_Count (q_Terminals q) (tv_NodeCount s)))
    <=? (if (0 <? q_PairBudget q)%Z then q_PairBudget q else PairBudget))%Z.

Record query_ok (Δ fuel procs : N) : Prop := {
  qo_kinds : kinds_wf (q_Kinds q);
  qo_roots : ep_wf s (q_Roots q);
  qo_terms : ep_wf s (q_Terminals q);
  qo_rows : ∀ fwd u, len (rows fwd u) ≤ Δ;
  qo_fuel : enough_fuel Δ fuel;
  qo_procs : 0 < procs;
}.

Lemma AllShortestPaths_answer Δ fuel procs pool : query_ok Δ fuel procs → pool_wf pool →
  ∃ pool' ans err, AllShortestPaths fuel procs s q pool = Some (pool', (ans, err)) ∧ pool_wf pool' ∧
    (err = Some ErrTooLarge ∧ ans = [] ∧ ((query_depth ≤ 127)%nat → pairwise = false) ∨
     answer_ok s rows q query_depth ans err).
Proof.
  intros [Hk Hr Ht HΔ Hf Hprocs] Hp. unfold AllShortestPaths.
  pose proof (cancel_err_spec q 0) as Hc. destruct (cancelCheck_err (q_Ctx q) 0) as [polls [e|]].
  { eexists _, _, _. split; [done|]. split; [done|]. by right. }
  rewrite query_depth_eq. unfold MaxRepresentableDepth. destruct (Z.ltb_spec 127 (Z.of_nat query_depth)) as [Hbig|HD].
  { eexists _, _, _. split; [done|]. split; [done|]. left. split_and!; [done..|]. lia. }
  assert (query_depth ≤ 127)%nat as HD' by lia. fold pairwise. destruct pairwise eqn:Epw.
  { destruct (strategyPairs_spec s rows q Hk Δ HΔ query_depth HD' fuel Hf Hr Ht (mkMemBudget (q_MemoryLimit q) 0 0)
      pool polls Hp eq_refl) as (pool' & ans & err & -> & Hp' & Hans).
    eexists _, _, _. split; [done|]. split; [done|]. by right. }
  assert (∀ b, ∃ pool' ans err,
    strategySmallSide fuel procs s q (q_Kinds q) (Z.of_nat query_depth) (mkMemBudget (q_MemoryLimit q) 0 0) b pool polls =
      Some (pool', (ans, err)) ∧ pool_wf pool' ∧
    (err = Some ErrTooLarge ∧ ans = [] ∧ ((query_depth ≤ 127)%nat → false = false) ∨
     answer_ok s rows q query_depth ans err)) as Hside.
  { intros b. destruct (strategySmallSide_spec s rows q Hk Δ HΔ query_depth HD' fuel Hf Hr Ht procs
      (mkMemBudget (q_MemoryLimit q) 0 0) b pool polls Hprocs Hp eq_refl) as (pool' & ans & err & E & Hp' & Hans).
    exists pool', ans, err. split; [done|]. split; [done|]. destruct Hans as [[? ?]|?]; [by left|by right]. }
  destruct (_ && _); [apply Hside|]. destruct (_ && _); [apply Hside|].
  eexists _, _, _. split; [done|]. split; [done|]. by left.
Qed.
End all.
