(* ===== verification/ViewTraverse.v ===== *)
(** * The engine's view of the graph

    [internal/engine/traverse] works on a [*snapshot.View]. [View_traversable]
    gives it the operations of [View], and [View_laws] proves for every
    represented view what the engine relies on: the rows are those of the
    visible graph, in both directions, on plain and on overlay views. *)

From S2P Require Import Prelude Bitset Csr Kinds Props Snapshot Builder Segment View ViewAdj ViewRows.
From S2P Require Import PathSink Traverse Bfs.
From stdpp Require Import relations.
#[local] Open Scope N_scope.
From stdpp Require Import options.
Unset Default Proof Using.

(** ** Definitions *)

(** The rows of the base arrays; a panic on an overlay. *)
Definition View_Out (v : View) (n : NodeID) : option (list NodeID * list KindID * list N) :=
  if Overlay v then None
  else
    lo ← idx (OutOffsets (v_base v)) n; hi ← idx (OutOffsets (v_base v)) (u32 (n + 1));
    ts ← slice (OutTargets (v_base v)) lo hi;
    ks ← slice (OutKinds (v_base v)) lo hi;
    es ← slice (OutEdgeIDs (v_base v)) lo hi;
    Some (ts, ks, es).
Definition View_In (v : View) (n : NodeID) : option (list NodeID * list KindID) :=
  if Overlay v then None
  else
    lo ← idx (InOffsets (v_base v)) n; hi ← idx (InOffsets (v_base v)) (u32 (n + 1));
    ts ← slice (InTargets (v_base v)) lo hi;
    ks ← slice (InKinds (v_base v)) lo hi;
    Some (ts, ks).

#[export] Instance View_traversable `{GoStd} : TraverseView View := {|
  tv_NodeCount := View_NodeCount;
  tv_Overlay := Overlay;
  tv_Alive := Alive;
  tv_Out v n := (λ r, r.1.1) <$> View_Out v n;
  tv_OutSlices := OutSlices;
  tv_InSlices := InSlices;
  tv_OutEdges S := OutEdges;
  tv_InEdges S := InEdges;
|}.

(** ** Plain views *)

Section plain.
Context `{GoStd} (v : View) (L : layout) (Ds : list delta) (HR : View_rep v L Ds).
Let HB := vr_base _ _ _ HR.
Let HP := rep_packed _ _ HB.
Hypothesis Hplain : Overlay v = false.

Lemma View_Out_row n r : idx (lo_out L) n = Some r →
  View_Out v n = Some (oe_dst <$> r, oe_kind <$> r, oe_id <$> r).
Proof.
  intros Hr. pose proof (idx_lt _ _ _ Hr) as Hn. rewrite (pk_out_len _ _ HP) in Hn.
  unfold View_Out. rewrite Hplain, (node_succ _ _ HB) by done.
  rewrite (pk_out _ _ HP), (pk_targets _ _ HP), (pk_kinds _ _ HP), (pk_eids _ _ HP).
  pose proof (row_offs_fmap oe_dst _ _ _ Hr) as H1. pose proof (row_offs_fmap oe_kind _ _ _ Hr) as H2.
  pose proof (row_offs_fmap oe_id _ _ _ Hr) as H3. unfold row in H1, H2, H3.
  destruct (idx (offs (lo_out L)) n) as [lo|]; simpl in *; [|done].
  destruct (idx (offs (lo_out L)) (n + 1)) as [hi|]; simpl in *; [|done].
  by rewrite H1, H2, H3.
Qed.

Lemma View_In_row n r : idx (lo_in L) n = Some r →
  View_In v n = Some ((λ e : iedge, e.1.1) <$> r, (λ e : iedge, e.1.2) <$> r).
Proof.
  intros Hr. pose proof (idx_lt _ _ _ Hr) as Hn. rewrite (pk_in_len _ _ HP) in Hn.
  unfold View_In. rewrite Hplain, (node_succ _ _ HB) by done.
  rewrite (pk_in _ _ HP), (pk_isrc _ _ HP), (pk_ikind _ _ HP).
  pose proof (row_offs_fmap (λ e : iedge, e.1.1) _ _ _ Hr) as H1.
  pose proof (row_offs_fmap (λ e : iedge, e.1.2) _ _ _ Hr) as H2. unfold row in H1, H2.
  destruct (idx (offs (lo_in L)) n) as [lo|]; simpl in *; [|done].
  destruct (idx (offs (lo_in L)) (n + 1)) as [hi|]; simpl in *; [|done].
  by rewrite H1, H2.
Qed.

(** Nothing is added or deleted. *)
Lemma plain_Alive n : n < View_NodeCount v → Alive v n = true.
Proof. intros Hn. unfold Alive. rewrite (proj2 (N.leb_gt _ _)) by done. by rewrite Hplain. Qed.

Lemma plain_count : View_NodeCount v = NodeCount (v_base v).
Proof.
  unfold View_NodeCount, virtualPgIDs.
  destruct (merged_cases v L Ds HR) as [(-> & _ & _)|(m & _ & _ & Hov)]; [simpl; rewrite len_nil; lia|congruence].
Qed.

Lemma plain_OutSlices n : n < View_NodeCount v →
  OutSlices v n = Some ((λ r, (r.1.1, r.1.2)) <$> View_Out v n).
Proof.
  rewrite plain_count. intros Hn. destruct (out_row_Some _ _ HB n) as [r Hr]; [by rewrite <- (rep_NodeCount _ _ HB)|].
  rewrite (View_Out_row _ _ Hr). simpl. unfold OutSlices, CleanOut. destruct (N.leb_spec (NodeCount (v_base v)) n); [lia|].
  rewrite Hplain. simpl. by rewrite (Out_spec _ _ HB _ _ Hr).
Qed.
End plain.

(** ** The laws *)

Section laws.
Context `{GoStd} (v : View) (L : layout) (Ds : list delta) (HR : View_rep v L Ds).
Let G := view_graph L Ds.
(** row numbers in a merged adjacency are [int32] *)
Hypothesis Hsize : View_NodeCount v < 2 ^ 31.

(** The edges at a node: the node at the other end and the kind. *)
Definition view_rows (fwd : bool) (n : NodeID) : list hop := (fst : vedge → hop) <$> walk_list v L fwd n.

Lemma view_rows_elem fwd n w k : (w, k) ∈ view_rows fwd n ↔ ∃ id wid e,
  idx (view_ids v) n = Some id ∧ idx (view_ids v) w = Some wid ∧
  visible G !! e = Some (if fwd then (id, wid, k) else (wid, id, k)).
Proof.
  destruct (walk_list_rep v L Ds HR fwd n) as [_ Hw]. unfold view_rows. rewrite list_elem_of_fmap. split.
  - intros ([[w' k'] e] & [= <- <-] & (id & wid & ? & ? & ?)%Hw). by exists id, wid, e.
  - intros (id & wid & e & ? & ? & ?). exists (w, k, e). split; [done|]. apply Hw. by exists id, wid.
Qed.

Lemma view_slices (l : list vedge) : w_nodes l = fst <$> ((fst : vedge → hop) <$> l) ∧
  w_kinds l = snd <$> ((fst : vedge → hop) <$> l).
Proof. unfold w_nodes, w_kinds. by rewrite <- !list_fmap_compose. Qed.

#[export] Instance View_laws : TraverseLaws v view_rows.
Proof.
  split.
  - simpl. lia.
  - intros fwd n Hn. left. simpl in Hn. unfold slices_of, tv_OutSlices, tv_InSlices, View_traversable, view_rows.
    destruct (view_slices (walk_list v L fwd n)) as [<- <-].
    destruct fwd; [rewrite (OutSlices_walk v L Ds HR Hsize)|rewrite (InSlices_walk v L Ds HR Hsize)];
      by rewrite (proj2 (N.ltb_lt _ _)) by done.
  - intros fwd n w k (id & wid & e & Hn & Hw & _)%view_rows_elem. simpl.
    split; by eapply dense_lt.
  - intros u w k. rewrite !view_rows_elem. naive_solver.
  - intros fwd n Ha. unfold view_rows, walk_list. simpl in Ha. by rewrite Ha.
  - intros Hp n Hn. simpl in *. split; [by eapply plain_Alive|].
    pose proof (plain_OutSlices v L Ds HR Hp n Hn) as Hs. rewrite (OutSlices_walk v L Ds HR Hsize) in Hs.
    rewrite (proj2 (N.ltb_lt _ _)) in Hs by done. destruct (View_Out v n) as [[[ts ks] es]|]; simpl in *; [|done].
    injection Hs as <- <-. unfold view_rows. by destruct (view_slices (walk_list v L true n)) as [-> _].
  - intros Hov n Hn. exists (walk_list v L true n). split; [done|]. intros S yield st. simpl.
    by apply (OutEdges_walk v L Ds HR).
Qed.

(** No row is longer than the number of edges of the graph. *)
Lemma view_rows_len fwd n : len (view_rows fwd n) ≤ N.of_nat (size (visible G)).
Proof.
  destruct (walk_list_rep v L Ds HR fwd n) as [Hnd Hw]. unfold view_rows. rewrite len_fmap. unfold len.
  assert (NoDup ((snd : vedge → N) <$> walk_list v L fwd n)) as Hnd'.
  { apply NoDup_fmap_2_strong; [|done]. intros [[t k] e] [[t' k'] e'] H1 H2 Ee. simpl in Ee. subst e'.
    apply Hw in H1 as (id & tid & H1 & H2' & H3). apply Hw in H2 as (id' & tid' & H1' & H2 & H3'). simplify_eq.
    destruct fwd; simplify_eq; by rewrite (dense_unique v L Ds HR _ _ _ H2' H2). }
  rewrite <- (length_fmap (snd : vedge → N)), <- size_dom, <- (size_list_to_set (C := gset N)) by done.
  apply N.lt_succ_r. assert (size (list_to_set ((snd : vedge → N) <$> walk_list v L fwd n) : gset N) ≤ size (dom (visible G) : gset N))%nat; [|lia].
  apply subseteq_size. intros e (x & -> & Hx)%elem_of_list_to_set%list_elem_of_fmap.
  destruct x as [[t k] e]. apply Hw in Hx as (id & tid & _ & _ & Hv). apply elem_of_dom. eauto.
Qed.
End laws.
