(* ===== verification/Rows.v ===== *)
(** * The query interpreter: rows, plans and budgets

    [internal/engine/interpret]: of [eval.go] the rows a query is answered
    with, of [plan.go] the data of a plan, of [exec.go] the work meter, of
    [value.go] the three truth values.

    Expressions belong to the query AST, whose types are in a package that is
    not in this repository: [Cypher] is what the executor asks of them, their
    value and their truth on a row, and what it asks of their shape. *)

From S2P Require Import Prelude Bitset Snapshot View ViewAdj EdgeKinds Traverse.
From Stdlib Require Import SpecFloat.
From stdpp Require Import options pretty.
Unset Default Proof Using.
#[local] Open Scope N_scope.

(** ** Truth *)

Inductive Tri := TriFalse | TriTrue | TriNull.
#[global] Instance Tri_eq_dec : EqDecision Tri.
Proof. solve_decision. Defined.

Definition Tri_And (t o : Tri) : Tri :=
  match t, o with
  | TriFalse, _ | _, TriFalse => TriFalse
  | TriNull, _ | _, TriNull => TriNull
  | TriTrue, TriTrue => TriTrue
  end.
Definition Tri_Or (t o : Tri) : Tri :=
  match t, o with
  | TriTrue, _ | _, TriTrue => TriTrue
  | TriNull, _ | _, TriNull => TriNull
  | TriFalse, TriFalse => TriFalse
  end.
Definition Tri_Not (t : Tri) : Tri :=
  match t with TriFalse => TriTrue | TriTrue => TriFalse | TriNull => TriNull end.
Definition Tri_Xor (t o : Tri) : Tri :=
  match t, o with
  | TriNull, _ | _, TriNull => TriNull
  | _, _ => if bool_decide (t = o) then TriFalse else TriTrue
  end.
Definition boolToTri (b : bool) : Tri := if b then TriTrue else TriFalse.

(** ** Rows *)

(** An edge: its forward slot on a plain view, its id on an overlay. *)
Record EdgeRef := mkEdgeRef { er_Fwd : N; er_EdgeID : N }.
#[global] Instance EdgeRef_eq_dec : EqDecision EdgeRef.
Proof. solve_decision. Defined.

Definition EdgeRef_DatabaseID (snap : View) (e : EdgeRef) : option N :=
  if Overlay snap then Some (er_EdgeID e) else idx (OutEdgeIDs (v_base snap)) (er_Fwd e).
Definition EdgeRef_Kind `{GoStd} (snap : View) (e : EdgeRef) : option KindID :=
  if Overlay snap then r ← EdgeStateByID snap (er_EdgeID e); Some (match r with Some (_, _, k) => k | None => 0%Z end)
  else idx (OutKinds (v_base snap)) (er_Fwd e).

Record PathVal := mkPathVal { pv_Nodes : list NodeID; pv_Edges : list EdgeRef }.

(** What a [WITH] can bind: a value, or the set of ids a [COLLECT] gathers. *)
Inductive scalar := SAny (v : any) | SIdSet (ids : gset N).

(** An edge with the number of the pattern it was matched in. *)
Definition patternEdge : Type := Z * N.

Record Row := mkRow {
  r_nodes : list (string * NodeID);
  r_edges : list (string * EdgeRef);
  r_paths : list (string * PathVal);
  r_scalars : list (string * scalar);
  r_usedEdges : list patternEdge;
  r_trailEdges : list patternEdge;
}.

Definition NewRow : Row := mkRow [] [] [] [] [] [].

(** The loop of [SetNode], [SetEdge] and [setAnyBinding]. *)
Fixpoint setAnyBinding {A} (bs : list (string * A)) (sym : string) (v : A) : list (string * A) :=
  match bs with
  | [] => [(sym, v)]
  | b :: bs' => if String.eqb b.1 sym then (sym, v) :: bs' else b :: setAnyBinding bs' sym v
  end.
Fixpoint getAnyBinding {A} (bs : list (string * A)) (sym : string) : option A :=
  match bs with
  | [] => None
  | b :: bs' => if String.eqb b.1 sym then Some b.2 else getAnyBinding bs' sym
  end.

Definition SetNode (r : Row) (sym : string) (id : NodeID) : Row :=
  mkRow (setAnyBinding (r_nodes r) sym id) (r_edges r) (r_paths r) (r_scalars r) (r_usedEdges r) (r_trailEdges r).
Definition Node (r : Row) (sym : string) : option NodeID := getAnyBinding (r_nodes r) sym.
Definition SetEdge (r : Row) (sym : string) (ref : EdgeRef) : Row :=
  mkRow (r_nodes r) (setAnyBinding (r_edges r) sym ref) (r_paths r) (r_scalars r) (r_usedEdges r) (r_trailEdges r).
Definition Edge (r : Row) (sym : string) : option EdgeRef := getAnyBinding (r_edges r) sym.
Definition SetPathVar (r : Row) (sym : string) (v : PathVal) : Row :=
  mkRow (r_nodes r) (r_edges r) (setAnyBinding (r_paths r) sym v) (r_scalars r) (r_usedEdges r) (r_trailEdges r).
Definition PathVar (r : Row) (sym : string) : option PathVal := getAnyBinding (r_paths r) sym.
Definition SetScalar (r : Row) (sym : string) (v : scalar) : Row :=
  mkRow (r_nodes r) (r_edges r) (r_paths r) (setAnyBinding (r_scalars r) sym v) (r_usedEdges r) (r_trailEdges r).
Definition Scalar (r : Row) (sym : string) : option scalar := getAnyBinding (r_scalars r) sym.

Definition markEdgeUsed (r : Row) (pattern : Z) (fwd : N) : Row :=
  mkRow (r_nodes r) (r_edges r) (r_paths r) (r_scalars r) (r_usedEdges r ++ [(pattern, fwd)]) (r_trailEdges r).
Definition edgeUsed (r : Row) (pattern : Z) (fwd : N) : bool :=
  existsb (λ used : patternEdge, (used.1 =? pattern)%Z && (used.2 =? fwd)) (r_usedEdges r).
Definition markTrailEdge (r : Row) (pattern : Z) (identity : N) : Row :=
  mkRow (r_nodes r) (r_edges r) (r_paths r) (r_scalars r) (r_usedEdges r) (r_trailEdges r ++ [(pattern, identity)]).
Definition trailEdgeUsed (r : Row) (pattern : Z) (identity : N) : bool :=
  existsb (λ used : patternEdge, (used.1 =? pattern)%Z && (used.2 =? identity)) (r_trailEdges r).

(** [cloneRow] copies every slice, so a row is a value here; [mergeRowInto] adds
    the bindings of [src] to [dst]. *)
Definition mergeRowInto (dst src : Row) : Row :=
  let dst := foldl (λ r b, SetNode r b.1 b.2) dst (r_nodes src) in
  let dst := foldl (λ r b, SetEdge r b.1 b.2) dst (r_edges src) in
  let dst := foldl (λ r b, SetScalar r b.1 b.2) dst (r_scalars src) in
  let dst := foldl (λ r b, SetPathVar r b.1 b.2) dst (r_paths src) in
  mkRow (r_nodes dst) (r_edges dst) (r_paths dst) (r_scalars dst) (r_usedEdges dst ++ r_usedEdges src) (r_trailEdges dst ++ r_trailEdges src).

(** ** Expressions *)

Class Cypher := {
  Expression : Type;
  EvalPredicate : View → Row → Expression → Tri + goerr;
  (** No value is Go's [ok = false]. *)
  EvalValue : View → Row → Expression → option scalar + goerr;
  (** The symbols an expression reads. *)
  mentions : Expression → gset string;
  (** The conjuncts [a.p = b.q] of a conjunction, each side with its symbol. *)
  property_equalities : Expression → list ((Expression * string) * (Expression * string));
  kindOnlyPredicate : Expression → bool;
  negatedPredicate : Expression → bool;
}.

(** An expression reads of a row what it mentions. *)
Definition same_on (syms : gset string) (r r' : Row) : Prop := ∀ s, s ∈ syms →
  Node r s = Node r' s ∧ Edge r s = Edge r' s ∧ Scalar r s = Scalar r' s ∧ PathVar r s = PathVar r' s.
Class CypherLaws `{Cypher} := {
  EvalPredicate_local : ∀ v r r' p, same_on (mentions p) r r' → EvalPredicate v r p = EvalPredicate v r' p;
  EvalValue_local : ∀ v r r' p, same_on (mentions p) r r' → EvalValue v r p = EvalValue v r' p;
}.

(** ** Plans *)

(** [graph.Direction], of which the source names these values. *)
Inductive Direction := DirectionInbound | DirectionOutbound | DirectionBoth.
#[global] Instance Direction_eq_dec : EqDecision Direction.
Proof. solve_decision. Defined.

Inductive ShortestMode := ShortestNone | ShortestOne | ShortestAll.
#[global] Instance ShortestMode_eq_dec : EqDecision ShortestMode.
Proof. solve_decision. Defined.

Record Range := mkRange { rg_Min : Z; rg_Max : Z }.

Record Step := mkStep {
  FromSym : string; EdgeSym : string; ToSym : string;
  st_Direction : Direction;
  EdgeKinds : list KindID;
  st_Range : option Range;
  Shortest : ShortestMode;
  PathSym : string;
  HasExplicitEndpointInequality : bool;
  Reversed : bool;
  Pattern : Z;
}.

Section plan.
Context `{Cypher}.

Record NodeConstraint := mkNodeConstraint {
  nc_Kinds : list KindID;
  nc_IDs : list N;
  ObjectIDAnchor : option string;
  Predicates : list Expression;
  PropCandidates : list NodeID;
  PropIndexed : bool;
}.

Record CountAgg := mkCountAgg { ca_Distinct : bool; ca_Sym : string; ca_Star : bool }.
Record CollectMembershipAgg := mkCollectMembershipAgg { cm_Sym : string }.
Record WithAggregate := mkWithAggregate { wa_Alias : string; wa_Count : option CountAgg; wa_Collect : option CollectMembershipAgg }.
Record WithConstant := mkWithConstant { wk_Alias : string; wk_Value : any }.
Record WithComputed := mkWithComputed { wx_Alias : string; wx_Expr : Expression }.
Record WithClause := mkWithClause {
  wc_Distinct : bool;
  GroupKeys : list string;
  Aggregates : list WithAggregate;
  Constants : list WithConstant;
  Computed : list WithComputed;
}.

(** A symbol of [Nodes] never has a nil constraint. *)
#[warnings="-register-all"]
Inductive Part := mkPart {
  Chains : list Step;
  Nodes : gmap string NodeConstraint;
  Where : option Expression;
  With : option WithClause;
  OptionalPart : option Part;
  OptionalShared : list string;
}.

Record ProjectionOutput := mkProjectionOutput {
  po_Optional : bool; po_Alias : string; po_Expr : Expression; BareCallKind : string; OutputName : string }.
Record Projection := mkProjection { pj_Distinct : bool; pj_Items : list ProjectionOutput }.
Record OrderKey := mkOrderKey { ok_Symbol : string; Descending : bool; ok_Expr : option Expression; RuntimeNumeric : bool }.
Record Query := mkQuery {
  Parts : list Part;
  Returning : Projection;
  Order : list OrderKey;
  Skip : Z;
  Limit : Z;
  ReturnGroup : option WithClause;
}.
End plan.

(** ** The work meter *)

Record Budgets := mkBudgets { MaxRows : Z; MaxWork : Z; MaxLiveRows : Z }.

(** The state of an execution: the meter's counters, how often the context was
    polled, and what the view has memoised. *)
Record exec_state := mkExecState {
  x_work : Z; x_unchecked : Z; x_finalRows : Z; x_peakRows : Z;
  x_polls : N; x_memo : ekMemo }.
Abbreviation exec := (go exec_state) (only parsing).

(** [float64(x)] of an [int]. *)
Definition float_of_int (x : Z) : spec_float := binary_normalize 53 1024 x 0 false.
(** [a > b] of two [float64]s. *)
Definition float_gt (a b : spec_float) : bool := SFltb b a.

Section meter.
Context (budget : Budgets) (ctx : Ctx).

Definition observeRows (n : N) : exec () := λ s,
  let n := Z.of_N n in
  let s := if (x_peakRows s <? n)%Z then mkExecState (x_work s) (x_unchecked s) (x_finalRows s) n (x_polls s) (x_memo s) else s in
  Some (s, if (0 <? MaxLiveRows budget)%Z && (MaxLiveRows budget <? n)%Z then inr ErrBudget else inl ()).

Definition contextErr : exec () := λ s,
  match ctx with
  | None => Some (s, inl ())
  | Some f =>
      let '(polls, e) := ctx_poll f (x_polls s) in
      Some (mkExecState (x_work s) (x_unchecked s) (x_finalRows s) (x_peakRows s) polls (x_memo s),
            match e with Some e => inr e | None => inl () end)
  end.

Definition check : exec () :=
  (let! _ := contextErr in
   λ s, Some (s, if (0 <? MaxWork budget)%Z && (MaxWork budget <? x_work s)%Z then inr ErrBudget else inl ()))%go.

Definition spend (units : Z) : exec () := λ s,
  let work := i64 (x_work s + units) in
  let unchecked := i64 (x_unchecked s + units) in
  if (unchecked <? 1024)%Z then Some (mkExecState work unchecked (x_finalRows s) (x_peakRows s) (x_polls s) (x_memo s), inl ())
  else check (mkExecState work 0 (x_finalRows s) (x_peakRows s) (x_polls s) (x_memo s)).

Definition spendProduct (left right : N) : exec () :=
  if (left =? 0) || (right =? 0) then go_ret ()
  else
    let product := SFmul 53 1024 (float_of_int (Z.of_N left)) (float_of_int (Z.of_N right)) in
    if (0 <? MaxWork budget)%Z && float_gt product (float_of_int (MaxWork budget)) then go_err ErrBudget
    else if (0 <? MaxRows budget)%Z && float_gt product (float_of_int (MaxRows budget)) then go_err ErrBudget
    else spend (i64 (Z.of_N left * Z.of_N right)).

Definition addFinalRow : exec () := λ s,
  let finalRows := i64 (x_finalRows s + 1) in
  let s := mkExecState (x_work s) (x_unchecked s) finalRows (x_peakRows s) (x_polls s) (x_memo s) in
  if (0 <? MaxRows budget)%Z && (MaxRows budget <? finalRows)%Z then Some (s, inr ErrBudget) else spend 1 s.
End meter.

(** [for x := range l], with a result that the rounds carry on. *)
Fixpoint go_foldl {S A B} (f : B → A → go S B) (b : B) (l : list A) : go S B :=
  match l with [] => go_ret b | x :: l' => go_bind (f b x) (λ b', go_foldl f b' l') end.

(** A loop whose body may also stop it. *)
Fixpoint go_until {S A B} (f : B → A → go S (B * bool)) (b : B) (l : list A) : go S (B * bool) :=
  match l with
  | [] => go_ret (b, true)
  | x :: l' => go_bind (f b x) (λ '(b', cont), if (cont : bool) then go_until f b' l' else go_ret (b', false))
  end.

(** The same over an iterator, whose callback stops it on an error too and keeps
    that in a variable. *)
Definition go_each {S A B} (walk : (A → S * (B * bool + goerr) → option (S * (B * bool + goerr) * bool)) →
      S * (B * bool + goerr) → option (S * (B * bool + goerr)))
    (f : B → A → go S (B * bool)) (b : B) : go S (B * bool) := λ s,
  walk (λ x '(s, r),
    match r with
    | inl (b, _) => '(s', r') ← f b x s; Some (s', r', match r' with inl (_, cont) => cont | inr _ => false end)
    | inr _ => Some (s, r, false)
    end) (s, inl (b, true)).

(** A call to the memoised index of edge kinds. *)
Definition go_memo {A} (f : ekMemo → option (ekMemo * A)) : exec A := λ s,
  '(m, x) ← f (x_memo s);
  Some (mkExecState (x_work s) (x_unchecked s) (x_finalRows s) (x_peakRows s) (x_polls s) m, inl x).

(** ** Lists *)

Lemma bind_cons {A B} (f : A → list B) x (l : list A) : (x :: l) ≫= f = f x ++ (l ≫= f).
Proof. done. Qed.
Lemma bind_fmap_comp {A B C} (f : A → B) (g : B → list C) (l : list A) : (f <$> l) ≫= g = l ≫= (λ x, g (f x)).
Proof. induction l as [|x l IH]; [done|]. by rewrite fmap_cons, !bind_cons, IH. Qed.

Lemma fmap_bind {A B C} (f : B → C) (g : A → list B) (l : list A) : f <$> (l ≫= g) = l ≫= (λ x, f <$> g x).
Proof. induction l as [|x l IH]; [done|]. by rewrite !bind_cons, fmap_app, IH. Qed.
Lemma bind_ext {A B} (f g : A → list B) (l : list A) : (∀ x, x ∈ l → f x = g x) → l ≫= f = l ≫= g.
Proof.
  induction l as [|x l IH]; intros Hf; [done|]. rewrite !bind_cons, (Hf x) by (by left). f_equal. apply IH. intros y Hy. apply Hf. by right.
Qed.

Lemma bind_filter {A B} (p : A → bool) (f : A → B) (l : list A) :
  l ≫= (λ x, if p x then [f x] else []) = f <$> filter (λ x, p x = true) l.
Proof. induction l as [|x l IH]; [done|]. rewrite bind_cons, IH, filter_cons. by destruct (p x). Qed.

(** ** Running *)

(** From a state of [I], [m] does not panic and ends in a state of [I], with a
    value of [P] or an error of [E]. *)
Definition runs {S A} (I : S → Prop) (E : goerr → Prop) (m : go S A) (P : A → Prop) : Prop :=
  ∀ s, I s → ∃ s' r, m s = Some (s', r) ∧ I s' ∧ match r with inl x => P x | inr err => E err end.

Section runs.
Context {S : Type} (I : S → Prop) (E : goerr → Prop).

Lemma runs_ret {A} (x : A) (P : A → Prop) : P x → runs I E (go_ret x) P.
Proof. intros Hx s Hs. by exists s, (inl x). Qed.
Lemma runs_err {A} err (P : A → Prop) : E err → runs I E (go_err err) P.
Proof. intros He s Hs. by exists s, (inr err). Qed.
Lemma runs_bind {A B} (m : go S A) (f : A → go S B) P : runs I E m (λ x, runs I E (f x) P) → runs I E (go_bind m f) P.
Proof.
  intros Hm s Hs. destruct (Hm s Hs) as (s1 & r & E1 & Hs1 & Hr). unfold go_bind. rewrite E1. cbn [mbind option_bind].
  destruct r as [x|err]; [by apply Hr|by exists s1, (inr err)].
Qed.
Lemma runs_lift {A} (m : option A) x (P : A → Prop) : m = Some x → P x → runs I E (go_lift m) P.
Proof. intros -> Hx s Hs. by exists s, (inl x). Qed.
Lemma runs_mono {A} (m : go S A) (P Q : A → Prop) : runs I E m P → (∀ x, P x → Q x) → runs I E m Q.
Proof. intros Hm HPQ s Hs. destruct (Hm s Hs) as (s1 & [x|err] & E1 & Hs1 & Hr); eexists s1, _; (split; [exact E1|]); split; auto. Qed.
(** A step and the rest. *)
Lemma runs_then {A B} (m : go S A) (f : A → go S B) (Q : A → Prop) P :
  runs I E m Q → (∀ x, Q x → runs I E (f x) P) → runs I E (go_bind m f) P.
Proof. intros Hm Hf. apply runs_bind. eapply runs_mono; [exact Hm|exact Hf]. Qed.

(** A loop that adds, in every round, a list that depends on the round only. *)
Lemma runs_collect {A B} (f : list B → A → go S (list B)) (g : A → list B) (l : list A) out :
  (∀ out x, x ∈ l → runs I E (f out x) (λ out', out' = out ++ g x)) →
  runs I E (go_foldl f out l) (λ out', out' = out ++ (l ≫= g)).
Proof.
  revert out. induction l as [|x l IH]; intros out Hf; simpl; [apply runs_ret; by rewrite app_nil_r|].
  eapply runs_then; [apply Hf; by left|]. intros ? ->. eapply runs_mono; [apply IH; intros; apply Hf; by right|].
  intros ? ->. by rewrite (assoc_L (++)).
Qed.
Lemma runs_foldl_split {A B} (f : B → A → go S B) (R : list A → B → Prop) (l : list A) b :
  (∀ done rest x b, l = done ++ x :: rest → R done b → runs I E (f b x) (R (done ++ [x]))) → R [] b → runs I E (go_foldl f b l) (R l).
Proof.
  intros Hf H0. assert (∀ rest done b, l = done ++ rest → R done b → runs I E (go_foldl f b rest) (R l)) as Hgo; [|by apply (Hgo l [])].
  induction rest as [|x rest IH]; intros done b0 Hl HR; simpl; [apply runs_ret; by rewrite Hl, app_nil_r|].
  eapply runs_then; [by apply (Hf done rest)|intros b1 Hb; apply (IH (done ++ [x])); [by rewrite <- (assoc_L (++))|done]].
Qed.
Lemma runs_foldl {A B} (f : B → A → go S B) (R : list A → B → Prop) (l : list A) b :
  (∀ done x b, R done b → x ∈ l → runs I E (f b x) (R (done ++ [x]))) → R [] b → runs I E (go_foldl f b l) (R l).
Proof. intros Hf. apply runs_foldl_split. intros done rest x b' -> HR. apply Hf; [done|]. apply elem_of_app. right. by left. Qed.

Lemma runs_until {A B} (f : list B → A → go S (list B * bool)) (g : A → list B) (l : list A) out :
  (∀ out x, x ∈ l → runs I E (f out x) (λ r, r = (out ++ g x, true))) →
  runs I E (go_until f out l) (λ r, r = (out ++ (l ≫= g), true)).
Proof.
  revert out. induction l as [|x l IH]; intros out Hf; simpl; [apply runs_ret; by rewrite app_nil_r|].
  eapply runs_then; [apply Hf; by left|]. intros ? ->. eapply runs_mono; [apply IH; intros; apply Hf; by right|].
  intros ? ->. by rewrite (assoc_L (++)).
Qed.

Lemma runs_until_rel {A B} (f : B → A → go S (B * bool)) (R : list A → B → Prop) (l : list A) b :
  (∀ done x b, R done b → x ∈ l → runs I E (f b x) (λ r, R (done ++ [x]) r.1 ∧ r.2 = true)) → R [] b →
  runs I E (go_until f b l) (λ r, R l r.1 ∧ r.2 = true).
Proof.
  intros Hf H0. assert (∀ rest done b, done ++ rest = l → R done b → runs I E (go_until f b rest) (λ r, R l r.1 ∧ r.2 = true)) as Hgo; [|by apply (Hgo l [])].
  induction rest as [|x rest IH]; intros done b0 Hl HR; simpl; [apply runs_ret; by rewrite <- Hl, app_nil_r|].
  eapply runs_then; [apply Hf; [exact HR|]|intros [b1 c] [Hb Hc]; simpl in *; subst c; apply (IH (done ++ [x])); [by rewrite <- (assoc_L (++))|done]].
  rewrite <- Hl. apply elem_of_app. right. by left.
Qed.

Lemma go_foldl_fmap {A B C} (f : B → C → go S B) (g : A → C) b (l : list A) s : go_foldl f b (g <$> l) s = go_foldl (λ b x, f b (g x)) b l s.
Proof.
  revert b s. induction l as [|x l IH]; intros b s; simpl; [done|]. unfold go_bind. destruct (f b (g x) s) as [[s' [b'|err]]|]; simpl; [apply IH|done..].
Qed.

(** An iterator that runs its callback over a list is the loop over the list. *)
Lemma go_each_list {A B} walk (f : B → A → go S (B * bool)) (l : list A) b s :
  (∀ yield (x : S * (B * bool + goerr)), walk yield x = iter_until yield l x) → go_each walk f b s = go_until f b l s.
Proof.
  intros Hw. unfold go_each. rewrite Hw. clear Hw walk. unfold iter_until. revert b s.
  induction l as [|x l IH]; intros b s; [done|]. simpl. unfold go_bind.
  destruct (f b x s) as [[s' [[b' []]|e]]|]; simpl; [apply IH|done..].
Qed.
End runs.

(** *** The meter *)

(** What a budget and a context can stop a query with. *)
Definition out_of_budget (budget : Budgets) (ctx : Ctx) (e : goerr) : Prop :=
  (e = ErrBudget ∧ ((0 < MaxRows budget)%Z ∨ (0 < MaxWork budget)%Z ∨ (0 < MaxLiveRows budget)%Z)) ∨ (e = ErrContext ∧ ctx ≠ None).

Section meter_runs.
Context (budget : Budgets) (ctx : Ctx) (I : ekMemo → Prop) (E : goerr → Prop).
Hypothesis HE : ∀ e, out_of_budget budget ctx e → E e.
Let J (s : exec_state) := I (x_memo s).

Lemma runs_observe n : runs J E (observeRows budget n) (λ _, True).
Proof.
  intros s Hs. unfold observeRows. eexists _, _. split; [done|]. split; [by destruct (_ <? _)%Z|].
  destruct (_ && _) eqn:Eb; [|done]. apply andb_true_iff in Eb as [?%Z.ltb_lt _]. apply HE. left. split; [done|]. by right; right.
Qed.
Lemma runs_context : runs J E (contextErr ctx) (λ _, True).
Proof.
  intros s Hs. unfold contextErr. destruct ctx as [f|] eqn:Ec; [|by eexists _, _].
  unfold ctx_poll. eexists _, _. split; [done|]. split; [done|]. destruct (f _); [|done]. apply HE. by right.
Qed.
Lemma runs_check : runs J E (check budget ctx) (λ _, True).
Proof.
  unfold check. eapply runs_then; [apply runs_context|]. intros _ _ s Hs. eexists _, _. split; [done|]. split; [done|].
  destruct (_ && _) eqn:Eb; [|done]. apply andb_true_iff in Eb as [?%Z.ltb_lt _]. apply HE. left. split; [done|]. by right; left.
Qed.
Lemma runs_spend n : runs J E (spend budget ctx n) (λ _, True).
Proof. intros s Hs. unfold spend. destruct (_ <? 1024)%Z; [by eexists _, _|]. by apply runs_check. Qed.
Lemma runs_spendProduct a b : runs J E (spendProduct budget ctx a b) (λ _, True).
Proof.
  unfold spendProduct. destruct (_ || _); [by apply runs_ret|].
  destruct (_ && _) eqn:E1; [|destruct ((0 <? MaxRows budget)%Z && _) eqn:E2; [|apply runs_spend]]; apply runs_err, HE; left; (split; [done|]).
  - apply andb_true_iff in E1 as [?%Z.ltb_lt _]. by right; left.
  - apply andb_true_iff in E2 as [?%Z.ltb_lt _]. by left.
Qed.
Lemma runs_addFinalRow : runs J E (addFinalRow budget ctx) (λ _, True).
Proof.
  intros s Hs. unfold addFinalRow. destruct (_ && _) eqn:E1; [|by apply runs_spend]. eexists _, _. split; [done|]. split; [done|].
  apply andb_true_iff in E1 as [?%Z.ltb_lt _]. apply HE. left. split; [done|]. by left.
Qed.
(** The three steps with which a row is added to a result. *)
Lemma runs_emit {A} n (out : A) (size : A → N) (P : A → Prop) : P out →
  runs J E (let! _ := spend budget ctx n in let! _ := observeRows budget (size out) in go_ret out)%go P.
Proof. intros HP. eapply runs_then; [apply runs_spend|]. intros _ _. eapply runs_then; [apply runs_observe|]. intros _ _. by apply runs_ret. Qed.
End meter_runs.

(** ** Bindings *)

Lemma getAny_set {A} (bs : list (string * A)) s s' v :
  getAnyBinding (setAnyBinding bs s v) s' = if decide (s = s') then Some v else getAnyBinding bs s'.
Proof.
  induction bs as [|[s0 v0] bs IH]; simpl; [by destruct (String.eqb_spec s s'); destruct (decide (s = s'))|].
  destruct (String.eqb_spec s0 s) as [->|Hne]; simpl.
  - destruct (String.eqb_spec s s'); by destruct (decide (s = s')).
  - destruct (String.eqb_spec s0 s') as [->|]; [|apply IH]. by rewrite decide_False by congruence.
Qed.
Lemma Node_SetNode r s s' n : Node (SetNode r s n) s' = if decide (s = s') then Some n else Node r s'.
Proof. apply getAny_set. Qed.
Lemma Edge_SetEdge r s s' e : Edge (SetEdge r s e) s' = if decide (s = s') then Some e else Edge r s'.
Proof. apply getAny_set. Qed.
Lemma Scalar_SetScalar r s s' x : Scalar (SetScalar r s x) s' = if decide (s = s') then Some x else Scalar r s'.
Proof. apply getAny_set. Qed.
Lemma PathVar_SetPathVar r s s' p : PathVar (SetPathVar r s p) s' = if decide (s = s') then Some p else PathVar r s'.
Proof. apply getAny_set. Qed.

(** Merging bindings: a binding of the added list wins, the last one first. *)
Lemma getAny_merge {A} (bs bs' : list (string * A)) s :
  NoDup bs'.*1 → getAnyBinding (foldl (λ r b, setAnyBinding r b.1 b.2) bs bs') s =
  match getAnyBinding bs' s with Some v => Some v | None => getAnyBinding bs s end.
Proof.
  revert bs. induction bs' as [|[s0 v0] bs' IH]; intros bs Hnd; simpl; [done|]. apply NoDup_cons in Hnd as [Hn Hnd].
  rewrite IH by done. rewrite getAny_set. destruct (String.eqb_spec s0 s) as [->|Hne].
  - rewrite decide_True by done. destruct (getAnyBinding bs' s) as [v|] eqn:Ev; [|done]. exfalso. apply Hn. clear -Ev.
    induction bs' as [|[s1 v1] bs' IH]; simpl in *; [done|]. destruct (String.eqb_spec s1 s) as [->|]; [by left|]. right. by apply IH.
  - by rewrite decide_False by congruence.
Qed.
Lemma elem_set_keys {A} (bs : list (string * A)) s v x : x ∈ (setAnyBinding bs s v).*1 → x = s ∨ x ∈ bs.*1.
Proof.
  induction bs as [|[s0 v0] bs IH]; simpl; [intros ->%list_elem_of_singleton; by left|].
  destruct (String.eqb_spec s0 s) as [->|]; simpl; (intros [->|Hx]%elem_of_cons; [|]); [by left|by right; right|by right; left|].
  destruct (IH Hx); [by left|by right; right].
Qed.
Lemma set_keys {A} (bs : list (string * A)) s v : NoDup bs.*1 → NoDup (setAnyBinding bs s v).*1.
Proof.
  induction bs as [|[s0 v0] bs IH]; simpl; [intros _; by apply NoDup_singleton|]. intros [Hn Hnd]%NoDup_cons.
  destruct (String.eqb_spec s0 s) as [->|Hne]; simpl; [by constructor|]. constructor; [|by apply IH].
  by intros [->|?]%elem_set_keys.
Qed.

Lemma used_spec (l : list patternEdge) p e : existsb (λ used : patternEdge, (used.1 =? p)%Z && (used.2 =? e)) l = true ↔ (p, e) ∈ l.
Proof.
  rewrite existsb_exists. split.
  - intros ([p' e'] & Hin & Hx). simpl in Hx. apply andb_true_iff in Hx as [->%Z.eqb_eq ->%N.eqb_eq]. by apply list_elem_of_In.
  - intros Hin. exists (p, e). split; [by apply list_elem_of_In|]. simpl. by rewrite Z.eqb_refl, N.eqb_refl.
Qed.
Lemma edgeUsed_spec r p e : edgeUsed r p e = true ↔ (p, e) ∈ r_usedEdges r.
Proof. apply used_spec. Qed.
Lemma trailEdgeUsed_spec r p e : trailEdgeUsed r p e = true ↔ (p, e) ∈ r_trailEdges r.
Proof. apply used_spec. Qed.

(** A row binds a symbol once. *)
Definition row_once (r : Row) : Prop := NoDup (r_nodes r).*1 ∧ NoDup (r_edges r).*1 ∧ NoDup (r_paths r).*1 ∧ NoDup (r_scalars r).*1.
Lemma once_NewRow : row_once NewRow.
Proof. unfold row_once. simpl. split_and!; constructor. Qed.
Lemma once_SetNode r s n : row_once r → row_once (SetNode r s n).
Proof. intros (? & ? & ? & ?). split_and!; try done. by apply set_keys. Qed.
Lemma once_SetEdge r s e : row_once r → row_once (SetEdge r s e).
Proof. intros (? & ? & ? & ?). split_and!; try done. by apply set_keys. Qed.
Lemma once_SetPathVar r s x : row_once r → row_once (SetPathVar r s x).
Proof. intros (? & ? & ? & ?). split_and!; try done. by apply set_keys. Qed.
Lemma once_SetScalar r s x : row_once r → row_once (SetScalar r s x).
Proof. intros (? & ? & ? & ?). split_and!; try done. by apply set_keys. Qed.
Lemma once_foldl {A} (f : Row → A → Row) (l : list A) r : (∀ r x, row_once r → row_once (f r x)) → row_once r → row_once (foldl f r l).
Proof. intros Hf. revert r. induction l as [|x l IH]; intros r Hr; [done|]. apply IH. by apply Hf. Qed.
Create HintDb row.
#[export] Hint Resolve once_NewRow once_SetNode once_SetEdge once_SetPathVar once_SetScalar : row.

(** What a merged row binds: what the added row binds, and else what the row
    did. *)
Lemma merge_rest dst src :
  r_nodes (mergeRowInto dst src) = foldl (λ r b, setAnyBinding r b.1 b.2) (r_nodes dst) (r_nodes src) ∧
  r_edges (mergeRowInto dst src) = foldl (λ r b, setAnyBinding r b.1 b.2) (r_edges dst) (r_edges src) ∧
  r_paths (mergeRowInto dst src) = foldl (λ r b, setAnyBinding r b.1 b.2) (r_paths dst) (r_paths src) ∧
  r_scalars (mergeRowInto dst src) = foldl (λ r b, setAnyBinding r b.1 b.2) (r_scalars dst) (r_scalars src).
Proof.
  assert (∀ l r, let r' := foldl (λ r b, SetNode r b.1 b.2) r l in r_nodes r' = foldl (λ r b, setAnyBinding r b.1 b.2) (r_nodes r) l ∧
    r_edges r' = r_edges r ∧ r_paths r' = r_paths r ∧ r_scalars r' = r_scalars r) as Hn by (induction l as [|b l IH]; intros r; [done|apply (IH (SetNode r b.1 b.2))]).
  assert (∀ l r, let r' := foldl (λ r b, SetEdge r b.1 b.2) r l in r_edges r' = foldl (λ r b, setAnyBinding r b.1 b.2) (r_edges r) l ∧
    r_nodes r' = r_nodes r ∧ r_paths r' = r_paths r ∧ r_scalars r' = r_scalars r) as He by (induction l as [|b l IH]; intros r; [done|apply (IH (SetEdge r b.1 b.2))]).
  assert (∀ l r, let r' := foldl (λ r b, SetScalar r b.1 b.2) r l in r_scalars r' = foldl (λ r b, setAnyBinding r b.1 b.2) (r_scalars r) l ∧
    r_nodes r' = r_nodes r ∧ r_paths r' = r_paths r ∧ r_edges r' = r_edges r) as Hs by (induction l as [|b l IH]; intros r; [done|apply (IH (SetScalar r b.1 b.2))]).
  assert (∀ l r, let r' := foldl (λ r b, SetPathVar r b.1 b.2) r l in r_paths r' = foldl (λ r b, setAnyBinding r b.1 b.2) (r_paths r) l ∧
    r_nodes r' = r_nodes r ∧ r_scalars r' = r_scalars r ∧ r_edges r' = r_edges r) as Hp by (induction l as [|b l IH]; intros r; [done|apply (IH (SetPathVar r b.1 b.2))]).
  unfold mergeRowInto. cbv zeta in *. cbn [r_nodes r_edges r_paths r_scalars].
  destruct (Hp (r_paths src) (foldl (λ r b, SetScalar r b.1 b.2) (foldl (λ r b, SetEdge r b.1 b.2) (foldl (λ r b, SetNode r b.1 b.2) dst (r_nodes src)) (r_edges src)) (r_scalars src))) as (-> & -> & -> & ->).
  destruct (Hs (r_scalars src) (foldl (λ r b, SetEdge r b.1 b.2) (foldl (λ r b, SetNode r b.1 b.2) dst (r_nodes src)) (r_edges src))) as (-> & -> & -> & ->).
  destruct (He (r_edges src) (foldl (λ r b, SetNode r b.1 b.2) dst (r_nodes src))) as (-> & -> & -> & ->). by destruct (Hn (r_nodes src) dst) as (-> & -> & -> & ->).
Qed.
Lemma once_merge dst src : row_once dst → row_once (mergeRowInto dst src).
Proof.
  intros (? & ? & ? & ?). destruct (merge_rest dst src) as (En & Ee & Ep & Es). unfold row_once. rewrite En, Ee, Ep, Es.
  assert (∀ A (bs bs' : list (string * A)), NoDup bs.*1 → NoDup (foldl (λ r b, setAnyBinding r b.1 b.2) bs bs').*1) as Hm; [|split_and!; by apply Hm].
  intros A bs bs'. revert bs. induction bs' as [|b bs' IH]; intros bs Hb; [done|]. apply IH. by apply set_keys.
Qed.
Definition orelse {A} (x y : option A) : option A := match x with Some _ => x | None => y end.
Lemma merge_binds dst src s : row_once src →
  Node (mergeRowInto dst src) s = orelse (Node src s) (Node dst s) ∧ Edge (mergeRowInto dst src) s = orelse (Edge src s) (Edge dst s) ∧
  PathVar (mergeRowInto dst src) s = orelse (PathVar src s) (PathVar dst s) ∧ Scalar (mergeRowInto dst src) s = orelse (Scalar src s) (Scalar dst s).
Proof.
  intros (? & ? & ? & ?). destruct (merge_rest dst src) as (En & Ee & Ep & Es). unfold Node, Edge, PathVar, Scalar. rewrite En, Ee, Ep, Es.
  rewrite !getAny_merge by done. unfold orelse. split_and!; by destruct (getAnyBinding _ s).
Qed.
