(* ===== verification/Values.v ===== *)
(** * Values of the interpreter

    [internal/engine/interpret/value.go]: equality and order of the values a
    query compares, which are PostgreSQL's on jsonb; and of [pipeline.go] the
    bytes a value is hashed and grouped by ([appendScalarKey]), which are the
    same exactly for equal values. *)

From Stdlib Require Import Ascii.
From S2P Require Import Prelude Bitset Codec ParseProps Rows.
From stdpp Require Import options.
Unset Default Proof Using.
#[local] Open Scope N_scope.

(** ** Numbers

    A [float64] is its 64 bits; numbers are ordered by sign and magnitude. *)

Definition f64_magnitude (x : float64) : N := x mod 2 ^ 63.
Definition f64_order (x : float64) : Z := if x <? 2 ^ 63 then Z.of_N (f64_magnitude x) else (- Z.of_N (f64_magnitude x))%Z.
Definition f64_nan (x : float64) : bool := 0x7FF0000000000000 <? f64_magnitude x.
Definition f64_eq (a b : float64) : bool := negb (f64_nan a) && negb (f64_nan b) && (f64_order a =? f64_order b)%Z.
Definition f64_lt (a b : float64) : bool := negb (f64_nan a) && negb (f64_nan b) && (f64_order a <? f64_order b)%Z.

(** ** Objects

    A [map[string]any] is an association list; [NoDup] keys are part of
    [value_ok]. *)

Fixpoint obj_get {A} (m : list (string * A)) (k : string) : option A :=
  match m with [] => None | kv :: m' => if String.eqb kv.1 k then Some kv.2 else obj_get m' k end.
Lemma obj_get_elem {A} (m : list (string * A)) k x : obj_get m k = Some x → (k, x) ∈ m.
Proof.
  induction m as [|[k' x'] m IH]; simpl; [done|]. destruct (String.eqb_spec k' k) as [->|]; [intros [= ->]; by left|]. intros Hg. right. by apply IH.
Qed.
Lemma obj_get_spec {A} (m : list (string * A)) k x : NoDup m.*1 → obj_get m k = Some x ↔ (k, x) ∈ m.
Proof.
  intros Hnd. split; [apply obj_get_elem|]. induction m as [|[k' x'] m IH]; simpl in *; [by intros ?%not_elem_of_nil|].
  apply NoDup_cons in Hnd as [Hn Hnd]. destruct (String.eqb_spec k' k) as [->|Hne]; intros [He|Hin]%elem_of_cons.
  - by injection He as ->.
  - exfalso. apply Hn. apply list_elem_of_fmap. by exists (k, x).
  - congruence.
  - by apply IH.
Qed.
Lemma obj_get_key {A} (m : list (string * A)) k : k ∈ m.*1 → is_Some (obj_get m k).
Proof.
  induction m as [|[k' x'] m IH]; simpl; [by intros ?%not_elem_of_nil|]. intros [->|Hk]%elem_of_cons; [rewrite String.eqb_refl; eauto|].
  destruct (String.eqb k' k); eauto.
Qed.
Lemma obj_get_fmap {A B} (f : A → B) (m : list (string * A)) k : obj_get ((λ kv, (kv.1, f kv.2)) <$> m) k = f <$> obj_get m k.
Proof. induction m as [|[k' x'] m IH]; simpl; [done|]. by destruct (String.eqb k' k). Qed.

(** ** Equality *)

Section lists.
Context {A B : Type} (f : A → B → bool).
Fixpoint forall_both (l : list A) (l' : list B) : bool :=
  match l, l' with [], [] => true | x :: l, y :: l' => f x y && forall_both l l' | _, _ => false end.
Lemma forall_both_spec l l' : forall_both l l' = true ↔ Forall2 (λ x y, f x y = true) l l'.
Proof.
  revert l'. induction l as [|x l IH]; intros [|y l']; simpl; [done|split; [done|by inversion 1]..|].
  by rewrite andb_true_iff, IH, Forall2_cons.
Qed.
End lists.

Fixpoint jsonbEqual (a b : any) {struct a} : bool :=
  match a, b with
  | ANil, ANil => true
  | AFloat x, AFloat y => f64_eq x y
  | AString x, AString y => String.eqb x y
  | ABool x, ABool y => eqb x y
  | AArray av, AArray bv => forall_both jsonbEqual av bv
  | AObject av, AObject bv =>
      (len av =? len bv) && forallb (λ kv, match obj_get bv kv.1 with Some other => jsonbEqual kv.2 other | None => false end) av
  | _, _ => false
  end.

Definition StringEq (val : option any) (lit : string) : Tri :=
  match val with None => TriNull | Some (AString s) => boolToTri (String.eqb s lit) | Some _ => TriFalse end.
Definition StringNeq (val : option any) (lit : string) : Tri :=
  match val with None => TriNull | Some (AString s) => boolToTri (negb (String.eqb s lit)) | Some _ => TriTrue end.
Definition ScalarEq (val : option any) (rhs : any) : Tri :=
  match val with None => TriNull | Some x => boolToTri (jsonbEqual x rhs) end.
Definition PropEq (a b : option any) : Tri :=
  match a, b with Some x, Some y => boolToTri (jsonbEqual x y) | _, _ => TriNull end.
Definition IsNull (val : option any) : Tri := match val with None | Some ANil => TriTrue | _ => TriFalse end.
Definition IsNotNull (val : option any) : Tri := Tri_Not (IsNull val).

(** ** Order *)

Definition typeRank (v : any) : N :=
  match v with AObject _ => 1 | AArray _ => 2 | AString _ => 3 | ABool _ => 4 | AFloat _ => 5 | ANil => 6 end.
Definition compareFloat (a b : float64) : Z := if f64_lt a b then -1 else if f64_lt b a then 1 else 0.
Definition compareInt (a b : N) : Z := if a <? b then -1 else if b <? a then 1 else 0.
Definition compareString (a b : string) : Z := if str_less a b then -1 else if str_less b a then 1 else 0.
Definition sortedKeys `{GoStd} {A} (m : list (string * A)) : list string := go_sort str_less m.*1.

(** The first comparison that decides, or fails. *)
Fixpoint first_of {B} (cs : list (B → Z + goerr)) (bs : list B) : option (Z + goerr) :=
  match cs, bs with
  | c :: cs, b :: bs => match c b with inl 0%Z => first_of cs bs | r => Some r end
  | _, _ => None
  end.
Fixpoint first_key (ks ks' : list string) : option Z :=
  match ks, ks' with k :: ks, k' :: ks' => if String.eqb k k' then first_key ks ks' else Some (compareString k k') | _, _ => None end.

Section order.
Context `{GoStd}.
Fixpoint Compare (a b : any) {struct a} : Z + goerr :=
  if jsonbEqual a b then inl 0%Z
  else match a, b with
  | ANil, _ => inl 1%Z
  | _, ANil => inl (-1)%Z
  | AFloat x, AFloat y => inl (compareFloat x y)
  | AString _, AString _ => inr ErrCollation
  | ABool x, ABool y => inl (if eqb x y then 0%Z else if negb x && y then (-1)%Z else 1%Z)
  | AArray av, AArray bv =>
      match first_of (Compare <$> av) bv with Some r => r | None => inl (compareInt (len av) (len bv)) end
  | AObject av, AObject bv =>
      if negb (len av =? len bv) then inl (compareInt (len av) (len bv))
      else
        let aKeys := sortedKeys av in
        match first_key aKeys (sortedKeys bv) with
        | Some c => inl c
        | None =>
            let cmps := (λ kv, (kv.1, Compare kv.2)) <$> av in
            match first_of (omap (obj_get cmps) aKeys) (omap (obj_get bv) aKeys) with Some r => r | None => inl 0%Z end
        end
  | _, _ => inl (if typeRank a <? typeRank b then (-1)%Z else 1%Z)
  end.
End order.

Definition OrderCompare (a b : any) : Z + goerr :=
  match a, b with AFloat x, AFloat y => inl (compareFloat x y) | AString _, AString _ => inr ErrCollation | _, _ => inr ErrNotComparable end.

(** ** Keys *)

Definition be_bytes (k : nat) (v : N) : bytes := reverse (le_bytes k v).
(** [appendUint32] and [appendTaggedUint], and below [appendScalarKey]: what
    they append. *)
Definition appendUint32 (v : N) : bytes := be_bytes 4 v.
Definition appendTaggedUint (tag : Ascii.ascii) (v : N) : bytes := tag :: be_bytes 8 v.

Section keys.
Context `{GoStd}.
Fixpoint appendScalarKey (v : any) : bytes :=
  match v with
  | ANil => ["z"%char]
  | AString s => "s"%char :: appendUint32 (u32 (len (text s))) ++ text s
  | AFloat x => "f"%char :: be_bytes 8 (if f64_eq x 0 then 0 else x)
  | ABool b => ["b"%char; Ascii.ascii_of_N (if b then 1 else 0)]
  | AArray l => "a"%char :: appendUint32 (u32 (len l)) ++ mjoin (appendScalarKey <$> l)
  | AObject m =>
      let vals := (λ kv, (kv.1, appendScalarKey kv.2)) <$> m in
      "m"%char :: appendUint32 (u32 (len m)) ++
        mjoin ((λ k, appendUint32 (u32 (len (text k))) ++ text k ++ default ["z"%char] (obj_get vals k)) <$> sortedKeys m)
  end.
Definition scalar_key (s : scalar) : bytes := match s with SAny v => appendScalarKey v | SIdSet _ => ["x"%char] end.
End keys.

(** ** Values as documents hold them *)

(** No NaN, no key twice, and lengths that 32 bits can count. *)
Fixpoint value_ok (v : any) : bool :=
  match v with
  | ANil | ABool _ => true
  | AFloat x => (x <? 2 ^ 64) && negb (f64_nan x)
  | AString s => len (text s) <? 2 ^ 32
  | AArray l => (len l <? 2 ^ 32) && forallb value_ok l
  | AObject m => (len m <? 2 ^ 32) && bool_decide (NoDup m.*1) && forallb (λ kv, (len (text kv.1) <? 2 ^ 32) && value_ok kv.2) m
  end.

Section any_ind.
Context (P : any → Prop) (Pnil : P ANil) (Pbool : ∀ b, P (ABool b)) (Pfloat : ∀ x, P (AFloat x)) (Pstring : ∀ s, P (AString s)).
Context (Parray : ∀ l, Forall P l → P (AArray l)) (Pobject : ∀ m, Forall (λ kv, P kv.2) m → P (AObject m)).
Fixpoint any_deep_ind (v : any) : P v :=
  match v with
  | ANil => Pnil | ABool b => Pbool b | AFloat x => Pfloat x | AString s => Pstring s
  | AArray l => Parray l ((fix go l := match l return Forall P l with [] => Forall_nil_2 _ | x :: l => Forall_cons_2 _ _ _ (any_deep_ind x) (go l) end) l)
  | AObject m => Pobject m ((fix go m := match m return Forall (λ kv, P kv.2) m with
      [] => Forall_nil_2 _ | kv :: m => Forall_cons_2 _ _ _ (any_deep_ind kv.2) (go m) end) m)
  end.
End any_ind.

Lemma forallb_elem {A} (f : A → bool) l : forallb f l = true ↔ ∀ x, x ∈ l → f x = true.
Proof. rewrite forallb_forall. split; intros Hf x Hx; apply Hf; by apply list_elem_of_In. Qed.
Lemma array_ok l : value_ok (AArray l) = true → len l < 2 ^ 32 ∧ ∀ x, x ∈ l → value_ok x = true.
Proof. simpl. rewrite andb_true_iff, N.ltb_lt, forallb_elem. done. Qed.
Lemma object_ok m : value_ok (AObject m) = true → len m < 2 ^ 32 ∧ NoDup m.*1 ∧ ∀ k x, (k, x) ∈ m → len (text k) < 2 ^ 32 ∧ value_ok x = true.
Proof.
  simpl. rewrite !andb_true_iff, N.ltb_lt, bool_decide_eq_true, forallb_elem. intros [[? ?] Hf]. split; [done|]. split; [done|].
  intros k x Hk. specialize (Hf _ Hk). simpl in Hf. by rewrite andb_true_iff, N.ltb_lt in Hf.
Qed.

(** *** Numbers *)

Definition f64_key (x : float64) : N := if f64_eq x 0 then 0 else x.
Lemma f64_split x : x < 2 ^ 64 → x = (if x <? 2 ^ 63 then 0 else 2 ^ 63) + f64_magnitude x.
Proof.
  intros Hx. unfold f64_magnitude. destruct (N.ltb_spec x (2 ^ 63)); [by rewrite N.mod_small|].
  rewrite (N.div_mod' x (2 ^ 63)) at 1. assert (x / 2 ^ 63 = 1) as ->; [|lia]. symmetry. apply (N.div_unique _ _ _ (x - 2 ^ 63)); lia.
Qed.
Lemma f64_eq_key x y : x < 2 ^ 64 → y < 2 ^ 64 → f64_nan x = false → f64_nan y = false → f64_eq x y = true ↔ f64_key x = f64_key y.
Proof.
  intros Hx Hy Hnx Hny. unfold f64_key, f64_eq. rewrite Hnx, Hny. simpl. pose proof (f64_split x Hx) as Sx. pose proof (f64_split y Hy) as Sy.
  unfold f64_order. assert (f64_magnitude 0 = 0) as -> by done. change (0 <? 2 ^ 63) with true. cbv match.
  destruct (N.ltb_spec x (2 ^ 63)), (N.ltb_spec y (2 ^ 63)); rewrite Z.eqb_eq;
    repeat match goal with |- context [(?a =? ?b)%Z] => destruct (Z.eqb_spec a b) end; lia.
Qed.

(** *** Codes *)

Lemma be_bytes_app k v v' r r' : v < 256 ^ N.of_nat k → v' < 256 ^ N.of_nat k → be_bytes k v ++ r = be_bytes k v' ++ r' → v = v' ∧ r = r'.
Proof.
  intros Hv Hv' He. apply app_inj_1 in He as [He ->].
  - split; [|done]. apply (inj reverse) in He. by rewrite <- (le_value_bytes k v Hv), He, le_value_bytes.
  - unfold be_bytes. rewrite !length_reverse. pose proof (len_le_bytes k v). pose proof (len_le_bytes k v'). unfold len in *. lia.
Qed.
Lemma u32_app n n' r r' : n < 2 ^ 32 → n' < 2 ^ 32 → appendUint32 (u32 n) ++ r = appendUint32 (u32 n') ++ r' → n = n' ∧ r = r'.
Proof. intros Hn Hn' He. unfold u32 in He. rewrite !N.mod_small in He by done. by apply (be_bytes_app 4) in He. Qed.
Lemma text_app (s s' : string) r r' : len (text s) < 2 ^ 32 → len (text s') < 2 ^ 32 →
  appendUint32 (u32 (len (text s))) ++ text s ++ r = appendUint32 (u32 (len (text s'))) ++ text s' ++ r' → s = s' ∧ r = r'.
Proof.
  intros Hs Hs' He. apply u32_app in He as [Hl He]; [|done..]. apply app_inj_1 in He as [He ->]; [|unfold len in Hl; lia]. split; [by apply text_inj|done].
Qed.

Lemma cons_tail {A} (a : A) x y r r' : (a :: x) ++ r = (a :: y) ++ r' → x ++ r = y ++ r'.
Proof. by injection 1. Qed.
(** A code no word of which starts another. *)
Lemma code_app {A B} (enc : A → bytes) (enc' : B → bytes) (R : A → B → Prop) l l' r r' : length l = length l' →
  (∀ x y r r', x ∈ l → y ∈ l' → enc x ++ r = enc' y ++ r' → R x y ∧ r = r') →
  mjoin (enc <$> l) ++ r = mjoin (enc' <$> l') ++ r' → Forall2 R l l' ∧ r = r'.
Proof.
  revert l'. induction l as [|x l IH]; intros [|y l'] Hl Hc; try done.
  rewrite !fmap_cons. cbn [mjoin list_join]. rewrite <- !(assoc_L (++)). intros He. apply Hc in He as [Hxy He]; [|by left..].
  apply IH in He as [Hl' ->]; [|simpl in Hl; lia|intros; apply Hc; [by right..|done]]. split; [by constructor|done].
Qed.

(** *** Keys and equality *)

#[local] Instance le_str_trans : Transitive (le_of str_less).
Proof. intros x y z. apply str_less_spec. Qed.
#[local] Instance le_str_antisymm : AntiSymm eq (le_of str_less).
Proof. intros x y Hx Hy. by apply str_less_total. Qed.

Section keys_equal.
Context `{GoStd}.

Lemma sortedKeys_perm {A B} (m : list (string * A)) (m' : list (string * B)) : m.*1 ≡ₚ m'.*1 → sortedKeys m = sortedKeys m'.
Proof.
  intros Hp. apply (StronglySorted_unique (le_of str_less)); [apply go_sort_sorted, str_less_spec..|].
  unfold sortedKeys. by rewrite !go_sort_perm.
Qed.
Lemma sortedKeys_elem {A} (m : list (string * A)) k : k ∈ sortedKeys m ↔ k ∈ m.*1.
Proof. apply go_sort_elem. Qed.

Lemma key_string s : appendScalarKey (AString s) = "s"%char :: appendUint32 (u32 (len (text s))) ++ text s.
Proof. done. Qed.
Lemma key_float x : appendScalarKey (AFloat x) = "f"%char :: be_bytes 8 (f64_key x).
Proof. done. Qed.
Lemma key_array l : appendScalarKey (AArray l) = "a"%char :: appendUint32 (u32 (len l)) ++ mjoin (appendScalarKey <$> l).
Proof. done. Qed.
Definition entry_key (m : list (string * any)) (k : string) : bytes :=
  appendUint32 (u32 (len (text k))) ++ text k ++ default ["z"%char] (appendScalarKey <$> obj_get m k).
Lemma key_object m : appendScalarKey (AObject m) = "m"%char :: appendUint32 (u32 (len m)) ++ mjoin (entry_key m <$> sortedKeys m).
Proof.
  simpl. do 5 f_equal. f_equal. apply list_fmap_ext. intros i k _. unfold entry_key. by rewrite <- obj_get_fmap.
Qed.

(** Equal objects: the same keys, with equal values. *)
Lemma objects_equal av bv : NoDup av.*1 → NoDup bv.*1 → jsonbEqual (AObject av) (AObject bv) = true ↔
  av.*1 ≡ₚ bv.*1 ∧ ∀ k x, obj_get av k = Some x → ∃ y, obj_get bv k = Some y ∧ jsonbEqual x y = true.
Proof.
  intros Ha Hb. simpl. rewrite andb_true_iff, N.eqb_eq, forallb_elem. split.
  - intros [Hl Hf]. assert (∀ k x, obj_get av k = Some x → ∃ y, obj_get bv k = Some y ∧ jsonbEqual x y = true) as Hg.
    { intros k x Hk%obj_get_elem. specialize (Hf _ Hk). simpl in Hf. destruct (obj_get bv k) as [y|]; [by exists y|done]. }
    split; [|done]. apply submseteq_length_Permutation; [|unfold len in Hl; rewrite !length_fmap; lia].
    apply NoDup_submseteq; [done|]. intros k [x Hx]%obj_get_key. apply Hg in Hx as (y & Hy%obj_get_elem & _).
    apply list_elem_of_fmap. by exists (k, y).
  - intros [Hp Hg]. apply Permutation_length in Hp. rewrite !length_fmap in Hp. split; [unfold len; by rewrite Hp|].
    intros [k x] Hk. simpl. apply obj_get_spec in Hk; [|done]. destruct (Hg k x Hk) as (y & -> & Hy). done.
Qed.

Lemma equal_same_key a b : value_ok a = true → value_ok b = true → jsonbEqual a b = true → appendScalarKey a = appendScalarKey b.
Proof.
  revert b. induction a as [|x|x|x|l IH|m IH] using any_deep_ind; intros [|y|y|y|l'|m'] Ha Hb; try done.
  - simpl. by intros ->%eqb_prop.
  - apply andb_true_iff in Ha as [?%N.ltb_lt ?%negb_true_iff], Hb as [?%N.ltb_lt ?%negb_true_iff]. cbn [jsonbEqual].
    rewrite (f64_eq_key x y), !key_float by done. by intros ->.
  - simpl. by intros ->%String.eqb_eq.
  - apply array_ok in Ha as [_ Ha], Hb as [_ Hb]. rewrite !key_array. cbn [jsonbEqual]. rewrite forall_both_spec. intros Hf.
    assert (length l = length l') as Hl by by eapply Forall2_length. assert (appendScalarKey <$> l = appendScalarKey <$> l') as ->; [|unfold len; by rewrite Hl].
    clear Hl. induction Hf as [|x y l l' Hxy Hf IHf]; [done|]. apply Forall_cons in IH as [Hx IH]. rewrite !fmap_cons. f_equal.
    + apply Hx; [apply Ha; by left|apply Hb; by left|done].
    + apply IHf; [done|intros; apply Ha; by right|intros; apply Hb; by right].
  - apply object_ok in Ha as (_ & Hna & Ha), Hb as (_ & Hnb & Hb). rewrite objects_equal, !key_object by done. intros [Hp Hg].
    assert (len m = len m') as -> by (unfold len; apply Permutation_length in Hp; rewrite !length_fmap in Hp; by rewrite Hp).
    rewrite (sortedKeys_perm m m') by done. do 3 f_equal. apply list_fmap_ext. intros i k Hk%list_elem_of_lookup_2. unfold entry_key. do 2 f_equal. rewrite sortedKeys_elem, <- Hp in Hk. apply obj_get_key in Hk as [x Hx]. rewrite Hx.
    destruct (Hg k x Hx) as (y & Hy & He). rewrite Hy. simpl. apply obj_get_elem in Hx, Hy. rewrite Forall_forall in IH.
    apply (IH _ Hx); [by apply (Ha k)|by apply (Hb k)|done].
Qed.

Lemma same_key_equal a b r r' : value_ok a = true → value_ok b = true → appendScalarKey a ++ r = appendScalarKey b ++ r' → jsonbEqual a b = true ∧ r = r'.
Proof.
  revert b r r'. induction a as [|x|x|x|l IH|m IH] using any_deep_ind; intros [|y|y|y|l'|m'] r r' Ha Hb He; try done.
  - by injection He.
  - injection He as He Hr. split; [|done]. destruct x, y; simpl in *; try done.
  - apply andb_true_iff in Ha as [?%N.ltb_lt ?%negb_true_iff], Hb as [?%N.ltb_lt ?%negb_true_iff]. rewrite !key_float in He. apply cons_tail in He.
    apply (be_bytes_app 8) in He as [He ->]; [by split; [apply f64_eq_key|]|unfold f64_key; by destruct (f64_eq x 0)|unfold f64_key; by destruct (f64_eq y 0)].
  - cbn [value_ok] in Ha, Hb. apply N.ltb_lt in Ha, Hb. rewrite !key_string in He. apply cons_tail in He. rewrite <- !(assoc_L (++)) in He. apply text_app in He as [-> ->]; [|done..]. split; [apply String.eqb_refl|done].
  - apply array_ok in Ha as [Hl Ha], Hb as [Hl' Hb]. rewrite !key_array in He. apply cons_tail in He. rewrite <- !(assoc_L (++)) in He.
    apply u32_app in He as [Hlen He]; [|done..]. apply (code_app _ _ (λ x y, jsonbEqual x y = true)) in He as [Hf ->].
    + simpl. by rewrite forall_both_spec.
    + unfold len in Hlen. lia.
    + intros x y s s' Hx Hy. rewrite Forall_forall in IH. apply (IH x Hx); [by apply Ha|by apply Hb].
  - apply object_ok in Ha as (Hl & Hna & Ha), Hb as (Hl' & Hnb & Hb). rewrite !key_object in He. apply cons_tail in He. rewrite <- !(assoc_L (++)) in He.
    apply u32_app in He as [Hlen He]; [|done..].
    apply (code_app _ _ (λ k k', k = k' ∧ ∀ x, obj_get m k = Some x → ∃ y, obj_get m' k = Some y ∧ jsonbEqual x y = true)) in He as [Hf ->].
    + split; [|done]. assert (sortedKeys m = sortedKeys m') as Hk by (apply list_eq_Forall2; eapply Forall2_impl; [exact Hf|by intros ? ? [? _]]).
      apply objects_equal; [done..|]. split; [rewrite <- (go_sort_perm str_less m.*1), <- (go_sort_perm str_less m'.*1); unfold sortedKeys in Hk; by rewrite Hk|].
      intros k x Hx. assert (k ∈ sortedKeys m) as [i Hi]%list_elem_of_lookup by (apply sortedKeys_elem, list_elem_of_fmap; exists (k, x); split; [done|by apply obj_get_elem]).
      destruct (Forall2_lookup_l _ _ _ _ _ Hf Hi) as (k' & _ & _ & Hg). by apply Hg.
    + unfold sortedKeys. rewrite !go_sort_length, !length_fmap. unfold len in Hlen. lia.
    + intros k k' s s' Hk Hk'. rewrite sortedKeys_elem in Hk, Hk'. apply obj_get_key in Hk as [x Hx], Hk' as [y Hy]. unfold entry_key. rewrite Hx, Hy. cbn [fmap option_fmap option_map default id].
      rewrite <- !(assoc_L (++)). destruct (Ha k x) as [Hkl Hxo]; [by apply obj_get_elem|]. destruct (Hb k' y) as [Hkl' Hyo]; [by apply obj_get_elem|].
      intros Hke. apply text_app in Hke as [<- Hke]; [|done..]. rewrite Forall_forall in IH. apply (IH (k, x)) in Hke as [Heq ->]; [|by apply obj_get_elem|done..].
      split; [|done]. split; [done|]. intros x' [= <-]. by exists y.
Qed.
End keys_equal.

Lemma key_iff_equal `{GoStd} a b : value_ok a = true → value_ok b = true → jsonbEqual a b = true ↔ appendScalarKey a = appendScalarKey b.
Proof.
  intros Ha Hb. split; [by apply equal_same_key|]. intros He. apply (same_key_equal a b [] []); [done..|]. by rewrite He.
Qed.
Lemma jsonbEqual_sym `{GoStd} a b : value_ok a = true → value_ok b = true → jsonbEqual a b = jsonbEqual b a.
Proof. intros Ha Hb. apply eq_true_iff_eq. rewrite !key_iff_equal by done. done. Qed.

(** *** Order *)

Definition turned (r : Z + goerr) : Z + goerr := match r with inl c => inl (- c)%Z | inr e => inr e end.

Section compare.
Context `{GoStd}.

Lemma compareInt_turned a b : turned (inl (compareInt a b)) = inl (compareInt b a).
Proof. unfold compareInt, turned. by destruct (N.ltb_spec a b), (N.ltb_spec b a); try lia. Qed.
Lemma compareInt_zero a b : compareInt a b = 0%Z → a = b.
Proof. unfold compareInt. destruct (N.ltb_spec a b), (N.ltb_spec b a); try done. lia. Qed.
Lemma compareFloat_turned a b : turned (inl (compareFloat a b)) = inl (compareFloat b a).
Proof.
  unfold compareFloat, turned, f64_lt. rewrite (andb_comm (negb (f64_nan b))). destruct (negb (f64_nan a) && negb (f64_nan b)); [|done].
  simpl. by destruct (Z.ltb_spec (f64_order a) (f64_order b)), (Z.ltb_spec (f64_order b) (f64_order a)); try lia.
Qed.
Lemma compareString_turned a b : a ≠ b → compareString b a = (- compareString a b)%Z ∧ compareString a b ≠ 0%Z.
Proof.
  intros Hne. unfold compareString. destruct str_less_spec as [Ha _]. destruct (str_less a b) eqn:E1; [by rewrite (Ha _ _ E1)|].
  destruct (str_less b a) eqn:E2; [done|]. by destruct Hne; apply str_less_total.
Qed.

Lemma first_key_turned ks ks' : first_key ks' ks = option_map Z.opp (first_key ks ks') ∧ first_key ks ks' ≠ Some 0%Z.
Proof.
  revert ks'. induction ks as [|k ks IH]; intros [|k' ks']; simpl; [done..|]. rewrite (String.eqb_sym k' k).
  destruct (String.eqb_spec k k') as [->|Hne]; [apply IH|]. destruct (compareString_turned k k' Hne) as [-> Hz]. split; [done|]. congruence.
Qed.
Lemma first_key_none ks ks' : length ks = length ks' → first_key ks ks' = None → ks = ks'.
Proof.
  revert ks'. induction ks as [|k ks IH]; intros [|k' ks']; simpl; try done. intros [= Hl]. destruct (String.eqb_spec k k') as [->|]; [|done].
  intros Hf. f_equal. by apply IH.
Qed.
Lemma first_of_nonzero {B} (cs : list (B → Z + goerr)) bs : first_of cs bs ≠ Some (inl 0%Z).
Proof. revert bs. induction cs as [|c cs IH]; intros [|b bs]; simpl; try done. destruct (c b) as [[]|] eqn:E; [apply IH|congruence..]. Qed.
Lemma first_of_turned l l' : (∀ a b, a ∈ l → b ∈ l' → Compare b a = turned (Compare a b)) →
  first_of (Compare <$> l') l = option_map turned (first_of (Compare <$> l) l').
Proof.
  revert l'. induction l as [|a l IH]; intros [|b l'] Hc; try done. rewrite !fmap_cons. cbn [first_of].
  rewrite (Hc a b) by by left. rewrite IH by (intros; apply Hc; by right). by destruct (Compare a b) as [[]|].
Qed.
Lemma first_of_none l l' : length l = length l' → (∀ a b, a ∈ l → b ∈ l' → Compare a b = inl 0%Z → jsonbEqual a b = true) →
  first_of (Compare <$> l) l' = None → forall_both jsonbEqual l l' = true.
Proof.
  revert l'. induction l as [|a l IH]; intros [|b l'] Hl Hc; try done. rewrite fmap_cons. cbn [first_of forall_both].
  destruct (Compare a b) as [[]|] eqn:E; try done. intros Hf. rewrite (Hc a b); [|by left..|done]. simpl. apply IH; [simpl in Hl; lia| |done]. intros; apply Hc; [by right..|done].
Qed.

(** The values of an object, in the order of its keys. *)
Definition obj_values (m : list (string * any)) : list any := omap (obj_get m) (sortedKeys m).
Lemma obj_values_elem m x : x ∈ obj_values m → ∃ k, (k, x) ∈ m.
Proof. intros (k & _ & Hk%obj_get_elem)%list_elem_of_omap. by exists k. Qed.
Lemma cmps_values m : omap (obj_get ((λ kv, (kv.1, Compare kv.2)) <$> m)) (sortedKeys m) = Compare <$> obj_values m.
Proof.
  unfold obj_values. induction (sortedKeys m) as [|k ks IH]; [done|]. cbn [omap list_omap]. rewrite (obj_get_fmap Compare). destruct (obj_get m k); simpl; [f_equal|]; apply IH.
Qed.
Lemma Compare_object av bv : Compare (AObject av) (AObject bv) =
  if jsonbEqual (AObject av) (AObject bv) then inl 0%Z
  else if negb (len av =? len bv) then inl (compareInt (len av) (len bv))
  else match first_key (sortedKeys av) (sortedKeys bv) with
       | Some c => inl c
       | None => default (inl 0%Z) (first_of (Compare <$> obj_values av) (obj_values bv))
       end.
Proof.
  cbn [Compare]. destruct (jsonbEqual _ _); [done|]. destruct (len av =? len bv) eqn:El; [|done]. cbn [negb].
  destruct (first_key _ _) eqn:Ek; [done|]. apply first_key_none in Ek.
  - rewrite cmps_values. unfold obj_values at 3. rewrite <- Ek. by destruct (first_of _ _).
  - unfold sortedKeys. rewrite !go_sort_length, !length_fmap. apply N.eqb_eq in El. unfold len in El. lia.
Qed.
Lemma len_sortedKeys {A} (m : list (string * A)) : length (sortedKeys m) = length m.
Proof. unfold sortedKeys. by rewrite go_sort_length, length_fmap. Qed.

Lemma objects_zero m m' : NoDup m.*1 → NoDup m'.*1 → len m = len m' → first_key (sortedKeys m) (sortedKeys m') = None →
  (∀ x y, x ∈ obj_values m → y ∈ obj_values m' → Compare x y = inl 0%Z → jsonbEqual x y = true) →
  first_of (Compare <$> obj_values m) (obj_values m') = None → jsonbEqual (AObject m) (AObject m') = true.
Proof.
  intros Hna Hnb El Ek Hxy Er. apply objects_equal; [done..|]. apply first_key_none in Ek; [|rewrite !len_sortedKeys; unfold len in El; lia].
  split; [rewrite <- (go_sort_perm str_less m.*1), <- (go_sort_perm str_less m'.*1); unfold sortedKeys in Ek; by rewrite Ek|].
  assert (∀ k, k ∈ sortedKeys m → ∃ x y, obj_get m k = Some x ∧ obj_get m' k = Some y) as Hboth.
  { intros k Hk. pose proof Hk as Hk'. rewrite Ek in Hk'. apply sortedKeys_elem, obj_get_key in Hk as [x Hx], Hk' as [y Hy]. eauto. }
  assert (∀ ks, (∀ k, k ∈ ks → ∃ x y, obj_get m k = Some x ∧ obj_get m' k = Some y) → length (omap (obj_get m) ks) = length (omap (obj_get m') ks) ∧
    (forall_both jsonbEqual (omap (obj_get m) ks) (omap (obj_get m') ks) = true → ∀ k x, k ∈ ks → obj_get m k = Some x → ∃ y, obj_get m' k = Some y ∧ jsonbEqual x y = true)) as Hks.
  { induction ks as [|k ks IHk]; intros Hb'; [split; [done|]; intros _ k x Hk; by apply not_elem_of_nil in Hk|].
    destruct (Hb' k ltac:(by left)) as (x & y & Hx & Hy). cbn [omap list_omap]. rewrite Hx, Hy. destruct IHk as [Hl Hg]; [intros; apply Hb'; by right|].
    split; [simpl; by rewrite Hl|]. intros [Hxy' Hf]%andb_true_iff k' x' [->|Hk']%elem_of_cons Hx'; [exists y; split; [done|congruence]|by apply Hg]. }
  destruct (Hks _ Hboth) as [Hl Hg]. intros k x Hx. apply Hg; [|apply sortedKeys_elem, list_elem_of_fmap; exists (k, x); split; [done|by apply obj_get_elem]|done].
  unfold obj_values in *. rewrite <- Ek in *. by apply first_of_none.
Qed.

Lemma Compare_spec a b : value_ok a = true → value_ok b = true →
  Compare b a = turned (Compare a b) ∧ (Compare a b = inl 0%Z → jsonbEqual a b = true).
Proof.
  revert b. induction a as [|x|x|x|l IH|m IH] using any_deep_ind; intros b Ha Hb; pose proof (jsonbEqual_sym _ _ Ha Hb) as Hs; destruct b as [|y|y|y|l'|m']; try done.
  - simpl. destruct x, y; done.
  - simpl in Hs |- *. rewrite <- Hs. destruct (f64_eq x y) eqn:Ee; [done|]. split; [symmetry; apply compareFloat_turned|]. intros [= Hc].
    apply andb_true_iff in Ha as [_ ?%negb_true_iff], Hb as [_ ?%negb_true_iff]. revert Hc Ee. unfold compareFloat, f64_lt, f64_eq.
    rewrite (andb_comm (negb (f64_nan y))). destruct (negb _ && negb _) eqn:En; simpl; [|by rewrite H1, H0 in En].
    destruct (Z.ltb_spec (f64_order x) (f64_order y)); [done|]. destruct (Z.ltb_spec (f64_order y) (f64_order x)); [done|].
    intros _ ?%Z.eqb_neq. lia.
  - simpl in Hs |- *. rewrite <- Hs. by destruct (String.eqb x y).
  - apply array_ok in Ha as [_ Ha], Hb as [_ Hb]. rewrite Forall_forall in IH. cbn [Compare]. rewrite <- Hs. destruct (jsonbEqual _ _) eqn:Ee; [done|].
    rewrite (first_of_turned l l') by (intros; apply IH; auto). destruct (first_of (Compare <$> l) l') as [r|] eqn:Er; simpl.
    + split; [done|]. intros ->. by apply first_of_nonzero in Er.
    + split; [symmetry; apply compareInt_turned|]. intros [= Hz%compareInt_zero]. unfold len in Hz.
      rewrite <- Ee. cbn [jsonbEqual]. apply first_of_none; [lia| |done]. intros x y Hx Hy. apply IH; auto.
  - apply object_ok in Ha as (_ & Hna & Ha), Hb as (_ & Hnb & Hb). rewrite Forall_forall in IH. rewrite !Compare_object, <- Hs.
    destruct (jsonbEqual _ _) eqn:Ee; [done|]. rewrite (N.eqb_sym (len m') (len m)). destruct (N.eqb_spec (len m) (len m')) as [El|El]; simpl negb; cbv match.
    2:{ split; [symmetry; apply compareInt_turned|]. by intros [= ?%compareInt_zero]. }
    destruct (first_key_turned (sortedKeys m) (sortedKeys m')) as [-> Hz]. destruct (first_key (sortedKeys m) (sortedKeys m')) as [c|] eqn:Ek; cbn [option_map].
    { split; [done|]. intros [= ->]. done. }
    assert (∀ x y, x ∈ obj_values m → y ∈ obj_values m' → Compare y x = turned (Compare x y) ∧ (Compare x y = inl 0%Z → jsonbEqual x y = true)) as Hxy.
    { intros x y [k Hx]%obj_values_elem [k' Hy]%obj_values_elem. apply (IH _ Hx); [by apply (Ha k)|by apply (Hb k')]. }
    rewrite (first_of_turned (obj_values m) (obj_values m')) by (intros; by apply Hxy).
    destruct (first_of (Compare <$> obj_values m) _) as [r|] eqn:Er; simpl; [split; [done|]; intros ->; by apply first_of_nonzero in Er|].
    split; [done|]. intros _. rewrite <- Ee. apply objects_zero; try done; intros; by apply Hxy.
Qed.
End compare.
