(* ===== verification/Scan.v ===== *)
(** * Choosing where a pattern starts, and enumerating its nodes

    [internal/engine/interpret/exec.go], the anchors: how selective a node's
    constraint is, the hint that the index of edge kinds gives, and the scan of
    the candidate nodes, whichever way is the cheapest.

    The result: whichever source of candidates is taken, a scan finds every node
    that satisfies the constraint once, of those the hint allows. *)

From S2P Require Import Prelude Bitset Snapshot Segment View ViewAdj ViewKinds EdgeKinds PathSink Traverse ViewTraverse Rows.
From stdpp Require Import options.
Unset Default Proof Using.
#[local] Open Scope N_scope.
#[local] Open Scope go_scope.

(** ** Definitions *)

Section scan.
Context `{GoStd} `{Cypher}.
Context (v : View) (budget : Budgets) (ctx : Ctx).

(** *** Constraints *)

Definition nodeSatisfiesConstraint (nc : option NodeConstraint) (id : NodeID) : option bool :=
  match nc with
  | None => Some true
  | Some nc =>
      kinds ← (if 0 <? len (nc_Kinds nc) then have ← KindIDsOf v id; Some (forallb (containsKindID have) (nc_Kinds nc)) else Some true);
      if negb kinds then Some false
      else
        ids ← (if 0 <? len (nc_IDs nc) then dbID ← View_GraphID v id; Some (existsb (N.eqb dbID) (nc_IDs nc)) else Some true);
        if negb ids then Some false
        else match ObjectIDAnchor nc with
        | None => Some true
        | Some text => r ← View_NodesByObjectID v text; Some (match r with Some ns => existsb (N.eqb id) ns | None => false end)
        end
  end.

Fixpoint predicates_admit (r : Row) (preds : list Expression) : exec bool :=
  match preds with
  | [] => go_ret true
  | pred :: preds' =>
      match EvalPredicate v r pred with
      | inr err => go_err err
      | inl TriTrue => predicates_admit r preds'
      | inl _ => go_ret false
      end
  end.
Definition predicatesAdmit (r : Row) (nc : option NodeConstraint) : exec bool :=
  match nc with None => go_ret true | Some nc => predicates_admit r (Predicates nc) end.

(** *** Ranks *)

Inductive anchorTier := tierID | tierObjectID | tierKind | tierScan.
#[global] Instance anchorTier_eq_dec : EqDecision anchorTier.
Proof. solve_decision. Defined.
(** The value of the constant. *)
Definition tier_value (t : anchorTier) : N := match t with tierID => 0 | tierObjectID => 1 | tierKind => 2 | tierScan => 3 end.

Record anchorRank := mkAnchorRank { ar_tier : anchorTier; ar_size : N }.

Definition candidateEstimate (r : anchorRank) : N :=
  match ar_tier r with
  | tierID | tierObjectID => 1
  | tierScan => if 0 <? ar_size r then ar_size r else View_NodeCount v
  | tierKind => ar_size r
  end.
Definition better (r o : anchorRank) : bool :=
  if negb (bool_decide (ar_tier r = ar_tier o)) then tier_value (ar_tier r) <? tier_value (ar_tier o) else ar_size r <? ar_size o.

Definition smallestKindBitmap (kinds : list KindID) : option Bitset :=
  match kinds with
  | [] => None
  | k :: kinds' =>
      best ← View_NodesOfKind v k;
      foldM (λ best k, bm ← View_NodesOfKind v k; Some (if Bitset_Count bm <? Bitset_Count best then bm else best)) kinds' best
  end.

Definition rankOf (nc : option NodeConstraint) : option anchorRank :=
  match nc with
  | None => Some (mkAnchorRank tierScan (View_NodeCount v))
  | Some nc =>
      if 0 <? len (nc_IDs nc) then Some (mkAnchorRank tierID 0)
      else match ObjectIDAnchor nc with
      | Some _ => Some (mkAnchorRank tierObjectID 0)
      | None =>
          if PropIndexed nc then
            let size := len (PropCandidates nc) in
            if 0 <? len (nc_Kinds nc) then
              bm ← smallestKindBitmap (nc_Kinds nc);
              Some (mkAnchorRank tierKind (if Bitset_Count bm <? size then Bitset_Count bm else size))
            else Some (mkAnchorRank tierKind size)
          else if 0 <? len (nc_Kinds nc) then bm ← smallestKindBitmap (nc_Kinds nc); Some (mkAnchorRank tierKind (Bitset_Count bm))
          else Some (mkAnchorRank tierScan (View_NodeCount v))
      end
  end.

(** *** Hints *)

(** The ids of a usable hint; [None] for a hint that is nil or not [ok]. *)
Definition edgeHint : Type := option (list NodeID).
Definition MaxInt : N := 2 ^ 63 - 1.
Definition edgeHint_size (h : edgeHint) : N := match h with Some ids => len ids | None => MaxInt end.

Definition newEdgeHint (step : Step) (sym : string) : exec edgeHint :=
  if (len (EdgeKinds step) =? 0) || String.eqb sym EmptyString then go_ret None
  else if match st_Range step with Some r => (rg_Min r =? 0)%Z | None => false end then go_ret None
  else
    match st_Direction step with
    | DirectionOutbound =>
        if String.eqb sym (FromSym step) then go_memo (EdgeKindEndpoints v (EdgeKinds step) true)
        else if String.eqb sym (ToSym step) then go_memo (EdgeKindEndpoints v (EdgeKinds step) false) else go_ret None
    | DirectionInbound =>
        if String.eqb sym (FromSym step) then go_memo (EdgeKindEndpoints v (EdgeKinds step) false)
        else if String.eqb sym (ToSym step) then go_memo (EdgeKindEndpoints v (EdgeKinds step) true) else go_ret None
    | DirectionBoth => go_ret None
    end.

(** The steps of a part are given by their indices in [Chains]. *)
Definition hintForAnchor (part : Part) (stepIdxs : list nat) (anchor : string) : exec edgeHint :=
  go_foldl (λ best i,
    match Chains part !! i with
    | None => go_ret best
    | Some step =>
        let! h := newEdgeHint step anchor in
        go_ret (if bool_decide (is_Some h) && (edgeHint_size h <? edgeHint_size best) then h else best)
    end) None stepIdxs.

Definition otherwiseEnumerated (nc : option NodeConstraint) : option N :=
  let best := View_NodeCount v in
  match nc with
  | None => Some best
  | Some nc =>
      best ← (if 0 <? len (nc_Kinds nc) then
                bm ← smallestKindBitmap (nc_Kinds nc); Some (if Bitset_Count bm <? best then Bitset_Count bm else best)
              else Some best);
      Some (if PropIndexed nc && (len (PropCandidates nc) <? best) then len (PropCandidates nc) else best)
  end.
Definition edgeHintPreferred (nc : option NodeConstraint) (h : edgeHint) : option bool :=
  match h with
  | None => Some false
  | Some _ =>
      if match nc with Some nc => (0 <? len (nc_IDs nc)) || bool_decide (is_Some (ObjectIDAnchor nc)) | None => false end then Some false
      else n ← otherwiseEnumerated nc; Some (edgeHint_size h <? n)
  end.
Definition propIndexPreferred (nc : option NodeConstraint) : option bool :=
  match nc with
  | None => Some false
  | Some nc =>
      if negb (PropIndexed nc) then Some false
      else if len (nc_Kinds nc) =? 0 then Some true
      else bm ← smallestKindBitmap (nc_Kinds nc); Some (len (PropCandidates nc) <=? Bitset_Count bm)
  end.

Definition rankOfHinted (nc : option NodeConstraint) (h : edgeHint) : option anchorRank :=
  base ← rankOf nc;
  pref ← edgeHintPreferred nc h;
  if negb pref then Some base
  else let r := mkAnchorRank tierKind (edgeHint_size h) in Some (if better r base then r else base).

(** *** Anchors *)

Definition chooseAnchorHinted (nodes : gmap string NodeConstraint) (syms : list string) (hint : option (string → exec edgeHint)) : exec string :=
  let rank sym :=
    match hint with
    | None => go_lift (rankOf (nodes !! sym))
    | Some hint => let! h := hint sym in go_lift (rankOfHinted (nodes !! sym) h)
    end in
  match syms with
  | [] => go_lift None
  | best :: syms' =>
      let! bestRank := rank best in
      let! r := go_foldl (λ '(best, bestRank) s, let! r := rank s in go_ret (if better r bestRank then (s, r) else (best, bestRank)))
        (best, bestRank) syms' in
      go_ret r.1
  end.
Definition chooseAnchor (nodes : gmap string NodeConstraint) (syms : list string) : exec string := chooseAnchorHinted nodes syms None.

(** *** The scan *)

(** [visit] says with its flag whether the scan goes on: [false] is
    [errStopScan], which is handed to the caller as the flag of the result. *)
Definition scan_admit {A} (sym : string) (nc : option NodeConstraint) (reuse : option Row) (visit : A → Row → exec (A * bool)) (a : A) (id : NodeID)
    : exec (A * bool) :=
  if Overlay v && negb (Alive v id) then go_ret (a, true)
  else
    let! _ := spend budget ctx 1 in
    let! sat := go_lift (nodeSatisfiesConstraint nc id) in
    if negb sat then go_ret (a, true)
    else
      let r := SetNode (default NewRow reuse) sym id in
      let! ok := predicatesAdmit r nc in
      if negb ok then go_ret (a, true)
      else let! _ := spend budget ctx 1 in visit a r.

(** The cases of the switch after the ids and the objectid. *)
Definition scan_rest {A} (nc : option NodeConstraint) (hint : edgeHint) (admitNode : A → NodeID → exec (A * bool)) (a : A) : exec (A * bool) :=
  let! byHint := go_lift (edgeHintPreferred nc hint) in
  if byHint then go_until admitNode a (default [] hint)
  else
    let! byProp := go_lift (propIndexPreferred nc) in
    if byProp then go_until admitNode a (match nc with Some c => PropCandidates c | None => [] end)
    else if match nc with Some c => 0 <? len (nc_Kinds c) | None => false end then
      let! bm := go_lift (c ← nc; smallestKindBitmap (nc_Kinds c)) in
      go_each (Bitset_Iterate bm) admitNode a
    else go_until admitNode a (range 0 (View_NodeCount v)).

Definition scanAnchorVisitReusing {A} (sym : string) (nc : option NodeConstraint) (hint : edgeHint) (reuse : option Row)
    (visit : A → Row → exec (A * bool)) (a : A) : exec (A * bool) :=
  let admitNode := scan_admit sym nc reuse visit in
  match nc with
  | Some c =>
      match nc_IDs c, ObjectIDAnchor c with
      | id :: _, _ => match View_Dense v id with Some n => go_until admitNode a [n] | None => go_ret (a, true) end
      | [], Some text =>
          let! r := go_lift (View_NodesByObjectID v text) in
          match r with Some ids => go_until admitNode a ids | None => go_ret (a, true) end
      | [], None => scan_rest nc hint admitNode a
      end
  | None => scan_rest nc hint admitNode a
  end.

Definition scanAnchorVisitHinted {A} (sym : string) (nc : option NodeConstraint) (hint : edgeHint) (visit : A → Row → exec (A * bool)) (a : A)
  : exec (A * bool) := scanAnchorVisitReusing sym nc hint None visit a.
Definition scanAnchorVisit {A} (sym : string) (nc : option NodeConstraint) (visit : A → Row → exec (A * bool)) (a : A)
  : exec (A * bool) := scanAnchorVisitHinted sym nc None visit a.

Definition scanAnchorHinted (sym : string) (nc : option NodeConstraint) (hint : edgeHint) : exec (list Row) :=
  let! r := scanAnchorVisitHinted sym nc hint (λ rows r, go_ret (rows ++ [r], true)) [] in go_ret r.1.
Definition scanAnchor (sym : string) (nc : option NodeConstraint) : exec (list Row) :=
  let! r := scanAnchorVisit sym nc (λ rows r, go_ret (rows ++ [r], true)) [] in go_ret r.1.
End scan.

(** ** Candidates *)

Section candidates.
Context `{GoStd} `{Cypher}.
Context (v : View) (L : layout) (Ds : list delta) (HR : View_rep v L Ds).
Let G := view_graph L Ds.

(** A node of the graph has the kinds, the id and the objectid that a constraint
    asks for. *)
Definition node_fits (nc : option NodeConstraint) (id : N) : Prop :=
  match nc with
  | None => True
  | Some c => (∀ k, k ∈ nc_Kinds c → has_kind L Ds id k) ∧ (nc_IDs c ≠ [] → id ∈ nc_IDs c) ∧
      (∀ text, ObjectIDAnchor c = Some text → graph_objectid L Ds id = Some text)
  end.

Lemma len_pos {A} (l : list A) : (0 <? len l) = match l with [] => false | _ => true end.
Proof. destruct l; [done|]. rewrite len_cons. apply N.ltb_lt. lia. Qed.

Lemma satisfies_ok nc n id : idx (view_ids v) n = Some id → is_Some (g_nodes G !! id) →
  ∃ b, nodeSatisfiesConstraint v nc n = Some b ∧ (b = true ↔ node_fits nc id).
Proof.
  intros Hn Hlive. unfold nodeSatisfiesConstraint, node_fits. destruct nc as [c|]; [|by exists true].
  rewrite (KindIDsOf_graph v L Ds HR n id Hn), GraphID_spec, Hn, !len_pos. fold G. destruct Hlive as [st Hst].
  assert (∃ b, (if match nc_Kinds c with [] => false | _ => true end then have ← Some match g_nodes G !! id with Some st => st.1 | None => [] end;
       Some (forallb (containsKindID have) (nc_Kinds c)) else Some true) = Some b ∧ (b = true ↔ ∀ k, k ∈ nc_Kinds c → has_kind L Ds id k)) as (b & -> & Hb).
  { destruct (nc_Kinds c) as [|k0 ks] eqn:Ek.
    - exists true. split; [done|]. split; [|done]. intros _ k []%elem_of_nil.
    - rewrite Hst. cbn [mbind option_bind]. eexists. split; [done|]. rewrite forallb_forall. split.
      + intros Hf k Hk%list_elem_of_In. exists st. split; [exact Hst|]. by apply containsKindID_spec, Hf.
      + intros Hf k Hk%list_elem_of_In. destruct (Hf k Hk) as (st' & Hst' & Hin). apply containsKindID_spec. unfold G in Hst. congruence. }
  cbn [mbind option_bind]. destruct b; simpl; [|eexists; split; [done|]; split; [done|]; intros (Hf & _); by apply Hb in Hf].
  assert (∃ b', (if match nc_IDs c with [] => false | _ => true end then Some (existsb (N.eqb id) (nc_IDs c)) else Some true) = Some b' ∧
    (b' = true ↔ (nc_IDs c ≠ [] → id ∈ nc_IDs c))) as (b' & -> & Hb').
  { destruct (nc_IDs c) as [|x xs]; [by exists true|]. eexists. split; [done|]. rewrite existsb_exists. split.
    - intros (y & Hy%list_elem_of_In & ->%N.eqb_eq) _. done.
    - intros Hin. exists id. split; [by apply list_elem_of_In, Hin|apply N.eqb_refl]. }
  cbn [mbind option_bind]. destruct b'; simpl; [|eexists; split; [done|]; split; [done|]; intros (_ & Hf & _); by apply Hb' in Hf].
  destruct (ObjectIDAnchor c) as [text|]; [|exists true; split; [done|]; split; [intros _; split_and!; [by apply Hb|by apply Hb'|done]|done]].
  destruct (NodesByObjectID_graph v L Ds HR text) as (l & -> & _ & Hl). cbn [mbind option_bind]. eexists. split; [done|].
  assert (match found l with Some ns => existsb (N.eqb n) ns | None => false end = true ↔ n ∈ l) as ->.
  { unfold found. destruct l as [|x l]; [by rewrite elem_of_nil|]. rewrite existsb_exists. split.
    - intros (y & Hy%list_elem_of_In & ->%N.eqb_eq). done.
    - intros Hin. exists n. split; [by apply list_elem_of_In|apply N.eqb_refl]. }
  rewrite Hl. split.
  - intros (id' & Hn' & Ho). rewrite Hn in Hn'. injection Hn' as <-. split_and!; [by apply Hb|by apply Hb'|]. by intros ? [= <-].
  - intros (_ & _ & Ho). exists id. split; [done|]. by apply Ho.
Qed.

Lemma smallest_ok kinds : kinds ≠ [] → ∃ bm k cap, smallestKindBitmap v kinds = Some bm ∧ k ∈ kinds ∧ Bitset_wf cap bm ∧
  ∀ n, Bitset_Has bm n = true ↔ ∃ id, idx (view_ids v) n = Some id ∧ has_kind L Ds id k.
Proof.
  destruct kinds as [|k0 kinds]; [done|]. intros _. simpl.
  destruct (NodesOfKind_graph v L Ds HR k0) as (b & cap & -> & Hwf & _ & Hb). cbn [mbind option_bind].
  assert (∀ ks best k cap, k ∈ k0 :: kinds → (∀ x, x ∈ ks → x ∈ k0 :: kinds) → Bitset_wf cap best →
    (∀ n, Bitset_Has best n = true ↔ ∃ id, idx (view_ids v) n = Some id ∧ has_kind L Ds id k) →
    ∃ bm k cap, foldM (λ best k, bm ← View_NodesOfKind v k; Some (if Bitset_Count bm <? Bitset_Count best then bm else best)) ks best = Some bm ∧
      k ∈ k0 :: kinds ∧ Bitset_wf cap bm ∧ ∀ n, Bitset_Has bm n = true ↔ ∃ id, idx (view_ids v) n = Some id ∧ has_kind L Ds id k) as Hgo.
  2: { apply (Hgo kinds b k0 cap); [by left|intros; by right|done|done]. }
  induction ks as [|k1 ks IH]; intros best k c Hk Hks Hw Hh; [by exists best, k, c|]. simpl.
  destruct (NodesOfKind_graph v L Ds HR k1) as (b1 & cap1 & -> & Hwf1 & _ & Hb1). cbn [mbind option_bind].
  assert (∀ x, x ∈ ks → x ∈ k0 :: kinds) as Hks' by (intros; apply Hks; by right).
  destruct (_ <? _); [apply (IH b1 k1 cap1)|apply (IH best k c)]; try done. apply Hks. by left.
Qed.

Lemma smallest_total nc : (0 <? len (nc_Kinds nc)) = true → is_Some (smallestKindBitmap v (nc_Kinds nc)).
Proof.
  rewrite len_pos. destruct (nc_Kinds nc) as [|k ks] eqn:Ek; [done|]. intros _.
  destruct (smallest_ok (k :: ks)) as (bm & _ & _ & -> & _); [done|]. by eexists.
Qed.
Lemma rankOf_total nc : is_Some (rankOf v nc).
Proof.
  unfold rankOf. destruct nc as [c|]; [|by eexists]. destruct (0 <? len (nc_IDs c)); [by eexists|]. destruct (ObjectIDAnchor c); [by eexists|].
  destruct (PropIndexed c), (0 <? len (nc_Kinds c)) eqn:Ek; try by eexists.
  all: destruct (smallest_total c Ek) as [bm ->]; by eexists.
Qed.
Lemma edgeHintPreferred_total nc h : is_Some (edgeHintPreferred v nc h).
Proof.
  unfold edgeHintPreferred. destruct h as [ids|]; [|by eexists]. destruct (match nc with Some _ => _ | None => _ end); [by eexists|].
  unfold otherwiseEnumerated. destruct nc as [c|]; [|by eexists]. destruct (0 <? len (nc_Kinds c)) eqn:Ek; [|by eexists].
  destruct (smallest_total c Ek) as [bm ->]. by eexists.
Qed.
Lemma propIndexPreferred_total nc : is_Some (propIndexPreferred v nc).
Proof.
  unfold propIndexPreferred. destruct nc as [c|]; [|by eexists]. destruct (PropIndexed c); [|by eexists]. simpl.
  pose proof (len_pos (nc_Kinds c)) as Hp. destruct (N.eqb_spec (len (nc_Kinds c)) 0); [by eexists|].
  destruct (smallest_total c) as [bm ->]; [|by eexists]. apply N.ltb_lt. lia.
Qed.
Lemma rankOfHinted_total nc h : is_Some (rankOfHinted v nc h).
Proof.
  unfold rankOfHinted. destruct (rankOf_total nc) as [r ->]. simpl. destruct (edgeHintPreferred_total nc h) as [b ->]. simpl. by destruct b.
Qed.

(** What the candidates a plan or a hint brings along have to be. *)
Definition proper_ids (ids : list NodeID) : Prop := NoDup ids ∧ ∀ n, n ∈ ids → n < View_NodeCount v.
Definition nc_proper (nc : option NodeConstraint) : Prop :=
  match nc with Some c => (PropIndexed c = true → proper_ids (PropCandidates c)) ∧ (∀ x y, x ∈ nc_IDs c → y ∈ nc_IDs c → x = y) | None => True end.
Definition nc_allows (nc : option NodeConstraint) (n : NodeID) : Prop :=
  match nc with Some c => PropIndexed c = true → n ∈ PropCandidates c | None => True end.
Definition hint_proper (h : edgeHint) : Prop := match h with Some ids => proper_ids ids | None => True end.
Definition hint_allows (h : edgeHint) (n : NodeID) : Prop := match h with Some ids => n ∈ ids | None => True end.

Context (budget : Budgets) (ctx : Ctx) (E : goerr → Prop).

(** What a list of candidates is good for. *)
Definition candidates_for (nc : option NodeConstraint) (hint : edgeHint) (cands : list NodeID) : Prop := proper_ids cands ∧
  ∀ n id, idx (view_ids v) n = Some id → is_Some (g_nodes G !! id) → node_fits nc id → hint_allows hint n → nc_allows nc n → n ∈ cands.

Lemma scan_rest_cands nc hint : nc_proper nc → hint_proper hint → ∃ cands, candidates_for nc hint cands ∧
  ∀ A (admitNode : A → NodeID → exec (A * bool)) a I P, runs I E (go_until admitNode a cands) P → runs I E (scan_rest v nc hint admitNode a) P.
Proof.
  intros Hnc Hh. unfold scan_rest. destruct (edgeHintPreferred_total nc hint) as [bh Ebh]. destruct (propIndexPreferred_total nc) as [bp Ebp].
  rewrite Ebh, Ebp. destruct bh.
  { destruct hint as [ids|]; [|done]. exists ids. split; [split; [done|by intros; simpl in *]|].
    intros A admitNode a I P Hr. by eapply runs_bind, runs_lift. }
  destruct bp.
  { unfold propIndexPreferred in Ebp. destruct nc as [c|] eqn:Enc; [|done]. destruct (PropIndexed c) eqn:Epi; [|done].
    exists (PropCandidates c). split; [split; [by apply Hnc|intros; simpl in *; auto]|].
    intros A admitNode a I P Hr. do 2 (eapply runs_bind, runs_lift; [done|]). exact Hr. }
  destruct (match nc with Some c => 0 <? len (nc_Kinds c) | None => false end) eqn:Ek.
  - destruct nc as [c|] eqn:Enc; [|done]. destruct (smallest_ok (nc_Kinds c)) as (bm & k & cap & Ebm & Hk & Hwf & Hbm).
    { rewrite len_pos in Ek. by destruct (nc_Kinds c). }
    exists (Bitset_elems bm). split; [split; [split|]|].
    + apply sorted_lt_NoDup. by eapply Bitset_elems_sorted.
    + intros n Hn%(elem_of_Bitset _ _ Hwf). apply Hbm in Hn as (id & Hn & _). by eapply dense_lt.
    + intros n id Hn _ (Hf & _) _ _. apply (elem_of_Bitset _ _ Hwf), Hbm. exists id. split; [done|]. by apply Hf.
    + intros A admitNode a I P Hr. do 3 (eapply runs_bind, runs_lift; [done|]). intros s Hs.
      rewrite (go_each_list _ _ (Bitset_elems bm)) by (intros; by eapply Bitset_Iterate_spec). by apply Hr.
  - exists (range 0 (View_NodeCount v)). split; [split; [split|]|].
    + apply NoDup_range.
    + by intros n [_ ?]%elem_of_range.
    + intros n id Hn%dense_lt _ _ _ _. apply elem_of_range. lia.
    + intros A admitNode a I P Hr. do 2 (eapply runs_bind, runs_lift; [done|]). exact Hr.
Qed.

(** The scan is a loop over a list of candidates. *)
Lemma scan_cands nc hint : nc_proper nc → hint_proper hint → ∃ cands, candidates_for nc hint cands ∧
  ∀ A sym reuse (visit : A → Row → exec (A * bool)) a I P,
    runs I E (go_until (scan_admit v budget ctx sym nc reuse visit) a cands) P → runs I E (scanAnchorVisitReusing v budget ctx sym nc hint reuse visit a) P.
Proof.
  intros Hnc Hh. unfold scanAnchorVisitReusing. destruct (scan_rest_cands nc hint Hnc Hh) as (cands & Hc & Hrest).
  destruct nc as [c|]; [|exists cands; split; [done|]; intros; by apply Hrest]. destruct (nc_IDs c) as [|id0 ids] eqn:Eids.
  { destruct (ObjectIDAnchor c) as [text|] eqn:Eo; [|exists cands; split; [done|]; intros; by apply Hrest].
    destruct (NodesByObjectID_graph v L Ds HR text) as (l & El & Hs & Hl). exists l. split; [split; [split|]|].
    - by apply sorted_lt_NoDup.
    - intros n (id & Hn & _)%Hl. by eapply dense_lt.
    - intros n id Hn _ (_ & _ & Ho) _ _. apply Hl. exists id. split; [done|]. by apply Ho.
    - intros A sym reuse visit a I P Hr. eapply runs_bind, runs_lift; [exact El|]. unfold found. destruct l; exact Hr. }
  rewrite (View_Dense_eq v L Ds HR). destruct Hnc as [_ Heq]. destruct (denseOf v id0) as [n0|] eqn:Ed.
  - exists [n0]. apply (denseOf_spec v L Ds HR) in Ed. split; [split; [split; [apply NoDup_singleton|intros n ->%list_elem_of_singleton; by eapply dense_lt]|]|done].
    intros n id Hn _ (_ & Hi & _) _ _. apply list_elem_of_singleton. eapply (dense_unique v L Ds HR); [done|].
    rewrite (Heq id id0); [done| |rewrite Eids; by left]. apply Hi. by rewrite Eids.
  - exists []. split; [split; [split; [constructor|intros n []%elem_of_nil]|]|done].
    intros n id Hn _ (_ & Hi & _) _ _. exfalso. rewrite (Heq id id0) in Hn; [|apply Hi; by rewrite Eids|rewrite Eids; by left].
    apply (denseOf_spec v L Ds HR) in Hn. congruence.
Qed.
End candidates.

(** ** Scanning *)

Definition holds `{Cypher} (v : View) (r : Row) (p : Expression) : bool := match EvalPredicate v r p with inl TriTrue => true | _ => false end.
(** What an evaluation can end with. *)
Definition eval_error `{Cypher} (v : View) (err : goerr) : Prop :=
  ∃ r p, EvalPredicate v r p = inr err ∨ EvalValue v r p = inr err.

Section scanning.
Context `{GoStd} `{Cypher}.
Context (v : View) (L : layout) (Ds : list delta) (HR : View_rep v L Ds).
Let G := view_graph L Ds.
Context (budget : Budgets) (ctx : Ctx) (E : goerr → Prop).
Hypothesis HE : ∀ e, out_of_budget budget ctx e → E e.
Hypothesis Heval : ∀ e, eval_error v e → E e.
Let J (s : exec_state) := memo_ok v L (x_memo s).

Definition preds_hold (nc : option NodeConstraint) (r : Row) : bool :=
  match nc with Some c => forallb (holds v r) (Predicates c) | None => true end.
Lemma runs_predicates nc r : runs J E (predicatesAdmit v r nc) (λ b, b = preds_hold nc r).
Proof.
  unfold predicatesAdmit, preds_hold. destruct nc as [c|]; [|by apply runs_ret]. induction (Predicates c) as [|p ps IH]; simpl; [by apply runs_ret|].
  unfold holds at 1. destruct (EvalPredicate v r p) as [[]|err] eqn:Ep; [by apply runs_ret|exact IH|by apply runs_ret|].
  apply runs_err, Heval. exists r, p. by left.
Qed.

(** A candidate is visited. *)
Definition admits_node (sym : string) (nc : option NodeConstraint) (reuse : option Row) (n : NodeID) : bool :=
  Alive v n && default false (nodeSatisfiesConstraint v nc n) && preds_hold nc (SetNode (default NewRow reuse) sym n).

Lemma runs_admit {A} sym nc reuse (visit : A → Row → exec (A * bool)) a n P : n < View_NodeCount v →
  (if admits_node sym nc reuse n then runs J E (visit a (SetNode (default NewRow reuse) sym n)) P else P (a, true)) →
  runs J E (scan_admit v budget ctx sym nc reuse visit a n) P.
Proof.
  intros Hn HP. unfold scan_admit, admits_node in *. destruct (Alive v n) eqn:Ha.
  - rewrite andb_false_r. simpl in HP. eapply runs_then; [by apply runs_spend|]. intros _ _.
    apply (alive_iff v L Ds HR) in Ha as (id & Hid & Hlive). destruct (satisfies_ok v L Ds HR nc n id Hid Hlive) as (b & Eb & _). rewrite Eb in HP.
    eapply runs_bind, runs_lift; [done|]. destruct b; simpl in *; [|by apply runs_ret].
    eapply runs_then; [apply runs_predicates|]. intros ? ->. destruct (preds_hold nc _); simpl in *; [|by apply runs_ret].
    eapply runs_then; [by apply runs_spend|]. by intros _ _.
  - assert (Overlay v = true) as ->; [|simpl; by apply runs_ret].
    apply not_false_iff_true. intros Ho. by rewrite (plain_Alive v Ho n Hn) in Ha.
Qed.

Lemma admits_node_iff sym nc reuse n id : idx (view_ids v) n = Some id → admits_node sym nc reuse n = true ↔
  is_Some (g_nodes G !! id) ∧ node_fits L Ds nc id ∧ preds_hold nc (SetNode (default NewRow reuse) sym n) = true.
Proof.
  intros Hid. unfold admits_node. rewrite !andb_true_iff, (alive_iff v L Ds HR). split.
  - intros [[(id' & Hid' & Hlive) Hs] Hp]. rewrite Hid in Hid'. injection Hid' as <-. destruct (satisfies_ok v L Ds HR nc n id Hid Hlive) as (b & Eb & Hb).
    rewrite Eb in Hs. simpl in Hs. by rewrite <- Hb.
  - intros (Hlive & Hfit & Hp). destruct (satisfies_ok v L Ds HR nc n id Hid Hlive) as (b & -> & Hb). split; [|done]. split; [eauto|by apply Hb].
Qed.
(** Only live nodes are admitted. *)
Lemma admits_numbered sym nc reuse n : admits_node sym nc reuse n = true → ∃ id, idx (view_ids v) n = Some id ∧ is_Some (g_nodes G !! id).
Proof. unfold admits_node. rewrite !andb_true_iff, (alive_iff v L Ds HR). intros [[(id & Hid & Hlive) _] _]. eauto. Qed.

(** A scan that collects its rows. *)
Definition scanned (sym : string) (nc : option NodeConstraint) (hint : edgeHint) (rows : list Row) : Prop :=
  ∃ ns, NoDup ns ∧ rows = SetNode NewRow sym <$> ns ∧ (∀ n, n ∈ ns → admits_node sym nc None n = true) ∧
    ∀ n, admits_node sym nc None n = true → hint_allows hint n → nc_allows nc n → n ∈ ns.

Lemma runs_scanAnchorHinted sym nc hint : nc_proper v nc → hint_proper v hint →
  runs J E (scanAnchorHinted v budget ctx sym nc hint) (scanned sym nc hint).
Proof.
  intros Hnc Hh. unfold scanAnchorHinted, scanAnchorVisitHinted.
  destruct (scan_cands v L Ds HR budget ctx E nc hint Hnc Hh) as (cands & [[Hnd Hlt] Hall] & Hscan).
  eapply runs_then; [apply Hscan; apply (runs_until J E _ (λ n, if admits_node sym nc None n then [SetNode NewRow sym n] else []))|].
  - intros rows n Hn. apply runs_admit; [by apply Hlt|]. destruct (admits_node sym nc None n); [by apply runs_ret|by rewrite app_nil_r].
  - intros ? ->. apply runs_ret. simpl. exists (filter (λ n, admits_node sym nc None n = true) cands). split_and!.
    + by apply NoDup_filter.
    + apply bind_filter.
    + by intros n [? _]%list_elem_of_filter.
    + intros n Ha Hi Hp. apply list_elem_of_filter. split; [done|]. destruct (admits_numbered _ _ _ _ Ha) as (id & Hid & Hlive).
      pose proof (proj1 (admits_node_iff _ _ _ _ _ Hid) Ha) as (_ & Hfit & _). by eapply Hall.
Qed.
Lemma runs_scanAnchor sym nc : nc_proper v nc → runs J E (scanAnchor v budget ctx sym nc) (scanned sym nc None).
Proof. intros Hnc. by apply (runs_scanAnchorHinted sym nc None). Qed.

(** ** Hints and choices *)

(** A hint lists every node that an edge the step may take starts, or ends, at. *)
Definition hint_sound (h : edgeHint) (P : NodeID → Prop) : Prop := hint_proper v h ∧ ∀ n, P n → hint_allows h n.
Definition step_end (step : Step) (sym : string) (n : NodeID) : Prop :=
  (∀ r, st_Range step = Some r → rg_Min r ≠ 0%Z) → EdgeKinds step ≠ [] → st_Direction step ≠ DirectionBoth → sym = FromSym step ∨ sym = ToSym step →
  ∃ id a b k, visible G !! id = Some (a, b, k) ∧ k ∈ EdgeKinds step ∧
    (FromSym step = sym → idx (view_ids v) n = Some (if bool_decide (st_Direction step = DirectionInbound) then b else a)) ∧
    (FromSym step ≠ sym → ToSym step = sym → idx (view_ids v) n = Some (if bool_decide (st_Direction step = DirectionInbound) then a else b)).

Lemma runs_endpoints kinds (outgoing : bool) : kinds ≠ [] → runs J E (go_memo (EdgeKindEndpoints v kinds outgoing))
  (λ h, hint_proper v h ∧ ∀ n id a b k, visible G !! id = Some (a, b, k) → k ∈ kinds →
     idx (view_ids v) n = Some (if outgoing then a else b) → hint_allows h n).
Proof.
  intros Hk s Hs. unfold go_memo. destruct (EdgeKindEndpoints_lists v L Ds HR kinds outgoing _ Hs Hk) as (mm & l & -> & Hmm & Hl). simpl.
  eexists _, _. split; [done|]. split; [exact Hmm|]. destruct Hl as [Hsort Hl]. split; [split|].
  - by apply sorted_lt_NoDup.
  - intros n (k & _ & Hn)%Hl. by eapply (listed_lt v L Ds HR).
  - intros n id a b k Hv Hin Hn. apply Hl. exists k. split; [done|]. apply (visible_iff L Ds) in Hv as (He & _).
    eapply (edge_listed v L Ds HR); [exact He|]. by apply (denseOf_spec v L Ds HR).
Qed.

Lemma runs_newEdgeHint step sym : runs J E (newEdgeHint v step sym) (λ h, hint_sound h (step_end step sym)).
Proof.
  unfold newEdgeHint. assert (runs J E (go_ret None) (λ h, hint_sound h (step_end step sym))) as Hnone by (by apply runs_ret).
  destruct (_ || _) eqn:E1; [done|]. apply orb_false_iff in E1 as [Hk _]. assert (EdgeKinds step ≠ []) as Hk' by (by destruct (EdgeKinds step)).
  destruct (match st_Range step with Some _ => _ | None => _ end) eqn:E2; [done|].
  assert (∀ r, st_Range step = Some r → rg_Min r ≠ 0%Z) as Hmin by (intros r Er; rewrite Er in E2; by apply Z.eqb_neq).
  destruct (st_Direction step) eqn:Ed; [| |done].
  all: destruct (String.eqb_spec sym (FromSym step)) as [->|Hne]; [|destruct (String.eqb_spec sym (ToSym step)) as [->|]; [|done]].
  all: (eapply runs_mono; [by apply runs_endpoints|]); intros h [Hp Hh]; (split; [done|]); intros n Hn; specialize (Hn Hmin Hk' ltac:(congruence) ltac:(auto));
    destruct Hn as (id & a & b & k & Hv & Hin & Hf & Ht); (eapply Hh; [exact Hv|exact Hin|]); rewrite Ed in Hf, Ht; simpl in Hf, Ht; auto.
Qed.

Lemma runs_hintForAnchor part stepIdxs anchor :
  runs J E (hintForAnchor v part stepIdxs anchor) (λ h, hint_sound h (λ n, ∀ i step, i ∈ stepIdxs → Chains part !! i = Some step → step_end step anchor n)).
Proof.
  unfold hintForAnchor. apply (runs_foldl J E _ (λ done h, hint_sound h (λ n, ∀ i step, i ∈ done → Chains part !! i = Some step → step_end step anchor n))); [|done].
  intros done i h [Hp Hh] _. destruct (Chains part !! i) as [step|] eqn:Ei.
  - eapply runs_then; [apply runs_newEdgeHint|]. intros h' [Hp' Hh']. apply runs_ret. destruct (_ && _).
    + split; [done|]. intros n Hn. apply Hh'. apply (Hn i); [|done]. apply elem_of_app. right. by left.
    + split; [done|]. intros n Hn. apply Hh. intros j st Hj. apply Hn. apply elem_of_app. by left.
  - apply runs_ret. split; [done|]. intros n Hn. apply Hh. intros j st Hj. apply Hn. apply elem_of_app. by left.
Qed.

Lemma runs_choose nodes syms hint : syms ≠ [] → match hint with Some f => ∀ s, runs J E (f s) (λ _ : edgeHint, True) | None => True end →
  runs J E (chooseAnchorHinted v nodes syms hint) (λ s, s ∈ syms).
Proof.
  intros Hs Hh. unfold chooseAnchorHinted. destruct syms as [|s0 syms]; [done|].
  assert (∀ s, runs J E (match hint with None => go_lift (rankOf v (nodes !! s))
    | Some hint => (let! h := hint s in go_lift (rankOfHinted v (nodes !! s) h))%go end) (λ _, True)) as Hrank.
  { intros s. destruct hint as [f|].
    - eapply runs_then; [apply Hh|]. intros h _. destruct (rankOfHinted_total v L Ds HR (nodes !! s) h) as [r Er]. by eapply runs_lift.
    - destruct (rankOf_total v L Ds HR (nodes !! s)) as [r Er]. by eapply runs_lift. }
  eapply runs_then; [apply Hrank|]. intros r _.
  eapply runs_then; [apply (runs_foldl J E _ (λ done x, x.1 = s0 ∨ x.1 ∈ done))|].
  - intros done s [b br] Hb _. eapply runs_then; [apply Hrank|]. intros r' _. apply runs_ret. simpl in *.
    destruct (better r' br); simpl; rewrite elem_of_app, list_elem_of_singleton; naive_solver.
  - by left.
  - intros [b br] Hb. apply runs_ret. simpl in *. destruct Hb as [->|]; [by left|by right].
Qed.
End scanning.
