(* ===== verification/Hops.v ===== *)
(** * One hop of a pattern

    [internal/engine/interpret/exec.go]: the edges at a node that a step may
    take ([adjacency]), the extension of rows over a step to a new symbol
    ([expandStep]) and over one between two bound symbols
    ([verifyClosingStep]).

    The result: [adjacency] gives exactly the visible edges, each once, whatever
    the view serves them from. *)

From S2P Require Import Prelude Bitset Csr Kinds Snapshot Builder Segment View ViewAdj ViewRows EdgeKinds PathSink Traverse ViewTraverse Rows Scan.
From stdpp Require Import options.
Unset Default Proof Using.
#[local] Open Scope N_scope.
#[local] Open Scope go_scope.

(** ** Definitions *)

(** An edge as a walk meets it: the node at its other end, its kind, its forward
    slot (on a plain view) and its id (on an overlay). *)
Record adjCandidate := mkAdjCandidate { ac_other : NodeID; ac_kind : KindID; ac_fwd : N; ac_edgeID : N }.
#[global] Instance adjCandidate_eq_dec : EqDecision adjCandidate.
Proof. solve_decision. Defined.

Definition edgeKindOK (want : list KindID) (have : KindID) : bool := (len want =? 0) || existsb (Z.eqb have) want.

Section hops.
Context `{GoStd} `{Cypher}.
Context (v : View) (budget : Budgets) (ctx : Ctx).

Definition edgeRefFor (c : adjCandidate) : EdgeRef := if Overlay v then mkEdgeRef 0 (ac_edgeID c) else mkEdgeRef (ac_fwd c) 0.
Definition candidateIdentity (c : adjCandidate) : N := if Overlay v then ac_edgeID c else ac_fwd c.
Definition edgeRefIdentity (ref : EdgeRef) : N := if Overlay v then er_EdgeID ref else er_Fwd ref.

Definition capHint (step : Step) (bound : NodeID) (boundIsFrom : bool) : option N :=
  match st_Direction step with
  | DirectionOutbound => DegreeHint v bound boundIsFrom
  | DirectionInbound => DegreeHint v bound (negb boundIsFrom)
  | DirectionBoth => o ← DegreeHint v bound true; i ← DegreeHint v bound false; Some (o + i)
  end.

(** The body of the loops of [adjacency]: an edge is paid for, and left out when
    it is a loop that a step both ways between different symbols may not take. *)
Definition adj_visit (skip_loops : bool) (bound : NodeID) (out : list adjCandidate) (c : option adjCandidate) : exec (list adjCandidate * bool) :=
  let! _ := spend budget ctx 1 in
  let! c := go_lift c in
  go_ret (if skip_loops && (ac_other c =? bound) then out else out ++ [c], true).

Definition visitOut (skip_loops : bool) (bound : NodeID) (out : list adjCandidate) : exec (list adjCandidate) :=
  let visit := adj_visit skip_loops bound in
  let! r :=
    (if negb (Overlay v) then
      let! row := go_lift (View_Out v bound) in
      let '(targets, kinds, _) := row in
      let! lo := go_lift (idx (OutOffsets (v_base v)) bound) in
      go_until (λ out i, visit out (other ← idx targets i; k ← idx kinds i; Some (mkAdjCandidate other k (lo + i) 0))) out (range 0 (len targets))
    else
      let! slots := go_lift (CleanOutSlots v bound) in
      match slots with
      | Some (lo, hi) =>
          let base := v_base v in
          go_until (λ out i, visit out (other ← idx (OutTargets base) i; k ← idx (OutKinds base) i; e ← idx (OutEdgeIDs base) i;
            Some (mkAdjCandidate other k 0 e))) out (range lo hi)
      | None =>
          go_each (OutEdges v bound) (λ out (x : vedge), visit out (Some (mkAdjCandidate x.1.1 x.1.2 0 x.2))) out
      end) in
  go_ret r.1.

Definition visitIn (skip_loops : bool) (bound : NodeID) (out : list adjCandidate) : exec (list adjCandidate) :=
  let visit := adj_visit skip_loops bound in
  let! r :=
    (if negb (Overlay v) then
      let! row := go_lift (View_In v bound) in
      let '(sources, kinds) := row in
      let! lo := go_lift (idx (InOffsets (v_base v)) bound) in
      go_until (λ out i, visit out (other ← idx sources i; k ← idx kinds i; f ← idx (InEdgeIdx (v_base v)) (lo + i);
        Some (mkAdjCandidate other k f 0))) out (range 0 (len sources))
    else
      let! slots := go_lift (CleanInSlots v bound) in
      match slots with
      | Some (lo, hi) =>
          let base := v_base v in
          go_until (λ out i, visit out (other ← idx (InTargets base) i; k ← idx (InKinds base) i; f ← idx (InEdgeIdx base) i;
            e ← idx (OutEdgeIDs base) f; Some (mkAdjCandidate other k 0 e))) out (range lo hi)
      | None =>
          go_each (InEdges v bound) (λ out (x : vedge), visit out (Some (mkAdjCandidate x.1.1 x.1.2 0 x.2))) out
      end) in
  go_ret r.1.

Definition adjacency (step : Step) (bound : NodeID) (boundIsFrom : bool) : exec (list adjCandidate) :=
  let sameSymbol := String.eqb (FromSym step) (ToSym step) in
  let! _ := go_lift (capHint step bound boundIsFrom) in
  if bool_decide (st_Direction step = DirectionBoth) then
    let! out := visitOut (negb sameSymbol) bound [] in
    if sameSymbol then go_ret out else visitIn true bound out
  else if boundIsFrom then visitOut false bound [] else visitIn false bound [].

Definition boundNode (r : Row) (sym : string) : exec NodeID :=
  match Node r sym with Some id => go_ret id | None => go_err ErrUnboundSymbol end.

(** A row for the list of results. *)
Definition emit_row (out : list Row) (nr : Row) : exec (list Row) :=
  let! _ := spend budget ctx 1 in
  let! _ := observeRows budget (len (out ++ [nr])) in
  go_ret (out ++ [nr]).

(** [EdgeSym] and the arc key are set when they are not empty. *)
Definition set_edge_if (key : string) (ref : EdgeRef) (r : Row) : Row := if String.eqb key EmptyString then r else SetEdge r key ref.

Definition expandStep (rows : list Row) (step : Step) (boundSym unboundSym : string) (boundIsFrom : bool) (unboundNC : option NodeConstraint)
    (pathArcKey : string) : exec (list Row) :=
  go_foldl (λ out r,
    let! boundID := boundNode r boundSym in
    let! cands := adjacency step boundID boundIsFrom in
    go_foldl (λ out c,
      if negb (edgeKindOK (EdgeKinds step) (ac_kind c)) then go_ret out
      else
        let! sat := go_lift (nodeSatisfiesConstraint v unboundNC (ac_other c)) in
        if negb sat then go_ret out
        else if edgeUsed r (Pattern step) (candidateIdentity c) then go_ret out
        else if trailEdgeUsed r (Pattern step) (candidateIdentity c) then go_ret out
        else
          let nr := SetNode r unboundSym (ac_other c) in
          let! ok := predicatesAdmit v nr unboundNC in
          if negb ok then go_ret out
          else
            let nr := set_edge_if (EdgeSym step) (edgeRefFor c) nr in
            let nr := set_edge_if pathArcKey (edgeRefFor c) nr in
            emit_row out (markEdgeUsed nr (Pattern step) (candidateIdentity c))) out cands) [] rows.

Definition verifyClosingStep (rows : list Row) (step : Step) : exec (list Row) :=
  go_foldl (λ out r,
    let! fromID := boundNode r (FromSym step) in
    let! toID := boundNode r (ToSym step) in
    let! cands := adjacency step fromID true in
    go_foldl (λ out c,
      if negb (ac_other c =? toID) then go_ret out
      else if negb (edgeKindOK (EdgeKinds step) (ac_kind c)) then go_ret out
      else if edgeUsed r (Pattern step) (candidateIdentity c) then go_ret out
      else if trailEdgeUsed r (Pattern step) (candidateIdentity c) then go_ret out
      else
        let nr := set_edge_if (EdgeSym step) (edgeRefFor c) r in
        emit_row out (markEdgeUsed nr (Pattern step) (candidateIdentity c))) out cands) [] rows.
End hops.

(** ** The edges at a node *)

Lemma runs_range {S A B} (I : S → Prop) E (f : list B → N → go S (list B * bool)) (g : A → list B) (l : list A) lo out :
  (∀ out k x, idx l k = Some x → runs I E (f out (lo + k)) (λ r, r = (out ++ g x, true))) →
  runs I E (go_until f out (range lo (lo + len l))) (λ r, r = (out ++ (l ≫= g), true)).
Proof.
  revert lo out. induction l as [|x l IH]; intros lo out Hf.
  - rewrite len_nil, N.add_0_r, range_nil by lia. apply runs_ret. by rewrite app_nil_r.
  - rewrite len_cons, range_cons by lia. eapply runs_then.
    { replace lo with (lo + 0) at 1 by lia. apply Hf. done. }
    intros ? ->. replace (lo + (len l + 1)) with (lo + 1 + len l) by lia. eapply runs_mono; [apply IH|intros ? ->; by rewrite <- (assoc_L (++))].
    intros out' k y Hk. replace (lo + 1 + k) with (lo + (k + 1)) by lia. apply Hf. by rewrite idx_cons_succ.
Qed.

Section walks.
Context `{GoStd} `{Cypher}.
Context (v : View) (L : layout) (Ds : list delta) (HR : View_rep v L Ds).
Hypothesis Hsize : View_NodeCount v < 2 ^ 31.
Let HB := vr_base _ _ _ HR.
Let HP := rep_packed _ _ HB.
Let G := view_graph L Ds.

(** A visible edge as [adjacency] gives it. *)
Definition edge_slot (e : N) : N := match Snapshot_EdgeByID (v_base v) e with Some (Some p) => p | _ => 0 end.
Definition cand (x : vedge) : adjCandidate :=
  mkAdjCandidate x.1.1 x.1.2 (if Overlay v then 0 else edge_slot x.2) (if Overlay v then x.2 else 0).
Definition keep (skip_loops : bool) (bound : NodeID) (x : vedge) : list adjCandidate :=
  if skip_loops && (x.1.1 =? bound) then [] else [cand x].

Context (budget : Budgets) (ctx : Ctx) (I : ekMemo → Prop) (E : goerr → Prop).
Hypothesis HE : ∀ e, out_of_budget budget ctx e → E e.
Let J (s : exec_state) := I (x_memo s).

Lemma runs_visit skip n out x : runs J E (adj_visit budget ctx skip n out (Some (cand x))) (λ r, r = (out ++ keep skip n x, true)).
Proof.
  unfold adj_visit. eapply runs_then; [by apply runs_spend|]. intros _ _. eapply runs_bind, runs_lift; [done|]. apply runs_ret.
  unfold keep. simpl. destruct (_ && _); [by rewrite app_nil_r|done].
Qed.
Lemma runs_visits skip n f walk (l : list vedge) out : (∀ out x, f out x = adj_visit budget ctx skip n out (Some (cand x))) →
  (∀ S (yield : vedge → S → option (S * bool)) s, walk S yield s = iter_until yield l s) →
  runs J E (go_each (walk _) f out) (λ r, r = (out ++ (l ≫= keep skip n), true)).
Proof.
  intros Hf Hw s Hs. rewrite (go_each_list _ _ l) by (intros; apply Hw). revert s Hs.
  apply (runs_until J E f (keep skip n)). intros out' x _. rewrite Hf. apply runs_visit.
Qed.

Lemma base_row_n n id : idx (view_ids v) n = Some id → n < NodeCount (v_base v) → n < len (lo_ids L).
Proof. by rewrite (rep_NodeCount _ _ HB). Qed.

Lemma runs_visitOut skip n id out : idx (view_ids v) n = Some id →
  runs J E (visitOut v budget ctx skip n out) (λ o, o = out ++ (walk_list v L true n ≫= keep skip n)).
Proof.
  intros Hn. unfold visitOut. eapply runs_then with (Q := λ r, r = (out ++ (walk_list v L true n ≫= keep skip n), true));
    [|intros ? ->; by apply runs_ret]. destruct (dirty_bits v L Ds HR Hsize) as (d & Ed & _ & Hbits & _ & _ & _ & Hplain).
  assert (∀ r, idx (lo_out L) n = Some r → ∀ k x, idx r k = Some x →
    idx (concat (lo_out L)) (len (concat (take (N.to_nat n) (lo_out L))) + k) = Some x) as Hslot.
  { intros r Hr k x Hk. by rewrite (concat_idx _ _ _ k Hr (idx_lt _ _ _ Hk)). }
  destruct (Overlay v) eqn:Ho; simpl.
  - unfold CleanOutSlots. rewrite Ho. destruct (N.leb_spec (NodeCount (v_base v)) n) as [Hge|Hlt].
    { eapply runs_bind, runs_lift; [done|]. apply (runs_visits skip n _ (λ S, OutEdges v n)).
      - intros out' [[t k] e]. unfold cand. by rewrite Ho.
      - intros S yield s. apply (OutEdges_walk v L Ds HR). }
    rewrite Ed. cbn [mbind option_bind]. destruct (bits_has (fst <$> d) n) eqn:Eb.
    { eapply runs_bind, runs_lift; [done|]. apply (runs_visits skip n _ (λ S, OutEdges v n)).
      - intros out' [[t k] e]. unfold cand. by rewrite Ho.
      - intros S yield s. apply (OutEdges_walk v L Ds HR). }
    destruct (out_row_Some _ _ HB n (base_row_n _ _ Hn Hlt)) as [r Hr]. destruct (out_row_split v L Ds HR n r Hr) as [-> ->].
    eapply runs_bind, runs_lift; [done|].
    rewrite (clean_out_walk v L Ds HR Hsize n r Hr Hlt) by (intros Hin%Hbits; [congruence|done]).
    apply runs_range. intros out' k x Hk. apply Hslot in Hk; [|done].
    rewrite (pk_targets _ _ HP), (pk_kinds _ _ HP), (pk_eids _ _ HP), !idx_fmap, Hk. simpl.
    replace (mkAdjCandidate _ _ _ _) with (cand x) by (unfold cand; by rewrite Ho). apply runs_visit.
  - destruct (Hplain eq_refl) as [Hm _].
    assert (n < NodeCount (v_base v)) as Hlt by (rewrite <- (plain_count v L Ds HR Ho); by eapply dense_lt).
    destruct (out_row_Some _ _ HB n (base_row_n _ _ Hn Hlt)) as [r Hr]. rewrite (View_Out_row v L Ds HR Ho n r Hr).
    eapply runs_bind, runs_lift; [done|]. simpl. destruct (out_row_split v L Ds HR n r Hr) as [-> _].
    eapply runs_bind, runs_lift; [done|]. rewrite (clean_out_walk v L Ds HR Hsize n r Hr Hlt) by (rewrite Hm; apply not_elem_of_nil).
    rewrite len_fmap. apply (runs_range J E _ (keep skip n) r 0). intros out' k x Hk. rewrite N.add_0_l, !idx_fmap, Hk. simpl.
    replace (mkAdjCandidate _ _ _ _) with (cand x); [apply runs_visit|]. unfold cand, edge_slot. rewrite Ho.
    pose proof (EdgeByID_slot _ _ HB (vr_edge_ids _ _ _ HR) _ _ _ (Hslot r Hr k x Hk) eq_refl) as Es. unfold oe_id in Es. by rewrite Es.
Qed.

Lemma runs_visitIn skip n id out : idx (view_ids v) n = Some id →
  runs J E (visitIn v budget ctx skip n out) (λ o, o = out ++ (walk_list v L false n ≫= keep skip n)).
Proof.
  intros Hn. unfold visitIn. eapply runs_then with (Q := λ r, r = (out ++ (walk_list v L false n ≫= keep skip n), true));
    [|intros ? ->; by apply runs_ret]. destruct (dirty_bits v L Ds HR Hsize) as (d & Ed & _ & _ & Hbits & _ & _ & Hplain).
  assert (∀ r, idx (lo_in L) n = Some r → ∀ k x, idx r k = Some x →
    idx (concat (lo_in L)) (len (concat (take (N.to_nat n) (lo_in L))) + k) = Some x ∧
    ∃ e, idx (concat (lo_out L)) x.2 = Some e ∧ idx (OutEdgeIDs (v_base v)) x.2 = Some (oe_id e)) as Hslot.
  { intros r Hr k x Hk. split; [by rewrite (concat_idx _ _ _ k Hr (idx_lt _ _ _ Hk))|].
    destruct (idx_is_Some _ _ (in_slot_lt v L Ds HR _ _ _ Hr (idx_elem_of _ _ _ Hk))) as [e He]. exists e. split; [done|].
    by rewrite (pk_eids _ _ HP), idx_fmap, He. }
  destruct (Overlay v) eqn:Ho; simpl.
  - unfold CleanInSlots. rewrite Ho. destruct (N.leb_spec (NodeCount (v_base v)) n) as [Hge|Hlt].
    { eapply runs_bind, runs_lift; [done|]. apply (runs_visits skip n _ (λ S, InEdges v n)).
      - intros out' [[t k] e]. unfold cand. by rewrite Ho.
      - intros S yield s. apply (InEdges_walk v L Ds HR). }
    rewrite Ed. cbn [mbind option_bind]. destruct (bits_has (snd <$> d) n) eqn:Eb.
    { eapply runs_bind, runs_lift; [done|]. apply (runs_visits skip n _ (λ S, InEdges v n)).
      - intros out' [[t k] e]. unfold cand. by rewrite Ho.
      - intros S yield s. apply (InEdges_walk v L Ds HR). }
    destruct (in_row_Some _ _ HB n (base_row_n _ _ Hn Hlt)) as [r Hr]. destruct (in_row_split v L Ds HR n r Hr) as [-> ->].
    eapply runs_bind, runs_lift; [done|].
    rewrite (clean_in_walk v L Ds HR Hsize n r Hr Hlt) by (intros Hin%Hbits; [congruence|done]).
    rewrite bind_fmap_comp. apply runs_range. intros out' k x Hk. destruct (Hslot r Hr k x Hk) as (Hc & e & _ & He).
    rewrite (pk_isrc _ _ HP), (pk_ikind _ _ HP), (pk_iidx _ _ HP), !idx_fmap, Hc. simpl. rewrite He. simpl.
    replace (mkAdjCandidate _ _ _ _) with (cand (in_edge v x)); [apply runs_visit|]. unfold cand, in_edge. simpl. by rewrite Ho, He.
  - destruct (Hplain eq_refl) as [_ Hm].
    assert (n < NodeCount (v_base v)) as Hlt by (rewrite <- (plain_count v L Ds HR Ho); by eapply dense_lt).
    destruct (in_row_Some _ _ HB n (base_row_n _ _ Hn Hlt)) as [r Hr]. rewrite (View_In_row v L Ds HR Ho n r Hr).
    eapply runs_bind, runs_lift; [done|]. simpl. destruct (in_row_split v L Ds HR n r Hr) as [-> _].
    eapply runs_bind, runs_lift; [done|]. rewrite (clean_in_walk v L Ds HR Hsize n r Hr Hlt) by (rewrite Hm; apply not_elem_of_nil).
    rewrite len_fmap, bind_fmap_comp. apply (runs_range J E _ (λ x, keep skip n (in_edge v x)) r 0). intros out' k x Hk.
    destruct (Hslot r Hr k x Hk) as (Hc & e & Hp & He). rewrite N.add_0_l, (pk_iidx _ _ HP), !idx_fmap, Hk, Hc. simpl.
    replace (mkAdjCandidate _ _ _ _) with (cand (in_edge v x)); [apply runs_visit|]. unfold cand, in_edge, edge_slot. simpl. rewrite Ho, He. simpl.
    by rewrite (EdgeByID_slot _ _ HB (vr_edge_ids _ _ _ HR) _ _ _ Hp eq_refl).
Qed.

(** ** Adjacency *)

(** The edges a step may take from a node, given whether the node is at the
    step's start. *)
Definition hops (step : Step) (n : NodeID) (from : bool) : list vedge :=
  if bool_decide (st_Direction step = DirectionBoth) then
    if String.eqb (FromSym step) (ToSym step) then walk_list v L true n
    else filter (λ x : vedge, x.1.1 ≠ n) (walk_list v L true n ++ walk_list v L false n)
  else walk_list v L from n.

Lemma keep_all n (l : list vedge) : l ≫= keep false n = cand <$> l.
Proof. induction l as [|x l IH]; [done|]. by rewrite fmap_cons, bind_cons, IH. Qed.
Lemma keep_skip n (l : list vedge) : l ≫= keep true n = cand <$> filter (λ x : vedge, x.1.1 ≠ n) l.
Proof.
  induction l as [|x l IH]; [done|]. rewrite bind_cons, IH. unfold keep. simpl.
  destruct (N.eqb_spec x.1.1 n); [rewrite filter_cons_False by congruence|rewrite filter_cons_True by done]; done.
Qed.

Lemma degree_total n id o : idx (view_ids v) n = Some id → is_Some (DegreeHint v n o).
Proof.
  intros Hn. unfold DegreeHint. destruct (N.leb_spec (NodeCount (v_base v)) n) as [|Hlt]; [done|].
  pose proof (base_row_n _ _ Hn Hlt) as Hl. destruct o.
  - destruct (out_row_Some _ _ HB n Hl) as [r Hr]. destruct (out_row_split v L Ds HR n r Hr) as [-> ->]. done.
  - destruct (in_row_Some _ _ HB n Hl) as [r Hr]. destruct (in_row_split v L Ds HR n r Hr) as [-> ->]. done.
Qed.
Lemma capHint_total step n id from : idx (view_ids v) n = Some id → is_Some (capHint v step n from).
Proof.
  intros Hn. pose proof (λ o, degree_total n id o Hn) as Hd.
  unfold capHint. destruct (st_Direction step); [done..|]. destruct (Hd true) as [a ->], (Hd false) as [b ->]. done.
Qed.

Lemma runs_adjacency step n id from : idx (view_ids v) n = Some id →
  runs J E (adjacency v budget ctx step n from) (λ l, l = cand <$> hops step n from).
Proof.
  intros Hn. unfold adjacency, hops. destruct (capHint_total step n id from Hn) as [c Hc]. eapply runs_bind, runs_lift; [done|]. clear c Hc.
  destruct (bool_decide _).
  - destruct (String.eqb _ _); simpl; (eapply runs_then; [by eapply runs_visitOut|intros ? ->]).
    + apply runs_ret. by rewrite keep_all.
    + eapply runs_mono; [by eapply runs_visitIn|intros ? ->]. by rewrite !keep_skip, filter_app, fmap_app.
  - destruct from; (eapply runs_mono; [by first [eapply runs_visitOut|eapply runs_visitIn]|intros ? ->]); by rewrite keep_all.
Qed.
End walks.

(** ** The edges of the graph *)

Section graph.
Context `{GoStd} `{Cypher}.
Context (v : View) (L : layout) (Ds : list delta) (HR : View_rep v L Ds).
Let HB := vr_base _ _ _ HR.
Let G := view_graph L Ds.

(** An edge of the graph leads from the node at the start of a step to the one
    at its end. *)
Definition joins (step : Step) (a b : N) (k : KindID) (e : N) : Prop :=
  match st_Direction step with
  | DirectionBoth =>
      if String.eqb (FromSym step) (ToSym step) then visible G !! e = Some (a, b, k)
      else a ≠ b ∧ (visible G !! e = Some (a, b, k) ∨ visible G !! e = Some (b, a, k))
  | _ => visible G !! e = Some (a, b, k)
  end.

Lemma hops_spec step n id from t k e : idx (view_ids v) n = Some id → from = true ∨ FromSym step ≠ ToSym step →
  (t, k, e) ∈ hops v L step n from ↔ ∃ tid, idx (view_ids v) t = Some tid ∧ (if from then joins step id tid k e else joins step tid id k e).
Proof.
  intros Hn Hfrom. destruct (walk_list_rep v L Ds HR true n) as [_ Ho]. destruct (walk_list_rep v L Ds HR false n) as [_ Hi]. unfold hops, joins.
  assert (∀ tid : N, idx (view_ids v) t = Some tid → (t ≠ n ↔ id ≠ tid)) as Hne.
  { intros tid Ht. split; intros Hd Heq; apply Hd; [|congruence]. subst tid. by eapply (dense_unique v L Ds HR). }
  assert (∀ out : bool, (∃ id' tid, idx (view_ids v) n = Some id' ∧ idx (view_ids v) t = Some tid ∧
      visible G !! e = Some (if out then (id', tid, k) else (tid, id', k))) ↔
    ∃ tid, idx (view_ids v) t = Some tid ∧ visible G !! e = Some (if out then (id, tid, k) else (tid, id, k))) as Hx.
  { intros out. split; [intros (id' & tid & Hn' & Ht & Hv); rewrite Hn in Hn'; injection Hn' as <-; eauto|intros (tid & Ht & Hv); eauto]. }
  assert ((t, k, e) ∈ walk_list v L true n ↔ ∃ tid, idx (view_ids v) t = Some tid ∧ visible G !! e = Some (id, tid, k)) as Ho' by (rewrite Ho; apply (Hx true)).
  assert ((t, k, e) ∈ walk_list v L false n ↔ ∃ tid, idx (view_ids v) t = Some tid ∧ visible G !! e = Some (tid, id, k)) as Hi' by (rewrite Hi; apply (Hx false)).
  destruct (st_Direction step) eqn:Ed; simpl.
  1, 2: destruct from; [rewrite Ho'|rewrite Hi']; done.
  destruct (String.eqb_spec (FromSym step) (ToSym step)) as [Es|Es].
  - destruct Hfrom as [->|?]; [|done]. by rewrite Ho'.
  - rewrite list_elem_of_filter, elem_of_app, Ho', Hi'. simpl. split.
    + intros [Hd Hv]. assert (∃ tid, idx (view_ids v) t = Some tid ∧ (visible G !! e = Some (id, tid, k) ∨ visible G !! e = Some (tid, id, k))) as (tid & Ht & Hv')
        by (destruct Hv as [(tid & ? & ?)|(tid & ? & ?)]; eauto).
      exists tid. split; [done|]. apply (Hne tid Ht) in Hd. destruct from; (split; [congruence|tauto]).
    + intros (tid & Ht & Hv). split; [apply (Hne tid Ht); destruct from; naive_solver|]. destruct from; destruct Hv as [_ [?|?]]; eauto.
Qed.

Lemma walk_edges_nodup out n id (l : list vedge) : idx (view_ids v) n = Some id → NoDup l → (∀ x, x ∈ l → x ∈ walk_list v L out n) →
  NoDup (snd <$> l).
Proof.
  intros Hn Hnd Hsub. destruct (walk_list_rep v L Ds HR out n) as [_ Hw]. apply NoDup_fmap_2_strong; [|done].
  intros [[t k] e] [[t' k'] e'] (id1 & tid & H1 & Ht & Hv)%Hsub%Hw (id2 & tid' & H2 & Ht' & Hv')%Hsub%Hw He. simpl in He. subst e'.
  assert (id1 = id2) as <- by congruence. rewrite Hv in Hv'. assert (tid = tid' ∧ k = k') as [<- <-] by (destruct out; by injection Hv').
  by rewrite (dense_unique v L Ds HR _ _ _ Ht Ht').
Qed.
Lemma hops_nodup step n id from : idx (view_ids v) n = Some id → NoDup (snd <$> hops v L step n from).
Proof.
  intros Hn. unfold hops. assert (∀ out, NoDup (walk_list v L out n)) as Hwalk by (intros out; by apply (walk_list_rep v L Ds HR out n)).
  destruct (bool_decide _); [|by eapply walk_edges_nodup]. destruct (String.eqb _ _); [by eapply walk_edges_nodup|].
  rewrite filter_app, fmap_app. apply NoDup_app.
  assert (∀ out, NoDup (snd <$> filter (λ x : vedge, x.1.1 ≠ n) (walk_list v L out n))) as Hf.
  { intros out. eapply walk_edges_nodup; [done|by apply NoDup_filter|by intros x [_ ?]%list_elem_of_filter]. }
  split; [apply Hf|]. split; [|apply Hf].
  intros e ([[t k] e1] & -> & [Hd (id1 & tid & H1 & Ht & Hv)%(proj2 (walk_list_rep v L Ds HR true n))]%list_elem_of_filter)%list_elem_of_fmap
    ([[t' k'] e2] & He & [_ (id2 & tid' & H2 & Ht' & Hv')%(proj2 (walk_list_rep v L Ds HR false n))]%list_elem_of_filter)%list_elem_of_fmap.
  simpl in *. subst e2. assert (id1 = id2) as <- by congruence. rewrite Hv in Hv'. injection Hv' as _ <- _. apply Hd. by eapply (dense_unique v L Ds HR).
Qed.

(** *** References to edges *)

Definition edge_ident (e : N) : N := if Overlay v then e else edge_slot v e.
Definition edge_ref (e : N) : EdgeRef := if Overlay v then mkEdgeRef 0 e else mkEdgeRef (edge_slot v e) 0.

Lemma cand_ident x : candidateIdentity v (cand v x) = edge_ident x.2.
Proof. unfold candidateIdentity, cand, edge_ident. by destruct (Overlay v). Qed.
Lemma cand_ref x : edgeRefFor v (cand v x) = edge_ref x.2.
Proof. unfold edgeRefFor, cand, edge_ref. by destruct (Overlay v). Qed.
Lemma ref_ident e : edgeRefIdentity v (edge_ref e) = edge_ident e.
Proof. unfold edgeRefIdentity, edge_ref, edge_ident. by destruct (Overlay v). Qed.

Lemma plain_slot e x : Overlay v = false → visible G !! e = Some x → ∃ o, idx (concat (lo_out L)) (edge_slot v e) = Some o ∧ oe_id o = e.
Proof.
  intros Ho Hv. destruct x as [[a b] k]. apply (visible_iff L Ds) in Hv as (He & _). rewrite (graph_edges L Ds) in He.
  destruct (merged_cases v L Ds HR) as [(_ & Ed & _)|(m & _ & _ & Hov)]; [|congruence]. rewrite Ed in He. simpl in He. rewrite lookup_empty in He.
  apply (base_edge L (vr_edge_ids _ _ _ HR)) in He as (i & j & o & Hin & Hse).
  destruct (slot_facts (v_base v) L HB _ _ _ Hin) as (r & p & a' & b' & _ & _ & _ & Hc & _ & _ & Hse'). rewrite Hse in Hse'. injection Hse' as -> _ _.
  exists o. split; [|done]. unfold edge_slot. by rewrite (EdgeByID_slot _ _ HB (vr_edge_ids _ _ _ HR) _ _ _ Hc eq_refl).
Qed.
Lemma edge_ident_inj e e' x x' : visible G !! e = Some x → visible G !! e' = Some x' → edge_ident e = edge_ident e' → e = e'.
Proof.
  unfold edge_ident. destruct (Overlay v) eqn:Ho; [done|]. intros Hv Hv' Es.
  destruct (plain_slot _ _ Ho Hv) as (o & Hc & <-), (plain_slot _ _ Ho Hv') as (o' & Hc' & <-). rewrite Es in Hc. congruence.
Qed.
(** The reference a row keeps stands for the edge. *)
Lemma edge_ref_id e x : visible G !! e = Some x → EdgeRef_DatabaseID v (edge_ref e) = Some e.
Proof.
  intros Hv. unfold EdgeRef_DatabaseID, edge_ref. destruct (Overlay v) eqn:Ho; simpl; [done|].
  destruct (plain_slot _ _ Ho Hv) as (o & Hc & <-). by rewrite (pk_eids _ _ (rep_packed _ _ HB)), idx_fmap, Hc.
Qed.
End graph.

(** ** Extending rows *)

Section extending.
Context `{GoStd} `{Cypher}.
Context (v : View) (L : layout) (Ds : list delta) (HR : View_rep v L Ds).
Hypothesis Hsize : View_NodeCount v < 2 ^ 31.
Let G := view_graph L Ds.
Context (budget : Budgets) (ctx : Ctx) (E : goerr → Prop).
Hypothesis HE : ∀ e, out_of_budget budget ctx e → E e.
Hypothesis Heval : ∀ e, eval_error v e → E e.
Let J (s : exec_state) := memo_ok v L (x_memo s).

Lemma walk_live out n (x : vedge) : x ∈ walk_list v L out n → ∃ tid y, idx (view_ids v) x.1.1 = Some tid ∧ is_Some (g_nodes G !! tid) ∧
  visible G !! x.2 = Some y.
Proof.
  destruct x as [[t k] e]. intros (id & tid & Hn & Ht & Hv)%(proj2 (walk_list_rep v L Ds HR out n)). simpl.
  exists tid. eexists. split; [done|]. split; [|exact Hv]. destruct out; apply (visible_iff L Ds) in Hv as (_ & ? & ?); done.
Qed.
Lemma hops_live step n from (x : vedge) : x ∈ hops v L step n from → ∃ tid y, idx (view_ids v) x.1.1 = Some tid ∧ is_Some (g_nodes G !! tid) ∧
  visible G !! x.2 = Some y.
Proof.
  unfold hops. destruct (bool_decide _); [|apply walk_live]. destruct (String.eqb _ _); [apply walk_live|].
  intros [_ [Hx|Hx]%elem_of_app]%list_elem_of_filter; by eapply walk_live.
Qed.

Lemma runs_emit_row out nr : runs J E (emit_row budget ctx out nr) (λ o, o = out ++ [nr]).
Proof.
  unfold emit_row. eapply runs_then; [by apply runs_spend|]. intros _ _. eapply runs_then; [by eapply runs_observe|]. intros _ _. by apply runs_ret.
Qed.
Lemma runs_boundNode r sym n : Node r sym = Some n → runs J E (boundNode r sym) (λ m, m = n).
Proof. intros Hn. unfold boundNode. rewrite Hn. by apply runs_ret. Qed.

(** The edge may be taken by a step of a row's pattern. *)
Definition takes (step : Step) (r : Row) (x : vedge) : bool :=
  edgeKindOK (EdgeKinds step) x.1.2 && negb (edgeUsed r (Pattern step) (edge_ident v x.2)) && negb (trailEdgeUsed r (Pattern step) (edge_ident v x.2)).
(** The new node may be bound. *)
Definition accepts (nc : option NodeConstraint) (sym : string) (r : Row) (x : vedge) : bool :=
  default false (nodeSatisfiesConstraint v nc x.1.1) && preds_hold v nc (SetNode r sym x.1.1).
Definition mark (step : Step) (key : string) (r : Row) (x : vedge) : Row :=
  markEdgeUsed (set_edge_if key (edge_ref v x.2) (set_edge_if (EdgeSym step) (edge_ref v x.2) r)) (Pattern step) (edge_ident v x.2).

Definition expanded (step : Step) (boundSym unboundSym : string) (from : bool) (nc : option NodeConstraint) (key : string) (r : Row) : list Row :=
  match Node r boundSym with
  | Some n => (λ x : vedge, mark step key (SetNode r unboundSym x.1.1) x) <$>
                filter (λ x, takes step r x && accepts nc unboundSym r x = true) (hops v L step n from)
  | None => []
  end.

Lemma runs_expandStep rows step boundSym unboundSym from nc key :
  (∀ r, r ∈ rows → ∃ n id, Node r boundSym = Some n ∧ idx (view_ids v) n = Some id) →
  runs J E (expandStep v budget ctx rows step boundSym unboundSym from nc key) (λ out, out = rows ≫= expanded step boundSym unboundSym from nc key).
Proof.
  intros Hrows. unfold expandStep. eapply runs_mono; [apply (runs_collect J E _ (expanded step boundSym unboundSym from nc key))|by intros ? ->].
  intros out r Hr. destruct (Hrows r Hr) as (n & id & Hn & Hid). eapply runs_then; [by apply runs_boundNode|]. intros ? ->.
  eapply runs_then; [by eapply (runs_adjacency v L Ds HR Hsize budget ctx (memo_ok v L) E HE)|]. intros ? ->.
  unfold expanded. rewrite Hn, <- bind_filter. intros s Hs. rewrite go_foldl_fmap. revert s Hs. apply runs_collect.
  intros out' x Hx. destruct (hops_live _ _ _ _ Hx) as (tid & y & Ht & Hlive & _).
  destruct (satisfies_ok v L Ds HR nc _ _ Ht Hlive) as (b & Eb & _). unfold takes, accepts. rewrite !cand_ident, cand_ref. cbn [cand ac_kind ac_other].
  rewrite Eb. simpl. destruct (edgeKindOK _ _); simpl; [|apply runs_ret; by rewrite app_nil_r].
  eapply runs_bind, runs_lift; [done|]. destruct b; simpl; [|rewrite andb_false_r; apply runs_ret; by rewrite app_nil_r].
  destruct (edgeUsed _ _ _); simpl; [apply runs_ret; by rewrite app_nil_r|]. destruct (trailEdgeUsed _ _ _); simpl; [apply runs_ret; by rewrite app_nil_r|].
  eapply runs_then; [by apply runs_predicates|]. intros ? ->. destruct (preds_hold _ _ _); simpl; [|apply runs_ret; by rewrite app_nil_r].
  apply runs_emit_row.
Qed.

Definition closed (step : Step) (r : Row) : list Row :=
  match Node r (FromSym step), Node r (ToSym step) with
  | Some n, Some m => (λ x : vedge, mark step EmptyString r x) <$> filter (λ x, (x.1.1 =? m) && takes step r x = true) (hops v L step n true)
  | _, _ => []
  end.
Lemma runs_verifyClosingStep rows step :
  (∀ r, r ∈ rows → ∃ n id m, Node r (FromSym step) = Some n ∧ idx (view_ids v) n = Some id ∧ Node r (ToSym step) = Some m) →
  runs J E (verifyClosingStep v budget ctx rows step) (λ out, out = rows ≫= closed step).
Proof.
  intros Hrows. unfold verifyClosingStep. eapply runs_mono; [apply (runs_collect J E _ (closed step))|by intros ? ->].
  intros out r Hr. destruct (Hrows r Hr) as (n & id & m & Hn & Hid & Hm). eapply runs_then; [by apply runs_boundNode|]. intros ? ->.
  eapply runs_then; [by apply runs_boundNode|]. intros ? ->.
  eapply runs_then; [by eapply (runs_adjacency v L Ds HR Hsize budget ctx (memo_ok v L) E HE)|]. intros ? ->.
  unfold closed. rewrite Hn, Hm, <- bind_filter. intros s Hs. rewrite go_foldl_fmap. revert s Hs. apply runs_collect.
  intros out' x Hx. unfold takes. rewrite !cand_ident, cand_ref. cbn [cand ac_kind ac_other].
  destruct (_ =? m); simpl; [|apply runs_ret; by rewrite app_nil_r].
  destruct (edgeKindOK _ _); simpl; [|apply runs_ret; by rewrite app_nil_r].
  destruct (edgeUsed _ _ _); simpl; [apply runs_ret; by rewrite app_nil_r|]. destruct (trailEdgeUsed _ _ _); simpl; [apply runs_ret; by rewrite app_nil_r|].
  apply runs_emit_row.
Qed.
End extending.
