(* ===== verification/Trails.v ===== *)
(** * Variable-length steps

    [internal/engine/interpret/expand.go]: a step [-\[*min..max\]->] is answered
    with the trails, paths that take no edge twice, from a bound end, forwards
    ([expandVarLengthTrailsForSeed]) or backwards
    ([expandVarLengthTrailsToSeed]); the set of nodes a trail may go on from
    prunes both.

    The result: each of the two walks finds every trail of an allowed length to
    an admitted node, once. *)

From S2P Require Import Prelude Bitset Csr Snapshot Segment View ViewAdj ViewKinds EdgeKinds PathSink Traverse Enumerate ViewTraverse Rows Scan Hops.
From stdpp Require Import options.
Unset Default Proof Using.
#[local] Open Scope N_scope.
#[local] Open Scope go_scope.

(** ** Definitions *)

(** A loop of a computation with state and errors. *)
Definition go_loop {S B R} (fuel : N) (body : B → go S (B + R)) (b : B) : go S R := λ s,
  loop fuel (λ '(s, b),
    '(s', r) ← body b s;
    Some (match r with inl (inl b') => inl (s', b') | inl (inr x) => inr (s', inl x) | inr e => inr (s', inr e) end)) (s, b).

Record trailFrame := mkTrailFrame { tf_nodes : list NodeID; tf_edges : list EdgeRef }.

Definition reversePathVal (pv : PathVal) : PathVal := mkPathVal (reverse (pv_Nodes pv)) (reverse (pv_Edges pv)).

Section trails.
Context `{GoStd} `{Cypher}.
Context (v : View) (budget : Budgets) (ctx : Ctx) (fuel : N).

Definition containsFwd (edges : list EdgeRef) (c : adjCandidate) : bool :=
  if negb (Overlay v) then existsb (λ e, er_Fwd e =? ac_fwd c) edges else existsb (λ e, er_EdgeID e =? ac_edgeID c) edges.

(** [None] is the nil slice, which stands for every node. *)
Definition trailCanContinue (ids : option (list NodeID)) (n : NodeID) : option bool :=
  match ids with
  | None => Some true
  | Some ids =>
      i ← search (len ids) (λ i, x ← idx ids i; Some (n <=? x));
      if i <? len ids then x ← idx ids i; Some (x =? n) else Some false
  end.

Definition trailContinuationSet (step : Step) (outgoing : bool) : exec (option (list NodeID)) :=
  if len (EdgeKinds step) =? 0 then go_ret None else go_memo (EdgeKindEndpoints v (EdgeKinds step) outgoing).
Definition varLengthWalkSetup (step : Step) (outgoing : bool) : exec (option (list NodeID)) :=
  if SelfLoopHazard v (EdgeKinds step) then go_err ErrUnsupportedStep else trailContinuationSet step outgoing.

(** *** The walk both directions share

    [from] says whether it goes along the step or against it, [root_ids] are
    [contIDs]. The stack is kept with its top first. *)
Section walk.
Context (step : Step) (range : Range) (nc : option NodeConstraint) (farSym key : string) (seed : Row) (from flip : bool).
Context (admitNode : NodeID → exec bool) (rowCap : N) (contIDs : option (list NodeID)).

Definition trail_row (cur : trailFrame) (curNode : NodeID) : Row :=
  let nr := SetNode seed farSym curNode in
  let nr := foldl (λ r e, markTrailEdge r (Pattern step) (edgeRefIdentity v e)) nr (tf_edges cur) in
  if String.eqb key EmptyString then nr
  else
    let pv := mkPathVal (tf_nodes cur) (tf_edges cur) in
    SetPathVar nr key (if flip then reversePathVal pv else pv).

(** One candidate of a popped frame: nothing, or the frame to push. *)
Definition trail_push (cur : trailFrame) (depth : N) (stack : list trailFrame) (c : adjCandidate) : exec (list trailFrame) :=
  if negb (edgeKindOK (EdgeKinds step) (ac_kind c)) then go_ret stack
  else if containsFwd (tf_edges cur) c then go_ret stack
  else if edgeUsed seed (Pattern step) (candidateIdentity v c) then go_ret stack
  else
    let deeper := (Z.of_N depth + 1)%Z in
    let! last := (if (deeper =? rg_Max range)%Z then go_ret true else let! cont := go_lift (trailCanContinue contIDs (ac_other c)) in go_ret (negb cont)) in
    let! drop := (if negb last then go_ret false
                  else if (deeper <? rg_Min range)%Z then go_ret true
                  else let! sat := go_lift (nodeSatisfiesConstraint v nc (ac_other c)) in go_ret (negb sat)) in
    go_ret (if (drop : bool) then stack else mkTrailFrame (tf_nodes cur ++ [ac_other c]) (tf_edges cur ++ [edgeRefFor v c]) :: stack).

Definition trail_round (st : list trailFrame * list Row) : exec ((list trailFrame * list Row) + list Row) :=
  let '(stack, out) := st in
  match stack with
  | [] => go_ret (inr out)
  | cur :: stack =>
      if (0 <? rowCap) && (rowCap <=? len out) then go_ret (inr out)
      else
        let depth := len (tf_edges cur) in
        let! curNode := go_lift (idx (tf_nodes cur) depth) in
        let! emit := (if (1 <=? depth) && (rg_Min range <=? Z.of_N depth)%Z then admitNode curNode else go_ret false) in
        let! out := (if (emit : bool) then emit_row budget ctx out (trail_row cur curNode) else go_ret out) in
        if (Z.of_N depth =? rg_Max range)%Z then go_ret (inl (stack, out))
        else
          let! cands := adjacency v budget ctx step curNode from in
          let! stack := go_foldl (trail_push cur depth) stack cands in
          go_ret (inl (stack, out))
  end.

(** The row of the path of no edges, then the loop. *)
Definition trail_walk (root : NodeID) : exec (list Row) :=
  let! zero := (if (rg_Min range =? 0)%Z then admitNode root else go_ret false) in
  let! out := (if (zero : bool) then
      let nr := SetNode seed farSym root in
      emit_row budget ctx [] (if String.eqb key EmptyString then nr else SetPathVar nr key (mkPathVal [root] []))
    else go_ret []) in
  if (rg_Max range <=? 0)%Z then go_ret out
  else go_loop fuel trail_round ([mkTrailFrame [root] []], out).
End walk.

(** [step.Range] is not nil where these are called. *)
Definition expandVarLengthTrailsForSeed (step : Step) (toNC : option NodeConstraint) (seed : Row) (pathArcKey : string)
    (contIDs : option (list NodeID)) : exec (list Row) :=
  let! root := boundNode seed (FromSym step) in
  let! range := go_lift (st_Range step) in
  trail_walk step range toNC (ToSym step) pathArcKey seed true (Reversed step) (λ n, go_lift (nodeSatisfiesConstraint v toNC n)) 0 contIDs root.

Definition nearAdmits (step : Step) (fromNC : option NodeConstraint) (id : NodeID) : exec bool :=
  let! sat := go_lift (nodeSatisfiesConstraint v fromNC id) in
  if negb sat then go_ret false else predicatesAdmit v (SetNode NewRow (FromSym step) id) fromNC.

Definition expandVarLengthTrailsToSeed (step : Step) (fromNC : option NodeConstraint) (seed : Row) (pathArcKey : string) (rowCap : N)
    (contIDs : option (list NodeID)) : exec (list Row) :=
  if SelfLoopHazard v (EdgeKinds step) then go_err ErrUnsupportedStep
  else
    let! terminal := boundNode seed (ToSym step) in
    let! range := go_lift (st_Range step) in
    trail_walk step range fromNC (FromSym step) pathArcKey seed false (negb (Reversed step)) (nearAdmits step fromNC) rowCap contIDs terminal.

(** *** A part that is one such step *)

Definition expandVarLengthComponentFrom (part : Part) (step : Step) (anchorRows : list Row) : exec (list Row) :=
  if negb (String.eqb (EdgeSym step) EmptyString) || String.eqb (FromSym step) (ToSym step) then go_err ErrUnsupportedStep
  else
    let toNC := Nodes part !! ToSym step in
    if len anchorRows =? 0 then go_ret []
    else
      let! contIDs := varLengthWalkSetup step true in
      go_foldl (λ out seed,
        let! rows := expandVarLengthTrailsForSeed step toNC seed (PathSym step) contIDs in
        let! _ := observeRows budget (len (out ++ rows)) in
        go_ret (out ++ rows)) [] anchorRows.

Definition expandVarLengthComponentForward (part : Part) (step : Step) : exec (list Row) :=
  let! hint := newEdgeHint v step (FromSym step) in
  let! seeds := scanAnchorHinted v budget ctx (FromSym step) (Nodes part !! FromSym step) hint in
  expandVarLengthComponentFrom part step seeds.

Definition endpointNarrows (nc : option NodeConstraint) : bool :=
  match nc with
  | None => false
  | Some c => (0 <? len (nc_IDs c)) || bool_decide (is_Some (ObjectIDAnchor c)) ||
      existsb (λ p, negb (kindOnlyPredicate p || negatedPredicate p)) (Predicates c)
  end.
Definition reverseMinNearSeeds : N := 16.
Definition reverseSeedMargin : N := 4.
Definition varLengthReverseEligible (part : Part) (step : Step) : exec bool :=
  if negb (bool_decide (st_Direction step = DirectionOutbound)) then go_ret false
  else
    let fromNC := Nodes part !! FromSym step in
    let toNC := Nodes part !! ToSym step in
    if endpointNarrows fromNC then go_ret false
    else
      let! hf := newEdgeHint v step (FromSym step) in
      let! near := go_lift (rankOfHinted v fromNC hf) in
      let! ht := newEdgeHint v step (ToSym step) in
      let! far := go_lift (rankOfHinted v toNC ht) in
      let nearN := candidateEstimate v near in
      let farN := candidateEstimate v far in
      go_ret (if nearN <? reverseMinNearSeeds then false else reverseSeedMargin <=? nearN / (if farN <? 1 then 1 else farN)).

Definition resolveEndpointSet (sym : string) (nc : option NodeConstraint) : exec (list NodeID) :=
  let! rows := scanAnchor v budget ctx sym nc in
  go_ret (go_sort (less_key (λ i : NodeID, i)) ((λ r, default 0 (Node r sym)) <$> rows)).

(** [limit] is the meter's [limitTarget], when it is set and [noResidualWhere]
    holds, a test on the shape of the part's [WHERE]. *)
Definition reverseTrailRowCap (limit : option Z) : N :=
  match limit with Some l => if (l <=? 0)%Z then 0 else Z.to_N l | None => 0 end.

Definition expandVarLengthComponentReverse (limit : option Z) (part : Part) (step : Step) : exec (list Row) :=
  let fromNC := Nodes part !! FromSym step in
  let! seedIDs := resolveEndpointSet (ToSym step) (Nodes part !! ToSym step) in
  let cap := reverseTrailRowCap limit in
  let! contIDs := trailContinuationSet step false in
  let! r := go_until (λ out id,
    if (0 <? cap) && (cap <=? len out) then go_ret (out, false)
    else
      let remaining := if 0 <? cap then cap - len out else 0 in
      let seed := SetNode NewRow (ToSym step) id in
      let! rows := expandVarLengthTrailsToSeed step fromNC seed (PathSym step) remaining contIDs in
      let! _ := observeRows budget (len (out ++ rows)) in
      go_ret (out ++ rows, true)) [] seedIDs in
  go_ret r.1.

Definition expandVarLengthComponent (limit : option Z) (part : Part) (step : Step) : exec (list Row) :=
  if negb (String.eqb (EdgeSym step) EmptyString) || String.eqb (FromSym step) (ToSym step) then go_err ErrUnsupportedStep
  else
    let! rev := varLengthReverseEligible part step in
    if rev then expandVarLengthComponentReverse limit part step else expandVarLengthComponentForward part step.
End trails.

(** ** Loops *)

(** A loop whose state gets smaller in every round. *)
Lemma runs_loop {S B R} (I : S → Prop) E (body : B → go S (B + R)) (Inv : B → Prop) (μ : B → N) (P : R → Prop) fuel b :
  (∀ b, Inv b → runs I E (body b) (λ r, match r with inl b' => Inv b' ∧ μ b' < μ b | inr x => P x end)) →
  Inv b → μ b < fuel → runs I E (go_loop fuel body b) P.
Proof.
  intros Hbody Hinv Hf s Hs. unfold go_loop. set (step := λ '(s, b), _).
  assert (∀ n b s, μ b < N.of_nat n → Inv b → I s → ∃ k s1 x, (k < n)%nat ∧ Enumerate.runs step k (s, b) s1 ∧ step s1 = Some (inr x) ∧
    I x.1 ∧ match x.2 with inl x => P x | inr e => E e end) as Hgo.
  { clear b s fuel Hinv Hf Hs. induction n as [|n IH]; intros b s Hn Hinv Hs; [lia|].
    destruct (Hbody b Hinv s Hs) as (s' & r & Er & Hs' & Hr). destruct r as [[b'|x]|err].
    - destruct Hr as [Hinv' Hlt]. destruct (IH b' s' ltac:(lia) Hinv' Hs') as (k & s1 & x & Hk & Hruns & Hend & Hx).
      exists (Datatypes.S k), s1, x. split; [lia|]. split; [econstructor; [|exact Hruns]; simpl; by rewrite Er|done].
    - exists 0%nat, (s, b), (s', inl x). split; [lia|]. split; [constructor|]. split; [simpl; by rewrite Er|done].
    - exists 0%nat, (s, b), (s', inr err). split; [lia|]. split; [constructor|]. split; [simpl; by rewrite Er|done]. }
  destruct (Hgo (N.to_nat (μ b + 1)) b s ltac:(lia) Hinv Hs) as (k & s1 & [s' r] & Hk & Hruns & Hend & Hx).
  exists s', r. split; [|exact Hx]. eapply loop_runs; [exact Hruns|exact Hend|lia].
Qed.

(** ** Trails *)

(** Nodes and the edges between them, one after the other. *)
Fixpoint links {A B} (R : A → B → A → Prop) (ns : list A) (es : list B) : Prop :=
  match ns, es with
  | [_], [] => True
  | n :: (m :: _) as ns', e :: es' => R n e m ∧ links R ns' es'
  | _, _ => False
  end.

Lemma links_snoc {A B} (R : A → B → A → Prop) n ns e es m : links R (n :: ns ++ [m]) (es ++ [e]) ↔ links R (n :: ns) es ∧ R (default n (last ns)) e m.
Proof.
  revert n es. induction ns as [|n' ns IH]; intros n es.
  - destruct es as [|e' [|e'' es]]; simpl; naive_solver.
  - destruct es as [|e' es]; cbn -[last].
    + split; [|naive_solver]. intros [_ Hl]. by destruct ns.
    + rewrite (IH n' es). rewrite last_cons. destruct (last ns); simpl; tauto.
Qed.
Lemma links_reverse {A B} (R : A → B → A → Prop) ns es : links R ns es ↔ links (λ n e m, R m e n) (reverse ns) (reverse es).
Proof.
  destruct ns as [|n ns]; [by destruct es|]. revert n ns. induction es as [|e es IH]; intros n ns.
  - destruct ns as [|m ns]; [done|]. split; [done|]. rewrite !reverse_cons. destruct (reverse ns) as [|? [|]]; done.
  - destruct ns as [|m ns].
    + split; [done|]. rewrite (reverse_cons es e). by destruct (reverse es).
    + change (R n e m ∧ links R (m :: ns) es ↔ links (λ n e m, R m e n) (reverse (n :: m :: ns)) (reverse (e :: es))).
      rewrite IH, (reverse_cons (m :: ns) n), (reverse_cons es e).
      destruct (reverse (m :: ns)) as [|r rs] eqn:Er; [by apply (f_equal length) in Er; rewrite length_reverse in Er|].
      change ((r :: rs) ++ [n]) with (r :: rs ++ [n]). rewrite links_snoc.
      assert (default r (last rs) = m) as ->; [|tauto].
      assert (last (r :: rs) = Some m) as Hl by (by rewrite <- Er, last_reverse). rewrite last_cons in Hl. destruct (last rs); simpl in *; congruence.
Qed.
Lemma links_impl {A B} (R R' : A → B → A → Prop) ns es : (∀ n e m, R n e m → R' n e m) → links R ns es → links R' ns es.
Proof.
  intros HR. revert es. induction ns as [|n [|m ns] IH]; intros [|e es]; simpl; try done. intros [? ?]. split; [auto|]. by apply IH.
Qed.

(** ** The walk *)

Lemma edgeKindOK_spec want k : edgeKindOK want k = true ↔ want = [] ∨ k ∈ want.
Proof.
  unfold edgeKindOK. rewrite orb_true_iff, existsb_exists. destruct want as [|w want]; [split; auto|]. rewrite len_cons. split.
  - intros [?%N.eqb_eq|(k' & Hin & ->%Z.eqb_eq)]; [lia|]. right. by apply list_elem_of_In.
  - intros [?|Hin]; [done|]. right. exists k. split; [by apply list_elem_of_In|apply Z.eqb_refl].
Qed.

Section search.
Context `{GoStd} `{Cypher}.
Context (v : View) (L : layout) (Ds : list delta) (HR : View_rep v L Ds).
Hypothesis Hsize : View_NodeCount v < 2 ^ 31.
Let G := view_graph L Ds.
Context (budget : Budgets) (ctx : Ctx) (fuel : N) (E : goerr → Prop).
Hypothesis HE : ∀ e, out_of_budget budget ctx e → E e.
Hypothesis Heval : ∀ e, eval_error v e → E e.
Let J (s : exec_state) := memo_ok v L (x_memo s).

Definition live_node (n : NodeID) : Prop := ∃ id, idx (view_ids v) n = Some id ∧ is_Some (g_nodes G !! id).
Definition edge_total : N := N.of_nat (size (visible G)).

Lemma hops_total step n from : live_node n → len (hops v L step n from) ≤ edge_total.
Proof.
  intros (id & Hid & _). unfold edge_total, len. rewrite <- (length_fmap snd), <- size_dom. enough (length (snd <$> hops v L step n from) ≤ size (dom (visible G)))%nat by lia.
  rewrite <- (size_list_to_set (C := gset N)) by (by eapply (hops_nodup v L Ds HR)). apply subseteq_size.
  intros e (x & -> & Hx)%elem_of_list_to_set%list_elem_of_fmap. destruct (hops_live v L Ds HR _ _ _ _ Hx) as (? & y & _ & _ & Hv).
  by apply elem_of_dom.
Qed.

(** What the set a walk may go on from has to be. *)
Definition may_continue (step : Step) (from : bool) (ids : option (list NodeID)) : Prop := ∀ n, live_node n →
  ∃ b, trailCanContinue ids n = Some b ∧ (b = false → ∀ x : vedge, x ∈ hops v L step n from → edgeKindOK (EdgeKinds step) x.1.2 = false).

Section trail_search.
Context (step : Step) (range : Range) (nc : option NodeConstraint) (far key : string) (seed : Row) (from flip : bool).
Context (admitNode : NodeID → exec bool) (admits : NodeID → bool) (rowCap : N) (contIDs : option (list NodeID)) (root : NodeID).
Hypothesis Hrange : (0 ≤ rg_Min range)%Z ∧ (1 ≤ rg_Max range)%Z.
Hypothesis Hadmit : ∀ n, live_node n → runs J E (admitNode n) (λ b, b = admits n).
Hypothesis Hadmits : ∀ n, admits n = true → nodeSatisfiesConstraint v nc n = Some true.
Hypothesis Hcont : may_continue step from contIDs.
Hypothesis Hroot : live_node root.

Definition tip (es : list vedge) : NodeID := default root ((λ x : vedge, x.1.1) <$> last es).
Definition tframe (es : list vedge) : trailFrame := mkTrailFrame (root :: ((λ x : vedge, x.1.1) <$> es)) ((λ x : vedge, edge_ref v x.2) <$> es).
Definition fits (es : list vedge) (x : vedge) : bool :=
  edgeKindOK (EdgeKinds step) x.1.2 && negb (existsb (λ y : vedge, y.2 =? x.2) es) && negb (edgeUsed seed (Pattern step) (edge_ident v x.2)).
Definition in_range (n : N) : bool := (rg_Min range <=? Z.of_N n)%Z && (Z.of_N n <=? rg_Max range)%Z.
Definition emits (es : list vedge) : bool := (1 <=? len es) && (rg_Min range <=? Z.of_N (len es))%Z && admits (tip es).

(** The trails from [es] on, in the order they are found. *)
Fixpoint subtree (k : nat) (es : list vedge) : list (list vedge) :=
  (if emits es then [es] else []) ++
  match k with
  | O => []
  | S k' => reverse (filter (λ x, fits es x = true) (hops v L step (tip es) from)) ≫= (λ x, subtree k' (es ++ [x]))
  end.
Definition room (es : list vedge) : nat := Z.to_nat (rg_Max range - Z.of_N (len es)).
Definition row_of (es : list vedge) : Row := trail_row v step far key seed flip (tframe es) (tip es).

Definition good_trail (es : list vedge) : Prop := live_node (tip es) ∧ (Z.of_N (len es) ≤ rg_Max range)%Z ∧ ∀ x, x ∈ es → is_Some (visible G !! x.2).

Lemma tip_snoc es x : tip (es ++ [x]) = x.1.1.
Proof. unfold tip. by rewrite last_snoc. Qed.
Lemma tframe_tip es : idx (tf_nodes (tframe es)) (len (tf_edges (tframe es))) = Some (tip es).
Proof.
  unfold tframe, tip. cbn [tf_nodes tf_edges]. rewrite len_fmap. unfold idx, len. rewrite Nat2N.id.
  destruct es as [|x es _] using rev_ind; [done|]. rewrite last_snoc, length_app, fmap_app. cbn [length]. rewrite Nat.add_1_r.
  change ((((λ x : vedge, x.1.1) <$> es) ++ [x.1.1]) !! length es = Some x.1.1).
  rewrite lookup_app_r by (by rewrite length_fmap). by rewrite length_fmap, Nat.sub_diag.
Qed.
Lemma good_snoc es x : good_trail es → x ∈ hops v L step (tip es) from → (Z.of_N (len es) < rg_Max range)%Z → good_trail (es ++ [x]).
Proof.
  intros (Hl & Hm & Hv) Hx Hlt. unfold good_trail. rewrite tip_snoc, len_app, len_cons, len_nil.
  destruct (hops_live v L Ds HR _ _ _ _ Hx) as (tid & y & Ht & Hlive & Hy). split; [by exists tid|]. split; [lia|].
  intros x' [?| ->%list_elem_of_singleton]%elem_of_app; [by apply Hv|by exists y].
Qed.
Lemma contains_edges es x : good_trail es → is_Some (visible G !! x.2) →
  containsFwd v ((λ x : vedge, edge_ref v x.2) <$> es) (cand v x) = existsb (λ y : vedge, y.2 =? x.2) es.
Proof.
  intros (_ & _ & Hv) [y Hy]. assert (∀ y, y ∈ es → ∃ z, visible G !! y.2 = Some z) as Hes by exact Hv. clear Hv. unfold containsFwd, cand, edge_ref.
  pose proof (edge_ident_inj v L Ds HR) as Hinj. unfold edge_ident in Hinj. destruct (Overlay v); simpl.
  - induction es as [|z es IH]; [done|]. cbn. rewrite IH by (intros; apply Hes; by right). done.
  - induction es as [|z es IH]; [done|]. cbn. rewrite IH by (intros; apply Hes; by right). f_equal.
    destruct (Hes z ltac:(by left)) as [z' Hz]. apply eq_true_iff_eq. rewrite !N.eqb_eq. split; [by eapply Hinj|by intros ->].
Qed.

(** A frame that is not pushed has no trail to give. *)
Definition pushed (es : list vedge) (x : vedge) : bool := fits es x &&
  negb (let deeper := (Z.of_N (len es) + 1)%Z in
    ((deeper =? rg_Max range)%Z || negb (default true (trailCanContinue contIDs x.1.1))) &&
    ((deeper <? rg_Min range)%Z || negb (default false (nodeSatisfiesConstraint v nc x.1.1)))).
Lemma subtree_dropped k es x : live_node x.1.1 → k = room (es ++ [x]) → (Z.of_N (len es) < rg_Max range)%Z → fits es x = true →
  pushed es x = false → subtree k (es ++ [x]) = [].
Proof.
  intros Hlive -> Hlt Hfits. unfold pushed. rewrite Hfits. simpl. intros Hp%negb_false_iff. apply andb_true_iff in Hp as [Hlast Hdrop].
  assert (emits (es ++ [x]) = false) as He.
  { unfold emits. rewrite tip_snoc, len_app, len_cons, len_nil. apply not_true_iff_false. rewrite !andb_true_iff. intros [[_ Hmin%Z.leb_le] Ha].
    apply orb_true_iff in Hdrop as [?%Z.ltb_lt|Hs]; [lia|]. by rewrite (Hadmits _ Ha) in Hs. }
  destruct (room (es ++ [x])) as [|k'] eqn:Ek; cbn [subtree]; rewrite He; [done|]. cbn [app].
  apply orb_true_iff in Hlast as [Hmax%Z.eqb_eq|Hc]; [unfold room in Ek; rewrite len_app, len_cons, len_nil in Ek; lia|].
  destruct (Hcont _ Hlive) as (b & Eb & Hb). rewrite Eb in Hc. simpl in Hc. destruct b; [done|].
  rewrite tip_snoc. assert (filter (λ y, fits (es ++ [x]) y = true) (hops v L step x.1.1 from) = []) as ->; [|done].
  assert (∀ y, y ∈ hops v L step x.1.1 from → fits (es ++ [x]) y = false) as Hno by (intros y Hy; unfold fits; by rewrite (Hb eq_refl y Hy)).
  revert Hno. generalize (hops v L step x.1.1 from). intros l. induction l as [|y l IH]; intros Hno; [done|].
  rewrite filter_cons_False by (rewrite Hno by (by left); done). apply IH. intros; apply Hno; by right.
Qed.
Lemma subtree_pushed k es : good_trail es → room es = S k →
  reverse (filter (λ x, fits es x = true) (hops v L step (tip es) from)) ≫= (λ x, subtree k (es ++ [x])) =
  reverse (filter (λ x, pushed es x = true) (hops v L step (tip es) from)) ≫= (λ x, subtree k (es ++ [x])).
Proof.
  intros Hg Hk. assert (Z.of_N (len es) < rg_Max range)%Z as Hlt by (unfold room in Hk; lia).
  assert (∀ x, x ∈ hops v L step (tip es) from → fits es x = true → pushed es x = false → subtree k (es ++ [x]) = []) as Hd.
  { intros x Hx. destruct (good_snoc es x Hg Hx Hlt) as (Hl & _ & _). rewrite tip_snoc in Hl. apply subtree_dropped; [done| |done].
    unfold room in *. rewrite len_app, len_cons, len_nil. lia. }
  revert Hd. generalize (hops v L step (tip es) from). intros l. induction l as [|x l IH]; intros Hd; [done|].
  rewrite !filter_cons. assert (pushed es x = true → fits es x = true) as Hpf by (unfold pushed; by intros [? _]%andb_true_iff).
  specialize (IH (λ y Hy, Hd y (list_elem_of_further _ _ _ Hy))).
  destruct (fits es x) eqn:Ef, (pushed es x) eqn:Ep; repeat case_decide; try done; rewrite ?reverse_cons, ?bind_app, ?IH; try done; try (by specialize (Hpf eq_refl)).
  rewrite bind_cons, (Hd x ltac:(by left) Ef Ep). cbn [app mbind list_bind]. by rewrite app_nil_r.
Qed.

(** *** The loop *)

Lemma cont_total n : live_node n → trailCanContinue contIDs n = Some (default true (trailCanContinue contIDs n)).
Proof. intros Hn. by destruct (Hcont n Hn) as (b & -> & _). Qed.
Lemma runs_push es x stk : good_trail es → x ∈ hops v L step (tip es) from → (Z.of_N (len es) < rg_Max range)%Z →
  runs J E (trail_push v step range nc seed contIDs (tframe es) (len es) stk (cand v x))
    (λ stk', stk' = (if pushed es x then [tframe (es ++ [x])] else []) ++ stk).
Proof.
  intros Hg Hx Hlt. pose proof (good_snoc es x Hg Hx Hlt) as (Hl & _ & Hv). rewrite tip_snoc in Hl.
  assert (is_Some (visible G !! x.2)) as Hvx by (apply Hv, elem_of_app; right; by left).
  unfold trail_push, pushed, fits. rewrite cand_ident. cbn [tframe tf_edges tf_nodes]. rewrite contains_edges by done. cbn [cand ac_kind ac_other].
  destruct (edgeKindOK _ _); simpl; [|by apply runs_ret]. destruct (existsb _ es); simpl; [by apply runs_ret|]. destruct (edgeUsed _ _ _); simpl; [by apply runs_ret|].
  assert (tframe (es ++ [x]) = mkTrailFrame ((root :: ((λ x : vedge, x.1.1) <$> es)) ++ [x.1.1]) (((λ x : vedge, edge_ref v x.2) <$> es) ++ [edgeRefFor v (cand v x)])) as Hframe.
  { rewrite cand_ref. unfold tframe. by rewrite !fmap_app. }
  eapply runs_then with (Q := λ b, b = (Z.of_N (len es) + 1 =? rg_Max range)%Z || negb (default true (trailCanContinue contIDs x.1.1))).
  { destruct (_ =? rg_Max range)%Z; [by apply runs_ret|]. eapply runs_bind, runs_lift; [by apply cont_total|]. by apply runs_ret. }
  intros ? ->. destruct (_ || _); simpl.
  - destruct (_ <? rg_Min range)%Z; simpl.
    + eapply runs_then with (Q := λ d, d = true); [by apply runs_ret|]. intros ? ->. by apply runs_ret.
    + destruct Hl as (id & Hid & Hlive). destruct (satisfies_ok v L Ds HR nc _ _ Hid Hlive) as (b & Eb & _). rewrite Eb.
      eapply runs_then with (Q := λ d, d = negb b); [eapply runs_bind, runs_lift; [done|]; by apply runs_ret|]. intros ? ->. apply runs_ret.
      destruct b; simpl; [|done]. by rewrite Hframe.
  - eapply runs_then with (Q := λ d, d = false); [by apply runs_ret|]. intros ? ->. apply runs_ret. by rewrite Hframe.
Qed.
Lemma runs_pushes es stk : good_trail es → (Z.of_N (len es) < rg_Max range)%Z →
  runs J E (go_foldl (trail_push v step range nc seed contIDs (tframe es) (len es)) stk (cand v <$> hops v L step (tip es) from))
    (λ stk', stk' = (tframe <$> ((λ x, es ++ [x]) <$> reverse (filter (λ x, pushed es x = true) (hops v L step (tip es) from)))) ++ stk).
Proof.
  intros Hg Hlt s Hs. rewrite go_foldl_fmap. revert s Hs.
  apply (runs_foldl J E _ (λ done stk', stk' = (tframe <$> ((λ x, es ++ [x]) <$> reverse (filter (λ x, pushed es x = true) done))) ++ stk)); [|done].
  intros done x stk' -> Hx. eapply runs_mono; [by apply runs_push|]. intros ? ->.
  rewrite filter_app, filter_cons, filter_nil. destruct (pushed es x); case_decide; try done.
  - rewrite reverse_app, reverse_singleton. done.
  - by rewrite app_nil_r.
Qed.

(** What the frames of a stack are still to give. *)
Definition pending (ess : list (list vedge)) : list Row := ess ≫= (λ es, row_of <$> subtree (room es) es).
Definition capped (rows : list Row) : list Row := if rowCap =? 0 then rows else take (N.to_nat rowCap) rows.
Definition stack_cost (ess : list (list vedge)) : N := foldr (λ es n, (1 + edge_total) ^ N.of_nat (room es) + n) 0 ess.

Lemma stack_cost_app l k : stack_cost (l ++ k) = stack_cost l + stack_cost k.
Proof. unfold stack_cost. induction l as [|es l IH]; [done|]. simpl. rewrite IH. lia. Qed.
Lemma stack_cost_cons es l : stack_cost (es :: l) = (1 + edge_total) ^ N.of_nat (room es) + stack_cost l.
Proof. done. Qed.
Lemma stack_cost_children es (l : list vedge) k : room es = S k → (Z.of_N (len es) < rg_Max range)%Z → len l ≤ edge_total →
  stack_cost ((λ x, es ++ [x]) <$> l) < (1 + edge_total) ^ N.of_nat (room es).
Proof.
  intros Hk Hlt Hl. assert (∀ x : vedge, room (es ++ [x]) = k) as Hr by (intros x; unfold room in *; rewrite len_app, len_cons, len_nil; lia).
  assert (stack_cost ((λ x, es ++ [x]) <$> l) = len l * (1 + edge_total) ^ N.of_nat k) as ->.
  { clear Hl. induction l as [|x l IH]; [done|]. rewrite fmap_cons, stack_cost_cons, IH, Hr, len_cons. lia. }
  rewrite Hk, Nat2N.inj_succ, N.pow_succ_r'. pose proof (N.pow_nonzero (1 + edge_total) (N.of_nat k)). nia.
Qed.
Lemma pending_app l k : pending (l ++ k) = pending l ++ pending k.
Proof. apply bind_app. Qed.

(** One round: the popped trail's row is added, its children are pushed. *)
Definition walking (total : list Row) (st : list trailFrame * list Row) : Prop := ∃ ess, st.1 = tframe <$> ess ∧ Forall good_trail ess ∧
  st.2 ++ pending ess = total ∧ (rowCap = 0 ∨ len st.2 ≤ rowCap).
Definition st_cost (st : list trailFrame * list Row) : N :=
  foldr (λ f n, (1 + edge_total) ^ Z.to_N (rg_Max range - Z.of_N (len (tf_edges f))) + n) 0 st.1.
Lemma st_cost_frames ess out : st_cost (tframe <$> ess, out) = stack_cost ess.
Proof.
  unfold st_cost, stack_cost. simpl. induction ess as [|es ess IH]; [done|]. rewrite fmap_cons. simpl. rewrite IH. f_equal.
  unfold room. rewrite len_fmap. by rewrite Z_nat_N.
Qed.
Lemma capped_done (total : list Row) out rest : out ++ rest = total → rowCap = 0 ∨ len out ≤ rowCap → rest = [] ∨ (rowCap ≠ 0 ∧ rowCap ≤ len out) → out = capped total.
Proof.
  intros <- Hc Hr. unfold capped, len in *. destruct (N.eqb_spec rowCap 0) as [->|Hne].
  - destruct Hr as [->|[? _]]; [by rewrite app_nil_r|done].
  - destruct Hc as [?|Hc]; [done|]. destruct Hr as [->|[_ Hr]]; [rewrite app_nil_r, take_ge; [done|lia]|].
    rewrite take_app_le by lia. rewrite take_ge; [done|lia].
Qed.

Lemma runs_round total st : walking total st →
  runs J E (trail_round v budget ctx step range nc far key seed from flip admitNode rowCap contIDs st)
    (λ r, match r with inl st' => walking total st' ∧ st_cost st' < st_cost st | inr out => out = capped total end).
Proof.
  destruct st as [stack out]. intros (ess & Hst & Hgood & Htot & Hcap). simpl in *. subst stack.
  destruct ess as [|es ess]; [apply runs_ret; by eapply capped_done; [done..|left]|].
  rewrite (st_cost_frames (es :: ess)), fmap_cons, stack_cost_cons. apply Forall_cons in Hgood as [Hg Hgood]. cbn [trail_round].
  destruct ((0 <? rowCap) && (rowCap <=? len out)) eqn:Ec.
  { apply andb_true_iff in Ec as [?%N.ltb_lt ?%N.leb_le]. apply runs_ret. eapply capped_done; [done..|right; lia]. }
  apply andb_false_iff in Ec. assert (rowCap = 0 ∨ len out < rowCap) as Hroom by (destruct Ec as [?%N.ltb_ge|?%N.leb_gt]; lia). clear Ec.
  eapply runs_bind, runs_lift; [apply tframe_tip|]. pose proof Hg as (Hl & Hmax & _).
  assert (len (tf_edges (tframe es)) = len es) as -> by apply len_fmap.
  eapply runs_then with (Q := λ b, b = emits es).
  { unfold emits. destruct (_ && _); [by apply Hadmit|by apply runs_ret]. }
  intros ? ->. eapply runs_then with (Q := λ o, o = out ++ (if emits es then [row_of es] else [])).
  { destruct (emits es); [by apply runs_emit_row|apply runs_ret; by rewrite app_nil_r]. }
  intros ? ->.
  assert (pending (es :: ess) = (if emits es then [row_of es] else []) ++
    match room es with O => [] | S k => pending ((λ x, es ++ [x]) <$> reverse (filter (λ x, pushed es x = true) (hops v L step (tip es) from))) end ++ pending ess) as Hp.
  { change (pending (es :: ess)) with ((row_of <$> subtree (room es) es) ++ pending ess). rewrite (assoc_L (++)). f_equal.
    destruct (room es) as [|k] eqn:Ek; cbn [subtree].
    - rewrite !app_nil_r. by destruct (emits es).
    - rewrite subtree_pushed, fmap_app by done. f_equal; [by destruct (emits es)|].
      rewrite fmap_bind. unfold pending. rewrite (bind_fmap_comp (λ x, es ++ [x])). apply bind_ext. intros x _. simpl.
      f_equal. f_equal. unfold room in *. rewrite len_app, len_cons, len_nil. lia. }
  rewrite Hp in Htot. destruct (Z.eqb_spec (Z.of_N (len es)) (rg_Max range)) as [Heq|Hne].
  - apply runs_ret. assert (room es = O) as Hr by (unfold room; lia). rewrite Hr in *. cbn [app] in Htot. split.
    + exists ess. split; [done|]. split; [done|]. split; [simpl; by rewrite <- (assoc_L (++))|]. simpl. rewrite len_app.
      unfold len in *. destruct (emits es); simpl; lia.
    + rewrite st_cost_frames. change ((1 + edge_total) ^ N.of_nat 0) with 1. lia.
  - assert (Z.of_N (len es) < rg_Max range)%Z as Hlt by lia. destruct Hl as (id & Hid & Hlive).
    eapply runs_then; [by eapply (runs_adjacency v L Ds HR Hsize budget ctx (memo_ok v L) E HE)|]. intros ? ->.
    eapply runs_then; [by apply runs_pushes|]. intros ? ->. apply runs_ret. rewrite <- fmap_app.
    destruct (room es) as [|k] eqn:Ek; [unfold room in Ek; lia|]. split.
    + eexists. split; [done|]. split.
      * apply Forall_app. split; [|done]. apply Forall_forall. intros ? (x & -> & [_ Hx]%elem_of_reverse%list_elem_of_filter)%list_elem_of_fmap.
        by apply good_snoc.
      * split; [simpl; by rewrite pending_app, <- (assoc_L (++))|]. simpl. rewrite len_app. unfold len in *. destruct (emits es); simpl; lia.
    + rewrite st_cost_frames, stack_cost_app.
      epose proof (stack_cost_children es (reverse (filter (λ x, pushed es x = true) (hops v L step (tip es) from))) k Ek Hlt _) as Hc.
      rewrite Ek in Hc. lia. Unshelve. pose proof (hops_total step (tip es) from ltac:(by exists id)) as Ht. unfold len in *. rewrite length_reverse.
      pose proof (length_filter (λ x, pushed es x = true) (hops v L step (tip es) from)). lia.
Qed.

(** *** The trails found *)

Definition zero_trail : list (list vedge) := if (rg_Min range =? 0)%Z && admits root then [[]] else [].
Definition found : list (list vedge) := zero_trail ++ subtree (room []) [].

Lemma runs_walk : (1 + edge_total) ^ Z.to_N (rg_Max range) < fuel →
  runs J E (trail_walk v budget ctx fuel step range nc far key seed from flip admitNode rowCap contIDs root) (λ out, out = capped (row_of <$> found)).
Proof.
  intros Hfuel. unfold trail_walk. eapply runs_then with (Q := λ b, b = (rg_Min range =? 0)%Z && admits root).
  { destruct (_ =? 0)%Z; [by apply Hadmit|by apply runs_ret]. }
  intros ? ->. eapply runs_then with (Q := λ o, o = row_of <$> zero_trail).
  { unfold zero_trail. destruct (_ && _); [|by apply runs_ret]. eapply runs_mono; [by apply runs_emit_row|]. intros ? ->. simpl.
    unfold row_of, trail_row, tip. simpl. destruct (String.eqb key EmptyString); [done|]. by destruct flip. }
  intros ? ->. destruct (Z.leb_spec (rg_Max range) 0); [lia|].
  apply (runs_loop J E _ (walking (row_of <$> found)) st_cost); [apply runs_round| |].
  - exists [[]]. split; [done|]. split; [apply Forall_singleton; split; [done|]; rewrite len_nil; split; [lia|by intros ? ?%not_elem_of_nil]|].
    split; [|unfold zero_trail; destruct (_ && _); unfold len; simpl; lia].
    unfold found, pending. rewrite fmap_app. simpl. by rewrite app_nil_r.
  - rewrite (st_cost_frames [[]]), stack_cost_cons. unfold stack_cost. simpl. unfold room. rewrite len_nil, Z.sub_0_r, Z_nat_N. lia.
Qed.

(** [xs] goes on from the trail [es]. *)
Fixpoint extends (es xs : list vedge) : Prop :=
  match xs with
  | [] => True
  | x :: xs' => x ∈ hops v L step (tip es) from ∧ fits es x = true ∧ extends (es ++ [x]) xs'
  end.
Lemma elem_subtree k es es' : es' ∈ subtree k es ↔ ∃ xs, es' = es ++ xs ∧ (length xs ≤ k)%nat ∧ extends es xs ∧ emits es' = true.
Proof.
  revert es. induction k as [|k IH]; intros es; cbn [subtree]; rewrite elem_of_app.
  - split.
    + intros [He|[]%not_elem_of_nil]. destruct (emits es) eqn:Ee; [|by apply not_elem_of_nil in He]. apply list_elem_of_singleton in He as ->.
      exists []. by rewrite app_nil_r.
    + intros ([|x xs] & -> & Hl & _ & He); [|simpl in Hl; lia]. rewrite app_nil_r in *. rewrite He. left. by left.
  - rewrite list_elem_of_bind. split.
    + intros [He|(x & Hin & [Hf Hx]%elem_of_reverse%list_elem_of_filter)].
      * destruct (emits es) eqn:Ee; [|by apply not_elem_of_nil in He]. apply list_elem_of_singleton in He as ->.
        exists []. rewrite app_nil_r. split; [done|]. split; [simpl; lia|done].
      * apply IH in Hin as (xs & -> & Hl & Hext & He). exists (x :: xs). rewrite <- (assoc_L (++)) in *. split; [done|]. split; [simpl; lia|done].
    + intros ([|x xs] & -> & Hl & Hext & He).
      * rewrite app_nil_r in *. rewrite He. left. by left.
      * destruct Hext as (Hx & Hf & Hext). right. exists x. split; [apply IH; exists xs; rewrite <- (assoc_L (++)); split; [done|]; split; [simpl in Hl; lia|done]|].
        apply elem_of_reverse, list_elem_of_filter. done.
Qed.

Lemma hops_once n : live_node n → NoDup (hops v L step n from).
Proof. intros (id & Hid & _). eapply NoDup_fmap_1, (hops_nodup v L Ds HR); exact Hid. Qed.
Lemma subtree_nodup k es : good_trail es → k = room es → NoDup (subtree k es).
Proof.
  revert es. induction k as [|k IH]; intros es Hg Hk; cbn [subtree].
  { rewrite app_nil_r. destruct (emits es); [apply NoDup_singleton|constructor]. }
  assert (Z.of_N (len es) < rg_Max range)%Z as Hlt by (unfold room in Hk; lia).
  apply NoDup_app. split; [destruct (emits es); [apply NoDup_singleton|constructor]|]. split.
  - intros es' He (x & Hin & _)%list_elem_of_bind. destruct (emits es); [|by apply not_elem_of_nil in He]. apply list_elem_of_singleton in He as ->.
    apply elem_subtree in Hin as (xs & He & _). apply (f_equal length) in He. rewrite !length_app in He. simpl in He. lia.
  - apply NoDup_bind.
    + intros x y es' _ _ (xs & -> & _)%elem_subtree (ys & He & _)%elem_subtree. rewrite <- !(assoc_L (++)) in He. by apply app_inv_head in He as [= ->].
    + intros x [_ Hx]%elem_of_reverse%list_elem_of_filter. apply IH; [by apply good_snoc|]. unfold room in *. rewrite len_app, len_cons, len_nil. lia.
    + rewrite reverse_Permutation. apply NoDup_filter, hops_once, Hg.
Qed.

(** *** Trails as nodes and edges *)

Definition takes_edge (n e m : N) : Prop := ∃ a b k, idx (view_ids v) n = Some a ∧ idx (view_ids v) m = Some b ∧
  joins L Ds step a b k e ∧ edgeKindOK (EdgeKinds step) k = true.
Definition along (n e m : N) : Prop := if from then takes_edge n e m else takes_edge m e n.
Definition nodes_edges (xs : list vedge) : list NodeID * list N := (root :: ((λ x : vedge, x.1.1) <$> xs), snd <$> xs).
Hypothesis Hends : from = true ∨ FromSym step ≠ ToSym step.

Lemma hops_along n t k e : live_node n → (t, k, e) ∈ hops v L step n from ∧ edgeKindOK (EdgeKinds step) k = true → along n e t.
Proof.
  intros (id & Hid & _) [(tid & Ht & Hj)%(hops_spec v L Ds HR _ _ id) Hk]; [|done..]. unfold along. destruct from; [exists id, tid, k|exists tid, id, k]; done.
Qed.
Lemma along_hops n e t : along n e t → ∃ k, (t, k, e) ∈ hops v L step n from ∧ edgeKindOK (EdgeKinds step) k = true.
Proof.
  unfold along, takes_edge. intros Ha.
  assert (∃ id tid k, idx (view_ids v) n = Some id ∧ idx (view_ids v) t = Some tid ∧ (if from then joins L Ds step id tid k e else joins L Ds step tid id k e) ∧
    edgeKindOK (EdgeKinds step) k = true) as (id & tid & k & Hid & Ht & Hj & Hk) by (destruct from; destruct Ha as (a & b & k & ? & ? & ? & ?); eauto 10).
  exists k. split; [|done]. apply (hops_spec v L Ds HR _ _ id); eauto.
Qed.
Lemma hops_kind n (x y : vedge) : x ∈ hops v L step n from → y ∈ hops v L step n from → live_node n → x.2 = y.2 → x = y.
Proof.
  intros Hx Hy (id & Hid & _) Hxy. pose proof (hops_nodup v L Ds HR step n id from Hid) as Hnd.
  apply list_elem_of_lookup in Hx as [i Hi], Hy as [j Hj]. assert (i = j) as ->; [|congruence].
  apply (NoDup_lookup _ i j x.2 Hnd); rewrite list_lookup_fmap; [by rewrite Hi|rewrite Hj; simpl; by rewrite Hxy].
Qed.

Definition unused (e : N) : Prop := edgeUsed seed (Pattern step) (edge_ident v e) = false.
Lemma fits_iff es x : fits es x = true ↔ edgeKindOK (EdgeKinds step) x.1.2 = true ∧ (x.2 ∉ snd <$> es) ∧ unused x.2.
Proof.
  unfold fits, unused. rewrite !andb_true_iff, !negb_true_iff. assert (existsb (λ y : vedge, y.2 =? x.2) es = false ↔ x.2 ∉ (snd <$> es)) as ->; [|tauto].
  rewrite <- not_true_iff_false, existsb_exists, list_elem_of_fmap. split.
  - intros Hn (y & Hy & Hin). apply Hn. exists y. split; [by apply list_elem_of_In|by apply N.eqb_eq].
  - intros Hn (y & Hin & Hy%N.eqb_eq). apply Hn. exists y. split; [done|by apply list_elem_of_In].
Qed.
Lemma nodes_edges_tip es : last (nodes_edges es).1 = Some (tip es).
Proof. unfold nodes_edges, tip. simpl. rewrite last_cons, fmap_last. by destruct (last es). Qed.

(** What the trails are, without the way they are found. *)
Definition trail_ok (ns es : list N) : Prop := links along ns es ∧ NoDup es ∧ Forall unused es.
Lemma extends_snoc es xs x : extends es (xs ++ [x]) ↔ extends es xs ∧ x ∈ hops v L step (tip (es ++ xs)) from ∧ fits (es ++ xs) x = true.
Proof.
  revert es. induction xs as [|y xs IH]; intros es; simpl; [rewrite app_nil_r; tauto|]. rewrite IH, <- (assoc_L (++)). simpl. tauto.
Qed.
Lemma extends_live xs : extends [] xs → live_node (tip xs).
Proof.
  destruct xs as [|x xs _] using rev_ind; [done|]. rewrite extends_snoc, tip_snoc. intros (_ & Hx & _).
  destruct (hops_live v L Ds HR _ _ _ _ Hx) as (tid & y & Ht & Hlive & _). by exists tid.
Qed.
Lemma extends_trail xs : extends [] xs → trail_ok (nodes_edges xs).1 (nodes_edges xs).2.
Proof.
  induction xs as [|[[t k] e] xs IH] using rev_ind; [intros _; split; [done|]; split; constructor|].
  rewrite extends_snoc. intros (Hext & Hx & (Hk & Hnin & Hu)%fits_iff). destruct (IH Hext) as (Hl & Hnd & Hus).
  assert (nodes_edges (xs ++ [(t, k, e)]) = (root :: ((λ x : vedge, x.1.1) <$> xs) ++ [t], (snd <$> xs) ++ [e])) as ->
    by (unfold nodes_edges; by rewrite !fmap_app).
  unfold trail_ok in *. cbn [fst snd nodes_edges] in *. rewrite links_snoc. split_and!.
  - done.
  - assert (default root (last ((λ x : vedge, x.1.1) <$> xs)) = tip xs) as -> by (unfold tip; by rewrite fmap_last).
    apply (hops_along _ t k e); [by apply extends_live|done].
  - apply NoDup_app. split; [done|]. split; [|apply NoDup_singleton]. intros e' He' ->%list_elem_of_singleton. done.
  - apply Forall_app. split; [done|]. by apply Forall_singleton.
Qed.
Lemma trail_extends ns es : head ns = Some root → trail_ok ns es → ∃ xs, (ns, es) = nodes_edges xs ∧ extends [] xs.
Proof.
  destruct ns as [|n ns]; [done|]. intros [= ->]. revert ns. induction es as [|e es IH] using rev_ind; intros ns (Hl & Hnd & Hus).
  - exists []. destruct ns; [done|]. done.
  - destruct ns as [|m ns _] using rev_ind; [by destruct es|]. rewrite links_snoc in Hl. destruct Hl as [Hl Ha].
    apply NoDup_app in Hnd as (Hnd & Hdisj & _). apply Forall_app in Hus as [Hus [Hu _]%Forall_cons].
    destruct (IH ns (conj Hl (conj Hnd Hus))) as (xs & [= Hns Hes] & Hext).
    assert (default root (last ns) = tip xs) as Htip by (unfold tip; by rewrite Hns, fmap_last). rewrite Htip in Ha.
    apply along_hops in Ha as (k & Hin & Hk). exists (xs ++ [(m, k, e)]). split; [unfold nodes_edges; rewrite !fmap_app; simpl; by rewrite <- Hns, <- Hes|].
    rewrite extends_snoc. split; [done|]. split; [done|]. apply fits_iff. split; [done|]. split; [|done]. simpl. rewrite <- Hes. intros He. apply (Hdisj e He). by left.
Qed.
Lemma nodes_edges_inj xs ys : extends [] xs → extends [] ys → nodes_edges xs = nodes_edges ys → xs = ys.
Proof.
  unfold nodes_edges. intros Hx Hy [= _ He]. revert ys Hx Hy He. induction xs as [|x xs IH] using rev_ind; intros ys Hx Hy He.
  - by destruct ys.
  - destruct ys as [|y ys _] using rev_ind; [by rewrite fmap_app in He; destruct (snd <$> xs)|]. rewrite !fmap_app in He. apply app_inj_tail in He as [He Hxy].
    apply extends_snoc in Hx as (Hx & Hhx & _), Hy as (Hy & Hhy & _). pose proof (IH ys Hx Hy He) as ->. f_equal. f_equal.
    eapply hops_kind; [exact Hhx|exact Hhy|by apply extends_live|done].
Qed.

Definition trail_row_for (t : list NodeID * list N) : Row :=
  trail_row v step far key seed flip (mkTrailFrame t.1 (edge_ref v <$> t.2)) (default 0 (last t.1)).
Definition trail_found (ns es : list N) : Prop := head ns = Some root ∧ trail_ok ns es ∧ in_range (len es) = true ∧
  ∃ n, last ns = Some n ∧ admits n = true.

Lemma in_range_iff n : in_range n = true ↔ (rg_Min range ≤ Z.of_N n ≤ rg_Max range)%Z.
Proof. unfold in_range. by rewrite andb_true_iff, !Z.leb_le. Qed.
Lemma elem_found xs : xs ∈ found ↔ extends [] xs ∧ in_range (len xs) = true ∧ admits (tip xs) = true.
Proof.
  unfold found, zero_trail. rewrite elem_of_app, elem_subtree, in_range_iff. unfold emits. cbn [app].
  assert (room [] = Z.to_nat (rg_Max range)) as -> by (unfold room; rewrite len_nil; f_equal; lia).
  destruct xs as [|x xs].
  - rewrite len_nil. split.
    + intros [Hz|(? & <- & _ & _ & He)]; [|discriminate]. destruct (_ && _) eqn:Ez; [|by apply not_elem_of_nil in Hz].
      apply andb_true_iff in Ez as [?%Z.eqb_eq Ha]. split; [done|]. split; [lia|done].
    + intros (_ & Hr & Ha). left. unfold tip in Ha. simpl in Ha. rewrite Ha.
      rewrite (proj2 (Z.eqb_eq _ _)) by lia. by left.
  - assert (1 ≤ len (x :: xs)) as H1 by (rewrite len_cons; lia). rewrite (proj2 (N.leb_le 1 _) H1). split.
    + intros [Hz|(? & <- & Hl & Hext & He)].
      * destruct (_ && _); [apply list_elem_of_singleton in Hz; done|by apply not_elem_of_nil in Hz].
      * apply andb_true_iff in He as [He%Z.leb_le Ha]. unfold len in *. split; [done|]. split; [lia|done].
    + intros (Hext & Hr & Ha). right. exists (x :: xs). unfold len in *. split; [done|]. split; [lia|]. split; [done|].
      rewrite Ha, andb_true_r. apply Z.leb_le. lia.
Qed.
Lemma found_nodup : NoDup found.
Proof.
  unfold found. apply NoDup_app. split; [unfold zero_trail; destruct (_ && _); [apply NoDup_singleton|constructor]|]. split.
  - intros xs Hz (ys & -> & _ & _ & He)%elem_subtree. unfold zero_trail in Hz. destruct (_ && _); [|by apply not_elem_of_nil in Hz].
    apply list_elem_of_singleton in Hz. simpl in Hz. subst ys. done.
  - apply subtree_nodup; [|done]. split; [done|]. rewrite len_nil. split; [lia|by intros ? ?%not_elem_of_nil].
Qed.
Lemma row_of_trail xs : row_of xs = trail_row_for (nodes_edges xs).
Proof.
  unfold row_of, trail_row_for. rewrite nodes_edges_tip. unfold tframe, nodes_edges. cbn [fst snd default]. by rewrite <- list_fmap_compose.
Qed.

(** The trails in the order the walk finds them: every one, once. *)
Definition trails_of : list (list NodeID * list N) := nodes_edges <$> found.
Lemma trails_of_spec : NoDup trails_of ∧ ∀ ns es, (ns, es) ∈ trails_of ↔ trail_found ns es.
Proof.
  unfold trails_of. split.
  - apply NoDup_fmap_2_strong; [|apply found_nodup]. intros xs ys (Hx & _)%elem_found (Hy & _)%elem_found. by apply nodes_edges_inj.
  - intros ns es. rewrite list_elem_of_fmap. split.
    + intros (xs & Hxs & (Hext & Hr & Ha)%elem_found). assert (ns = (nodes_edges xs).1 ∧ es = (nodes_edges xs).2) as [-> ->] by (by rewrite <- Hxs). clear Hxs.
      unfold trail_found. split; [done|]. split; [by apply extends_trail|].
      rewrite nodes_edges_tip. split; [|eauto]. unfold nodes_edges. simpl. by rewrite len_fmap.
    + intros (Hh & Ht & Hr & n & Hn & Ha). destruct (trail_extends ns es Hh Ht) as (xs & Hxs & Hext). exists xs. split; [done|].
      apply elem_found. split; [done|]. assert (ns = (nodes_edges xs).1) as -> by (by rewrite <- Hxs). assert (es = (nodes_edges xs).2) as -> by (by rewrite <- Hxs).
      rewrite nodes_edges_tip in Hn. injection Hn as <-. split; [|done]. unfold nodes_edges in Hr. simpl in Hr. by rewrite len_fmap in Hr.
Qed.
Lemma runs_trails : (1 + edge_total) ^ Z.to_N (rg_Max range) < fuel →
  runs J E (trail_walk v budget ctx fuel step range nc far key seed from flip admitNode rowCap contIDs root)
    (λ out, out = capped (trail_row_for <$> trails_of)).
Proof.
  intros Hf. eapply runs_mono; [by apply runs_walk|]. intros ? ->. f_equal. unfold trails_of. rewrite <- list_fmap_compose.
  apply list_fmap_ext. intros _ xs _. apply row_of_trail.
Qed.
End trail_search.

(** ** The two directions *)

Definition all_in (ids : option (list NodeID)) (n : NodeID) : Prop := match ids with Some l => n ∈ l | None => True end.
Lemma canContinue_spec ids n : match ids with Some l => StronglySorted N.lt l | None => True end →
  ∃ b, trailCanContinue ids n = Some b ∧ (b = true ↔ all_in ids n).
Proof.
  destruct ids as [l|]; [|by exists true]. intros Hs. unfold trailCanContinue. simpl.
  assert (∀ i j x y, i < j → idx l i = Some x → idx l j = Some y → x < y) as Hlt.
  { intros i j x y Hij Hi Hj. unfold idx in *. rewrite <- (take_drop_middle _ _ _ Hi), StronglySorted_app, StronglySorted_cons in Hs.
    destruct Hs as (_ & _ & Hs & _). rewrite Forall_forall in Hs. apply Hs, list_elem_of_lookup. exists (N.to_nat j - S (N.to_nat i))%nat.
    rewrite lookup_drop. rewrite <- Hj. f_equal. lia. }
  destruct (search_spec (len l) (λ i, x ← idx l i; Some (n <=? x)) (λ i, n <=? default 0 (idx l i))) as (r & Er & Hr & Hbelow & Habove).
  - intros i Hi. destruct (idx_is_Some l i Hi) as [x ->]. done.
  - intros i j Hij Hj Hi. apply N.leb_le in Hi. apply N.leb_le. destruct (idx_is_Some l j Hj) as [y Hy]. rewrite Hy. simpl.
    destruct (decide (i = j)) as [->|]; [by rewrite Hy in Hi|]. destruct (idx_is_Some l i ltac:(lia)) as [x Hx]. rewrite Hx in Hi. simpl in Hi.
    pose proof (Hlt i j x y ltac:(lia) Hx Hy). lia.
  - rewrite Er. cbn [mbind option_bind]. destruct (N.ltb_spec r (len l)) as [Hrl|Hrl].
    + destruct (idx_is_Some l r Hrl) as [x Hx]. rewrite Hx. cbn [mbind option_bind]. eexists. split; [done|]. rewrite N.eqb_eq. split.
      * intros ->. by eapply idx_elem_of.
      * intros Hin. apply elem_of_idx in Hin as [i Hi]. pose proof (idx_lt _ _ _ Hi) as Hil.
        destruct (N.lt_trichotomy i r) as [Hir|[->|Hir]]; [|congruence|].
        -- specialize (Hbelow i Hir). rewrite Hi in Hbelow. simpl in Hbelow. apply N.leb_gt in Hbelow. lia.
        -- pose proof (Hlt r i x n Hir Hx Hi). specialize (Habove r ltac:(lia) Hrl). rewrite Hx in Habove. simpl in Habove. apply N.leb_le in Habove. lia.
    + eexists. split; [done|]. split; [done|]. intros Hin. apply elem_of_idx in Hin as [i Hi]. pose proof (idx_lt _ _ _ Hi) as Hil.
      specialize (Hbelow i ltac:(lia)). rewrite Hi in Hbelow. simpl in Hbelow. apply N.leb_gt in Hbelow. lia.
Qed.

Lemma runs_continuation step outgoing : st_Direction step = DirectionOutbound →
  runs J E (trailContinuationSet v step outgoing) (may_continue step outgoing).
Proof.
  intros Hdir. unfold trailContinuationSet. destruct (EdgeKinds step) as [|k0 ks] eqn:Ek.
  { apply runs_ret. intros n _. by exists true. }
  rewrite len_cons. rewrite (proj2 (N.eqb_neq _ _)) by lia. rewrite <- Ek. intros s Hs. unfold go_memo.
  destruct (EdgeKindEndpoints_lists v L Ds HR (EdgeKinds step) outgoing _ Hs) as (mm & l & -> & Hmm & Hsort & Hl); [by rewrite Ek|]. simpl.
  eexists _, _. split; [done|]. split; [exact Hmm|]. intros n (id & Hid & Hlive). destruct (canContinue_spec (Some l) n Hsort) as (b & Eb & Hb).
  exists b. split; [exact Eb|]. intros -> [[t k] e] Hx. apply not_true_iff_false. intros [?|Hk]%edgeKindOK_spec; [congruence|]. simpl in Hk.
  assert (n ∈ l) as Hin; [|apply Hb in Hin; discriminate]. apply Hl. exists k. split; [done|].
  unfold hops in Hx. rewrite Hdir in Hx. simpl in Hx. apply (proj2 (walk_list_rep v L Ds HR outgoing n)) in Hx as (id' & tid & Hid' & Ht & Hv).
  assert (id' = id) as -> by congruence.
  destruct outgoing; (pose proof Hv as (He & _)%(visible_iff L Ds); eapply (edge_listed v L Ds HR); [exact He|]; by apply (denseOf_spec v L Ds HR)).
Qed.

Definition sat_node (nc : option NodeConstraint) (n : NodeID) : bool := default false (nodeSatisfiesConstraint v nc n).
Lemma sat_total nc n : live_node n → nodeSatisfiesConstraint v nc n = Some (sat_node nc n).
Proof. intros (id & Hid & Hlive). unfold sat_node. by destruct (satisfies_ok v L Ds HR nc n id Hid Hlive) as (b & -> & _). Qed.
Lemma sat_some nc n : sat_node nc n = true → nodeSatisfiesConstraint v nc n = Some true.
Proof. unfold sat_node. destruct (nodeSatisfiesConstraint v nc n) as [[]|]; done. Qed.

Lemma runs_forSeed step range toNC seed key contIDs root :
  st_Range step = Some range → (0 ≤ rg_Min range)%Z ∧ (1 ≤ rg_Max range)%Z → Node seed (FromSym step) = Some root → live_node root →
  may_continue step true contIDs → (1 + edge_total) ^ Z.to_N (rg_Max range) < fuel →
  runs J E (expandVarLengthTrailsForSeed v budget ctx fuel step toNC seed key contIDs) (λ out,
    out = trail_row_for step (ToSym step) key seed (Reversed step) <$> trails_of step range seed true (sat_node toNC) root).
Proof.
  intros Hr Hrg Hseed Hlive Hc Hf. unfold expandVarLengthTrailsForSeed. eapply runs_then; [by apply runs_boundNode|]. intros ? ->.
  eapply runs_bind, runs_lift; [done|]. eapply runs_mono; [apply runs_trails with (admits := sat_node toNC) (rowCap := 0)|intros out Hout; exact Hout]; try done.
  - intros n Hn. eapply runs_lift; [by apply sat_total|done].
  - intros n. apply sat_some.
Qed.
(** Backwards, the near end's predicates are asked too. *)
Definition near_ok (step : Step) (nc : option NodeConstraint) (n : NodeID) : bool := sat_node nc n && preds_hold v nc (SetNode NewRow (FromSym step) n).
Lemma runs_toSeed step range fromNC seed key cap contIDs root :
  (SelfLoopHazard v (EdgeKinds step) = true → E ErrUnsupportedStep) → st_Range step = Some range → (0 ≤ rg_Min range)%Z ∧ (1 ≤ rg_Max range)%Z →
  Node seed (ToSym step) = Some root → live_node root → FromSym step ≠ ToSym step →
  may_continue step false contIDs → (1 + edge_total) ^ Z.to_N (rg_Max range) < fuel →
  runs J E (expandVarLengthTrailsToSeed v budget ctx fuel step fromNC seed key cap contIDs) (λ out,
    out = capped cap (trail_row_for step (FromSym step) key seed (negb (Reversed step)) <$> trails_of step range seed false (near_ok step fromNC) root)).
Proof.
  intros Herr Hr Hrg Hseed Hlive Hne Hc Hf. unfold expandVarLengthTrailsToSeed. destruct (SelfLoopHazard _ _); [by apply runs_err, Herr|].
  eapply runs_then; [by apply runs_boundNode|]. intros ? ->. eapply runs_bind, runs_lift; [done|].
  eapply runs_mono; [apply runs_trails with (admits := near_ok step fromNC)|]; try done.
  - intros n Hn. unfold nearAdmits, near_ok. eapply runs_bind, runs_lift; [by apply sat_total|]. destruct (sat_node fromNC n); simpl; [|by apply runs_ret].
    by apply runs_predicates.
  - unfold near_ok. intros n [Hs _]%andb_true_iff. by apply sat_some.
Qed.
End search.
