(* ===== verification/Components.v ===== *)
(** * The components of a part

    [internal/engine/interpret/exec.go]: the steps that hang together are
    matched from one anchor on, breadth first over the symbols
    ([runComponentTreeFrom]) or along a chain ([expandChainComponentFrom]);
    a named path is put together from what its steps have bound. *)

From S2P Require Import Prelude Bitset Csr Snapshot Segment View ViewAdj ViewKinds EdgeKinds Traverse Rows Scan Hops Trails.
From stdpp Require Import options pretty.
Unset Default Proof Using.
#[local] Open Scope N_scope.
#[local] Open Scope go_scope.

(** ** The shape of a component

    A component is a list of indices into [Chains], all of them in range. *)

Section shape.
Context `{Cypher}.
Context (part : Part).

Definition is_special (st : Step) : bool := bool_decide (is_Some (st_Range st)) || negb (bool_decide (Shortest st = ShortestNone)).
Definition hasSpecialStep (stepIdxs : list nat) : bool :=
  existsb (λ i, match Chains part !! i with Some st => is_special st | None => false end) stepIdxs.
Definition hasShortestStep (stepIdxs : list nat) : bool :=
  existsb (λ i, match Chains part !! i with Some st => negb (bool_decide (Shortest st = ShortestNone)) | None => false end) stepIdxs.

Definition uniformPathSym (stepIdxs : list nat) : option string :=
  match stepIdxs with
  | [] => Some EmptyString
  | i :: rest =>
      st ← Chains part !! i;
      if forallb (λ j, match Chains part !! j with Some st' => String.eqb (PathSym st') (PathSym st) | None => false end) rest
      then Some (PathSym st) else None
  end.

(** The loop of [isStrictLinearChain]: the symbols seen, or nothing when the
    steps are no such chain. *)
Fixpoint strict_chain (prev : option string) (seen : gset string) (stepIdxs : list nat) : option (gset string) :=
  match stepIdxs with
  | [] => Some seen
  | i :: rest =>
      step ← Chains part !! i;
      if String.eqb (FromSym step) (ToSym step) then None
      else if match prev with Some to => negb (String.eqb to (FromSym step)) | None => false end then None
      else if bool_decide (ToSym step ∈ seen) then None
      else strict_chain (Some (ToSym step)) ({[ToSym step]} ∪ seen) rest
  end.
Definition isStrictLinearChain (stepIdxs : list nat) : bool :=
  match stepIdxs with
  | [] => true
  | i :: _ =>
      match Chains part !! i with
      | Some st => match strict_chain None {[FromSym st]} stepIdxs with Some seen => bool_decide (size seen = S (length stepIdxs)) | None => false end
      | None => false
      end
  end.

(** [itoa] prints as [pretty] does. *)
Definition itoa (n : nat) : string := pretty (N.of_nat n).
Definition pathStepArcKey (stepIdx : nat) : string := String.append "$patharc" (itoa stepIdx).
Definition arc_key (bind : bool) (stepIdx : nat) : string := if bind then pathStepArcKey stepIdx else EmptyString.

Definition touches (st : Step) (sym : string) : bool := String.eqb (FromSym st) sym || String.eqb (ToSym st) sym.
Fixpoint chain_symbols (cur : string) (seen : gset string) (stepIdxs : list nat) : option (list string) :=
  match stepIdxs with
  | [] => Some []
  | i :: rest =>
      st ← Chains part !! i;
      next ← (if String.eqb cur (FromSym st) then Some (ToSym st) else if String.eqb cur (ToSym st) then Some (FromSym st) else None);
      if bool_decide (next ∈ seen) then None
      else l ← chain_symbols next ({[next]} ∪ seen) rest; Some (next :: l)
  end.
Definition patternLinearChain (stepIdxs : list nat) : option (list string) :=
  match stepIdxs with
  | i0 :: i1 :: _ =>
      if existsb (λ i, match Chains part !! i with Some st => is_special st || String.eqb (FromSym st) (ToSym st) | None => true end) stepIdxs then None
      else
        first ← Chains part !! i0; second ← Chains part !! i1;
        start ← (if negb (touches second (FromSym first)) then Some (FromSym first)
                 else if negb (touches second (ToSym first)) then Some (ToSym first) else None);
        l ← chain_symbols start {[start]} stepIdxs;
        Some (start :: l)
  | _ => None
  end.

(** The steps at a symbol, as [adjBySym] lists them. *)
Definition adjBySym (stepIdxs : list nat) (sym : string) : list nat :=
  stepIdxs ≫= λ i, match Chains part !! i with
    | Some st => (if String.eqb (FromSym st) sym then [i] else []) ++ (if String.eqb (ToSym st) sym then [i] else [])
    | None => []
    end.

(** What is left to PostgreSQL: a variable-length step that names its edges,
    returns to its start or may meet an edge from a node to itself, and, with
    such a step or with a path to show, shapes other than a chain. *)
Definition step_declined (v : View) (st : Step) : bool :=
  bool_decide (is_Some (st_Range st)) &&
  (negb (String.eqb (EdgeSym st) EmptyString) || String.eqb (FromSym st) (ToSym st) || SelfLoopHazard v (EdgeKinds st)).
Definition declined (v : View) (stepIdxs : list nat) : bool :=
  match uniformPathSym stepIdxs with
  | None => true
  | Some pathSym =>
      existsb (λ i, match Chains part !! i with Some st => step_declined v st | None => false end) stepIdxs ||
      (hasSpecialStep stepIdxs && (1 <? len stepIdxs) && negb (isStrictLinearChain stepIdxs)) ||
      (negb (String.eqb pathSym EmptyString) &&
        if isStrictLinearChain stepIdxs
        then (1 <? len stepIdxs) && existsb (λ i, match Chains part !! i with Some st => Reversed st | None => false end) stepIdxs
        else bool_decide (patternLinearChain stepIdxs = None))
  end.
End shape.

(** ** Matching a component *)

Section components.
Context `{GoStd} `{Cypher}.
Context (v : View) (budget : Budgets) (ctx : Ctx) (fuel : N).

Record treeState := mkTreeState {
  ts_queue : list string;
  ts_visited : gset string;
  ts_processed : gset nat;
  ts_closing : list nat;
  ts_rows : list Row;
}.

(** One step at the symbol taken from the queue. *)
Definition tree_visit (part : Part) (bindArcs : bool) (cur : string) (st : treeState) (idx : nat) : exec treeState :=
  let '(mkTreeState queue visited processed closing rows) := st in
  if bool_decide (idx ∈ processed) then go_ret st
  else
    let processed := {[idx]} ∪ processed in
    let! step := go_lift (Chains part !! idx) in
    let boundIsFrom := negb (String.eqb cur (ToSym step) && negb (String.eqb cur (FromSym step))) in
    let other := if boundIsFrom then ToSym step else FromSym step in
    if bool_decide (other ∈ visited) then go_ret (mkTreeState queue visited processed (closing ++ [idx]) rows)
    else
      let '(boundSym, unboundSym) := if boundIsFrom then (FromSym step, ToSym step) else (ToSym step, FromSym step) in
      let! rows := expandStep v budget ctx rows step boundSym unboundSym boundIsFrom (Nodes part !! unboundSym) (arc_key bindArcs idx) in
      go_ret (mkTreeState (queue ++ [other]) ({[other]} ∪ visited) processed closing rows).
Definition tree_round (part : Part) (stepIdxs : list nat) (bindArcs : bool) (st : treeState) : exec (treeState + treeState) :=
  match ts_queue st with
  | [] => go_ret (inr st)
  | cur :: queue =>
      let! st := go_foldl (tree_visit part bindArcs cur) (mkTreeState queue (ts_visited st) (ts_processed st) (ts_closing st) (ts_rows st))
        (adjBySym part stepIdxs cur) in
      go_ret (inl st)
  end.

(** Every round takes a symbol off the queue, and a symbol is put there with the
    step that reached it. *)
Definition runComponentTreeFrom (part : Part) (stepIdxs : list nat) (anchor : string) (anchorRows : list Row) (bindArcs : bool) : exec (list Row) :=
  if len stepIdxs =? 0 then go_ret anchorRows
  else
    let! st := go_loop (2 + len stepIdxs) (tree_round part stepIdxs bindArcs) (mkTreeState [anchor] {[anchor]} ∅ [] anchorRows) in
    go_foldl (λ rows idx, let! step := go_lift (Chains part !! idx) in verifyClosingStep v budget ctx rows step) (ts_rows st) (ts_closing st).

(** *** Named paths *)

Definition bound_node (r : Row) (sym : string) : exec NodeID :=
  match Node r sym with Some id => go_ret id | None => go_err ErrUnboundSymbol end.
Definition bound_edge (r : Row) (step : Step) (idx : nat) : exec EdgeRef :=
  match Edge r (if String.eqb (EdgeSym step) EmptyString then pathStepArcKey idx else EdgeSym step) with
  | Some ref => go_ret ref
  | None => go_err ErrUnboundSymbol
  end.

Definition assembleChainPathVal (r : Row) (part : Part) (stepIdxs : list nat) : exec PathVal :=
  let reversed i := match Chains part !! i with Some st => Reversed st | None => false end in
  if (1 <? len stepIdxs) && existsb reversed stepIdxs then go_err ErrUnsupportedStep
  else
    let! first := go_lift (i ← head stepIdxs; Chains part !! i) in
    let! startID := bound_node r (FromSym first) in
    let! pv := go_foldl (λ pv idx,
      let! step := go_lift (Chains part !! idx) in
      match st_Range step with
      | None =>
          let! toID := bound_node r (ToSym step) in
          let! edge := bound_edge r step idx in
          go_ret (mkPathVal (pv_Nodes pv ++ [toID]) (pv_Edges pv ++ [edge]))
      | Some _ =>
          match PathVar r (pathStepArcKey idx) with
          | None => go_err ErrUnboundSymbol
          | Some seg => go_ret (if len (pv_Nodes seg) =? 0 then pv else mkPathVal (pv_Nodes pv ++ drop 1 (pv_Nodes seg)) (pv_Edges pv ++ pv_Edges seg))
          end
      end) (mkPathVal [startID] []) stepIdxs in
    go_ret (if (len stepIdxs =? 1) && existsb reversed stepIdxs then reversePathVal pv else pv).

Definition bindPatternPathVal (rows : list Row) (part : Part) (stepIdxs : list nat) (seq : list string) (pathSym : string) : exec (list Row) :=
  go_foldl (λ out r,
    let! nodes := go_foldl (λ ids sym, let! id := bound_node r sym in go_ret (ids ++ [id])) [] seq in
    let! edges := go_foldl (λ refs idx,
      let! step := go_lift (Chains part !! idx) in
      let! ref := bound_edge r step idx in
      go_ret (refs ++ [ref])) [] stepIdxs in
    go_ret (out ++ [SetPathVar r pathSym (mkPathVal nodes edges)])) [] rows.

(** *** Chains *)

Definition chainWalkReversed (part : Part) (stepIdxs : list nat) : option bool :=
  if existsb (λ i, match Chains part !! i with Some st => bool_decide (is_Some (st_Range st)) | None => false end) stepIdxs then Some false
  else
    first ← (i ← head stepIdxs; Chains part !! i);
    last ← (i ← last stepIdxs; Chains part !! i);
    rl ← rankOf v (Nodes part !! ToSym last);
    rf ← rankOf v (Nodes part !! FromSym first);
    Some (better rl rf).
Definition chainAnchorSym (part : Part) (stepIdxs : list nat) : option string :=
  rev ← chainWalkReversed part stepIdxs;
  if (rev : bool) then i ← last stepIdxs; st ← Chains part !! i; Some (ToSym st)
  else i ← head stepIdxs; st ← Chains part !! i; Some (FromSym st).

(** A step of a chain that is walked forwards. *)
Definition chain_step (part : Part) (bindArcs : bool) (rows : list Row) (idx : nat) : exec (list Row) :=
  let! step := go_lift (Chains part !! idx) in
  let toNC := Nodes part !! ToSym step in
  match st_Range step with
  | None => expandStep v budget ctx rows step (FromSym step) (ToSym step) true toNC (arc_key bindArcs idx)
  | Some _ =>
      if negb (String.eqb (EdgeSym step) EmptyString) then go_err ErrUnsupportedStep
      else if len rows =? 0 then go_ret rows
      else
        let! contIDs := varLengthWalkSetup v step true in
        go_foldl (λ next r,
          let! grown := expandVarLengthTrailsForSeed v budget ctx fuel step toNC r (arc_key bindArcs idx) contIDs in
          let! _ := observeRows budget (len (next ++ grown)) in
          go_ret (next ++ grown)) [] rows
  end.
Definition expandChainComponentFrom (part : Part) (stepIdxs : list nat) (pathSym : string) (anchorRows : list Row) : exec (list Row) :=
  let bindArcs := negb (String.eqb pathSym EmptyString) in
  let! rev := go_lift (chainWalkReversed part stepIdxs) in
  let! rows :=
    (if rev then
      go_foldl (λ rows idx,
        let! step := go_lift (Chains part !! idx) in
        expandStep v budget ctx rows step (ToSym step) (FromSym step) false (Nodes part !! FromSym step) (arc_key bindArcs idx))
        anchorRows (reverse stepIdxs)
    else go_foldl (chain_step part bindArcs) anchorRows stepIdxs) in
  if bindArcs then
    go_foldl (λ out r, let! pv := assembleChainPathVal r part stepIdxs in go_ret (out ++ [SetPathVar r pathSym pv])) [] rows
  else go_ret rows.
Definition expandChainComponent (part : Part) (stepIdxs : list nat) (pathSym : string) : exec (list Row) :=
  let! startSym := go_lift (chainAnchorSym part stepIdxs) in
  let! hint := hintForAnchor v part stepIdxs startSym in
  let! rows := scanAnchorHinted v budget ctx startSym (Nodes part !! startSym) hint in
  expandChainComponentFrom part stepIdxs pathSym rows.

(** *** The estimate of a star's rows *)

Definition MaxInt32 : Z := 2147483647.
(** The product of the degrees, and whether it is cut off. *)
Fixpoint degree_product (part : Part) (anchor : string) (id : NodeID) (product : Z) (stepIdxs : list nat) : option (Z * bool) :=
  match stepIdxs with
  | [] => Some (product, false)
  | i :: rest =>
      st ← Chains part !! i;
      d ← DegreeHint v id (String.eqb (FromSym st) anchor);
      if d =? 0 then Some (0%Z, false)
      else
        let product := i64 (product * Z.of_N d) in
        if (MaxInt32 <? product)%Z then Some (MaxInt32, true) else degree_product part anchor id product rest
  end.
(** [None] inside is Go's [ok = false]. *)
Fixpoint tree_estimate (part : Part) (stepIdxs : list nat) (anchor : string) (total : Z) (rows : list Row) : option (option Z) :=
  match rows with
  | [] => Some (Some total)
  | r :: rest =>
      match Node r anchor with
      | None => Some None
      | Some id =>
          '(product, cut) ← degree_product part anchor id 1 stepIdxs;
          if (cut : bool) then Some (Some MaxInt32)
          else
            let total := i64 (total + product) in
            if (MaxInt32 <? total)%Z then Some (Some MaxInt32) else tree_estimate part stepIdxs anchor total rest
      end
  end.
Definition treeRowEstimate (part : Part) (stepIdxs : list nat) (anchor : string) (rows : list Row) : option (option Z) :=
  if existsb (λ i, match Chains part !! i with Some st => negb (touches st anchor) | None => false end) stepIdxs then Some None
  else tree_estimate part stepIdxs anchor 0 rows.

(** *** Choosing how to match a component

    [limit] is the meter's target, as for [reverseTrailRowCap]; a step that asks
    for shortest paths is answered by [expandShortestPathComponent], a parameter
    here. *)
Context (limit : option Z) (expandShortestPathComponent : Part → Step → exec (list Row)).

(** The part of both functions below that starts from the rows of an anchor. *)
Definition tree_with_path (part : Part) (stepIdxs : list nat) (anchor : string) (rows : list Row) (seq : list string) (pathSym : string) : exec (list Row) :=
  let! est := go_lift (treeRowEstimate part stepIdxs anchor rows) in
  if match est with Some est => (0 <? MaxRows budget)%Z && (MaxRows budget <? est)%Z | None => false end then go_err ErrBudget
  else
    let! rows := runComponentTreeFrom part stepIdxs anchor rows true in
    bindPatternPathVal rows part stepIdxs seq pathSym.

Definition runComponent (part : Part) (syms : list string) (stepIdxs : list nat) : exec (list Row) :=
  match uniformPathSym part stepIdxs with
  | None => go_err ErrUnsupportedStep
  | Some pathSym =>
      if hasSpecialStep part stepIdxs then
        if hasShortestStep part stepIdxs then
          match stepIdxs with
          | [i] => let! step := go_lift (Chains part !! i) in expandShortestPathComponent part step
          | _ => go_err ErrUnsupportedStep
          end
        else
          match stepIdxs with
          | [i] => let! step := go_lift (Chains part !! i) in expandVarLengthComponent v budget ctx fuel limit part step
          | _ => if negb (isStrictLinearChain part stepIdxs) then go_err ErrUnsupportedStep else expandChainComponent part stepIdxs pathSym
          end
      else
        let hintFor sym := hintForAnchor v part stepIdxs sym in
        let anchored (k : string → list Row → exec (list Row)) :=
          let! anchor := chooseAnchorHinted v (Nodes part) syms (Some hintFor) in
          let! hint := hintFor anchor in
          let! rows := scanAnchorHinted v budget ctx anchor (Nodes part !! anchor) hint in
          k anchor rows in
        if negb (String.eqb pathSym EmptyString) then
          if isStrictLinearChain part stepIdxs then expandChainComponent part stepIdxs pathSym
          else
            match patternLinearChain part stepIdxs with
            | None => go_err ErrUnsupportedStep
            | Some seq => anchored (λ anchor rows, tree_with_path part stepIdxs anchor rows seq pathSym)
            end
        else anchored (λ anchor rows, runComponentTreeFrom part stepIdxs anchor rows false)
  end.
End components.
