(* ===== verification/Matching.v ===== *)
(** * Matches of a pattern

    What the interpreter looks for: nodes for the symbols of a part and, for
    each of its steps, the nodes and edges the step goes along; and what the
    rows of an execution have to do with them.  A match is found step by step:
    [covers] says that a list of rows stands for matches of some of the steps,
    each once, and misses none that is wanted. *)

From S2P Require Import Prelude Bitset Csr Snapshot Segment View ViewAdj EdgeKinds Traverse ViewTraverse Rows Scan Hops Trails Components.
From stdpp Require Import options pretty.
Unset Default Proof Using.
#[local] Open Scope N_scope.

(** The nodes of the symbols, and the nodes and edges of the steps. *)
Record Match := mkMatch { m_node : gmap string NodeID; m_arc : gmap nat (list NodeID * list N) }.

Definition restrict (S : gset string) (D : gset nat) (m : Match) : Match :=
  mkMatch (filter (λ p, p.1 ∈ S) (m_node m)) (filter (λ p, p.1 ∈ D) (m_arc m)).
Definition add_arc (m : Match) (u : string) (n : NodeID) (i : nat) (arc : list NodeID * list N) : Match :=
  mkMatch (<[u := n]> (m_node m)) (<[i := arc]> (m_arc m)).

Lemma filter_dom_id {K A} `{Countable K} (X : gset K) (m : gmap K A) : dom m ⊆ X → filter (λ p, p.1 ∈ X) m = m.
Proof. intros Hd. apply map_filter_id. intros k x Hk. apply Hd, elem_of_dom. eauto. Qed.
Lemma filter_grow {K A} `{Countable K} (X : gset K) (m : gmap K A) k x : m !! k = Some x →
  filter (λ p, p.1 ∈ {[k]} ∪ X) m = <[k := x]> (filter (λ p, p.1 ∈ X) m).
Proof.
  intros Hk. apply map_eq. intros j. destruct (decide (j = k)) as [->|Hne].
  - rewrite lookup_insert, decide_True by done. apply map_lookup_filter_Some. split; [done|]. set_solver.
  - rewrite lookup_insert_ne by done. apply option_eq. intros y. rewrite !map_lookup_filter_Some. set_solver.
Qed.
Lemma filter_insert_new {K A} `{Countable K} (X : gset K) (m : gmap K A) k x : dom m = X → (k ∈ X → m !! k = Some x) →
  filter (λ p, p.1 ∈ X) (<[k := x]> m) = m.
Proof.
  intros Hd Hk. apply map_eq. intros j. apply option_eq. intros y. rewrite map_lookup_filter_Some. simpl. rewrite <- Hd, elem_of_dom.
  destruct (decide (j = k)) as [->|Hne].
  - rewrite lookup_insert, decide_True by done. rewrite <- elem_of_dom, Hd in *. split.
    + intros [[= <-] Hin]. by apply Hk.
    + intros Hy. assert (k ∈ X) as Hin by (rewrite <- Hd; apply elem_of_dom; eauto). split; [|done]. rewrite (Hk Hin) in Hy. done.
  - rewrite lookup_insert_ne by done. split; [tauto|]. intros Hy. rewrite Hy. eauto.
Qed.
Lemma filter_filter_sub {K A} `{Countable K} (X Y : gset K) (m : gmap K A) : X ⊆ Y →
  filter (λ p, p.1 ∈ X) (filter (λ p, p.1 ∈ Y) m) = filter (λ p, p.1 ∈ X) m.
Proof. intros Hs. apply map_eq. intros j. apply option_eq. intros y. rewrite !map_lookup_filter_Some. set_solver. Qed.
Lemma dom_filter_sub {K A} `{Countable K} (X : gset K) (m : gmap K A) : X ⊆ dom m → dom (filter (λ p, p.1 ∈ X) m) = X.
Proof.
  intros Hs. apply set_eq. intros k. rewrite elem_of_dom. split.
  - intros [x Hx]. apply map_lookup_filter_Some in Hx as [_ Hx]. done.
  - intros Hk. pose proof (Hs k Hk) as [x Hx]%elem_of_dom. exists x. by apply map_lookup_filter_Some.
Qed.

Lemma restrict_add S D m u n i arc : dom (m_node m) = S → dom (m_arc m) = D → (u ∈ S → m_node m !! u = Some n) → i ∉ D →
  restrict S D (add_arc m u n i arc) = m.
Proof.
  intros HS HD Hu Hi. unfold restrict, add_arc. simpl. rewrite filter_insert_new by done. rewrite filter_insert_new by (done || by intros ?). by destruct m.
Qed.
Lemma restrict_grow S D m u n i arc : m_node m !! u = Some n → m_arc m !! i = Some arc →
  restrict ({[u]} ∪ S) ({[i]} ∪ D) m = add_arc (restrict S D m) u n i arc.
Proof. intros Hu Hi. unfold restrict, add_arc. simpl. by rewrite (filter_grow S _ u n), (filter_grow D _ i arc). Qed.
Lemma restrict_restrict S D S' D' m : S ⊆ S' → D ⊆ D' → restrict S D (restrict S' D' m) = restrict S D m.
Proof. intros HS HD. unfold restrict. simpl. by rewrite !filter_filter_sub. Qed.
Lemma restrict_id S D m : dom (m_node m) ⊆ S → dom (m_arc m) ⊆ D → restrict S D m = m.
Proof. intros HS HD. unfold restrict. rewrite !filter_dom_id by done. by destruct m. Qed.

(** ** Symbols and keys *)

(** The keys a named path is put together from are no symbols of a query. *)
Definition visible_sym (s : string) : Prop := s ≠ EmptyString ∧ ∀ i, s ≠ pathStepArcKey i.
Lemma arc_key_inj i j : pathStepArcKey i = pathStepArcKey j → i = j.
Proof.
  unfold pathStepArcKey, itoa. intros He%(inj (String.append _))%(inj pretty). lia.
Qed.
Lemma arc_key_nonempty i : pathStepArcKey i ≠ EmptyString.
Proof. done. Qed.

(** ** Matches *)

Section matching.
Context `{GoStd} `{Cypher}.
Context (v : View) (L : layout) (Ds : list delta) (HR : View_rep v L Ds).
Hypothesis Hsize : View_NodeCount v < 2 ^ 31.
Let G := view_graph L Ds.
Context (part : Part).

(** What a step goes along: one edge, or a trail of an allowed length. *)
Definition arc_fits (step : Step) (a b : NodeID) (arc : list NodeID * list N) : Prop :=
  head arc.1 = Some a ∧ last arc.1 = Some b ∧ links (takes_edge v L Ds step) arc.1 arc.2 ∧
  match st_Range step with None => length arc.2 = 1%nat | Some range => NoDup arc.2 ∧ in_range range (len arc.2) = true end.

(** [m] matches the symbols of [S] and the steps of [D]: the nodes have what
    their symbols ask for, apart from the predicates, the steps join them, and
    within one pattern the edge of a step of length one is taken once. *)
Record weak (S : gset string) (D : gset nat) (m : Match) : Prop := {
  wk_nodes : dom (m_node m) = S;
  wk_arcs : dom (m_arc m) = D;
  wk_node : ∀ s n, m_node m !! s = Some n → live_node v L Ds n ∧ sat_node v (Nodes part !! s) n = true;
  wk_arc : ∀ i arc, m_arc m !! i = Some arc → ∃ step a b, Chains part !! i = Some step ∧
    m_node m !! FromSym step = Some a ∧ m_node m !! ToSym step = Some b ∧ arc_fits step a b arc;
  wk_once : ∀ i j st st' arc arc' e, i ≠ j → Chains part !! i = Some st → Chains part !! j = Some st' → Pattern st = Pattern st' →
    st_Range st = None → m_arc m !! i = Some arc → m_arc m !! j = Some arc' → e ∈ arc.2 → e ∉ arc'.2;
}.

(** A step uses edges of its pattern. *)
Definition uses (trail : bool) (m : Match) (p : Z) (ident : N) : Prop := ∃ i step arc e, m_arc m !! i = Some arc ∧ Chains part !! i = Some step ∧
  bool_decide (is_Some (st_Range step)) = trail ∧ Pattern step = p ∧ e ∈ arc.2 ∧ ident = edge_ident v e.
Definition edge_of (m : Match) (s : string) (ref : EdgeRef) : Prop := ∃ i step arc e, m_arc m !! i = Some arc ∧ Chains part !! i = Some step ∧
  st_Range step = None ∧ EdgeSym step = s ∧ arc.2 = [e] ∧ ref = edge_ref v e.
Definition path_val (step : Step) (arc : list NodeID * list N) : PathVal :=
  let pv := mkPathVal arc.1 (edge_ref v <$> arc.2) in if Reversed step then reversePathVal pv else pv.

(** A row stands for a match; the steps of [K] have left what a named path is
    put together from. *)
Record row_rep (K : gset nat) (r : Row) (m : Match) : Prop := {
  rr_nodes : ∀ s, Node r s = m_node m !! s;
  rr_used : ∀ p x, (p, x) ∈ r_usedEdges r ↔ uses false m p x;
  rr_trail : ∀ p x, (p, x) ∈ r_trailEdges r ↔ uses true m p x;
  rr_edge : ∀ s ref, visible_sym s → Edge r s = Some ref ↔ edge_of m s ref;
  rr_path : ∀ s, visible_sym s → PathVar r s = None;
  rr_scalar : ∀ s, Scalar r s = None;
  rr_key : ∀ i step arc, i ∈ K → Chains part !! i = Some step → m_arc m !! i = Some arc →
    match st_Range step with
    | None => ∀ e, arc.2 = [e] → Edge r (pathStepArcKey i) = Some (edge_ref v e)
    | Some _ => PathVar r (pathStepArcKey i) = Some (path_val step arc)
    end;
  rr_once : row_once r;
}.

(** ** Growing *)

Context (wanted : Match → Prop).

Definition covering (S : gset string) (D K : gset nat) (ps : list (Row * Match)) : Prop := NoDup ps.*2 ∧
  (∀ p, p ∈ ps → row_rep K p.1 p.2 ∧ weak S D p.2) ∧ ∀ M, wanted M → restrict S D M ∈ ps.*2.
Definition covers (S : gset string) (D K : gset nat) (rows : list Row) : Prop := ∃ ps, rows = ps.*1 ∧ covering S D K ps.

(** The rows that one row leads to when a step is added, each with the node and
    the arc that it adds. *)
Definition branch : Type := Row * (NodeID * (list NodeID * list N)).
Definition grown (u : string) (i : nat) (f : Row * Match → list branch) (ps : list (Row * Match)) : list (Row * Match) :=
  ps ≫= λ p, (λ q : branch, (q.1, add_arc p.2 u q.2.1 i q.2.2)) <$> f p.
Record branches (S : gset string) (D K K' : gset nat) (u : string) (i : nat) (p : Row * Match) (l : list branch) : Prop := {
  br_once : NoDup l.*2;
  br_sound : ∀ q, q ∈ l → row_rep K' q.1 (add_arc p.2 u q.2.1 i q.2.2) ∧ weak ({[u]} ∪ S) ({[i]} ∪ D) (add_arc p.2 u q.2.1 i q.2.2) ∧
    (u ∈ S → m_node p.2 !! u = Some q.2.1);
  br_complete : ∀ M, wanted M → p.2 = restrict S D M → ∃ n arc, m_node M !! u = Some n ∧ m_arc M !! i = Some arc ∧ (n, arc) ∈ l.*2;
}.

Lemma add_arc_inj m u i n n' arc arc' : add_arc m u n i arc = add_arc m u n' i arc' → (n, arc) = (n', arc').
Proof.
  intros [= Hn Ha]. apply (f_equal (lookup u)) in Hn. apply (f_equal (lookup i)) in Ha.
  rewrite !lookup_insert, !decide_True in Hn by done. rewrite !lookup_insert, !decide_True in Ha by done. congruence.
Qed.
Lemma covering_grown S D K K' u i f ps : covering S D K ps → i ∉ D →
  (∀ p, p ∈ ps → row_rep K p.1 p.2 → weak S D p.2 → branches S D K K' u i p (f p)) →
  covering ({[u]} ∪ S) ({[i]} ∪ D) K' (grown u i f ps).
Proof.
  intros (Hnd & Hps & Hall) Hi Hf. assert (∀ p, p ∈ ps → branches S D K K' u i p (f p)) as Hbr by (intros p Hp; destruct (Hps p Hp); auto).
  assert (∀ p q, p ∈ ps → q ∈ f p → restrict S D (add_arc p.2 u q.2.1 i q.2.2) = p.2) as Hback.
  { intros p q Hp Hq. destruct (Hps p Hp) as [_ Hw]. apply restrict_add; [apply Hw|apply Hw| |done]. by apply (br_sound _ _ _ _ _ _ _ _ (Hbr p Hp)). }
  unfold covering, grown. split_and!.
  - rewrite fmap_bind. apply NoDup_bind.
    + intros p p' m Hp Hp' Hm Hm'. rewrite <- list_fmap_compose in Hm, Hm'.
      apply list_elem_of_fmap in Hm as (q & -> & Hq), Hm' as (q' & Hm' & Hq'). simpl in Hm'.
      assert (p.2 = p'.2) as He by (rewrite <- (Hback p q Hp Hq), <- (Hback p' q' Hp' Hq'); by f_equal).
      apply list_elem_of_lookup in Hp as [a Ha], Hp' as [b Hb]. assert (a = b) as ->; [|congruence].
      apply (NoDup_lookup _ a b p.2 Hnd); rewrite list_lookup_fmap; [by rewrite Ha|rewrite Hb; simpl; by rewrite He].
    + intros p Hp. rewrite <- list_fmap_compose.
      assert (NoDup ((λ na : NodeID * (list NodeID * list N), add_arc p.2 u na.1 i na.2) <$> (f p).*2)) as Hx.
      { apply NoDup_fmap_2_strong; [|apply (Hbr p Hp)]. intros [n arc] [n' arc'] _ _ He. by apply add_arc_inj in He. }
      by rewrite <- list_fmap_compose in Hx.
    + by eapply NoDup_fmap_1.
  - intros p' (p & (q & -> & Hq)%list_elem_of_fmap & Hp)%list_elem_of_bind. simpl.
    by destruct (br_sound _ _ _ _ _ _ _ _ (Hbr p Hp) q Hq) as (? & ? & _).
  - intros M HM. pose proof (Hall M HM) as (p & He & Hp)%list_elem_of_fmap.
    destruct (br_complete _ _ _ _ _ _ _ _ (Hbr p Hp) M HM (eq_sym He)) as (n & arc & Hn & Ha & ([r [n' arc']] & [= <- <-] & Hq)%list_elem_of_fmap).
    rewrite (restrict_grow S D M u n i arc Hn Ha), He. rewrite fmap_bind. apply list_elem_of_bind. exists p. split; [|done].
    rewrite <- list_fmap_compose. apply list_elem_of_fmap. by exists (r, (n, arc)).
Qed.

(** What [weak] asks of the new step. *)
Lemma weak_add S D m u n i step a b arc : weak S D m → i ∉ D → (u ∈ S → m_node m !! u = Some n) →
  live_node v L Ds n → sat_node v (Nodes part !! u) n = true →
  Chains part !! i = Some step → <[u := n]> (m_node m) !! FromSym step = Some a → <[u := n]> (m_node m) !! ToSym step = Some b → arc_fits step a b arc →
  (∀ j st' arc' e, Chains part !! j = Some st' → Pattern st' = Pattern step → m_arc m !! j = Some arc' →
     (st_Range step = None ∨ st_Range st' = None) → e ∈ arc.2 → e ∉ arc'.2) →
  weak ({[u]} ∪ S) ({[i]} ∪ D) (add_arc m u n i arc).
Proof.
  intros [HS HD Hn Ha Ho] Hi Hu Hl Hs Hstep Hfrom Hto Hfit Honce.
  assert (m_arc m !! i = None) as Hmi by (apply not_elem_of_dom; by rewrite HD).
  assert (∀ s x, m_node m !! s = Some x → <[u := n]> (m_node m) !! s = Some x) as Hmono.
  { intros s x Hx. destruct (decide (s = u)) as [->|Hne]; [|by rewrite lookup_insert_ne]. rewrite lookup_insert, decide_True by done.
    rewrite <- Hx. symmetry. apply Hu. rewrite <- HS. apply elem_of_dom. eauto. }
  constructor; simpl.
  - rewrite dom_insert_L. by rewrite HS.
  - rewrite dom_insert_L. by rewrite HD.
  - intros s x [[-> <-]|[Hne Hx]]%lookup_insert_Some; [done|by apply Hn].
  - intros j arc' [[<- <-]|[Hne Hx]]%lookup_insert_Some; [by exists step, a, b|].
    destruct (Ha j arc' Hx) as (st & a' & b' & Hst & Ha' & Hb' & Hf). exists st, a', b'. auto.
  - intros j k st st' arc1 arc2 e Hjk Hj Hk Hp Hr [[<- <-]|[Hne1 H1]]%lookup_insert_Some [[<- <-]|[Hne2 H2]]%lookup_insert_Some He; [done| | |].
    + apply (Honce k st'); [done|congruence|done|left; congruence|done].
    + intros He'. refine (Honce j st arc1 e _ _ _ _ _ He); [done|congruence|done|by right|done].
    + by eapply (Ho j k).
Qed.

(** ** Plans the translator makes *)

Record step_ok (st : Step) : Prop := {
  so_from : FromSym st ∈ dom (Nodes part);
  so_to : ToSym st ∈ dom (Nodes part);
  so_dir : st_Direction st ≠ DirectionInbound;
  so_range : ∀ range, st_Range st = Some range → st_Direction st = DirectionOutbound ∧ (0 ≤ rg_Min range)%Z ∧ (1 ≤ rg_Max range)%Z;
  so_edge : EdgeSym st = EmptyString ∨ (visible_sym (EdgeSym st) ∧ EdgeSym st ∉ dom (Nodes part));
  so_path : PathSym st = EmptyString ∨ (visible_sym (PathSym st) ∧ PathSym st ∉ dom (Nodes part));
}.
Record part_ok : Prop := {
  po_steps : ∀ i st, Chains part !! i = Some st → step_ok st;
  po_edges : ∀ i j st st', Chains part !! i = Some st → Chains part !! j = Some st' → EdgeSym st ≠ EmptyString → EdgeSym st = EdgeSym st' → i = j;
  po_nodes : ∀ s nc, Nodes part !! s = Some nc → visible_sym s ∧ nc_proper v (Some nc) ∧ ∀ p, p ∈ Predicates nc → mentions p ⊆ {[s]};
}.
Hypothesis Hpart : part_ok.

(** The matches that are wanted are matches of the whole part on which its
    predicates hold and that its candidates allow. *)
Definition all_steps : gset nat := list_to_set (seq 0 (length (Chains part))).
Record wanted_ok : Prop := {
  wo_weak : ∀ M, wanted M → weak (dom (Nodes part)) all_steps M;
  wo_preds : ∀ M s n, wanted M → m_node M !! s = Some n → preds_hold v (Nodes part !! s) (SetNode NewRow s n) = true;
  wo_allows : ∀ M s n, wanted M → m_node M !! s = Some n → nc_allows (Nodes part !! s) n;
}.
Hypothesis Hwanted : wanted_ok.

Lemma all_steps_elem i : i ∈ all_steps ↔ is_Some (Chains part !! i).
Proof. unfold all_steps. rewrite elem_of_list_to_set, elem_of_seq, lookup_lt_is_Some. lia. Qed.
Lemma wanted_arc M i st : wanted M → Chains part !! i = Some st → ∃ arc a b, m_arc M !! i = Some arc ∧
  m_node M !! FromSym st = Some a ∧ m_node M !! ToSym st = Some b ∧ arc_fits st a b arc.
Proof.
  intros HM Hst. pose proof (wo_weak Hwanted M HM) as Hw. assert (i ∈ dom (m_arc M)) as [arc Harc]%elem_of_dom
    by (rewrite (wk_arcs _ _ _ Hw); apply all_steps_elem; eauto).
  destruct (wk_arc _ _ _ Hw i arc Harc) as (st' & a & b & Hst' & ? & ? & ?). rewrite Hst in Hst'. injection Hst' as <-. eauto 10.
Qed.

Lemma arc_visible st a b arc e : arc_fits st a b arc → e ∈ arc.2 → ∃ y, visible G !! e = Some y.
Proof.
  intros (_ & _ & Hl & _) He. destruct arc as [ns es]. simpl in *. revert ns Hl. induction es as [|e' es IH]; intros ns Hl; [by apply not_elem_of_nil in He|].
  destruct ns as [|n [|n' ns]]; [done..|]. cbn [links] in Hl. destruct Hl as [(a' & b' & k & _ & _ & Hj & _) Hl]. apply elem_of_cons in He as [->|He]; [|by apply (IH He (n' :: ns))].
  unfold joins in Hj. destruct (st_Direction st); [eauto..|]. destruct (String.eqb _ _); [eauto|]. destruct Hj as [_ [?|?]]; eauto.
Qed.
Lemma uses_arc S D m st p x tr : weak S D m → uses tr m p (edge_ident v x) → (∃ y, visible G !! x = Some y) → Pattern st = p →
  ∃ j st' arc, m_arc m !! j = Some arc ∧ Chains part !! j = Some st' ∧ Pattern st' = Pattern st ∧ bool_decide (is_Some (st_Range st')) = tr ∧ x ∈ arc.2.
Proof.
  intros Hw (j & st' & arc & e & Harc & Hst & Htr & Hp & He & Heq) [y Hy] <-. destruct (wk_arc _ _ _ Hw j arc Harc) as (st1 & a & b & _ & _ & _ & Hf).
  destruct (arc_visible _ _ _ _ e Hf He) as [y' Hy'].
  pose proof (edge_ident_inj v L Ds HR _ _ _ _ Hy Hy' Heq) as ->. eauto 10.
Qed.

(** *** Rows that have one more arc *)

Lemma Edge_set_if key ref r s : Edge (set_edge_if key ref r) s = if decide (key ≠ EmptyString ∧ key = s) then Some ref else Edge r s.
Proof.
  unfold set_edge_if. destruct (String.eqb_spec key EmptyString) as [->|Hne]; [by rewrite decide_False by tauto|]. rewrite Edge_SetEdge.
  destruct (decide (key = s)); [by rewrite decide_True|by rewrite decide_False by tauto].
Qed.
Lemma set_if_rest key ref r : r_nodes (set_edge_if key ref r) = r_nodes r ∧ r_paths (set_edge_if key ref r) = r_paths r ∧
  r_scalars (set_edge_if key ref r) = r_scalars r ∧ r_usedEdges (set_edge_if key ref r) = r_usedEdges r ∧ r_trailEdges (set_edge_if key ref r) = r_trailEdges r.
Proof. unfold set_edge_if. by destruct (String.eqb key EmptyString). Qed.
Lemma mark_rest step key r x : let r' := mark v step key r x in r_nodes r' = r_nodes r ∧ r_paths r' = r_paths r ∧ r_scalars r' = r_scalars r ∧
  r_usedEdges r' = r_usedEdges r ++ [(Pattern step, edge_ident v x.2)] ∧ r_trailEdges r' = r_trailEdges r.
Proof.
  unfold mark. simpl. set (r1 := set_edge_if (EdgeSym step) _ r). destruct (set_if_rest key (edge_ref v x.2) r1) as (-> & -> & -> & -> & ->).
  unfold r1. by destruct (set_if_rest (EdgeSym step) (edge_ref v x.2) r) as (-> & -> & -> & -> & ->).
Qed.
Lemma mark_Edge step key r x s : Edge (mark v step key r x) s =
  if decide (key ≠ EmptyString ∧ key = s) then Some (edge_ref v x.2)
  else if decide (EdgeSym step ≠ EmptyString ∧ EdgeSym step = s) then Some (edge_ref v x.2) else Edge r s.
Proof. unfold mark. change (Edge (markEdgeUsed ?a _ _) s) with (Edge a s). by rewrite !Edge_set_if. Qed.

Lemma once_mark step key r x : row_once r → row_once (mark v step key r x).
Proof.
  intros Hr. unfold mark. change (row_once (set_edge_if key (edge_ref v x.2) (set_edge_if (EdgeSym step) (edge_ref v x.2) r))).
  unfold set_edge_if. destruct (String.eqb key EmptyString), (String.eqb (EdgeSym step) EmptyString); auto with row.
Qed.

Lemma arc_lookup_old m u n i arc j x : m_arc m !! i = None → m_arc m !! j = Some x → m_arc (add_arc m u n i arc) !! j = Some x.
Proof. intros Hi Hj. simpl. rewrite lookup_insert_ne; [done|congruence]. Qed.
Lemma arc_lookup_add m u n i arc j x : m_arc (add_arc m u n i arc) !! j = Some x → (i = j ∧ arc = x) ∨ (i ≠ j ∧ m_arc m !! j = Some x).
Proof. apply lookup_insert_Some. Qed.
Lemma uses_add tr m u n i step arc p x : m_arc m !! i = None → Chains part !! i = Some step →
  uses tr (add_arc m u n i arc) p x ↔
  uses tr m p x ∨ (bool_decide (is_Some (st_Range step)) = tr ∧ Pattern step = p ∧ ∃ e, e ∈ arc.2 ∧ x = edge_ident v e).
Proof.
  intros Hi Hst. split.
  - intros (j & st & arc' & e & [[<- <-]|[_ Hj]]%arc_lookup_add & Hst' & Htr & Hp & He & Hx); [|left; by exists j, st, arc', e].
    right. rewrite Hst in Hst'. injection Hst' as <-. eauto.
  - intros [(j & st & arc' & e & Hj & Hrest)|(Htr & Hp & e & He & Hx)].
    + exists j, st, arc', e. split; [by apply arc_lookup_old|done].
    + exists i, step, arc, e. split; [apply lookup_insert_eq|done].
Qed.
Lemma edge_of_add m u n i step arc s ref : m_arc m !! i = None → Chains part !! i = Some step →
  edge_of (add_arc m u n i arc) s ref ↔ edge_of m s ref ∨ (st_Range step = None ∧ EdgeSym step = s ∧ ∃ e, arc.2 = [e] ∧ ref = edge_ref v e).
Proof.
  intros Hi Hst. split.
  - intros (j & st & arc' & e & [[<- <-]|[_ Hj]]%arc_lookup_add & Hst' & Hr & Hs & He & Hx); [|left; by exists j, st, arc', e].
    right. rewrite Hst in Hst'. injection Hst' as <-. eauto.
  - intros [(j & st & arc' & e & Hj & Hrest)|(Hr & Hs & e & He & Hx)].
    + exists j, st, arc', e. split; [by apply arc_lookup_old|done].
    + exists i, step, arc, e. split; [apply lookup_insert_eq|done].
Qed.

Definition with_key (bind : bool) (i : nat) (K : gset nat) : gset nat := if bind then {[i]} ∪ K else K.
Lemma arc_key_cases bind i : arc_key bind i = if bind then pathStepArcKey i else EmptyString.
Proof. done. Qed.

(** A step of length one. *)
Lemma row_rep_mark K bind r r1 m u t i step ns x : row_rep K r m → i ∉ K → m_arc m !! i = None → Chains part !! i = Some step → st_Range step = None →
  (∀ s, Node r1 s = <[u := t]> (m_node m) !! s) → (∀ s, Edge r1 s = Edge r s) → (∀ s, PathVar r1 s = PathVar r s) → (∀ s, Scalar r1 s = Scalar r s) →
  r_usedEdges r1 = r_usedEdges r → r_trailEdges r1 = r_trailEdges r → row_once r1 →
  row_rep (with_key bind i K) (mark v step (arc_key bind i) r1 x) (add_arc m u t i (ns, [x.2])).
Proof.
  intros HR0 HiK Hi Hst Hr Hn He Hp Hs Hu Ht Ho. destruct (mark_rest step (arc_key bind i) r1 x) as (Mn & Mp & Ms & Mu & Mt). cbv zeta in *.
  assert (so := po_steps Hpart i step Hst). constructor.
  - intros s. unfold Node. rewrite Mn. apply Hn.
  - intros p y. rewrite Mu, Hu, elem_of_app, (rr_used _ _ _ HR0), list_elem_of_singleton, (uses_add _ _ _ _ _ step) by done. rewrite Hr. simpl.
    apply or_iff_compat_l. split.
    + intros [= -> ->]. split; [done|]. split; [done|]. exists x.2. split; [by left|done].
    + intros (_ & <- & e & ->%list_elem_of_singleton & ->). done.
  - intros p y. rewrite Mt, Ht, (rr_trail _ _ _ HR0), (uses_add _ _ _ _ _ step) by done. rewrite Hr. simpl. split; [by left|]. by intros [?|[? _]].
  - intros s ref Hv. rewrite mark_Edge, (edge_of_add _ _ _ _ step), <- (rr_edge _ _ _ HR0), He by done.
    rewrite (decide_False (P := arc_key bind i ≠ EmptyString ∧ _)).
    2:{ intros [_ Hk]. destruct bind; simpl in Hk; [by destruct Hv as [_ Hv]; apply (Hv i)|by destruct Hv as [Hv _]; apply Hv]. }
    destruct (decide _) as [[Hne <-]|Hno].
    + split; [intros [= <-]; right; split; [done|]; split; [done|]; by exists x.2|]. intros [Hold|(_ & _ & e & [= <-] & ->)]; [|done].
      apply (rr_edge _ _ _ HR0) in Hold; [|done]. destruct Hold as (j & st & arc & e & Hj & Hst' & _ & Hs' & _).
      assert (i = j) as <- by (eapply (po_edges Hpart i j step st); done). congruence.
    + split; [by left|]. intros [?|(_ & Hs' & _)]; [done|]. exfalso. apply Hno. split; [|done]. rewrite Hs'. apply Hv.
  - intros s Hv. unfold PathVar. rewrite Mp. rewrite <- (rr_path _ _ _ HR0 s Hv). apply Hp.
  - intros s. unfold Scalar. rewrite Ms. rewrite <- (rr_scalar _ _ _ HR0 s). apply Hs.
  - intros j st arc Hj Hstj Harc. simpl in Harc. apply lookup_insert_Some in Harc as [[<- <-]|[Hne Harc]].
    + rewrite Hst in Hstj. injection Hstj as <-. rewrite Hr. intros e [= <-]. rewrite mark_Edge. destruct bind; simpl in *; [|done].
      by rewrite decide_True by (split; [apply arc_key_nonempty|done]).
    + assert (j ∈ K) as HjK by (unfold with_key in Hj; destruct bind; set_solver). pose proof (rr_key _ _ _ HR0 j st arc HjK Hstj Harc) as Hkey.
      destruct (st_Range st); [unfold PathVar; rewrite Mp; rewrite <- Hkey; apply Hp|]. intros e Harce. rewrite mark_Edge, He.
      rewrite (decide_False (P := arc_key bind i ≠ EmptyString ∧ _)) by (destruct bind; simpl; [intros [_ Hk%arc_key_inj]|intros [Hk _]]; congruence).
      rewrite decide_False; [by apply Hkey|]. intros [HE Hk]. destruct (so_edge _ so) as [?|[[_ Hv] _]]; [done|]. by apply (Hv j).
  - by apply once_mark.
Qed.

(** A variable-length step. *)
Lemma mark_trail_rest p (refs : list EdgeRef) r : let r' := foldl (λ r e, markTrailEdge r p (edgeRefIdentity v e)) r refs in
  r_nodes r' = r_nodes r ∧ r_edges r' = r_edges r ∧ r_paths r' = r_paths r ∧ r_scalars r' = r_scalars r ∧ r_usedEdges r' = r_usedEdges r ∧
  r_trailEdges r' = r_trailEdges r ++ ((λ e, (p, edgeRefIdentity v e)) <$> refs).
Proof.
  revert r. induction refs as [|e refs IH]; intros r; simpl; [by rewrite app_nil_r|]. destruct (IH (markTrailEdge r p (edgeRefIdentity v e))) as (-> & -> & -> & -> & -> & ->).
  simpl. by rewrite <- (assoc_L (++)).
Qed.
Lemma trail_row_rest step far key r flip arc : let r' := trail_row_for v step far key r flip arc in
  (∀ s, Node r' s = if decide (far = s) then Some (default 0 (last arc.1)) else Node r s) ∧ r_edges r' = r_edges r ∧ r_scalars r' = r_scalars r ∧ r_usedEdges r' = r_usedEdges r ∧
  r_trailEdges r' = r_trailEdges r ++ ((λ e, (Pattern step, edge_ident v e)) <$> arc.2) ∧
  ∀ s, PathVar r' s = if decide (key ≠ EmptyString ∧ key = s)
    then Some (let pv := mkPathVal arc.1 (edge_ref v <$> arc.2) in if flip then reversePathVal pv else pv) else PathVar r s.
Proof.
  unfold trail_row_for, trail_row. cbv zeta. cbn [tf_edges tf_nodes]. setoid_rewrite <- (Node_SetNode r far). set (r1 := SetNode r far _).
  destruct (mark_trail_rest (Pattern step) (edge_ref v <$> arc.2) r1) as (Hn & He & Hp & Hs & Hu & Ht).
  assert ((λ e : EdgeRef, (Pattern step, edgeRefIdentity v e)) <$> (edge_ref v <$> arc.2) = (λ e, (Pattern step, edge_ident v e)) <$> arc.2) as Hrefs.
  { rewrite <- list_fmap_compose. apply list_fmap_ext. intros _ e _. simpl. by rewrite ref_ident. }
  rewrite Hrefs in Ht. destruct (String.eqb_spec key EmptyString) as [->|Hne].
  - rewrite He, Hs, Hu, Ht. split_and!; try done; [intros s; unfold Node; by rewrite Hn|]. intros s. rewrite decide_False by tauto. unfold PathVar. by rewrite Hp.
  - simpl. rewrite He, Hs, Hu, Ht. split_and!; try done; [intros s; unfold Node; simpl; by rewrite Hn|]. intros s. rewrite PathVar_SetPathVar. unfold PathVar at 1. rewrite Hp.
    destruct (decide (key = s)); [by rewrite decide_True|by rewrite decide_False by tauto].
Qed.
Lemma once_trail step far key r flip arc : row_once r → row_once (trail_row_for v step far key r flip arc).
Proof.
  intros Hr. unfold trail_row_for, trail_row. cbv zeta. assert (row_once (foldl (λ r e, markTrailEdge r (Pattern step) (edgeRefIdentity v e)) (SetNode r far (default 0 (last arc.1))) (edge_ref v <$> arc.2))) as Hm.
  { apply once_foldl; [|by apply once_SetNode]. intros r' e Hr'. exact Hr'. }
  destruct (String.eqb key EmptyString); [done|]. by apply once_SetPathVar.
Qed.
Lemma row_rep_trail K bind r m i step far flip t arc n : row_rep K r m → i ∉ K → m_arc m !! i = None → Chains part !! i = Some step → is_Some (st_Range step) →
  last t.1 = Some n → (∀ e, e ∈ t.2 ↔ e ∈ arc.2) →
  (bind = true → (if flip : bool then reversePathVal (mkPathVal t.1 (edge_ref v <$> t.2)) else mkPathVal t.1 (edge_ref v <$> t.2)) = path_val step arc) →
  row_rep (with_key bind i K) (trail_row_for v step far (arc_key bind i) r flip t) (add_arc m far n i arc).
Proof.
  intros HR0 HiK Hi Hst [rg Hr] Hl Hedges Hpv. destruct (trail_row_rest step far (arc_key bind i) r flip t) as (Mn & Me & Ms & Mu & Mt & Mp).
  cbv zeta in *. rewrite Hl in Mn. constructor.
  - intros s. rewrite Mn. simpl. destruct (decide (far = s)) as [<-|Hne]; [by rewrite lookup_insert_eq|].
    rewrite lookup_insert_ne by done. apply HR0.
  - intros p y. rewrite Mu, (rr_used _ _ _ HR0), (uses_add _ _ _ _ _ step) by done. rewrite Hr. simpl. split; [by left|]. by intros [?|[? _]].
  - intros p y. rewrite Mt, elem_of_app, (rr_trail _ _ _ HR0), (uses_add _ _ _ _ _ step), list_elem_of_fmap by done. rewrite Hr. simpl.
    apply or_iff_compat_l. setoid_rewrite <- Hedges. split; [intros (e & [= -> ->] & He); eauto|intros (_ & <- & e & He & ->); eauto].
  - intros s ref Hv. unfold Edge. rewrite Me, (edge_of_add _ _ _ _ step) by done. change (getAnyBinding (r_edges r) s) with (Edge r s).
    rewrite (rr_edge _ _ _ HR0) by done. split; [by left|]. intros [?|[? _]]; [done|congruence].
  - intros s Hv. rewrite Mp. rewrite decide_False; [by apply HR0|]. destruct Hv as [H1 H2]. destruct bind; simpl; [intros [_ Hk]; by apply (H2 i)|tauto].
  - intros s. unfold Scalar. rewrite Ms. apply (rr_scalar _ _ _ HR0).
  - intros j st arc' Hj Hstj [[<- <-]|[Hne Harc]]%arc_lookup_add.
    + rewrite Hst in Hstj. injection Hstj as <-. rewrite Hr, Mp. destruct bind; simpl in *; [|done].
      rewrite decide_True by (split; [apply arc_key_nonempty|done]). f_equal. by apply Hpv.
    + assert (j ∈ K) as HjK by (unfold with_key in Hj; destruct bind; set_solver). pose proof (rr_key _ _ _ HR0 j st arc' HjK Hstj Harc) as Hkey.
      destruct (st_Range st); [|intros e He; unfold Edge; rewrite Me; by apply Hkey]. rewrite Mp. rewrite decide_False; [done|].
      destruct bind; simpl; [intros [_ Hk%arc_key_inj]; congruence|tauto].
  - apply once_trail, HR0.
Qed.

(** ** One step more *)

(** The predicates of a symbol see its node only. *)
Context `{!CypherLaws}.
Lemma edge_none K r m s : row_rep K r m → s ∈ dom (Nodes part) → Edge r s = None.
Proof.
  intros HR0 [nc Hnc]%elem_of_dom. destruct (po_nodes Hpart s nc Hnc) as [Hv _]. destruct (Edge r s) as [ref|] eqn:Er; [|done].
  apply (rr_edge _ _ _ HR0) in Er as (j & st & arc & e & _ & Hst & _ & Hs & _); [|done].
  destruct (so_edge _ (po_steps Hpart j st Hst)) as [He|[_ Hne]]; [exfalso; apply (proj1 Hv); congruence|].
  exfalso. apply Hne. rewrite Hs. apply elem_of_dom. eauto.
Qed.
Lemma preds_local K r m s n : row_rep K r m → s ∈ dom (Nodes part) →
  preds_hold v (Nodes part !! s) (SetNode r s n) = preds_hold v (Nodes part !! s) (SetNode NewRow s n).
Proof.
  intros HR0 Hs. pose proof (edge_none K r m s HR0 Hs) as He. apply elem_of_dom in Hs as [nc Hnc]. rewrite Hnc. simpl.
  destruct (po_nodes Hpart s nc Hnc) as (Hv & _ & Hm). assert (∀ p, p ∈ Predicates nc → holds v (SetNode r s n) p = holds v (SetNode NewRow s n) p) as Hp.
  { intros p Hp. unfold holds. rewrite (EvalPredicate_local v (SetNode r s n) (SetNode NewRow s n) p); [done|].
    intros s' ->%(Hm p Hp)%elem_of_singleton. rewrite !Node_SetNode, !decide_True by done. split; [done|].
    change (Edge (SetNode r s n) s) with (Edge r s). change (Scalar (SetNode r s n) s) with (Scalar r s). change (PathVar (SetNode r s n) s) with (PathVar r s).
    rewrite He, (rr_scalar _ _ _ HR0), (rr_path _ _ _ HR0) by done. done. }
  revert Hp. generalize (Predicates nc). intros l. induction l as [|p l IH]; intros Hp; [done|]. simpl.
  rewrite Hp by (by left). rewrite IH; [done|]. intros p' Hp'. apply Hp. by right.
Qed.

(** An edge that a step may take at a row is none of those its pattern has
    taken. *)
Lemma takes_iff S D K r m i step x y : row_rep K r m → weak S D m → Chains part !! i = Some step → visible G !! x.2 = Some y →
  takes v step r x = true ↔ edgeKindOK (EdgeKinds step) x.1.2 = true ∧
    ∀ j st' arc', Chains part !! j = Some st' → Pattern st' = Pattern step → m_arc m !! j = Some arc' → x.2 ∉ arc'.2.
Proof.
  intros HR0 Hw Hst Hy. unfold takes. rewrite !andb_true_iff, !negb_true_iff, <- !not_true_iff_false, edgeUsed_spec, trailEdgeUsed_spec.
  rewrite (rr_used _ _ _ HR0), (rr_trail _ _ _ HR0). split.
  - intros [[Hk Hu] Ht]. split; [done|]. intros j st' arc' Hj Hp Harc Hin. destruct (bool_decide (is_Some (st_Range st'))) eqn:Er.
    + apply Ht. exists j, st', arc', x.2. done.
    + apply Hu. exists j, st', arc', x.2. done.
  - intros [Hk Hno]. split; [split; [done|]|]; intros Hu.
    all: destruct (uses_arc S D m step (Pattern step) x.2 _ Hw Hu) as (j & st' & arc & Ha & Hj & Hp & _ & Hin); [eauto|done|]; by apply (Hno j st' arc).
Qed.

Definition hop_arc (from : bool) (n t : NodeID) (e : N) : list NodeID * list N := (if from then [n; t] else [t; n], [e]).
Lemma hop_fits step n id from x : idx (view_ids v) n = Some id → from = true ∨ FromSym step ≠ ToSym step → st_Range step = None →
  x ∈ hops v L step n from → edgeKindOK (EdgeKinds step) x.1.2 = true →
  arc_fits step (if from then n else x.1.1) (if from then x.1.1 else n) (hop_arc from n x.1.1 x.2).
Proof.
  intros Hn Hfr Hr Hx Hk. destruct x as [[t k] e]. simpl in *. apply (hops_spec v L Ds HR _ _ id) in Hx as (tid & Ht & Hj); [|done..].
  unfold arc_fits. rewrite Hr. destruct from; simpl; (split; [done|]; split; [done|]; split; [|done]; split; [|done]).
  - exists id, tid, k. done.
  - exists tid, id, k. done.
Qed.
Lemma fits_hop step a b arc : arc_fits step a b arc → st_Range step = None → ∃ e, arc = ([a; b], [e]) ∧ takes_edge v L Ds step a e b.
Proof.
  unfold arc_fits. destruct arc as [ns es]. simpl. intros (Hh & Hl & Hlink & Hr) Hn. rewrite Hn in Hr. destruct es as [|e [|]]; [done| |done].
  destruct ns as [|n [|n' ns]]; [done..|]. cbn [links] in Hlink. destruct Hlink as [Ht Hlink]. destruct ns; [|done]. simpl in *. injection Hh as ->. injection Hl as ->. eauto.
Qed.

Definition expand_branch (step : Step) (from : bool) (bound u key : string) (p : Row * Match) : list branch :=
  match m_node p.2 !! bound with
  | Some n => (λ x : vedge, (mark v step key (SetNode p.1 u x.1.1) x, (x.1.1, hop_arc from n x.1.1 x.2))) <$>
      filter (λ x, takes v step p.1 x && accepts v (Nodes part !! u) u p.1 x = true) (hops v L step n from)
  | None => []
  end.

Lemma branches_expand S D K (bind : bool) i step (from : bool) bound u p :
  bound = (if from then FromSym step else ToSym step) → u = (if from then ToSym step else FromSym step) →
  Chains part !! i = Some step → st_Range step = None → i ∉ D → K ⊆ D → bound ∈ S → u ∉ S →
  row_rep K p.1 p.2 → weak S D p.2 → branches S D K (with_key bind i K) u i p (expand_branch step from bound u (arc_key bind i) p).
Proof.
  intros Hb Hu Hst Hr Hi HK HbS HuS HR0 Hw. destruct p as [r m]. simpl in *.
  assert (from = true ∨ FromSym step ≠ ToSym step) as Hends by (destruct from; [by left|right; congruence]).
  pose proof (po_steps Hpart i step Hst) as so.
  assert (u ∈ dom (Nodes part)) as HuN by (rewrite Hu; destruct from; apply so).
  rewrite <- (wk_nodes _ _ _ Hw) in HbS. apply elem_of_dom in HbS as [n Hn]. unfold expand_branch. simpl. rewrite Hn.
  destruct (wk_node _ _ _ Hw bound n Hn) as [(id & Hid & Hlive) _].
  assert (m_arc m !! i = None) as Hmi by (apply not_elem_of_dom; by rewrite (wk_arcs _ _ _ Hw)). constructor.
  - rewrite <- list_fmap_compose. apply NoDup_fmap_2_strong; [|apply NoDup_filter; eapply hops_once; [done|by exists id]].
    intros x y [_ Hx]%list_elem_of_filter [_ Hy]%list_elem_of_filter [= _ _ He]. eapply hops_kind; [done|exact Hx|exact Hy|by exists id|done].
  - intros q (x & -> & [[Ht Ha]%andb_true_iff Hx]%list_elem_of_filter)%list_elem_of_fmap. simpl.
    destruct (hops_live v L Ds HR _ _ _ _ Hx) as (tid & y & Htid & Hlt & Hy).
    apply (takes_iff S D K r m i step x y) in Ht as [Hk Hno]; [|done..]. unfold accepts in Ha. apply andb_true_iff in Ha as [Hs Hp].
    pose proof (hop_fits step n id from x Hid Hends Hr Hx Hk) as Hf. split; [|split; [|done]].
    + apply (row_rep_mark K bind r); try done; [set_solver| |apply once_SetNode, HR0]. intros s. rewrite Node_SetNode. destruct (decide (u = s)) as [<-|Hne]; [by rewrite lookup_insert_eq|].
      rewrite lookup_insert_ne by done. apply HR0.
    + apply (weak_add S D m u x.1.1 i step (if from then n else x.1.1) (if from then x.1.1 else n)); try done; [by exists tid| | |].
      * destruct from; subst bound u; [|by rewrite lookup_insert_eq]. rewrite lookup_insert_ne; [done|]. intros He. apply HuS. rewrite He. rewrite <- (wk_nodes _ _ _ Hw). apply elem_of_dom. eauto.
      * destruct from; subst bound u; [by rewrite lookup_insert_eq|]. rewrite lookup_insert_ne; [done|]. intros He. apply HuS. rewrite He. rewrite <- (wk_nodes _ _ _ Hw). apply elem_of_dom. eauto.
      * intros j st' arc' e Hj Hp' Harc' _ ->%list_elem_of_singleton. by apply (Hno j st' arc').
  - simpl. intros M HM ->. destruct (wanted_arc M i step HM Hst) as (arc & a & b & Harc & Ha & Hbm & Hf).
    destruct (fits_hop _ _ _ _ Hf Hr) as (e & -> & a' & b' & k & Hida & Hidb & Hj & Hk).
    pose proof (wo_weak Hwanted M HM) as HwM.
    assert (m_node M !! bound = Some n) as HnM by (simpl in Hn; apply map_lookup_filter_Some in Hn; tauto).
    set (t := if from then b else a). assert (m_node M !! u = Some t) as HtM by (subst u t; destruct from; done).
    exists t, ([a; b], [e]). split; [done|]. split; [done|]. apply list_elem_of_fmap.
    assert ((t, k, e) ∈ hops v L step n from) as Hx.
    { apply (hops_spec v L Ds HR _ _ id); [done..|]. subst t bound. destruct from; [exists b'|exists a']; (split; [done|]); congruence. }
    exists (mark v step (arc_key bind i) (SetNode r u t) (t, k, e), (t, hop_arc from n t e)). split.
    { simpl. unfold hop_arc. subst t bound. destruct from; repeat f_equal; congruence. }
    apply list_elem_of_fmap. exists (t, k, e). split; [done|]. apply list_elem_of_filter. split; [|done]. apply andb_true_iff. split.
    + destruct (hops_live v L Ds HR _ _ _ _ Hx) as (_ & y & _ & _ & Hy). apply (takes_iff S D K r (restrict S D M) i step (t, k, e) y HR0 Hw Hst Hy). split; [done|].
      intros j st' arc' Hj' Hp' [Harc' HjD]%map_lookup_filter_Some Hin. simpl in HjD, Hin.
      refine (wk_once _ _ _ HwM i j step st' _ arc' e _ Hst Hj' _ Hr Harc Harc' _ Hin); [set_solver|done|simpl; by left].
    + destruct (wk_node _ _ _ HwM u t HtM) as [_ Hsat]. unfold accepts. simpl. change (default false (nodeSatisfiesConstraint v (Nodes part !! u) t)) with (sat_node v (Nodes part !! u) t).
      rewrite Hsat. simpl. rewrite (preds_local K r _ u t HR0 HuN). by apply (wo_preds Hwanted M).
Qed.

Definition close_branch (step : Step) (p : Row * Match) : list branch :=
  match m_node p.2 !! FromSym step, m_node p.2 !! ToSym step with
  | Some n, Some t => (λ x : vedge, (mark v step EmptyString p.1 x, (t, hop_arc true n t x.2))) <$>
      filter (λ x, (x.1.1 =? t) && takes v step p.1 x = true) (hops v L step n true)
  | _, _ => []
  end.
Lemma branches_close S D K i step p : Chains part !! i = Some step → st_Range step = None → i ∉ D → K ⊆ D → FromSym step ∈ S → ToSym step ∈ S →
  row_rep K p.1 p.2 → weak S D p.2 → branches S D K K (ToSym step) i p (close_branch step p).
Proof.
  intros Hst Hr Hi HK HfS HtS HR0 Hw. destruct p as [r m]. simpl in *. pose proof (po_steps Hpart i step Hst) as so.
  rewrite <- (wk_nodes _ _ _ Hw) in HfS, HtS. apply elem_of_dom in HfS as [n Hn], HtS as [t Ht]. unfold close_branch. simpl. rewrite Hn, Ht.
  destruct (wk_node _ _ _ Hw _ n Hn) as [(id & Hid & Hlive) _]. destruct (wk_node _ _ _ Hw _ t Ht) as [Hlt Hst'].
  assert (m_arc m !! i = None) as Hmi by (apply not_elem_of_dom; by rewrite (wk_arcs _ _ _ Hw)).
  assert (<[ToSym step := t]> (m_node m) = m_node m) as Hsame by (by apply insert_id). constructor.
  - rewrite <- list_fmap_compose. apply NoDup_fmap_2_strong; [|apply NoDup_filter; eapply hops_once; [done|by exists id]].
    intros x y [_ Hx]%list_elem_of_filter [_ Hy]%list_elem_of_filter [= He]. eapply hops_kind; [done|exact Hx|exact Hy|by exists id|done].
  - intros q (x & -> & [[Hxt%N.eqb_eq Htk]%andb_true_iff Hx]%list_elem_of_filter)%list_elem_of_fmap. simpl.
    destruct (hops_live v L Ds HR _ _ _ _ Hx) as (tid & y & Htid & _ & Hy).
    apply (takes_iff S D K r m i step x y) in Htk as [Hk Hno]; [|done..].
    pose proof (hop_fits step n id true x Hid (or_introl eq_refl) Hr Hx Hk) as Hf. simpl in Hf. rewrite Hxt in Hf. split; [|split; [|done]].
    + apply (row_rep_mark K false r); try done; [set_solver| |apply HR0]. intros s. rewrite Hsame. apply HR0.
    + apply (weak_add S D m (ToSym step) t i step n t); try done; [by rewrite Hsame|by rewrite Hsame|].
      intros j st' arc' e Hj Hp' Harc' _ ->%list_elem_of_singleton. by apply (Hno j st' arc').
  - simpl. intros M HM ->. destruct (wanted_arc M i step HM Hst) as (arc & a & b & Harc & Ha & Hbm & Hf).
    destruct (fits_hop _ _ _ _ Hf Hr) as (e & -> & a' & b' & k & Hida & Hidb & Hj & Hk).
    pose proof (wo_weak Hwanted M HM) as HwM. simpl in Hn, Ht. apply map_lookup_filter_Some in Hn as [Hn _], Ht as [Ht _].
    assert (a = n) as -> by congruence. assert (b = t) as -> by congruence.
    exists t, ([n; t], [e]). split; [done|]. split; [done|]. apply list_elem_of_fmap.
    assert ((t, k, e) ∈ hops v L step n true) as Hx.
    { apply (hops_spec v L Ds HR _ _ id); [done|by left|]. exists b'. split; [done|]. congruence. }
    exists (mark v step EmptyString r (t, k, e), (t, hop_arc true n t e)). split; [done|].
    apply list_elem_of_fmap. exists (t, k, e). split; [done|]. apply list_elem_of_filter. split; [|done]. simpl. rewrite N.eqb_refl. simpl.
    destruct (hops_live v L Ds HR _ _ _ _ Hx) as (_ & y & _ & _ & Hy).
    apply (takes_iff S D K r (restrict S D M) i step (t, k, e) y HR0 Hw Hst Hy). split; [done|].
    intros j st' arc' Hj' Hp' [Harc' HjD]%map_lookup_filter_Some Hin. simpl in HjD, Hin.
    refine (wk_once _ _ _ HwM i j step st' _ arc' e _ Hst Hj' _ Hr Harc Harc' _ Hin); [set_solver|done|simpl; by left].
Qed.

(** The trails from one end, along the step or against it. *)
Definition orient (from : bool) (t : list NodeID * list N) : list NodeID * list N := if from then t else (reverse t.1, reverse t.2).
Lemma orient_links step (from : bool) t : links (along v L Ds step from) t.1 t.2 ↔ links (takes_edge v L Ds step) (orient from t).1 (orient from t).2.
Proof. destruct from; [done|]. simpl. by rewrite (links_reverse _ t.1 t.2). Qed.
Lemma orient_orient from t : orient from (orient from t) = t.
Proof. destruct from; [done|]. unfold orient. simpl. rewrite !reverse_involutive. by destruct t. Qed.
Lemma orient_ends from t : head (orient from t).1 = (if from then head t.1 else last t.1) ∧ last (orient from t).1 = (if from then last t.1 else head t.1).
Proof. destruct from; simpl; [done|]. by rewrite head_reverse, last_reverse. Qed.
Lemma orient_edges from t e : e ∈ (orient from t).2 ↔ e ∈ t.2.
Proof. destruct from; [done|]. simpl. by rewrite elem_of_reverse. Qed.

Definition trail_branch (step : Step) (from : bool) (far key : string) (flip : bool) (r : Row) (ts : list (list NodeID * list N)) : list branch :=
  (λ t, (trail_row_for v step far key r flip t, (default 0 (last t.1), orient from t))) <$> ts.
Lemma links_live step (from : bool) ns es root n : links (along v L Ds step from) ns es → head ns = Some root → last ns = Some n →
  live_node v L Ds root → live_node v L Ds n.
Proof.
  assert (∀ x e y, takes_edge v L Ds step x e y → live_node v L Ds x ∧ live_node v L Ds y) as Hlive.
  { intros x e y (a & b & k & Ha & Hb & Hj & _). assert (is_Some (g_nodes (view_graph L Ds) !! a) ∧ is_Some (g_nodes (view_graph L Ds) !! b)) as [? ?]; [|split; by eexists].
    unfold joins in Hj. destruct (st_Direction step); [by apply (visible_iff L Ds) in Hj as (_ & ? & ?)..|].
    destruct (String.eqb _ _); [by apply (visible_iff L Ds) in Hj as (_ & ? & ?)|]. destruct Hj as [_ [(_ & ? & ?)%(visible_iff L Ds)|(_ & ? & ?)%(visible_iff L Ds)]]; done. }
  revert root es. induction ns as [|x [|y ns] IH]; intros root [|e es] Hl Hh Hn Hr; try done.
  - simpl in *. congruence.
  - destruct Hl as [Ha Hl]. apply (IH y es); [done..|]. unfold along in Ha. destruct from; by destruct (Hlive _ _ _ Ha).
Qed.

Lemma branches_trail S D K (bind : bool) i step range (from flip : bool) near far admits root p ts :
  near = (if from then FromSym step else ToSym step) → far = (if from then ToSym step else FromSym step) →
  Chains part !! i = Some step → st_Range step = Some range → i ∉ D → K ⊆ D → near ∈ S → far ∉ S →
  (bind = true → from = true ∧ flip = Reversed step) →
  (∀ n, admits n = true → sat_node v (Nodes part !! far) n = true) → (∀ M n, wanted M → m_node M !! far = Some n → admits n = true) →
  m_node p.2 !! near = Some root → row_rep K p.1 p.2 → weak S D p.2 →
  NoDup ts → (∀ ns es, (ns, es) ∈ ts ↔ trail_found v L Ds step range p.1 from admits root ns es) →
  branches S D K (with_key bind i K) far i p (trail_branch step from far (arc_key bind i) flip p.1 ts).
Proof.
  intros Hnear Hfar Hst Hr Hi HK HnS HfS Hbind Hsound Hcomplete Hroot HR0 Hw Hnd Hts. destruct p as [r m]. simpl in *.
  assert (m_arc m !! i = None) as Hmi by (apply not_elem_of_dom; by rewrite (wk_arcs _ _ _ Hw)).
  assert (near ≠ far) as Hne by congruence. unfold trail_branch.
  assert (∀ e, unused v step r e ↔ ¬ uses false m (Pattern step) (edge_ident v e)) as Hun.
  { intros e. unfold unused. rewrite <- not_true_iff_false, edgeUsed_spec, (rr_used _ _ _ HR0). done. }
  constructor.
  - rewrite <- list_fmap_compose. apply NoDup_fmap_2_strong; [|done]. intros t t' _ _ [= _ Ho]. by rewrite <- (orient_orient from t), Ho, orient_orient.
  - intros q ([ns es] & -> & (Hh & (Hl & Hnde & Hus) & Hrg & n & Hn & Had)%Hts)%list_elem_of_fmap. simpl. rewrite Hn. simpl.
    set (arc := orient from (ns, es)). pose proof (orient_ends from (ns, es)) as [Hoh Hol]. fold arc in Hoh, Hol. simpl in Hoh, Hol.
    assert (arc_fits step (if from then root else n) (if from then n else root) arc) as Hf.
    { unfold arc_fits. rewrite Hr, Hoh, Hol. split; [by destruct from|]. split; [by destruct from|]. split; [by apply (orient_links step from (ns, es))|].
      unfold arc, orient. destruct from; simpl; [done|]. split; [by rewrite reverse_Permutation|]. unfold len in *. by rewrite length_reverse. }
    destruct (wk_node _ _ _ Hw near root Hroot) as [Hlr _]. pose proof (links_live step from ns es root n Hl Hh Hn Hlr) as Hlive.
    split; [apply row_rep_trail; [done|set_solver|done|done|by rewrite Hr|done| |]|].
    + intros e. unfold arc. by rewrite orient_edges.
    + intros Hb. destruct (Hbind Hb) as [-> ->]. done.
    + split; [|done]. apply (weak_add S D m far n i step (if from then root else n) (if from then n else root)); try done.
      * by apply Hsound.
      * destruct from; subst near far; [by rewrite lookup_insert_ne|by rewrite lookup_insert_eq].
      * destruct from; subst near far; [by rewrite lookup_insert_eq|by rewrite lookup_insert_ne].
      * intros j st' arc' e Hj Hp' Harc' [?|Hr'] He He'; [congruence|]. unfold arc in He. rewrite orient_edges in He. simpl in He.
        rewrite Forall_forall in Hus. apply (proj1 (Hun e) (Hus e He)). exists j, st', arc', e. rewrite Hr'. done.
  - simpl. intros M HM ->. destruct (wanted_arc M i step HM Hst) as (arc & a & b & Harc & Ha & Hb & Hf).
    pose proof (wo_weak Hwanted M HM) as HwM. simpl in Hroot. apply map_lookup_filter_Some in Hroot as [Hroot _].
    pose proof Hf as (Hh & Hl & Hlink & Hlen). rewrite Hr in Hlen. destruct Hlen as [Hnde Hrg].
    pose proof (orient_ends from arc) as [Hoh Hol]. set (t := orient from arc) in *. assert (orient from t = arc) as Hback by apply orient_orient.
    set (n := if from then b else a). assert (m_node M !! far = Some n) as HnM by (subst n far; by destruct from).
    assert (last t.1 = Some n) as Hlast by (rewrite Hol; subst n; by destruct from).
    exists n, arc. split; [done|]. split; [done|]. apply list_elem_of_fmap. exists (trail_row_for v step far (arc_key bind i) r flip t, (default 0 (last t.1), orient from t)).
    rewrite Hlast, Hback. split; [done|]. apply list_elem_of_fmap. exists t. rewrite Hlast, Hback. split; [done|]. destruct t as [ns es] eqn:Et. apply Hts.
    assert (∀ e, e ∈ es ↔ e ∈ arc.2) as Hes by (intros e; rewrite <- Hback; by rewrite orient_edges).
    split; [simpl in Hoh; rewrite Hoh; subst near; destruct from; congruence|]. split; [|split; [|exists n; split; [done|by eapply Hcomplete]]].
    + split; [apply (orient_links step from (ns, es)); by rewrite Hback|]. split.
      * assert (es = (orient from arc).2) as -> by (change (orient from arc) with t; by rewrite Et). unfold orient. destruct from; [done|]. simpl. by rewrite reverse_Permutation.
      * apply Forall_forall. intros e He. apply Hun. intros Hu. apply Hes in He. pose proof (arc_visible step a b arc e Hf He) as Hvis.
        destruct (uses_arc S D _ step (Pattern step) e _ Hw Hu Hvis eq_refl) as (j & st' & arc' & [Harc' HjD]%map_lookup_filter_Some & Hj & Hp & Htr & Hin).
        refine (wk_once _ _ _ HwM j i st' step arc' arc e _ Hj Hst Hp _ Harc' Harc Hin He); [set_solver|].
        apply bool_decide_eq_false in Htr. destruct (st_Range st') as [rg|]; [destruct Htr; by exists rg|done].
    + assert (es = (orient from arc).2) as -> by (change (orient from arc) with t; by rewrite Et). unfold orient. destruct from; [done|]. simpl. unfold len in *. by rewrite length_reverse.
Qed.
End matching.
