(* ===== verification/ComponentRuns.v ===== *)
(** * Matching a component: its rows

    The walks of [Components] find every match of the component's steps, once:
    the search breadth first over the symbols, the chains in both directions,
    and the named paths put together from what the steps have bound. *)

From S2P Require Import Prelude Bitset Csr Snapshot Segment View ViewAdj EdgeKinds Traverse ViewTraverse Rows Scan Hops Trails Components Matching.
From stdpp Require Import options pretty.
Unset Default Proof Using.
#[local] Open Scope N_scope.

Section walking.
Context `{GoStd} `{Cypher} `{!CypherLaws}.
Context (v : View) (L : layout) (Ds : list delta) (HR : View_rep v L Ds).
Hypothesis Hsize : View_NodeCount v < 2 ^ 31.
Let G := view_graph L Ds.
Context (budget : Budgets) (ctx : Ctx) (fuel : N) (E : goerr → Prop).
Hypothesis HE : ∀ e, out_of_budget budget ctx e → E e.
Hypothesis Heval : ∀ e, eval_error v e → E e.
Let J (s : exec_state) := memo_ok v L (x_memo s).
Context (part : Part) (wanted : Match → Prop) (Hpart : part_ok v part) (Hwanted : wanted_ok v L Ds part wanted).
Hypothesis Hfuel : ∀ i step range, Chains part !! i = Some step → st_Range step = Some range → (1 + edge_total L Ds) ^ Z.to_N (rg_Max range) < fuel.
Abbreviation covers := (covers v L Ds part wanted).

(** ** The anchor *)

Lemma links_first (R : N → N → N → Prop) ns es e n : links R ns (e :: es) → head ns = Some n → ∃ m, R n e m.
Proof. destruct ns as [|a [|b ns]]; [done..|]. simpl. intros [? _] [= ->]. eauto. Qed.
Lemma links_last (R : N → N → N → Prop) ns es e n : links R ns (e :: es) → last ns = Some n → ∃ m e', R m e' n.
Proof.
  revert ns e. induction es as [|e' es IH]; intros ns e; destruct ns as [|a [|b ns]]; try done.
  - intros [Hr Hl] Hn. destruct ns; [|done]. simpl in Hn. injection Hn as <-. eauto.
  - intros [Hr Hl] Hn. apply (IH (b :: ns) e'); [done|]. done.
Qed.
Lemma wanted_end M i step s n : wanted M → Chains part !! i = Some step → m_node M !! s = Some n → step_end v L Ds step s n.
Proof.
  intros HM Hst Hn Hmin Hk Hboth Hs. destruct (wanted_arc v L Ds Hsize part wanted Hwanted M i step HM Hst) as (arc & a & b & Harc & Ha & Hb & Hh & Hl & Hlink & Hlen).
  pose proof (po_steps _ _ Hpart i step Hst) as so. assert (arc.2 ≠ []) as Hne.
  { intros He. rewrite He in Hlen. destruct (st_Range step) as [range|] eqn:Er; [|done]. destruct Hlen as [_ Hr].
    apply in_range_iff in Hr. rewrite len_nil in Hr. destruct (so_range _ _ so range Er) as (_ & ? & _). specialize (Hmin range eq_refl). lia. }
  destruct arc as [ns [|e es]]; [done|]. simpl in *. pose proof (so_dir _ _ so) as Hdir.
  assert (∀ x e' y, takes_edge v L Ds step x e' y → ∃ a' b' k, visible G !! e' = Some (a', b', k) ∧ k ∈ EdgeKinds step ∧
    idx (view_ids v) x = Some a' ∧ idx (view_ids v) y = Some b') as Htake.
  { intros x e' y (a' & b' & k & Hx & Hy & Hj & Hkk). exists a', b', k. unfold joins in Hj.
    apply edgeKindOK_spec in Hkk as [?|Hkk]; [done|]. by destruct (st_Direction step). }
  assert (bool_decide (st_Direction step = DirectionInbound) = false) as Hinb by (by apply bool_decide_eq_false). rewrite Hinb.
  destruct (decide (FromSym step = s)) as [<-|Hf].
  - destruct (links_first _ _ _ _ _ Hlink Hh) as (y & (a' & b' & k & Hv & Hin & Hx & Hy)%Htake). exists e, a', b', k. split; [done|]. split; [done|].
    split; [intros _; congruence|done].
  - destruct (links_last _ _ _ _ _ Hlink Hl) as (x & e' & (a' & b' & k & Hv & Hin & Hx & Hy)%Htake). exists e', a', b', k. split; [done|]. split; [done|].
    split; [done|]. intros _ <-. congruence.
Qed.

Lemma row_rep_anchor s n : row_rep v part ∅ (SetNode NewRow s n) (mkMatch {[s := n]} ∅).
Proof.
  assert (∀ j x, m_arc (mkMatch {[s := n]} ∅) !! j ≠ Some x) as Hno by (intros j x; simpl; by rewrite lookup_empty). constructor.
  - intros s'. rewrite Node_SetNode. simpl. destruct (decide (s = s')) as [<-|]; [by rewrite lookup_singleton_eq|by rewrite lookup_singleton_ne].
  - intros p x. simpl. split; [by intros ?%not_elem_of_nil|]. by intros (j & st & arc & e & Hj%Hno & _).
  - intros p x. simpl. split; [by intros ?%not_elem_of_nil|]. by intros (j & st & arc & e & Hj%Hno & _).
  - intros s' ref _. split; [done|]. by intros (j & st & arc & e & Hj%Hno & _).
  - done.
  - done.
  - set_solver.
  - apply once_SetNode, once_NewRow.
Qed.
Lemma covers_anchor s (idxs : list nat) hint rows : s ∈ dom (Nodes part) → scanned v s (Nodes part !! s) hint rows →
  hint_sound v hint (λ n, ∀ i step, i ∈ idxs → Chains part !! i = Some step → step_end v L Ds step s n) →
  covers {[s]} ∅ ∅ rows.
Proof.
  intros Hs (ns & Hnd & -> & Hsound & Hall) [_ Hh]. exists ((λ n, (SetNode NewRow s n, mkMatch {[s := n]} ∅)) <$> ns).
  split; [by rewrite <- list_fmap_compose|]. split_and!.
  - rewrite <- list_fmap_compose. apply NoDup_fmap_2_strong; [|done]. intros n n' _ _ Hm. simpl in Hm. apply (f_equal m_node) in Hm. simpl in Hm.
    apply (f_equal (lookup s)) in Hm. rewrite !lookup_singleton_eq in Hm. by injection Hm.
  - intros p (n & -> & Hn%Hsound)%list_elem_of_fmap. simpl. split; [apply row_rep_anchor|].
    destruct (admits_numbered v L Ds HR s _ None n Hn) as (id & Hid & Hlive). pose proof (proj1 (admits_node_iff v L Ds HR _ _ _ _ _ Hid) Hn) as (_ & Hfit & _).
    constructor; simpl; [by rewrite dom_singleton_L|done| |by intros i arc; rewrite lookup_empty|by intros i j st st' arc arc' e; rewrite lookup_empty].
    intros s' n' Hx. apply lookup_singleton_Some in Hx as [<- <-]. split; [by exists id|].
    destruct (satisfies_ok v L Ds HR (Nodes part !! s) n id Hid Hlive) as (b & Eb & Hb). unfold sat_node. rewrite Eb. by apply Hb.
  - intros M HM. pose proof (wo_weak _ _ _ _ _ Hwanted M HM) as Hw. rewrite <- list_fmap_compose. apply list_elem_of_fmap.
    assert (s ∈ dom (m_node M)) as [n Hn]%elem_of_dom by (by rewrite (wk_nodes _ _ _ _ _ _ _ Hw)).
    exists n. split.
    + unfold restrict. simpl. f_equal.
      * apply map_eq. intros s'. apply option_eq. intros n'. rewrite map_lookup_filter_Some, lookup_singleton_Some. simpl. rewrite elem_of_singleton. naive_solver congruence.
      * apply map_eq. intros j. apply option_eq. intros arc. rewrite map_lookup_filter_Some, lookup_empty. set_solver.
    + destruct (wk_node _ _ _ _ _ _ _ Hw s n Hn) as [(id & Hid & Hlive) Hsat]. apply Hall.
      * apply (admits_node_iff v L Ds HR _ _ _ _ _ Hid). split; [done|]. split; [|by apply (wo_preds _ _ _ _ _ Hwanted M)].
        destruct (satisfies_ok v L Ds HR (Nodes part !! s) n id Hid Hlive) as (b & Eb & Hb). apply Hb. unfold sat_node in Hsat. by rewrite Eb in Hsat.
      * apply Hh. intros i step _ Hst. by apply (wanted_end M i).
      * by apply (wo_allows _ _ _ _ _ Hwanted M).
Qed.

Lemma runs_anchor s idxs : s ∈ dom (Nodes part) →
  runs J E (let! hint := hintForAnchor v part idxs s in scanAnchorHinted v budget ctx s (Nodes part !! s) hint)%go (covers {[s]} ∅ ∅).
Proof.
  intros Hs. eapply runs_then; [by eapply runs_hintForAnchor|]. intros hint Hh. assert (nc_proper v (Nodes part !! s)) as Hnc.
  { apply elem_of_dom in Hs as [nc Hnc]. rewrite Hnc. by apply (po_nodes _ _ Hpart s). }
  eapply runs_mono; [eapply (runs_scanAnchorHinted v L Ds HR); try done; apply Hh|]. intros rows Hrows. exact (covers_anchor s idxs hint rows Hs Hrows Hh).
Qed.

(** ** One step *)

Lemma covers_rows S D K rows : covers S D K rows → ∀ r, r ∈ rows → ∃ m, row_rep v part K r m ∧ weak v L Ds part S D m.
Proof. intros (ps & -> & _ & Hps & _) r (p & -> & Hp)%list_elem_of_fmap. exists p.2. by apply Hps. Qed.
Lemma grown_rows u i f g (ps : list (Row * Match)) : (∀ p, p ∈ ps → (f p).*1 = g p.1) → (grown u i f ps).*1 = ps.*1 ≫= g.
Proof.
  intros Hf. unfold grown. rewrite fmap_bind, bind_fmap_comp. apply bind_ext. intros p Hp. rewrite <- (Hf p Hp), <- list_fmap_compose. done.
Qed.

Lemma runs_expand S D K (bind : bool) i step (from : bool) bound u rows :
  bound = (if from then FromSym step else ToSym step) → u = (if from then ToSym step else FromSym step) →
  Chains part !! i = Some step → st_Range step = None → i ∉ D → K ⊆ D → bound ∈ S → u ∉ S → covers S D K rows →
  runs J E (expandStep v budget ctx rows step bound u from (Nodes part !! u) (arc_key bind i)) (covers ({[u]} ∪ S) ({[i]} ∪ D) (with_key bind i K)).
Proof.
  intros Hb Hu Hst Hr Hi HK HbS HuS Hcov. pose proof (covers_rows S D K rows Hcov) as Hrows. destruct Hcov as (ps & -> & Hcov). pose proof Hcov as (_ & Hps & _).
  eapply runs_mono; [eapply (runs_expandStep v L Ds HR Hsize budget ctx E HE Heval)|].
  - intros r Hr'. destruct (Hrows r Hr') as (m & Hrep & Hw). rewrite <- (wk_nodes _ _ _ _ _ _ _ Hw) in HbS. apply elem_of_dom in HbS as [n Hn].
    destruct (wk_node _ _ _ _ _ _ _ Hw _ n Hn) as [(id & Hid & _) _]. exists n, id. split; [|done]. by rewrite (rr_nodes _ _ _ _ _ Hrep).
  - intros ? ->. exists (grown u i (expand_branch v L part step from bound u (arc_key bind i)) ps). split.
    + symmetry. apply grown_rows. intros p Hp. destruct (Hps p Hp) as [Hrep Hw]. unfold expand_branch, expanded. rewrite (rr_nodes _ _ _ _ _ Hrep).
      destruct (m_node p.2 !! bound); [|done]. by rewrite <- list_fmap_compose.
    + eapply covering_grown; [exact Hcov|done|]. intros p Hp Hrep Hw. by eapply branches_expand.
Qed.
Lemma runs_close S D K i step rows : Chains part !! i = Some step → st_Range step = None → i ∉ D → K ⊆ D → FromSym step ∈ S → ToSym step ∈ S →
  covers S D K rows → runs J E (verifyClosingStep v budget ctx rows step) (covers S ({[i]} ∪ D) K).
Proof.
  intros Hst Hr Hi HK HfS HtS Hcov. pose proof (covers_rows S D K rows Hcov) as Hrows. destruct Hcov as (ps & -> & Hcov). pose proof Hcov as (_ & Hps & _).
  eapply runs_mono; [eapply (runs_verifyClosingStep v L Ds HR Hsize budget ctx E HE)|].
  - intros r Hr'. destruct (Hrows r Hr') as (m & Hrep & Hw). rewrite <- (wk_nodes _ _ _ _ _ _ _ Hw) in HfS, HtS. apply elem_of_dom in HfS as [n Hn], HtS as [t Ht].
    destruct (wk_node _ _ _ _ _ _ _ Hw _ n Hn) as [(id & Hid & _) _]. exists n, id, t. by rewrite !(rr_nodes _ _ _ _ _ Hrep).
  - intros ? ->. exists (grown (ToSym step) i (close_branch v L step) ps). split.
    + symmetry. apply grown_rows. intros p Hp. destruct (Hps p Hp) as [Hrep Hw]. unfold close_branch, closed. rewrite !(rr_nodes _ _ _ _ _ Hrep).
      destruct (m_node p.2 !! FromSym step), (m_node p.2 !! ToSym step); [by rewrite <- list_fmap_compose|done..].
    + assert ({[ToSym step]} ∪ S = S) as HeqS by set_solver. rewrite <- HeqS. eapply covering_grown; [exact Hcov|done|]. intros p Hp Hrep Hw. by eapply branches_close.
Qed.

Lemma covers_sets S D K S' D' K' rows : covers S D K rows → S = S' → D = D' → K = K' → covers S' D' K' rows.
Proof. by intros ? <- <- <-. Qed.
Lemma covers_nil S D K S' D' K' : covers S D K [] → covers S' D' K' [].
Proof.
  intros (ps & Hps & _ & _ & Hall). destruct ps; [|done]. exists []. split; [done|]. split; [constructor|]. split; [by intros p Hp%not_elem_of_nil|].
  intros M HM. specialize (Hall M HM). by apply not_elem_of_nil in Hall.
Qed.

(** A variable-length step, from every row. *)
Definition seed_trails (step : Step) (range : Range) (r : Row) : list (list NodeID * list N) :=
  trails_of v L step range r true (sat_node v (Nodes part !! ToSym step)) (default 0 (Node r (FromSym step))).
Definition trail_rows (step : Step) (range : Range) (key : string) (r : Row) : list Row :=
  trail_row_for v step (ToSym step) key r (Reversed step) <$> seed_trails step range r.
Definition forward_branch (i : nat) (bind : bool) (step : Step) (range : Range) (p : Row * Match) : list branch :=
  trail_branch v step true (ToSym step) (arc_key bind i) (Reversed step) p.1 (seed_trails step range p.1).
Lemma trails_from (from : bool) step range r admits root : (0 ≤ rg_Min range)%Z ∧ (1 ≤ rg_Max range)%Z → live_node v L Ds root →
  from = true ∨ FromSym step ≠ ToSym step → NoDup (trails_of v L step range r from admits root) ∧
  ∀ ns es, (ns, es) ∈ trails_of v L step range r from admits root ↔ trail_found v L Ds step range r from admits root ns es.
Proof. intros Hrg Hlive Hends. apply (trails_of_spec v L Ds HR Hsize step range r from admits None root); [done|by exists true|done|done]. Qed.
Lemma covering_trails S D K (bind : bool) i step range ps : Chains part !! i = Some step → st_Range step = Some range → i ∉ D → K ⊆ D →
  FromSym step ∈ S → ToSym step ∉ S → covering v L Ds part wanted S D K ps →
  covering v L Ds part wanted ({[ToSym step]} ∪ S) ({[i]} ∪ D) (with_key bind i K) (grown (ToSym step) i (forward_branch i bind step range) ps).
Proof.
  intros Hst Hr Hi HK HfS HtS Hcov. eapply covering_grown; [exact Hcov|done|]. intros p Hp Hrep Hw.
  rewrite <- (wk_nodes _ _ _ _ _ _ _ Hw) in HfS. apply elem_of_dom in HfS as [root Hroot]. unfold forward_branch, seed_trails.
  rewrite (rr_nodes _ _ _ _ _ Hrep), Hroot. simpl.
  destruct (so_range _ _ (po_steps _ _ Hpart i step Hst) range Hr) as (_ & Hrg).
  destruct (trails_from true step range p.1 (sat_node v (Nodes part !! ToSym step)) root) as [Hnd Hspec]; [done|by destruct (wk_node _ _ _ _ _ _ _ Hw _ root Hroot)|by left|].
  eapply (branches_trail v L Ds HR Hsize part wanted Hpart Hwanted S D K bind i step range true); try done.
  - rewrite <- (wk_nodes _ _ _ _ _ _ _ Hw). apply elem_of_dom. eauto.
  - intros M n HM Hn. pose proof (wo_weak _ _ _ _ _ Hwanted M HM) as HwM. by apply (wk_node _ _ _ _ _ _ _ HwM).
Qed.
Lemma covers_trails S D K (bind : bool) i step range rows : Chains part !! i = Some step → st_Range step = Some range → i ∉ D → K ⊆ D →
  FromSym step ∈ S → ToSym step ∉ S → covers S D K rows →
  (∀ r, r ∈ rows → ∃ root, Node r (FromSym step) = Some root ∧ live_node v L Ds root) ∧
  covers ({[ToSym step]} ∪ S) ({[i]} ∪ D) (with_key bind i K) (rows ≫= trail_rows step range (arc_key bind i)).
Proof.
  intros Hst Hr Hi HK HfS HtS Hcov. assert (∀ r, r ∈ rows → ∃ root, Node r (FromSym step) = Some root ∧ live_node v L Ds root) as Hroots.
  { intros r Hr'. destruct (covers_rows S D K rows Hcov r Hr') as (m & Hrep & Hw). rewrite <- (wk_nodes _ _ _ _ _ _ _ Hw) in HfS. apply elem_of_dom in HfS as [n Hn].
    exists n. rewrite (rr_nodes _ _ _ _ _ Hrep). split; [done|]. by destruct (wk_node _ _ _ _ _ _ _ Hw _ n Hn). }
  split; [done|]. destruct Hcov as (ps & -> & Hcov).
  exists (grown (ToSym step) i (forward_branch i bind step range) ps). split; [|by apply covering_trails].
  symmetry. apply grown_rows. intros p Hp. unfold forward_branch, trail_branch, trail_rows. by rewrite <- list_fmap_compose.
Qed.
Lemma runs_chain_step S D K (bind : bool) i step rows : Chains part !! i = Some step → i ∉ D → K ⊆ D → FromSym step ∈ S → ToSym step ∉ S →
  (step_declined v step = true → E ErrUnsupportedStep) → covers S D K rows →
  runs J E (chain_step v budget ctx fuel part bind rows i) (covers ({[ToSym step]} ∪ S) ({[i]} ∪ D) (with_key bind i K)).
Proof.
  intros Hst Hi HK HfS HtS Hdec Hcov. unfold chain_step. eapply runs_bind, runs_lift; [done|]. destruct (st_Range step) as [range|] eqn:Er.
  2:{ by apply runs_expand. }
  assert (step_declined v step = negb (String.eqb (EdgeSym step) EmptyString) || String.eqb (FromSym step) (ToSym step) || SelfLoopHazard v (EdgeKinds step)) as Ed
    by (unfold step_declined; by rewrite Er).
  rewrite Ed in Hdec. clear Ed. destruct (negb _); [by apply runs_err, Hdec|]. destruct (len rows =? 0) eqn:El.
  { apply N.eqb_eq in El. destruct rows; [|rewrite len_cons in El; lia]. apply runs_ret. by eapply covers_nil. }
  destruct (covers_trails S D K bind i step range rows Hst Er Hi HK HfS HtS Hcov) as [Hroots Hgrown].
  destruct (so_range _ _ (po_steps _ _ Hpart i step Hst) range Er) as (Hdir & Hrg). unfold varLengthWalkSetup.
  destruct (SelfLoopHazard _ _); [apply runs_bind, runs_err, Hdec; by rewrite orb_true_r|]. eapply runs_then; [by apply (runs_continuation v L Ds HR)|]. intros contIDs Hc.
  eapply runs_mono; [apply (runs_collect J E _ (trail_rows step range (arc_key bind i)))|intros ? ->; exact Hgrown].
  intros out r Hr. destruct (Hroots r Hr) as (root & Hroot & Hlive).
  eapply runs_then; [by apply (runs_forSeed v L Ds HR Hsize budget ctx fuel E HE step range) with (root := root); try done; eapply Hfuel|]. intros ? ->.
  eapply runs_then; [by eapply runs_observe|]. intros _ _. apply runs_ret. unfold trail_rows, seed_trails. by rewrite Hroot.
Qed.

(** ** Breadth first *)

(** A component: symbols that its steps connect. *)
Record comp_ok (syms : list string) (idxs : list nat) : Prop := {
  co_syms : ∀ s, s ∈ syms → s ∈ dom (Nodes part);
  co_some : syms ≠ [];
  co_idxs : ∀ i, i ∈ idxs → ∃ step, Chains part !! i = Some step ∧ FromSym step ∈ syms ∧ ToSym step ∈ syms;
  co_once : NoDup idxs;
  co_connected : ∀ anchor (V : gset string), anchor ∈ syms → anchor ∈ V →
    (∀ i step, i ∈ idxs → Chains part !! i = Some step → FromSym step ∈ V ∨ ToSym step ∈ V → FromSym step ∈ V ∧ ToSym step ∈ V) →
    ∀ s, s ∈ syms → s ∈ V;
}.

Definition bound_keys (bind : bool) (D : gset nat) : gset nat := if bind then D else ∅.
Lemma with_keys bind i D : with_key bind i (bound_keys bind D) = bound_keys bind ({[i]} ∪ D).
Proof. by destruct bind. Qed.
Lemma keys_sub bind D : bound_keys bind D ⊆ D.
Proof. destruct bind; simpl; set_solver. Qed.
Lemma keys_empty bind : bound_keys bind ∅ = ∅.
Proof. by destruct bind. Qed.

Section tree.
Context (syms : list string) (idxs : list nat) (Hcomp : comp_ok syms idxs) (bind : bool).
Hypothesis Hplain : ∀ i step, i ∈ idxs → Chains part !! i = Some step → st_Range step = None.

Abbreviation keys := (bound_keys bind).

Record tree_inv (busy : gset string) (D : gset nat) (st : treeState) : Prop := {
  ti_cov : covers (ts_visited st) D (keys D) (ts_rows st);
  ti_proc : ts_processed st = D ∪ list_to_set (ts_closing st);
  ti_disj : ∀ i, i ∈ ts_closing st → i ∉ D;
  ti_once : NoDup (ts_closing st);
  ti_ends : ∀ i, i ∈ ts_processed st → i ∈ idxs ∧ ∃ step, Chains part !! i = Some step ∧ FromSym step ∈ ts_visited st ∧ ToSym step ∈ ts_visited st;
  ti_queue : ∀ s, s ∈ ts_queue st → s ∈ ts_visited st;
  ti_done : ∀ s i step, s ∈ ts_visited st → s ∉ ts_queue st → s ∉ busy → i ∈ idxs → Chains part !! i = Some step →
    FromSym step = s ∨ ToSym step = s → i ∈ ts_processed st;
  ti_size : size (ts_visited st) = Datatypes.S (size D);
  ti_syms : ∀ s, s ∈ ts_visited st → s ∈ syms;
}.
Definition tree_cost (st : treeState) : N := len (ts_queue st) + (len idxs - N.of_nat (size (ts_processed st))).

Lemma processed_size busy D st : tree_inv busy D st → N.of_nat (size (ts_processed st)) ≤ len idxs.
Proof.
  intros Hi. unfold len. assert (size (ts_processed st) ≤ length idxs)%nat; [|lia].
  rewrite <- (size_list_to_set (C := gset nat) idxs) by apply Hcomp. apply subseteq_size. intros i Hp. apply elem_of_list_to_set. by apply (ti_ends _ _ _ Hi).
Qed.

Lemma tree_add_cost busy D queue visited processed closing rows i q' : tree_inv busy D (mkTreeState queue visited processed closing rows) → i ∈ idxs → i ∉ processed →
  len q' ≤ len queue + 1 → ∀ v' c' r', tree_cost (mkTreeState q' v' ({[i]} ∪ processed) c' r') ≤ tree_cost (mkTreeState queue visited processed closing rows).
Proof.
  intros Hi Hin Hn Hq v' c' r'. unfold tree_cost. simpl. rewrite size_union by set_solver. rewrite size_singleton.
  assert (size processed < length idxs)%nat; [|unfold len in *; lia].
  rewrite <- (size_list_to_set (C := gset nat) idxs) by apply Hcomp. apply subset_size. split.
  - intros j Hj. apply elem_of_list_to_set. by apply (ti_ends _ _ _ Hi j).
  - intros Hs. apply Hn, Hs, elem_of_list_to_set, Hin.
Qed.

Lemma runs_tree_visit cur D st i step : tree_inv {[cur]} D st → cur ∈ ts_visited st → i ∈ idxs → Chains part !! i = Some step →
  FromSym step = cur ∨ ToSym step = cur →
  runs J E (tree_visit v budget ctx part bind cur st i)
    (λ st', (∃ D', tree_inv {[cur]} D' st') ∧ i ∈ ts_processed st' ∧ ts_processed st ⊆ ts_processed st' ∧ ts_visited st ⊆ ts_visited st' ∧ tree_cost st' ≤ tree_cost st).
Proof.
  intros Hinv Hcur Hi Hst Htouch. destruct st as [queue visited processed closing rows]. unfold tree_visit.
  destruct (bool_decide_reflect (i ∈ processed)) as [Hp|Hp]; [apply runs_ret; split_and!; [by exists D|done|done|done|done]|].
  eapply runs_bind, runs_lift; [done|]. pose proof Hinv as [Hcov Hproc Hdisj Honce Hends Hqueue Hdone Hsz Hsyms]. cbn [ts_queue ts_visited ts_processed ts_closing ts_rows] in *.
  set (from := negb (String.eqb cur (ToSym step) && negb (String.eqb cur (FromSym step)))).
  assert (cur = if from then FromSym step else ToSym step) as Hbound.
  { unfold from. destruct (String.eqb_spec cur (ToSym step)) as [He|He], (String.eqb_spec cur (FromSym step)) as [He'|He']; simpl; try done. destruct Htouch; congruence. }
  set (other := if from then ToSym step else FromSym step).
  assert (FromSym step = cur ∧ ToSym step = other ∨ FromSym step = other ∧ ToSym step = cur) as Hboth by (unfold other; destruct from; auto).
  assert (i ∉ D) as HiD by set_solver.
  destruct (co_idxs _ _ Hcomp i Hi) as (step' & Hst' & HfS & HtS). rewrite Hst in Hst'. injection Hst' as <-.
  destruct (bool_decide_reflect (other ∈ visited)) as [Ho|Ho].
  - apply runs_ret. split; [|split; [simpl; set_solver|split; [simpl; set_solver|split; [done|eapply tree_add_cost; [done..|lia]]]]]. exists D. constructor; simpl.
    + done.
    + rewrite Hproc, list_to_set_app_L. simpl. set_solver.
    + intros j [Hj| ->%list_elem_of_singleton]%elem_of_app; [by apply Hdisj|done].
    + apply NoDup_app. split; [done|]. split; [|apply NoDup_singleton]. intros j Hj ->%list_elem_of_singleton. set_solver.
    + intros j [->%elem_of_singleton|Hj]%elem_of_union; [|by apply Hends]. split; [done|]. exists step. split; [done|]. destruct Hboth as [[-> ->]|[-> ->]]; done.
    + done.
    + intros s j st Hs Hq Hb Hj Hsj Hor. apply elem_of_union_r. by eapply (Hdone s j st).
    + done.
    + done.
  - assert ((if from then (FromSym step, ToSym step) else (ToSym step, FromSym step)) = (cur, other)) as -> by (unfold other; rewrite Hbound; by destruct from).
    eapply runs_then; [eapply (runs_expand visited D (keys D) bind i step from cur other rows)|]; try done; [by eapply Hplain|apply keys_sub|].
    intros rows' Hcov'. rewrite with_keys in Hcov'. apply runs_ret.
    split; [|split; [simpl; set_solver|split; [simpl; set_solver|split; [simpl; set_solver|eapply tree_add_cost; [done..|rewrite len_app, len_cons, len_nil; lia]]]]].
    exists ({[i]} ∪ D). constructor; simpl.
    + done.
    + rewrite Hproc. set_solver.
    + intros j Hj. specialize (Hdisj j Hj). intros [->%elem_of_singleton|?]%elem_of_union; [|done]. apply Hp. rewrite Hproc. apply elem_of_union_r. by apply elem_of_list_to_set.
    + done.
    + intros j [->%elem_of_singleton|Hj]%elem_of_union.
      * split; [done|]. exists step. split; [done|]. destruct Hboth as [[-> ->]|[-> ->]]; set_solver.
      * destruct (Hends j Hj) as (? & st & ? & ? & ?). split; [done|]. exists st. set_solver.
    + intros s [Hs| ->%list_elem_of_singleton]%elem_of_app; [|set_solver]. apply elem_of_union_r. by apply Hqueue.
    + intros s j st Hs Hq Hb Hj Hsj Hor. rewrite elem_of_app, list_elem_of_singleton in Hq. apply elem_of_union_r. eapply (Hdone s j st); try done; [set_solver|tauto].
    + rewrite !size_union by set_solver. rewrite !size_singleton, Hsz. done.
    + intros s [->%elem_of_singleton|Hs]%elem_of_union; [|by apply Hsyms]. destruct Hboth as [[_ <-]|[<- _]]; done.
Qed.

Lemma elem_adj cur i : i ∈ adjBySym part idxs cur ↔ i ∈ idxs ∧ ∃ step, Chains part !! i = Some step ∧ (FromSym step = cur ∨ ToSym step = cur).
Proof.
  unfold adjBySym. rewrite list_elem_of_bind. split.
  - intros (j & Hj & Hin). destruct (Chains part !! j) as [st|] eqn:Ej; [|by apply not_elem_of_nil in Hj].
    apply elem_of_app in Hj as [Hj|Hj].
    + destruct (String.eqb_spec (FromSym st) cur); [|by apply not_elem_of_nil in Hj]. apply list_elem_of_singleton in Hj as ->. eauto.
    + destruct (String.eqb_spec (ToSym st) cur); [|by apply not_elem_of_nil in Hj]. apply list_elem_of_singleton in Hj as ->. eauto.
  - intros (Hin & st & Hst & Hor). exists i. split; [|done]. rewrite Hst. apply elem_of_app. destruct Hor as [<-|<-]; [left|right]; rewrite String.eqb_refl; by left.
Qed.

Lemma runs_tree_round D st : tree_inv ∅ D st →
  runs J E (tree_round v budget ctx part idxs bind st)
    (λ r, match r with inl st' => (∃ D', tree_inv ∅ D' st') ∧ ts_visited st ⊆ ts_visited st' ∧ tree_cost st' < tree_cost st | inr st' => st' = st ∧ ts_queue st = [] end).
Proof.
  intros Hinv. destruct st as [[|cur queue] visited processed closing rows]; unfold tree_round; simpl; [by apply runs_ret|].
  set (st0 := mkTreeState queue visited processed closing rows). pose proof Hinv as [Hcov Hproc Hdisj Honce Hends Hqueue Hdone Hsz Hsyms]. simpl in *.
  assert (tree_inv {[cur]} D st0) as Hinv0.
  { constructor; simpl; try done.
    - intros s Hs. apply Hqueue. by right.
    - intros s j stp Hs Hq Hb. apply Hdone; [done| |set_solver]. rewrite elem_of_cons. set_solver. }
  assert (cur ∈ visited) as Hcur by (apply Hqueue; by left).
  eapply runs_then with (Q := λ st', (∃ D', tree_inv {[cur]} D' st') ∧ (∀ i, i ∈ adjBySym part idxs cur → i ∈ ts_processed st') ∧
      visited ⊆ ts_visited st' ∧ tree_cost st' ≤ tree_cost st0).
  { apply (runs_foldl J E _ (λ done st', (∃ D', tree_inv {[cur]} D' st') ∧ (∀ i, i ∈ done → i ∈ ts_processed st') ∧
      visited ⊆ ts_visited st' ∧ tree_cost st' ≤ tree_cost st0)).
    - intros done i st' ([D' HD'] & Hd & Hv & Hc) (Hi & step & Hst & Hor)%elem_adj.
      eapply runs_mono; [eapply (runs_tree_visit cur D' st' i step); try done; set_solver|].
      intros st'' ([D'' HD''] & Hi' & Hp & Hv' & Hc'). split; [by exists D''|]. split; [|split; [set_solver|lia]].
      intros j [Hj| ->%list_elem_of_singleton]%elem_of_app; [by apply Hp, Hd|done].
    - split; [by exists D|]. split; [by intros i Hi%not_elem_of_nil|]. split; [done|lia]. }
  intros st' ([D' HD'] & Hd & Hv & Hc). apply runs_ret. split; [|split; [done|]].
  - exists D'. destruct HD' as [Hcov' Hproc' Hdisj' Honce' Hends' Hqueue' Hdone' Hsz' Hsyms']. constructor; try done.
    intros s i step Hs Hq _ Hi Hst Hor. destruct (decide (s = cur)) as [->|Hne]; [|eapply (Hdone' s i step); try done; set_solver].
    apply Hd, elem_adj. eauto.
  - unfold tree_cost in *. simpl in *. rewrite len_cons. lia.
Qed.

(** All symbols are reached, and all steps taken. *)
Definition sym_set : gset string := list_to_set syms.
Definition idx_set : gset nat := list_to_set idxs.
Lemma tree_end anchor D st : anchor ∈ syms → anchor ∈ ts_visited st → tree_inv ∅ D st → ts_queue st = [] →
  ts_visited st = sym_set ∧ D ∪ list_to_set (ts_closing st) = idx_set ∧ size sym_set = Datatypes.S (size D).
Proof.
  intros Ha Hav Hinv Hq. pose proof Hinv as [Hcov Hproc Hdisj Honce Hends Hqueue Hdone Hsz Hsyms].
  assert (∀ s, s ∈ syms → s ∈ ts_visited st) as Hall.
  { apply (co_connected _ _ Hcomp anchor); [done..|]. intros i step Hi Hst Hor.
    assert (i ∈ ts_processed st) as Hp.
    { destruct Hor as [Hf|Hf]; [eapply (Hdone (FromSym step) i step)|eapply (Hdone (ToSym step) i step)]; try done; [rewrite Hq; by intros ?%not_elem_of_nil|by left|rewrite Hq; by intros ?%not_elem_of_nil|by right]. }
    destruct (Hends i Hp) as (_ & step' & Hst' & ? & ?). rewrite Hst in Hst'. by injection Hst' as <-. }
  assert (ts_visited st = sym_set) as Hvis by (apply set_eq; intros s; unfold sym_set; rewrite elem_of_list_to_set; split; auto). split; [done|]. split; [|by rewrite <- Hvis].
  rewrite <- Hproc. apply set_eq. intros i. unfold idx_set. rewrite elem_of_list_to_set. split; [apply Hends|]. intros Hi.
  destruct (co_idxs _ _ Hcomp i Hi) as (step & Hst & Hf & _). eapply (Hdone (FromSym step) i step); try done; [by apply Hall|rewrite Hq; by intros ?%not_elem_of_nil|by left].
Qed.

Lemma runs_closings D K l rows : (∀ i, i ∈ l → i ∈ idxs ∧ i ∉ D) → NoDup l → K ⊆ D → covers sym_set D K rows →
  runs J E (go_foldl (λ rows idx, let! step := go_lift (Chains part !! idx) in verifyClosingStep v budget ctx rows step)%go rows l)
    (covers sym_set (D ∪ list_to_set l) K).
Proof.
  revert D rows. induction l as [|i l IH]; intros D rows Hl Hnd HK Hcov; simpl.
  { apply runs_ret. by rewrite union_empty_r_L. }
  apply NoDup_cons in Hnd as [Hni Hnd]. destruct (Hl i ltac:(by left)) as [Hi HiD]. destruct (co_idxs _ _ Hcomp i Hi) as (step & Hst & Hf & Ht).
  eapply runs_then.
  { eapply runs_bind, runs_lift; [done|]. eapply (runs_close sym_set D K i step); try done; [by eapply Hplain|by apply elem_of_list_to_set..]. }
  intros rows' Hcov'. eapply runs_mono; [apply (IH ({[i]} ∪ D))|]; [|done|set_solver|done|].
  - intros j Hj. destruct (Hl j ltac:(by right)) as [? ?]. split; [done|]. intros [->%elem_of_singleton|?]%elem_of_union; done.
  - intros out. replace ({[i]} ∪ D ∪ list_to_set l) with (D ∪ ({[i]} ∪ list_to_set l)) by set_solver. done.
Qed.

(** The search finds the matches of the component, whatever its anchor. *)
Lemma runs_tree anchor rows : anchor ∈ syms → covers {[anchor]} ∅ ∅ rows →
  runs J E (runComponentTreeFrom v budget ctx part idxs anchor rows bind) (λ out, ∃ K, covers sym_set idx_set K out ∧
    (bind = true → size sym_set = Datatypes.S (length idxs) → K = idx_set)).
Proof.
  intros Ha Hcov. unfold runComponentTreeFrom. destruct (N.eqb_spec (len idxs) 0) as [Hz|Hz].
  { apply runs_ret. assert (idxs = []) as Hnil by (destruct idxs; [done|rewrite len_cons in Hz; lia]). exists ∅. split; [|by unfold idx_set; rewrite Hnil].
    assert (sym_set = {[anchor]} ∧ idx_set = ∅) as [-> ->]; [|done]. split; [|unfold idx_set; by rewrite Hnil].
    apply set_eq. intros s. unfold sym_set. rewrite elem_of_list_to_set, elem_of_singleton. split; [|by intros ->].
    intros Hs. assert (s ∈ ({[anchor]} : gset string)) as ?%elem_of_singleton; [|done].
    apply (co_connected _ _ Hcomp anchor); [done|set_solver| |done]. intros i step Hi. rewrite Hnil in Hi. by apply not_elem_of_nil in Hi. }
  set (st0 := mkTreeState [anchor] {[anchor]} ∅ [] rows). assert (tree_inv ∅ ∅ st0) as Hst0.
  { constructor; cbn [st0 ts_queue ts_visited ts_processed ts_closing ts_rows].
    - by rewrite keys_empty.
    - cbn [list_to_set]. by rewrite union_empty_l_L.
    - by intros i ?%not_elem_of_nil.
    - constructor.
    - by intros i ?%not_elem_of_empty.
    - intros s ->%list_elem_of_singleton. by apply elem_of_singleton.
    - intros s i step ->%elem_of_singleton Hq. destruct Hq. by left.
    - by rewrite size_singleton, size_empty.
    - by intros s ->%elem_of_singleton. }
  eapply runs_then with (Q := λ st, ∃ D, tree_inv ∅ D st ∧ anchor ∈ ts_visited st ∧ ts_queue st = []).
  { apply (runs_loop J E _ (λ st, ∃ D, tree_inv ∅ D st ∧ anchor ∈ ts_visited st) tree_cost).
    - intros st (D & HD & Hav). eapply runs_mono; [by apply (runs_tree_round D)|]. intros [st'|st'].
      + intros ([D' HD'] & Hv & Hc). split; [|done]. exists D'. split; [done|]. by apply Hv.
      + intros [-> Hq]. by exists D.
    - exists ∅. split; [done|]. simpl. set_solver.
    - unfold tree_cost. cbn [st0 ts_queue ts_processed]. rewrite len_cons, len_nil, size_empty. lia. }
  intros st (D & HD & Hav & Hq). destruct (tree_end anchor D st Ha Hav HD Hq) as (Hvis & Hall & Hszs). pose proof HD as [Hcov' Hproc Hdisj Honce Hends _ _ _ _].
  rewrite Hvis in Hcov'. eapply runs_mono; [apply (runs_closings D (keys D)); [|done|apply keys_sub|done]|].
  - intros i Hi. split; [|by apply Hdisj]. apply Hends. rewrite Hproc. apply elem_of_union_r. by apply elem_of_list_to_set.
  - rewrite Hall. intros out Hout. exists (keys D). split; [done|]. intros Hb Hlen. rewrite Hb. simpl.
    apply set_subseteq_size_eq; [set_solver|]. unfold idx_set. rewrite size_list_to_set by apply Hcomp. lia.
Qed.
End tree.

(** ** Chains *)

Definition chain_link (s : string) (i : nat) (t : string) : Prop := ∃ step, Chains part !! i = Some step ∧ FromSym step = s ∧ ToSym step = t.
Definition either_link (s : string) (i : nat) (t : string) : Prop := chain_link s i t ∨ chain_link t i s.

Lemma link_either s i t : chain_link s i t → either_link s i t.
Proof. by left. Qed.

Lemma strict_chain_links prev seen idxs seen' cur : strict_chain part prev seen idxs = Some seen' → cur ∈ seen →
  match prev with Some to => to = cur | None => ∀ i step, head idxs = Some i → Chains part !! i = Some step → FromSym step = cur end →
  ∃ seq, links chain_link (cur :: seq) idxs ∧ NoDup seq ∧ ∀ s, s ∈ seq → s ∉ seen.
Proof.
  revert prev seen cur. induction idxs as [|i idxs IH]; intros prev seen cur; simpl.
  - intros [= <-] _ _. exists []. split; [done|]. split; [constructor|by intros s ?%not_elem_of_nil].
  - intros Hsc Hcur Hprev. destruct (Chains part !! i) as [step|] eqn:Hst; [|done]. cbn [mbind option_bind] in Hsc.
    destruct (String.eqb_spec (FromSym step) (ToSym step)); [done|].
    assert (FromSym step = cur) as Hf.
    { destruct prev as [to|]; [|by eapply Hprev]. subst to. destruct (String.eqb_spec cur (FromSym step)); [done|]. done. }
    destruct (match prev with Some to => _ | None => _ end); [done|]. destruct (bool_decide_reflect (ToSym step ∈ seen)) as [|Hns]; [done|].
    destruct (IH (Some (ToSym step)) _ (ToSym step) Hsc) as (seq & Hl & Hnd & Hseen); [set_solver|done|].
    exists (ToSym step :: seq). split; [split; [by exists step|done]|]. split.
    + constructor; [|done]. intros Hin. specialize (Hseen _ Hin). set_solver.
    + intros s [->|Hs]%elem_of_cons; [done|]. specialize (Hseen s Hs). set_solver.
Qed.
(** The symbols of a chain, in order. *)
Lemma strict_links idxs : isStrictLinearChain part idxs = true → idxs ≠ [] → ∃ start seq, links chain_link (start :: seq) idxs ∧ NoDup (start :: seq).
Proof.
  destruct idxs as [|i idxs]; [done|]. intros Hs _. unfold isStrictLinearChain in Hs. destruct (Chains part !! i) as [st|] eqn:Hst; [|done].
  destruct (strict_chain part None {[FromSym st]} (i :: idxs)) as [seen|] eqn:Esc; [|done].
  destruct (strict_chain_links None _ _ _ (FromSym st) Esc) as (seq & Hl & Hnd & Hseen); [set_solver| |].
  - intros j step [= <-] Hj. congruence.
  - exists (FromSym st), seq. split; [done|]. constructor; [|done]. intros Hin. specialize (Hseen _ Hin). set_solver.
Qed.

Section chain.
Context (syms : list string) (idxs : list nat) (Hcomp : comp_ok syms idxs).

Lemma chain_syms start seq : links either_link (start :: seq) idxs → idxs ≠ [] → list_to_set (start :: seq) = sym_set syms.
Proof.
  intros Hl Hne. assert (∀ l cur seq, links either_link (cur :: seq) l → (∀ i, i ∈ l → i ∈ idxs) → (l ≠ [] → cur ∈ syms) ∧ ∀ s, s ∈ seq → s ∈ syms) as Hsub.
  { induction l as [|i l IH]; intros cur sq Hlk Hin; destruct sq as [|t sq]; try done; [split; [done|by intros s ?%not_elem_of_nil]|].
    destruct Hlk as [Hlink Hlk]. assert (cur ∈ syms ∧ t ∈ syms) as [Hcs Hts].
    { destruct (co_idxs _ _ Hcomp i (Hin i ltac:(by left))) as (step' & Hst' & Hfs & Hts).
      destruct Hlink as [(step & Hst & <- & <-)|(step & Hst & <- & <-)]; rewrite Hst in Hst'; by injection Hst' as <-. }
    split; [done|]. intros s [->|Hs]%elem_of_cons; [done|]. by apply (IH t sq Hlk); [intros j Hj; apply Hin; by right|]. }
  destruct (Hsub idxs start seq Hl) as [Hs Hq]; [done|]. specialize (Hs Hne). apply set_eq. intros s. unfold sym_set. rewrite !elem_of_list_to_set. split.
  - intros [->|?]%elem_of_cons; auto.
  - intros Hin. assert (s ∈ (list_to_set (start :: seq) : gset string)) as ?%elem_of_list_to_set; [|done].
    apply (co_connected _ _ Hcomp start); [done|by apply elem_of_list_to_set; left| |done]. intros i step Hi Hst _.
    assert (∀ l cur seq, links either_link (cur :: seq) l → i ∈ l → FromSym step ∈ cur :: seq ∧ ToSym step ∈ cur :: seq) as Hend.
    { clear -Hst. induction l as [|j l IH]; intros cur sq Hlk Hil; [by apply not_elem_of_nil in Hil|]. destruct sq as [|t sq]; [done|].
      destruct Hlk as [Hlink Hlk]. apply elem_of_cons in Hil as [->|Hil].
      - destruct Hlink as [(st & Hj & <- & <-)|(st & Hj & <- & <-)]; rewrite Hst in Hj; injection Hj as <-; split; (by left) || (right; by left).
      - destruct (IH t sq Hlk Hil). split; by right. }
    rewrite !elem_of_list_to_set. by apply (Hend idxs).
Qed.

Context (bind : bool).
Abbreviation keys := (bound_keys bind).

(** Steps one after the other, in either direction. *)
Lemma runs_steps (f : list Row → nat → exec (list Row)) (R : string → nat → string → Prop) :
  (∀ S D rows s i t, R s i t → i ∉ D → s ∈ S → t ∉ S → covers S D (keys D) rows → runs J E (f rows i) (covers ({[t]} ∪ S) ({[i]} ∪ D) (keys ({[i]} ∪ D)))) →
  ∀ l cur seq S D rows, links R (cur :: seq) l → NoDup l → NoDup seq → cur ∈ S → (∀ s, s ∈ seq → s ∉ S) → (∀ i, i ∈ l → i ∉ D) → covers S D (keys D) rows →
  runs J E (go_foldl f rows l) (covers (list_to_set seq ∪ S) (list_to_set l ∪ D) (keys (list_to_set l ∪ D))).
Proof.
  intros Hf l. induction l as [|i l IH]; intros cur seq S D rows Hl Hndl Hnds Hcur Hseq HD Hcov.
  - destruct seq; [|done]. simpl. apply runs_ret. by rewrite !union_empty_l_L.
  - destruct seq as [|t seq]; [done|]. cbn [links] in Hl. destruct Hl as [HRi Hl]. apply NoDup_cons in Hndl as [Hnil Hndl], Hnds as [Hnt Hnds]. cbn [go_foldl].
    eapply runs_then; [eapply (Hf S D rows cur i t); try done; [apply HD; by left|apply Hseq; by left]|]. intros rows' Hcov'.
    eapply runs_mono; [apply (IH t seq ({[t]} ∪ S) ({[i]} ∪ D)); try done; [set_solver| |]|].
    + intros s Hs. intros [->%elem_of_singleton|Hin]%elem_of_union; [done|]. by apply (Hseq s); [right|].
    + intros j Hj. intros [->%elem_of_singleton|Hin]%elem_of_union; [done|]. by apply (HD j); [right|].
    + intros out Hout. replace (list_to_set (t :: seq) ∪ S) with (list_to_set seq ∪ ({[t]} ∪ S)) by (cbn [list_to_set]; set_solver).
      replace (list_to_set (i :: l) ∪ D) with (list_to_set l ∪ ({[i]} ∪ D)) by (cbn [list_to_set]; set_solver). done.
Qed.

(** The steps of a walk are in its list. *)
Lemma links_in {A B} (R : A → B → A → Prop) ns es : links R ns es → links (λ n e m, R n e m ∧ e ∈ es) ns es.
Proof.
  assert (∀ es' : list B, (∀ e, e ∈ es → e ∈ es') → links R ns es → links (λ n e m, R n e m ∧ e ∈ es') ns es) as Hgo; [|by apply Hgo].
  revert es. induction ns as [|n [|m ns] IH]; intros [|e es] es' Hsub; simpl; try done. intros [? Hl]. split; [split; [done|apply Hsub; by left]|].
  apply IH; [|done]. intros j Hj. apply Hsub. by right.
Qed.
Lemma runs_forward start seq rows : links chain_link (start :: seq) idxs → NoDup (start :: seq) → idxs ≠ [] →
  (∀ i step, i ∈ idxs → Chains part !! i = Some step → step_declined v step = true → E ErrUnsupportedStep) → covers {[start]} ∅ ∅ rows →
  runs J E (go_foldl (chain_step v budget ctx fuel part bind) rows idxs) (covers (sym_set syms) (idx_set idxs) (keys (idx_set idxs))).
Proof.
  intros Hl [Hns Hnd]%NoDup_cons Hne Hdec Hcov. pose proof Hl as Hl'. eapply runs_mono.
  - apply (runs_steps _ (λ s i t, chain_link s i t ∧ i ∈ idxs)) with (cur := start) (seq := seq) (S := {[start]}) (D := ∅); try done.
    + intros S D rows' s i t [(step & Hst & <- & <-) Hi] HiD Hs Ht Hc. rewrite <- with_keys. apply (runs_chain_step S D (keys D) bind i step); try done; [apply keys_sub|by apply (Hdec i)].
    + by apply links_in.
    + apply Hcomp.
    + by apply elem_of_singleton.
    + intros s Hs ->%elem_of_singleton. done.
    + by rewrite keys_empty.
  - intros out. rewrite union_empty_r_L. rewrite <- (chain_syms start seq (links_impl _ _ _ _ link_either Hl) Hne). cbn [list_to_set]. by rewrite (union_comm_L (list_to_set seq)).
Qed.
Lemma runs_backward start seq stop rows : links chain_link (start :: seq) idxs → NoDup (start :: seq) → idxs ≠ [] → last (start :: seq) = Some stop →
  (∀ i step, i ∈ idxs → Chains part !! i = Some step → st_Range step = None) → covers {[stop]} ∅ ∅ rows →
  runs J E (go_foldl (λ rows idx, let! step := go_lift (Chains part !! idx) in
      expandStep v budget ctx rows step (ToSym step) (FromSym step) false (Nodes part !! FromSym step) (arc_key bind idx))%go rows (reverse idxs))
    (covers (sym_set syms) (idx_set idxs) (keys (idx_set idxs))).
Proof.
  intros Hl Hnd Hne Hlast Hplain Hcov. pose proof (proj1 (links_reverse _ _ _) Hl) as Hr. destruct (reverse (start :: seq)) as [|stop' rs] eqn:Er.
  { apply (f_equal length) in Er. by rewrite length_reverse in Er. }
  assert (stop' = stop) as ->. { rewrite <- head_reverse, Er in Hlast. by injection Hlast. }
  assert (NoDup (stop :: rs)) as [Hns Hndr]%NoDup_cons by (rewrite <- Er; by rewrite reverse_Permutation).
  eapply runs_mono.
  - eapply (runs_steps _ (λ n e m, chain_link m e n ∧ e ∈ idxs)) with (cur := stop) (seq := rs) (S := {[stop]}) (D := ∅); try done.
    + intros S D rows' s i t [(step & Hst & <- & <-) Hi] HiD Hs Ht Hc. rewrite <- with_keys. eapply runs_bind, runs_lift; [done|].
      by apply (runs_expand S D (keys D) bind i step false); try done; [by eapply Hplain|apply keys_sub].
    + assert (∀ j, j ∈ reverse idxs → j ∈ idxs) as Hsub by (intros j Hj; by rewrite elem_of_reverse in Hj). revert Hr Hsub. generalize (reverse idxs) (stop :: rs). clear.
      intros l ns. revert l. induction ns as [|n [|m ns] IH]; intros [|e l]; simpl; try done. intros [? ?] Hsub. split; [split; [done|apply Hsub; by left]|].
      apply IH; [done|]. intros j Hj. apply Hsub. by right.
    + rewrite reverse_Permutation. apply Hcomp.
    + by apply elem_of_singleton.
    + intros s Hs ->%elem_of_singleton. done.
    + by rewrite keys_empty.
  - intros out Hout. rewrite union_empty_r_L in Hout. eapply covers_sets; [exact Hout|..].
    + rewrite <- (chain_syms start seq (links_impl _ _ _ _ link_either Hl) Hne). apply set_eq. intros s.
      assert (s ∈ start :: seq ↔ s ∈ stop :: rs) as Hin by (rewrite <- Er; by rewrite elem_of_reverse).
      rewrite elem_of_union, !elem_of_list_to_set, elem_of_singleton, Hin, elem_of_cons. tauto.
    + unfold idx_set. apply set_eq. intros j. by rewrite !elem_of_list_to_set, elem_of_reverse.
    + f_equal. unfold idx_set. apply set_eq. intros j. by rewrite !elem_of_list_to_set, elem_of_reverse.
Qed.
End chain.
End walking.
