(* ===== verification/ComponentPaths.v ===== *)
(** * Matching a component: named paths and the choice of a walk

    The path a chain or a pattern names is put together from what its steps have
    bound; [runComponent] finds the matches of a component whichever way it
    goes. *)

From S2P Require Import Prelude Bitset Csr Snapshot Segment View ViewAdj EdgeKinds Traverse ViewTraverse Rows Scan Hops Trails Components Matching ComponentRuns.
From stdpp Require Import options pretty.
Unset Default Proof Using.
#[local] Open Scope N_scope.
#[local] Open Scope go_scope.

(** ** The symbols of a pattern *)

Section shapes.
Context `{Cypher} (part : Part).
Lemma chain_symbols_links cur seen l rest : chain_symbols part cur seen l = Some rest →
  links (either_link part) (cur :: rest) l ∧ NoDup rest ∧ ∀ s, s ∈ rest → s ∉ seen.
Proof.
  revert cur seen rest. induction l as [|i l IH]; intros cur seen rest; simpl; [intros [= <-]; split; [done|split; [constructor|by intros s ?%not_elem_of_nil]]|].
  destruct (Chains part !! i) as [st|] eqn:Hst; [|done]. cbn [mbind option_bind]. intros Hc.
  assert (∃ next, (if String.eqb cur (FromSym st) then Some (ToSym st) else if String.eqb cur (ToSym st) then Some (FromSym st) else None) = Some next ∧
    either_link part cur i next) as (next & Hn & Hlink).
  { destruct (String.eqb_spec cur (FromSym st)) as [->|]; [exists (ToSym st); split; [done|]; left; by exists st|].
    destruct (String.eqb_spec cur (ToSym st)) as [->|]; [|done]. exists (FromSym st). split; [done|]. right. by exists st. }
  rewrite Hn in Hc. cbn [mbind option_bind] in Hc. destruct (bool_decide_reflect (next ∈ seen)) as [|Hns]; [done|].
  destruct (chain_symbols part next ({[next]} ∪ seen) l) as [l'|] eqn:El; [|done]. injection Hc as <-.
  destruct (IH _ _ _ El) as (Hl & Hnd & Hseen). split; [done|]. split.
  - constructor; [|done]. intros Hin. specialize (Hseen _ Hin). set_solver.
  - intros s [->|Hs]%elem_of_cons; [done|]. specialize (Hseen s Hs). set_solver.
Qed.
Lemma pattern_links idxs seq : patternLinearChain part idxs = Some seq →
  ∃ start rest, seq = start :: rest ∧ links (either_link part) seq idxs ∧ NoDup seq ∧ idxs ≠ [].
Proof.
  unfold patternLinearChain. destruct idxs as [|i0 [|i1 l]] eqn:El; [done..|]. destruct (existsb _ _); [done|].
  destruct (Chains part !! i0) as [first|] eqn:E0; [|done]. destruct (Chains part !! i1) as [second|] eqn:E1; [|done]. cbn [mbind option_bind].
  destruct (if negb _ then _ else _) as [start|]; [|done]. cbn [mbind option_bind].
  destruct (chain_symbols part start {[start]} (i0 :: i1 :: l)) as [rest|] eqn:Ec; [|done]. cbn [mbind option_bind]. intros [= <-].
  destruct (chain_symbols_links _ _ _ _ Ec) as (Hl & Hnd & Hseen). exists start, rest. split; [done|]. split; [done|]. split; [|done].
  constructor; [|done]. intros Hin. specialize (Hseen _ Hin). set_solver.
Qed.
Lemma links_length {A B} (R : A → B → A → Prop) ns es : links R ns es → length ns = Datatypes.S (length es).
Proof. revert es. induction ns as [|n [|m ns] IH]; intros [|e es]; try done. intros [_ Hl]. simpl. f_equal. by apply IH. Qed.
End shapes.

Section paths.
Context `{GoStd} `{Cypher} `{!CypherLaws}.
Context (v : View) (L : layout) (Ds : list delta) (HR : View_rep v L Ds).
Hypothesis Hsize : View_NodeCount v < 2 ^ 31.
Let G := view_graph L Ds.
Context (budget : Budgets) (ctx : Ctx) (fuel : N) (E : goerr → Prop).
Hypothesis HE : ∀ e, out_of_budget budget ctx e → E e.
Hypothesis Heval : ∀ e, eval_error v e → E e.
Let J (s : exec_state) := memo_ok v L (x_memo s).
Context (part : Part) (wanted : Match → Prop) (Hpart : part_ok v part) (Hwanted : wanted_ok v L Ds part wanted).
Hypothesis Hfuel : ∀ i step range, Chains part !! i = Some step → st_Range step = Some range → (1 + edge_total L Ds) ^ Z.to_N (rg_Max range) < fuel.
Abbreviation covers := (covers v L Ds part wanted).
Abbreviation here f := (f v L Ds HR Hsize budget ctx fuel E HE Heval part wanted Hpart Hwanted Hfuel).
Abbreviation weak := (weak v L Ds part).
Abbreviation row_rep := (row_rep v part).

(** ** The path of a component *)

Definition arc_of (m : Match) (i : nat) : list NodeID * list N := default ([], []) (m_arc m !! i).
Definition is_reversed (i : nat) : bool := match Chains part !! i with Some st => Reversed st | None => false end.
(** Of a chain: the nodes and edges of its steps one after the other, read the
    other way for a single step that was written backwards. *)
Definition chain_path (idxs : list nat) (m : Match) : PathVal :=
  let start := match idxs with i :: _ => default 0 (head (arc_of m i).1) | [] => 0 end in
  let pv := mkPathVal (start :: (idxs ≫= λ i, drop 1 (arc_of m i).1)) (edge_ref v <$> (idxs ≫= λ i, (arc_of m i).2)) in
  if (len idxs =? 1) && existsb is_reversed idxs then reversePathVal pv else pv.
(** Of a pattern whose steps point either way: the nodes of its symbols. *)
Definition pattern_path (seq : list string) (idxs : list nat) (m : Match) : PathVal :=
  mkPathVal ((λ s, default 0 (m_node m !! s)) <$> seq) (edge_ref v <$> (idxs ≫= λ i, (arc_of m i).2)).
Definition comp_path (idxs : list nat) (m : Match) : PathVal :=
  if isStrictLinearChain part idxs then chain_path idxs m
  else match patternLinearChain part idxs with Some seq => pattern_path seq idxs m | None => mkPathVal [] [] end.

(** What a row of the component shows of a match. *)
Record comp_shows (idxs : list nat) (r : Row) (m : Match) : Prop := {
  cs_nodes : ∀ s, Node r s = m_node m !! s;
  cs_edge : ∀ s ref, visible_sym s → Edge r s = Some ref ↔ edge_of v part m s ref;
  cs_path : ∀ s pv, visible_sym s → PathVar r s = Some pv ↔ uniformPathSym part idxs = Some s ∧ pv = comp_path idxs m;
  cs_scalar : ∀ s, Scalar r s = None;
  cs_once : row_once r;
}.
Definition comp_covers (syms : list string) (idxs : list nat) (rows : list Row) : Prop := ∃ ps, rows = ps.*1 ∧ NoDup ps.*2 ∧
  (∀ p : Row * Match, p ∈ ps → comp_shows idxs p.1 p.2 ∧ weak (sym_set syms) (idx_set idxs) p.2) ∧
  ∀ M, wanted M → restrict (sym_set syms) (idx_set idxs) M ∈ ps.*2.

Lemma covers_shows syms idxs K rows : uniformPathSym part idxs = Some EmptyString → covers (sym_set syms) (idx_set idxs) K rows → comp_covers syms idxs rows.
Proof.
  intros Hu (ps & -> & Hnd & Hps & Hall). exists ps. split; [done|]. split; [done|]. split; [|done]. intros p Hp. destruct (Hps p Hp) as [Hrep Hw].
  split; [|done]. constructor.
  - apply Hrep.
  - intros s ref Hv. by apply (rr_edge _ _ _ _ _ Hrep).
  - intros s pv Hv. rewrite (rr_path _ _ _ _ _ Hrep) by done. rewrite Hu. split; [done|]. intros [[= <-] _]. by destruct (proj1 Hv).
  - apply Hrep.
  - apply Hrep.
Qed.

(** A row with the path bound. *)
Lemma shows_path idxs K r m s : row_rep K r m → uniformPathSym part idxs = Some s → s ≠ EmptyString →
  comp_shows idxs (SetPathVar r s (comp_path idxs m)) m.
Proof.
  intros Hrep Hu Hne. constructor.
  - intros s'. change (Node (SetPathVar r s (comp_path idxs m)) s') with (Node r s'). apply Hrep.
  - intros s' ref Hv. change (Edge (SetPathVar r s (comp_path idxs m)) s') with (Edge r s'). by apply (rr_edge _ _ _ _ _ Hrep).
  - intros s' pv Hv. rewrite PathVar_SetPathVar, Hu. destruct (decide (s = s')) as [<-|Hs].
    + split; [by intros [= <-]|by intros [_ ->]].
    + rewrite (rr_path _ _ _ _ _ Hrep) by done. split; [done|]. by intros [[= ?] _].
  - intros s'. apply (rr_scalar _ _ _ _ _ Hrep).
  - apply once_SetPathVar, Hrep.
Qed.
Lemma runs_bind_path syms idxs K rows s (body : list Row → Row → exec (list Row)) : uniformPathSym part idxs = Some s → s ≠ EmptyString →
  covers (sym_set syms) (idx_set idxs) K rows →
  (∀ out r m, row_rep K r m → weak (sym_set syms) (idx_set idxs) m → runs J E (body out r) (λ out', out' = out ++ [SetPathVar r s (comp_path idxs m)])) →
  runs J E (go_foldl body [] rows) (comp_covers syms idxs).
Proof.
  intros Hu Hne (ps & -> & Hnd & Hps & Hall) Hbody. intros st Hst. rewrite go_foldl_fmap. revert st Hst.
  eapply runs_mono; [apply (runs_collect J E _ (λ p, [SetPathVar p.1 s (comp_path idxs p.2)]))|].
  - intros out p Hp. destruct (Hps p Hp) as [Hrep Hw]. by apply Hbody.
  - intros ? ->. exists ((λ p, (SetPathVar p.1 s (comp_path idxs p.2), p.2)) <$> ps). simpl.
    assert (((λ p, (SetPathVar p.1 s (comp_path idxs p.2), p.2)) <$> ps).*2 = ps.*2) as -> by (by rewrite <- list_fmap_compose).
    split; [|split; [done|split; [|done]]].
    + rewrite <- list_fmap_compose. clear. induction ps as [|p ps IH]; [done|]. rewrite bind_cons, IH. done.
    + intros q (p & -> & Hp)%list_elem_of_fmap. destruct (Hps p Hp) as [Hrep Hw]. simpl. split; [|done]. by eapply shows_path.
Qed.

(** *** What is declined *)

Lemma declined_step idxs i step : i ∈ idxs → Chains part !! i = Some step → step_declined v step = true → declined part v idxs = true.
Proof.
  intros Hi Hst Hd. unfold declined. destruct (uniformPathSym part idxs); [|done]. apply orb_true_iff. left. apply orb_true_iff. left.
  apply existsb_exists. exists i. split; [by apply list_elem_of_In|]. by rewrite Hst.
Qed.
Lemma declined_reversed idxs s : uniformPathSym part idxs = Some s → s ≠ EmptyString → isStrictLinearChain part idxs = true →
  1 < len idxs → existsb is_reversed idxs = true → declined part v idxs = true.
Proof.
  intros Hu Hs Hstrict Hlen Hr. unfold declined. rewrite Hu, Hstrict. apply orb_true_iff. right. apply andb_true_iff.
  split; [by apply negb_true_iff, String.eqb_neq|]. apply andb_true_iff. split; [by apply N.ltb_lt|exact Hr].
Qed.

(** *** What the steps have bound *)

Section assemble.
Context (syms : list string) (idxs : list nat) (Hcomp : comp_ok part syms idxs).
Context (r : Row) (m : Match) (Hrep : row_rep (idx_set idxs) r m) (Hw : weak (sym_set syms) (idx_set idxs) m).

Lemma comp_arc i : i ∈ idxs → ∃ step a b, Chains part !! i = Some step ∧ m_arc m !! i = Some (arc_of m i) ∧
  m_node m !! FromSym step = Some a ∧ m_node m !! ToSym step = Some b ∧ arc_fits v L Ds step a b (arc_of m i).
Proof.
  intros Hi. assert (i ∈ dom (m_arc m)) as [arc Harc]%elem_of_dom by (rewrite (wk_arcs _ _ _ _ _ _ _ Hw); by apply elem_of_list_to_set).
  destruct (wk_arc _ _ _ _ _ _ _ Hw i arc Harc) as (step & a & b & Hst & Ha & Hb & Hf). exists step, a, b. unfold arc_of. by rewrite Harc.
Qed.
Lemma runs_bound_node s n : m_node m !! s = Some n → runs J E (bound_node r s) (λ x, x = n).
Proof. intros Hn. unfold bound_node. rewrite (rr_nodes _ _ _ _ _ Hrep), Hn. by apply runs_ret. Qed.
Lemma runs_bound_edge i step e : i ∈ idxs → Chains part !! i = Some step → st_Range step = None → (arc_of m i).2 = [e] →
  runs J E (bound_edge r step i) (λ x, x = edge_ref v e).
Proof.
  intros Hi Hst Hr He. destruct (comp_arc i Hi) as (step' & a & b & Hst' & Harc & _). rewrite Hst in Hst'. injection Hst' as <-. unfold bound_edge.
  assert (Edge r (if String.eqb (EdgeSym step) EmptyString then pathStepArcKey i else EdgeSym step) = Some (edge_ref v e)) as ->; [|by apply runs_ret].
  destruct (String.eqb_spec (EdgeSym step) EmptyString) as [Hs|Hs].
  - assert (i ∈ idx_set idxs) as Hi' by (by apply elem_of_list_to_set). pose proof (rr_key _ _ _ _ _ Hrep i step _ Hi' Hst Harc) as Hk. rewrite Hr in Hk. by apply Hk.
  - destruct (so_edge _ _ (po_steps _ _ Hpart i step Hst)) as [?|[Hv _]]; [done|]. apply (rr_edge _ _ _ _ _ Hrep _ _ Hv). exists i, step, (arc_of m i), e. done.
Qed.

Lemma runs_assemble : (1 < len idxs → existsb is_reversed idxs = true → E ErrUnsupportedStep) → idxs ≠ [] → isStrictLinearChain part idxs = true → (∀ i step, idxs = [i] → Chains part !! i = Some step → st_Range step = None) →
  runs J E (assembleChainPathVal r part idxs) (λ pv, pv = comp_path idxs m).
Proof.
  intros Hdec Hne Hstrict Hone. unfold comp_path. rewrite Hstrict. unfold assembleChainPathVal, chain_path. fold is_reversed.
  change (existsb (λ i, match Chains part !! i with Some st => Reversed st | None => false end) idxs) with (existsb is_reversed idxs).
  destruct ((1 <? len idxs) && existsb is_reversed idxs) eqn:Erev; [apply andb_true_iff in Erev as [?%N.ltb_lt ?]; by apply runs_err, Hdec|].
  assert (∃ i0 rest, idxs = i0 :: rest) as (i0 & rest & Eidxs) by (destruct idxs; [done|eauto]). destruct (comp_arc i0 ltac:(rewrite Eidxs; by left)) as (st0 & a0 & b0 & Hst0 & _ & Ha0 & _ & Hf0).
  assert ((i ← head idxs; Chains part !! i) = Some st0) as Hhead by (rewrite Eidxs; exact Hst0).
  eapply runs_bind, runs_lift; [exact Hhead|]. eapply runs_then; [by apply runs_bound_node|]. intros ? ->.
  eapply runs_then with (Q := λ pv, pv = mkPathVal (a0 :: (idxs ≫= λ i, drop 1 (arc_of m i).1)) (edge_ref v <$> (idxs ≫= λ i, (arc_of m i).2))).
  - apply (runs_foldl J E _ (λ done pv, pv = mkPathVal (a0 :: (done ≫= λ i, drop 1 (arc_of m i).1)) (edge_ref v <$> (done ≫= λ i, (arc_of m i).2)))); [|done].
    intros done i pv -> Hi. destruct (comp_arc i Hi) as (step & a & b & Hst & Harc & Ha & Hb & Hf). eapply runs_bind, runs_lift; [exact Hst|].
    rewrite !bind_app, fmap_app. cbn [pv_Nodes pv_Edges mbind list_bind]. rewrite !app_nil_r. destruct (st_Range step) as [range|] eqn:Er.
    + assert (i ∈ idx_set idxs) as Hi' by (by apply elem_of_list_to_set). pose proof (rr_key _ _ _ _ _ Hrep i step _ Hi' Hst Harc) as Hk. rewrite Er in Hk. rewrite Hk.
      assert (path_val v step (arc_of m i) = mkPathVal (arc_of m i).1 (edge_ref v <$> (arc_of m i).2)) as ->.
      { unfold path_val. destruct (Reversed step) eqn:Erv; [|done]. exfalso. apply andb_false_iff in Erev as [Hl|Hx].
        - apply N.ltb_ge in Hl. rewrite Eidxs, len_cons in Hl. assert (rest = []) as -> by (destruct rest; [done|rewrite len_cons in Hl; lia]).
          rewrite Eidxs in Hi. apply list_elem_of_singleton in Hi as ->. specialize (Hone i0 step Eidxs Hst). congruence.
        - assert (existsb is_reversed idxs = true); [|congruence]. apply existsb_exists. exists i. split; [by apply list_elem_of_In|]. unfold is_reversed. by rewrite Hst. }
      apply runs_ret. cbn [pv_Nodes pv_Edges]. destruct Hf as (Hh & _). destruct (arc_of m i).1 as [|n ns]; [done|]. rewrite len_cons.
      rewrite (proj2 (N.eqb_neq _ _)) by lia. done.
    + destruct (fits_hop _ _ _ _ _ _ _ Hf Er) as (e & Earc & _). rewrite Earc. cbn [fst snd drop]. eapply runs_then; [by apply runs_bound_node|]. intros ? ->.
      eapply runs_then; [by apply (runs_bound_edge i step e); [..|rewrite Earc]|]. intros ? ->. by apply runs_ret.
  - intros ? ->. apply runs_ret. destruct Hf0 as (Hh & _). 
    assert (match idxs with [] => 0 | i :: _ => default 0 (head (arc_of m i).1) end = a0) as ->; [|done]. rewrite Eidxs. by rewrite Hh.
Qed.
End assemble.

(** ** Chains *)

Section component.
Context (syms : list string) (idxs : list nat) (Hcomp : comp_ok part syms idxs).

Lemma runs_anchored {A} s (k : list Row → exec A) P : s ∈ dom (Nodes part) → (∀ rows, covers {[s]} ∅ ∅ rows → runs J E (k rows) P) →
  runs J E (let! hint := hintForAnchor v part idxs s in let! rows := scanAnchorHinted v budget ctx s (Nodes part !! s) hint in k rows) P.
Proof.
  intros Hs Hk. eapply runs_then; [by eapply (runs_hintForAnchor v L Ds HR)|]. intros hint Hh. assert (nc_proper v (Nodes part !! s)) as Hnc.
  { apply elem_of_dom in Hs as [nc Hnc]. rewrite Hnc. by apply (po_nodes _ _ Hpart s). }
  eapply runs_then; [eapply (runs_scanAnchorHinted v L Ds HR); try done; apply Hh|]. intros rows Hrows. apply Hk.
  exact (here covers_anchor s idxs hint rows Hs Hrows Hh).
Qed.

Lemma chain_rev : idxs ≠ [] → ∃ rev, chainWalkReversed v part idxs = Some rev ∧
  (rev = true → ∀ i step, i ∈ idxs → Chains part !! i = Some step → st_Range step = None).
Proof.
  intros Hne. unfold chainWalkReversed. destruct (existsb _ idxs) eqn:Ex; [by exists false|].
  assert (∀ i step, i ∈ idxs → Chains part !! i = Some step → st_Range step = None) as Hplain.
  { intros i step Hi Hst. destruct (st_Range step) as [range|] eqn:Er; [|done]. assert (existsb (λ i, match Chains part !! i with Some st => bool_decide (is_Some (st_Range st)) | None => false end) idxs = true); [|congruence].
    apply existsb_exists. exists i. split; [by apply list_elem_of_In|]. rewrite Hst, Er. done. }
  assert (∃ i0, head idxs = Some i0 ∧ i0 ∈ idxs) as (i0 & Hh & Hi0) by (destruct idxs as [|i0 ?]; [done|exists i0; split; [done|by left]]).
  assert (∃ i1, last idxs = Some i1 ∧ i1 ∈ idxs) as (i1 & Hl & Hi1).
  { destruct (last idxs) as [i1|] eqn:El; [|by apply last_None in El]. exists i1. split; [done|]. by apply last_Some_elem_of. }
  destruct (co_idxs _ _ _ Hcomp i0 Hi0) as (s0 & Hs0 & _). destruct (co_idxs _ _ _ Hcomp i1 Hi1) as (s1 & Hs1 & _).
  rewrite Hh, Hl. cbn [mbind option_bind]. rewrite Hs0, Hs1. cbn [mbind option_bind].
  destruct (rankOf_total v L Ds HR (Nodes part !! ToSym s1)) as [r1 ->]. destruct (rankOf_total v L Ds HR (Nodes part !! FromSym s0)) as [r0 ->]. eauto.
Qed.

Lemma chain_ends start seq : links (chain_link part) (start :: seq) idxs → idxs ≠ [] →
  (∃ i step, head idxs = Some i ∧ Chains part !! i = Some step ∧ FromSym step = start) ∧
  ∃ i step, last idxs = Some i ∧ Chains part !! i = Some step ∧ last (start :: seq) = Some (ToSym step).
Proof.
  intros Hl Hne. split.
  - destruct idxs as [|i l]; [done|]. destruct seq as [|t seq]; [done|]. destruct Hl as [(step & Hst & Hf & _) _]. eauto.
  - clear Hcomp. revert start seq Hl Hne. induction idxs as [|i l IH]; intros start seq Hl Hne; [done|]. destruct seq as [|t seq]; [done|].
    destruct Hl as [(step & Hst & Hf & Ht) Hl]. destruct l as [|j l].
    + destruct seq; [|done]. exists i, step. subst. done.
    + destruct (IH t seq Hl) as (i' & step' & Hlast & Hst' & Hls); [done|]. exists i', step'. done.
Qed.

Lemma runs_expandChain : idxs ≠ [] → isStrictLinearChain part idxs = true → (∀ i step, idxs = [i] → Chains part !! i = Some step → st_Range step = None) →
  (declined part v idxs = true → E ErrUnsupportedStep) →
  ∀ pathSym, uniformPathSym part idxs = Some pathSym → runs J E (expandChainComponent v budget ctx fuel part idxs pathSym) (comp_covers syms idxs).
Proof.
  intros Hne Hstrict Hone Hdec pathSym Hu. destruct (here strict_links idxs Hstrict Hne) as (start & seq & Hl & Hnd). pose proof Hnd as Hnd'.
  destruct (chain_rev Hne) as (rev & Hrev & Hplain). destruct (chain_ends start seq Hl Hne) as [(i0 & s0 & Hi0 & Hs0 & Hf0) (i1 & s1 & Hi1 & Hs1 & Hl1)].
  pose proof (chain_syms part syms idxs Hcomp start seq (links_impl _ _ _ _ (link_either part) Hl) Hne) as Hsyms.
  assert (∀ s, s ∈ start :: seq → s ∈ dom (Nodes part)) as Hdom.
  { intros s Hs. apply (co_syms _ _ _ Hcomp). assert (s ∈ sym_set syms) as ?%elem_of_list_to_set; [|done]. rewrite <- Hsyms. by apply elem_of_list_to_set. }
  assert (∀ anchor rows, (if rev then last (start :: seq) = Some anchor else anchor = start) → covers {[anchor]} ∅ ∅ rows →
    runs J E (expandChainComponentFrom v budget ctx fuel part idxs pathSym rows) (comp_covers syms idxs)) as Hfrom.
  { intros anchor rows Hanchor Hcov. unfold expandChainComponentFrom. set (bind := negb (String.eqb pathSym EmptyString)). eapply runs_bind, runs_lift; [exact Hrev|].
    eapply runs_then with (Q := covers (sym_set syms) (idx_set idxs) (bound_keys bind (idx_set idxs))).
    - destruct rev.
      + eapply (here runs_backward syms idxs Hcomp bind start seq anchor); try done. by apply Hplain.
      + subst anchor. eapply (here runs_forward syms idxs Hcomp bind start seq); try done. intros i step Hi Hst Hs. apply Hdec. by apply (declined_step idxs i step).
    - intros rows' Hcov'. unfold bind in *. destruct (String.eqb_spec pathSym EmptyString) as [->|Hps]; simpl in *.
      + apply runs_ret. by eapply covers_shows.
      + eapply runs_bind_path; try done. intros out r m Hrep Hw. eapply runs_then; [eapply runs_assemble; try done|intros ? ->; by apply runs_ret].
        intros Hlen Hrev'. apply Hdec. by apply (declined_reversed idxs pathSym). }
  unfold expandChainComponent, chainAnchorSym. rewrite Hrev. cbn [mbind option_bind]. destruct rev.
  - rewrite Hi1. cbn [mbind option_bind]. rewrite Hs1. cbn [mbind option_bind]. eapply runs_bind, runs_lift; [done|].
    apply runs_anchored; [by apply Hdom, last_Some_elem_of|]. intros rows Hcov. by apply (Hfrom (ToSym s1)).
  - rewrite Hi0. cbn [mbind option_bind]. rewrite Hs0. cbn [mbind option_bind]. eapply runs_bind, runs_lift; [done|]. rewrite Hf0.
    apply runs_anchored; [apply Hdom; by left|]. intros rows Hcov. by apply (Hfrom start).
Qed.

(** ** Patterns *)

Lemma tree_estimate_total anchor total rows : (∀ i, i ∈ idxs → is_Some (Chains part !! i)) →
  (∀ r n, r ∈ rows → Node r anchor = Some n → live_node v L Ds n) → is_Some (tree_estimate v part idxs anchor total rows).
Proof.
  intros Hi. revert total. induction rows as [|r rows IH]; intros total Hr; simpl; [done|]. destruct (Node r anchor) as [n|] eqn:En; [|done].
  destruct (Hr r n ltac:(by left) En) as (id & Hid & _).
  assert (∀ l p, (∀ i, i ∈ l → is_Some (Chains part !! i)) → is_Some (degree_product v part anchor n p l)) as Hd.
  { induction l as [|i l IHl]; intros p Hl; simpl; [done|]. destruct (Hl i ltac:(by left)) as [st ->]. cbn [mbind option_bind].
    destruct (degree_total v L Ds HR n id (String.eqb (FromSym st) anchor) Hid) as [d ->]. cbn [mbind option_bind].
    destruct (d =? 0); [done|]. destruct (_ <? _)%Z; [done|]. apply IHl. intros j Hj. apply Hl. by right. }
  destruct (Hd idxs 1%Z Hi) as [[product cut] ->]. cbn [mbind option_bind]. destruct cut; [done|]. destruct (_ <? _)%Z; [done|]. apply IH. intros r' n' Hr'. apply Hr. by right.
Qed.

Hypothesis Hplain : ∀ i step, i ∈ idxs → Chains part !! i = Some step → st_Range step = None.

Lemma runs_tree_path anchor rows seq pathSym : anchor ∈ syms → covers {[anchor]} ∅ ∅ rows → isStrictLinearChain part idxs = false →
  patternLinearChain part idxs = Some seq → uniformPathSym part idxs = Some pathSym → pathSym ≠ EmptyString →
  runs J E (tree_with_path v budget ctx part idxs anchor rows seq pathSym) (comp_covers syms idxs).
Proof.
  intros Ha Hcov Hns Hseq Hu Hne. unfold tree_with_path.
  assert (is_Some (treeRowEstimate v part idxs anchor rows)) as [est Hest].
  { unfold treeRowEstimate. destruct (existsb _ idxs); [done|]. apply tree_estimate_total.
    - intros i Hi. destruct (co_idxs _ _ _ Hcomp i Hi) as (st & -> & _). done.
    - intros r n Hr Hn. destruct (covers_rows v L Ds part wanted _ _ _ rows Hcov r Hr) as (m & Hrep & Hw). rewrite (rr_nodes _ _ _ _ _ Hrep) in Hn.
      by destruct (wk_node _ _ _ _ _ _ _ Hw _ n Hn). }
  eapply runs_bind, runs_lift; [exact Hest|]. destruct (match est with Some _ => _ | None => _ end) eqn:Eb.
  { apply runs_err, HE. left. split; [done|]. left. destruct est; [|done]. by apply andb_true_iff in Eb as [?%Z.ltb_lt _]. }
  eapply runs_then; [by eapply (here runs_tree syms idxs Hcomp true)|].
  intros rows' (K & Hcov' & HK). destruct (pattern_links part idxs seq Hseq) as (start & rest & -> & Hlinks & Hnd & Hidx).
  pose proof (chain_syms part syms idxs Hcomp start rest Hlinks Hidx) as Hsyms.
  assert (K = idx_set idxs) as ->.
  { apply HK; [done|]. rewrite <- Hsyms, size_list_to_set by done. by apply links_length in Hlinks. }
  eapply runs_bind_path; try done. intros out r m Hrep Hw.
  eapply runs_then with (Q := λ ns, ns = [] ++ ((start :: rest) ≫= λ s, [default 0 (m_node m !! s)])).
  { apply (runs_collect J E _ (λ s, [default 0 (m_node m !! s)])). intros ids s Hs.
    assert (s ∈ dom (m_node m)) as [n Hn]%elem_of_dom by (rewrite (wk_nodes _ _ _ _ _ _ _ Hw), <- Hsyms; by apply elem_of_list_to_set).
    eapply runs_then; [by eapply runs_bound_node|]. intros ? ->. apply runs_ret. by rewrite Hn. }
  intros ? ->. eapply runs_then with (Q := λ es, es = [] ++ (idxs ≫= λ i, edge_ref v <$> (arc_of m i).2)).
  { apply (runs_collect J E _ (λ i, edge_ref v <$> (arc_of m i).2)). intros refs i Hi.
    destruct (comp_arc syms idxs m Hw i Hi) as (step & a & b & Hst & Harc & _ & _ & Hf). eapply runs_bind, runs_lift; [exact Hst|].
    pose proof (Hplain i step Hi Hst) as Hr. destruct (fits_hop _ _ _ _ _ _ _ Hf Hr) as (e & Earc & _).
    eapply runs_then; [by eapply (runs_bound_edge syms idxs r m Hrep Hw i step e); [..|rewrite Earc]|]. intros ? ->. apply runs_ret. by rewrite Earc. }
  intros ? ->. apply runs_ret. cbn [app]. unfold comp_path, pattern_path. rewrite Hns, Hseq, fmap_bind.
  assert (((start :: rest) ≫= λ s, [default 0 (m_node m !! s)]) = (λ s, default 0 (m_node m !! s)) <$> start :: rest) as ->; [|done].
  clear. induction (start :: rest) as [|s l IH]; [done|]. rewrite bind_cons, IH. done.
Qed.
End component.
End paths.
