(* ===== verification/ComponentTrails.v ===== *)
(** * Matching a component: one variable-length step

    [expandVarLengthComponent] walks the trails from the step's start or, when
    that looks cheaper, backwards from its end: either way it finds the same
    matches.  With that, [runComponent] finds the matches of any component that
    asks for no shortest path. *)

From S2P Require Import Prelude Bitset Csr Snapshot Segment View ViewAdj ViewKinds EdgeKinds Traverse ViewTraverse Rows Scan Hops Trails Components Matching ComponentRuns ComponentPaths.
From stdpp Require Import options pretty.
Unset Default Proof Using.
#[local] Open Scope N_scope.
#[local] Open Scope go_scope.

Section single.
Context `{GoStd} `{Cypher} `{!CypherLaws}.
Context (v : View) (L : layout) (Ds : list delta) (HR : View_rep v L Ds).
Hypothesis Hsize : View_NodeCount v < 2 ^ 31.
Let G := view_graph L Ds.
Context (budget : Budgets) (ctx : Ctx) (fuel : N) (E : goerr → Prop).
Hypothesis HE : ∀ e, out_of_budget budget ctx e → E e.
Hypothesis Heval : ∀ e, eval_error v e → E e.
Let J (s : exec_state) := memo_ok v L (x_memo s).
Context (part : Part) (wanted : Match → Prop) (Hpart : part_ok v part) (Hwanted : wanted_ok v L Ds part wanted).
Hypothesis Hfuel : ∀ i step range, Chains part !! i = Some step → st_Range step = Some range → (1 + edge_total L Ds) ^ Z.to_N (rg_Max range) < fuel.
Abbreviation covers := (covers v L Ds part wanted).
Abbreviation covering := (covering v L Ds part wanted).
Abbreviation here f := (f v L Ds HR Hsize budget ctx fuel E HE Heval part wanted Hpart Hwanted Hfuel).
Abbreviation comp_covers := (comp_covers v L Ds part wanted).

(** ** The path of the step *)

Definition named (key : string) (pv : PathVal) (r : Row) : Row := if String.eqb key EmptyString then r else SetPathVar r key pv.
Lemma trail_row_named step far key r flip t : trail_row_for v step far key r flip t =
  named key (let pv := mkPathVal t.1 (edge_ref v <$> t.2) in if flip then reversePathVal pv else pv) (trail_row_for v step far EmptyString r flip t).
Proof. unfold trail_row_for, trail_row, named. simpl. by destruct (String.eqb key EmptyString). Qed.

Section step.
Context (syms : list string) (i : nat) (step : Step) (range : Range) (Hcomp : comp_ok part syms [i]).
Hypothesis Hst : Chains part !! i = Some step.
Hypothesis Hr : st_Range step = Some range.
Hypothesis Hdec : declined part v [i] = true → E ErrUnsupportedStep.
Lemma single_declined : negb (String.eqb (EdgeSym step) EmptyString) = true ∨ FromSym step = ToSym step ∨ SelfLoopHazard v (EdgeKinds step) = true → E ErrUnsupportedStep.
Proof.
  intros Hor. apply Hdec, (declined_step v part [i] i step); [by left|done|]. unfold step_declined. rewrite Hr. simpl.
  destruct Hor as [-> |[-> | ->]]; [done|by rewrite String.eqb_refl, orb_true_r|by rewrite orb_true_r].
Qed.
Hypothesis Hends : FromSym step ≠ ToSym step.

Lemma single_range : st_Direction step = DirectionOutbound ∧ (0 ≤ rg_Min range)%Z ∧ (1 ≤ rg_Max range)%Z.
Proof. by apply (so_range _ _ (po_steps _ _ Hpart i step Hst)). Qed.
Lemma single_dom : FromSym step ∈ dom (Nodes part) ∧ ToSym step ∈ dom (Nodes part).
Proof. split; apply (po_steps _ _ Hpart i step Hst). Qed.
Lemma single_sets : sym_set syms = {[ToSym step]} ∪ {[FromSym step]} ∧ idx_set [i] = {[i]} ∪ ∅.
Proof.
  split; [|done]. rewrite <- (chain_syms part syms [i] Hcomp (FromSym step) [ToSym step]); [|split; [left; by exists step|done]|done].
  apply set_eq. intros s. rewrite elem_of_list_to_set, !elem_of_cons, elem_of_union, !elem_of_singleton, elem_of_nil. tauto.
Qed.
Lemma single_strict : isStrictLinearChain part [i] = true.
Proof.
  unfold isStrictLinearChain. simpl. rewrite Hst. cbn [mbind option_bind].
  rewrite (proj2 (String.eqb_neq _ _)) by done. rewrite bool_decide_eq_false_2 by (by intros ?%elem_of_singleton). apply bool_decide_eq_true.
  rewrite size_union by set_solver. by rewrite !size_singleton.
Qed.
Lemma single_path m arc a : m_arc m !! i = Some arc → head arc.1 = Some a → comp_path v part [i] m = path_val v step arc.
Proof.
  intros Harc Hh. unfold comp_path. rewrite single_strict. unfold chain_path, path_val. simpl. unfold arc_of, is_reversed. rewrite Harc, Hst, orb_false_r. simpl.
  rewrite !app_nil_r. assert (default 0 (head arc.1) :: drop 1 arc.1 = arc.1) as Hns by (destruct arc.1; simpl in *; [done|]; by rewrite drop_0). by rewrite Hns.
Qed.
Lemma single_uniform : uniformPathSym part [i] = Some (PathSym step).
Proof. unfold uniformPathSym. by rewrite Hst. Qed.

(** The rows of the matches, with the path bound. *)
Lemma covers_named ps : covering (sym_set syms) (idx_set [i]) ∅ ps →
  comp_covers syms [i] ((λ p : Row * Match, named (PathSym step) (comp_path v part [i] p.2) p.1) <$> ps).
Proof.
  intros Hcov. destruct (String.eqb_spec (PathSym step) EmptyString) as [Hp|Hp].
  - assert ((λ p : Row * Match, named (PathSym step) (comp_path v part [i] p.2) p.1) <$> ps = ps.*1) as ->
      by (apply list_fmap_ext; intros _ p _; unfold named; by rewrite Hp).
    eapply covers_shows; [by rewrite single_uniform, Hp|]. by exists ps.
  - destruct Hcov as (Hnd & Hps & Hall). exists ((λ p, (named (PathSym step) (comp_path v part [i] p.2) p.1, p.2)) <$> ps).
    rewrite <- !list_fmap_compose. split; [done|]. split; [done|]. split; [|done]. intros q (p & -> & Hq)%list_elem_of_fmap. simpl.
    destruct (Hps p Hq) as [Hrep Hw]. split; [|done]. unfold named. rewrite (proj2 (String.eqb_neq _ _)) by done. eapply shows_path; [done|apply single_uniform|done].
Qed.

(** *** Forwards *)

Lemma runs_singleFrom rows : covers {[FromSym step]} ∅ ∅ rows →
  runs J E (expandVarLengthComponentFrom v budget ctx fuel part step rows) (comp_covers syms [i]).
Proof.
  intros Hcov. unfold expandVarLengthComponentFrom.
  destruct (_ || _) eqn:Eor; [apply runs_err, single_declined; apply orb_true_iff in Eor as [?|?%String.eqb_eq]; auto|].
  destruct single_range as (Hdir & Hrg). destruct single_sets as [Hss Hsi].
  assert (ToSym step ∉ ({[FromSym step]} : gset string)) as HtS by set_solver.
  assert (FromSym step ∈ ({[FromSym step]} : gset string)) as HfS by set_solver.
  destruct (len rows =? 0) eqn:El.
  { apply N.eqb_eq in El. destruct rows; [|rewrite len_cons in El; lia]. apply runs_ret.
    destruct (covers_nil v L Ds part wanted _ _ _ (sym_set syms) (idx_set [i]) ∅ Hcov) as (ps & Hps & Hc). destruct ps; [|done]. by apply (covers_named []). }
  destruct (covers_trails v L Ds HR Hsize part wanted Hpart Hwanted {[FromSym step]} ∅ ∅ false i step range rows Hst Hr) as [Hroots _]; [set_solver|done|done|done|done|].
  unfold varLengthWalkSetup. destruct (SelfLoopHazard _ _) eqn:Eh; [apply runs_bind, runs_err, single_declined; auto|].
  eapply runs_then; [by apply (runs_continuation v L Ds HR)|]. intros contIDs Hc.
  eapply runs_mono; [apply (runs_collect J E _ (trail_rows v L part step range (PathSym step)))|].
  - intros out r Hrow. destruct (Hroots r Hrow) as (root & Hroot & Hlive).
    eapply runs_then; [by apply (runs_forSeed v L Ds HR Hsize budget ctx fuel E HE step range) with (root := root); try done; eapply Hfuel|]. intros ? ->.
    eapply runs_then; [by eapply runs_observe|]. intros _ _. apply runs_ret. unfold trail_rows, seed_trails. by rewrite Hroot.
  - intros ? ->. destruct Hcov as (ps & -> & Hcov). cbn [app].
    pose proof (covering_trails v L Ds HR Hsize part wanted Hpart Hwanted {[FromSym step]} ∅ ∅ false i step range ps Hst Hr ltac:(set_solver) ltac:(done) HfS HtS Hcov) as Hgrown.
    assert (ps.*1 ≫= trail_rows v L part step range (PathSym step) =
      (λ p : Row * Match, named (PathSym step) (comp_path v part [i] p.2) p.1) <$> grown (ToSym step) i (forward_branch v L part i false step range) ps) as ->.
    { unfold grown. rewrite fmap_bind, bind_fmap_comp. apply bind_ext. intros p Hp. unfold forward_branch, trail_branch, trail_rows.
      rewrite <- !list_fmap_compose. apply list_fmap_ext. intros k t Ht. simpl. rewrite trail_row_named. f_equal.
      destruct (Hroots p.1) as (root & Hroot & Hlive); [apply list_elem_of_fmap; by exists p|]. unfold seed_trails in Ht. rewrite Hroot in Ht. simpl in Ht.
      destruct (trails_from v L Ds HR Hsize true step range p.1 (sat_node v (Nodes part !! ToSym step)) root Hrg Hlive ltac:(by left)) as [_ Hspec].
      apply list_elem_of_lookup_2 in Ht. destruct t as [ns es]. apply Hspec in Ht as (Hh & _).
      symmetry. eapply single_path; [apply lookup_insert_eq|exact Hh]. }
    apply covers_named. rewrite Hss, Hsi. exact Hgrown.
Qed.

(** *** Backwards *)

Lemma runs_resolve sym : sym ∈ dom (Nodes part) → runs J E (resolveEndpointSet v budget ctx sym (Nodes part !! sym)) (λ ids, covers {[sym]} ∅ ∅ (SetNode NewRow sym <$> ids)).
Proof.
  intros Hs. unfold resolveEndpointSet. assert (nc_proper v (Nodes part !! sym)) as Hnc.
  { apply elem_of_dom in Hs as [nc Hnc]. rewrite Hnc. by apply (po_nodes _ _ Hpart sym). }
  eapply runs_then; [by eapply (runs_scanAnchor v L Ds HR)|]. intros rows (ns & Hnd & -> & Hsound & Hall). apply runs_ret.
  assert ((λ r, default 0 (Node r sym)) <$> (SetNode NewRow sym <$> ns) = ns) as ->.
  { rewrite <- list_fmap_compose. rewrite <- (list_fmap_id ns) at 2. apply list_fmap_ext. intros _ n _. simpl. by rewrite Node_SetNode, decide_True. }
  set (ids := go_sort _ ns). assert (ids ≡ₚ ns) as Hids by apply go_sort_perm.
  eapply (here covers_anchor sym [] None); [done| |by split; [|intros n _]].
  exists ids. split; [by rewrite Hids|]. split; [done|]. split; intros n; rewrite Hids; auto.
Qed.

Definition backward_branch (p : Row * Match) : list branch :=
  trail_branch v step false (FromSym step) EmptyString (negb (Reversed step)) p.1
    (trails_of v L step range p.1 false (near_ok v step (Nodes part !! FromSym step)) (default 0 (Node p.1 (ToSym step)))).
Definition backward_rows (r : Row) : list Row :=
  trail_row_for v step (FromSym step) (PathSym step) r (negb (Reversed step)) <$>
    trails_of v L step range r false (near_ok v step (Nodes part !! FromSym step)) (default 0 (Node r (ToSym step))).
Lemma covering_backward ps : covering {[ToSym step]} ∅ ∅ ps → covering (sym_set syms) (idx_set [i]) ∅ (grown (FromSym step) i backward_branch ps) ∧
  ps.*1 ≫= backward_rows = (λ p : Row * Match, named (PathSym step) (comp_path v part [i] p.2) p.1) <$> grown (FromSym step) i backward_branch ps.
Proof.
  intros Hcov. pose proof Hcov as (_ & Hps & _). destruct single_range as (Hdir & Hrg). destruct single_sets as [Hss Hsi].
  assert (∀ p, p ∈ ps → ∃ root, m_node p.2 !! ToSym step = Some root ∧ Node p.1 (ToSym step) = Some root ∧ live_node v L Ds root) as Hroots.
  { intros p Hp. destruct (Hps p Hp) as [Hrep Hw]. assert (ToSym step ∈ dom (m_node p.2)) as [n Hn]%elem_of_dom by (rewrite (wk_nodes _ _ _ _ _ _ _ Hw); by apply elem_of_singleton).
    exists n. rewrite (rr_nodes _ _ _ _ _ Hrep). split; [done|]. split; [done|]. by destruct (wk_node _ _ _ _ _ _ _ Hw _ n Hn). }
  assert (∀ p, p ∈ ps → ∃ root, m_node p.2 !! ToSym step = Some root ∧ Node p.1 (ToSym step) = Some root ∧
    NoDup (trails_of v L step range p.1 false (near_ok v step (Nodes part !! FromSym step)) root) ∧
    ∀ ns es, (ns, es) ∈ trails_of v L step range p.1 false (near_ok v step (Nodes part !! FromSym step)) root ↔
      trail_found v L Ds step range p.1 false (near_ok v step (Nodes part !! FromSym step)) root ns es) as Htrails.
  { intros p Hp. destruct (Hroots p Hp) as (root & Hm & Hn & Hlive). exists root. split; [done|]. split; [done|]. apply (trails_from v L Ds HR Hsize false); [done|done|by right]. }
  split.
  - rewrite Hss, Hsi. assert ({[ToSym step; FromSym step]} = ({[FromSym step]} ∪ {[ToSym step]} : gset string)) as -> by set_solver.
    eapply covering_grown; [exact Hcov|set_solver|]. intros p Hp Hrep Hw. destruct (Htrails p Hp) as (root & Hm & Hn & Hnd & Hspec). unfold backward_branch. rewrite Hn. simpl.
    eapply (branches_trail v L Ds HR Hsize part wanted Hpart Hwanted {[ToSym step]} ∅ ∅ false i step range false) with
      (admits := near_ok v step (Nodes part !! FromSym step)) (root := root); try done.
    + by apply elem_of_singleton.
    + by intros ?%elem_of_singleton.
    + unfold near_ok. by intros n [? _]%andb_true_iff.
    + intros M n HM HnM. pose proof (wo_weak _ _ _ _ _ Hwanted M HM) as HwM. unfold near_ok. apply andb_true_iff. split; [by apply (wk_node _ _ _ _ _ _ _ HwM)|].
      by apply (wo_preds _ _ _ _ _ Hwanted M).
  - unfold grown. rewrite fmap_bind, bind_fmap_comp. apply bind_ext. intros p Hp. unfold backward_branch, trail_branch, backward_rows.
    rewrite <- !list_fmap_compose. apply list_fmap_ext. intros k t Ht. simpl. rewrite trail_row_named. f_equal.
    destruct (Htrails p Hp) as (root & Hm & Hn & Hnd & Hspec). rewrite Hn in Ht. simpl in Ht. apply list_elem_of_lookup_2 in Ht. destruct t as [ns es].
    apply Hspec in Ht as (_ & _ & _ & n & Hlast & _). erewrite (single_path _ (reverse ns, reverse es) n); [|apply lookup_insert_eq|simpl; by rewrite head_reverse].
    unfold path_val, reversePathVal. simpl. rewrite fmap_reverse. destruct (Reversed step); simpl; [by rewrite !reverse_involutive|done].
Qed.

Lemma runs_backwards limit : reverseTrailRowCap limit = 0 → runs J E (expandVarLengthComponentReverse v budget ctx fuel limit part step) (comp_covers syms [i]).
Proof.
  intros Hlim. unfold expandVarLengthComponentReverse. destruct single_range as (Hdir & Hrg). destruct single_dom as [HfN HtN].
  eapply runs_then; [by apply runs_resolve|]. intros ids (ps & Hrows & Hcov). rewrite Hlim.
  eapply runs_then; [by apply (runs_continuation v L Ds HR)|]. intros contIDs Hc.
  eapply runs_then; [apply (runs_until J E _ (λ id, backward_rows (SetNode NewRow (ToSym step) id)))|].
  - intros out id Hid. simpl. assert (SetNode NewRow (ToSym step) id ∈ ps.*1) as (p & Hp1 & Hp)%list_elem_of_fmap by (rewrite <- Hrows; apply list_elem_of_fmap; by exists id).
    destruct Hcov as (_ & Hps & _). destruct (Hps p Hp) as [Hrep Hw]. rewrite <- Hp1 in Hrep. pose proof (rr_nodes _ _ _ _ _ Hrep (ToSym step)) as Hn.
    rewrite Node_SetNode, decide_True in Hn by done. destruct (wk_node _ _ _ _ _ _ _ Hw _ id (eq_sym Hn)) as [Hlive _].
    eapply runs_then; [eapply (runs_toSeed v L Ds HR Hsize budget ctx fuel E HE Heval step range) with (root := id); try done; [intros Hh; apply single_declined; auto|by rewrite Node_SetNode, decide_True|by eapply Hfuel]|].
    intros ? ->. eapply runs_then; [by eapply runs_observe|]. intros _ _. apply runs_ret. unfold backward_rows. by rewrite Node_SetNode, decide_True.
  - intros ? ->. apply runs_ret. cbn [fst app]. destruct (covering_backward ps Hcov) as [Hgrown Heq].
    rewrite <- (bind_fmap_comp (SetNode NewRow (ToSym step)) backward_rows), Hrows, Heq. by apply covers_named.
Qed.
End step.

(** ** A component *)

Lemma runs_eligible step : runs J E (varLengthReverseEligible v part step) (λ _, True).
Proof.
  unfold varLengthReverseEligible. destruct (negb _); [by apply runs_ret|]. destruct (endpointNarrows _); [by apply runs_ret|].
  eapply runs_then; [by eapply (runs_newEdgeHint v L Ds HR)|]. intros hf _. destruct (rankOfHinted_total v L Ds HR (Nodes part !! FromSym step) hf) as [r1 Hr1].
  eapply runs_bind, runs_lift; [exact Hr1|]. eapply runs_then; [by eapply (runs_newEdgeHint v L Ds HR)|]. intros ht _.
  destruct (rankOfHinted_total v L Ds HR (Nodes part !! ToSym step) ht) as [r2 Hr2]. eapply runs_bind, runs_lift; [exact Hr2|]. by apply runs_ret.
Qed.
Lemma runs_varLength limit syms i step range : reverseTrailRowCap limit = 0 → comp_ok part syms [i] → Chains part !! i = Some step → st_Range step = Some range →
  (declined part v [i] = true → E ErrUnsupportedStep) → runs J E (expandVarLengthComponent v budget ctx fuel limit part step) (comp_covers syms [i]).
Proof.
  intros Hlim Hcomp Hst Hr Hdec. unfold expandVarLengthComponent. pose proof (single_declined i step range Hst Hr Hdec) as Hdecl.
  destruct (negb (String.eqb (EdgeSym step) EmptyString)) eqn:Ee; [apply runs_err, Hdecl; auto|].
  destruct (String.eqb_spec (FromSym step) (ToSym step)) as [|Hends]; [apply runs_err, Hdecl; auto|]. simpl.
  eapply runs_then; [apply runs_eligible|]. intros [] _; [by eapply runs_backwards|]. unfold expandVarLengthComponentForward.
  destruct (single_dom i step Hst) as [HfN _]. eapply runs_then; [by eapply (runs_newEdgeHint v L Ds HR)|]. intros hint Hh.
  assert (nc_proper v (Nodes part !! FromSym step)) as Hnc.
  { apply elem_of_dom in HfN as [nc Hnc]. rewrite Hnc. by apply (po_nodes _ _ Hpart (FromSym step)). }
  eapply runs_then; [eapply (runs_scanAnchorHinted v L Ds HR); try done; apply Hh|]. intros rows Hrows.
  eapply runs_singleFrom; try done. eapply (here covers_anchor (FromSym step) [i] hint); [done|exact Hrows|]. destruct Hh as [Hp Hh]. split; [done|].
  intros n Hn. apply Hh. apply (Hn i); [by left|done].
Qed.

Context (limit : option Z) (Hlimit : reverseTrailRowCap limit = 0) (shortest : Part → Step → exec (list Row)).

(** Any component without shortest paths. *)
Lemma runs_component syms idxs : comp_ok part syms idxs → hasShortestStep part idxs = false →
  (declined part v idxs = true → E ErrUnsupportedStep) → runs J E (runComponent v budget ctx fuel limit shortest part syms idxs) (comp_covers syms idxs).
Proof.
  intros Hcomp Hshort Hdec. unfold runComponent. destruct (uniformPathSym part idxs) as [pathSym|] eqn:Hu; [|by apply runs_err, Hdec; unfold declined; rewrite Hu]. rewrite Hshort.
  assert (∀ i step, i ∈ idxs → Chains part !! i = Some step → Shortest step = ShortestNone) as Hnone.
  { intros i step Hi Hst. destruct (decide (Shortest step = ShortestNone)) as [|Hne]; [done|]. assert (hasShortestStep part idxs = true); [|congruence].
    apply existsb_exists. exists i. split; [by apply list_elem_of_In|]. rewrite Hst. by rewrite bool_decide_eq_false_2. }
  destruct (hasSpecialStep part idxs) eqn:Hsp.
  - assert (idxs ≠ []) as Hne by (by intros ->). destruct idxs as [|i [|j l]]; [done| |].
    + destruct (co_idxs _ _ _ Hcomp i ltac:(by left)) as (step & Hst & _). eapply runs_bind, runs_lift; [exact Hst|].
      assert (is_Some (st_Range step)) as [range Hr].
      { unfold hasSpecialStep in Hsp. simpl in Hsp. rewrite Hst, orb_false_r in Hsp. unfold is_special in Hsp. rewrite (Hnone i step) in Hsp by (done || by left).
        rewrite orb_false_r in Hsp. by apply bool_decide_eq_true in Hsp. }
      by eapply runs_varLength.
    + destruct (isStrictLinearChain part (i :: j :: l)) eqn:Hs; simpl; [by apply (here runs_expandChain)|]. apply runs_err, Hdec. unfold declined. rewrite Hu, Hsp, Hs.
      assert ((1 <? len (i :: j :: l)) = true) as -> by (apply N.ltb_lt; rewrite !len_cons; lia). by rewrite orb_true_r.
  - assert (∀ i step, i ∈ idxs → Chains part !! i = Some step → st_Range step = None) as Hplain.
    { intros i step Hi Hst. destruct (st_Range step) as [range|] eqn:Er; [|done]. assert (hasSpecialStep part idxs = true); [|congruence].
      apply existsb_exists. exists i. split; [by apply list_elem_of_In|]. rewrite Hst. unfold is_special. rewrite Er. done. }
    assert (∀ (k : string → list Row → exec (list Row)), (∀ anchor rows, anchor ∈ syms → covers {[anchor]} ∅ ∅ rows → runs J E (k anchor rows) (comp_covers syms idxs)) →
      runs J E (let! anchor := chooseAnchorHinted v (Nodes part) syms (Some (λ sym, hintForAnchor v part idxs sym)) in
        let! hint := hintForAnchor v part idxs anchor in let! rows := scanAnchorHinted v budget ctx anchor (Nodes part !! anchor) hint in k anchor rows) (comp_covers syms idxs)) as Hanch.
    { intros k Hk. eapply runs_then; [eapply (runs_choose v L Ds HR); [apply Hcomp|]|].
      - intros s. eapply runs_mono; [by eapply (runs_hintForAnchor v L Ds HR)|done].
      - intros anchor Ha. apply (here runs_anchored); [by apply (co_syms _ _ _ Hcomp)|]. intros rows Hcov. by apply Hk. }
    destruct (String.eqb_spec pathSym EmptyString) as [->|Hps]; simpl.
    + apply Hanch. intros anchor rows Ha Hcov. eapply runs_mono; [by apply (here runs_tree syms idxs Hcomp false)|]. intros out (K & Hout & _). by eapply covers_shows.
    + destruct (isStrictLinearChain part idxs) eqn:Hs.
      * apply (here runs_expandChain); try done; [intros ->; simpl in Hu; congruence|]. intros i step Hone. apply Hplain. rewrite Hone. by left.
      * destruct (patternLinearChain part idxs) as [seq|] eqn:Hseq; [|apply runs_err, Hdec; unfold declined; rewrite Hu, Hs, Hseq, (proj2 (String.eqb_neq _ _)) by done; by rewrite orb_true_r]. apply Hanch. intros anchor rows Ha Hcov. by apply (here runs_tree_path).
Qed.
End single.
