(* ===== verification/Joins.v ===== *)
(** * Joining the components of a part

    [internal/engine/interpret/exec.go]: the components of a pattern
    ([groupComponents], a union-find over its symbols), the matches of a part
    ([matchPart]) as the join of its components' ([hashJoin], [cartesianJoin]),
    and from [pipeline.go] the filter that [WHERE] is. *)

From S2P Require Import Prelude Bitset Csr Snapshot Segment View ViewAdj ViewKinds EdgeKinds Traverse Rows Values Scan Hops Trails Components Matching ComponentRuns.
From stdpp Require Import options.
Unset Default Proof Using.
#[local] Open Scope N_scope.
#[local] Open Scope go_scope.

(** ** Components *)

Record component := mkComponent { c_syms : list string; c_stepIdxs : list nat }.

(** [for x := range l] over a state, where a round may panic. *)
Fixpoint foldl_option {A B} (f : A → B → option A) (a : A) (l : list B) : option A :=
  match l with [] => Some a | x :: l => a ← f a x; foldl_option f a l end.

(** [find], with path compression; a missing entry is Go's empty string. *)
Fixpoint uf_find (fuel : nat) (parent : gmap string string) (s : string) : option (gmap string string * string) :=
  match fuel with
  | O => None
  | S fuel =>
      let p := default EmptyString (parent !! s) in
      if String.eqb p s then Some (parent, s) else '(parent, root) ← uf_find fuel parent p; Some (<[s := root]> parent, root)
  end.
Definition uf_union (fuel : nat) (parent : gmap string string) (a b : string) : option (gmap string string) :=
  '(parent, ra) ← uf_find fuel parent a;
  '(parent, rb) ← uf_find fuel parent b;
  Some (if String.eqb ra rb then parent else <[ra := rb]> parent).

Definition grouping : Type := gmap string string * gmap string component * list string.
Definition group_sym (fuel : nat) (st : grouping) (s : string) : option grouping :=
  let '(parent, byRoot, order) := st in
  '(parent, root) ← uf_find fuel parent s;
  Some match byRoot !! root with
       | Some c => (parent, <[root := mkComponent (c_syms c ++ [s]) (c_stepIdxs c)]> byRoot, order)
       | None => (parent, <[root := mkComponent [s] []]> byRoot, order ++ [root])
       end.
Definition group_step (fuel : nat) (st : grouping) (ix : nat * string) : option grouping :=
  let '(parent, byRoot, order) := st in
  '(parent, root) ← uf_find fuel parent ix.2;
  c ← byRoot !! root;
  Some (parent, <[root := mkComponent (c_syms c) (c_stepIdxs c ++ [ix.1])]> byRoot, order).

Section grouping.
Context `{GoStd} `{Cypher}.

Definition part_syms (part : Part) : list string := go_sort str_less (map_to_list (Nodes part)).*1.
(** A union adds one to the length of a path at most. *)
Definition uf_fuel (part : Part) : nat := 2 + length (Chains part).
Definition groupComponents (part : Part) : option (list component) :=
  let syms := part_syms part in
  let fuel := uf_fuel part in
  let parent := foldl (λ m s, <[s := s]> m) ∅ syms in
  parent ← foldl_option (λ parent st, uf_union fuel parent (FromSym st) (ToSym st)) parent (Chains part);
  st ← foldl_option (group_sym fuel) (parent, ∅, []) syms;
  '(_, byRoot, order) ← foldl_option (group_step fuel) st (imap (λ i st, (i, FromSym st)) (Chains part));
  mapM (λ root, byRoot !! root) order.
End grouping.

(** ** Joins *)

Section joins.
Context `{GoStd} `{Cypher}.
Context (v : View) (budget : Budgets) (ctx : Ctx).

Definition partCannotMatch (part : Part) : bool :=
  existsb (λ step, match st_Range step with
    | Some range => negb (rg_Min range =? 0)%Z && negb (EdgeKindPresent v (EdgeKinds step))
    | None => negb (EdgeKindPresent v (EdgeKinds step))
    end) (Chains part).

(** The first equality of [where] that links the two sides, its left side
    first. *)
Fixpoint equi_join (leftSyms rightSyms : list string) (eqs : list ((Expression * string) * (Expression * string))) : option (Expression * Expression) :=
  match eqs with
  | [] => None
  | ((a, aSym), (b, bSym)) :: eqs =>
      if String.eqb aSym bSym then equi_join leftSyms rightSyms eqs
      else if bool_decide (aSym ∈ leftSyms) && bool_decide (bSym ∈ rightSyms) then Some (a, b)
      else if bool_decide (bSym ∈ leftSyms) && bool_decide (aSym ∈ rightSyms) then Some (b, a)
      else equi_join leftSyms rightSyms eqs
  end.
Definition equiJoinKeys (where_ : option Expression) (leftSyms rightSyms : list string) : option (Expression * Expression) :=
  w ← where_; equi_join leftSyms rightSyms (property_equalities w).

Definition eval_value (r : Row) (e : Expression) : exec (option scalar) :=
  match EvalValue v r e with inl x => go_ret x | inr err => go_err err end.
Definition scalar_text (s : scalar) : string := String.string_of_list_ascii (scalar_key s).

(** The rows of [right] joined to [l]: the loop both joins end with. *)
Definition join_row (out : list Row) (l : Row) (right : list Row) : exec (list Row) :=
  go_foldl (λ out r,
    let nr := mergeRowInto l r in
    let! _ := spend budget ctx 1 in
    let! _ := observeRows budget (len (out ++ [nr])) in
    go_ret (out ++ [nr])) out right.
Definition hash_right (rightExpr : Expression) (buckets : gmap string (list Row)) (r : Row) : exec (gmap string (list Row)) :=
  let! val := eval_value r rightExpr in
  match val with
  | None => go_ret buckets
  | Some x =>
      let key := scalar_text x in
      let! _ := spend budget ctx 1 in
      go_ret (<[key := default [] (buckets !! key) ++ [r]]> buckets)
  end.
Definition hashJoin (left right : list Row) (leftExpr rightExpr : Expression) : exec (list Row) :=
  let! buckets := go_foldl (hash_right rightExpr) ∅ right in
  go_foldl (λ out l,
    let! val := eval_value l leftExpr in
    let! _ := spend budget ctx 1 in
    match val with
    | None => go_ret out
    | Some x => join_row out l (default [] (buckets !! scalar_text x))
    end) [] left.
Definition cartesianJoin (left right : list Row) : exec (list Row) :=
  let! _ := spendProduct budget ctx (len left) (len right) in
  go_foldl (λ out l, join_row out l right) [] left.

(** ** The matches of a part *)

Context (fuel : N) (limit : option Z) (expandShortestPathComponent : Part → Step → exec (list Row)).

Definition join_component (part : Part) (st : option (list Row * list string)) (comp : component) : exec (option (list Row * list string)) :=
  let! rows := runComponent v budget ctx fuel limit expandShortestPathComponent part (c_syms comp) (c_stepIdxs comp) in
  match st with
  | None => go_ret (Some (rows, c_syms comp))
  | Some (merged, mergedSyms) =>
      let! merged :=
        match equiJoinKeys (Where part) mergedSyms (c_syms comp) with
        | Some (leftExpr, rightExpr) => hashJoin merged rows leftExpr rightExpr
        | None => cartesianJoin merged rows
        end in
      go_ret (Some (merged, mergedSyms ++ c_syms comp))
  end.
Definition matchPart (part : Part) : exec (list Row) :=
  if (size (Nodes part) =? 0)%nat then go_ret [NewRow]
  else if partCannotMatch part then go_ret []
  else
    let! comps := go_lift (groupComponents part) in
    let! st := go_foldl (join_component part) None comps in
    go_ret (match st with Some (merged, _) => merged | None => [] end).

(** [filterRows] for a [WHERE] that tests no membership of a collected set. *)
Definition filterRows (rows : list Row) (expr : option Expression) : exec (list Row) :=
  match expr with
  | None => go_ret rows
  | Some p =>
      go_foldl (λ out r,
        match EvalPredicate v r p with
        | inl t => go_ret (if bool_decide (t = TriTrue) then out ++ [r] else out)
        | inr err => go_err err
        end) [] rows
  end.
End joins.

(** ** Union-find *)

(** The parents of a forest: every symbol of [U] has a root, its parent the same
    one, and the way there gets shorter; it is never longer than [n]. *)
Record uf_ok (U : gset string) (parent : gmap string string) (root : string → string) (depth : string → nat) (n : nat) : Prop := {
  uf_parent : ∀ s, s ∈ U → ∃ p, parent !! s = Some p ∧ p ∈ U ∧ root p = root s ∧ (p ≠ s → (depth p < depth s)%nat) ∧ (p = s → root s = s);
  uf_root : ∀ s, s ∈ U → root s ∈ U ∧ root (root s) = root s ∧ parent !! root s = Some (root s) ∧ depth (root s) = 0%nat;
  uf_depth : ∀ s, s ∈ U → (depth s ≤ n)%nat;
}.

Lemma uf_find_ok U parent root depth n fuel s : uf_ok U parent root depth n → s ∈ U → (depth s < fuel)%nat →
  ∃ parent', uf_find fuel parent s = Some (parent', root s) ∧ uf_ok U parent' root depth n.
Proof.
  intros Hok. revert s. induction fuel as [|fuel IH]; intros s Hs Hf; [lia|]. simpl.
  destruct (uf_parent _ _ _ _ _ Hok s Hs) as (p & Hp & HpU & Hr & Hd & Hself). rewrite Hp. simpl.
  destruct (String.eqb_spec p s) as [->|Hne]; [exists parent; by rewrite Hself|].
  destruct (IH p HpU) as (parent' & -> & Hok'); [pose proof (Hd Hne); lia|]. simpl. rewrite Hr. eexists. split; [done|].
  destruct (uf_root _ _ _ _ _ Hok s Hs) as (HrU & Hrr & Hpr & Hdr).
  assert (root s ≠ s) as Hrs by (intros Hrs; rewrite Hrs in Hpr; congruence). constructor.
  - intros t Ht. destruct (decide (t = s)) as [->|Hts].
    + exists (root s). rewrite lookup_insert_eq. split_and!; try done. pose proof (Hd Hne). intros _. rewrite Hdr. lia.
    + rewrite lookup_insert_ne by done. by apply (uf_parent _ _ _ _ _ Hok').
  - intros t Ht. destruct (uf_root _ _ _ _ _ Hok' t Ht) as (? & ? & Hpt & ?). split_and!; try done. rewrite lookup_insert_ne; [done|].
    intros He. destruct (uf_root _ _ _ _ _ Hok t Ht) as (_ & Hrt & _ & _). congruence.
  - apply (uf_depth _ _ _ _ _ Hok').
Qed.

Definition linked_root (root : string → string) (ra rb s : string) : string := if String.eqb (root s) ra then rb else root s.
Definition linked_depth (root : string → string) (depth : string → nat) (ra s : string) : nat := if String.eqb (root s) ra then S (depth s) else depth s.
Lemma uf_link U parent root depth n a b : uf_ok U parent root depth n → a ∈ U → b ∈ U → root a ≠ root b →
  uf_ok U (<[root a := root b]> parent) (linked_root root (root a) (root b)) (linked_depth root depth (root a)) (S n).
Proof.
  intros Hok Ha Hb Hne. destruct (uf_root _ _ _ _ _ Hok a Ha) as (HaU & Haa & Hpa & Hda), (uf_root _ _ _ _ _ Hok b Hb) as (HbU & Hbb & Hpb & Hdb).
  unfold linked_root, linked_depth. constructor.
  - intros s Hs. destruct (decide (s = root a)) as [->|Hsa].
    + exists (root b). rewrite lookup_insert_eq, Haa, String.eqb_refl, Hbb. destruct (String.eqb_spec (root b) (root a)); [congruence|].
      split_and!; try done. intros _. lia.
    + rewrite lookup_insert_ne by done. destruct (uf_parent _ _ _ _ _ Hok s Hs) as (p & Hp & HpU & Hr & Hd & Hself). exists p. rewrite Hr.
      destruct (String.eqb_spec (root s) (root a)) as [Hra|]; split_and!; try done.
      * intros Hps. specialize (Hd Hps). lia.
      * intros Hps. exfalso. apply Hsa. rewrite <- Hra. symmetry. by apply Hself.
  - intros s Hs. destruct (uf_root _ _ _ _ _ Hok s Hs) as (HsU & Hss & Hps & Hds). destruct (String.eqb_spec (root s) (root a)) as [Hra|Hra].
    + rewrite Hbb. destruct (String.eqb_spec (root b) (root a)); [congruence|]. split_and!; try done. by rewrite lookup_insert_ne.
    + rewrite Hss. destruct (String.eqb_spec (root s) (root a)); [congruence|]. split_and!; try done. by rewrite lookup_insert_ne.
  - intros s Hs. pose proof (uf_depth _ _ _ _ _ Hok s Hs). destruct (String.eqb _ _); lia.
Qed.

Lemma foldl_option_inv {A B} (f : A → B → option A) (R : list B → A → Prop) (l : list B) a :
  (∀ done rest x a, l = done ++ x :: rest → R done a → ∃ a', f a x = Some a' ∧ R (done ++ [x]) a') → R [] a → ∃ a', foldl_option f a l = Some a' ∧ R l a'.
Proof.
  intros Hf H0. assert (∀ rest done a, l = done ++ rest → R done a → ∃ a', foldl_option f a rest = Some a' ∧ R l a') as Hgo; [|by apply (Hgo l [])].
  induction rest as [|x rest IH]; intros done a0 Hl HR; simpl; [rewrite app_nil_r in Hl; subst; by exists a0|].
  destruct (Hf done rest x a0 Hl HR) as (a1 & -> & H1). simpl. apply (IH (done ++ [x])); [by rewrite <- (assoc_L (++))|done].
Qed.

(** After the unions along some pairs: the two of a pair have one root, and
    symbols of one root are connected by pairs. *)
Record uf_joined (U : gset string) (pairs : list (string * string)) (parent : gmap string string) (root : string → string) (depth : string → nat) : Prop := {
  uj_ok : uf_ok U parent root depth (length pairs);
  uj_pairs : ∀ a b, (a, b) ∈ pairs → root a = root b;
  uj_connected : ∀ V : string → Prop, (∀ a b, (a, b) ∈ pairs → V a ↔ V b) → ∀ s t, s ∈ U → t ∈ U → root s = root t → V s → V t;
}.
Lemma uf_union_ok U pairs parent root depth fuel a b : uf_joined U pairs parent root depth → a ∈ U → b ∈ U → (length pairs < fuel)%nat →
  ∃ parent' root' depth', uf_union fuel parent a b = Some parent' ∧ uf_joined U (pairs ++ [(a, b)]) parent' root' depth'.
Proof.
  intros [Hok Hp Hc] Ha Hb Hf. unfold uf_union.
  destruct (uf_find_ok _ _ _ _ _ fuel a Hok Ha) as (parent1 & -> & Hok1); [pose proof (uf_depth _ _ _ _ _ Hok a Ha); lia|]. cbn [mbind option_bind].
  destruct (uf_find_ok _ _ _ _ _ fuel b Hok1 Hb) as (parent2 & -> & Hok2); [pose proof (uf_depth _ _ _ _ _ Hok b Hb); lia|]. cbn [mbind option_bind].
  assert (∀ (V : string → Prop), (∀ x y, (x, y) ∈ pairs ++ [(a, b)] → V x ↔ V y) → V a ↔ V b) as Hab by (intros V HV; apply HV, elem_of_app; right; by left).
  assert (∀ (V : string → Prop), (∀ x y, (x, y) ∈ pairs ++ [(a, b)] → V x ↔ V y) → ∀ x y, (x, y) ∈ pairs → V x ↔ V y) as Hold by (intros V HV x y Hxy; apply HV, elem_of_app; by left).
  destruct (String.eqb_spec (root a) (root b)) as [He|Hne].
  - exists parent2, root, depth. split; [done|]. constructor.
    + rewrite length_app. simpl. destruct Hok2 as [H1 H2 H3]. constructor; [done..|]. intros s Hs. specialize (H3 s Hs). lia.
    + intros x y [Hxy|[= -> ->]%list_elem_of_singleton]%elem_of_app; [by apply Hp|done].
    + intros V HV s t Hs Ht. apply Hc; [by apply Hold|done..].
  - eexists _, _, _. split; [done|]. constructor.
    + rewrite length_app, Nat.add_comm. by apply uf_link.
    + unfold linked_root. intros x y [Hxy|[= -> ->]%list_elem_of_singleton]%elem_of_app.
      * by rewrite (Hp x y Hxy).
      * rewrite String.eqb_refl. destruct (String.eqb_spec (root b) (root a)); [congruence|done].
    + unfold linked_root. intros V HV s t Hs Ht He. specialize (Hold V HV). specialize (Hab V HV).
      destruct (String.eqb_spec (root s) (root a)) as [Hsa|], (String.eqb_spec (root t) (root a)) as [Hta|].
      * apply Hc; [done..|congruence].
      * intros Hvs. apply (Hc V Hold b t); [done..|]. apply Hab. by apply (Hc V Hold s a).
      * intros Hvs. apply (Hc V Hold a t); [done..|]. apply Hab. by apply (Hc V Hold s b).
      * by apply Hc.
Qed.

Lemma foldl_insert_self (l : list string) (m : gmap string string) s : foldl (λ m s, <[s := s]> m) m l !! s = if decide (s ∈ l) then Some s else m !! s.
Proof.
  revert m. induction l as [|x l IH]; intros m; cbn [foldl]; [rewrite decide_False; [done|apply not_elem_of_nil]|]. rewrite IH.
  destruct (decide (s ∈ l)); [rewrite decide_True; [done|by right]|]. destruct (decide (s = x)) as [->|]; [rewrite lookup_insert_eq, decide_True; [done|by left]|].
  rewrite lookup_insert_ne by done. rewrite decide_False; [done|]. by intros [?|?]%elem_of_cons.
Qed.
Lemma uf_initial (l : list string) : uf_joined (list_to_set l) [] (foldl (λ m s, <[s := s]> m) ∅ l) (λ s, s) (λ _, 0%nat).
Proof.
  assert (∀ s, s ∈ (list_to_set l : gset string) → foldl (λ m s, <[s := s]> m) (∅ : gmap string string) l !! s = Some s) as Hl.
  { intros s Hs%elem_of_list_to_set. by rewrite foldl_insert_self, decide_True. }
  constructor; [constructor|by intros a b ?%not_elem_of_nil|by intros V _ s t _ _ ->].
  - intros s Hs. exists s. rewrite Hl by done. done.
  - intros s Hs. rewrite Hl by done. done.
  - done.
Qed.

(** ** The components are a partition *)

Lemma mjoin_bind {A B} (f : A → list B) (l : list A) : mjoin (f <$> l) = l ≫= f.
Proof. induction l as [|x l IH]; [done|]. by rewrite fmap_cons, bind_cons, <- IH. Qed.
Lemma groups_perm {A B} `{EqDecision B} (f : A → B) (keys : list B) (l : list A) : NoDup keys → NoDup l → (∀ x, x ∈ l → f x ∈ keys) →
  keys ≫= (λ k, filter (λ x, f x = k) l) ≡ₚ l.
Proof.
  intros Hk Hl Hf. apply NoDup_Permutation; [|done|].
  - apply NoDup_bind; [|intros; by apply NoDup_filter|done]. intros k k' x _ _ [<- _]%list_elem_of_filter [<- _]%list_elem_of_filter. done.
  - intros x. rewrite list_elem_of_bind. split.
    + by intros (k & [_ Hx]%list_elem_of_filter & _).
    + intros Hx. exists (f x). split; [by apply list_elem_of_filter|by apply Hf].
Qed.

(** The components that [root] makes of some symbols and steps. *)
Definition comp_of (root : string → string) (syms : list string) (steps : list (nat * string)) (r : string) : component :=
  mkComponent (filter (λ s, root s = r) syms) (filter (λ ix, root ix.2 = r) steps).*1.
Definition grouped (U : gset string) (root : string → string) (depth : string → nat) (n : nat) (syms : list string) (steps : list (nat * string)) (st : grouping) : Prop :=
  let '(parent, byRoot, order) := st in
  uf_ok U parent root depth n ∧ NoDup order ∧ (∀ r, r ∈ order ↔ ∃ s, s ∈ syms ∧ root s = r) ∧
  ∀ r, byRoot !! r = if decide (r ∈ order) then Some (comp_of root syms steps r) else None.

(** A filter of a list that grows at its end. *)
Lemma filter_grows {A} (keep : A → Prop) {Hkeep : ∀ y, Decision (keep y)} (seen : list A) y :
  filter keep (seen ++ [y]) = (if decide (keep y) then filter keep seen ++ [y] else filter keep seen).
Proof. rewrite filter_app, filter_cons, filter_nil. destruct (decide (keep y)); [done|apply app_nil_r]. Qed.
Lemma group_sym_ok U root depth n fuel syms st s : grouped U root depth n syms [] st → s ∈ U → (n < fuel)%nat →
  ∃ st', group_sym fuel st s = Some st' ∧ grouped U root depth n (syms ++ [s]) [] st'.
Proof.
  destruct st as [[parent byRoot] order]. intros (Hok & Hnd & Ho & Hb) Hs Hf. unfold group_sym.
  destruct (uf_find_ok _ _ _ _ _ fuel s Hok Hs) as (parent' & -> & Hok'); [pose proof (uf_depth _ _ _ _ _ Hok s Hs); lia|]. cbn [mbind option_bind].
  assert (∀ r, r ∈ order ∨ r = root s ↔ ∃ s', s' ∈ syms ++ [s] ∧ root s' = r) as Ho'.
  { intros r. rewrite Ho. split.
    - intros [(s' & ? & ?)| ->]; [exists s'|exists s]; rewrite elem_of_app; [by split; [left|]|split; [right; by left|done]].
    - intros (s' & [?| ->%list_elem_of_singleton]%elem_of_app & <-); eauto. }
  rewrite Hb. destruct (decide (root s ∈ order)) as [Hin|Hin]; eexists; (split; [done|]).
  - split; [done|]. split; [done|]. split; [intros r; rewrite <- Ho'; split; [by left|by intros [?| ->]]|]. intros r. unfold comp_of. rewrite filter_grows. destruct (decide (r = root s)) as [->|Hne].
    + rewrite lookup_insert_eq, decide_True by done. by rewrite decide_True.
    + rewrite lookup_insert_ne, Hb by done. by rewrite (decide_False (P := root s = r)) by congruence.
  - split; [done|]. split; [apply NoDup_app; split; [done|]; split; [by intros x Hx ->%list_elem_of_singleton|apply NoDup_singleton]|].
    split; [intros r; by rewrite <- Ho', elem_of_app, list_elem_of_singleton|]. intros r. unfold comp_of. rewrite filter_grows. destruct (decide (r = root s)) as [->|Hne].
    + rewrite lookup_insert_eq, decide_True by (apply elem_of_app; right; by left). rewrite decide_True by done.
      assert (filter (λ s', root s' = root s) syms = []) as ->; [|done]. apply elem_of_nil_inv. intros x [Hx Hxs]%list_elem_of_filter. apply Hin, Ho. eauto.
    + rewrite lookup_insert_ne, Hb by done. rewrite (decide_False (P := root s = r)) by congruence.
      destruct (decide (r ∈ order)) as [Hr|Hr]; [by rewrite decide_True by (apply elem_of_app; by left)|].
      by rewrite decide_False by (by intros [?| ->%list_elem_of_singleton]%elem_of_app).
Qed.
Lemma group_step_ok U root depth n fuel syms steps st i s : grouped U root depth n syms steps st → s ∈ U → s ∈ syms → (n < fuel)%nat →
  ∃ st', group_step fuel st (i, s) = Some st' ∧ grouped U root depth n syms (steps ++ [(i, s)]) st'.
Proof.
  destruct st as [[parent byRoot] order]. intros (Hok & Hnd & Ho & Hb) Hs Hss Hf. unfold group_step. simpl.
  destruct (uf_find_ok _ _ _ _ _ fuel s Hok Hs) as (parent' & -> & Hok'); [pose proof (uf_depth _ _ _ _ _ Hok s Hs); lia|]. cbn [mbind option_bind].
  assert (root s ∈ order) as Hin by (apply Ho; eauto). rewrite Hb, decide_True by done. eexists. split; [done|].
  split; [done|]. split; [done|]. split; [done|]. intros r. unfold comp_of. rewrite filter_grows. simpl. destruct (decide (r = root s)) as [->|Hne].
  - rewrite lookup_insert_eq, decide_True by done. rewrite decide_True by done. by rewrite fmap_app.
  - rewrite lookup_insert_ne, Hb by done. by rewrite (decide_False (P := root s = r)) by congruence.
Qed.

Section groups.
Context `{GoStd} `{Cypher} (part : Part).
Hypothesis Hends : ∀ i st, Chains part !! i = Some st → FromSym st ∈ dom (Nodes part) ∧ ToSym st ∈ dom (Nodes part).

Lemma elem_part_syms s : s ∈ part_syms part ↔ s ∈ dom (Nodes part).
Proof.
  unfold part_syms. rewrite go_sort_elem, list_elem_of_fmap, elem_of_dom. split.
  - intros ([k x] & -> & Hx%elem_of_map_to_list). by exists x.
  - intros [x Hx]. exists (s, x). split; [done|]. by apply elem_of_map_to_list.
Qed.
Lemma NoDup_part_syms : NoDup (part_syms part).
Proof. unfold part_syms. rewrite go_sort_perm. apply NoDup_fst_map_to_list. Qed.

(** The steps with their numbers. *)
Definition numbered : list (nat * string) := imap (λ i st, (i, FromSym st)) (Chains part).
Lemma elem_numbered i s : (i, s) ∈ numbered ↔ ∃ st, Chains part !! i = Some st ∧ s = FromSym st.
Proof.
  unfold numbered. rewrite elem_of_lookup_imap. split; [intros (j & st & [= -> ->] & Hst); eauto|intros (st & Hst & ->); eauto].
Qed.
Lemma numbered_seq : numbered.*1 = seq 0 (length (Chains part)).
Proof.
  unfold numbered. rewrite fmap_imap. apply list_eq. intros i. rewrite list_lookup_imap. destruct (Chains part !! i) as [st|] eqn:E; simpl.
  - symmetry. apply lookup_seq. split; [done|]. by eapply lookup_lt_Some.
  - symmetry. apply lookup_seq_ge. by apply lookup_ge_None.
Qed.
Lemma NoDup_numbered : NoDup numbered.
Proof. apply (NoDup_fmap_1 fst). rewrite numbered_seq. apply NoDup_seq. Qed.

(** The pairs of symbols that are joined. *)
Definition pairs : list (string * string) := (λ st, (FromSym st, ToSym st)) <$> Chains part.
Lemma unions_ok : ∃ parent root depth,
  foldl_option (λ parent st, uf_union (uf_fuel part) parent (FromSym st) (ToSym st)) (foldl (λ m s, <[s := s]> m) ∅ (part_syms part)) (Chains part) = Some parent ∧
  uf_joined (list_to_set (part_syms part)) pairs parent root depth.
Proof.
  destruct (foldl_option_inv (λ parent st, uf_union (uf_fuel part) parent (FromSym st) (ToSym st))
    (λ done parent, ∃ root depth, uf_joined (list_to_set (part_syms part)) ((λ st, (FromSym st, ToSym st)) <$> done) parent root depth)
    (Chains part) (foldl (λ m s, <[s := s]> m) ∅ (part_syms part))) as (parent & He & root & depth & Hj).
  - intros done rest st parent Hl (root & depth & Hj). destruct (Hends (length done) st) as [Hf Ht]; [by rewrite Hl, lookup_app_r, Nat.sub_diag by lia|].
    destruct (uf_union_ok _ _ _ _ _ (uf_fuel part) (FromSym st) (ToSym st) Hj) as (parent' & root' & depth' & Hu & Hj').
    + by apply elem_of_list_to_set, elem_part_syms.
    + by apply elem_of_list_to_set, elem_part_syms.
    + rewrite length_fmap. unfold uf_fuel. rewrite Hl, length_app. simpl. lia.
    + exists parent'. split; [done|]. rewrite fmap_app. by exists root', depth'.
  - eexists _, _. apply uf_initial.
  - by exists parent, root, depth.
Qed.
Lemma grouped_ok root depth parent : uf_ok (list_to_set (part_syms part)) parent root depth (length (Chains part)) →
  ∃ st st', foldl_option (group_sym (uf_fuel part)) (parent, ∅, []) (part_syms part) = Some st ∧
    foldl_option (group_step (uf_fuel part)) st numbered = Some st' ∧
    grouped (list_to_set (part_syms part)) root depth (length (Chains part)) (part_syms part) numbered st'.
Proof.
  intros Hok. assert (length (Chains part) < uf_fuel part)%nat as Hf by (unfold uf_fuel; lia).
  destruct (foldl_option_inv (group_sym (uf_fuel part)) (λ done, grouped (list_to_set (part_syms part)) root depth (length (Chains part)) done [])
    (part_syms part) (parent, ∅, [])) as (st & Hst & Hg).
  - intros done rest s st Hl Hg. apply group_sym_ok; [done| |done]. apply elem_of_list_to_set. rewrite Hl. apply elem_of_app. right. by left.
  - split; [done|]. split; [constructor|]. split; [|done]. intros r. split; [by intros ?%not_elem_of_nil|]. by intros (s & ?%not_elem_of_nil & _).
  - destruct (foldl_option_inv (group_step (uf_fuel part)) (grouped (list_to_set (part_syms part)) root depth (length (Chains part)) (part_syms part))
      numbered st) as (st' & Hst' & Hg'); [|done|by exists st, st'].
    intros done rest [i s] st1 Hl Hg1. assert ((i, s) ∈ numbered) as (step & Hstep & ->)%elem_numbered by (rewrite Hl; apply elem_of_app; right; by left).
    destruct (Hends i step Hstep) as [Hs%elem_part_syms _]. apply group_step_ok; [done|by apply elem_of_list_to_set|done..].
Qed.

(** The components: they share no symbol and no step, and leave none out. *)
Lemma groupComponents_ok : ∃ comps, groupComponents part = Some comps ∧
  mjoin (c_syms <$> comps) ≡ₚ part_syms part ∧ mjoin (c_stepIdxs <$> comps) ≡ₚ seq 0 (length (Chains part)) ∧
  ∀ c, c ∈ comps → comp_ok part (c_syms c) (c_stepIdxs c).
Proof.
  destruct unions_ok as (parent & root & depth & He & Hj). pose proof (uj_ok _ _ _ _ _ Hj) as Hok. unfold pairs in Hok. rewrite length_fmap in Hok.
  destruct (grouped_ok root depth parent Hok) as (st & [[parent' byRoot] order] & Hst & Hst' & _ & Hnd & Ho & Hb).
  exists (comp_of root (part_syms part) numbered <$> order). split_and!.
  - unfold groupComponents. rewrite He. cbn [mbind option_bind]. rewrite Hst. cbn [mbind option_bind]. unfold numbered in Hst'. rewrite Hst'. cbn [mbind option_bind].
    apply mapM_Some. apply Forall2_fmap_r, Forall_Forall2_diag, Forall_forall. intros r Hr. by rewrite Hb, decide_True.
  - rewrite <- list_fmap_compose, mjoin_bind. apply groups_perm; [done|apply NoDup_part_syms|]. intros s Hs. apply Ho. eauto.
  - rewrite <- numbered_seq. etrans; [|apply fmap_Permutation, (groups_perm (λ ix, root ix.2) order numbered); [done|apply NoDup_numbered|]].
    + by rewrite <- list_fmap_compose, mjoin_bind, fmap_bind.
    + intros [i s] (step & Hstep & ->)%elem_numbered. simpl. apply Ho. exists (FromSym step). split; [|done]. by apply elem_part_syms, (Hends i step).
  - intros c (r & -> & Hr)%list_elem_of_fmap. apply Ho in Hr as (s0 & Hs0 & Hr).
    assert (∀ i, i ∈ (filter (λ ix, root ix.2 = r) numbered).*1 ↔ ∃ step, Chains part !! i = Some step ∧ root (FromSym step) = r) as Hidx.
    { intros i. rewrite list_elem_of_fmap. split.
      - intros ([i' s] & -> & [Hrt (step & Hstep & ->)%elem_numbered]%list_elem_of_filter). eauto.
      - intros (step & Hstep & Hrt). exists (i, FromSym step). split; [done|]. apply list_elem_of_filter. split; [done|]. apply elem_numbered. eauto. }
    assert (∀ i step, Chains part !! i = Some step → root (ToSym step) = root (FromSym step)) as Hto.
    { intros i step Hstep. symmetry. apply (uj_pairs _ _ _ _ _ Hj). apply list_elem_of_fmap. exists step. split; [done|by eapply list_elem_of_lookup_2]. }
    constructor; simpl.
    + intros s [_ Hs%elem_part_syms]%list_elem_of_filter. done.
    + intros Hnil. apply (not_elem_of_nil s0). rewrite <- Hnil. by apply list_elem_of_filter.
    + intros i (step & Hstep & Hrt)%Hidx. exists step. destruct (Hends i step Hstep) as [Hf%elem_part_syms Ht%elem_part_syms].
      split; [done|]. rewrite !list_elem_of_filter. by rewrite (Hto i step).
    + apply NoDup_fmap_2_strong; [|apply NoDup_filter, NoDup_numbered].
      intros [i s] [j t] [_ (step & Hstep & ->)%elem_numbered]%list_elem_of_filter [_ (step' & Hstep' & ->)%elem_numbered]%list_elem_of_filter Heq.
      simpl in Heq. subst j. congruence.
    + intros anchor V [Hra Ha]%list_elem_of_filter HaV Hclosed s [Hrs Hs]%list_elem_of_filter.
      refine (proj1 (uj_connected _ _ _ _ _ Hj (λ x, x ∈ V ∧ root x = r) _ anchor s _ _ _ _)); [|by apply elem_of_list_to_set..|congruence|done].
      intros a b (step & [= -> ->] & (i & Hstep)%list_elem_of_lookup)%list_elem_of_fmap. rewrite (Hto i step Hstep).
      split; intros [HV Hrt]; (split; [|done]); apply (Hclosed i step); eauto; apply Hidx; eauto.
Qed.
End groups.
