(* ===== verification/JoinRuns.v ===== *)
(** * The join of the components is the matches of the part

    Rows that stand for the matches of some components, each once and none
    missing ([part_covers]), joined with those of one more component, stand for
    the matches of all of them: by [cartesianJoin], and by [hashJoin] too,
    which leaves out only rows on which [WHERE] cannot be true. *)

From S2P Require Import Prelude Bitset Csr Snapshot Segment View ViewAdj ViewKinds EdgeKinds Traverse ViewTraverse Rows Values Scan Hops Trails Components Matching ComponentRuns ComponentPaths ComponentTrails Joins.
From stdpp Require Import options.
Unset Default Proof Using.
#[local] Open Scope N_scope.
#[local] Open Scope go_scope.

(** ** What the equalities of a [WHERE] say

    A conjunct [a.p = b.q] of a [WHERE] that is true: both properties are there
    and their values are equal, and a property's value is that of a document. *)
Class EqualityLaws `{Cypher} := {
  equality_holds : ∀ v r w e, EvalPredicate v r w = inl TriTrue → e ∈ property_equalities w →
    ∃ x y, EvalValue v r e.1.1 = inl (Some (SAny x)) ∧ EvalValue v r e.2.1 = inl (Some (SAny y)) ∧ jsonbEqual x y = true;
  equality_reads : ∀ w e, e ∈ property_equalities w → mentions e.1.1 ⊆ {[e.1.2]} ∧ mentions e.2.1 ⊆ {[e.2.2]};
  equality_values : ∀ v r w e x, e ∈ property_equalities w →
    EvalValue v r e.1.1 = inl (Some (SAny x)) ∨ EvalValue v r e.2.1 = inl (Some (SAny x)) → value_ok x = true;
}.

(** ** Matches of several components *)

Definition union_match (m m' : Match) : Match := mkMatch (m_node m ∪ m_node m') (m_arc m ∪ m_arc m').

Lemma filter_union_l {K A} `{Countable K} (X Y : gset K) (m m' : gmap K A) : dom m = X → dom m' = Y → X ## Y → filter (λ p, p.1 ∈ X) (m ∪ m') = m.
Proof.
  intros <- <- Hd. apply map_eq. intros k. apply option_eq. intros x. rewrite map_lookup_filter_Some, lookup_union_Some by (by apply map_disjoint_dom). simpl.
  split; [|intros Hk; split; [by left|apply elem_of_dom; eauto]]. intros [[Hk|Hk] Hin]; [done|]. exfalso. apply (Hd k); [done|]. apply elem_of_dom. eauto.
Qed.
Lemma filter_union_sets {K A} `{Countable K} (X Y : gset K) (m : gmap K A) : X ## Y →
  filter (λ p, p.1 ∈ X ∪ Y) m = filter (λ p, p.1 ∈ X) m ∪ filter (λ p, p.1 ∈ Y) m.
Proof.
  intros Hd. apply map_eq. intros k. apply option_eq. intros x.
  assert (filter (λ p, p.1 ∈ X) m ##ₘ filter (λ p, p.1 ∈ Y) m) as Hm.
  { apply map_disjoint_spec. intros j a b [_ Hx]%map_lookup_filter_Some [_ Hy]%map_lookup_filter_Some. by apply (Hd j). }
  rewrite lookup_union_Some by done. rewrite !map_lookup_filter_Some, elem_of_union. simpl. tauto.
Qed.
Lemma restrict_union_l S D S' D' m m' : dom (m_node m) = S → dom (m_arc m) = D → dom (m_node m') = S' → dom (m_arc m') = D' → S ## S' → D ## D' →
  restrict S D (union_match m m') = m.
Proof. intros. unfold restrict, union_match. simpl. rewrite (filter_union_l S S'), (filter_union_l D D') by done. by destruct m. Qed.
Lemma union_match_comm m m' : dom (m_node m) ## dom (m_node m') → dom (m_arc m) ## dom (m_arc m') → union_match m m' = union_match m' m.
Proof. intros Hn Ha. unfold union_match. by rewrite (map_union_comm (m_node m)), (map_union_comm (m_arc m)) by (by apply map_disjoint_dom). Qed.
Lemma restrict_sets S D S' D' m : S ## S' → D ## D' → restrict (S ∪ S') (D ∪ D') m = union_match (restrict S D m) (restrict S' D' m).
Proof. intros. unfold restrict, union_match. simpl. by rewrite !filter_union_sets. Qed.

Lemma NoDup_fmap_inj_elem {A B} (f : A → B) (l : list A) x y : NoDup (f <$> l) → x ∈ l → y ∈ l → f x = f y → x = y.
Proof.
  intros Hnd [i Hi]%list_elem_of_lookup [j Hj]%list_elem_of_lookup He. assert (i = j) as <-; [|congruence].
  apply (NoDup_lookup _ i j (f x) Hnd); rewrite list_lookup_fmap; [by rewrite Hi|rewrite Hj; simpl; by rewrite He].
Qed.

Section joining.
Context `{GoStd} `{Cypher} `{!CypherLaws} `{!EqualityLaws}.
Context (v : View) (L : layout) (Ds : list delta) (HR : View_rep v L Ds).
Hypothesis Hsize : View_NodeCount v < 2 ^ 31.
Let G := view_graph L Ds.
Context (budget : Budgets) (ctx : Ctx) (fuel : N) (E : goerr → Prop).
Hypothesis HE : ∀ e, out_of_budget budget ctx e → E e.
Hypothesis Heval : ∀ e, eval_error v e → E e.
Let J (s : exec_state) := memo_ok v L (x_memo s).
Context (part : Part) (Hpart : part_ok v part).
Abbreviation weak := (weak v L Ds part).

(** The steps of a pattern hang together, a path is of one pattern, the kinds
    are ones the table knows, and no step asks for shortest paths. *)
Record patterns_ok : Prop := {
  pt_connected : ∀ i j st st', Chains part !! i = Some st → Chains part !! j = Some st' → Pattern st = Pattern st' →
    ∀ V : gset string, (∀ k step, Chains part !! k = Some step → FromSym step ∈ V ↔ ToSym step ∈ V) → FromSym st ∈ V → FromSym st' ∈ V;
  pt_path : ∀ i j st st', Chains part !! i = Some st → Chains part !! j = Some st' → PathSym st ≠ EmptyString → PathSym st = PathSym st' → Pattern st = Pattern st';
  pt_kinds : ∀ i st k, Chains part !! i = Some st → k ∈ EdgeKinds st → (0 ≤ k)%Z;
  pt_plain : ∀ i st, Chains part !! i = Some st → Shortest st = ShortestNone;
  pt_where : ∀ w s, Where part = Some w → s ∈ mentions w → visible_sym s;
}.
Hypothesis Hpat : patterns_ok.

(** ** What a row shows *)

Definition path_of (comps : list component) (s : string) (pv : PathVal) (m : Match) : Prop :=
  ∃ c, c ∈ comps ∧ uniformPathSym part (c_stepIdxs c) = Some s ∧ pv = comp_path v part (c_stepIdxs c) m.
Record part_shows (comps : list component) (r : Row) (m : Match) : Prop := {
  ps_nodes : ∀ s, Node r s = m_node m !! s;
  ps_edge : ∀ s ref, visible_sym s → Edge r s = Some ref ↔ edge_of v part m s ref;
  ps_path : ∀ s pv, visible_sym s → PathVar r s = Some pv ↔ path_of comps s pv m;
  ps_scalar : ∀ s, Scalar r s = None;
  ps_once : row_once r;
}.

(** The components: those of the part, with the sets of their symbols and
    steps. *)
Context (all : list component) (Hall : groupComponents part = Some all).
Hypothesis Hdec : ∀ c, c ∈ all → declined part v (c_stepIdxs c) = true → E ErrUnsupportedStep.
Definition syms_of (comps : list component) : gset string := list_to_set (mjoin (c_syms <$> comps)).
Definition steps_of (comps : list component) : gset nat := list_to_set (mjoin (c_stepIdxs <$> comps)).

Lemma chain_ends_dom i st : Chains part !! i = Some st → FromSym st ∈ dom (Nodes part) ∧ ToSym st ∈ dom (Nodes part).
Proof. intros Hst. split; apply (po_steps _ _ Hpart i st Hst). Qed.
Lemma all_ok : NoDup (mjoin (c_syms <$> all)) ∧ NoDup (mjoin (c_stepIdxs <$> all)) ∧ syms_of all = dom (Nodes part) ∧ steps_of all = all_steps part ∧
  ∀ c, c ∈ all → comp_ok part (c_syms c) (c_stepIdxs c).
Proof.
  destruct (groupComponents_ok part chain_ends_dom) as (comps & Hc & Hs & Hi & Hok). rewrite Hall in Hc. injection Hc as <-. split_and!; [| | | |done].
  - rewrite Hs. apply NoDup_part_syms.
  - rewrite Hi. apply NoDup_seq.
  - unfold syms_of. apply set_eq. intros s. by rewrite elem_of_list_to_set, Hs, elem_part_syms.
  - unfold steps_of, all_steps. apply set_eq. intros s. by rewrite !elem_of_list_to_set, Hi.
Qed.

Lemma elem_syms_of comps s : s ∈ syms_of comps ↔ ∃ c, c ∈ comps ∧ s ∈ c_syms c.
Proof. unfold syms_of. rewrite elem_of_list_to_set, mjoin_bind, list_elem_of_bind. split; intros (c & ? & ?); by exists c. Qed.
Lemma elem_steps_of comps i : i ∈ steps_of comps ↔ ∃ c, c ∈ comps ∧ i ∈ c_stepIdxs c.
Proof. unfold steps_of. rewrite elem_of_list_to_set, mjoin_bind, list_elem_of_bind. split; intros (c & ? & ?); by exists c. Qed.

(** A component apart from some others. *)
Section apart.
Context (done rest : list component) (c : component) (Hsplit : all = done ++ c :: rest).
Lemma apart_syms s : s ∈ syms_of done → s ∈ c_syms c → False.
Proof.
  destruct all_ok as (Hnd & _). rewrite Hsplit, fmap_app, fmap_cons, join_app in Hnd. apply NoDup_app in Hnd as (_ & Hnd & _).
  unfold syms_of. intros Hs%elem_of_list_to_set Hc. apply (Hnd s Hs). cbn [mjoin list_join]. apply elem_of_app. by left.
Qed.
Lemma apart_steps i : i ∈ steps_of done → i ∈ c_stepIdxs c → False.
Proof.
  destruct all_ok as (_ & Hnd & _). rewrite Hsplit, fmap_app, fmap_cons, join_app in Hnd. apply NoDup_app in Hnd as (_ & Hnd & _).
  unfold steps_of. intros Hs%elem_of_list_to_set Hc. apply (Hnd i Hs). cbn [mjoin list_join]. apply elem_of_app. by left.
Qed.
Lemma apart_done d : d ∈ done → d ∈ all.
Proof. intros Hd. rewrite Hsplit. apply elem_of_app. by left. Qed.
Lemma apart_self : c ∈ all.
Proof. rewrite Hsplit. apply elem_of_app. right. by left. Qed.
Lemma done_step i st : i ∈ steps_of done → Chains part !! i = Some st → FromSym st ∈ syms_of done ∧ ToSym st ∈ syms_of done.
Proof.
  intros (d & Hd & Hi)%elem_steps_of Hst. destruct all_ok as (_ & _ & _ & _ & Hok). destruct (co_idxs _ _ _ (Hok d (apart_done d Hd)) i Hi) as (st' & Hst' & ? & ?).
  rewrite Hst in Hst'. injection Hst' as <-. rewrite !elem_syms_of. split; by exists d.
Qed.
Lemma comp_step i st : i ∈ c_stepIdxs c → Chains part !! i = Some st → FromSym st ∈ c_syms c ∧ ToSym st ∈ c_syms c.
Proof.
  intros Hi Hst. destruct all_ok as (_ & _ & _ & _ & Hok). destruct (co_idxs _ _ _ (Hok c apart_self) i Hi) as (st' & Hst' & ? & ?). rewrite Hst in Hst'. by injection Hst' as <-.
Qed.
(** The symbols of the others are joined to none of [c]. *)
Lemma apart_pattern i j st st' : i ∈ steps_of done → j ∈ c_stepIdxs c → Chains part !! i = Some st → Chains part !! j = Some st' → Pattern st = Pattern st' → False.
Proof.
  intros Hi Hj Hst Hst' Hp. destruct (done_step i st Hi Hst) as [Hf _]. destruct (comp_step j st' Hj Hst') as [Hf' _].
  apply (apart_syms (FromSym st')); [|done]. apply (pt_connected Hpat i j st st' Hst Hst' Hp); [|done]. intros k step Hk.
  destruct all_ok as (_ & _ & _ & Hsteps & Hok). assert (k ∈ steps_of all) as (d & Hd & Hkd)%elem_steps_of by (rewrite Hsteps; unfold all_steps; rewrite elem_of_list_to_set, elem_of_seq; apply lookup_lt_Some in Hk; clear -Hk; lia).
  destruct (co_idxs _ _ _ (Hok d Hd) k Hkd) as (step' & Hk' & Hfd & Htd). rewrite Hk in Hk'. injection Hk' as <-.
  destruct (all_ok) as (Hnd & _). rewrite Hsplit, fmap_app, fmap_cons, join_app in Hnd. apply NoDup_app in Hnd as (_ & Hnd & _).
  rewrite Hsplit in Hd. apply elem_of_app in Hd as [Hd|Hd]; [rewrite !elem_syms_of; split; intros _; by exists d|].
  assert (∀ x, x ∈ c_syms d → x ∉ syms_of done) as Hno; [|split; intros Hx; exfalso; [by apply (Hno (FromSym step))|by apply (Hno (ToSym step))]].
  intros x Hx Hs. unfold syms_of in Hs. apply elem_of_list_to_set in Hs. apply (Hnd x Hs). change (c_syms c :: (c_syms <$> rest)) with (c_syms <$> (c :: rest)).
  rewrite mjoin_bind. apply list_elem_of_bind. by exists d.
Qed.
Lemma syms_snoc : syms_of (done ++ [c]) = syms_of done ∪ sym_set (c_syms c).
Proof. unfold syms_of. rewrite fmap_app, join_app, list_to_set_app_L. f_equal. cbn. by rewrite app_nil_r. Qed.
Lemma steps_snoc : steps_of (done ++ [c]) = steps_of done ∪ idx_set (c_stepIdxs c).
Proof. unfold steps_of. rewrite fmap_app, join_app, list_to_set_app_L. f_equal. cbn. by rewrite app_nil_r. Qed.
Lemma syms_disjoint : syms_of done ## sym_set (c_syms c).
Proof. intros s Hs Hc%elem_of_list_to_set. by apply (apart_syms s). Qed.
Lemma steps_disjoint : steps_of done ## idx_set (c_stepIdxs c).
Proof. intros s Hs Hc%elem_of_list_to_set. by apply (apart_steps s). Qed.

(** *** A path is in its component *)

Lemma uniform_path idxs s : uniformPathSym part idxs = Some s → idxs ≠ [] → ∃ i st, i ∈ idxs ∧ Chains part !! i = Some st ∧ PathSym st = s.
Proof.
  destruct idxs as [|i idxs]; [done|]. simpl. destruct (Chains part !! i) as [st|] eqn:Hst; [|done]. cbn [mbind option_bind].
  destruct (forallb _ _); [|done]. intros [= <-] _. exists i, st. split; [by left|done].
Qed.
Lemma path_apart s pv m pv' m' : s ≠ EmptyString → path_of done s pv m → uniformPathSym part (c_stepIdxs c) = Some s ∧ pv' = comp_path v part (c_stepIdxs c) m' → False.
Proof.
  intros Hs (d & Hd & Hu & _) [Hu' _].
  destruct (uniform_path _ _ Hu) as (i & st & Hi & Hst & Hp); [by intros Hn; rewrite Hn in Hu; injection Hu as <-|].
  destruct (uniform_path _ _ Hu') as (j & st' & Hj & Hst' & Hp'); [by intros Hn; rewrite Hn in Hu'; injection Hu' as <-|].
  apply (apart_pattern i j st st'); try done; [apply elem_steps_of; by exists d|]. apply (pt_path Hpat i j st st'); [done..|congruence|congruence].
Qed.
Lemma comp_path_local d m m' : d ∈ all → (∀ s, s ∈ c_syms d → m_node m !! s = m_node m' !! s) → (∀ i, i ∈ c_stepIdxs d → m_arc m !! i = m_arc m' !! i) →
  comp_path v part (c_stepIdxs d) m = comp_path v part (c_stepIdxs d) m'.
Proof.
  intros Hd Hn Ha. destruct all_ok as (_ & _ & _ & _ & Hok). specialize (Hok d Hd). assert (∀ i, i ∈ c_stepIdxs d → arc_of m i = arc_of m' i) as Harc by (intros i Hi; unfold arc_of; by rewrite Ha).
  assert (∀ A (f : list NodeID * list N → list A), (c_stepIdxs d ≫= λ i, f (arc_of m i)) = (c_stepIdxs d ≫= λ i, f (arc_of m' i))) as Hb.
  { intros A f. apply bind_ext. intros i Hi. by rewrite Harc. }
  unfold comp_path. destruct (isStrictLinearChain _ _).
  - unfold chain_path. rewrite (Hb _ (λ a, drop 1 a.1)), (Hb _ snd). destruct (c_stepIdxs d) as [|i l] eqn:El; [done|]. by rewrite (Harc i) by (by left).
  - destruct (patternLinearChain part (c_stepIdxs d)) as [sq|] eqn:Es; [|done]. unfold pattern_path. rewrite (Hb _ snd). f_equal.
    destruct (pattern_links _ _ _ Es) as (start & more & -> & Hl & _ & Hne). pose proof (chain_syms part _ _ Hok start more Hl Hne) as Hss.
    apply list_fmap_ext. intros k s Hk%list_elem_of_lookup_2. rewrite Hn; [done|]. assert (s ∈ (list_to_set (start :: more) : gset string)) as Hin by by apply elem_of_list_to_set.
    rewrite Hss in Hin. by apply elem_of_list_to_set in Hin.
Qed.
End apart.

(** ** Joining *)

Context (wanted : Match → Prop) (Hwanted : wanted_ok v L Ds part wanted).
Definition part_covers (comps : list component) (rows : list Row) : Prop := ∃ ps, rows = ps.*1 ∧ NoDup ps.*2 ∧
  (∀ p : Row * Match, p ∈ ps → part_shows comps p.1 p.2 ∧ weak (syms_of comps) (steps_of comps) p.2) ∧
  ∀ M, wanted M → restrict (syms_of comps) (steps_of comps) M ∈ ps.*2.
Lemma first_covers c rows : comp_covers v L Ds part wanted (c_syms c) (c_stepIdxs c) rows → part_covers [c] rows.
Proof.
  assert (syms_of [c] = sym_set (c_syms c)) as Es by (unfold syms_of, sym_set; cbn; by rewrite app_nil_r).
  assert (steps_of [c] = idx_set (c_stepIdxs c)) as Ei by (unfold steps_of, idx_set; cbn; by rewrite app_nil_r).
  intros (ps & -> & Hnd & Hps & Hw). exists ps. rewrite Es, Ei. split_and!; try done. intros p Hp. destruct (Hps p Hp) as [[Hn He Hpv Hsc Ho] Hwk]. split; [|done].
  constructor; try done. intros s pv Hs. rewrite Hpv by done. unfold path_of. split; [intros [? ?]; exists c; split; [by left|done]|].
  by intros (d & ->%list_elem_of_singleton & ?).
Qed.

Definition joined (keep : Row → Row → bool) (left right : list Row) : list Row :=
  left ≫= λ l, mergeRowInto l <$> filter (λ r, keep l r = true) right.

Section join.
Context (done rest : list component) (c : component) (Hsplit : all = done ++ c :: rest).
Abbreviation S1 := (syms_of done).
Abbreviation D1 := (steps_of done).
Abbreviation S2 := (sym_set (c_syms c)).
Abbreviation D2 := (idx_set (c_stepIdxs c)).

Lemma weak_union m m' : weak S1 D1 m → weak S2 D2 m' → weak (S1 ∪ S2) (D1 ∪ D2) (union_match m m').
Proof.
  intros W1 W2. pose proof (syms_disjoint done rest c Hsplit) as HdS. pose proof (steps_disjoint done rest c Hsplit) as HdD.
  assert (m_node m ##ₘ m_node m') as HmS by (apply map_disjoint_dom; by rewrite (wk_nodes _ _ _ _ _ _ _ W1), (wk_nodes _ _ _ _ _ _ _ W2)).
  assert (m_arc m ##ₘ m_arc m') as HmD by (apply map_disjoint_dom; by rewrite (wk_arcs _ _ _ _ _ _ _ W1), (wk_arcs _ _ _ _ _ _ _ W2)).
  assert (∀ i arc, m_arc m !! i = Some arc → i ∈ D1) as Hin1 by (intros i arc Hi; rewrite <- (wk_arcs _ _ _ _ _ _ _ W1); apply elem_of_dom; eauto).
  assert (∀ i arc, m_arc m' !! i = Some arc → i ∈ c_stepIdxs c) as Hin2.
  { intros i arc Hi. assert (i ∈ D2) as Hd by (rewrite <- (wk_arcs _ _ _ _ _ _ _ W2); apply elem_of_dom; eauto). by apply elem_of_list_to_set in Hd. }
  constructor; simpl.
  - by rewrite dom_union_L, (wk_nodes _ _ _ _ _ _ _ W1), (wk_nodes _ _ _ _ _ _ _ W2).
  - by rewrite dom_union_L, (wk_arcs _ _ _ _ _ _ _ W1), (wk_arcs _ _ _ _ _ _ _ W2).
  - intros s n [Hs|Hs]%lookup_union_Some; [by apply (wk_node _ _ _ _ _ _ _ W1)|by apply (wk_node _ _ _ _ _ _ _ W2)|done].
  - intros i arc [Hi|Hi]%lookup_union_Some; [| |done].
    + destruct (wk_arc _ _ _ _ _ _ _ W1 i arc Hi) as (st & a & b & ? & ? & ? & ?). exists st, a, b. split_and!; try done; by apply lookup_union_Some_l.
    + destruct (wk_arc _ _ _ _ _ _ _ W2 i arc Hi) as (st & a & b & ? & ? & ? & ?). exists st, a, b. split_and!; try done; by apply lookup_union_Some_r.
  - intros i j st st' arc arc' e Hij Hst Hst' Hp Hr [Hi|Hi]%lookup_union_Some [Hj|Hj]%lookup_union_Some He; try done.
    + by apply (wk_once _ _ _ _ _ _ _ W1 i j st st' arc arc' e).
    + exfalso. eapply (apart_pattern done rest c Hsplit i j st st'); eauto.
    + exfalso. eapply (apart_pattern done rest c Hsplit j i st' st); eauto.
    + by apply (wk_once _ _ _ _ _ _ _ W2 i j st st' arc arc' e).
Qed.
Lemma union_node_l m m' s n : weak S1 D1 m → weak S2 D2 m' → m_node m' !! s = Some n → m_node m !! s = None.
Proof.
  intros W1 W2 Hs. apply not_elem_of_dom. rewrite (wk_nodes _ _ _ _ _ _ _ W1). intros Hin. apply (syms_disjoint done rest c Hsplit s Hin).
  rewrite <- (wk_nodes _ _ _ _ _ _ _ W2). apply elem_of_dom. eauto.
Qed.
Lemma union_arc m m' : weak S1 D1 m → weak S2 D2 m' → ∀ i arc, (m_arc m ∪ m_arc m') !! i = Some arc ↔ m_arc m !! i = Some arc ∨ m_arc m' !! i = Some arc.
Proof.
  intros W1 W2 i arc. apply lookup_union_Some, map_disjoint_dom. rewrite (wk_arcs _ _ _ _ _ _ _ W1), (wk_arcs _ _ _ _ _ _ _ W2).
  apply (steps_disjoint done rest c Hsplit).
Qed.
Lemma edge_of_union m m' s ref : weak S1 D1 m → weak S2 D2 m' → edge_of v part (union_match m m') s ref ↔ edge_of v part m s ref ∨ edge_of v part m' s ref.
Proof.
  intros W1 W2. unfold edge_of. split.
  - intros (i & st & arc & e & [Hi|Hi]%union_arc & Hrest); [left|right| |]; try done; by exists i, st, arc, e.
  - intros [(i & st & arc & e & Hi & Hrest)|(i & st & arc & e & Hi & Hrest)]; exists i, st, arc, e; (split; [apply union_arc|]); auto.
Qed.
Lemma edge_apart m m' s ref ref' : s ≠ EmptyString → weak S1 D1 m → weak S2 D2 m' → edge_of v part m s ref → edge_of v part m' s ref' → False.
Proof.
  intros Hs W1 W2 (i & st & arc & e & Hi & Hst & _ & Hes & _) (j & st' & arc' & e' & Hj & Hst' & _ & Hes' & _).
  assert (i = j) as <- by (apply (po_edges _ _ Hpart i j st st'); congruence). apply (steps_disjoint done rest c Hsplit i).
  - rewrite <- (wk_arcs _ _ _ _ _ _ _ W1). apply elem_of_dom. eauto.
  - rewrite <- (wk_arcs _ _ _ _ _ _ _ W2). apply elem_of_dom. eauto.
Qed.
Lemma path_local_l m m' s pv : weak S1 D1 m → weak S2 D2 m' → path_of done s pv (union_match m m') ↔ path_of done s pv m.
Proof.
  intros W1 W2. assert (∀ d, d ∈ done → comp_path v part (c_stepIdxs d) (union_match m m') = comp_path v part (c_stepIdxs d) m) as He.
  { intros d Hd. apply comp_path_local; [by apply (apart_done done rest c Hsplit)| |].
    - intros s' Hs'. simpl. assert (s' ∈ dom (m_node m)) as [n Hn]%elem_of_dom by (rewrite (wk_nodes _ _ _ _ _ _ _ W1); apply elem_syms_of; by exists d).
      rewrite Hn. by apply lookup_union_Some_l.
    - intros i Hi. simpl. assert (i ∈ dom (m_arc m)) as [a Ha]%elem_of_dom by (rewrite (wk_arcs _ _ _ _ _ _ _ W1); apply elem_steps_of; by exists d).
      rewrite Ha. by apply lookup_union_Some_l. }
  unfold path_of. split; intros (d & Hd & Hu & ->); exists d; (split; [done|]; split; [done|]); by rewrite He.
Qed.
Lemma path_local_r m m' : weak S1 D1 m → weak S2 D2 m' → comp_path v part (c_stepIdxs c) (union_match m m') = comp_path v part (c_stepIdxs c) m'.
Proof.
  intros W1 W2. apply comp_path_local; [by apply (apart_self done rest c Hsplit)| |].
  - intros s' Hs'. simpl. assert (s' ∈ dom (m_node m')) as [n Hn]%elem_of_dom by (rewrite (wk_nodes _ _ _ _ _ _ _ W2); by apply elem_of_list_to_set).
    rewrite Hn. apply lookup_union_Some_r; [|done]. apply map_disjoint_dom. rewrite (wk_nodes _ _ _ _ _ _ _ W1), (wk_nodes _ _ _ _ _ _ _ W2). apply (syms_disjoint done rest c Hsplit).
  - intros i Hi. simpl. assert (i ∈ dom (m_arc m')) as [a Ha]%elem_of_dom by (rewrite (wk_arcs _ _ _ _ _ _ _ W2); by apply elem_of_list_to_set).
    rewrite Ha. apply (union_arc m m' W1 W2). by right.
Qed.

Lemma shows_union l r m m' : part_shows done l m → comp_shows v part (c_stepIdxs c) r m' → weak S1 D1 m → weak S2 D2 m' →
  part_shows (done ++ [c]) (mergeRowInto l r) (union_match m m').
Proof.
  intros [N1 E1 P1 C1 O1] [N2 E2 P2 C2 O2] W1 W2. pose proof (λ s, merge_binds l r s O2) as Hm. constructor.
  - intros s. destruct (Hm s) as (-> & _). rewrite N1, N2. simpl. destruct (m_node m' !! s) as [n|] eqn:En; simpl.
    + symmetry. rewrite lookup_union_r; [done|]. by apply (union_node_l m m' s n).
    + symmetry. destruct (m_node m !! s) as [n|] eqn:En'; [by apply lookup_union_Some_l|]. by apply lookup_union_None.
  - intros s ref Hs. destruct (Hm s) as (_ & -> & _). rewrite edge_of_union, <- E1, <- E2 by done. destruct (Edge r s) as [x|] eqn:Ex; simpl.
    + split; [by right|]. intros [Hl|?]; [|done]. exfalso. apply (E1 s ref Hs) in Hl. apply (E2 s x Hs) in Ex. by eapply (edge_apart m m' s ref x); [apply Hs|..].
    + split; [by left|by intros [?|?]].
  - intros s pv Hs. destruct (Hm s) as (_ & _ & -> & _). assert (path_of (done ++ [c]) s pv (union_match m m') ↔
      path_of done s pv m ∨ (uniformPathSym part (c_stepIdxs c) = Some s ∧ pv = comp_path v part (c_stepIdxs c) m')) as ->.
    { rewrite <- (path_local_l m m') by done. rewrite <- (path_local_r m m') by done. unfold path_of. split.
      - intros (d & [Hd| ->%list_elem_of_singleton]%elem_of_app & ?); [left; by exists d|by right].
      - intros [(d & Hd & ?)|?]; [exists d|exists c]; rewrite elem_of_app; (split; [|done]); [by left|right; by left]. }
    rewrite <- P1, <- P2 by done. destruct (PathVar r s) as [x|] eqn:Ex; simpl.
    + split; [by right|]. intros [Hl|?]; [|done]. exfalso. apply (P1 s pv Hs) in Hl. apply (P2 s x Hs) in Ex. by eapply (path_apart done rest c Hsplit s pv m x m'); [apply Hs|..].
    + split; [by left|by intros [?|?]].
  - intros s. destruct (Hm s) as (_ & _ & _ & ->). by rewrite C2, C1.
  - by apply once_merge.
Qed.

Lemma joined_covers keep left right : part_covers done left → comp_covers v L Ds part wanted (c_syms c) (c_stepIdxs c) right →
  (∀ M l r, wanted M → part_shows done l (restrict S1 D1 M) → comp_shows v part (c_stepIdxs c) r (restrict S2 D2 M) → keep l r = true) →
  part_covers (done ++ [c]) (joined keep left right).
Proof.
  intros (ps & -> & Hnd & Hps & Hall1) (qs & -> & Hnd' & Hqs & Hall2) Hkeep.
  pose proof (syms_disjoint done rest c Hsplit) as HdS. pose proof (steps_disjoint done rest c Hsplit) as HdD.
  assert (∀ m m', weak S1 D1 m → weak S2 D2 m' → restrict S1 D1 (union_match m m') = m ∧ restrict S2 D2 (union_match m m') = m') as Hback.
  { intros m m' [Hn Ha _ _ _] [Hn' Ha' _ _ _]. split; [by apply (restrict_union_l S1 D1 S2 D2)|]. rewrite union_match_comm by (by rewrite ?Hn, ?Hn', ?Ha, ?Ha'). by apply (restrict_union_l S2 D2 S1 D1). }
  set (f := λ p : Row * Match, (λ q : Row * Match, (mergeRowInto p.1 q.1, union_match p.2 q.2)) <$> filter (λ q, keep p.1 q.1 = true) qs).
  exists (ps ≫= f). rewrite (syms_snoc done c), (steps_snoc done c). split_and!.
  - unfold joined. rewrite bind_fmap_comp, fmap_bind. apply bind_ext. intros p _. unfold f. rewrite <- list_fmap_compose.
    clear. induction qs as [|q qs IH]; [done|]. rewrite fmap_cons, !filter_cons. destruct (decide (keep p.1 q.1 = true)); [|done]. rewrite !fmap_cons. by f_equal.
  - rewrite fmap_bind. apply NoDup_bind.
    + intros p p' m Hp Hp' Hm Hm'. unfold f in Hm, Hm'. rewrite <- list_fmap_compose in Hm, Hm'.
      apply list_elem_of_fmap in Hm as (q & -> & [_ Hq]%list_elem_of_filter), Hm' as (q' & He & [_ Hq']%list_elem_of_filter). simpl in He.
      destruct (Hps p Hp) as [_ W], (Hps p' Hp') as [_ W'], (Hqs q Hq) as [_ V1], (Hqs q' Hq') as [_ V2].
      assert (p.2 = p'.2) as Heq by (destruct (Hback p.2 q.2 W V1) as [<- _], (Hback p'.2 q'.2 W' V2) as [<- _]; by rewrite He).
      by apply (NoDup_fmap_inj_elem snd ps).
    + intros p Hp. unfold f. rewrite <- list_fmap_compose. destruct (Hps p Hp) as [_ W]. apply NoDup_fmap_2_strong; [|by apply NoDup_filter, (NoDup_fmap_1 snd)].
      intros q q' [_ Hq]%list_elem_of_filter [_ Hq']%list_elem_of_filter He. simpl in He. apply (NoDup_fmap_inj_elem snd qs); try done.
      destruct (Hqs q Hq) as [_ V1], (Hqs q' Hq') as [_ V2]. destruct (Hback p.2 q.2 W V1) as [_ <-], (Hback p.2 q'.2 W V2) as [_ <-]. by rewrite He.
    + by eapply NoDup_fmap_1.
  - intros x (p & (q & -> & [_ Hq]%list_elem_of_filter)%list_elem_of_fmap & Hp)%list_elem_of_bind. simpl.
    destruct (Hps p Hp) as [? ?], (Hqs q Hq) as [? ?]. split; [by apply shows_union|by apply weak_union].
  - intros M HM. rewrite restrict_sets by done. destruct (proj1 (list_elem_of_fmap _ _ _) (Hall1 M HM)) as (p & Hp & Hpin).
    destruct (proj1 (list_elem_of_fmap _ _ _) (Hall2 M HM)) as (q & Hq & Hqin). rewrite Hp, Hq. rewrite fmap_bind. apply list_elem_of_bind. exists p. split; [|done].
    unfold f. rewrite <- list_fmap_compose. apply list_elem_of_fmap. exists q. split; [done|]. apply list_elem_of_filter. split; [|done].
    destruct (Hps p Hpin) as [? _], (Hqs q Hqin) as [? _]. apply (Hkeep M); [done|by rewrite Hp|by rewrite Hq].
Qed.
End join.

(** ** The joins *)

Lemma runs_eval_value r e : runs J E (eval_value v r e) (λ x, EvalValue v r e = inl x).
Proof. unfold eval_value. destruct (EvalValue v r e) as [x|err] eqn:Ee; [by apply runs_ret|]. apply runs_err, Heval. exists r, e. by right. Qed.
Lemma runs_join_row out l right : runs J E (join_row budget ctx out l right) (λ out', out' = out ++ (mergeRowInto l <$> right)).
Proof.
  unfold join_row. eapply runs_mono; [apply (runs_collect J E _ (λ r, [mergeRowInto l r]))|].
  - intros out' r _. by apply runs_emit.
  - intros ? ->. by f_equal.
Qed.
Lemma joined_all left right : joined (λ _ _, true) left right = left ≫= λ l, mergeRowInto l <$> right.
Proof.
  unfold joined. apply bind_ext. intros l _. f_equal. induction right as [|r right IH]; [done|]. rewrite filter_cons, decide_True by done. by rewrite IH.
Qed.
Lemma runs_cartesian left right : runs J E (cartesianJoin budget ctx left right) (λ out, out = joined (λ _ _, true) left right).
Proof.
  unfold cartesianJoin. eapply runs_then; [by apply runs_spendProduct|]. intros _ _.
  eapply runs_mono; [apply (runs_collect J E _ (λ l, mergeRowInto l <$> right))|].
  - intros out l _. apply runs_join_row.
  - intros ? ->. by rewrite joined_all.
Qed.

(** The key of a row, and the rows that have one key. *)
Definition row_key (e : Expression) (r : Row) : option string := match EvalValue v r e with inl (Some x) => Some (scalar_text x) | _ => None end.
Definition same_key (leftExpr rightExpr : Expression) (l r : Row) : bool :=
  match row_key leftExpr l, row_key rightExpr r with Some k, Some k' => bool_decide (k = k') | _, _ => false end.
Lemma runs_hash_right e right : runs J E (go_foldl (hash_right v budget ctx e) ∅ right)
  (λ buckets : gmap string (list Row), ∀ k, default [] (buckets !! k) = filter (λ r, row_key e r = Some k) right).
Proof.
  apply (runs_foldl J E _ (λ done (buckets : gmap string (list Row)), ∀ k, default [] (buckets !! k) = filter (λ r, row_key e r = Some k) done)); [|intros k; by rewrite lookup_empty].
  intros done r buckets Hb _. unfold hash_right. eapply runs_then; [apply runs_eval_value|]. intros [x|] Hx.
  - eapply runs_then; [by apply runs_spend|]. intros _ _. apply runs_ret. intros k. rewrite filter_grows.
    assert (row_key e r = Some (scalar_text x)) as -> by (unfold row_key; by rewrite Hx). destruct (decide (scalar_text x = k)) as [<-|Hne].
    + rewrite lookup_insert_eq. simpl. rewrite Hb. by rewrite decide_True.
    + rewrite lookup_insert_ne by done. rewrite decide_False by congruence. by rewrite Hb.
  - apply runs_ret. intros k. rewrite filter_grows. assert (row_key e r = None) as -> by (unfold row_key; by rewrite Hx). rewrite decide_False by done. by rewrite Hb.
Qed.
Lemma runs_hashJoin left right leftExpr rightExpr : runs J E (hashJoin v budget ctx left right leftExpr rightExpr) (λ out, out = joined (same_key leftExpr rightExpr) left right).
Proof.
  unfold hashJoin. eapply runs_then; [apply runs_hash_right|]. intros buckets Hb.
  eapply runs_mono; [apply (runs_collect J E _ (λ l, mergeRowInto l <$> filter (λ r, same_key leftExpr rightExpr l r = true) right))|done].
  intros out l _. eapply runs_then; [apply runs_eval_value|]. intros x Hx. eapply runs_then; [by apply runs_spend|]. intros _ _. unfold same_key. assert (row_key leftExpr l = match x with Some x => Some (scalar_text x) | None => None end) as -> by (unfold row_key; rewrite Hx; by destruct x). destruct x as [x|].
  - eapply runs_mono; [apply runs_join_row|]. intros ? ->. do 2 f_equal. rewrite Hb. apply list_filter_iff. intros r. destruct (row_key rightExpr r) as [k|]; [|by split].
    rewrite bool_decide_eq_true. split; [by intros [= ->]|by intros <-].
  - apply runs_ret. assert (filter (λ r : Row, false = true) right = []) as ->; [|by rewrite app_nil_r]. clear. induction right as [|r right IH]; [done|]. by rewrite filter_cons, decide_False by done.
Qed.

(** *** Rows that a join on an equality of [WHERE] leaves out *)

(** [WHERE] is true of a match: on a row that shows it. *)
Definition where_true (M : Match) : Prop :=
  match Where part with None => True | Some w => ∃ r, part_shows all r M ∧ EvalPredicate v r w = inl TriTrue end.
Hypothesis Hwhere : ∀ M, wanted M → where_true M.

(** What is read of a symbol of a node. *)
Lemma shows_sym comps r M s : part_shows comps r M → s ∈ dom (Nodes part) → (∀ c, c ∈ comps → c ∈ all) →
  Node r s = m_node M !! s ∧ Edge r s = None ∧ Scalar r s = None ∧ PathVar r s = None.
Proof.
  intros [Hn He Hp Hs _] Hd Hc. pose proof Hd as [nc Hnc]%elem_of_dom. destruct (po_nodes _ _ Hpart s nc Hnc) as [Hv _]. split; [done|]. split_and!; [|done|].
  - destruct (Edge r s) as [ref|] eqn:Er; [|done]. apply He in Er as (i & st & arc & e & _ & Hst & _ & Hes & _); [|done].
    destruct (so_edge _ _ (po_steps _ _ Hpart i st Hst)) as [Hnil|[_ Hno]]; [exfalso; apply (proj1 Hv); congruence|by subst].
  - destruct (PathVar r s) as [pv|] eqn:Er; [|done]. apply Hp in Er as (c & Hcin & Hu & _); [|done].
    destruct (uniform_path _ _ Hu) as (i & st & _ & Hst & Hps); [intros Hnil; rewrite Hnil in Hu; injection Hu as <-; by apply (proj1 Hv)|].
    destruct (so_path _ _ (po_steps _ _ Hpart i st Hst)) as [Hnil|[_ Hno]]; [exfalso; apply (proj1 Hv); congruence|by subst].
Qed.

Lemma elem_equi_join left right eqs a b : equi_join left right eqs = Some (a, b) →
  ∃ e, e ∈ eqs ∧ ((e.1.1 = a ∧ e.2.1 = b ∧ e.1.2 ∈ left ∧ e.2.2 ∈ right) ∨ (e.2.1 = a ∧ e.1.1 = b ∧ e.2.2 ∈ left ∧ e.1.2 ∈ right)).
Proof.
  induction eqs as [|[[x sx] [y sy]] eqs IH]; simpl; [done|]. intros Hj.
  assert (equi_join left right eqs = Some (a, b) → ∃ e, e ∈ (x, sx, (y, sy)) :: eqs ∧ ((e.1.1 = a ∧ e.2.1 = b ∧ e.1.2 ∈ left ∧ e.2.2 ∈ right) ∨ (e.2.1 = a ∧ e.1.1 = b ∧ e.2.2 ∈ left ∧ e.1.2 ∈ right))) as Hrest.
  { intros (e & He & Hor)%IH. exists e. split; [by right|done]. }
  destruct (String.eqb sx sy); [by apply Hrest|]. destruct (bool_decide (sx ∈ left) && bool_decide (sy ∈ right)) eqn:E1.
  - injection Hj as <- <-. apply andb_true_iff in E1 as [?%bool_decide_eq_true ?%bool_decide_eq_true]. eexists. split; [by left|]. by left.
  - destruct (bool_decide (sy ∈ left) && bool_decide (sx ∈ right)) eqn:E2; [|by apply Hrest].
    injection Hj as <- <-. apply andb_true_iff in E2 as [?%bool_decide_eq_true ?%bool_decide_eq_true]. eexists. split; [by left|]. by right.
Qed.

Section keep.
Context (done rest : list component) (c : component) (Hsplit : all = done ++ c :: rest).
(** A property of a side is read of the side's row as of the whole row. *)
Lemma value_left M l r0 e s : part_shows done l (restrict (syms_of done) (steps_of done) M) → part_shows all r0 M → s ∈ syms_of done → mentions e ⊆ {[s]} →
  EvalValue v l e = EvalValue v r0 e.
Proof.
  intros Hl Hr0 Hs Hm. apply EvalValue_local. intros s' ->%Hm%elem_of_singleton.
  assert (s ∈ dom (Nodes part)) as Hd by (destruct all_ok as (_ & _ & <- & _); apply elem_syms_of in Hs as (d & ? & ?); apply elem_syms_of; exists d; split; [by apply (apart_done done rest c Hsplit)|by idtac]).
  destruct (shows_sym _ _ _ s Hl Hd (apart_done done rest c Hsplit)) as (-> & -> & -> & ->). destruct (shows_sym _ _ _ s Hr0 Hd) as (-> & -> & -> & ->); [by idtac|].
  split; [|by idtac]. simpl. apply option_eq. intros n. rewrite map_lookup_filter_Some. simpl. tauto.
Qed.
Lemma value_right M r r0 e s : comp_shows v part (c_stepIdxs c) r (restrict (sym_set (c_syms c)) (idx_set (c_stepIdxs c)) M) → part_shows all r0 M → s ∈ c_syms c → mentions e ⊆ {[s]} →
  EvalValue v r e = EvalValue v r0 e.
Proof.
  intros [Hn He Hp Hsc Ho] Hr0 Hs Hm. apply EvalValue_local. intros s' ->%Hm%elem_of_singleton.
  assert (part_shows [c] r (restrict (sym_set (c_syms c)) (idx_set (c_stepIdxs c)) M)) as Hr.
  { constructor; try assumption. intros s'' pv Hv. rewrite Hp by assumption. unfold path_of. split; [intros [? ?]; exists c; split; [by left|by idtac]|]. by intros (d & ->%list_elem_of_singleton & ?). }
  assert (c ∈ all) as Hc by apply (apart_self done rest c Hsplit). assert (s ∈ dom (Nodes part)) as Hd by (destruct all_ok as (_ & _ & <- & _); apply elem_syms_of; by exists c).
  destruct (shows_sym _ _ _ s Hr Hd) as (-> & -> & -> & ->); [by intros d ->%list_elem_of_singleton|]. destruct (shows_sym _ _ _ s Hr0 Hd) as (-> & -> & -> & ->); [by idtac|].
  split; [|by idtac]. simpl. apply option_eq. intros n. rewrite map_lookup_filter_Some. simpl. assert (s ∈ sym_set (c_syms c)) by (by apply elem_of_list_to_set). tauto.
Qed.
Lemma keep_key a b M l r : equiJoinKeys (Where part) (mjoin (c_syms <$> done)) (c_syms c) = Some (a, b) → wanted M →
  part_shows done l (restrict (syms_of done) (steps_of done) M) → comp_shows v part (c_stepIdxs c) r (restrict (sym_set (c_syms c)) (idx_set (c_stepIdxs c)) M) →
  same_key a b l r = true.
Proof.
  unfold equiJoinKeys. intros Hj HM Hl Hr. pose proof (Hwhere M HM) as Hw. unfold where_true in Hw. destruct (Where part) as [w|]; [|by idtac]. cbn [mbind option_bind] in Hj.
  destruct Hw as (r0 & Hr0 & Ht). destruct (elem_equi_join _ _ _ _ _ Hj) as (e & He & Hor). destruct (equality_holds v r0 w e Ht He) as (x & y & Hx & Hy & Heq).
  pose proof (equality_values v r0 w e x He (or_introl Hx)) as Hxo. pose proof (equality_values v r0 w e y He (or_intror Hy)) as Hyo.
  pose proof (equal_same_key x y Hxo Hyo Heq) as Hk. destruct (equality_reads w e He) as [R1 R2].
  assert (∀ s, s ∈ mjoin (c_syms <$> done) → s ∈ syms_of done) as Hin by (intros s Hs; by apply elem_of_list_to_set).
  unfold same_key, row_key. destruct Hor as [(<- & <- & S1 & S2)|(<- & <- & S1 & S2)].
  - rewrite (value_left M l r0 _ _ Hl Hr0 (Hin _ S1) R1), Hx, (value_right M r r0 _ _ Hr Hr0 S2 R2), Hy. apply bool_decide_eq_true. unfold scalar_text, scalar_key. by rewrite Hk.
  - rewrite (value_left M l r0 _ _ Hl Hr0 (Hin _ S1) R2), Hy, (value_right M r r0 _ _ Hr Hr0 S2 R1), Hx. apply bool_decide_eq_true. unfold scalar_text, scalar_key. by rewrite Hk.
Qed.
End keep.

(** ** The matches of a part *)

(** A step that needs an edge of a kind the view has none of: no match. *)
Lemma cannot_match M : partCannotMatch v part = true → ¬ weak (dom (Nodes part)) (all_steps part) M.
Proof.
  unfold partCannotMatch. rewrite existsb_exists. intros (step & [i Hst]%list_elem_of_In%list_elem_of_lookup & Hno) HM.
  assert (i ∈ dom (m_arc M)) as [arc Harc]%elem_of_dom by (rewrite (wk_arcs _ _ _ _ _ _ _ HM); unfold all_steps; rewrite elem_of_list_to_set, elem_of_seq; apply lookup_lt_Some in Hst; clear -Hst; lia).
  destruct (wk_arc _ _ _ _ _ _ _ HM i arc Harc) as (step' & a & b & Hst' & _ & _ & Hh & _ & Hlink & Hlen). rewrite Hst in Hst'. injection Hst' as <-.
  assert (arc.2 ≠ [] ∧ EdgeKindPresent v (EdgeKinds step) = false) as [Hne Hk].
  { destruct (st_Range step) as [range|] eqn:Er; [|split; [by intros Hnil; rewrite Hnil in Hlen|by apply negb_true_iff]].
    apply andb_true_iff in Hno as [Hmin%negb_true_iff%Z.eqb_neq Hno%negb_true_iff]. split; [|done]. destruct Hlen as [_ [Hlo _]%in_range_iff]. intros Hnil. rewrite Hnil in Hlo.
    destruct (so_range _ _ (po_steps _ _ Hpart i step Hst) range Er) as (_ & Hpos & _). clear -Hlo Hpos Hmin. unfold len in Hlo. simpl in Hlo. lia. }
  destruct (arc.2) as [|e es]; [done|]. destruct (links_first _ _ _ _ _ Hlink Hh) as (n & a' & b' & k & _ & _ & Hj & Hkk).
  destruct (EdgeKinds step) as [|k0 ks] eqn:Ek; [done|]. apply edgeKindOK_spec in Hkk as [?|Hin]; [done|].
  assert (0 ≤ k)%Z as Hk0 by (apply (pt_kinds Hpat i step k Hst); by rewrite Ek).
  assert (∃ x y, visible G !! e = Some (x, y, k)) as (x & y & [Hg _]%visible_iff).
  { unfold joins in Hj. destruct (st_Direction step); [eauto..|]. destruct (String.eqb _ _); [eauto|]. destruct Hj as [_ [?|?]]; eauto. }
  rewrite (EdgeKindPresent_sound v L Ds HR (k0 :: ks) e x y k Hg Hk0) in Hk; [done|by right].
Qed.

Context (limit : option Z) (shortest : Part → Step → exec (list Row)).
Hypothesis Hlimit : reverseTrailRowCap limit = 0.
Hypothesis Hfuel : ∀ i step range, Chains part !! i = Some step → st_Range step = Some range → (1 + edge_total L Ds) ^ Z.to_N (rg_Max range) < fuel.

Lemma runs_join_component done rest c st : all = done ++ c :: rest →
  match st with None => done = [] | Some (rows, syms) => syms = mjoin (c_syms <$> done) ∧ part_covers done rows end →
  runs J E (join_component v budget ctx fuel limit shortest part st c)
    (λ st', ∃ rows, st' = Some (rows, mjoin (c_syms <$> (done ++ [c]))) ∧ part_covers (done ++ [c]) rows).
Proof.
  intros Hsplit Hst. unfold join_component. destruct all_ok as (_ & _ & _ & _ & Hok).
  assert (c ∈ all) as Hc by apply (apart_self done rest c Hsplit).
  assert (hasShortestStep part (c_stepIdxs c) = false) as Hshort.
  { apply not_true_iff_false. unfold hasShortestStep. rewrite existsb_exists. intros (i & _ & Hx). destruct (Chains part !! i) as [step|] eqn:Hstep; [|discriminate Hx].
    rewrite (pt_plain Hpat i step Hstep) in Hx. discriminate Hx. }
  eapply runs_then; [eapply (runs_component v L Ds HR Hsize budget ctx fuel E HE Heval part wanted Hpart Hwanted Hfuel limit Hlimit); [by apply Hok|exact Hshort|by apply Hdec]|].
  intros right Hright. destruct st as [[merged syms]|].
  - destruct Hst as [-> Hcov]. eapply (runs_then J E _ _ (part_covers (done ++ [c]))).
    + destruct (equiJoinKeys _ _ _) as [[a b]|] eqn:Ek.
      * eapply runs_mono; [apply runs_hashJoin|]. intros ? ->. apply (joined_covers done rest c Hsplit); [exact Hcov|exact Hright|]. intros M l r. by apply (keep_key done rest c Hsplit).
      * eapply runs_mono; [apply runs_cartesian|]. intros ? ->. apply (joined_covers done rest c Hsplit); [exact Hcov|exact Hright|]. reflexivity.
    + intros rows Hrows. apply runs_ret. exists rows. split; [|exact Hrows]. rewrite fmap_app, join_app. do 3 f_equal. cbn. by rewrite app_nil_r.
  - subst done. apply runs_ret. exists right. split; [cbn; by rewrite app_nil_r|]. by apply first_covers.
Qed.

Lemma none_wanted : (∀ M, ¬ wanted M) → part_covers all [].
Proof.
  intros Hno. exists []. split; [done|]. split; [constructor|]. split; [by intros p ?%not_elem_of_nil|]. intros M HM. by destruct (Hno M).
Qed.
Lemma no_symbols : Nodes part = ∅ → part_covers all [NewRow].
Proof.
  intros Hn. destruct all_ok as (_ & _ & Hs & _ & Hok). rewrite Hn, dom_empty_L in Hs.
  assert (all = []) as ->.
  { destruct all as [|c rest]; [done|]. exfalso. destruct (c_syms c) as [|s l] eqn:Es; [by apply (co_some _ _ _ (Hok c ltac:(by left)))|].
    assert (s ∈ syms_of (c :: rest)) as Hin by (apply elem_syms_of; exists c; rewrite Es; split; by left). rewrite Hs in Hin. by apply not_elem_of_empty in Hin. }
  assert (∀ M, restrict (syms_of []) (steps_of []) M = mkMatch ∅ ∅) as Hr.
  { intros M. unfold restrict. f_equal; apply map_eq; intros k; rewrite lookup_empty; apply map_lookup_filter_None; right; intros x _ Hk; by apply not_elem_of_empty in Hk. }
  exists [(NewRow, mkMatch ∅ ∅)]. split; [done|]. split; [apply NoDup_singleton|]. split; [|intros M _; rewrite Hr; by left].
  intros p ->%list_elem_of_singleton. simpl. split.
  - constructor; [done| |intros s pv _; split; [done|by intros (c & ?%not_elem_of_nil & _)]|done|apply once_NewRow].
    intros s ref _. split; [done|]. by intros (i & st & arc & e & Hi & _).
  - constructor; simpl; try done; by intros.
Qed.

Lemma runs_matchPart : (∀ M, wanted M → weak (dom (Nodes part)) (all_steps part) M) → runs J E (matchPart v budget ctx fuel limit shortest part) (part_covers all).
Proof.
  intros Hw. unfold matchPart. destruct (size (Nodes part) =? 0)%nat eqn:Es.
  { apply runs_ret, no_symbols. apply Nat.eqb_eq in Es. by apply map_size_empty_iff in Es. }
  destruct (partCannotMatch v part) eqn:Ec.
  { apply runs_ret, none_wanted. intros M HM. by apply (cannot_match M Ec), Hw. }
  eapply runs_bind, runs_lift; [exact Hall|].
  eapply (runs_then J E _ _ (λ st, match st with None => all = [] | Some (rows, syms) => syms = mjoin (c_syms <$> all) ∧ part_covers all rows end)).
  - apply (runs_foldl_split J E _ (λ done st, match st with None => done = [] | Some (rows, syms) => syms = mjoin (c_syms <$> done) ∧ part_covers done rows end)); [|done].
    intros done rest c st Hsplit Hst. eapply runs_mono; [by apply (runs_join_component done rest c st)|]. by intros ? (rows & -> & Hrows).
  - intros [[rows syms]|]; [intros [_ Hcov]; by apply runs_ret|]. intros Hnil. exfalso. destruct all_ok as (_ & _ & Hs & _ & _). rewrite Hnil in Hs.
    apply Nat.eqb_neq in Es. apply Es, map_size_empty_iff, dom_empty_inv_L. by rewrite <- Hs.
Qed.

(** *** The filter *)

Definition passes (expr : option Expression) (r : Row) : bool := match expr with None => true | Some w => holds v r w end.
Lemma runs_filterRows rows expr : runs J E (filterRows v rows expr) (λ out, out = filter (λ r, passes expr r = true) rows).
Proof.
  unfold filterRows, passes. destruct expr as [w|]; [|apply runs_ret; clear; induction rows as [|r rows IH]; [done|]; rewrite filter_cons, decide_True by done; by f_equal].
  apply (runs_foldl J E _ (λ done out, out = filter (λ r, holds v r w = true) done)); [|done].
  intros done r out -> _. rewrite filter_grows. destruct (EvalPredicate v r w) as [t|err] eqn:Ee; [|apply runs_err, Heval; exists r, w; by left].
  assert (holds v r w = bool_decide (t = TriTrue)) as -> by (unfold holds; rewrite Ee; by destruct t).
  apply runs_ret. destruct (bool_decide (t = TriTrue)); [by rewrite decide_True|by rewrite decide_False].
Qed.

Definition is_match (M : Match) : Prop := weak (dom (Nodes part)) (all_steps part) M ∧ where_true M.
(** The rows stand for matches of the part, each once, and for all the wanted
    ones. *)
Definition matched (rows : list Row) : Prop := ∃ ps : list (Row * Match), rows = ps.*1 ∧ NoDup ps.*2 ∧
  (∀ p, p ∈ ps → part_shows all p.1 p.2 ∧ is_match p.2) ∧ ∀ M, wanted M → M ∈ ps.*2.

Lemma where_passes r M : part_shows all r M → passes (Where part) r = true ↔ where_true M.
Proof.
  intros Hr. unfold passes, where_true. destruct (Where part) as [w|] eqn:Ew; [|done]. unfold holds. split.
  - intros Hp. exists r. split; [done|]. by destruct (EvalPredicate v r w) as [[]|].
  - intros (r0 & Hr0 & Ht). rewrite (EvalPredicate_local v r r0 w); [by rewrite Ht|]. intros s Hs. pose proof (pt_where Hpat w s Ew Hs) as Hv.
    destruct Hr as [N1 E1 P1 C1 _], Hr0 as [N2 E2 P2 C2 _]. rewrite N1, N2, C1, C2. split_and!; try done.
    + apply option_eq. intros x. by rewrite E1, E2.
    + apply option_eq. intros x. by rewrite P1, P2.
Qed.
Lemma runs_matched : (∀ M, wanted M → is_match M) →
  runs J E (let! rows := matchPart v budget ctx fuel limit shortest part in filterRows v rows (Where part)) matched.
Proof.
  intros Hw. eapply runs_then; [apply runs_matchPart; intros M HM; by apply Hw|]. intros ? (ps & -> & Hnd & Hps & HMs). eapply runs_mono; [apply runs_filterRows|]. intros ? ->.
  destruct all_ok as (_ & _ & Hsy & Hst & _). rewrite Hsy, Hst in Hps, HMs.
  exists (filter (λ p, passes (Where part) p.1 = true) ps). split_and!.
  - clear. induction ps as [|p ps IH]; [done|]. rewrite fmap_cons, !filter_cons. destruct (decide (passes (Where part) p.1 = true)); [|done]. by rewrite IH.
  - apply NoDup_fmap_2_strong; [|by apply NoDup_filter, (NoDup_fmap_1 snd)]. intros p q [_ Hp]%list_elem_of_filter [_ Hq]%list_elem_of_filter. by apply (NoDup_fmap_inj_elem snd ps).
  - intros p [Hp Hin]%list_elem_of_filter. destruct (Hps p Hin) as [Hr Hwk]. split; [exact Hr|]. split; [exact Hwk|]. by apply (where_passes p.1).
  - intros M HM. pose proof (HMs M HM) as (p & He & Hin)%list_elem_of_fmap. destruct (Hps p Hin) as [Hr Hwk].
    assert (p.2 = M) as Hp by (rewrite <- He; apply restrict_id; [by rewrite (wk_nodes _ _ _ _ _ _ _ (proj1 (Hw M HM)))|by rewrite (wk_arcs _ _ _ _ _ _ _ (proj1 (Hw M HM)))]).
    apply list_elem_of_fmap. exists p. split; [done|]. apply list_elem_of_filter. split; [|done]. apply (where_passes p.1 p.2 Hr). rewrite Hp. by apply Hw.
Qed.
End joining.

(** Why a part may end without rows: a budget that is set, a context that is
    done, an expression that cannot be evaluated, or a component of a shape
    that is left to PostgreSQL. *)
Definition match_error `{Cypher} (v : View) (budget : Budgets) (ctx : Ctx) (part : Part) (comps : list component) (e : goerr) : Prop :=
  out_of_budget budget ctx e ∨ eval_error v e ∨ (e = ErrUnsupportedStep ∧ ∃ c, c ∈ comps ∧ declined part v (c_stepIdxs c) = true).
(** The fuel of a walk along the trails of a part. *)
Definition enough_trails `{Cypher} (L : layout) (Ds : list delta) (part : Part) (fuel : N) : Prop :=
  ∀ i step range, Chains part !! i = Some step → st_Range step = Some range → (1 + edge_total L Ds) ^ Z.to_N (rg_Max range) < fuel.
(** What a plan has moved from [WHERE] to the nodes follows from [WHERE]. *)
Definition pushed_down `{GoStd} `{Cypher} (v : View) (L : layout) (Ds : list delta) (part : Part) (comps : list component) : Prop :=
  ∀ M s n, is_match v L Ds part comps M → m_node M !! s = Some n →
    preds_hold v (Nodes part !! s) (SetNode NewRow s n) = true ∧ nc_allows (Nodes part !! s) n.

Lemma part_matched `{GoStd} `{Cypher} `{!CypherLaws} `{!EqualityLaws} v L Ds budget ctx fuel limit shortest part comps (wanted : Match → Prop) s :
  View_rep v L Ds → View_NodeCount v < 2 ^ 31 → part_ok v part → patterns_ok part → groupComponents part = Some comps →
  (∀ M, wanted M → is_match v L Ds part comps M ∧ ∀ s n, m_node M !! s = Some n →
    preds_hold v (Nodes part !! s) (SetNode NewRow s n) = true ∧ nc_allows (Nodes part !! s) n) →
  reverseTrailRowCap limit = 0 → enough_trails L Ds part fuel → memo_ok v L (x_memo s) →
  ∃ s' r, (let! rows := matchPart v budget ctx fuel limit shortest part in filterRows v rows (Where part)) s = Some (s', r) ∧ memo_ok v L (x_memo s') ∧
    match r with inl rows => matched v L Ds part comps wanted rows | inr e => match_error v budget ctx part comps e end.
Proof.
  intros HR Hsize Hpart Hpat Hc Hw Hlim Hfuel Hm.
  eapply (runs_matched v L Ds HR Hsize budget ctx fuel (match_error v budget ctx part comps)); try done; try (by apply Hw).
  - intros e He. by left.
  - intros e He. right. by left.
  - intros c Hin Hd. right. right. split; [done|]. by exists c.
  - constructor; [intros M HM; apply (Hw M HM)|intros M s0 n HM Hn; by apply (proj2 (Hw M HM))..].
Qed.
