(* ===== verification/Optional.v ===== *)
(** * OPTIONAL MATCH

    [internal/engine/interpret/pipeline.go]: the rows of a part with its
    [WHERE] ([matchPartPlain]), each extended by the matches of the part's
    [OPTIONAL MATCH] or kept as it is ([leftJoinOptional]); and that this is the
    left outer join on the symbols the two patterns share. *)

From S2P Require Import Prelude Bitset Csr Snapshot Segment View ViewAdj EdgeKinds Traverse ViewTraverse Rows Values Scan Hops Trails Components Matching ComponentRuns ComponentPaths Joins JoinRuns.
From Stdlib Require Import Ascii.
From stdpp Require Import options.
Unset Default Proof Using.
#[local] Open Scope N_scope.
#[local] Open Scope go_scope.

(** ** Definitions *)

Section optional.
Context `{GoStd} `{Cypher}.
Context (v : View) (budget : Budgets) (ctx : Ctx).

(** *** Keys *)

Fixpoint optionalJoinKey (r : Row) (shared : list string) : option bytes :=
  match shared with
  | [] => Some []
  | sym :: shared => id ← Node r sym; rest ← optionalJoinKey r shared; Some (appendUint32 (u32 id) ++ rest)
  end.

Definition appendSymbolKey (r : Row) (sym : string) : option bytes :=
  match Node r sym with
  | Some nodeID => id ← View_GraphID v nodeID; Some (appendTaggedUint "N" id)
  | None =>
      match Edge r sym with
      | Some edgeRef => id ← EdgeRef_DatabaseID v edgeRef; Some (appendTaggedUint "D" id)
      | None => Some (match Scalar r sym with Some val => scalar_key val | None => ["u"%char] end)
      end
  end.
Fixpoint groupKeyBytes (r : Row) (syms : list string) : option bytes :=
  match syms with
  | [] => Some []
  | sym :: syms => key ← appendSymbolKey r sym; rest ← groupKeyBytes r syms; Some (key ++ rest)
  end.

(** *** The candidates of a shared symbol *)

(** The nodes the rows bind a symbol to, each where it comes first; [None] when a
    row does not bind it. *)
Definition seed_ids (sym : string) (rows : list Row) : option (list NodeID) :=
  foldl_option (λ ids r, id ← Node r sym; Some (if bool_decide (id ∈ ids) then ids else ids ++ [id])) [] rows.

Definition sorted_ids (ids : list NodeID) : list NodeID := go_sort (less_key (λ i : NodeID, i)) ids.
Fixpoint intersect_sorted (a : list NodeID) : list NodeID → list NodeID :=
  match a with
  | [] => λ _, []
  | x :: a' => fix go b :=
      match b with
      | [] => []
      | y :: b' => if x <? y then intersect_sorted a' (y :: b') else if y <? x then go b' else x :: intersect_sorted a' b'
      end
  end.
Definition intersectNodeIDs (a b : list NodeID) : list NodeID := intersect_sorted (sorted_ids a) b.

Definition no_constraint : NodeConstraint := mkNodeConstraint [] [] None [] [] false.
Definition seeded_constraint (nc : NodeConstraint) (ids : list NodeID) : NodeConstraint :=
  let ids := sorted_ids ids in
  let ids := if PropIndexed nc then intersectNodeIDs (PropCandidates nc) ids else ids in
  mkNodeConstraint (nc_Kinds nc) (nc_IDs nc) (ObjectIDAnchor nc) (Predicates nc) ids true.
Definition seed_symbol (opt : Part) (rows : list Row) (nodes : gmap string NodeConstraint) (sym : string) : gmap string NodeConstraint :=
  match seed_ids sym rows with
  | None => nodes
  | Some ids => <[sym := seeded_constraint (default no_constraint (Nodes opt !! sym)) ids]> nodes
  end.
Definition seedOptionalPart (opt : Part) (shared : list string) (rows : list Row) : Part :=
  if (len shared =? 0) || (len rows =? 0) then opt
  else mkPart (Chains opt) (foldl (seed_symbol opt rows) (Nodes opt) shared) (Where opt) (With opt) (OptionalPart opt) (OptionalShared opt).

(** *** The join *)

(** The meter's limit depends on the part: see [reverseTrailRowCap]. *)
Context (fuel : N) (limit : Part → option Z) (expandShortestPathComponent : Part → Step → exec (list Row)).

Definition opt_bucket (shared : list string) (buckets : gmap bytes (list Row)) (r : Row) : exec (gmap bytes (list Row)) :=
  match optionalJoinKey r shared with
  | None => go_ret buckets
  | Some key =>
      let! _ := spend budget ctx 1 in
      go_ret (<[key := default [] (buckets !! key) ++ [r]]> buckets)
  end.
Definition opt_row (part : Part) (buckets : gmap bytes (list Row)) (st : list Row * gset bytes) (l : Row) : exec (list Row * gset bytes) :=
  let '(out, matchedTuples) := st in
  let! _ := spend budget ctx 1 in
  let matches := match optionalJoinKey l (OptionalShared part) with Some key => default [] (buckets !! key) | None => [] end in
  if len matches =? 0 then
    let! _ := observeRows budget (len (out ++ [l])) in
    go_ret (out ++ [l], matchedTuples)
  else
    let! tuple := go_lift (groupKeyBytes l (part_syms part)) in
    if bool_decide (tuple ∈ matchedTuples) then go_err ErrUnsupportedStep
    else
      let! out := join_row budget ctx out l matches in
      go_ret (out, {[tuple]} ∪ matchedTuples).
Definition match_where (part : Part) : exec (list Row) :=
  let! rows := matchPart v budget ctx fuel (limit part) expandShortestPathComponent part in
  filterRows v rows (Where part).
Definition leftJoinOptional (part : Part) (rows : list Row) : exec (list Row) :=
  match OptionalPart part with
  | None => go_ret rows
  | Some opt =>
      if len rows =? 0 then go_ret rows
      else
        let! optRows := match_where (seedOptionalPart opt (OptionalShared part) rows) in
        let! buckets := go_foldl (opt_bucket (OptionalShared part)) ∅ optRows in
        let! r := go_foldl (opt_row part buckets) ([], ∅) rows in
        go_ret r.1
  end.
Definition matchPartPlain (part : Part) : exec (list Row) :=
  let! rows := match_where part in
  leftJoinOptional part rows.
End optional.

(** ** The candidates *)

Lemma seed_ids_ok sym (rows : list Row) : (∀ r, r ∈ rows → is_Some (Node r sym)) →
  ∃ ids, seed_ids sym rows = Some ids ∧ NoDup ids ∧ ∀ n, n ∈ ids ↔ ∃ r, r ∈ rows ∧ Node r sym = Some n.
Proof.
  intros Hb. apply (foldl_option_inv _ (λ done (ids : list NodeID), NoDup ids ∧ ∀ n, n ∈ ids ↔ ∃ r, r ∈ done ∧ Node r sym = Some n)).
  - intros done rest r ids -> [Hnd Hids]. destruct (Hb r) as [id Hid]; [apply elem_of_app; right; by left|]. rewrite Hid. cbn [mbind option_bind].
    eexists. split; [done|]. assert (∀ n, (∃ r0, r0 ∈ done ++ [r] ∧ Node r0 sym = Some n) ↔ n ∈ ids ∨ n = id) as Hx.
    { intros n. rewrite Hids. setoid_rewrite elem_of_app. setoid_rewrite list_elem_of_singleton. naive_solver. }
    setoid_rewrite Hx. destruct (bool_decide_reflect (id ∈ ids)) as [Hin|Hin]; [split; [done|naive_solver]|]. split.
    + apply NoDup_app. split; [done|]. split; [|apply NoDup_singleton]. by intros x Hx1 ->%list_elem_of_singleton.
    + intros n. by rewrite elem_of_app, list_elem_of_singleton.
  - split; [constructor|]. intros n. split; [by intros ?%not_elem_of_nil|by intros (r & ?%not_elem_of_nil & _)].
Qed.

Lemma sorted_ids_ok `{GoStd} ids : StronglySorted N.le (sorted_ids ids) ∧ sorted_ids ids ≡ₚ ids.
Proof.
  split; [|apply go_sort_perm]. eapply StronglySorted_weaken; [|apply go_sort_sorted, is_less_key]. intros x y ?. by apply (le_of_key (λ i : N, i)).
Qed.
Lemma intersect_spec a b : StronglySorted N.le a → StronglySorted N.le b → NoDup b →
  NoDup (intersect_sorted a b) ∧ ∀ x, x ∈ intersect_sorted a b ↔ x ∈ a ∧ x ∈ b.
Proof.
  intros Ha. revert b. induction Ha as [|x a Ha IHa Hx]; intros b Hb Hnd.
  { split; [constructor|]. intros z. split; [by intros ?%not_elem_of_nil|by intros [?%not_elem_of_nil _]]. }
  induction Hb as [|y b Hb IHb Hy].
  { split; [constructor|]. intros z. split; [by intros ?%not_elem_of_nil|by intros [_ ?%not_elem_of_nil]]. }
  rewrite Forall_forall in Hx, Hy. pose proof Hnd as [Hn Hnd']%NoDup_cons. simpl. destruct (N.ltb_spec x y) as [Hxy|Hxy].
  - destruct (IHa (y :: b)) as [Hi He]; [by constructor; [|rewrite Forall_forall]|done|]. split; [done|]. intros z. rewrite He, (elem_of_cons a z x). split; [tauto|].
    intros [[->|?] Hz]; [|done]. exfalso. apply elem_of_cons in Hz as [->|Hz]; [lia|]. specialize (Hy x Hz). lia.
  - destruct (N.ltb_spec y x) as [Hyx|Hyx].
    + destruct (IHb Hnd') as [Hi He]. split; [done|]. intros z. etrans; [apply He|]. rewrite (elem_of_cons b z y). split; [tauto|].
      intros [Hz [->|?]]; [|done]. exfalso. apply elem_of_cons in Hz as [->|Hz]; [lia|]. specialize (Hx y Hz). lia.
    + assert (x = y) as -> by lia. destruct (IHa b Hb Hnd') as [Hi He]. split; [constructor; [rewrite He; tauto|done]|]. intros z. rewrite !elem_of_cons, He. tauto.
Qed.

(** ** The seeded part

    has the same patterns on the same symbols, which ask for the same; only
    candidates are left out, ones that no row is at. *)

Section seeded.
Context `{GoStd} `{Cypher}.
Context (v : View) (L : layout) (Ds : list delta) (opt : Part) (shared : list string) (rows : list Row).
Hypothesis Hshared : ∀ s, s ∈ shared → s ∈ dom (Nodes opt) ∧ ∀ r, r ∈ rows → ∃ n, Node r s = Some n ∧ n < View_NodeCount v.

Record reseeded (s : string) (nc nc' : NodeConstraint) : Prop := {
  rs_kinds : nc_Kinds nc' = nc_Kinds nc;
  rs_ids : nc_IDs nc' = nc_IDs nc;
  rs_objectid : ObjectIDAnchor nc' = ObjectIDAnchor nc;
  rs_preds : Predicates nc' = Predicates nc;
  rs_proper : nc_proper v (Some nc) → nc_proper v (Some nc');
  rs_allows : ∀ n, nc_allows (Some nc) n → (s ∈ shared → ∃ r, r ∈ rows ∧ Node r s = Some n) → nc_allows (Some nc') n;
}.
Lemma seeded_constraint_ok s nc ids : s ∈ shared → seed_ids s rows = Some ids → reseeded s nc (seeded_constraint nc ids).
Proof.
  intros Hs Hids. destruct (Hshared s Hs) as [_ Hrows]. destruct (seed_ids_ok s rows) as (ids' & Hids' & Hnd & Hin).
  { intros r Hr. destruct (Hrows r Hr) as (n & -> & _). done. }
  rewrite Hids in Hids'. injection Hids' as <-. destruct (sorted_ids_ok ids) as [Hsort Hperm].
  assert (NoDup (sorted_ids ids)) as Hnds by (by rewrite Hperm).
  assert (∀ n, n ∈ sorted_ids ids ↔ ∃ r, r ∈ rows ∧ Node r s = Some n) as Hins by (intros n; by rewrite Hperm).
  assert (∀ n, n ∈ sorted_ids ids → n < View_NodeCount v) as Hlt.
  { intros n (r & Hr & Hn)%Hins. destruct (Hrows r Hr) as (n' & Hn' & ?). rewrite Hn in Hn'. by injection Hn' as <-. }
  destruct (sorted_ids_ok (PropCandidates nc)) as [Hsort' Hperm'].
  destruct (intersect_spec (sorted_ids (PropCandidates nc)) (sorted_ids ids) Hsort' Hsort Hnds) as [Hi He].
  constructor; try done; simpl.
  - intros [_ Hu]. split; [|exact Hu]. intros _. unfold intersectNodeIDs, proper_ids. destruct (PropIndexed nc); split; [done| |done..]. intros n [_ Hn]%He. by apply Hlt.
  - intros n Ha Hr _. specialize (Hr Hs). unfold intersectNodeIDs. destruct (PropIndexed nc) eqn:Ep; [|by apply Hins].
    apply He. rewrite Hperm'. split; [by apply Ha|by apply Hins].
Qed.
Lemma reseeded_same s nc : reseeded s nc nc.
Proof. by constructor. Qed.

Definition both_reseeded (s : string) (x y : option NodeConstraint) : Prop :=
  match x, y with Some nc, Some nc' => reseeded s nc nc' | None, None => True | _, _ => False end.
Lemma seed_symbols_ok l nodes : (∀ s, s ∈ l → s ∈ shared) → (∀ s, both_reseeded s (Nodes opt !! s) (nodes !! s)) →
  ∀ s, both_reseeded s (Nodes opt !! s) (foldl (seed_symbol opt rows) nodes l !! s).
Proof.
  revert nodes. induction l as [|t l IH]; intros nodes Hl Hn; [done|]. simpl. apply IH; [intros s Hs; apply Hl; by right|]. intros s. unfold seed_symbol.
  destruct (seed_ids t rows) as [ids|] eqn:Eids; [|apply Hn]. destruct (decide (t = s)) as [<-|Hne]; [|rewrite lookup_insert_ne by done; apply Hn].
  rewrite lookup_insert_eq. assert (t ∈ shared) as Ht by (apply Hl; by left). destruct (Hshared t Ht) as [[nc Hnc]%elem_of_dom _]. rewrite Hnc. by apply seeded_constraint_ok.
Qed.

Let seeded := seedOptionalPart opt shared rows.
Lemma seeded_chains : Chains seeded = Chains opt.
Proof. unfold seeded, seedOptionalPart. by destruct (_ || _). Qed.
Lemma seeded_where : Where seeded = Where opt.
Proof. unfold seeded, seedOptionalPart. by destruct (_ || _). Qed.
Lemma seeded_nodes s : both_reseeded s (Nodes opt !! s) (Nodes seeded !! s).
Proof.
  assert (∀ s, both_reseeded s (Nodes opt !! s) (Nodes opt !! s)) as Hsame by (intros t; destruct (Nodes opt !! t); [apply reseeded_same|done]).
  unfold seeded, seedOptionalPart. destruct (_ || _); [apply Hsame|]. by apply seed_symbols_ok.
Qed.
Lemma seeded_dom : dom (Nodes seeded) = dom (Nodes opt).
Proof.
  apply set_eq. intros s. rewrite !elem_of_dom. pose proof (seeded_nodes s) as Hs. unfold both_reseeded in Hs.
  by destruct (Nodes opt !! s), (Nodes seeded !! s).
Qed.
Lemma seeded_sat s n : sat_node v (Nodes seeded !! s) n = sat_node v (Nodes opt !! s) n.
Proof.
  pose proof (seeded_nodes s) as Hs. unfold both_reseeded in Hs. destruct (Nodes opt !! s) as [nc|], (Nodes seeded !! s) as [nc'|]; try done.
  unfold sat_node, nodeSatisfiesConstraint. by rewrite (rs_kinds _ _ _ Hs), (rs_ids _ _ _ Hs), (rs_objectid _ _ _ Hs).
Qed.
Lemma seeded_preds s r : preds_hold v (Nodes seeded !! s) r = preds_hold v (Nodes opt !! s) r.
Proof.
  pose proof (seeded_nodes s) as Hs. unfold both_reseeded in Hs. destruct (Nodes opt !! s) as [nc|], (Nodes seeded !! s) as [nc'|]; try done.
  simpl. by rewrite (rs_preds _ _ _ Hs).
Qed.
Lemma seeded_syms : part_syms seeded = part_syms opt.
Proof.
  apply sortedKeys_perm, NoDup_Permutation; [apply NoDup_fst_map_to_list..|]. intros s.
  pose proof (elem_part_syms seeded s) as H1. pose proof (elem_part_syms opt s) as H2. unfold part_syms in H1, H2. rewrite go_sort_elem in H1, H2. by rewrite H1, H2, seeded_dom.
Qed.
Lemma seeded_groups : groupComponents seeded = groupComponents opt.
Proof. unfold groupComponents, uf_fuel. by rewrite seeded_syms, seeded_chains. Qed.
Lemma seeded_weak S D m : weak v L Ds seeded S D m ↔ weak v L Ds opt S D m.
Proof.
  split; intros [H1 H2 H3 H4 H5]; constructor; try done; rewrite ?seeded_chains in *; try done; intros s n Hn; destruct (H3 s n Hn) as [? Hs]; split; try done.
  - by rewrite seeded_sat in Hs.
  - by rewrite seeded_sat.
Qed.

(** What depends on the steps and on [WHERE] only. *)
Lemma seeded_form : ∃ nodes, seeded = mkPart (Chains opt) nodes (Where opt) (With opt) (OptionalPart opt) (OptionalShared opt).
Proof. unfold seeded, seedOptionalPart. destruct (_ || _); [|by eexists]. exists (Nodes opt). by destruct opt. Qed.
Lemma seeded_shows comps r m : part_shows v seeded comps r m ↔ part_shows v opt comps r m.
Proof. destruct seeded_form as [nodes ->]. split; intros [H1 H2 H3 H4 H5]; by constructor. Qed.
Lemma seeded_error budget ctx comps e : match_error v budget ctx seeded comps e ↔ match_error v budget ctx opt comps e.
Proof. by destruct seeded_form as [nodes ->]. Qed.
Lemma seeded_fuel fuel : enough_trails L Ds opt fuel → enough_trails L Ds seeded fuel.
Proof. by destruct seeded_form as [nodes ->]. Qed.
Lemma seeded_patterns : patterns_ok opt → patterns_ok seeded.
Proof. destruct seeded_form as [nodes ->]. intros [H1 H2 H3 H4 H5]. by constructor. Qed.
Lemma seeded_is_match comps m : is_match v L Ds seeded comps m ↔ is_match v L Ds opt comps m.
Proof.
  unfold is_match. rewrite seeded_weak, seeded_dom. unfold where_true, all_steps. rewrite seeded_where, seeded_chains. destruct (Where opt) as [w|]; [|done].
  by setoid_rewrite seeded_shows.
Qed.
Lemma seeded_step_ok st : step_ok opt st → step_ok seeded st.
Proof. intros [H1 H2 H3 H4 H5 H6]. constructor; rewrite ?seeded_dom; done. Qed.
Lemma seeded_ok : part_ok v opt → part_ok v seeded.
Proof.
  intros [H1 H2 H3]. constructor; rewrite ?seeded_chains; [intros i st Hst; by eapply seeded_step_ok, H1|done|].
  intros s nc' Hnc'. pose proof (seeded_nodes s) as Hs. rewrite Hnc' in Hs. unfold both_reseeded in Hs. destruct (Nodes opt !! s) as [nc|] eqn:Hnc; [|done].
  destruct (H3 s nc Hnc) as (Hv & Hp & Hm). split; [done|]. split; [by apply (rs_proper _ _ _ Hs)|]. rewrite (rs_preds _ _ _ Hs). done.
Qed.
End seeded.

(** ** Keys *)

Section keys.
Context `{GoStd} `{Cypher}.

(** The symbols are bound, to nodes that 32 bits number. *)
Definition binds (r : Row) (syms : list string) : Prop := ∀ s, s ∈ syms → ∃ n, Node r s = Some n ∧ n < 2 ^ 32.
Lemma binds_cons r s syms : binds r (s :: syms) → (∃ n, Node r s = Some n ∧ n < 2 ^ 32) ∧ binds r syms.
Proof. intros Hb. split; [apply Hb; by left|]. intros t Ht. apply Hb. by right. Qed.
Lemma joinKey_total r shared : binds r shared → is_Some (optionalJoinKey r shared).
Proof.
  induction shared as [|s shared IH]; [done|]. intros [(n & Hn & _) Hb]%binds_cons. simpl. rewrite Hn. simpl. by destruct (IH Hb) as [k ->].
Qed.
Lemma joinKey_same l r shared : binds l shared → binds r shared →
  optionalJoinKey r shared = optionalJoinKey l shared ↔ ∀ s, s ∈ shared → Node r s = Node l s.
Proof.
  induction shared as [|s shared IH]; [split; [by intros _ s ?%not_elem_of_nil|done]|]. intros [(n & Hn & Hlt) Hl]%binds_cons [(m & Hm & Hlt') Hr]%binds_cons.
  cbn [optionalJoinKey]. rewrite Hn, Hm. destruct (joinKey_total l shared Hl) as [k Hk], (joinKey_total r shared Hr) as [k' Hk']. specialize (IH Hl Hr). rewrite Hk, Hk' in IH. rewrite Hk, Hk'.
  cbn [mbind option_bind]. split.
  - intros He%(inj Some). apply u32_app in He as [-> ->]; [|done..]. intros t [->|Ht]%elem_of_cons; [by rewrite Hm, Hn|]. by apply IH.
  - intros Hs. assert (m = n) as -> by (specialize (Hs s ltac:(by left)); rewrite Hm, Hn in Hs; by injection Hs).
    assert (Some k' = Some k) as [= ->]; [|done]. apply IH. intros t Ht. apply Hs. by right.
Qed.

Context (v : View).
Lemma symbolKey r s n id : Node r s = Some n → View_GraphID v n = Some id → appendSymbolKey v r s = Some (appendTaggedUint "N" id).
Proof. intros Hn Hid. unfold appendSymbolKey. rewrite Hn. cbn [mbind option_bind]. by rewrite Hid. Qed.
(** Rows with one key for symbols that are bound to nodes show the same nodes. *)
Lemma groupKey_same l r syms k : (∀ id, id ∈ view_ids v → id < 2 ^ 64) → NoDup (view_ids v) →
  (∀ x, x = l ∨ x = r → ∀ s, s ∈ syms → ∃ n id, Node x s = Some n ∧ View_GraphID v n = Some id ∧ idx (view_ids v) n = Some id) →
  groupKeyBytes v l syms = Some k → groupKeyBytes v r syms = Some k → ∀ s, s ∈ syms → Node l s = Node r s.
Proof.
  intros Hlt Hnd. revert k. induction syms as [|s syms IH]; intros k Hb; [by intros _ _ s ?%not_elem_of_nil|].
  destruct (Hb l (or_introl eq_refl) s ltac:(by left)) as (n & id & Hn & Hid & Hi), (Hb r (or_intror eq_refl) s ltac:(by left)) as (n' & id' & Hn' & Hid' & Hi').
  cbn [groupKeyBytes]. rewrite (symbolKey l s n id Hn Hid), (symbolKey r s n' id' Hn' Hid'). cbn [mbind option_bind].
  destruct (groupKeyBytes v l syms) as [ks|]; [|done]. destruct (groupKeyBytes v r syms) as [ks'|]; [|done]. cbn [mbind option_bind].
  intros <-%(inj Some) He%(inj Some). unfold appendTaggedUint in He. apply cons_tail in He.
  apply (be_bytes_app 8) in He as [He Hks]; [|apply Hlt; by eapply idx_elem_of..]. subst id' ks'.
  intros t [->|Ht]%elem_of_cons; [rewrite Hn, Hn'; f_equal; pose proof (NoDup_lookup _ _ _ _ Hnd Hi Hi'); lia|].
  apply (IH ks); [intros x Hx s' Hs'; apply (Hb x Hx); by right|done|done|done].
Qed.
Lemma groupKey_total r syms : (∀ s, s ∈ syms → ∃ n id, Node r s = Some n ∧ View_GraphID v n = Some id) → is_Some (groupKeyBytes v r syms).
Proof.
  induction syms as [|s syms IH]; intros Hb; [done|]. destruct (Hb s ltac:(by left)) as (n & id & Hn & Hid). destruct IH as [k Hk]; [intros t Ht; apply Hb; by right|].
  cbn [groupKeyBytes]. rewrite (symbolKey r s n id Hn Hid), Hk. by eexists.
Qed.
End keys.

(** ** The left outer join *)

Section join.
Context `{GoStd} `{Cypher} `{!CypherLaws} `{!EqualityLaws}.
Context (v : View) (L : layout) (Ds : list delta) (HR : View_rep v L Ds) (Hsize : View_NodeCount v < 2 ^ 31).
Context (budget : Budgets) (ctx : Ctx) (fuel : N) (limit : Part → option Z) (shortest : Part → Step → exec (list Row)).
Hypothesis Hlimit : ∀ p, reverseTrailRowCap (limit p) = 0.
Context (part opt : Part) (comps : list component).
Hypothesis (Hoptional : OptionalPart part = Some opt) (Hok : part_ok v opt) (Hpat : patterns_ok opt) (Hcomps : groupComponents opt = Some comps)
  (Hpush : pushed_down v L Ds opt comps) (Hfuel : enough_trails L Ds opt fuel) (Hids : ∀ id, id ∈ view_ids v → id < 2 ^ 64).
Let shared := OptionalShared part.
Hypothesis Hshared : ∀ s, s ∈ shared → s ∈ dom (Nodes opt).

(** The rows to extend bind the symbols of the part and the shared ones. *)
Context (rows : list Row).
Definition shows_node (r : Row) (s : string) : Prop := ∃ n id, Node r s = Some n ∧ idx (view_ids v) n = Some id.
Hypothesis Hrows : ∀ r s, r ∈ rows → s ∈ dom (Nodes part) ∨ s ∈ shared → shows_node r s.

(** The row of the part and the match of its [OPTIONAL MATCH] are at the same
    nodes. *)
Definition agrees (r : Row) (M : Match) : Prop := ∀ s, s ∈ shared → m_node M !! s = Node r s.
(** What becomes of a row: it is joined to the matches that agree with it, or
    kept if there are none. *)
Definition extended (r : Row) (out : list Row) : Prop := ∃ qs : list (Row * Match), NoDup qs.*2 ∧
  (∀ q, q ∈ qs → part_shows v opt comps q.1 q.2) ∧ (∀ M, M ∈ qs.*2 ↔ is_match v L Ds opt comps M ∧ agrees r M) ∧
  out = match qs with [] => [r] | _ => (λ q, mergeRowInto r q.1) <$> qs end.

Context (E : goerr → Prop).
Hypothesis HE : ∀ e, match_error v budget ctx opt comps e → E e.
(** Two rows at the same nodes, which an optional match agrees with, are
    declined. *)
Hypothesis Hdup : ∀ done l rest l' M, rows = done ++ l :: rest → l' ∈ done → (∀ s, s ∈ dom (Nodes part) → Node l' s = Node l s) →
  is_match v L Ds opt comps M → agrees l M → E ErrUnsupportedStep.
Let J (s : exec_state) := memo_ok v L (x_memo s).

Lemma shown_bound r s : shows_node r s → ∃ n, Node r s = Some n ∧ n < View_NodeCount v.
Proof. intros (n & id & Hn & Hid). exists n. split; [done|]. by eapply dense_lt. Qed.
Lemma shared_bound : ∀ s, s ∈ shared → s ∈ dom (Nodes opt) ∧ ∀ r, r ∈ rows → ∃ n, Node r s = Some n ∧ n < View_NodeCount v.
Proof. intros s Hs. split; [by apply Hshared|]. intros r Hr. apply shown_bound, Hrows; [done|by right]. Qed.
Lemma row_binds r : r ∈ rows → binds r shared.
Proof. intros Hr s Hs. destruct (shown_bound r s) as (n & Hn & Hlt); [apply Hrows; [done|by right]|]. exists n. split; [done|]. clear -Hlt Hsize. lia. Qed.

Definition wanted (M : Match) : Prop := is_match v L Ds opt comps M ∧ ∃ l, l ∈ rows ∧ agrees l M.
Definition optional_rows (optRows : list Row) : Prop := ∃ ps : list (Row * Match), optRows = ps.*1 ∧ NoDup ps.*2 ∧
  (∀ p, p ∈ ps → part_shows v opt comps p.1 p.2 ∧ is_match v L Ds opt comps p.2) ∧ ∀ M, wanted M → M ∈ ps.*2.
Lemma runs_optional : runs J E (match_where v budget ctx fuel limit shortest (seedOptionalPart opt shared rows)) optional_rows.
Proof.
  intros s Hm. set (seeded := seedOptionalPart opt shared rows).
  pose proof shared_bound as Hb.
  destruct (part_matched v L Ds budget ctx fuel (limit seeded) shortest seeded comps wanted s HR Hsize) as (s' & r & Er & Hm' & Hr).
  - by apply (seeded_ok v opt shared rows Hb).
  - by apply (seeded_patterns v opt shared rows Hb).
  - unfold seeded. by rewrite (seeded_groups v opt shared rows Hb).
  - intros M [HM (l & Hl & Hag)]. split; [by apply (seeded_is_match v L Ds opt shared rows Hb)|]. intros t n Hn. destruct (Hpush M t n HM Hn) as [Hp Ha].
    unfold seeded. rewrite (seeded_preds v opt shared rows Hb). split; [done|]. pose proof (seeded_nodes v opt shared rows Hb t) as Ht. unfold both_reseeded in Ht.
    destruct (Nodes opt !! t) as [nc|], (Nodes (seedOptionalPart opt shared rows) !! t) as [nc'|]; try done.
    apply (rs_allows _ _ _ _ _ _ Ht); [done|]. intros Hs. exists l. split; [done|]. by rewrite <- Hag.
  - apply Hlimit.
  - by apply (seeded_fuel v L Ds opt shared rows Hb).
  - done.
  - exists s', r. split; [exact Er|]. split; [done|]. destruct r as [optRows|e]; [|apply HE; by apply (seeded_error v opt shared rows Hb)].
    destruct Hr as (ps & Hps & Hnd & Hsh & Hw). exists ps. split; [done|]. split; [done|]. split; [|done]. intros p Hp. destruct (Hsh p Hp) as [Hps1 Hps2].
    split; [by apply (seeded_shows v opt shared rows Hb)|by apply (seeded_is_match v L Ds opt shared rows Hb)].
Qed.

(** *** The rows *)

Lemma runs_buckets optRows : runs J E (go_foldl (opt_bucket budget ctx shared) ∅ optRows)
  (λ buckets : gmap bytes (list Row), ∀ k, default [] (buckets !! k) = filter (λ r, optionalJoinKey r shared = Some k) optRows).
Proof.
  apply (runs_foldl J E _ (λ done (buckets : gmap bytes (list Row)), ∀ k, default [] (buckets !! k) = filter (λ r, optionalJoinKey r shared = Some k) done)); [|intros k; by rewrite lookup_empty].
  intros done r buckets Hb _. unfold opt_bucket. destruct (optionalJoinKey r shared) as [key|] eqn:Ek.
  - eapply runs_then; [apply (runs_spend budget ctx (memo_ok v L) E); intros e He; apply HE; by left|]. intros _ _. apply runs_ret. intros k. rewrite filter_grows, Ek.
    destruct (decide (key = k)) as [<-|Hne]; [rewrite lookup_insert_eq, decide_True by done|rewrite lookup_insert_ne, decide_False by congruence]; simpl; by rewrite Hb.
  - apply runs_ret. intros k. by rewrite filter_grows, Ek, decide_False, Hb by done.
Qed.

Definition same_nodes (l r : Row) : Prop := optionalJoinKey r shared = optionalJoinKey l shared.
#[local] Instance same_nodes_dec l r : Decision (same_nodes l r).
Proof. unfold same_nodes. apply _. Defined.
Definition piece (optRows : list Row) (l : Row) : list Row :=
  match filter (same_nodes l) optRows with [] => [l] | ms => mergeRowInto l <$> ms end.

Section found.
Context (optRows : list Row) (Hopt : optional_rows optRows).
Lemma optional_binds r : r ∈ optRows → ∃ M, is_match v L Ds opt comps M ∧ (∀ s, Node r s = m_node M !! s) ∧ binds r shared.
Proof.
  destruct Hopt as (ps & -> & _ & Hps & _). intros (p & -> & Hp)%list_elem_of_fmap. destruct (Hps p Hp) as [Hsh [Hw Hx]]. exists p.2. split; [done|].
  split; [apply (ps_nodes _ _ _ _ _ Hsh)|]. intros s Hs. rewrite (ps_nodes _ _ _ _ _ Hsh).
  assert (s ∈ dom (m_node p.2)) as [n Hn]%elem_of_dom by (rewrite (wk_nodes _ _ _ _ _ _ _ Hw); by apply Hshared).
  exists n. split; [done|]. destruct (wk_node _ _ _ _ _ _ _ Hw s n Hn) as [(id & Hid & _) _]. pose proof (dense_lt v n id Hid) as Hlt. clear -Hlt Hsize. lia.
Qed.
Lemma same_agrees l r M : l ∈ rows → r ∈ optRows → (∀ s, Node r s = m_node M !! s) → same_nodes l r ↔ agrees l M.
Proof.
  intros Hl Hr HM. destruct (optional_binds r Hr) as (_ & _ & _ & Hb). unfold same_nodes, agrees.
  rewrite (joinKey_same l r shared (row_binds l Hl) Hb). by setoid_rewrite HM.
Qed.

Lemma runs_opt_rows buckets : (∀ k, default [] (buckets !! k) = filter (λ r, optionalJoinKey r shared = Some k) optRows) →
  runs J E (go_foldl (opt_row v budget ctx part buckets) ([], ∅) rows) (λ st, st.1 = rows ≫= piece optRows).
Proof.
  intros Hb. eapply runs_mono; [apply (runs_foldl_split J E _ (λ done (st : list Row * gset bytes), st.1 = done ≫= piece optRows ∧
    ∀ t, t ∈ st.2 → ∃ l', l' ∈ done ∧ groupKeyBytes v l' (part_syms part) = Some t) rows)|by intros st [? _]].
  2: { split; [done|]. by intros t ?%not_elem_of_empty. }
  intros done rest l [out tuples] Hsplit [Hout Ht]. simpl in Hout, Ht. subst out. assert (l ∈ rows) as Hl by (rewrite Hsplit; apply elem_of_app; right; by left).
  unfold opt_row. eapply runs_then; [apply (runs_spend budget ctx (memo_ok v L) E); intros e He; apply HE; by left|]. intros _ _.
  destruct (joinKey_total l shared (row_binds l Hl)) as [key Hkey]. fold shared. rewrite Hkey, Hb.
  assert (filter (λ r, optionalJoinKey r shared = Some key) optRows = filter (same_nodes l) optRows) as -> by (apply list_filter_iff; intros r; unfold same_nodes; by rewrite Hkey).
  assert (∀ out', (done ++ [l]) ≫= piece optRows = out' ↔ (done ≫= piece optRows) ++ piece optRows l = out') as Hx by (intros out'; by rewrite bind_app, bind_cons, app_nil_r).
  destruct (filter (same_nodes l) optRows) as [|m ms] eqn:Ems.
  - eapply runs_then; [apply (runs_observe budget ctx (memo_ok v L) E); intros e He; apply HE; by left|]. intros _ _. apply runs_ret. simpl. split.
    + symmetry. apply Hx. unfold piece. by rewrite Ems.
    + intros t Hin. destruct (Ht t Hin) as (l' & ? & ?). exists l'. split; [apply elem_of_app; by left|done].
  - assert ((len (m :: ms) =? 0) = false) as -> by (rewrite len_cons; apply N.eqb_neq; lia).
    assert (∀ x, x ∈ rows → ∀ s, s ∈ part_syms part → ∃ n id, Node x s = Some n ∧ View_GraphID v n = Some id ∧ idx (view_ids v) n = Some id) as Hsyms.
    { intros x Hin s Hs. destruct (Hrows x s Hin) as (n & id & Hn & Hid); [left; by apply elem_part_syms|]. exists n, id. by rewrite GraphID_spec. }
    destruct (groupKey_total v l (part_syms part)) as [tuple Htuple]; [intros s Hs; destruct (Hsyms l Hl s Hs) as (n & id & ? & ? & _); eauto|].
    eapply runs_bind, runs_lift; [exact Htuple|]. destruct (bool_decide_reflect (tuple ∈ tuples)) as [Hin|Hin].
    + apply runs_err. destruct (Ht tuple Hin) as (l' & Hl' & Hk'). assert (m ∈ optRows ∧ same_nodes l m) as [Hm Hs] by (assert (m ∈ filter (same_nodes l) optRows) as Hmf by (rewrite Ems; by left); by apply list_elem_of_filter in Hmf as [? ?]).
      destruct (optional_binds m Hm) as (M & HM & HnM & _). apply (Hdup done l rest l' M); [done|done| |done|by apply (same_agrees l m M)].
      assert (l' ∈ rows) as Hl'r by (rewrite Hsplit; apply elem_of_app; by left).
      intros s Hs'. apply (groupKey_same v l' l (part_syms part) tuple Hids (view_ids_nodup v L Ds HR)); [|done|done|by apply elem_part_syms].
      intros x [->| ->]; by apply Hsyms.
    + eapply runs_then; [apply (runs_join_row v L budget ctx E); intros e He; apply HE; by left|]. intros ? ->. apply runs_ret. simpl. split.
      * symmetry. apply Hx. unfold piece. by rewrite Ems.
      * intros t [->%elem_of_singleton|Hin']%elem_of_union; [exists l; split; [apply elem_of_app; right; by left|done]|].
        destruct (Ht t Hin') as (l' & ? & ?). exists l'. split; [apply elem_of_app; by left|done].
Qed.

Lemma piece_extended l : l ∈ rows → extended l (piece optRows l).
Proof.
  intros Hl. pose proof Hopt as (ps & Eps & Hnd & Hps & Hall). exists (filter (λ p, same_nodes l p.1) ps). split_and!.
  - apply NoDup_fmap_2_strong; [|by apply NoDup_filter, (NoDup_fmap_1 snd)]. intros p q [_ Hp]%list_elem_of_filter [_ Hq]%list_elem_of_filter. by apply (NoDup_fmap_inj_elem snd ps).
  - intros q [_ Hq]%list_elem_of_filter. by apply Hps.
  - assert (∀ p, p ∈ ps → same_nodes l p.1 ↔ agrees l p.2) as Hsame.
    { intros p Hp. destruct (Hps p Hp) as [Hsh _]. apply same_agrees; [done|rewrite Eps; apply list_elem_of_fmap; by exists p|apply (ps_nodes _ _ _ _ _ Hsh)]. }
    intros M. split.
    + intros (q & -> & [Hs Hq]%list_elem_of_filter)%list_elem_of_fmap. split; [by apply Hps|]. by apply Hsame.
    + intros [HM Hag]. assert (M ∈ ps.*2) as (q & -> & Hq)%list_elem_of_fmap by (apply Hall; split; [done|by exists l]).
      apply list_elem_of_fmap. exists q. split; [done|]. apply list_elem_of_filter. split; [by apply Hsame|done].
  - unfold piece. rewrite Eps. assert (filter (same_nodes l) ps.*1 = (filter (λ p, same_nodes l p.1) ps).*1) as ->.
    { clear. induction ps as [|p ps IH]; [done|]. rewrite fmap_cons, !filter_cons. destruct (decide (same_nodes l p.1)); [|done]. by rewrite IH. }
    destruct (filter _ ps) as [|q qs]; [done|]. simpl. f_equal. by rewrite <- list_fmap_compose.
Qed.
End found.

Lemma runs_leftJoin : runs J E (leftJoinOptional v budget ctx fuel limit shortest part rows) (λ out, ∃ outs, out = mjoin outs ∧ Forall2 extended rows outs).
Proof.
  unfold leftJoinOptional. rewrite Hoptional. destruct (N.eqb_spec (len rows) 0) as [Hz|_].
  { apply runs_ret. exists []. destruct rows as [|r l]; [by split; [|constructor]|]. rewrite len_cons in Hz. lia. }
  eapply runs_then; [apply runs_optional|]. intros optRows Hopt. eapply runs_then; [apply runs_buckets|]. intros buckets Hb.
  eapply runs_then; [by apply (runs_opt_rows optRows Hopt)|]. intros [out tuples] Hout. simpl in Hout. subst out. apply runs_ret. exists (piece optRows <$> rows).
  split; [by rewrite mjoin_bind|]. apply Forall2_fmap_r. apply Forall_Forall2_diag. apply Forall_forall. intros l Hl. by apply piece_extended.
Qed.
End join.

(** ** A part and its [OPTIONAL MATCH] *)

(** What a plan guarantees of a part, and the fuel it needs. *)
Record part_fine `{GoStd} `{Cypher} (v : View) (L : layout) (Ds : list delta) (fuel : N) (part : Part) (comps : list component) : Prop := {
  pf_ok : part_ok v part;
  pf_patterns : patterns_ok part;
  pf_groups : groupComponents part = Some comps;
  pf_pushed : pushed_down v L Ds part comps;
  pf_fuel : enough_trails L Ds part fuel;
}.

(** Two matches of the part at the same nodes, which one of its [OPTIONAL
    MATCH] agrees with. *)
Definition repeated_tuple `{GoStd} `{Cypher} (v : View) (L : layout) (Ds : list delta) (part opt : Part) (comps comps' : list component) : Prop :=
  ∃ M M' M'', M ≠ M' ∧ is_match v L Ds part comps M ∧ is_match v L Ds part comps M' ∧ m_node M = m_node M' ∧
    is_match v L Ds opt comps' M'' ∧ ∀ s, s ∈ OptionalShared part → m_node M'' !! s = m_node M !! s.

Section plain.
Context `{GoStd} `{Cypher} `{!CypherLaws} `{!EqualityLaws}.
Context (v : View) (L : layout) (Ds : list delta) (HR : View_rep v L Ds) (Hsize : View_NodeCount v < 2 ^ 31).
Context (budget : Budgets) (ctx : Ctx) (fuel : N) (limit : Part → option Z) (shortest : Part → Step → exec (list Row)).
Hypothesis Hlimit : ∀ p, reverseTrailRowCap (limit p) = 0.
Context (part opt : Part) (comps comps' : list component) (E : goerr → Prop).
Hypothesis (Hpart : part_fine v L Ds fuel part comps) (Hoptional : OptionalPart part = Some opt) (Hopt : part_fine v L Ds fuel opt comps').
Hypothesis (Hids : ∀ id, id ∈ view_ids v → id < 2 ^ 64).
Hypothesis Hshared : ∀ s, s ∈ OptionalShared part → s ∈ dom (Nodes part) ∧ s ∈ dom (Nodes opt).
Hypothesis (HE : ∀ e, match_error v budget ctx part comps e → E e) (HE' : ∀ e, match_error v budget ctx opt comps' e → E e).
Hypothesis Htuple : repeated_tuple v L Ds part opt comps comps' → E ErrUnsupportedStep.
Let J (s : exec_state) := memo_ok v L (x_memo s).

Lemma runs_match_where : runs J E (match_where v budget ctx fuel limit shortest part) (matched v L Ds part comps (is_match v L Ds part comps)).
Proof.
  intros s Hm. destruct Hpart as [Hok Hpat Hg Hpush Hf].
  destruct (part_matched v L Ds budget ctx fuel (limit part) shortest part comps (is_match v L Ds part comps) s HR Hsize Hok Hpat Hg) as (s' & r & Er & Hm' & Hr); try done.
  - intros M HM. split; [done|]. intros t n Hn. by apply (Hpush M).
  - exists s', r. split; [exact Er|]. split; [done|]. destruct r as [rows|e]; [done|]. by apply HE.
Qed.

Lemma runs_plain : runs J E (matchPartPlain v budget ctx fuel limit shortest part) (λ out, ∃ ps outs, out = mjoin outs ∧ NoDup ps.*2 ∧
  (∀ p, p ∈ ps → part_shows v part comps p.1 p.2) ∧ (∀ M, M ∈ ps.*2 ↔ is_match v L Ds part comps M) ∧
  Forall2 (λ (p : Row * Match), extended v L Ds part opt comps' p.1) ps outs).
Proof.
  unfold matchPartPlain. eapply runs_then; [apply runs_match_where|]. intros rows (ps & Eps & Hnd & Hps & Hall).
  destruct Hopt as [Hok' Hpat' Hg' Hpush' Hf'].
  assert (∀ p s, p ∈ ps → s ∈ dom (Nodes part) → shows_node v p.1 s) as Hbound.
  { intros p s Hp Hs. destruct (Hps p Hp) as [Hsh [Hw _]]. assert (s ∈ dom (m_node p.2)) as [n Hn]%elem_of_dom by by rewrite (wk_nodes _ _ _ _ _ _ _ Hw).
    destruct (wk_node _ _ _ _ _ _ _ Hw s n Hn) as [(id & Hid & _) _]. exists n, id. by rewrite (ps_nodes _ _ _ _ _ Hsh). }
  eapply runs_mono; [apply (runs_leftJoin v L Ds HR Hsize budget ctx fuel limit shortest Hlimit part opt comps' Hoptional Hok' Hpat' Hg' Hpush' Hf' Hids
    (λ s Hs, proj2 (Hshared s Hs)) rows) with (E := E); [|done|]|].
  - intros r s Hr Hs. rewrite Eps in Hr. apply list_elem_of_fmap in Hr as (p & -> & Hp). apply Hbound; [done|]. destruct Hs as [?|Hs]; [done|]. by apply Hshared.
  - intros done l rest l' M Hsplit Hl' Hsame HM Hag. apply Htuple. rewrite Eps in Hsplit.
    apply fmap_app_inv in Hsplit as (ps1 & ps2 & -> & Hrest & ->). symmetry in Hrest. apply fmap_cons_inv in Hrest as (p & ps3 & -> & _ & ->).
    apply list_elem_of_fmap in Hl' as (p' & -> & Hp').
    assert (p' ∈ ps1 ++ p :: ps3 ∧ p ∈ ps1 ++ p :: ps3) as [Hin' Hin] by (split; apply elem_of_app; [by left|right; by left]).
    destruct (Hps p' Hin') as [Hsh' HM'], (Hps p Hin) as [Hsh HMp]. exists p.2, p'.2, M. split_and!; try done.
    + rewrite fmap_app, fmap_cons in Hnd. apply NoDup_app in Hnd as (_ & Hn & _). intros He. apply (Hn p'.2); [apply list_elem_of_fmap; by exists p'|rewrite <- He; by left].
    + apply map_eq. intros s. destruct (decide (s ∈ dom (Nodes part))) as [Hs|Hs].
      * rewrite <- (ps_nodes _ _ _ _ _ Hsh), <- (ps_nodes _ _ _ _ _ Hsh'). symmetry. by apply Hsame.
      * by rewrite !(proj1 (not_elem_of_dom _ _)) by by rewrite ?(wk_nodes _ _ _ _ _ _ _ (proj1 HMp)), ?(wk_nodes _ _ _ _ _ _ _ (proj1 HM')).
    + intros s Hs. rewrite <- (ps_nodes _ _ _ _ _ Hsh). by apply Hag.
  - intros out (outs & -> & Hf). exists ps, outs. split; [done|]. split; [done|]. split; [intros p Hp; by apply Hps|]. split.
    + intros M. split; [|apply Hall]. intros (p & -> & Hp)%list_elem_of_fmap. by apply Hps.
    + rewrite Eps in Hf. by apply (Forall2_fmap_l fst) in Hf.
Qed.
End plain.
