(* ===== verification/Stages.v ===== *)
(** * The stages after a match

    [internal/engine/interpret/pipeline.go]: [WITH] with its grouping and its
    aggregates ([runWithStage]), [DISTINCT] ([dedupProjected]), [SKIP] and
    [LIMIT] ([applySkipLimit]).  Rows are compared by byte keys; [same_cell] is
    what it means for two values to have one key. *)

From S2P Require Import Prelude Bitset Csr Snapshot Segment View ViewAdj EdgeKinds Traverse ParseProps Rows Values Scan Joins JoinRuns Optional.
From Stdlib Require Import Ascii SpecFloat.
From stdpp Require Import options.
Unset Default Proof Using.
#[local] Open Scope N_scope.
#[local] Open Scope go_scope.

(** ** Definitions *)

(** The bits of a number that is zero or normal, and [float64(n)]. *)
Definition f64_bits (f : spec_float) : float64 :=
  match f with
  | S754_finite sign m e => (if sign then 2 ^ 63 else 0) + Z.to_N (e + 1075) * 2 ^ 52 + (Npos m - 2 ^ 52)
  | _ => 0
  end.
Definition f64_of_count (n : N) : float64 := f64_bits (float_of_int (Z.of_N n)).

Section stages.
Context `{GoStd} `{Cypher}.
Context (v : View) (budget : Budgets) (ctx : Ctx).

(** *** WITH *)

Definition copySymbolBinding (dst src : Row) (sym : string) : Row :=
  match Node src sym with
  | Some nodeID => SetNode dst sym nodeID
  | None =>
      match Edge src sym with
      | Some edgeRef => SetEdge dst sym edgeRef
      | None => match Scalar src sym with Some val => SetScalar dst sym val | None => dst end
      end
  end.
Definition set_constants (wc : WithClause) (nr : Row) : Row := foldl (λ nr c, SetScalar nr (wk_Alias c) (SAny (wk_Value c))) nr (Constants wc).

Definition runWithPassThrough (wc : WithClause) (rows : list Row) : exec (list Row) :=
  let! r := go_foldl (λ '(out, seen) r,
    let nr := set_constants wc (foldl (λ nr sym, copySymbolBinding nr r sym) NewRow (GroupKeys wc)) in
    let! key := go_lift (if wc_Distinct wc then groupKeyBytes v nr (GroupKeys wc) else Some []) in
    if wc_Distinct wc && bool_decide (key ∈ seen) then go_ret (out, seen)
    else
      let! _ := spend budget ctx 1 in
      go_ret (out ++ [nr], {[key]} ∪ seen)) ([], ∅ : gset bytes) rows in
  go_ret r.1.

(** What [COUNT] counts of a row: [None] is no value, or null. *)
Definition count_key (r : Row) (sym : string) : option (option bytes) :=
  match Node r sym with
  | Some nodeID => id ← View_GraphID v nodeID; Some (Some (appendTaggedUint "N" id))
  | None =>
      match Edge r sym with
      | Some edgeRef => id ← EdgeRef_DatabaseID v edgeRef; Some (Some (appendTaggedUint "D" id))
      | None => Some (match Scalar r sym with None | Some (SAny ANil) => None | Some val => Some (scalar_key val) end)
      end
  end.
Definition counts (r : Row) (sym : string) : bool :=
  bool_decide (is_Some (Node r sym)) || bool_decide (is_Some (Edge r sym)) ||
  match Scalar r sym with None | Some (SAny ANil) => false | Some _ => true end.
Definition countAggregate (agg : CountAgg) (rows : list Row) : option N :=
  if ca_Star agg then Some (len rows)
  else if negb (ca_Distinct agg) then Some (foldl (λ n r, if counts r (ca_Sym agg) then n + 1 else n) 0 rows)
  else
    seen ← foldl_option (λ (seen : gset bytes) r, key ← count_key r (ca_Sym agg); Some match key with Some key => {[key]} ∪ seen | None => seen end) ∅ rows;
    Some (N.of_nat (size seen)).
Definition collectAggregate (agg : CollectMembershipAgg) (rows : list Row) : option (gset N) :=
  foldl_option (λ (set : gset N) r,
    match Node r (cm_Sym agg) with Some nodeID => id ← View_GraphID v nodeID; Some ({[id]} ∪ set) | None => Some set end) ∅ rows.
Definition applyAggregate (groupRows : list Row) (out : Row) (agg : WithAggregate) : option Row :=
  match wa_Count agg, wa_Collect agg with
  | Some count, _ => n ← countAggregate count groupRows; Some (SetScalar out (wa_Alias agg) (SAny (AFloat (f64_of_count n))))
  | None, Some collect => ids ← collectAggregate collect groupRows; Some (SetScalar out (wa_Alias agg) (SIdSet ids))
  | None, None => Some out
  end.

Record withGroup := mkWithGroup { wg_rep : option Row; wg_rows : list Row }.
Definition group_add (keys : list string) (st : gmap bytes withGroup * list bytes) (r : Row) : exec (gmap bytes withGroup * list bytes) :=
  let '(groups, order) := st in
  let! key := go_lift (groupKeyBytes v r keys) in
  let st := match groups !! key with
    | Some g => (<[key := mkWithGroup (wg_rep g) (wg_rows g ++ [r])]> groups, order)
    | None => (<[key := mkWithGroup (Some r) [r]]> groups, order ++ [key])
    end in
  let! _ := spend budget ctx 1 in
  go_ret st.
(** The row of a group. *)
Definition group_row (wc : WithClause) (g : withGroup) : option Row :=
  let nr := match wg_rep g with Some rep => foldl (λ nr sym, copySymbolBinding nr rep sym) NewRow (GroupKeys wc) | None => NewRow end in
  foldl_option (applyAggregate (wg_rows g)) (set_constants wc nr) (Aggregates wc).
Definition runWithAggregate (wc : WithClause) (rows : list Row) : exec (list Row) :=
  let! st := (match GroupKeys wc with
    | [] => go_ret ({[[] := mkWithGroup (head rows) rows]}, [[]])
    | keys => go_foldl (group_add keys) (∅, []) rows
    end) in
  go_foldl (λ out key,
    let! g := go_lift (st.1 !! key) in
    let! nr := go_lift (group_row wc g) in
    let! _ := spend budget ctx 1 in
    go_ret (out ++ [nr])) [] st.2.

Definition compute_alias (rows : list Row) (c : WithComputed) : exec (list Row) :=
  go_foldl (λ out r,
    let! val := eval_value v r (wx_Expr c) in
    go_ret (out ++ [match val with Some x => SetScalar r (wx_Alias c) x | None => r end])) [] rows.
Definition runWithStage (wc : WithClause) (rows : list Row) : exec (list Row) :=
  let! rows := go_foldl compute_alias rows (Computed wc) in
  if len (Aggregates wc) =? 0 then runWithPassThrough wc rows else runWithAggregate wc rows.

(** *** DISTINCT, SKIP and LIMIT *)

(** A projected value; [OutScalar None] is Go's [ScalarAbsent]. *)
Inductive OutVal := OutNode (n : NodeID) | OutEdge (e : EdgeRef) | OutPath (p : PathVal) | OutScalar (x : option scalar).

Definition outValKey (val : OutVal) : option bytes :=
  match val with
  | OutNode n => id ← View_GraphID v n; Some (appendTaggedUint "N" id)
  | OutEdge e => id ← EdgeRef_DatabaseID v e; Some (appendTaggedUint "D" id)
  | OutPath p =>
      ns ← mapM (View_GraphID v) (pv_Nodes p);
      es ← mapM (EdgeRef_DatabaseID v) (pv_Edges p);
      Some ("P"%char :: appendUint32 (u32 (len ns)) ++ mjoin (appendTaggedUint "n" <$> ns) ++
        appendUint32 (u32 (len es)) ++ mjoin (appendTaggedUint "e" <$> es))
  | OutScalar None => Some ["u"%char]
  | OutScalar (Some x) => Some (scalar_key x)
  end.
Fixpoint rowDistinctKey (row : list OutVal) : option bytes :=
  match row with [] => Some [] | val :: row => key ← outValKey val; rest ← rowDistinctKey row; Some (key ++ rest) end.
Definition dedupProjected (rows : list (Row * list OutVal)) : option (list (Row * list OutVal)) :=
  r ← foldl_option (λ '(kept, seen) (x : Row * list OutVal),
    key ← rowDistinctKey x.2;
    Some (if bool_decide (key ∈ seen) then (kept, seen) else (kept ++ [x], {[key]} ∪ seen))) ([], ∅ : gset bytes) rows;
  Some r.1.

Definition applySkipLimit {A} (rows : list A) (skip limit : Z) : list A :=
  let rows := if (0 <? skip)%Z then if (Z.of_N (len rows) <=? skip)%Z then [] else drop (Z.to_nat skip) rows else rows in
  if (0 <=? limit)%Z && (limit <? Z.of_N (len rows))%Z then take (Z.to_nat limit) rows else rows.
End stages.

Lemma applySkipLimit_spec {A} (rows : list A) skip limit : applySkipLimit rows skip limit =
  let rest := drop (Z.to_nat skip) rows in if (0 <=? limit)%Z then take (Z.to_nat limit) rest else rest.
Proof.
  assert ((if (0 <? skip)%Z then if (Z.of_N (len rows) <=? skip)%Z then [] else drop (Z.to_nat skip) rows else rows) = drop (Z.to_nat skip) rows) as Hs.
  { destruct (Z.ltb_spec 0 skip); [|by replace (Z.to_nat skip) with 0%nat by lia]. destruct (Z.leb_spec (Z.of_N (len rows)) skip); [|done]. rewrite drop_ge; [done|unfold len in *; lia]. }
  unfold applySkipLimit. rewrite Hs. cbv zeta. destruct (Z.leb_spec 0 limit); [|done]. destruct (Z.ltb_spec limit (Z.of_N (len (drop (Z.to_nat skip) rows)))) as [|Hl]; [done|].
  simpl. rewrite take_ge; [done|unfold len in Hl; lia].
Qed.

(** ** The first of each key *)

Section firsts.
Context {A : Type} (key : A → bytes).
Fixpoint firsts (seen : gset bytes) (l : list A) : list A :=
  match l with
  | [] => []
  | x :: l => if decide (key x ∈ seen) then firsts seen l else x :: firsts ({[key x]} ∪ seen) l
  end.
Lemma firsts_sublist seen l : firsts seen l `sublist_of` l.
Proof. revert seen. induction l as [|x l IH]; intros seen; simpl; [done|]. destruct (decide _); [by apply sublist_cons|by apply sublist_skip]. Qed.
Lemma firsts_elem seen l y : y ∈ firsts seen l → y ∈ l.
Proof. intros [i Hi]%list_elem_of_lookup. eapply elem_of_submseteq; [by eapply list_elem_of_lookup_2|]. apply sublist_submseteq, firsts_sublist. Qed.
Lemma firsts_unseen seen l y : y ∈ firsts seen l → key y ∉ seen.
Proof.
  revert seen. induction l as [|x l IH]; intros seen; simpl; [by intros ?%not_elem_of_nil|]. destruct (decide _) as [|Hx]; [apply IH|].
  intros [->|Hy]%elem_of_cons; [done|]. intros Hs. apply (IH _ Hy). apply elem_of_union. by right.
Qed.
Lemma firsts_differ seen l : NoDup (key <$> firsts seen l).
Proof.
  revert seen. induction l as [|x l IH]; intros seen; simpl; [constructor|]. destruct (decide _) as [|Hx]; [apply IH|]. constructor; [|apply IH].
  intros (y & He & Hy)%list_elem_of_fmap. apply (firsts_unseen _ _ _ Hy). rewrite <- He. apply elem_of_union. left. by apply elem_of_singleton.
Qed.
Lemma firsts_cover done x rest seen : key x ∉ seen → ∃ y, y ∈ done ++ [x] ∧ y ∈ firsts seen (done ++ x :: rest) ∧ key y = key x.
Proof.
  revert seen. induction done as [|z done IH]; intros seen Hx; simpl.
  - exists x. split; [by left|]. split; [|done]. destruct (decide _); [done|by left].
  - destruct (decide (key z ∈ seen)) as [Hz|Hz].
    + destruct (IH seen Hx) as (y & ? & ? & ?). exists y. split; [by right|done].
    + destruct (decide (key z = key x)) as [He|Hne]; [exists z; split; [by left|split; [by left|done]]|].
      destruct (IH ({[key z]} ∪ seen)) as (y & ? & ? & ?); [by intros [?%elem_of_singleton|?]%elem_of_union|]. exists y. split; [by right|]. split; [by right|done].
Qed.
Lemma firsts_snoc seen l x : firsts seen (l ++ [x]) = firsts seen l ++ (if decide (key x ∈ list_to_set (key <$> l) ∪ seen) then [] else [x]).
Proof.
  revert seen. induction l as [|z l IH]; intros seen.
  - simpl. destruct (decide (key x ∈ seen)); [rewrite decide_True|rewrite decide_False]; try done; set_solver.
  - cbn [firsts app]. destruct (decide (key z ∈ seen)) as [Hz|Hz]; rewrite IH; [|rewrite <- app_comm_cons; f_equal]; f_equal; apply decide_ext; rewrite fmap_cons, list_to_set_cons, !elem_of_union, elem_of_singleton; [|tauto].
    split; [tauto|]. intros [[->|?]|?]; tauto.
Qed.
Lemma firsts_head seen l y : y ∈ firsts seen l → head (filter (λ x, key x = key y) l) = Some y.
Proof.
  revert seen. induction l as [|x l IH]; intros seen; simpl; [by intros ?%not_elem_of_nil|]. rewrite filter_cons. destruct (decide (key x ∈ seen)) as [Hx|Hx]; intros Hy.
  - rewrite decide_False; [by apply (IH seen)|]. intros He. rewrite He in Hx. by apply (firsts_unseen _ _ _ Hy).
  - apply elem_of_cons in Hy as [->|Hy]; [by rewrite decide_True|]. rewrite decide_False; [by apply (IH _ Hy)|].
    intros He. apply (firsts_unseen _ _ _ Hy). rewrite <- He. apply elem_of_union. left. by apply elem_of_singleton.
Qed.
End firsts.

(** ** What the keys tell apart *)

Inductive cell := CNode (id : N) | CEdge (id : N) | CPath (ns es : list N) | CValue (x : any) | CIds | CAbsent.
Section cells.
Context `{GoStd}.

Definition cell_key (c : cell) : bytes :=
  match c with
  | CNode id => appendTaggedUint "N" id
  | CEdge id => appendTaggedUint "D" id
  | CPath ns es => "P"%char :: appendUint32 (u32 (len ns)) ++ mjoin (appendTaggedUint "n" <$> ns) ++
      appendUint32 (u32 (len es)) ++ mjoin (appendTaggedUint "e" <$> es)
  | CValue x => appendScalarKey x
  | CIds => ["x"%char]
  | CAbsent => ["u"%char]
  end.
(** Ids of 64 bits, paths shorter than [2 ^ 32]; sets of ids are not told
    apart. *)
Definition cell_ok (c : cell) : Prop :=
  match c with
  | CNode id | CEdge id => id < 2 ^ 64
  | CPath ns es => len ns < 2 ^ 32 ∧ len es < 2 ^ 32 ∧ ∀ id, id ∈ ns ++ es → id < 2 ^ 64
  | CValue x => value_ok x = true
  | CIds => False
  | CAbsent => True
  end.
(** Nodes, edges and paths by their ids, values as [jsonb] compares them. *)
Definition same_cell (c c' : cell) : Prop :=
  match c, c' with
  | CNode i, CNode j | CEdge i, CEdge j => i = j
  | CPath ns es, CPath ns' es' => ns = ns' ∧ es = es'
  | CValue x, CValue y => jsonbEqual x y = true
  | CAbsent, CAbsent => True
  | _, _ => False
  end.

Lemma value_tag x : ∃ t rest, appendScalarKey x = t :: rest ∧ t ∈ ["z"; "s"; "f"; "b"; "a"; "m"]%char.
Proof.
  destruct x as [|b|y|s|l|m]; [exists "z"%char, []|eexists "b"%char, _|eexists "f"%char, _|eexists "s"%char, _|eexists "a"%char, _|eexists "m"%char, _];
    (split; [reflexivity|by apply (bool_decide_unpack _)]).
Qed.
Definition cell_tag (c : cell) : option ascii :=
  match c with CNode _ => Some "N" | CEdge _ => Some "D" | CPath _ _ => Some "P" | CIds => Some "x" | CAbsent => Some "u" | CValue _ => None end%char.
Lemma other_tag c x r r' : is_Some (cell_tag c) → cell_key c ++ r = appendScalarKey x ++ r' → False.
Proof.
  intros [t Et] He. destruct (value_tag x) as (t' & rest & Ex & Ht). assert (∃ l, cell_key c = t :: l) as [l El] by (destruct c; try done; injection Et as <-; eexists; reflexivity).
  rewrite El, Ex in He. injection He as -> _. destruct c; try done; injection Et as <-; repeat (apply elem_of_cons in Ht as [Ht|Ht]; [discriminate Ht|]); by apply not_elem_of_nil in Ht.
Qed.
Lemma ids_app tag (l l' : list N) r r' : length l = length l' → (∀ id, id ∈ l ++ l' → id < 2 ^ 64) →
  mjoin (appendTaggedUint tag <$> l) ++ r = mjoin (appendTaggedUint tag <$> l') ++ r' → l = l' ∧ r = r'.
Proof.
  intros Hlen Hlt He. apply (code_app _ _ eq) in He as [Hf ->]; [split; [by apply list_eq_Forall2|done]|done|].
  intros x y s s' Hx Hy Hk. unfold appendTaggedUint in Hk. apply cons_tail in Hk. apply (be_bytes_app 8) in Hk; [done|apply Hlt; apply elem_of_app; by left|apply Hlt; apply elem_of_app; by right].
Qed.
Lemma key_cell c c' r r' : cell_ok c → cell_ok c' → cell_key c ++ r = cell_key c' ++ r' → same_cell c c' ∧ r = r'.
Proof.
  intros Hc Hc' He. destruct c as [i|i|ns es|x| |], c' as [j|j|ns' es'|y| |]; try done;
    try (exfalso; by eapply other_tag; [|exact He]); try (exfalso; by eapply other_tag; [|symmetry; exact He]).
  - unfold cell_key, appendTaggedUint in He. apply cons_tail in He. by apply (be_bytes_app 8) in He.
  - unfold cell_key, appendTaggedUint in He. apply cons_tail in He. by apply (be_bytes_app 8) in He.
  - destruct Hc as (Hn & He1 & Hid), Hc' as (Hn' & He1' & Hid'). unfold cell_key in He. apply cons_tail in He. rewrite <- !(assoc_L (++)) in He.
    apply u32_app in He as [Hl He]; [|done..]. apply ids_app in He as [-> He]; [|unfold len in Hl; lia|].
    2: { intros id [?|?]%elem_of_app; [apply Hid|apply Hid']; apply elem_of_app; by left. }
    apply u32_app in He as [Hl' He]; [|done..]. apply ids_app in He as [-> ->]; [done|unfold len in Hl'; lia|].
    intros id [?|?]%elem_of_app; [apply Hid|apply Hid']; apply elem_of_app; by right.
  - by apply same_key_equal in He.
  - by injection He.
Qed.
Lemma cell_same_key c c' : cell_ok c → cell_ok c' → same_cell c c' → cell_key c = cell_key c'.
Proof.
  destruct c, c'; simpl; try done; [by intros _ _ ->..| |]; [by intros _ _ [-> ->]|]. intros. by apply equal_same_key.
Qed.

(** Tuples of one length. *)
Definition tuple_key (cs : list cell) : bytes := mjoin (cell_key <$> cs).
Definition tuple_ok (cs : list cell) : Prop := ∀ c, c ∈ cs → cell_ok c.
Lemma tuple_key_same cs cs' : length cs = length cs' → tuple_ok cs → tuple_ok cs' → tuple_key cs = tuple_key cs' ↔ Forall2 same_cell cs cs'.
Proof.
  intros Hlen Hok Hok'. unfold tuple_key. split.
  - intros He. apply (code_app cell_key cell_key same_cell cs cs' [] []); [done| |by rewrite !app_nil_r]. intros c c' r r' Hc Hc'. apply key_cell; [by apply Hok|by apply Hok'].
  - intros Hf. f_equal. clear Hlen. induction Hf as [|c c' cs cs' Hcc Hf IH]; [done|]. rewrite !fmap_cons. f_equal.
    + apply cell_same_key; [apply Hok; by left|apply Hok'; by left|done].
    + apply IH; intros x Hx; [apply Hok|apply Hok']; by right.
Qed.
End cells.

(** ** The tuples of rows *)

Section tuples.
Context `{GoStd} `{Cypher}.
Context (v : View).

Definition cell_of (r : Row) (s : string) : option cell :=
  match Node r s with
  | Some n => CNode <$> View_GraphID v n
  | None =>
      match Edge r s with
      | Some e => CEdge <$> EdgeRef_DatabaseID v e
      | None => Some match Scalar r s with Some (SAny x) => CValue x | Some (SIdSet _) => CIds | None => CAbsent end
      end
  end.
Definition out_cell (val : OutVal) : option cell :=
  match val with
  | OutNode n => CNode <$> View_GraphID v n
  | OutEdge e => CEdge <$> EdgeRef_DatabaseID v e
  | OutPath p => ns ← mapM (View_GraphID v) (pv_Nodes p); es ← mapM (EdgeRef_DatabaseID v) (pv_Edges p); Some (CPath ns es)
  | OutScalar None => Some CAbsent
  | OutScalar (Some (SAny x)) => Some (CValue x)
  | OutScalar (Some (SIdSet _)) => Some CIds
  end.
Lemma appendSymbolKey_cell r s : appendSymbolKey v r s = cell_key <$> cell_of r s.
Proof.
  unfold appendSymbolKey, cell_of. destruct (Node r s) as [n|]; [by destruct (View_GraphID v n)|]. destruct (Edge r s) as [e|]; [by destruct (EdgeRef_DatabaseID v e)|].
  by destruct (Scalar r s) as [[x|ids]|].
Qed.
Lemma outValKey_cell val : outValKey v val = cell_key <$> out_cell val.
Proof.
  destruct val as [n|e|p|[[x|ids]|]]; simpl; [by destruct (View_GraphID v n)|by destruct (EdgeRef_DatabaseID v e)| |done..].
  destruct (mapM (View_GraphID v) (pv_Nodes p)) as [ns|]; [|done]. cbn [mbind option_bind]. by destruct (mapM (EdgeRef_DatabaseID v) (pv_Edges p)).
Qed.

(** A row shows these values for the symbols; a projected row holds them. *)
Definition row_tuple (syms : list string) (r : Row) (cs : list cell) : Prop := Forall2 (λ s c, cell_of r s = Some c ∧ cell_ok c) syms cs.
Definition out_tuple (row : list OutVal) (cs : list cell) : Prop := Forall2 (λ val c, out_cell val = Some c ∧ cell_ok c) row cs.
Lemma row_tuple_key syms r cs : row_tuple syms r cs → groupKeyBytes v r syms = Some (tuple_key cs).
Proof.
  induction 1 as [|s c syms cs [Hc _] _ IH]; [done|]. cbn [groupKeyBytes]. rewrite appendSymbolKey_cell, Hc, IH. reflexivity.
Qed.
Lemma out_tuple_key row cs : out_tuple row cs → rowDistinctKey v row = Some (tuple_key cs).
Proof.
  induction 1 as [|val c row cs [Hc _] _ IH]; [done|]. cbn [rowDistinctKey]. rewrite outValKey_cell, Hc, IH. reflexivity.
Qed.
Lemma Forall2_ok {A} (P : A → cell → Prop) l cs : Forall2 (λ x c, P x c ∧ cell_ok c) l cs → tuple_ok cs.
Proof. induction 1 as [|x c l cs [_ Hok] _ IH]; intros c' Hc; [by apply not_elem_of_nil in Hc|]. apply elem_of_cons in Hc as [->|Hc]; [done|by apply IH]. Qed.
Lemma tuples_same {A} (T : A → list cell → Prop) (key : A → option bytes) x y cs cs' : (∀ x cs, T x cs → key x = Some (tuple_key cs) ∧ tuple_ok cs) →
  (∀ cs cs', T x cs → T y cs' → length cs = length cs') → T x cs → T y cs' → key x = key y ↔ ∃ cs cs', T x cs ∧ T y cs' ∧ Forall2 same_cell cs cs'.
Proof.
  intros Hkey Hlen Hx Hy. split.
  - intros He. destruct (Hkey x cs Hx) as [Ex Okx], (Hkey y cs' Hy) as [Ey Oky]. rewrite Ex, Ey in He. apply (inj Some) in He.
    exists cs, cs'. split; [done|]. split; [done|]. apply tuple_key_same; [by apply Hlen|done..].
  - intros (ds & ds' & Hd & Hd' & Hf). destruct (Hkey x ds Hd) as [-> Okx], (Hkey y ds' Hd') as [-> Oky]. f_equal. apply tuple_key_same; [by apply Hlen|done..].
Qed.

(** Two rows with the same values, and two projected ones. *)
Definition same_tuple (syms : list string) (r r' : Row) : Prop := ∃ cs cs', row_tuple syms r cs ∧ row_tuple syms r' cs' ∧ Forall2 same_cell cs cs'.
Definition same_out (row row' : list OutVal) : Prop := ∃ cs cs', out_tuple row cs ∧ out_tuple row' cs' ∧ Forall2 same_cell cs cs'.
Lemma same_tuple_key syms r r' cs cs' : row_tuple syms r cs → row_tuple syms r' cs' → groupKeyBytes v r syms = groupKeyBytes v r' syms ↔ same_tuple syms r r'.
Proof.
  intros Hr Hr'. apply (tuples_same (row_tuple syms) (λ r, groupKeyBytes v r syms) r r' cs cs'); [|intros ds ds' Hd Hd'|done..].
  - intros x ds Hd. split; [by apply row_tuple_key|exact (Forall2_ok (λ s c, cell_of x s = Some c) syms ds Hd)].
  - by rewrite <- (Forall2_length _ _ _ Hd), <- (Forall2_length _ _ _ Hd').
Qed.
Lemma same_out_key row row' cs cs' : length row = length row' → out_tuple row cs → out_tuple row' cs' → rowDistinctKey v row = rowDistinctKey v row' ↔ same_out row row'.
Proof.
  intros Hl Hr Hr'. apply (tuples_same out_tuple (rowDistinctKey v) row row' cs cs'); [|intros ds ds' Hd Hd'|done..].
  - intros x ds Hd. split; [by apply out_tuple_key|exact (Forall2_ok (λ val c, out_cell val = Some c) x ds Hd)].
  - by rewrite <- (Forall2_length _ _ _ Hd), <- (Forall2_length _ _ _ Hd').
Qed.
End tuples.

(** ** DISTINCT *)

Section distinct.
Context `{GoStd} `{Cypher}.
Context (v : View) (width : nat) (rows : list (Row * list OutVal)).
Hypothesis Hrows : ∀ x, x ∈ rows → length x.2 = width ∧ ∃ cs, out_tuple v x.2 cs.
Definition out_key (x : Row * list OutVal) : bytes := default [] (rowDistinctKey v x.2).
Lemma out_keyed x : x ∈ rows → rowDistinctKey v x.2 = Some (out_key x).
Proof. intros Hx. destruct (Hrows x Hx) as (_ & cs & Hcs). unfold out_key. by rewrite (out_tuple_key v _ _ Hcs). Qed.
Lemma out_keys_same x y : x ∈ rows → y ∈ rows → out_key x = out_key y ↔ same_out v x.2 y.2.
Proof.
  intros Hx Hy. destruct (Hrows x Hx) as (Lx & cs & Hcs), (Hrows y Hy) as (Ly & cs' & Hcs'). rewrite <- (same_out_key v x.2 y.2 cs cs') by congruence.
  rewrite (out_keyed x Hx), (out_keyed y Hy). by split; [intros ->|intros ?%(inj Some)].
Qed.
Lemma dedup_firsts : dedupProjected v rows = Some (firsts out_key ∅ rows).
Proof.
  unfold dedupProjected. destruct (foldl_option_inv (λ '(kept, seen) (x : Row * list OutVal),
    key ← rowDistinctKey v x.2; Some (if bool_decide (key ∈ seen) then (kept, seen) else (kept ++ [x], {[key]} ∪ seen)))
    (λ done (st : list (Row * list OutVal) * gset bytes), st = (firsts out_key ∅ done, list_to_set (out_key <$> done))) rows ([], ∅)) as (st & -> & ->); [|done..].
  intros done rest x [kept seen] Hsplit [= -> ->]. rewrite out_keyed by (rewrite Hsplit; apply elem_of_app; right; by left). cbn [mbind option_bind].
  eexists. split; [done|]. rewrite firsts_snoc, fmap_app, list_to_set_app_L. simpl.
  destruct (bool_decide_reflect (out_key x ∈ (list_to_set (out_key <$> done) : gset bytes))) as [Hin|Hin].
  - rewrite decide_True, app_nil_r by set_solver. f_equal. set_solver.
  - rewrite decide_False by set_solver. f_equal. set_solver.
Qed.
End distinct.

(** ** Aggregates *)

Section aggregates.
Context `{GoStd} `{Cypher}.
Context (v : View).

(** A value that [COUNT] counts: neither absent nor null. *)
Definition counted (c : cell) : bool := match c with CAbsent | CValue ANil => false | _ => true end.
Definition counted_in (r : Row) (sym : string) : bool := match cell_of v r sym with Some c => counted c | None => false end.
(** The number of rows, of rows with a value, or of different values. *)
Definition count_is (agg : CountAgg) (rows : list Row) (n : N) : Prop :=
  if ca_Star agg then n = len rows
  else if negb (ca_Distinct agg) then n = len (filter (λ r, counted_in r (ca_Sym agg) = true) rows)
  else ∃ vals : list cell, n = len vals ∧
    (∀ i j c c', vals !! i = Some c → vals !! j = Some c' → same_cell c c' → i = j) ∧
    (∀ c, c ∈ vals → counted c = true ∧ ∃ r, r ∈ rows ∧ cell_of v r (ca_Sym agg) = Some c) ∧
    ∀ r c, r ∈ rows → cell_of v r (ca_Sym agg) = Some c → counted c = true → ∃ c', c' ∈ vals ∧ same_cell c' c.

Context (rows : list Row).
Lemma counts_cell r sym c : cell_of v r sym = Some c → counts r sym = counted c.
Proof.
  unfold cell_of, counts. destruct (Node r sym) as [n|]; [by intros (id & _ & ->)%fmap_Some|]. destruct (Edge r sym) as [e|]; [by intros (id & _ & ->)%fmap_Some|].
  simpl. by destruct (Scalar r sym) as [[[]|]|]; intros [= <-].
Qed.
Lemma count_key_cell r sym c : cell_of v r sym = Some c → count_key v r sym = Some (if counted c then Some (cell_key c) else None).
Proof.
  unfold cell_of, count_key. destruct (Node r sym) as [n|]; [by intros (id & -> & ->)%fmap_Some|]. destruct (Edge r sym) as [e|]; [by intros (id & -> & ->)%fmap_Some|].
  by destruct (Scalar r sym) as [[[]|]|]; intros [= <-].
Qed.

Definition cells (sym : string) : list cell := filter (λ c, counted c = true) (omap (λ r, cell_of v r sym) rows).
Lemma elem_cells sym c : c ∈ cells sym ↔ counted c = true ∧ ∃ r, r ∈ rows ∧ cell_of v r sym = Some c.
Proof. unfold cells. rewrite list_elem_of_filter, list_elem_of_omap. done. Qed.
Lemma countAggregate_ok agg : (∀ r, r ∈ rows → ∃ c, cell_of v r (ca_Sym agg) = Some c ∧ cell_ok c) →
  ∃ n, countAggregate v agg rows = Some n ∧ count_is agg rows n.
Proof.
  intros Hc. unfold countAggregate, count_is. set (sym := ca_Sym agg) in *. destruct (ca_Star agg); [by eexists|]. destruct (ca_Distinct agg); simpl.
  - destruct (foldl_option_inv (λ (seen : gset bytes) r, key ← count_key v r sym; Some match key with Some key => {[key]} ∪ seen | None => seen end)
      (λ done (seen : gset bytes), ∀ k, k ∈ seen ↔ ∃ r c, r ∈ done ∧ cell_of v r sym = Some c ∧ counted c = true ∧ k = cell_key c) rows ∅) as (seen & -> & Hseen).
    + intros done rest r seen Hsplit Hs. destruct (Hc r) as (c & Ec & _); [rewrite Hsplit; apply elem_of_app; right; by left|]. rewrite (count_key_cell _ _ _ Ec). cbn [mbind option_bind].
      eexists. split; [done|]. intros k. setoid_rewrite elem_of_app. setoid_rewrite list_elem_of_singleton. destruct (counted c) eqn:Eco; [rewrite elem_of_union, elem_of_singleton|]; rewrite Hs; split.
      * intros [->|(r0 & c0 & ? & ?)]; [exists r, c; auto|exists r0, c0; auto].
      * intros (r0 & c0 & [Hr0| ->] & E0 & Ec0 & ->); [right; by exists r0, c0|left; congruence].
      * intros (r0 & c0 & ? & ?). exists r0, c0. auto.
      * intros (r0 & c0 & [Hr0| ->] & E0 & Ec0 & ->); [by exists r0, c0|congruence].
    + intros k. split; [by intros ?%not_elem_of_empty|by intros (r & c & ?%not_elem_of_nil & _)].
    + cbn [mbind option_bind]. eexists. split; [done|]. set (vals := firsts cell_key ∅ (cells sym)).
      assert (∀ c, c ∈ vals → c ∈ cells sym) as Hin by (intros c; apply firsts_elem).
      assert (∀ c, c ∈ cells sym → cell_ok c) as Hok by (intros c (_ & r & Hr & Ec)%elem_cells; destruct (Hc r Hr) as (c' & Ec' & ?); congruence).
      assert (∀ c, c ∈ cells sym → ∃ c', c' ∈ vals ∧ cell_key c' = cell_key c) as Hcov.
      { intros c (done & rest & Hl)%list_elem_of_split. destruct (firsts_cover cell_key done c rest ∅) as (c' & _ & ? & ?); [apply not_elem_of_empty|]. exists c'. unfold vals. by rewrite Hl. }
      exists vals. split_and!.
      * assert (seen = list_to_set (cell_key <$> vals)) as ->.
        { apply set_eq. intros k. rewrite Hseen, elem_of_list_to_set, list_elem_of_fmap. split.
          - intros (r & c & Hr & Ec & Eco & ->). destruct (Hcov c) as (c' & ? & ?); [apply elem_cells; eauto|]. by exists c'.
          - intros (c & -> & (? & r & ? & ?)%Hin%elem_cells). by exists r, c. }
        rewrite size_list_to_set by apply firsts_differ. by rewrite length_fmap.
      * intros i j c c' Hi Hj Hs. assert (cell_key c = cell_key c') as He by (apply cell_same_key; [apply Hok, Hin; by eapply list_elem_of_lookup_2..|done]).
        eapply NoDup_lookup; [apply (firsts_differ cell_key ∅ (cells sym))|rewrite list_lookup_fmap; fold vals; by rewrite Hi|rewrite list_lookup_fmap; fold vals; rewrite Hj; simpl; by rewrite He].
      * intros c Hv. by apply elem_cells, Hin.
      * intros r c Hr Ec Eco. destruct (Hcov c) as (c' & Hv & He); [apply elem_cells; eauto|]. exists c'. split; [done|].
        apply (key_cell c' c [] []); [by apply Hok, Hin|apply Hok, elem_cells; eauto|by rewrite He].
  - eexists. split; [done|]. assert (∀ n, foldl (λ n r, if counts r sym then n + 1 else n) n rows = n + len (filter (λ r, counted_in r sym = true) rows)) as Hn; [|by rewrite Hn].
    clear -Hc. induction rows as [|r l IH]; intros n; [unfold len; simpl; lia|]. cbn [foldl]. rewrite IH by (intros; apply Hc; by right).
    destruct (Hc r) as (c & Ec & _); [by left|]. assert (counted_in r sym = counted c) as Ein by (unfold counted_in; by rewrite Ec).
    rewrite (counts_cell _ _ _ Ec), filter_cons, Ein.
    destruct (counted c); [rewrite decide_True, len_cons by done; lia|by rewrite decide_False].
Qed.

Lemma collectAggregate_ok agg : (∀ r n, r ∈ rows → Node r (cm_Sym agg) = Some n → is_Some (View_GraphID v n)) →
  ∃ ids, collectAggregate v agg rows = Some ids ∧ ∀ id, id ∈ ids ↔ ∃ r n, r ∈ rows ∧ Node r (cm_Sym agg) = Some n ∧ View_GraphID v n = Some id.
Proof.
  intros Hn. unfold collectAggregate. apply (foldl_option_inv _ (λ done (set : gset N), ∀ id, id ∈ set ↔ ∃ r n, r ∈ done ∧ Node r (cm_Sym agg) = Some n ∧ View_GraphID v n = Some id)).
  - intros done rest r set Hsplit Hs. setoid_rewrite elem_of_app. setoid_rewrite list_elem_of_singleton. destruct (Node r (cm_Sym agg)) as [n|] eqn:En.
    + destruct (Hn r n) as [id Hid]; [rewrite Hsplit; apply elem_of_app; right; by left|done|]. rewrite Hid. cbn [mbind option_bind]. eexists. split; [done|].
      intros id'. rewrite elem_of_union, elem_of_singleton, Hs. split; [intros [->|(r0 & n0 & ? & ?)]; eauto 6|].
      intros (r0 & n0 & [?| ->] & En0 & Hid0); [right; eauto|left; congruence].
    + eexists. split; [done|]. intros id. rewrite Hs. split; [intros (r0 & n0 & ? & ?); eauto 6|]. intros (r0 & n0 & [?| ->] & En0 & Hid0); [eauto|congruence].
  - intros id. split; [by intros ?%not_elem_of_empty|by intros (r & n & ?%not_elem_of_nil & _)].
Qed.
End aggregates.

(** ** Groups *)

Lemma bind_singletons {A B} (f : A → list B) (P : A → B → Prop) l : (∀ x, x ∈ l → ∃ y, f x = [y] ∧ P x y) → Forall2 P l (l ≫= f).
Proof.
  induction l as [|x l IH]; intros Hf; [constructor|]. destruct (Hf x) as (y & Hy & HP); [by left|]. rewrite bind_cons, Hy. constructor; [done|]. apply IH. intros z Hz. apply Hf. by right.
Qed.

Lemma runs_foldl_fmap {S A B C} (I : S → Prop) E (f : B → C → go S B) (g : A → C) b l P :
  runs I E (go_foldl (λ b x, f b (g x)) b l) P → runs I E (go_foldl f b (g <$> l)) P.
Proof. intros Hr s Hs. rewrite go_foldl_fmap. by apply Hr. Qed.

Section groups.
Context `{GoStd} `{Cypher}.
Context (v : View) (budget : Budgets) (ctx : Ctx) (I : ekMemo → Prop) (E : goerr → Prop).
Hypothesis HE : ∀ e, out_of_budget budget ctx e → E e.
Let J (s : exec_state) := I (x_memo s).
Context (wc : WithClause) (rows : list Row).
Let keys := GroupKeys wc.
Hypothesis Hrows : ∀ r, r ∈ rows → ∃ cs, row_tuple v keys r cs.
Definition group_key (r : Row) : bytes := default [] (groupKeyBytes v r keys).
Lemma group_keyed r : r ∈ rows → groupKeyBytes v r keys = Some (group_key r).
Proof. intros Hr. destruct (Hrows r Hr) as [cs Hcs]. unfold group_key. by rewrite (row_tuple_key v _ _ _ Hcs). Qed.
Lemma group_keys_same r r' : r ∈ rows → r' ∈ rows → group_key r = group_key r' ↔ same_tuple v keys r r'.
Proof.
  intros Hr Hr'. destruct (Hrows r Hr) as [cs Hcs], (Hrows r' Hr') as [cs' Hcs']. rewrite <- (same_tuple_key v keys r r' cs cs' Hcs Hcs').
  rewrite (group_keyed r Hr), (group_keyed r' Hr'). by split; [intros ->|intros ?%(inj Some)].
Qed.

Definition members (l : list Row) (k : bytes) : list Row := filter (λ r, group_key r = k) l.
Definition group_of (g : list Row) : option withGroup := match g with [] => None | _ => Some (mkWithGroup (head g) g) end.
Lemma members_snoc l r k : members (l ++ [r]) k = if decide (group_key r = k) then members l k ++ [r] else members l k.
Proof. unfold members. by rewrite filter_grows. Qed.
Lemma runs_group_rows : runs J E (go_foldl (group_add v budget ctx keys) (∅, []) rows)
  (λ st, st.2 = group_key <$> firsts group_key ∅ rows ∧ ∀ k, st.1 !! k = group_of (members rows k)).
Proof.
  apply (runs_foldl_split J E _ (λ done (st : gmap bytes withGroup * list bytes), st.2 = group_key <$> firsts group_key ∅ done ∧ ∀ k, st.1 !! k = group_of (members done k)) rows); [|done].
  intros done rest r [groups order] Hsplit [Ho Hg]. simpl in Ho, Hg. assert (r ∈ rows) as Hr by (rewrite Hsplit; apply elem_of_app; right; by left).
  unfold group_add. eapply runs_bind, runs_lift; [by apply group_keyed|]. eapply runs_then; [apply (runs_spend budget ctx I E HE)|]. intros _ _. apply runs_ret.
  pose proof (Hg (group_key r)) as Hgr. rewrite firsts_snoc, fmap_app. destruct (members done (group_key r)) as [|m ms] eqn:Em; rewrite Hgr; simpl.
  - split.
    + rewrite Ho, decide_False; [done|]. intros [(r0 & He & Hr0)%elem_of_list_to_set%list_elem_of_fmap|?%not_elem_of_empty]%elem_of_union; [|done].
      assert (r0 ∈ members done (group_key r)) as Hm by (by apply list_elem_of_filter). rewrite Em in Hm. by apply not_elem_of_nil in Hm.
    + intros k. rewrite members_snoc. destruct (decide (group_key r = k)) as [<-|Hne]; [by rewrite lookup_insert_eq, Em|by rewrite lookup_insert_ne, Hg].
  - assert (m ∈ members done (group_key r)) as [Hk Hm]%list_elem_of_filter by (rewrite Em; by left). split.
    + rewrite Ho, decide_True; [by rewrite app_nil_r|]. apply elem_of_union. left. apply elem_of_list_to_set, list_elem_of_fmap. by exists m.
    + intros k. rewrite members_snoc. destruct (decide (group_key r = k)) as [<-|Hne]; [by rewrite lookup_insert_eq, Em|by rewrite lookup_insert_ne, Hg].
Qed.

Hypothesis Hne : keys ≠ [].
Hypothesis Hrow : ∀ rep, rep ∈ rows → is_Some (group_row v wc (mkWithGroup (Some rep) (members rows (group_key rep)))).
Lemma runs_with_aggregate : runs J E (runWithAggregate v budget ctx wc rows) (λ out,
  Forall2 (λ rep row, group_row v wc (mkWithGroup (Some rep) (members rows (group_key rep))) = Some row) (firsts group_key ∅ rows) out).
Proof.
  unfold runWithAggregate. eapply (runs_then J E _ _ (λ st, st.2 = group_key <$> firsts group_key ∅ rows ∧ ∀ k, st.1 !! k = group_of (members rows k))).
  { pose proof runs_group_rows as Hg. fold keys. destruct keys; [done|exact Hg]. }
  intros [groups order] [Ho Hg]. simpl in Ho, Hg. subst order.
  set (rep_row := λ rep, match group_row v wc (mkWithGroup (Some rep) (members rows (group_key rep))) with Some row => [row] | None => [] end).
  assert (∀ rep, rep ∈ firsts group_key ∅ rows → groups !! group_key rep = Some (mkWithGroup (Some rep) (members rows (group_key rep)))) as Hgroup.
  { intros rep Hrep. rewrite Hg. pose proof (firsts_head group_key ∅ rows rep Hrep) as Hh. fold (members rows (group_key rep)) in Hh.
    destruct (members rows (group_key rep)) as [|m ms]; [done|]. simpl in *. by injection Hh as ->. }
  cbn [fst snd]. apply runs_foldl_fmap. eapply runs_mono; [apply (runs_collect J E _ rep_row)|].
  - intros out rep Hrep. eapply runs_bind, runs_lift; [by apply Hgroup|]. destruct (Hrow rep) as [row Hrw]; [by eapply firsts_elem|].
    eapply runs_bind, runs_lift; [exact Hrw|]. eapply runs_then; [apply (runs_spend budget ctx I E HE)|]. intros _ _. apply runs_ret. unfold rep_row. by rewrite Hrw.
  - intros ? ->. simpl. apply bind_singletons. intros rep Hrep. destruct (Hrow rep) as [row Hrw]; [by eapply firsts_elem|]. exists row. unfold rep_row. by rewrite Hrw.
Qed.
End groups.

(** *** The row of a group *)

Section group_row.
Context `{GoStd} `{Cypher}.
Context (v : View).

(** [nr] has for [s] what [rep] has, resp. nothing. *)
Definition copied (rep nr : Row) (s : string) : Prop := Node nr s = Node rep s ∧ (Node rep s = None → Edge nr s = Edge rep s) ∧
  (Node rep s = None → Edge rep s = None → Scalar nr s = Scalar rep s).
Definition blank (nr : Row) (s : string) : Prop := Node nr s = None ∧ Edge nr s = None ∧ Scalar nr s = None.
Lemma copied_cell rep nr s : copied rep nr s → cell_of v nr s = cell_of v rep s.
Proof. intros (Hn & He & Hs). unfold cell_of. rewrite Hn. destruct (Node rep s); [done|]. rewrite He by done. destruct (Edge rep s); [done|]. by rewrite Hs. Qed.
Lemma copy_other rep nr sym s : sym ≠ s → Node (copySymbolBinding nr rep sym) s = Node nr s ∧ Edge (copySymbolBinding nr rep sym) s = Edge nr s ∧
  Scalar (copySymbolBinding nr rep sym) s = Scalar nr s.
Proof.
  intros Hne. unfold copySymbolBinding. destruct (Node rep sym); [by rewrite Node_SetNode, decide_False|]. destruct (Edge rep sym); [by rewrite Edge_SetEdge, decide_False|].
  destruct (Scalar rep sym); [by rewrite Scalar_SetScalar, decide_False|done].
Qed.
Lemma copy_same rep nr s : copied rep nr s ∨ blank nr s → copied rep (copySymbolBinding nr rep s) s.
Proof.
  intros Hc. unfold copied, copySymbolBinding. destruct (Node rep s) as [n|] eqn:En; [by rewrite Node_SetNode, decide_True|].
  assert (Node nr s = None) as Hn by (destruct Hc as [[Hn _]|[Hn _]]; [by rewrite En in Hn|done]).
  destruct (Edge rep s) as [e|] eqn:Ee; [by rewrite Edge_SetEdge, decide_True|].
  assert (Edge nr s = None) as He by (destruct Hc as [(_ & He & _)|(_ & He & _)]; [by rewrite He|done]).
  destruct (Scalar rep s) as [x|] eqn:Ex; [by rewrite Scalar_SetScalar, decide_True|]. split; [done|]. split; [done|]. intros _ _.
  by destruct Hc as [(_ & _ & Hs)|(_ & _ & Hs)]; [rewrite Hs|].
Qed.
Lemma copies_ok rep syms s : let nr := foldl (λ nr sym, copySymbolBinding nr rep sym) NewRow syms in (s ∈ syms → copied rep nr s) ∧ (s ∉ syms → blank nr s).
Proof.
  induction syms as [|sym syms [IH1 IH2]] using rev_ind; [split; [by intros ?%not_elem_of_nil|done]|]. cbv zeta in *. rewrite foldl_app. cbn [foldl].
  rewrite elem_of_app, list_elem_of_singleton. destruct (decide (sym = s)) as [->|Hne].
  - split; [|tauto]. intros _. apply copy_same. destruct (decide (s ∈ syms)); auto.
  - unfold copied, blank. destruct (copy_other rep (foldl (λ nr sym, copySymbolBinding nr rep sym) NewRow syms) sym s Hne) as (-> & -> & ->).
    split; [intros [?|?]; [by apply IH1|congruence]|intros Hn; apply IH2; tauto].
Qed.

(** Only scalars of [aliases] are set. *)
Definition keeps_but (aliases : list string) (nr nr' : Row) : Prop := ∀ s, Node nr' s = Node nr s ∧ Edge nr' s = Edge nr s ∧ (s ∉ aliases → Scalar nr' s = Scalar nr s).
Lemma keeps_set l nr nr' alias x : keeps_but l nr nr' → keeps_but (l ++ [alias]) nr (SetScalar nr' alias x).
Proof.
  intros Hk s. destruct (Hk s) as (Hn & He & Hs). split; [exact Hn|]. split; [exact He|]. rewrite Scalar_SetScalar, elem_of_app, list_elem_of_singleton.
  intros Hni. rewrite decide_False by (intros ->; tauto). apply Hs. tauto.
Qed.
Lemma constants_ok wc nr : NoDup (wk_Alias <$> Constants wc) → keeps_but (wk_Alias <$> Constants wc) nr (set_constants wc nr) ∧
  ∀ c, c ∈ Constants wc → Scalar (set_constants wc nr) (wk_Alias c) = Some (SAny (wk_Value c)).
Proof.
  unfold set_constants. induction (Constants wc) as [|c cs IH] using rev_ind; [split; [by intros s|by intros c ?%not_elem_of_nil]|].
  rewrite fmap_app, foldl_app. cbn [foldl fmap list_fmap]. intros (Hnd & Hn & _)%NoDup_app. destruct (IH Hnd) as [Hk Hv]. split; [by apply keeps_set|].
  intros c' [Hc'| ->%list_elem_of_singleton]%elem_of_app; rewrite Scalar_SetScalar; [|by rewrite decide_True].
  rewrite decide_False; [by apply Hv|]. intros He. apply (Hn (wk_Alias c')); [apply list_elem_of_fmap; by exists c'|rewrite He; by left].
Qed.

(** What the aggregates read of a row has an id, or is a value. *)
Definition readable (agg : WithAggregate) (r : Row) : Prop :=
  (∀ c, wa_Count agg = Some c → ∃ x, cell_of v r (ca_Sym c) = Some x ∧ cell_ok x) ∧
  (∀ c n, wa_Collect agg = Some c → Node r (cm_Sym c) = Some n → is_Some (View_GraphID v n)).
(** The value of an aggregate over the rows of a group. *)
Definition aggregates_to (agg : WithAggregate) (g : list Row) (x : option scalar) : Prop :=
  match wa_Count agg, wa_Collect agg with
  | Some c, _ => ∃ n, count_is v c g n ∧ x = Some (SAny (AFloat (f64_of_count n)))
  | None, Some c => ∃ ids : gset N, x = Some (SIdSet ids) ∧ ∀ id, id ∈ ids ↔ ∃ r n, r ∈ g ∧ Node r (cm_Sym c) = Some n ∧ View_GraphID v n = Some id
  | None, None => True
  end.
Lemma applyAggregate_ok g nr agg : (∀ r, r ∈ g → readable agg r) →
  ∃ nr', applyAggregate v g nr agg = Some nr' ∧ (nr' = nr ∨ ∃ x, nr' = SetScalar nr (wa_Alias agg) x) ∧ aggregates_to agg g (Scalar nr' (wa_Alias agg)).
Proof.
  intros Hr. unfold applyAggregate, aggregates_to. destruct (wa_Count agg) as [c|] eqn:Ec.
  - destruct (countAggregate_ok v g c) as (n & -> & Hn); [intros r Hin; by apply (Hr r Hin)|]. cbn [mbind option_bind]. eexists. split; [done|]. split; [eauto|].
    exists n. split; [done|]. by rewrite Scalar_SetScalar, decide_True.
  - destruct (wa_Collect agg) as [c|] eqn:El; [|exists nr; auto].
    destruct (collectAggregate_ok v g c) as (ids & -> & Hids); [intros r n Hin; by apply (proj2 (Hr r Hin))|]. cbn [mbind option_bind]. eexists. split; [done|]. split; [eauto|].
    exists ids. split; [by rewrite Scalar_SetScalar, decide_True|done].
Qed.

Lemma group_row_ok wc rep g : NoDup ((wk_Alias <$> Constants wc) ++ (wa_Alias <$> Aggregates wc)) →
  (∀ r agg, r ∈ g → agg ∈ Aggregates wc → readable agg r) →
  ∃ row, group_row v wc (mkWithGroup rep g) = Some row ∧
    (∀ r s, rep = Some r → s ∈ GroupKeys wc → s ∉ (wk_Alias <$> Constants wc) ++ (wa_Alias <$> Aggregates wc) → cell_of v row s = cell_of v r s) ∧
    (∀ c, c ∈ Constants wc → Scalar row (wk_Alias c) = Some (SAny (wk_Value c))) ∧
    ∀ agg, agg ∈ Aggregates wc → aggregates_to agg g (Scalar row (wa_Alias agg)).
Proof.
  intros (Hndc & Hdis & Hnda)%NoDup_app Hread. unfold group_row. cbn [wg_rep wg_rows].
  set (nr := match rep with Some rep => foldl (λ nr sym, copySymbolBinding nr rep sym) NewRow (GroupKeys wc) | None => NewRow end). destruct (constants_ok wc nr Hndc) as [Hk1 Hc].
  destruct (foldl_option_inv (applyAggregate v g) (λ done row, keeps_but (wa_Alias <$> done) (set_constants wc nr) row ∧
    ∀ agg, agg ∈ done → aggregates_to agg g (Scalar row (wa_Alias agg))) (Aggregates wc) (set_constants wc nr)) as (row & -> & Hk2 & Ha).
  - intros done rest agg row Hsplit [Hk Hv]. rewrite Hsplit in Hnda, Hread. rewrite fmap_app in Hnda. apply NoDup_app in Hnda as (_ & Hn & _).
    destruct (applyAggregate_ok g row agg) as (row' & Er & Hset & Hval); [intros r Hin; apply Hread; [done|]; apply elem_of_app; right; by left|].
    exists row'. split; [done|]. rewrite fmap_app. cbn [fmap list_fmap]. split.
    + destruct Hset as [->|[x ->]]; [|by apply keeps_set]. intros s. destruct (Hk s) as (? & ? & Hs). split_and!; try done. intros Hni. apply Hs. intros Hin. apply Hni, elem_of_app. by left.
    + intros agg' [Hin| ->%list_elem_of_singleton]%elem_of_app; [|done]. assert (Scalar row' (wa_Alias agg') = Scalar row (wa_Alias agg')) as ->; [|by apply Hv].
      destruct Hset as [->|[x ->]]; [done|]. rewrite Scalar_SetScalar, decide_False; [done|]. intros He. apply (Hn (wa_Alias agg')); [apply list_elem_of_fmap; by exists agg'|rewrite <- He, fmap_cons; by left].
  - split; [by intros s|by intros agg ?%not_elem_of_nil].
  - exists row. split; [done|]. split; [|split].
    + intros r s -> Hs Hna. rewrite elem_of_app in Hna. apply copied_cell. destruct (copies_ok r (GroupKeys wc) s) as [Hcp _]. fold nr in Hcp.
      destruct (Hk1 s) as (N1 & E1 & S1), (Hk2 s) as (N2 & E2 & S2). unfold copied. rewrite N2, E2, S2, N1, E1, S1 by tauto. by apply Hcp.
    + intros c Hin. destruct (Hk2 (wk_Alias c)) as (_ & _ & S2). rewrite S2; [by apply Hc|]. intros Hal. apply (Hdis (wk_Alias c)); [apply list_elem_of_fmap; by exists c|done].
    + done.
Qed.
End group_row.

(** ** A whole stage *)

(** [kept] is [l] without what an earlier element is [R] to. *)
Definition first_of_each {A} (R : A → A → Prop) (l kept : list A) : Prop :=
  kept `sublist_of` l ∧ (∀ i j x y, kept !! i = Some x → kept !! j = Some y → R x y → i = j) ∧
  ∀ done x rest, l = done ++ x :: rest → ∃ y, y ∈ done ++ [x] ∧ y ∈ kept ∧ R y x.
(** [g] is what of [l] has [P], in order. *)
Fixpoint selects {A} (P : A → Prop) (l g : list A) : Prop :=
  match l with [] => g = [] | x :: l => (P x ∧ ∃ g', g = x :: g' ∧ selects P l g') ∨ (¬ P x ∧ selects P l g) end.

Lemma firsts_first {A} (key : A → bytes) (R : A → A → Prop) l : (∀ x y, x ∈ l → y ∈ l → key x = key y ↔ R x y) → first_of_each R l (firsts key ∅ l).
Proof.
  intros HR. split; [apply firsts_sublist|]. split.
  - intros i j x y Hi Hj Hxy. eapply NoDup_lookup; [apply (firsts_differ key ∅ l)|by rewrite list_lookup_fmap, Hi|].
    rewrite list_lookup_fmap, Hj. cbn. f_equal. symmetry. apply HR; [eapply firsts_elem; by eapply list_elem_of_lookup_2..|done].
  - intros done x rest ->. destruct (firsts_cover key done x rest ∅) as (y & Hy & Hin & Hk); [by apply not_elem_of_empty|].
    exists y. split; [done|]. split; [done|]. apply HR; [by eapply firsts_elem|apply elem_of_app; right; by left|done].
Qed.
Lemma filter_selects {A} (P Q : A → Prop) `{!∀ x, Decision (Q x)} l : (∀ x, x ∈ l → Q x ↔ P x) → selects P l (filter Q l).
Proof.
  induction l as [|x l IH]; intros HQ; [done|]. assert (selects P l (filter Q l)) as Hl by (apply IH; intros y Hy; apply HQ; by right).
  rewrite filter_cons. simpl. destruct (decide (Q x)) as [Hx|Hx]; rewrite HQ in Hx by (by left); [left; eauto|by right].
Qed.
Lemma firsts_map {A B} (f : A → B) (key : B → bytes) seen l : firsts key seen (f <$> l) = f <$> firsts (λ x, key (f x)) seen l.
Proof. revert seen. induction l as [|x l IH]; intros seen; [done|]. rewrite fmap_cons. simpl. destruct (decide _); by rewrite IH. Qed.

Section stage.
Context `{GoStd} `{Cypher}.
Context (v : View) (budget : Budgets) (ctx : Ctx) (I : ekMemo → Prop) (E : goerr → Prop).
Hypothesis HE : ∀ e, out_of_budget budget ctx e → E e.
Hypothesis Heval : ∀ e, eval_error v e → E e.
Let J (s : exec_state) := I (x_memo s).
Context (wc : WithClause).
Let aliases := (wk_Alias <$> Constants wc) ++ (wa_Alias <$> Aggregates wc).

(** A row with the computed items, in which a value that is absent is left out. *)
Definition compute_row (r : Row) (c : WithComputed) : Row := match EvalValue v r (wx_Expr c) with inl (Some x) => SetScalar r (wx_Alias c) x | _ => r end.
Definition computed_row (r : Row) : Row := foldl compute_row r (Computed wc).
Lemma runs_computed rows : runs J E (go_foldl (compute_alias v) rows (Computed wc)) (λ out, out = computed_row <$> rows).
Proof.
  apply (runs_foldl J E _ (λ done out, out = (λ r, foldl compute_row r done) <$> rows)); [|symmetry; apply list_fmap_id].
  intros done c out -> _. unfold compute_alias. eapply runs_mono; [apply (runs_collect J E _ (λ r, [compute_row r c]))|].
  - intros acc r _. unfold eval_value, compute_row. destruct (EvalValue v r (wx_Expr c)) as [x|err] eqn:Ee; [|apply (runs_err J E), Heval; exists r, (wx_Expr c); by right].
    eapply runs_bind, runs_ret, runs_ret. by destruct x.
  - intros ? ->. simpl. clear. induction rows as [|r rows IH]; [done|]. rewrite !fmap_cons, bind_cons, IH, foldl_app. done.
Qed.

(** What a stage keeps of a row. *)
Definition kept_row (r : Row) : Row := set_constants wc (foldl (λ nr sym, copySymbolBinding nr r sym) NewRow (GroupKeys wc)).
Lemma kept_row_ok r : NoDup (wk_Alias <$> Constants wc) →
  (∀ s, s ∈ GroupKeys wc → s ∉ wk_Alias <$> Constants wc → copied r (kept_row r) s) ∧
  (∀ s, s ∉ GroupKeys wc → s ∉ wk_Alias <$> Constants wc → blank (kept_row r) s) ∧
  ∀ c, c ∈ Constants wc → Scalar (kept_row r) (wk_Alias c) = Some (SAny (wk_Value c)).
Proof.
  intros Hnd. unfold kept_row. set (nr := foldl _ NewRow (GroupKeys wc)). destruct (constants_ok wc nr Hnd) as [Hk Hc].
  split; [|split; [|done]]; intros s Hs Hn; destruct (Hk s) as (N1 & E1 & S1); destruct (copies_ok r (GroupKeys wc) s) as [Hcp Hbl]; fold nr in Hcp, Hbl.
  - unfold copied. rewrite N1, E1, S1 by done. by apply Hcp.
  - unfold blank. rewrite N1, E1, S1 by done. by apply Hbl.
Qed.

Hypothesis Hnd : NoDup aliases.
Hypothesis Hsep : ∀ s, s ∈ GroupKeys wc → s ∉ aliases.
Lemma constant_aliases : NoDup (wk_Alias <$> Constants wc) ∧ ∀ s, s ∈ GroupKeys wc → s ∉ wk_Alias <$> Constants wc.
Proof. split; [by apply NoDup_app in Hnd as (? & _)|]. intros s Hs Hin. apply (Hsep s Hs), elem_of_app. by left. Qed.
Lemma kept_tuple r cs : row_tuple v (GroupKeys wc) r cs → row_tuple v (GroupKeys wc) (kept_row r) cs.
Proof.
  destruct constant_aliases as [Hndc Hno]. destruct (kept_row_ok r Hndc) as (Hcp & _ & _). assert (∀ s, s ∈ GroupKeys wc → cell_of v (kept_row r) s = cell_of v r s) as Heq.
  { intros s Hs. apply copied_cell, Hcp; [done|by apply Hno]. }
  clear Hcp Hno Hsep. revert Heq. unfold row_tuple. generalize (kept_row r). intros r' Heq Hr. induction Hr as [|s c syms cs [Hc Hok] _ IH]; constructor.
  - rewrite Heq by (by left). done.
  - apply IH. intros s' Hs'. apply Heq. by right.
Qed.

(** *** Without aggregates *)

Context (rows : list Row).
Hypothesis Hrows : ∀ r, r ∈ rows → ∃ cs, row_tuple v (GroupKeys wc) r cs.
Lemma runs_pass_through : runs J E (runWithPassThrough v budget ctx wc rows) (λ out, out = kept_row <$>
  (if wc_Distinct wc then firsts (group_key v wc) ∅ rows else rows)).
Proof.
  unfold runWithPassThrough. eapply runs_then; [apply (runs_foldl_split J E _ (λ done (st : list Row * gset bytes),
    st = (kept_row <$> (if wc_Distinct wc then firsts (group_key v wc) ∅ done else done), if wc_Distinct wc then list_to_set (group_key v wc <$> done) else st.2)) rows)|].
  - intros done rest r [out seen] Hsplit [= -> Hseen]. fold (kept_row r).
    destruct (Hrows r) as [cs Hcs]; [rewrite Hsplit; apply elem_of_app; right; by left|].
    assert (groupKeyBytes v (kept_row r) (GroupKeys wc) = Some (group_key v wc r)) as Ek.
    { unfold group_key. by rewrite (row_tuple_key v _ _ _ Hcs), (row_tuple_key v _ _ _ (kept_tuple r cs Hcs)). }
    destruct (wc_Distinct wc) eqn:Ed.
    + simpl in Hseen. subst seen. eapply runs_bind, runs_lift; [exact Ek|]. rewrite firsts_snoc, fmap_app, !fmap_app, list_to_set_app_L. simpl.
      destruct (bool_decide_reflect (group_key v wc r ∈ (list_to_set (group_key v wc <$> done) : gset bytes))) as [Hin|Hin].
      * apply runs_ret. rewrite decide_True, app_nil_r by set_solver. f_equal. set_solver.
      * eapply runs_then; [apply (runs_spend budget ctx I E HE)|]. intros _ _. apply runs_ret. rewrite decide_False by set_solver. f_equal. set_solver.
    + eapply runs_bind, runs_lift; [reflexivity|]. simpl. eapply runs_then; [apply (runs_spend budget ctx I E HE)|]. intros _ _. apply runs_ret. by rewrite fmap_app.
  - by destruct (wc_Distinct wc).
  - intros [out seen] [= -> _]. by apply runs_ret.
Qed.

(** *** With aggregates *)

(** The groups: all the rows where nothing is grouped by, and else those of
    each tuple; and what the row of a group has. *)
Definition groups_are (gs : list (list Row)) : Prop :=
  match GroupKeys wc with
  | [] => gs = [rows]
  | keys => ∃ reps, first_of_each (same_tuple v keys) rows reps ∧ Forall2 (λ rep g, selects (same_tuple v keys rep) rows g) reps gs
  end.
Definition group_shows (g : list Row) (row : Row) : Prop :=
  (∀ r s, head g = Some r → s ∈ GroupKeys wc → cell_of v row s = cell_of v r s) ∧
  (∀ c, c ∈ Constants wc → Scalar row (wk_Alias c) = Some (SAny (wk_Value c))) ∧
  ∀ agg, agg ∈ Aggregates wc → aggregates_to v agg g (Scalar row (wa_Alias agg)).
Hypothesis Hread : ∀ r agg, r ∈ rows → agg ∈ Aggregates wc → readable v agg r.
Lemma group_row_shows g : (∀ r, r ∈ g → r ∈ rows) → ∃ row, group_row v wc (mkWithGroup (head g) g) = Some row ∧ group_shows g row.
Proof.
  intros Hg. destruct (group_row_ok v wc (head g) g Hnd) as (row & Er & H1 & H2 & H3); [intros r agg Hr; by apply Hread, Hg|].
  exists row. split; [done|]. split; [|done]. intros r s Hr Hs. apply H1; [done|done|by apply Hsep].
Qed.
Lemma members_elem k r : r ∈ members v wc rows k → r ∈ rows.
Proof. by intros [_ Hr]%list_elem_of_filter. Qed.
Lemma members_head rep : rep ∈ firsts (group_key v wc) ∅ rows → head (members v wc rows (group_key v wc rep)) = Some rep.
Proof. apply firsts_head. Qed.
Lemma Forall2_left {A B} (P Q : A → B → Prop) l k : (∀ x y, x ∈ l → P x y → Q x y) → Forall2 P l k → Forall2 Q l k.
Proof. intros HPQ Hf. induction Hf as [|x y l k Hp Hf IH]; constructor; [apply HPQ; [by left|done]|]. apply IH. intros x' y' Hx'. apply HPQ. by right. Qed.
Lemma runs_groups : GroupKeys wc ≠ [] → runs J E (runWithAggregate v budget ctx wc rows)
  (λ out, Forall2 (λ rep row, group_shows (members v wc rows (group_key v wc rep)) row) (firsts (group_key v wc) ∅ rows) out).
Proof.
  intros Hne. eapply runs_mono; [apply (runs_with_aggregate v budget ctx I E HE wc rows Hrows Hne)|].
  - intros rep Hrep. destruct (group_row_ok v wc (Some rep) (members v wc rows (group_key v wc rep)) Hnd) as (row & -> & _); [|by eexists].
    intros r agg Hr. apply Hread. by eapply members_elem.
  - intros out. apply Forall2_left. intros rep row Hrep Hrow. destruct (group_row_shows (members v wc rows (group_key v wc rep))) as (row' & Er & Hs); [intros r; apply members_elem|].
    rewrite (members_head rep Hrep), Hrow in Er. by injection Er as ->.
Qed.
Lemma groups_same : ∃ reps, first_of_each (same_tuple v (GroupKeys wc)) rows reps ∧
  Forall2 (λ rep g, selects (same_tuple v (GroupKeys wc) rep) rows g) reps ((λ rep, members v wc rows (group_key v wc rep)) <$> firsts (group_key v wc) ∅ rows).
Proof.
  exists (firsts (group_key v wc) ∅ rows). split; [apply firsts_first; intros; by apply (group_keys_same v wc rows Hrows)|].
  apply Forall2_fmap_r, Forall_Forall2_diag, Forall_forall. intros rep Hrep. apply filter_selects. intros r Hr.
  rewrite <- (group_keys_same v wc rows Hrows rep r); [split; congruence|by eapply firsts_elem|done].
Qed.
Lemma runs_aggregate : runs J E (runWithAggregate v budget ctx wc rows) (λ out, ∃ gs, groups_are gs ∧ Forall2 group_shows gs out).
Proof.
  destruct (decide (GroupKeys wc = [])) as [Ek|Hne].
  - destruct (group_row_shows rows) as (row & Er & Hrow); [done|]. unfold runWithAggregate. rewrite Ek. eapply runs_bind, runs_ret. cbn [fst snd go_foldl].
    eapply runs_then; [eapply runs_bind, runs_lift; [apply lookup_singleton_eq|]; eapply runs_bind, runs_lift; [exact Er|];
      eapply runs_then; [apply (runs_spend budget ctx I E HE)|]; intros _ _; by apply (runs_ret J E _ (λ out, out = [row]))|].
    intros ? ->. apply runs_ret. exists [rows]. unfold groups_are. rewrite Ek. split; [done|]. constructor; [done|constructor].
  - eapply runs_mono; [by apply runs_groups|]. intros out Hout. exists ((λ rep, members v wc rows (group_key v wc rep)) <$> firsts (group_key v wc) ∅ rows).
    split; [|by apply Forall2_fmap_l]. pose proof groups_same as Hg. unfold groups_are. by destruct (GroupKeys wc).
Qed.

(** *** Both *)

(** What is grouped by is kept of a row, and nothing else. *)
Definition row_shows (r row : Row) : Prop :=
  (∀ s, s ∈ GroupKeys wc → copied r row s) ∧ (∀ s, s ∉ GroupKeys wc → s ∉ wk_Alias <$> Constants wc → blank row s) ∧
  ∀ c, c ∈ Constants wc → Scalar row (wk_Alias c) = Some (SAny (wk_Value c)).
Definition stage_shows (out : list Row) : Prop :=
  match Aggregates wc with
  | [] => ∃ kept, Forall2 row_shows kept out ∧ if wc_Distinct wc then first_of_each (same_tuple v (GroupKeys wc)) rows kept else kept = rows
  | _ => ∃ gs, groups_are gs ∧ Forall2 group_shows gs out
  end.
Lemma kept_row_shows r : row_shows r (kept_row r).
Proof. destruct constant_aliases as [Hndc Hno]. destruct (kept_row_ok r Hndc) as (H1 & H2 & H3). split; [|split; [|done]]; [intros s Hs; apply H1; [done|by apply Hno]|done]. Qed.
Lemma runs_kept : runs J E (runWithPassThrough v budget ctx wc rows)
  (λ out, ∃ kept, Forall2 row_shows kept out ∧ if wc_Distinct wc then first_of_each (same_tuple v (GroupKeys wc)) rows kept else kept = rows).
Proof.
  eapply runs_mono; [apply runs_pass_through|]. intros ? ->. exists (if wc_Distinct wc then firsts (group_key v wc) ∅ rows else rows).
  split; [apply Forall2_fmap_r, Forall_Forall2_diag, Forall_forall; intros r _; apply kept_row_shows|].
  destruct (wc_Distinct wc); [|done]. apply firsts_first. intros. by apply (group_keys_same v wc rows Hrows).
Qed.
Lemma runs_stage : runs J E (if len (Aggregates wc) =? 0 then runWithPassThrough v budget ctx wc rows else runWithAggregate v budget ctx wc rows) stage_shows.
Proof.
  pose proof runs_kept as Hk. pose proof runs_aggregate as Ha. unfold stage_shows. destruct (Aggregates wc) as [|agg aggs]; [exact Hk|].
  rewrite len_cons, (proj2 (N.eqb_neq _ 0)) by lia. exact Ha.
Qed.
End stage.
