(* ===== verification/Example.v ===== *)
(** * A concrete replica

    A snapshot of three nodes and four edges, a segment on top of it, and the
    view of both, all made by running the model's own builders. The witnesses
    of the development's theorems are evaluated on it. *)

From S2P Require Import Prelude Bitset Csr Kinds Props Snapshot Builder Segment View.
From Stdlib Require Import String.
From stdpp Require Import options.
Unset Default Proof Using.
#[local] Open Scope N_scope.

#[export] Existing Instance merge_GoStd.

(** ** The snapshot *)

Definition ex_text (s : string) : bytes := list_ascii_of_string s.
Definition ex_parsed (oid : string) : list parsedProp :=
  [mkParsedProp "name" propKindString 0 (ex_text "n"); mkParsedProp "objectid" propKindString 0 (ex_text oid)].
Definition ex_staging : go Builder () :=
  (addParsedNode 10 [1%Z] (ex_parsed "A") ;;! addParsedNode 20 [2%Z] (ex_parsed "B") ;;!
   addParsedNode 30 [1%Z; 2%Z] (ex_parsed "A"))%go.
Definition ex_nodes : list node_rec :=
  [(10, [1%Z], parsed_bag (ex_parsed "A")); (20, [2%Z], parsed_bag (ex_parsed "B"));
   (30, [1%Z; 2%Z], parsed_bag (ex_parsed "A"))].
Definition ex_kinds : gmap KindID string :=
  list_to_map [(1%Z, "User"%string); (2%Z, "Group"%string); (3%Z, "MemberOf"%string); (4%Z, "Owns"%string)].
Definition ex_builder : Builder :=
  let b := match ex_staging (NewBuilder 1) with Some (b, _) => b | None => NewBuilder 1 end in
  SetKinds (AddEdge (AddEdge (AddEdge (AddEdge b 100 10 20 3%Z) 101 20 30 3%Z) 102 10 30 4%Z) 103 30 30 4%Z) ex_kinds.
Definition ex_edges : list stagedEdge :=
  [mkStagedEdge 100 10 20 3%Z; mkStagedEdge 101 20 30 3%Z; mkStagedEdge 102 10 30 4%Z; mkStagedEdge 103 30 30 4%Z].

Lemma ex_parsed_names s : NoDup (pp_name <$> ex_parsed s).
Proof. by apply (bool_decide_unpack _). Qed.

Lemma stage_node b nodes prows id kinds s : Builder_rep b nodes prows →
  len (b_kindsFlat b) + len kinds < 2 ^ 32 → len (b_propEntries b) + 2 < 2 ^ 32 →
  ∃ b' r, addParsedNode id kinds (ex_parsed s) b = Some (b', r) ∧
    (r = inl () → ∃ es, Builder_rep b' (nodes ++ [(id, kinds, parsed_bag (ex_parsed s))]) (prows ++ [es])).
Proof.
  intros Hrep Hk Hp. rewrite addParsedNode_eq.
  assert (size (parsed_bag (ex_parsed s)) = 2%nat) as Hs.
  { unfold parsed_bag, bag_of. simpl. rewrite !map_size_insert_None, map_size_empty; [done|..];
      by rewrite ?lookup_insert_ne, ?lookup_empty. }
  destruct (add_node_spec _ _ b nodes prows id kinds (stages_parsed _ (ex_parsed_names s)) Hrep Hk) as (b' & r & -> & _ & _ & _ & Hr);
    [by rewrite Hs|]. exists b', r. split; [done|]. intros ->. destruct Hr as (_ & es & Hr & _). by exists es.
Qed.

Lemma ex_staged : ∃ b prows, ex_staging (NewBuilder 1) = Some (b, inl ()) ∧ Builder_rep b ex_nodes prows.
Proof.
  pose proof (NewBuilder_rep 1) as H0. unfold ex_staging.
  destruct (stage_node _ _ _ 10 [1%Z] "A" H0) as (b1 & r1 & E1 & R1); [done..|].
  unfold go_bind at 1. rewrite E1.
  assert (r1 = inl ()) as -> by (vm_compute in E1; by injection E1). destruct (R1 eq_refl) as (es1 & H1).
  destruct (stage_node _ _ _ 20 [2%Z] "B" H1) as (b2 & r2 & E2 & R2);
    [vm_compute in E1; injection E1 as <-; done..|].
  cbn [mbind option_bind]. unfold go_bind at 1. rewrite E2.
  assert (r2 = inl ()) as -> by (vm_compute in E1; injection E1 as <-; vm_compute in E2; by injection E2).
  destruct (R2 eq_refl) as (es2 & H2).
  destruct (stage_node _ _ _ 30 [1%Z; 2%Z] "A" H2) as (b3 & r3 & E3 & R3);
    [vm_compute in E1; injection E1 as <-; vm_compute in E2; injection E2 as <-; done..|].
  cbn [mbind option_bind]. rewrite E3.
  assert (r3 = inl ()) as -> by (vm_compute in E1; injection E1 as <-; vm_compute in E2; injection E2 as <-; vm_compute in E3; by injection E3).
  destruct (R3 eq_refl) as (es3 & H3). exists b3. eexists. split; [done|exact H3].
Qed.

(** Edges and kinds are staged beside the nodes. *)
Lemma AddEdge_rep b nodes prows id s e k : Builder_rep b nodes prows → Builder_rep (AddEdge b id s e k) nodes prows.
Proof. by intros []; split. Qed.
Lemma SetKinds_rep b nodes prows ks : Builder_rep b nodes prows → Builder_rep (SetKinds b ks) nodes prows.
Proof. by intros []; split. Qed.

Lemma ex_builder_rep : ∃ prows, Builder_rep ex_builder ex_nodes prows ∧ b_edges ex_builder = ex_edges ∧
  b_kindTable ex_builder = ex_kinds ∧ b_graphID ex_builder = 1%Z.
Proof.
  destruct ex_staged as (b & prows & E & Hb). exists prows. unfold ex_builder. split; [|split; [vm_compute; reflexivity|split; [reflexivity|vm_compute; reflexivity]]].
  rewrite E. by apply SetKinds_rep, AddEdge_rep, AddEdge_rep, AddEdge_rep, AddEdge_rep.
Qed.

Lemma ex_parsed_decodable s : bag_decodable (parsed_bag (ex_parsed s)).
Proof.
  intros name v Hv. unfold parsed_bag, bag_of in Hv. simpl in Hv.
  apply lookup_insert_Some in Hv as [[_ <-]|[_ Hv]]; [by eexists|].
  apply lookup_insert_Some in Hv as [[_ <-]|[_ Hv]]; [by eexists|]. by rewrite lookup_empty in Hv.
Qed.

Lemma ex_decodable nd : nd ∈ ex_nodes → bag_decodable (nd_bag nd).
Proof.
  unfold ex_nodes. rewrite !elem_of_cons.
  intros [->|[->|[->|Hnil]]]; [apply ex_parsed_decodable..|by apply not_elem_of_nil in Hnil].
Qed.

Definition ex_snapshot : option Snapshot := Build ex_builder.

(** What is computed of an option's value. *)
Lemma computed {A B} (o : option A) x (f : A → B) b : o = Some x → f <$> o = Some b → f x = b.
Proof. intros ->. by injection 1. Qed.

Lemma ex_snapshot_rep : ∃ s L, ex_snapshot = Some s ∧ Snapshot_rep s L ∧ NoDup (lo_edges L).*1 ∧
  lo_ids L = [10; 20; 30] ∧ base_graph L = staged_graph ex_nodes ex_edges.
Proof.
  destruct ex_builder_rep as (prows & Hb & He & Hk & _).
  destruct (NewKindTable_table ex_kinds) as (t & Ht & _).
  destruct (Build_ok ex_builder ex_nodes prows t Hb) as (s & L & E & Hs & HL & _);
    [done|by rewrite He|exact ex_decodable|by rewrite Hk|].
  exists s, L. rewrite He in HL. destruct (built_graph _ _ _ HL) as [Hnd Hg]; [by apply (bool_decide_unpack _)|].
  split; [done|]. split; [done|]. split; [done|]. split; [apply HL|done].
Qed.

(** ** The segment *)

(** A new node, an edge to it, one edge gone, and an edge whose end is missing. *)
Definition ex_segment_builder : SegmentBuilder :=
  let b := match AddNodeState 40 [2%Z] (ex_parsed "C") SegmentBuilder_zero with
           | Some (b, _) => b | None => SegmentBuilder_zero end in
  AddEdgeState (TombstoneEdge (AddEdgeState b 104 30 40 3%Z) 102) 105 10 99 3%Z.
Definition ex_segment : Segment := SegmentBuilder_Build ex_segment_builder.
Definition ex_delta : delta :=
  mkDelta {[40 := Some ([2%Z], parsed_bag (ex_parsed "C"))]}
    (<[105 := Some (10, 99, 3%Z)]> (<[102 := None]> {[104 := Some (30, 40, 3%Z)]})) ∅.

Lemma ex_segment_rep : Segment_rep ex_segment ex_delta.
Proof.
  apply SegmentBuilder_Build_rep. unfold ex_segment_builder.
  destruct (AddNodeState_rep SegmentBuilder_zero (mkDelta ∅ ∅ ∅) 40 [2%Z] (ex_parsed "C")
    SegmentBuilder_zero_rep (ex_parsed_names "C")) as (b & r & E & Hr).
  assert (r = inl ()) as -> by (vm_compute in E; by injection E). rewrite E.
  exact (AddEdgeState_rep _ _ _ _ _ _ (TombstoneEdge_rep _ _ _ (AddEdgeState_rep _ _ _ _ _ _ Hr))).
Qed.

(** ** The views *)

Definition ex_view : option View := s ← ex_snapshot; Some (WithSegment (NewView s) ex_segment).

Lemma ex_view_rep : ∃ v L, ex_view = Some v ∧ View_rep v L [ex_delta] ∧ View_NodeCount v < 2 ^ 31 ∧
  base_graph L = staged_graph ex_nodes ex_edges.
Proof.
  destruct ex_snapshot_rep as (s & L & E & Hs & Hnd & Hi & Hg). unfold ex_view. rewrite E.
  exists (WithSegment (NewView s) ex_segment), L. split; [done|].
  assert (View_NodeCount (WithSegment (NewView s) ex_segment) = 4) as Hn.
  { apply (computed ex_view); [unfold ex_view; by rewrite E|vm_compute; reflexivity]. }
  split_and!; [|rewrite Hn; reflexivity|exact Hg]. split; [exact Hs| |exact Hnd|rewrite Hn; reflexivity].
  constructor; [apply ex_segment_rep|constructor].
Qed.
