(* ===== verification/EngineExample.v ===== *)
(** * A concrete engine

    A database of two nodes and an edge, the engine that has loaded it, and a
    write that adds a node, found by its objectid, and an edge to it, recorded as
    a triple. The witnesses about the engine are evaluated on it.

    The properties of a node are a text that is its objectid: [text_JsonStd] reads
    it as the object that has it. *)

From S2P Require Import Prelude Bitset Csr Kinds Props Snapshot Builder Segment ParseProps View ViewAdj ViewKinds EdgeKinds Fold FoldGraph.
From S2P Require Import Ledger ChangeSet Apply Candidates Readback ReadbackRuns ReadbackSpec BootGap Sizes Engine Compact WriteThrough WriteApply.
From S2P Require Import SnapshotFile LoadNodes Load Replica Example.
From Stdlib Require Import Ascii.
From stdpp Require Import options.
Unset Default Proof Using.
#[local] Open Scope N_scope.

(** ** JSON *)

Definition text_JsonStd : JsonStd := {|
  unmarshal_raw b := Some {["objectid"%string := "034"%char :: b]};
  unmarshal_string val := match val with c :: t => if Ascii.eqb c "034" then Some t else None | [] => None end;
  unmarshal_float _ := None;
  TrimSpace b := b;
  FormatFloat _ := [];
|}.
#[export] Existing Instance text_JsonStd.
#[export] Instance text_JsonLaws : JsonLaws.
Proof.
  split; intros b raw name val v [= <-]; simpl; intros [_ <-]%lookup_singleton_Some [=].
Qed.

(** ** The database, before and after *)

Definition en_kinds : gmap KindID string := list_to_map [(1%Z, "User"%string); (2%Z, "Group"%string); (3%Z, "MemberOf"%string)].
Definition en_node (kind : KindID) (oid : string) : dbNode := mkDbNode [kind] (text oid).
Definition en_db : database :=
  mkDatabase (list_to_map [(10, en_node 1 "A"); (20, en_node 2 "B")]) (list_to_map [(100, (10, 20, 3%Z))]) en_kinds.
Definition en_db2 : database :=
  mkDatabase (list_to_map [(10, en_node 1 "A"); (20, en_node 2 "B"); (30, en_node 2 "C")])
    (list_to_map [(100, (10, 20, 3%Z)); (101, (20, 30, 3%Z))]) en_kinds.

Definition en_pg_objectid : bytes → option string := objectIDFromProps.
Definition en_changes : ChangeSet := RecordEdgeTriple (RecordNodeObjectID ChangeSet_zero "C") 20 30 (Some "MemberOf"%string).
Definition en_scope : WriteScope := SetWatermark (mkWriteScope en_changes 0 false false) 1.

Definition en_answers : load_answers :=
  mkLoadAnswers true (Some [(1%Z, "User"%string); (2%Z, "Group"%string); (3%Z, "MemberOf"%string)])
    (Some [(10, en_node 1 "A"); (20, en_node 2 "B")]) (Some [(100, (10, 20, 3%Z))]) (Some 1) (Some 0) None.

(** ** The engine *)

Definition en_config : Config := mkConfig true 1000000 1 DefaultCompactBytes.
Definition en_loaded : option ((Snapshot * loadedWatermark) + load_err) := loadSnapshot (Some 1%Z) true true en_answers.
Definition en_serving : option Engine :=
  match en_loaded with
  | Some (inl (snap, w)) => Some (rebuild_end (engine_new en_config) 0 0 (Some (snap, Snapshot_ApproxBytes snap, loaded_counter w))).1
  | _ => None
  end.
Definition en_applied : option Engine :=
  e ← en_serving; Some (Engine_Apply en_pg_objectid (λ _, Some en_db2) (Some 1%Z) 0%Z e (Some en_scope)).

(** ** What holds of them *)

Definition en_ever : gset N := {[10; 20]}.
Definition en_ever2 : gset N := {[10; 20; 30]}.

(** A row of a concrete table. *)
Ltac row_cases H := apply elem_of_list_to_map_2 in H;
  repeat (apply elem_of_cons in H as [H|H]; [injection H as H; subst|]); try (by apply not_elem_of_nil in H).
Ltac row := vm_compute; (reflexivity || eexists; reflexivity).

Ltac database_rows := split; unfold db_node, db_edge, db_kind, en_db, en_db2, en_kinds;
  [ intros id [n Hn]; row_cases Hn; reflexivity
  | intros e s t k He; row_cases He; split_and!; reflexivity
  | intros e s t k He; row_cases He; split; row
  | intros e e' x He He'; row_cases He; row_cases He'; congruence
  | intros k k' name Hk Hk'; row_cases Hk; row_cases Hk'; congruence
  | intros k name Hk; row_cases Hk; lia ].

Lemma en_db_ok : database_ok en_db.
Proof. database_rows. Qed.
Lemma en_db2_ok : database_ok en_db2.
Proof. database_rows. Qed.

Lemma en_nodes2 : db_node en_db2 = <[30 := en_node 2 "C"]> (db_node en_db).
Proof. by vm_compute. Qed.
Lemma en_edges2 : db_edge en_db2 = <[101 := (20, 30, 3%Z)]> (db_edge en_db).
Proof. by vm_compute. Qed.

Ltac fine_rows Hok := split; [exact Hok| | |set_solver| | |by vm_compute];
  [ intros id n Hn; unfold db_node, en_db, en_db2 in Hn; row_cases Hn; row
  | intros id n k Hn Hk; unfold db_node, en_db, en_db2 in Hn; row_cases Hn; apply list_elem_of_singleton in Hk as ->; row
  | intros id [n Hn]; unfold db_node, en_db, en_db2 in Hn; row_cases Hn; set_solver
  | intros e s t k Hh ].

Lemma en_fine : database_fine en_db (db_edge en_db) en_ever.
Proof.
  fine_rows en_db_ok. unfold db_edge, en_db in Hh. row_cases Hh. set_solver.
Qed.
Lemma en_fine2 : database_fine en_db2 (db_edge en_db2 ∪ db_edge en_db) en_ever2.
Proof.
  fine_rows en_db2_ok. assert (db_edge en_db2 ∪ db_edge en_db = db_edge en_db2) as E by (by vm_compute). rewrite E in Hh.
  unfold db_edge, en_db2 in Hh. row_cases Hh; set_solver.
Qed.

Lemma en_commit : commit_ok en_pg_objectid en_db (db_edge en_db) en_ever [] (Some en_scope) en_db2 en_ever2.
Proof.
  split; [done|set_solver| | | | | | |by intros ? ? ? ? ?%not_elem_of_nil]; rewrite ?en_nodes2, ?en_edges2.
  - intros id Hno [n Hn]. apply lookup_insert_Some in Hn as [[<- _]|[_ Hn]]; [unfold en_ever; set_solver|congruence].
  - intros e x Hx. apply lookup_insert_Some in Hx as [[<- _]|[_ Hx]]; [by right|by left].
  - intros id n n' oid Hn Hn'. apply lookup_insert_Some in Hn' as [[<- _]|[_ Hn']]; [done|]. by simplify_eq.
  - left. simpl. intros id Hid. by apply not_elem_of_nil in Hid.
  - intros id Hne. right. simpl. right. left. destruct (decide (id = 30)) as [->|Hid]; [|by rewrite lookup_insert_ne in Hne].
    exists (en_node 2 "C"), "C"%string. split_and!; [reflexivity|reflexivity|by vm_compute; left].
  - intros e Hne. left. right. simpl. right. right. left. destruct (decide (e = 101)) as [->|He]; [|by rewrite lookup_insert_ne in Hne].
    exists (mkTripleRef 20 30 (Some "MemberOf"%string)), "MemberOf"%string, 3%Z. split_and!; [by vm_compute; left|reflexivity|reflexivity|reflexivity].
Qed.

Lemma en_answers_of : answers_of en_db en_answers.
Proof.
  split; [done| | | |by eexists]; eexists; (split; [done|]); split.
  - by apply (bool_decide_unpack _).
  - intros k name. unfold db_kind, en_db, en_kinds. apply elem_of_list_to_map. by apply (bool_decide_unpack _).
  - simpl. repeat constructor; lia.
  - intros id n. unfold db_node, en_db. apply elem_of_list_to_map. by apply (bool_decide_unpack _).
  - by apply (bool_decide_unpack _).
  - intros e x. unfold db_edge, en_db. apply elem_of_list_to_map. by apply (bool_decide_unpack _).
Qed.
Lemma en_load_fits : load_fits en_db.
Proof. by vm_compute. Qed.

(** ** A run *)

Definition en_start : system := mkSystem en_db (engine_new en_config) [] [] [] (db_edge en_db) en_ever.
Definition en_hist2 : gmap N edge_state := db_edge en_db2 ∪ db_edge en_db.

Lemma en_start_ok : start en_start.
Proof. exists en_db, en_config, en_ever. split_and!; [done|apply en_fine|done]. Qed.

(** The engine loads, the write commits, and is applied. *)
Lemma en_run_loaded : ∃ e, en_serving = Some e ∧
  rtc (step en_pg_objectid) en_start (mkSystem en_db e [] [] [] (db_edge en_db) en_ever).
Proof.
  unfold en_serving. destruct en_loaded as [[[snap w]|]|] eqn:El; [|vm_compute in El; discriminate..].
  eexists. split; [reflexivity|]. eapply rtc_l; [apply (step_rebuild_begin en_pg_objectid en_db (engine_new en_config) [] [] [] (db_edge en_db) en_ever)|].
  eapply rtc_l; [apply (step_rebuild_load en_pg_objectid en_db _ [] [] [] 0 0 [] _ _ _ _ snap w en_answers_of en_load_fits El)|].
  apply rtc_once, (step_rebuild_end en_pg_objectid en_db (rebuild_begin (engine_new en_config)).1.1 [] [] [] [] 0 0 snap w).
Qed.

Lemma en_serving_facts : (λ e, (e_state e, e_applyEpoch e)) <$> en_serving = Some (stateServing, 0).
Proof. by vm_compute. Qed.

Lemma en_run : ∃ e, en_applied = Some e ∧ rtc (step en_pg_objectid) en_start (mkSystem en_db2 e [] [] [] en_hist2 en_ever2).
Proof.
  destruct en_run_loaded as (e & Ee & Hr). unfold en_applied. rewrite Ee. cbn [mbind option_bind]. eexists. split; [reflexivity|].
  pose proof en_serving_facts as Hf. rewrite Ee in Hf. injection Hf as _ He.
  etrans; [exact Hr|]. eapply rtc_l; [apply (step_commit _ _ _ _ _ _ _ _ _ _ _ en_commit en_fine2)|].
  apply rtc_once, (step_apply en_pg_objectid en_db2 e [] [] (Some en_scope)); [by intros _ d' [= <-]|].
  unfold epoch_room. rewrite He. done.
Qed.
Lemma en_applied_facts : (λ e, (e_state e, e_applyEpoch e)) <$> en_applied = Some (stateServing, 1).
Proof. by vm_compute. Qed.

(** ** A file *)

Definition en_file_answers : load_answers :=
  mkLoadAnswers true (ans_kinds en_answers) (ans_nodes en_answers) (ans_edges en_answers) (Some 1) (Some 0) (Some (range 1 17)).
Definition en_file : option ((Snapshot * loadedWatermark) + load_err) := loadSnapshot (Some 1%Z) true true en_file_answers.
Definition en_stamp : Stamp := mkStamp 0 20 100.
Definition en_boot_events : list gap_event := [GObserve (Some en_scope)].
Definition en_booting : Engine := with_gap (engine_new en_config) (foldl gap_step (gap_activate bootGap_zero) en_boot_events).
