(* ===== verification/QueryExample.v ===== *)
(** * A concrete query

    Expressions enough to write [WHERE a.p = b.q], and on the example view the
    query [MATCH p = (a:User)-[:MemberOf*1..2]->(b), (c) WHERE a.objectid =
    c.objectid]: two components, of which the second is joined by hash. *)

From S2P Require Import Prelude Bitset Csr Snapshot Builder Segment View ViewAdj EdgeKinds Traverse ViewTraverse Example Rows Values Scan Hops Trails Components Matching ComponentRuns ComponentPaths Joins JoinRuns Optional Stages.
From Stdlib Require Import String.
From stdpp Require Import options.
Unset Default Proof Using.
#[local] Open Scope N_scope.

(** ** Expressions *)

Inductive qx_expr := XProp (s p : string) | XEq (a b : qx_expr).
Definition qx_value (v : View) (r : Row) (e : qx_expr) : option any :=
  match e with
  | XProp s p =>
      n ← Node r s;
      match PropValueByName v n p with Some (Some x) => if value_ok x then Some x else None | _ => None end
  | XEq _ _ => None
  end.
Fixpoint qx_mentions (e : qx_expr) : gset string :=
  match e with XProp s _ => {[s]} | XEq a b => qx_mentions a ∪ qx_mentions b end.
#[export] Instance qx_Cypher : Cypher := {|
  Expression := qx_expr;
  EvalPredicate v r e := inl (match e with XEq a b => PropEq (qx_value v r a) (qx_value v r b) | XProp _ _ => TriNull end);
  EvalValue v r e := inl (SAny <$> qx_value v r e);
  mentions := qx_mentions;
  property_equalities e := match e with XEq (XProp s p) (XProp t q) => [((XProp s p, s), (XProp t q, t))] | _ => [] end;
  kindOnlyPredicate _ := false;
  negatedPredicate _ := false;
|}.

Lemma qx_value_local v r r' e : same_on (qx_mentions e) r r' → qx_value v r e = qx_value v r' e.
Proof. destruct e as [s p|a b]; [|done]. intros Hs. simpl in *. destruct (Hs s) as (-> & _); [by apply elem_of_singleton|done]. Qed.
#[export] Instance qx_laws : CypherLaws.
Proof.
  split; simpl.
  - intros v r r' [s p|a b] Hs; [done|]. simpl in Hs. rewrite (qx_value_local v r r' a), (qx_value_local v r r' b); [done|..]; intros s Hin; apply Hs; set_solver.
  - intros v r r' e Hs. by rewrite (qx_value_local v r r' e).
Qed.
Lemma qx_value_ok v r e x : qx_value v r e = Some x → value_ok x = true.
Proof.
  destruct e as [s p|]; [|done]. simpl. destruct (Node r s) as [n|]; [|done]. cbn [mbind option_bind].
  destruct (PropValueByName v n p) as [[y|]|]; [|done..]. destruct (value_ok y) eqn:Ey; [|done]. by intros [= <-].
Qed.
#[export] Instance qx_equalities : EqualityLaws.
Proof.
  split; simpl.
  - intros v r w e Ht He. destruct w as [|[s p|] [t q|]]; try (by apply not_elem_of_nil in He). apply list_elem_of_singleton in He as ->. cbn [fst snd].
    change (inl (PropEq (qx_value v r (XProp s p)) (qx_value v r (XProp t q))) = (inl TriTrue : Tri + goerr)) in Ht. revert Ht.
    generalize (qx_value v r (XProp s p)) (qx_value v r (XProp t q)). intros [x|] [y|]; try done. simpl. intros Ht.
    exists x, y. split; [done|]. split; [done|]. by destruct (jsonbEqual x y).
  - intros w e He. destruct w as [|[s p|] [t q|]]; try (by apply not_elem_of_nil in He). by apply list_elem_of_singleton in He as ->.
  - intros v r w e x _ [He|He]; injection He as He; [destruct (qx_value v r e.1.1) as [y|] eqn:Ey|destruct (qx_value v r e.2.1) as [y|] eqn:Ey]; try done;
      injection He as <-; by eapply qx_value_ok.
Qed.

(** ** The part *)

Definition qx_step : Step :=
  mkStep "a" EmptyString "b" DirectionOutbound [3%Z] (Some (mkRange 1 2)) ShortestNone "p" false false 0.
Definition qx_any : NodeConstraint := mkNodeConstraint [] [] None [] [] false.
Definition qx_nodes : gmap string NodeConstraint :=
  <["a" := mkNodeConstraint [1%Z] [] None [] [] false]> (<["b" := qx_any]> {["c" := qx_any]})%string.
Definition qx_part : Part :=
  mkPart [qx_step] qx_nodes (Some (XEq (XProp "a" "objectid") (XProp "c" "objectid"))) None None [].
Definition qx_comps : list component := [mkComponent ["a"; "b"]%string [0%nat]; mkComponent ["c"%string] []].

Lemma qx_groups : groupComponents qx_part = Some qx_comps.
Proof. vm_compute. reflexivity. Qed.
Lemma qx_chain i st : Chains qx_part !! i = Some st → i = 0%nat ∧ st = qx_step.
Proof. destruct i as [|[|i]]; simpl; [by intros [= <-]|done..]. Qed.
Lemma qx_node s nc : qx_nodes !! s = Some nc → (s = "a" ∨ s = "b" ∨ s = "c")%string ∧ nc_IDs nc = [] ∧ Predicates nc = [] ∧ PropIndexed nc = false.
Proof.
  unfold qx_nodes. intros [[<- <-]|[_ [[<- <-]|[_ [<- <-]%lookup_singleton_Some]]%lookup_insert_Some]]%lookup_insert_Some; split_and!; auto.
Qed.
Lemma qx_visible s : (s = "a" ∨ s = "b" ∨ s = "c" ∨ s = "p")%string → visible_sym s.
Proof. intros [->|[->|[->| ->]]]; split; by intros. Qed.
Lemma qx_part_ok v : part_ok v qx_part.
Proof.
  constructor.
  - intros i st [-> ->]%qx_chain. constructor; simpl.
    + apply elem_of_dom. by eexists.
    + apply elem_of_dom. by eexists.
    + done.
    + intros range [= <-]. simpl. split; [done|lia].
    + by left.
    + right. split; [apply qx_visible; auto|]. by intros [nc [Ha _]%qx_node]%elem_of_dom; destruct Ha as [|[|]].
  - intros i j st st' [-> ->]%qx_chain [-> ->]%qx_chain. done.
  - intros s nc (Hs & Hi & Hp & Hx)%qx_node. split; [apply qx_visible; tauto|]. split; [|by rewrite Hp; intros p ?%not_elem_of_nil].
    split; [by rewrite Hx|]. rewrite Hi. by intros x y ?%not_elem_of_nil.
Qed.
Lemma qx_patterns_ok : patterns_ok qx_part.
Proof.
  constructor.
  - intros i j st st' [_ ->]%qx_chain [_ ->]%qx_chain. done.
  - intros i j st st' [_ ->]%qx_chain [_ ->]%qx_chain. done.
  - intros i st k [_ ->]%qx_chain. simpl. intros ->%list_elem_of_singleton. done.
  - intros i st [_ ->]%qx_chain. done.
  - intros w s [= <-]. simpl. intros [->%elem_of_singleton| ->%elem_of_singleton]%elem_of_union; apply qx_visible; auto.
Qed.

(** ** Running it *)

Definition qx_budget : Budgets := mkBudgets 100 1000 100.
Definition qx_start : exec_state := mkExecState 0 0 0 0 0 (mkEkMemo ∅ ∅).
Lemma qx_memo v L : memo_ok v L (x_memo qx_start).
Proof. split; intros key l Hl; simpl in Hl; by rewrite lookup_empty in Hl. Qed.
Definition qx_no_shortest (part : Part) (step : Step) : go exec_state (list Row) := go_err ErrUnsupportedStep.
Definition qx_run (v : View) : option (exec_state * (list Row + goerr)) :=
  (let! rows := matchPart v qx_budget None 1000 None qx_no_shortest qx_part in filterRows v rows (Where qx_part))%go qx_start.
Definition qx_rows (r : option (exec_state * (list Row + goerr))) : option (list (list (option NodeID) * N)) :=
  match r with
  | Some (_, inl rows) => Some ((λ r, (Node r <$> ["a"; "b"; "c"]%string, len (default [] (pv_Edges <$> PathVar r "p")))) <$> rows)
  | _ => None
  end.
Definition qx_answer : list (list (option NodeID) * N) :=
  [([Some 0; Some 1; Some 0], 1); ([Some 0; Some 1; Some 2], 1); ([Some 0; Some 2; Some 0], 2);
   ([Some 0; Some 2; Some 2], 2); ([Some 2; Some 3; Some 0], 1); ([Some 2; Some 3; Some 2], 1)].
Lemma qx_runs v : ex_view = Some v → qx_rows (qx_run v) = Some qx_answer.
Proof. intros E. apply (computed ex_view v (λ v, qx_rows (qx_run v)) _ E). vm_compute. reflexivity. Qed.

(** ** With an OPTIONAL MATCH

    [MATCH (a) OPTIONAL MATCH (a)-[:MemberOf]->(b)]. *)

Definition qo_step : Step := mkStep "a" EmptyString "b" DirectionOutbound [3%Z] None ShortestNone EmptyString false false 0.
Definition qo_opt : Part := mkPart [qo_step] (<["a" := qx_any]> {["b" := qx_any]})%string None None None [].
Definition qo_part : Part := mkPart [] {["a" := qx_any]}%string None None (Some qo_opt) ["a"%string].
Definition qo_comps : list component := [mkComponent ["a"%string] []].
Definition qo_opt_comps : list component := [mkComponent ["a"; "b"]%string [0%nat]].

Lemma qo_node s nc : Nodes qo_part !! s = Some nc ∨ Nodes qo_opt !! s = Some nc → (s = "a" ∨ s = "b" ∨ s = "c")%string ∧ nc = qx_any.
Proof.
  intros [Hs|Hs]; simpl in Hs; [apply lookup_singleton_Some in Hs as [<- <-]; auto|].
  apply lookup_insert_Some in Hs as [[<- <-]|[_ [<- <-]%lookup_singleton_Some]]; auto.
Qed.
Lemma qo_node_ok v s nc : nc = qx_any → (s = "a" ∨ s = "b" ∨ s = "c")%string →
  visible_sym s ∧ nc_proper v (Some nc) ∧ ∀ p, p ∈ Predicates nc → mentions p ⊆ {[s]}.
Proof.
  intros -> Hs. split; [apply qx_visible; tauto|]. split; [|by intros p ?%not_elem_of_nil]. split; [done|by intros x y ?%not_elem_of_nil].
Qed.
Lemma qo_chain i st : Chains qo_opt !! i = Some st → i = 0%nat ∧ st = qo_step.
Proof. destruct i as [|[|i]]; simpl; [by intros [= <-]|done..]. Qed.
Lemma qo_pushed v L Ds part comps : (∀ s nc, Nodes part !! s = Some nc → nc = qx_any) → pushed_down v L Ds part comps.
Proof. intros Hn M s n _ _. destruct (Nodes part !! s) as [nc|] eqn:Enc; [|done]. apply Hn in Enc as ->. done. Qed.

Lemma qo_part_fine v L Ds : part_fine v L Ds 1000 qo_part qo_comps.
Proof.
  constructor; [|constructor; by intros| |apply qo_pushed; intros s nc Hs; by apply (qo_node s); left|by intros i].
  - constructor; [by intros..|]. intros s nc Hs. destruct (qo_node s nc (or_introl Hs)) as [Ha ->]. by apply qo_node_ok.
  - vm_compute. reflexivity.
Qed.
Lemma qo_opt_fine v L Ds : part_fine v L Ds 1000 qo_opt qo_opt_comps.
Proof.
  constructor; [| | |apply qo_pushed; intros s nc Hs; by apply (qo_node s); right|].
  - constructor.
    + intros i st [_ ->]%qo_chain. constructor; simpl; try done; [by apply elem_of_dom; eexists..|by left|by left].
    + intros i j st st' [-> ->]%qo_chain [-> ->]%qo_chain. done.
    + intros s nc Hs. destruct (qo_node s nc (or_intror Hs)) as [Ha ->]. by apply qo_node_ok.
  - constructor; [by intros i j st st' [_ ->]%qo_chain [_ ->]%qo_chain..| |by intros i st [_ ->]%qo_chain|done].
    intros i st k [_ ->]%qo_chain. simpl. by intros ->%list_elem_of_singleton.
  - vm_compute. reflexivity.
  - by intros i st range [_ ->]%qo_chain.
Qed.

Definition qo_run (v : View) : option (exec_state * (list Row + goerr)) := matchPartPlain v qx_budget None 1000 (λ _, None) qx_no_shortest qo_part qx_start.
Definition qo_rows (r : option (exec_state * (list Row + goerr))) : option (list (option NodeID * option NodeID)) :=
  match r with Some (_, inl rows) => Some ((λ r, (Node r "a", Node r "b")) <$> rows) | _ => None end.
Lemma qo_runs v : ex_view = Some v → qo_rows (qo_run v) = Some [(Some 0, Some 1); (Some 1, Some 2); (Some 2, Some 3); (Some 3, None)].
Proof. intros E. apply (computed ex_view v (λ v, qo_rows (qo_run v)) _ E). vm_compute. reflexivity. Qed.

(** ** With a stage

    [WITH a.objectid AS d, a, true AS k, COUNT(DISTINCT b) AS n, COLLECT(b) AS m]. *)

Definition qw_row (a b : NodeID) : Row := SetNode (SetNode NewRow "a" a) "b" b.
Definition qw_rows : list Row := [qw_row 0 1; qw_row 2 3; qw_row 0 1; qw_row 0 2].
Definition qw_count : WithAggregate := mkWithAggregate "n" (Some (mkCountAgg true "b" false)) None.
Definition qw_collect : WithAggregate := mkWithAggregate "m" None (Some (mkCollectMembershipAgg "b")).
Definition qw_clause : WithClause :=
  mkWithClause false ["d"; "a"]%string [qw_count; qw_collect] [mkWithConstant "k" (ABool true)] [mkWithComputed "d" (XProp "a" "objectid")].
Definition qw_computed (v : View) : list Row := computed_row v qw_clause <$> qw_rows.
Definition qw_run (v : View) : option (exec_state * (list Row + goerr)) := runWithStage v qx_budget None qw_clause qw_rows qx_start.
(** Of a row: the group's node and property, the constant and the aggregates. *)
Definition qw_shown (v : View) (r : Row) : option cell * option cell * list (option scalar) := (cell_of v r "d", cell_of v r "a", Scalar r <$> ["k"; "n"]%string).

Definition qw_answer : list (option cell * option cell * list (option scalar)) :=
  [(Some (CValue (AString "A")), Some (CNode 10), [Some (SAny (ABool true)); Some (SAny (AFloat (2 ^ 62)))]);
   (Some (CValue (AString "A")), Some (CNode 30), [Some (SAny (ABool true)); Some (SAny (AFloat (1023 * 2 ^ 52)))])].
Lemma qw_runs v : ex_view = Some v → match qw_run v with Some (_, inl out) => Some (qw_shown v <$> out) | _ => None end = Some qw_answer.
Proof. intros E. apply (computed ex_view v (λ v, match qw_run v with Some (_, inl out) => Some (qw_shown v <$> out) | _ => None end) _ E). vm_compute. reflexivity. Qed.
Lemma qw_aliases : let aliases := (wk_Alias <$> Constants qw_clause) ++ (wa_Alias <$> Aggregates qw_clause) in NoDup aliases ∧ ∀ x, x ∈ GroupKeys qw_clause → x ∉ aliases.
Proof.
  split; [by apply (bool_decide_unpack _)|]. intros x. simpl. rewrite !elem_of_cons. intros [->|[->|Hn]]; [by intros [?|[?|[?|?%not_elem_of_nil]]]..|by apply not_elem_of_nil in Hn].
Qed.
Lemma qw_cells v : ex_view = Some v → (λ r, (cell_of v r "d", cell_of v r "a", cell_of v r "b")) <$> qw_computed v =
  [(Some (CValue (AString "A")), Some (CNode 10), Some (CNode 20)); (Some (CValue (AString "A")), Some (CNode 30), Some (CNode 40));
   (Some (CValue (AString "A")), Some (CNode 10), Some (CNode 20)); (Some (CValue (AString "A")), Some (CNode 10), Some (CNode 30))].
Proof. intros E. apply (computed ex_view v (λ v, (λ r, (cell_of v r "d", cell_of v r "a", cell_of v r "b")) <$> qw_computed v) _ E). vm_compute. reflexivity. Qed.
Lemma cell_of_node v r s n c : Node r s = Some n → cell_of v r s = Some c → is_Some (View_GraphID v n).
Proof. unfold cell_of. intros ->. destruct (View_GraphID v n); [by eexists|done]. Qed.
Lemma qw_rows_ok v : ex_view = Some v → ∀ r, r ∈ computed_row v qw_clause <$> qw_rows →
  (∃ cs, row_tuple v (GroupKeys qw_clause) r cs) ∧ ∀ agg, agg ∈ Aggregates qw_clause → readable v agg r.
Proof.
  intros E r Hr. pose proof (qw_cells v E) as Hc. clear E. fold (qw_computed v) in Hr. apply list_elem_of_lookup in Hr as [i Hi].
  assert (∃ a b, cell_of v r "d" = Some (CValue (AString "A")) ∧ cell_of v r "a" = Some (CNode a) ∧ cell_of v r "b" = Some (CNode b) ∧ a < 2 ^ 64 ∧ b < 2 ^ 64) as (a & b & Hd & Ha & Hb & La & Lb).
  { apply (f_equal (.!! i)) in Hc. rewrite list_lookup_fmap, Hi in Hc. do 4 (destruct i as [|i]; [injection Hc as -> -> ->; eexists _, _; split_and!; [done..|lia|lia]|]). discriminate Hc. }
  split.
  - exists [CValue (AString "A"); CNode a]. by repeat constructor.
  - intros agg [->|[->|Hn%not_elem_of_nil]%elem_of_cons]%elem_of_cons; [| |done]; split; intros c; simpl; try done.
    + intros [= <-]. by exists (CNode b).
    + intros n [= <-] En. by eapply cell_of_node.
Qed.

(** [RETURN DISTINCT a, b.p], of which the property is absent or null. *)
Definition qd_rows : list (Row * list OutVal) := (λ x : NodeID * option scalar, (qw_row x.1 1, [OutNode x.1; OutScalar x.2])) <$>
  [(0, None); (2, Some (SAny ANil)); (0, Some (SAny ANil)); (0, None)].
Definition qd_shown (v : View) (x : Row * list OutVal) : list (option cell) := out_cell v <$> x.2.
Lemma qd_rows_ok v : ex_view = Some v → ∀ x : Row * list OutVal, x ∈ qd_rows → List.length x.2 = 2%nat ∧ ∃ cs, out_tuple v x.2 cs.
Proof.
  intros E x Hx. assert (qd_shown v <$> qd_rows = [[Some (CNode 10); Some CAbsent]; [Some (CNode 30); Some (CValue ANil)]; [Some (CNode 10); Some (CValue ANil)]; [Some (CNode 10); Some CAbsent]]) as Hc.
  { apply (computed ex_view v (λ v, qd_shown v <$> qd_rows) _ E). vm_compute. reflexivity. }
  clear E. apply list_elem_of_lookup in Hx as [i Hi]. apply (f_equal (.!! i)) in Hc. rewrite list_lookup_fmap, Hi in Hc.
  do 4 (destruct i as [|i]; [injection Hi as <-; injection Hc as Hc; split; [done|]; eexists [_; _]; repeat (constructor; [split; [first [exact Hc|reflexivity]|]|]); [..|constructor]; try done; simpl; lia|]). discriminate Hc.
Qed.
