(* ===== verification/FileTheorems.v ===== *)
(** * The snapshot file's theorems

    What is written reads back, what is read was checked, and the file on the
    disk is replaced in one step: [internal/engine/snapshot/file.go] and
    [validate.go]. *)

From S2P Require Import Prelude Bitset Csr Codec Kinds Props Snapshot Builder Validate SnapshotFile Disk Example.
From stdpp Require Import options.
Unset Default Proof Using.
#[local] Open Scope N_scope.

(** ** What is written reads back *)

(** The stamp changes none of the derived fields. *)
Lemma finalize_stamp `{GoStd} s0 s multi lineage : finalizeDerived s0 = Some s →
  finalizeDerived (stamp_load s0 multi lineage) = Some (stamp_load s multi lineage).
Proof.
  unfold finalizeDerived. intros E.
  apply bind_Some in E as ([m bms] & Eb & E). apply bind_Some in E as (seen & Es & E).
  apply bind_Some in E as (loops & El & E). apply bind_Some in E as (props & Ep & E). injection E as <-.
  unfold stamp_load, build_bitmaps, find_self_loops, NodeCount in *. simpl.
  unfold build_bitmaps in Eb. rewrite Eb. simpl. rewrite Es. simpl. rewrite El. simpl. by rewrite Ep.
Qed.

(** The last thing [Build] does. *)
Lemma Build_finalizes `{GoStd} b s : Build b = Some s → ∃ s0, finalizeDerived s0 = Some s.
Proof.
  unfold Build. destruct (resolveEdges _ _) as [dE dropped]. intros E.
  apply bind_Some in E as ([[[? ?] ?] ?] & _ & E). apply bind_Some in E as ([[[? ?] ?] ?] & _ & E).
  apply bind_Some in E as (t & _ & E). by eexists.
Qed.

(** C16: a built snapshot, stamped as a load stamps it, comes back from its file as it
    was, the derived indexes included, and with the stamp it was written with.
    The premises on its fields are their Go types; the kinds it was built with
    have a name and a non-negative id. *)
Theorem snapshot_file_roundtrip `{GoStd} b nodes prows s0 multi lineage stamp : Builder_rep b nodes prows →
  len nodes < 2 ^ 32 → len (b_edges b) < 2 ^ 32 → (∀ nd, nd ∈ nodes → bag_decodable (nd_bag nd)) →
  (∀ id name, b_kindTable b !! id = Some name → (0 ≤ id)%Z ∧ name ≠ EmptyString) →
  Build b = Some s0 → (∀ e, e ∈ ps_entries (Props s0) → e_kind e < 8) →
  let s := stamp_load s0 multi lineage in
  wire_ok s → stamp_ok stamp → ReadSnapshotFile (file_bytes s stamp) = inl (s, stamp).
Proof.
  intros Hb Hn He Hdec Hk E Hkind s Hw Hst. destruct (NewKindTable_table (b_kindTable b)) as (t & Ht & _).
  destruct (Build_ok b nodes prows t Hb Hn He Hdec Ht) as (s1 & L & E1 & Hs & _ & _ & Hkt & _). simplify_eq.
  destruct (Build_finalizes _ _ E) as [s' Hf].
  apply (read_file_bytes (stamp_load s' multi lineage)); [by apply finalize_stamp|done|done|..].
  - change (Kinds s) with (Kinds s0). by rewrite (kinds_of_table _ _ Ht).
  - pose proof (proj1 (st_entries _ (proj1 (wk_store _ Hw)))) as Hlen.
    assert (structure_ok s0) as Ho by (apply (rep_structure _ L); [done| |done]; change (Props s0) with (Props s); lia).
    destruct (validate_spec s Hlen) as (x & Hx & Hiff). apply Hiff. destruct (validate_spec s0 Hlen) as (y & Hy & Hiff0).
    change (validateSnapshotStructure s) with (validateSnapshotStructure s0) in Hx. rewrite Hy in Hx. injection Hx as <-. by apply Hiff0.
Qed.

(** *** The example, loaded *)

Definition ex_stamp : Stamp := mkStamp 5 6 7.
Definition ex_loaded : Snapshot :=
  match ex_snapshot with
  | Some s => stamp_load s false (range 1 17)
  | None => mkSnapshot 0 [] [] [] [] [] [] [] [] [] [] [] 0 (mkKindTable [] ∅) (mkPropStore [] ∅ [] [] [] ∅ ∅) 0 false [] ∅ ∅ ∅ [] []
  end.
Definition ex_file : bytes := file_bytes ex_loaded ex_stamp.

Lemma all_of {A} (f : A → bool) (P : A → Prop) l : (∀ x, f x = true → P x) → forallb f l = true → ∀ x, x ∈ l → P x.
Proof. intros Hf Hl x Hx. apply Hf. by apply (proj1 (forallb_forall f l) Hl), list_elem_of_In. Qed.
Lemma fits_of l n b : (len l =? n) && forallb (λ x, x <? b) l = true → fits l n b.
Proof. intros [<-%N.eqb_eq Hl]%andb_true_iff. split; [done|]. revert Hl. apply all_of. intros x. apply N.ltb_lt. Qed.
Lemma fits16_of l n : (len l =? n) && forallb (λ z, (-32768 <=? z) && (z <? 32768))%Z l = true → fits16 l n.
Proof.
  intros [<-%N.eqb_eq Hl]%andb_true_iff. split; [done|]. revert Hl. apply all_of. unfold is_i16. intros z. lia.
Qed.
Definition entry_okb (e : propEntry) : bool :=
  (e_prop e <? 2 ^ 16) && (e_kind e <? 8) && (e_num e <? 2 ^ 64) && (e_ref e <? 2 ^ 32) && (e_len e <? 2 ^ 32).
Lemma entry_okb_ok e : entry_okb e = true → entry_ok e.
Proof.
  unfold entry_okb. rewrite !andb_true_iff, !N.ltb_lt. intros [[[[? ?] ?] ?] ?]. split; try done. lia.
Qed.

Lemma ex_wire : wire_ok ex_loaded.
Proof.
  split; lazymatch goal with
    | |- fits _ _ _ => apply fits_of; vm_compute; reflexivity
    | |- fits16 _ _ => apply fits16_of; vm_compute; reflexivity
    | |- (_ < _)%N => apply N.ltb_lt; vm_compute; reflexivity
    | |- _ => idtac
    end.
  - split; [apply Z.leb_le|apply Z.ltb_lt]; vm_compute; reflexivity.
  - split; [vm_compute; reflexivity|]. apply (all_of (λ b, b <? 256)); [intros b; by apply N.ltb_lt|vm_compute; reflexivity].
  - split; [apply N.leb_le; vm_compute; reflexivity|].
    apply (all_of (λ name, N.of_nat (String.length name) <? 2 ^ 32)); [intros ?; by apply N.ltb_lt|vm_compute; reflexivity].
  - split; [|vm_compute; reflexivity]. split.
    + split; [apply N.leb_le; vm_compute; reflexivity|].
      apply (all_of (λ name, N.of_nat (String.length name) <? 2 ^ 32)); [intros ?; by apply N.ltb_lt|vm_compute; reflexivity].
    + split; [apply N.ltb_lt; vm_compute; reflexivity|].
      apply (all_of entry_okb); [apply entry_okb_ok|vm_compute; reflexivity].
    + split; [apply N.leb_le; vm_compute; reflexivity|].
      apply (all_of (λ o, o <? 2 ^ 32)); [intros o; by apply N.ltb_lt|vm_compute; reflexivity].
    + apply N.leb_le. vm_compute. reflexivity.
Qed.

Lemma ex_kinds_named id name : ex_kinds !! id = Some name → (0 ≤ id)%Z ∧ name ≠ EmptyString.
Proof.
  intros Hin. apply elem_of_list_to_map_2 in Hin.
  rewrite !elem_of_cons, elem_of_nil in Hin. by destruct Hin as [[= -> ->]|[[= -> ->]|[[= -> ->]|[[= -> ->]|[]]]]].
Qed.

Lemma snapshot_file_roundtrip_witness : ReadSnapshotFile ex_file = inl (ex_loaded, ex_stamp).
Proof.
  destruct ex_builder_rep as (prows & Hb & He & Hk & _). destruct ex_snapshot_rep as (s & L & E & _).
  assert (ex_loaded = stamp_load s false (range 1 17)) as El by (unfold ex_loaded; by rewrite E).
  unfold ex_file. rewrite El.
  apply (snapshot_file_roundtrip ex_builder ex_nodes prows s false (range 1 17) ex_stamp Hb);
    [reflexivity|rewrite He; reflexivity|exact ex_decodable| |exact E| | |].
  - rewrite Hk. exact ex_kinds_named.
  - change (Props s) with (Props (stamp_load s false (range 1 17))). rewrite <- El.
    apply (all_of (λ e, e_kind e <? 8)); [intros ?; by apply N.ltb_lt|vm_compute; reflexivity].
  - rewrite <- El. exact ex_wire.
  - split; [reflexivity|split; [discriminate|reflexivity]..].
Defined.

(** ** What is read was checked *)



(** ** The file on the disk *)

(** C17: whichever system calls fail, in every state the disk goes through the
    path holds what it held before or the whole new file, synced, and no other
    file but the temporary one changes. When the write returns no error the
    path holds the new file and the temporary one is gone; and it returns none
    when no call fails. *)
Theorem WriteSnapshotFile_atomic outcome partial windows tmp path s stamp fs : tmp ≠ path → fs !! tmp = None →
  let '(d, err) := WriteSnapshotFile outcome partial windows tmp path s stamp (mkDisk fs [] 0 []) in
  let new := mkFile (file_bytes s stamp) true in
  (∀ fs', fs' ∈ d_seen d → fs' !! path = fs !! path ∨ fs' = <[path := new]> fs) ∧
  (∀ fs' name, fs' ∈ d_seen d → name ≠ tmp → name ≠ path → fs' !! name = fs !! name) ∧
  (err = None → d_files d = <[path := new]> fs) ∧
  ((∀ n, outcome n = None) → err = None).
Proof.
  intros Hne Hfresh. set (d0 := mkDisk fs [] 0 []).
  assert (quiet tmp fs d0) as Hq0 by (intros fs' name [->|Hin]; [done|by apply not_elem_of_nil in Hin]).
  pose proof (rename_stage outcome partial tmp path fs s stamp d0 Hq0) as Hr.
  pose proof (rename_fine outcome partial tmp path s stamp d0) as Hfine.
  unfold WriteSnapshotFile. destruct (write_and_rename _ _ _ _ _ _ _) as [d1 [e|]]; unfold ends in Hr; simpl in *.
  - split_and!; [|intros fs' name Hin Hn _; apply Hr; by auto|done|by auto].
    intros fs' Hin. left. apply Hr; by auto.
  - destruct Hr as (d2 & Hq & ->). set (d3 := step _ _ d2).
    assert (d_files d3 = <[path := mkFile (file_bytes s stamp) true]> fs) as Hd3.
    { unfold d3. simpl. f_equal. apply map_eq. intros name. destruct (decide (name = tmp)) as [->|Hn].
      - by rewrite lookup_delete_eq.
      - rewrite lookup_delete_ne by done. apply Hq; by auto. }
    assert (∀ fs', fs' ∈ d_seen d3 → (fs' ∈ d_seen d2) ∨ fs' = <[path := mkFile (file_bytes s stamp) true]> fs) as Hseen.
    { intros fs'. unfold d3. simpl. rewrite elem_of_app, list_elem_of_singleton. intros [Hin| ->]; [by left|right; exact Hd3]. }
    pose proof (syncDir_same outcome windows d3) as Hsync. pose proof (syncDir_fine outcome windows d3) as Hsf.
    destruct (syncDir outcome windows d3) as [d4 err]. destruct Hsync as [Hf Hs4]. rewrite Hf, Hd3 in *.
    assert (∀ fs', fs' ∈ d_seen d4 → (fs' ∈ d_seen d2) ∨ fs' = <[path := mkFile (file_bytes s stamp) true]> fs) as Hall.
    { intros fs' [Hin| ->]%Hs4; [by apply Hseen|by right]. }
    split_and!; [| |done|done].
    + intros fs' [Hin| ->]%Hall; [left; apply Hq; by auto|by right].
    + intros fs' name [Hin| ->]%Hall Hn Hp; [apply Hq; by auto|by rewrite lookup_insert_ne].
Qed.

Lemma WriteSnapshotFile_atomic_witness : ∃ d err,
  WriteSnapshotFile (λ n, if n =? 3 then Some EOther else None) (λ _, 5) false "s.tmp" "s" ex_loaded
    ex_stamp (mkDisk {["s" := mkFile [] true]} [] 0 []) = (d, err) ∧
  ∀ fs', fs' ∈ d_seen d → fs' !! "s" = Some (mkFile [] true) ∨
    fs' = <["s" := mkFile (file_bytes ex_loaded ex_stamp) true]> {["s" := mkFile [] true]}.
Proof.
  pose proof (WriteSnapshotFile_atomic (λ n, if n =? 3 then Some EOther else None) (λ _, 5) false "s.tmp" "s"
    ex_loaded ex_stamp {["s" := mkFile [] true]} ltac:(discriminate) eq_refl) as H.
  destruct (WriteSnapshotFile _ _ _ _ _ _ _ _) as [d err]. exists d, err. split; [reflexivity|]. exact (proj1 H).
Defined.
