(* ===== verification/StoreTheorems.v ===== *)
(** * The store's theorems

    The sets, the kind table, the builder, the snapshot it makes and the
    segments: [internal/engine/snapshot] below its view. *)

From S2P Require Import Prelude Bitset Csr Kinds Props Snapshot Builder Segment View ViewAdj Example.
From stdpp Require Import options.
Unset Default Proof Using.
#[local] Open Scope N_scope.

(** ** Sets *)

(** A [Bitset] sized for [cap] ids is the set of the ids put into it:
    [Has] is membership, [Count] the number of distinct ids, and [Iterate]
    visits them in ascending order until the callback stops it. *)
Theorem Bitset_is_set cap (l : list NodeID) : cap < 2 ^ 32 → (∀ i, i ∈ l → i < cap) →
  let b := foldl Bitset_Set (NewBitset cap) l in
  (∀ i, Bitset_Has b i = true ↔ i ∈ l) ∧
  ∃ k, StronglySorted N.lt k ∧ (∀ i, i ∈ k ↔ i ∈ l) ∧ Bitset_Count b = len k ∧
    ∀ S (fn : NodeID → S → option (S * bool)) s, Bitset_Iterate b fn s = iter_until fn k s.
Proof.
  intros Hcap Hl b. destruct (Set_foldl cap (NewBitset cap) l (NewBitset_wf cap Hcap) Hl) as [Hwf Hh]. fold b in Hwf, Hh.
  assert (∀ i, Bitset_Has b i = true ↔ i ∈ l) as Hb.
  { intros i. rewrite Hh, NewBitset_Has by done. naive_solver. }
  split; [done|]. exists (Bitset_elems b). split_and!.
  - by eapply Bitset_elems_sorted.
  - intros i. by rewrite (elem_of_Bitset cap).
  - apply (wf_count _ _ Hwf).
  - intros S fn s. by apply (Bitset_Iterate_spec cap).
Qed.

Lemma Bitset_is_set_witness : Bitset_Has (foldl Bitset_Set (NewBitset 200) [5; 130; 5]) 130 = true.
Proof.
  refine (proj2 (proj1 (Bitset_is_set 200 [5; 130; 5] eq_refl _) 130) _).
  - intros i. rewrite !elem_of_cons, elem_of_nil. intros [->|[->|[->|[]]]]; reflexivity.
  - right. left.
Defined.

(** A [KindMask] for the kinds up to [max] starts empty, [Set] adds exactly
    its kind when that is in range and nothing otherwise, and [SetAll] makes it
    all of [0..max]: the operations never panic, for every [max] a kind id can
    be. *)
Theorem KindMask_is_set max : (0 ≤ max < 2 ^ 15)%Z → ∃ m, NewKindMask max = Some m ∧
  (∀ k, KindMask_Has m k = Some false) ∧
  (∀ ks, ∃ m', foldM KindMask_Set ks m = Some m' ∧
    (∀ k, KindMask_Has m' k = Some (bool_decide (k ∈ ks ∧ (0 ≤ k ≤ max)%Z))) ∧
    ∃ m'', KindMask_SetAll m' = Some m'' ∧ ∀ k, KindMask_Has m'' k = Some (bool_decide (0 ≤ k ≤ max)%Z)).
Proof.
  intros Hm. destruct (NewKindMask_wf max Hm) as (m & E & Hwf & Hmax & Hno). exists m. split; [done|]. split; [done|]. intros ks.
  destruct (foldM_inv (λ pre m', KindMask_wf m' ∧ mmax m' = max ∧
    ∀ k, KindMask_Has m' k = Some (bool_decide (k ∈ pre ∧ (0 ≤ k ≤ max)%Z))) KindMask_Set ks m)
    as (m' & E' & Hwf' & Hmax' & Hh).
  - split; [exact Hwf|]. split; [exact Hmax|]. intros k. by rewrite Hno.
  - intros pre k post m0 _ (Hwf0 & Hmax0 & Hh0).
    destruct (KindMask_Set_spec m0 k Hwf0) as (m1 & E1 & Hwf1 & Hmax1 & Hh1). exists m1. split; [done|].
    split; [exact Hwf1|]. split; [by rewrite Hmax1|]. intros k'. rewrite Hh1, Hh0, Hmax0.
    destruct (bool_decide_reflect (k' = k ∧ (0 ≤ k ≤ max)%Z)) as [[-> Hk]|Hno'].
    + symmetry. f_equal. apply bool_decide_eq_true. split; [apply elem_of_app; right; left|done].
    + f_equal. apply bool_decide_ext. rewrite elem_of_app, list_elem_of_singleton. naive_solver.
  - exists m'. split; [done|]. split; [done|].
    destruct (KindMask_SetAll_spec m' Hwf') as (m'' & E'' & _ & _ & Hh''). exists m''. split; [done|]. by rewrite Hmax' in Hh''.
Qed.

Lemma KindMask_is_set_witness : ∃ m, NewKindMask 32767 = Some m ∧ ∀ k, KindMask_Has m k = Some false.
Proof.
  destruct (KindMask_is_set 32767) as (m & E & Hno & _); [split; [discriminate|reflexivity]|]. exists m. split; [exact E|exact Hno].
Defined.

(** A kind table built from named kinds gives every non-negative kind its
    name and no other kind one, and a name's id is a kind of that name. *)
Theorem NewKindTable_names pairs : (∀ id name, pairs !! id = Some name → name ≠ EmptyString) →
  ∃ t, NewKindTable pairs = Some t ∧
    (∀ id, KindTable_Name t id = if bool_decide (0 ≤ id)%Z then pairs !! id else None) ∧
    (∀ name id, KindTable_ID t name = Some id → pairs !! id = Some name) ∧
    (∀ name, KindTable_ID t name = None → ∀ id, pairs !! id ≠ Some name).
Proof. apply NewKindTable_spec. Qed.

Lemma NewKindTable_names_witness : ∃ t, NewKindTable {[5%Z := "User"%string]} = Some t ∧ KindTable_Name t 5 = Some "User"%string.
Proof.
  destruct (NewKindTable_names {[5%Z := "User"%string]}) as (t & E & Hn & _).
  - intros id name Hl. apply lookup_singleton_Some in Hl as [_ <-]. discriminate.
  - exists t. split; [exact E|]. rewrite (Hn 5%Z). reflexivity.
Defined.

(** ** The builder *)

(** Adding a node to a builder never panics. It stages the node when its id
    is above every staged one and its properties fit their indexes, and
    otherwise returns the matching error and leaves the staged nodes as they
    were. *)
Theorem addParsedNode_stages `{GoStd} b nodes prows id kinds parsed : Builder_rep b nodes prows →
  NoDup (pp_name <$> parsed) →
  len (b_kindsFlat b) + len kinds < 2 ^ 32 → len (b_propEntries b) + N.of_nat (size (parsed_bag parsed)) < 2 ^ 32 →
  ∃ b' r, addParsedNode id kinds parsed b = Some (b', r) ∧ b_edges b' = b_edges b ∧
    match r with
    | inl _ => (∀ nd, nd ∈ nodes → nd_id nd < id) ∧
        ∃ es, Builder_rep b' (nodes ++ [(id, kinds, parsed_bag parsed)]) (prows ++ [es])
    | inr err => Builder_rep b' nodes prows ∧
        (err = ErrTooManyProps ∨ err = ErrArenaFull ∨ ∃ nd, nd ∈ nodes ∧ id ≤ nd_id nd ∧ err = ErrNotAscending id (nd_id nd))
    end.
Proof.
  intros Hrep Hnd Hk Hp. rewrite addParsedNode_eq.
  destruct (add_node_spec _ _ b nodes prows id kinds (stages_parsed _ Hnd) Hrep Hk Hp) as (b' & r & E & _ & He & _ & Hr).
  exists b', r. split; [done|]. split; [done|]. destruct r; [|done]. destruct Hr as (Hid & es & Hrep' & _). eauto.
Qed.

Lemma addParsedNode_stages_witness : ∃ b' r, addParsedNode 7 [1%Z] (ex_parsed "A") (NewBuilder 1) = Some (b', r).
Proof.
  destruct (addParsedNode_stages (NewBuilder 1) [] [] 7 [1%Z] (ex_parsed "A") (NewBuilder_rep 1) (ex_parsed_names "A"))
    as (b' & r & E & _); [reflexivity|vm_compute; reflexivity|]. exists b', r. exact E.
Defined.

(** A node whose properties are copied from another store, as compaction
    copies them, is staged with the same bag they mean there. *)
Theorem addPreparedNode_stages `{GoStd} b nodes prows id kinds names arena es bs : Builder_rep b nodes prows →
  NoDup names → len arena < 2 ^ 32 → row_ok names arena es bs →
  len (b_kindsFlat b) + len kinds < 2 ^ 32 → len (b_propEntries b) + N.of_nat (size (bag_of bs)) < 2 ^ 32 →
  ∃ b' r, addPreparedNode id kinds (mkPreparedProps es names arena) b = Some (b', r) ∧
    match r with
    | inl _ => ∃ es', Builder_rep b' (nodes ++ [(id, kinds, bag_of bs)]) (prows ++ [es'])
    | inr err => Builder_rep b' nodes prows ∧
        (err = ErrTooManyProps ∨ err = ErrArenaFull ∨ ∃ nd, nd ∈ nodes ∧ id ≤ nd_id nd ∧ err = ErrNotAscending id (nd_id nd))
    end.
Proof.
  intros Hrep Hn Ha Hrow Hk Hp.
  destruct (add_node_spec _ _ b nodes prows id kinds (stages_prepared names arena es bs Hn Ha Hrow) Hrep Hk Hp)
    as (b' & r & E & _ & _ & _ & Hr). exists b', r. split; [exact E|]. destruct r; [|done].
  destruct Hr as (_ & es' & Hrep' & _). eauto.
Qed.

Lemma addPreparedNode_stages_witness :
  ∃ b' r, addPreparedNode 7 [1%Z] (mkPreparedProps [mkPropEntry 0 propKindTrue 0 0 0] ["enabled"%string] []) (NewBuilder 1) = Some (b', r).
Proof.
  destruct (addPreparedNode_stages (NewBuilder 1) [] [] 7 [1%Z] ["enabled"%string] [] [mkPropEntry 0 propKindTrue 0 0 0]
    [("enabled"%string, (propKindTrue, 0, []))] (NewBuilder_rep 1)) as (b' & r & E & _).
  - constructor; [apply not_elem_of_nil|constructor].
  - reflexivity.
  - split; [reflexivity|repeat constructor].
  - reflexivity.
  - vm_compute. reflexivity.
  - exists b', r. exact E.
Defined.

(** C11: [Build] never panics. The snapshot it returns holds exactly the staged
    nodes, in id order, and the staged edges whose two ends are staged; the
    others are the ones it counts as dropped. Its kind table is the one the
    staged kinds make. *)
Theorem Build_correct `{GoStd} b nodes prows : Builder_rep b nodes prows →
  len nodes < 2 ^ 32 → len (b_edges b) < 2 ^ 32 →
  (∀ nd, nd ∈ nodes → bag_decodable (nd_bag nd)) →
  NoDup (staged_edges (nd_id <$> nodes) (b_edges b)).*1 →
  ∃ s L, Build b = Some s ∧ Snapshot_rep s L ∧ base_graph L = staged_graph nodes (b_edges b) ∧
    GraphIDs s = nd_id <$> nodes ∧ GraphID s = b_graphID b ∧ NewKindTable (b_kindTable b) = Some (Kinds s) ∧
    DroppedEdges s = len (filter (λ e, ¬ (se_start e ∈ nd_id <$> nodes ∧ se_end e ∈ nd_id <$> nodes)) (b_edges b)).
Proof.
  intros Hb Hn He Hdec Hnd. destruct (NewKindTable_table (b_kindTable b)) as (t & Ht & _).
  destruct (Build_ok b nodes prows t Hb Hn He Hdec Ht) as (s & L & E & Hs & HL & Hg & Hk & _ & Hd).
  exists s, L. destruct (built_graph _ _ _ HL Hnd) as [_ HG]. rewrite (pk_ids _ _ (rep_packed _ _ Hs)), Hk.
  destruct HL as [Hi _]. split_and!; done.
Qed.

Lemma Build_correct_witness : ∃ s L, Build ex_builder = Some s ∧ Snapshot_rep s L ∧ GraphIDs s = [10; 20; 30].
Proof.
  destruct ex_builder_rep as (prows & Hb & He & _).
  destruct (Build_correct ex_builder ex_nodes prows Hb) as (s & L & E & Hs & _ & Hi & _).
  - reflexivity.
  - rewrite He. reflexivity.
  - exact ex_decodable.
  - rewrite He. apply (bool_decide_unpack _). vm_compute. exact I.
  - exists s, L. split; [exact E|]. split; [exact Hs|exact Hi].
Defined.

(** ** The snapshot *)




(** [Dense] numbers the nodes by ascending database id and [EdgeByID]
    finds the slot of the edge with that database id, and neither finds
    anything for an id the snapshot does not hold. *)
Theorem Snapshot_lookups s L : Snapshot_rep s L →
  (∀ id n, Dense s id = Some n ↔ idx (GraphIDs s) n = Some id) ∧
  (∀ n m a b, idx (GraphIDs s) n = Some a → idx (GraphIDs s) m = Some b → (n < m ↔ a < b)) ∧
  ∀ id, ∃ r, Snapshot_EdgeByID s id = Some r ∧
    match r with
    | Some slot => idx (OutEdgeIDs s) slot = Some id
    | None => id ∉ OutEdgeIDs s
    end.
Proof.
  intros Hs. pose proof (rep_packed _ _ Hs) as HP. rewrite (pk_ids _ _ HP), (pk_eids _ _ HP). split_and!.
  - apply (Dense_spec s L Hs).
  - intros n m a b Ha Hb. assert (∀ i j x y, idx (lo_ids L) i = Some x → idx (lo_ids L) j = Some y → i < j → x < y) as Hm.
    { intros i j x y Hi Hj. by apply (sorted_idx _ _ _ _ _ _ (pk_sorted _ _ HP) Hi Hj). }
    split; [by apply Hm|]. intros Hab. destruct (N.lt_total n m) as [|[->|Hlt]]; [done|simplify_eq; lia|].
    specialize (Hm _ _ _ _ Hb Ha Hlt). lia.
  - intros id. destruct (EdgeByID_spec s L Hs id) as (r & E & Hr). exists r. split; [done|]. destruct r as [slot|].
    + destruct Hr as (e & He & <-). by rewrite idx_fmap, He.
    + intros (e & -> & He)%list_elem_of_fmap. by apply (Hr e).
Qed.

Lemma Snapshot_lookups_witness : ∃ s, ex_snapshot = Some s ∧ Dense s 20 = Some 1.
Proof.
  destruct ex_snapshot_rep as (s & L & E & Hs & _ & Hi & _). exists s. split; [exact E|].
  apply (proj1 (Snapshot_lookups s L Hs)). rewrite (pk_ids _ _ (rep_packed _ _ Hs)), Hi. reflexivity.
Defined.

(** The property store answers for a node what the bag it was built from
    holds: [Value] under a name's id, [NodeMap] all of it, and
    [NodesByObjectID] the nodes, ascending, whose [objectid] is that text. *)
Theorem Snapshot_properties `{GoStd} s L n id ks bag : Snapshot_rep s L → Dense s id = Some n →
  g_nodes (base_graph L) !! id = Some (ks, bag) → bag_decodable bag →
  (∀ name, match IDByName (Props s) name with
           | Some i => PropStore_Value (Props s) n i = Some (bag !! name ≫= decode_pval)
           | None => bag !! name = None
           end) ∧
  PropStore_NodeMap (Props s) n = Some (omap decode_pval bag) ∧
  (∀ text, bag_objectid bag = Some text ↔ ∃ ns, PropStore_NodesByObjectID (Props s) text = Some ns ∧ n ∈ ns).
Proof.
  intros Hs Hn Hg Hdec. apply (Dense_spec s L Hs) in Hn. pose proof (idx_lt _ _ _ Hn) as Hl.
  destruct (rep_node s L n id Hs Hn) as (ks' & bag' & _ & Hb & Hg'). rewrite Hg in Hg'. injection Hg' as _ <-.
  pose proof (dr_props _ _ (rep_derived _ _ Hs)) as HP. destruct (rep_lens s L Hs) as [_ Hlb].
  pose proof (pk_n _ _ (rep_packed _ _ Hs)) as Hlt. rewrite <- Hlb in Hlt. split_and!.
  - intros name. pose proof (store_value _ _ _ HP Hlt n bag name Hb) as Hv. destruct (IDByName _ _) as [i|]; [|done].
    rewrite Hv. destruct (bag !! name) as [v|] eqn:E; [|done]. destruct (Hdec name v E) as [a Ha]. simpl. by rewrite Ha.
  - by apply (store_node_map _ _ _ HP).
  - intros text. rewrite (dr_object _ _ (rep_derived _ _ Hs)).
    assert (n ∈ objectid_nodes (lo_bags L) text ↔ bag_objectid bag = Some text) as <-.
    { unfold objectid_nodes. rewrite list_elem_of_filter, elem_of_range, Hb. simpl. split; [by intros []|]. intros ->.
      split; [done|]. lia. }
    destruct (objectid_nodes (lo_bags L) text) as [|x l]; simpl; [rewrite elem_of_nil|]; naive_solver.
Qed.

Lemma Snapshot_properties_witness : ∃ s, ex_snapshot = Some s ∧ ∃ ns,
  PropStore_NodesByObjectID (Props s) "A" = Some ns ∧ 0 ∈ ns.
Proof.
  destruct ex_snapshot_rep as (s & L & E & Hs & _ & Hi & Hg). exists s. split; [exact E|].
  apply (proj2 (proj2 (Snapshot_properties s L 0 10 [1%Z] (parsed_bag (ex_parsed "A")) Hs
    ltac:(apply (Dense_spec s L Hs); rewrite Hi; reflexivity)
    ltac:(rewrite Hg; vm_compute; reflexivity) (ex_parsed_decodable "A")))). vm_compute. reflexivity.
Defined.

(** ** Segments *)

(** The operations a segment builder is given. *)
Inductive seg_op :=
  | OpNode (id : N) (kinds : list KindID) (parsed : list parsedProp)
  | OpNodeGone (id : N)
  | OpEdge (id start end_ : N) (kind : KindID)
  | OpEdgeGone (id : N)
  | OpKind (id : KindID) (name : string).

(** Running an operation, and what it says of the graph. *)
Definition run_op `{GoStd} (op : seg_op) : go SegmentBuilder () :=
  match op with
  | OpNode id kinds parsed => AddNodeState id kinds parsed
  | OpNodeGone id => λ b, Some (TombstoneNode b id, inl ())
  | OpEdge id start end_ kind => λ b, Some (AddEdgeState b id start end_ kind, inl ())
  | OpEdgeGone id => λ b, Some (TombstoneEdge b id, inl ())
  | OpKind id name => λ b, Some (AddKind b id name, inl ())
  end.
Definition op_delta (op : seg_op) (D : delta) : delta :=
  match op with
  | OpNode id kinds parsed => mkDelta (<[id := Some (kinds, parsed_bag parsed)]> (d_nodes D)) (d_edges D) (d_kinds D)
  | OpNodeGone id => mkDelta (<[id := None]> (d_nodes D)) (d_edges D) (d_kinds D)
  | OpEdge id start end_ kind => mkDelta (d_nodes D) (<[id := Some (start, end_, kind)]> (d_edges D)) (d_kinds D)
  | OpEdgeGone id => mkDelta (d_nodes D) (<[id := None]> (d_edges D)) (d_kinds D)
  | OpKind id name => mkDelta (d_nodes D) (d_edges D) (<[id := name]> (d_kinds D))
  end.
(** The callers stop at the first error. *)
Fixpoint run_ops `{GoStd} (ops : list seg_op) : go SegmentBuilder () :=
  match ops with [] => go_ret () | op :: ops' => (run_op op ;;! run_ops ops')%go end.
Definition op_ok (op : seg_op) : Prop :=
  match op with OpNode _ _ parsed => NoDup (pp_name <$> parsed) | _ => True end.

Lemma run_op_rep `{GoStd} op b D : SegmentBuilder_rep b D → op_ok op → ∃ b' r, run_op op b = Some (b', r) ∧
  match r with
  | inl _ => SegmentBuilder_rep b' (op_delta op D)
  | inr err => err = ErrTooManyProps ∨ err = ErrArenaFull
  end.
Proof.
  intros Hb Hok. destruct op; simpl in *.
  - destruct (AddNodeState_rep b D id kinds parsed Hb Hok) as (b' & r & E & Hr). exists b', r. split; [done|].
    destruct r; [done|]. by destruct Hr.
  - do 2 eexists. split; [done|]. by apply TombstoneNode_rep.
  - do 2 eexists. split; [done|]. by apply AddEdgeState_rep.
  - do 2 eexists. split; [done|]. by apply TombstoneEdge_rep.
  - do 2 eexists. split; [done|]. by apply AddKind_rep.
Qed.

(** C36: whatever sequence of states and tombstones a segment builder is given,
    it either fails with one of its two limits or its segment holds, for every
    id, the last state it was given: a later operation on an id replaces an
    earlier one. *)
Theorem SegmentBuilder_last_wins `{GoStd} ops : (∀ op, op ∈ ops → op_ok op) →
  ∃ b r, run_ops ops SegmentBuilder_zero = Some (b, r) ∧
    match r with
    | inl _ => Segment_rep (SegmentBuilder_Build b) (foldl (flip op_delta) delta_empty ops)
    | inr err => err = ErrTooManyProps ∨ err = ErrArenaFull
    end.
Proof.
  intros Hok. enough (∀ b D, SegmentBuilder_rep b D → ∃ b' r, run_ops ops b = Some (b', r) ∧
    match r with
    | inl _ => SegmentBuilder_rep b' (foldl (flip op_delta) D ops)
    | inr err => err = ErrTooManyProps ∨ err = ErrArenaFull
    end) as Hgo.
  { destruct (Hgo _ _ SegmentBuilder_zero_rep) as (b & r & E & Hr). exists b, r. split; [done|].
    destruct r; [|done]. by apply SegmentBuilder_Build_rep. }
  induction ops as [|op ops IH]; intros b D Hb; [by exists b, (inl ())|]. simpl. unfold go_bind.
  destruct (run_op_rep op b D Hb) as (b1 & r1 & -> & Hr1); [apply Hok; left|]. destruct r1 as [[]|err].
  - apply IH; [|done]. intros. apply Hok. by right.
  - by exists b1, (inr err).
Qed.

Lemma SegmentBuilder_last_wins_witness :
  ∃ b r, run_ops [OpEdge 7 1 2 3%Z; OpNode 40 [2%Z] (ex_parsed "C"); OpEdgeGone 7] SegmentBuilder_zero = Some (b, r).
Proof.
  destruct (SegmentBuilder_last_wins [OpEdge 7 1 2 3%Z; OpNode 40 [2%Z] (ex_parsed "C"); OpEdgeGone 7]) as (b & r & E & _).
  - intros op. rewrite !elem_of_cons, elem_of_nil.
    intros [->|[->|[->|[]]]]; [exact I|exact (ex_parsed_names "C")|exact I].
  - exists b, r. exact E.
Defined.

(** C19: [MergeSegments] keeps the newest state of every id: its segment does to
    any graph what applying the given segments one after the other, oldest
    first, does. *)
Theorem MergeSegments_applies `{GoStd} segs Ds : Forall2 Segment_rep segs Ds →
  ∃ D, Segment_rep (MergeSegments (Some <$> segs)) D ∧ ∀ G, foldl apply_delta G Ds = apply_delta G D.
Proof.
  intros Hs. exists (delta_all Ds). split; [by apply MergeSegments_rep|]. intros G. apply apply_delta_all.
Qed.

Lemma MergeSegments_applies_witness : ∃ D, Segment_rep (MergeSegments (Some <$> [ex_segment; ex_segment])) D.
Proof.
  destruct (MergeSegments_applies [ex_segment; ex_segment] [ex_delta; ex_delta]) as (D & HD & _).
  - constructor; [exact ex_segment_rep|]. constructor; [exact ex_segment_rep|constructor].
  - exists D. exact HD.
Defined.
