(* ===== verification/ViewTheorems.v ===== *)
(** * The view's theorems

    [internal/engine/snapshot/view.go] and [fold.go] against the graph a view
    means: a base snapshot with its segments applied in order. *)

From S2P Require Import Prelude Bitset Csr Kinds Props Snapshot Builder Segment View ViewAdj ViewRows ViewKinds.
From S2P Require Import Fold FoldGraph ViewTraverse Example.
From stdpp Require Import options.
Unset Default Proof Using.
#[local] Open Scope N_scope.

(** ** Lemmas *)


(** The first node of the example, number 0, is node 10 of the database. *)
Lemma ex_first v L : View_rep v L [ex_delta] → base_graph L = staged_graph ex_nodes ex_edges →
  g_nodes (view_graph L [ex_delta]) !! 10 = Some ([1%Z], parsed_bag (ex_parsed "A")).
Proof. intros HR Hg. unfold view_graph. cbn [foldl]. rewrite Hg. vm_compute. reflexivity. Qed.

(** ** The graph of a view *)



(** C38: the view numbers its nodes one to one: [Dense] and [GraphID] are each
    other's inverse, every node of the graph has a number, and [Alive] says
    which numbers are nodes of the graph. *)
Theorem View_numbering `{GoStd} v L Ds : View_rep v L Ds →
  (∀ id n, View_Dense v id = Some n ↔ View_GraphID v n = Some id) ∧
  (∀ id, is_Some (g_nodes (view_graph L Ds) !! id) → ∃ n, View_Dense v id = Some n ∧ Alive v n = true) ∧
  (∀ n, Alive v n = true ↔ ∃ id, View_GraphID v n = Some id ∧ is_Some (g_nodes (view_graph L Ds) !! id)) ∧
  (∀ n, is_Some (View_GraphID v n) ↔ n < View_NodeCount v).
Proof.
  intros HR. setoid_rewrite (View_Dense_eq v L Ds HR). setoid_rewrite (GraphID_spec v).
  setoid_rewrite (denseOf_spec v L Ds HR). split; [done|]. split; [|split].
  - intros id [st Hst]. destruct (node_numbered v L Ds HR _ _ Hst) as [n Hn]. exists n. split; [done|].
    apply (alive_iff v L Ds HR). eauto.
  - intros n. apply (alive_iff v L Ds HR).
  - intros n. rewrite <- (len_view_ids v). split; [intros [id Hi]; by eapply idx_lt|apply idx_is_Some].
Qed.

Lemma View_numbering_witness : ∃ v, ex_view = Some v ∧ View_Dense v 40 = Some 3 ∧ View_GraphID v 3 = Some 40.
Proof.
  destruct ex_view_rep as (v & L & E & HR & Hn & Hg).
  assert (View_Dense v 40 = Some 3) as Hd.
  { apply (computed ex_view v (λ v, View_Dense v 40) _ E). vm_compute. reflexivity. }
  exists v. split; [exact E|]. split; [exact Hd|]. exact (proj1 (proj1 (View_numbering v L [ex_delta] HR) 40 3) Hd).
Defined.

(** A numbered node's kinds and properties are those of the graph's node,
    whichever of the base and the segments they come from, and a deleted node
    has none. *)
Theorem View_node_reads `{GoStd} v L Ds n id : View_rep v L Ds → View_GraphID v n = Some id →
  KindIDsOf v n = Some (match g_nodes (view_graph L Ds) !! id with Some st => st.1 | None => [] end) ∧
  ∀ name, PropValueByName v n name =
    match g_nodes (view_graph L Ds) !! id with
    | None => Some None
    | Some (_, bag) => match bag !! name with None => Some None | Some val => Some <$> decode_pval val end
    end.
Proof.
  intros HR Hid. rewrite (GraphID_spec v) in Hid. split; [by apply (KindIDsOf_graph v L Ds HR)|].
  intros name. rewrite (PropValueByName_graph v L Ds HR n id name Hid). unfold graph_value. by destruct (_ !! _) as [[ks bag]|].
Qed.

Lemma View_node_reads_witness : ∃ v, ex_view = Some v ∧ KindIDsOf v 0 = Some [1%Z] ∧
  PropValueByName v 0 "objectid" = Some (Some (AString "A")).
Proof.
  destruct ex_view_rep as (v & L & E & HR & Hn & Hg).
  assert (View_GraphID v 0 = Some 10) as Hd.
  { apply (computed ex_view v (λ v, View_GraphID v 0) _ E). vm_compute. reflexivity. }
  exists v. split; [exact E|]. destruct (View_node_reads v L [ex_delta] 0 10 HR Hd) as [Hk Hp].
  rewrite (ex_first v L HR Hg) in Hk. specialize (Hp "objectid"%string). rewrite (ex_first v L HR Hg) in Hp.
  split; [exact Hk|exact Hp].
Defined.

(** [NodesOfKind] is the set of the numbers of the graph's nodes of that
    kind. *)
Theorem View_NodesOfKind_graph `{GoStd} v L Ds k : View_rep v L Ds →
  ∃ b cap, View_NodesOfKind v k = Some b ∧ Bitset_wf cap b ∧
    ∀ n, Bitset_Has b n = true ↔ ∃ id st, View_GraphID v n = Some id ∧ g_nodes (view_graph L Ds) !! id = Some st ∧ k ∈ st.1.
Proof.
  intros HR. destruct (NodesOfKind_graph v L Ds HR k) as (b & cap & E & Hwf & _ & Hb). exists b, cap. split; [done|]. split; [done|].
  intros n. rewrite Hb. setoid_rewrite (GraphID_spec v). unfold has_kind. naive_solver.
Qed.

Lemma View_NodesOfKind_graph_witness : ∃ v b, ex_view = Some v ∧ View_NodesOfKind v 2 = Some b.
Proof.
  destruct ex_view_rep as (v & L & E & HR & Hn & Hg). destruct (View_NodesOfKind_graph v L [ex_delta] 2 HR) as (b & cap & Eb & _).
  exists v, b. split; [exact E|exact Eb].
Defined.

(** [NodesByObjectID] lists, in ascending order and each once, exactly the nodes of the
    graph whose [objectid] is the given text. *)
Theorem View_NodesByObjectID_graph `{GoStd} v L Ds text : View_rep v L Ds →
  ∃ l, View_NodesByObjectID v text = Some (found l) ∧ StronglySorted N.lt l ∧
    ∀ n, n ∈ l ↔ ∃ id st, View_GraphID v n = Some id ∧ g_nodes (view_graph L Ds) !! id = Some st ∧ bag_objectid st.2 = Some text.
Proof.
  intros HR. destruct (NodesByObjectID_graph v L Ds HR text) as (l & E & Hs & Hl). exists l. split; [done|]. split; [done|].
  intros n. rewrite Hl. setoid_rewrite (GraphID_spec v). unfold graph_objectid. split.
  - intros (id & Hid & Ht). destruct (g_nodes _ !! id) as [st|] eqn:Est; [|done]. by exists id, st.
  - intros (id & st & Hid & Hst & Ht). exists id. split; [done|]. by rewrite Hst.
Qed.

Lemma View_NodesByObjectID_graph_witness : ∃ v l, ex_view = Some v ∧ View_NodesByObjectID v "A" = Some (found l).
Proof.
  destruct ex_view_rep as (v & L & E & HR & Hn & Hg). destruct (View_NodesByObjectID_graph v L [ex_delta] "A" HR) as (l & El & _).
  exists v, l. split; [exact E|exact El].
Defined.

(** ** Edges *)

(** C29: walking a node's outgoing edges calls the callback on every visible
    edge out of it, once, until it asks to stop: the base's edges that no
    segment touches and whose other end lives, and the segments' own. The same
    holds of the edges into it. *)
Theorem Edges_visible `{GoStd} v L Ds n : View_rep v L Ds → ∃ lo li : list vedge, NoDup lo ∧ NoDup li ∧
  (∀ S (yield : vedge → S → option (S * bool)) s, OutEdges v n yield s = iter_until yield lo s ∧
     InEdges v n yield s = iter_until yield li s) ∧
  ∀ t k e, ((t, k, e) ∈ lo ↔ ∃ id tid, View_GraphID v n = Some id ∧ View_GraphID v t = Some tid ∧
              visible (view_graph L Ds) !! e = Some (id, tid, k)) ∧
           ((t, k, e) ∈ li ↔ ∃ id tid, View_GraphID v n = Some id ∧ View_GraphID v t = Some tid ∧
              visible (view_graph L Ds) !! e = Some (tid, id, k)).
Proof.
  intros HR. exists (walk_list v L true n), (walk_list v L false n).
  destruct (walk_list_rep v L Ds HR true n) as [Hno Ho]. destruct (walk_list_rep v L Ds HR false n) as [Hni Hi].
  split; [done|]. split; [done|]. split.
  - intros S yield s. split; [by apply (OutEdges_walk v L Ds HR)|by apply (InEdges_walk v L Ds HR)].
  - intros t k e. setoid_rewrite (GraphID_spec v). split; [apply Ho|apply Hi].
Qed.

Lemma Edges_visible_witness : ∃ v lo li, ex_view = Some v ∧
  OutEdges v 2 (λ e acc, Some (acc ++ [e], true)) [] = iter_until (λ e acc, Some (acc ++ [e], true)) (lo : list vedge) [] ∧
  InEdges v 2 (λ e acc, Some (acc ++ [e], true)) [] = iter_until (λ e acc, Some (acc ++ [e], true)) (li : list vedge) [].
Proof.
  destruct ex_view_rep as (v & L & E & HR & Hn & Hg). destruct (Edges_visible v L [ex_delta] 2 HR) as (lo & li & _ & _ & Hw & _).
  exists v, lo, li. split; [exact E|]. exact (Hw _ (λ e acc, Some (acc ++ [e], true)) []).
Defined.

(** C32: the slices [OutSlices] and [InSlices] serve, whether they are the
    base's own row or a merged one, are the nodes and the kinds of what
    [OutEdges] and [InEdges] walk over, in the same order, for every number of
    the view, and there are none past it. *)
Theorem Slices_agree `{GoStd} v L Ds n : View_rep v L Ds → View_NodeCount v < 2 ^ 31 →
  ∃ lo li : list vedge,
    (∀ S (yield : vedge → S → option (S * bool)) s, OutEdges v n yield s = iter_until yield lo s) ∧
    (∀ S (yield : vedge → S → option (S * bool)) s, InEdges v n yield s = iter_until yield li s) ∧
    OutSlices v n = Some (if n <? View_NodeCount v then Some ((λ e, e.1.1) <$> lo, (λ e, e.1.2) <$> lo) else None) ∧
    InSlices v n = Some (if n <? View_NodeCount v then Some ((λ e, e.1.1) <$> li, (λ e, e.1.2) <$> li) else None).
Proof.
  intros HR Hn. exists (walk_list v L true n), (walk_list v L false n). split; [|split; [|split]].
  - intros. by apply (OutEdges_walk v L Ds HR).
  - intros. by apply (InEdges_walk v L Ds HR).
  - by apply (OutSlices_walk v L Ds HR Hn).
  - by apply (InSlices_walk v L Ds HR Hn).
Qed.

Lemma Slices_agree_witness : ∃ v, ex_view = Some v ∧ ∃ r, OutSlices v 2 = Some r.
Proof.
  destruct ex_view_rep as (v & L & E & HR & Hn & Hg). exists v. split; [exact E|].
  destruct (Slices_agree v L [ex_delta] 2 HR Hn) as (lo & li & _ & _ & Ho & _). eexists. exact Ho.
Defined.

(** C37: [EdgeStateByID] never panics and finds exactly the visible edges, with
    the numbers of their ends and their kind. *)
Theorem EdgeStateByID_visible `{GoStd} v L Ds id : View_rep v L Ds → ∃ r, EdgeStateByID v id = Some r ∧
  match r with
  | Some (s, t, k) => ∃ a b, View_GraphID v s = Some a ∧ View_GraphID v t = Some b ∧
      visible (view_graph L Ds) !! id = Some (a, b, k)
  | None => visible (view_graph L Ds) !! id = None
  end.
Proof.
  intros HR. destruct (EdgeStateByID_graph v L Ds HR id) as (r & E & Hr). exists r. split; [done|].
  destruct r as [[[s t] k]|]; [|done]. by setoid_rewrite (GraphID_spec v).
Qed.

Lemma EdgeStateByID_visible_witness : ∃ v r, ex_view = Some v ∧ EdgeStateByID v 104 = Some r.
Proof.
  destruct ex_view_rep as (v & L & E & HR & Hn & Hg). destruct (EdgeStateByID_visible v L [ex_delta] 104 HR) as (r & Er & _).
  exists v, r. split; [exact E|exact Er].
Defined.

(** [DeltaHoldsOnlyUnresolvableEdges] is true exactly when the merged
    changes are nothing but edge states, at least one, each of an edge that is
    not visible. *)
Theorem DeltaHoldsOnlyUnresolvableEdges_iff `{GoStd} v L Ds : View_rep v L Ds →
  DeltaHoldsOnlyUnresolvableEdges v = true ↔
  d_nodes (delta_all Ds) = ∅ ∧ d_edges (delta_all Ds) ≠ ∅ ∧
  ∀ id o, d_edges (delta_all Ds) !! id = Some o → is_Some o ∧ visible (view_graph L Ds) !! id = None.
Proof. apply unresolvable_graph. Qed.

Lemma DeltaHoldsOnlyUnresolvableEdges_iff_witness : ∃ v, ex_view = Some v ∧ DeltaHoldsOnlyUnresolvableEdges v ≠ true.
Proof.
  destruct ex_view_rep as (v & L & E & HR & Hn & Hg). exists v. split; [exact E|].
  intros Ht. apply (proj1 (DeltaHoldsOnlyUnresolvableEdges_iff v L [ex_delta] HR)) in Ht as (Hd & _).
  apply (f_equal (λ m, m !! 40)) in Hd. vm_compute in Hd. discriminate Hd.
Defined.

(** ** Kinds *)

(** The two absence proofs the interpreter relies on are sound: if
    [SelfLoopHazard] is false no edge of the graph of an admitted kind is a
    loop, and if [EdgeKindPresent] is false no edge has an admitted kind. *)
Theorem absence_sound `{GoStd} v L Ds kinds : View_rep v L Ds →
  (SelfLoopHazard v kinds = false → ∀ id a b k, g_edges (view_graph L Ds) !! id = Some (a, b, k) → admits kinds k → a ≠ b) ∧
  (EdgeKindPresent v kinds = false → ∀ id a b k, g_edges (view_graph L Ds) !! id = Some (a, b, k) → (0 ≤ k)%Z → ¬ admits kinds k).
Proof.
  intros HR. split.
  - intros Hf id a b k Hg Ha ->. by rewrite (SelfLoopHazard_sound v L Ds HR kinds id b k Hg Ha) in Hf.
  - intros Hf id a b k Hg H0 Ha. by rewrite (EdgeKindPresent_sound v L Ds HR kinds id a b k Hg H0 Ha) in Hf.
Qed.

Lemma absence_sound_witness : ∃ v, ex_view = Some v ∧ SelfLoopHazard v [3%Z] = false ∧ EdgeKindPresent v [7%Z] = false ∧
  ∃ L, ∀ id a b, g_edges (view_graph L [ex_delta]) !! id = Some (a, b, 3%Z) → a ≠ b.
Proof.
  destruct ex_view_rep as (v & L & E & HR & Hn & Hg). exists v.
  assert (SelfLoopHazard v [3%Z] = false) as H1 by (apply (computed ex_view v (λ v, SelfLoopHazard v [3%Z]) _ E); vm_compute; reflexivity).
  assert (EdgeKindPresent v [7%Z] = false) as H2 by (apply (computed ex_view v (λ v, EdgeKindPresent v [7%Z]) _ E); vm_compute; reflexivity).
  split; [exact E|]. split; [exact H1|]. split; [exact H2|]. exists L. intros id a b Hab.
  apply (proj1 (absence_sound v L [ex_delta] [3%Z] HR) H1 id a b 3%Z Hab). right. left.
Defined.

(** The merged kind table names every kind as the newest segment that
    names it does, and the base otherwise, and [MaxKindID] bounds every kind of
    a node, an edge or a name of the view. *)
Theorem View_kind_table `{GoStd} v L Ds : View_rep v L Ds →
  (∃ t, View_Kinds v = Some t ∧ ∀ k, KindTable_Name t k = over_name (Kinds (v_base v)) (d_kinds (delta_all Ds)) k) ∧
  (∀ id ks bag k, g_nodes (view_graph L Ds) !! id = Some (ks, bag) → k ∈ ks → (k ≤ View_MaxKindID v)%Z) ∧
  (∀ id a b k, g_edges (view_graph L Ds) !! id = Some (a, b, k) → (k ≤ View_MaxKindID v)%Z) ∧
  (∀ k name, d_kinds (delta_all Ds) !! k = Some name → (k ≤ View_MaxKindID v)%Z).
Proof. intros HR. split; [by apply (View_Kinds_graph v L Ds HR)|]. exact (View_MaxKindID_graph v L Ds HR). Qed.

Lemma View_kind_table_witness : ∃ v t, ex_view = Some v ∧ View_Kinds v = Some t.
Proof.
  destruct ex_view_rep as (v & L & E & HR & Hn & Hg). destruct (View_kind_table v L [ex_delta] HR) as [(t & Et & _) _].
  exists v, t. split; [exact E|exact Et].
Defined.

(** ** Folding *)

(** C10: [FoldWithPendingEdges] never panics. It fails only when the properties
    outgrow their 16-bit and 32-bit indexes; otherwise the new snapshot, with
    the pending edges on top of it, has the nodes of the view it replaces and
    shows the same edges, now and after any later change that does not bring a
    node back that the folded segments had deleted; it keeps the graph id, the
    flags of the base and the names of every kind. *)
Theorem FoldWithPendingEdges_correct `{GoStd} base segs L Ds : View_rep (mkView base segs) L Ds →
  graph_fits (view_graph L Ds) →
  len (lo_edges L) + N.of_nat (size (d_edges (delta_all Ds))) < 2 ^ 32 →
  (∀ id ks bag, g_nodes (view_graph L Ds) !! id = Some (ks, bag) → bag_decodable bag) →
  ∃ r, FoldWithPendingEdges base segs = Some r ∧
    match r with
    | inr err => err = ErrTooManyProps ∨ err = ErrArenaFull
    | inl (s', pending) => ∃ L' Ds', View_rep (mkView s' (opt_list pending)) L' Ds' ∧
        (∀ D2, (∀ id st, d_nodes (delta_all Ds) !! id = Some None → d_nodes D2 !! id ≠ Some (Some st)) →
          g_nodes (apply_delta (view_graph L' Ds') D2) = g_nodes (apply_delta (view_graph L Ds) D2) ∧
          visible (apply_delta (view_graph L' Ds') D2) = visible (apply_delta (view_graph L Ds) D2)) ∧
        GraphID s' = GraphID base ∧ MultiGraph s' = MultiGraph base ∧ WatermarkLineage s' = WatermarkLineage base ∧
        ∀ k, KindTable_Name (Kinds s') k = over_name (Kinds base) (d_kinds (delta_all Ds)) k
    end.
Proof.
  intros HR Hfits Hsz Hdec.
  destruct (FoldWithPendingEdges_graph base segs L Ds HR Hfits Hsz Hdec) as (r & E & Hr). exists r. split; [done|].
  destruct r as [[s' pending]|err]; [|done]. destruct Hr as (L' & Ds' & HV & Hn & He & HgS & HmS & HlS & HkS & _).
  exists L', Ds'. split; [done|]. split; [|done]. intros D2 Hback.
  by apply (surviving_visible L Ds).
Qed.

Lemma ex_fold_decodable L : base_graph L = staged_graph ex_nodes ex_edges →
  ∀ id ks bag, g_nodes (view_graph L [ex_delta]) !! id = Some (ks, bag) → bag_decodable bag.
Proof.
  intros Hg id ks bag. unfold view_graph. cbn [foldl]. rewrite Hg. simpl. rewrite over_lookup.
  destruct (decide (id = 40)) as [->|Hne].
  - rewrite lookup_singleton_eq. intros [= <- <-]. apply ex_parsed_decodable.
  - rewrite lookup_singleton_ne by done. intros Hl.
    apply lookup_insert_Some in Hl as [[_ [= <- <-]]|[_ Hl]]; [apply ex_parsed_decodable|].
    apply lookup_insert_Some in Hl as [[_ [= <- <-]]|[_ Hl]]; [apply ex_parsed_decodable|].
    apply lookup_insert_Some in Hl as [[_ [= <- <-]]|[_ Hl]]; [apply ex_parsed_decodable|]. by rewrite lookup_empty in Hl.
Qed.

Lemma FoldWithPendingEdges_correct_witness : ∃ s r, ex_snapshot = Some s ∧ FoldWithPendingEdges s [ex_segment] = Some r.
Proof.
  destruct ex_snapshot_rep as (s & L & E & Hs & Hnd & _ & Hg).
  assert (View_NodeCount (mkView s [ex_segment]) = 4) as H4
    by (apply (computed ex_snapshot s (λ s, View_NodeCount (mkView s [ex_segment])) _ E); vm_compute; reflexivity).
  assert (len (lo_edges L) = 4) as Hl.
  { pose proof (f_equal (λ G, size (g_edges G)) Hg) as Hsz. simpl in Hsz. rewrite <- length_map_to_list, (map_to_list_to_map _ Hnd) in Hsz.
    unfold len. rewrite Hsz. vm_compute. reflexivity. }
  destruct (FoldWithPendingEdges_correct s [ex_segment] L [ex_delta]) as (r & Er & _).
  - split; [exact Hs|constructor; [apply ex_segment_rep|constructor]|exact Hnd|rewrite H4; reflexivity].
  - unfold graph_fits, view_graph. cbn [foldl]. rewrite Hg. split_and!; vm_compute; reflexivity.
  - rewrite Hl. vm_compute. reflexivity.
  - exact (ex_fold_decodable L Hg).
  - exists s, r. split; [exact E|exact Er].
Defined.
