(* ===== verification/IndexTheorems.v ===== *)
(** * The indexes' theorems

    [internal/engine/snapshot/edgekindindex.go] and [propindex.go]: what the
    nodes an index offers for a query have to do with the graph of the view. *)

From S2P Require Import Prelude Bitset Csr Kinds Props Snapshot Builder Segment View ViewAdj EdgeKinds PropIndex Example ViewTheorems.
From Stdlib Require Import String.
From stdpp Require Import options.
Unset Default Proof Using.
#[local] Open Scope N_scope.

(** ** Edge kinds *)

(** What is remembered after some calls on a new view. *)
Definition ek_run `{GoStd} (v : View) (calls : list (list KindID * bool)) : option ekMemo :=
  foldM (λ mm '(kinds, outgoing), r ← EdgeKindEndpoints v kinds outgoing mm; Some r.1) calls (mkEkMemo ∅ ∅).

Lemma EdgeKindEndpoints_nil `{GoStd} v outgoing mm : EdgeKindEndpoints v [] outgoing mm = Some (mm, None).
Proof. done. Qed.

Lemma ek_run_ok `{GoStd} v L Ds calls : View_rep v L Ds → ∃ mm, ek_run v calls = Some mm ∧ memo_ok v L mm.
Proof.
  intros HR. unfold ek_run. assert (memo_ok v L (mkEkMemo ∅ ∅)) as H0.
  { split; intros key l Hl; simpl in Hl; by rewrite lookup_empty in Hl. }
  revert H0. generalize (mkEkMemo ∅ ∅) as mm. induction calls as [|[kinds o] calls IH]; intros mm Hm; [by exists mm|].
  cbn [foldM]. destruct kinds as [|k kinds].
  - rewrite EdgeKindEndpoints_nil. by apply IH.
  - destruct (EdgeKindEndpoints_lists v L Ds HR (k :: kinds) o mm Hm) as (mm' & l & E & Hm' & _); [done|].
    rewrite E. by apply IH.
Qed.

(** C40: whatever was asked of the view before, [EdgeKindEndpoints] lists for
    any kinds, in ascending order, each once and below the node count, nodes
    among which is the start (or end) of every visible edge of one of the
    kinds; with no segment on the view it lists no other. The count is that
    list's length, and no kinds at all are declined. *)
Theorem EdgeKindEndpoints_correct `{GoStd} v L Ds calls kinds (outgoing : bool) : View_rep v L Ds → kinds ≠ [] →
  ∃ mm mm' l, ek_run v calls = Some mm ∧ EdgeKindEndpoints v kinds outgoing mm = Some (mm', Some l) ∧
    EdgeKindEndpointCount v kinds outgoing mm = Some (mm', Some (len l)) ∧
    EdgeKindEndpoints v [] outgoing mm = Some (mm, None) ∧
    StronglySorted N.lt l ∧ (∀ n, n ∈ l → n < View_NodeCount v) ∧
    (∀ id a b k n, visible (view_graph L Ds) !! id = Some (a, b, k) → k ∈ kinds →
       View_Dense v (if outgoing then a else b) = Some n → n ∈ l) ∧
    (Overlay v = false → ∀ n, n ∈ l → ∃ id a b k, visible (view_graph L Ds) !! id = Some (a, b, k) ∧ k ∈ kinds ∧
       View_Dense v (if outgoing then a else b) = Some n).
Proof.
  intros HR Hk. destruct (ek_run_ok v L Ds calls HR) as (mm & Em & Hm).
  destruct (EdgeKindEndpoints_lists v L Ds HR kinds outgoing mm Hm Hk) as (mm' & l & E & _ & Hs & Hl).
  setoid_rewrite (View_Dense_eq v L Ds HR). exists mm, mm', l. split_and!; [done|done| |done|done| | |].
  - unfold EdgeKindEndpointCount. by rewrite E.
  - intros n (k & _ & Hn)%Hl. by eapply (listed_lt v L Ds HR).
  - intros id a b k n Hv Hin Hn. apply (visible_iff L Ds) in Hv as (He & _). apply Hl. exists k. split; [done|]. by eapply (edge_listed v L Ds HR).
  - intros Ho n (k & Hin & Hn)%Hl. destruct (plain_listed v L Ds HR k n outgoing Ho Hn) as (id & a & b & Hv & Hd).
    by exists id, a, b, k.
Qed.

Lemma EdgeKindEndpoints_correct_witness : ∃ v mm mm' l, ex_view = Some v ∧
  ek_run v [([3%Z; 4%Z], true)] = Some mm ∧ EdgeKindEndpoints v [4%Z; 3%Z] true mm = Some (mm', Some l).
Proof.
  destruct ex_view_rep as (v & L & E & HR & _).
  destruct (EdgeKindEndpoints_correct v L [ex_delta] [([3%Z; 4%Z], true)] [4%Z; 3%Z] true HR) as (mm & mm' & l & Em & El & _); [done|].
  exists v, mm, mm', l. split; [exact E|]. split; [exact Em|exact El].
Defined.

(** ** String properties *)

(** C39: [NodesWithStringByName] always answers, and lists each node once.
    Every live node whose own string under the property matches is listed;
    a listed node the delta does not write is live and matches, so on a view
    without segments the list is exactly the matching nodes. *)
Theorem NodesWithStringByName_correct `{GoStd} v L Ds name m operand : View_rep v L Ds →
  (∀ id ks bag, g_nodes (view_graph L Ds) !! id = Some (ks, bag) → bag_decodable bag) →
  ∃ l, NodesWithStringByName v name m operand = Some (Some l) ∧ NoDup l ∧
    (∀ n id ks bag str, View_GraphID v n = Some id → g_nodes (view_graph L Ds) !! id = Some (ks, bag) →
       string_value (bag !! name) = Some str → matchString str m operand = true → n ∈ l) ∧
    (∀ n, n ∈ l → ∃ id, View_GraphID v n = Some id ∧
       (d_nodes (delta_all Ds) !! id = None → ∃ ks bag str, g_nodes (view_graph L Ds) !! id = Some (ks, bag) ∧
          string_value (bag !! name) = Some str ∧ matchString str m operand = true)).
Proof.
  intros HR Hdec. destruct (NodesWithStringByName_spec v L Ds HR Hdec name m operand) as (l & E & Hnd & Hl).
  exists l. setoid_rewrite (GraphID_spec v). split; [done|]. split; [done|]. split.
  - intros n id ks bag str Hn Hg Hs Hm. apply Hl. apply (live_candidates v L Ds HR name m operand n id str Hn); [|done].
    unfold live_string. by rewrite Hg.
  - intros n Hn%Hl. destruct Hn as [Hb|(str & (id & Hn & [o Ho] & _) & _)]; [|exists id; split; [done|congruence]].
    pose proof Hb as (str & Hs & _). destruct (base_string_node v L Ds HR name n str Hs) as [id Hn]. exists id. split; [done|].
    intros Hd. destruct (untouched_match v L Ds HR name m operand n id Hn Hd Hb) as (str' & Hl' & Hm). unfold live_string in Hl'.
    destruct (g_nodes _ !! id) as [[ks bag]|] eqn:Eg; [|done]. by exists ks, bag, str'.
Qed.

Lemma NodesWithStringByName_correct_witness : ∃ v l, ex_view = Some v ∧
  NodesWithStringByName v "objectid" StringSuffix "C" = Some (Some l) ∧ 3 ∈ l.
Proof.
  destruct ex_view_rep as (v & L & E & HR & Hn & Hg).
  assert (View_GraphID v 3 = Some 40) as Hd.
  { apply (computed ex_view v (λ v, View_GraphID v 3) _ E). vm_compute. reflexivity. }
  destruct (NodesWithStringByName_correct v L [ex_delta] "objectid" StringSuffix "C" HR (ex_fold_decodable L Hg)) as (l & El & _ & Hl & _).
  exists v, l. split; [exact E|]. split; [exact El|].
  apply (Hl 3 40 [2%Z] (parsed_bag (ex_parsed "C")) "C"%string Hd); [|vm_compute; reflexivity..].
  unfold view_graph. cbn [foldl]. rewrite Hg. vm_compute. reflexivity.
Defined.

(** When the base has no string under a property, a live node with one is the
    delta's. *)
Lemma only_delta_strings `{GoStd} v L Ds name present : View_rep v L Ds →
  (∀ n, n ∈ present ↔ is_Some (base_string L name n)) →
  ∀ id ks bag str, g_nodes (view_graph L Ds) !! id = Some (ks, bag) → string_value (bag !! name) = Some str →
  present = [] → ∃ n, delta_has v L Ds name n str.
Proof.
  intros HR Hp id ks bag str Hg Hs Hnil. destruct (node_numbered v L Ds HR _ _ Hg) as [n Hn]. exists n, id. split; [done|].
  assert (live_string L Ds name id = Some str) as Hl by (unfold live_string; by rewrite Hg). split; [|done].
  destruct (d_nodes _ !! id) as [o|] eqn:Ed; [by exists o|]. exfalso.
  pose proof (proj2 (Hp n)) as Hin. rewrite (base_string_live v L Ds HR name n id Hn Ed), Hl, Hnil in Hin.
  apply not_elem_of_nil in Hin; [done|by exists str].
Qed.

(** A property the base knows has an answer from [HasStringValue]; when it
    is no, no live node has a string under it. *)
Theorem HasStringValue_sound `{GoStd} v L Ds name prop : View_rep v L Ds →
  (∀ id ks bag, g_nodes (view_graph L Ds) !! id = Some (ks, bag) → bag_decodable bag) →
  PropIDByName v name = Some prop →
  ∃ has, HasStringValue v prop = Some (has, true) ∧
    (has = false → ∀ id ks bag, g_nodes (view_graph L Ds) !! id = Some (ks, bag) → string_value (bag !! name) = None) ∧
    (has = true → Overlay v = false → ∃ id ks bag, g_nodes (view_graph L Ds) !! id = Some (ks, bag) ∧ is_Some (string_value (bag !! name))).
Proof.
  intros HR Hdec Hid. pose proof (vr_base _ _ _ HR) as HB.
  destruct (present_spec (v_base v) L HB name prop Hid) as (present & E & _ & Hp).
  assert (PropStore_Name (Props (v_base v)) prop = name) as Hname.
  { pose proof (dr_props _ _ (rep_derived _ _ HB)) as Hps. apply (psr_ids _ _ _ Hps) in Hid. unfold PropStore_Name. by rewrite Hid. }
  unfold HasStringValue. rewrite E. cbn [mbind option_bind]. rewrite Hname.
  pose proof (only_delta_strings v L Ds name present HR Hp) as Hnone.
  destruct (N.ltb_spec 0 (len present)) as [Hl|Hl].
  { exists true. split; [done|]. split; [done|]. intros _ Ho. destruct present as [|n present]; [done|].
    destruct (proj1 (Hp n) ltac:(left)) as [str Hs]. destruct (base_string_node v L Ds HR name n str Hs) as [id Hn].
    rewrite (base_string_live v L Ds HR name n id Hn) in Hs.
    - unfold live_string in Hs. destruct (g_nodes _ !! id) as [[ks bag]|] eqn:Eg; [|done]. exists id, ks, bag. split; [done|by exists str].
    - destruct (merged_cases v L Ds HR) as [(_ & Ed & _)|(? & _ & _ & ?)]; [|congruence]. rewrite Ed. apply lookup_empty. }
  assert (present = []) as Hnil by (apply nil_length_inv; unfold len in Hl; lia).
  destruct (Overlay v) eqn:Ho; cbn [negb].
  - destruct (deltaPropFor_spec v L Ds HR Hdec name Ho) as (d & Ed & _ & Hd). rewrite Ed. eexists. split; [done|]. split; [|done].
    intros H0%N.ltb_ge id ks bag Hg. apply eq_None_not_Some. intros [str Hs].
    destruct (Hnone id ks bag str Hg Hs Hnil) as [n Hin%Hd]. assert (ds_strings d = []) as Hdn by (apply nil_length_inv; unfold len in H0; lia).
    rewrite Hdn in Hin. by apply not_elem_of_nil in Hin.
  - exists false. split; [done|]. split; [|done]. intros _ id ks bag Hg. apply eq_None_not_Some. intros [str Hs].
    destruct (Hnone id ks bag str Hg Hs Hnil) as [n (? & _ & [o Ed] & _)].
    destruct (merged_cases v L Ds HR) as [(_ & E0 & _)|(? & _ & _ & ?)]; [|congruence]. rewrite E0 in Ed. simpl in Ed. by rewrite lookup_empty in Ed.
Qed.

Lemma HasStringValue_sound_witness : ∃ v prop has, ex_view = Some v ∧ PropIDByName v "name" = Some prop ∧ HasStringValue v prop = Some (has, true).
Proof.
  destruct ex_view_rep as (v & L & E & HR & Hn & Hg).
  assert (PropIDByName v "name" = Some 0) as Hd.
  { apply (computed ex_view v (λ v, PropIDByName v "name") _ E). vm_compute. reflexivity. }
  destruct (HasStringValue_sound v L [ex_delta] "name" 0 HR (ex_fold_decodable L Hg) Hd) as (has & Eh & _).
  exists v, 0, has. split; [exact E|]. split; [exact Hd|exact Eh].
Defined.
