(* ===== verification/TraverseTheorems.v ===== *)
(** * The path engine's theorems

    What [internal/engine/traverse] promises, over any view that satisfies
    [TraverseLaws], and over [*snapshot.View]. *)

From S2P Require Import Prelude Bitset Snapshot Segment View ViewAdj PathSink Traverse Bfs Enumerate Strategy Answers SmallSide.
From S2P Require Import ViewTraverse Example.
From stdpp Require Import relations.
#[local] Open Scope N_scope.
From stdpp Require Import options.
Unset Default Proof Using.

(** ** Lemmas *)

(** What an enumeration leaves in the sink. *)
Lemma enumerated_lim cap L b ps res : enumerated cap L b ps res → room cap ps →
  ∃ ps', sink_rep res.1.1 ps' ∧
    match res.2 with
    | None => ps' = lim cap (ps ++ L)
    | Some e => e = ErrMemoryLimit ∧ 0 < mb_limit b
    end.
Proof.
  intros (rev & l & ps' & o & -> & Eem & -> & Hs) Hroom. exists ps'. split; [done|].
  destruct (emit_list_spec cap rev l ps b ps' _ o Hroom Eem) as [_ Ho]. by destruct o as [[e|]|].
Qed.


Section view.
Context `{GoStd} (v : View) (L : layout) (Ds : list delta) (HR : View_rep v L Ds).
Let G := view_graph L Ds.

(** One hop of the visible graph, between two numbered nodes. *)
Definition visible_hop (u w : NodeID) (k : KindID) : Prop := ∃ a b e,
  idx (view_ids v) u = Some a ∧ idx (view_ids v) w = Some b ∧ visible G !! e = Some (a, b, k).
End view.

(** A query on the example view: from node 0 to node 3. *)
Definition ex_query : Query :=
  mkQuery (mkEndpoint (Some [0]) None) (mkEndpoint (Some [3]) None) None ModeAll true 0 0 0 None 0 0.

Definition ex_fuel : N := 7 ^ 127 + 1.

Lemma ex_size L : base_graph L = staged_graph ex_nodes ex_edges →
  size (visible (view_graph L [ex_delta])) = 4%nat.
Proof. intros Hg. unfold view_graph. simpl. rewrite Hg. vm_compute. reflexivity. Qed.

Lemma ex_count v : ex_view = Some v → tv_NodeCount v = 4.
Proof. intros E. apply (computed ex_view v View_NodeCount _ E). vm_compute. reflexivity. Qed.

Lemma ex_query_ok v L : ex_view = Some v → View_rep v L [ex_delta] → View_NodeCount v < 2 ^ 31 →
  base_graph L = staged_graph ex_nodes ex_edges →
  query_ok v (view_rows v L) ex_query 4 ex_fuel 2.
Proof.
  intros E HR Hn Hg. pose proof (ex_count v E) as H4.
  split.
  - done.
  - split; [|repeat constructor]. apply Forall_singleton. rewrite H4. reflexivity.
  - split; [|repeat constructor]. apply Forall_singleton. rewrite H4. reflexivity.
  - intros fwd u. pose proof (view_rows_len v L _ HR Hn fwd u) as Hl. rewrite (ex_size L Hg) in Hl. exact Hl.
  - apply enough_fuel_pow. vm_compute. reflexivity.
  - reflexivity.
Qed.

(** ** The query *)



(** C12: a query whose two sides are given and whose pairs fit the pair budget
    is not refused for its size, if its depth fits the distances. *)
Theorem AllShortestPaths_accepted `{TraverseView V} (s : V) rows {HL : TraverseLaws s rows} (q : Query) Δ fuel procs pool :
  query_ok s rows q Δ fuel procs → pool_wf pool → (query_depth q ≤ 127)%nat → pairwise s q = true →
  ∃ pool' ans err, AllShortestPaths fuel procs s q pool = Some (pool', (ans, err)) ∧ err ≠ Some ErrTooLarge.
Proof.
  intros Hq Hp Hd Hpw. destruct (AllShortestPaths_answer s rows q Δ fuel procs pool Hq Hp) as (pool' & ans & err & E & _ & Hans).
  exists pool', ans, err. split; [done|]. destruct Hans as [(_ & _ & Hno)|Hans]; [rewrite Hpw in Hno; by specialize (Hno Hd)|].
  intros ->. destruct Hans as [[? _]|[? _]]; done.
Qed.

Lemma AllShortestPaths_accepted_witness : ∃ v pool' ans err, ex_view = Some v ∧
  AllShortestPaths ex_fuel 2 v ex_query [] = Some (pool', (ans, err)) ∧ err ≠ Some ErrTooLarge.
Proof.
  destruct ex_view_rep as (v & L & E & HR & Hn & Hg). pose proof (View_laws v L _ HR Hn) as HL.
  assert (query_depth ex_query ≤ 127)%nat as Hd by (vm_compute; lia).
  destruct (AllShortestPaths_accepted v (view_rows v L) ex_query 4 ex_fuel 2 [] (ex_query_ok v L E HR Hn Hg) (Forall_nil_2 _) Hd eq_refl)
    as (pool' & ans & err & Er & He). exists v, pool', ans, err. split; [exact E|]. split; [exact Er|exact He].
Defined.



(** ** Searches and enumerations *)

Section searches.
Context `{TraverseView V} (s : V) (rows : bool → NodeID → list hop).
Context {HL : TraverseLaws s rows}.
Context (q : Query).

(** What the engine knows of a searched pair is its answer, recorded on top
    of what the sink held, up to the cap. *)
Definition pair_recorded (M : nat) (r t : NodeID) (cap : Z) (b : memBudget) (ps : list Path)
    (sink : pathSink) (err : option goerr) : Prop :=
  ∃ h ps', pair_answer rows q M r t h ∧ sink_rep sink ps' ∧
    match err with
    | None => ps' = lim cap (ps ++ hit_paths h)
    | Some e => e = ErrMemoryLimit ∧ 0 < mb_limit b
    end.

Lemma enumerated_recorded M r t cap b ps res h : pair_answer rows q M r t h →
  enumerated cap (hit_paths h) b ps res → room cap ps → pair_recorded M r t cap b ps res.1.1 res.2.
Proof. intros Hh He Hroom. destruct (enumerated_lim _ _ _ _ _ He Hroom) as (ps' & Hs & Hp). by exists h, ps'. Qed.
End searches.

(** [bfsFrom] leaves in its buffer the distance of every node within the
    bound, in the direction asked for and over the allowed kinds, no distance
    for any other node, and returns the greatest distance. *)
Theorem bfsFrom_distances `{TraverseView V} (s : V) rows {HL : TraverseLaws s rows} kinds fwd seed (D : nat) sc :
  kinds_wf kinds → scratch_wf (tv_NodeCount s) sc → seed < tv_NodeCount s → (D ≤ 127)%nat →
  ∃ sc' deepest, bfsFrom s seed fwd kinds (Z.of_nat D) sc = Some (sc', deepest) ∧ scratch_wf (tv_NodeCount s) sc' ∧
    (∀ w, w < tv_NodeCount s → ∃ d, scratch_get sc' w = Some d ∧
      match d with
      | Some d => ∃ e, d = Z.of_nat e ∧ (e ≤ D)%nat ∧ (d ≤ deepest)%Z ∧ shortest (hops rows kinds fwd) e seed w
      | None => ∀ j, (j ≤ D)%nat → ¬ nsteps (hops rows kinds fwd) j seed w
      end) ∧ ∃ w, shortest (hops rows kinds fwd) (Z.to_nat deepest) seed w.
Proof.
  intros Hk Hsc Hseed HD.
  destruct (bfsFrom_spec s rows kinds Hk fwd seed D sc Hsc Hseed HD) as (sc' & deepest & m & E & Hrep & Hm & Hdeep).
  exists sc', deepest. split; [done|]. split; [apply Hrep|]. destruct Hdeep as (D0 & -> & (w0 & Hw0) & Hmax). split.
  - intros w Hw. exists (Z.of_nat <$> m !! w). split; [by apply Hrep|]. destruct (m !! w) as [e|] eqn:Ew; simpl.
    + exists e. pose proof (Hmax _ _ Ew). apply (bfs_map_iff _ _ _ _ _ _ Hm) in Ew as [? ?]. split_and!; [done..|lia|done].
    + intros j Hj Hs. destruct (proj2 Hm _ _ Hs Hj) as [e He]. by rewrite Ew in He.
  - exists w0. rewrite Nat2Z.id. by apply (bfs_map_iff _ _ _ _ _ _ Hm) in Hw0 as [? _].
Qed.

Lemma bfsFrom_distances_witness : ∃ v sc deepest, ex_view = Some v ∧
  bfsFrom v 0 true None 15 (newScratch 4) = Some (sc, deepest).
Proof.
  destruct ex_view_rep as (v & L & E & HR & Hn & Hg). pose proof (View_laws v L _ HR Hn) as HL.
  pose proof (ex_count v E) as H4.
  destruct (bfsFrom_distances v (view_rows v L) None true 0 15 (newScratch 4) I) as (sc & d & Eb & _);
    [rewrite H4; apply newScratch_wf|rewrite H4; reflexivity|lia|]. exists v, sc, d. split; [exact E|exact Eb].
Defined.

(** [pairShortest] returns the distance from [r] to [t] if it is within
    the bound, and [-1] otherwise (or when they are the same node), whatever
    side it grows at each level. *)
Theorem pairShortest_distance `{TraverseView V} (s : V) rows {HL : TraverseLaws s rows} kinds r t (M : nat) scF scT scTmp :
  kinds_wf kinds → bufs_wf s (scF, scT, scTmp) → r < tv_NodeCount s → t < tv_NodeCount s → (M ≤ 127)%nat →
  ∃ D scF' scT' scTmp', pairShortest s r t kinds (Z.of_nat M) scF scT scTmp = Some (D, scF', scT', scTmp') ∧
    bufs_wf s (scF', scT', scTmp') ∧
    if r =? t then D = (-1)%Z
    else (D = (-1)%Z ∧ ∀ j, (j ≤ M)%nat → ¬ nsteps (hops rows kinds true) j r t) ∨
      ∃ d : nat, D = Z.of_nat d ∧ shortest (hops rows kinds true) d r t ∧ (d ≤ M)%nat.
Proof.
  intros Hk (H1 & H2 & H3) Hr Ht HM.
  destruct (pairShortest_spec s rows kinds Hk r t M scF scT scTmp H1 H2 H3 Hr Ht HM)
    as (D & scF' & scT' & scTmp' & E & H1' & H2' & H3' & HD & _).
  exists D, scF', scT', scTmp'. split; [done|]. split; [by split|]. exact HD.
Qed.

Lemma pairShortest_distance_witness : ∃ v D scF scT scTmp, ex_view = Some v ∧
  pairShortest v 0 3 None 15 (newScratch 4) (newScratch 4) (newScratch 4) = Some (D, scF, scT, scTmp).
Proof.
  destruct ex_view_rep as (v & L & E & HR & Hn & Hg). pose proof (View_laws v L _ HR Hn) as HL.
  pose proof (ex_count v E) as H4.
  destruct (pairShortest_distance v (view_rows v L) None 0 3 15 (newScratch 4) (newScratch 4) (newScratch 4) I)
    as (D & a & b & c & Eb & _); [|rewrite H4; reflexivity|rewrite H4; reflexivity|lia|].
  - unfold bufs_wf. rewrite H4. split_and!; apply newScratch_wf.
  - exists v, D, a, b, c. split; [exact E|exact Eb].
Defined.

(** [pairPaths] records exactly the shortest paths of its pair, as many as
    the cap leaves room for, and stops early only at the memory limit. *)
Theorem pairPaths_records `{TraverseView V} (s : V) rows {HL : TraverseLaws s rows} (q : Query) Δ fuel r t (M : nat)
    cap b scs sink ps :
  kinds_wf (q_Kinds q) → (∀ fwd u, len (rows fwd u) ≤ Δ) → enough_fuel Δ fuel → bufs_wf s scs →
  r < tv_NodeCount s → t < tv_NodeCount s → (M ≤ 127)%nat → sink_rep sink ps → room cap ps →
  ∃ scs' sink' b' err,
    pairPaths fuel s r t (q_Kinds q) (Z.of_nat M) cap b scs.1.1 scs.1.2 scs.2 sink =
      Some (scs'.1.1, scs'.1.2, scs'.2, sink', b', err) ∧
    bufs_wf s scs' ∧ pair_recorded rows q M r t cap b ps sink' err.
Proof.
  intros Hk HΔ Hf Hw Hr Ht HM Hs Hroom. destruct scs as [[scF scT] scTmp]. simpl.
  destruct (search_pair s rows q Hk Δ HΔ M HM fuel Hf r t M scF scT scTmp Hr Ht (le_n _) Hw)
    as (D & scF' & scT' & scTmp' & E & Hw' & HD).
  unfold pairPaths. rewrite E. cbn [mbind option_bind]. destruct HD as [[-> Hno]|(d & L & -> & Hd & Hans & Hen)].
  - exists (scF', scT', scTmp'), sink, b, None. split; [done|]. split; [done|].
    apply (enumerated_recorded rows q M r t cap b ps (sink, b, None) None); [done| |done]. by exists false, [], ps, None.
  - rewrite (proj2 (Z.ltb_ge _ _)) by lia. destruct (Hen cap b sink ps Hs) as ([[sink' b'] err] & -> & Hres).
    cbn [mbind option_bind]. exists (scF', scT', scTmp'), sink', b', err. split; [done|]. split; [done|].
    by apply (enumerated_recorded rows q M r t cap b ps (sink', b', err) (Some (d, L))).
Qed.

Lemma pairPaths_records_witness : ∃ v scs sink b err, ex_view = Some v ∧
  pairPaths ex_fuel v 0 3 None 15 0 (mkMemBudget 0 0 0) (newScratch 4) (newScratch 4) (newScratch 4) pathSink_zero =
    Some (scs.1.1, scs.1.2, scs.2, sink, b, err).
Proof.
  destruct ex_view_rep as (v & L & E & HR & Hn & Hg). pose proof (View_laws v L _ HR Hn) as HL.
  pose proof (ex_count v E) as H4. pose proof (ex_query_ok v L E HR Hn Hg) as [_ _ _ HΔ Hf _].
  destruct (pairPaths_records v (view_rows v L) ex_query 4 ex_fuel 0 3 15 0 (mkMemBudget 0 0 0)
    (newScratch 4, newScratch 4, newScratch 4) pathSink_zero [] I HΔ Hf)
    as (scs & sink & b & err & Eb & _); [|rewrite H4; reflexivity|rewrite H4; reflexivity|lia|apply sink_rep_zero| |].
  - unfold bufs_wf. rewrite H4. split_and!; apply newScratch_wf.
  - intros Hc. lia.
  - exists v, scs, sink, b, err. split; [exact E|exact Eb].
Defined.

(** After a search from [elem], [enumerate] records exactly the shortest
    paths between [elem] and any node [from], read in the query's direction
    whichever end was searched. *)
Theorem enumerate_records `{TraverseView V} (s : V) rows {HL : TraverseLaws s rows} (q : Query) Δ fuel fwd elem from
    (M : nat) cap b sc sink ps :
  kinds_wf (q_Kinds q) → (∀ fwd u, len (rows fwd u) ≤ Δ) → enough_fuel Δ fuel → scratch_wf (tv_NodeCount s) sc →
  elem < tv_NodeCount s → from < tv_NodeCount s → (M ≤ 127)%nat → sink_rep sink ps → room cap ps →
  ∃ sc' deepest, bfsFrom s elem (negb fwd) (q_Kinds q) (Z.of_nat M) sc = Some (sc', deepest) ∧
    let '(r, t) := if fwd then (from, elem) else (elem, from) in
    ∃ found, scratch_get sc' from = Some found ∧
      match found with
      | None => pair_answer rows q M r t None
      | Some _ => ∃ sink' b' err, enumerate fuel s from sc' (q_Kinds q) cap b sink fwd = Some (sink', b', err) ∧
          pair_recorded rows q M r t cap b ps sink' err
      end.
Proof.
  intros Hk HΔ Hf Hsc Hel Hfrom HM Hs Hroom.
  destruct (bfsFrom_spec s rows (q_Kinds q) Hk (negb fwd) elem M sc Hsc Hel HM) as (sc' & deepest & m & E & Hrep & Hm & _).
  exists sc', deepest. split; [done|]. change (if fwd then (from, elem) else (elem, from)) with (side_pair fwd elem from).
  rewrite (surjective_pairing (side_pair fwd elem from)). exists (Z.of_nat <$> m !! from). split; [by apply Hrep|].
  destruct (m !! from) as [e|] eqn:He; simpl; [|by apply (side_unreached s rows q M fwd elem m Hm)].
  destruct (side_enumerated s rows q Hk Δ HΔ M HM fuel Hf fwd elem sc' m Hrep Hm from e cap b sink ps Hfrom He Hs)
    as ([[sink' b'] err] & -> & Hres). exists sink', b', err. split; [done|].
  apply (enumerated_recorded rows q M _ _ cap b ps (sink', b', err) (side_hit rows q fwd m from)); [|done..].
  by apply (side_hit_answer s rows q M HM fwd elem m Hm).
Qed.

Lemma enumerate_records_witness : ∃ v sc deepest, ex_view = Some v ∧
  bfsFrom v 0 true None 15 (newScratch 4) = Some (sc, deepest) ∧
  ∃ found, scratch_get sc 3 = Some found.
Proof.
  destruct ex_view_rep as (v & L & E & HR & Hn & Hg). pose proof (View_laws v L _ HR Hn) as HL.
  pose proof (ex_count v E) as H4. pose proof (ex_query_ok v L E HR Hn Hg) as [_ _ _ HΔ Hf _].
  destruct (enumerate_records v (view_rows v L) ex_query 4 ex_fuel false 0 3 15 0 (mkMemBudget 0 0 0)
    (newScratch 4) pathSink_zero [] I HΔ Hf)
    as (sc & deepest & Eb & found & Ef & _);
    [rewrite H4; apply newScratch_wf|rewrite H4; reflexivity|rewrite H4; reflexivity|lia|apply sink_rep_zero|intros Hc; lia|].
  exists v, sc, deepest. split; [exact E|]. split; [exact Eb|]. exists found. exact Ef.
Defined.

(** ** End points *)

(** [Iterate] calls its callback on the end point's nodes, in ascending
    order, until it asks to stop, and [Has] says yes to exactly these among the
    live nodes. *)
Theorem Endpoint_Iterate_Has `{TraverseView V} (s : V) rows {HL : TraverseLaws s rows} (e : Endpoint) : ep_wf s e →
  StronglySorted N.lt (ep_nodes s e) ∧
  (∀ S (fn : NodeID → S → option (S * bool)) st, Endpoint_Iterate e s fn st = iter_until fn (ep_nodes s e) st) ∧
  ∀ i, i < tv_NodeCount s → tv_Alive s i = true →
    ∃ b, Endpoint_Has e i = Some b ∧ (b = true ↔ i ∈ ep_nodes s e).
Proof.
  intros He. split; [|split].
  - unfold ep_wf, ep_nodes in *. destruct (ep_IDs e) as [ids|]; [apply He|]. destruct (ep_Bits e) as [b|].
    + by eapply Bitset_elems_sorted.
    + apply StronglySorted_filter, range_sorted.
  - intros S fn st. by apply (Endpoint_Iterate_nodes s rows).
  - intros i Hi Ha. destruct (Endpoint_Has_spec s e i He Hi) as (b & E & Hb). exists b. split; [exact E|by apply Hb].
Qed.

Lemma Endpoint_Iterate_Has_witness : ∃ v, ex_view = Some v ∧ StronglySorted N.lt (ep_nodes v (mkEndpoint None None)).
Proof.
  destruct ex_view_rep as (v & L & E & HR & Hn & Hg). pose proof (View_laws v L _ HR Hn) as HL.
  exists v. split; [exact E|]. apply (Endpoint_Iterate_Has v (view_rows v L) (mkEndpoint None None) I).
Defined.

(** [SelfEndpointConflict] never panics, and answers yes exactly when some
    node is on both sides and has an edge out. *)
Theorem SelfEndpointConflict_correct `{TraverseView V} (s : V) rows {HL : TraverseLaws s rows} roots terminals :
  ep_wf s roots → ep_wf s terminals →
  ∃ b, SelfEndpointConflict s roots terminals = Some b ∧
    (b = true ↔ ∃ i, i ∈ ep_nodes s roots ∧ i ∈ ep_nodes s terminals ∧ rows true i ≠ []).
Proof. intros Hr Ht. by apply (SelfEndpointConflict_spec s rows). Qed.

Lemma SelfEndpointConflict_correct_witness : ∃ v b, ex_view = Some v ∧
  SelfEndpointConflict v (mkEndpoint None None) (mkEndpoint None None) = Some b.
Proof.
  destruct ex_view_rep as (v & L & E & HR & Hn & Hg). pose proof (View_laws v L _ HR Hn) as HL.
  destruct (SelfEndpointConflict_correct v (view_rows v L) (mkEndpoint None None) (mkEndpoint None None) I I) as (b & Eb & _).
  exists v, b. split; [exact E|exact Eb].
Defined.

(** ** Buffers, budget and sink *)

(** After [reset] every distance of the buffer is gone, whatever it held
    and also when the 32-bit epoch wraps around; a [set] is then read back by
    [get], and leaves every other node's distance alone. *)
Theorem scratch_reset_set_get n sc v (d : nat) : scratch_wf n sc → v < n → ∃ sc',
  scratch_set (scratch_reset sc) v (Z.of_nat d) = Some sc' ∧ scratch_wf n sc' ∧
  ∀ w, w < n → scratch_get sc' w = Some (if decide (w = v) then Some (Z.of_nat d) else None).
Proof.
  intros Hsc Hv. destruct (scratch_set_rep n _ ∅ v d (scratch_reset_rep n sc Hsc) Hv) as (sc' & E & Hrep).
  exists sc'. split; [done|]. split; [apply Hrep|]. intros w Hw. rewrite (proj2 Hrep w Hw), insert_empty. f_equal.
  destruct (decide (w = v)) as [->|Hne]; [by rewrite lookup_singleton_eq|by rewrite lookup_singleton_ne].
Qed.

Lemma scratch_reset_set_get_witness :
  let sc := mkScratch [4294967295; 3] [7%Z; 9%Z] 4294967295 in
  ∃ sc', scratch_set (scratch_reset sc) 1 5 = Some sc' ∧ scratch_get sc' 0 = Some None.
Proof.
  intros sc. assert (scratch_wf 2 sc) as Hsc.
  { split; [vm_compute; discriminate|]. split; [reflexivity|]. split; [reflexivity|]. intros m Hm.
    apply elem_of_cons in Hm as [->|[->|Hm]%elem_of_cons]; [vm_compute; discriminate..|by apply not_elem_of_nil in Hm]. }
  destruct (scratch_reset_set_get 2 sc 1 5 Hsc eq_refl) as (sc' & E & _ & Hg). exists sc'. split; [exact E|].
  exact (Hg 0 eq_refl).
Defined.

(** The budget never promises more than its limit: as long as the sums fit
    64 bits, an accepted [add] or [reserve] keeps what is used and reserved
    within the limit, and a refused one changes nothing. *)
Theorem memBudget_within b n : 0 < mb_limit b → mb_reserved b + mb_used b + n < 2 ^ 64 →
  (let '(b', err) := memBudget_add b n in
   mb_limit b' = mb_limit b ∧ mb_reserved b' = mb_reserved b ∧
   match err with
   | None => mb_used b' = mb_used b + n ∧ mb_reserved b' + mb_used b' ≤ mb_limit b'
   | Some e => e = ErrMemoryLimit ∧ b' = b ∧ mb_limit b < mb_reserved b + mb_used b + n
   end) ∧
  (let '(b', ok) := memBudget_reserve b n in
   if ok then mb_used b' = mb_used b ∧ mb_reserved b' = mb_reserved b + n ∧ mb_reserved b' + mb_used b' ≤ mb_limit b
   else b' = b ∧ mb_limit b < mb_reserved b + mb_used b + n).
Proof.
  intros Hl Hs. unfold memBudget_add, memBudget_reserve, memBudget_over, u64.
  rewrite !N.mod_small by (rewrite ?N.mod_small by lia; lia). rewrite (proj2 (N.ltb_lt _ _) Hl). simpl.
  destruct (N.ltb_spec (mb_limit b) (mb_reserved b + mb_used b + n)); simpl; split_and!; try done; lia.
Qed.

Lemma memBudget_within_witness : (memBudget_add (mkMemBudget 100 40 10) 50).2 = None.
Proof.
  destruct (memBudget_within (mkMemBudget 100 40 10) 50) as [Ha _]; [reflexivity|reflexivity|].
  destruct (memBudget_add (mkMemBudget 100 40 10) 50) as [b' err] eqn:E. simpl. destruct Ha as (_ & _ & Ha).
  destruct err as [e|]; [|reflexivity]. destruct Ha as (_ & _ & Hlt). vm_compute in Hlt. discriminate Hlt.
Defined.

(** What is added to a sink is what it gives back: the paths come out in
    order, each as it was added or reversed, however they were spread over
    chunks; a reset empties it. *)
Theorem pathSink_roundtrip (adds : list (Path * bool)) : Forall (λ a, path_wf a.1) adds →
  ∃ s, foldM (λ s a, pathSink_add s (p_Nodes a.1) (p_Kinds a.1) a.2) adds pathSink_zero = Some s ∧
    pathSink_paths s = Some ((λ a, path_oriented a.2 a.1) <$> adds) ∧ sink_n s = len adds ∧
    pathSink_paths (pathSink_reset s) = Some [].
Proof.
  intros Hall. destruct (foldM_inv (λ pre s, sink_rep s ((λ a : Path * bool, path_oriented a.2 a.1) <$> pre))
    (λ s a, pathSink_add s (p_Nodes a.1) (p_Kinds a.1) a.2) adds pathSink_zero) as (s & E & Hs).
  - apply sink_rep_zero.
  - intros pre [p rev] post s -> Hs. apply Forall_app in Hall as [_ [Hp _]%Forall_cons_1]. destruct p as [ns ks].
    destruct (pathSink_add_rep s _ ns ks rev Hs Hp) as (s' & E & Hs'). exists s'. split; [exact E|].
    by rewrite fmap_app.
  - exists s. split; [done|]. split; [by apply pathSink_paths_rep|]. split; [by rewrite (sink_rep_n _ _ Hs), len_fmap|].
    eapply pathSink_paths_rep, sink_rep_reset.
Qed.

Lemma pathSink_roundtrip_witness :
  ∃ s, foldM (λ s (a : Path * bool), pathSink_add s (p_Nodes a.1) (p_Kinds a.1) a.2)
    [(mkPath [1; 2; 3] [7%Z; 8%Z], true); (mkPath [4; 5] [9%Z], false)] pathSink_zero = Some s ∧
  pathSink_paths s = Some [mkPath [3; 2; 1] [8%Z; 7%Z]; mkPath [4; 5] [9%Z]].
Proof.
  destruct (pathSink_roundtrip [(mkPath [1; 2; 3] [7%Z; 8%Z], true); (mkPath [4; 5] [9%Z], false)]) as (s & E & Ep & _).
  - repeat constructor; vm_compute; try discriminate; reflexivity.
  - exists s. split; [exact E|exact Ep].
Defined.

(** ** The view behind the engine *)

(** A represented view satisfies everything the path engine relies on,
    with rows that list, in both directions, the visible graph's edges. *)
Theorem View_traversable_laws `{GoStd} v L Ds : View_rep v L Ds → View_NodeCount v < 2 ^ 31 →
  TraverseLaws v (view_rows v L) ∧
  ∀ u w k, (w, k) ∈ view_rows v L true u ↔ visible_hop v L Ds u w k.
Proof.
  intros HR Hn. split; [by eapply View_laws|]. intros u w k. rewrite (view_rows_elem v L Ds HR).
  unfold visible_hop. naive_solver.
Qed.

Lemma View_traversable_laws_witness : ∃ v L, ex_view = Some v ∧ TraverseLaws v (view_rows v L).
Proof.
  destruct ex_view_rep as (v & L & E & HR & Hn & Hg). exists v, L. split; [exact E|].
  exact (proj1 (View_traversable_laws v L [ex_delta] HR Hn)).
Defined.
