(* ===== verification/EngineTheorems.v ===== *)
(** * The theorems about the engine

    A replica under concurrent writes, rebuilds and compactions; what one write
    does to the view; reading a write back; loading; the ledger of the
    watermark; the writes of the boot window. Each with a witness on the engine
    of [EngineExample]. *)

From S2P Require Import Prelude Bitset Csr Kinds Props Snapshot Builder Segment ParseProps View Unique ViewAdj ViewKinds EdgeKinds Fold FoldGraph.
From S2P Require Import Ledger ChangeSet Apply Candidates Readback ReadbackRuns ReadbackSpec BootGap Sizes Engine Compact WriteThrough WriteApply.
From S2P Require Import SnapshotFile LoadNodes Load Replica ReplicaSteps Boot Example EngineExample.
From stdpp Require Import options.
Unset Default Proof Using.
#[local] Open Scope N_scope.

(** ** The replica *)

Section replica.
Context `{GoStd} `{JsonStd} `{!JsonLaws}.
Context (pg_objectid : bytes → option string).


(** C9: from every state that steps can reach, in fallback or not and with any writes waiting, a rebuild whose load fits the memory limit leads to a state that serves exactly the database's nodes and edges. *)
Theorem replica_recovers s0 s a graphID snap w : (∀ b o, objectIDFromProps b = Some o → pg_objectid b = Some o) →
  start s0 → rtc (step pg_objectid) s0 s → answers_of (sy_db s) a → load_fits (sy_db s) →
  loadSnapshot graphID true true a = Some (inl (snap, w)) →
  (cfg_MemoryLimit (e_cfg (sy_engine s)) = 0 ∨ Snapshot_ApproxBytes snap ≤ cfg_MemoryLimit (e_cfg (sy_engine s))) →
  ∃ s' p L Ds, rtc (step pg_objectid) s s' ∧ sy_db s' = sy_db s ∧ sy_pending s' = sy_pending s ∧
    e_state (sy_engine s') = stateServing ∧ e_snap (sy_engine s') = Some p ∧ View_rep (vp_view p) L Ds ∧ view_graph L Ds = db_graph (sy_db s).
Proof.
  intros Hpg Hs Hr Ha Hfit Hl Hmem. pose proof (inv_run pg_objectid Hpg _ _ Hs Hr) as HI. destruct s as [d e pd bg ld h ev]. simpl in *.
  destruct graphID as [g|]; [|done]. pose proof (si_fine _ _ HI) as Hf. simpl in Hf. destruct Hfit as [Hfit Hsz].
  destruct (loadSnapshot_ok d a g Ha (df_ok _ _ _ Hf) (df_json _ _ _ Hf) Hfit Hsz true true) as (r & Er & Hok).
  rewrite Hl in Er. injection Er as <-. destruct Hok as (L & HR & HG & _).
  pose proof (step_rebuild_begin pg_objectid d e pd bg ld h ev) as S1. unfold rebuild_begin in S1.
  set (e1 := with_panicked e false) in *.
  pose proof (step_rebuild_load pg_objectid d e1 pd bg [] (e_applyEpoch e1) (t_settledDirtyGen (e_trust e1)) ld h ev a (Some g) snap w Ha (conj Hfit Hsz) Hl) as S2.
  pose proof (step_rebuild_end pg_objectid d e1 pd bg ld [] (e_applyEpoch e1) (t_settledDirtyGen (e_trust e1)) snap w h ev) as S3.
  rewrite !app_nil_r in *. set (e2 := (rebuild_end _ _ _ _).1) in S3.
  assert (e_state e2 = stateServing ∧ e_snap e2 = Some (mkViewPtr (e_next e, snap) [])) as [E1 E2].
  { unfold e2, rebuild_end. assert ((0 <? cfg_MemoryLimit (e_cfg e1)) && (cfg_MemoryLimit (e_cfg e1) <? Snapshot_ApproxBytes snap) = false) as ->.
    { apply andb_false_iff. rewrite !N.ltb_ge. simpl. destruct Hmem; [left|right]; lia. }
    unfold adoptRebuiltViewAndRebase, adoptRebuiltView. simpl. rewrite N.eqb_refl. simpl.
    destruct (loaded_counter w), (e_state e) eqn:Es; simpl; rewrite ?Es; done. }
  eexists _, _, L, []. split; [eapply rtc_l; [exact S1|]; eapply rtc_l; [exact S2|apply rtc_once, S3]|]. simpl.
  split_and!; [done|done|exact E1|exact E2|exact HR|exact HG].
Qed.
End replica.


(** The example's engine after a panic, loading again. *)
Lemma replica_recovers_witness : ∃ s' p L Ds,
  rtc (step en_pg_objectid) (with_engine en_start (backgroundPanicked (sy_engine en_start))) s' ∧
  e_state (sy_engine (with_engine en_start (backgroundPanicked (sy_engine en_start)))) = stateFallback ∧
  e_state (sy_engine s') = stateServing ∧ e_snap (sy_engine s') = Some p ∧ View_rep (vp_view p) L Ds ∧ view_graph L Ds = db_graph en_db.
Proof.
  destruct en_loaded as [[[snap w]|]|] eqn:El; [|vm_compute in El; discriminate..].
  pose proof (rtc_once _ _ (step_panic en_pg_objectid en_start)) as Hr. pose proof El as El'. unfold en_loaded in El'.
  destruct (replica_recovers en_pg_objectid en_start _ en_answers (Some 1%Z) snap w (λ b o Ho, Ho) en_start_ok Hr en_answers_of en_load_fits El')
    as (s' & p & L & Ds & Hr' & _ & _ & Hst & Hp & HR & HG).
  - right. assert (Snapshot_ApproxBytes snap <= 1000000) as Hle; [|exact Hle].
    assert (match en_loaded with Some (inl (s, _)) => Snapshot_ApproxBytes s <=? 1000000 | _ => true end = true) as Hb by (by vm_compute).
    rewrite El in Hb. by apply N.leb_le.
  - exists s', p, L, Ds. by split_and!.
Defined.

(** ** One write *)

(** A database beside a view of it, and the node ids there ever were. *)
Record beside `{GoStd} `{JsonStd} (d : database) (v : View) (L : layout) (Ds : list delta) (ever : gset N) : Prop := {
  bs_view : View_rep v L Ds;
  bs_db : database_ok d;
  bs_json : json_ok d;
  bs_names : names_true d v Ds;
  bs_room : N.of_nat (size ever) < 2 ^ 31;
  bs_numbered : numbered_within L Ds ever;
  bs_ever : ∀ id, is_Some (db_node d !! id) → id ∈ ever;
  bs_same : same_edges L Ds d;
}.

(** Why a read-back may fail. *)
Inductive read_error (answers : nat → option database) (defaultGraph : option Z) (d : database) (cs : ChangeSet) `{GoStd} : goerr → Prop :=
  | re_query n : answers n = None → read_error answers defaultGraph d cs ErrQuery
  | re_graph : defaultGraph = None → read_error answers defaultGraph d cs ErrNoGraph
  | re_unnamed k : (∃ id n, db_node d !! id = Some n ∧ k ∈ dn_kind_ids n) ∨ (∃ e s t, db_edge d !! e = Some (s, t, k)) →
      db_kind d !! k = None → read_error answers defaultGraph d cs ErrUnnamedKind
  | re_unknown cr kind : cr ∈ NodeKindCriteria cs → kind ∈ nk_Exclude cr → kind = None ∨ (∀ k, db_kind d !! k ≠ Some (kindName kind)) →
      read_error answers defaultGraph d cs (ErrUnknownKind (kindName kind)).

Lemma reached_beside `{GoStd} `{JsonStd} (pg_objectid : bytes → option string) s p : sys_inv pg_objectid s →
  e_state (sy_engine s) = stateServing → e_snap (sy_engine s) = Some p → ∃ L Ds, beside (sy_db s) (vp_view p) L Ds (sy_ever s).
Proof.
  intros HI Hst Hp. destruct (si_view _ _ HI Hst p Hp) as (L & Ds & HR & Hrows & Hn & HL). pose proof (si_fine _ _ HI) as Hf. exists L, Ds.
  split; [done|apply Hf|apply Hf|done|apply Hf|by eapply numbered_layers|by apply (df_ever _ _ _ Hf)|].
  intros e x y Hx Hy. pose proof (lookup_weaken _ _ _ _ Hx (ro_hist _ _ _ _ _ Hrows)). pose proof (lookup_weaken _ _ _ _ Hy (df_hist _ _ _ Hf)). congruence.
Qed.

Section write.
Context `{GoStd} `{JsonStd} `{!JsonLaws}.
Context (pg_objectid : bytes → option string) (answers : nat → option database) (defaultGraph : option Z).

(** C7: reading a write's change set back, from a database at rest, takes a finite number of queries and either fails, for one of four reasons the engine knows, or tells the truth about every row the write covers: each is read as it stands or reported gone, and nothing else is reported. *)
Theorem readBack_correct d v L Ds ever cs : beside d v L Ds ever → (∀ b o, objectIDFromProps b = Some o → pg_objectid b = Some o) →
  (∀ n d', answers n = Some d' → d' = d) →
  ∃ n r, readBack pg_objectid answers defaultGraph (Some v) cs 0%nat = Some (n, r) ∧
    match r with
    | inl (rb, cs') => read_back_ok pg_objectid v L Ds d cs rb cs'
    | inr err => read_error answers defaultGraph d cs err
    end.
Proof.
  intros [HR Hdb Hj Hn Hroom Hnum Hev Hsame] Hpg Hrest.
  destruct (wp_readBack pg_objectid answers defaultGraph v L Ds HR d (read_error answers defaultGraph d cs) cs Hrest Hdb
    (names_view_kinds d v L Ds HR Hn) Hpg) with (s := 0%nat) as (n & r & E & Hr); [by econstructor..|].
  exists n, r. split; [exact E|]. by destruct r as [[rb cs']|err].
Qed.

(** C6: while the engine serves, applying a write that names anything either ends in fallback, for one of the reasons of [gives_up], with the published view as it was; or publishes a view of at most 32 segments over the same base that shows the old graph with one change, and that change makes every row the write covers what the database has and touches no other row except to make it so. *)
Theorem apply_changes_correct e p L Ds d s ever : beside d (vp_view p) L Ds ever → (∀ b o, objectIDFromProps b = Some o → pg_objectid b = Some o) →
  (∀ n d', answers n = Some d' → d' = d) →
  cfg_Enabled (e_cfg e) = true → e_state e = stateServing → e_snap e = Some p → ChangeSet_Empty (ws_changes s) = false →
  let e' := apply_changes pg_objectid answers defaultGraph e (Some s) in
  (gives_up pg_objectid e p L Ds d (read_error answers defaultGraph d (ws_changes s)) s ∧ e_state e' = stateFallback ∧ e_snap e' = Some p) ∨
  ∃ D p' Ds', e_state e' = stateServing ∧ e_snap e' = Some p' ∧ View_rep (vp_view p') L Ds' ∧
    vp_base p' = vp_base p ∧ len (vp_segments p') ≤ maxSegments ∧
    view_graph L Ds' = apply_delta (view_graph L Ds) D ∧ refreshed pg_objectid L Ds d (ws_changes s) D.
Proof.
  intros [HR Hdb Hj Hn Hroom Hnum Hev Hsame] Hpg Hrest Hen Hst Hsn Hne.
  destruct (apply_changes_ok pg_objectid answers defaultGraph e p L Ds HR d (read_error answers defaultGraph d (ws_changes s)) s ever Hrest Hdb Hn Hpg
    (λ n, re_query _ _ _ _ n) (re_graph _ _ _ _) (λ k, re_unnamed _ _ _ _ k) (λ cr kind, re_unknown _ _ _ _ cr kind) Hj Hroom Hnum Hev Hsame Hen Hst Hsn Hne)
    as [(Hg & next & _ & Hc)|(seg & D & p' & Ds' & Href & HP)].
  - left. unfold core in Hc. injection Hc as _ E1 E2 _ _ _. by split_and!.
  - right. exists D, p', Ds'. destruct (published_graph _ _ _ _ _ _ _ _ _ HP) as [_ HG]. destruct (pb_core _ _ _ _ _ _ _ _ _ HP) as (_ & E & _).
    rewrite E. destruct HP. by split_and!.
Qed.
End write.

(** The example's engine before the write is applied, beside the database after it. *)
Lemma en_beside : ∃ e p L Ds, en_serving = Some e ∧ e_state e = stateServing ∧ cfg_Enabled (e_cfg e) = true ∧ e_snap e = Some p ∧
  beside en_db2 (vp_view p) L Ds en_ever2.
Proof.
  destruct en_run_loaded as (e & Ee & Hr). pose proof en_serving_facts as Hf. rewrite Ee in Hf. injection Hf as Hst _.
  assert (∃ p, e_snap e = Some p) as [p Hp].
  { assert (is_Some (en_serving ≫= e_snap)) as Hx by (vm_compute; by eexists). rewrite Ee in Hx. exact Hx. }
  assert (rtc (step en_pg_objectid) en_start (mkSystem en_db2 e [Some en_scope] [] [] en_hist2 en_ever2)) as Hr'.
  { etrans; [exact Hr|]. apply rtc_once, (step_commit _ _ _ _ _ _ _ _ _ _ _ en_commit en_fine2). }
  pose proof (inv_run en_pg_objectid (λ b o Ho, Ho) _ _ en_start_ok Hr') as HI.
  destruct (reached_beside en_pg_objectid _ p HI Hst Hp) as (L & Ds & HB). exists e, p, L, Ds. split_and!; [done|done|apply HI|done|exact HB].
Qed.

Lemma readBack_correct_witness : ∃ e p L Ds, en_serving = Some e ∧ e_snap e = Some p ∧
  ∃ n rb, readBack en_pg_objectid (λ _, Some en_db2) (Some 1%Z) (Some (vp_view p)) en_changes 0%nat = Some (n, inl (rb, en_changes)) ∧
    read_back_ok en_pg_objectid (vp_view p) L Ds en_db2 en_changes rb en_changes ∧ (nst_id <$> rb_nodes rb, est_id <$> rb_edges rb) = ([30], [101]).
Proof.
  destruct en_beside as (e & p & L & Ds & Ee & _ & _ & Hp & HB). exists e, p, L, Ds. split_and!; [done|done|].
  destruct (readBack_correct en_pg_objectid (λ _, Some en_db2) (Some 1%Z) en_db2 (vp_view p) L Ds en_ever2 en_changes HB (λ b o Ho, Ho))
    as (n & r & Er & Hr); [by intros ? ? [= <-]|].
  assert ((e ← en_serving; p ← e_snap e; '(_, r) ← readBack en_pg_objectid (λ _, Some en_db2) (Some 1%Z) (Some (vp_view p)) en_changes 0%nat;
    match r with inl (rb, _) => Some (nst_id <$> rb_nodes rb, est_id <$> rb_edges rb) | inr _ => None end) = Some ([30], [101])) as Hx by (by vm_compute).
  rewrite Ee in Hx. cbn [mbind option_bind] in Hx. rewrite Hp in Hx. cbn [mbind option_bind] in Hx. rewrite Er in Hx. cbn [mbind option_bind] in Hx.
  destruct r as [[rb cs']|]; [|done]. injection Hx as Hx Hx2. assert (cs' = en_changes) as -> by (apply (rb_quiet _ _ _ _ _ _ _ _ Hr); by vm_compute).
  exists n, rb. rewrite Hx, Hx2. split; [exact Er|split; [exact Hr|reflexivity]].
Defined.

Lemma apply_changes_correct_witness : ∃ e p L Ds, en_serving = Some e ∧ e_snap e = Some p ∧
  let e' := apply_changes en_pg_objectid (λ _, Some en_db2) (Some 1%Z) e (Some en_scope) in
  ∃ D p' Ds', e_state e' = stateServing ∧ e_snap e' = Some p' ∧ View_rep (vp_view p') L Ds' ∧
    view_graph L Ds' = apply_delta (view_graph L Ds) D ∧ refreshed en_pg_objectid L Ds en_db2 en_changes D.
Proof.
  destruct en_beside as (e & p & L & Ds & Ee & Hst & Hen & Hp & HB). exists e, p, L, Ds. split_and!; [done|done|]. intros e'.
  destruct (apply_changes_correct en_pg_objectid (λ _, Some en_db2) (Some 1%Z) e p L Ds en_db2 en_scope en_ever2 HB (λ b o Ho, Ho))
    as [(_ & Hs & _)|(D & p' & Ds' & H1 & H2 & H3 & _ & _ & H4 & H5)]; [by intros ? ? [= <-]|done|done|done|by vm_compute| |].
  - exfalso. assert ((λ e, e_state (apply_changes en_pg_objectid (λ _, Some en_db2) (Some 1%Z) e (Some en_scope))) <$> en_serving = Some stateServing) as Hx
      by (by vm_compute). rewrite Ee in Hx. injection Hx as Hx. fold e' in Hs, Hx. congruence.
  - exists D, p', Ds'. exact (conj H1 (conj H2 (conj H3 (conj H4 H5)))).
Defined.

(** ** The stack of segments *)

Section stack.
Context `{GoStd}.

(** C26: maintaining the stack after a publication never panics and leaves a published view of at most 32 segments over the same base, of the same graph. *)
Theorem maintainAfterPublish_correct e p L Ds : View_rep (vp_view p) L Ds → e_snap e = Some p →
  ∃ e' p' Ds', maintainAfterPublish e p = Some e' ∧ e_snap e' = Some p' ∧ e_state e' = e_state e ∧ vp_base p' = vp_base p ∧
    View_rep (vp_view p') L Ds' ∧ view_graph L Ds' = view_graph L Ds ∧ len (vp_segments p') ≤ maxSegments.
Proof.
  intros HR Hsn. unfold maintainAfterPublish. destruct (collapse_ok e p L Ds HR) as (e2 & p2 & Ds2 & -> & HR2 & HD & Hlen & Hb & Hcase).
  cbn [mbind option_bind]. destruct (core_maybeStartCompaction e2 p2) as (M1 & (_ & M2 & _) & _). eexists _, p2, Ds2. split; [done|].
  rewrite M1, M2. assert (e_snap e2 = Some p2 ∧ e_state e2 = e_state e) as [-> ->] by (destruct Hcase as [(-> & -> & _)|(_ & -> & _)]; by split).
  split_and!; try done. by rewrite !view_graph_all, HD.
Qed.
End stack.

(** C20: a compaction of what was captured, run on any engine that steps can reach and that serves, leaves it serving unless the fold itself panics, with the compaction flag down; it publishes nothing, or a view of the folded base and at most one segment that has the nodes and edges of the view before, less edges the database has dropped too. *)
Theorem runCompaction_correct `{GoStd} `{JsonStd} `{!JsonLaws} pg_objectid s0 s base segs stopped stopped' :
  (∀ b o, objectIDFromProps b = Some o → pg_objectid b = Some o) → start s0 → rtc (step pg_objectid) s0 s →
  e_state (sy_engine s) = stateServing → (base, segs) ∈ compactions (l_spawned (e_loops (sy_engine s))) → fold_fits base.2 segs.*2 →
  let e' := runCompaction stopped stopped' (sy_engine s) base segs in
  l_compacting (e_loops e') = false ∧
  ((e_state e' = stateFallback ∧ FoldWithPendingEdges base.2 segs.*2 = None) ∨
   e_state e' = stateServing ∧
   (e_snap e' = e_snap (sy_engine s) ∨
    ∃ p p' L Ds L' Ds', e_snap (sy_engine s) = Some p ∧ e_snap e' = Some p' ∧ View_rep (vp_view p) L Ds ∧ View_rep (vp_view p') L' Ds' ∧
      len (vp_segments p') ≤ 1 ∧ shows_same (sy_db s) (view_graph L Ds) (view_graph L' Ds'))).
Proof.
  intros Hpg Hs Hr Hst Htask Hfits. pose proof (inv_run pg_objectid Hpg _ _ Hs Hr) as HI. intros e'. split; [done|].
  unfold e', runCompaction, foldAndAdoptCompaction. destruct stopped; [right; split; [done|by left]|].
  destruct (FoldWithPendingEdges base.2 segs.*2) as [[[folded pend]|err]|] eqn:EF; [|right; split; [done|by left]|].
  2: { left. split; [|done]. pose proof (core_enterFallback (sy_engine s)) as Hc. unfold core in Hc. by injection Hc. }
  destruct stopped'; [right; split; [done|by left]|]. right.
  destruct (adopt_cases pg_objectid s HI base segs Htask Hfits folded pend EF) as (e2 & adopted & -> & Hst2 & _ & Hcase).
  destruct adopted; (split; [simpl; congruence|]); [right|left; simpl; by rewrite Hcase].
  destruct Hcase as (p & p' & L & Ds & L' & Ds' & ? & ? & ? & ? & ? & _ & ?). by exists p, p', L, Ds, L', Ds'.
Qed.

Lemma maintainAfterPublish_correct_witness : ∃ e p L Ds e' p' Ds', en_serving = Some e ∧ e_snap e = Some p ∧
  maintainAfterPublish e p = Some e' ∧ e_snap e' = Some p' ∧ View_rep (vp_view p') L Ds' ∧ view_graph L Ds' = view_graph L Ds ∧
  len (vp_segments p') ≤ 32.
Proof.
  destruct en_beside as (e & p & L & Ds & Ee & _ & _ & Hp & HB).
  destruct (maintainAfterPublish_correct e p L Ds (bs_view _ _ _ _ _ HB) Hp) as (e' & p' & Ds' & H1 & H2 & _ & _ & H3 & H4 & H5).
  exists e, p, L, Ds, e', p', Ds'. exact (conj Ee (conj Hp (conj H1 (conj H2 (conj H3 (conj H4 H5)))))).
Defined.

(** The write of the example trips the threshold; what the compaction captured
    is the whole view, and it is adopted. *)
Record captures (e : Engine) (p : viewPtr) (base : ref Snapshot) (segs : list (ref Segment)) (seg : Segment) : Prop := {
  cp_engine : en_applied = Some e;
  cp_state : e_state e = stateServing;
  cp_snap : e_snap e = Some p;
  cp_task : (base, segs) ∈ compactions (l_spawned (e_loops e));
  cp_base : (vp_base p).1 = base.1;
  cp_segs : segmentsAfter (vp_segments p) segs = Some [];
  cp_seg : segs.*2 = [seg];
  cp_room : EdgeCount base.2 + N.of_nat (size (sg_edgeStates seg)) < 2 ^ 32;
  cp_adopted : (p' ← e_snap (runCompaction false false e base segs); Some (len (vp_segments p'), len (vp_segments p))) = Some (0, 1);
}.
Lemma en_captured : ∃ e p base segs seg, captures e p base segs seg.
Proof.
  assert ((e ← en_applied; p ← e_snap e; '(b, sg) ← head (compactions (l_spawned (e_loops e))); tail ← segmentsAfter (vp_segments p) sg;
    x ← head sg.*2; p' ← e_snap (runCompaction false false e b sg);
    Some (e_state e, (vp_base p).1 =? b.1, len tail, len sg, EdgeCount b.2 + N.of_nat (size (sg_edgeStates x)) <? 2 ^ 32, (len (vp_segments p'), len (vp_segments p)))) =
    Some (stateServing, true, 0, 1, true, (0, 1))) as Hx by (by vm_compute).
  destruct en_applied as [e|] eqn:Ee; [|done]. cbn [mbind option_bind] in Hx. destruct (e_snap e) as [p|] eqn:Ep; [|done]. cbn [mbind option_bind] in Hx.
  destruct (compactions _) as [|[b sg] l] eqn:Ec; [done|]. cbn [mbind option_bind head] in Hx.
  destruct (segmentsAfter (vp_segments p) sg) as [tail|] eqn:Et; [|done]. cbn [mbind option_bind] in Hx.
  destruct sg as [|x sg]; [done|]. cbn [head fmap list_fmap mbind option_bind] in Hx.
  destruct (e_snap (runCompaction _ _ _ _ _)) as [p'|] eqn:Ep'; [|done]. cbn [mbind option_bind] in Hx.
  injection Hx as H1 H2%N.eqb_eq H3 H4 H5%N.ltb_lt H6 H7.
  destruct sg as [|y sg]; [|simpl in H4; lia]. destruct tail as [|y tail]; [|rewrite len_cons in H3; lia].
  exists e, p, b, [x], x.2. split; [exact Ee|exact H1|exact Ep|rewrite Ec; left|exact H2|exact Et|reflexivity|exact H5|].
  rewrite Ep'. cbn [mbind option_bind]. rewrite H6, H7. reflexivity.
Qed.

Lemma en_fits2 : graph_fits (db_graph en_db2).
Proof. by vm_compute. Qed.
Lemma en_fold_fits e p base segs seg : captures e p base segs seg →
  rtc (step en_pg_objectid) en_start (mkSystem en_db2 e [] [] [] en_hist2 en_ever2) → fold_fits base.2 segs.*2.
Proof.
  intros [Ee Hst Hp Ht Eb Es Eseg Hsz _] Hr L' Ds' HR'. pose proof (inv_run en_pg_objectid (λ b o Ho, Ho) _ _ en_start_ok Hr) as HI.
  destruct (captured_same en_pg_objectid _ HI base segs Ht p [] Hp Eb Es) as [Hb Hs]. rewrite app_nil_r in Hs.
  destruct (si_view _ _ HI Hst p Hp) as (L & Ds & HR & Hrows & _). unfold vp_view in HR. rewrite Hb, Hs in HR.
  destruct (View_rep_inj _ _ _ _ _ HR' HR) as (-> & -> & ->). split.
  - destruct (rows_settled en_pg_objectid _ _ _ _ en_fine2 Hrows) as [HG _]. unfold graph_fits, graph_list. rewrite HG. exact en_fits2.
  - rewrite Eseg in HR. destruct HR as [[P _] HF _ _]. inversion HF as [|? D ? ? HD HF']; subst. inversion HF'; subst.
    rewrite delta_all_single, (sr_edges _ _ HD), map_size_fmap. unfold lo_edges, lo_slots. rewrite len_fmap, len_slots.
    unfold EdgeCount in Hsz. cbn [v_base] in P. rewrite (pk_targets _ _ P), len_fmap in Hsz. exact Hsz.
Qed.

Lemma runCompaction_correct_witness : ∃ e base segs, en_applied = Some e ∧ (base, segs) ∈ compactions (l_spawned (e_loops e)) ∧
  let e' := runCompaction false false e base segs in
  e_state e' = stateServing ∧ ∃ p p' L Ds L' Ds', e_snap e = Some p ∧ e_snap e' = Some p' ∧ View_rep (vp_view p) L Ds ∧ View_rep (vp_view p') L' Ds' ∧
      len (vp_segments p') ≤ 1 ∧ shows_same en_db2 (view_graph L Ds) (view_graph L' Ds').
Proof.
  destruct en_captured as (e & p & base & segs & seg & HC). destruct en_run as (e0 & Ee0 & Hr).
  assert (e0 = e) as -> by (pose proof (cp_engine _ _ _ _ _ HC); congruence).
  pose proof (en_fold_fits e p base segs seg HC Hr) as Hfit. destruct HC as [Ee Hst Hp Ht _ _ _ _ Had].
  destruct (runCompaction_correct en_pg_objectid en_start _ base segs false false (λ b o Ho, Ho) en_start_ok Hr Hst Ht Hfit)
    as [_ [[_ Hf]|[Hs [Hsame|Hx]]]].
  - exfalso. unfold runCompaction, foldAndAdoptCompaction in Had. rewrite Hf in Had. cbn [set_compacting backgroundPanicked] in Had.
    change (e_snap (set_compacting (backgroundPanicked e, None : option (Snapshot * N)).1 false)) with (e_snap (enterFallback e)) in Had.
    pose proof (core_enterFallback e) as Hc. unfold core in Hc. injection Hc as _ Hc _ _ _ _. rewrite Hc, Hp in Had.
    cbn [mbind option_bind] in Had. injection Had as H1 H2. rewrite H1 in H2. discriminate H2.
  - exfalso. cbn [sy_engine] in Hsame. rewrite Hsame, Hp in Had. cbn [mbind option_bind] in Had. injection Had as H1 H2. rewrite H1 in H2. discriminate H2.
  - exists e, base, segs. exact (conj Ee (conj Ht (conj Hs Hx))).
Defined.

(** ** Loading *)

Section load.
Context `{GoStd} `{JsonStd} `{!JsonLaws}.

(** C21: loading from a database whose sizes fit gives a snapshot whose graph is the database's, nothing dropped, stamped with the counter and lineage that were read; or it reports that the property names or the arena overflow. It never panics. *)
Theorem loadSnapshot_correct d a graphID withCounter withLineage : answers_of d a → database_ok d → json_ok d → load_fits d →
  ∃ r, loadSnapshot (Some graphID) withCounter withLineage a = Some r ∧
    match r with
    | inr err => err = LoadStage ErrTooManyProps ∨ err = LoadStage ErrArenaFull
    | inl (s, w) => ∃ L, View_rep (NewView s) L [] ∧ base_graph L = db_graph d ∧ NewKindTable (db_kind d) = Some (Kinds s) ∧
        GraphID s = graphID ∧ MultiGraph s = probeMultiGraph (default 0 (ans_graphs a)) ∧ DroppedEdges s = 0 ∧
        (w, WatermarkLineage s) = loadWatermark withCounter withLineage a
    end.
Proof. intros Ha Hdb Hj [Hf Hsz]. by apply loadSnapshot_ok. Qed.

(** C22: the pipeline that loads the nodes (a scanner, workers, a stager, bounded channels, cancellation and errors at any moment) has only finite runs, and in every state of a run it is finished or can go on, so no goroutine waits for ever; when it finishes without an error it has staged every row in the order of the rows, as a plain loop would. *)
Theorem loadNodes_correct rows capacity workers b0 : (0 < workers)%nat → (0 < capacity)%nat →
  Acc (λ q' q, pipe_step rows capacity q q') (pipe_start b0 workers) ∧
  ∀ q, rtc (pipe_step rows capacity) (pipe_start b0 workers) q →
    (pipe_final q ∨ ∃ q', pipe_step rows capacity q q') ∧
    (pipe_final q → match pp_err q with
      | None => stage_rows rows b0 = Some (pp_builder q, inl ())
      | Some (LoadStage err) => ∃ b', stage_rows rows b0 = Some (b', inr err)
      | Some LoadPanicked => stage_rows rows b0 = None
      | Some _ => True
      end).
Proof.
  intros Hw Hc. destruct (pipe_runs rows capacity _ b0 (pipe_inv_start rows b0 workers Hw) Hc) as [Hacc Hrun]. split; [done|].
  intros q Hq. destruct (Hrun q Hq) as [HI Hgo]. split; [done|]. intros Hf. by apply (pipe_final_result rows).
Qed.

End load.

Lemma loadSnapshot_correct_witness : ∃ s w L, loadSnapshot (Some 1%Z) true true en_answers = Some (inl (s, w)) ∧
  View_rep (NewView s) L [] ∧ base_graph L = db_graph en_db ∧ DroppedEdges s = 0.
Proof.
  destruct (loadSnapshot_correct en_db en_answers 1 true true en_answers_of en_db_ok (df_json _ _ _ en_fine) en_load_fits) as (r & Er & Hr).
  assert (match loadSnapshot (Some 1%Z) true true en_answers with Some (inl _) => true | _ => false end = true) as Hx by (by vm_compute).
  rewrite Er in Hx. destruct r as [[s w]|]; [|discriminate Hx]. destruct Hr as (L & HR & HG & _ & _ & _ & Hd & _).
  exists s, w, L. exact (conj Er (conj HR (conj HG Hd))).
Defined.

Lemma loadNodes_correct_witness :
  let rows := [(10, en_node 1 "A"); (20, en_node 2 "B")] in
  Acc (λ q' q, pipe_step rows 1 q q') (pipe_start (NewBuilder 1) 2) ∧
  ∀ q, rtc (pipe_step rows 1) (pipe_start (NewBuilder 1) 2) q → pipe_final q ∨ ∃ q', pipe_step rows 1 q q'.
Proof.
  intros rows. destruct (loadNodes_correct rows 1 2 (NewBuilder 1) ltac:(lia) ltac:(lia)) as [HA HB].
  split; [exact HA|]. intros q Hq. exact (proj1 (HB q Hq)).
Defined.

(** ** The ledger of the watermark *)

Inductive ledger_event := Resolved (counter : N) | Rebased (floor : N).
Definition ledger_step (l : watermarkLedger) (e : ledger_event) : option watermarkLedger :=
  match e with Resolved c => ledger_resolve l c | Rebased f => Some (ledger_rebase l f) end.
Definition event_value (e : ledger_event) : N := match e with Resolved c => c | Rebased f => f end.
Definition resolved_values (evs : list ledger_event) : list N := omap (λ e, match e with Resolved c => Some c | _ => None end) evs.
Definition rebased_floor (evs : list ledger_event) : N := foldl (λ F e, match e with Rebased f => N.max F f | _ => F end) 0 evs.

Lemma ledger_run_rep evs : Forall (λ e, event_value e < 2 ^ 63) evs →
  ∃ l, foldM ledger_step evs zeroLedger = Some l ∧ ledger_rep l (rebased_floor evs) (resolved_values evs).
Proof.
  induction evs as [|e evs IH] using rev_ind; intros Hev; [exists zeroLedger; split; [done|apply zeroLedger_rep]|].
  apply Forall_app in Hev as [Hev He]. inversion_clear He as [|? ? Hv _]. destruct (IH Hev) as (l & El & HL).
  rewrite foldM_app, El. cbn [mbind option_bind foldM]. unfold rebased_floor, resolved_values. rewrite foldl_app, omap_app. simpl.
  destruct e as [c|f]; simpl in *.
  - destruct (ledger_resolve_rep _ _ _ c HL Hv) as (l' & -> & HL'). by exists l'.
  - eexists. split; [done|]. rewrite app_nil_r. by apply ledger_rebase_rep.
Qed.

(** C23: after any sequence of resolved values and rebases below 2^63, in any order and with repetitions, the ledger never panics; every value up to the watermark it reports was resolved or is below a rebase's floor; as long as it says it is exact the next value was not, so the watermark is the greatest one; and it keeps at most 4096 ranges, losing precision only after more than 4096 values. *)
Theorem ledger_correct evs : Forall (λ e, event_value e < 2 ^ 63) evs →
  ∃ l through exact, foldM ledger_step evs zeroLedger = Some l ∧ resolvedThrough l = (through, exact) ∧
    rebased_floor evs ≤ through ∧ (∀ n, n ≤ through → accounted (rebased_floor evs) (resolved_values evs) n) ∧
    (exact = true → ¬ accounted (rebased_floor evs) (resolved_values evs) (through + 1)) ∧
    (exact = false → maxLedgerRanges < len (resolved_values evs)) ∧ len (wl_above l) ≤ maxLedgerRanges.
Proof.
  intros Hev. destruct (ledger_run_rep evs Hev) as (l & El & HL). exists l, (wl_through l), (negb (wl_lost l)).
  split_and!; [done|done|apply HL|apply HL| | |apply HL].
  - intros Hx%negb_true_iff Ha. destruct (lr_exact _ _ _ HL Hx) as [Hok Hiff]. apply Hiff in Ha as [?|Hin]; [lia|].
    destruct (in_runs_range _ _ _ Hok Hin). lia.
  - intros Hx%negb_false_iff. by apply (lr_lost _ _ _ HL).
Qed.
Lemma ledger_correct_witness : ∃ l, foldM ledger_step [Resolved 3; Resolved 1; Rebased 1; Resolved 2; Resolved 5] zeroLedger = Some l ∧
  resolvedThrough l = (3, true).
Proof.
  destruct (ledger_correct [Resolved 3; Resolved 1; Rebased 1; Resolved 2; Resolved 5]) as (l & t & x & El & Et & _); [by repeat constructor|].
  exists l. split; [exact El|]. vm_compute in El. injection El as <-. reflexivity.
Defined.

(** ** The writes of the boot window *)



(** ** What a write says it touched *)


(** Two kind lists with one key: the second delete replaces the first. *)
Example kindsKey_collision : kindsKey [Some "A,B"%string] = kindsKey [Some "A"%string; Some "B"%string] ∧
  EdgeKindCriteria (recorded [CDeleteEdges [Some "A"%string; Some "B"%string]; CDeleteEdges [Some "A,B"%string]]) = [[Some "A,B"%string]].
Proof. by vm_compute. Qed.

(** ** Starting from a file *)

Lemma fileRefusal_none at_ lineage stamp pgLineage : fileRefusal at_ lineage stamp pgLineage = EmptyString ↔
  lineage ≠ zero_lineage ∧ lineage = pgLineage ∧ ∃ a, at_ = Some a ∧ st_Watermark stamp ≤ at_counter a ∧
    (at_counter a = st_Watermark stamp → at_nodeSeq a = st_NodeIDSeq stamp ∧ at_edgeSeq a = st_EdgeIDSeq stamp).
Proof.
  unfold fileRefusal, counterBehindFile, insertedSinceFile. destruct (decide (lineage = zero_lineage)) as [Hz|Hz];
    [rewrite bool_decide_true by done; simpl; naive_solver|rewrite bool_decide_false by done].
  destruct (decide (lineage = pgLineage)) as [Hl|Hl]; [rewrite bool_decide_true by done|rewrite bool_decide_false by done; simpl; naive_solver]. simpl.
  destruct at_ as [a|]; [|naive_solver]. destruct (N.ltb_spec (at_counter a) (st_Watermark stamp)) as [Hc|Hc].
  { split; [done|]. intros (_ & _ & a' & [= <-] & ? & _). lia. }
  destruct (N.eqb_spec (at_counter a) (st_Watermark stamp)) as [Ec|Ec]; simpl.
  - destruct (Z.eqb_spec (at_nodeSeq a) (st_NodeIDSeq stamp)), (Z.eqb_spec (at_edgeSeq a) (st_EdgeIDSeq stamp)); simpl; (split; [|naive_solver]);
      [|done..]. intros _. split_and!; [done..|]. by exists a.
  - split; [|done]. intros _. split_and!; [done..|]. exists a. split_and!; [done|lia|done].
Qed.

(** C25: adopting a snapshot file at boot never panics; if the attempt adopts it, the engine serves, in at most 32 segments, exactly the nodes and visible edges of the database, although the rows that changed since the file was written are known only by the counters of the writes that changed them, and the ledger has been rebased on the counter that was read; otherwise the engine serves what it served before. A file is refused unless it has the lineage of the database and the counter had not fallen behind its stamp, nor stood still while ids were drawn. *)
Theorem adoptSnapshotFile_correct `{GoStd} `{JsonStd} `{!JsonLaws} pg_objectid answers defaultGraph d h ever e snap stamp at_ pgLineage L P settledGen es :
  (∀ b o, objectIDFromProps b = Some o → pg_objectid b = Some o) → (∀ n d', answers n = Some d' → d' = d) → database_fine d h ever →
  adopt_begin at_ snap stamp (Some (P, pgLineage)) = Some P →
  file_shows pg_objectid d h ever snap L (e_bootGap e) (st_Watermark stamp) P → gap_holds (e_bootGap e) es →
  (∀ c, c ∈ be_counter <$> bg_entries (e_bootGap e) → c < 2 ^ 63) → P < 2 ^ 63 → st_Watermark stamp < 2 ^ 63 →
  (∀ en cs id, en ∈ bg_entries (e_bootGap e) → be_cs en = Some cs → id ∈ NodeIDs cs → id ∈ ever) →
  (WatermarkLineage snap = pgLineage ∧ ∃ a, at_ = Some a ∧ st_Watermark stamp ≤ at_counter a ∧
    (at_counter a = st_Watermark stamp → at_nodeSeq a = st_NodeIDSeq stamp ∧ at_edgeSeq a = st_EdgeIDSeq stamp)) ∧
  ∃ e' verdict, adoptSnapshotFileAttempt pg_objectid answers defaultGraph e snap (st_Watermark stamp) P settledGen = Some (e', verdict) ∧
    match verdict with
    | adoptAttemptAdopted _ => e_snap e = None ∧ e_state e' = stateServing ∧
        ∃ p' Ds', e_snap e' = Some p' ∧ View_rep (vp_view p') L Ds' ∧ len (vp_segments p') ≤ maxSegments ∧
          g_nodes (view_graph L Ds') = g_nodes (db_graph d) ∧ visible (view_graph L Ds') = db_edge d ∧
          t_appliedWatermark (e_trust e') = ledger_rebase (t_appliedWatermark (e_trust e)) P
    | _ => e_snap e' = e_snap e ∧ e_state e' = e_state e
    end.
Proof.
  intros Hpg Hrest Hf Hbegin Hfile Hgap H63 HP HF Hids. split.
  - unfold adopt_begin in Hbegin. destruct (String.eqb_spec (fileRefusal at_ (WatermarkLineage snap) stamp pgLineage) EmptyString) as [E|]; [|done].
    apply fileRefusal_none in E as (_ & ? & ?). by split.
  - destruct (attempt_ok pg_objectid answers defaultGraph Hpg d h ever Hf Hrest e snap L (st_Watermark stamp) P settledGen es Hfile Hgap H63 HP HF Hids)
      as (e' & verdict & E & Hv). exists e', verdict. split; [exact E|]. destruct verdict; [exact Hv|..]; unfold core in Hv; by injection Hv.
Qed.

Lemma en_file_shows snap w : en_file = Some (inl (snap, w)) → ∃ L, file_shows en_pg_objectid en_db2 en_hist2 en_ever2 snap L (e_bootGap en_booting) 0 1.
Proof.
  intros El. unfold en_file in El. assert (answers_of en_db en_file_answers) as Ha.
  { destruct en_answers_of as [_ Hk Hn He _]. split; [reflexivity|exact Hk|exact Hn|exact He|by eexists]. }
  pose proof (loaded_ok en_pg_objectid en_start en_file_answers (Some 1%Z) snap w en_fine Ha en_load_fits El) as Hok.
  apply (view_commit en_pg_objectid (λ b o Ho, Ho) en_start (Some en_scope) en_db2 en_ever2 _ en_commit en_fine en_fine2) in Hok.
  destruct Hok as (L & Ds & HR & [Hn He Hh Hk] & Hnm & HL). assert (Ds = []) as -> by (pose proof (vr_segs _ _ _ HR) as HF; by inversion HF).
  clear El. exists L. assert (∀ P : ChangeSet → Prop, P en_changes → by_counter (e_bootGap en_booting) 1 P) as Hby.
  { intros P HP en Hen _. change (bg_entries (e_bootGap en_booting)) with [mkGapEntry 1 (Some en_changes)] in Hen.
    apply list_elem_of_singleton in Hen as ->. exists en_changes. exact (conj eq_refl HP). }
  assert (∀ w, w ∈ [] ++ [Some en_scope] → w = Some en_scope ∧ ¬ unread w) as Hw.
  { intros w' ->%list_elem_of_singleton. split; [reflexivity|]. vm_compute. exact (λ Hf, match Hf with end). }
  split; [exact HR| | |exact Hh|exact Hk|exact Hnm|exact HL].
  - intros id. destruct (Hn id) as [?|(w' & Hw' & Hc)]; [by left|right]. apply Hw in Hw' as [-> Hun]. exists 1. split; [lia|].
    apply Hby. by destruct Hc.
  - intros e. destruct (He e) as [?|[?|(w' & Hw' & Hc)]]; [by left|by right; left|right; right]. apply Hw in Hw' as [-> Hun]. exists 1. split; [lia|].
    apply Hby. by destruct Hc.
Qed.

Lemma adoptSnapshotFile_correct_witness : ∃ snap w L e' p' Ds', en_file = Some (inl (snap, w)) ∧
  adoptSnapshotFileAttempt en_pg_objectid (λ _, Some en_db2) (Some 1%Z) en_booting snap 0 1 0 = Some (e', adoptAttemptAdopted 1) ∧
  e_state e' = stateServing ∧ e_snap e' = Some p' ∧ View_rep (vp_view p') L Ds' ∧
  g_nodes (view_graph L Ds') = g_nodes (db_graph en_db2) ∧ visible (view_graph L Ds') = db_edge en_db2.
Proof.
  assert ((x ← en_file; match x with
    | inl (snap, _) => '(_, v) ← adoptSnapshotFileAttempt en_pg_objectid (λ _, Some en_db2) (Some 1%Z) en_booting snap 0 1 0;
        Some (adopt_begin (Some (mkStartState 1 30 101)) snap en_stamp (Some (1, range 1 17)), v)
    | inr _ => None end) = Some (Some 1, adoptAttemptAdopted 1)) as Hx by (by vm_compute).
  destruct en_file as [[[snap w]|]|] eqn:El; [|discriminate Hx..]. cbn [mbind option_bind] in Hx.
  destruct (en_file_shows snap w El) as [L HL].
  destruct (adoptSnapshotFile_correct en_pg_objectid (λ _, Some en_db2) (Some 1%Z) en_db2 en_hist2 en_ever2 en_booting snap en_stamp
    (Some (mkStartState 1 30 101)) (range 1 17) L 1 0 en_boot_events (λ b o Ho, Ho)) as (_ & e' & verdict & Ea & Hv).
  - intros n d' Hd. injection Hd as <-. reflexivity.
  - exact en_fine2.
  - destruct (adoptSnapshotFileAttempt _ _ _ _ _ _ _ _) as [[e' v]|]; [|discriminate Hx]. cbn [mbind option_bind] in Hx. injection Hx as Hx _. exact Hx.
  - exact HL.
  - exact (gap_run_holds en_boot_events).
  - change (be_counter <$> bg_entries (e_bootGap en_booting)) with [1]. intros c Hc. apply list_elem_of_singleton in Hc as ->. lia.
  - lia.
  - change (st_Watermark en_stamp) with 0. lia.
  - intros en cs id Hen Hcs. change (bg_entries (e_bootGap en_booting)) with [mkGapEntry 1 (Some en_changes)] in Hen.
    apply list_elem_of_singleton in Hen as ->. injection Hcs as <-. intros Hid. clear El Hx HL. exact (False_rect _ (not_elem_of_nil _ Hid)).
  - change (st_Watermark en_stamp) with 0 in Ea. rewrite Ea in Hx. cbn [mbind option_bind] in Hx. injection Hx as _ ->.
    destruct Hv as (_ & Hst & p' & Ds' & Hp & HR & _ & Hn & He & _). exists snap, w, L, e', p', Ds'.
    exact (conj eq_refl (conj Ea (conj Hst (conj Hp (conj HR (conj Hn He)))))).
Defined.
