(* ===== verification/QueryTheorems.v ===== *)
(** * The query interpreter's theorems

    [internal/engine/interpret]: what the matches of a part have to do with the
    graph of the view, and the values a query compares. *)

From S2P Require Import Prelude Bitset Csr Snapshot Builder Segment View ViewAdj EdgeKinds Traverse ViewTraverse Example Rows Values Scan Hops Trails Components Matching ComponentRuns ComponentPaths Joins JoinRuns Optional Stages QueryExample.
From stdpp Require Import options.
Unset Default Proof Using.
#[local] Open Scope N_scope.

(** C3: the matching of a part, with its [WHERE], always returns. Its rows are
    the matches of the part on the graph, each match once and none missing: a
    match gives every symbol a live node with what its pattern asks for, every
    step one edge, or a trail of an allowed length without a repeated edge,
    between its nodes and of its kinds, uses the edge of a step of length one
    once in a pattern, and makes [WHERE] true; a row shows the nodes, edges and
    named paths of its match. An error is a budget that is set, the context,
    an expression's, or a declined shape's. *)
Theorem matchPart_correct `{GoStd} `{Cypher} `{!CypherLaws} `{!EqualityLaws} v L Ds budget ctx fuel limit shortest part comps s :
  View_rep v L Ds → View_NodeCount v < 2 ^ 31 → part_ok v part → patterns_ok part → groupComponents part = Some comps →
  pushed_down v L Ds part comps → reverseTrailRowCap limit = 0 → enough_trails L Ds part fuel → memo_ok v L (x_memo s) →
  ∃ s' r, (let! rows := matchPart v budget ctx fuel limit shortest part in filterRows v rows (Where part))%go s = Some (s', r) ∧
    memo_ok v L (x_memo s') ∧
    match r with
    | inl rows => ∃ ps : list (Row * Match), rows = ps.*1 ∧ NoDup ps.*2 ∧ (∀ p, p ∈ ps → part_shows v part comps p.1 p.2) ∧
        ∀ M, M ∈ ps.*2 ↔ is_match v L Ds part comps M
    | inr e => match_error v budget ctx part comps e
    end.
Proof.
  intros HR Hsize Hpart Hpat Hc Hpush Hlim Hfuel Hm.
  destruct (part_matched v L Ds budget ctx fuel limit shortest part comps (is_match v L Ds part comps) s) as (s' & r & E & Hm' & Hr); try done.
  { intros M HM. split; [done|]. intros s0 n Hn. by apply (Hpush M). }
  exists s', r. split; [done|]. split; [done|]. destruct r as [rows|e]; [|done]. destruct Hr as (ps & Hrows & Hnd & Hps & Hall).
  exists ps. split; [done|]. split; [done|]. split; [intros p Hp; by apply Hps|]. intros M. split; [|apply Hall].
  intros (p & -> & Hp)%list_elem_of_fmap. by apply Hps.
Qed.

Lemma qx_fuel L : base_graph L = staged_graph ex_nodes ex_edges → enough_trails L [ex_delta] qx_part 1000.
Proof.
  intros Hg i step range [_ ->]%qx_chain [= <-]. unfold edge_total, view_graph. simpl. rewrite Hg. vm_compute. reflexivity.
Qed.
Lemma qx_pushed v L Ds : pushed_down v L Ds qx_part qx_comps.
Proof.
  intros M s n _ _. destruct (Nodes qx_part !! s) as [nc|] eqn:Enc; [|done]. apply qx_node in Enc as (_ & _ & Hp & Hx). simpl. rewrite Hp, Hx. done.
Qed.
Lemma matchPart_correct_witness : ∃ v L s' rows ps, ex_view = Some v ∧ qx_run v = Some (s', inl rows) ∧ rows = ps.*1 ∧
  qx_rows (qx_run v) = Some qx_answer ∧ ∀ M, M ∈ ps.*2 ↔ is_match v L [ex_delta] qx_part qx_comps M.
Proof.
  destruct ex_view_rep as (v & L & E & HR & Hn & Hg).
  destruct (matchPart_correct v L [ex_delta] qx_budget None 1000 None qx_no_shortest qx_part qx_comps qx_start HR Hn (qx_part_ok v) qx_patterns_ok qx_groups
    (qx_pushed v L _) eq_refl (qx_fuel L Hg) (qx_memo v L)) as (s' & r & Er & _ & Hr).
  pose proof (qx_runs v E) as Hx. assert (qx_run v = Some (s', r)) as Ev by exact Er. destruct r as [rows|e]; [|rewrite Ev in Hx; discriminate Hx].
  destruct Hr as (ps & Hrows & _ & _ & Hps). exists v, L, s', rows, ps. split; [exact E|]. split; [exact Ev|]. split; [exact Hrows|]. split; [exact Hx|exact Hps].
Defined.



(** C14: [groupComponents] returns, and its components partition the symbols
    and the steps of a part; a component has the ends of its steps, and its
    symbols are connected by them: whatever holds of one symbol, and of both
    ends of a step or of neither, holds of all. *)
Theorem groupComponents_correct `{GoStd} `{Cypher} (part : Part) :
  (∀ i st, Chains part !! i = Some st → FromSym st ∈ dom (Nodes part) ∧ ToSym st ∈ dom (Nodes part)) →
  ∃ comps, groupComponents part = Some comps ∧
    NoDup (mjoin (c_syms <$> comps)) ∧ (∀ s, s ∈ mjoin (c_syms <$> comps) ↔ s ∈ dom (Nodes part)) ∧
    mjoin (c_stepIdxs <$> comps) ≡ₚ seq 0 (length (Chains part)) ∧
    ∀ c, c ∈ comps → c_syms c ≠ [] ∧
      (∀ i, i ∈ c_stepIdxs c → ∃ st, Chains part !! i = Some st ∧ FromSym st ∈ c_syms c ∧ ToSym st ∈ c_syms c) ∧
      ∀ (V : gset string) s t, s ∈ c_syms c → t ∈ c_syms c →
        (∀ i st, i ∈ c_stepIdxs c → Chains part !! i = Some st → FromSym st ∈ V ↔ ToSym st ∈ V) → s ∈ V → t ∈ V.
Proof.
  intros Hends. destruct (groupComponents_ok part Hends) as (comps & Hc & Hs & Hi & Hok). exists comps. split; [done|].
  split; [rewrite Hs; apply NoDup_part_syms|]. split; [intros s; by rewrite Hs, elem_part_syms|]. split; [done|].
  intros c Hin. destruct (Hok c Hin) as [_ Hne Hx _ Hconn]. split; [done|]. split; [done|].
  intros V s t Hsc Htc HV HsV. apply (Hconn s V); [done|done| |done]. intros i st Hic Hst. pose proof (HV i st Hic Hst). tauto.
Qed.

Lemma groupComponents_correct_witness : ∃ comps, groupComponents qx_part = Some comps ∧ comps = qx_comps ∧
  mjoin (c_stepIdxs <$> comps) ≡ₚ seq 0 1.
Proof.
  destruct (groupComponents_correct qx_part) as (comps & Hc & _ & _ & Hi & _).
  - intros i st [-> ->]%qx_chain. split; apply elem_of_dom; eexists; reflexivity.
  - exists comps. split; [exact Hc|]. split; [|exact Hi]. rewrite qx_groups in Hc. by injection Hc.
Defined.

(** ** Anchors, hops and trails *)

(** C15: the anchor of a component: [hintForAnchor] and the scan it steers always
    return, with one row for each of some nodes, each node once. Every node
    scanned is alive, satisfies its constraint and the constraint's
    predicates; and no node is missing that does, that the candidates of its
    properties allow and that each step of the component could end at. *)
Theorem scanAnchor_correct `{GoStd} `{Cypher} v L Ds budget ctx part idxs sym nc s :
  View_rep v L Ds → nc_proper v nc → memo_ok v L (x_memo s) →
  ∃ s' r, (let! hint := hintForAnchor v part idxs sym in scanAnchorHinted v budget ctx sym nc hint)%go s = Some (s', r) ∧ memo_ok v L (x_memo s') ∧
    match r with
    | inl rows => ∃ ns, rows = SetNode NewRow sym <$> ns ∧ NoDup ns ∧
        (∀ n, n ∈ ns → Alive v n = true ∧ nodeSatisfiesConstraint v nc n = Some true ∧ preds_hold v nc (SetNode NewRow sym n) = true) ∧
        ∀ n, Alive v n = true → nodeSatisfiesConstraint v nc n = Some true → preds_hold v nc (SetNode NewRow sym n) = true → nc_allows nc n →
          (∀ i step, i ∈ idxs → Chains part !! i = Some step → step_end v L Ds step sym n) → n ∈ ns
    | inr e => out_of_budget budget ctx e ∨ eval_error v e
    end.
Proof.
  intros HR Hnc Hm. set (E := λ e, out_of_budget budget ctx e ∨ eval_error v e).
  assert (∀ n, admits_node v sym nc None n = true ↔ Alive v n = true ∧ nodeSatisfiesConstraint v nc n = Some true ∧ preds_hold v nc (SetNode NewRow sym n) = true) as Ha.
  { intros n. unfold admits_node. simpl. rewrite !andb_true_iff. destruct (nodeSatisfiesConstraint v nc n) as [[]|]; simpl; naive_solver. }
  eapply (runs_then (λ s, memo_ok v L (x_memo s)) E); [by eapply (runs_hintForAnchor v L Ds HR)| |exact Hm].
  intros hint [Hp Hh]. eapply runs_mono; [eapply (runs_scanAnchorHinted v L Ds HR budget ctx E); [intros e He; by left|intros e He; by right|done..]|].
  intros rows (ns & Hnd & Hrows & Hs & Hall). exists ns. split; [done|]. split; [done|]. split; [intros n Hn; by apply Ha, Hs|].
  intros n H1 H2 H3 H4 H5. apply Hall; [by apply Ha|by apply Hh|done].
Qed.

Lemma scanAnchor_correct_witness : ∃ v s' r, ex_view = Some v ∧
  (let! hint := hintForAnchor v qx_part [0%nat] "a" in scanAnchorHinted v qx_budget None "a" (Nodes qx_part !! "a"%string) hint)%go qx_start = Some (s', r) ∧
  r = inl (SetNode NewRow "a" <$> [0; 2]).
Proof.
  destruct ex_view_rep as (v & L & E & HR & _ & _).
  destruct (scanAnchor_correct v L [ex_delta] qx_budget None qx_part [0%nat] "a" (Nodes qx_part !! "a"%string) qx_start HR) as (s' & r & Er & _ & _).
  - exact (proj1 (proj2 (po_nodes _ _ (qx_part_ok v) "a" _ eq_refl))).
  - apply qx_memo.
  - exists v, s', r. split; [exact E|]. split; [exact Er|].
    pose proof (computed ex_view v (λ v, r ← (let! hint := hintForAnchor v qx_part [0%nat] "a" in scanAnchorHinted v qx_budget None "a" (Nodes qx_part !! "a"%string) hint)%go qx_start; Some r.2)
      (Some (inl (SetNode NewRow "a" <$> [0; 2]))) E) as Hc. cbv beta in Hc. rewrite Er in Hc. cbn [mbind option_bind snd] in Hc. by injection (Hc ltac:(vm_compute; reflexivity)).
Defined.

(** C31: from a live node, [adjacency] lists the edges a step may go along from
    that end, each once, with the node at the other end: the visible edges in
    the step's direction, or in either direction between two nodes. *)
Theorem adjacency_correct `{GoStd} v L Ds budget ctx step n id (from : bool) s :
  View_rep v L Ds → View_NodeCount v < 2 ^ 31 → idx (view_ids v) n = Some id → is_Some (g_nodes (view_graph L Ds) !! id) → from = true ∨ FromSym step ≠ ToSym step →
  ∃ s' r, adjacency v budget ctx step n from s = Some (s', r) ∧ x_memo s' = x_memo s ∧
    match r with
    | inl cs => ∃ es : list (NodeID * KindID * N), cs = cand v <$> es ∧ NoDup es ∧
        ∀ t k e, (t, k, e) ∈ es ↔ ∃ tid, idx (view_ids v) t = Some tid ∧ (if from then joins L Ds step id tid k e else joins L Ds step tid id k e)
    | inr e => out_of_budget budget ctx e
    end.
Proof.
  intros HR Hsize Hid Hlive Hends.
  destruct (runs_adjacency v L Ds HR Hsize budget ctx (λ m, m = x_memo s) (out_of_budget budget ctx) (λ e He, He) step n id from Hid s eq_refl) as (s' & r & E & Hm & Hr).
  exists s', r. split; [done|]. split; [done|]. destruct r as [cs|e]; [|done]. exists (hops v L step n from). split; [done|].
  split; [apply (hops_once v L Ds HR); by exists id|]. intros t k e. by apply (hops_spec v L Ds HR).
Qed.

Lemma qx_idx v n id : ex_view = Some v → idx (view_ids v) n = Some id ↔ idx [10; 20; 30; 40] n = Some id.
Proof. intros E. assert (view_ids v = [10; 20; 30; 40]) as ->; [|done]. apply (computed ex_view v view_ids _ E). vm_compute. reflexivity. Qed.
Lemma qx_alive L id : base_graph L = staged_graph ex_nodes ex_edges → bool_decide (id ∈ [10; 20; 30; 40]) = true → is_Some (g_nodes (view_graph L [ex_delta]) !! id).
Proof.
  intros Hg Hin%bool_decide_eq_true. unfold view_graph. rewrite Hg. rewrite !elem_of_cons in Hin.
  destruct Hin as [->|[->|[->|[->|Hn]]]]; [by eexists; vm_compute; reflexivity..|by apply not_elem_of_nil in Hn].
Qed.
Lemma adjacency_correct_witness : ∃ v s' cs, ex_view = Some v ∧ adjacency v qx_budget None qx_step 2 true qx_start = Some (s', inl cs) ∧ len cs = 2.
Proof.
  destruct ex_view_rep as (v & L & E & HR & Hn & Hg).
  destruct (adjacency_correct v L [ex_delta] qx_budget None qx_step 2 30 true qx_start HR Hn) as (s' & r & Er & _ & _).
  - apply (qx_idx v 2 30 E). reflexivity.
  - by apply qx_alive.
  - by left.
  - pose proof (computed ex_view v (λ v, match adjacency v qx_budget None qx_step 2 true qx_start with Some (_, inl cs) => len cs | _ => 0 end) 2 E) as Hc. cbv beta in Hc. rewrite Er in Hc.
    destruct r as [cs|e]; [|discriminate (Hc ltac:(vm_compute; reflexivity))]. exists v, s', cs. split; [exact E|]. split; [exact Er|]. apply Hc. vm_compute. reflexivity.
Defined.

(** C8: a variable-length step from a live node, with the set of nodes it may
    still go through: the walk always returns, with a row for each trail of an
    allowed length that starts at the node, each once: a trail goes along
    visible edges of the step's kinds, repeats none of them, uses none that the
    pattern has used, and ends at a node that satisfies its constraint. *)
Theorem varLengthTrails_correct `{GoStd} `{Cypher} v L Ds budget ctx fuel step range toNC seed key root s :
  View_rep v L Ds → View_NodeCount v < 2 ^ 31 → st_Range step = Some range → st_Direction step = DirectionOutbound →
  (0 ≤ rg_Min range)%Z ∧ (1 ≤ rg_Max range)%Z → Node seed (FromSym step) = Some root → live_node v L Ds root →
  (1 + edge_total L Ds) ^ Z.to_N (rg_Max range) < fuel → memo_ok v L (x_memo s) →
  ∃ s' r, (let! contIDs := trailContinuationSet v step true in expandVarLengthTrailsForSeed v budget ctx fuel step toNC seed key contIDs)%go s = Some (s', r) ∧
    memo_ok v L (x_memo s') ∧
    match r with
    | inl rows => ∃ ts, NoDup ts ∧ rows = trail_row_for v step (ToSym step) key seed (Reversed step) <$> ts ∧
        ∀ ns es, (ns, es) ∈ ts ↔ trail_found v L Ds step range seed true (sat_node v toNC) root ns es
    | inr e => out_of_budget budget ctx e
    end.
Proof.
  intros HR Hsize Hr Hdir Hrg Hseed Hlive Hfuel Hm.
  eapply (runs_then (λ s, memo_ok v L (x_memo s)) (out_of_budget budget ctx)); [by eapply (runs_continuation v L Ds HR)| |exact Hm].
  intros contIDs Hc. eapply runs_mono; [by eapply (runs_forSeed v L Ds HR Hsize)|]. intros rows ->.
  destruct (trails_of_spec v L Ds HR Hsize step range seed true (sat_node v toNC) contIDs root Hrg Hc Hlive (or_introl eq_refl)) as [Hnd Hts]. by eexists.
Qed.

Lemma varLengthTrails_correct_witness : ∃ v s' rows, ex_view = Some v ∧
  (let! contIDs := trailContinuationSet v qx_step true in
   expandVarLengthTrailsForSeed v qx_budget None 1000 qx_step None (SetNode NewRow "a" 0) "p" contIDs)%go qx_start = Some (s', inl rows) ∧ len rows = 2.
Proof.
  destruct ex_view_rep as (v & L & E & HR & Hn & Hg).
  destruct (varLengthTrails_correct v L [ex_delta] qx_budget None 1000 qx_step (mkRange 1 2) None (SetNode NewRow "a" 0) "p" 0 qx_start HR Hn) as (s' & r & Er & _ & _).
  - reflexivity.
  - reflexivity.
  - simpl. lia.
  - reflexivity.
  - exists 10. split; [apply (qx_idx v 0 10 E); reflexivity|by apply qx_alive].
  - apply (qx_fuel L Hg 0%nat qx_step (mkRange 1 2)); reflexivity.
  - apply qx_memo.
  - pose proof (computed ex_view v (λ v, match (let! contIDs := trailContinuationSet v qx_step true in
      expandVarLengthTrailsForSeed v qx_budget None 1000 qx_step None (SetNode NewRow "a" 0) "p" contIDs)%go qx_start with Some (_, inl rows) => len rows | _ => 0 end) 2 E) as Hc.
    cbv beta in Hc. rewrite Er in Hc. destruct r as [rows|e]; [|discriminate (Hc ltac:(vm_compute; reflexivity))].
    exists v, s', rows. split; [exact E|]. split; [exact Er|]. apply Hc. vm_compute. reflexivity.
Defined.

(** ** Stages *)

(** C5: a [WITH]: on its computed items it always returns. Without aggregates
    it keeps the rows, or with [DISTINCT] the first of each tuple of values,
    and of a row what it names. With aggregates there is a row for each group:
    the rows with one tuple of values, or all rows where nothing is grouped by,
    also if there are none; it has the group's values, the constants, and over
    the group's rows each [COUNT], of rows, of rows with a value or of different
    values, and each [COLLECT], the set of the nodes' ids. *)
Theorem runWithStage_correct `{GoStd} `{Cypher} v budget ctx wc rows s :
  NoDup ((wk_Alias <$> Constants wc) ++ (wa_Alias <$> Aggregates wc)) →
  (∀ x, x ∈ GroupKeys wc → x ∉ (wk_Alias <$> Constants wc) ++ (wa_Alias <$> Aggregates wc)) →
  (∀ r, r ∈ computed_row v wc <$> rows → (∃ cs, row_tuple v (GroupKeys wc) r cs) ∧ ∀ agg, agg ∈ Aggregates wc → readable v agg r) →
  ∃ s' r, runWithStage v budget ctx wc rows s = Some (s', r) ∧ x_memo s' = x_memo s ∧
    match r with
    | inl out => stage_shows v wc (computed_row v wc <$> rows) out
    | inr e => out_of_budget budget ctx e ∨ eval_error v e
    end.
Proof.
  intros Hnd Hsep Hrows. set (E := λ e, out_of_budget budget ctx e ∨ eval_error v e).
  assert (runs (λ s', x_memo s' = x_memo s) E (runWithStage v budget ctx wc rows) (stage_shows v wc (computed_row v wc <$> rows))) as Hr; [|by apply Hr].
  unfold runWithStage. eapply runs_then; [apply (runs_computed v (λ m, m = x_memo s) E (λ e He, or_intror He) wc)|]. intros ? ->.
  apply (runs_stage v budget ctx (λ m, m = x_memo s) E (λ e He, or_introl He) (λ e He, or_intror He) wc Hnd Hsep); intros r; [|intros agg]; intros Hr; by apply Hrows.
Qed.

Lemma runWithStage_correct_witness : ∃ v s' out, ex_view = Some v ∧ qw_run v = Some (s', inl out) ∧
  stage_shows v qw_clause (qw_computed v) out ∧
  qw_shown v <$> out = qw_answer.
Proof.
  destruct ex_view_rep as (v & L & E & HR & Hn & Hg).
  destruct (runWithStage_correct v qx_budget None qw_clause qw_rows qx_start) as (s' & r & Er & _ & Hr).
  - apply qw_aliases.
  - apply qw_aliases.
  - apply (qw_rows_ok v E).
  - assert (qw_run v = Some (s', r)) as Ev by exact Er.
    pose proof (qw_runs v E) as Hx. rewrite Ev in Hx. destruct r as [out|e]; [|discriminate Hx].
    exists v, s', out. split; [exact E|]. split; [exact Ev|]. split; [exact Hr|]. apply (inj Some). exact Hx.
Defined.

(** C30: [RETURN DISTINCT] always returns: it keeps of each projected tuple the
    first row, in order; nodes, edges and paths are the same by their ids, values
    as jsonb compares them, and a property that is absent is only as one that is
    absent too. *)
Theorem dedupProjected_correct `{GoStd} `{Cypher} v width (rows : list (Row * list OutVal)) :
  (∀ x, x ∈ rows → length x.2 = width ∧ ∃ cs, out_tuple v x.2 cs) →
  ∃ kept, dedupProjected v rows = Some kept ∧ first_of_each (λ x y, same_out v x.2 y.2) rows kept.
Proof.
  intros Hrows. exists (firsts (out_key v) ∅ rows). split; [by eapply dedup_firsts|]. apply firsts_first. by apply (out_keys_same v width).
Qed.

Lemma dedupProjected_correct_witness : ∃ v kept, ex_view = Some v ∧ dedupProjected v qd_rows = Some kept ∧
  first_of_each (λ x y, same_out v x.2 y.2) qd_rows kept ∧ kept = take 3 qd_rows.
Proof.
  destruct ex_view_rep as (v & L & E & HR & Hn & Hg). destruct (dedupProjected_correct v 2 qd_rows (qd_rows_ok v E)) as (kept & Ek & Hf).
  exists v, kept. split; [exact E|]. split; [exact Ek|]. split; [exact Hf|].
  pose proof (computed ex_view v (λ v, dedupProjected v qd_rows) (Some (take 3 qd_rows)) E) as Hc. cbv beta in Hc. rewrite Ek in Hc. apply (inj Some), Hc. vm_compute. reflexivity.
Defined.

(** ** Values *)

(** C33: two values of documents are equal, as jsonb compares them, exactly if
    their keys are the same bytes; and no key starts another, so that a list of
    keys one after the other is that of equal values only. *)
Theorem appendScalarKey_correct `{GoStd} a b : value_ok a = true → value_ok b = true →
  (jsonbEqual a b = true ↔ appendScalarKey a = appendScalarKey b) ∧
  ∀ r r', appendScalarKey a ++ r = appendScalarKey b ++ r' → jsonbEqual a b = true ∧ r = r'.
Proof. intros Ha Hb. split; [by apply key_iff_equal|]. intros r r'. by apply same_key_equal. Qed.

(** An object with its keys in either order, and the two zeroes. *)
Definition qx_left : any := AObject [("b"%string, AArray [AFloat 0; ANil]); ("a"%string, ABool true)].
Definition qx_right : any := AObject [("a"%string, ABool true); ("b"%string, AArray [AFloat (2 ^ 63); ANil])].
Lemma appendScalarKey_correct_witness : value_ok qx_left = true ∧ value_ok qx_right = true ∧ appendScalarKey qx_left = appendScalarKey qx_right.
Proof.
  assert (value_ok qx_left = true) as Hl by (vm_compute; reflexivity). assert (value_ok qx_right = true) as Hr by (vm_compute; reflexivity).
  split; [exact Hl|]. split; [exact Hr|]. apply (appendScalarKey_correct qx_left qx_right Hl Hr). vm_compute. reflexivity.
Defined.

(** [Compare] orders the values of documents: the other way round it answers
    the opposite, or fails too, and it answers 0 exactly for equal values;
    against null everything else comes first, and of two types the one of the
    lower rank. *)
Theorem Compare_correct `{GoStd} a b : value_ok a = true → value_ok b = true →
  Compare b a = turned (Compare a b) ∧ (Compare a b = inl 0%Z ↔ jsonbEqual a b = true) ∧
  (a ≠ ANil → Compare a ANil = inl (-1)%Z) ∧ (typeRank a < typeRank b → Compare a b = inl (-1)%Z).
Proof.
  intros Ha Hb. destruct (Compare_spec a b Ha Hb) as [Ht Hz]. split; [done|]. split; [|split].
  - split; [done|]. intros He. destruct a; simpl in *; by rewrite ?He.
  - by destruct a.
  - intros Hr. destruct a, b; simpl in Hr; try lia; reflexivity.
Qed.
Lemma Compare_correct_witness : Compare (AArray [AFloat 0; ABool false]) (AArray [AFloat 0; ABool true]) = inl (-1)%Z ∧
  Compare (AArray [AFloat 0; ABool true]) (AArray [AFloat 0; ABool false]) = inl 1%Z.
Proof.
  assert (Compare (AArray [AFloat 0; ABool false]) (AArray [AFloat 0; ABool true]) = inl (-1)%Z) as Hc by (vm_compute; reflexivity).
  split; [exact Hc|]. rewrite (proj1 (Compare_correct (AArray [AFloat 0; ABool false]) (AArray [AFloat 0; ABool true]) eq_refl eq_refl)), Hc. reflexivity.
Defined.
